(* ===== verification/_CoqProject ===== *)
-Q . S2P
Prelude.v
PyStr.v
PyLines.v
CheckChain.v
Tracker.v
Errors.v
GitUrl.v
Json.v
FireSpec.v
Gap.v
IssueTree.v
Dispatch.v
Topology.v
Criteria.v
Lapse.v
CriterionEvidence.v
Grading.v
CrossOff.v
Trajectory.v
Redispatch.v
Amendment.v
RalphLoop.v
RalphLoopSpec.v
Outcome.v
Sha256.v
BaseResolution.v
LaneRecord.v
LaneEntry.v
FireCriteria.v
ScopeWalker.v
ScopeReady.v
ScopeEnds.v
LoopBoard.v
JobQueue.v
Surface.v
Board.v
Lease.v
Claims.v
LeaseSafety.v
LeaseSystem.v
CommentMarkers.v
IssueIdentity.v
RunEvents.v
SelfWrites.v
Organize.v
Privacy.v
Operation.v
RunRecords.v
OperationLoad.v
LaneRecords.v
LanePort.v
LaneWriter.v
LaneWriterSpec.v
LaneWriterLedger.v
FireContext.v
FireDispatcher.v
PassGate.v
PassScheduler.v
RunAlarm.v
AlarmRecords.v
RunShape.v
GraphMembers.v
AlarmTable.v
LaneAlarms.v
AlarmTicks.v
QuestionAlarms.v
QuestionAges.v
FireDispatcherSpec.v
FireQueue.v
DispatchPasses.v
DispatchHolds.v
ScopePasses.v
