(* ===== verification/Prelude.v ===== *)
(** * kodezart: a verification library

    kodezart takes issues from a tracker, drafts and checks acceptance criteria, runs an
    agent in a loop over a branch, grades what it produced and hands the result on. This
    library models the parts of [src/kodezart] that decide: what may run, on what base,
    who may write where, what a grading is worth and how a run ends. The parts that only
    reach a service (the tracker's wire, git, the agent, HTTP) are arguments of the model.

    ** Files, in dependency order

    - [Prelude]: the result monad, Python's [sorted]/[min]/[dict] on lists, their lemmas,
      and the automation; [PyStr]: the [str] operations, on UTF-8 bytes; [PyLines]:
      [splitlines], [strip] and the scanners behind the regular expressions; [Json]:
      [json.loads], for the one check made with it.
    - [Tracker] (types/domain/tracker.py, scope_address.py, surface.py): issues, relations,
      comments, scopes and surfaces as data. [Errors] (domain/errors.py): the exceptions.
    - [FireSpec] (domain/fire_spec.py, types/domain/fire_spec.py): the line walk that reads
      a criterion's labelled rows past fences and comments, the edit of those rows, the
      sections of a body, and the specification of a fire; [CriterionEvidence]
      (domain/criterion_evidence.py): the Evidence row's record, over that edit.
    - [Gap] (domain/gap.py): what an issue's criteria still owe.
    - [Dispatch] (domain/dispatch.py): eligibility and the draw of the next issue.
    - [Topology] (domain/topology.py): the iterative depth-first search over BLOCKED_BY
      edges, priority inheritance, ready and blocked issues.
    - [Criteria] (types/domain/criteria.py, domain/criteria.py, criteria_feasibility.py,
      fan_in.py): drafted criteria, the feasibility sweep and its fan-in guard.
    - [Lapse] (domain/lapse.py, types/domain/criterion_lifecycle.py), [Grading]
      (domain/criteria_grading.py, accept_gate.py), [CrossOff]
      (domain/criterion_cross_off.py): one pass of grading, what an earlier pass is worth
      at a later head, and the cross-offs a pass leaves.
    - [Trajectory] (domain/trajectory.py, fire_plateau.py) and [Outcome]
      (domain/outcome.py, types/domain/scope_terminal.py): the fold over iterations, the
      plateau, and the one outcome of a run and of a scope.
    - [Redispatch] (core/redispatch.py), [Amendment] (domain/amendment.py and its types):
      the bounded re-dispatch of a session, and what is made of a writer's departures.
    - [RalphLoop] (chains/ralph_loop.py, types/domain/ralph_outcome.py, services/
      mutation_survival.py): one iteration of the loop as two functions of the loop's
      memory and of what the world answers, each returning the trace of its effects; the
      graph that routes and retries them; the barrier past it. [RalphLoopSpec] proves the
      loop over every run of that graph. It composes [Lapse], [CrossOff], [Grading],
      [Trajectory], [Redispatch] and [Amendment] in the order the code calls them.
    - [Sha256]: SHA-256 as [hashlib] computes it; [BaseResolution] (domain/
      base_resolution.py, base_staleness.py, services/base_resolver.py,
      types/domain/branch.py): the base a lane is cut from.
    - [LaneRecord] (domain/lane_record.py, types/domain/run_state.py), [LaneEntry]
      (domain/lane_entry.py, services/lane_entry.py): what a lane's commits leave on its
      record, and how the next fire enters it.
    - [CommentMarkers] (domain/comment_markers.py, tracker_writes.py,
      criterion_amendment.py): the comments the program writes and finds again; [RunEvents]
      (types/domain/run_event.py, domain/run_event_stream.py, audit_claims.py): the lane's
      stream and the audit's reading of it; [LaneRecords] (services/lane_records.py): the
      lane's record as a comment.
    - [IssueIdentity] (adapters/linear/issue_identity.py): the identity line a description
      write keeps; [LanePort] (adapters/linear/tracker.py): the tracker as a lane writes to it, one
      [call] at a time over a board others write to between the calls, any of which may
      fail before or after it is performed, with the rely/guarantee logic [runs];
      [LaneWriter] (services/lane_state_writer.py) is the writer over that port.
      [LaneWriterSpec] proves it over every schedule, [LaneWriterLedger] as the update of a
      ledger when nothing fails.
    - [FireCriteria] (chains/criteria.py, services/scope_membership.py): the reading of a
      subject's subtree, a fire's entry and the barriers over later readings; [LoopBoard]
      puts that reading behind the loop's port.
    - [JobQueue] (adapters/asyncio_job_queue.py, job_registry.py): the dispatcher as a
      record and one function per piece of code between two awaits, interleaved freely.
    - [Surface] (types/domain/surface.py, domain/model_surfaces.py): writable addresses.
    - [Board], [Lease], [Claims], [LeaseSafety], [LeaseSystem] (adapters/linear/tracker.py,
      domain/surface_lease.py, services/run_surface_lease.py): ownership over a log of
      comments. [Board] is the log, what one call may do to it, and the rely/guarantee
      logic [wp]; [Lease] and [Claims] are the programs; [LeaseSafety] proves each of them
      in [wp]; [LeaseSystem] runs any number of holders against one board.
    - [IssueTree] (domain/issue_tree.py): the index of a subtree and the closure that says
      what an issue owes; [ScopeWalker] (chains/scope_walker.py, services/
      scope_planning.py): the ready set of a scope, each read of the tracker an argument of
      its own. [ScopeReady] says what an answer means, [ScopeEnds] when there is one.
    - [Operation] (types/domain/operation.py): the configuration of an operation and what
      it answers; [Privacy] (types/domain/privacy.py): its private facts; [Organize]
      (types/domain/organize.py): the rows of its organize table;
      [CheckChain] (domain/check_chain.py): a repository's declared checks and what a run
      that failed some of them makes of it; [OperationLoad]: the structural check of the
      load, one definition per group of its refusals, proved equal to [well_formed].
    - [FireContext] (services/fire_context.py, types/domain/fire.py): what a fire carries
      into its session.
    - [SelfWrites] (domain/self_writes.py, types/domain/dispatch.py): the bounded ledger of
      the process's own writes and the replay of its receipts; [PassGate]
      (services/pass_gate.py, dispatch_pass.py): the gate of a dispatch tick over that
      ledger; [PassScheduler] (services/pass_scheduler.py, run_recorder.py): the drivers
      that tick the passes, and the record each run leaves; [RunRecords]
      (types/domain/run_records.py): that record's identity; [GitUrl] (domain/git_url.py):
      the addresses of repositories.
    - [RunAlarm] (types/domain/run_alarm.py, domain/run_alarm_record.py): an alarm, its
      evidence, its comment and the transitions announced of it; [AlarmRecords] reads the
      comments back. [RunShape] (domain/run_shape.py, mandate_graph.py, stream_signals.py):
      the twelve signals, each a function of typed readings; [GraphMembers] is the whole
      meaning of one of their reads. [AlarmTable] (domain/run_alarm_table.py,
      tally_record.py, escalation_age_record.py): a record is raised when its own readings
      replay to it, and the two records that remember an earlier reading.
    - [LaneAlarms] (domain/lane_alarms.py, services/alarm_supervisor.py): one lane's
      observation, as the list of writes it makes; [AlarmTicks] proves what whole and
      killed ticks leave. [QuestionAlarms] (services/escalation_ageing_supervisor.py,
      escalation_records.py, escalation_signals.py, supervisor_pass.py): the age of an open
      question, and the pass over every scope, where any read and any write of a lane's
      visit may raise; [QuestionAges] proves them.
    - [FireDispatcher] (services/fire_dispatcher.py, scope_dispatcher.py,
      types/domain/dispatch.py): one pass over a port, [Ports], as a coroutine that keeps
      its memories when it raises. [FireDispatcherSpec] proves it over histories against
      what a queue promises, the class [FreshJobs]; [FireQueue] shows that the queue of
      [JobQueue] keeps the promise and runs the two together; [DispatchPasses] is what a
      pass writes and reports, [DispatchHolds] what holds an issue back, [ScopePasses] what
      a scope's pass fires of its ready set.

    ** How the code is read

    A function that raises returns [result exn]; a coroutine of the adapter is a [prog],
    the tree of its calls. A Python object that is mutated is a record passed along. A
    [dict] is an association list in insertion order ([pydict]), a [set] a [gset], a
    [datetime] or a duration an integer of one unit, an object the model only compares
    its key. Loops are structural recursion where the code consumes a list, and fuel where
    it does not: [Topology.dfs_loop] is given one step more than the nodes and edges of the graph,
    [BaseResolution.nearest] a step per issue of the snapshot and one more; each has a
    theorem that this fuel is never exhausted ([Topology._acyclic_order_spec],
    [BaseResolution.resolve_plan_spec]), so that they are total, not partial, facts.
    [CheckChain.chain_fuel] is a step per declared check and one more.
    [RunShape.walk_rooted] is given a step per row and one more, which is enough
    ([GraphMembers.rooted_ends]). [IssueTree.visit] is given a step per issue and [IssueTree.walk_loop] two; a reading of a
    scope, one per issue of the board for its blockers ([ScopeEnds.ready_set_ends]).

    ** What is proved

    - Queue: an invariant of every reachable state, that no transition raises, FIFO order,
      the concurrency bound, that a started run always ends with its stream closed, and
      what [stop] leaves.
    - Ownership: two holders whose own listings were whole never own one address at once,
      under every interleaving, failure and disappearance, whatever other listings leave
      out ([LeaseSystem.veiled_grants] is what a listing without a rival's marker leads
      to); another job's write is refused; a run's lease object never claims what it lost.
      A call that raised may or may not have been performed; creation times never decrease
      and a key is never reused, which is what the code relies on of the backend; a holder
      runs one operation at a time, which its callers promise.
    - Planning: the search ends and answers with an order or a real cycle; the split of
      candidates; the base of a lane leaves no blocker out; the draw is fair to the rank.
    - Criteria and grading: every dispatched criterion is answered once or the pass fails
      closed; no standing failure is lost; verdicts are the arithmetic they claim to be.
    - Loop: it ends within its bound; what stands as passed was demonstrated by this run at
      the commit it names, and a cleared gate rests on such passes; a lapse is asked about
      once, after the board took the criterion back; [run] returns only over the board and
      the head it evaluated. A node may be retried any number of times after a transient
      failure, from the same memory, with whatever it had already written kept.
    - Board text: the field edit changes the rows it addresses and nothing else, and an
      Evidence record is read back as it was written, for every text without the Unicode
      line separators (with one, the write raises: [CriterionEvidence.separator_refused]).
    - Fire: an entry's spec and roster are one reading; the barrier passes over a later
      board exactly when the roster still stands on it; an accepted run leaves no
      unstarted criterion it did not demonstrate ([LoopBoard.accepted_over_board]). A
      lane's own history always enters again, on one deliverable, base and head.
    - Lane writes: an identity finds the comment written for it and no other; an event or
      a record posted is read back as it was. A verdict's writes never leave more than one
      criterion's row and history apart, never finish an issue whose pass is not on record,
      and the audit finds no other restamped row ([LaneWriterSpec.write_cross_offs_accounts]);
      undisturbed, over bodies the writer's own account wrote, they refine the ledger's
      update ([LaneWriterLedger]). Others are relied on to write no Evidence row and
      nothing on the lane's stream.
    - Runs: the trajectory, the plateau, the landable commit and the outcome.
    - Scopes: the closure walk agrees with the recursion over the subtree; a ready set puts
      every lane of the scope in the place its own and its blockers' subtrees give it; the
      reading ends, but on merged facts with a cycle, which no check sees before the walk
      ([ScopeEnds.cycle_diverges]); a scope's pass fires only what is ready.
    - Dispatch: no issue is worked twice at once, over every history of passes, scope
      passes, ends of runs and the queue's own transitions; a pass did what its report
      says; a failed fire holds its issue until it moves, a rate limit every pass until it
      lapses. The tracker is relied on to answer the issue asked for.
    - Operation: the load accepts exactly the well-formed configurations, and its accessors
      answer over one; a check chain is accepted exactly when it can be classified, and the
      classification splits the failed steps into roots and what they brought down.
    - Passes: the ledger never answers a partial history as a complete one; a gated tick
      tells its pass of everything it read but what its own receipts explain, and a failed
      one leaves its windows to be asked again; a driver reports each run once. A gate with
      a signal listed twice is outside that ([PassGate.repeated_signal_rearm]). JSON
      values and the spelling of an instant are parameters, [JsonValues] and [Stamps].
    - Alarms: a tick that was killed is finished by the next one, from the tracker alone
      and with nothing written twice; records and announcements agree at its end; the
      transitions of a key alternate over every history; a question's age is counted from
      its first sight; one lane's failure is its own; a listing gives back the records
      written. A tick is a list of writes over what it read, so that a killed one is a
      prefix; ticks do not overlap, as the scheduler's driver runs them one at a time. The
      canonical JSON of alarms, questions and session keys is a parameter ([AlarmJson],
      [EscalationJson], [SessionJson]).

    ** Not modelled

    The tracker's wire formats and pagination, GitHub, git and the agent SDK (I/O of
    third-party services); the other LangGraph chains and the services that call them in
    order; a loop resumed from a checkpoint, and the openings of its sessions;
    prompts, settings, HTTP handlers and wiring; the
    admission judgments of types/domain/organize.py, which agents answer; the text encodings of ownership markers.
    The end of a run is heard between two dispatch passes, never while one is suspended in
    a call ([FireDispatcherSpec.happens]), though the code hears it in a task of its own; the
    state history a finished write records for the pass gate is read there, not by
    [LanePort].
    A request still in flight when its holder vanishes is not performed later in the
    model. Same-holder concurrency is outside [LeaseSystem]: [Lease.one_ownership] is
    modelled, but only serial operations of one holder are proved about.
 *)

From stdpp Require Export base gmap strings list pretty sorting.
From Stdlib Require Export ZArith Sorted.

(** * Results: a Python call returns a value or raises *)

Inductive result (E A : Type) : Type :=
| Ok (a : A)
| Err (e : E).
Arguments Ok {E A} a.
Arguments Err {E A} e.

#[export] Instance result_ret E : MRet (result E) := λ A a, Ok a.
#[export] Instance result_bind E : MBind (result E) := λ A B f r,
  match r with Ok a => f a | Err e => Err e end.
#[export] Instance result_fmap E : FMap (result E) := λ A B f r,
  match r with Ok a => Ok (f a) | Err e => Err e end.
#[export] Instance result_eq_dec `{EqDecision E, EqDecision A} : EqDecision (result E A).
Proof. solve_decision. Defined.

Definition is_ok {E A} (r : result E A) : bool :=
  match r with Ok _ => true | Err _ => false end.

(** [guard_err b e k]: Python's [if b: raise e] followed by [k]. *)
Definition raise_if {E A} (b : bool) (e : E) (k : result E A) : result E A :=
  if b then Err e else k.

(** A [for] loop whose body may raise: the accumulator is the loop's state. *)
Fixpoint foldM {E A B} (f : A → B → result E A) (a : A) (l : list B) : result E A :=
  match l with
  | [] => Ok a
  | b :: l => match f a b with Ok a' => foldM f a' l | Err e => Err e end
  end.

Lemma bind_ok {E A B} (r : result E A) (f : A → result E B) b :
  (r ≫= f) = Ok b ↔ ∃ a, r = Ok a ∧ f a = Ok b.
Proof.
  destruct r as [a|e]; simpl.
  - split; [eauto|]. by intros (a' & [= <-] & ?).
  - split; [done|]. by intros (a' & ? & ?).
Qed.

Lemma mret_ok {E A} (a b : A) : (mret a : result E A) = Ok b → a = b.
Proof. by intros [= ->]. Qed.

Lemma raise_if_ok {E A} b (e : E) (k : result E A) a :
  raise_if b e k = Ok a ↔ b = false ∧ k = Ok a.
Proof. destruct b; simpl; split; try done; try tauto. by intros []. Qed.

Lemma foldM_app {E A B} (f : A → B → result E A) a l1 l2 :
  foldM f a (l1 ++ l2) = (foldM f a l1 ≫= λ a', foldM f a' l2).
Proof.
  revert a; induction l1 as [|b l1 IH]; intros a; simpl; [done|].
  destruct (f a b); [apply IH|done].
Qed.

(** The invariant rule of a loop that may raise: what every passing iteration
    preserves, the final state has. *)
Lemma foldM_invariant {E A B} (P : A → Prop) (f : A → B → result E A) l a a' :
  (∀ a b a', b ∈ l → P a → f a b = Ok a' → P a') →
  P a → foldM f a l = Ok a' → P a'.
Proof.
  revert a; induction l as [|b l IH]; intros a Hstep Ha; simpl.
  { by intros [= <-]. }
  destruct (f a b) as [a1|] eqn:E1; [|done].
  apply IH.
  - intros a0 b0 a0' Hb. apply Hstep. by right.
  - eapply Hstep; [by left|exact Ha|exact E1].
Qed.

(** A loop no iteration of which raises does not raise. *)
Lemma foldM_no_raise {E A B} (P : A → Prop) (f : A → B → result E A) l a :
  (∀ a b, b ∈ l → P a → ∃ a', f a b = Ok a' ∧ P a') →
  P a → ∃ a', foldM f a l = Ok a' ∧ P a'.
Proof.
  revert a; induction l as [|b l IH]; intros a Hstep Ha; simpl; [eauto|].
  destruct (Hstep a b) as (a1 & -> & Ha1); [by left|done|].
  apply IH; [|done]. intros a0 b0 Hb. apply Hstep. by right.
Qed.

(** A comprehension whose element expression may raise. *)
Lemma mapM_ok {E A B} (f : A → result E B) l k :
  mapM f l = Ok k ↔ Forall2 (λ x y, f x = Ok y) l k.
Proof.
  revert k; induction l as [|x l IH]; intros k; simpl.
  { split; [by intros [= <-]|]. by inversion_clear 1. }
  rewrite bind_ok. setoid_rewrite bind_ok. split.
  - intros (y & ? & k' & Hk & [= <-]). constructor; [done|]. by apply IH.
  - inversion_clear 1 as [|? y ? k' Hy Hk]. exists y. split; [done|].
    exists k'. by rewrite IH.
Qed.

Lemma mapM_all_ok {E A B} (R : A → B → Prop) (f : A → result E B) l :
  (∀ x, x ∈ l → ∃ y, f x = Ok y ∧ R x y) → ∃ k, mapM f l = Ok k ∧ Forall2 R l k.
Proof.
  induction l as [|x l IH]; intros Hf; simpl; [by exists []|].
  destruct (Hf x) as (y & -> & HR); [by left|]. simpl.
  destruct IH as (k & -> & Hk); [intros; apply Hf; by right|].
  exists (y :: k). by repeat constructor.
Qed.

Lemma mapM_err {E A B} (f : A → result E B) l e :
  mapM f l = Err e → ∃ x, x ∈ l ∧ f x = Err e.
Proof.
  induction l as [|x l IH]; simpl; [done|].
  destruct (f x) as [y|e'] eqn:Hx; simpl.
  - destruct (mapM f l) as [k|e']; simpl; [done|]. intros [= ->].
    destruct IH as (z & ? & ?); [done|]. exists z. split; [by right|done].
  - intros [= ->]. exists x. split; [by left|done].
Qed.

(** Destructs every successful [bind], [raise_if] and result equation. *)
Ltac ok_inv :=
  repeat match goal with
  | H : (_ ≫= _) = Ok _ |- _ =>
      let a := fresh "v" in let H1 := fresh "Hv" in
      apply bind_ok in H; destruct H as (a & H1 & H)
  | H : raise_if _ _ _ = Ok _ |- _ =>
      let H1 := fresh "Hg" in apply raise_if_ok in H; destruct H as [H1 H]
  | H : mret _ = Ok _ |- _ => apply mret_ok in H
  | H : Ok _ = Ok _ |- _ => injection H as H
  | H : Err _ = Ok _ |- _ => discriminate H
  | H : Ok _ = Err _ |- _ => discriminate H
  end.

(** * Searching a sequence *)

(** [next((x for x in l if p(x)), None)] *)
Fixpoint first_such {A} (p : A → bool) (l : list A) : option A :=
  match l with [] => None | x :: l => if p x then Some x else first_such p l end.

Lemma first_such_Some {A} (p : A → bool) l x :
  first_such p l = Some x ↔
  ∃ l1 l2, l = l1 ++ x :: l2 ∧ p x = true ∧ Forall (λ y, p y = false) l1.
Proof.
  induction l as [|y l IH]; simpl.
  { split; [done|]. by intros ([|??] & ? & ? & _). }
  destruct (p y) eqn:Hy.
  - split; [intros [= ->]; by exists [], l|].
    intros ([|z l1] & l2 & [= -> ?] & Hx & Hl); [done|].
    apply Forall_cons in Hl as [Hz _]. congruence.
  - rewrite IH. split.
    + intros (l1 & l2 & -> & Hx & Hl). exists (y :: l1), l2. by repeat constructor.
    + intros ([|z l1] & l2 & [= -> ->] & Hx & Hl); [congruence|].
      apply Forall_cons in Hl as [_ Hl]. by exists l1, l2.
Qed.

Lemma first_such_None {A} (p : A → bool) l :
  first_such p l = None ↔ Forall (λ x, p x = false) l.
Proof.
  induction l as [|y l IH]; simpl; [done|]. rewrite Forall_cons.
  destruct (p y); [split; [done|by intros [? _]]|]. rewrite IH. tauto.
Qed.

(** [min(l)] of a non-empty sequence [x :: l]: the first least element. *)
Definition py_min {A} (ltb : A → A → bool) (x : A) (l : list A) : A :=
  foldl (λ best y, if ltb y best then y else best) x l.

Lemma py_min_elem {A} (ltb : A → A → bool) x l : py_min ltb x l ∈ x :: l.
Proof.
  unfold py_min. revert x; induction l as [|y l IH]; intros x; simpl; [by left|].
  specialize (IH (if ltb y x then y else x)). destruct (ltb y x); set_solver.
Qed.

Lemma filter_of_fmap {A B} (f : A → B) (P : B → Prop) `{∀ x, Decision (P x)} (l : list A) :
  filter P (f <$> l) = f <$> filter (λ x, P (f x)) l.
Proof.
  induction l as [|x l IH]; [done|]. rewrite fmap_cons, !filter_cons, IH. by case_decide.
Qed.

(** Two filters that agree on the members of a list agree on the list. *)
Lemma filter_ext_in {A} (P Q : A → Prop) `{∀ x, Decision (P x), ∀ x, Decision (Q x)} (l : list A) :
  (∀ x, x ∈ l → P x ↔ Q x) → filter P l = filter Q l.
Proof.
  induction l as [|x l IH]; intros HPQ; [done|]. rewrite !filter_cons.
  rewrite (IH (λ y Hy, HPQ y (list_elem_of_further _ _ _ Hy))).
  pose proof (HPQ x (list_elem_of_here _ _)). repeat case_decide; tauto.
Qed.

(** Filtering keeps the distinctness of a projection. *)
Lemma filter_none {A} (P : A → Prop) `{∀ x, Decision (P x)} (l : list A) :
  (∀ x, x ∈ l → ¬ P x) → filter P l = [].
Proof.
  induction l as [|x l IH]; intros Hl; [done|]. rewrite filter_cons, decide_False.
  - apply IH. intros y Hy. apply Hl. by right.
  - apply Hl. by left.
Qed.

Lemma NoDup_fmap_filter {A B} (f : A → B) (P : A → Prop) `{∀ x, Decision (P x)} (l : list A) :
  NoDup (f <$> l) → NoDup (f <$> filter P l).
Proof.
  induction l as [|x l IH]; [done|]. rewrite fmap_cons, NoDup_cons. intros [Hx Hl].
  rewrite filter_cons. case_decide; [|by apply IH]. rewrite fmap_cons, NoDup_cons.
  split; [|by apply IH]. intros (y & Hy & Hin)%list_elem_of_fmap. apply Hx.
  apply list_elem_of_filter in Hin as [_ Hin]. apply list_elem_of_fmap. by exists y.
Qed.

(** [len(set(l)) == len(l)]: no element repeats. *)
Lemma NoDup_fmap_elem {A B} (f : A → B) (l : list A) x y :
  NoDup (f <$> l) → x ∈ l → y ∈ l → f x = f y → x = y.
Proof.
  intros Hnd [i Hi]%list_elem_of_lookup [j Hj]%list_elem_of_lookup Hf.
  assert (i = j) as ->; [|congruence].
  eapply NoDup_lookup; [exact Hnd|..]; rewrite list_lookup_fmap.
  - by rewrite Hi.
  - by rewrite Hj, Hf.
Qed.

Lemma size_list_to_set_le `{Countable A} (l : list A) :
  size (list_to_set l : gset A) ≤ length l.
Proof.
  induction l as [|x l IH]; [done|]. simpl. rewrite size_union_alt, size_singleton.
  pose proof (subseteq_size (list_to_set l ∖ {[x]}) (list_to_set l : gset A)). set_solver by lia.
Qed.

Lemma size_list_to_set_NoDup `{Countable A} (l : list A) :
  size (list_to_set l : gset A) = length l ↔ NoDup l.
Proof.
  split; [|by apply size_list_to_set].
  induction l as [|x l IH]; [constructor|]. simpl. intros Hsize.
  pose proof (size_list_to_set_le l) as Hle.
  destruct (decide (x ∈ l)) as [Hin|Hn].
  - assert ({[x]} ∪ list_to_set l = (list_to_set l : gset A)) as Heq by set_solver.
    rewrite Heq in Hsize. lia.
  - constructor; [done|]. apply IH. rewrite size_union, size_singleton in Hsize by set_solver.
    lia.
Qed.

Lemma StronglySorted_filter {A} (R : A → A → Prop) (P : A → Prop) `{∀ x, Decision (P x)} l :
  StronglySorted R l → StronglySorted R (filter P l).
Proof.
  induction 1 as [|x l _ IH Hx]; [constructor|]. rewrite filter_cons. case_decide; [|done].
  constructor; [done|]. rewrite Forall_forall in Hx |- *.
  intros y [_ Hy]%list_elem_of_filter. by apply Hx.
Qed.

Lemma StronglySorted_snoc {A} (R : A → A → Prop) l x :
  StronglySorted R l → Forall (λ y, R y x) l → StronglySorted R (l ++ [x]).
Proof.
  induction 1 as [|y l _ IH Hy]; intros Hx; cbn; [by repeat constructor|].
  apply Forall_cons in Hx as [Hyx Hx]. constructor; [by apply IH|].
  apply Forall_app. split; [done|by constructor].
Qed.

Lemma StronglySorted_lookup_lt {A} (R : A → A → Prop) l i j x y :
  StronglySorted R l → l !! i = Some x → l !! j = Some y → i < j → R x y.
Proof.
  intros Hs. revert i j. induction Hs as [|z l Hs IH Hz]; intros i j; [done|].
  destruct i as [|i], j as [|j]; cbn; try lia.
  - intros [= <-] Hy _. rewrite Forall_forall in Hz. by apply Hz, list_elem_of_lookup_2 with j.
  - intros Hx Hy Hij. apply (IH i j); [done..|lia].
Qed.

Lemma StronglySorted_remove {A} (R : A → A → Prop) l1 x l2 :
  StronglySorted R (l1 ++ x :: l2) → StronglySorted R (l1 ++ l2).
Proof.
  induction l1 as [|y l1 IH]; cbn; intros H; apply StronglySorted_inv in H as [H Hy]; [done|].
  constructor; [by apply IH|]. apply Forall_app in Hy as [? Hy]. apply Forall_cons in Hy as [_ ?].
  by apply Forall_app.
Qed.

(** * Orders: what Python's [sorted] and [min] compare by *)

Class PyOrd (K : Type) := {
  key_leb : K → K → bool;
  key_leb_total x y : key_leb x y = true ∨ key_leb y x = true;
  key_leb_trans x y z : key_leb x y = true → key_leb y z = true → key_leb x z = true;
  key_leb_antisym x y : key_leb x y = true → key_leb y x = true → x = y;
}.

Definition key_ltb `{PyOrd K} (x y : K) : bool := negb (key_leb y x).

Lemma key_leb_refl `{PyOrd K} (x : K) : key_leb x x = true.
Proof. by destruct (key_leb_total x x). Qed.

#[export] Program Instance Z_pyord : PyOrd Z := {| key_leb := Z.leb |}.
Next Obligation. intros; rewrite !Z.leb_le; lia. Qed.
Next Obligation. intros x y z; rewrite !Z.leb_le; lia. Qed.
Next Obligation. intros x y; rewrite !Z.leb_le; lia. Qed.

#[export] Program Instance nat_pyord : PyOrd nat := {| key_leb := Nat.leb |}.
Next Obligation. intros; rewrite !Nat.leb_le; lia. Qed.
Next Obligation. intros x y z; rewrite !Nat.leb_le; lia. Qed.
Next Obligation. intros x y; rewrite !Nat.leb_le; lia. Qed.

(** Tuples compare lexicographically. *)
#[export] Program Instance prod_pyord `{PyOrd K1, PyOrd K2} : PyOrd (K1 * K2) :=
  {| key_leb x y :=
       key_leb x.1 y.1 && (negb (key_leb y.1 x.1) || key_leb x.2 y.2) |}.
Next Obligation.
  intros K1 ? K2 ? [x1 x2] [y1 y2]; simpl.
  destruct (key_leb_total x1 y1), (key_leb_total x2 y2), (key_leb x1 y1), (key_leb y1 x1),
    (key_leb x2 y2), (key_leb y2 x2); naive_solver.
Qed.
Next Obligation.
  intros K1 ? K2 ? [x1 x2] [y1 y2] [z1 z2]; simpl.
  rewrite !andb_true_iff, !orb_true_iff, !negb_true_iff.
  intros [Hxy1 Hxy2] [Hyz1 Hyz2]. split; [eapply key_leb_trans; eauto|].
  destruct (key_leb z1 x1) eqn:Hzx; [|by left]. right.
  assert (key_leb y1 x1 = true) by (eapply key_leb_trans; eauto).
  assert (key_leb z1 y1 = true) by (eapply key_leb_trans; eauto).
  destruct Hxy2; [congruence|]. destruct Hyz2; [congruence|].
  eapply key_leb_trans; eauto.
Qed.
Next Obligation.
  intros K1 ? K2 ? [x1 x2] [y1 y2]; simpl.
  rewrite !andb_true_iff, !orb_true_iff, !negb_true_iff.
  intros [Hxy1 Hxy2] [Hyz1 Hyz2].
  destruct Hxy2; [congruence|]. destruct Hyz2; [congruence|].
  f_equal; by apply key_leb_antisym.
Qed.

(** Sequences compare lexicographically, a prefix first. *)
Fixpoint list_leb `{PyOrd K} (l k : list K) : bool :=
  match l, k with
  | [], _ => true
  | _ :: _, [] => false
  | x :: l, y :: k => key_leb x y && (negb (key_leb y x) || list_leb l k)
  end.
#[export] Program Instance list_pyord `{PyOrd K} : PyOrd (list K) := {| key_leb := list_leb |}.
Next Obligation.
  intros K ? l. induction l as [|x l IH]; intros [|y k]; cbn; [by left..|by right|].
  destruct (key_leb_total x y), (IH k), (key_leb x y), (key_leb y x); naive_solver.
Qed.
Next Obligation.
  intros K ? l. induction l as [|x l IH]; intros [|y k] [|z m]; cbn; try done.
  rewrite !andb_true_iff, !orb_true_iff, !negb_true_iff.
  intros [Hxy1 Hxy2] [Hyz1 Hyz2]. split; [eapply key_leb_trans; eauto|].
  destruct (key_leb z x) eqn:Hzx; [|by left]. right.
  assert (key_leb y x = true) by (eapply key_leb_trans; eauto).
  assert (key_leb z y = true) by (eapply key_leb_trans; eauto).
  destruct Hxy2; [congruence|]. destruct Hyz2; [congruence|]. by apply (IH k m).
Qed.
Next Obligation.
  intros K ? l. induction l as [|x l IH]; intros [|y k]; cbn; try done.
  rewrite !andb_true_iff, !orb_true_iff, !negb_true_iff.
  intros [Hxy1 Hxy2] [Hyx1 Hyx2].
  destruct Hxy2; [congruence|]. destruct Hyx2; [congruence|].
  f_equal; [by apply key_leb_antisym|by apply IH].
Qed.

(** Strictly less on the first component, or equal there and less on the second. *)
Lemma prod_leb_iff `{PyOrd K1, PyOrd K2} (a c : K1) (b d : K2) :
  key_leb (a, b) (c, d) = true ↔
  (key_leb a c = true ∧ a ≠ c) ∨ (a = c ∧ key_leb b d = true).
Proof.
  simpl. rewrite andb_true_iff, orb_true_iff, negb_true_iff. split.
  - intros [Hac [Hca|Hbd]].
    + left. split; [done|]. intros ->. by rewrite key_leb_refl in Hca.
    + destruct (key_leb c a) eqn:Hca; [|left; split; [done|]].
      * right. by split; [apply key_leb_antisym|].
      * intros ->. by rewrite key_leb_refl in Hca.
  - intros [[Hac Hne]|[-> Hbd]].
    + split; [done|]. left. destruct (key_leb c a) eqn:Hca; [|done].
      by destruct Hne; apply key_leb_antisym.
    + split; [apply key_leb_refl|by right].
Qed.

Lemma prod_leb_fst `{PyOrd K1, PyOrd K2} (a c : K1) (b d : K2) :
  key_leb (a, b) (c, d) = true → key_leb a c = true.
Proof. rewrite prod_leb_iff. intros [[? _]|[-> _]]; [done|apply key_leb_refl]. Qed.

Lemma py_min_le_first {A K} `{PyOrd K} (key : A → K) x l :
  key_leb (key (py_min (λ a b, key_ltb (key a) (key b)) x l)) (key x) = true.
Proof.
  unfold py_min, key_ltb. revert x. induction l as [|z l IH]; intros x; simpl;
    [apply key_leb_refl|].
  destruct (key_leb (key x) (key z)) eqn:E; simpl; [apply IH|].
  eapply key_leb_trans; [apply IH|]. destruct (key_leb_total (key x) (key z)); congruence.
Qed.

Lemma py_min_least {A K} `{PyOrd K} (key : A → K) x l y :
  y ∈ x :: l → key_leb (key (py_min (λ a b, key_ltb (key a) (key b)) x l)) (key y) = true.
Proof.
  revert x; induction l as [|z l IH]; intros x Hy.
  { apply list_elem_of_singleton in Hy as ->. apply key_leb_refl. }
  apply elem_of_cons in Hy as [->|Hy]; [apply py_min_le_first|].
  unfold py_min, key_ltb in *; simpl.
  destruct (key_leb (key x) (key z)) eqn:E; simpl; [|by apply IH].
  apply elem_of_cons in Hy as [->|Hy]; [|by apply IH; right].
  eapply key_leb_trans; [apply (py_min_le_first key x l)|done].
Qed.

(** Python compares [str] by code point; on the UTF-8 bytes the model keeps,
    that is the byte order. *)
Fixpoint str_leb (s t : string) : bool :=
  match s, t with
  | EmptyString, _ => true
  | String _ _, EmptyString => false
  | String a s, String b t =>
      (Ascii.N_of_ascii a <? Ascii.N_of_ascii b)%N
      || ((Ascii.N_of_ascii a =? Ascii.N_of_ascii b)%N && str_leb s t)
  end.

Lemma str_leb_cons a b s t :
  str_leb (String a s) (String b t) = true ↔
  (Ascii.N_of_ascii a < Ascii.N_of_ascii b)%N
  ∨ Ascii.N_of_ascii a = Ascii.N_of_ascii b ∧ str_leb s t = true.
Proof. simpl. by rewrite orb_true_iff, andb_true_iff, N.ltb_lt, N.eqb_eq. Qed.

#[export] Program Instance string_pyord : PyOrd string := {| key_leb := str_leb |}.
Next Obligation.
  intros s; induction s as [|a s IH]; intros [|b t]; [by left..|by right|].
  rewrite !str_leb_cons.
  destruct (N.lt_trichotomy (Ascii.N_of_ascii a) (Ascii.N_of_ascii b)) as [?|[?|?]],
    (IH t); auto.
Qed.
Next Obligation.
  intros s; induction s as [|a s IH]; intros [|b t] [|c u]; try done.
  rewrite !str_leb_cons. intros [|[? ?]] [|[? ?]]; [left; lia..|].
  right; split; [lia|by eapply IH].
Qed.
Next Obligation.
  intros s; induction s as [|a s IH]; intros [|b t]; try done.
  rewrite !str_leb_cons. intros [?|[E ?]] [?|[? ?]]; [lia..|].
  f_equal; [|by apply IH].
  by rewrite <-(Ascii.ascii_N_embedding a), E, Ascii.ascii_N_embedding.
Qed.

(** * [sorted(l, key=key)]: a stable sort *)

Section sorted_by.
Context {A K : Type} `{PyOrd K} (key : A → K).

Fixpoint sort_insert (x : A) (l : list A) : list A :=
  match l with
  | [] => [x]
  | y :: l' => if key_leb (key x) (key y) then x :: y :: l' else y :: sort_insert x l'
  end.

Fixpoint sort_by (l : list A) : list A :=
  match l with [] => [] | x :: l => sort_insert x (sort_by l) end.

Definition key_le (x y : A) : Prop := key_leb (key x) (key y) = true.

Lemma sort_insert_perm x l : sort_insert x l ≡ₚ x :: l.
Proof.
  induction l as [|y l IH]; simpl; [done|].
  case_match; [done|]. rewrite IH. apply Permutation_swap.
Qed.

Lemma sort_by_perm l : sort_by l ≡ₚ l.
Proof. induction l as [|x l IH]; simpl; [done|]. by rewrite sort_insert_perm, IH. Qed.

Lemma sort_insert_sorted x l :
  StronglySorted key_le l → StronglySorted key_le (sort_insert x l).
Proof.
  induction 1 as [|y l Hl IH Hy]; simpl; [repeat constructor|].
  destruct (key_leb (key x) (key y)) eqn:E.
  - constructor; [by constructor|]. constructor; [done|].
    eapply Forall_impl; [exact Hy|]. intros z Hz.
    by eapply (key_leb_trans _ (key y)).
  - constructor; [done|]. rewrite sort_insert_perm. constructor; [|done].
    unfold key_le. destruct (key_leb_total (key x) (key y)); congruence.
Qed.

Lemma sort_by_sorted l : StronglySorted key_le (sort_by l).
Proof. induction l; simpl; [constructor|by apply sort_insert_sorted]. Qed.

(** Elements whose keys tie keep the order they came in. *)
Lemma sort_insert_stable `{EqDecision K} x l k :
  filter (λ y, key y = k) (sort_insert x l) = filter (λ y, key y = k) (x :: l).
Proof.
  induction l as [|y l IH]; [done|]. cbn [sort_insert].
  destruct (key_leb (key x) (key y)) eqn:E; [done|].
  rewrite (filter_cons _ y), IH, !filter_cons. repeat case_decide; try done.
  exfalso. subst k. assert (key x = key y) as Hxy by done.
  rewrite Hxy, key_leb_refl in E. done.
Qed.

Lemma sort_by_stable `{EqDecision K} l k :
  filter (λ y, key y = k) (sort_by l) = filter (λ y, key y = k) l.
Proof.
  induction l as [|x l IH]; [done|]. simpl sort_by.
  rewrite sort_insert_stable, !filter_cons, IH. done.
Qed.

Lemma elem_of_sort_by x l : x ∈ sort_by l ↔ x ∈ l.
Proof. by rewrite sort_by_perm. Qed.

Lemma length_sort_by l : length (sort_by l) = length l.
Proof. by rewrite sort_by_perm. Qed.

(** The order read is lost when no two elements share a key. *)
Lemma sort_by_unique l1 l2 :
  l1 ≡ₚ l2 → NoDup (key <$> l1) → sort_by l1 = sort_by l2.
Proof.
  intros Hp Hnd.
  assert (sort_by l1 ≡ₚ sort_by l2) as Hs by (by rewrite !sort_by_perm).
  assert (NoDup (key <$> sort_by l1)) as Hnd' by (by rewrite sort_by_perm).
  pose proof (sort_by_sorted l1) as H1. pose proof (sort_by_sorted l2) as H2.
  revert Hs Hnd' H1 H2. generalize (sort_by l1) (sort_by l2).
  intros s1 s2 Hs Hnd' Hs1 Hs2. revert s2 Hs Hs2.
  induction Hs1 as [|x s1 Hs1 IH Hx]; intros s2 Hs Hs2.
  { by apply Permutation_nil_l in Hs as ->. }
  destruct s2 as [|y s2]; [by apply Permutation_nil_r in Hs|].
  apply StronglySorted_inv in Hs2 as [Hs2 Hy].
  rewrite fmap_cons, NoDup_cons in Hnd'. destruct Hnd' as [Hx_notin Hnd'].
  assert (y ∈ x :: s1) as Hyin by (rewrite Hs; by left).
  assert (x ∈ y :: s2) as Hxin by (rewrite <-Hs; by left).
  assert (x = y) as <-.
  { apply elem_of_cons in Hyin as [->|Hyin]; [done|].
    apply elem_of_cons in Hxin as [->|Hxin]; [done|].
    exfalso. apply Hx_notin. rewrite Forall_forall in Hx, Hy.
    rewrite (key_leb_antisym (key x) (key y) (Hx _ Hyin) (Hy _ Hxin)).
    by apply list_elem_of_fmap_2. }
  f_equal. apply IH; [done| |done]. by apply Permutation_cons_inv in Hs.
Qed.

(** The same, when elements sharing a key are equal. *)
Lemma sort_by_unique_in l1 l2 :
  l1 ≡ₚ l2 → (∀ x y, x ∈ l1 → y ∈ l1 → key x = key y → x = y) → sort_by l1 = sort_by l2.
Proof.
  intros Hp Hinj. apply StronglySorted_unique_strong with key_le.
  - intros x y Hx Hy Hxy Hyx. rewrite elem_of_sort_by in Hx, Hy. rewrite <-Hp in Hy.
    apply Hinj; [done..|]. by apply key_leb_antisym.
  - apply sort_by_sorted.
  - apply sort_by_sorted.
  - by rewrite !sort_by_perm.
Qed.
End sorted_by.

Lemma sum_with_ext {A} (f g : A → nat) l :
  (∀ x, x ∈ l → f x = g x) → sum_list_with f l = sum_list_with g l.
Proof.
  induction l as [|x l IH]; intros Hfg; simpl; [done|].
  rewrite Hfg by (by left). rewrite IH; [done|]. intros y Hy. apply Hfg. by right.
Qed.

Lemma sum_with_le {A} (f g : A → nat) l :
  (∀ x, x ∈ l → f x ≤ g x)%nat → (sum_list_with f l ≤ sum_list_with g l)%nat.
Proof.
  induction l as [|x l IH]; intros Hfg; simpl; [done|].
  pose proof (Hfg x (list_elem_of_here _ _)).
  assert (sum_list_with f l ≤ sum_list_with g l)%nat; [|lia].
  apply IH. intros y Hy. apply Hfg. by right.
Qed.

(** * Python's insertion-ordered [dict] *)

Notation pydict K V := (list (K * V)).

Section pydict.
Context {K V : Type} `{EqDecision K}.
Implicit Types d : pydict K V.

(** [d.get(k)]; [d[k]] raises where this is [None]. *)
Fixpoint dict_get d (k : K) : option V :=
  match d with
  | [] => None
  | (k', v) :: d => if decide (k' = k) then Some v else dict_get d k
  end.

(** [d[k] = v]: in place for a key already there, appended otherwise. *)
Fixpoint dict_set d (k : K) (v : V) : pydict K V :=
  match d with
  | [] => [(k, v)]
  | (k', v') :: d => if decide (k' = k) then (k', v) :: d else (k', v') :: dict_set d k v
  end.

Definition dict_setdefault d k v : pydict K V :=
  match dict_get d k with Some _ => d | None => dict_set d k v end.

(** [d.pop(k, None)] *)
Definition dict_pop d (k : K) : pydict K V := filter (λ kv, kv.1 ≠ k) d.

Definition dict_keys d : list K := d.*1.
Definition dict_values d : list V := d.*2.
Definition dict_mem d k : bool := bool_decide (k ∈ dict_keys d).

(** A dict comprehension or the [dict] of an iterable of pairs. *)
Definition dict_of (l : list (K * V)) : pydict K V :=
  foldl (λ d kv, dict_set d kv.1 kv.2) [] l.

Lemma dict_get_set_eq d k v : dict_get (dict_set d k v) k = Some v.
Proof. induction d as [|[k' v'] d IH]; simpl; repeat (case_decide; simpl); done. Qed.

Lemma dict_get_set_ne d k k' v : k ≠ k' → dict_get (dict_set d k v) k' = dict_get d k'.
Proof.
  intros Hk. induction d as [|[j v'] d IH]; simpl; repeat (case_decide; simpl); try done.
  all: congruence.
Qed.

Lemma dict_get_set d k k' v :
  dict_get (dict_set d k v) k' = if decide (k = k') then Some v else dict_get d k'.
Proof. case_decide; [subst; apply dict_get_set_eq|by apply dict_get_set_ne]. Qed.

Lemma dict_get_None d k : dict_get d k = None ↔ k ∉ dict_keys d.
Proof.
  unfold dict_keys. induction d as [|[j v'] d IH]; simpl; [by split; [intros _; set_solver|]|].
  case_decide; [set_solver|]. rewrite IH. set_solver.
Qed.

Lemma dict_get_is_Some d k : is_Some (dict_get d k) ↔ k ∈ dict_keys d.
Proof.
  rewrite <-not_eq_None_Some, dict_get_None.
  destruct (decide (k ∈ dict_keys d)); tauto.
Qed.

Lemma dict_get_setdefault d k v j :
  dict_get (dict_setdefault d k v) j =
  if decide (j = k) then Some (default v (dict_get d k)) else dict_get d j.
Proof.
  unfold dict_setdefault. destruct (dict_get d k) as [w|] eqn:E; simpl.
  - case_decide as Hj; [|done]. by rewrite Hj.
  - rewrite dict_get_set. repeat case_decide; congruence.
Qed.

Lemma dict_get_elem d k v : dict_get d k = Some v → (k, v) ∈ d.
Proof.
  induction d as [|[j v'] d IH]; simpl; [done|].
  case_decide; [|by right; apply IH]. intros [= ->]; subst. by left.
Qed.

Lemma dict_get_NoDup d k v : NoDup (dict_keys d) → (k, v) ∈ d → dict_get d k = Some v.
Proof.
  unfold dict_keys. induction d as [|[j v'] d IH]; simpl; [set_solver|].
  rewrite NoDup_cons. intros [Hj Hnd] [[= -> ->]|Hin]%elem_of_cons.
  { by rewrite decide_True. }
  rewrite decide_False; [by apply IH|]. intros ->. apply Hj.
  apply list_elem_of_fmap. by exists (k, v).
Qed.

Lemma dict_set_fresh d k v : k ∉ dict_keys d → dict_set d k v = d ++ [(k, v)].
Proof.
  unfold dict_keys. induction d as [|[j v'] d IH]; simpl; [done|].
  intros Hk. case_decide; [set_solver|]. rewrite IH; [done|set_solver].
Qed.

Lemma dict_set_keys d k v :
  dict_keys (dict_set d k v) = if decide (k ∈ dict_keys d) then dict_keys d
                               else dict_keys d ++ [k].
Proof.
  case_decide as Hk; [|by rewrite dict_set_fresh; [unfold dict_keys; rewrite fmap_app|]].
  unfold dict_keys in *. induction d as [|[j v'] d IH]; simpl in *; [set_solver|].
  case_decide; simpl; [done|]. f_equal. apply IH. set_solver.
Qed.

Lemma dict_set_NoDup d k v : NoDup (dict_keys d) → NoDup (dict_keys (dict_set d k v)).
Proof.
  intros. rewrite dict_set_keys. case_decide; [done|].
  apply NoDup_app. repeat split; [done|set_solver|apply NoDup_singleton].
Qed.

Lemma elem_of_dict_set_keys d k v j :
  j ∈ dict_keys (dict_set d k v) ↔ j = k ∨ j ∈ dict_keys d.
Proof. rewrite dict_set_keys. case_decide; set_solver. Qed.

Lemma dict_pop_keys d k j : j ∈ dict_keys (dict_pop d k) ↔ j ∈ dict_keys d ∧ j ≠ k.
Proof.
  unfold dict_keys, dict_pop. rewrite !list_elem_of_fmap. split.
  - intros ([j' v] & -> & [? ?]%list_elem_of_filter). simpl in *.
    split; [by exists (j', v)|done].
  - intros ([[j' v] [-> ?]] & ?). exists (j', v). by rewrite list_elem_of_filter.
Qed.

Lemma dict_get_pop_eq d k : dict_get (dict_pop d k) k = None.
Proof. apply dict_get_None. rewrite dict_pop_keys. naive_solver. Qed.

Lemma dict_get_pop_ne d k j : j ≠ k → dict_get (dict_pop d k) j = dict_get d j.
Proof.
  intros Hj. induction d as [|[i v] d IH]; [done|].
  unfold dict_pop in *. rewrite filter_cons. simpl.
  case_decide; simpl; rewrite IH; [done|]. by rewrite decide_False by naive_solver.
Qed.

Lemma dict_pop_NoDup d k : NoDup (dict_keys d) → NoDup (dict_keys (dict_pop d k)).
Proof. apply NoDup_fmap_filter. Qed.

(** Building a dict from pairs of distinct keys keeps them as they come. *)
Lemma dict_of_NoDup l : NoDup l.*1 → dict_of l = l.
Proof.
  unfold dict_of. intros Hnd.
  enough (∀ d, NoDup (d ++ l).*1 →
    foldl (λ d kv, dict_set d kv.1 kv.2) d l = d ++ l) as Hgo by (by apply (Hgo [])).
  clear Hnd. induction l as [|[k v] l IH]; intros d Hd; simpl.
  { by rewrite app_nil_r. }
  rewrite dict_set_fresh.
  - rewrite IH; [by rewrite <-app_assoc|]. by rewrite <-app_assoc.
  - rewrite fmap_app, NoDup_app in Hd. destruct Hd as (_ & Hd & _).
    unfold dict_keys. intros Hk. apply (Hd _ Hk). by left.
Qed.

(** A dict comprehension holds the keys it was given, and only their values. *)
Lemma dict_of_keys l k : k ∈ dict_keys (dict_of l) ↔ k ∈ l.*1.
Proof.
  unfold dict_of. enough (∀ d, k ∈ dict_keys (foldl (λ d kv, dict_set d kv.1 kv.2) d l)
    ↔ k ∈ dict_keys d ∨ k ∈ l.*1) as Hgo
    by (rewrite (Hgo []); split; [intros [H|]; [by apply not_elem_of_nil in H|done]|by right]).
  induction l as [|[i v] l IH]; intros d; cbn [foldl fmap list_fmap].
  { split; [by left|]. intros [|H]; [done|by apply not_elem_of_nil in H]. }
  rewrite IH, elem_of_dict_set_keys, elem_of_cons. simpl. naive_solver.
Qed.

Lemma dict_of_get l k v : dict_get (dict_of l) k = Some v → (k, v) ∈ l.
Proof.
  unfold dict_of. enough (∀ d, dict_get (foldl (λ d kv, dict_set d kv.1 kv.2) d l) k = Some v
    → dict_get d k = Some v ∨ (k, v) ∈ l) as Hgo by (intros [?|?]%Hgo; done).
  induction l as [|[i w] l IH]; intros d; cbn [foldl]; [by left|].
  intros [Hd|Hl]%IH; [|by right; right]. simpl in Hd. rewrite dict_get_set in Hd.
  case_decide; [|by left]. simplify_eq. right. by left.
Qed.

Lemma dict_set_elem d k v kv : kv ∈ dict_set d k v → kv = (k, v) ∨ kv ∈ d.
Proof.
  induction d as [|[k' v'] d IH]; simpl; [intros ?%list_elem_of_singleton; by left|].
  case_decide as Hk; intros [->|Hin]%elem_of_cons.
  - left. by rewrite Hk.
  - right. by right.
  - right. by left.
  - destruct (IH Hin); [by left|right; by right].
Qed.

Lemma dict_of_elem l kv : kv ∈ dict_of l → kv ∈ l.
Proof.
  unfold dict_of. enough (∀ d, kv ∈ foldl (λ d kv, dict_set d kv.1 kv.2) d l
    → kv ∈ d ∨ kv ∈ l) as Hgo by (intros [?%not_elem_of_nil|?]%Hgo; done).
  induction l as [|[i w] l IH]; intros d; cbn [foldl]; [by left|].
  intros [Hd|Hl]%IH; [|by right; right].
  apply dict_set_elem in Hd as [->|Hd]; [right; by left|by left].
Qed.
End pydict.

(** [tuple(dict.fromkeys(l))]: the distinct elements in first-seen order. *)
Section fromkeys.
Context {A : Type} `{EqDecision A}.

Definition dict_fromkeys (l : list A) : list A :=
  foldl (λ acc x, if decide (x ∈ acc) then acc else acc ++ [x]) [] l.

Lemma elem_of_fromkeys l x : x ∈ dict_fromkeys l ↔ x ∈ l.
Proof.
  unfold dict_fromkeys.
  enough (∀ acc, x ∈ foldl (λ acc x, if decide (x ∈ acc) then acc else acc ++ [x]) acc l
                 ↔ x ∈ acc ∨ x ∈ l) as Hgo by (rewrite Hgo; set_solver).
  induction l as [|y l IH]; intros acc; simpl; [set_solver|].
  rewrite IH. case_decide; set_solver.
Qed.

Lemma fromkeys_NoDup l : NoDup (dict_fromkeys l).
Proof.
  unfold dict_fromkeys.
  enough (∀ acc, NoDup acc → NoDup (foldl
    (λ acc x, if decide (x ∈ acc) then acc else acc ++ [x]) acc l)) as Hgo
    by (apply Hgo; constructor).
  induction l as [|y l IH]; intros acc Hacc; simpl; [done|].
  apply IH. case_decide; [done|].
  apply NoDup_app. repeat split; [done|set_solver|apply NoDup_singleton].
Qed.

Lemma fromkeys_id l : NoDup l → dict_fromkeys l = l.
Proof.
  unfold dict_fromkeys. intros Hnd.
  enough (∀ acc, NoDup (acc ++ l) → foldl
    (λ acc x, if decide (x ∈ acc) then acc else acc ++ [x]) acc l = acc ++ l) as Hgo
    by (by apply (Hgo [])).
  clear Hnd. induction l as [|y l IH]; intros acc Hacc; simpl; [by rewrite app_nil_r|].
  rewrite decide_False.
  - rewrite IH; [by rewrite <-app_assoc|by rewrite <-app_assoc].
  - apply NoDup_app in Hacc as (_ & Hacc & _). intros Hy. apply (Hacc _ Hy). by left.
Qed.
End fromkeys.
