(* ===== verification/PyStr.v ===== *)
(** * The [str] operations the components use.

    A Python [str] is modelled by its UTF-8 bytes: a [string] of [ascii].
    Every operation below only ever splits a text at an ASCII character or at
    a whole UTF-8 sequence, so it computes on the bytes what the Python
    operation computes on the code points. *)

From S2P Require Import Prelude.

Local Open Scope Z_scope.

#[global] Arguments String.append !_ _ : simpl nomatch.

(** [sep.join(parts)] *)
Fixpoint join (sep : string) (parts : list string) : string :=
  match parts with
  | [] => ""
  | [p] => p
  | p :: parts => p +:+ sep +:+ join sep parts
  end.

Fixpoint str_map_chars (f : Ascii.ascii → string) (s : string) : string :=
  match s with EmptyString => "" | String a s => f a +:+ str_map_chars f s end.

Fixpoint str_all (p : Ascii.ascii → bool) (s : string) : bool :=
  match s with EmptyString => true | String a s => p a && str_all p s end.

(** [s.startswith(p)] and what follows the prefix. *)
Fixpoint strip_prefix (p s : string) : option string :=
  match p, s with
  | EmptyString, _ => Some s
  | String a p, String b s => if Ascii.ascii_dec a b then strip_prefix p s else None
  | _, _ => None
  end.

Definition startswith (s p : string) : bool :=
  match strip_prefix p s with Some _ => true | None => false end.

(** [s.removeprefix(p)] *)
Definition removeprefix (s p : string) : string :=
  match strip_prefix p s with Some r => r | None => s end.

Fixpoint str_rev_append (s acc : string) : string :=
  match s with EmptyString => acc | String a s => str_rev_append s (String a acc) end.
Definition str_rev (s : string) : string := str_rev_append s "".

(** [s.endswith(p)] *)
Definition endswith (s p : string) : bool := startswith (str_rev s) (str_rev p).

(** [s.removesuffix(p)] *)
Definition removesuffix (s p : string) : string := str_rev (removeprefix (str_rev s) (str_rev p)).

(** [s.rstrip(c)] for a single character [c]. *)
Fixpoint lstrip_char (c : Ascii.ascii) (s : string) : string :=
  match s with
  | String a s' => if Ascii.ascii_dec a c then lstrip_char c s' else s
  | EmptyString => ""
  end.
Definition rstrip_char (c : Ascii.ascii) (s : string) : string :=
  str_rev (lstrip_char c (str_rev s)).

(** [s.split(c)] for a single character [c]. *)
Fixpoint split_char (c : Ascii.ascii) (s : string) : list string :=
  match s with
  | EmptyString => [""]
  | String a s =>
      if Ascii.ascii_dec a c then "" :: split_char c s
      else match split_char c s with
           | w :: ws => String a w :: ws
           | [] => [String a ""]
           end
  end.

(** [s.partition("\n")[0]]: the first line. *)
Definition newline : Ascii.ascii := Ascii.ascii_of_nat 10.
Fixpoint before_char (c : Ascii.ascii) (s : string) : string :=
  match s with
  | EmptyString => ""
  | String a s => if Ascii.ascii_dec a c then "" else String a (before_char c s)
  end.
Definition first_line (s : string) : string := before_char newline s.

(** Whether every character is Unicode white space, on UTF-8 bytes;
    [not s.strip()] is [str_blank s]. *)
Definition byte (a : Ascii.ascii) : Z := Z.of_N (Ascii.N_of_ascii a).
Definition ws1 (a : Ascii.ascii) : bool :=
  ((9 <=? byte a) && (byte a <=? 13)) || ((28 <=? byte a) && (byte a <=? 32)).
Definition ws2 (a b : Ascii.ascii) : bool :=
  (byte a =? 194) && ((byte b =? 133) || (byte b =? 160)).
Definition ws3 (a b c : Ascii.ascii) : bool :=
  ((byte a =? 225) && (byte b =? 154) && (byte c =? 128))
  || ((byte a =? 226) && (byte b =? 128)
      && (((128 <=? byte c) && (byte c <=? 138)) || (byte c =? 168) || (byte c =? 169)
          || (byte c =? 175)))
  || ((byte a =? 226) && (byte b =? 129) && (byte c =? 159))
  || ((byte a =? 227) && (byte b =? 128) && (byte c =? 128)).
Fixpoint str_blank (s : string) : bool :=
  match s with
  | EmptyString => true
  | String a s1 =>
      if ws1 a then str_blank s1
      else match s1 with
           | String b s2 =>
               if ws2 a b then str_blank s2
               else match s2 with
                    | String c s3 => if ws3 a b c then str_blank s3 else false
                    | EmptyString => false
                    end
           | EmptyString => false
           end
  end.

(** * Lemmas *)

Lemma str_app_nil_r s : s +:+ "" = s.
Proof. induction s; simpl; congruence. Qed.

Lemma str_app_assoc s t u : s +:+ (t +:+ u) = (s +:+ t) +:+ u.
Proof. induction s; simpl; congruence. Qed.

Lemma str_app_inj_l s t u : s +:+ t = s +:+ u → t = u.
Proof. induction s; simpl; [done|]. intros [= ?]; auto. Qed.

Lemma str_length_app s t :
  String.length (s +:+ t) = (String.length s + String.length t)%nat.
Proof. induction s; simpl; lia. Qed.

Lemma str_app_inj_r s t u : t +:+ s = u +:+ s → t = u.
Proof.
  revert u. induction t as [|a t IH]; intros [|b u]; simpl; intros E; try done.
  - apply (f_equal String.length) in E. simpl in E. rewrite str_length_app in E. lia.
  - apply (f_equal String.length) in E. simpl in E. rewrite str_length_app in E. lia.
  - injection E as -> E. f_equal. by apply IH.
Qed.

Lemma str_rev_append_app s acc : str_rev_append s acc = str_rev s +:+ acc.
Proof.
  unfold str_rev. revert acc. induction s as [|a s IH]; intros acc; simpl; [done|].
  by rewrite IH, (IH (String a "")), <-str_app_assoc.
Qed.

Lemma str_rev_cons a s : str_rev (String a s) = str_rev s +:+ String a "".
Proof. unfold str_rev at 1; simpl. by rewrite str_rev_append_app. Qed.

Lemma str_rev_app s t : str_rev (s +:+ t) = str_rev t +:+ str_rev s.
Proof.
  induction s as [|a s IH]; simpl; [by rewrite str_app_nil_r|].
  by rewrite !str_rev_cons, IH, str_app_assoc.
Qed.

Lemma str_rev_involutive s : str_rev (str_rev s) = s.
Proof.
  induction s as [|a s IH]; [done|]. by rewrite str_rev_cons, str_rev_app, IH.
Qed.

Lemma strip_prefix_Some p s r : strip_prefix p s = Some r ↔ s = p +:+ r.
Proof.
  revert s. induction p as [|a p IH]; intros s; simpl.
  { split; [by intros [= ->]|by intros ->]. }
  destruct s as [|b s]; [done|]. destruct (Ascii.ascii_dec a b) as [->|Hab].
  - rewrite IH. split; [by intros ->|by intros [= ->]].
  - split; [done|]. intros [= ? ?]; congruence.
Qed.

Lemma startswith_spec s p : startswith s p = true ↔ ∃ r, s = p +:+ r.
Proof.
  unfold startswith. destruct (strip_prefix p s) as [r|] eqn:E.
  - apply strip_prefix_Some in E. split; [eauto|done].
  - split; [done|]. intros [r Hr]. apply strip_prefix_Some in Hr. congruence.
Qed.

Lemma startswith_app p r : startswith (p +:+ r) p = true.
Proof. apply startswith_spec. eauto. Qed.

Lemma endswith_spec s p : endswith s p = true ↔ ∃ r, s = r +:+ p.
Proof.
  unfold endswith. rewrite startswith_spec. split; intros [r Hr].
  - exists (str_rev r). rewrite <-(str_rev_involutive s), Hr, str_rev_app.
    by rewrite str_rev_involutive.
  - exists (str_rev r). by rewrite Hr, str_rev_app.
Qed.

Lemma str_all_app p s t : str_all p (s +:+ t) = str_all p s && str_all p t.
Proof. induction s as [|a s IH]; simpl; [done|]. by rewrite IH, andb_assoc. Qed.

Lemma str_map_chars_app f s t :
  str_map_chars f (s +:+ t) = str_map_chars f s +:+ str_map_chars f t.
Proof. induction s as [|a s IH]; simpl; [done|]. by rewrite IH, str_app_assoc. Qed.

(** A separator absent from two heads splits two equal texts at the same place. *)
Lemma str_split_unique c s s' t t' :
  str_all (λ a, negb (bool_decide (a = c))) s = true →
  str_all (λ a, negb (bool_decide (a = c))) s' = true →
  s +:+ String c t = s' +:+ String c t' → s = s' ∧ t = t'.
Proof.
  revert s'. induction s as [|a s IH]; intros [|a' s']; simpl.
  - by intros _ _ [= ->].
  - intros _ [Ha _]%andb_true_iff [= <- _]. by rewrite bool_decide_true in Ha.
  - intros [Ha _]%andb_true_iff _ [= -> _]. by rewrite bool_decide_true in Ha.
  - intros [_ Hs]%andb_true_iff [_ Hs']%andb_true_iff [= -> E].
    by destruct (IH _ Hs Hs' E) as [-> ->].
Qed.

Lemma split_char_nonempty c s : split_char c s ≠ [].
Proof. destruct s as [|a s]; simpl; [done|]. repeat case_match; done. Qed.
