(* ===== verification/PyLines.v ===== *)
(** * The [str] operations of a text codec: lines, blanks, slices and [find].

    [str.splitlines] with its eleven line boundaries, [str.strip], slices and the
    cut at the first occurrence of a marker, on the UTF-8 bytes of a text. A
    line boundary or a white-space character of several bytes is matched whole,
    so the bytes split where the code points do. *)

From S2P Require Import Prelude PyStr.

Local Open Scope nat_scope.

(** The byte at a position, [-1] past the end. *)
Fixpoint byte_at (i : nat) (s : string) : Z :=
  match s, i with
  | EmptyString, _ => -1
  | String a _, O => byte a
  | String _ s, S i => byte_at i s
  end.

(** The length in bytes of the line boundary a text starts with, [0] for none. *)
Definition boundary_length (b0 b1 b2 : Z) : nat :=
  if bool_decide (b0 ∈ [10; 11; 12; 28; 29; 30]%Z) then 1
  else if bool_decide (b0 = 13%Z) then (if bool_decide (b1 = 10%Z) then 2 else 1)
  else if bool_decide (b0 = 194 ∧ b1 = 133)%Z then 2
  else if bool_decide (b0 = 226 ∧ b1 = 128 ∧ (b2 = 168 ∨ b2 = 169))%Z then 3
  else 0.
Definition line_boundary (s : string) : nat :=
  boundary_length (byte_at 0 s) (byte_at 1 s) (byte_at 2 s).

(** A line with its boundary; only the last line of a text may have none. *)
Notation pyline := (string * string)%type.

Definition cons_char (a : Ascii.ascii) (ls : list pyline) : list pyline :=
  match ls with
  | [] => [(String a "", "")]
  | (c, t) :: ls => (String a c, t) :: ls
  end.

(** [text.splitlines(keepends=True)], each line split from its boundary. *)
Fixpoint splitlines_keep (s : string) : list pyline :=
  match s with
  | EmptyString => []
  | String a r =>
      match line_boundary s with
      | O => cons_char a (splitlines_keep r)
      | 1 => ("", String a "") :: splitlines_keep r
      | 2 => match r with
             | String b r => ("", String a (String b "")) :: splitlines_keep r
             | EmptyString => []
             end
      | _ => match r with
             | String b (String c r) => ("", String a (String b (String c ""))) :: splitlines_keep r
             | _ => []
             end
      end
  end.

(** [text.splitlines()] *)
Definition splitlines (s : string) : list string := (splitlines_keep s).*1.

Definition line_text (l : pyline) : string := l.1 +:+ l.2.
Fixpoint unlines (ls : list pyline) : string :=
  match ls with [] => "" | l :: ls => line_text l +:+ unlines ls end.

(** [text.lstrip()], [text.rstrip()], [text.strip()] *)
Fixpoint lstrip (s : string) : string :=
  match s with
  | EmptyString => ""
  | String a s1 =>
      if ws1 a then lstrip s1
      else match s1 with
           | String b s2 =>
               if ws2 a b then lstrip s2
               else match s2 with
                    | String c s3 => if ws3 a b c then lstrip s3 else s
                    | EmptyString => s
                    end
           | EmptyString => s
           end
  end.
Fixpoint rstrip (s : string) : string :=
  match s with
  | EmptyString => ""
  | String a r => if str_blank s then "" else String a (rstrip r)
  end.
Definition strip (s : string) : string := rstrip (lstrip s).

(** [text[:n]] and [text[n:]] for [n] within the text. *)
Fixpoint str_take (n : nat) (s : string) : string :=
  match n, s with S n, String a s => String a (str_take n s) | _, _ => "" end.
Fixpoint str_drop (n : nat) (s : string) : string :=
  match n, s with S n, String _ s => str_drop n s | _, _ => s end.

(** The text before and after the first occurrence of a marker, [find] and the
    two slices around it. *)
Fixpoint cut (marker s : string) : option (string * string) :=
  match strip_prefix marker s with
  | Some after => Some ("", after)
  | None => match s with
            | EmptyString => None
            | String a s => prod_map (String a) id <$> cut marker s
            end
  end.

(** The longest run of one character a text starts with, and what follows it. *)
Fixpoint run_of (c : Ascii.ascii) (s : string) : nat * string :=
  match s with
  | String a s' => if Ascii.ascii_dec a c then prod_map S id (run_of c s') else (0, s)
  | EmptyString => (0, s)
  end.

(** * Lemmas *)

(** ** Slices *)

Lemma str_take_app a b : str_take (String.length a) (a +:+ b) = a.
Proof. induction a as [|x a IH]; simpl; [by destruct b|]. by rewrite IH. Qed.

Lemma str_drop_app a b : str_drop (String.length a) (a +:+ b) = b.
Proof. induction a as [|x a IH]; simpl; [by destruct b|]. done. Qed.

Lemma str_take_all s : str_take (String.length s) s = s.
Proof. induction s; simpl; congruence. Qed.

Lemma cut_length marker s before after :
  marker ≠ "" → cut marker s = Some (before, after) →
  (String.length after < String.length s)%nat.
Proof.
  intros Hm. revert before. induction s as [|a s IH]; intros before; simpl.
  - destruct marker; [done|]. done.
  - destruct (strip_prefix marker (String a s)) as [r|] eqn:E.
    + intros [= _ ->]. apply strip_prefix_Some in E. destruct marker as [|b m]; [done|].
      injection E as -> ->. rewrite str_length_app. lia.
    + destruct (cut marker s) as [[b' a']|] eqn:Ec; simpl; [|done].
      intros [= _ <-]. specialize (IH _ eq_refl). lia.
Qed.

(** ** Lines *)

Lemma unlines_app ls ks : unlines (ls ++ ks) = unlines ls +:+ unlines ks.
Proof. induction ls as [|l ls IH]; simpl; [done|]. by rewrite IH, str_app_assoc. Qed.

Lemma unlines_cons_char a ls : unlines (cons_char a ls) = String a (unlines ls).
Proof. by destruct ls as [|[c t] ls]. Qed.

Lemma byte_range a : (0 ≤ byte a < 256)%Z.
Proof.
  unfold byte. pose proof (Ascii.N_ascii_bounded a). lia.
Qed.

(** The cases of a boundary at the head of a text. *)
Lemma line_boundary_cases a r :
  line_boundary (String a r) = 0
  ∨ line_boundary (String a r) = 1
  ∨ (∃ b s, r = String b s ∧ line_boundary (String a r) = 2)
  ∨ (∃ b c s, r = String b (String c s) ∧ line_boundary (String a r) = 3).
Proof.
  unfold line_boundary, boundary_length.
  destruct r as [|b [|c s]]; simpl byte_at; repeat case_bool_decide; eauto 8;
    try (destruct_and?; done); try lia.
  all: right; right; right; eauto.
Qed.

Lemma splitlines_keep_unlines s : unlines (splitlines_keep s) = s.
Proof.
  induction s as [s IH] using (induction_ltof1 _ String.length); unfold ltof in IH.
  destruct s as [|a r]; [done|]. cbn [splitlines_keep].
  destruct (line_boundary_cases a r) as [E|[E|[(b & s & -> & E)|(b & c & s & -> & E)]]];
    rewrite E.
  - rewrite unlines_cons_char, IH; [done|simpl; lia].
  - simpl. rewrite IH; [done|simpl; lia].
  - simpl. rewrite IH; [done|simpl; lia].
  - simpl. rewrite IH; [done|simpl; lia].
Qed.

(** A text in which no line boundary starts, and a text that is one boundary. *)
Fixpoint unbroken (c : string) : bool :=
  match c with
  | EmptyString => true
  | String _ r => bool_decide (line_boundary c = 0) && unbroken r
  end.
Definition is_boundary (t : string) : bool :=
  bool_decide (t ≠ "" ∧ line_boundary t = String.length t).

Lemma byte_at_app i x y :
  byte_at i (x +:+ y)
  = if decide (i < String.length x) then byte_at i x else byte_at (i - String.length x) y.
Proof.
  revert i. induction x as [|a x IH]; intros i; simpl.
  { by rewrite Nat.sub_0_r. }
  destruct i as [|i]; simpl; [done|]. rewrite IH.
  repeat case_decide; try lia; done.
Qed.

Lemma is_boundary_bytes t :
  is_boundary t = true →
  let b0 := byte_at 0 t in
  (String.length t = 1 ∧ b0 ∈ [10; 11; 12; 28; 29; 30]%Z)
  ∨ (String.length t = 1 ∧ b0 = 13%Z)
  ∨ (String.length t = 2 ∧ b0 = 13%Z ∧ byte_at 1 t = 10%Z)
  ∨ (String.length t = 2 ∧ b0 = 194%Z ∧ byte_at 1 t = 133%Z)
  ∨ (String.length t = 3 ∧ b0 = 226%Z ∧ byte_at 1 t = 128%Z
     ∧ (byte_at 2 t = 168%Z ∨ byte_at 2 t = 169%Z)).
Proof.
  unfold is_boundary. rewrite bool_decide_eq_true. intros [Hne Hl]. simpl.
  unfold line_boundary, boundary_length in Hl. repeat case_bool_decide; try tauto.
  - left. by rewrite <-Hl.
  - right; right; left. by rewrite <-Hl.
  - right; left. by rewrite <-Hl.
  - do 3 right; left. by rewrite <-Hl.
  - do 4 right. by rewrite <-Hl.
  - destruct t; done.
Qed.

Lemma byte_at_nil i : byte_at i "" = (-1)%Z.
Proof. by destruct i. Qed.

(** What a boundary starts with completes no boundary begun before it. *)
Lemma boundary_starts_fresh a c t s :
  is_boundary t = true →
  line_boundary (String a c) = 0 → line_boundary (String a (c +:+ t +:+ s)) = 0.
Proof.
  intros Ht Hc.
  assert (byte_at 0 t ∈ [10; 11; 12; 28; 29; 30; 13; 194; 226]%Z ∧ 1 ≤ String.length t) as [Hb Hl].
  { apply is_boundary_bytes in Ht. simpl in Ht.
    destruct Ht as [[? H]|[[? H]|[(? & H & ?)|[(? & H & ?)|(? & H & ?)]]]]; rewrite ?H;
      (split; [set_solver|lia]). }
  assert (byte_at 0 (t +:+ s) = byte_at 0 t) as Hh.
  { rewrite byte_at_app. case_decide; [done|lia]. }
  unfold line_boundary in *.
  destruct c as [|b [|d c]]; cbn [String.append byte_at] in *; rewrite ?Hh; [| |done];
    clear Hh; revert Hb Hc; generalize (byte_at 0 t); intros z Hb Hc;
    unfold boundary_length in *; repeat case_bool_decide; try done;
    destruct_and?; subst; set_solver by lia.
Qed.

Lemma boundary_head t s :
  is_boundary t = true → (byte_at 0 t = 13%Z → String.length t = 1 → byte_at 0 s ≠ 10%Z) →
  line_boundary (t +:+ s) = String.length t.
Proof.
  intros Ht Hcr. apply is_boundary_bytes in Ht. simpl in Ht.
  destruct Ht as [[E Hz]|[[E Hz]|[(E & Hz & H1)|[(E & Hz & H1)|(E & Hz & H1 & H2)]]]];
    rewrite E; destruct t as [|x [|y [|z [|]]]]; try discriminate E;
    unfold line_boundary; cbn [String.append byte_at] in *; unfold boundary_length.
  - by rewrite bool_decide_true.
  - rewrite Hz. simpl. rewrite bool_decide_false; [done|]. auto.
  - by rewrite Hz, H1.
  - by rewrite Hz, H1.
  - rewrite Hz, H1. by destruct H2 as [-> | ->].
Qed.

Lemma splitlines_keep_line c t s :
  unbroken c = true → is_boundary t = true →
  (byte_at 0 t = 13%Z → String.length t = 1 → byte_at 0 s ≠ 10%Z) →
  splitlines_keep (c +:+ t +:+ s) = (c, t) :: splitlines_keep s.
Proof.
  intros Hc Ht Hcr. induction c as [|a c IH].
  - pose proof (boundary_head t s Ht Hcr) as E. simpl.
    destruct t as [|x [|y [|z [|u t]]]]; simpl in E |- *.
    + by unfold is_boundary in Ht; rewrite bool_decide_eq_true in Ht; destruct Ht.
    + by rewrite E.
    + by rewrite E.
    + by rewrite E.
    + apply is_boundary_bytes in Ht. simpl in Ht. naive_solver lia.
  - simpl in Hc. apply andb_true_iff in Hc as [Hb%bool_decide_eq_true Hc].
    cbn [String.append splitlines_keep].
    rewrite (boundary_starts_fresh a c t s Ht Hb). by rewrite IH.
Qed.

Lemma splitlines_keep_unbroken c :
  unbroken c = true → splitlines_keep c = if decide (c = "") then [] else [(c, "")].
Proof.
  induction c as [|a c IH]; simpl; [done|].
  intros [Hb%bool_decide_eq_true Hc]%andb_true_iff. rewrite Hb.
  rewrite (IH Hc). by repeat case_decide; subst.
Qed.

(** Whether lines are those some text splits into: only the last may lack its
    boundary, and no carriage return is followed by a line feed. *)
Definition boundary_before (t next : string) : bool :=
  is_boundary t && negb (bool_decide (t = String (Ascii.ascii_of_nat 13) "" ∧ byte_at 0 next = 10%Z)).
Fixpoint lines_ok (ls : list pyline) : bool :=
  match ls with
  | [] => true
  | (c, t) :: ls =>
      unbroken c
      && (if decide (t = "") then bool_decide (c ≠ "" ∧ ls = [])
          else boundary_before t (unlines ls))
      && lines_ok ls
  end.

Lemma byte_inj a b : byte a = byte b → a = b.
Proof.
  unfold byte. intros E. rewrite <-(Ascii.ascii_N_embedding a), <-(Ascii.ascii_N_embedding b).
  f_equal. lia.
Qed.

Lemma byte_char_13 t :
  byte_at 0 t = 13%Z → String.length t = 1 → t = String (Ascii.ascii_of_nat 13) "".
Proof.
  destruct t as [|a [|]]; try done. simpl. intros E _. f_equal. by apply byte_inj.
Qed.

Lemma boundary_before_iff t s :
  boundary_before t s = true ↔
  is_boundary t = true ∧ (byte_at 0 t = 13%Z → String.length t = 1 → byte_at 0 s ≠ 10%Z).
Proof.
  unfold boundary_before. rewrite andb_true_iff, negb_true_iff, bool_decide_eq_false.
  split; intros [? H]; split; try done.
  - intros E1 E2 E3. apply H. split; [by apply byte_char_13|done].
  - intros [-> E]. by apply H.
Qed.

Lemma splitlines_keep_of_lines ls :
  lines_ok ls = true → splitlines_keep (unlines ls) = ls.
Proof.
  induction ls as [|[c t] ls IH]; cbn [lines_ok]; [done|].
  rewrite !andb_true_iff. intros [[Hc Ht] Hls]. cbn [unlines line_text fst snd].
  case_decide as Et.
  - apply bool_decide_eq_true in Ht as [Hne ->]. subst t. unfold line_text. simpl. rewrite !str_app_nil_r.
    rewrite splitlines_keep_unbroken by done. by rewrite decide_False.
  - apply boundary_before_iff in Ht as [Ht Hcr]. unfold line_text. cbn [fst snd].
    rewrite <-str_app_assoc.
    rewrite splitlines_keep_line by done. by rewrite IH.
Qed.

Lemma line_boundary_prefix x y : line_boundary (x +:+ y) = 0 → line_boundary x = 0.
Proof.
  unfold line_boundary. destruct x as [|a [|b [|c x]]]; cbn [String.append byte_at]; [done| | |done];
    unfold boundary_length; repeat case_bool_decide; try done; destruct_and?; lia.
Qed.

Lemma unbroken_prefix x y : unbroken (x +:+ y) = true → unbroken x = true.
Proof.
  induction x as [|a x IH]; cbn [String.append unbroken]; [done|].
  rewrite !andb_true_iff, !bool_decide_eq_true. intros [Hb Hx]. split; [|auto].
  by apply (line_boundary_prefix (String a x) y).
Qed.

(** Two texts without a boundary, joined where the second starts with a byte that
    completes none. *)
Definition joins (y : string) : bool :=
  let b := byte_at 0 y in
  bool_decide (b ≠ 10 ∧ b ≠ 128 ∧ b ≠ 133 ∧ b ≠ 168 ∧ b ≠ 169)%Z.

Lemma boundary_length_joins2 a b z :
  z ≠ 168%Z → z ≠ 169%Z → boundary_length a b (-1) = 0 → boundary_length a b z = 0.
Proof.
  unfold boundary_length. intros. repeat case_bool_decide; try done; destruct_and?; lia.
Qed.

Lemma boundary_length_joins1 a z w :
  z ≠ 10%Z → z ≠ 128%Z → z ≠ 133%Z → boundary_length a (-1) (-1) = 0 → boundary_length a z w = 0.
Proof.
  unfold boundary_length. intros. repeat case_bool_decide; try done; destruct_and?; lia.
Qed.

Lemma unbroken_app x y :
  unbroken x = true → unbroken y = true → joins y = true → unbroken (x +:+ y) = true.
Proof.
  unfold joins. rewrite bool_decide_eq_true. intros Hx Hy Hj.
  induction x as [|a x IH]; [done|]. cbn [String.append unbroken] in *.
  rewrite !andb_true_iff, !bool_decide_eq_true in *. destruct Hx as [Hb Hx]. split; [|auto].
  revert Hb. unfold line_boundary.
  destruct x as [|b [|c x]]; cbn [String.append byte_at]; [| |done].
  - apply boundary_length_joins1; tauto.
  - apply boundary_length_joins2; tauto.
Qed.

Lemma splitlines_keep_nil s : splitlines_keep s = [] ↔ s = "".
Proof.
  split; [|by intros ->]. intros E. by rewrite <-(splitlines_keep_unlines s), E.
Qed.

Lemma boundary_at_head a t r :
  line_boundary (String a (t +:+ r)) = String.length (String a t) →
  boundary_before (String a t) r = true.
Proof.
  intros E. apply boundary_before_iff. unfold is_boundary.
  rewrite bool_decide_eq_true.
  unfold line_boundary in *. destruct t as [|b [|c [|d t]]]; cbn [String.append byte_at String.length] in *;
    unfold boundary_length in *; repeat case_bool_decide; destruct_and?; try (split; [split|]); try done; try lia.
  intros E13. rewrite E13 in *. set_solver.
Qed.

Lemma splitlines_keep_ok s : lines_ok (splitlines_keep s) = true.
Proof.
  induction s as [s IH] using (induction_ltof1 _ String.length); unfold ltof in IH.
  destruct s as [|a r]; [done|]. cbn [splitlines_keep].
  destruct (line_boundary_cases a r) as [E|[E|[(b & s & -> & E)|(b & c & s & -> & E)]]];
    rewrite E; cbn [lines_ok unbroken].
  - assert (lines_ok (splitlines_keep r) = true) as Hr by (apply IH; simpl; lia).
    pose proof (splitlines_keep_unlines r) as Eu.
    destruct (splitlines_keep r) as [|[c t] ls]; cbn [cons_char lines_ok] in *.
    + simpl in Eu. subst r. cbn [unbroken]. by rewrite E.
    + rewrite !andb_true_iff in Hr. destruct Hr as [[Hc Ht] Hls].
      cbn [unbroken]. rewrite Hc, Hls.
      cbn [unlines line_text fst snd] in Eu. rewrite <-Eu in E.
      rewrite bool_decide_true; [|]. 2:{
        apply (line_boundary_prefix (String a c) (t +:+ unlines ls)).
        unfold line_text in E. cbn [fst snd] in E. by rewrite <-str_app_assoc in E. }
      case_decide; [|by rewrite Ht]. apply bool_decide_eq_true in Ht as [_ ->].
      by rewrite bool_decide_true.
  - simpl decide. rewrite splitlines_keep_unlines, IH by (simpl; lia).
    by rewrite (boundary_at_head a "" r).
  - simpl decide. rewrite splitlines_keep_unlines, IH by (simpl; lia).
    by rewrite (boundary_at_head a (String b "") s).
  - simpl decide. rewrite splitlines_keep_unlines, IH by (simpl; lia).
    by rewrite (boundary_at_head a (String b (String c "")) s).
Qed.

(** ** Putting texts of whole lines together *)

Definition terminated (ls : list pyline) : Prop := Forall (λ l, l.2 ≠ "") ls.
Definition starts_text (ls : list pyline) : Prop :=
  match ls with [] => True | (c, _) :: _ => c ≠ "" end.

Lemma unbroken_head c : unbroken c = true → c ≠ "" → byte_at 0 c ≠ 10%Z.
Proof.
  destruct c as [|a c]; [done|]. cbn [unbroken byte_at].
  rewrite andb_true_iff, bool_decide_eq_true. unfold line_boundary, boundary_length.
  cbn [byte_at]. intros [E _] _ Ha. rewrite Ha in E. done.
Qed.

Lemma starts_text_head ls : lines_ok ls = true → starts_text ls → byte_at 0 (unlines ls) ≠ 10%Z.
Proof.
  destruct ls as [|[c t] ls]; [done|]. cbn [lines_ok starts_text unlines].
  rewrite !andb_true_iff. intros [[Hc _] _] Hne. apply unbroken_head in Hc; [|done].
  unfold line_text. destruct c; [done|]. done.
Qed.

Lemma lines_ok_app ls ks :
  lines_ok ls = true → terminated ls → lines_ok ks = true → starts_text ks →
  lines_ok (ls ++ ks) = true.
Proof.
  intros Hls Ht Hks Hs. induction ls as [|[c t] ls IH]; [done|].
  cbn [app lines_ok] in *. rewrite !andb_true_iff in *. destruct Hls as [[Hc Hb] Hls].
  apply Forall_cons in Ht as [Hne Ht]. cbn [snd] in Hne.
  split; [split|]; [done| |by apply IH].
  rewrite decide_False in Hb |- * by done. apply boundary_before_iff in Hb as [Hb Hcr].
  apply boundary_before_iff. split; [done|]. intros E1 E2.
  rewrite unlines_app. destruct ls as [|[c' t'] ls].
  - by apply starts_text_head.
  - specialize (Hcr E1 E2). cbn [unlines] in Hcr |- *. unfold line_text in Hcr |- *.
    cbn [fst snd] in Hcr |- *.
    apply Forall_cons in Ht as [Hne' _]. cbn [snd] in Hne'.
    by destruct c', t'.
Qed.

Lemma lines_ok_app_inv ls ks :
  lines_ok (ls ++ ks) = true →
  lines_ok ls = true ∧ lines_ok ks = true ∧ (ks ≠ [] → terminated ls).
Proof.
  induction ls as [|[c t] ls IH]; [by intros H; repeat split; [done|constructor]|].
  cbn [app lines_ok]. rewrite !andb_true_iff. intros [[Hc Hb] Hls].
  destruct (IH Hls) as (IH1 & IH2 & IH3). split; [|split]; [|done|].
  - split; [split|]; [done| |done]. case_decide.
    + apply bool_decide_eq_true in Hb as [Hne E]. apply bool_decide_eq_true.
      by destruct ls.
    + apply boundary_before_iff in Hb as [Hb Hcr]. apply boundary_before_iff.
      split; [done|]. intros E1 E2 E3. apply (Hcr E1 E2). rewrite unlines_app.
      destruct (unlines ls); [done|]. done.
  - intros Hk. constructor; [|by apply IH3]. cbn [snd]. intros ->.
    rewrite decide_True in Hb by done. apply bool_decide_eq_true in Hb as [_ E].
    by destruct ls.
Qed.

(** ** A text and the lines after a line feed *)

Notation nl := (String newline "").

Lemma line_boundary_nl a r x :
  line_boundary (String a (r +:+ String newline x)) = line_boundary (String a (r +:+ nl)).
Proof.
  unfold line_boundary. destruct r as [|b [|c r]]; cbn [String.append byte_at]; [|done|done].
  change (byte newline) with 10%Z.
  unfold boundary_length. repeat case_bool_decide; try done; destruct_and?; done.
Qed.

Lemma splitlines_keep_newline s x :
  splitlines_keep (s +:+ String newline x) = splitlines_keep (s +:+ nl) ++ splitlines_keep x.
Proof.
  induction s as [s IH] using (induction_ltof1 _ String.length); unfold ltof in IH.
  destruct s as [|a r]; [done|]. cbn [String.append splitlines_keep].
  rewrite line_boundary_nl.
  destruct (line_boundary_cases a (r +:+ nl)) as [E|[E|[(b & s & Er & E)|(b & c & s & Er & E)]]];
    rewrite E.
  - rewrite IH by (simpl; lia).
    destruct (splitlines_keep (r +:+ nl)) as [|[c t] ls] eqn:En; [|done].
    apply splitlines_keep_nil in En. by destruct r.
  - rewrite IH by (simpl; lia). done.
  - destruct r as [|b' r]; simpl in Er |- *.
    + done.
    + rewrite IH by (simpl; lia). done.
  - destruct r as [|b' [|c' r]]; simpl in Er |- *.
    + done.
    + done.
    + rewrite IH by (simpl; lia). done.
Qed.

Lemma splitlines_newline s x :
  splitlines (s +:+ String newline x) = splitlines (s +:+ nl) ++ splitlines x.
Proof. unfold splitlines. by rewrite splitlines_keep_newline, fmap_app. Qed.

Definition all_blank (ls : list string) : Prop := Forall (λ l, l = "") ls.

Lemma splitlines_line c s :
  unbroken c = true → splitlines (c +:+ String newline s) = c :: splitlines s.
Proof.
  intros Hc. unfold splitlines. change (String newline s) with (nl +:+ s).
  by rewrite splitlines_keep_line.
Qed.

(** A trailing line feed adds at most an empty line. *)
Lemma splitlines_snoc_newline s :
  ∃ e, all_blank e ∧ splitlines (s +:+ nl) = splitlines s ++ e.
Proof.
  unfold splitlines.
  induction s as [s IH] using (induction_ltof1 _ String.length); unfold ltof in IH.
  destruct s as [|a r]; [exists [""]; split; [by repeat constructor|done]|].
  assert (r = "" ∧ byte a = 13%Z ∨ line_boundary (String a (r +:+ nl)) = line_boundary (String a r))
    as [[-> Ha]|Eb].
  { unfold line_boundary. destruct r as [|b [|c r]]; cbn [String.append byte_at]; [| |auto].
    - destruct (decide (byte a = 13%Z)); [by left|right].
      change (byte newline) with 10%Z. unfold boundary_length.
      repeat case_bool_decide; try done; destruct_and?; done.
    - right. change (byte newline) with 10%Z. unfold boundary_length.
      repeat case_bool_decide; try done; destruct_and?; destruct_or?; done. }
  { exists []. split; [constructor|]. cbn [String.append splitlines_keep].
    unfold line_boundary. cbn [byte_at]. change (byte newline) with 10%Z. by rewrite Ha. }
  cbn [String.append splitlines_keep]. rewrite Eb.
  destruct (line_boundary_cases a r) as [E|[E|[(b & s & -> & E)|(b & c & s & -> & E)]]];
    rewrite E.
  - destruct r as [|b r]; [by exists []; split; [constructor|]|].
    destruct (IH (String b r)) as (e & He & Es); [simpl; lia|]. exists e. split; [done|].
    destruct (splitlines_keep (String b r)) as [|[c t] ls] eqn:En;
      [by apply splitlines_keep_nil in En|].
    destruct (splitlines_keep (String b r +:+ nl)) as [|[c' t'] ls'] eqn:En';
      [by apply splitlines_keep_nil in En'|].
    simpl in Es |- *. injection Es as -> ->. done.
  - destruct (IH r) as (e & He & Es); [simpl; lia|]. exists e. split; [done|].
    by rewrite fmap_cons, Es.
  - destruct (IH s) as (e & He & Es); [simpl; lia|]. exists e. split; [done|].
    cbn [String.append]. by rewrite fmap_cons, Es.
  - destruct (IH s) as (e & He & Es); [simpl; lia|]. exists e. split; [done|].
    cbn [String.append]. by rewrite fmap_cons, Es.
Qed.

(** ** Blanks *)

Definition is_ascii (a : Ascii.ascii) : bool := (byte a <? 128)%Z.

Lemma ws_ascii a b c :
  is_ascii b = true ∨ is_ascii c = true ∨ is_ascii a = true →
  (is_ascii a = true ∨ is_ascii b = true → ws2 a b = false) ∧ ws3 a b c = false.
Proof.
  unfold is_ascii. rewrite !Z.ltb_lt. intros H. split.
  - intros H'. unfold ws2. apply not_true_iff_false. rewrite andb_true_iff, orb_true_iff, !Z.eqb_eq. lia.
  - unfold ws3. apply not_true_iff_false.
    rewrite !orb_true_iff, !andb_true_iff, !orb_true_iff, andb_true_iff, !Z.eqb_eq, !Z.leb_le. lia.
Qed.

Lemma ws1_ascii a : ws1 a = true → is_ascii a = true.
Proof.
  unfold ws1, is_ascii. rewrite orb_true_iff, !andb_true_iff, !Z.leb_le, Z.ltb_lt. lia.
Qed.

(** How an ASCII character after a text decides whether the whole is blank. *)
Lemma str_blank_snoc x a :
  is_ascii a = true → str_blank (x +:+ String a "") = str_blank x && ws1 a.
Proof.
  intros Ha. induction x as [x IH] using (induction_ltof1 _ String.length); unfold ltof in IH.
  destruct x as [|b [|c [|d x]]]; cbn [String.append str_blank].
  - by destruct (ws1 a).
  - destruct (ws1 b); [by destruct (ws1 a)|].
    by rewrite (proj1 (ws_ascii b a a (or_introl Ha))) by auto.
  - destruct (ws1 b), (ws1 c); cbn [andb]; try (by destruct (ws1 a));
      rewrite ?(proj1 (ws_ascii c a a (or_introl Ha))) by auto; try done;
      destruct (ws2 b c); try (by destruct (ws1 a));
      by rewrite (proj2 (ws_ascii b c a (or_intror (or_introl Ha)))).
  - pose proof (IH (String c (String d x)) ltac:(simpl; lia)) as E1.
    pose proof (IH (String d x) ltac:(simpl; lia)) as E2.
    pose proof (IH x ltac:(simpl; lia)) as E3.
    cbn [String.append] in E1, E2.
    change (str_blank (String c (String d x))) with (str_blank (String c (String d x))) in E1.
    destruct (ws1 b); [exact E1|]. destruct (ws2 b c); [exact E2|].
    by destruct (ws3 b c d).
Qed.

Lemma rstrip_snoc_ws x a : ws1 a = true → rstrip (x +:+ String a "") = rstrip x.
Proof.
  intros Ha. pose proof (ws1_ascii a Ha) as Hs. induction x as [|b x IH].
  - cbn [String.append rstrip str_blank]. by rewrite Ha.
  - cbn [String.append rstrip]. rewrite <-(IH). 
    change (String b (x +:+ String a "")) with (String b x +:+ String a "").
    by rewrite str_blank_snoc, Ha, andb_true_r by done.
Qed.

Lemma rstrip_snoc_text x a :
  is_ascii a = true → ws1 a = false → rstrip (x +:+ String a "") = x +:+ String a "".
Proof.
  intros Hs Ha. induction x as [|b x IH]; cbn [String.append rstrip].
  - cbn [str_blank]. by rewrite Ha.
  - change (String b (x +:+ String a "")) with (String b x +:+ String a "").
    rewrite str_blank_snoc, Ha, andb_false_r by done. by rewrite IH.
Qed.

Lemma lstrip_ws a x : ws1 a = true → lstrip (String a x) = lstrip x.
Proof. intros Ha. cbn [lstrip]. by rewrite Ha. Qed.

Lemma lstrip_text a x : is_ascii a = true → ws1 a = false → lstrip (String a x) = String a x.
Proof.
  intros Hs Ha. cbn [lstrip]. rewrite Ha. destruct x as [|b [|c x]]; [done| |].
  - by rewrite (proj1 (ws_ascii a b b ltac:(auto))) by auto.
  - rewrite (proj1 (ws_ascii a b b ltac:(auto))) by auto.
    by rewrite (proj2 (ws_ascii a b c ltac:(auto))).
Qed.

Lemma lstrip_snoc x a :
  is_ascii a = true →
  lstrip (x +:+ String a "") =
    if str_blank x then (if ws1 a then "" else String a "") else lstrip x +:+ String a "".
Proof.
  intros Ha. induction x as [x IH] using (induction_ltof1 _ String.length); unfold ltof in IH.
  destruct x as [|b [|c [|d x]]]; cbn [String.append str_blank lstrip].
  - by destruct (ws1 a).
  - destruct (ws1 b); [by destruct (ws1 a)|].
    by rewrite (proj1 (ws_ascii b a a (or_introl Ha))) by auto.
  - pose proof (IH (String c "") ltac:(simpl; lia)) as E1.
    cbn [String.append str_blank lstrip] in E1.
    destruct (ws1 b); [exact E1|]. destruct (ws2 b c); [by destruct (ws1 a)|].
    by rewrite (proj2 (ws_ascii b c a (or_intror (or_introl Ha)))).
  - pose proof (IH (String c (String d x)) ltac:(simpl; lia)) as E1.
    pose proof (IH (String d x) ltac:(simpl; lia)) as E2.
    pose proof (IH x ltac:(simpl; lia)) as E3.
    destruct (ws1 b); [exact E1|]. destruct (ws2 b c); [exact E2|].
    by destruct (ws3 b c d).
Qed.

Lemma lstrip_blank x : str_blank x = true → lstrip x = "".
Proof.
  induction x as [x IH] using (induction_ltof1 _ String.length); unfold ltof in IH.
  destruct x as [|b [|c [|d x]]]; cbn [str_blank lstrip]; intros H; [done| | |].
  - by destruct (ws1 b).
  - destruct (ws1 b); [by apply (IH (String c "")); [simpl; lia|]|].
    by destruct (ws2 b c).
  - destruct (ws1 b); [by apply (IH (String c (String d x))); [simpl; lia|]|].
    destruct (ws2 b c); [by apply (IH (String d x)); [simpl; lia|]|].
    destruct (ws3 b c d); [by apply IH; [simpl; lia|]|done].
Qed.

Lemma strip_blank x : str_blank x = true → strip x = "".
Proof. intros H. unfold strip. by rewrite lstrip_blank. Qed.

Lemma strip_snoc_ws x a : ws1 a = true → strip (x +:+ String a "") = strip x.
Proof.
  intros Ha. unfold strip. rewrite lstrip_snoc by by apply ws1_ascii. rewrite Ha.
  destruct (str_blank x) eqn:Hx; [by rewrite lstrip_blank|]. by apply rstrip_snoc_ws.
Qed.

Lemma strip_cons_ws a x : ws1 a = true → strip (String a x) = strip x.
Proof. intros Ha. unfold strip. by rewrite lstrip_ws. Qed.

(** A text between two ASCII characters that are no blanks is stripped already. *)
Lemma strip_text a x b :
  is_ascii a = true → ws1 a = false → is_ascii b = true → ws1 b = false →
  strip (String a (x +:+ String b "")) = String a (x +:+ String b "").
Proof.
  intros. unfold strip. rewrite lstrip_text by done.
  change (String a (x +:+ String b "")) with (String a x +:+ String b "").
  by apply rstrip_snoc_text.
Qed.

(** [ "\n".join(lines).strip() ], which empty lines at the end do not change. *)
Definition strip_lines (ls : list string) : string := strip (join nl ls).

Lemma join_snoc ls x : join nl (ls ++ [x]) = match ls with [] => x | _ => join nl ls +:+ nl +:+ x end.
Proof.
  induction ls as [|l ls IH]; [done|]. cbn [app join].
  destruct ls as [|k ls]; [done|]. cbn [app] in IH |- *. rewrite IH.
  by rewrite <-!str_app_assoc.
Qed.

Lemma strip_lines_blank ls e : all_blank e → strip_lines (ls ++ e) = strip_lines ls.
Proof.
  revert ls. induction e as [|x e IH] using rev_ind; intros ls He; [by rewrite app_nil_r|].
  apply Forall_app in He as [He Hx]. apply Forall_cons in Hx as [-> _].
  rewrite app_assoc. rewrite <-(IH ls) by done. unfold strip_lines.
  rewrite join_snoc. destruct (ls ++ e) as [|l k]; [done|].
  rewrite str_app_nil_r. by apply strip_snoc_ws.
Qed.
