(* ===== verification/CheckChain.v ===== *)
(** * A repository's check chain (types/domain/operation.py, domain/check_chain.py).

    The steps a repository declares, the failures of their structure found when the
    configuration is loaded, and the split of a run's failed steps into the roots and the
    cascades that follow from them. Both walks up the chain are Python [while] loops: the
    fuel is one more than the steps declared, and the theorems show where it is enough. *)

From stdpp Require Import relations.
From S2P Require Import Prelude PyStr.

Local Open Scope nat_scope.

(** ** The declaration (types/domain/operation.py) *)

(** Environment facts a repository may declare. *)
Inductive CheckPrerequisite := REPOSITORY_HISTORY | NETWORK | CREDENTIALS.
#[export] Instance CheckPrerequisite_eq_dec : EqDecision CheckPrerequisite.
Proof. solve_decision. Defined.

Record CheckStep := {
  step_name : string;
  command : string;
  depends_on : option string;
  requires : list CheckPrerequisite;
  forge_check : option string;
}.

(** What the load says of a chain; the text of each is left out. *)
Inductive chain_failure :=
| DuplicateStep (name : string)
| UnknownDependency (name dependency : string)
| ClosesCycle (name : string).
#[export] Instance chain_failure_eq_dec : EqDecision chain_failure.
Proof. solve_decision. Defined.

Definition by_name (steps : list CheckStep) : pydict string CheckStep :=
  dict_of ((λ s, (step_name s, s)) <$> steps).

(** [ancestor = by_name.get(cursor); None if ancestor is None else ancestor.depends_on] *)
Definition dependency_of (named : pydict string CheckStep) (cursor : string) : option string :=
  match dict_get named cursor with None => None | Some ancestor => depends_on ancestor end.

(** [while cursor is not None: if cursor in walked: ... break]; [None] is out of fuel. *)
Fixpoint closes_cycle (fuel : nat) (named : pydict string CheckStep) (walked : list string)
    (cursor : option string) : option bool :=
  match cursor with
  | None => Some false
  | Some c =>
      match fuel with
      | 0 => None
      | S fuel =>
          if decide (c ∈ walked) then Some true
          else closes_cycle fuel named (c :: walked) (dependency_of named c)
      end
  end.

Fixpoint duplicate_steps (seen : list string) (steps : list CheckStep) : list chain_failure :=
  match steps with
  | [] => []
  | s :: steps =>
      (if decide (step_name s ∈ seen) then [DuplicateStep (step_name s)] else [])
      ++ duplicate_steps (step_name s :: seen) steps
  end.

Definition chain_fuel (steps : list CheckStep) : nat := S (length steps).

Definition step_failures (steps : list CheckStep) (s : CheckStep) : option (list chain_failure) :=
  match depends_on s with
  | None => Some []
  | Some d =>
      if dict_mem (by_name steps) d then
        closed ← closes_cycle (chain_fuel steps) (by_name steps) [step_name s] (Some d);
        Some (if (closed : bool) then [ClosesCycle (step_name s)] else [])
      else Some [UnknownDependency (step_name s) d]
  end.

Definition check_chain_failures (steps : list CheckStep) : option (list chain_failure) :=
  found ← mapM (step_failures steps) steps;
  Some (duplicate_steps [] steps ++ concat found).

(** ** The classification (domain/check_chain.py) *)

Record CheckFailureClassification := { roots : list string; cascades : list string }.

Fixpoint failed_ancestor (fuel : nat) (named : pydict string CheckStep) (failed : list string)
    (cursor : option string) : option bool :=
  match cursor with
  | None => Some false
  | Some c =>
      match fuel with
      | 0 => None
      | S fuel =>
          if decide (c ∈ failed) then Some true
          else failed_ancestor fuel named failed (dependency_of named c)
      end
  end.

Definition _has_failed_ancestor (steps : list CheckStep) (name : string) (failed : list string) :
    option bool :=
  failed_ancestor (chain_fuel steps) (by_name steps) failed (dependency_of (by_name steps) name).

(** The declared order, then the names the chain does not declare, sorted. *)
Definition report_order (steps : list CheckStep) (failed : list string) : list string :=
  (step_name <$> steps)
  ++ sort_by id (filter (.∉ dict_keys (by_name steps)) (dict_fromkeys failed)).

Definition classify_name (steps : list CheckStep) (failed : list string)
    (acc : CheckFailureClassification) (name : string) : option CheckFailureClassification :=
  if decide (name ∈ failed) then
    caused ← _has_failed_ancestor steps name failed;
    Some (if (caused : bool) then {| roots := roots acc; cascades := cascades acc ++ [name] |}
          else {| roots := roots acc ++ [name]; cascades := cascades acc |})
  else Some acc.

Fixpoint classify_names (steps : list CheckStep) (failed : list string)
    (acc : CheckFailureClassification) (names : list string) : option CheckFailureClassification :=
  match names with
  | [] => Some acc
  | n :: names => classify_name steps failed acc n ≫= λ acc, classify_names steps failed acc names
  end.

Definition classify_check_failures (steps : list CheckStep) (failed : list string) :
    option CheckFailureClassification :=
  classify_names steps failed {| roots := []; cascades := [] |} (report_order steps failed).

(** *** The checks a forge reports *)

Record CountedChecks := { excluded : gset string; failures : gset string }.

Definition rostered_forge_checks (steps : list CheckStep) : gset string :=
  list_to_set (steps ≫= λ s, match forge_check s with
                             | Some c => if decide (c = "") then [] else [c]
                             | None => []
                             end).

Definition counted_checks {E} (reported failed rostered : gset string) (refused : string → E) :
    result E CountedChecks :=
  raise_if (negb (bool_decide (failed ⊆ reported)))
    (refused "a failed check must belong to the reported roster")
    (let counted := if decide (rostered = ∅) then reported else reported ∩ rostered in
     Ok {| excluded := reported ∖ counted; failures := failed ∩ counted |}).

(** ** Declared chains *)

Section chain.
Context (steps : list CheckStep).

(** The relation the chain declares. *)
Definition depends (a b : string) : Prop :=
  ∃ s, s ∈ steps ∧ step_name s = a ∧ depends_on s = Some b.

(** A chain that can be classified. *)
Definition well_chained : Prop :=
  NoDup (step_name <$> steps)
  ∧ (∀ s d, s ∈ steps → depends_on s = Some d → d ∈ step_name <$> steps)
  ∧ (∀ n, ¬ tc depends n n).

Lemma duplicate_steps_nil l seen :
  duplicate_steps seen l = [] ↔ NoDup (step_name <$> l) ∧ ∀ n, n ∈ step_name <$> l → n ∉ seen.
Proof.
  revert seen. induction l as [|s l IH]; intros seen; cbn [duplicate_steps fmap list_fmap].
  { split; [intros _; split; [constructor|by intros n ?%elem_of_nil]|done]. }
  case_decide as Hs; cbn [app].
  - split; [done|]. intros [_ H]. exfalso. apply (H (step_name s)); [by left|done].
  - rewrite IH, NoDup_cons. split.
    + intros [Hnd H]. repeat split; [intros Hin; apply (H _ Hin); left|done|].
      intros n [->|Hn]%elem_of_cons; [done|]. intros Hseen. apply (H _ Hn). by right.
    + intros [[Hn Hnd] H]. split; [done|]. intros n Hin [->|Hseen]%elem_of_cons; [done|].
      by apply (H n); [right|].
Qed.

Lemma named_keys n : n ∈ dict_keys (by_name steps) ↔ n ∈ step_name <$> steps.
Proof. unfold by_name. by rewrite dict_of_keys, <-list_fmap_compose. Qed.

Lemma dict_mem_named n : dict_mem (by_name steps) n = true ↔ n ∈ step_name <$> steps.
Proof. unfold dict_mem. by rewrite bool_decide_eq_true, named_keys. Qed.

(** [by_name] keeps only declared dependencies, and every one when no name repeats. *)
Lemma dependency_declared n d : dependency_of (by_name steps) n = Some d → depends n d.
Proof.
  unfold dependency_of. destruct (dict_get _ n) as [s|] eqn:E; [|done]. intros Hd.
  apply dict_of_get, list_elem_of_fmap in E as (s' & [= -> ->] & Hin). by exists s'.
Qed.

Lemma dependency_found n d :
  NoDup (step_name <$> steps) → depends n d → dependency_of (by_name steps) n = Some d.
Proof.
  intros Hnd (s & Hin & <- & Hd). unfold dependency_of, by_name.
  assert (NoDup ((λ s, (step_name s, s)) <$> steps).*1) as Hnd' by by rewrite <-list_fmap_compose.
  rewrite dict_of_NoDup by done.
  rewrite (dict_get_NoDup _ (step_name s) s); [done|done|].
  apply list_elem_of_fmap. by exists s.
Qed.

Lemma depends_unique n d d' :
  NoDup (step_name <$> steps) → depends n d → depends n d' → d = d'.
Proof.
  intros Hnd H1%dependency_found H2%dependency_found; [congruence|done..].
Qed.

(** *** The cycle walk *)

Definition unwalked (walked : list string) : nat :=
  length (filter (.∉ walked) (step_name <$> steps)).

Lemma unwalked_cons c walked :
  c ∈ step_name <$> steps → c ∉ walked → unwalked (c :: walked) < unwalked walked.
Proof.
  unfold unwalked. induction (step_name <$> steps) as [|n l IH]; [by intros ?%elem_of_nil|].
  assert (∀ l', length (filter (.∉ c :: walked) l') ≤ length (filter (.∉ walked) l')) as Hle.
  { intros l'. induction l' as [|y l' IHl]; [done|]. rewrite !filter_cons.
    repeat case_decide; cbn [length]; [lia|set_solver|lia|lia]. }
  intros Hc Hw. specialize (Hle l). rewrite !filter_cons.
  apply elem_of_cons in Hc as [<-|Hc].
  - rewrite decide_False by set_solver. rewrite decide_True by done. cbn [length]. lia.
  - specialize (IH Hc Hw). repeat case_decide; cbn [length]; [lia|set_solver|lia|lia].
Qed.

(** The walk ends whatever the chain, and the fuel is enough for it. *)
Lemma closes_cycle_total fuel walked cursor :
  unwalked walked < fuel → is_Some (closes_cycle fuel (by_name steps) walked cursor).
Proof.
  revert walked cursor. induction fuel as [|fuel IH]; intros walked cursor Hf; [lia|].
  destruct cursor as [c|]; cbn [closes_cycle]; [|done]. case_decide as Hw; [done|].
  destruct (decide (c ∈ step_name <$> steps)) as [Hc|Hc].
  - apply IH. pose proof (unwalked_cons c walked Hc Hw). lia.
  - unfold dependency_of. rewrite (proj2 (dict_get_None _ _)); [by destruct fuel|].
    by rewrite named_keys.
Qed.

Lemma unwalked_le walked : unwalked walked ≤ length steps.
Proof. unfold unwalked. rewrite length_filter, length_fmap. done. Qed.

(** A walk that closes no cycle: nothing infinite lies above the cursor. *)
Lemma closes_cycle_false fuel walked c :
  closes_cycle fuel (by_name steps) walked (Some c) = Some false →
  NoDup (step_name <$> steps) → Acc (λ b a, depends a b) c.
Proof.
  intros H Hnd. revert walked c H. induction fuel as [|fuel IH]; intros walked c; cbn [closes_cycle]; [done|].
  case_decide as Hw; [done|]. intros H. constructor. intros d Hd.
  apply (dependency_found _ _ Hnd) in Hd. rewrite Hd in H. by apply IH in H.
Qed.

Lemma Acc_acyclic n : Acc (λ b a, depends a b) n → ¬ tc depends n n.
Proof.
  induction 1 as [n _ IH]. intros Hc.
  inversion Hc as [? ? Hr|? m ? Hr Hm]; subst; [by apply (IH n Hr), tc_once|].
  apply (IH m Hr). by eapply tc_r.
Qed.

Lemma closes_cycle_true fuel walked c :
  closes_cycle fuel (by_name steps) walked (Some c) = Some true →
  (∀ x, x ∈ walked → tc depends x c) → ∃ n, tc depends n n.
Proof.
  revert walked c. induction fuel as [|fuel IH]; intros walked c; cbn [closes_cycle]; [done|].
  case_decide as Hw; [intros _ H; by exists c; apply H|].
  intros H Hx. destruct (dependency_of (by_name steps) c) as [d|] eqn:Ed.
  2: { by destruct fuel. }
  apply dependency_declared in Ed. apply (IH _ _ H).
  intros x [->|Hin]%elem_of_cons; [by apply tc_once|]. by eapply tc_r; [apply Hx|].
Qed.

Lemma step_failures_total s : is_Some (step_failures steps s).
Proof.
  unfold step_failures. destruct (depends_on s) as [d|]; [|done].
  destruct (dict_mem _ _); [|done].
  destruct (closes_cycle_total (chain_fuel steps) [step_name s] (Some d)) as [b ->]; [|done].
  pose proof (unwalked_le [step_name s]). unfold chain_fuel. lia.
Qed.

Lemma step_failures_nil s :
  NoDup (step_name <$> steps) → s ∈ steps → (∀ n, ¬ tc depends n n) →
  (∀ d, depends_on s = Some d → d ∈ step_name <$> steps) → step_failures steps s = Some [].
Proof.
  intros Hnd Hs Hac Hd. destruct (step_failures_total s) as [l Hl]. revert Hl. unfold step_failures.
  destruct (depends_on s) as [d|] eqn:E; [|done].
  rewrite (proj2 (dict_mem_named d)) by by apply Hd.
  destruct (closes_cycle _ _ _ _) as [[]|] eqn:Ec; cbn; [|done|done]. intros _. exfalso.
  apply closes_cycle_true in Ec as [n Hn]; [by apply (Hac n)|].
  intros x ->%list_elem_of_singleton. apply tc_once. by exists s.
Qed.
End chain.

Lemma check_chain_failures_total steps : is_Some (check_chain_failures steps).
Proof.
  unfold check_chain_failures.
  assert (is_Some (mapM (step_failures steps) steps)) as [l ->]; [|done].
  apply mapM_is_Some, Forall_forall. intros s _. apply step_failures_total.
Qed.

Lemma concat_nil {A} (ls : list (list A)) : concat ls = [] ↔ ∀ l, l ∈ ls → l = [].
Proof.
  induction ls as [|l ls IH]; cbn; [split; [by intros _ ? ?%elem_of_nil|done]|].
  rewrite app_nil, IH. split; [|set_solver]. intros [-> H] l' [->|Hl]%elem_of_cons; [done|by apply H].
Qed.

Lemma check_chain_failures_nil steps : check_chain_failures steps = Some [] ↔ well_chained steps.
Proof.
  split.
  - unfold check_chain_failures. destruct (mapM (step_failures steps) steps) as [found|] eqn:E; [|done].
    cbn. intros [= [Hdup Hf]%app_nil]. apply duplicate_steps_nil in Hdup as [Hnd _].
    rewrite concat_nil in Hf. apply mapM_Some in E.
    assert (∀ s, s ∈ steps → step_failures steps s = Some []) as Hs.
    { intros s [i Hi]%list_elem_of_lookup. destruct (Forall2_lookup_l _ _ _ _ _ E Hi) as (l & Hl & ->).
      f_equal. apply Hf. by eapply list_elem_of_lookup_2. }
    split; [done|]. split.
    + intros s d Hin Hd. specialize (Hs s Hin). unfold step_failures in Hs. rewrite Hd in Hs.
      destruct (dict_mem _ _) eqn:Em; [by apply dict_mem_named|done].
    + intros n Hn. assert (∃ d, depends steps n d ∧ rtc (depends steps) d n) as (d & (s & Hin & <- & Hd) & Hr).
      { inversion Hn as [? ? Hr|? d ? Hr Hr']; subst; [by exists n|]. exists d. split; [done|].
        by apply tc_rtc. }
      specialize (Hs s Hin). unfold step_failures in Hs. rewrite Hd in Hs.
      destruct (dict_mem _ _); [|done].
      destruct (closes_cycle _ _ _ _) as [[]|] eqn:Ec; cbn in Hs; [done| |done].
      apply closes_cycle_false in Ec; [|done]. apply (Acc_acyclic _ _ Ec).
      eapply tc_rtc_l; [exact Hr|]. apply tc_once. by exists s.
  - intros (Hnd & Hd & Hac). unfold check_chain_failures.
    replace (duplicate_steps [] steps) with (@nil chain_failure).
    2: { symmetry. apply duplicate_steps_nil. split; [done|]. by intros n _ ?%elem_of_nil. }
    destruct (mapM (step_failures steps) steps) as [found|] eqn:E; cbn.
    + f_equal. apply concat_nil. intros l [i Hi]%list_elem_of_lookup. apply mapM_Some in E.
      destruct (Forall2_lookup_r _ _ _ _ _ E Hi) as (s & Hs & Hl). apply list_elem_of_lookup_2 in Hs.
      rewrite step_failures_nil in Hl; [by injection Hl as <-|done..|]. intros d. by apply Hd.
    + apply mapM_None in E. apply Exists_exists in E as (s & _ & Hs).
      destruct (step_failures_total steps s) as [l Hl]. congruence.
Qed.

(** C37. The structural check of a check chain always ends, cyclic declarations included,
    and finds nothing exactly in a chain that can be classified: no name is declared
    twice, every dependency is a declared step, and no step depends on itself through any
    number of others. *)
Theorem check_chain_accepted steps :
  is_Some (check_chain_failures steps)
  ∧ (check_chain_failures steps = Some [] ↔ well_chained steps).
Proof. split; [apply check_chain_failures_total|apply check_chain_failures_nil]. Qed.

(** ** The classification over a chain that was accepted *)

Section classified.
Context (steps : list CheckStep) (Hwc : well_chained steps).

Lemma chain_ends n : Acc (λ b a, depends steps a b) n.
Proof.
  destruct Hwc as (Hnd & _ & Hac). constructor. intros d Hd.
  destruct (closes_cycle_total steps (chain_fuel steps) [n] (Some d)) as [b Hb].
  { pose proof (unwalked_le steps [n]). unfold chain_fuel. lia. }
  destruct b; [|by eapply closes_cycle_false].
  exfalso. apply closes_cycle_true in Hb as [m Hm]; [by apply (Hac m)|].
  intros x ->%list_elem_of_singleton. by apply tc_once.
Qed.

(** The walk of the classifier stops where the walk of the check does, or before. *)
Lemma failed_ancestor_ends fuel walked failed cursor :
  closes_cycle fuel (by_name steps) walked cursor = Some false →
  is_Some (failed_ancestor fuel (by_name steps) failed cursor).
Proof.
  revert walked cursor. induction fuel as [|fuel IH]; intros walked [c|]; cbn; try done.
  case_decide; [done|]. intros Hc. case_decide; [done|]. by eapply IH.
Qed.

Definition has_failed_above (failed : list string) (n : string) : Prop :=
  ∃ a, tc (depends steps) n a ∧ a ∈ failed.

Lemma failed_ancestor_spec fuel failed c b :
  failed_ancestor fuel (by_name steps) failed (Some c) = Some b →
  b = true ↔ ∃ a, rtc (depends steps) c a ∧ a ∈ failed.
Proof.
  destruct Hwc as (Hnd & _ & _). revert c. induction fuel as [|fuel IH]; intros c; cbn; [done|].
  case_decide as Hc; [intros [= <-]; split; [by exists c|done]|].
  destruct (dependency_of (by_name steps) c) as [d|] eqn:Ed.
  - apply dependency_declared in Ed. intros ->%IH. split; intros (a & Ha & Hin); exists a.
    + split; [by eapply rtc_l|done].
    + split; [|done]. apply rtc_inv in Ha as [<-|(d' & Hd' & Ha)]; [done|].
      by rewrite (depends_unique steps c d d').
  - intros H. assert (b = false) as -> by (by destruct fuel; injection H).
    split; [done|]. intros (a & Ha & Hin).
    apply rtc_inv in Ha as [<-|(d' & Hd'%dependency_found & _)]; [done|congruence|done].
Qed.

Lemma has_failed_ancestor_spec n failed :
  ∃ b, _has_failed_ancestor steps n failed = Some b ∧ (b = true ↔ has_failed_above failed n).
Proof.
  destruct Hwc as (Hnd & _ & Hac). unfold _has_failed_ancestor, has_failed_above.
  destruct (dependency_of (by_name steps) n) as [d|] eqn:Ed.
  - apply dependency_declared in Ed.
    destruct (closes_cycle_total steps (chain_fuel steps) [n] (Some d)) as [[] Hb].
    { pose proof (unwalked_le steps [n]). unfold chain_fuel. lia. }
    { exfalso. apply closes_cycle_true in Hb as [m Hm]; [by apply (Hac m)|].
      intros x ->%list_elem_of_singleton. by apply tc_once. }
    destruct (failed_ancestor_ends _ _ failed _ Hb) as [b Hf]. exists b. split; [done|].
    rewrite (failed_ancestor_spec _ _ _ _ Hf). split; intros (a & Ha & Hin); exists a; (split; [|done]).
    + by eapply tc_rtc_r; [apply tc_once|].
    + inversion Ha as [? ? Hd|? d' ? Hd Ha']; subst.
      * by rewrite (depends_unique steps n d a).
      * rewrite (depends_unique steps n d d') by done. by apply tc_rtc.
  - exists false. cbn. split; [done|]. split; [done|]. intros (a & Ha & _).
    inversion Ha as [? ? Hd|? d' ? Hd Ha']; subst; apply dependency_found in Hd; congruence.
Qed.

Definition caused (failed : list string) (n : string) : bool :=
  default false (_has_failed_ancestor steps n failed).
#[local] Arguments caused : simpl never.

Lemma caused_spec failed n :
  _has_failed_ancestor steps n failed = Some (caused failed n)
  ∧ (caused failed n = true ↔ has_failed_above failed n).
Proof. destruct (has_failed_ancestor_spec n failed) as (b & Hb & Hi). unfold caused. by rewrite Hb. Qed.

(** Above a step that failed because of others there is one that failed on its own. *)
Lemma root_above failed n :
  has_failed_above failed n →
  ∃ r, tc (depends steps) n r ∧ r ∈ failed ∧ caused failed r = false.
Proof.
  induction (chain_ends n) as [n _ IH]. intros (a & Ha & Hin).
  assert (∃ m, depends steps n m ∧ (m ∈ failed ∨ has_failed_above failed m)) as (m & Hm & Hf).
  { inversion Ha as [? ? Hd|? d ? Hd Ha']; subst; [by exists a; auto|].
    exists d. split; [done|]. right. by exists a. }
  destruct (caused failed m) eqn:Ec.
  - apply caused_spec in Ec. destruct (IH m Hm Ec) as (r & Hr & ?). exists r. split; [|done].
    by eapply tc_l.
  - exists m. split; [by apply tc_once|]. split; [|done]. destruct Hf as [Hf|Hf]; [done|].
    apply caused_spec in Hf. congruence.
Qed.

Lemma classify_names_spec failed names acc :
  classify_names steps failed acc names = Some
    {| roots := roots acc ++ filter (λ n, n ∈ failed ∧ caused failed n = false) names;
       cascades := cascades acc ++ filter (λ n, n ∈ failed ∧ caused failed n = true) names |}.
Proof.
  revert acc. induction names as [|n names IH]; intros acc; cbn [classify_names].
  { destruct acc. by rewrite !app_nil_r. }
  unfold classify_name. rewrite !filter_cons. case_decide as Hn.
  - rewrite (proj1 (caused_spec failed n)). cbn [mbind option_bind].
    destruct (caused failed n) eqn:Ec; rewrite IH; cbn [roots cascades].
    + rewrite decide_False, decide_True by (intuition congruence). by rewrite <-app_assoc.
    + rewrite decide_True, decide_False by (intuition congruence). by rewrite <-app_assoc.
  - cbn. rewrite IH, !decide_False by tauto. done.
Qed.

Lemma report_order_elem failed n : n ∈ failed → n ∈ report_order steps failed.
Proof.
  intros Hn. unfold report_order. rewrite elem_of_app, elem_of_sort_by, list_elem_of_filter, elem_of_fromkeys.
  destruct (decide (n ∈ step_name <$> steps)); [by left|right]. by rewrite named_keys.
Qed.

Lemma report_order_NoDup failed : NoDup (report_order steps failed).
Proof.
  destruct Hwc as (Hnd & _ & _). unfold report_order. apply NoDup_app. split; [done|]. split.
  - intros n Hn. rewrite elem_of_sort_by, list_elem_of_filter, named_keys. tauto.
  - rewrite sort_by_perm. apply NoDup_filter, fromkeys_NoDup.
Qed.

Lemma report_order_set failed failed' :
  (∀ n, n ∈ failed ↔ n ∈ failed') → report_order steps failed = report_order steps failed'.
Proof.
  intros Heq. unfold report_order. f_equal. apply sort_by_unique.
  - apply NoDup_Permutation; [by apply NoDup_filter, fromkeys_NoDup..|].
    intros n. by rewrite !list_elem_of_filter, !elem_of_fromkeys, Heq.
  - rewrite list_fmap_id. apply NoDup_filter, fromkeys_NoDup.
Qed.

Lemma caused_set failed failed' n :
  (∀ n, n ∈ failed ↔ n ∈ failed') → caused failed n = caused failed' n.
Proof.
  intros Heq. apply eq_true_iff_eq. rewrite (proj2 (caused_spec failed n)), (proj2 (caused_spec failed' n)).
  unfold has_failed_above. by setoid_rewrite Heq.
Qed.
End classified.

(** C38. Over a chain the load accepted the classification of a run's failed steps always
    ends. Every failed name is reported once, undeclared ones included, as a root or as a
    cascade, each list in the declared order; it is a cascade exactly when a step it
    depends on, through any number of others, failed too, and then one of the reported
    roots is among those; and the classification depends on the failed names alone, not on
    their order or how often each is given. *)
Theorem classify_check_failures_spec steps failed :
  check_chain_failures steps = Some [] →
  ∃ c, classify_check_failures steps failed = Some c
    ∧ NoDup (roots c ++ cascades c) ∧ (∀ n, n ∈ roots c ++ cascades c ↔ n ∈ failed)
    ∧ roots c `sublist_of` report_order steps failed
    ∧ cascades c `sublist_of` report_order steps failed
    ∧ (∀ n, n ∈ cascades c ↔ n ∈ failed ∧ ∃ a, tc (depends steps) n a ∧ a ∈ failed)
    ∧ (∀ n, n ∈ cascades c → ∃ r, r ∈ roots c ∧ tc (depends steps) n r)
    ∧ (∀ failed', (∀ n, n ∈ failed ↔ n ∈ failed') → classify_check_failures steps failed' = Some c).
Proof.
  intros Hwc%check_chain_failures_nil. unfold classify_check_failures.
  setoid_rewrite (classify_names_spec steps Hwc). eexists. split; [reflexivity|]. cbn [roots cascades app].
  pose proof (report_order_NoDup steps Hwc failed) as Hnd.
  split; [|split; [|split; [|split; [|split; [|split]]]]].
  - apply NoDup_app. split; [by apply NoDup_filter|]. split; [|by apply NoDup_filter].
    intros n. rewrite !list_elem_of_filter. intros [[_ H] _] [[_ H'] _]. congruence.
  - intros n. rewrite elem_of_app, !list_elem_of_filter.
    pose proof (report_order_elem steps failed n) as Ho.
    split; [tauto|]. intros Hn. specialize (Ho Hn).
    destruct (caused steps failed n) eqn:Ec; [right|left]; repeat split; done.
  - apply sublist_filter.
  - apply sublist_filter.
  - intros n. rewrite list_elem_of_filter, (proj2 (caused_spec steps Hwc failed n)).
    pose proof (report_order_elem steps failed n). unfold has_failed_above. tauto.
  - intros n. rewrite list_elem_of_filter. intros [[_ Hc%caused_spec] _]; [|done].
    apply root_above in Hc as (r & Hr & Hin & Hf); [|done]. exists r. split; [|done].
    rewrite list_elem_of_filter. split; [done|]. by apply report_order_elem.
  - intros failed' Heq. rewrite <-(report_order_set steps failed failed' Heq). do 2 f_equal.
    + apply filter_ext_in. intros n _. cbn beta. by rewrite (caused_set steps Hwc failed failed' n Heq), Heq.
    + apply filter_ext_in. intros n _. cbn beta. by rewrite (caused_set steps Hwc failed failed' n Heq), Heq.
Qed.

Definition sample_step (name : string) (on : option string) : CheckStep := {|
  step_name := name; command := name; depends_on := on; requires := []; forge_check := None |}.
Definition sample_chain : list CheckStep :=
  [sample_step "sync" None; sample_step "build" (Some "sync"); sample_step "test" (Some "build")].

Example classify_check_failures_spec_witness :
  ∃ c, classify_check_failures sample_chain ["test"; "lint"; "sync"; "test"] = Some c
    ∧ roots c = ["sync"; "lint"] ∧ cascades c = ["test"].
Proof.
  destruct (classify_check_failures_spec sample_chain ["test"; "lint"; "sync"; "test"])
    as (c & Hc & _); [by vm_compute|].
  exists c. split; [exact Hc|]. vm_compute in Hc. injection Hc as <-. by split.
Defined.
