(* ===== verification/Tracker.v ===== *)
(** * The tracker's vocabulary (types/domain/tracker.py, scope_address.py).

    The vendor-neutral data every other component reads: priorities and their
    one order, the workflow kinds and their open/closed partition, relations,
    issues, comments and scope addresses. An instant ([datetime]) is a [Z]
    count of microseconds on one clock; a [timedelta] is a difference of two. *)

From S2P Require Import Prelude PyStr.

(** ** Priority *)

Inductive IssuePriority := URGENT | HIGH | MEDIUM | LOW | NONE.
#[export] Instance IssuePriority_eq_dec : EqDecision IssuePriority.
Proof. solve_decision. Defined.

Definition PRIORITY_RANK_ORDER : list IssuePriority := [URGENT; HIGH; MEDIUM; LOW; NONE].

(** [tuple.index]; every member is in the order, so the code's [ValueError] on
    an absent one cannot be reached and the model answers the length there. *)
Fixpoint index_of {A} `{EqDecision A} (x : A) (l : list A) : nat :=
  match l with
  | [] => 0
  | y :: l => if decide (y = x) then 0 else S (index_of x l)
  end.

Definition priority_rank (priority : IssuePriority) : nat :=
  index_of priority PRIORITY_RANK_ORDER.

Lemma priority_rank_inj p q : priority_rank p = priority_rank q → p = q.
Proof. by destruct p, q. Qed.

Lemma priority_rank_listed p : PRIORITY_RANK_ORDER !! priority_rank p = Some p.
Proof. by destruct p. Qed.

(** ** Workflow state kinds *)

Inductive WorkflowStateKind :=
| TRIAGE | BACKLOG | UNSTARTED | STARTED | COMPLETED | CANCELED | DUPLICATE.
#[export] Instance WorkflowStateKind_eq_dec : EqDecision WorkflowStateKind.
Proof. solve_decision. Defined.
#[export] Program Instance WorkflowStateKind_finite : finite.Finite WorkflowStateKind :=
  {| finite.enum := [TRIAGE; BACKLOG; UNSTARTED; STARTED; COMPLETED; CANCELED; DUPLICATE] |}.
Next Obligation. by apply (bool_decide_unpack _). Qed.
Next Obligation. intros []; by apply (bool_decide_unpack _). Qed.

Definition _NON_COUNTING_STATE_KINDS : gset WorkflowStateKind := {[ CANCELED; DUPLICATE ]}.
Definition _CLOSED_STATE_KINDS : gset WorkflowStateKind :=
  {[ COMPLETED ]} ∪ _NON_COUNTING_STATE_KINDS.

Definition is_open (kind : WorkflowStateKind) : bool :=
  bool_decide (kind ∉ _CLOSED_STATE_KINDS).
Definition is_non_counting (kind : WorkflowStateKind) : bool :=
  bool_decide (kind ∈ _NON_COUNTING_STATE_KINDS).

(** ** Relations, queue states *)

Inductive IssueRelationKind := BLOCKED_BY | BLOCKS | RELATED | DUPLICATE_OF.
#[export] Instance IssueRelationKind_eq_dec : EqDecision IssueRelationKind.
Proof. solve_decision. Defined.

(** The queue members code addresses by name (types/domain/operation.py). *)
Inductive QueueState := Q_TRIAGE | Q_PROPOSED | Q_APPROVED | Q_DONE | Q_DECISION.
#[export] Instance QueueState_eq_dec : EqDecision QueueState.
Proof. solve_decision. Defined.
#[export] Program Instance QueueState_finite : finite.Finite QueueState :=
  {| finite.enum := [Q_TRIAGE; Q_PROPOSED; Q_APPROVED; Q_DONE; Q_DECISION] |}.
Next Obligation. by apply (bool_decide_unpack _). Qed.
Next Obligation. intros []; by apply (bool_decide_unpack _). Qed.

Record IssueRelation := {
  relation_kind : IssueRelationKind;
  relation_issue_key : string;
}.
#[export] Instance IssueRelation_eq_dec : EqDecision IssueRelation.
Proof. solve_decision. Defined.

(** ** Issues *)

Record TrackerIssue := {
  issue_key : string;
  title : string;
  body : string;
  priority : IssuePriority;
  state_name : string;
  state_kind : WorkflowStateKind;
  queue_states : gset QueueState;
  issue_labels : gset string;
  team_key : option string;
  project : option string;
  project_id : option string;
  milestone_key : option string;
  relations : list IssueRelation;
  parent_key : option string;
  assignee_key : option string;
  created_at : Z;
  updated_at : Z;
  url : string;
}.
#[export] Instance TrackerIssue_eq_dec : EqDecision TrackerIssue.
Proof. solve_decision. Defined.

Definition has_label (label : string) (issue : TrackerIssue) : bool :=
  bool_decide (label ∈ issue_labels issue).

Record TrackerComment := {
  comment_key : string;
  comment_issue_key : string;
  author_key : option string;
  comment_body : string;
  comment_created_at : Z;
  reply_to : option string;
}.
#[export] Instance TrackerComment_eq_dec : EqDecision TrackerComment.
Proof. solve_decision. Defined.

(** ** Claims and scope addresses *)

Inductive ClaimStatus := GRANTED | LOST | CONTENDED.

Record ClaimResult := {
  claim_issue_key : string;
  claim_status : ClaimStatus;
  claim_holder : string;
  claim_expires_at : Z;
  current_holder : option string;
}.

Inductive ScopeKind := INITIATIVE | PROJECT | MILESTONE | ISSUE.
#[export] Instance ScopeKind_eq_dec : EqDecision ScopeKind.
Proof. solve_decision. Defined.

Definition scope_kind_value (kind : ScopeKind) : string :=
  match kind with
  | INITIATIVE => "initiative" | PROJECT => "project"
  | MILESTONE => "milestone" | ISSUE => "issue"
  end.

Record ScopeRef := { scope_kind : ScopeKind; scope_key : string }.
#[export] Instance ScopeRef_eq_dec : EqDecision ScopeRef.
Proof. solve_decision. Defined.

(** ** Writable surfaces (types/domain/surface.py) *)

Inductive SurfaceKind :=
| ISSUE_DESCRIPTION | MARKER_COMMENT | CONTAINER_DESCRIPTION | CONTAINER_STATUS_UPDATE
| ISSUE_LABEL_SET | CRITERION_SUB_ISSUE | CRITERION_CHILD_SET | ISSUE_GRAPH | ISSUE_SPLIT_SET.
#[export] Instance SurfaceKind_eq_dec : EqDecision SurfaceKind.
Proof. solve_decision. Defined.

Definition surface_kind_value (kind : SurfaceKind) : string :=
  match kind with
  | ISSUE_DESCRIPTION => "issue_description"
  | MARKER_COMMENT => "marker_comment"
  | CONTAINER_DESCRIPTION => "container_description"
  | CONTAINER_STATUS_UPDATE => "container_status_update"
  | ISSUE_LABEL_SET => "issue_label_set"
  | CRITERION_SUB_ISSUE => "criterion_sub_issue"
  | CRITERION_CHILD_SET => "criterion_child_set"
  | ISSUE_GRAPH => "issue_graph"
  | ISSUE_SPLIT_SET => "issue_split_set"
  end.

Record WritableSurface := {
  surface_kind : SurfaceKind;
  surface_ref : ScopeRef;
  surface_marker : option string;
}.
#[export] Instance WritableSurface_eq_dec : EqDecision WritableSurface.
Proof. solve_decision. Defined.

Lemma surface_kind_value_inj k k' : surface_kind_value k = surface_kind_value k' → k = k'.
Proof. by destruct k, k'. Qed.

Lemma scope_kind_value_inj k k' : scope_kind_value k = scope_kind_value k' → k = k'.
Proof. by destruct k, k'. Qed.

#[export] Instance SurfaceKind_countable : Countable SurfaceKind.
Proof.
  apply (inj_countable surface_kind_value (λ v,
    head (filter (λ k, surface_kind_value k = v)
      [ISSUE_DESCRIPTION; MARKER_COMMENT; CONTAINER_DESCRIPTION; CONTAINER_STATUS_UPDATE;
       ISSUE_LABEL_SET; CRITERION_SUB_ISSUE; CRITERION_CHILD_SET; ISSUE_GRAPH; ISSUE_SPLIT_SET]))).
  by intros [].
Defined.

#[export] Instance ScopeKind_countable : Countable ScopeKind.
Proof.
  apply (inj_countable scope_kind_value (λ v,
    head (filter (λ k, scope_kind_value k = v) [INITIATIVE; PROJECT; MILESTONE; ISSUE]))).
  by intros [].
Defined.

#[export] Instance WritableSurface_countable : Countable WritableSurface.
Proof.
  apply (inj_countable' (λ s, (surface_kind s, (scope_kind (surface_ref s), scope_key (surface_ref s)),
      surface_marker s))
    (λ p, {| surface_kind := p.1.1;
             surface_ref := {| scope_kind := p.1.2.1; scope_key := p.1.2.2 |};
             surface_marker := p.2 |})).
  by intros [k [] m].
Defined.

(** An issue with the fields most readings leave aside, for concrete inputs. *)
Definition plain_issue (key : string) (kind : WorkflowStateKind) : TrackerIssue := {|
  issue_key := key; title := key; body := ""; priority := NONE; state_name := "";
  state_kind := kind; queue_states := ∅; issue_labels := ∅; team_key := None;
  project := None; project_id := None; milestone_key := None; relations := [];
  parent_key := None; assignee_key := None; created_at := 0; updated_at := 0; url := "";
|}.

(** ** The partition of the workflow kinds *)

Lemma is_open_iff kind :
  is_open kind = true ↔ kind ≠ COMPLETED ∧ is_non_counting kind = false.
Proof. destruct kind; vm_compute; naive_solver. Qed.
