(* ===== verification/Errors.v ===== *)
(** * The exceptions the components raise (domain/errors.py and Python's own).

    One type for every exception a modelled function raises, with the fields
    the exception carries. A message that Python renders with [repr] is kept
    as the value that is rendered, never as the rendering: the constructors of
    [lane_refusal], [write_refusal] and [write_anchor] are those messages, one each. *)

From S2P Require Import Prelude PyStr Tracker.

(** Why a lane cannot be entered (the [reason] of [LaneEntryError]). *)
Inductive lane_refusal :=
| NotOneDeliverable (n : nat)
| NotOneBase (n : nat)
| NoCommitAct
| BranchAbsentFromRemote
| RecordedBaseMoved (recorded implied : string)
| NothingOwedOffHead.

(** Why a lane record cannot be read (the [reason] of [LaneRecordReadError]). *)
Inductive read_refusal :=
| NoLaneComment
| ReadFailed
| EmptyReference
| ForeignComment
| SeveralRecords
| NotTheReference
| RecordInReply
| InvalidRecordBody.

(** Why a lane cannot be written (the [reason] of [LaneRecordWriteError]). *)
Inductive write_refusal :=
| RunReboundTo (run_id branch : string) (derived_from : option string)
    (to_branch to_base : string)
| RefusedFields
| RecordUnreadable (reason : read_refusal)
| StreamUnreadable
| CommentsUnreadable
| HeadNotReceipt
| FactsChangedByGate
| NoRepository
| CrossOffsNotDispatched.

(** What a write that found something else had expected (the [expected] of
    [StaleWriteError]): a text, or the anchor of a tick. *)
Inductive write_anchor :=
| ExpectedText (text : string)
| TickAnchor (criterion_key check : string).

(** Why a fire's asset is refused (the message of [AssetFetchError]); the reason it carries
    is [asset_reason]. *)
Inductive asset_refusal :=
| TooManyAssets (referenced maximum : nat)
| AssetTimedOut
| AssetUnreadable
| AssetTooLarge (size maximum : nat)
| AssetNotClean (verdict : string).

Definition asset_reason (r : asset_refusal) : string :=
  match r with
  | TooManyAssets _ _ => "too_many" | AssetTimedOut => "timeout" | AssetUnreadable => "unreadable"
  | AssetTooLarge _ _ => "too_large" | AssetNotClean _ => "private_content"
  end.

Inductive exn :=
(* Python's own *)
| ValueError (message : string)
| ValueErrorOf (message : string) (values : list string)
| KeyError (key : string)
| RuntimeError (message : string)
| TimeoutError (message : string)
| ConnectionError
| ValidationError (model : string)
(* domain/errors.py *)
| RunShapeReadError (signal source_ref reason : string)
| StaleWriteError (target : string) (expected : write_anchor)
| LaneEntryError (lane_issue_key : string) (reason : lane_refusal) (branches : list string)
| LaneRecordWriteError (lane_key : string) (reason : write_refusal)
| LaneRecordReadError (on_issue lane_key : string) (record_ref : option string) (reason : read_refusal)
| DuplicateCommentMarkerError (target marker : string) (comment_keys : list string)
| StaleCommentWriteError (target expected_comment_key reason : string)
| SurfaceWriteAttributionError (target marker : string) (author : option string)
| PrincipalAuthoredSurfaceError (surface : WritableSurface)
| OutboundContentBlockedError (writer : string)
| EscalationReadError (on_issue lane_key escalation_key reason : string)
| SubjectAmendedError (on_issue recorded_digest current_digest : string)
| EmptyFireCriteriaError (on_issue : string)
| AssetFetchError (on_issue : string) (refusal : asset_refusal) (asset_key : option string)
| ScopeCycleError (issue_keys : list string)
| ScopeReadError (message : string) (ref : ScopeRef)
| ScopePlanRefusalError (ref : ScopeRef) (open_decisions backlog_criteria : list string)
    (cross_subtree_edges : list (string * string))
| TransientAPIError (message : string) (retry_after : option Z)
| RateLimitError (message : string) (retry_after : option Z)
| ForgeAPIError (message : string)
| QueueFullError (lane : string) (capacity : option nat)
| BaseResolutionError (message issue_id : string) (blocker_issue_ids branches : list string)
| BaseIntegrationConflictError (issue_id : string) (branches paths : list string)
| MergeConflictError (source_branch : string) (paths : list string)
| CriteriaFanInError (message : string) (missing_ids duplicate_ids unknown_ids : list string)
| UngroundedVerdictError (message criterion_id : string)
| OperationMemberAbsentError (purpose : string)
| StickyClassError (criterion held declared : string)
| SurfaceContendedError (message : string) (surface : WritableSurface) (current_holder : option string)
| SurfaceLeaseError (message : string) (surface : WritableSurface) (current_holder : option string)
| SurfaceLeaseLostError (job_id : string) (surfaces : gset WritableSurface)
| CancelledError
(* the tracker adapter's *)
| TrackerProtocolError (message : string)
| TrackerAccessDeniedError
| TrackerUnavailableError
(* the loop's: domain/errors.py, domain/amendment.py, core/errors.py *)
| FireSpecEntryError (on_issue reason : string)
| InvalidFireCriterionError (on_issue criterion_key reason : string)
| CriterionReadError (on_issue reason : string)
| GitSourceReadError (ref : string) (path : option string) (reason : string)
| WorkspaceError (message : string)
| BaseReadingUnavailableError (base_ref reason : string)
| NativeWriteRefusalError (message : string)
| NoStructuredOutputError (message : string)
| PassGateScopeError (signal container : string)
| RunRecordWriteError (kind failure : string)
| RateLimitedSoftFailureError (message : string).

(** [isinstance(exc, TransientAPIError)], its two subclasses included, and the
    graph's retry predicate over it (core/retry.py). *)
Definition is_TransientAPIError (e : exn) : bool :=
  match e with
  | TransientAPIError _ _ | RateLimitError _ _ | RateLimitedSoftFailureError _ => true
  | _ => false
  end.
Definition should_retry (e : exn) : bool :=
  is_TransientAPIError e || match e with ConnectionError => true | _ => false end.

(** [isinstance(exc, BaseResolutionError)], and [str(exc)] of one. *)
Definition base_refusal_text (e : exn) : option string :=
  match e with
  | BaseResolutionError message _ _ _ => Some message
  | BaseIntegrationConflictError _ branches paths =>
      Some ("inputs to the integration base conflict (refs: " +:+ join ", " branches
            +:+ "; conflicting paths: " +:+ join ", " paths +:+ ")")
  | _ => None
  end.

(** [soft_failure] (core/errors.py): a drained stream with no usable output. *)
Definition soft_failure (message : string) (rate_limit_rejected : bool) : exn :=
  if rate_limit_rejected then RateLimitedSoftFailureError message
  else NoStructuredOutputError message.

(** [str(exc)] of the errors whose message renders no [repr]. *)
Definition ScopeCycleError_message (issue_keys : list string) : string :=
  "scope dependency cycle: " +:+ join ", " issue_keys.

Definition ScopeReadError_message (message : string) (ref : ScopeRef) : string :=
  message +:+ " (scope: " +:+ scope_kind_value (scope_kind ref) +:+ ":"
  +:+ scope_key ref +:+ ")".

(** [', '.join(ids) or '-'] *)
Definition ids_or_dash (ids : list string) : string :=
  let s := join ", " ids in if decide (s = "") then "-" else s.

Definition CriteriaFanInError_message (message : string)
    (missing_ids duplicate_ids unknown_ids : list string) : string :=
  message +:+ " (missing: " +:+ ids_or_dash missing_ids +:+ "; duplicate: "
  +:+ ids_or_dash duplicate_ids +:+ "; unknown: " +:+ ids_or_dash unknown_ids +:+ ")".

Definition BaseIntegrationConflictError_message (message : string)
    (branches paths : list string) : string :=
  message +:+ " (refs: " +:+ join ", " branches +:+ "; conflicting paths: "
  +:+ join ", " paths +:+ ")".
