(* ===== verification/GitUrl.v ===== *)
(** * Repository addresses (domain/git_url.py).

    The shorthand of a repository, its clone address and the directory it is cached in. *)

From Stdlib Require Import Ascii.
From S2P Require Import Prelude PyStr Tracker Errors.

Local Open Scope nat_scope.

Definition slash : ascii := "/".
Definition https : string := "https://".
Definition file_scheme : string := "file://".

(** [[a-zA-Z0-9\-_.]+] *)
Definition name_char (a : ascii) : bool :=
  let c := byte a in
  ((97 <=? c) && (c <=? 122) || (65 <=? c) && (c <=? 90) || (48 <=? c) && (c <=? 57))%Z
  || bool_decide (c ∈ [45; 95; 46]%Z).
Definition repo_name (s : string) : bool := negb (bool_decide (s = "")) && str_all name_char s.

(** [_SHORTHAND_RE.match]: two names around a slash; the dollar also matches before a final
    line feed. *)
Definition shorthand (raw : string) : option (string * string) :=
  match split_char slash (removesuffix raw (String newline "")) with
  | [owner; repo] => if repo_name owner && repo_name repo then Some (owner, repo) else None
  | _ => None
  end.

Definition parse_repo_url (raw : string) : result exn string :=
  if startswith raw https then
    let url := rstrip_char slash raw in
    Ok (if endswith url ".git" then url else url +:+ ".git")
  else if startswith raw file_scheme then Ok raw
  else Err (ValueError ("Not a recognized git URL scheme: " +:+ raw)).

Definition resolve_repo_url (raw base_url : string) : result exn string :=
  if startswith raw https || startswith raw file_scheme then parse_repo_url raw
  else match shorthand raw with
       | Some (owner, repo) =>
           Ok (rstrip_char slash base_url +:+ "/" +:+ owner +:+ "/" +:+ repo +:+ ".git")
       | None => Err (ValueError ("Not a valid repo URL or owner/repo shorthand: " +:+ raw))
       end.

Definition is_forge_less_origin (url : string) : bool := startswith url file_scheme.

(** [url.split("//", maxsplit=1)[1]] of an [https] address is what follows its scheme. *)
Definition extract_owner_repo (url : string) : result exn (string * string) :=
  match shorthand url with
  | Some found => Ok found
  | None =>
      if startswith url file_scheme then
        Err (ValueError ("Cannot extract owner/repo from file:// URL: " +:+ url))
      else
        let refused := Err (ValueError ("Cannot extract owner/repo from URL: " +:+ url)) in
        match strip_prefix https url with
        | Some rest =>
            match split_char slash (rstrip_char slash rest) with
            | _ :: owner :: repo :: _ => Ok (owner, removesuffix repo ".git")
            | _ => refused
            end
        | None => refused
        end
  end.

(** [str(PurePosixPath(base) / slug)]: empty and dot components go, the root stays. *)
Definition path_parts (p : string) : list string :=
  filter (λ s, s ≠ "" ∧ s ≠ ".") (split_char slash p).
Definition path_root (p : string) : string :=
  if startswith p "//" && negb (startswith p "///") then "//"
  else if startswith p "/" then "/" else "".
Definition path_join (base slug : string) : string :=
  let whole := path_root base +:+ join "/" (path_parts base ++ path_parts slug) in
  if decide (whole = "") then "." else whole.

(** [path.replace("/", "--")] *)
Definition slug_of (path : string) : string :=
  str_map_chars (λ a, if decide (a = slash) then "--" else String a "") path.
Definition cache_dir_for_repo (base_cache_dir clone_url : string) : string :=
  let path := removeprefix (removeprefix clone_url https) file_scheme in
  path_join base_cache_dir (slug_of (removesuffix path ".git")).

(** * Lemmas *)

Lemma removesuffix_app s p : removesuffix (s +:+ p) p = s.
Proof.
  unfold removesuffix, removeprefix. rewrite str_rev_app.
  rewrite (proj2 (strip_prefix_Some _ _ (str_rev s))) by done. apply str_rev_involutive.
Qed.

Lemma removesuffix_other s p : endswith s p = false → removesuffix s p = s.
Proof.
  unfold removesuffix, removeprefix, endswith, startswith.
  destruct (strip_prefix _ _); [done|]. intros _. apply str_rev_involutive.
Qed.

(** A text with no slash is one part, and ends in none. *)
Definition slashless (s : string) : bool := str_all (λ a, negb (bool_decide (a = slash))) s.

Lemma split_slashless s : slashless s = true → split_char slash s = [s].
Proof.
  unfold slashless. induction s as [|a s IH]; [done|]. cbn [str_all split_char].
  rewrite andb_true_iff, negb_true_iff, bool_decide_eq_false. intros [Ha Hs].
  destruct (Ascii.ascii_dec a slash); [done|]. by rewrite IH.
Qed.

Lemma split_slash s t :
  slashless s = true → split_char slash (s +:+ String slash t) = s :: split_char slash t.
Proof.
  unfold slashless. induction s as [|a s IH].
  { intros _. cbn [String.append split_char]. by destruct (Ascii.ascii_dec slash slash). }
  cbn [str_all String.append split_char].
  rewrite andb_true_iff, negb_true_iff, bool_decide_eq_false. intros [Ha Hs].
  destruct (Ascii.ascii_dec a slash); [done|]. by rewrite IH.
Qed.

Lemma rstrip_other c s a : a ≠ c → rstrip_char c (s +:+ String a "") = s +:+ String a "".
Proof.
  intros Ha. unfold rstrip_char. rewrite str_rev_app. cbn [str_rev str_rev_append String.append].
  change (str_rev (String a "")) with (String a ""). cbn [String.append lstrip_char].
  destruct (Ascii.ascii_dec a c); [done|].
  rewrite str_rev_cons, str_rev_involutive. done.
Qed.

Lemma str_all_rev p s : str_all p (str_rev s) = str_all p s.
Proof.
  induction s as [|a s IH]; [done|]. rewrite str_rev_cons, str_all_app, IH. cbn.
  by rewrite andb_true_r, andb_comm.
Qed.

(** The last character of a text whose end is of one class. *)
Lemma ends_in_class p c x t :
  t ≠ "" → str_all p t = true → p c = false → endswith (x +:+ t) (String c "") = false.
Proof.
  intros Ht Hp Hc. unfold endswith. rewrite str_rev_app.
  rewrite <-(str_all_rev p) in Hp. destruct (str_rev t) as [|d u] eqn:E.
  { exfalso. apply Ht. by rewrite <-(str_rev_involutive t), E. }
  change (str_rev (String c "")) with (String c ""). unfold startswith.
  cbn [String.append strip_prefix]. destruct (Ascii.ascii_dec c d) as [->|]; [|done].
  cbn in Hp. by rewrite Hc in Hp.
Qed.

Lemma name_slashless s : repo_name s = true → slashless s = true ∧ s ≠ "".
Proof.
  unfold repo_name, slashless. rewrite andb_true_iff, negb_true_iff, bool_decide_eq_false.
  intros [Hne Hs]. split; [|done]. clear Hne. induction s as [|a s IH]; [done|]. cbn in *.
  apply andb_true_iff in Hs as [Ha Hs]. rewrite IH, andb_true_r by done.
  rewrite negb_true_iff, bool_decide_eq_false. by intros ->.
Qed.

Lemma shorthand_names owner repo :
  repo_name owner = true → repo_name repo = true →
  shorthand (owner +:+ "/" +:+ repo) = Some (owner, repo).
Proof.
  intros Ho Hr. destruct (name_slashless _ Ho) as [So _], (name_slashless _ Hr) as [Sr Nr].
  unfold shorthand. rewrite removesuffix_other.
  - change ("/" +:+ repo) with (String slash repo).
    by rewrite split_slash, split_slashless, Ho, Hr.
  - rewrite str_app_assoc. apply (ends_in_class name_char); [done| |done].
    unfold repo_name in Hr. by apply andb_true_iff in Hr as [_ ?].
Qed.

Lemma shorthand_https rest : shorthand (https +:+ rest) = None.
Proof.
  unfold shorthand.
  assert (∃ t, removesuffix (https +:+ rest) (String newline "") = https +:+ t) as [t ->].
  { destruct (endswith (https +:+ rest) (String newline "")) eqn:E.
    - apply endswith_spec in E as [r Hr]. rewrite Hr, removesuffix_app.
      assert (String.length r = String.length (https +:+ rest) - 1) as Hl
        by (rewrite Hr, str_length_app; cbn; lia).
      destruct rest as [|a rest].
      { exfalso. rewrite str_app_nil_r in Hr. apply (f_equal str_rev) in Hr.
        rewrite str_rev_app in Hr. by vm_compute in Hr. }
      repeat (destruct r as [|? r]; [cbn in Hl; lia|]).
      cbn in Hr. injection Hr. intros. subst. by exists r.
    - rewrite removesuffix_other by done. by exists rest. }
  change (https +:+ t) with ("https:" +:+ String slash ("" +:+ String slash t)).
  rewrite split_slash by done. rewrite split_slash by done.
  by destruct (split_char slash t) eqn:E; [by apply split_char_nonempty in E|].
Qed.

(** The shorthand of a repository and its clone address name one repository: the address
    the shorthand resolves to is asked of a forge, names the same owner and repository, and
    resolves to itself under any base. *)
Theorem clone_url_names owner repo base host base' :
  repo_name owner = true → repo_name repo = true →
  rstrip_char slash base = https +:+ host → slashless host = true →
  ∃ url, resolve_repo_url (owner +:+ "/" +:+ repo) base = Ok url
    ∧ extract_owner_repo url = Ok (owner, repo)
    ∧ extract_owner_repo (owner +:+ "/" +:+ repo) = Ok (owner, repo)
    ∧ resolve_repo_url url base' = Ok url ∧ is_forge_less_origin url = false.
Proof.
  intros Ho Hr Hb Hh. destruct (name_slashless _ Ho) as [So No], (name_slashless _ Hr) as [Sr Nr].
  assert (∀ t, rstrip_char slash (t +:+ ".git") = t +:+ ".git") as Hgit.
  { intros t. change ".git" with (".gi" +:+ String "t"%char ""). rewrite str_app_assoc.
    by apply rstrip_other. }
  assert (∀ p, startswith p https = false → startswith p file_scheme = false →
    owner +:+ "/" +:+ repo = p → resolve_repo_url p base
    = Ok (https +:+ (host +:+ "/" +:+ owner +:+ "/" +:+ repo) +:+ ".git")) as Hres.
  { intros p H1 H2 Hp. unfold resolve_repo_url. rewrite H1, H2. cbn [orb].
    rewrite <-Hp, shorthand_names, Hb by done. f_equal. by rewrite <-!str_app_assoc. }
  exists (https +:+ (host +:+ "/" +:+ owner +:+ "/" +:+ repo) +:+ ".git").
  assert (∀ s, s = owner +:+ "/" +:+ repo → shorthand s = Some (owner, repo)) as Hs
    by (intros ? ->; by apply shorthand_names).
  split; [|split; [|split; [|split]]].
  - apply Hres; [| |done].
    + destruct (startswith _ https) eqn:E; [|done]. apply startswith_spec in E as [r Er].
      specialize (Hs _ eq_refl). by rewrite Er, shorthand_https in Hs.
    + destruct (startswith _ file_scheme) eqn:E; [|done]. exfalso.
      apply startswith_spec in E as [r Er]. revert Er. change (file_scheme +:+ r) with
        ("file:" +:+ String slash (String slash r)). change ("/" +:+ repo) with (String slash repo).
      intros Er. apply (f_equal (split_char slash)) in Er.
      rewrite !split_slash, split_slashless in Er by done. injection Er as -> Er. done.
  - unfold extract_owner_repo. rewrite shorthand_https.
    change (startswith (https +:+ ?x) file_scheme) with false. cbv iota.
    rewrite (proj2 (strip_prefix_Some _ _ _)) by reflexivity. rewrite Hgit.
    rewrite <-!str_app_assoc.
    change (host +:+ "/" +:+ owner +:+ "/" +:+ repo +:+ ".git")
      with (host +:+ String slash (owner +:+ String slash (repo +:+ ".git"))).
    rewrite !split_slash by done. rewrite split_slashless, removesuffix_app; [done|].
    unfold slashless in *. by rewrite str_all_app, Sr.
  - unfold extract_owner_repo. by rewrite Hs.
  - unfold resolve_repo_url, parse_repo_url.
    change (startswith (https +:+ ?x) https) with true. cbv iota beta zeta delta [orb].
    rewrite str_app_assoc, Hgit. cbn [orb].
    assert (endswith ((https +:+ (host +:+ "/" +:+ owner +:+ "/" +:+ repo)) +:+ ".git") ".git" = true)
      as -> by (apply endswith_spec; by eexists).
    done.
  - done.
Qed.

(** Two local repositories may share one cache directory. *)
Example cache_dir_shared :
  cache_dir_for_repo "/c" "file:///r/a--b" = cache_dir_for_repo "/c" "file:///r/a/b".
Proof. reflexivity. Qed.
