(* ===== verification/Json.v ===== *)
(** * JSON texts as [json.loads] reads them.

    The scanner of Python's [json] over UTF-8 bytes: white space, literals,
    numbers, strings with their escapes, arrays and objects. What it builds is
    only looked at through [object_pairs_hook], so the reader answers what is
    left of the text, and refuses an object that names a key twice. *)

From S2P Require Import Prelude PyStr PyLines Errors.

Local Open Scope Z_scope.

Definition dq : Ascii.ascii := Ascii.ascii_of_nat 34.
Definition backslash : Ascii.ascii := Ascii.ascii_of_nat 92.

Definition chr (c : Z) : Ascii.ascii := Ascii.ascii_of_N (Z.to_N c).

(** The bytes of a code point; a lone surrogate keeps its three bytes. *)
Definition utf8 (c : Z) : string :=
  if decide (c < 128) then String (chr c) ""
  else if decide (c < 2048) then
    String (chr (192 + c / 64)) (String (chr (128 + c mod 64)) "")
  else if decide (c < 65536) then
    String (chr (224 + c / 4096)) (String (chr (128 + (c / 64) mod 64))
      (String (chr (128 + c mod 64)) ""))
  else
    String (chr (240 + c / 262144)) (String (chr (128 + (c / 4096) mod 64))
      (String (chr (128 + (c / 64) mod 64)) (String (chr (128 + c mod 64)) ""))).

Definition hex_value (a : Ascii.ascii) : option Z :=
  let b := byte a in
  if decide (48 ≤ b ≤ 57) then Some (b - 48)
  else if decide (97 ≤ b ≤ 102) then Some (b - 87)
  else if decide (65 ≤ b ≤ 70) then Some (b - 55)
  else None.

(** The four digits after [\u]. *)
Definition hex4 (s : string) : option (Z * string) :=
  match s with
  | String a (String b (String c (String d r))) =>
      w ← hex_value a; x ← hex_value b; y ← hex_value c; z ← hex_value d;
      Some (((w * 16 + x) * 16 + y) * 16 + z, r)
  | _ => None
  end.

(** The escapes of one letter, and what they stand for. *)
Definition BACKSLASH : pydict Z Z :=
  [(34, 34); (92, 92); (47, 47); (98, 8); (102, 12); (110, 10); (114, 13); (116, 9)].

(** [\u] and its four digits, joined with a second one that completes a pair. *)
Definition next_hex (s : string) : option (Z * string) :=
  match strip_prefix (String backslash "u") s with Some tail => hex4 tail | None => None end.
Definition json_hex (s : string) : option (string * string) :=
  '(high, r) ← hex4 s;
  if decide (55296 ≤ high ≤ 56319) then
    match next_hex r with
    | Some (low, r') =>
        if decide (56320 ≤ low ≤ 57343) then
          Some (utf8 (65536 + (high - 55296) * 1024 + (low - 56320)), r')
        else Some (utf8 high, r)
    | None => Some (utf8 high, r)
    end
  else Some (utf8 high, r).

(** One character of a string literal, or one escape. *)
Definition json_unit (s : string) : option (string * string) :=
  match s with
  | EmptyString => None
  | String a r =>
      if decide (a = backslash) then
        match r with
        | EmptyString => None
        | String e r =>
            match dict_get BACKSLASH (byte e) with
            | Some c => Some (String (chr c) "", r)
            | None => if decide (byte e = 117) then json_hex r else None
            end
        end
      else if decide (byte a < 32) then None
      else Some (String a "", r)
  end.

(** A literal past its opening quote; every turn takes a byte at least. *)
Fixpoint json_chars (fuel : nat) (s : string) : option (string * string) :=
  match fuel with
  | O => None
  | S fuel =>
      match s with
      | String a r =>
          if decide (a = dq) then Some ("", r)
          else '(c, r) ← json_unit s; '(cs, r) ← json_chars fuel r; Some (c +:+ cs, r)
      | EmptyString => None
      end
  end.
Definition json_string (s : string) : option (string * string) :=
  match s with
  | String a r => if decide (a = dq) then json_chars (String.length r) r else None
  | EmptyString => None
  end.

Fixpoint json_space (s : string) : string :=
  match s with
  | String a r => if decide (byte a ∈ [32; 9; 10; 13]) then json_space r else s
  | EmptyString => s
  end.

Fixpoint digits (s : string) : nat * string :=
  match s with
  | String a r => if decide (48 ≤ byte a ≤ 57) then prod_map S id (digits r) else (O, s)
  | EmptyString => (O, s)
  end.

Definition after_char (c : Z) (s : string) : option string :=
  match s with
  | String a r => if decide (byte a = c) then Some r else None
  | EmptyString => None
  end.

(** The number the scanner matches: a sign, a whole part without a leading zero, a
    fraction and an exponent, each of the last two only when complete. A whole
    number of more than 4300 digits is refused by [int]. *)
Definition json_number (s : string) : option string :=
  let s := default s (after_char 45 s) in
  '(n, r) ← match after_char 48 s with
            | Some r => Some (1%nat, r)
            | None => match digits s with (O, _) => None | nr => Some nr end
            end;
  let fraction := r' ← after_char 46 r;
                  match digits r' with (O, _) => None | (_, r'') => Some r'' end in
  let r1 := default r fraction in
  let exponent := r' ← match after_char 101 r1 with Some r' => Some r' | None => after_char 69 r1 end;
                  let r' := default r' (match after_char 45 r' with
                                        | Some r'' => Some r''
                                        | None => after_char 43 r' end) in
                  match digits r' with (O, _) => None | (_, r'') => Some r'' end in
  let r2 := default r1 exponent in
  if decide (fraction = None ∧ exponent = None ∧ (4300 < n)%nat) then None else Some r2.

Definition json_literals : list string :=
  ["null"; "true"; "false"; "NaN"; "Infinity"; "-Infinity"].

(** What is left of a text after a value, after the rest of an array's elements,
    or after the rest of an object's members, whose earlier keys are given. *)
Inductive json_part := AValue | Elements | Members (keys : list string).

Fixpoint json_rest (fuel : nat) (part : json_part) (s : string) : option string :=
  match fuel with
  | O => None
  | S fuel =>
      match part with
      | AValue =>
          match json_string s, after_char 123 s, after_char 91 s with
          | Some (_, r), _, _ => Some r
          | None, Some r, _ =>
              match after_char 125 (json_space r) with
              | Some r => Some r
              | None => json_rest fuel (Members []) (json_space r)
              end
          | None, None, Some r =>
              match after_char 93 (json_space r) with
              | Some r => Some r
              | None => json_rest fuel Elements (json_space r)
              end
          | None, None, None =>
              match head (omap (λ l, strip_prefix l s) json_literals) with
              | Some r => Some r
              | None => json_number s
              end
          end
      | Elements =>
          r ← json_rest fuel AValue s;
          match after_char 44 (json_space r) with
          | Some r => json_rest fuel Elements (json_space r)
          | None => after_char 93 (json_space r)
          end
      | Members keys =>
          '(key, r) ← json_string s;
          r ← after_char 58 (json_space r);
          r ← json_rest fuel AValue (json_space r);
          if decide (key ∈ keys) then None
          else match after_char 44 (json_space r) with
               | Some r => json_rest fuel (Members (key :: keys)) (json_space r)
               | None => after_char 125 (json_space r)
               end
      end
  end.

(** [json.loads(text, object_pairs_hook=...)] with a hook that refuses a repeated
    key: the whole text is one value and the white space around it. *)
Definition json_loads_unique (text : string) : bool :=
  match json_rest (2 * String.length text + 2) AValue (json_space text) with
  | Some r => bool_decide (json_space r = "")
  | None => false
  end.

(** * Lemmas *)

Local Open Scope nat_scope.
Notation len := String.length.

(** ** The reader never runs out of fuel *)

Lemma after_char_shorter c s r : after_char c s = Some r → len r < len s.
Proof. destruct s as [|a s]; cbn [after_char len]; [done|]. case_decide; [|done]. intros [= ->]. lia. Qed.

Lemma json_space_le s : len (json_space s) ≤ len s.
Proof. induction s as [|a s IH]; cbn [json_space len]; [done|]. case_decide; [lia|done]. Qed.

Lemma digits_le s : let '(n, r) := digits s in n + len r = len s.
Proof.
  induction s as [|a s IH]; cbn [digits len]; [done|]. case_decide; [|done].
  destruct (digits s) as [n r]. cbn. lia.
Qed.

Lemma hex4_shorter s c r : hex4 s = Some (c, r) → len r < len s.
Proof.
  destruct s as [|a [|b [|d [|e s]]]]; try done. cbn [hex4 len].
  destruct (hex_value a); [|done]. destruct (hex_value b); [|done].
  destruct (hex_value d); [|done]. destruct (hex_value e); [|done].
  cbn. intros [= _ ->]. lia.
Qed.

Lemma next_hex_shorter s c r : next_hex s = Some (c, r) → len r < len s.
Proof.
  unfold next_hex. destruct (strip_prefix _ s) as [tl|] eqn:Et; [|done].
  apply strip_prefix_Some in Et as ->. intros ?%hex4_shorter. cbn [String.append len]. lia.
Qed.

Lemma json_hex_shorter s c r : json_hex s = Some (c, r) → len r < len s.
Proof.
  unfold json_hex. destruct (hex4 s) as [[high r1]|] eqn:E; cbn [mbind option_bind]; [|done].
  apply hex4_shorter in E. case_decide; [|intros [= _ <-]; lia].
  destruct (next_hex r1) as [[low r2]|] eqn:E2.
  - apply next_hex_shorter in E2. case_decide; intros [= _ <-]; lia.
  - intros [= _ <-]. lia.
Qed.

Lemma json_unit_shorter s c r : json_unit s = Some (c, r) → len r < len s.
Proof.
  destruct s as [|a s]; [done|]. cbn [json_unit]. case_decide.
  - destruct s as [|e s]; [done|]. cbn [len].
    destruct (dict_get BACKSLASH (byte e)); [intros [= _ ->]; lia|].
    case_decide; [|done]. intros ?%json_hex_shorter. lia.
  - case_decide; [done|]. intros [= _ ->]. cbn [len]. lia.
Qed.

Lemma json_chars_shorter fuel s c r : json_chars fuel s = Some (c, r) → len r < len s.
Proof.
  revert s c r. induction fuel as [|fuel IH]; intros s c r; [done|]. cbn [json_chars].
  destruct s as [|a s]; [done|]. case_decide; [intros [= _ ->]; cbn [len]; lia|].
  destruct (json_unit (String a s)) as [[u r1]|] eqn:E; cbn; [|done].
  apply json_unit_shorter in E. destruct (json_chars fuel r1) as [[cs r2]|] eqn:E2; cbn; [|done].
  apply IH in E2. intros [= _ ->]. cbn [len] in E. lia.
Qed.

Lemma json_string_shorter s c r : json_string s = Some (c, r) → len r < len s.
Proof.
  destruct s as [|a s]; [done|]. cbn [json_string len]. case_decide; [|done].
  intros E%json_chars_shorter. lia.
Qed.

(** A part of a number that may be absent takes nothing when it is. *)
Definition shortens (f : option string) (s : string) : Prop :=
  match f with Some r => len r ≤ len s | None => True end.

Lemma shortens_default f s : shortens f s → len (default s f) ≤ len s.
Proof. by destruct f. Qed.

Lemma after_char_shortens c s : shortens (after_char c s) s.
Proof. destruct (after_char c s) eqn:E; cbn; [apply after_char_shorter in E; lia|done]. Qed.

Lemma shortens_digits (m : option string) s :
  shortens m s →
  shortens (r' ← m; match digits r' with (O, _) => None | (_, r'') => Some r'' end) s.
Proof.
  destruct m as [r|]; cbn; [|done]. intros Hr. pose proof (digits_le r) as Hd.
  destruct (digits r) as [[|n] r']; cbn; [done|]. lia.
Qed.

Lemma json_number_shorter s r : json_number s = Some r → len r < len s.
Proof.
  unfold json_number.
  pose proof (shortens_default _ _ (after_char_shortens 45 s)) as H0.
  set (s0 := default s (after_char 45 s)) in *.
  destruct (match after_char 48 s0 with
            | Some r0 => Some (1, r0)
            | None => match digits s0 with (O, _) => None | nr => Some nr end
            end) as [[n r0]|] eqn:En; cbn; [|done].
  assert (len r0 < len s) as H1.
  { destruct (after_char 48 s0) as [r1|] eqn:E.
    - apply after_char_shorter in E. simplify_eq. lia.
    - pose proof (digits_le s0) as Hd. destruct (digits s0) as [[|m] r1]; simplify_eq. lia. }
  set (fraction := r' ← after_char 46 r0; _).
  assert (shortens fraction r0) as Hf by apply shortens_digits, after_char_shortens.
  apply shortens_default in Hf. set (r1 := default r0 fraction) in *.
  set (exponent := r' ← _; _).
  assert (shortens exponent r1) as He.
  { unfold exponent. destruct (match after_char 101 r1 with
      | Some r' => Some r' | None => after_char 69 r1 end) as [r2|] eqn:E; [|done]. cbn.
    assert (len r2 ≤ len r1) as H2.
    { destruct (after_char 101 r1) eqn:E1; simplify_eq.
      - apply after_char_shorter in E1. lia.
      - apply after_char_shorter in E. lia. }
    set (sign := match after_char 45 r2 with Some r'' => Some r'' | None => after_char 43 r2 end).
    assert (shortens sign r2) as Hs.
    { unfold sign. pose proof (after_char_shortens 45 r2). destruct (after_char 45 r2); [done|].
      apply after_char_shortens. }
    apply shortens_default in Hs. pose proof (digits_le (default r2 sign)) as Hd.
    destruct (digits (default r2 sign)) as [[|m] r3]; cbn; [done|]. lia. }
  apply shortens_default in He. case_decide; [done|]. intros [= <-]. lia.
Qed.

Lemma json_literal_shorter s r :
  head (omap (λ l, strip_prefix l s) json_literals) = Some r → len r < len s.
Proof.
  intros H. assert (r ∈ omap (λ l, strip_prefix l s) json_literals) as Hin.
  { destruct (omap _ _); [done|]. injection H as ->. by left. }
  apply list_elem_of_omap in Hin as (l & Hl & E). apply strip_prefix_Some in E as ->.
  rewrite str_length_app. unfold json_literals in Hl.
  repeat (apply elem_of_cons in Hl as [->|Hl]; [cbn [len]; lia|]). by apply elem_of_nil in Hl.
Qed.

Lemma json_rest_shorter fuel part s r : json_rest fuel part s = Some r → len r < len s.
Proof.
  revert part s r. induction fuel as [|fuel IH]; intros part s r; [done|]. cbn [json_rest].
  destruct part as [| |keys].
  - destruct (json_string s) as [[k r0]|] eqn:Es.
    { intros [= <-]. by apply json_string_shorter in Es. }
    destruct (after_char 123 s) as [r0|] eqn:E1; [|destruct (after_char 91 s) as [r0|] eqn:E2].
    + apply after_char_shorter in E1. pose proof (json_space_le r0).
      destruct (after_char 125 (json_space r0)) eqn:E3.
      * apply after_char_shorter in E3. intros [= <-]. lia.
      * intros ?%IH. lia.
    + apply after_char_shorter in E2. pose proof (json_space_le r0).
      destruct (after_char 93 (json_space r0)) eqn:E3.
      * apply after_char_shorter in E3. intros [= <-]. lia.
      * intros ?%IH. lia.
    + destruct (head _) eqn:El; [intros [= <-]; by apply json_literal_shorter in El|].
      apply json_number_shorter.
  - destruct (json_rest fuel AValue s) as [r0|] eqn:E; cbn; [|done]. apply IH in E.
    pose proof (json_space_le r0). destruct (after_char 44 (json_space r0)) as [r1|] eqn:E1.
    + apply after_char_shorter in E1. pose proof (json_space_le r1). intros ?%IH. lia.
    + intros ?%after_char_shorter. lia.
  - destruct (json_string s) as [[k r0]|] eqn:Es; cbn; [|done]. apply json_string_shorter in Es.
    pose proof (json_space_le r0). destruct (after_char 58 (json_space r0)) as [r1|] eqn:E1; cbn; [|done].
    apply after_char_shorter in E1. pose proof (json_space_le r1).
    destruct (json_rest fuel AValue (json_space r1)) as [r2|] eqn:E2; cbn; [|done]. apply IH in E2.
    case_decide; [done|]. pose proof (json_space_le r2).
    destruct (after_char 44 (json_space r2)) as [r3|] eqn:E3.
    + apply after_char_shorter in E3. pose proof (json_space_le r3). intros ?%IH. lia.
    + intros ?%after_char_shorter. lia.
Qed.

(** The fuel a part may need: two turns per byte, and one more inside a container. *)
Definition json_need (part : json_part) (s : string) : nat :=
  2 * len s + match part with AValue => 1 | _ => 2 end.

Lemma json_rest_fuel f g part s :
  json_need part s ≤ f → json_need part s ≤ g → json_rest f part s = json_rest g part s.
Proof.
  revert g part s. induction f as [|f IH]; intros [|g] part s Hf Hg;
    try (exfalso; destruct part; unfold json_need in *; lia).
  unfold json_need in *. cbn [json_rest]. destruct part as [| |keys].
  - destruct (json_string s) as [[k r0]|] eqn:Es; [done|].
    destruct (after_char 123 s) as [r0|] eqn:E1; [|destruct (after_char 91 s) as [r0|] eqn:E2]; [| |done].
    + apply after_char_shorter in E1. pose proof (json_space_le r0).
      destruct (after_char 125 (json_space r0)); [done|]. apply IH; lia.
    + apply after_char_shorter in E2. pose proof (json_space_le r0).
      destruct (after_char 93 (json_space r0)); [done|]. apply IH; lia.
  - rewrite (IH g AValue s) by lia. destruct (json_rest g AValue s) as [r0|] eqn:E; cbn; [|done].
    apply json_rest_shorter in E. pose proof (json_space_le r0).
    destruct (after_char 44 (json_space r0)) as [r1|] eqn:E1; [|done].
    apply after_char_shorter in E1. pose proof (json_space_le r1). apply IH; lia.
  - destruct (json_string s) as [[k r0]|] eqn:Es; cbn; [|done]. apply json_string_shorter in Es.
    pose proof (json_space_le r0). destruct (after_char 58 (json_space r0)) as [r1|] eqn:E1; cbn; [|done].
    apply after_char_shorter in E1. pose proof (json_space_le r1).
    rewrite (IH g AValue (json_space r1)) by lia.
    destruct (json_rest g AValue (json_space r1)) as [r2|] eqn:E2; cbn; [|done].
    apply json_rest_shorter in E2. case_decide; [done|]. pose proof (json_space_le r2).
    destruct (after_char 44 (json_space r2)) as [r3|] eqn:E3; [|done].
    apply after_char_shorter in E3. pose proof (json_space_le r3). apply IH; lia.
Qed.

(** The reader's answer does not depend on the fuel it is given. *)
Lemma json_loads_unique_fuel f text :
  2 * len text + 2 ≤ f →
  json_loads_unique text =
    match json_rest f AValue (json_space text) with
    | Some r => bool_decide (json_space r = "")
    | None => false
    end.
Proof.
  intros Hf. unfold json_loads_unique. pose proof (json_space_le text).
  rewrite (json_rest_fuel _ f); [done| |]; unfold json_need; lia.
Qed.

(** ** Literals *)

Lemma json_chars_app u s fuel c r :
  json_unit s = Some (c, r) → (∀ s', s ≠ String dq s') →
  json_chars fuel r = Some u → json_chars (S fuel) s = Some (c +:+ u.1, u.2).
Proof.
  intros E Hq Hr. cbn [json_chars]. destruct s as [|a s]; [done|].
  case_decide as Ha; [subst; by destruct (Hq s)|].
  rewrite E. cbn [mbind option_bind]. rewrite Hr. by destruct u.
Qed.

(** More fuel than the text has bytes reads no more of it. *)
Lemma json_chars_fuel f g s : len s ≤ f → len s ≤ g → json_chars f s = json_chars g s.
Proof.
  revert g s. induction f as [|f IH]; intros [|g] s Hf Hg; try done.
  - destruct s; [done|]. cbn [len] in Hf. lia.
  - destruct s; [done|]. cbn [len] in Hg. lia.
  - cbn [json_chars]. destruct s as [|a s]; [done|]. case_decide; [done|].
    destruct (json_unit (String a s)) as [[c r]|] eqn:E; cbn [mbind option_bind]; [|done].
    apply json_unit_shorter in E. cbn [len] in *. by rewrite (IH g r) by lia.
Qed.

(** A key that needs no escape. *)
Definition plain_key (k : string) : bool :=
  str_all (λ a, negb (bool_decide (a = dq ∨ a = backslash ∨ (byte a < 32)%Z))) k.

Lemma json_string_key k rest :
  plain_key k = true → json_string (String dq (k +:+ String dq rest)) = Some (k, rest).
Proof.
  intros Hk. cbn [json_string]. rewrite decide_True by done.
  set (f := len _). assert (len (k +:+ String dq rest) ≤ f) as Hf by done. clearbody f.
  revert f Hf Hk. induction k as [|a k IH]; intros [|f] Hf Hk; try (cbn in Hf; lia); cbn [json_chars String.append].
  - by rewrite decide_True.
  - unfold plain_key in Hk. cbn [str_all] in Hk. apply andb_true_iff in Hk as [Ha Hk].
    apply negb_true_iff, bool_decide_eq_false in Ha.
    rewrite decide_False by tauto. cbn [json_unit].
    rewrite !decide_False by tauto. cbn [mbind option_bind].
    rewrite IH; [done| |done]. cbn [String.append len] in Hf. lia.
Qed.

Lemma json_rest_object f r :
  after_char 125 (json_space r) = None →
  json_rest (S f) AValue (String (Ascii.ascii_of_nat 123) r) = json_rest f (Members []) (json_space r).
Proof. intros E. cbn [json_rest].
  change (json_string (String (Ascii.ascii_of_nat 123) r)) with (@None (string * string)).
  change (after_char 123 (String (Ascii.ascii_of_nat 123) r)) with (Some r). cbv iota beta. by rewrite E. Qed.

Lemma json_rest_literal f s v r : json_string s = Some (v, r) → json_rest (S f) AValue s = Some r.
Proof. intros E. cbn [json_rest]. by rewrite E. Qed.

(** A member with a string value, and what comes after it. *)
Lemma json_rest_member f keys k s v r :
  plain_key k = true → k ∉ keys → json_string s = Some (v, r) → json_space s = s →
  json_rest (S (S f)) (Members keys)
    (String dq (k +:+ String dq (String (Ascii.ascii_of_nat 58) (String (Ascii.ascii_of_nat 32) s))))
  = match after_char 44 (json_space r) with
    | Some r => json_rest (S f) (Members (k :: keys)) (json_space r)
    | None => after_char 125 (json_space r)
    end.
Proof.
  intros Hk Hn Hv Hs. remember (S f) as g eqn:Eg. cbn [json_rest].
  rewrite json_string_key by done. cbn [mbind option_bind].
  set (tail := String (Ascii.ascii_of_nat 32) s).
  change (after_char 58 (json_space (String (Ascii.ascii_of_nat 58) tail))) with (Some tail).
  cbn [mbind option_bind]. change (json_space tail) with (json_space s). rewrite Hs. subst g.
  rewrite (json_rest_literal _ _ _ _ Hv). cbn [mbind option_bind].
  by rewrite decide_False.
Qed.
