(* ===== verification/FireSpec.v ===== *)
(** * The body codec of a fire's subject (domain/fire_spec.py, types/domain/fire_spec.py).

    A criterion body is Markdown whose visible lines [**Check:**], [**Do:**],
    [**Evidence:**] and [**Class:**] open rows. One walk over the lines reads them
    ([_criterion_rows]), with the rules for fenced blocks and HTML comments; the
    readers and the amendment edit go through it. The theorem shows that the edit
    and the reader agree: what was put into a field is what is read from it, and
    every other row and byte stands. *)

From S2P Require Import Prelude PyStr PyLines Tracker Errors.

Local Open Scope nat_scope.

(** ** Data *)

(** [CriterionField], the labels of the rows. *)
Inductive CriterionField := F_CHECK | F_DO | F_EVIDENCE | F_CLASS.
#[export] Instance CriterionField_eq_dec : EqDecision CriterionField.
Proof. solve_decision. Defined.

Definition field_name (field : CriterionField) : string :=
  match field with
  | F_CHECK => "Check" | F_DO => "Do" | F_EVIDENCE => "Evidence" | F_CLASS => "Class"
  end.

Lemma field_name_inj f g : field_name f = field_name g → f = g.
Proof. by destruct f, g. Qed.

Record TrackerSpec := {
  spec_subject : string;
  spec_body : string;
  spec_criteria : list string;
  read_at_version : string;
}.
#[export] Instance TrackerSpec_eq_dec : EqDecision TrackerSpec.
Proof. solve_decision. Defined.

(** ** The line grammar *)

Definition sp : Ascii.ascii := Ascii.ascii_of_nat 32.
Definition tilde : Ascii.ascii := Ascii.ascii_of_nat 126.
Definition backtick : Ascii.ascii := Ascii.ascii_of_nat 96.

(** [^ {0,3}], with what follows it: a longer indent opens nothing. *)
Definition indented (line : string) : option string :=
  let '(n, rest) := run_of sp line in
  if decide (n ≤ 3) then Some rest else None.

(** [_FENCE]: the fence's character, the length of its run and what follows. *)
Definition fence_match (line : string) : option (Ascii.ascii * nat * string) :=
  rest ← indented line;
  let '(n, after) := run_of backtick rest in
  let '(m, after') := run_of tilde rest in
  if decide (3 ≤ n) then Some (backtick, n, after)
  else if decide (3 ≤ m) then Some (tilde, m, after')
  else None.

Definition label_match (rest : string) : option (CriterionField * string) :=
  head (omap (λ f, (λ after, (f, after)) <$> strip_prefix (field_name f +:+ ":**") rest)
          [F_CHECK; F_DO; F_EVIDENCE; F_CLASS]).

(** [_CRITERION_ROW] *)
Definition row_match (line : string) : option (CriterionField * string) :=
  rest ← indented line; rest ← strip_prefix "**" rest; label_match rest.

(** [_without_comments]: the turns of its loop; every one shortens what is left. *)
Fixpoint comment_loop (fuel : nat) (comment : bool) (rest : string) : string * bool :=
  match fuel with
  | O => ("", comment)
  | S fuel =>
      if decide (rest = "") then ("", comment)
      else if comment then
        match cut "-->" rest with
        | None => ("", true)
        | Some (_, rest) => comment_loop fuel false rest
        end
      else
        match cut "<!--" rest with
        | None => (rest, false)
        | Some (before, rest) =>
            let '(text, comment) := comment_loop fuel true rest in (before +:+ text, comment)
        end
  end.
Definition _without_comments (line : string) (comment : bool) : string * bool :=
  comment_loop (String.length line) comment line.

(** The fence that is open, and whether a comment is. *)
#[local] Notation visibility := (option (Ascii.ascii * nat) * bool)%type.

Definition closes (fence : Ascii.ascii * nat) (line : string) : bool :=
  match fence_match line with
  | Some (c, n, after) =>
      bool_decide (c = fence.1) && bool_decide (fence.2 ≤ n) && bool_decide (strip after = "")
  | None => false
  end.

(** One line of the walk: what is open after it, and the row it opens or the
    text it adds. *)
Definition visible_line (open : visibility) (line : string) :
    visibility * (CriterionField * string + string) :=
  match open.1 with
  | Some fence => (if closes fence line then None else Some fence, open.2, inr line)
  | None =>
      let '(line, comment) := _without_comments line open.2 in
      match fence_match line with
      | Some (c, n, _) => (Some (c, n), comment, inr line)
      | None => (None, comment, match row_match line with
                                | Some row => inl row
                                | None => inr line
                                end)
      end
  end.

(** ** The walk *)

Record _CriterionRow := {
  row_label : CriterionField;
  row_begin : nat;
  row_end : nat;
  row_text : string;
}.
#[export] Instance CriterionRow_eq_dec : EqDecision _CriterionRow.
Proof. solve_decision. Defined.

Record walk := {
  walk_rows : list _CriterionRow;
  walk_label : option CriterionField;
  walk_begin : nat;
  walk_lines : list string;
  walk_open : visibility;
  walk_offset : nat;
}.
Definition walk_start : walk := {|
  walk_rows := []; walk_label := None; walk_begin := 0; walk_lines := [];
  walk_open := (None, false); walk_offset := 0 |}.

(** The rows read so far, the open one ended at an offset. *)
Definition rows_until (w : walk) (stop : nat) : list _CriterionRow :=
  match walk_label w with
  | None => walk_rows w
  | Some label => walk_rows w ++
      [{| row_label := label; row_begin := walk_begin w; row_end := stop;
          row_text := strip_lines (walk_lines w) |}]
  end.

Definition walk_line (w : walk) (original : pyline) : walk :=
  let '(opened, seen) := visible_line (walk_open w) original.1 in
  let offset := walk_offset w + String.length (line_text original) in
  match seen with
  | inr text => {|
      walk_rows := walk_rows w; walk_label := walk_label w; walk_begin := walk_begin w;
      walk_lines := walk_lines w ++ [text]; walk_open := opened; walk_offset := offset |}
  | inl (label, text) => {|
      walk_rows := rows_until w (walk_offset w); walk_label := Some label;
      walk_begin := walk_offset w; walk_lines := [text]; walk_open := opened;
      walk_offset := offset |}
  end.

Definition _criterion_rows (body : string) : list _CriterionRow :=
  rows_until (foldl walk_line walk_start (splitlines_keep body)) (String.length body).

(** ** Readers *)

Definition criterion_field_bodies (body : string) (field : CriterionField) : list string :=
  row_text <$> filter (λ r, row_label r = field) (_criterion_rows body).

Definition _duplicated (names : list string) : list string :=
  sort_by (λ n : string, n) (dict_fromkeys (filter (λ n, 1 < count_occ String.string_dec names n) names)).

Definition duplicated_row_labels (body : string) : list string :=
  _duplicated ((λ r, field_name (row_label r)) <$> _criterion_rows body).

Definition criterion_check (criterion : TrackerIssue) (on_issue : string) : result exn string :=
  match criterion_field_bodies (body criterion) F_CHECK with
  | [check] =>
      if decide (check = "") then
        Err (InvalidFireCriterionError on_issue (issue_key criterion)
               "one nonempty Check field is required")
      else Ok check
  | _ => Err (InvalidFireCriterionError on_issue (issue_key criterion)
                "one nonempty Check field is required")
  end.

(** ** The amendment edit *)

Definition field_row (field : CriterionField) (value : string) : string :=
  "**" +:+ field_name field +:+ ":** " +:+ value.

(** One row of the pass from the last row to the first, over every replacement. *)
Definition replace_row (replacements : pydict CriterionField string)
    (row : _CriterionRow) (result : string) : string :=
  foldl (λ result fr,
      if decide (fr.1 = row_label row) then
        str_take (row_begin row) result +:+ field_row fr.1 fr.2 +:+ nl +:+ nl
        +:+ str_drop (row_end row) result
      else result)
    result replacements.

(** One field of the second pass: an absent one is appended, and each must read
    back as what was put into it. *)
Definition append_field (names : list CriterionField) (result : string)
    (fr : CriterionField * string) : Prelude.result exn string :=
  let result :=
    if decide (fr.1 ∈ names) then result
    else rstrip_char newline result +:+ nl +:+ nl +:+ field_row fr.1 fr.2 +:+ nl in
  raise_if (negb (bool_decide (criterion_field_bodies result fr.1 = [strip fr.2])))
    (ValueError "amended criterion fields must remain distinct")
    (Ok result).

Definition replace_criterion_fields (body : string)
    (replacements : pydict CriterionField string) : Prelude.result exn string :=
  let rows := _criterion_rows body in
  let names := row_label <$> rows in
  raise_if (negb (bool_decide (_duplicated (field_name <$> names) = [])))
    (ValueError "criterion amendment requires unambiguous template rows")
    (* the slice at [row.end] is of the text already edited after this row *)
    (foldM (append_field names)
       (foldr (replace_row replacements) body rows) replacements).

(** ** The other readers of a body *)

(** [body_digest] is [Sha256] of the body's bytes, taken where a lane pins them. *)

(** The code point a text starts with, and what follows it. *)
Definition continuation (i : nat) (s : string) : Z := byte_at i s - 128.
Definition code_point (s : string) : option (Z * string) :=
  match s with
  | EmptyString => None
  | String a r =>
      let b := byte a in
      Some (if decide (b < 192)%Z then (b, r)
            else if decide (b < 224)%Z then
              ((b - 192) * 64 + continuation 0 r, str_drop 1 r)
            else if decide (b < 240)%Z then
              ((b - 224) * 4096 + continuation 0 r * 64 + continuation 1 r, str_drop 2 r)
            else
              ((b - 240) * 262144 + continuation 0 r * 4096 + continuation 1 r * 64
               + continuation 2 r, str_drop 3 r))%Z
  end.

(** The zeros of Unicode's decimal digits, each followed by its other nine: [\d]. *)
Definition DECIMAL_ZEROS : list Z :=
  [48; 1632; 1776; 1984; 2406; 2534; 2662; 2790; 2918; 3046; 3174;
   3302; 3430; 3558; 3664; 3792; 3872; 4160; 4240; 6112; 6160; 6470;
   6608; 6784; 6800; 6992; 7088; 7232; 7248; 42528; 43216; 43264; 43472;
   43504; 43600; 44016; 65296; 66720; 68912; 69734; 69872; 69942; 70096; 70384;
   70736; 70864; 71248; 71360; 71472; 71904; 72016; 72784; 73040; 73120; 73552;
   92768; 92864; 93008; 120782; 120792; 120802; 120812; 120822; 123200; 123632; 124144;
   125264; 130032]%Z.
Definition is_decimal (c : Z) : bool :=
  existsb (λ z, (z <=? c)%Z && (c <=? z + 9)%Z) DECIMAL_ZEROS.

(** [\d+] *)
Fixpoint decimals (fuel : nat) (s : string) : nat * string :=
  match fuel with
  | O => (0, s)
  | S fuel => match code_point s with
              | Some (c, r) => if is_decimal c then prod_map S id (decimals fuel r) else (0, s)
              | None => (0, s)
              end
  end.

Definition dash : Ascii.ascii := Ascii.ascii_of_nat 45.
Definition star : Ascii.ascii := Ascii.ascii_of_nat 42.
Definition plus : Ascii.ascii := Ascii.ascii_of_nat 43.
Definition tab : Ascii.ascii := Ascii.ascii_of_nat 9.

(** [[-*+]] *)
Definition bullet (s : string) : option string :=
  match s with
  | String a r => if decide (a ∈ [dash; star; plus]) then Some r else None
  | EmptyString => None
  end.

(** [\s+] *)
Definition spaced (s : string) : option string :=
  if decide (lstrip s = s) then None else Some (lstrip s).

(** [_LIST_ITEM]: the item's text, stripped as every reader strips it. *)
Definition list_item_match (line : string) : option string :=
  rest ← indented line;
  after ← match bullet rest with
          | Some after => Some after
          | None => match decimals (String.length rest) rest with
                    | (S _, String a after) =>
                        if decide (a = Ascii.ascii_of_nat 46 ∨ a = Ascii.ascii_of_nat 41) then Some after
                        else None
                    | _ => None
                    end
          end;
  strip <$> spaced after.

(** [_HEADING]: the text of a heading, without its closing run of [#]. *)
Definition hash : Ascii.ascii := Ascii.ascii_of_nat 35.
Definition heading_match (line : string) : option string :=
  rest ← indented line;
  let '(n, after) := run_of hash rest in
  if decide (1 ≤ n ≤ 6) then
    (λ text, strip (rstrip_char hash (rstrip text))) <$> spaced after
  else None.

Definition DELIVERABLES_SECTION : string := "Deliverables".

Record section_walk := {
  section_items : list string;
  section_active : bool;
  section_open : visibility;
}.

Definition section_line (w : section_walk) (original : string) : section_walk :=
  let stay open := {| section_items := section_items w; section_active := section_active w;
                      section_open := open |} in
  match (section_open w).1 with
  | Some fence => stay (if closes fence original then None else Some fence, (section_open w).2)
  | None =>
      let '(line, comment) := _without_comments original (section_open w).2 in
      match fence_match line, heading_match line with
      | Some (c, n, _), _ => stay (Some (c, n), comment)
      | None, Some text => {|
          section_items := section_items w;
          section_active := bool_decide (text = DELIVERABLES_SECTION);
          section_open := (None, comment) |}
      | None, None =>
          match (if section_active w then list_item_match line else None) with
          | Some text =>
              if decide (text = "") then stay (None, comment)
              else {| section_items := section_items w ++ [text];
                      section_active := section_active w; section_open := (None, comment) |}
          | None => stay (None, comment)
          end
      end
  end.

Definition deliverables_section (body : string) : list string :=
  section_items (foldl section_line
    {| section_items := []; section_active := false; section_open := (None, false) |}
    (splitlines body)).

(** [[ \t]*], with what follows it. *)
Fixpoint drop_tabs (s : string) : string :=
  match s with
  | String a r => if decide (a = sp ∨ a = tab) then drop_tabs r else s
  | EmptyString => s
  end.
Definition tabbed (s : string) : option string :=
  if decide (drop_tabs s = s) then None else Some (drop_tabs s).

(** [_CHECKLIST_ITEM]: a bullet, a tick box and a text that ends in no blank but
    spaces and tabs. *)
Definition checklist_match (line : string) : option string :=
  rest ← bullet (drop_tabs line);
  rest ← tabbed rest;
  rest ← head (omap (λ box, strip_prefix box rest) ["[ ]"; "[x]"; "[X]"]);
  rest ← tabbed rest;
  let text := str_rev (drop_tabs (str_rev rest)) in
  if decide (text = "" ∨ rstrip text ≠ text) then None else Some text.

Definition checklist_items (body : string) : list string :=
  strip <$> omap checklist_match (splitlines body).

(** ** Capturing a fire's specification *)

Definition BOARD_READ_VERSION : string := "board".

(** [criterion_ref]: a criterion is addressed by the key the tracker reports. *)
Definition criterion_ref (key : string) : string := key.

(** The model refuses an empty subject, version or criterion key. *)
Definition _tracker_spec (subject body : string) (keys : list string) (version : string) :
    Prelude.result exn TrackerSpec :=
  raise_if (bool_decide (subject = "" ∨ "" ∈ keys ∨ version = "")) (ValidationError "TrackerSpec")
    (Ok {| spec_subject := subject; spec_body := body;
           spec_criteria := criterion_ref <$> keys; read_at_version := version |}).

Section capture.
(** [datetime.isoformat] of an instant. *)
Context (isoformat : Z → string).

Definition tracker_spec_from_issues (subject : TrackerIssue) (criteria : list TrackerIssue) :
    Prelude.result exn TrackerSpec :=
  let counting := filter (λ c, is_non_counting (state_kind c) = false) criteria in
  raise_if (bool_decide (counting = [])) (EmptyFireCriteriaError (issue_key subject))
    (_ ← mapM (λ c, criterion_check c (issue_key subject)) counting;
     _tracker_spec (issue_key subject) (body subject) (issue_key <$> counting)
       (isoformat (updated_at subject))).
End capture.

Definition tracker_spec_from_board (subject_key body : string) (criterion_keys : list string) :
    Prelude.result exn TrackerSpec :=
  _tracker_spec subject_key body criterion_keys BOARD_READ_VERSION.

Definition require_fire_entry (subject : TrackerIssue) (approved : bool)
    (criteria_stage_label_key : option string) : Prelude.result exn unit :=
  match criteria_stage_label_key with
  | None => Err (OperationMemberAbsentError
      "cannot establish criteria-stage completion at fire entry")
  | Some key =>
      raise_if (negb (has_label key subject))
        (FireSpecEntryError (issue_key subject) "criteria-stage completion is absent")
        (raise_if (negb approved)
           (FireSpecEntryError (issue_key subject) "execution approval is absent") (Ok tt))
  end.

(** * What the walk reads: a preamble and one block of lines per row *)

#[local] Notation closed := ((None, false) : visibility).

Record block (A : Type) := { block_label : CriterionField; block_lines : list A;
                             block_texts : list string }.
Arguments block_label {A}. Arguments block_lines {A}. Arguments block_texts {A}.
Arguments Build_block {A}.

(** What is open after some lines. *)
Definition opened_by (open : visibility) (ls : list string) : visibility :=
  foldl (λ o l, (visible_line o l).1) open ls.

Section blocks.
Context {A : Type} (content : A → string).

(** The lines before the first row with their texts, and the rows' lines and texts. *)
Fixpoint blocks (open : visibility) (ls : list A) : list A * list string * list (block A) :=
  match ls with
  | [] => ([], [], [])
  | l :: ls =>
      let '(opened, seen) := visible_line open (content l) in
      let '(pre, texts, bs) := blocks opened ls in
      match seen with
      | inr t => (l :: pre, t :: texts, bs)
      | inl (label, t) => ([], [], Build_block label (l :: pre) (t :: texts) :: bs)
      end
  end.

(** Whether every row opens with nothing open, and nothing is open at the end. *)
Fixpoint settled_from (open : visibility) (ls : list A) : bool :=
  match ls with
  | [] => bool_decide (open = closed)
  | l :: ls =>
      let '(opened, seen) := visible_line open (content l) in
      (if seen is inl _ then bool_decide (open = closed) else true) && settled_from opened ls
  end.

Definition self_contained_block (b : block A) : Prop :=
  blocks closed (block_lines b) = ([], [], [b])
  ∧ opened_by closed (content <$> block_lines b) = closed.

Definition lines_of (bs : list (block A)) : list A := concat (block_lines <$> bs).

Lemma blocks_app open xs ys pre texts bs :
  blocks (opened_by open (content <$> xs)) ys = (pre, texts, bs) →
  blocks open (xs ++ ys) =
    let '(pre', texts', bs') := blocks open xs in
    match last bs' with
    | None => (pre' ++ pre, texts' ++ texts, bs)
    | Some b => (pre', texts', removelast bs' ++
        Build_block (block_label b) (block_lines b ++ pre) (block_texts b ++ texts) :: bs)
    end.
Proof.
  revert open. induction xs as [|x xs IH]; intros open E; [exact E|].
  cbn [app blocks]. cbn [fmap list_fmap] in E. unfold opened_by in E. cbn [foldl] in E.
  destruct (visible_line open (content x)) as [opened seen]. cbn [fst] in E.
  rewrite (IH opened E). destruct (blocks opened xs) as [[pre' texts'] bs'].
  destruct bs' as [|b bs'].
  { destruct seen as [[lab t]|t]; simpl; done. }
  destruct (last (b :: bs')) as [b'|] eqn:El; [|by apply last_None in El].
  destruct seen as [[lab t]|t]; rewrite ?(last_cons (Build_block _ _ _)), El; done.
Qed.

(** Lines that open a row at once leave the blocks before them alone. *)
Lemma blocks_app_rows open xs ys bs :
  blocks (opened_by open (content <$> xs)) ys = ([], [], bs) →
  blocks open (xs ++ ys) =
    let '(pre', texts', bs') := blocks open xs in (pre', texts', bs' ++ bs).
Proof.
  intros E. rewrite (blocks_app _ _ _ _ _ _ E).
  destruct (blocks open xs) as [[pre' texts'] bs'].
  destruct (last bs') as [b|] eqn:El.
  - apply last_Some in El as [l ->]. rewrite removelast_last, !app_nil_r.
    destruct b. by rewrite <-app_assoc.
  - apply last_None in El as ->. by rewrite !app_nil_r.
Qed.

Lemma opened_by_app open xs ys :
  opened_by open (xs ++ ys) = opened_by (opened_by open xs) ys.
Proof. apply foldl_app. Qed.

(** A text is read back from its preamble and its self-contained blocks. *)
Lemma blocks_of pre texts bs :
  blocks closed pre = (pre, texts, []) → opened_by closed (content <$> pre) = closed →
  Forall self_contained_block bs →
  blocks closed (pre ++ lines_of bs) = (pre, texts, bs)
  ∧ opened_by closed (content <$> (pre ++ lines_of bs)) = closed.
Proof.
  intros Hpre Ho Hbs. rewrite fmap_app, opened_by_app, Ho.
  enough (blocks closed (lines_of bs) = ([], [], bs)
          ∧ opened_by closed (content <$> lines_of bs) = closed) as [E Eo].
  { split; [|done]. rewrite (blocks_app_rows _ _ _ bs); rewrite ?Ho, ?Hpre; done. }
  clear Hpre Ho. induction Hbs as [|b bs [Hb Hob] Hbs IH]; [done|].
  unfold lines_of in IH |- *. cbn [fmap list_fmap concat]. destruct IH as [IH1 IH2].
  rewrite fmap_app, opened_by_app, Hob. split; [|done].
  rewrite (blocks_app_rows _ _ _ bs); rewrite ?Hob; [|done]. by rewrite Hb.
Qed.

Lemma settled_blocks open ls pre texts bs :
  settled_from open ls = true → blocks open ls = (pre, texts, bs) →
  ls = pre ++ lines_of bs ∧ blocks open pre = (pre, texts, [])
  ∧ opened_by open (content <$> pre) = closed ∧ Forall self_contained_block bs.
Proof.
  revert open pre texts bs. induction ls as [|l ls IH]; intros open pre texts bs.
  { cbn [settled_from blocks]. intros ->%bool_decide_eq_true [= <- <- <-].
    by repeat split; try constructor. }
  cbn [settled_from blocks].
  destruct (visible_line open (content l)) as [opened seen] eqn:Ev.
  destruct (blocks opened ls) as [[pre' texts'] bs'] eqn:Eb.
  rewrite andb_true_iff. intros [Hs Hr].
  destruct (IH _ _ _ _ Hr Eb) as (-> & Hp & Ho & Hbs).
  assert (opened_by open (content <$> (l :: pre')) = closed) as Ho'.
  { rewrite fmap_cons. unfold opened_by in *. cbn [foldl]. by rewrite Ev. }
  destruct seen as [[label t]|t]; intros [= <- <- <-].
  - apply bool_decide_eq_true in Hs as ->. repeat split; try done.
    constructor; [|done]. split; [|done]. cbn [block_lines blocks]. by rewrite Ev, Hp.
  - repeat split; try done. cbn [blocks]. by rewrite Ev, Hp.
Qed.

Lemma settled_iff open ls pre texts bs :
  blocks open pre = (pre, texts, []) → opened_by open (content <$> pre) = closed →
  Forall self_contained_block bs → ls = pre ++ lines_of bs →
  settled_from open ls = true.
Proof.
  intros Hp Ho Hbs ->. revert open texts Hp Ho. induction pre as [|l pre IH]; intros open texts Hp Ho.
  - unfold opened_by in Ho. cbn in Ho. subst open. cbn [app]. clear Hp texts.
    induction Hbs as [|b bs [Hb Hob] Hbs IH]; [done|].
    unfold lines_of in *. cbn [fmap list_fmap concat].
    destruct b as [label [|x xs] ts]; cbn [block_lines] in *; [done|].
    revert Hb Hob. cbn [blocks]. unfold opened_by. cbn [fmap list_fmap foldl app settled_from].
    destruct (visible_line closed (content x)) as [o [[lab t]|t]]; cbn [fst];
      destruct (blocks o xs) as [[p tx] bx] eqn:E; [|done].
    intros [= <- -> <- ->] Hob. cbn [andb].
    rewrite bool_decide_true by done. cbn [andb].
    clear t lab. revert o tx E Hob. induction xs as [|y xs IHx]; intros o tx E Hob.
    { cbn in Hob. by subst o. }
    revert E Hob. cbn [blocks fmap list_fmap foldl app settled_from].
    destruct (visible_line o (content y)) as [o' [[lab' t']|t']]; cbn [fst];
      destruct (blocks o' xs) as [[p' tx'] bx'] eqn:E'; [done|].
    intros [= -> ? ->] Hob. cbn [andb]. by eapply IHx.
  - revert Hp Ho. cbn [blocks app settled_from]. unfold opened_by. cbn [fmap list_fmap foldl].
    destruct (visible_line open (content l)) as [o [[lab' t']|t']]; cbn [fst];
      destruct (blocks o pre) as [[p' tx'] bx'] eqn:E'; [done|].
    intros [= -> ? ->] Ho. cbn [andb]. by eapply IH.
Qed.

End blocks.

(** The rows a list of blocks stands for, from an offset. *)
Fixpoint rows_of (offset : nat) (bs : list (block pyline)) : list _CriterionRow :=
  match bs with
  | [] => []
  | b :: bs =>
      let stop := offset + String.length (unlines (block_lines b)) in
      {| row_label := block_label b; row_begin := offset; row_end := stop;
         row_text := strip_lines (block_texts b) |} :: rows_of stop bs
  end.

Definition extended (w : walk) (texts : list string) : walk := {|
  walk_rows := walk_rows w; walk_label := walk_label w; walk_begin := walk_begin w;
  walk_lines := walk_lines w ++ texts; walk_open := walk_open w; walk_offset := walk_offset w |}.

Lemma walk_blocks w ls pre texts bs :
  blocks fst (walk_open w) ls = (pre, texts, bs) →
  rows_until (foldl walk_line w ls) (walk_offset w + String.length (unlines ls)) =
    rows_until (extended w texts) (walk_offset w + String.length (unlines pre))
    ++ rows_of (walk_offset w + String.length (unlines pre)) bs.
Proof.
  revert w pre texts bs. induction ls as [|l ls IH]; intros w pre texts bs.
  { intros [= <- <- <-]. cbn [foldl rows_of]. rewrite app_nil_r.
    unfold extended. rewrite app_nil_r. by destruct w. }
  cbn [blocks foldl]. unfold walk_line at 2.
  destruct (visible_line (walk_open w) l.1) as [opened seen].
  destruct (blocks fst opened ls) as [[pre' texts'] bs'] eqn:Eb.
  cbn [unlines]. rewrite str_length_app, Nat.add_assoc.
  destruct seen as [[label t]|t]; intros [= <- <- <-];
    match goal with |- rows_until (foldl _ ?w' _) _ = _ => specialize (IH w' pre' texts' bs' Eb) end;
    cbn [walk_offset] in IH; rewrite IH.
  - cbn [rows_of block_lines block_label block_texts unlines]. rewrite str_length_app, Nat.add_0_r.
    rewrite Nat.add_assoc. unfold rows_until at 1. cbn [walk_label extended walk_lines walk_begin walk_rows app].
    rewrite <-app_assoc. f_equal. by unfold extended; rewrite app_nil_r; destruct w.
  - cbn [unlines]. rewrite str_length_app, Nat.add_assoc. unfold extended.
    cbn [walk_label walk_lines walk_begin walk_rows walk_open walk_offset].
    by rewrite <-app_assoc.
Qed.

(** The walk of a body, as its blocks. *)
Lemma criterion_rows_blocks body pre texts bs :
  blocks fst closed (splitlines_keep body) = (pre, texts, bs) →
  _criterion_rows body = rows_of (String.length (unlines pre)) bs.
Proof.
  intros E. pose proof (walk_blocks walk_start _ _ _ _ E) as H.
  cbn [walk_offset walk_start Nat.add] in H. rewrite splitlines_keep_unlines in H.
  exact H.
Qed.

(** What a body's rows hold, and whether the walk of it starts every row and ends
    with nothing open. *)
Definition field_texts (body : string) : list (CriterionField * string) :=
  (λ r, (row_label r, row_text r)) <$> _criterion_rows body.
Definition settled (body : string) : bool := settled_from (λ l, l) closed (splitlines body).

(** The walk looks at the lines' contents alone. *)
Definition map_block {A B} (f : A → B) (b : block A) : block B :=
  Build_block (block_label b) (f <$> block_lines b) (block_texts b).

Lemma blocks_fmap {A} (content : A → string) open ls :
  blocks (λ l, l) open (content <$> ls) =
    let '(pre, texts, bs) := blocks content open ls in
    (content <$> pre, texts, map_block content <$> bs).
Proof.
  revert open. induction ls as [|l ls IH]; intros open; [done|].
  rewrite fmap_cons. cbn [blocks]. destruct (visible_line open (content l)) as [opened seen].
  rewrite IH.
  destruct (blocks content opened ls) as [[pre texts] bs]. by destruct seen as [[lab t]|t].
Qed.

Lemma settled_from_fmap {A} (content : A → string) open ls :
  settled_from (λ l, l) open (content <$> ls) = settled_from content open ls.
Proof.
  revert open. induction ls as [|l ls IH]; intros open; [done|].
  rewrite fmap_cons. cbn [settled_from]. destruct (visible_line open (content l)) as [opened seen].
  by rewrite IH.
Qed.

Definition texts_of {A} (bs : list (block A)) : list (CriterionField * string) :=
  (λ b, (block_label b, strip_lines (block_texts b))) <$> bs.

Lemma texts_of_rows offset bs :
  (λ r, (row_label r, row_text r)) <$> rows_of offset bs = texts_of bs.
Proof.
  revert offset. induction bs as [|b bs IH]; intros offset; [done|].
  cbn [rows_of]. unfold texts_of in *. rewrite !fmap_cons. by rewrite IH.
Qed.

Lemma texts_of_map {A B} (f : A → B) (bs : list (block A)) :
  texts_of (map_block f <$> bs) = texts_of bs.
Proof. unfold texts_of. by rewrite <-list_fmap_compose. Qed.

Lemma field_texts_blocks body pre texts bs :
  blocks (λ l, l) closed (splitlines body) = (pre, texts, bs) →
  field_texts body = texts_of bs.
Proof.
  unfold splitlines. rewrite blocks_fmap.
  destruct (blocks fst closed (splitlines_keep body)) as [[pre' texts'] bs'] eqn:E.
  intros [= <- <- <-]. unfold field_texts.
  rewrite (criterion_rows_blocks _ _ _ _ E), texts_of_rows. symmetry. apply texts_of_map.
Qed.

Lemma field_bodies_texts body field :
  criterion_field_bodies body field = (filter (λ ft, ft.1 = field) (field_texts body)).*2.
Proof.
  unfold criterion_field_bodies, field_texts.
  induction (_criterion_rows body) as [|r rows IH]; [done|].
  rewrite fmap_cons, !filter_cons. cbn [fst].
  case_decide; [|done]. rewrite !fmap_cons. by f_equal.
Qed.

(** ** Empty lines *)

Lemma visible_line_empty open : visible_line open "" = (open, inr "").
Proof. by destruct open as [[[c n]|] []]. Qed.

Lemma opened_by_blank open e : all_blank e → opened_by open e = open.
Proof.
  induction 1 as [|l e -> _ IH]; [done|]. unfold opened_by in *. cbn [foldl].
  by rewrite visible_line_empty.
Qed.

Lemma blocks_blank open e : all_blank e → blocks (λ l, l) open e = (e, e, []).
Proof.
  induction 1 as [|l e -> _ IH]; [done|]. cbn [blocks]. rewrite visible_line_empty, IH. done.
Qed.

Lemma settled_from_app_blank open ls e :
  all_blank e → settled_from (λ l, l) open (ls ++ e) = settled_from (λ l, l) open ls.
Proof.
  intros He. revert open. induction ls as [|l ls IH]; intros open.
  - cbn [app]. induction He as [|l e -> _ IHe]; [done|].
    cbn [settled_from]. by rewrite visible_line_empty.
  - cbn [app settled_from]. destruct (visible_line open l) as [o s]. by rewrite IH.
Qed.

(** The fields of a text, from its lines. *)
Definition line_fields (ls : list string) : list (CriterionField * string) :=
  texts_of (blocks (λ l, l) closed ls).2.

Lemma field_texts_lines body : field_texts body = line_fields (splitlines body).
Proof.
  unfold line_fields. destruct (blocks _ closed (splitlines body)) as [[pre texts] bs] eqn:E.
  by apply field_texts_blocks in E.
Qed.

Lemma line_fields_app_blank ls e : all_blank e → line_fields (ls ++ e) = line_fields ls.
Proof.
  intros He. unfold line_fields. rewrite (blocks_app _ _ _ _ _ _ _ (blocks_blank _ e He)).
  destruct (blocks _ closed ls) as [[pre texts] bs].
  destruct (last bs) as [b|] eqn:El.
  - apply last_Some in El as [bs' ->]. cbn [snd]. unfold texts_of.
    rewrite removelast_last, !fmap_app, !fmap_cons. cbn [block_label block_texts].
    by rewrite strip_lines_blank.
  - by apply last_None in El as ->.
Qed.

Lemma line_fields_app_rows ls ks b :
  settled_from (λ l, l) closed ls = true →
  blocks (λ l, l) closed ks = ([], [], [b]) →
  settled_from (λ l, l) closed ks = true →
  line_fields (ls ++ ks) = line_fields ls ++ [(block_label b, strip_lines (block_texts b))]
  ∧ settled_from (λ l, l) closed (ls ++ ks) = true.
Proof.
  intros Hls Hb Hks. destruct (blocks (λ l, l) closed ls) as [[pre texts] bs] eqn:E.
  destruct (settled_blocks _ _ _ _ _ _ Hls E) as (-> & Hp & Ho & Hbs).
  destruct (settled_blocks _ _ _ _ _ _ Hks Hb) as (Ek & _ & _ & Hb').
  cbn [app] in Ek. assert (pre ++ lines_of bs ++ ks = pre ++ lines_of (bs ++ [b])) as El.
  { rewrite Ek. unfold lines_of. by rewrite fmap_app, concat_app. }
  assert (Forall (self_contained_block (λ l, l)) (bs ++ [b])) as Hall by by apply Forall_app.
  rewrite <-app_assoc, El. split.
  - unfold line_fields. rewrite (proj1 (blocks_of _ _ _ _ Hp Ho Hall)), E.
    cbn [snd]. unfold texts_of. by rewrite fmap_app.
  - by apply (settled_iff _ _ _ _ _ _ Hp Ho Hall).
Qed.

(** ** The rows an edit writes *)

(** A value that stays inside its row: written as a field it is read as one row
    holding it, with nothing left open. *)
Definition self_contained (field : CriterionField) (value : string) : bool :=
  let text := field_row field value +:+ nl in
  bool_decide (_criterion_rows text =
    [{| row_label := field; row_begin := 0; row_end := String.length text;
        row_text := strip value |}])
  && settled text.

Lemma unlines_empty ls : lines_ok ls = true → String.length (unlines ls) = 0 → ls = [].
Proof.
  destruct ls as [|[c t] ls]; [done|]. cbn [lines_ok unlines]. rewrite !andb_true_iff.
  intros [[_ Ht] _]. unfold line_text. cbn [fst snd]. rewrite !str_length_app. intros E.
  case_decide.
  - apply bool_decide_eq_true in Ht as [? _]. destruct c; [done|]. simpl in E. lia.
  - destruct t; [done|]. simpl in E. lia.
Qed.

Lemma self_contained_reads field value :
  self_contained field value = true →
  ∃ b, blocks fst closed (splitlines_keep (field_row field value +:+ nl)) = ([], [], [b])
    ∧ block_lines b = splitlines_keep (field_row field value +:+ nl)
    ∧ self_contained_block fst b ∧ block_label b = field
    ∧ strip_lines (block_texts b) = strip value.
Proof.
  unfold self_contained. set (text := field_row field value +:+ nl).
  rewrite andb_true_iff, bool_decide_eq_true. intros [Hr Hs].
  unfold settled, splitlines in Hs. rewrite settled_from_fmap in Hs.
  destruct (blocks fst closed (splitlines_keep text)) as [[pre texts] bs] eqn:E.
  destruct (settled_blocks _ _ _ _ _ _ Hs E) as (El & Hp & _ & Hbs).
  rewrite (criterion_rows_blocks _ _ _ _ E) in Hr.
  destruct bs as [|b [|]]; cbn [rows_of] in Hr; try done. injection Hr as Hl H0 _ Ht.
  assert (pre = []) as ->.
  { apply unlines_empty; [|done]. pose proof (splitlines_keep_ok text) as Hok. rewrite El in Hok.
    by apply lines_ok_app_inv in Hok as (? & _ & _). }
  injection Hp as <-. exists b. apply Forall_cons in Hbs as [Hb _].
  split; [done|]. split; [|done]. rewrite El. unfold lines_of. cbn. by rewrite app_nil_r.
Qed.

(** The block an edit puts in a row's place. *)
Definition written (field : CriterionField) (value : string) : string :=
  field_row field value +:+ nl +:+ nl.
Definition edited_block (replacements : pydict CriterionField string) (b : block pyline) :
    block pyline :=
  match dict_get replacements (block_label b) with
  | None => b
  | Some value =>
      default b (head (blocks fst closed (splitlines_keep (written (block_label b) value))).2)
  end.

Lemma written_reads field value :
  self_contained field value = true →
  ∃ b, blocks fst closed (splitlines_keep (written field value)) = ([], [], [b])
    ∧ block_lines b = splitlines_keep (written field value)
    ∧ self_contained_block fst b ∧ block_label b = field
    ∧ strip_lines (block_texts b) = strip value.
Proof.
  intros (b & E & El & [Hb Ho] & Hf & Ht)%self_contained_reads.
  unfold written. change (nl +:+ nl) with (String newline nl).
  rewrite splitlines_keep_newline, <-El. change (splitlines_keep nl) with [("", nl)].
  assert (blocks fst closed (block_lines b ++ [("", nl)])
    = ([], [], [Build_block (block_label b) (block_lines b ++ [("", nl)]) (block_texts b ++ [""])]))
    as Eb.
  { rewrite (blocks_app fst closed _ [("", nl)] [("", nl)] [""] []) by (by rewrite Ho).
    by rewrite Hb. }
  eexists. split; [exact Eb|]. split; [done|]. cbn [block_label block_texts block_lines].
  split; [split|split].
  - exact Eb.
  - cbn [block_lines]. rewrite fmap_app, opened_by_app, Ho. done.
  - done.
  - by rewrite strip_lines_blank by by repeat constructor.
Qed.

Section edit.
Context (replacements : pydict CriterionField string).
Context (Hsc : ∀ f v, dict_get replacements f = Some v → self_contained f v = true).

Lemma edited_block_spec b :
  self_contained_block fst b → lines_ok (block_lines b) = true →
  self_contained_block fst (edited_block replacements b)
  ∧ lines_ok (block_lines (edited_block replacements b)) = true
  ∧ block_label (edited_block replacements b) = block_label b
  ∧ strip_lines (block_texts (edited_block replacements b))
    = match dict_get replacements (block_label b) with
      | Some v => strip v | None => strip_lines (block_texts b) end
  ∧ unlines (block_lines (edited_block replacements b))
    = match dict_get replacements (block_label b) with
      | Some v => written (block_label b) v | None => unlines (block_lines b) end.
Proof.
  intros Hb Hok. unfold edited_block.
  destruct (dict_get replacements (block_label b)) as [v|] eqn:E; [|done].
  destruct (written_reads _ _ (Hsc _ _ E)) as (b' & Eb & El & Hb' & Hf & Ht).
  rewrite Eb. cbn [snd head default from_option]; unfold id. split; [done|]. split; [rewrite El; apply splitlines_keep_ok|].
  split; [done|]. split; [done|]. by rewrite El, splitlines_keep_unlines.
Qed.

Lemma terminated_newline s : terminated (splitlines_keep (s +:+ nl)).
Proof.
  pose proof (splitlines_keep_ok (s +:+ String newline "x")) as H.
  rewrite splitlines_keep_newline in H. by apply lines_ok_app_inv in H as (_ & _ & H); apply H.
Qed.

Lemma self_contained_starts b : self_contained_block fst b → starts_text (block_lines b).
Proof.
  intros [Hb _]. destruct (block_lines b) as [|[c t] ls]; [done|]. cbn [starts_text].
  intros ->. cbn [blocks fst] in Hb. rewrite visible_line_empty in Hb.
  by destruct (blocks fst closed ls) as [[p tx] bs].
Qed.

Lemma starts_text_lines bs : Forall (self_contained_block fst) bs → starts_text (lines_of bs).
Proof.
  intros [|b bs' Hb _]; [done|]. unfold lines_of. cbn [fmap list_fmap concat].
  pose proof (self_contained_starts b Hb) as Hs. destruct Hb as [Hb _].
  destruct (block_lines b) as [|[c t] ls]; [by cbn in Hb|]. exact Hs.
Qed.

(** The edited blocks make a text that splits into them. *)
Lemma edited_lines bs :
  Forall (self_contained_block fst) bs → lines_ok (lines_of bs) = true →
  lines_ok (lines_of (edited_block replacements <$> bs)) = true
  ∧ Forall (self_contained_block fst) (edited_block replacements <$> bs).
Proof.
  induction 1 as [|b bs Hb Hbs IH]; [done|]. intros Hok.
  unfold lines_of in Hok, IH |- *. cbn [fmap list_fmap concat] in Hok |- *.
  apply lines_ok_app_inv in Hok as (Hok1 & Hok2 & Hterm).
  destruct (IH Hok2) as [IH1 IH2].
  destruct (edited_block_spec b Hb Hok1) as (Hb' & Hok' & _).
  split; [|by constructor].
  destruct (decide (bs = [])) as [-> |Hne].
  { cbn. by rewrite app_nil_r. }
  apply lines_ok_app; [done| |done|by apply (starts_text_lines (edited_block replacements <$> bs))].
  unfold edited_block. destruct (dict_get replacements (block_label b)) as [v|] eqn:E.
  - destruct (written_reads _ _ (Hsc _ _ E)) as (b' & Eb & El & _).
    rewrite Eb. cbn [snd head default from_option]; unfold id. rewrite El. unfold written.
    rewrite str_app_assoc. apply terminated_newline.
  - apply Hterm. destruct bs as [|b2 bs]; [done|]. cbn [fmap list_fmap concat].
    apply Forall_cons in Hbs as [[Hb2 _] _].
    by destruct (block_lines b2); [cbn in Hb2|].
Qed.

(** *** The first pass: every addressed row replaced in place *)

Lemma replace_row_get row result :
  NoDup (dict_keys replacements) →
  replace_row replacements row result =
    match dict_get replacements (row_label row) with
    | Some v => str_take (row_begin row) result +:+ written (row_label row) v
                +:+ str_drop (row_end row) result
    | None => result
    end.
Proof.
  unfold replace_row, dict_keys. clear Hsc. revert result.
  induction replacements as [|[f v] reps IH]; intros result; [done|].
  rewrite fmap_cons. intros [Hf Hnd]%NoDup_cons. cbn [foldl dict_get fst snd].
  rewrite IH by done. case_decide as E; [subst f|done].
  assert (dict_get reps (row_label row) = None) as -> by by apply dict_get_None.
  unfold written. by rewrite <-!str_app_assoc.
Qed.

Lemma splice_rows bs before :
  NoDup (dict_keys replacements) → Forall (self_contained_block fst) bs →
  lines_ok (lines_of bs) = true →
  foldr (replace_row replacements) (before +:+ unlines (lines_of bs))
    (rows_of (String.length before) bs)
  = before +:+ unlines (lines_of (edited_block replacements <$> bs)).
Proof.
  intros Hnd Hbs. revert before. induction Hbs as [|b bs Hb Hbs IH]; intros before Hok; [done|].
  unfold lines_of in Hok, IH |- *. cbn [fmap list_fmap concat rows_of foldr] in Hok |- *.
  apply lines_ok_app_inv in Hok as (Hok1 & Hok2 & _).
  rewrite !unlines_app, str_app_assoc.
  rewrite <-(str_length_app before (unlines (block_lines b))).
  rewrite (IH _ Hok2). rewrite replace_row_get by done. cbn [row_label row_begin row_end].
  destruct (edited_block_spec b Hb Hok1) as (_ & _ & _ & _ & ->).
  destruct (dict_get replacements (block_label b)) as [v|].
  - rewrite <-(str_app_assoc before (unlines (block_lines b))), str_take_app.
    by rewrite (str_app_assoc before (unlines (block_lines b))), str_drop_app.
  - by rewrite str_app_assoc.
Qed.

(** What the first pass leaves, for a body that is settled. *)
Lemma first_pass body :
  NoDup (dict_keys replacements) → settled body = true →
  let spliced := foldr (replace_row replacements) body (_criterion_rows body) in
  settled spliced = true
  ∧ field_texts spliced =
      (λ ft, (ft.1, match dict_get replacements ft.1 with
                    | Some v => strip v | None => ft.2 end)) <$> field_texts body.
Proof.
  intros Hnd Hs. unfold settled, splitlines in Hs. rewrite settled_from_fmap in Hs.
  destruct (blocks fst closed (splitlines_keep body)) as [[pre texts] bs] eqn:E.
  destruct (settled_blocks _ _ _ _ _ _ Hs E) as (El & Hp & Ho & Hbs).
  pose proof (splitlines_keep_ok body) as Hok. rewrite El in Hok.
  apply lines_ok_app_inv in Hok as (Hok1 & Hok2 & Hterm).
  assert (body = unlines pre +:+ unlines (lines_of bs)) as Eb.
  { by rewrite <-unlines_app, <-El, splitlines_keep_unlines. }
  cbv zeta. rewrite (criterion_rows_blocks _ _ _ _ E).
  replace (foldr (replace_row replacements) body _) with
    (unlines pre +:+ unlines (lines_of (edited_block replacements <$> bs)))
    by (rewrite <-splice_rows by done; by rewrite <-Eb).
  destruct (edited_lines bs Hbs Hok2) as [Hok3 Hbs'].
  rewrite <-unlines_app.
  assert (splitlines_keep (unlines (pre ++ lines_of (edited_block replacements <$> bs)))
          = pre ++ lines_of (edited_block replacements <$> bs)) as Ek.
  { apply splitlines_keep_of_lines. destruct bs as [|b bs]; [by rewrite app_nil_r|].
    apply lines_ok_app; [done| |done|by apply starts_text_lines].
    apply Hterm. apply Forall_cons in Hbs as [[Hb _] _]. unfold lines_of.
    cbn [fmap list_fmap concat]. by destruct (block_lines b); [cbn in Hb|]. }
  destruct (blocks_of _ _ _ _ Hp Ho Hbs') as [Eb' _]. split.
  - unfold settled, splitlines. rewrite settled_from_fmap, Ek.
    by apply (settled_iff _ _ _ _ _ _ Hp Ho Hbs').
  - unfold field_texts. rewrite (criterion_rows_blocks _ _ _ _ E), texts_of_rows.
    rewrite (criterion_rows_blocks _ pre texts (edited_block replacements <$> bs))
      by by rewrite Ek.
    rewrite texts_of_rows. unfold texts_of. rewrite <-!list_fmap_compose.
    clear - Hbs Hok2 Hsc. unfold lines_of in Hok2.
    induction Hbs as [|b bs Hb Hbs IH]; [done|]. cbn [fmap list_fmap concat] in Hok2 |- *.
    apply lines_ok_app_inv in Hok2 as (Hok1 & Hok2 & _).
    destruct (edited_block_spec b Hb Hok1) as (_ & _ & El & Et & _).
    f_equal; [|by apply IH]. unfold compose. cbn [fst snd]. by rewrite El, Et.
Qed.
End edit.

(** *** The second pass: absent fields appended, and each one read back *)

Fixpoint str_repeat (n : nat) (s : string) : string :=
  match n with O => "" | S n => s +:+ str_repeat n s end.

Lemma lstrip_char_spec c s : ∃ n, s = str_repeat n (String c "") +:+ lstrip_char c s.
Proof.
  induction s as [|a s [n IH]]; [by exists 0|]. cbn [lstrip_char].
  destruct (Ascii.ascii_dec a c) as [->|]; [|by exists 0].
  exists (S n). cbn [str_repeat String.append]. by rewrite IH at 1.
Qed.

Lemma str_repeat_snoc n c :
  str_repeat n (String c "") +:+ String c "" = String c (str_repeat n (String c "")).
Proof. induction n as [|n IH]; [done|]. cbn [str_repeat String.append] in *. by rewrite IH. Qed.

Lemma str_rev_repeat n c : str_rev (str_repeat n (String c "")) = str_repeat n (String c "").
Proof.
  induction n as [|n IH]; [done|]. cbn [str_repeat String.append].
  by rewrite str_rev_cons, IH, str_repeat_snoc.
Qed.

Lemma rstrip_char_spec c s : ∃ n, s = rstrip_char c s +:+ str_repeat n (String c "").
Proof.
  destruct (lstrip_char_spec c (str_rev s)) as [n E]. exists n. unfold rstrip_char.
  rewrite <-(str_rev_involutive s) at 1. rewrite E at 1. by rewrite str_rev_app, str_rev_repeat.
Qed.

Lemma splitlines_repeat_newline s n :
  ∃ e, all_blank e ∧ splitlines (s +:+ str_repeat n nl) = splitlines s ++ e.
Proof.
  revert s. induction n as [|n IH]; intros s.
  { exists []. split; [constructor|]. cbn [str_repeat]. by rewrite str_app_nil_r, app_nil_r. }
  cbn [str_repeat]. rewrite str_app_assoc. destruct (IH (s +:+ nl)) as (e & He & ->).
  destruct (splitlines_snoc_newline s) as (e' & He' & ->). exists (e' ++ e).
  split; [by apply Forall_app|]. by rewrite app_assoc.
Qed.

Lemma append_row result field value :
  settled result = true → self_contained field value = true →
  let appended := rstrip_char newline result +:+ nl +:+ nl +:+ field_row field value +:+ nl in
  settled appended = true
  ∧ field_texts appended = field_texts result ++ [(field, strip value)].
Proof.
  intros Hs Hv. cbv zeta.
  assert (settled (field_row field value +:+ nl) = true) as Hrow.
  { unfold self_contained in Hv. by apply andb_true_iff in Hv as [_ ?]. }
  apply self_contained_reads in Hv as (b & Eb & _ & _ & <- & <-).
  set (row := field_row (block_label b) value +:+ nl) in *.
  destruct (rstrip_char_spec newline result) as [n En].
  set (r := rstrip_char newline result) in *.
  destruct (splitlines_repeat_newline r n) as (e1 & He1 & E1). rewrite <-En in E1.
  destruct (splitlines_snoc_newline r) as (e2 & He2 & E2).
  assert (splitlines (r +:+ nl +:+ nl +:+ row) = (splitlines r ++ e2 ++ [""]) ++ splitlines row) as E.
  { change (nl +:+ nl +:+ row) with (String newline (String newline row)).
    rewrite splitlines_newline, E2.
    change (String newline row) with ("" +:+ String newline row).
    by rewrite splitlines_newline, <-!app_assoc. }
  assert (all_blank (e2 ++ [""])) as He by (apply Forall_app; split; [done|by repeat constructor]).
  assert (settled_from (λ l, l) closed (splitlines r) = true) as Hr.
  { unfold settled in Hs. by rewrite E1, settled_from_app_blank in Hs. }
  assert (blocks (λ l, l) closed (splitlines row) = ([], [], [map_block fst b])) as Eb'.
  { unfold splitlines. by rewrite blocks_fmap, Eb. }
  rewrite !field_texts_lines, E. unfold settled. rewrite E, E1.
  destruct (line_fields_app_rows (splitlines r ++ e2 ++ [""]) (splitlines row) _
    ltac:(by rewrite settled_from_app_blank) Eb' Hrow) as [-> ->].
  split; [done|]. by rewrite !line_fields_app_blank.
Qed.

Lemma duplicated_nil (names : list string) : _duplicated names = [] ↔ NoDup names.
Proof.
  unfold _duplicated. rewrite <-length_zero_iff_nil, length_sort_by, length_zero_iff_nil.
  rewrite NoDup_ListNoDup, (NoDup_count_occ String.string_dec). split.
  - intros E x. destruct (decide (1 < count_occ String.string_dec names x)); [|lia].
    exfalso. assert (x ∈ dict_fromkeys (filter (λ n, 1 < count_occ String.string_dec names n) names)) as H;
      [|by rewrite E in H; apply elem_of_nil in H].
    rewrite elem_of_fromkeys, list_elem_of_filter. split; [done|].
    apply list_elem_of_In, (count_occ_In String.string_dec). lia.
  - intros H. destruct (dict_fromkeys _) as [|x l] eqn:E; [done|]. exfalso.
    assert (x ∈ dict_fromkeys (filter (λ n, 1 < count_occ String.string_dec names n) names)) as Hx
      by (rewrite E; apply list_elem_of_here).
    rewrite elem_of_fromkeys, list_elem_of_filter in Hx. specialize (H x). lia.
Qed.

(** *** The edit as a whole *)

(** The fields an edit leaves: the body's rows in their order, each addressed one
    holding its replacement, then the addressed fields the body had no row for. *)
Definition edited_fields (fields : list (CriterionField * string))
    (replacements : pydict CriterionField string) : list (CriterionField * string) :=
  ((λ ft, (ft.1, match dict_get replacements ft.1 with
                 | Some v => strip v | None => ft.2 end)) <$> fields)
  ++ (prod_map id strip <$> filter (λ fr, fr.1 ∉ fields.*1) replacements).

Lemma filter_key_unique {V : Type} (l : list (CriterionField * V)) f v :
  NoDup l.*1 → (f, v) ∈ l → (filter (λ ft, ft.1 = f) l).*2 = [v].
Proof.
  induction l as [|[g w] l IH]; [by intros _ ?%elem_of_nil|].
  rewrite fmap_cons. intros [Hg Hnd]%NoDup_cons. rewrite elem_of_cons, filter_cons. cbn [fst] in *.
  intros [[= <- <-]|Hin].
  - rewrite decide_True by done. rewrite filter_none; [done|].
    intros [f' w] Hin. cbn [fst]. intros ->. apply Hg. by apply (list_elem_of_fmap_2 fst) in Hin.
  - rewrite decide_False; [by apply IH|]. intros ->. apply Hg.
    by apply (list_elem_of_fmap_2 fst) in Hin.
Qed.

(** The second pass, from a text that already holds the rows [fields]. *)
Lemma second_pass names replacements result :
  NoDup (dict_keys replacements) → NoDup names → settled result = true →
  (∀ f v, (f, v) ∈ replacements → self_contained f v = true) →
  (∀ f v, (f, v) ∈ replacements → f ∈ names → (f, strip v) ∈ field_texts result) →
  NoDup (field_texts result).*1 →
  (∀ f, f ∈ dict_keys replacements → f ∉ names → f ∉ (field_texts result).*1) →
  ∃ final, foldM (append_field names) result replacements = Ok final ∧ settled final = true
    ∧ field_texts final = field_texts result
        ++ (prod_map id strip <$> filter (λ fr, fr.1 ∉ names) replacements).
Proof.
  unfold dict_keys. revert result.
  induction replacements as [|[f v] reps IH]; intros result Hnd Hn Hs Hsc Hin Hkeys Hnew.
  { exists result. split; [done|]. split; [done|]. cbn. by rewrite app_nil_r. }
  rewrite fmap_cons in Hnd. apply NoDup_cons in Hnd as [Hf Hnd].
  assert (Hv : self_contained f v = true) by (apply Hsc; by left).
  cbn [foldM]. unfold append_field at 1. cbn [fst snd].
  rewrite filter_cons. cbn [fst]. destruct (decide (f ∈ names)) as [Hfn|Hfn].
  - rewrite bool_decide_true; cbn [negb raise_if].
    2:{ rewrite field_bodies_texts. apply filter_key_unique; [done|]. by apply Hin; [left|]. }
    rewrite decide_False by naive_solver.
    apply IH; try done; intros; [apply Hsc; by right|apply Hin; [by right|done]|apply Hnew; [by right|done]].
  - destruct (append_row result f v Hs Hv) as [Hs' Ht'].
    set (result' := rstrip_char newline result +:+ nl +:+ nl +:+ field_row f v +:+ nl) in *.
    assert (Hk' : NoDup (field_texts result').*1).
    { rewrite Ht', fmap_app. apply NoDup_app. split; [done|]. split; [|by repeat constructor; set_solver].
      intros x Hx ->%list_elem_of_singleton. by apply (Hnew f); [left| |]. }
    rewrite bool_decide_true; cbn [negb raise_if].
    2:{ rewrite field_bodies_texts. apply filter_key_unique; [done|]. rewrite Ht'.
        apply elem_of_app. right. by left. }
    destruct (IH result') as (final & E & Hs'' & Ht''); try done.
    + intros; apply Hsc; by right.
    + intros g w Hg Hgn. rewrite Ht'. apply elem_of_app. left. by apply Hin; [right|].
    + intros g Hg Hgn. rewrite Ht', fmap_app. rewrite not_elem_of_app. split.
      * apply Hnew; [by right|done].
      * intros ->%list_elem_of_singleton. done.
    + exists final. split; [done|]. split; [done|]. rewrite Ht'', Ht', <-app_assoc.
      rewrite decide_True by done. done.
Qed.

(** *** The bytes of the edit *)

Fixpoint concat_str (parts : list string) : string :=
  match parts with [] => "" | p :: parts => p +:+ concat_str parts end.
Definition slice (body : string) (start stop : nat) : string := str_drop start (str_take stop body).

(** The body up to its first row, then each row as it was or as it is replaced. *)
Definition piece (body : string) (replacements : pydict CriterionField string)
    (row : _CriterionRow) : string :=
  match dict_get replacements (row_label row) with
  | Some value => written (row_label row) value
  | None => slice body (row_begin row) (row_end row)
  end.
Definition spliced (body : string) (replacements : pydict CriterionField string) : string :=
  let rows := _criterion_rows body in
  match rows with
  | [] => body
  | first :: _ =>
      str_take (row_begin first) body +:+
      concat_str (piece body replacements <$> rows)
  end.
Definition appended (absent : pydict CriterionField string) (text : string) : string :=
  foldl (λ text fr, rstrip_char newline text +:+ nl +:+ nl +:+ field_row fr.1 fr.2 +:+ nl)
    text absent.

Lemma blocks_lines open ls pre texts bs :
  blocks (@fst string string) open ls = (pre, texts, bs) → ls = pre ++ lines_of bs.
Proof.
  revert open pre texts bs. induction ls as [|l ls IH]; intros open pre texts bs.
  { by intros [= <- <- <-]. }
  cbn [blocks]. destruct (visible_line open l.1) as [opened [[label t]|t]];
    destruct (blocks fst opened ls) as [[pre' texts'] bs'] eqn:E;
    intros [= <- <- <-]; by rewrite (IH _ _ _ _ E).
Qed.

Lemma lines_of_cons {A} (b : block A) bs : lines_of (b :: bs) = block_lines b ++ lines_of bs.
Proof. done. Qed.

Lemma splice_bytes replacements bs before body :
  NoDup (dict_keys replacements) → body = before +:+ unlines (lines_of bs) →
  let rows := rows_of (String.length before) bs in
  foldr (replace_row replacements) body rows
    = before +:+ concat_str (piece body replacements <$> rows).
Proof.
  intros Hnd. revert before. induction bs as [|b bs IH]; intros before Eb; [by subst|].
  cbv zeta in IH |- *. cbn [rows_of foldr]. rewrite fmap_cons.
  rewrite lines_of_cons, unlines_app, str_app_assoc in Eb.
  rewrite <-(str_length_app before (unlines (block_lines b))).
  rewrite (IH _ Eb). rewrite replace_row_get by done. cbn [concat_str].
  set (rest := concat_str (piece body replacements <$> _)). unfold piece.
  cbn [row_label row_begin row_end].
  destruct (dict_get replacements (block_label b)) as [v|].
  - rewrite str_drop_app. f_equal.
    by rewrite <-(str_app_assoc before (unlines (block_lines b))), str_take_app.
  - unfold slice. rewrite Eb. by rewrite str_take_app, str_drop_app, <-str_app_assoc.
Qed.

Lemma first_pass_bytes body replacements :
  NoDup (dict_keys replacements) →
  foldr (replace_row replacements) body (_criterion_rows body) = spliced body replacements.
Proof.
  intros Hnd. destruct (blocks fst closed (splitlines_keep body)) as [[pre texts] bs] eqn:E.
  pose proof (blocks_lines _ _ _ _ _ E) as El.
  assert (body = unlines pre +:+ unlines (lines_of bs)) as Eb.
  { by rewrite <-unlines_app, <-El, splitlines_keep_unlines. }
  unfold spliced. rewrite (criterion_rows_blocks _ _ _ _ E).
  rewrite (splice_bytes _ _ _ _ Hnd Eb). destruct bs as [|b bs].
  - by symmetry.
  - cbn [rows_of row_begin]. f_equal. rewrite Eb. by rewrite str_take_app.
Qed.

Lemma second_pass_bytes names replacements text final :
  foldM (append_field names) text replacements = Ok final →
  final = appended (filter (λ fr, fr.1 ∉ names) replacements) text.
Proof.
  revert text. induction replacements as [|[f v] reps IH]; intros text; [by intros [= ->]|].
  cbn [foldM]. destruct (append_field names text (f, v)) as [t|] eqn:E; [|done].
  intros H. rewrite (IH _ H). unfold append_field in E. apply raise_if_ok in E as [_ [= <-]].
  rewrite filter_cons. cbn [fst snd].
  destruct (decide (f ∈ names)) as [Hin|Hin].
  - by rewrite decide_False by naive_solver.
  - by rewrite decide_True by done.
Qed.

Lemma labels_rows body : (field_texts body).*1 = row_label <$> _criterion_rows body.
Proof. unfold field_texts. by rewrite <-list_fmap_compose. Qed.

Lemma labels_unambiguous body :
  _duplicated (field_name <$> (row_label <$> _criterion_rows body)) = []
  ↔ NoDup (field_texts body).*1.
Proof.
  rewrite duplicated_nil, labels_rows. apply NoDup_fmap. intros f g. apply field_name_inj.
Qed.

Lemma duplicated_row_labels_nil body : duplicated_row_labels body = [] ↔ NoDup (field_texts body).*1.
Proof. rewrite <-labels_unambiguous, <-list_fmap_compose. done. Qed.

(** On a body that is settled, with replacements that stay inside their row, the edit
    returns, and each field reads as it was set. *)
Lemma replace_reads body replacements :
  NoDup (dict_keys replacements) → NoDup (field_texts body).*1 → settled body = true →
  (∀ field value, (field, value) ∈ replacements → self_contained field value = true) →
  ∃ final, replace_criterion_fields body replacements = Ok final
    ∧ settled final = true
    ∧ field_texts final = edited_fields (field_texts body) replacements.
Proof.
  intros Hkeys Hn Hs Hsc. unfold replace_criterion_fields.
  rewrite bool_decide_true by by apply labels_unambiguous.
  cbn [negb raise_if]. rewrite <-labels_rows.
  assert (∀ f v, dict_get replacements f = Some v → self_contained f v = true) as Hget
    by (intros f v ?%dict_get_elem; by apply Hsc).
  destruct (first_pass replacements Hget body Hkeys Hs) as [Hs' Ht'].
  set (text := foldr _ _ _) in *.
  assert ((field_texts text).*1 = (field_texts body).*1) as Ek.
  { rewrite Ht', <-list_fmap_compose. by apply list_fmap_ext. }
  destruct (second_pass (field_texts body).*1 replacements text) as (final & E & Hf & Htf);
    try done; [|by rewrite Ek|by intros f _; rewrite Ek|].
  - intros f v Hin ([f' t] & -> & Hft)%list_elem_of_fmap. cbn [fst] in *. rewrite Ht'.
    apply list_elem_of_fmap. exists (f', t). split; [|done]. cbn [fst snd].
    by rewrite (dict_get_NoDup _ _ _ Hkeys Hin).
  - exists final. split; [done|]. split; [done|]. unfold edited_fields. by rewrite Htf, Ht'.
Qed.

(** The fields an edit leaves are one per label, the addressed ones as they were set. *)
Lemma edited_labels fields replacements :
  NoDup fields.*1 → NoDup (dict_keys replacements) →
  NoDup (edited_fields fields replacements).*1.
Proof.
  intros Hf Hr. unfold edited_fields. rewrite fmap_app, <-!list_fmap_compose.
  apply NoDup_app. split; [|split].
  - by rewrite (list_fmap_ext _ fst).
  - intros f Hin ([g v] & -> & Hg)%list_elem_of_fmap.
    apply list_elem_of_filter in Hg as [Hg _]. apply Hg. cbn [fst].
    rewrite (list_fmap_ext _ fst) in Hin; [done|done].
  - rewrite (list_fmap_ext _ fst) by done. by apply NoDup_fmap_filter.
Qed.

Lemma edited_reads fields replacements f v :
  NoDup (dict_keys replacements) → (f, v) ∈ replacements →
  (f, strip v) ∈ edited_fields fields replacements.
Proof.
  intros Hr Hin. unfold edited_fields. apply elem_of_app.
  destruct (decide (f ∈ fields.*1)) as [Hf|Hf].
  - left. apply list_elem_of_fmap in Hf as ([g w] & -> & Hg).
    apply list_elem_of_fmap. exists (g, w). split; [|done]. cbn [fst snd] in *.
    by rewrite (dict_get_NoDup _ _ _ Hr Hin).
  - right. apply list_elem_of_fmap. exists (f, v). split; [done|]. by apply list_elem_of_filter.
Qed.

(** The amendment edit. A body with two rows of one label is refused. Whatever the
    edit returns is the body with each addressed row, and only those, rewritten in
    place, and the fields it had no row for appended in order: every other byte is the
    body's own. And on a body whose rows all open with no fence or comment open, for
    replacements that stay inside their row, it does return: every addressed field then
    reads back as its stripped replacement, every other field as before, in the same
    order, and the result can be edited again. *)
Theorem replace_criterion_fields_spec (body : string)
    (replacements : pydict CriterionField string) (Hkeys : NoDup (dict_keys replacements)) :
  let labels := (field_texts body).*1 in
  (¬ NoDup labels → replace_criterion_fields body replacements
     = Err (ValueError "criterion amendment requires unambiguous template rows"))
  ∧ (∀ final, replace_criterion_fields body replacements = Ok final →
       NoDup labels
       ∧ final = appended (filter (λ fr, fr.1 ∉ labels) replacements) (spliced body replacements))
  ∧ (NoDup labels → settled body = true →
     (∀ field value, (field, value) ∈ replacements → self_contained field value = true) →
     ∃ final, replace_criterion_fields body replacements = Ok final
       ∧ settled final = true
       ∧ field_texts final = edited_fields (field_texts body) replacements).
Proof.
  cbv zeta. split; [|split].
  - intros Hn. unfold replace_criterion_fields.
    by rewrite bool_decide_false by by rewrite labels_unambiguous.
  - intros final. unfold replace_criterion_fields.
    rewrite raise_if_ok, negb_false_iff, bool_decide_eq_true, labels_unambiguous.
    intros [Hn H]. split; [done|]. rewrite <-first_pass_bytes by done.
    rewrite labels_rows. by apply second_pass_bytes.
  - by apply replace_reads.
Qed.

Definition sample_body : string :=
  "Intro" +:+ nl +:+ "**Check:** old <!-- note -->" +:+ nl +:+ "```" +:+ nl
  +:+ "**Do:** quoted" +:+ nl +:+ "```" +:+ nl +:+ "**Do:** work" +:+ nl.

Example replace_criterion_fields_spec_witness :
  ∃ final, replace_criterion_fields sample_body [(F_EVIDENCE, "seen"); (F_CHECK, " new ")] = Ok final
    ∧ settled final = true
    ∧ field_texts final = [(F_CHECK, "new"); (F_DO, "work"); (F_EVIDENCE, "seen")].
Proof.
  apply (replace_criterion_fields_spec sample_body [(F_EVIDENCE, "seen"); (F_CHECK, " new ")]).
  - apply (bool_decide_unpack _). by vm_compute.
  - apply (bool_decide_unpack _). by vm_compute.
  - by vm_compute.
  - intros field value [[= -> ->]|[[= -> ->]|[]%elem_of_nil]%elem_of_cons]%elem_of_cons;
      by vm_compute.
Defined.
