(* ===== verification/Gap.v ===== *)
(** * Gap membership over criterion sub-issues (domain/gap.py, types/domain/gap.py). *)

From S2P Require Import Prelude PyStr Tracker Errors.

Inductive GapMembership := OWED | DISCHARGED | EXCLUDED.
#[export] Instance GapMembership_eq_dec : EqDecision GapMembership.
Proof. solve_decision. Defined.

Record CriterionGap := { owed : list TrackerIssue; excluded : list string }.
#[export] Instance CriterionGap_eq_dec : EqDecision CriterionGap.
Proof. solve_decision. Defined.

Definition state_membership (state_kind : WorkflowStateKind) : GapMembership :=
  match state_kind with
  | COMPLETED => DISCHARGED
  | CANCELED => EXCLUDED
  | DUPLICATE => EXCLUDED
  | TRIAGE => OWED
  | BACKLOG => OWED
  | UNSTARTED => OWED
  | STARTED => OWED
  end.

Definition gap_membership (criterion : TrackerIssue) : result exn GapMembership :=
  raise_if (negb (has_label "criterion" criterion))
    (ValueError "gap membership requires a criterion sub-issue")
    (Ok (state_membership (state_kind criterion))).

Definition open_state_kind (state_kind : WorkflowStateKind) : bool :=
  bool_decide (state_membership state_kind = OWED).

Definition compute_gap (criteria : list TrackerIssue) : result exn CriterionGap :=
  raise_if (negb (bool_decide
      (size (list_to_set (issue_key <$> criteria) : gset string) = length criteria)))
    (ValueError "a criterion identity appears more than once")
    (memberships ← mapM (λ criterion, m ← gap_membership criterion; mret (criterion, m)) criteria;
     mret {|
       owed := (filter (λ cm, cm.2 = OWED) memberships).*1;
       excluded := issue_key <$> (filter (λ cm, cm.2 = EXCLUDED) memberships).*1;
     |}).

(** ** Lemmas *)

Definition is_criterion (issue : TrackerIssue) : bool := has_label "criterion" issue.

(** What a well-formed criterion list owes and leaves out, read off the states. *)
Definition gap_of (criteria : list TrackerIssue) : CriterionGap := {|
  owed := filter (λ c, open_state_kind (state_kind c) = true) criteria;
  excluded := issue_key <$> filter (λ c, is_non_counting (state_kind c) = true) criteria;
|}.

Lemma open_state_kind_is_open kind : open_state_kind kind = is_open kind.
Proof. by destruct kind. Qed.

Lemma excluded_is_non_counting kind :
  state_membership kind = EXCLUDED ↔ is_non_counting kind = true.
Proof. by destruct kind. Qed.

Lemma mapM_gap_membership criteria ms :
  mapM (λ criterion, m ← gap_membership criterion; mret (criterion, m)) criteria = Ok ms ↔
  Forall (λ c, is_criterion c = true) criteria
  ∧ ms = (λ c, (c, state_membership (state_kind c))) <$> criteria.
Proof.
  assert (∀ c p, (m ← gap_membership c; mret (c, m)) = Ok p ↔
    is_criterion c = true ∧ p = (c, state_membership (state_kind c))) as Hm.
  { intros c p. unfold gap_membership, is_criterion.
    destruct (has_label "criterion" c); simpl.
    - split; [by intros [= <-]|by intros [_ ->]].
    - split; [done|by intros [? _]]. }
  rewrite mapM_ok. split.
  - induction 1 as [|c p cs ps Hp _ [IH1 IH2]]; [done|].
    apply Hm in Hp as [? ->]. split; [by constructor|]. by rewrite IH2.
  - intros [Hc ->]. induction Hc as [|c cs Hc _ IH]; simpl; constructor; [|done].
    by apply Hm.
Qed.

Lemma filter_memberships criteria m :
  (filter (λ cm, cm.2 = m)
     ((λ c, (c, state_membership (state_kind c))) <$> criteria)).*1
  = filter (λ c, state_membership (state_kind c) = m) criteria.
Proof.
  induction criteria as [|c cs IH]; [done|]. cbn [fmap list_fmap].
  rewrite !filter_cons. simpl. case_decide; [|done].
  rewrite fmap_cons. by f_equal.
Qed.

Lemma compute_gap_ok criteria g :
  compute_gap criteria = Ok g ↔
  NoDup (issue_key <$> criteria) ∧ Forall (λ c, is_criterion c = true) criteria
  ∧ g = gap_of criteria.
Proof.
  unfold compute_gap. rewrite raise_if_ok, negb_false_iff, bool_decide_eq_true.
  rewrite <-(length_fmap issue_key), size_list_to_set_NoDup.
  assert (∀ m P, (∀ k, state_membership k = m ↔ P k = true) →
    filter (λ c, state_membership (state_kind c) = m) criteria
    = filter (λ c, P (state_kind c) = true) criteria) as Hf.
  { intros m P HP. apply list_filter_iff. intros c. apply HP. }
  apply and_iff_compat_l.
  assert (∀ ms, ms = (λ c, (c, state_membership (state_kind c))) <$> criteria →
    {| owed := (filter (λ cm, cm.2 = OWED) ms).*1;
       excluded := issue_key <$> (filter (λ cm, cm.2 = EXCLUDED) ms).*1 |}
    = gap_of criteria) as Hg.
  { intros ms ->. rewrite !filter_memberships, (Hf OWED open_state_kind),
      (Hf EXCLUDED is_non_counting); [done|by intros []..]. }
  split.
  - intros E. ok_inv. apply mapM_gap_membership in Hv as [Hc ?].
    split; [done|]. subst g. by apply Hg.
  - intros [Hc ->]. rewrite (proj2 (mapM_gap_membership _ _) (conj Hc eq_refl)).
    simpl. by rewrite Hg.
Qed.

(** The gap. It is computed exactly from a list of distinct criteria; then it owes,
    in the list's order, the criteria whose state is open, leaves out, by key, those
    whose state does not count, and every other criterion is completed work. Any other
    list is refused. *)
Theorem compute_gap_spec criteria :
  match compute_gap criteria with
  | Ok g =>
      NoDup (issue_key <$> criteria) ∧ Forall (λ c, is_criterion c = true) criteria
      ∧ owed g = filter (λ c, is_open (state_kind c) = true) criteria
      ∧ excluded g = issue_key <$> filter (λ c, is_non_counting (state_kind c) = true) criteria
      ∧ ∀ c, c ∈ criteria → c ∈ owed g ∨ issue_key c ∈ excluded g ∨ state_kind c = COMPLETED
  | Err _ => ¬ NoDup (issue_key <$> criteria) ∨ ∃ c, c ∈ criteria ∧ is_criterion c = false
  end.
Proof.
  destruct (compute_gap criteria) as [g|e] eqn:E.
  - apply compute_gap_ok in E as (Hnd & Hc & ->). cbn. split_and!; [done..| |done|].
    { apply list_filter_iff. intros c. by rewrite open_state_kind_is_open. }
    intros c Hin. rewrite list_elem_of_filter, list_elem_of_fmap.
    setoid_rewrite list_elem_of_filter.
    destruct (state_kind c) eqn:Hk; [by left..|by right; right| |];
      right; left; exists c; by rewrite Hk.
  - destruct (decide (NoDup (issue_key <$> criteria))) as [Hnd|Hnd]; [right|by left].
    destruct (decide (Forall (λ c, is_criterion c = true) criteria)) as [Hc|Hc].
    + assert (compute_gap criteria = Ok (gap_of criteria)) by by apply compute_gap_ok.
      congruence.
    + apply not_Forall_Exists in Hc; [|by intros c; apply _].
      apply Exists_exists in Hc as (c & Hin & Hn). exists c. split; [done|].
      cbn in Hn. by destruct (is_criterion c).
Qed.
