(* ===== verification/IssueTree.v ===== *)
(** * The closure of an issue's subtree (domain/issue_tree.py).

    The index of an addressed tree, and the one arithmetic over it: what an issue still
    owes and the roster it owes it from. Both searches keep an explicit stack; a step
    function and fuel stand for each loop, and the theorems show which stacks end. *)

From S2P Require Import Prelude PyStr Tracker Errors Gap.

Local Open Scope nat_scope.

Definition RECORD_KINDS : list string := ["tracker"; "decision"].

Definition is_record (issue : TrackerIssue) : bool := existsb (λ l, has_label l issue) RECORD_KINDS.

(** [d.setdefault(k, []).append(v)] *)
Definition dict_append {A} (d : pydict string (list A)) (k : string) (v : A) : pydict string (list A) :=
  dict_set d k (default [] (dict_get d k) ++ [v]).

(** A loop that may not end, and may raise: [None] when the fuel is out. *)
Definition looping (A : Type) : Type := option (result exn A).
#[export] Instance looping_ret : MRet looping := λ A a, Some (Ok a).
#[export] Instance looping_bind : MBind looping := λ A B f m,
  match m with Some (Ok a) => f a | Some (Err e) => Some (Err e) | None => None end.
Definition straight {A} (r : result exn A) : looping A := Some r.

(** ** The index of a tree *)

Notation facts_t := (pydict string TrackerIssue).

Definition index_row (root : string) (ref : ScopeRef) (s : facts_t * pydict string (list string))
    (issue : TrackerIssue) : result exn (facts_t * pydict string (list string)) :=
  let key := issue_key issue in
  raise_if (dict_mem s.1 key) (ScopeReadError "duplicate subtree issue" ref)
    (let facts := dict_set s.1 key issue in
     if decide (key = root) then Ok (facts, s.2)
     else match parent_key issue with
          | None => Err (ScopeReadError "subtree member has no parent" ref)
          | Some parent => Ok (facts, dict_append s.2 parent key)
          end).

(** [while pending: key = pending.pop() ...]; the end of the Python list is the head. *)
Fixpoint visit (fuel : nat) (ref : ScopeRef) (children : pydict string (list string))
    (visited : gset string) (pending : list string) : looping (gset string) :=
  match pending with
  | [] => mret visited
  | key :: pending =>
      match fuel with
      | 0 => None
      | S fuel =>
          if decide (key ∈ visited) then straight (Err (ScopeReadError "subtree parent cycle" ref))
          else visit fuel ref children ({[ key ]} ∪ visited)
                 (reverse (default [] (dict_get children key)) ++ pending)
      end
  end.

Definition index_issue_tree (root : string) (rows : list TrackerIssue) (ref : ScopeRef) : looping facts_t :=
  s ← straight (foldM (index_row root ref) ([], []) rows);
  let '(facts, children) := s in
  match dict_get facts root with
  | None => straight (Err (ScopeReadError "subtree root is missing" ref))
  | Some root_issue =>
      visited ← visit (S (length facts)) ref children ∅ [root];
      straight
        (raise_if (negb (bool_decide (visited = list_to_set (dict_keys facts))))
           (ScopeReadError "subtree has disconnected or cyclic parentage" ref)
        (raise_if (match parent_key root_issue with Some p => dict_mem facts p | None => false end)
           (ScopeReadError "subtree root has an internal parent" ref)
           (Ok facts)))
  end.

(** ** The closure *)

Record SubtreeClosure := {
  facts : facts_t;
  closure_ref : ScopeRef;
  held : list string;
  children : pydict string (list TrackerIssue);
}.

Definition add_closure_child (facts : facts_t) (d : pydict string (list TrackerIssue)) (issue : TrackerIssue) :
    pydict string (list TrackerIssue) :=
  match parent_key issue with
  | Some p => if dict_mem facts p then dict_append d p issue else d
  | None => d
  end.

Definition make_closure (facts : facts_t) (ref : ScopeRef) (held : list string) : SubtreeClosure := {|
  facts := facts; closure_ref := ref; held := held;
  children := foldl (add_closure_child facts) [] (dict_values facts) |}.

(** What the walks assembled so far: the gaps and the rosters. *)
Record readings := { gaps : pydict string (list TrackerIssue); rosters : pydict string (list TrackerIssue) }.
Definition no_readings : readings := {| gaps := []; rosters := [] |}.

Section closure.
Context (self : SubtreeClosure).

Definition children_of (key : string) : list TrackerIssue := default [] (dict_get (children self) key).

Definition criteria (key : string) : result exn (list TrackerIssue) :=
  let found := filter (λ row, has_label "criterion" row = true) (children_of key) in
  raise_if (bool_decide (found = [])) (EmptyFireCriteriaError key) (Ok found).

Definition set_reading (m : readings) (key : string) (roster gap : list TrackerIssue) : readings :=
  {| gaps := dict_set (gaps m) key gap; rosters := dict_set (rosters m) key roster |}.

(** [tuple(row for child in children for row in d[child.issue_key])] *)
Definition gather (d : pydict string (list TrackerIssue)) (rows : list TrackerIssue) :
    result exn (list TrackerIssue) :=
  mjoin <$> mapM (λ child, match dict_get d (issue_key child) with
                           | Some l => Ok l
                           | None => Err (KeyError (issue_key child))
                           end) rows.

(** One turn of the loop: the readings, and what it pushes. *)
Definition walk_turn (m : readings) (current : string) (expanded : bool) :
    result exn (readings * list (string * bool)) :=
  if dict_mem (gaps m) current then Ok (m, [])
  else match dict_get (facts self) current with
  | None => Err (KeyError current)
  | Some issue =>
      let below := children_of current in
      if has_label "criterion" issue then
        raise_if (negb (bool_decide (below = []))) (ScopeReadError "criterion has child issues" (closure_ref self))
          (g ← compute_gap [issue]; Ok (set_reading m current [issue] (owed g), []))
      else if is_record issue && negb (bool_decide (current ∈ held self)) then
        raise_if (negb (bool_decide (below = []))) (ScopeReadError "record issue has child issues" (closure_ref self))
          (Ok (set_reading m current [] [], []))
      else if expanded then
        roster ← gather (rosters m) below;
        gap ← gather (gaps m) below;
        Ok (set_reading m current roster gap, [])
      else
        _ ← criteria current;
        Ok (m, reverse ((λ child, (issue_key child, false)) <$> below) ++ [(current, true)])
  end.

Fixpoint walk_loop (fuel : nat) (m : readings) (pending : list (string * bool)) : looping readings :=
  match pending with
  | [] => mret m
  | (current, expanded) :: pending =>
      match fuel with
      | 0 => None
      | S fuel =>
          match walk_turn m current expanded with
          | Ok (m, pushed) => walk_loop fuel m (pushed ++ pending)
          | Err e => straight (Err e)
          end
      end
  end.

(** Two turns an issue, and the one that finds the root read. *)
Definition walk_fuel : nat := S (2 * length (facts self)).

Definition _walk (m : readings) (key : string) : looping readings := walk_loop walk_fuel m [(key, false)].

Definition gap_or_roster (read : readings → pydict string (list TrackerIssue)) (m : readings) (key : string) :
    looping (readings * list TrackerIssue) :=
  m ← _walk m key;
  straight (match dict_get (read m) key with Some l => Ok (m, l) | None => Err (KeyError key) end).
Definition gap := gap_or_roster gaps.
Definition roster := gap_or_roster rosters.

Definition is_closed (m : readings) (key : string) : looping (readings * bool) :=
  r ← gap m key; mret (r.1, bool_decide (r.2 = [])).

Definition scope_gap : result exn CriterionGap :=
  compute_gap (filter (λ i, has_label "criterion" i = true) (dict_values (facts self))).
End closure.

(** ** What a tree is *)

Definition keyed_rows (rows : list TrackerIssue) : facts_t := (λ i, (issue_key i, i)) <$> rows.

(** The keys parentage leads from to [root]. *)
Inductive beneath (root : string) (rows : list TrackerIssue) : string → Prop :=
| beneath_root : beneath root rows root
| beneath_child i p : i ∈ rows → issue_key i ≠ root → parent_key i = Some p →
    beneath root rows p → beneath root rows (issue_key i).

(** Only a returned answer is a value of a reading that ended. *)
Lemma straight_ok {A} (r : result exn A) a : straight r = Some (Ok a) ↔ r = Ok a.
Proof. unfold straight. split; [by intros [= ->]|by intros ->]. Qed.

Record rooted_tree (root : string) (rows : list TrackerIssue) : Prop := {
  rooted_once : NoDup (issue_key <$> rows);
  rooted_there : root ∈ issue_key <$> rows;
  rooted_beneath i : i ∈ rows → beneath root rows (issue_key i);
  rooted_top i p : i ∈ rows → issue_key i = root → parent_key i = Some p → p ∉ issue_key <$> rows;
}.

Lemma dict_append_get {A} (d : pydict string (list A)) k v j :
  default [] (dict_get (dict_append d k v) j) = default [] (dict_get d j) ++ (if decide (k = j) then [v] else []).
Proof.
  unfold dict_append. rewrite dict_get_set. case_decide; subst; [done|by rewrite app_nil_r].
Qed.

Lemma keyed_rows_keys rows : dict_keys (keyed_rows rows) = issue_key <$> rows.
Proof. unfold dict_keys, keyed_rows. by rewrite <-list_fmap_compose. Qed.

Section index.
Context (root : string) (ref : ScopeRef).

(** The rows that hang under [p], by their parent. *)
Definition hang (rows : list TrackerIssue) (p : string) : list string :=
  issue_key <$> filter (λ i, issue_key i ≠ root ∧ parent_key i = Some p) rows.

Definition indexed (rows : list TrackerIssue) : Prop :=
  NoDup (issue_key <$> rows) ∧ Forall (λ i, issue_key i ≠ root → is_Some (parent_key i)) rows.

Lemma index_rows_app rows f c :
  match foldM (index_row root ref) (f, c) rows with
  | Ok (f', c') =>
      f' = f ++ keyed_rows rows ∧ NoDup (issue_key <$> rows) ∧ (∀ k, k ∈ issue_key <$> rows → k ∉ dict_keys f)
      ∧ Forall (λ i, issue_key i ≠ root → is_Some (parent_key i)) rows
      ∧ ∀ p, default [] (dict_get c' p) = default [] (dict_get c p) ++ hang rows p
  | Err e => (∃ m, e = ScopeReadError m ref)
      ∧ ¬ (indexed rows ∧ ∀ k, k ∈ issue_key <$> rows → k ∉ dict_keys f)
  end.
Proof.
  revert f c. induction rows as [|i rows IH]; intros f c; cbn [foldM].
  { unfold hang. cbn. split_and!; [by rewrite app_nil_r|constructor|set_solver|done|]. intros p. by rewrite app_nil_r. }
  unfold index_row at 1. cbn [fst snd]. unfold dict_mem. case_bool_decide as Hin; cbn [raise_if].
  { split; [eauto|]. intros [_ H]. apply (H (issue_key i)); [left|done]. }
  rewrite dict_set_fresh by done.
  assert (∀ c', (∀ p, default [] (dict_get c' p)
      = default [] (dict_get c p) ++ hang [i] p) → (issue_key i ≠ root → is_Some (parent_key i)) →
    match foldM (index_row root ref) (f ++ [(issue_key i, i)], c') rows with
    | Ok (f', c'') => f' = f ++ keyed_rows (i :: rows) ∧ NoDup (issue_key <$> i :: rows)
        ∧ (∀ k, k ∈ issue_key <$> i :: rows → k ∉ dict_keys f)
        ∧ Forall (λ i, issue_key i ≠ root → is_Some (parent_key i)) (i :: rows)
        ∧ ∀ p, default [] (dict_get c'' p) = default [] (dict_get c p) ++ hang (i :: rows) p
    | Err e => (∃ m, e = ScopeReadError m ref)
        ∧ ¬ (indexed (i :: rows) ∧ ∀ k, k ∈ issue_key <$> i :: rows → k ∉ dict_keys f)
    end) as Hnext.
  { intros c' Hc' Hp. specialize (IH (f ++ [(issue_key i, i)]) c').
    assert (∀ k, k ∈ dict_keys (f ++ [(issue_key i, i)]) ↔ k ∈ dict_keys f ∨ k = issue_key i) as Hk.
    { intros k. unfold dict_keys. rewrite fmap_app, elem_of_app. cbn. by rewrite list_elem_of_singleton. }
    destruct (foldM _ _ rows) as [[f' c'']|e].
    - destruct IH as (-> & Hnd & Hnew & Hf & Hget). cbn. rewrite <-app_assoc. split_and!; [done|..].
      + constructor; [|done]. intros Hi. apply (Hnew _ Hi), Hk. by right.
      + intros k [->|Hi]%elem_of_cons; [done|]. intros Hf'. apply (Hnew _ Hi), Hk. by left.
      + by constructor.
      + intros p. rewrite Hget, Hc', <-app_assoc. f_equal. unfold hang. rewrite <-fmap_app.
        by rewrite <-(filter_app _ [i] rows).
    - destruct IH as [He Hno]. split; [done|]. intros [[Hnd Hf] Hnew]. apply Hno.
      apply NoDup_cons in Hnd as [Hi Hnd]. apply Forall_cons in Hf as [_ Hf]. split; [done|].
      intros k Hk' [Hf'| ->]%Hk; [|done]. by apply (Hnew k); [right|]. }
  case_decide as Hr.
  - apply Hnext; [|by intros]. intros p. unfold hang. rewrite filter_cons_False by naive_solver.
    cbn. by rewrite app_nil_r.
  - destruct (parent_key i) as [q|] eqn:Eq.
    + apply Hnext; [|by eexists]. intros p. rewrite dict_append_get. f_equal. unfold hang.
      rewrite filter_cons, Eq. repeat case_decide; naive_solver.
    + split; [eauto|]. intros [[_ Hf] _]. apply Forall_cons in Hf as [Hf _]. rewrite Eq in Hf.
      by destruct (Hf Hr).
Qed.

(** ** The search from the root *)

Section search.
Context (rows : list TrackerIssue) (children : pydict string (list string)).
Context (Hnd : NoDup (issue_key <$> rows)) (Hroot : root ∈ issue_key <$> rows).
Context (Hch : ∀ p, default [] (dict_get children p) = hang rows p).

Lemma elem_of_hang p k :
  k ∈ hang rows p ↔ ∃ i, i ∈ rows ∧ issue_key i = k ∧ k ≠ root ∧ parent_key i = Some p.
Proof.
  unfold hang. rewrite list_elem_of_fmap. setoid_rewrite list_elem_of_filter. naive_solver.
Qed.

Lemma same_row i j : i ∈ rows → j ∈ rows → issue_key i = issue_key j → i = j.
Proof. by apply NoDup_fmap_elem. Qed.

Lemma hang_unique p q k : k ∈ hang rows p → k ∈ hang rows q → p = q.
Proof.
  rewrite !elem_of_hang. intros (i & Hi & Ek & _ & Hp) (j & Hj & Ek' & _ & Hq).
  rewrite (same_row i j) in Hp by congruence. congruence.
Qed.

Lemma hang_NoDup p : NoDup (hang rows p).
Proof. by apply NoDup_fmap_filter. Qed.

Record searched (visited : gset string) (pending : list string) : Prop := {
  searched_once : NoDup pending;
  searched_apart k : k ∈ pending → k ∉ visited;
  searched_beneath k : k ∈ visited ∨ k ∈ pending → beneath root rows k ∧ k ∈ issue_key <$> rows;
  searched_children k c : k ∈ visited → c ∈ hang rows k → c ∈ visited ∨ c ∈ pending;
  searched_parent c : c ∈ visited ∨ c ∈ pending → c ≠ root → ∃ p, p ∈ visited ∧ c ∈ hang rows p;
  searched_root : root ∈ visited ∨ root ∈ pending;
}.

Lemma in_reverse {A} (x : A) l : x ∈ reverse l → x ∈ l.
Proof. by rewrite elem_of_reverse. Qed.

Lemma searched_start : searched ∅ [root].
Proof.
  split; try set_solver.
  - apply NoDup_singleton.
  - intros k [?| ->%list_elem_of_singleton]; [set_solver|]. split; [constructor|done].
Qed.

Lemma searched_step key visited pending :
  searched visited (key :: pending) →
  key ∉ visited ∧ searched ({[ key ]} ∪ visited) (reverse (hang rows key) ++ pending).
Proof.
  intros [Hone Hap Hb Hc Hp Hr]. assert (key ∉ visited) as Hkey by (apply Hap; left).
  split; [done|]. apply NoDup_cons in Hone as [Hkp Hone].
  assert (∀ c, c ∈ hang rows key → c ≠ root ∧ c ∉ visited ∧ c ∉ key :: pending) as Hfresh.
  { intros c Hck. assert (c ≠ root) as Hcr by by apply elem_of_hang in Hck as (? & ? & ? & ? & ?).
    assert (¬ (c ∈ visited ∨ c ∈ key :: pending)) as Hn; [|tauto].
    intros Hin. destruct (Hp c Hin Hcr) as (p & Hpv & Hcp). by rewrite (hang_unique _ _ _ Hck Hcp) in Hkey. }
  split.
  - apply NoDup_app. split_and!; [rewrite reverse_Permutation; apply hang_NoDup| |done].
    intros c Hck%in_reverse Hpend. destruct (Hfresh c Hck) as (_ & _ & Hn). apply Hn. by right.
  - intros k [Hk%in_reverse|Hk]%elem_of_app.
    + destruct (Hfresh k Hk) as (_ & ? & Hn). set_solver.
    + pose proof (Hap k (list_elem_of_further _ _ _ Hk)). set_solver.
  - intros k [[->%elem_of_singleton|Hk]%elem_of_union|[Hk%in_reverse|Hk]%elem_of_app].
    + apply Hb. right. left.
    + apply Hb. by left.
    + apply elem_of_hang in Hk as (i & Hi & <- & Hne & Hpar). split; [|by apply list_elem_of_fmap_2].
      eapply beneath_child; [done..|]. apply Hb. right. left.
    + apply Hb. right. by right.
  - intros k c [->%elem_of_singleton|Hk]%elem_of_union Hck.
    + right. apply elem_of_app. left. by apply elem_of_reverse.
    + destruct (Hc k c Hk Hck) as [?|[->|?]%elem_of_cons]; set_solver.
  - intros c Hin Hcr. destruct (decide (c ∈ hang rows key)) as [Hck|Hck]; [exists key; set_solver|].
    destruct (Hp c) as (p & ? & ?); [|done|exists p; set_solver].
    destruct Hin as [[->%elem_of_singleton|?]%elem_of_union|[?%in_reverse|?]%elem_of_app];
      [right; left|by left|done|right; by right].
  - destruct Hr as [?|[<-|?]%elem_of_cons]; set_solver.
Qed.

Lemma searched_size visited pending : searched visited pending → size visited + length pending ≤ length rows.
Proof.
  intros [Hone Hap Hb _ _ _]. rewrite <-(length_fmap issue_key).
  rewrite <-(size_list_to_set (C := gset string) (issue_key <$> rows)) by done.
  rewrite <-(size_list_to_set (C := gset string) pending) by done.
  rewrite <-size_union by set_solver. apply subseteq_size. intros k.
  rewrite elem_of_union, !elem_of_list_to_set. intros Hk. by apply Hb.
Qed.

Lemma visit_searched fuel visited pending :
  searched visited pending → length rows - size visited ≤ fuel →
  ∃ v, visit fuel ref children visited pending = Some (Ok v) ∧ searched v [].
Proof.
  revert visited pending. induction fuel as [|fuel IH]; intros visited [|key pending] Hs Hf; cbn [visit];
    try (by exists visited).
  - pose proof (searched_size _ _ Hs). cbn in *. lia.
  - pose proof (searched_size _ _ Hs) as Hsz. apply searched_step in Hs as [Hkey Hs]. rewrite decide_False by done.
    rewrite Hch. apply IH; [done|]. rewrite size_union by set_solver. rewrite size_singleton. cbn in Hsz. lia.
Qed.

Lemma searched_end v : searched v [] → ∀ k, k ∈ v ↔ beneath root rows k.
Proof.
  intros [_ _ Hb Hc _ Hr] k. split; [intros Hk; by apply Hb; left|].
  induction 1 as [|i p Hi Hne Hpar _ IH]; [destruct Hr as [|?%elem_of_nil]; done|].
  destruct (Hc p (issue_key i) IH) as [|?%elem_of_nil]; [|done..].
  apply elem_of_hang. by exists i.
Qed.
End search.
End index.

(** ** The closure, read off the parentage *)

Section closure_spec.
Context (facts : facts_t) (ref : ScopeRef) (held : list string).
Context (Hkeys : NoDup (dict_keys facts)) (Hkeyed : ∀ k i, (k, i) ∈ facts → issue_key i = k).
Notation self := (make_closure facts ref held).

Definition below (p : string) : list TrackerIssue :=
  filter (λ i, parent_key i = Some p) (dict_values facts).

(** [under c p]: [c] is a child of [p]. *)
Definition under (c p : string) : Prop := ∃ i, i ∈ below p ∧ issue_key i = c.

Definition is_lane (k : string) (i : TrackerIssue) : Prop :=
  is_criterion i = false ∧ (is_record i = false ∨ k ∈ held).

(** What an issue's criteria are, by recursion on the tree. *)
Inductive roster_of : string → list TrackerIssue → Prop :=
| roster_criterion k i : dict_get facts k = Some i → is_criterion i = true → below k = [] → roster_of k [i]
| roster_record k i : dict_get facts k = Some i → is_criterion i = false → is_record i = true → k ∉ held →
    below k = [] → roster_of k []
| roster_lane k i rs : dict_get facts k = Some i → is_lane k i → (∃ c, c ∈ below k ∧ is_criterion c = true) →
    Forall2 (λ c r, roster_of (issue_key c) r) (below k) rs → roster_of k (mjoin rs).

(** Why a walk refuses an issue. *)
Inductive refuses : string → exn → Prop :=
| refuses_criterion k i : dict_get facts k = Some i → is_criterion i = true → below k ≠ [] →
    refuses k (ScopeReadError "criterion has child issues" ref)
| refuses_record k i : dict_get facts k = Some i → is_criterion i = false → is_record i = true → k ∉ held →
    below k ≠ [] → refuses k (ScopeReadError "record issue has child issues" ref)
| refuses_lane k i : dict_get facts k = Some i → is_lane k i → (∀ c, c ∈ below k → is_criterion c = false) →
    refuses k (EmptyFireCriteriaError k).

Definition open_of (r : list TrackerIssue) : list TrackerIssue := filter (λ c, is_open (state_kind c) = true) r.

(** The memory of the walks agrees with the recursion. *)
Definition true_readings (m : readings) : Prop := ∀ k,
  match dict_get (gaps m) k, dict_get (rosters m) k with
  | Some g, Some r => roster_of k r ∧ g = open_of r
  | None, None => True
  | _, _ => False
  end.

Lemma true_no_readings : true_readings no_readings.
Proof. by intros k. Qed.

Lemma closure_children p : p ∈ dict_keys facts → children_of self p = below p.
Proof.
  intros Hp. unfold children_of, below. cbn [children make_closure].
  enough (∀ d l, default [] (dict_get (foldl (add_closure_child facts) d l) p)
    = default [] (dict_get d p) ++ filter (λ i, parent_key i = Some p) l) as H by apply H.
  intros d l. revert d. induction l as [|i l IH]; intros d; cbn [foldl]; [by rewrite app_nil_r|].
  rewrite IH, filter_cons. unfold add_closure_child. destruct (parent_key i) as [q|] eqn:Eq.
  - unfold dict_mem. case_bool_decide as Hq.
    + rewrite dict_append_get, <-app_assoc. f_equal. repeat case_decide; naive_solver.
    + by rewrite decide_False by naive_solver.
  - by rewrite decide_False.
Qed.

Lemma facts_get k i : dict_get facts k = Some i → issue_key i = k.
Proof. intros H%dict_get_elem. by apply Hkeyed. Qed.

Lemma below_there c p : c ∈ below p → dict_get facts (issue_key c) = Some c ∧ issue_key c ∈ dict_keys facts.
Proof.
  intros [_ Hc]%list_elem_of_filter. apply list_elem_of_fmap in Hc as [[k i] [-> Hin]]. cbn.
  assert (dict_get facts (issue_key i) = Some i) as E.
  { apply dict_get_NoDup; [done|]. by rewrite (Hkeyed k i Hin). }
  split; [done|]. apply dict_get_is_Some. by eexists.
Qed.

Lemma under_there c p : under c p → c ∈ dict_keys facts.
Proof. intros (i & Hi & <-). by apply (below_there i p). Qed.

Lemma under_unique c p q : under c p → under c q → p = q.
Proof.
  intros (i & Hi & Hc) (j & Hj & <-). pose proof (below_there _ _ Hi) as [Ei _].
  pose proof (below_there _ _ Hj) as [Ej _]. rewrite Hc, Ej in Ei. injection Ei as ->.
  apply list_elem_of_filter in Hi as [Hi _], Hj as [Hj _]. congruence.
Qed.

Lemma below_NoDup p : NoDup (issue_key <$> below p).
Proof.
  unfold below. apply NoDup_fmap_filter. unfold dict_values.
  replace (issue_key <$> facts.*2) with (dict_keys facts); [done|].
  unfold dict_keys. rewrite <-list_fmap_compose. apply list_fmap_ext. intros n [k i] Hl. cbn. symmetry.
  by eapply Hkeyed, list_elem_of_lookup_2.
Qed.

(** ** One turn *)

Inductive turned (m : readings) (k : string) (expanded : bool) :
    result exn (readings * list (string * bool)) → Prop :=
| turned_again : k ∈ dict_keys (gaps m) → turned m k expanded (Ok (m, []))
| turned_read r m' : k ∉ dict_keys (gaps m) → roster_of k r → m' = set_reading m k r (open_of r) →
    turned m k expanded (Ok (m', []))
| turned_opened i : k ∉ dict_keys (gaps m) → expanded = false → dict_get facts k = Some i → is_lane k i →
    (∃ c, c ∈ below k ∧ is_criterion c = true) →
    turned m k expanded (Ok (m, reverse ((λ c, (issue_key c, false)) <$> below k) ++ [(k, true)]))
| turned_refused e : refuses k e → turned m k expanded (Err e).

Lemma compute_gap_single i : is_criterion i = true → compute_gap [i] = Ok (gap_of [i]).
Proof. intros Hi. apply compute_gap_ok. split; [apply NoDup_singleton|]. split; [by constructor|done]. Qed.

Lemma gather_read d rows rs (f : list TrackerIssue → list TrackerIssue) :
  Forall2 (λ c r, dict_get d (issue_key c) = Some (f r)) rows rs → gather d rows = Ok (mjoin (f <$> rs)).
Proof.
  intros H. unfold gather. replace (mapM _ rows) with (Ok (E := exn) (f <$> rs)); [done|].
  induction H as [|c r rows rs Hc _ IH]; [done|]. cbn. rewrite Hc. cbn. by rewrite <-IH.
Qed.

Lemma open_of_mjoin rs : mjoin (open_of <$> rs) = open_of (mjoin rs).
Proof.
  induction rs as [|r rs IH]; cbn; [done|]. change (open_of (r ++ mjoin rs)) with (filter (λ c, is_open (state_kind c) = true) (r ++ mjoin rs)).
  rewrite filter_app. by f_equal.
Qed.

Lemma open_of_criterion i : owed (gap_of [i]) = open_of [i].
Proof.
  unfold gap_of, open_of. cbn [owed]. apply list_filter_iff. intros x. by rewrite open_state_kind_is_open.
Qed.

Lemma walk_turn_turned m k expanded :
  true_readings m → k ∈ dict_keys facts →
  (expanded = true → ∃ i, dict_get facts k = Some i ∧ is_lane k i ∧ (∃ c, c ∈ below k ∧ is_criterion c = true)
     ∧ ∀ c, under c k → c ∈ dict_keys (gaps m)) →
  turned m k expanded (walk_turn self m k expanded).
Proof.
  intros Hm Hk Hex. unfold walk_turn, dict_mem. case_bool_decide as Hg; [by constructor|].
  apply dict_get_is_Some in Hk as [i Hi]. cbn [IssueTree.facts IssueTree.held closure_ref make_closure]. rewrite Hi.
  rewrite closure_children by by apply dict_get_is_Some; eexists.
  change (has_label "criterion" i) with (is_criterion i). destruct (is_criterion i) eqn:Ec.
  { case_bool_decide as Hb; cbn [negb raise_if]; [|by eapply turned_refused, refuses_criterion].
    rewrite compute_gap_single by done. cbn. eapply turned_read; [done|by eapply roster_criterion|].
    f_equal. apply open_of_criterion. }
  destruct (is_record i && negb (bool_decide (k ∈ held))) eqn:Er.
  { apply andb_true_iff in Er as [Er Hh]. apply negb_true_iff, bool_decide_eq_false in Hh.
    case_bool_decide as Hb; cbn [negb raise_if]; [|by eapply turned_refused, refuses_record].
    eapply turned_read; [done|by eapply roster_record|done]. }
  assert (is_lane k i) as Hlane.
  { split; [done|]. apply andb_false_iff in Er as [?|Hh]; [by left|].
    right. by apply negb_false_iff, bool_decide_eq_true in Hh. }
  clear Er.
  destruct expanded.
  - destruct (Hex eq_refl) as (j & _ & _ & Hcrit & Hall).
    assert (∃ rs, Forall2 (λ c r, roster_of (issue_key c) r ∧ dict_get (rosters m) (issue_key c) = Some r
              ∧ dict_get (gaps m) (issue_key c) = Some (open_of r)) (below k) rs) as [rs Hrs].
    { assert (∀ c, c ∈ below k → issue_key c ∈ dict_keys (gaps m)) as H by (intros c Hc; apply Hall; by exists c).
      clear -H Hm. induction (below k) as [|c l IH]; [by exists []|].
      destruct IH as [rs Hrs]; [intros x Hx; apply H; by right|].
      destruct (proj2 (dict_get_is_Some _ _) (H c (list_elem_of_here _ _))) as [g Eg].
      pose proof (Hm (issue_key c)) as Hc. rewrite Eg in Hc.
      destruct (dict_get (rosters m) (issue_key c)) as [r|] eqn:Er; [|done]. destruct Hc as [Hr ->].
      exists (r :: rs). by constructor. }
    rewrite (gather_read (rosters m) _ rs id), (gather_read (gaps m) _ rs open_of), list_fmap_id;
      [|by eapply Forall2_impl; [exact Hrs|]; intros c r (_ & _ & ?)..|
       by eapply Forall2_impl; [exact Hrs|]; intros c r (_ & ? & _)].
    cbn. rewrite open_of_mjoin. eapply turned_read; [done| |done].
    eapply roster_lane; [done..|]. eapply Forall2_impl; [exact Hrs|]. by intros c r (? & _).
  - unfold criteria. rewrite closure_children by by apply dict_get_is_Some; eexists.
    case_bool_decide as Hf; cbn.
    + eapply turned_refused, refuses_lane; [done..|]. intros c Hc. apply not_true_iff_false. intros Hcc.
      assert (c ∈ filter (λ row, has_label "criterion" row = true) (below k)) as Hin by by apply list_elem_of_filter.
      rewrite Hf in Hin. by apply elem_of_nil in Hin.
    + eapply turned_opened; [done..|]. destruct (filter _ (below k)) as [|c l] eqn:E; [done|].
      assert (c ∈ filter (λ row, has_label "criterion" row = true) (below k)) as Hin by (rewrite E; left).
      apply list_elem_of_filter in Hin as [? ?]. by exists c.
Qed.
(** ** The loop *)

(** [reach p c]: [c] is [p] or a descendant of it. *)
Definition reach : string → string → Prop := rtc (λ p c, under c p).

(** Every opened issue of the stack has its children read, or above it. *)
Fixpoint stacked (m : readings) (above : list string) (pending : list (string * bool)) : Prop :=
  match pending with
  | [] => True
  | (k, expanded) :: pending =>
      (expanded = true → (∃ i, dict_get facts k = Some i ∧ is_lane k i)
         ∧ (∃ c, c ∈ below k ∧ is_criterion c = true)
         ∧ ∀ c, under c k → c ∈ dict_keys (gaps m) ∨ c ∈ above)
      ∧ stacked m (k :: above) pending
  end.

Lemma stacked_mono m m' above above' pending :
  (∀ c, c ∈ dict_keys (gaps m) ∨ c ∈ above → c ∈ dict_keys (gaps m') ∨ c ∈ above') →
  stacked m above pending → stacked m' above' pending.
Proof.
  revert above above'. induction pending as [|[k ex] pending IH]; intros above above' H; cbn; [done|].
  intros [Hk Hs]. split.
  - intros He. destruct (Hk He) as (? & ? & Hc). split_and!; auto.
  - eapply IH; [|exact Hs]. intros c [Hc|[->|Hc]%elem_of_cons]; [|right; left|];
      destruct (H c) as [?|?]; auto; right; by right.
Qed.

Lemma stacked_app m above p1 p2 :
  stacked m above p1 → stacked m (reverse (fst <$> p1) ++ above) p2 → stacked m above (p1 ++ p2).
Proof.
  revert above. induction p1 as [|[k ex] p1 IH]; intros above; [done|]. cbn [stacked app fmap list_fmap fst].
  intros [Hk H1] H2.
  split; [done|]. apply IH; [done|]. rewrite reverse_cons, <-app_assoc in H2. exact H2.
Qed.

Lemma stacked_closed m above keys : stacked m above ((λ c : TrackerIssue, (issue_key c, false)) <$> keys).
Proof. revert above. induction keys as [|c keys IH]; intros above; cbn; by split. Qed.

Definition extends (m m' : readings) : Prop := ∀ k, k ∈ dict_keys (gaps m) →
  dict_get (gaps m') k = dict_get (gaps m) k ∧ dict_get (rosters m') k = dict_get (rosters m) k.

Lemma extends_keys m m' k : extends m m' → k ∈ dict_keys (gaps m) → k ∈ dict_keys (gaps m').
Proof. intros H Hk. apply dict_get_is_Some. destruct (H k Hk) as [-> _]. by apply dict_get_is_Some. Qed.

Lemma extends_trans m1 m2 m3 : extends m1 m2 → extends m2 m3 → extends m1 m3.
Proof.
  intros H12 H23 k Hk. destruct (H12 k Hk) as [<- <-]. apply H23. by eapply extends_keys.
Qed.

Lemma set_reading_spec m k r :
  true_readings m → k ∉ dict_keys (gaps m) → roster_of k r →
  let m' := set_reading m k r (open_of r) in
  true_readings m' ∧ extends m m' ∧ k ∈ dict_keys (gaps m').
Proof.
  intros Hm Hk Hr. cbn. split_and!.
  - intros j. cbn. rewrite !dict_get_set. case_decide as Hj; [by subst|apply Hm].
  - intros j Hj. cbn. by rewrite !dict_get_set_ne by congruence.
  - cbn. apply elem_of_dict_set_keys. by left.
Qed.

Record walking (root : string) (m : readings) (pending : list (string * bool)) : Prop := {
  walking_true : true_readings m;
  walking_there k ex : (k, ex) ∈ pending → k ∈ dict_keys facts ∧ reach root k;
  walking_stacked : stacked m [] pending;
  walking_root : root ∈ dict_keys (gaps m) ∨ root ∈ pending.*1;
}.

Lemma walking_turn root m k ex pending :
  walking root m ((k, ex) :: pending) →
  turned m k ex (walk_turn self m k ex)
  ∧ ∀ m' pushed, walk_turn self m k ex = Ok (m', pushed) → walking root m' (pushed ++ pending) ∧ extends m m'.
Proof.
  intros [Hm Hthere Hst Hroot]. cbn in Hst. destruct Hst as [Hex Hst].
  destruct (Hthere k ex (list_elem_of_here _ _)) as [Hk Hreach].
  assert (turned m k ex (walk_turn self m k ex)) as Ht.
  { apply walk_turn_turned; [done..|]. intros He. destruct (Hex He) as ((i & ? & ?) & ? & Hall).
    exists i. split_and!; [done..|]. intros c Hc. by destruct (Hall c Hc) as [?|?%elem_of_nil]. }
  split; [done|]. intros m' pushed E. rewrite E in Ht.
  assert (∀ m', true_readings m' → extends m m' → k ∈ dict_keys (gaps m') → walking root m' pending) as Hread.
  { intros m0 Ht0 He Hk0. split; [done|..].
    - intros j ex' Hj. apply (Hthere j ex'). by right.
    - eapply stacked_mono; [|exact Hst]. intros c [Hc|[->|Hc]%elem_of_cons]; left; [by eapply extends_keys|done|].
      by apply elem_of_nil in Hc.
    - cbn in Hroot. destruct Hroot as [?|[->|?]%elem_of_cons]; [left; by eapply extends_keys|by left|by right]. }
  inversion Ht as [Hg|r m0 Hg Hr Hm0|i Hg He Hi Hlane Hcrit| ]; subst.
  - split; [|done]. by apply Hread.
  - destruct (set_reading_spec m k r Hm Hg Hr) as (? & ? & ?). split; [|done]. by apply Hread.
  - split; [|done]. split; [done|..].
    + intros j ex' [[Hj%in_reverse|[= -> ->]%list_elem_of_singleton]%elem_of_app|Hj]%elem_of_app.
      * apply list_elem_of_fmap in Hj as (c & [= -> ->] & Hc). split; [by apply (below_there c k)|].
        eapply rtc_r; [exact Hreach|]. by exists c.
      * done.
      * apply (Hthere j ex'). by right.
    + apply stacked_app; [apply stacked_app|].
      * rewrite <-fmap_reverse. apply stacked_closed.
      * cbn. split; [|done]. intros _. split_and!; [by exists i|done|]. intros c (j & Hj & <-). right.
        rewrite app_nil_r, <-fmap_reverse, reverse_involutive, <-list_fmap_compose. by apply (list_elem_of_fmap_2 issue_key).
      * eapply stacked_mono; [|exact Hst]. intros c [Hc|[->|Hc%elem_of_nil]%elem_of_cons]; [by left| |done].
        right. rewrite fmap_app, reverse_app. cbn. left.
    + cbn in Hroot. rewrite fmap_app, elem_of_app, fmap_app, elem_of_app. cbn.
      destruct Hroot as [?|[->|?]%elem_of_cons]; [by left| |by right; right].
      right. left. right. left.
Qed.

Lemma walk_loop_sound root fuel m pending :
  walking root m pending →
  match walk_loop self fuel m pending with
  | Some (Ok m') => walking root m' [] ∧ extends m m'
  | Some (Err e) => ∃ k, reach root k ∧ refuses k e
  | None => True
  end.
Proof.
  revert m pending. induction fuel as [|fuel IH]; intros m [|[k ex] pending] Hw; cbn [walk_loop]; try done.
  pose proof (walking_there _ _ _ Hw k ex (list_elem_of_here _ _)) as [_ Hreach].
  destruct (walking_turn _ _ _ _ _ Hw) as [Ht Hok].
  destruct (walk_turn self m k ex) as [[m1 pushed]|e].
  - destruct (Hok m1 pushed eq_refl) as [Hw1 He]. specialize (IH m1 (pushed ++ pending) Hw1).
    destruct (walk_loop self fuel m1 (pushed ++ pending)) as [[m2|e]|]; [|done..].
    destruct IH as [? ?]. split; [done|]. by eapply extends_trans.
  - exists k. split; [done|]. by inversion Ht.
Qed.
(** ** Which walks end *)

(** The issues waiting to be opened. *)
Definition waiting (pending : list (string * bool)) : list string :=
  fst <$> filter (λ ke, ke.2 = false) pending.

Lemma waiting_app p1 p2 : waiting (p1 ++ p2) = waiting p1 ++ waiting p2.
Proof. unfold waiting. by rewrite filter_app, fmap_app. Qed.

Lemma waiting_children keys :
  waiting (reverse ((λ c : TrackerIssue, (issue_key c, false)) <$> keys)) = reverse (issue_key <$> keys).
Proof.
  rewrite <-!fmap_reverse. induction (reverse keys) as [|c l IH]; [done|].
  unfold waiting in *. rewrite fmap_cons, filter_cons_True by done. cbn. by f_equal.
Qed.

(** [seen] was pushed, [opened] was opened. *)
Record spanning (root : string) (seen opened : gset string) (pending : list (string * bool)) : Prop := {
  spanning_once : NoDup (waiting pending);
  spanning_waiting k : k ∈ waiting pending → k ∈ seen ∧ k ∉ opened;
  spanning_opened k : k ∈ opened → k ∈ seen;
  spanning_parent c : c ∈ seen → c = root ∨ ∃ p, p ∈ opened ∧ under c p;
  spanning_seen k : k ∈ seen → reach root k ∧ k ∈ dict_keys facts;
}.

Lemma spanning_tail root seen opened k ex pending :
  spanning root seen opened ((k, ex) :: pending) → spanning root seen opened pending.
Proof.
  intros [Hone Hw Ho Hp Hs].
  assert (∀ j, j ∈ waiting pending → j ∈ waiting ((k, ex) :: pending)) as Hsub.
  { intros j. change ((k, ex) :: pending) with ([(k, ex)] ++ pending). rewrite waiting_app, elem_of_app. by right. }
  split; [|auto..]. change ((k, ex) :: pending) with ([(k, ex)] ++ pending) in Hone.
  rewrite waiting_app in Hone. by apply NoDup_app in Hone as (_ & _ & ?).
Qed.

Lemma spanning_open root seen opened k pending :
  (∀ p, reach root p → ¬ under root p) → k ∈ dict_keys facts →
  spanning root seen opened ((k, false) :: pending) →
  let keys := list_to_set (issue_key <$> below k) : gset string in
  keys ## seen ∧ size keys = length (below k)
  ∧ spanning root (keys ∪ seen) ({[ k ]} ∪ opened)
      (reverse ((λ c, (issue_key c, false)) <$> below k) ++ [(k, true)] ++ pending).
Proof.
  intros Hroot Hkf Hspan keys. pose proof Hspan as [Hone Hw Ho Hp Hs].
  assert (waiting ((k, false) :: pending) = k :: waiting pending) as Ek by done. rewrite Ek in Hone, Hw.
  destruct (Hw k (list_elem_of_here _ _)) as [Hks Hko]. destruct (Hs k Hks) as [Hreach _].
  apply NoDup_cons in Hone as [Hkw Hone].
  assert (∀ c, c ∈ keys ↔ under c k) as Hku.
  { intros c. unfold keys. rewrite elem_of_list_to_set, list_elem_of_fmap. unfold under. naive_solver. }
  assert (keys ## seen) as Hdisj.
  { intros c Hc%Hku Hcs. destruct (Hp c Hcs) as [->|(p & Hpo & Hcp)]; [by eapply Hroot|].
    by rewrite (under_unique _ _ _ Hc Hcp) in Hko. }
  split; [done|]. split.
  { unfold keys. rewrite size_list_to_set by apply below_NoDup. by rewrite length_fmap. }
  assert (waiting (reverse ((λ c, (issue_key c, false)) <$> below k) ++ [(k, true)] ++ pending)
    = reverse (issue_key <$> below k) ++ waiting pending) as Ew.
  { by rewrite !waiting_app, waiting_children. }
  split.
  - rewrite Ew. apply NoDup_app. split_and!; [rewrite reverse_Permutation; apply below_NoDup| |done].
    intros c Hc%in_reverse Hcw. destruct (Hw c) as [Hcs _]; [by right|].
    apply (Hdisj c); [|done]. by apply elem_of_list_to_set.
  - intros c. rewrite Ew. intros [Hc%in_reverse|Hc]%elem_of_app.
    + assert (c ∈ keys) as Hck by by apply elem_of_list_to_set. pose proof (Hdisj c Hck).
      split; [set_solver|]. rewrite elem_of_union, elem_of_singleton. intros [->|Hco]; [done|]. by apply Ho in Hco.
    + destruct (Hw c) as [? ?]; [by right|]. set_solver.
  - intros c [->%elem_of_singleton|Hc]%elem_of_union; [set_solver|]. apply Ho in Hc. set_solver.
  - intros c [Hc|Hc]%elem_of_union.
    + right. exists k. split; [set_solver|by apply Hku].
    + destruct (Hp c Hc) as [?|(p & ? & ?)]; [by left|right; exists p; set_solver].
  - intros c [Hc%Hku|Hc]%elem_of_union; [|by apply Hs].
    split; [by eapply rtc_r|]. by eapply under_there.
Qed.

Lemma walk_loop_ends root fuel m pending seen opened :
  (∀ p, reach root p → ¬ under root p) →
  walking root m pending → spanning root seen opened pending →
  length pending + 2 * (length facts - size seen) ≤ fuel → walk_loop self fuel m pending ≠ None.
Proof.
  intros Hroot. revert m pending seen opened.
  induction fuel as [|fuel IH]; intros m [|[k ex] pending] seen opened Hw Hs Hf; cbn [walk_loop]; try done.
  { cbn in Hf. lia. }
  destruct (walking_turn _ _ _ _ _ Hw) as [Ht Hok].
  destruct (walk_turn self m k ex) as [[m1 pushed]|e]; [|done].
  destruct (Hok m1 pushed eq_refl) as [Hw1 _]. cbn [length] in Hf.
  pose proof (spanning_tail _ _ _ _ _ _ Hs) as Hs'.
  inversion Ht as [| |i Hg He Hi Hlane Hcrit| ]; subst; [by apply (IH _ pending seen opened); [..|lia]..|].
  destruct (walking_there _ _ _ Hw k false (list_elem_of_here _ _)) as [Hk _].
  destruct (spanning_open _ _ _ _ _ Hroot Hk Hs) as (Hdisj & Hsz & Hs1).
  rewrite <-app_assoc in Hw1 |- *. eapply IH; [exact Hw1|exact Hs1|].
  rewrite size_union, Hsz by done. rewrite !length_app, length_reverse, length_fmap. cbn [length].
  assert (length (below k) + size seen ≤ length facts) as Hle.
  { rewrite <-Hsz, <-size_union by done.
    replace (length facts) with (size (list_to_set (dict_keys facts) : gset string)).
    - apply subseteq_size. intros c Hc. apply elem_of_list_to_set. by apply (spanning_seen _ _ _ _ Hs1).
    - rewrite size_list_to_set by done. unfold dict_keys. by rewrite length_fmap. }
  destruct Hcrit as (c & Hc & _). destruct (below k) as [|c' l]; [by apply elem_of_nil in Hc|]. cbn [length] in *. lia.
Qed.

Lemma start_walking m key : true_readings m → key ∈ dict_keys facts → walking key m [(key, false)].
Proof.
  intros Hm Hk. split; [done|..].
  - intros k ex [= -> ->]%list_elem_of_singleton. split; [done|apply rtc_refl].
  - by split.
  - right. left.
Qed.

Lemma start_spanning key : key ∈ dict_keys facts → spanning key {[ key ]} ∅ [(key, false)].
Proof.
  intros Hk. split; cbn.
  - apply NoDup_singleton.
  - intros k ->%list_elem_of_singleton. set_solver.
  - set_solver.
  - intros c ->%elem_of_singleton. by left.
  - intros k ->%elem_of_singleton. split; [apply rtc_refl|done].
Qed.

(** What a walk from [key] leaves, and when it leaves anything. *)
Lemma walk_reads m key :
  true_readings m → key ∈ dict_keys facts →
  match _walk self m key with
  | Some (Ok m') => true_readings m' ∧ extends m m'
      ∧ ∃ r, roster_of key r ∧ dict_get (rosters m') key = Some r ∧ dict_get (gaps m') key = Some (open_of r)
  | Some (Err e) => ∃ k, reach key k ∧ refuses k e
  | None => ¬ ∀ p, reach key p → ¬ under key p
  end.
Proof.
  intros Hm Hk. pose proof (walk_loop_sound key (walk_fuel self) m _ (start_walking m key Hm Hk)) as H.
  unfold _walk. destruct (walk_loop self (walk_fuel self) m [(key, false)]) as [[m'|e]|] eqn:E; [|exact H|].
  - destruct H as [[Ht _ _ [Hr|Hr%elem_of_nil]] He]; [|done]. split_and!; [done..|].
    apply dict_get_is_Some in Hr as [g Eg]. specialize (Ht key). rewrite Eg in Ht.
    destruct (dict_get (rosters m') key) as [r|]; [|done]. destruct Ht as [? ->]. by exists r.
  - intros Hroot. refine (walk_loop_ends key _ m _ _ _ Hroot (start_walking m key Hm Hk) (start_spanning key Hk) _ E).
    cbn [length]. rewrite size_singleton. unfold walk_fuel. cbn. lia.
Qed.
(** ** A roster is the criteria beneath *)

Lemma roster_of_ind' (P : string → list TrackerIssue → Prop) :
  (∀ k i, dict_get facts k = Some i → is_criterion i = true → below k = [] → P k [i]) →
  (∀ k i, dict_get facts k = Some i → is_criterion i = false → below k = [] → P k []) →
  (∀ k i rs, dict_get facts k = Some i → is_lane k i → Forall2 (λ c r, P (issue_key c) r) (below k) rs → P k (mjoin rs)) →
  ∀ k r, roster_of k r → P k r.
Proof.
  intros Hc Hr Hl. fix go 3. intros k r [k' i Hi Hcr Hb|k' i Hi Hcr _ _ Hb|k' i rs Hi Hlane _ Hrs].
  - by eapply Hc.
  - by eapply Hr.
  - eapply Hl; [done..|]. clear -go Hrs. induction Hrs as [|c r l rs Hcr Hrs IH]; constructor; [by apply go|exact IH].
Qed.

(** One issue, one roster. *)
Lemma roster_of_functional k r r' : roster_of k r → roster_of k r' → r = r'.
Proof.
  intros Hr. revert k r Hr r'. refine (roster_of_ind' _ _ _ _).
  - intros k i Hi Hc Hb r' Hr'.
    inversion Hr' as [k' j Hj Hcj _|k' j Hj Hcj _ _ _|k' j rs Hj [Hcj _] _ _]; subst; congruence.
  - intros k i Hi Hc Hb r' Hr'.
    inversion Hr' as [k' j Hj Hcj _|k' j Hj Hcj _ _ _|k' j rs Hj _ (c & Hin & _) _]; subst; [congruence|done|].
    rewrite Hb in Hin. by apply elem_of_nil in Hin.
  - intros k i rs Hi Hlane Hrs r' Hr'. inversion Hr' as [k' j Hj Hcj Hb|k' j Hj Hcj Hrec Hh Hb|k' j rs' Hj _ _ Hrs']; subst.
    + destruct Hlane. congruence.
    + destruct Hlane as [_ [?|?]]; [congruence|done].
    + f_equal. clear -Hrs Hrs'. revert rs' Hrs'. induction Hrs as [|c r l rs Hcr _ IH]; intros rs' Hrs';
        inversion Hrs'; subst; [done|]. f_equal; [by apply Hcr|by apply IH].
Qed.

Lemma reach_below k j :
  reach k j ↔ j = k ∨ ∃ c, c ∈ below k ∧ reach (issue_key c) j.
Proof.
  split.
    intros H. inversion H as [|? c ? (i & Hi & <-) Hc]; subst; [by left|right; by exists i].
  - intros [->|(c & Hc & Hj)]; [apply rtc_refl|]. eapply rtc_l; [|exact Hj]. by exists c.
Qed.

Lemma roster_of_elem k r :
  roster_of k r → ∀ i, i ∈ r ↔ is_criterion i = true ∧ ∃ j, reach k j ∧ dict_get facts j = Some i.
Proof.
  revert k r. refine (roster_of_ind' _ _ _ _).
  - intros k i Hi Hc Hb x. rewrite list_elem_of_singleton. split.
    + intros ->. split; [done|]. exists k. split; [apply rtc_refl|done].
    + intros (_ & j & [->|(c & Hin & _)]%reach_below & Hx); [congruence|]. rewrite Hb in Hin. by apply elem_of_nil in Hin.
  - intros k i Hi Hc Hb x. split; [by intros ?%elem_of_nil|].
    intros (Hx & j & [->|(c & Hin & _)]%reach_below & Hj); [congruence|]. rewrite Hb in Hin. by apply elem_of_nil in Hin.
  - intros k i rs Hi [Hc _] Hrs x. rewrite list_elem_of_join. split.
    + intros (r & Hx & [n Hr]%list_elem_of_lookup_1). destruct (Forall2_lookup_r _ _ _ _ _ Hrs Hr) as (c & Hn & H).
      apply H in Hx as (? & j & Hj & ?). split; [done|]. exists j. split; [|done].
      apply reach_below. right. exists c. split; [by eapply list_elem_of_lookup_2|done].
    + intros (Hx & j & [->|(c & [n Hn]%list_elem_of_lookup_1 & Hj)]%reach_below & Ej); [congruence|].
      destruct (Forall2_lookup_l _ _ _ _ _ Hrs Hn) as (r & Hr & H). exists r.
      split; [|by eapply list_elem_of_lookup_2]. apply H. split; [done|]. by exists j.
Qed.

(** What has a roster is not its own descendant, so a cycle is walked for ever unless an
    issue on the way is refused. *)
Lemma roster_of_grounded k r : roster_of k r → ∀ p, reach k p → ¬ under k p.
Proof.
  revert k r. refine (roster_of_ind' _ _ _ _).
  1-2: intros k i Hi _ Hb p Hp Hk; apply reach_below in Hp as [->|(c & Hc & _)];
    [destruct Hk as (c & Hc & _)|]; rewrite Hb in Hc; by apply elem_of_nil in Hc.
  intros k i rs Hi _ Hrs p Hp Hk.
  assert (∀ c q, c ∈ below k → reach (issue_key c) q → ¬ under (issue_key c) q) as Hc.
  { intros c q [n Hn]%list_elem_of_lookup_1. destruct (Forall2_lookup_l _ _ _ _ _ Hrs Hn) as (r & _ & H). apply H. }
  apply reach_below in Hp as [->|(c & Hin & Hp)].
  - destruct Hk as (c & Hin & Ec). apply (Hc c k Hin); [rewrite Ec; apply rtc_refl|]. by exists c.
  - apply (Hc c k Hin); [|by exists c]. eapply rtc_r; [exact Hp|done].
Qed.

Lemma cycle_never_ends m key p fuel :
  true_readings m → key ∈ dict_keys facts → reach key p → under key p →
  (∀ k e, reach key k → ¬ refuses k e) → walk_loop self fuel m [(key, false)] = None.
Proof.
  intros Hm Hk Hp Hu Hno. pose proof (walk_loop_sound key fuel m _ (start_walking m key Hm Hk)) as H.
  destruct (walk_loop self fuel m [(key, false)]) as [[m'|e]|]; [|by destruct H as (k & ? & ?%Hno)|done].
  destruct H as [[Ht _ _ [Hr|Hr%elem_of_nil]] _]; [|done]. apply dict_get_is_Some in Hr as [g Eg].
  specialize (Ht key). rewrite Eg in Ht. destruct (dict_get (rosters m') key) as [r|]; [|done].
  destruct Ht as [Hr _]. by destruct (roster_of_grounded _ _ Hr p Hp).
Qed.

(** C12. The closure. Asked of an issue of the facts, the roster and the gap are read by
    one walk and agree: the roster is every criterion record at or beneath the issue, in
    the recursion's order, and the gap its open part, so an issue is closed exactly when
    no criterion beneath it is open. The walk refuses only a criterion or record with
    children or a lane without criteria, which it reached; and it always ends, unless the
    issue is its own descendant. What it remembers for later walks stays true. *)
Theorem closure_reads (m : readings) (key : string) (Hm : true_readings m) (Hk : key ∈ dict_keys facts) :
  match roster self m key, gap self m key with
  | Some (Ok (m1, r)), Some (Ok (m2, g)) =>
      m1 = m2 ∧ true_readings m1 ∧ roster_of key r ∧ g = open_of r
      ∧ (∀ i, i ∈ r ↔ is_criterion i = true ∧ ∃ j, reach key j ∧ dict_get facts j = Some i)
      ∧ is_closed self m key = Some (Ok (m1, bool_decide (open_of r = [])))
  | Some (Err e), Some (Err e') => e = e' ∧ ∃ k, reach key k ∧ refuses k e
  | None, None => ¬ ∀ p, reach key p → ¬ under key p
  | _, _ => False
  end.
Proof.
  pose proof (walk_reads m key Hm Hk) as H. unfold is_closed, roster, gap, gap_or_roster, mbind, looping_bind, straight.
  destruct (_walk self m key) as [[m'|e]|]; [|done..]. destruct H as (Ht & _ & r & Hr & -> & ->).
  split_and!; [done..|by apply roster_of_elem|done].
Qed.
End closure_spec.

(** ** The index, verified *)

Lemma keyed_rows_keyed rows k i : (k, i) ∈ keyed_rows rows → issue_key i = k.
Proof. by intros (j & [= -> ->] & _)%list_elem_of_fmap. Qed.

Lemma elem_of_rows rows i : i ∈ dict_values (keyed_rows rows) ↔ i ∈ rows.
Proof.
  unfold dict_values, keyed_rows. rewrite <-list_fmap_compose. rewrite list_elem_of_fmap. split.
  - by intros (j & -> & Hj).
  - intros Hi. by exists i.
Qed.

Lemma in_rows rows i : i ∈ dict_values (keyed_rows rows) → i ∈ rows.
Proof. by rewrite elem_of_rows. Qed.

(** In a tree no issue is its own descendant. *)
Lemma rooted_grounded root rows : rooted_tree root rows →
  ∀ k p, k ∈ issue_key <$> rows → reach (keyed_rows rows) k p → ¬ under (keyed_rows rows) k p.
Proof.
  intros [Hnd Hroot Hb Htop]. pose proof Hnd as Hkeys. rewrite <-keyed_rows_keys in Hkeys.
  intros k p Hk. assert (beneath root rows k) as Hbk by (apply list_elem_of_fmap in Hk as (i & -> & Hi); by apply Hb).
  clear Hk. revert p. induction Hbk as [|i q Hi Hne Hq _ IH]; intros p Hreach Hu.
  - pose proof Hu as (i & [Hp Hi%in_rows]%list_elem_of_filter & Ei). apply (Htop i p Hi Ei Hp).
    apply rtc_inv_r in Hreach as [<-|(y & _ & Hy)]; [done|].
    rewrite <-keyed_rows_keys. by eapply (under_there _ Hkeys (keyed_rows_keyed rows)).
  - assert (under (keyed_rows rows) (issue_key i) q) as Hiq.
    { exists i. split; [|done]. apply list_elem_of_filter. split; [done|]. by apply elem_of_rows. }
    rewrite (under_unique _ Hkeys (keyed_rows_keyed rows) _ _ _ Hu Hiq) in Hreach.
    apply rtc_inv_r in Hreach as [E|(y & Hy & Hqy)].
    + apply (IH q); [apply rtc_refl|]. by rewrite E in Hiq at 1.
    + apply (IH y); [|done]. eapply rtc_l; [|exact Hy]. done.
Qed.

Lemma index_rows root ref rows :
  match foldM (index_row root ref) ([], []) rows with
  | Ok (f, c) => f = keyed_rows rows ∧ indexed root rows ∧ ∀ p, default [] (dict_get c p) = hang root rows p
  | Err e => (∃ m, e = ScopeReadError m ref) ∧ ¬ indexed root rows
  end.
Proof.
  pose proof (index_rows_app root ref rows [] []) as H. destruct (foldM _ _ rows) as [[f c]|e].
  - destruct H as (-> & ? & _ & ? & Hc). split_and!; [done|by split|exact Hc].
  - destruct H as [? Hn]. split; [done|]. intros Hi. apply Hn. split; [done|]. intros k _. apply not_elem_of_nil.
Qed.

Lemma rooted_indexed root rows : rooted_tree root rows → indexed root rows.
Proof.
  intros [Hnd _ Hb _]. split; [done|]. apply Forall_forall. intros i Hi Hne.
  pose proof (Hb i Hi) as H. inversion H as [E|j p Hj Hjne Hp Hpb E]; [by rewrite <-E in Hne|].
  assert (j = i) as -> by by eapply NoDup_fmap_elem. by eexists.
Qed.

Lemma top_issue rows root issue : NoDup (issue_key <$> rows) →
  dict_get (keyed_rows rows) root = Some issue → issue ∈ rows ∧ issue_key issue = root.
Proof.
  intros Hnd E%dict_get_elem. pose proof (keyed_rows_keyed _ _ _ E).
  apply list_elem_of_fmap in E as (i & [= -> ->] & Hi). done.
Qed.

(** C13. The index of an addressed subtree always ends: it is the rows by key exactly when
    they are one tree under the root, every key once and every parentage leading to the
    root, whose own parent is outside; any other rows are refused with a
    [ScopeReadError]. In a tree it accepts no issue is its own descendant. *)
Theorem index_issue_tree_spec (root : string) (rows : list TrackerIssue) (ref : ScopeRef) :
  (rooted_tree root rows → index_issue_tree root rows ref = Some (Ok (keyed_rows rows))
     ∧ ∀ k p, k ∈ issue_key <$> rows → reach (keyed_rows rows) k p → ¬ under (keyed_rows rows) k p)
  ∧ (¬ rooted_tree root rows → ∃ m, index_issue_tree root rows ref = Some (Err (ScopeReadError m ref))).
Proof.
  unfold index_issue_tree, mbind, looping_bind, straight. pose proof (index_rows root ref rows) as H.
  destruct (foldM (index_row root ref) ([], []) rows) as [[f c]|e]; cycle 1.
  { destruct H as [[m ->] Hn]. split; [|by eauto]. intros Ht. by destruct Hn; apply rooted_indexed. }
  destruct H as (-> & Hidx & Hc). pose proof Hidx as [Hnd Hpar].
  destruct (dict_get (keyed_rows rows) root) as [top|] eqn:Etop; cycle 1.
  { split; [|by eauto]. intros [_ Hr _ _]. apply dict_get_None in Etop. by rewrite keyed_rows_keys in Etop. }
  destruct (top_issue _ _ _ Hnd Etop) as [Hin Ek].
  assert (root ∈ issue_key <$> rows) as Hroot by by (rewrite <-Ek; apply list_elem_of_fmap_2).
  destruct (visit_searched root ref rows c Hnd Hroot Hc (S (length (keyed_rows rows))) ∅ [root]) as (v & -> & Hv);
    [by eapply searched_start|unfold keyed_rows; rewrite length_fmap; lia|].
  pose proof (searched_end root rows v Hv) as Hb. rewrite keyed_rows_keys.
  assert (∀ p, parent_key top = Some p → dict_mem (keyed_rows rows) p = true ↔ p ∈ issue_key <$> rows) as Hmem.
  { intros p _. unfold dict_mem. by rewrite bool_decide_eq_true, keyed_rows_keys. }
  split.
  - intros Ht. pose proof Ht as [_ _ Hbt Htop]. split; [|by apply (rooted_grounded root)].
    rewrite bool_decide_eq_true_2; cbn [negb raise_if].
    + destruct (parent_key top) as [p|] eqn:Ep; [|done].
      destruct (dict_mem (keyed_rows rows) p) eqn:Em; [|done]. apply Hmem in Em; [|done]. by destruct (Htop top p Hin Ek Ep).
    + apply set_eq. intros k. rewrite elem_of_list_to_set, Hb. split.
      * intros Hk. by apply (searched_beneath _ _ _ _ Hv); left; apply Hb.
      * intros (i & -> & Hi)%list_elem_of_fmap. by apply Hbt.
  - intros Hn. case_bool_decide as Ev; cbn [negb raise_if]; [|by eauto].
    destruct (match parent_key top with Some p => _ | None => false end) eqn:Em; cbn [raise_if]; [by eauto|].
    destruct Hn. split; [done..| |].
    + intros i Hi. apply Hb. rewrite Ev. apply elem_of_list_to_set. by apply list_elem_of_fmap_2.
    + intros i p Hi Ei Hp Hpr. assert (i = top) as -> by (eapply NoDup_fmap_elem; [exact Hnd|done..|congruence]).
      rewrite Hp in Em. apply Hmem in Hpr; [congruence|done].
Qed.

(** ** A lane of two criteria, one under a lane of its own *)

Definition tree_issue (key : string) (parent : option string) (labels : gset string) (kind : WorkflowStateKind) :
    TrackerIssue := {|
  issue_key := key; title := key; body := ""; priority := NONE; state_name := ""; state_kind := kind;
  queue_states := ∅; issue_labels := labels; team_key := None; project := None; project_id := None;
  milestone_key := None; relations := []; parent_key := parent; assignee_key := None; created_at := 0;
  updated_at := 0; url := "" |}.

Definition sample_rows : list TrackerIssue :=
  [tree_issue "L" (Some "outside") ∅ STARTED;
   tree_issue "M" (Some "L") ∅ COMPLETED;
   tree_issue "c1" (Some "L") {[ "criterion" ]} UNSTARTED;
   tree_issue "c2" (Some "M") {[ "criterion" ]} COMPLETED;
   tree_issue "D" (Some "L") {[ "decision" ]} STARTED].

Definition sample_ref : ScopeRef := {| scope_kind := ISSUE; scope_key := "L" |}.

Lemma sample_tree : rooted_tree "L" sample_rows.
Proof.
  assert (beneath "L" sample_rows "L") as HL by constructor.
  assert (beneath "L" sample_rows "M") as HM by (refine (beneath_child _ _ (tree_issue "M" (Some "L") ∅ COMPLETED) "L" _ _ _ HL); [right; left|done..]).
  split; [by apply (bool_decide_unpack _)|left|..].
  - intros i Hi. repeat (apply elem_of_cons in Hi as [->|Hi]); [done|done|..|by apply elem_of_nil in Hi];
      (eapply beneath_child; [|done|reflexivity|done]); repeat (left || right).
  - intros i p Hi. repeat (apply elem_of_cons in Hi as [->|Hi]); [..|by apply elem_of_nil in Hi]; try done.
    intros _ [= <-]. by apply (bool_decide_unpack _).
Qed.

Example index_issue_tree_spec_witness :
  index_issue_tree "L" sample_rows sample_ref = Some (Ok (keyed_rows sample_rows)).
Proof. apply (index_issue_tree_spec "L" sample_rows sample_ref), sample_tree. Defined.

Example closure_reads_witness :
  let self := make_closure (keyed_rows sample_rows) sample_ref [] in
  match roster self no_readings "L", gap self no_readings "L" with
  | Some (Ok (m1, r)), Some (Ok (m2, g)) =>
      issue_key <$> r = ["c2"; "c1"] ∧ issue_key <$> g = ["c1"] ∧ roster_of (keyed_rows sample_rows) [] "L" r
  | _, _ => False
  end.
Proof.
  pose proof (closure_reads (keyed_rows sample_rows) sample_ref [] ltac:(by apply (bool_decide_unpack _))
    (keyed_rows_keyed sample_rows) no_readings "L" (true_no_readings _ _) ltac:(left)) as H.
  cbv zeta. assert ((λ x : looping (readings * list TrackerIssue),
      match x with Some (Ok (_, r)) => issue_key <$> r | _ => [] end)
    <$> [roster (make_closure (keyed_rows sample_rows) sample_ref []) no_readings "L";
         gap (make_closure (keyed_rows sample_rows) sample_ref []) no_readings "L"] = [["c2"; "c1"]; ["c1"]]) as E
    by by vm_compute.
  destruct (roster _ _ _) as [[[m1 r]|e]|], (gap _ _ _) as [[[m2 g]|e']|]; cbn in E; try done.
  injection E as Er Eg. destruct H as (_ & _ & Hr & _). done.
Defined.
