(* ===== verification/Dispatch.v ===== *)
(** * Selection arithmetic (domain/dispatch.py).

    The eligibility clauses of one dispatch pass, the rank order over the
    eligible set and the selection of the one issue a pass claims. The draw
    among exact ties is the injected collaborator [draw]; what is assumed of
    it, where a theorem needs it, is the class [UniformDraw]: a draw answers a
    member of the non-empty sequence it is given. *)

From S2P Require Import Prelude PyStr Tracker Errors.

Definition clause_in_team (issue : TrackerIssue) (team_keys : gset string) : bool :=
  match team_key issue with
  | None => false
  | Some key => bool_decide (key ∈ team_keys)
  end.

Definition clause_in_scope (scope identifiers : list string) : bool :=
  match scope with
  | [] => true
  | _ => existsb (λ identifier, bool_decide (identifier ∈ scope)) identifiers
  end.

Definition clause_recorded_repository (team_bound : bool) (recorded : option string)
    (repo_url : string) : bool :=
  team_bound || bool_decide (recorded = Some repo_url).

Definition clause_approved (issue : TrackerIssue) : bool :=
  bool_decide (Q_APPROVED ∈ queue_states issue).

Definition clause_open (issue : TrackerIssue) : bool := is_open (state_kind issue).

Definition blocker_keys (issue : TrackerIssue) : list string :=
  relation_issue_key <$> filter (λ r, relation_kind r = BLOCKED_BY) (relations issue).

Definition live_blocker (issue : TrackerIssue) (blockers : pydict string TrackerIssue) :
    option string :=
  first_such
    (λ key, match dict_get blockers key with
            | Some blocker => clause_open blocker
            | None => false
            end)
    (blocker_keys issue).

Definition clause_unclaimed (claim : option ClaimResult) (run_is_live : bool) : bool :=
  match claim with None => negb run_is_live | Some _ => false end.

Definition clause_undelivered (has_open_delivery : bool) : bool := negb has_open_delivery.

(** ** Rank *)

Record RankKey := { rk_priority_rank : nat; rk_created_at : Z }.
#[export] Instance RankKey_eq_dec : EqDecision RankKey.
Proof. solve_decision. Defined.

Definition rank_pair (k : RankKey) : nat * Z := (rk_priority_rank k, rk_created_at k).

(** [RankKey.__lt__] *)
Definition RankKey_lt (self other : RankKey) : bool :=
  key_ltb (rank_pair self) (rank_pair other).

Definition rank_key (issue : TrackerIssue) : RankKey := {|
  rk_priority_rank := priority_rank (priority issue);
  rk_created_at := created_at issue;
|}.

Record Selection := { winner_key : string; tied : list string }.
#[export] Instance Selection_eq_dec : EqDecision Selection.
Proof. solve_decision. Defined.

Definition select_top_ranked (issues : list TrackerIssue) (draw : list string → string) :
    option Selection :=
  match issues with
  | [] => None
  | i :: rest =>
      let best := py_min RankKey_lt (rank_key i) (rank_key <$> rest) in
      let tied := sort_by id (issue_key <$> filter (λ issue, rank_key issue = best) issues) in
      match tied with
      | [key] => Some {| winner_key := key; tied := tied |}
      | _ => Some {| winner_key := draw tied; tied := tied |}
      end
  end.

Definition order_key (issue : TrackerIssue) : nat * (Z * string) :=
  (rk_priority_rank (rank_key issue), (rk_created_at (rank_key issue), issue_key issue)).

Definition ranked_order (issues : list TrackerIssue) : list string :=
  issue_key <$> sort_by order_key issues.

Definition DOMAIN_PRIORITY_ORDER : list IssuePriority :=
  sort_by priority_rank [URGENT; HIGH; MEDIUM; LOW; NONE].

(** What the injected draw promises: it answers one of the tied keys. *)
Class UniformDraw (draw : list string → string) : Prop :=
  draw_member keys : keys ≠ [] → draw keys ∈ keys.

(** ** Properties *)

Lemma RankKey_lt_false j k :
  RankKey_lt k j = false ↔ key_leb (rank_pair j) (rank_pair k) = true.
Proof. unfold RankKey_lt, key_ltb. apply negb_false_iff. Qed.

#[export] Instance rank_pair_inj : Inj (=) (=) rank_pair.
Proof. by intros [] [] [= -> ->]. Qed.

Section select.
Context (i : TrackerIssue) (rest : list TrackerIssue).
Local Notation issues := (i :: rest).
Local Notation best := (py_min RankKey_lt (rank_key i) (rank_key <$> rest)).

Lemma best_least j : j ∈ issues → key_leb (rank_pair best) (rank_pair (rank_key j)) = true.
Proof.
  intros Hj. apply (py_min_least rank_pair (rank_key i) (rank_key <$> rest)).
  change (rank_key j ∈ rank_key <$> issues). by apply list_elem_of_fmap_2.
Qed.

Lemma best_attained : ∃ j, j ∈ issues ∧ rank_key j = best.
Proof.
  pose proof (py_min_elem RankKey_lt (rank_key i) (rank_key <$> rest)) as Hb.
  change (best ∈ rank_key <$> issues) in Hb.
  apply list_elem_of_fmap in Hb as (j & Hj & ?). by exists j.
Qed.

(** Being of the least rank is having nothing ranked strictly above. *)
Lemma best_iff j : j ∈ issues →
  rank_key j = best ↔ ∀ k, k ∈ issues → RankKey_lt (rank_key k) (rank_key j) = false.
Proof.
  intros Hj. setoid_rewrite RankKey_lt_false. split.
  - intros -> k. apply best_least.
  - intros Hall. destruct best_attained as (m & Hm & Hmb). rewrite <-Hmb.
    apply (inj rank_pair), key_leb_antisym; [by apply Hall|].
    rewrite Hmb. by apply best_least.
Qed.

Lemma tied_nonempty : sort_by id (issue_key <$> filter (λ j, rank_key j = best) issues) ≠ [].
Proof.
  destruct best_attained as (j & Hj & Hb). intros E.
  assert (issue_key j ∈ sort_by id (issue_key <$> filter (λ j, rank_key j = best) issues)) as Hin.
  { apply elem_of_sort_by, list_elem_of_fmap_2, list_elem_of_filter. done. }
  rewrite E in Hin. by apply not_elem_of_nil in Hin.
Qed.

(** The head of the whole computed order is the least key of the tied set. *)
Lemma head_ranked_order :
  head (ranked_order issues)
  = head (sort_by id (issue_key <$> filter (λ j, rank_key j = best) issues)).
Proof.
  pose proof (sort_by_sorted order_key issues) as Hso.
  pose proof (sort_by_sorted id (issue_key <$> filter (λ j, rank_key j = best) issues)) as Hsk.
  pose proof tied_nonempty as Hne.
  assert (∀ j, j ∈ sort_by order_key issues ↔ j ∈ issues) as Hin
    by (intros; apply elem_of_sort_by).
  assert (∀ k, k ∈ sort_by id (issue_key <$> filter (λ j, rank_key j = best) issues) ↔
    ∃ j, j ∈ issues ∧ rank_key j = best ∧ issue_key j = k) as Hkin.
  { intros k. rewrite elem_of_sort_by, list_elem_of_fmap.
    setoid_rewrite list_elem_of_filter. naive_solver. }
  unfold ranked_order.
  destruct (sort_by order_key issues) as [|o os].
  { exfalso. destruct best_attained as (j & Hj & _). apply Hin in Hj. set_solver. }
  destruct (sort_by id _) as [|t ts]; [done|]. simpl. f_equal.
  apply StronglySorted_inv in Hso as [_ Ho]. apply StronglySorted_inv in Hsk as [_ Ht].
  rewrite Forall_forall in Ho. rewrite Forall_forall in Ht. unfold key_le in Ho, Ht.
  assert (∀ j, j ∈ issues → key_leb (order_key o) (order_key j) = true) as Hleast.
  { intros j Hj. apply Hin, elem_of_cons in Hj as [->|Hj]; [apply key_leb_refl|by apply Ho]. }
  assert (o ∈ issues) as Hoin by (apply Hin; by left).
  destruct (proj1 (Hkin t)) as (jt & Hjt & Hjb & Hjk); [by left|].
  assert (rank_key o = best) as Hob.
  { apply best_iff; [done|]. intros k Hk. apply RankKey_lt_false.
    apply Hleast in Hk. unfold order_key in Hk. rewrite prod_leb_iff in Hk.
    unfold rank_pair. apply prod_leb_iff. destruct Hk as [?|[? Hk]]; [by left|].
    right. split; [done|]. by apply prod_leb_fst in Hk. }
  pose proof (Hleast _ Hjt) as Hot. unfold order_key in Hot. rewrite Hob, Hjb in Hot.
  rewrite !prod_leb_iff in Hot.
  destruct Hot as [[_ []]|[_ [[_ []]|[_ Hot]]]]; [done..|].
  apply key_leb_antisym; [by subst t|].
  assert (issue_key o ∈ t :: ts) as Hk by (apply Hkin; by exists o).
  apply elem_of_cons in Hk as [->|Hk]; [apply key_leb_refl|]. by apply Ht.
Qed.
End select.

(** The selection of a pass. An empty eligible set selects nothing; otherwise
    the winner is one of the tied keys, the tied keys are exactly the keys of the
    issues no issue is ranked strictly above, and the first of them is the head of
    the whole computed rank order. *)
Theorem select_top_ranked_spec (issues : list TrackerIssue) (draw : list string → string)
    `{!UniformDraw draw} :
  match select_top_ranked issues draw with
  | None => issues = []
  | Some sel =>
      winner_key sel ∈ tied sel
      ∧ (∀ key, key ∈ tied sel ↔
           ∃ issue, issue ∈ issues ∧ issue_key issue = key
             ∧ ∀ other, other ∈ issues → RankKey_lt (rank_key other) (rank_key issue) = false)
      ∧ head (ranked_order issues) = head (tied sel)
  end.
Proof.
  destruct issues as [|i rest]; [done|]. unfold select_top_ranked.
  pose proof (tied_nonempty i rest) as Hne. pose proof (head_ranked_order i rest) as Hhead.
  assert (∀ key, key ∈ sort_by id (issue_key <$> filter
      (λ j, rank_key j = py_min RankKey_lt (rank_key i) (rank_key <$> rest)) (i :: rest)) ↔
    ∃ issue, issue ∈ i :: rest ∧ issue_key issue = key
      ∧ ∀ other, other ∈ i :: rest → RankKey_lt (rank_key other) (rank_key issue) = false) as Hk.
  { intros key. rewrite elem_of_sort_by, list_elem_of_fmap. setoid_rewrite list_elem_of_filter.
    split.
    - intros (j & -> & Hb & Hj). exists j. split_and!; [done..|]. by apply best_iff.
    - intros (j & Hj & <- & Hb). exists j. split_and!; [done| |done]. by apply best_iff. }
  revert Hne Hhead Hk. generalize (sort_by id (issue_key <$> filter
    (λ j, rank_key j = py_min RankKey_lt (rank_key i) (rank_key <$> rest)) (i :: rest))).
  intros [|k [|k' ks]] Hne Hhead Hk; [done|..]; split_and!; try done; simpl.
  - by left.
  - by apply draw_member.
Qed.

Lemma select_top_ranked_spec_witness :
  UniformDraw (λ keys, default "" (last keys))
  ∧ match select_top_ranked [plain_issue "B" STARTED; plain_issue "A" STARTED]
            (λ keys, default "" (last keys)) with
    | None => False
    | Some sel => winner_key sel ∈ tied sel ∧ tied sel = ["A"; "B"] ∧ winner_key sel = "B"
    end.
Proof.
  assert (UniformDraw (λ keys, default "" (last keys))) as Hd.
  { intros keys Hk. destruct (last keys) as [k|] eqn:E; simpl.
    - by apply last_Some_elem_of.
    - by apply last_None in E. }
  split; [exact Hd|].
  pose proof (select_top_ranked_spec [plain_issue "B" STARTED; plain_issue "A" STARTED] _) as H.
  vm_compute in H |- *. destruct H as [Hw _]. split; [exact Hw|by split].
Defined.
