(* ===== verification/Topology.v ===== *)
(** * Ready-set arithmetic over the dependency graph (domain/topology.py).

    [_acyclic_order] is the explicit-stack depth-first search of the source:
    one [dfs_step] is one iteration of its inner [while], and the outer [for]
    over the graph's keys is a loop over [visit_root]. The fuel of the inner
    loop is the number of edges and nodes of the graph, and
    [acyclic_order_terminates] shows it is never exhausted. [plan_topology]
    validates the snapshot, propagates priority to prerequisites and ranks the
    ready candidates. *)

From S2P Require Import Prelude PyStr Tracker Errors Dispatch.

(** The dependency graph: every key with the keys that block it. *)
Notation graph_t := (pydict string (list string)).

(** ** The depth-first search *)

Record dfs := {
  visited : gset string;
  ordered : list string;
  path : list string;            (* top of the stack first *)
  active : gset string;
  stack : list (list string);    (* what each iterator has left, top first *)
}.

Inductive dfs_result :=
| Running (d : dfs)
| Finished (d : dfs)
| Raised (e : exn).

(** [path[path.index(child):]] *)
Fixpoint from_first (child : string) (path : list string) : list string :=
  match path with
  | [] => []
  | x :: rest => if decide (x = child) then path else from_first child rest
  end.

(** One iteration of [while stack]. *)
Definition dfs_step (graph : graph_t) (d : dfs) : dfs_result :=
  match stack d with
  | [] => Finished d
  | [] :: stack' =>
      match path d with
      | [] => Finished d  (* [path.pop()]; the two stacks have one length *)
      | completed :: path' =>
          Running {|
            visited := {[ completed ]} ∪ visited d;
            ordered := ordered d ++ [completed];
            path := path';
            active := active d ∖ {[ completed ]};
            stack := stack';
          |}
      end
  | (child :: it) :: stack' =>
      if decide (child ∈ active d) then
        Raised (ScopeCycleError (from_first child (reverse (path d))))
      else if decide (child ∈ visited d) then
        Running {| visited := visited d; ordered := ordered d; path := path d;
                   active := active d; stack := it :: stack' |}
      else
        match dict_get graph child with
        | None => Raised (KeyError child)
        | Some children =>
            Running {|
              visited := visited d;
              ordered := ordered d;
              path := child :: path d;
              active := {[ child ]} ∪ active d;
              stack := children :: it :: stack';
            |}
        end
  end.

(** The inner loop; [None] when the fuel runs out. *)
Fixpoint dfs_loop (fuel : nat) (graph : graph_t) (d : dfs) : option (result exn dfs) :=
  match fuel with
  | 0 => None
  | S fuel =>
      match dfs_step graph d with
      | Running d' => dfs_loop fuel graph d'
      | Finished d' => Some (Ok d')
      | Raised e => Some (Err e)
      end
  end.

(** One step more than the nodes and edges there are to traverse. *)
Definition graph_fuel (graph : graph_t) : nat :=
  S (sum_list_with (λ kv, S (length kv.2)) graph).

Definition visit_root (graph : graph_t) (d : dfs) (root : string) (children : list string) :
    option (result exn dfs) :=
  if decide (root ∈ visited d) then Some (Ok d)
  else dfs_loop (graph_fuel graph) graph {|
    visited := visited d; ordered := ordered d;
    path := [root]; active := {[ root ]}; stack := [children];
  |}.

Fixpoint visit_roots (graph : graph_t) (d : dfs) (roots : graph_t) : option (result exn dfs) :=
  match roots with
  | [] => Some (Ok d)
  | (root, children) :: roots =>
      match visit_root graph d root children with
      | Some (Ok d') => visit_roots graph d' roots
      | r => r
      end
  end.

Definition dfs_start : dfs :=
  {| visited := ∅; ordered := []; path := []; active := ∅; stack := [] |}.

Definition _acyclic_order (graph : graph_t) : option (result exn (list string)) :=
  match visit_roots graph dfs_start graph with
  | Some (Ok d) => Some (Ok (ordered d))
  | Some (Err e) => Some (Err e)
  | None => None
  end.

(** ** The plan *)

Record ReadyIssue := { ready_issue : TrackerIssue; effective_priority : IssuePriority }.
Record BlockedIssue := { blocked_issue_key : string; blocked_blocker_keys : list string }.
Record TopologyPlan := { ready : list ReadyIssue; blocked : list BlockedIssue }.

(** The snapshot's index; a repeated key is refused. *)
Definition index_snapshot (issues : list TrackerIssue) :
    result exn (pydict string TrackerIssue) :=
  foldM (λ by_key issue,
    raise_if (dict_mem by_key (issue_key issue))
      (ValueError ("duplicate issue in topology snapshot: " +:+ issue_key issue))
      (Ok (dict_set by_key (issue_key issue) issue)))
    [] issues.

Definition dependency_graph (by_key : pydict string TrackerIssue) : graph_t :=
  (λ kv, (kv.1, dict_fromkeys (blocker_keys kv.2))) <$> by_key.

(** [min(a, b, key=priority_rank)]: the first argument on a tie. *)
Definition min_priority (p q : IssuePriority) : IssuePriority :=
  if (priority_rank q <? priority_rank p)%nat then q else p.

(** [effective[blocker] = min(effective[blocker], effective[key], ...)] *)
Definition lift_blocker (key : string) (effective : gmap string IssuePriority)
    (blocker : string) : result exn (gmap string IssuePriority) :=
  match effective !! blocker, effective !! key with
  | Some pb, Some pk => Ok (<[blocker := min_priority pb pk]> effective)
  | None, _ => Err (KeyError blocker)
  | _, None => Err (KeyError key)
  end.

(** The double loop [for key in reversed(ordered): for blocker in graph[key]]. *)
Definition propagate (graph : graph_t) (order : list string)
    (effective : gmap string IssuePriority) : result exn (gmap string IssuePriority) :=
  foldM (λ eff key,
    match dict_get graph key with
    | Some blockers => foldM (lift_blocker key) eff blockers
    | None => Err (KeyError key)
    end) effective (reverse order).

(** [is_open(by_key[blocker].state_kind)], or membership in the caller's
    closure. A blocker absent from the snapshot was refused before this is read. *)
Definition is_live (by_key : pydict string TrackerIssue)
    (blocking_issue_keys : option (gset string)) (blocker : string) : bool :=
  match blocking_issue_keys with
  | None =>
      match dict_get by_key blocker with
      | Some b => is_open (state_kind b)
      | None => false
      end
  | Some keys => bool_decide (blocker ∈ keys)
  end.

(** The candidates split: no live blocker, or every live blocker named. *)
Definition place_candidate (by_key : pydict string TrackerIssue) (graph : graph_t)
    (blocking_issue_keys : option (gset string)) (effective : gmap string IssuePriority)
    (plan : list ReadyIssue * list BlockedIssue) (kv : string * TrackerIssue) :
    result exn (list ReadyIssue * list BlockedIssue) :=
  match dict_get graph kv.1, effective !! kv.1 with
  | Some blockers, Some p =>
      let live := filter (λ b, is_live by_key blocking_issue_keys b = true) blockers in
      Ok (match live with
          | [] => (plan.1 ++ [{| ready_issue := kv.2; effective_priority := p |}], plan.2)
          | _ => (plan.1, plan.2 ++ [{| blocked_issue_key := kv.1;
                                        blocked_blocker_keys := live |}])
          end)
  | _, _ => Err (KeyError kv.1)
  end.

Definition ready_key (entry : ReadyIssue) : nat * Z :=
  (priority_rank (effective_priority entry), created_at (ready_issue entry)).

Definition absent_keys (wanted : gset string) (by_key : pydict string TrackerIssue) :
    gset string :=
  wanted ∖ list_to_set (dict_keys by_key).

Definition sorted_keys (keys : gset string) : list string := sort_by id (elements keys).

(** The snapshot checks, in the order the code makes them. *)
Definition check_snapshot (by_key : pydict string TrackerIssue) (candidate_keys : gset string)
    (blocking_issue_keys : option (gset string)) (graph : graph_t) : result exn unit :=
  let unknown_candidates := absent_keys candidate_keys by_key in
  let missing := absent_keys (list_to_set (mjoin graph.*2)) by_key in
  raise_if (negb (bool_decide (unknown_candidates = ∅)))
    (ValueError ("candidate issues absent from topology snapshot: "
      +:+ join ", " (sorted_keys unknown_candidates)))
  (raise_if (match blocking_issue_keys with
             | Some keys => negb (bool_decide (absent_keys keys by_key = ∅))
             | None => false
             end)
    (ValueError "blocking issues absent from topology snapshot")
  (raise_if (negb (bool_decide (missing = ∅)))
    (ValueError ("blocker facts absent from topology snapshot: "
      +:+ join ", " (sorted_keys missing)))
  (Ok tt))).

Definition plan_topology (issues : list TrackerIssue) (candidate_keys : gset string)
    (blocking_issue_keys : option (gset string)) : option (result exn TopologyPlan) :=
  match
    by_key ← index_snapshot issues;
    _ ← check_snapshot by_key candidate_keys blocking_issue_keys (dependency_graph by_key);
    Ok by_key
  with
  | Err e => Some (Err e)
  | Ok by_key =>
      let graph := dependency_graph by_key in
      match _acyclic_order graph with
      | None => None
      | Some (Err e) => Some (Err e)
      | Some (Ok order) => Some (
          effective ← propagate graph order
            (list_to_map ((λ kv, (kv.1, priority kv.2)) <$> by_key));
          rb ← foldM (place_candidate by_key graph blocking_issue_keys effective) ([], [])
            (filter (λ kv, kv.1 ∈ candidate_keys) by_key);
          mret {| ready := sort_by ready_key rb.1; blocked := rb.2 |})
      end
  end.

(** ** The search, verified *)

Definition edge (graph : graph_t) (k b : string) : Prop :=
  ∃ bs, dict_get graph k = Some bs ∧ b ∈ bs.

(** A walk follows the edges of the graph. *)
Fixpoint walk (graph : graph_t) (l : list string) : Prop :=
  match l with
  | a :: l' => match l' with b :: _ => edge graph a b | [] => True end ∧ walk graph l'
  | [] => True
  end.

(** The offending cycle an error names: distinct keys, each blocked by the next,
    the last blocked by the first. *)
Definition is_cycle (graph : graph_t) (keys : list string) : Prop :=
  ∃ first rest, keys = first :: rest ∧ NoDup keys ∧ walk graph (keys ++ [first]).

(** Every key stands after everything that blocks it. *)
Definition blockers_first (graph : graph_t) (order : list string) : Prop :=
  ∀ l1 k l2, order = l1 ++ k :: l2 → ∀ b, edge graph k b → b ∈ l1.

Record closed_graph (graph : graph_t) : Prop := {
  closed_NoDup : NoDup (dict_keys graph);
  closed_edges : ∀ k b, edge graph k b → b ∈ dict_keys graph;
}.

Section search.
Context (graph : graph_t) (Hclosed : closed_graph graph).

(** What the iterators of a path still owe: every blocker of a node on the path
    is still ahead of it, already visited, or the node pushed above it. *)
Fixpoint frames (v : gset string) (above : option string)
    (path : list string) (stack : list (list string)) : Prop :=
  match path, stack with
  | [], [] => True
  | x :: path, it :: stack =>
      (∀ b, edge graph x b → b ∈ it ∨ b ∈ v ∨ above = Some b)
      ∧ (∀ b, b ∈ it → edge graph x b)
      ∧ (∀ a, above = Some a → edge graph x a)
      ∧ frames v (Some x) path stack
  | _, _ => False
  end.

Record dfs_inv (d : dfs) : Prop := {
  inv_active : active d = list_to_set (path d);
  inv_path_NoDup : NoDup (path d);
  inv_disjoint : ∀ x, x ∈ path d → x ∉ visited d;
  inv_visited : visited d = list_to_set (ordered d);
  inv_ordered_NoDup : NoDup (ordered d);
  inv_blockers_first : blockers_first graph (ordered d);
  inv_path_keys : ∀ x, x ∈ path d → x ∈ dict_keys graph;
  inv_ordered_keys : ∀ x, x ∈ ordered d → x ∈ dict_keys graph;
  inv_frames : frames (visited d) None (path d) (stack d);
}.

Lemma frames_mono v v' above path stack :
  v ⊆ v' → frames v above path stack → frames v' above path stack.
Proof.
  intros Hv. revert above stack.
  induction path as [|x path IH]; intros above [|it stack]; simpl; try done.
  intros (H1 & H2 & H3 & H4). split_and!; [|done..|by apply IH].
  intros b Hb. destruct (H1 b Hb) as [?|[?|?]]; set_solver.
Qed.

Lemma frames_pop v x path stack :
  frames v (Some x) path stack → frames ({[x]} ∪ v) None path stack.
Proof.
  destruct path as [|y path], stack as [|it stack]; simpl; try done.
  intros (H1 & H2 & H3 & H4). split_and!; [|done|done|].
  - intros b Hb. destruct (H1 b Hb) as [?|[?|[= ->]]]; set_solver.
  - eapply frames_mono; [|done]. set_solver.
Qed.

Lemma frames_walk v above path stack :
  frames v above path stack →
  walk graph (reverse path ++ option_list above).
Proof.
  revert above stack. induction path as [|x path IH]; intros above [|it stack]; simpl; try done.
  { by destruct above. }
  intros (_ & _ & H3 & H4). apply IH in H4. simpl in H4.
  rewrite reverse_cons. revert H4. generalize (reverse path). intros l.
  induction l as [|y l IHl]; simpl.
  - intros _. destruct above as [a|]; simpl; [|done]. split; [by apply H3|done].
  - intros [Hy Hl]. split; [|by apply IHl].
    destruct l; simpl in *; done.
Qed.

Lemma walk_suffix l1 l2 : walk graph (l1 ++ l2) → walk graph l2.
Proof. induction l1 as [|x l1 IH]; simpl; [done|]. intros [_ ?]; auto. Qed.

Lemma walk_snoc l a b :
  walk graph (l ++ [a]) → edge graph a b → walk graph (l ++ [a; b]).
Proof.
  induction l as [|x l IH]; simpl; [done|]. intros [Hx Hl] Hab.
  split; [|by apply IH]. destruct l; done.
Qed.

Lemma from_first_spec child l :
  child ∈ l → ∃ l1 rest, l = l1 ++ from_first child l ∧ from_first child l = child :: rest.
Proof.
  induction l as [|x l IH]; simpl; [set_solver|]. case_decide as Hx.
  - intros _. subst. by exists [], l.
  - intros [->|Hin]%elem_of_cons; [done|]. destruct (IH Hin) as (l1 & rest & E & Hr).
    exists (x :: l1), rest. split; [simpl; by f_equal|done].
Qed.

Lemma cycle_found d child it stack' :
  dfs_inv d → stack d = (child :: it) :: stack' → child ∈ path d →
  is_cycle graph (from_first child (reverse (path d))).
Proof.
  intros Hinv Hst Hin. pose proof (inv_frames _ Hinv) as Hf. rewrite Hst in Hf.
  destruct (path d) as [|x p] eqn:Hp; [by destruct stack'|].
  destruct Hf as (_ & Hit & _ & Hf). apply frames_walk in Hf. simpl in Hf.
  assert (edge graph x child) as Hxc by (apply Hit; by left).
  apply walk_snoc with (b := child) in Hf; [|done].
  destruct (from_first_spec child (reverse (x :: p))) as (l1 & rest & E & Hr).
  { by rewrite elem_of_reverse. }
  pose proof (inv_path_NoDup _ Hinv) as Hnd. rewrite Hp, <-reverse_Permutation in Hnd.
  rewrite E in Hnd. apply NoDup_app in Hnd as (_ & _ & Hnd).
  exists child, rest. split_and!; [done|done|].
  apply (walk_suffix l1). rewrite app_assoc, <-E, reverse_cons, <-app_assoc. done.
Qed.

(** *** Termination: a node or an edge is consumed by every step *)
Definition unseen (v : gset string) : nat :=
  sum_list_with (λ kv, if decide (kv.1 ∈ v) then 0 else S (length kv.2)) graph.
Definition dfs_measure (d : dfs) : nat :=
  unseen (visited d ∪ active d) + sum_list_with (λ it, S (length it)) (stack d).

Lemma unseen_insert v k bs :
  dict_get graph k = Some bs → k ∉ v → unseen v = unseen ({[k]} ∪ v) + S (length bs).
Proof using Hclosed.
  pose proof (closed_NoDup _ Hclosed) as Hnd. unfold unseen, dict_keys in *.
  clear Hclosed. induction graph as [|[j js] g IH]; simpl in *; [done|].
  apply NoDup_cons in Hnd as [Hj Hnd]. case_decide as Hjk.
  - intros [= ->] Hk. subst. rewrite (decide_False (P := k ∈ v)) by done.
    rewrite (decide_True (P := k ∈ {[k]} ∪ v)) by set_solver.
    rewrite (sum_with_ext (λ kv, if decide (kv.1 ∈ v) then 0 else S (length kv.2))
      (λ kv, if decide (kv.1 ∈ {[k]} ∪ v) then 0 else S (length kv.2)) g); [lia|].
    intros [i ns] Hi. simpl. assert (i ≠ k) as Hik.
    { intros ->. apply Hj, list_elem_of_fmap. by exists (k, ns). }
    repeat case_decide; set_solver.
  - intros Hg Hk. rewrite (IH Hnd Hg Hk).
    destruct (decide (j ∈ v)); [rewrite decide_True by set_solver|
      rewrite decide_False by set_solver]; simpl; lia.
Qed.

Lemma unseen_le_total v : unseen v ≤ sum_list_with (λ kv, S (length kv.2)) graph.
Proof. apply sum_with_le. intros kv _. case_decide; lia. Qed.

(** *** One step keeps the invariant and consumes one unit of the measure *)
Definition good_result (d : dfs) (r : dfs_result) : Prop :=
  match r with
  | Running d' => dfs_inv d' ∧ dfs_measure d = S (dfs_measure d')
                  ∧ (∀ x, x ∈ path d ∨ x ∈ visited d → x ∈ path d' ∨ x ∈ visited d')
  | Finished d' => d' = d ∧ path d = []
  | Raised e => ∃ keys, e = ScopeCycleError keys ∧ is_cycle graph keys
  end.

Lemma step_pop d stack' : dfs_inv d → stack d = [] :: stack' → good_result d (dfs_step graph d).
Proof using Hclosed.
  intros Hinv Hst. unfold dfs_step. rewrite Hst.
  pose proof (inv_frames _ Hinv) as Hf. rewrite Hst in Hf.
  destruct (path d) as [|x p] eqn:Hp; [done|].
  destruct Hf as (Hx & _ & _ & Hf).
  pose proof (inv_path_NoDup _ Hinv) as Hnd. rewrite Hp, NoDup_cons in Hnd.
  destruct Hnd as [Hxp Hnd].
  assert (x ∉ visited d) as Hxv by (apply (inv_disjoint _ Hinv); rewrite Hp; by left).
  pose proof (inv_visited _ Hinv) as Hv. pose proof (inv_active _ Hinv) as Ha.
  rewrite Hp in Ha. simpl in Ha.
  split_and!; [constructor; simpl| |].
  - rewrite Ha. apply set_eq. intros y. rewrite elem_of_difference, elem_of_union,
      !elem_of_list_to_set, !elem_of_singleton. split; [tauto|]. set_solver.
  - done.
  - intros y Hy. pose proof (inv_disjoint _ Hinv y). rewrite Hp in H. set_solver.
  - rewrite Hv, list_to_set_app_L. set_solver.
  - apply NoDup_app. split_and!; [apply (inv_ordered_NoDup _ Hinv)| |apply NoDup_singleton].
    intros y Hy. rewrite Hv, elem_of_list_to_set in Hxv. set_solver.
  - intros l1 k l2 E b Hb. destruct l2 as [|z l2 _] using rev_ind.
    + apply app_inj_tail in E as [<- <-]. destruct (Hx _ Hb) as [?|[Hbv|?]]; [set_solver| |done].
      by rewrite Hv, elem_of_list_to_set in Hbv.
    + rewrite app_comm_cons, app_assoc in E. apply app_inj_tail in E as [E _].
      by apply (inv_blockers_first _ Hinv _ _ _ E).
  - intros y Hy. apply (inv_path_keys _ Hinv). rewrite Hp. by right.
  - intros y [Hy| ->%list_elem_of_singleton]%elem_of_app; [by apply (inv_ordered_keys _ Hinv)|].
    apply (inv_path_keys _ Hinv). rewrite Hp. by left.
  - by apply frames_pop.
  - unfold dfs_measure. simpl. rewrite Hst. simpl.
    replace ({[x]} ∪ visited d ∪ active d ∖ {[x]}) with (visited d ∪ active d); [lia|].
    rewrite Ha. apply set_eq. intros y. rewrite !elem_of_union, elem_of_difference,
      elem_of_union, !elem_of_singleton. destruct (decide (y = x)); tauto.
  - simpl. rewrite Hp. set_solver.
Qed.

Lemma frames_top_advance v x path child it stack' :
  frames v None (x :: path) ((child :: it) :: stack') → child ∈ v →
  frames v None (x :: path) (it :: stack').
Proof.
  intros (H1 & H2 & _ & H4) Hv. split_and!; [|set_solver|done|done].
  intros b Hb. destruct (H1 b Hb) as [?|[?|?]]; set_solver.
Qed.

Lemma frames_push v x path child it stack' children :
  frames v None (x :: path) ((child :: it) :: stack') →
  dict_get graph child = Some children →
  frames v None (child :: x :: path) (children :: it :: stack').
Proof.
  intros (H1 & H2 & _ & H4) Hg. simpl. split_and!; try done.
  - intros b (bs & Hbs & Hb). left. congruence.
  - intros b Hb. by exists children.
  - intros b Hb. destruct (H1 b Hb) as [Hin|[?|?]]; [|tauto|done].
    apply elem_of_cons in Hin as [->|?]; tauto.
  - set_solver.
  - intros a [= <-]. apply H2. by left.
Qed.

Lemma step_child d child it stack' :
  dfs_inv d → stack d = (child :: it) :: stack' → good_result d (dfs_step graph d).
Proof using Hclosed.
  intros Hinv Hst. unfold dfs_step. rewrite Hst.
  pose proof (inv_frames _ Hinv) as Hf. rewrite Hst in Hf.
  destruct (path d) as [|x p] eqn:Hp; [done|].
  case_decide as Hact.
  { rewrite <-Hp. eexists. split; [done|]. eapply cycle_found; [done..|].
    by rewrite (inv_active _ Hinv), elem_of_list_to_set in Hact. }
  assert (edge graph x child) as Hxc.
  { destruct Hf as (_ & Hit & _). apply Hit. by left. }
  case_decide as Hvis.
  - split_and!; [|unfold dfs_measure; simpl; rewrite Hst; simpl; lia|simpl; rewrite Hp; tauto].
    constructor; cbn [visited ordered path active stack]; rewrite <-?Hp; try apply Hinv.
    rewrite Hp. by eapply frames_top_advance.
  - apply (closed_edges _ Hclosed) in Hxc as Hkeys.
    destruct (proj2 (dict_get_is_Some graph child) Hkeys) as [children Hg]. rewrite Hg.
    rewrite (inv_active _ Hinv), Hp, elem_of_list_to_set in Hact.
    split_and!; [constructor; simpl| |simpl; rewrite Hp; set_solver].
    + by rewrite (inv_active _ Hinv), Hp.
    + rewrite NoDup_cons. split; [done|]. rewrite <-Hp. apply Hinv.
    + intros y [->|Hy]%elem_of_cons; [done|]. apply (inv_disjoint _ Hinv). by rewrite Hp.
    + apply Hinv.
    + apply Hinv.
    + apply (inv_blockers_first _ Hinv).
    + intros y [->|Hy]%elem_of_cons; [done|]. apply (inv_path_keys _ Hinv). by rewrite Hp.
    + apply (inv_ordered_keys _ Hinv).
    + by eapply frames_push.
    + unfold dfs_measure. simpl. rewrite Hst. simpl.
      rewrite (unseen_insert (visited d ∪ active d) child children); [|done|].
      * replace ({[child]} ∪ (visited d ∪ active d)) with (visited d ∪ ({[child]} ∪ active d))
          by set_solver. lia.
      * rewrite (inv_active _ Hinv), Hp, elem_of_union, elem_of_list_to_set. tauto.
Qed.

Lemma step_good d : dfs_inv d → good_result d (dfs_step graph d).
Proof using Hclosed.
  intros Hinv. destruct (stack d) as [|[|child it] stack'] eqn:Hst.
  - unfold dfs_step. rewrite Hst. split; [done|]. pose proof (inv_frames _ Hinv) as Hf.
    rewrite Hst in Hf. by destruct (path d).
  - by eapply step_pop.
  - by eapply step_child.
Qed.

(** The inner loop ends within its measure, in a search with an empty path that
    has visited everything it started from, or in a genuine cycle. *)
Lemma dfs_loop_ends fuel d :
  dfs_inv d → dfs_measure d < fuel →
  ∃ r, dfs_loop fuel graph d = Some r ∧
    match r with
    | Ok d' => dfs_inv d' ∧ path d' = []
               ∧ ∀ x, x ∈ path d ∨ x ∈ visited d → x ∈ visited d'
    | Err e => ∃ keys, e = ScopeCycleError keys ∧ is_cycle graph keys
    end.
Proof using Hclosed.
  revert d. induction fuel as [|fuel IH]; intros d Hinv Hm; [lia|]. simpl.
  pose proof (step_good d Hinv) as Hs. destruct (dfs_step graph d) as [d'|d'|e].
  - destruct Hs as (Hinv' & Hm' & Hkeep). destruct (IH d' Hinv') as (r & -> & Hr); [lia|].
    exists r. split; [done|]. destruct r as [d''|e]; [|done].
    destruct Hr as (? & ? & Hall). split_and!; [done..|]. intros x Hx. by apply Hall, Hkeep.
  - destruct Hs as [-> Hp]. exists (Ok d). split_and!; [done..|].
    intros x. rewrite Hp. set_solver.
  - by exists (Err e).
Qed.

Lemma visit_roots_end roots d :
  dfs_inv d → path d = [] → (∀ kv, kv ∈ roots → dict_get graph kv.1 = Some kv.2) →
  ∃ r, visit_roots graph d roots = Some r ∧
    match r with
    | Ok d' => dfs_inv d' ∧ path d' = []
               ∧ ∀ x, x ∈ dict_keys roots ∨ x ∈ visited d → x ∈ visited d'
    | Err e => ∃ keys, e = ScopeCycleError keys ∧ is_cycle graph keys
    end.
Proof using Hclosed.
  revert d. induction roots as [|[root children] roots IH]; intros d Hinv Hp Hroots.
  { exists (Ok d). split_and!; [done..|]. unfold dict_keys. set_solver. }
  simpl. unfold visit_root. case_decide as Hv.
  { destruct (IH d Hinv Hp) as (r & -> & Hr); [set_solver|]. exists r. split; [done|].
    destruct r; [|done]. destruct Hr as (? & ? & Hall). split_and!; [done..|].
    unfold dict_keys in *. simpl. intros x Hx. apply Hall. set_solver. }
  assert (dict_get graph root = Some children) as Hg by (apply (Hroots (root, children)); by left).
  destruct (dfs_loop_ends (graph_fuel graph) {|
    visited := visited d; ordered := ordered d;
    path := [root]; active := {[ root ]}; stack := [children] |}) as (r & -> & Hr).
  - constructor; simpl; try apply Hinv.
    + set_solver.
    + apply NoDup_singleton.
    + set_solver.
    + intros y ->%list_elem_of_singleton. apply dict_get_is_Some. eauto.
    + split_and!; [|intros b Hb; by exists children|done|done].
      intros b (bs & Hbs & Hb). left. congruence.
  - unfold dfs_measure, graph_fuel. simpl.
    pose proof (unseen_insert (visited d) root children Hg Hv) as Hu.
    pose proof (unseen_le_total (visited d)).
    replace (visited d ∪ {[root]}) with ({[root]} ∪ visited d) by set_solver. lia.
  - destruct r as [d'|e]; [|by exists (Err e)].
    destruct Hr as (Hinv' & Hp' & Hall). simpl in Hall.
    destruct (IH d' Hinv' Hp') as (r & -> & Hr); [set_solver|]. exists r. split; [done|].
    destruct r; [|done]. destruct Hr as (? & ? & Hall'). split_and!; [done..|].
    unfold dict_keys in *. simpl. intros x Hx. apply Hall'. set_solver.
Qed.

Lemma dfs_start_inv : dfs_inv dfs_start.
Proof.
  constructor; simpl; try done; try (intros ? []%not_elem_of_nil); try constructor.
  intros [|] ? ? E; done.
Qed.

Lemma acyclic_order_ends :
  ∃ r, _acyclic_order graph = Some r ∧
    match r with
    | Ok order => order ≡ₚ dict_keys graph ∧ blockers_first graph order
    | Err e => ∃ keys, e = ScopeCycleError keys ∧ is_cycle graph keys
    end.
Proof using Hclosed.
  unfold _acyclic_order. destruct (visit_roots_end graph dfs_start) as (r & -> & Hr).
  - apply dfs_start_inv.
  - done.
  - intros [k bs] Hin. by apply dict_get_NoDup; [apply Hclosed|].
  - destruct r as [d|e]; [|by exists (Err e)]. destruct Hr as (Hinv & Hp & Hall).
    exists (Ok (ordered d)). split; [done|]. split; [|apply Hinv].
    apply NoDup_Permutation; [apply Hinv|apply Hclosed|]. intros x. split.
    + apply (inv_ordered_keys _ Hinv).
    + intros Hx. assert (x ∈ visited d) as Hx' by (apply Hall; by left).
      by rewrite (inv_visited _ Hinv), elem_of_list_to_set in Hx'.
Qed.
End search.

(** ** Priority propagation, verified *)

Lemma min_priority_le_l p q : priority_rank (min_priority p q) ≤ priority_rank p.
Proof. by destruct p, q; vm_compute; lia. Qed.
Lemma min_priority_le_r p q : priority_rank (min_priority p q) ≤ priority_rank q.
Proof. by destruct p, q; vm_compute; lia. Qed.
Lemma min_priority_or p q : min_priority p q = p ∨ min_priority p q = q.
Proof. destruct p, q; vm_compute; tauto. Qed.
Lemma min_priority_absorb p q : min_priority (min_priority p q) q = min_priority p q.
Proof. by destruct p, q. Qed.

(** [k] must wait, transitively, for [b]; every key waits for itself. *)
Definition waits_for (graph : graph_t) : string → string → Prop := rtc (edge graph).

(** The most urgent priority among everything that waits for [k]. *)
Definition inherited_priority (graph : graph_t) (own : gmap string IssuePriority)
    (k : string) (p : IssuePriority) : Prop :=
  (∃ k', waits_for graph k' k ∧ own !! k' = Some p)
  ∧ ∀ k' p', waits_for graph k' k → own !! k' = Some p' → priority_rank p ≤ priority_rank p'.

Lemma lift_blockers key pk bs (eff : gmap string IssuePriority) :
  eff !! key = Some pk → key ∉ bs → (∀ b, b ∈ bs → is_Some (eff !! b)) →
  ∃ eff', foldM (lift_blocker key) eff bs = Ok eff' ∧
    ∀ k, eff' !! k = if decide (k ∈ bs) then (λ p, min_priority p pk) <$> eff !! k
                     else eff !! k.
Proof.
  revert eff. induction bs as [|b bs IH]; intros eff Hk Hnin Hsome; simpl.
  { by exists eff. }
  destruct (Hsome b) as [pb Hb]; [by left|]. unfold lift_blocker at 1. rewrite Hb, Hk.
  destruct (IH (<[b:=min_priority pb pk]> eff)) as (eff' & -> & Heff').
  - rewrite lookup_insert_ne; [done|set_solver].
  - set_solver.
  - intros b' Hb'. destruct (decide (b = b')) as [->|].
    + rewrite lookup_insert_eq. eauto.
    + rewrite lookup_insert_ne by done. apply Hsome. by right.
  - exists eff'. split; [done|]. intros k. rewrite Heff'.
    destruct (decide (b = k)) as [<-|Hbk].
    + rewrite lookup_insert_eq, Hb. rewrite (decide_True (P := b ∈ b :: bs)) by set_solver.
      simpl. by case_decide; simpl; rewrite ?min_priority_absorb.
    + rewrite lookup_insert_ne by done.
      destruct (decide (k ∈ bs)); [rewrite decide_True by set_solver|
        rewrite decide_False by set_solver]; done.
Qed.

Section propagation.
Context (graph : graph_t) (Hclosed : closed_graph graph).
Context (order : list string) (Horder : order ≡ₚ dict_keys graph).
Context (Hfirst : blockers_first graph order).
Context (own : gmap string IssuePriority).
Context (Hown : ∀ k, k ∈ dict_keys graph ↔ is_Some (own !! k)).

(** What holds once the keys [dn] have handed their priority to their blockers. *)
Record propagated (dn : list string) (eff : gmap string IssuePriority) : Prop := {
  prop_dom : ∀ k, is_Some (own !! k) ↔ is_Some (eff !! k);
  prop_sound : ∀ k p, eff !! k = Some p → ∃ k', waits_for graph k' k ∧ own !! k' = Some p;
  prop_le_own : ∀ k p p0, eff !! k = Some p → own !! k = Some p0 →
    priority_rank p ≤ priority_rank p0;
  prop_handed : ∀ j b pj pb, j ∈ dn → edge graph j b →
    eff !! j = Some pj → eff !! b = Some pb → priority_rank pb ≤ priority_rank pj;
}.

Lemma propagated_step dn key rest eff :
  reverse order = dn ++ key :: rest → propagated dn eff →
  ∃ bs eff', dict_get graph key = Some bs ∧
    foldM (lift_blocker key) eff bs = Ok eff' ∧ propagated (dn ++ [key]) eff'.
Proof using Hclosed Horder Hfirst Hown.
  intros Hrev HP.
  assert (order = reverse rest ++ key :: reverse dn) as Hsplit.
  { rewrite <-(reverse_involutive order), Hrev, reverse_app, reverse_cons, <-app_assoc. done. }
  assert (key ∈ dict_keys graph) as Hkey by (rewrite <-Horder, Hsplit; set_solver).
  destruct (proj2 (dict_get_is_Some graph key) Hkey) as [bs Hbs].
  destruct (proj1 (prop_dom _ _ HP key) (proj1 (Hown key) Hkey)) as [pk Hpk].
  assert (NoDup order) as Hnd by (rewrite Horder; apply Hclosed).
  assert (∀ b, b ∈ bs → b ∈ reverse rest) as Hbefore.
  { intros b Hb. apply (Hfirst _ _ _ Hsplit). by exists bs. }
  assert (∀ b, b ∈ bs → b ≠ key ∧ b ∉ dn) as Hlater.
  { intros b Hb%Hbefore. rewrite Hsplit in Hnd. apply NoDup_app in Hnd as (_ & Hnd & _).
    specialize (Hnd b Hb). rewrite elem_of_cons, elem_of_reverse in Hnd. tauto. }
  assert (∀ b, b ∈ bs → edge graph key b) as Hedge by (intros b Hb; by exists bs).
  destruct (lift_blockers key pk bs eff Hpk) as (eff' & Hfold & Heff').
  { intros Hin. by apply Hlater in Hin as [? _]. }
  { intros b Hb. apply (prop_dom _ _ HP), Hown, (closed_edges _ Hclosed key), Hedge, Hb. }
  exists bs, eff'. split_and!; [done..|]. split.
  - intros k. rewrite (prop_dom _ _ HP k), Heff'. case_decide; [|done]. by rewrite fmap_is_Some.
  - intros k p. rewrite Heff'. case_decide as Hin; [|by apply (prop_sound _ _ HP)].
    destruct (eff !! k) as [pk'|] eqn:E; [|done]. intros [= <-].
    destruct (min_priority_or pk' pk) as [-> | ->]; [by apply (prop_sound _ _ HP)|].
    destruct (prop_sound _ _ HP _ _ Hpk) as (k' & Hk' & ?). exists k'. split; [|done].
    eapply rtc_r; [exact Hk'|by apply Hedge].
  - intros k p p0. rewrite Heff'. case_decide; [|by apply (prop_le_own _ _ HP)].
    destruct (eff !! k) as [pk'|] eqn:E; [|done]. intros [= <-] Hp0.
    pose proof (prop_le_own _ _ HP _ _ _ E Hp0). pose proof (min_priority_le_l pk' pk). lia.
  - intros j b pj pb Hj Hjb. rewrite !Heff'. apply elem_of_app in Hj.
    rewrite (decide_False (P := j ∈ bs)).
    2:{ intros Hin. apply Hlater in Hin. set_solver. }
    intros Hpj Hpb. destruct Hj as [Hj|Hj%list_elem_of_singleton].
    + case_decide; [|by eapply (prop_handed _ _ HP)].
      destruct (eff !! b) as [pb'|] eqn:E; [|done]. injection Hpb as <-.
      pose proof (prop_handed _ _ HP _ _ _ _ Hj Hjb Hpj E).
      pose proof (min_priority_le_l pb' pk). lia.
    + subst j. rewrite Hpk in Hpj. injection Hpj as <-.
      destruct Hjb as (bs' & Hbs' & Hb). rewrite Hbs in Hbs'. injection Hbs' as <-.
      rewrite decide_True in Hpb by done.
      destruct (eff !! b) as [pb'|] eqn:E; [|done]. injection Hpb as <-.
      apply min_priority_le_r.
Qed.

Lemma propagate_ends :
  ∃ eff, propagate graph order own = Ok eff ∧ propagated (reverse order) eff.
Proof using Hclosed Horder Hfirst Hown.
  unfold propagate.
  enough (∀ dn rest eff, reverse order = dn ++ rest → propagated dn eff →
    ∃ eff', foldM (λ eff key, match dict_get graph key with
      | Some blockers => foldM (lift_blocker key) eff blockers
      | None => Err (KeyError key) end) eff rest = Ok eff' ∧ propagated (reverse order) eff')
    as Hgo.
  { apply (Hgo []); [done|]. split.
    - done.
    - intros k p Hp. exists k. split; [apply rtc_refl|done].
    - intros k p p0 -> [= ->]. done.
    - intros j b pj pb Hj. by apply not_elem_of_nil in Hj. }
  intros dn rest. revert dn. induction rest as [|key rest IH]; intros dn eff Hrev HP; simpl.
  { exists eff. split; [done|]. by rewrite Hrev, app_nil_r. }
  destruct (propagated_step dn key rest eff Hrev HP) as (bs & eff1 & -> & -> & HP1).
  apply (IH (dn ++ [key])); [by rewrite <-app_assoc|done].
Qed.

Lemma propagated_inherits eff k p :
  propagated (reverse order) eff → eff !! k = Some p → inherited_priority graph own k p.
Proof using Hclosed Horder Hown.
  intros HP Hp. split; [by apply (prop_sound _ _ HP)|].
  intros k' p' Hw Hp'.
  assert (∃ q, eff !! k' = Some q ∧ priority_rank q ≤ priority_rank p') as (q & Hq & Hqp).
  { destruct (proj1 (prop_dom _ _ HP k')) as [q Hq]; [eauto|]. exists q.
    split; [done|]. by eapply (prop_le_own _ _ HP). }
  enough (priority_rank p ≤ priority_rank q) by lia.
  clear p' Hp' Hqp. revert q Hq. induction Hw as [k|k' j k Hkj Hw IH]; intros q Hq.
  { rewrite Hp in Hq. by injection Hq as ->. }
  destruct Hkj as (bs & Hbs & Hj).
  assert (edge graph k' j) as Hkj by (by exists bs).
  destruct (proj1 (prop_dom _ _ HP j)) as [qj Hqj].
  { apply Hown. by eapply (closed_edges _ Hclosed). }
  pose proof (IH Hp _ Hqj). enough (priority_rank qj ≤ priority_rank q) by lia.
  eapply (prop_handed _ _ HP); [|done..]. rewrite elem_of_reverse, Horder.
  apply dict_get_is_Some. eauto.
Qed.
End propagation.

(** ** The plan, verified *)

Definition keyed (issues : list TrackerIssue) : pydict string TrackerIssue :=
  (λ issue, (issue_key issue, issue)) <$> issues.
Definition issue_graph (issues : list TrackerIssue) : graph_t := dependency_graph (keyed issues).
Definition own_priority (issues : list TrackerIssue) : gmap string IssuePriority :=
  list_to_map ((λ kv, (kv.1, priority kv.2)) <$> keyed issues).

(** The blockers of an issue that still hold it, each named once. *)
Definition live_of (issues : list TrackerIssue) (blocking : option (gset string))
    (issue : TrackerIssue) : list string :=
  filter (λ b, is_live (keyed issues) blocking b = true) (dict_fromkeys (blocker_keys issue)).

(** What the caller must supply: distinct issues, candidates and closure within
    them, and the facts of every blocker named. *)
Record snapshot_complete (issues : list TrackerIssue) (candidates : gset string)
    (blocking : option (gset string)) : Prop := {
  snap_NoDup : NoDup (issue_key <$> issues);
  snap_candidates : ∀ k, k ∈ candidates → k ∈ issue_key <$> issues;
  snap_blocking : ∀ keys k, blocking = Some keys → k ∈ keys → k ∈ issue_key <$> issues;
  snap_blockers : ∀ issue k, issue ∈ issues → k ∈ blocker_keys issue → k ∈ issue_key <$> issues;
}.

Lemma keyed_keys issues : dict_keys (keyed issues) = issue_key <$> issues.
Proof. unfold dict_keys, keyed. rewrite <-list_fmap_compose. done. Qed.

Lemma index_snapshot_ok issues by_key :
  index_snapshot issues = Ok by_key ↔ NoDup (issue_key <$> issues) ∧ by_key = keyed issues.
Proof.
  unfold index_snapshot.
  enough (∀ acc, NoDup (dict_keys acc) → foldM (λ d issue,
      raise_if (dict_mem d (issue_key issue))
        (ValueError ("duplicate issue in topology snapshot: " +:+ issue_key issue))
        (Ok (dict_set d (issue_key issue) issue))) acc issues = Ok by_key
    ↔ NoDup (dict_keys acc ++ (issue_key <$> issues)) ∧ by_key = acc ++ keyed issues) as Hgo
    by (apply (Hgo []); constructor).
  induction issues as [|i issues IH]; intros acc Hacc; simpl.
  { rewrite !app_nil_r. split; [by intros [= <-]|by intros [_ ->]]. }
  unfold dict_mem at 1. case_bool_decide as Hin; simpl.
  { split; [done|]. intros [Hnd _]. apply NoDup_app in Hnd as (_ & Hnd & _). set_solver. }
  rewrite IH by (by apply dict_set_NoDup). rewrite dict_set_fresh by done.
  unfold dict_keys. rewrite fmap_app, <-!app_assoc. done.
Qed.

Lemma dependency_graph_keys by_key : dict_keys (dependency_graph by_key) = dict_keys by_key.
Proof. unfold dict_keys, dependency_graph. by rewrite <-list_fmap_compose. Qed.

Lemma dependency_graph_get by_key k :
  dict_get (dependency_graph by_key) k
  = (λ i, dict_fromkeys (blocker_keys i)) <$> dict_get by_key k.
Proof. induction by_key as [|[j i] d IH]; simpl; [done|]. by case_decide. Qed.

Lemma keyed_get issues issue :
  NoDup (issue_key <$> issues) → issue ∈ issues →
  dict_get (keyed issues) (issue_key issue) = Some issue.
Proof.
  intros Hnd Hin. apply dict_get_NoDup; [by rewrite keyed_keys|].
  apply list_elem_of_fmap. by exists issue.
Qed.

Lemma absent_keys_empty keys by_key :
  absent_keys keys by_key = ∅ ↔ ∀ k, k ∈ keys → k ∈ dict_keys by_key.
Proof.
  unfold absent_keys. split.
  - intros H k Hk. destruct (decide (k ∈ dict_keys by_key)) as [|Hn]; [done|].
    assert (k ∈ keys ∖ list_to_set (dict_keys by_key)) as Hin; [|by rewrite H in Hin].
    by rewrite elem_of_difference, elem_of_list_to_set.
  - intros H. apply set_eq. intros k. rewrite elem_of_difference, elem_of_list_to_set.
    split; [|set_solver]. intros [? []]. auto.
Qed.

Lemma check_snapshot_ok issues candidates blocking :
  NoDup (issue_key <$> issues) →
  check_snapshot (keyed issues) candidates blocking (issue_graph issues) = Ok () ↔
  snapshot_complete issues candidates blocking.
Proof.
  intros Hnd. unfold check_snapshot.
  rewrite !raise_if_ok, !negb_false_iff, !bool_decide_eq_true, !absent_keys_empty, keyed_keys.
  assert ((∀ k, k ∈ (list_to_set (mjoin (issue_graph issues).*2) : gset string) →
      k ∈ issue_key <$> issues) ↔
    ∀ issue k, issue ∈ issues → k ∈ blocker_keys issue → k ∈ issue_key <$> issues) as ->.
  { unfold issue_graph, dependency_graph, keyed. rewrite <-!list_fmap_compose.
    setoid_rewrite elem_of_list_to_set. split.
    - intros H i k Hi Hk. apply H, list_elem_of_join.
      exists (dict_fromkeys (blocker_keys i)). split; [by apply elem_of_fromkeys|].
      apply list_elem_of_fmap. by exists i.
    - intros H k (l & Hk & (i & -> & Hi)%list_elem_of_fmap)%list_elem_of_join.
      simpl in Hk. rewrite elem_of_fromkeys in Hk. exact (H i k Hi Hk). }
  destruct blocking as [keys|].
  - rewrite negb_false_iff, bool_decide_eq_true, absent_keys_empty, keyed_keys. split.
    + intros (? & ? & ? & _). split; try done. by intros ? ? [= <-]; auto.
    + intros []. split_and!; eauto.
  - split.
    + intros (? & _ & ? & _). by split.
    + intros []. by split_and!.
Qed.

Lemma own_priority_get issues issue :
  NoDup (issue_key <$> issues) → issue ∈ issues →
  own_priority issues !! issue_key issue = Some (priority issue).
Proof.
  intros Hnd Hin. unfold own_priority, keyed. rewrite <-list_fmap_compose.
  apply elem_of_list_to_map_1.
  - by rewrite <-list_fmap_compose.
  - apply list_elem_of_fmap. by exists issue.
Qed.

Lemma own_priority_dom issues k :
  k ∈ issue_key <$> issues ↔ is_Some (own_priority issues !! k).
Proof.
  unfold own_priority, keyed. rewrite <-not_eq_None_Some, <-list_fmap_compose.
  rewrite <-not_elem_of_list_to_map, <-list_fmap_compose.
  change (fst ∘ _) with issue_key. destruct (decide (k ∈ issue_key <$> issues)); tauto.
Qed.

Lemma issue_graph_closed issues candidates blocking :
  snapshot_complete issues candidates blocking → closed_graph (issue_graph issues).
Proof.
  intros Hs. unfold issue_graph. split; rewrite dependency_graph_keys, keyed_keys.
  { apply Hs. }
  intros k b (bs & Hbs & Hb). rewrite dependency_graph_get in Hbs.
  destruct (dict_get (keyed issues) k) as [i|] eqn:Hi; [|done]. injection Hbs as <-.
  apply dict_get_elem, list_elem_of_fmap in Hi as (i' & [= -> ->] & Hi).
  rewrite elem_of_fromkeys in Hb. by eapply (snap_blockers _ _ _ Hs).
Qed.

(** Which list the placement loop files a candidate in. *)
Definition ready_of (graph : graph_t) (live : list string → list string)
    (effective : gmap string IssuePriority) (kv : string * TrackerIssue) : option ReadyIssue :=
  match dict_get graph kv.1, effective !! kv.1 with
  | Some blockers, Some p =>
      match live blockers with
      | [] => Some {| ready_issue := kv.2; effective_priority := p |}
      | _ => None
      end
  | _, _ => None
  end.
Definition blocked_of (graph : graph_t) (live : list string → list string)
    (kv : string * TrackerIssue) : option BlockedIssue :=
  match dict_get graph kv.1 with
  | Some blockers =>
      match live blockers with
      | [] => None
      | l => Some {| blocked_issue_key := kv.1; blocked_blocker_keys := l |}
      end
  | None => None
  end.

Lemma place_candidates by_key graph blocking effective cands acc :
  (∀ kv, kv ∈ cands → is_Some (dict_get graph kv.1) ∧ is_Some (effective !! kv.1)) →
  let live := filter (λ b, is_live by_key blocking b = true) in
  foldM (place_candidate by_key graph blocking effective) acc cands
  = Ok (acc.1 ++ omap (ready_of graph live effective) cands,
        acc.2 ++ omap (blocked_of graph live) cands).
Proof.
  intros Hc live. revert acc. induction cands as [|kv cands IH]; intros acc; simpl.
  { rewrite !app_nil_r. by destruct acc. }
  destruct (Hc kv) as [[bs Hbs] [p Hp]]; [by left|].
  unfold place_candidate at 1, ready_of, blocked_of. rewrite Hbs, Hp.
  fold live. rewrite IH by (intros; apply Hc; by right).
  destruct (live bs) as [|b bs'] eqn:Hl; simpl; by rewrite <-app_assoc.
Qed.

Lemma inherited_priority_unique graph own k p q :
  inherited_priority graph own k p → inherited_priority graph own k q → p = q.
Proof.
  intros [(k1 & Hk1 & Hp) Hpmin] [(k2 & Hk2 & Hq) Hqmin].
  apply priority_rank_inj. pose proof (Hpmin _ _ Hk2 Hq). pose proof (Hqmin _ _ Hk1 Hp). lia.
Qed.

(** The plan a complete snapshot gets: a cycle, or the two lists filed from an
    order that puts blockers first and from the inherited priorities. *)
Lemma plan_topology_complete issues candidates blocking :
  snapshot_complete issues candidates blocking →
  let graph := issue_graph issues in
  let live := filter (λ b, is_live (keyed issues) blocking b = true) in
  let cands := filter (λ kv, kv.1 ∈ candidates) (keyed issues) in
  (∃ keys, plan_topology issues candidates blocking = Some (Err (ScopeCycleError keys))
     ∧ is_cycle graph keys)
  ∨ ∃ eff : gmap string IssuePriority,
      (∀ k, k ∈ issue_key <$> issues →
         ∃ p, eff !! k = Some p ∧ inherited_priority graph (own_priority issues) k p)
      ∧ plan_topology issues candidates blocking = Some (Ok {|
          ready := sort_by ready_key (omap (ready_of graph live eff) cands);
          blocked := omap (blocked_of graph live) cands |}).
Proof.
  intros Hs. cbv zeta. pose proof (issue_graph_closed _ _ _ Hs) as Hcl.
  assert (dict_keys (issue_graph issues) = issue_key <$> issues) as Hkeys
    by (unfold issue_graph; by rewrite dependency_graph_keys, keyed_keys).
  unfold plan_topology.
  rewrite (proj2 (index_snapshot_ok issues (keyed issues)) (conj (snap_NoDup _ _ _ Hs) eq_refl)).
  cbn [mbind result_bind].
  change (dependency_graph (keyed issues)) with (issue_graph issues).
  rewrite (proj2 (check_snapshot_ok issues candidates blocking (snap_NoDup _ _ _ Hs)) Hs).
  cbn [mbind result_bind].
  change (dependency_graph (keyed issues)) with (issue_graph issues).
  change (list_to_map ((λ kv, (kv.1, priority kv.2)) <$> keyed issues)) with (own_priority issues).
  destruct (acyclic_order_ends _ Hcl) as (r & Hr & Hspec). rewrite Hr.
  destruct r as [order|e].
  2:{ left. destruct Hspec as (keys & -> & Hcyc). by exists keys. }
  right. destruct Hspec as [Hperm Hfirst].
  destruct (propagate_ends (issue_graph issues) Hcl order Hperm Hfirst (own_priority issues))
    as (eff & Heff & HP).
  { intros k. rewrite Hkeys. apply own_priority_dom. }
  assert (∀ k, k ∈ issue_key <$> issues →
    ∃ p, eff !! k = Some p ∧ inherited_priority (issue_graph issues) (own_priority issues) k p) as Hinh.
  { intros k Hk. apply own_priority_dom, (prop_dom _ _ _ _ HP) in Hk as [p Hp]. exists p.
    split; [done|]. eapply propagated_inherits; [done..| |exact HP|done].
    intros k'. rewrite Hkeys. apply own_priority_dom. }
  exists eff. split; [done|]. rewrite Heff.
  cbn [mbind result_bind]. rewrite place_candidates; [done|].
  intros kv Hkv. apply list_elem_of_filter in Hkv as [_ Hkv].
  assert (kv.1 ∈ issue_key <$> issues) as Hin
    by (rewrite <-keyed_keys; by apply list_elem_of_fmap_2).
  destruct (Hinh _ Hin) as (p & Hp & _). split; [|by eexists].
  apply dict_get_is_Some. change (kv.1 ∈ dict_keys (issue_graph issues)). by rewrite Hkeys.
Qed.

(** The checks before the graph is searched raise [ValueError] only. *)
Lemma index_snapshot_raises issues e :
  index_snapshot issues = Err e → ∃ message, e = ValueError message.
Proof.
  unfold index_snapshot. generalize ([] : pydict string TrackerIssue).
  induction issues as [|i issues IH]; intros acc; simpl; [done|].
  destruct (dict_mem acc (issue_key i)); simpl; [intros [= <-]; eauto|apply IH].
Qed.

Lemma check_snapshot_raises by_key candidates blocking graph e :
  check_snapshot by_key candidates blocking graph = Err e → ∃ message, e = ValueError message.
Proof.
  unfold check_snapshot, raise_if. repeat case_match; intros [= <-]; eauto.
Qed.

(** Any other snapshot is refused, before the graph is searched. *)
Lemma plan_topology_incomplete issues candidates blocking :
  ¬ snapshot_complete issues candidates blocking →
  ∃ message, plan_topology issues candidates blocking = Some (Err (ValueError message)).
Proof.
  intros Hs. unfold plan_topology.
  destruct (index_snapshot issues) as [by_key|e] eqn:Hi; cbn [mbind result_bind].
  2:{ apply index_snapshot_raises in Hi as [m ->]. by exists m. }
  apply index_snapshot_ok in Hi as [Hnd ->].
  destruct (check_snapshot _ _ _ _) as [[]|e] eqn:Hc; cbn [mbind result_bind].
  - destruct Hs. by apply check_snapshot_ok.
  - apply check_snapshot_raises in Hc as [m ->]. by exists m.
Qed.

(** ** The properties *)

(** Along a closed walk, every key has a blocker on the walk. *)
Lemma walk_step graph l z x :
  walk graph (l ++ [z]) → x ∈ l → ∃ b, edge graph x b ∧ b ∈ l ++ [z].
Proof.
  induction l as [|a l IH]; simpl; [by intros _ ?%not_elem_of_nil|].
  intros [He Hw] [->|Hx]%elem_of_cons.
  - destruct l as [|b l]; simpl in *.
    + exists z. split; [done|]. by right; left.
    + exists b. split; [done|]. by right; left.
  - destruct (IH Hw Hx) as (b & ? & ?). exists b. split; [done|]. by right.
Qed.

(** No cycle fits in an order that puts blockers first. *)
Lemma blockers_first_acyclic graph order keys :
  blockers_first graph order → (∀ k, k ∈ dict_keys graph → k ∈ order) → ¬ is_cycle graph keys.
Proof.
  intros Hf Hall (k0 & rest & -> & _ & Hw).
  assert (∀ x, x ∈ k0 :: rest → ∃ b, edge graph x b ∧ b ∈ k0 :: rest) as Hstep.
  { intros x Hx. destruct (walk_step _ _ _ _ Hw Hx) as (b & ? & Hb). exists b. set_solver. }
  assert (k0 ∈ order) as Hk0.
  { destruct (Hstep k0) as (b & (bs & Hbs & _) & _); [by left|].
    apply Hall, dict_get_is_Some. by eexists. }
  destruct (first_such (λ x, bool_decide (x ∈ k0 :: rest)) order) as [k|] eqn:Hfirst.
  - apply first_such_Some in Hfirst as (l1 & l2 & -> & Hk%bool_decide_eq_true & Hl1).
    destruct (Hstep k Hk) as (b & Hb & Hin). rewrite Forall_forall in Hl1.
    pose proof (Hl1 b (Hf l1 k l2 eq_refl b Hb)) as Hn%bool_decide_eq_false. done.
  - apply first_such_None in Hfirst. rewrite Forall_forall in Hfirst.
    pose proof (Hfirst k0 Hk0) as Hn%bool_decide_eq_false. set_solver.
Qed.

(** The topological order. On a graph whose blockers are all nodes, the
    search terminates: it raises [ScopeCycleError] exactly when there is a cycle,
    naming one (distinct keys, each blocked by the next, the last by the first),
    and otherwise returns every node exactly once with all its blockers before it. *)
Theorem _acyclic_order_spec (graph : graph_t) :
  closed_graph graph →
  ∃ r, _acyclic_order graph = Some r ∧
    match r with
    | Ok order => order ≡ₚ dict_keys graph ∧ blockers_first graph order
        ∧ ∀ keys, ¬ is_cycle graph keys
    | Err e => ∃ keys, e = ScopeCycleError keys ∧ is_cycle graph keys
    end.
Proof.
  intros Hc. destruct (acyclic_order_ends graph Hc) as (r & Hr & Hspec).
  exists r. split; [done|]. destruct r as [order|e]; [|done].
  destruct Hspec as [Hp Hf]. split_and!; [done..|]. intros keys.
  eapply blockers_first_acyclic; [done|]. intros k. by rewrite Hp.
Qed.

Definition chain_graph : graph_t := [("A", ["B"; "C"]); ("B", ["C"]); ("C", [])].

Lemma chain_graph_closed : closed_graph chain_graph.
Proof.
  split; [by apply (bool_decide_unpack _)|].
  intros k b (bs & Hbs%dict_get_elem & Hb).
  unfold chain_graph in Hbs.
  repeat (apply elem_of_cons in Hbs as [[= -> ->]|Hbs]; [set_solver|]).
  by apply not_elem_of_nil in Hbs.
Qed.

Lemma _acyclic_order_spec_witness :
  _acyclic_order chain_graph = Some (Ok ["C"; "B"; "A"])
  ∧ blockers_first chain_graph ["C"; "B"; "A"]
  ∧ _acyclic_order [("A", ["B"]); ("B", ["C"]); ("C", ["B"])]
    = Some (Err (ScopeCycleError ["B"; "C"])).
Proof.
  destruct (_acyclic_order_spec chain_graph chain_graph_closed) as (r & Hr & Hspec).
  assert (_acyclic_order chain_graph = Some (Ok ["C"; "B"; "A"])) as Ho by reflexivity.
  split; [exact Ho|]. split; [|reflexivity].
  rewrite Ho in Hr. injection Hr as <-. exact (proj1 (proj2 Hspec)).
Defined.

(** What a plan entry says of the snapshot. *)
Definition is_ready_entry (issues : list TrackerIssue) (blocking : option (gset string))
    (candidates : gset string) (entry : ReadyIssue) : Prop :=
  let issue := ready_issue entry in
  issue ∈ issues ∧ issue_key issue ∈ candidates ∧ live_of issues blocking issue = []
  ∧ inherited_priority (issue_graph issues) (own_priority issues) (issue_key issue)
      (effective_priority entry).
Definition is_blocked_entry (issues : list TrackerIssue) (blocking : option (gset string))
    (candidates : gset string) (entry : BlockedIssue) : Prop :=
  ∃ issue, issue ∈ issues ∧ issue_key issue ∈ candidates
    ∧ blocked_issue_key entry = issue_key issue
    ∧ blocked_blocker_keys entry = live_of issues blocking issue
    ∧ live_of issues blocking issue ≠ [].

Lemma issue_graph_get issues issue :
  NoDup (issue_key <$> issues) → issue ∈ issues →
  dict_get (issue_graph issues) (issue_key issue)
  = Some (dict_fromkeys (blocker_keys issue)).
Proof.
  intros Hnd Hin. unfold issue_graph. by rewrite dependency_graph_get, keyed_get.
Qed.

Lemma elem_of_candidates issues (candidates : gset string) kv :
  kv ∈ filter (λ kv, kv.1 ∈ candidates) (keyed issues) ↔
  ∃ issue, kv = (issue_key issue, issue) ∧ issue ∈ issues ∧ issue_key issue ∈ candidates.
Proof.
  unfold keyed. rewrite list_elem_of_filter, list_elem_of_fmap. split.
  - intros (Hc & i & -> & Hi). by exists i.
  - intros (i & -> & Hi & Hc). split; [done|]. by exists i.
Qed.

Section plan_entries.
Context (issues : list TrackerIssue) (candidates : gset string)
  (blocking : option (gset string)) (Hs : snapshot_complete issues candidates blocking)
  (eff : gmap string IssuePriority).
Context (Heff : ∀ k, k ∈ issue_key <$> issues →
  ∃ p, eff !! k = Some p
    ∧ inherited_priority (issue_graph issues) (own_priority issues) k p).
Let live : list string → list string := filter (λ b, is_live (keyed issues) blocking b = true).
Let cands : list (string * TrackerIssue) := filter (λ kv, kv.1 ∈ candidates) (keyed issues).

Lemma elem_of_ready entry :
  entry ∈ omap (ready_of (issue_graph issues) live eff) cands ↔
  is_ready_entry issues blocking candidates entry.
Proof using Hs Heff.
  rewrite list_elem_of_omap. unfold cands. setoid_rewrite elem_of_candidates.
  unfold ready_of, is_ready_entry. split.
  - intros (kv & (i & -> & Hi & Hc) & Hr). simpl in Hr.
    rewrite issue_graph_get in Hr by (done || apply Hs).
    destruct (Heff (issue_key i)) as (p & Hp & Hinh); [by apply list_elem_of_fmap_2|].
    rewrite Hp in Hr. destruct (live _) eqn:Hl; [|done]. injection Hr as <-. simpl.
    by split_and!.
  - intros (Hi & Hc & Hl & Hinh). destruct entry as [i p]; simpl in *.
    exists (issue_key i, i). split; [by exists i|]. simpl.
    rewrite issue_graph_get by (done || apply Hs).
    destruct (Heff (issue_key i)) as (q & Hq & Hinh'); [by apply list_elem_of_fmap_2|].
    rewrite Hq. unfold live_of in Hl. fold live in Hl. rewrite Hl.
    by rewrite (inherited_priority_unique _ _ _ _ _ Hinh Hinh').
Qed.

Lemma elem_of_blocked entry :
  entry ∈ omap (blocked_of (issue_graph issues) live) cands ↔
  is_blocked_entry issues blocking candidates entry.
Proof using Hs.
  rewrite list_elem_of_omap. unfold cands. setoid_rewrite elem_of_candidates.
  unfold blocked_of, is_blocked_entry. split.
  - intros (kv & (i & -> & Hi & Hc) & Hr). simpl in Hr.
    rewrite issue_graph_get in Hr by (done || apply Hs).
    destruct (live _) as [|b l] eqn:Hl; [done|]. injection Hr as <-. exists i.
    unfold live_of. fold live. by rewrite Hl.
  - intros (i & Hi & Hc & Hk & Hb & Hl). exists (issue_key i, i). split; [by exists i|].
    simpl. rewrite issue_graph_get by (done || apply Hs).
    unfold live_of in Hb, Hl. fold live in Hb, Hl. destruct entry as [k l]; simpl in *.
    subst. by destruct (live _).
Qed.

(** Every candidate is filed once. *)
Lemma length_entries :
  length (omap (ready_of (issue_graph issues) live eff) cands)
  + length (omap (blocked_of (issue_graph issues) live) cands) = size candidates.
Proof using Hs Heff.
  transitivity (length cands).
  - assert (∀ kv, kv ∈ cands → kv ∈ cands) as Hsub by done. revert Hsub.
    generalize cands at 1 3 4 5 as l. induction l as [|kv l IH]; intros Hsub; [done|].
    specialize (IH (λ kv' H, Hsub kv' (list_elem_of_further _ _ _ H))).
    assert (kv ∈ cands) as (i & -> & Hi & Hc)%elem_of_candidates by (apply Hsub; left).
    destruct (Heff (issue_key i)) as (p & Hp & _); [by apply list_elem_of_fmap_2|].
    simpl. unfold ready_of at 1, blocked_of at 1. simpl.
    rewrite issue_graph_get, Hp by (done || apply Hs).
    unfold omap in IH. destruct (live _); simpl; lia.
  - transitivity (size (list_to_set (dict_keys cands) : gset string)).
    + rewrite size_list_to_set.
      * unfold dict_keys. by rewrite length_fmap.
      * unfold cands. apply NoDup_fmap_filter.
        change (NoDup (dict_keys (keyed issues))). rewrite keyed_keys. apply Hs.
    + f_equal. apply set_eq. intros k. rewrite elem_of_list_to_set.
      unfold dict_keys. rewrite list_elem_of_fmap. unfold cands.
      setoid_rewrite elem_of_candidates. split.
      * by intros (kv & -> & i & -> & ? & ?).
      * intros Hk. pose proof (snap_candidates _ _ _ Hs k Hk) as (i & -> & Hi)%list_elem_of_fmap.
        exists (issue_key i, i). split; [done|]. by exists i.
Qed.
End plan_entries.

(** What a plan that was returned says. *)
Lemma plan_topology_ok issues candidates blocking plan :
  plan_topology issues candidates blocking = Some (Ok plan) →
  snapshot_complete issues candidates blocking
  ∧ (∀ entry, entry ∈ ready plan ↔ is_ready_entry issues blocking candidates entry)
  ∧ (∀ entry, entry ∈ blocked plan ↔ is_blocked_entry issues blocking candidates entry)
  ∧ ∀ k, k ∈ issue_key <$> issues → ∃ p, inherited_priority (issue_graph issues) (own_priority issues) k p.
Proof.
  intros E. assert (snapshot_complete issues candidates blocking) as Hs.
  { unfold plan_topology in E. destruct (index_snapshot issues) as [by_key|e] eqn:Hi; [|done].
    apply index_snapshot_ok in Hi as [Hnd ->]. cbn [mbind result_bind] in E.
    destruct (check_snapshot _ _ _ _) as [[]|e] eqn:Hc; [|done]. by apply check_snapshot_ok. }
  split; [done|]. destruct (plan_topology_complete _ _ _ Hs) as [(keys & Hc & _)|(eff & Heff & Hplan)]; [congruence|].
  rewrite Hplan in E. injection E as <-. cbn [ready blocked]. split; [|split]; [intros entry..|].
  - rewrite elem_of_sort_by. by apply elem_of_ready.
  - by apply elem_of_blocked.
  - intros k Hk. destruct (Heff k Hk) as (p & _ & ?). by exists p.
Qed.

(** C36. The plan. [plan_topology] always ends. An incomplete snapshot (a repeated
    key, a candidate, closure key or blocker with no facts) is a [ValueError]; a
    complete one with a dependency cycle raises [ScopeCycleError] naming it; any
    other yields exactly one entry per candidate: ready, with the most urgent
    priority of everything transitively waiting for it, when no blocker is live,
    and otherwise blocked on exactly its live blockers. Ready entries stand by
    effective priority and then age, ties in snapshot order. *)
Theorem plan_topology_spec (issues : list TrackerIssue) (candidates : gset string)
    (blocking : option (gset string)) :
  (¬ snapshot_complete issues candidates blocking →
     ∃ message, plan_topology issues candidates blocking = Some (Err (ValueError message)))
  ∧ (snapshot_complete issues candidates blocking →
     (∃ keys, plan_topology issues candidates blocking = Some (Err (ScopeCycleError keys))
        ∧ is_cycle (issue_graph issues) keys)
     ∨ ∃ plan, plan_topology issues candidates blocking = Some (Ok plan)
        ∧ (∀ entry, entry ∈ ready plan ↔ is_ready_entry issues blocking candidates entry)
        ∧ (∀ entry, entry ∈ blocked plan ↔ is_blocked_entry issues blocking candidates entry)
        ∧ length (ready plan) + length (blocked plan) = size candidates
        ∧ StronglySorted (key_le ready_key) (ready plan)).
Proof.
  split; [apply plan_topology_incomplete|]. intros Hs.
  destruct (plan_topology_complete _ _ _ Hs) as [Hc|(eff & Heff & Hplan)]; [by left|right].
  eexists. split; [exact Hplan|]. cbn [ready blocked].
  split_and!.
  - intros entry. rewrite elem_of_sort_by. by apply elem_of_ready.
  - intros entry. by apply elem_of_blocked.
  - rewrite length_sort_by. by apply length_entries.
  - apply sort_by_sorted.
Qed.

(** Two issues wait for the urgent one's blocker, which inherits its urgency. *)
Definition waiting_issues : list TrackerIssue :=
  [plain_issue "C" STARTED;
   {| issue_key := "A"; title := "A"; body := ""; priority := URGENT; state_name := "";
      state_kind := STARTED; queue_states := ∅; issue_labels := ∅; team_key := None;
      project := None; project_id := None; milestone_key := None;
      relations := [{| relation_kind := BLOCKED_BY; relation_issue_key := "B" |}];
      parent_key := None; assignee_key := None; created_at := 1; updated_at := 1; url := "" |};
   plain_issue "B" STARTED].

Lemma plan_topology_spec_witness :
  snapshot_complete waiting_issues {[ "A"; "B"; "C" ]} None
  ∧ ∃ plan, plan_topology waiting_issues {[ "A"; "B"; "C" ]} None = Some (Ok plan)
      ∧ ((λ e, (issue_key (ready_issue e), effective_priority e)) <$> ready plan)
        = [("B", URGENT); ("C", NONE)]
      ∧ (∀ entry, entry ∈ blocked plan ↔
           is_blocked_entry waiting_issues None {[ "A"; "B"; "C" ]} entry).
Proof.
  assert (snapshot_complete waiting_issues {[ "A"; "B"; "C" ]} None) as Hs.
  { split.
    - by apply (bool_decide_unpack _).
    - intros k Hk. cbn. set_solver.
    - done.
    - intros i k Hi. cbn in Hi |- *. repeat (apply elem_of_cons in Hi as [->|Hi];
        [cbn; set_solver|]). by apply not_elem_of_nil in Hi. }
  split; [exact Hs|].
  destruct (plan_topology_spec waiting_issues {[ "A"; "B"; "C" ]} None) as [_ H].
  destruct (H Hs) as [(keys & Hk & _)|(plan & Hp & _ & Hb & _)].
  - vm_compute in Hk. discriminate Hk.
  - exists plan. split; [exact Hp|]. split; [|exact Hb].
    vm_compute in Hp. injection Hp as <-. reflexivity.
Defined.
