(* ===== verification/Criteria.v ===== *)
(** * Acceptance criteria: data, identities and the feasibility sweep.

    The typed shapes of types/domain/criteria.py and criterion_lifecycle.py,
    the minting of identities (domain/criteria.py), the permutation guard
    (domain/fan_in.py) and the feasibility sweep (domain/criteria_feasibility.py).
    The sweep is a pure fold over the validator's report: it pairs findings to
    dispatched ids, derives each verdict from the evidence alone, refuses a
    stated verdict the evidence does not derive, and keeps the minimal
    contradictions. Text constraints a model declares on its fields
    ([min_length], [pattern]) are checked where a value enters the program; the
    functions here receive values that passed them. *)

From S2P Require Import Prelude PyStr Tracker Errors.

(** ** Data (types/domain/criteria.py) *)

Notation CriterionId := string.

Inductive CriterionVerdict := feasible | infeasible | unverifiable.
#[export] Instance CriterionVerdict_eq_dec : EqDecision CriterionVerdict.
Proof. solve_decision. Defined.

Definition CriterionVerdict_value (v : CriterionVerdict) : string :=
  match v with
  | feasible => "feasible" | infeasible => "infeasible" | unverifiable => "unverifiable"
  end.

Inductive RepairKind := repair_none | criterion_text | environment_supply.
#[export] Instance RepairKind_eq_dec : EqDecision RepairKind.
Proof. solve_decision. Defined.

Definition _REPAIR_FOR_VERDICT (v : CriterionVerdict) : RepairKind :=
  match v with
  | feasible => repair_none
  | infeasible => criterion_text
  | unverifiable => environment_supply
  end.

(** [value is None or not value.strip()] *)
Definition _blank (value : option string) : bool :=
  match value with None => true | Some s => str_blank s end.

Inductive CriterionFlag := vacuous_at_base | literal_pinning.
#[export] Instance CriterionFlag_eq_dec : EqDecision CriterionFlag.
Proof. solve_decision. Defined.

Inductive LimitArm := not_a_limit | resource_absent | uneconomic.

Record DerivedFeasibility := {
  derived_verdict : CriterionVerdict;
  limit_arm : LimitArm;
  derived_flags : list CriterionFlag;
}.

Inductive ForbiddenCriterionClass :=
| pull_request_body | ci_status | merge_state | execution_graded | literal_count
| transient_pipeline_state.
#[export] Instance ForbiddenCriterionClass_eq_dec : EqDecision ForbiddenCriterionClass.
Proof. solve_decision. Defined.

Record BaseDemonstration := { demo_command : string; demo_satisfied_at_base : bool }.
#[export] Instance BaseDemonstration_eq_dec : EqDecision BaseDemonstration.
Proof. solve_decision. Defined.
Record CostMeasurement := { observed_cost : string; affordable : bool }.
#[export] Instance CostMeasurement_eq_dec : EqDecision CostMeasurement.
Proof. solve_decision. Defined.
Record CostClaim := { assertion : string; measurement : option CostMeasurement }.
#[export] Instance CostClaim_eq_dec : EqDecision CostClaim.
Proof. solve_decision. Defined.

Record GeneratedCriterion := { gen_id : CriterionId; gen_text : string }.
Record DraftedCriterion := { drafted_text : string }.

(** [CriterionFinding]: the stated verdict, its evidence, and the id it is about. *)
Record CriterionFinding := {
  finding_id : CriterionId;
  stated_verdict : CriterionVerdict;
  smallest_repair : RepairKind;
  refutation : option string;
  missing_resource : option string;
  cost_claim : option CostClaim;
  base_demonstration : option BaseDemonstration;
  pinned_literals : list string;
  forbidden_class : option ForbiddenCriterionClass;
  undeclared_switch_arms : list string;
}.
#[export] Instance CriterionFinding_eq_dec : EqDecision CriterionFinding.
Proof. solve_decision. Defined.

(** The finding's own validator: the stated verdict arrives with its repair and
    its evidence. *)
Definition _verdict_carries_its_grounds (f : CriterionFinding) : result exn unit :=
  let required := _REPAIR_FOR_VERDICT (stated_verdict f) in
  raise_if
    (negb (bool_decide (smallest_repair f = required))
     || (bool_decide (stated_verdict f = infeasible) && _blank (refutation f))
     || (bool_decide (stated_verdict f = unverifiable) && _blank (missing_resource f)))
    (ValidationError "CriterionFinding") (Ok tt).

Record Contradiction := { contradiction_ids : list CriterionId; explanation : string }.

Record CriteriaValidationOutput := {
  findings : list CriterionFinding;
  contradictions : list Contradiction;
}.

Record CriterionFeasibility := {
  feasibility_id : CriterionId;
  feasibility_verdict : CriterionVerdict;
  feasibility_refutation : option string;
  feasibility_missing_resource : option string;
  cost_measurement : option CostMeasurement;
  feasibility_flags : list CriterionFlag;
  feasibility_forbidden_class : option ForbiddenCriterionClass;
  feasibility_switch_arms : list string;
}.
#[export] Instance CriterionFeasibility_eq_dec : EqDecision CriterionFeasibility.
Proof. solve_decision. Defined.

Record ConjunctionVerdict := {
  satisfiable : bool;
  retained_contradictions : list Contradiction;
}.

Record CriteriaValidation := {
  verdicts : list CriterionFeasibility;
  conjunction : ConjunctionVerdict;
}.

Record ValidatedCriterion := {
  valid_id : CriterionId; valid_text : string; feasibility : CriterionFeasibility;
}.
#[export] Instance ValidatedCriterion_eq_dec : EqDecision ValidatedCriterion.
Proof. solve_decision. Defined.
Record TrackerCriterion := { tracked_id : CriterionId; tracked_text : string }.
#[export] Instance TrackerCriterion_eq_dec : EqDecision TrackerCriterion.
Proof. solve_decision. Defined.

(** [ExecutionCriterion = ValidatedCriterion | TrackerCriterion] *)
Inductive ExecutionCriterion :=
| Validated (c : ValidatedCriterion)
| Tracked (c : TrackerCriterion).
#[export] Instance ExecutionCriterion_eq_dec : EqDecision ExecutionCriterion.
Proof. solve_decision. Defined.

Definition criterion_id (c : ExecutionCriterion) : CriterionId :=
  match c with Validated c => valid_id c | Tracked c => tracked_id c end.
Definition criterion_body (c : ExecutionCriterion) : string :=
  match c with Validated c => valid_text c | Tracked c => tracked_text c end.

Record CriteriaArtifact := {
  artifact_criteria : list ValidatedCriterion;
  artifact_conjunction : ConjunctionVerdict;
}.

Record CriterionFailure := {
  failure_id : CriterionId; failure_text : string; failure_reasoning : string;
}.

(** ** Identity (domain/criteria.py) *)

Definition CRITERION_ID_PREFIX : string := "AC-".

(** The positions [enumerate(drafted, start=1)] gives are never below one, so
    [mint_criterion_id]'s refusal is reached only by a direct caller. *)
Definition mint_criterion_id (index : Z) : result exn CriterionId :=
  raise_if (index <? 1)%Z
    (ValueError ("Criterion positions are 1-based; got " +:+ pretty index))
    (Ok (CRITERION_ID_PREFIX +:+ pretty index)).

Definition criterion_set (checks : pydict string string) : result exn (list TrackerCriterion) :=
  raise_if (bool_decide (checks = [])) (ValidationError "TrackerCriterionSet")
    (Ok ((λ kv, {| tracked_id := kv.1; tracked_text := kv.2 |}) <$> checks)).

Definition mint_criteria (drafted : list DraftedCriterion) :
    result exn (list GeneratedCriterion) :=
  mapM (λ ic, id ← mint_criterion_id (Z.of_nat ic.1);
              Ok {| gen_id := id; gen_text := drafted_text ic.2 |})
    (zip (seq 1 (length drafted)) drafted).

Definition build_artifact (criteria : list GeneratedCriterion)
    (validation : CriteriaValidation) : result exn CriteriaArtifact :=
  let by_id := dict_of ((λ v, (feasibility_id v, v)) <$> verdicts validation) in
  cs ← mapM (λ c, match dict_get by_id (gen_id c) with
                  | Some f => Ok {| valid_id := gen_id c; valid_text := gen_text c;
                                    feasibility := f |}
                  | None => Err (KeyError (gen_id c))
                  end) criteria;
  raise_if (bool_decide (length cs = 0)) (ValidationError "CriteriaArtifact")
    (Ok {| artifact_criteria := cs; artifact_conjunction := conjunction validation |}).

(** ** The permutation guard (domain/fan_in.py) *)

Definition FAN_IN_MESSAGE : string :=
  "Returned ids are not a permutation of the dispatched criteria".

Definition fan_in_breach (missing_ids duplicate_ids unknown_ids : list string) : option exn :=
  match missing_ids, duplicate_ids, unknown_ids with
  | [], [], [] => None
  | _, _, _ => Some (CriteriaFanInError FAN_IN_MESSAGE missing_ids duplicate_ids unknown_ids)
  end.

(** [if breach is not None: raise breach] *)
Definition raise_breach {A} (breach : option exn) (k : result exn A) : result exn A :=
  match breach with Some e => Err e | None => k end.

(** ** The feasibility sweep (domain/criteria_feasibility.py) *)

Definition _observed_flags (finding : CriterionFinding) : list CriterionFlag :=
  (match base_demonstration finding with
   | Some d => if demo_satisfied_at_base d then [vacuous_at_base] else []
   | None => []
   end)
  ++ (if negb (bool_decide (pinned_literals finding = []))
         || bool_decide (forbidden_class finding = Some literal_count)
      then [literal_pinning] else []).

Definition _weigh_cost (claim : option CostClaim) : option CostMeasurement :=
  match claim with
  | Some {| measurement := Some m |} => if affordable m then None else Some m
  | _ => None
  end.

Definition _ungradeable (finding : CriterionFinding) : bool :=
  (match forbidden_class finding with
   | Some c => negb (bool_decide (c = literal_count))
   | None => false
   end) || negb (bool_decide (undeclared_switch_arms finding = [])).

Definition _classify_criterion_side (finding : CriterionFinding)
    (surviving_cost : option CostMeasurement) (flags : list CriterionFlag) :
    result exn DerivedFeasibility :=
  match surviving_cost with
  | Some _ => Err (UngroundedVerdictError
      ("A measured uneconomic demonstration is environment-side and must "
       +:+ "be filed as an environment supply naming the resource") (finding_id finding))
  | None =>
      Ok {| derived_verdict := if cost_claim finding is Some _ then feasible else infeasible;
            limit_arm := not_a_limit; derived_flags := flags |}
  end.

Definition _classify_environment_side (surviving_cost : option CostMeasurement)
    (flags : list CriterionFlag) : DerivedFeasibility :=
  {| derived_verdict := unverifiable;
     limit_arm := if surviving_cost is Some _ then uneconomic else resource_absent;
     derived_flags := flags |}.

Definition _classify_no_repair (finding : CriterionFinding)
    (surviving_cost : option CostMeasurement) (flags : list CriterionFlag) :
    result exn DerivedFeasibility :=
  match surviving_cost with
  | Some _ => Err (UngroundedVerdictError
      ("A measured uneconomic demonstration is a repair and must be filed "
       +:+ "as an environment supply naming the resource") (finding_id finding))
  | None => Ok {| derived_verdict := feasible; limit_arm := not_a_limit;
                  derived_flags := flags |}
  end.

Definition classify_finding (finding : CriterionFinding) : result exn DerivedFeasibility :=
  let surviving_cost := _weigh_cost (cost_claim finding) in
  let flags := _observed_flags finding in
  if _ungradeable finding then
    Ok {| derived_verdict := infeasible; limit_arm := not_a_limit; derived_flags := flags |}
  else
    raise_if (bool_decide (vacuous_at_base ∈ flags)
              && negb (bool_decide (smallest_repair finding = repair_none)))
      (UngroundedVerdictError
        ("A criterion demonstrated satisfied at base needs no repair: a "
         +:+ "demonstration that ran and passed cannot also ground a repair demand")
        (finding_id finding))
      (match smallest_repair finding with
       | criterion_text => _classify_criterion_side finding surviving_cost flags
       | environment_supply => Ok (_classify_environment_side surviving_cost flags)
       | repair_none => _classify_no_repair finding surviving_cost flags
       end).

Definition grounded_finding (finding : CriterionFinding) : result exn DerivedFeasibility :=
  derived ← classify_finding finding;
  raise_if (negb (bool_decide (derived_verdict derived = stated_verdict finding)))
    (UngroundedVerdictError
      ("A stated " +:+ CriterionVerdict_value (stated_verdict finding)
       +:+ " verdict is not derivable from its own evidence, which derives "
       +:+ CriterionVerdict_value (derived_verdict derived)) (finding_id finding))
    (Ok derived).

Definition _feasibility (finding : CriterionFinding) (derived : DerivedFeasibility) :
    CriterionFeasibility := {|
  feasibility_id := finding_id finding;
  feasibility_verdict := derived_verdict derived;
  feasibility_refutation := refutation finding;
  feasibility_missing_resource := missing_resource finding;
  cost_measurement := c ← cost_claim finding; measurement c;
  feasibility_flags := derived_flags derived;
  feasibility_forbidden_class := forbidden_class finding;
  feasibility_switch_arms := undeclared_switch_arms finding;
|}.

Definition id_set (c : Contradiction) : gset string := list_to_set (contradiction_ids c).

Definition minimal_conflicting_subsets (contradictions : list Contradiction) :
    list Contradiction :=
  filter (λ c, Forall (λ other, ¬ id_set other ⊂ id_set c) contradictions) contradictions.

(** The loop both fan-in channels run over what came back: the first answer to
    each dispatched id, the ids answered again, the ids nobody dispatched. *)
Record report (T : Type) := {
  seen : pydict string T;
  duplicates : list string;
  unknown : list string;
}.
Arguments seen {T}.
Arguments duplicates {T}.
Arguments unknown {T}.

Definition empty_report {T} : report T := {| seen := []; duplicates := []; unknown := [] |}.

Definition read_answer {T} (key : T → string) (dispatched_set : gset string) (r : report T)
    (answer : T) : report T :=
  let id := key answer in
  if decide (id ∉ dispatched_set) then
    {| seen := seen r; duplicates := duplicates r; unknown := unknown r ++ [id] |}
  else if decide (id ∈ dict_keys (seen r)) then
    {| seen := seen r; duplicates := duplicates r ++ [id]; unknown := unknown r |}
  else
    {| seen := dict_set (seen r) id answer; duplicates := duplicates r; unknown := unknown r |}.

Definition note_unknown (dispatched_set : gset string) (unknown : list string) (id : string) :
    list string :=
  if decide (id ∉ dispatched_set ∧ id ∉ unknown) then unknown ++ [id] else unknown.

Definition reconcile_findings (dispatched : list string) (findings : list CriterionFinding)
    (contradictions : list Contradiction) : result exn (list CriterionFinding) :=
  let dispatched_set := list_to_set dispatched : gset string in
  let r := foldl (read_answer finding_id dispatched_set) empty_report findings in
  let unknown' := foldl (note_unknown dispatched_set) (unknown r)
                    (mjoin (contradiction_ids <$> contradictions)) in
  let missing := filter (λ id, id ∉ dict_keys (seen r)) dispatched in
  raise_breach (fan_in_breach missing (duplicates r) unknown')
    (mapM (λ id, match dict_get (seen r) id with
                 | Some f => Ok f
                 | None => Err (KeyError id)
                 end) dispatched).

Definition reconcile (criteria : list GeneratedCriterion) (output : CriteriaValidationOutput) :
    result exn (list CriterionFinding) :=
  reconcile_findings (gen_id <$> criteria) (findings output) (contradictions output).

(** The report is itself a model: it refuses an empty verdict list. *)
Definition sweep (criteria : list GeneratedCriterion) (output : CriteriaValidationOutput) :
    result exn CriteriaValidation :=
  found ← reconcile criteria output;
  let conflicts := minimal_conflicting_subsets (contradictions output) in
  vs ← mapM (λ f, derived ← grounded_finding f; Ok (_feasibility f derived)) found;
  raise_if (bool_decide (length vs = 0)) (ValidationError "CriteriaValidation")
    (Ok {| verdicts := vs;
           conjunction := {| satisfiable := bool_decide (conflicts = []);
                             retained_contradictions := conflicts |} |}).

(** [for id_ in ids: if id_ not in targets: targets.append(id_)] *)
Definition append_new (targets : list string) (id : string) : list string :=
  if decide (id ∈ targets) then targets else targets ++ [id].

Definition regeneration_targets (validation : CriteriaValidation) : list string :=
  foldl append_new
    (feasibility_id <$> filter (λ v, feasibility_verdict v = infeasible) (verdicts validation))
    (mjoin (contradiction_ids <$> retained_contradictions (conjunction validation))).

Definition demands_regeneration (validation : CriteriaValidation) : bool :=
  negb (bool_decide (regeneration_targets validation = [])).

(** ** The reading loop, verified *)

(** The answers to [id], in the order they came. *)
Definition answers_to {T} (key : T → string) (l : list T) (id : string) : list T :=
  filter (λ x, key x = id) l.

Section read_answers.
Context {T : Type} (key : T → string) (D : gset string).
Implicit Types (r : report T) (l : list T).

Lemma read_answers_unknown l r :
  unknown (foldl (read_answer key D) r l) = unknown r ++ filter (λ id, id ∉ D) (key <$> l).
Proof.
  revert r; induction l as [|x l IH]; intros r; cbn [foldl fmap list_fmap].
  { by rewrite app_nil_r. }
  rewrite IH. unfold read_answer. rewrite filter_cons.
  repeat case_decide; simpl; rewrite <-?app_assoc; done.
Qed.

Lemma read_answers_seen l r id :
  dict_get (seen (foldl (read_answer key D) r l)) id =
  match dict_get (seen r) id with
  | Some x => Some x
  | None => if decide (id ∈ D) then head (answers_to key l id) else None
  end.
Proof.
  unfold answers_to. revert r; induction l as [|x l IH]; intros r; cbn [foldl].
  { cbn. destruct (dict_get (seen r) id); [done|]. by case_decide. }
  rewrite IH, filter_cons. unfold read_answer.
  destruct (decide (key x = id)) as [<-|Hne].
  - destruct (decide (key x ∉ D)) as [Hn|Hin]; simpl.
    + destruct (dict_get _ _); [done|]. by rewrite !decide_False by done.
    + apply dec_stable in Hin. destruct (decide (key x ∈ dict_keys (seen r))) as [Hk|Hk]; simpl.
      * by apply dict_get_is_Some in Hk as [? ->].
      * rewrite dict_get_set_eq. apply dict_get_None in Hk as ->. by rewrite decide_True.
  - repeat case_decide; simpl; try done; by rewrite dict_get_set_ne by congruence.
Qed.

Lemma elem_of_answers l id : answers_to key l id ≠ [] ↔ id ∈ key <$> l.
Proof.
  unfold answers_to. rewrite list_elem_of_fmap. split.
  - destruct (filter _ l) as [|x k] eqn:E; [done|]. intros _. exists x.
    assert (x ∈ filter (λ x, key x = id) l) as [<- ?]%list_elem_of_filter
      by (rewrite E; left). done.
  - intros (x & -> & Hx) E. assert (x ∈ filter (λ y, key y = key x) l) as Hin
      by by apply list_elem_of_filter. by rewrite E in Hin; apply not_elem_of_nil in Hin.
Qed.

Lemma read_answers_dup_mono l r id :
  id ∈ duplicates r → id ∈ duplicates (foldl (read_answer key D) r l).
Proof.
  revert r; induction l as [|x l IH]; intros r Hid; [done|]. apply IH.
  unfold read_answer. repeat case_decide; simpl; set_solver.
Qed.

(** An id is a duplicate when it is dispatched and answered more than once. *)
Lemma read_answers_duplicates l r id :
  id ∈ duplicates (foldl (read_answer key D) r l) ↔
  id ∈ duplicates r ∨ id ∈ D ∧
    (1 < (if decide (id ∈ dict_keys (seen r)) then 1 else 0)%nat
         + length (answers_to key l id)
     ∧ answers_to key l id ≠ []).
Proof.
  unfold answers_to. revert r; induction l as [|x l IH]; intros r; cbn [foldl].
  { cbn. tauto. }
  rewrite IH, filter_cons. clear IH. unfold read_answer.
  assert (∀ k : list T, k ≠ [] ↔ 0 < length k) as Hlen
    by (intros [|]; simpl; split; (done || lia)).
  rewrite !Hlen.
  destruct (decide (key x = id)) as [<-|Hne].
  - destruct (decide (key x ∉ D)) as [Hn|Hin%dec_stable]; simpl; [tauto|].
    destruct (decide (key x ∈ dict_keys (seen r))) as [Hk|Hk]; simpl.
    + rewrite elem_of_app, list_elem_of_singleton. rewrite decide_True by done.
      split; [|tauto]. intros _. right. split; [done|]. lia.
    + rewrite decide_True by (apply elem_of_dict_set_keys; by left).
      split; intros [?|[? ?]]; try tauto; right; split; try done; try lia.
  - repeat (case_decide; simpl); try done;
      rewrite ?elem_of_app, ?list_elem_of_singleton;
      repeat match goal with
      | H : context [id ∈ dict_keys (dict_set _ _ _)] |- _ =>
          rewrite elem_of_dict_set_keys in H
      end; naive_solver.
Qed.
End read_answers.

(** Every dispatched id answered exactly once, and nothing else answered. *)
Definition answers_exactly {T} (key : T → string) (dispatched : list string) (l : list T) : Prop :=
  (∀ id, id ∈ dispatched → length (answers_to key l id) = 1)
  ∧ ∀ id, id ∈ key <$> l → id ∈ dispatched.

Lemma answers_exactly_NoDup {T} (key : T → string) dispatched l :
  answers_exactly key dispatched l → NoDup (key <$> l).
Proof.
  intros [H1 H2]. assert (∀ id, length (answers_to key l id) ≤ 1) as Hle.
  { intros id. destruct (decide (id ∈ key <$> l)) as [Hin|Hn].
    - by rewrite H1 by auto.
    - rewrite <-elem_of_answers in Hn. apply dec_stable in Hn. rewrite Hn. simpl. lia. }
  clear H1 H2. induction l as [|x l IH]; [constructor|]. rewrite fmap_cons. constructor.
  - rewrite <-elem_of_answers. specialize (Hle (key x)). unfold answers_to in *.
    rewrite filter_cons, decide_True in Hle by done. simpl in Hle. intros H.
    destruct (filter _ l); [done|simpl in Hle; lia].
  - apply IH. intros id. specialize (Hle id). unfold answers_to in *.
    rewrite filter_cons in Hle. case_decide; simpl in Hle; lia.
Qed.

Lemma answers_to_NoDup {T} (key : T → string) l x :
  NoDup (key <$> l) → x ∈ l → answers_to key l (key x) = [x].
Proof.
  unfold answers_to. induction l as [|y l IH]; [by intros _ ?%not_elem_of_nil|].
  rewrite fmap_cons, NoDup_cons, filter_cons. intros [Hy Hl] [->|Hx]%elem_of_cons.
  - rewrite decide_True by done. f_equal. apply dec_stable. rewrite <-elem_of_answers in Hy. done.
  - rewrite decide_False by (intros Heq; apply Hy; rewrite Heq; by apply list_elem_of_fmap_2).
    by apply IH.
Qed.

(** Over distinct dispatched ids, that is: the answered ids are a permutation of
    the dispatched ones. *)
Lemma answers_exactly_perm {T} (key : T → string) dispatched l :
  NoDup dispatched → answers_exactly key dispatched l ↔ key <$> l ≡ₚ dispatched.
Proof.
  intros Hnd. split.
  - intros H. apply NoDup_Permutation; [by eapply answers_exactly_NoDup|done|].
    intros id. split; [apply H|]. intros Hid. rewrite <-elem_of_answers.
    apply H in Hid. by destruct (answers_to _ _ _).
  - intros Hp. split.
    + intros id Hid. rewrite <-Hp, list_elem_of_fmap in Hid. destruct Hid as (x & -> & Hx).
      rewrite answers_to_NoDup; [done| |done]. by rewrite Hp.
    + intros id. by rewrite Hp.
Qed.

Section read_report.
Context {T : Type} (key : T → string) (dispatched : list string) (l : list T).
Let r := foldl (read_answer key (list_to_set dispatched : gset string)) empty_report l.

Lemma report_missing id :
  id ∈ filter (λ id, id ∉ dict_keys (seen r)) dispatched ↔
  id ∈ dispatched ∧ id ∉ key <$> l.
Proof.
  rewrite list_elem_of_filter, <-dict_get_None. unfold r. rewrite read_answers_seen. simpl.
  rewrite <-elem_of_answers. destruct (decide (id ∈ dispatched)) as [Hin|Hn]; [|tauto].
  rewrite decide_True by by apply elem_of_list_to_set.
  destruct (answers_to key l id); simpl; naive_solver.
Qed.

Lemma report_duplicates id :
  id ∈ duplicates r ↔ id ∈ dispatched ∧ 1 < length (answers_to key l id).
Proof.
  unfold r. rewrite read_answers_duplicates. simpl. rewrite elem_of_list_to_set.
  split; [intros [H|H]; [by apply not_elem_of_nil in H|tauto]|]. intros [? Hlen]. right.
  split_and!; try done. intros E. rewrite E in Hlen. simpl in Hlen. lia.
Qed.

Lemma report_unknown id : id ∈ unknown r ↔ id ∈ key <$> l ∧ id ∉ dispatched.
Proof.
  unfold r. rewrite read_answers_unknown. simpl.
  rewrite list_elem_of_filter, elem_of_list_to_set. tauto.
Qed.

Lemma report_seen id :
  id ∈ dispatched → dict_get (seen r) id = head (answers_to key l id).
Proof.
  intros H. unfold r. rewrite read_answers_seen. simpl.
  by rewrite decide_True by by apply elem_of_list_to_set.
Qed.

(** The guard's three lists are empty together exactly when every dispatched id
    was answered once and nothing else was. *)
Lemma report_clean extra :
  (∀ id, id ∈ extra ↔ id ∈ unknown r ∨ id ∈ extra) →
  fan_in_breach (filter (λ id, id ∉ dict_keys (seen r)) dispatched) (duplicates r) extra = None ↔
  answers_exactly key dispatched l ∧ extra = [].
Proof.
  intros Hextra. unfold answers_exactly. split.
  - intros H. assert (filter (λ id, id ∉ dict_keys (seen r)) dispatched = []
      ∧ duplicates r = [] ∧ extra = []) as (Hm & Hd & ->)
      by (unfold fan_in_breach in H; by repeat case_match).
    split; [split|done].
    + intros id Hid. assert (id ∈ key <$> l) as Hin.
      { apply dec_stable. intros Hn. assert (id ∈ ([] : list string)) as Hi
          by (rewrite <-Hm; by apply report_missing). by apply not_elem_of_nil in Hi. }
      apply elem_of_answers in Hin.
      destruct (answers_to key l id) as [|x [|y k]] eqn:E; [done..|].
      assert (id ∈ ([] : list string)) as Hi
        by (rewrite <-Hd; apply report_duplicates; split; [done|rewrite E; simpl; lia]).
      by apply not_elem_of_nil in Hi.
    + intros id Hid. apply dec_stable. intros Hn.
      assert (id ∈ ([] : list string)) as Hi
        by (apply Hextra; left; by apply report_unknown). by apply not_elem_of_nil in Hi.
  - intros [[H1 H2] ->].
    assert (filter (λ id, id ∉ dict_keys (seen r)) dispatched = []) as ->.
    { apply elem_of_nil_inv. intros id [Hid Hn]%report_missing.
      apply H1 in Hid. rewrite <-elem_of_answers in Hn. apply dec_stable in Hn.
      by rewrite Hn in Hid. }
    assert (duplicates r = []) as ->; [|done].
    apply elem_of_nil_inv. intros id [Hid Hlt]%report_duplicates.
    rewrite H1 in Hlt by done. lia.
Qed.
End read_report.

Lemma note_unknown_elem D u ids id :
  id ∈ foldl (note_unknown D) u ids ↔ id ∈ u ∨ id ∈ ids ∧ id ∉ D.
Proof.
  revert u; induction ids as [|i ids IH]; intros u; simpl; [set_solver|].
  rewrite IH, elem_of_cons. unfold note_unknown.
  destruct (decide (i ∈ D)), (decide (i ∈ u)), (decide (id = i)) as [->|];
    case_decide; rewrite ?elem_of_app, ?list_elem_of_singleton; tauto.
Qed.

Lemma fan_in_breach_Some m d u e :
  fan_in_breach m d u = Some e → e = CriteriaFanInError FAN_IN_MESSAGE m d u.
Proof. unfold fan_in_breach. repeat case_match; congruence. Qed.

Definition named_ids (contradictions : list Contradiction) : list string :=
  mjoin (contradiction_ids <$> contradictions).

(** The report answers the dispatched set: one finding each, no contradiction
    over an id nobody dispatched. *)
Definition report_corresponds (dispatched : list string) (findings : list CriterionFinding)
    (contradictions : list Contradiction) : Prop :=
  answers_exactly finding_id dispatched findings
  ∧ ∀ id, id ∈ named_ids contradictions → id ∈ dispatched.

(** The sweep's fan-in guard. [reconcile_findings] returns exactly when every
    dispatched id has one finding, no other id has any and no contradiction names
    an undispatched id; it then returns each id's own finding, in dispatch order.
    Otherwise it raises [CriteriaFanInError] naming precisely the ids unanswered,
    the ids answered more than once and the ids nobody dispatched. *)
Theorem reconcile_findings_spec (dispatched : list string) (fs : list CriterionFinding)
    (cs : list Contradiction) :
  match reconcile_findings dispatched fs cs with
  | Ok out => report_corresponds dispatched fs cs
      ∧ Forall2 (λ id f, answers_to finding_id fs id = [f]) dispatched out
  | Err e => ¬ report_corresponds dispatched fs cs
      ∧ ∃ missing dup unknown, e = CriteriaFanInError FAN_IN_MESSAGE missing dup unknown
        ∧ (∀ id, id ∈ missing ↔ id ∈ dispatched ∧ id ∉ finding_id <$> fs)
        ∧ (∀ id, id ∈ dup ↔ id ∈ dispatched ∧ 1 < length (answers_to finding_id fs id))
        ∧ (∀ id, id ∈ unknown ↔
             id ∉ dispatched ∧ (id ∈ finding_id <$> fs ∨ id ∈ named_ids cs))
  end.
Proof.
  unfold reconcile_findings. cbv zeta.
  set (r := foldl _ empty_report fs). set (extra := foldl (note_unknown _) _ _).
  assert (∀ id, id ∈ extra ↔
    id ∉ dispatched ∧ (id ∈ finding_id <$> fs ∨ id ∈ named_ids cs)) as Hextra.
  { intros id. unfold extra. rewrite note_unknown_elem, elem_of_list_to_set.
    unfold r. rewrite report_unknown. unfold named_ids. tauto. }
  assert (∀ id, id ∈ extra ↔ id ∈ unknown r ∨ id ∈ extra) as Hsub.
  { intros id. rewrite !Hextra. unfold r. rewrite report_unknown. tauto. }
  pose proof (report_clean finding_id dispatched fs extra Hsub) as Hclean. fold r in Hclean.
  destruct (fan_in_breach _ _ _) as [e|] eqn:Hb; simpl.
  - split.
    + intros [Ha Hn]. assert (extra = []) as He.
      { apply elem_of_nil_inv. intros id [Hid [Hf|Hc]]%Hextra; [|by auto].
        by apply Hid, (proj2 Ha). }
      discriminate (proj2 Hclean (conj Ha He)).
    + apply fan_in_breach_Some in Hb as ->. eexists _, _, _. split; [reflexivity|].
      split_and!; intros id.
      * apply report_missing.
      * apply report_duplicates.
      * apply Hextra.
  - destruct (proj1 Hclean eq_refl) as [Ha He].
    assert (∀ id, id ∈ dispatched → ∃ f, answers_to finding_id fs id = [f]) as Hone.
    { intros id Hid. pose proof (proj1 Ha id Hid) as H1.
      destruct (answers_to _ _ _) as [|f [|]]; [done|eauto|done]. }
    destruct (mapM_all_ok (λ id f, answers_to finding_id fs id = [f])
      (λ id, match dict_get (seen r) id with Some f => Ok f | None => Err (KeyError id) end)
      dispatched) as (out & -> & Hout).
    { intros id Hid. destruct (Hone id Hid) as [f Hf]. exists f. split; [|done].
      unfold r. by rewrite report_seen, Hf. }
    split; [|done]. split; [done|]. intros id Hid. apply dec_stable. intros Hn.
    assert (id ∈ extra) as Hin by (apply Hextra; tauto).
    rewrite He in Hin. by apply not_elem_of_nil in Hin.
Qed.

(** ** Verdicts, verified *)

(** A finding whose own validator passed. *)
Definition finding_grounded (f : CriterionFinding) : Prop :=
  smallest_repair f = _REPAIR_FOR_VERDICT (stated_verdict f)
  ∧ (stated_verdict f = infeasible → _blank (refutation f) = false)
  ∧ (stated_verdict f = unverifiable → _blank (missing_resource f) = false).

Lemma verdict_carries_its_grounds_ok f :
  _verdict_carries_its_grounds f = Ok tt ↔ finding_grounded f.
Proof.
  unfold _verdict_carries_its_grounds, finding_grounded. rewrite raise_if_ok.
  destruct (_blank (refutation f)), (_blank (missing_resource f));
    repeat case_bool_decide; simpl; naive_solver.
Qed.

(** What the evidence says, read without the stated verdict. *)
Definition vacuous (f : CriterionFinding) : Prop :=
  ∃ d, base_demonstration f = Some d ∧ demo_satisfied_at_base d = true.
Definition priced_out (f : CriterionFinding) : Prop :=
  ∃ c m, cost_claim f = Some c ∧ measurement c = Some m ∧ affordable m = false.

Lemma vacuous_iff f : vacuous_at_base ∈ _observed_flags f ↔ vacuous f.
Proof.
  unfold _observed_flags, vacuous. rewrite elem_of_app.
  assert (∀ b : bool, vacuous_at_base ∉ (if b then [literal_pinning] else [])) as Hb
    by (intros []; set_solver).
  destruct (base_demonstration f) as [d|]; [destruct (demo_satisfied_at_base d) eqn:E|].
  - split; [eauto|]. intros _. left. by left.
  - split; [intros [H|H]; [by apply not_elem_of_nil in H|by apply Hb in H]|].
    intros (d' & [= <-] & ?). congruence.
  - split; [intros [H|H]; [by apply not_elem_of_nil in H|by apply Hb in H]|].
    by intros (d' & ? & ?).
Qed.

Lemma weigh_cost_iff f : is_Some (_weigh_cost (cost_claim f)) ↔ priced_out f.
Proof.
  unfold priced_out, _weigh_cost. destruct (cost_claim f) as [[a [m|]]|]; simpl.
  - destruct (affordable m) eqn:E; split.
    + by intros [].
    + intros (? & ? & [= <-] & [= <-] & ?). congruence.
    + intros _. by exists {| assertion := a; measurement := Some m |}, m.
    + eauto.
  - split; [by intros []|]. by intros (? & ? & [= <-] & ? & _).
  - split; [by intros []|]. by intros (? & ? & ? & _).
Qed.

(** The evidence a stated verdict stands on, once its finding is complete. *)
Definition supported (f : CriterionFinding) : Prop :=
  match stated_verdict f with
  | infeasible => _ungradeable f = true ∨ ¬ vacuous f ∧ cost_claim f = None
  | unverifiable => _ungradeable f = false ∧ ¬ vacuous f
  | feasible => _ungradeable f = false ∧ ¬ priced_out f
  end.

Lemma priced_out_claim f : priced_out f → cost_claim f ≠ None.
Proof. intros (c & m & -> & _). done. Qed.

(** Grounding. For a finding that passed its own validator, the sweep accepts
    the stated verdict exactly when the evidence supports it: infeasible on a fault
    of the text, or unpriced and not satisfied at base; unverifiable on a gradeable
    text not satisfied at base; feasible on a gradeable text no measured cost
    prices out. What it then records is the stated verdict; what it refuses is an
    [UngroundedVerdictError] about that criterion. *)
Theorem grounded_finding_spec (f : CriterionFinding) :
  finding_grounded f →
  match grounded_finding f with
  | Ok d => supported f ∧ derived_verdict d = stated_verdict f
      ∧ (limit_arm d = uneconomic ↔
           _ungradeable f = false ∧ stated_verdict f = unverifiable ∧ priced_out f)
  | Err e => ¬ supported f ∧ ∃ message, e = UngroundedVerdictError message (finding_id f)
  end.
Proof.
  intros (Hrep & _ & _). unfold grounded_finding, classify_finding, supported. cbv zeta.
  pose proof (vacuous_iff f) as Hv. pose proof (weigh_cost_iff f) as Hw.
  pose proof (priced_out_claim f) as Hc. rewrite Hrep.
  assert (Hpo : match _weigh_cost (cost_claim f) with
                | Some _ => priced_out f | None => ¬ priced_out f end).
  { destruct (_weigh_cost _); [by apply Hw|]. intros [? ?]%Hw. done. }
  clear Hw. destruct (_ungradeable f).
  { cbn. destruct (stated_verdict f); cbn; naive_solver. }
  destruct (decide (vacuous_at_base ∈ _observed_flags f)) as [Hvac|Hvac];
    [rewrite bool_decide_true by done|rewrite bool_decide_false by done]; rewrite Hv in Hvac;
  destruct (stated_verdict f); cbn;
    unfold _classify_criterion_side, _classify_no_repair, _classify_environment_side;
    destruct (_weigh_cost (cost_claim f)) as [m|]; cbn;
    (try destruct (cost_claim f) eqn:?); cbn; naive_solver.
Qed.

Definition uneconomic_finding : CriterionFinding := {|
  finding_id := "AC-1"; stated_verdict := unverifiable; smallest_repair := environment_supply;
  refutation := None; missing_resource := Some "a GPU runner";
  cost_claim := Some {| assertion := "days"; measurement :=
    Some {| observed_cost := "52h"; affordable := false |} |};
  base_demonstration := None; pinned_literals := []; forbidden_class := None;
  undeclared_switch_arms := [] |}.

Lemma grounded_finding_spec_witness :
  finding_grounded uneconomic_finding ∧ supported uneconomic_finding
  ∧ ∃ d, grounded_finding uneconomic_finding = Ok d ∧ limit_arm d = uneconomic.
Proof.
  assert (finding_grounded uneconomic_finding) as Hg by (split; [done|split; done]).
  split; [exact Hg|]. pose proof (grounded_finding_spec uneconomic_finding Hg) as H.
  cbn in H. split; [apply H|]. eexists. split; reflexivity.
Defined.

(** ** The conjunction, verified *)

(** Every reported contradiction contains a retained one. *)
Lemma minimal_below cs c :
  c ∈ cs → ∃ m, m ∈ minimal_conflicting_subsets cs ∧ id_set m ⊆ id_set c.
Proof.
  remember (id_set c) as X eqn:HX. revert c HX.
  induction (set_wf X) as [X _ IH]. intros c HX Hc.
  destruct (decide (Forall (λ other, ¬ id_set other ⊂ X) cs)) as [Hmin|Hn].
  - exists c. split; [|by subst]. apply list_elem_of_filter. by rewrite <-HX.
  - apply not_Forall_Exists in Hn; [|apply _]. apply Exists_exists in Hn as (c' & Hc' & Hlt).
    apply dec_stable in Hlt. destruct (IH _ Hlt c' eq_refl Hc') as (m & Hm & Hsub).
    exists m. split; [done|]. set_solver.
Qed.

(** No retained contradiction strictly contains another reported one. *)
Lemma minimal_antichain cs m c :
  m ∈ minimal_conflicting_subsets cs → c ∈ cs → ¬ id_set c ⊂ id_set m.
Proof.
  intros [Hall _]%list_elem_of_filter Hc. rewrite Forall_forall in Hall. by apply Hall.
Qed.

Lemma minimal_empty cs : minimal_conflicting_subsets cs = [] ↔ cs = [].
Proof.
  split; [|by intros ->]. intros E. apply elem_of_nil_inv. intros c Hc.
  destruct (minimal_below cs c Hc) as (m & Hm & _). rewrite E in Hm.
  by apply not_elem_of_nil in Hm.
Qed.

(** The record the sweep writes for one finding. *)
Definition recorded (f : CriterionFinding) (v : CriterionFeasibility) : Prop :=
  feasibility_id v = finding_id f ∧ feasibility_verdict v = stated_verdict f
  ∧ feasibility_missing_resource v = missing_resource f
  ∧ feasibility_refutation v = refutation f
  ∧ feasibility_flags v = _observed_flags f.

Lemma classify_flags f d : classify_finding f = Ok d → derived_flags d = _observed_flags f.
Proof.
  unfold classify_finding, raise_if, _classify_criterion_side, _classify_no_repair,
    _classify_environment_side. cbv zeta.
  repeat case_match; intros [= <-]; reflexivity.
Qed.

Lemma grounded_finding_recorded f d :
  grounded_finding f = Ok d → recorded f (_feasibility f d).
Proof.
  unfold grounded_finding. intros H. ok_inv.
  apply negb_false_iff, bool_decide_eq_true in Hg. subst.
  repeat split; [done|]. by apply classify_flags.
Qed.

(** What a sweep that returns has recorded. *)
Definition swept (criteria : list GeneratedCriterion) (output : CriteriaValidationOutput)
    (validation : CriteriaValidation) : Prop :=
  Forall2 (λ c v, ∃ f, answers_to finding_id (findings output) (gen_id c) = [f]
      ∧ supported f ∧ recorded f v ∧ feasibility_id v = gen_id c)
    criteria (verdicts validation)
  ∧ Forall (λ v, (feasibility_verdict v = infeasible → _blank (feasibility_refutation v) = false)
      ∧ (feasibility_verdict v = unverifiable → _blank (feasibility_missing_resource v) = false))
      (verdicts validation)
  ∧ (satisfiable (conjunction validation) = true ↔ contradictions output = [])
  ∧ (∀ c, c ∈ contradictions output →
       ∃ m, m ∈ retained_contradictions (conjunction validation) ∧ id_set m ⊆ id_set c)
  ∧ (∀ m c, m ∈ retained_contradictions (conjunction validation) →
       c ∈ contradictions output → ¬ id_set c ⊂ id_set m).

Lemma sweep_returns criteria output validation :
  Forall finding_grounded (findings output) →
  sweep criteria output = Ok validation → swept criteria output validation.
Proof.
  intros Hval Hsweep. unfold swept. unfold sweep, reconcile in Hsweep. ok_inv. subst validation. cbn.
  pose proof (reconcile_findings_spec (gen_id <$> criteria) (findings output)
    (contradictions output)) as Hrec.
  rewrite Hv in Hrec. destruct Hrec as [_ Hout]. apply mapM_ok in Hv0.
  apply Forall2_fmap_l in Hout.
  assert (Forall2 (λ c v, ∃ f, answers_to finding_id (findings output) (gen_id c) = [f]
      ∧ finding_grounded f ∧ supported f ∧ recorded f v ∧ feasibility_id v = gen_id c)
    criteria v0) as HF.
  { clear Hg Hv. revert v0 Hv0. induction Hout as [|c f cs fs Hcf _ IH]; intros vs Hvs.
    - inversion_clear Hvs. constructor.
    - inversion_clear Hvs as [|? v ? vs' Hfv Hvs']. constructor; [|by apply IH].
      assert (f ∈ answers_to finding_id (findings output) (gen_id c)) as Hin
        by (rewrite Hcf; left).
      apply list_elem_of_filter in Hin as [Hid Hin]. rewrite Forall_forall in Hval.
      pose proof (Hval f Hin) as Hfg. exists f. ok_inv. subst v.
      pose proof (grounded_finding_spec f Hfg) as Hgr. rewrite Hv in Hgr.
      split_and!; [done..|apply Hgr|by apply grounded_finding_recorded|done]. }
  split_and!.
  - eapply Forall2_impl; [exact HF|]. intros c w (f & ? & ? & ? & ? & ?). by exists f.
  - apply Forall_forall. intros w Hw. apply list_elem_of_lookup in Hw as [i Hi].
    destruct (Forall2_lookup_r _ _ _ _ _ HF Hi) as (c & _ & f & _ & (_ & Hr & Hm) & _ & Hrec & _).
    destruct Hrec as (_ & -> & -> & -> & _). done.
  - rewrite bool_decide_eq_true. apply minimal_empty.
  - apply minimal_below.
  - apply minimal_antichain.
Qed.

(** The sweep. Over findings that passed their own validators, a sweep that
    returns has one verdict per dispatched criterion, in dispatch order, each the
    stated verdict of that criterion's only finding and supported by its evidence;
    every infeasible verdict carries a refutation and every unverifiable one names
    a resource; the set is satisfiable exactly when no contradiction was reported,
    the retained contradictions are minimal and every reported one contains one. *)
Theorem sweep_spec (criteria : list GeneratedCriterion) (output : CriteriaValidationOutput)
    (validation : CriteriaValidation) :
  Forall finding_grounded (findings output) →
  sweep criteria output = Ok validation →
  Forall2 (λ c v, ∃ f, answers_to finding_id (findings output) (gen_id c) = [f]
      ∧ supported f ∧ recorded f v ∧ feasibility_id v = gen_id c)
    criteria (verdicts validation)
  ∧ Forall (λ v, (feasibility_verdict v = infeasible → _blank (feasibility_refutation v) = false)
      ∧ (feasibility_verdict v = unverifiable → _blank (feasibility_missing_resource v) = false))
      (verdicts validation)
  ∧ (satisfiable (conjunction validation) = true ↔ contradictions output = [])
  ∧ (∀ c, c ∈ contradictions output →
       ∃ m, m ∈ retained_contradictions (conjunction validation) ∧ id_set m ⊆ id_set c)
  ∧ (∀ m c, m ∈ retained_contradictions (conjunction validation) →
       c ∈ contradictions output → ¬ id_set c ⊂ id_set m).
Proof. exact (sweep_returns criteria output validation). Qed.

Lemma sweep_spec_witness :
  ∃ validation,
    sweep [{| gen_id := "AC-1"; gen_text := "runs on a GPU" |}]
      {| findings := [uneconomic_finding]; contradictions := [] |} = Ok validation
    ∧ (satisfiable (conjunction validation) = true ↔ @nil Contradiction = []).
Proof.
  eexists. split; [reflexivity|].
  refine (proj1 (proj2 (proj2 (sweep_spec [{| gen_id := "AC-1"; gen_text := "runs on a GPU" |}]
    {| findings := [uneconomic_finding]; contradictions := [] |} _ _ eq_refl)))).
  repeat constructor; done.
Defined.

(** ** Identities, verified *)

(** Minted identities: one per draft, in emission order, distinct, and of the
    one authored shape, ["AC-"] and a positive decimal. *)
Theorem mint_criteria_spec (drafted : list DraftedCriterion) :
  ∃ minted, mint_criteria drafted = Ok minted
    ∧ gen_text <$> minted = drafted_text <$> drafted
    ∧ NoDup (gen_id <$> minted)
    ∧ Forall (λ c, ∃ n : Z, (1 ≤ n)%Z ∧ gen_id c = "AC-" +:+ pretty n) minted.
Proof.
  unfold mint_criteria.
  assert (∀ s, ∃ minted, mapM (λ ic, id ← mint_criterion_id (Z.of_nat ic.1);
      Ok {| gen_id := id; gen_text := drafted_text ic.2 |})
      (zip (seq (S s) (length drafted)) drafted) = Ok minted
    ∧ gen_text <$> minted = drafted_text <$> drafted
    ∧ gen_id <$> minted
      = (λ n : nat, "AC-" +:+ pretty (Z.of_nat n)) <$> seq (S s) (length drafted)) as Hgo.
  { induction drafted as [|d drafted IH]; intros s; [by exists []|].
    destruct (IH (S s)) as (minted & Hm & Ht & Hi). cbn [length seq zip].
    exists ({| gen_id := "AC-" +:+ pretty (Z.of_nat (S s)); gen_text := drafted_text d |} :: minted).
    split; [|by rewrite !fmap_cons, Ht, Hi].
    cbn [mapM]. rewrite Hm. unfold mint_criterion_id.
    replace (Z.of_nat (S s, d).1 <? 1)%Z with false; [done|].
    symmetry. apply Z.ltb_ge. cbn [fst]. lia. }
  destruct (Hgo 0) as (minted & Hm & Ht & Hi). exists minted. split_and!; [done..| |].
  - rewrite Hi. apply NoDup_fmap_2; [|apply NoDup_seq].
    intros n m [= Hnm]. apply (inj pretty) in Hnm. lia.
  - apply Forall_forall. intros c Hc.
    assert (gen_id c ∈ gen_id <$> minted) as Hin by by apply list_elem_of_fmap_2.
    rewrite Hi in Hin. apply list_elem_of_fmap in Hin as (n & -> & Hn).
    apply elem_of_seq in Hn. exists (Z.of_nat n). split; [lia|done].
Qed.

(** ** What the sweep's report drives *)

Lemma append_new_elem targets ids id :
  id ∈ foldl append_new targets ids ↔ id ∈ targets ∨ id ∈ ids.
Proof.
  revert targets; induction ids as [|i ids IH]; intros targets; simpl.
  { split; [by left|]. intros [|H]; [done|by apply not_elem_of_nil in H]. }
  rewrite IH, elem_of_cons. unfold append_new. case_decide.
  - split; [tauto|]. intros [?|[->|?]]; tauto.
  - rewrite elem_of_app, list_elem_of_singleton. tauto.
Qed.

Lemma append_new_NoDup targets ids :
  NoDup targets → NoDup (foldl append_new targets ids).
Proof.
  revert targets; induction ids as [|i ids IH]; intros targets Hnd; simpl; [done|].
  apply IH. unfold append_new. case_decide; [done|].
  apply NoDup_app. split_and!; [done| |apply NoDup_singleton]. set_solver.
Qed.

Lemma regeneration_targets_elem validation id :
  id ∈ regeneration_targets validation ↔
  (∃ v, v ∈ verdicts validation ∧ feasibility_id v = id ∧ feasibility_verdict v = infeasible)
  ∨ ∃ c, c ∈ retained_contradictions (conjunction validation) ∧ id ∈ contradiction_ids c.
Proof.
  unfold regeneration_targets. rewrite append_new_elem, list_elem_of_fmap, list_elem_of_join.
  setoid_rewrite list_elem_of_filter. setoid_rewrite list_elem_of_fmap. naive_solver.
Qed.

(** The artifact of a sweep: [build_artifact] cannot miss a verdict. *)
Lemma build_artifact_covered criteria validation :
  criteria ≠ [] →
  (∀ c, c ∈ criteria → gen_id c ∈ feasibility_id <$> verdicts validation) →
  ∃ artifact, build_artifact criteria validation = Ok artifact
    ∧ Forall2 (λ c a, valid_id a = gen_id c ∧ valid_text a = gen_text c
        ∧ dict_get (dict_of ((λ v, (feasibility_id v, v)) <$> verdicts validation)) (gen_id c)
          = Some (feasibility a))
      criteria (artifact_criteria artifact).
Proof.
  intros Hne Hcov. unfold build_artifact. cbv zeta.
  set (by_id := dict_of _).
  destruct (mapM_all_ok (λ c a, valid_id a = gen_id c ∧ valid_text a = gen_text c
      ∧ dict_get by_id (gen_id c) = Some (feasibility a))
    (λ c, match dict_get by_id (gen_id c) with
          | Some f => Ok {| valid_id := gen_id c; valid_text := gen_text c; feasibility := f |}
          | None => Err (KeyError (gen_id c)) end) criteria) as (cs & -> & Hcs).
  { intros c Hc. destruct (dict_get by_id (gen_id c)) as [f|] eqn:E; [eauto|].
    exfalso. apply dict_get_None in E. apply E. unfold by_id.
    apply dict_of_keys. rewrite <-list_fmap_compose. by apply Hcov. }
  cbn [mbind result_bind]. destruct cs as [|a cs].
  { by inversion Hcs; subst. }
  eexists. split; [reflexivity|exact Hcs].
Qed.
