(* ===== verification/Lapse.v ===== *)
(** * Cross-offs and what an earlier grading is still worth.

    The per-criterion cross-off of types/domain/criterion_lifecycle.py, with its
    validators and the sticky re-derivation class, and the graded-sha rule of
    domain/lapse.py: whether a grading taken at one commit still stands at
    another, and the partition of an earlier iteration's gradings by it. *)

From S2P Require Import Prelude PyStr Tracker Errors Criteria.

(** ** Data (types/domain/criterion_lifecycle.py, criterion_evidence.py) *)

Notation CriterionRef := string.

Inductive RederivationClass := cheap | expensive | observed.
#[export] Instance RederivationClass_eq_dec : EqDecision RederivationClass.
Proof. solve_decision. Defined.

Definition RederivationClass_value (c : RederivationClass) : string :=
  match c with cheap => "cheap" | expensive => "expensive" | observed => "observed" end.

Inductive CrossOffState := passed | failed | lapsed | undemonstrated.
#[export] Instance CrossOffState_eq_dec : EqDecision CrossOffState.
Proof. solve_decision. Defined.

Inductive UndemonstratedReason :=
| workspace_not_the_graded_sha | check_survived_mutation
| satisfied_at_base | base_reading_unsettled.
#[export] Instance UndemonstratedReason_eq_dec : EqDecision UndemonstratedReason.
Proof. solve_decision. Defined.

(** Membership in [PATH_BOUND_CLASSES]. *)
Definition path_bound (c : RederivationClass) : bool :=
  match c with expensive | observed => true | cheap => false end.

Record CriterionEvidence := { graded_sha : string; test : string }.

Record CriterionCrossOff := {
  criterion : CriterionRef;
  state : CrossOffState;
  evidence : CriterionEvidence;
  rederivation_class : RederivationClass;
  exercised_paths : list string;
  undemonstrated_reason : option UndemonstratedReason;
}.

(** The two validators of [CriterionCrossOff], in the order pydantic runs them. *)
Definition _the_reason_is_the_undemonstrated_state (c : CriterionCrossOff) : bool :=
  negb (Bool.eqb (bool_decide (undemonstrated_reason c = None))
                 (bool_decide (state c = undemonstrated))).
Definition _path_bound_classes_name_their_paths (c : CriterionCrossOff) : bool :=
  negb (path_bound (rederivation_class c) && bool_decide (exercised_paths c = [])).

(** Constructing a cross-off, refused when a validator fails. *)
Definition make_cross_off (c : CriterionCrossOff) : result exn CriterionCrossOff :=
  raise_if (negb (_the_reason_is_the_undemonstrated_state c))
    (ValidationError "CriterionCrossOff")
  (raise_if (negb (_path_bound_classes_name_their_paths c))
    (ValidationError "CriterionCrossOff") (Ok c)).

(** [held_rederivation_classes]: one class per identity, or [StickyClassError]. *)
Definition hold_class (held : pydict CriterionRef RederivationClass) (c : CriterionCrossOff) :
    result exn (pydict CriterionRef RederivationClass) :=
  let declared := rederivation_class c in
  let held' := dict_setdefault held (criterion c) declared in
  match dict_get held' (criterion c) with
  | Some current =>
      raise_if (negb (bool_decide (current = declared)))
        (StickyClassError (criterion c) (RederivationClass_value current)
          (RederivationClass_value declared))
        (Ok held')
  | None => Err (KeyError (criterion c))
  end.

Definition held_rederivation_classes (cross_offs : list CriterionCrossOff) :
    result exn (pydict CriterionRef RederivationClass) :=
  foldM hold_class [] cross_offs.

(** ** The graded-sha rule (domain/lapse.py) *)

Inductive GradedState := counted | grading_lapsed.
#[export] Instance GradedState_eq_dec : EqDecision GradedState.
Proof. solve_decision. Defined.

(** [ChangesetDigest], as far as the rule reads it. *)
Record ChangesetDigest := {
  file_paths : list string; commit_subjects : list string; commit_count : nat;
}.

Definition slash : Ascii.ascii := Ascii.ascii_of_nat 47.

Definition _beneath (path prefix : string) : bool :=
  let stem := rstrip_char slash prefix in
  bool_decide (path = stem) || startswith path (stem +:+ "/").

Definition graded_state (graded_sha head_sha : string) (rederivation_class : RederivationClass)
    (exercised_paths : list string) (changeset : option ChangesetDigest) (base_stale : bool) :
    GradedState :=
  if base_stale then grading_lapsed
  else if bool_decide (graded_sha = head_sha) then counted
  else if negb (path_bound rederivation_class) then grading_lapsed
  else match changeset with
       | None => grading_lapsed
       | Some digest =>
           if existsb (λ path, existsb (λ prefix, _beneath path prefix) exercised_paths)
                (file_paths digest)
           then grading_lapsed else counted
       end.

Record HeldStanding := {
  carried : list CriterionCrossOff;
  rederive : list CriterionCrossOff;
  standing_lapsed : list CriterionCrossOff;
  newly_lapsed : list CriterionCrossOff;
}.

Definition empty_standing : HeldStanding :=
  {| carried := []; rederive := []; standing_lapsed := []; newly_lapsed := [] |}.

(** One turn of the loop over the prior cross-offs. *)
Definition place_cross_off (head_sha : string) (changesets : pydict string ChangesetDigest)
    (base_stale : bool) (s : HeldStanding) (c : CriterionCrossOff) : HeldStanding :=
  if decide (state c = lapsed) then
    {| carried := carried s; rederive := rederive s;
       standing_lapsed := standing_lapsed s ++ [c]; newly_lapsed := newly_lapsed s |}
  else if negb (bool_decide (state c = passed)) || negb (path_bound (rederivation_class c)) then
    {| carried := carried s; rederive := rederive s ++ [c];
       standing_lapsed := standing_lapsed s; newly_lapsed := newly_lapsed s |}
  else
    match graded_state (graded_sha (evidence c)) head_sha (rederivation_class c)
            (exercised_paths c) (dict_get changesets (graded_sha (evidence c))) base_stale with
    | counted =>
        {| carried := carried s ++ [c]; rederive := rederive s;
           standing_lapsed := standing_lapsed s; newly_lapsed := newly_lapsed s |}
    | grading_lapsed =>
        if decide (rederivation_class c = observed) then
          {| carried := carried s; rederive := rederive s;
             standing_lapsed := standing_lapsed s ++ [c]; newly_lapsed := newly_lapsed s ++ [c] |}
        else
          {| carried := carried s; rederive := rederive s ++ [c];
             standing_lapsed := standing_lapsed s; newly_lapsed := newly_lapsed s |}
    end.

Definition held_standing (prior : list CriterionCrossOff) (head_sha : string)
    (changesets : pydict string ChangesetDigest) (base_stale : bool) : HeldStanding :=
  foldl (place_cross_off head_sha changesets base_stale) empty_standing prior.

Definition lapse_escalation_key (criterion : string) : string := criterion +:+ ":lapse".

(** ** The rule, verified *)

(** [path] is [prefix] or lies under it, by whole segments. *)
Definition beneath (path prefix : string) : Prop :=
  let stem := rstrip_char slash prefix in
  path = stem ∨ ∃ rest, path = stem +:+ "/" +:+ rest.

Lemma beneath_iff path prefix : _beneath path prefix = true ↔ beneath path prefix.
Proof.
  unfold _beneath, beneath. rewrite orb_true_iff, bool_decide_eq_true, startswith_spec.
  setoid_rewrite <-str_app_assoc. done.
Qed.

(** The changeset reaches something the grading exercised. *)
Definition touches (digest : ChangesetDigest) (paths : list string) : Prop :=
  ∃ path prefix, path ∈ file_paths digest ∧ prefix ∈ paths ∧ beneath path prefix.

Lemma touches_iff digest paths :
  existsb (λ path, existsb (λ prefix, _beneath path prefix) paths) (file_paths digest) = true ↔
  touches digest paths.
Proof.
  unfold touches. rewrite existsb_exists. setoid_rewrite existsb_exists.
  setoid_rewrite beneath_iff. setoid_rewrite <-list_elem_of_In. naive_solver.
Qed.

(** A grading counts at the head exactly when its base is not stale and either
    nothing moved, or its class is path-bound and a changeset was read that reaches
    no prefix it exercised. Everything else has lapsed. *)
Theorem graded_state_spec (sha head : string) (class : RederivationClass)
    (paths : list string) (changeset : option ChangesetDigest) (base_stale : bool) :
  graded_state sha head class paths changeset base_stale = counted ↔
  base_stale = false ∧
  (sha = head ∨ path_bound class = true
     ∧ ∃ digest, changeset = Some digest ∧ ¬ touches digest paths).
Proof.
  unfold graded_state. destruct base_stale; [naive_solver|].
  case_bool_decide as Heq; [naive_solver|].
  destruct (path_bound class); simpl; [|naive_solver].
  destruct changeset as [digest|]; [|naive_solver].
  pose proof (touches_iff digest paths) as Ht.
  destruct (existsb _ (file_paths digest)).
  - split; [done|]. intros (_ & [?|(_ & d & [= <-] & Hn)]); [done|]. by destruct Hn; apply Ht.
  - split; [|done]. intros _. split; [done|]. right. split; [done|]. exists digest.
    split; [done|]. by intros Htt%Ht.
Qed.

(** Where one prior grading goes. *)
Inductive placement := Carries | Rederives | StaysLapsed | LapsesNow.
#[export] Instance placement_eq_dec : EqDecision placement.
Proof. solve_decision. Defined.

Section placing.
Context (head : string) (changesets : pydict string ChangesetDigest) (base_stale : bool).

Definition worth (c : CriterionCrossOff) : GradedState :=
  graded_state (graded_sha (evidence c)) head (rederivation_class c) (exercised_paths c)
    (dict_get changesets (graded_sha (evidence c))) base_stale.

Definition placed (c : CriterionCrossOff) : placement :=
  if decide (state c = lapsed) then StaysLapsed
  else if decide (state c = passed ∧ path_bound (rederivation_class c) = true) then
    if decide (worth c = counted) then Carries
    else if decide (rederivation_class c = observed) then LapsesNow else Rederives
  else Rederives.

Lemma place_cross_off_placed s c :
  place_cross_off head changesets base_stale s c =
  match placed c with
  | Carries => {| carried := carried s ++ [c]; rederive := rederive s;
                  standing_lapsed := standing_lapsed s; newly_lapsed := newly_lapsed s |}
  | Rederives => {| carried := carried s; rederive := rederive s ++ [c];
                    standing_lapsed := standing_lapsed s; newly_lapsed := newly_lapsed s |}
  | StaysLapsed => {| carried := carried s; rederive := rederive s;
                      standing_lapsed := standing_lapsed s ++ [c];
                      newly_lapsed := newly_lapsed s |}
  | LapsesNow => {| carried := carried s; rederive := rederive s;
                    standing_lapsed := standing_lapsed s ++ [c];
                    newly_lapsed := newly_lapsed s ++ [c] |}
  end.
Proof.
  unfold place_cross_off, placed. fold (worth c).
  destruct (state c), (rederivation_class c); cbn; try done; by destruct (worth c).
Qed.

Lemma held_standing_placed prior :
  held_standing prior head changesets base_stale = {|
    carried := filter (λ c, placed c = Carries) prior;
    rederive := filter (λ c, placed c = Rederives) prior;
    standing_lapsed := filter (λ c, placed c = StaysLapsed ∨ placed c = LapsesNow) prior;
    newly_lapsed := filter (λ c, placed c = LapsesNow) prior;
  |}.
Proof.
  unfold held_standing.
  enough (∀ s, foldl (place_cross_off head changesets base_stale) s prior = {|
    carried := carried s ++ filter (λ c, placed c = Carries) prior;
    rederive := rederive s ++ filter (λ c, placed c = Rederives) prior;
    standing_lapsed := standing_lapsed s
      ++ filter (λ c, placed c = StaysLapsed ∨ placed c = LapsesNow) prior;
    newly_lapsed := newly_lapsed s ++ filter (λ c, placed c = LapsesNow) prior |}) as H
    by apply H.
  induction prior as [|c prior IH]; intros s; cbn [foldl].
  { cbn. rewrite !app_nil_r. by destruct s. }
  rewrite IH, place_cross_off_placed, !filter_cons.
  destruct (placed c); cbn; by rewrite <-?app_assoc.
Qed.
End placing.

(** What an earlier iteration's gradings are worth. Every prior cross-off is
    in exactly one of carried, rederive and lapsed, each in the order it arrived;
    newly lapsed is a part of lapsed. A lapsed grading stays lapsed and is never
    rederived. A carried grading passed, is path-bound and counts at the head;
    a newly lapsed one is a passed observation that no longer counts; and no
    passed observation is ever put back in front of the session. *)
Theorem held_standing_spec (prior : list CriterionCrossOff) (head : string)
    (changesets : pydict string ChangesetDigest) (base_stale : bool) :
  let s := held_standing prior head changesets base_stale in
  let counts c := worth head changesets base_stale c = counted in
  carried s ++ rederive s ++ standing_lapsed s ≡ₚ prior
  ∧ carried s `sublist_of` prior ∧ rederive s `sublist_of` prior
  ∧ standing_lapsed s `sublist_of` prior ∧ newly_lapsed s `sublist_of` standing_lapsed s
  ∧ Forall (λ c, state c = passed ∧ path_bound (rederivation_class c) = true ∧ counts c)
      (carried s)
  ∧ Forall (λ c, state c = passed ∧ rederivation_class c = observed ∧ ¬ counts c)
      (newly_lapsed s)
  ∧ (∀ c, c ∈ standing_lapsed s → c ∉ newly_lapsed s → state c = lapsed)
  ∧ Forall (λ c, state c ≠ lapsed ∧ (state c = passed → rederivation_class c ≠ observed))
      (rederive s).
Proof.
  cbv zeta. rewrite held_standing_placed. cbn.
  set (P := placed head changesets base_stale).
  assert (∀ l, filter (λ c, P c = LapsesNow) l `sublist_of`
    filter (λ c, P c = StaysLapsed ∨ P c = LapsesNow) l) as Hsub.
  { induction l as [|c l IH]; [constructor|]. rewrite !filter_cons.
    destruct (P c); cbn; try done; by constructor. }
  split_and!; try apply sublist_filter; try apply Hsub.
  - induction prior as [|c prior IH]; [done|]. rewrite !filter_cons.
    destruct (P c); repeat case_decide; try (exfalso; intuition discriminate); cbn.
    + by rewrite IH.
    + by rewrite <-Permutation_middle, IH.
    + by rewrite app_assoc, <-Permutation_middle, <-app_assoc, IH.
    + by rewrite app_assoc, <-Permutation_middle, <-app_assoc, IH.
  - apply Forall_forall. intros c [Hc _]%list_elem_of_filter.
    unfold P, placed in Hc. repeat case_decide; naive_solver.
  - apply Forall_forall. intros c [Hc _]%list_elem_of_filter.
    unfold P, placed in Hc. repeat case_decide; naive_solver.
  - intros c [Hc Hin]%list_elem_of_filter Hn. destruct Hc as [Hc|Hc].
    + unfold P, placed in Hc. repeat case_decide; naive_solver.
    + destruct Hn. by apply list_elem_of_filter.
  - apply Forall_forall. intros c [Hc _]%list_elem_of_filter.
    unfold P, placed in Hc. repeat case_decide; try done; try naive_solver.
    split; [done|]. intros Hp Ho. destruct H0. split; [done|]. by rewrite Ho.
Qed.

(** ** Sticky classes *)

(** Every identity declares one class. *)
Definition one_class (cross_offs : list CriterionCrossOff) : Prop :=
  ∀ a b, a ∈ cross_offs → b ∈ cross_offs → criterion a = criterion b →
    rederivation_class a = rederivation_class b.

Lemma hold_class_spec held c :
  match hold_class held c with
  | Ok held' => (dict_get held (criterion c) = None
        ∨ dict_get held (criterion c) = Some (rederivation_class c))
      ∧ ∀ k, dict_get held' k = if decide (k = criterion c) then Some (rederivation_class c)
                                else dict_get held k
  | Err e => ∃ cls, dict_get held (criterion c) = Some cls ∧ cls ≠ rederivation_class c
      ∧ e = StickyClassError (criterion c) (RederivationClass_value cls)
              (RederivationClass_value (rederivation_class c))
  end.
Proof.
  unfold hold_class. cbv zeta. rewrite dict_get_setdefault, decide_True by done.
  destruct (dict_get held (criterion c)) as [cls|] eqn:E; simpl.
  - destruct (decide (cls = rederivation_class c)) as [->|Hne].
    + rewrite bool_decide_true by done. simpl. split; [by right|]. intros k.
      rewrite dict_get_setdefault. case_decide; [|done]. by rewrite E.
    + rewrite bool_decide_false by done. simpl. by exists cls.
  - rewrite bool_decide_true by done. simpl. split; [by left|].
    intros k. rewrite dict_get_setdefault. case_decide; [|done]. by rewrite E.
Qed.

(** Sticky classes. Reading the class every identity holds succeeds exactly
    when no identity declares two, and then answers each identity's declared class;
    otherwise it raises [StickyClassError], naming an identity and two different
    classes it declares. *)
Theorem held_rederivation_classes_spec (cross_offs : list CriterionCrossOff) :
  match held_rederivation_classes cross_offs with
  | Ok held => one_class cross_offs
      ∧ ∀ id cls, dict_get held id = Some cls ↔
          ∃ c, c ∈ cross_offs ∧ criterion c = id ∧ rederivation_class c = cls
  | Err e => ∃ a b, a ∈ cross_offs ∧ b ∈ cross_offs ∧ criterion a = criterion b
      ∧ rederivation_class a ≠ rederivation_class b
      ∧ e = StickyClassError (criterion b) (RederivationClass_value (rederivation_class a))
              (RederivationClass_value (rederivation_class b))
  end.
Proof.
  unfold held_rederivation_classes.
  enough (∀ seen held, one_class seen →
    (∀ id cls, dict_get held id = Some cls ↔
       ∃ c, c ∈ seen ∧ criterion c = id ∧ rederivation_class c = cls) →
    match foldM hold_class held cross_offs with
    | Ok held => one_class (seen ++ cross_offs)
        ∧ ∀ id cls, dict_get held id = Some cls ↔
            ∃ c, c ∈ seen ++ cross_offs ∧ criterion c = id ∧ rederivation_class c = cls
    | Err e => ∃ a b, a ∈ seen ++ cross_offs ∧ b ∈ seen ++ cross_offs
        ∧ criterion a = criterion b ∧ rederivation_class a ≠ rederivation_class b
        ∧ e = StickyClassError (criterion b) (RederivationClass_value (rederivation_class a))
                (RederivationClass_value (rederivation_class b))
    end) as H.
  { apply (H []); [intros a b Ha; by apply not_elem_of_nil in Ha|].
    intros id cls. split; [done|]. intros (c & Hc & _). by apply not_elem_of_nil in Hc. }
  induction cross_offs as [|c l IH]; intros seen held Hone Hheld; cbn [foldM].
  { by rewrite app_nil_r. }
  pose proof (hold_class_spec held c) as Hc. destruct (hold_class held c) as [held'|e].
  - destruct Hc as [Hold Hget]. rewrite (cons_middle c), app_assoc. apply IH.
    + assert (∀ a, a ∈ seen → criterion a = criterion c →
        rederivation_class a = rederivation_class c) as Hac.
      { intros a Ha Heq. assert (dict_get held (criterion c) = Some (rederivation_class a)) as Hg
          by (apply Hheld; by exists a). destruct Hold; congruence. }
      intros a b Ha Hb Hab. rewrite elem_of_app, list_elem_of_singleton in Ha.
      rewrite elem_of_app, list_elem_of_singleton in Hb.
      destruct Ha as [Ha| ->], Hb as [Hb| ->]; [by apply Hone|by apply Hac| |done].
      symmetry. by apply Hac.
    + intros id cls. rewrite Hget. setoid_rewrite elem_of_app.
      setoid_rewrite list_elem_of_singleton. case_decide as Hid.
      * subst id. split; [intros [= <-]; exists c; tauto|].
        intros (a & [Ha| ->] & Heq & <-); [|done].
        assert (dict_get held (criterion c) = Some (rederivation_class a)) as Hg
          by (apply Hheld; by exists a). destruct Hold; congruence.
      * rewrite Hheld. split; [intros (a & ? & ? & ?); exists a; tauto|].
        intros (a & [Ha| ->] & Heq & ?); [by exists a|congruence].
  - destruct Hc as (cls & Hg & Hne & ->). apply Hheld in Hg as (a & Ha & Heq & <-).
    exists a, c. rewrite !elem_of_app, !elem_of_cons. split_and!; try done; [by left|by right; left].
Qed.
