(* ===== verification/CriterionEvidence.v ===== *)
(** * The Evidence field of a criterion (domain/criterion_evidence.py).

    A grading's commit and observation are written into a criterion body as one
    fenced JSON record and read back from it. The JSON of a model is pydantic's:
    [PydanticJson] names the two functions the code calls and what they are
    documented to do; the body codec and [json.loads] are the source's and
    Python's own. *)

From S2P Require Import Prelude PyStr PyLines Tracker Errors Json FireSpec Criteria Lapse.

Local Open Scope nat_scope.

(** ** The model's constraints (types/domain/criterion_evidence.py) *)

Definition is_hex_lower (a : Ascii.ascii) : bool :=
  ((48 <=? byte a) && (byte a <=? 57) || (97 <=? byte a) && (byte a <=? 102))%Z.

(** [graded_sha] matches [^(?:[0-9a-f]{40}|[0-9a-f]{64})$]; [test] holds a
    character that is no white space. *)
Definition valid_evidence (e : CriterionEvidence) : bool :=
  str_all is_hex_lower (graded_sha e)
  && bool_decide (String.length (graded_sha e) ∈ [40; 64])
  && negb (str_blank (test e)).

(** ** The JSON of a record, two spaces an indent *)

Definition sp2 : string := "  ".
Definition quoted (s : string) : string := String dq (s +:+ String dq "").
Definition evidence_head : string :=
  "{" +:+ nl +:+ sp2 +:+ quoted "gradedSha" +:+ ": ".
Definition evidence_middle : string := "," +:+ nl +:+ sp2 +:+ quoted "test" +:+ ": ".
Definition evidence_tail : string := nl +:+ "}".

(** pydantic: the literal it writes for a string, and [model_validate_json]. *)
Class PydanticJson := {
  dump_string : string → string;
  model_validate_json : string → option CriterionEvidence;
}.

(** [evidence.model_dump_json(by_alias=True, indent=2)] *)
Definition model_dump_json `{PydanticJson} (e : CriterionEvidence) : string :=
  evidence_head +:+ dump_string (graded_sha e) +:+ evidence_middle
  +:+ dump_string (test e) +:+ evidence_tail.

(** The line boundaries JSON leaves as they are: NEL, LS and PS. *)
Fixpoint plain_text (s : string) : bool :=
  match s with
  | EmptyString => true
  | String a r =>
      negb (bool_decide (byte a = 194 ∧ byte_at 0 r = 133)%Z)
      && negb (bool_decide (byte a = 226 ∧ byte_at 0 r = 128
                            ∧ (byte_at 1 r = 168 ∨ byte_at 1 r = 169))%Z)
      && plain_text r
  end.

(** What the code relies on of it: a dumped string is a literal of that string, in
    which control characters are escaped; and what was dumped validates. *)
Class PydanticJsonLaws `{PydanticJson} : Prop := {
  dump_string_reads s rest : json_string (dump_string s +:+ rest) = Some (s, rest);
  dump_string_line s : plain_text s = true → unbroken (dump_string s) = true;
  dump_validates e : valid_evidence e = true → model_validate_json (model_dump_json e) = Some e;
}.

Section codec.
Context `{PydanticJson}.

Definition evidence_fence : string := "```json" +:+ nl.
Definition evidence_close : string := nl +:+ "```".

Definition evidence_field_value (e : CriterionEvidence) : string :=
  nl +:+ evidence_fence +:+ model_dump_json e +:+ evidence_close.

Definition render_evidence_field (e : CriterionEvidence) : string :=
  "**Evidence:**" +:+ evidence_field_value e.

Definition apply_evidence (body : string) (e : CriterionEvidence) : result exn string :=
  replace_criterion_fields body [(F_EVIDENCE, evidence_field_value e)].

(** [_unique_object] is what [json_loads_unique] refuses a repeated key with. *)
Definition parse_criterion_evidence (body : string) : result exn CriterionEvidence :=
  match criterion_field_bodies body F_EVIDENCE with
  | [value] =>
      raise_if (negb (startswith value evidence_fence && endswith value evidence_close))
        (ValueError "Evidence requires one explicit fenced JSON record")
        (let payload := slice value (String.length evidence_fence)
                          (String.length value - String.length evidence_close) in
         raise_if (negb (json_loads_unique payload)) (ValueError "json")
           (match model_validate_json payload with
            | Some e => Ok e
            | None => Err (ValidationError "CriterionEvidence")
            end))
  | _ => Err (ValueError "exactly one Evidence field is required")
  end.
End codec.

(** ** A fenced record stays inside its row *)

Lemma run_of_other c a s : a ≠ c → run_of c (String a s) = (0, String a s).
Proof. intros Hne. cbn [run_of]. by destruct (Ascii.ascii_dec a c). Qed.

(** A line whose first visible character opens no fence. *)
Lemma fence_match_none line a r :
  indented line = Some (String a r) → a ≠ backtick → a ≠ tilde → fence_match line = None.
Proof.
  intros E Hb Ht. unfold fence_match. rewrite E. cbn [mbind option_bind].
  by rewrite !run_of_other.
Qed.

(** Lines inside an open fence are its text, until one closes it. *)
Lemma fenced_lines fence ls pre_open :
  Forall (λ l, closes fence l = false) ls →
  opened_by (Some fence, pre_open) ls = (Some fence, pre_open)
  ∧ blocks (λ l, l) (Some fence, pre_open) ls = (ls, ls, [])
  ∧ ∀ rest, settled_from (λ l, l) (Some fence, pre_open) (ls ++ rest)
            = settled_from (λ l, l) (Some fence, pre_open) rest.
Proof.
  induction 1 as [|l ls Hl _ (IH1 & IH2 & IH3)]; [done|].
  assert (visible_line (Some fence, pre_open) l = ((Some fence, pre_open), inr l)) as E
    by (unfold visible_line; cbn [fst snd]; by rewrite Hl).
  split; [|split].
  - unfold opened_by in *. cbn [foldl]. by rewrite E.
  - cbn [blocks]. by rewrite E, IH2.
  - intros rest. cbn [app settled_from]. rewrite E. apply IH3.
Qed.

Section laws.
Context `{PydanticJsonLaws}.

(** The four lines of a dumped record. *)
Definition record_lines (e : CriterionEvidence) : list string :=
  ["{"; sp2 +:+ quoted "gradedSha" +:+ ": " +:+ dump_string (graded_sha e) +:+ ",";
   sp2 +:+ quoted "test" +:+ ": " +:+ dump_string (test e); "}"].

Lemma hex_plain s : str_all is_hex_lower s = true → plain_text s = true.
Proof.
  induction s as [|a s IH]; [done|]. cbn [str_all plain_text].
  rewrite andb_true_iff. intros [Ha Hs]. rewrite (IH Hs), andb_true_r.
  unfold is_hex_lower in Ha. rewrite orb_true_iff, !andb_true_iff, !Z.leb_le in Ha.
  rewrite !bool_decide_false; [done| |]; lia.
Qed.

(** The fenced record: what the field holds, stripped. *)
Definition fenced (e : CriterionEvidence) : string :=
  evidence_fence +:+ model_dump_json e +:+ evidence_close.

Lemma dump_starts s : ∃ r, dump_string s = String dq r.
Proof.
  pose proof (dump_string_reads s "") as E. rewrite str_app_nil_r in E.
  destruct (dump_string s) as [|a r]; [done|]. cbn [json_string] in E.
  case_decide; [subst; eauto|done].
Qed.

Lemma dump_joins s y : joins (dump_string s +:+ y) = true.
Proof. destruct (dump_starts s) as [r ->]. done. Qed.

Lemma dump_unbroken s y :
  plain_text s = true → unbroken y = true → joins y = true →
  unbroken (dump_string s +:+ y) = true.
Proof. intros Hs Hy Hj. apply unbroken_app; [by apply dump_string_line|done|done]. Qed.

Definition record_text (e : CriterionEvidence) : list string :=
  "```json" :: record_lines e ++ ["```"].

Lemma record_unbroken e :
  plain_text (graded_sha e) = true → plain_text (test e) = true →
  Forall (λ l, unbroken l = true) (record_text e).
Proof.
  intros Hs Ht. unfold record_text, record_lines. repeat constructor; try done.
  - change (sp2 +:+ quoted "gradedSha" +:+ ": " +:+ dump_string (graded_sha e) +:+ ",")
      with ((sp2 +:+ quoted "gradedSha" +:+ ": ") +:+ (dump_string (graded_sha e) +:+ ",")).
    apply unbroken_app; [done|by apply dump_unbroken|apply dump_joins].
  - change (sp2 +:+ quoted "test" +:+ ": " +:+ dump_string (test e))
      with ((sp2 +:+ quoted "test" +:+ ": ") +:+ dump_string (test e)).
    apply unbroken_app; [done|by apply dump_string_line|].
    rewrite <-(str_app_nil_r (dump_string _)). apply dump_joins.
Qed.

(** The row the writer composes, as lines. *)
Lemma evidence_row_text e :
  field_row F_EVIDENCE (evidence_field_value e) +:+ nl
  = "**Evidence:** " +:+ String newline (concat_str ((λ l, l +:+ nl) <$> record_text e)).
Proof.
  unfold evidence_field_value, model_dump_json, record_text, record_lines, evidence_fence,
    evidence_head, evidence_middle, evidence_tail, evidence_close, field_row.
  cbn [fmap list_fmap concat_str app].
  repeat (cbn [String.append field_name]; rewrite <-?str_app_assoc). done.
Qed.

Lemma splitlines_texts ls :
  Forall (λ l, unbroken l = true) ls →
  splitlines (concat_str ((λ l, l +:+ nl) <$> ls)) = ls.
Proof.
  induction 1 as [|l ls Hl _ IH]; [done|]. rewrite fmap_cons. cbn [concat_str].
  rewrite <-str_app_assoc. change (nl +:+ ?x) with (String newline x).
  by rewrite splitlines_line, IH.
Qed.

Lemma record_fenced e : Forall (λ l, closes (backtick, 3) l = false) (record_lines e).
Proof.
  assert (∀ l, fence_match l = None → closes (backtick, 3) l = false) as Hc
    by (intros l E; unfold closes; by rewrite E).
  unfold record_lines. repeat constructor; try done; apply Hc;
    eapply (fence_match_none _ dq); done.
Qed.

Lemma strip_record e : strip_lines (" " :: record_text e) = strip (evidence_field_value e)
  ∧ strip (evidence_field_value e) = fenced e.
Proof.
  assert (strip (evidence_field_value e) = fenced e) as E2.
  { unfold evidence_field_value, fenced. change (nl +:+ ?x) with (String newline x).
    rewrite strip_cons_ws by done.
    set (inner := "``json" +:+ nl +:+ model_dump_json e +:+ nl +:+ "``").
    replace (evidence_fence +:+ model_dump_json e +:+ evidence_close)
      with (String backtick (inner +:+ String backtick "")); [by apply strip_text|].
    unfold inner, evidence_fence, evidence_close. cbn [String.append].
    do 7 f_equal. rewrite <-!str_app_assoc. done. }
  split; [|done]. rewrite E2. unfold strip_lines.
  assert (join nl (" " :: record_text e) = String sp (String newline (fenced e))) as ->.
  { unfold record_text, record_lines, fenced, model_dump_json, evidence_fence,
      evidence_head, evidence_middle, evidence_tail, evidence_close.
    cbn [join app]. repeat (cbn [String.append]; rewrite <-?str_app_assoc). done. }
  rewrite strip_cons_ws by done. exact E2.
Qed.

Lemma self_contained_intro field value ls texts :
  blocks (λ l, l) (None, false) (splitlines (field_row field value +:+ nl))
    = ([], [], [Build_block field ls texts]) →
  strip_lines texts = strip value → settled (field_row field value +:+ nl) = true →
  self_contained field value = true.
Proof.
  intros Hb Ht Hs. unfold self_contained. rewrite Hs, andb_true_r. apply bool_decide_eq_true.
  unfold splitlines in Hb. rewrite blocks_fmap in Hb.
  destruct (blocks fst (None, false) _) as [[pre tx] bs] eqn:E.
  injection Hb as Hpre -> Hbs. apply fmap_nil_inv in Hpre as ->.
  destruct bs as [|b [|]]; cbn in Hbs; try done. injection Hbs as Hbl _ Hbt.
  rewrite (criterion_rows_blocks _ _ _ _ E). cbn [rows_of unlines String.length Nat.add].
  pose proof (blocks_lines _ _ _ _ _ E) as El. rewrite lines_of_cons in El.
  change (lines_of (@nil (block pyline))) with (@nil pyline) in El. rewrite app_nil_r in El. cbn [app] in El. rewrite <-El, splitlines_keep_unlines, Hbl, Hbt, Ht. done.
Qed.

Lemma visible_evidence :
  visible_line (None, false) "**Evidence:** " = ((None, false), inl (F_EVIDENCE, " ")).
Proof. done. Qed.

Lemma visible_fence :
  visible_line (None, false) "```json" = ((Some (backtick, 3), false), inr "```json").
Proof. done. Qed.

Lemma evidence_self_contained e :
  plain_text (graded_sha e) = true → plain_text (test e) = true →
  self_contained F_EVIDENCE (evidence_field_value e) = true.
Proof.
  intros Hs Ht.
  assert (splitlines (field_row F_EVIDENCE (evidence_field_value e) +:+ nl)
    = "**Evidence:** " :: record_text e) as El.
  { rewrite evidence_row_text, splitlines_line by done.
    by rewrite splitlines_texts by by apply record_unbroken. }
  destruct (fenced_lines (backtick, 3) (record_lines e) false (record_fenced e)) as (Ho & Hb & Hst).
  assert (blocks (λ l, l) (None, false) ("**Evidence:** " :: record_text e)
    = ([], [], [Build_block F_EVIDENCE ("**Evidence:** " :: record_text e) (" " :: record_text e)]))
    as Eb.
  { cbn [blocks]. rewrite visible_evidence.
    unfold record_text. cbn [blocks].
    rewrite visible_fence.
    rewrite (blocks_app (λ l, l) _ (record_lines e) ["```"] ["```"] ["```"] []).
    - by rewrite Hb.
    - rewrite list_fmap_id, Ho. done. }
  eapply self_contained_intro.
  - by rewrite El.
  - apply strip_record.
  - unfold settled. rewrite El. cbn [settled_from].
    rewrite visible_evidence.
    unfold record_text. cbn [settled_from].
    rewrite visible_fence.
    rewrite Hst. done.
Qed.

(** ** The record reads back *)

Lemma dump_space s y : json_space (dump_string s +:+ y) = dump_string s +:+ y.
Proof. by destruct (dump_starts s) as [r ->]. Qed.

Lemma record_loads e : json_loads_unique (model_dump_json e) = true.
Proof.
  rewrite (json_loads_unique_fuel (S (S (S (S (2 * String.length (model_dump_json e))))))) by lia.
  set (n := 2 * String.length (model_dump_json e)). clearbody n.
  assert (model_dump_json e = String (Ascii.ascii_of_nat 123) (nl +:+ sp2 +:+
    String dq ("gradedSha" +:+ String dq (String (Ascii.ascii_of_nat 58) (String (Ascii.ascii_of_nat 32)
      (dump_string (graded_sha e) +:+ ("," +:+ nl +:+ sp2 +:+
    String dq ("test" +:+ String dq (String (Ascii.ascii_of_nat 58) (String (Ascii.ascii_of_nat 32)
      (dump_string (test e) +:+ evidence_tail))))))))))) as -> by done.
  change (json_space (String (Ascii.ascii_of_nat 123) ?r)) with (String (Ascii.ascii_of_nat 123) r).
  rewrite (json_rest_object (S (S (S n))) (nl +:+ sp2 +:+ _)) by done.
  change (json_space (nl +:+ sp2 +:+ String dq ?x)) with (String dq x).
  erewrite (json_rest_member (S n) [] "gradedSha");
    [|done|set_solver|apply dump_string_reads|apply dump_space].
  change (after_char 44 (json_space ("," +:+ ?x))) with (Some x). cbv iota.
  change (json_space (nl +:+ sp2 +:+ String dq ?x)) with (String dq x).
  erewrite (json_rest_member n ["gradedSha"] "test");
    [|done|set_solver|apply dump_string_reads|apply dump_space].
  done.
Qed.

Lemma slice_middle a b c :
  slice (a +:+ b +:+ c) (String.length a) (String.length (a +:+ b +:+ c) - String.length c) = b.
Proof.
  unfold slice. rewrite str_app_assoc.
  replace (String.length ((a +:+ b) +:+ c) - String.length c) with (String.length (a +:+ b))
    by (rewrite (str_length_app (a +:+ b)); lia).
  by rewrite str_take_app, str_drop_app.
Qed.

Lemma parse_fenced body e :
  criterion_field_bodies body F_EVIDENCE = [fenced e] → valid_evidence e = true →
  parse_criterion_evidence body = Ok e.
Proof.
  intros E Hv. unfold parse_criterion_evidence. rewrite E.
  assert (startswith (fenced e) evidence_fence = true) as -> by apply startswith_app.
  assert (endswith (fenced e) evidence_close = true) as ->.
  { apply endswith_spec. exists (evidence_fence +:+ model_dump_json e).
    unfold fenced. by rewrite str_app_assoc. }
  cbn [andb negb raise_if]. cbv zeta. unfold fenced. rewrite slice_middle, record_loads.
  cbn [negb raise_if]. by rewrite dump_validates.
Qed.

Lemma edited_bodies (fields fields' : list (CriterionField * string)) v f :
  fields' = edited_fields fields [(F_EVIDENCE, v)] → f ≠ F_EVIDENCE →
  filter (λ ft, ft.1 = f) fields' = filter (λ ft, ft.1 = f) fields.
Proof.
  intros -> Hf. unfold edited_fields. rewrite filter_app.
  replace (filter _ (prod_map id strip <$> _)) with (@nil (CriterionField * string)).
  2:{ symmetry. apply filter_none. intros [g w] ([g' w'] & [= -> ->] & Hin)%list_elem_of_fmap.
      apply list_elem_of_filter in Hin as [_ [= -> ->]%list_elem_of_singleton]. cbn; congruence. }
  rewrite app_nil_r. induction fields as [|[g w] fields IH]; [done|].
  rewrite fmap_cons, !filter_cons. cbn [fst snd]. rewrite IH.
  case_decide as Eg; [|done]. subst g.
  assert (dict_get [(F_EVIDENCE, v)] f = None) as ->; [|done].
  cbn [dict_get]. by rewrite decide_False by congruence.
Qed.

(** The write succeeds on a settled body of one row per label, and leaves such a body;
    only the Evidence row reads otherwise. *)
Lemma apply_evidence_reads body e :
  NoDup (field_texts body).*1 → settled body = true → valid_evidence e = true →
  plain_text (test e) = true →
  ∃ final, apply_evidence body e = Ok final
    ∧ criterion_field_bodies final F_EVIDENCE = [fenced e]
    ∧ (∀ field, field ≠ F_EVIDENCE →
         criterion_field_bodies final field = criterion_field_bodies body field)
    ∧ settled final = true ∧ NoDup (field_texts final).*1.
Proof.
  intros Hlabels Hsettled Hvalid Hplain.
  assert (plain_text (graded_sha e) = true) as Hsha.
  { apply hex_plain. unfold valid_evidence in Hvalid. rewrite !andb_true_iff in Hvalid. tauto. }
  destruct (replace_reads body [(F_EVIDENCE, evidence_field_value e)]) as (final & E & Hs & Ht);
    try done.
  { apply NoDup_singleton. }
  { intros f v [= -> ->]%list_elem_of_singleton. by apply evidence_self_contained. }
  assert (NoDup (field_texts final).*1) as Hnd.
  { rewrite Ht. apply edited_labels; [done|apply NoDup_singleton]. }
  exists final. split; [done|]. split; [|split; [|done]].
  - rewrite field_bodies_texts. apply filter_key_unique; [done|].
    rewrite Ht, <-(proj2 (strip_record e)). apply edited_reads;
      [apply NoDup_singleton|by apply list_elem_of_singleton].
  - intros f Hf. rewrite !field_bodies_texts. by rewrite (edited_bodies _ _ _ _ Ht Hf).
Qed.

(** C32. What was written into the Evidence row is what is read from it: on a body
    with one row per label whose rows open with no fence or comment open, writing a
    valid record whose observation has no NEL, LS or PS succeeds, parsing the result
    gives back that record, and every other field reads as before. The result is such
    a body again, so consecutive gradings keep round-tripping. *)
Theorem evidence_roundtrip (body : string) (e : CriterionEvidence)
    (Hlabels : NoDup (field_texts body).*1) (Hsettled : settled body = true)
    (Hvalid : valid_evidence e = true) (Hplain : plain_text (test e) = true) :
  ∃ final, apply_evidence body e = Ok final
    ∧ parse_criterion_evidence final = Ok e
    ∧ (∀ field, field ≠ F_EVIDENCE →
         criterion_field_bodies final field = criterion_field_bodies body field)
    ∧ settled final = true ∧ NoDup (field_texts final).*1.
Proof.
  destruct (apply_evidence_reads body e Hlabels Hsettled Hvalid Hplain)
    as (final & E & Hrow & Hother & Hs & Hnd).
  exists final. split; [done|]. split; [by apply parse_fenced|done].
Qed.
End laws.

(** ** An implementation of the promises, for concrete inputs *)

Definition hex_char (d : Z) : Ascii.ascii := chr (if decide (d < 10)%Z then 48 + d else 87 + d).

(** The two-character escapes, the six-character one of the other control
    characters, and every other character as it is. *)
Definition escape_char (a : Ascii.ascii) : string :=
  let b := byte a in
  if decide (a = dq) then String backslash (String dq "")
  else if decide (a = backslash) then String backslash (String backslash "")
  else if decide (b < 32)%Z then
    String backslash
      (match dict_get [(8, 98); (9, 116); (10, 110); (12, 102); (13, 114)]%Z b with
       | Some c => String (chr c) ""
       | None => "u00" +:+ String (hex_char (b / 16)) (String (hex_char (b mod 16)) "")
       end)
  else String a "".

Definition dump_literal (s : string) : string :=
  String dq (str_map_chars escape_char s +:+ String dq "").

Definition validate_record (text : string) : option CriterionEvidence :=
  r ← strip_prefix evidence_head text;
  '(sha, r) ← json_string r;
  r ← strip_prefix evidence_middle r;
  '(text', r) ← json_string r;
  let e := {| graded_sha := sha; test := text' |} in
  if decide (r = evidence_tail ∧ valid_evidence e = true) then Some e else None.

#[export] Instance reference_json : PydanticJson := {|
  dump_string := dump_literal; model_validate_json := validate_record |}.

Lemma escape_unit a t : json_unit (escape_char a +:+ t) = Some (String a "", t).
Proof. destruct a as [[] [] [] [] [] [] [] []]; reflexivity. Qed.

Lemma escape_not_quote a t s' : escape_char a +:+ t ≠ String dq s'.
Proof.
  unfold escape_char. repeat case_decide; try done.
  intros [= E]. done.
Qed.

Lemma escape_length a : 1 ≤ len (escape_char a).
Proof. unfold escape_char. repeat case_decide; cbn [len]; lia. Qed.

Lemma dump_literal_reads s rest : json_string (dump_literal s +:+ rest) = Some (s, rest).
Proof.
  unfold dump_literal. cbn [String.append json_string]. rewrite decide_True by done.
  set (f := len _). assert (len (str_map_chars escape_char s +:+ String dq rest) ≤ f) as Hf.
  { unfold f. by rewrite <-str_app_assoc. }
  clearbody f. rewrite <-str_app_assoc. cbn [String.append].
  revert f Hf. induction s as [|a s IH]; intros [|f] Hf.
  - cbn in Hf. lia.
  - cbn. by rewrite decide_True.
  - cbn [str_map_chars] in Hf. rewrite <-str_app_assoc, str_length_app in Hf.
    pose proof (escape_length a). lia.
  - cbn [str_map_chars] in Hf |- *. rewrite <-str_app_assoc in Hf |- *.
    rewrite (json_chars_app (s, rest) _ f _ _ (escape_unit a _)); [done|apply escape_not_quote|].
    apply IH. rewrite str_length_app in Hf. pose proof (escape_length a). lia.
Qed.

(** A byte above ASCII in the escaped text is that byte of the text. *)
Lemma escape_head a r :
  (128 ≤ byte_at 0 (escape_char a +:+ r))%Z → escape_char a = String a "".
Proof.
  destruct a as [[] [] [] [] [] [] [] []]; try reflexivity; intros H; exfalso;
    revert H; vm_compute; intros H; by apply H.
Qed.

Definition escaped (s : string) : string := str_map_chars escape_char s +:+ String dq "".

Lemma escaped_cons a s : escaped (String a s) = escape_char a +:+ escaped s.
Proof. unfold escaped. cbn [str_map_chars]. by rewrite <-str_app_assoc. Qed.

Lemma escaped_head s :
  (128 ≤ byte_at 0 (escaped s))%Z →
  ∃ b s', s = String b s' ∧ escaped s = String b (escaped s').
Proof.
  destruct s as [|b s']; [vm_compute; intros H; by destruct H|]. rewrite escaped_cons.
  intros H%escape_head. exists b, s'. by rewrite H.
Qed.

(** An escape is ASCII and no control character; other characters stand. *)
Lemma escape_cases a :
  escape_char a = String a "" ∧ (32 ≤ byte a)%Z
  ∨ str_all (λ c, (32 <=? byte c)%Z && (byte c <? 128)%Z) (escape_char a) = true.
Proof.
  destruct (decide (escape_char a = String a "")) as [E|E].
  - destruct (decide (32 ≤ byte a)%Z) as [|Hb]; [by left|]. right. exfalso. revert E Hb.
    destruct a as [[] [] [] [] [] [] [] []]; vm_compute; try done; intros _ H; by destruct H.
  - right. revert E. destruct a as [[] [] [] [] [] [] [] []]; try reflexivity; intros H; by destruct H.
Qed.

Lemma unbroken_cons_printable c y :
  (32 ≤ byte c)%Z → (byte c = 194 → byte_at 0 y ≠ 133)%Z →
  (byte c = 226 → byte_at 0 y = 128 → byte_at 1 y ≠ 168 ∧ byte_at 1 y ≠ 169)%Z →
  unbroken y = true → unbroken (String c y) = true.
Proof.
  intros Hc H2 H3 Hy. cbn [unbroken]. rewrite Hy, andb_true_r. apply bool_decide_eq_true.
  unfold line_boundary, boundary_length. cbn [byte_at].
  rewrite bool_decide_false by (intros H; rewrite !elem_of_cons, elem_of_nil in H; lia).
  rewrite !bool_decide_false; [done|tauto|tauto|lia].
Qed.

Lemma unbroken_printable x y :
  str_all (λ c, (32 <=? byte c)%Z && (byte c <? 128)%Z) x = true →
  unbroken y = true → unbroken (x +:+ y) = true.
Proof.
  intros Hx Hy. induction x as [|c x IH]; [done|]. cbn [str_all String.append] in *.
  rewrite !andb_true_iff, Z.leb_le, Z.ltb_lt in Hx. destruct Hx as [[? ?] Hx].
  apply unbroken_cons_printable; [lia|lia|lia|by apply IH].
Qed.

Lemma escaped_line s : plain_text s = true → unbroken (escaped s) = true.
Proof.
  induction s as [|a s IH]; [done|]. cbn [plain_text].
  rewrite !andb_true_iff, !negb_true_iff, !bool_decide_eq_false. intros [[H2 H3] Hs].
  rewrite escaped_cons. specialize (IH Hs).
  destruct (escape_cases a) as [[-> Ha]|Ha]; [|by apply unbroken_printable].
  cbn [String.append]. apply unbroken_cons_printable; [done| | |done].
  - intros E E'. destruct (escaped_head s) as (b & s' & -> & Es); [lia|].
    rewrite Es in E'. apply H2. done.
  - intros E E'. destruct (escaped_head s) as (b & s' & -> & Es); [lia|].
    rewrite Es in E' |- *. change (byte_at 1 (String b ?x)) with (byte_at 0 x) in *.
    change (byte_at 0 (String b ?x)) with (byte b) in *.
    split; intros E''; (destruct (escaped_head s') as (c & s'' & -> & Es'); [lia|]);
      rewrite Es' in E''; apply H3; cbn [byte_at] in *; tauto.
Qed.

#[export] Instance reference_json_laws : PydanticJsonLaws.
Proof.
  split.
  - apply dump_literal_reads.
  - intros s Hs. apply (unbroken_cons_printable dq (escaped s)); try done.
    by apply escaped_line.
  - intros e He. cbn [model_validate_json reference_json]. unfold validate_record, model_dump_json.
    assert (∀ p r, strip_prefix p (p +:+ r) = Some r) as Hp by (intros; by apply strip_prefix_Some).
    rewrite Hp. cbn [mbind option_bind dump_string]. rewrite dump_literal_reads.
    cbn [mbind option_bind]. rewrite Hp. cbn [mbind option_bind]. rewrite dump_literal_reads.
    cbn [mbind option_bind]. destruct e as [sha t]. cbn [graded_sha test] in *. by rewrite decide_True.
Qed.

(** ** A record of the loop, written twice *)

Definition sample_evidence : CriterionEvidence := {|
  graded_sha := "0123456789abcdef0123456789abcdef01234567";
  test := "evaluator session s-1, iteration 2" |}.

Example evidence_roundtrip_witness :
  ∃ final, apply_evidence sample_body sample_evidence = Ok final
    ∧ parse_criterion_evidence final = Ok sample_evidence
    ∧ criterion_field_bodies final F_CHECK = criterion_field_bodies sample_body F_CHECK.
Proof.
  destruct (evidence_roundtrip sample_body sample_evidence) as (final & E & Hp & Hf & _).
  - apply (bool_decide_unpack _). by vm_compute.
  - by vm_compute.
  - by vm_compute.
  - by vm_compute.
  - exists final. split; [exact E|]. split; [exact Hp|]. by apply Hf.
Defined.

(** An observation with a LINE SEPARATOR is a valid record, and its write raises: the
    row reads back with a line feed where the separator was. *)
Example separator_refused :
  let e := {| graded_sha := graded_sha sample_evidence;
              test := "a" +:+ String (chr 226) (String (chr 128) (String (chr 168) "b")) |} in
  valid_evidence e = true
  ∧ apply_evidence sample_body e = Err (ValueError "amended criterion fields must remain distinct").
Proof. by vm_compute. Qed.
