(* ===== verification/Grading.v ===== *)
(** * Grading one evaluation pass (domain/criteria_grading.py, accept_gate.py, fan_in.py).

    [grade_iteration] reconciles what the evaluator returned against the ids that
    were dispatched and grades fail-closed; [accept_verdict] is the gate's
    arithmetic over the rows; [require_permutation] is the guard that turns the
    reconciliation's holes into the retryable error. *)

From S2P Require Import Prelude PyStr Tracker Errors Criteria Lapse.

(** ** Data (types/domain/accept.py, grading.py, agent.py) *)

Inductive AcceptVerdict := accepted | ship_with_flags | rejected.
#[export] Instance AcceptVerdict_eq_dec : EqDecision AcceptVerdict.
Proof. solve_decision. Defined.

Record SherlockFlag := { flag_criterion : option CriterionId; concern : string }.
#[export] Instance SherlockFlag_eq_dec : EqDecision SherlockFlag.
Proof. solve_decision. Defined.
Record FlaggedItem := { item_criterion : option CriterionId; summary : string }.

Record CriterionResult := {
  result_id : CriterionId;
  result_text : string;
  result_passed : bool;
  reasoning : string;
  result_class : RederivationClass;
  result_paths : list string;
}.
#[export] Instance CriterionResult_eq_dec : EqDecision CriterionResult.
Proof. solve_decision. Defined.

Record AcceptanceCriteriaOutput := {
  criteria_results : list CriterionResult;
  output_flags : list SherlockFlag;
}.
#[export] Instance AcceptanceCriteriaOutput_eq_dec : EqDecision AcceptanceCriteriaOutput.
Proof. solve_decision. Defined.

Record IterationGrade := {
  results : list CriterionResult;
  failures : list CriterionFailure;
  missing_ids : list CriterionId;
  unknown_ids : list CriterionId;
  duplicate_ids : list CriterionId;
  dispatched_count : nat;
  passed_count : nat;
  verdict : AcceptVerdict;
  grade_flags : list SherlockFlag;
}.

Record FanInReport := {
  report_missing_ids : list CriterionId;
  report_unknown_ids : list CriterionId;
  report_duplicate_ids : list CriterionId;
  report_dispatched : nat;
  report_attempts : nat;
}.
#[export] Instance FanInReport_eq_dec : EqDecision FanInReport.
Proof. solve_decision. Defined.

(** ** The accept gate (domain/accept_gate.py) *)

Definition is_graded (c : ExecutionCriterion) : bool :=
  match c with
  | Tracked _ => true
  | Validated v => negb (bool_decide (feasibility_verdict (feasibility v) = unverifiable))
  end.

Definition ungraded (criteria : list ExecutionCriterion) : list ValidatedCriterion :=
  omap (λ c, match c with
             | Validated v => if is_graded c then None else Some v
             | Tracked _ => None
             end) criteria.

Definition named_resource (c : ValidatedCriterion) : result exn string :=
  match feasibility_missing_resource (feasibility c) with
  | Some r => raise_if (str_blank r)
      (UngroundedVerdictError "An ungraded criterion reached the accept gate naming no resource"
        (valid_id c)) (Ok r)
  | None => Err (UngroundedVerdictError
      "An ungraded criterion reached the accept gate naming no resource" (valid_id c))
  end.

Definition answered_rows (rs : list CriterionResult) : pydict CriterionId CriterionResult :=
  dict_of ((λ r, (result_id r, r)) <$> rs).

Definition failed_in (answered : pydict CriterionId CriterionResult) (c : ExecutionCriterion) :
    bool :=
  is_graded c && match dict_get answered (criterion_id c) with
                 | None => true
                 | Some r => negb (result_passed r)
                 end.

Definition _failures (criteria : list ExecutionCriterion) (rs : list CriterionResult) :
    list ExecutionCriterion :=
  filter (λ c, failed_in (answered_rows rs) c = true) criteria.

Definition accept_verdict (criteria : list ExecutionCriterion) (rs : list CriterionResult) :
    AcceptVerdict :=
  match _failures criteria rs with
  | _ :: _ => rejected
  | [] => match ungraded criteria with _ :: _ => ship_with_flags | [] => accepted end
  end.

Definition gate_cleared (v : AcceptVerdict) : bool := negb (bool_decide (v = rejected)).

Definition sherlock_items (flags : list SherlockFlag) : list FlaggedItem :=
  (λ f, {| item_criterion := flag_criterion f; summary := concern f |}) <$> flags.

Definition flagged_items (criteria : list ExecutionCriterion) (flags : list SherlockFlag) :
    result exn (list FlaggedItem) :=
  items ← mapM (λ c, resource ← named_resource c;
    Ok {| item_criterion := Some (valid_id c);
          summary := valid_text c +:+ " — ungraded: demonstration deferred, "
                     +:+ resource +:+ " absent" |}) (ungraded criteria);
  Ok (items ++ sherlock_items flags).

(** ** Grading (domain/criteria_grading.py) *)

Definition MISSING_RESULT_REASONING : string :=
  "The evaluator returned no result for this criterion id. "
  +:+ "A dispatched criterion with no verdict grades failed.".
Definition DUPLICATE_RESULT_REASONING : string :=
  "The evaluator returned more than one result for this criterion id. "
  +:+ "A criterion answered twice has no verdict, so it grades failed.".

Definition UNDEMONSTRATED_REASONS (r : UndemonstratedReason) : string :=
  match r with
  | workspace_not_the_graded_sha =>
      "undemonstrated: the grading workspace held uncommitted changes, or its "
      +:+ "head was not the sha this verdict would be stamped with, so what it read "
      +:+ "is not what that sha names"
  | check_survived_mutation =>
      "undemonstrated: the check this criterion names still passed after the "
      +:+ "behaviour it names had been removed from the tree, so passing it is no "
      +:+ "reading of that behaviour"
  | satisfied_at_base =>
      "undemonstrated: the check this criterion names already passed at the "
      +:+ "lane's base, where none of the work exists, so passing it at the head is "
      +:+ "a reading of the base and not of the branch"
  | base_reading_unsettled =>
      "undemonstrated: the check this criterion names was to be run at the "
      +:+ "lane's base and no answer for it was settled there, so what the branch "
      +:+ "contributed to passing it was never read"
  end.

(** The row one dispatched criterion gets. *)
Definition grade_row (rep : report CriterionResult)
    (undemonstrated : pydict CriterionId UndemonstratedReason) (c : ExecutionCriterion) :
    CriterionResult :=
  let id := criterion_id c in
  let '(ok, reason, declared, exercised) :=
    match dict_get (seen rep) id with
    | None => (false, MISSING_RESULT_REASONING, cheap, [])
    | Some answer =>
        if decide (id ∈ duplicates rep) then (false, DUPLICATE_RESULT_REASONING, cheap, [])
        else (result_passed answer, reasoning answer, result_class answer, result_paths answer)
    end in
  let '(ok, reason) :=
    match dict_get undemonstrated id with
    | Some withheld => (false, UNDEMONSTRATED_REASONS withheld)
    | None => (ok, reason)
    end in
  {| result_id := id; result_text := criterion_body c; result_passed := ok;
     reasoning := reason; result_class := declared; result_paths := exercised |}.

Definition failure_of (row : CriterionResult) : CriterionFailure := {|
  failure_id := result_id row; failure_text := result_text row;
  failure_reasoning := reasoning row |}.

Definition grade_iteration (criteria : list ExecutionCriterion)
    (output : AcceptanceCriteriaOutput)
    (undemonstrated : pydict CriterionId UndemonstratedReason) : result exn IterationGrade :=
  let dispatched := list_to_set (criterion_id <$> criteria) : gset CriterionId in
  let rep := foldl (read_answer result_id dispatched) empty_report (criteria_results output) in
  let rows := grade_row rep undemonstrated <$> criteria in
  let graded_ids :=
    list_to_set (criterion_id <$> filter (λ c, is_graded c = true) criteria)
      : gset CriterionId in
  raise_if (bool_decide (length criteria = 0)) (ValidationError "IterationGrade")
  (Ok {|
    results := rows;
    failures := filter (λ f, failure_id f ∈ graded_ids)
                  (failure_of <$> filter (λ r, result_passed r = false) rows);
    missing_ids := filter (λ id, id ∉ dict_keys (seen rep)) (criterion_id <$> criteria);
    unknown_ids := unknown rep;
    duplicate_ids := duplicates rep;
    dispatched_count := length criteria;
    passed_count :=
      length (filter (λ r, result_passed r = true ∧ result_id r ∈ graded_ids) rows);
    verdict := accept_verdict criteria rows;
    grade_flags := output_flags output;
  |}).

(** ** The guard (domain/fan_in.py) *)

Definition require_permutation (grade : IterationGrade) : result exn unit :=
  raise_breach (fan_in_breach (missing_ids grade) (duplicate_ids grade) (unknown_ids grade))
    (Ok tt).

Definition fan_in_report (grade : IterationGrade) (attempts : nat) : FanInReport := {|
  report_missing_ids := missing_ids grade;
  report_unknown_ids := unknown_ids grade;
  report_duplicate_ids := duplicate_ids grade;
  report_dispatched := dispatched_count grade;
  report_attempts := attempts |}.

(** ** The gate, verified *)

Lemma ungraded_elem criteria v :
  v ∈ ungraded criteria ↔ Validated v ∈ criteria ∧ is_graded (Validated v) = false.
Proof.
  unfold ungraded. rewrite list_elem_of_omap. split.
  - intros ([w|w] & Hin & Hw); [|done]. destruct (is_graded (Validated w)) eqn:E; [done|].
    injection Hw as ->. done.
  - intros [Hin Hg]. exists (Validated v). by rewrite Hg.
Qed.

(** A graded criterion the rows leave unpassed. *)
Definition unpassed (rs : list CriterionResult) (c : ExecutionCriterion) : Prop :=
  is_graded c = true ∧ ∀ r, r ∈ rs → result_id r = criterion_id c → result_passed r = false.

Lemma answered_rows_get rs id :
  NoDup (result_id <$> rs) →
  ∀ r, dict_get (answered_rows rs) id = Some r ↔ r ∈ rs ∧ result_id r = id.
Proof.
  intros Hnd r. unfold answered_rows. split.
  - intros (r' & [= -> ->] & Hr)%dict_of_get%list_elem_of_fmap. done.
  - intros [Hr <-]. rewrite dict_of_NoDup by by rewrite <-list_fmap_compose.
    apply dict_get_NoDup; unfold dict_keys; rewrite <-?list_fmap_compose; [done|].
    apply list_elem_of_fmap. by exists r.
Qed.

Lemma failed_in_iff rs c :
  NoDup (result_id <$> rs) →
  failed_in (answered_rows rs) c = true ↔ unpassed rs c.
Proof.
  intros Hnd. unfold failed_in, unpassed. rewrite andb_true_iff.
  pose proof (answered_rows_get rs (criterion_id c) Hnd) as Hget.
  destruct (dict_get _ _) as [r|].
  - destruct (proj1 (Hget r) eq_refl) as [Hr Hid]. rewrite negb_true_iff. split.
    + intros [Hg Hp]. split; [done|]. intros r' Hr' Hid'.
      pose proof (proj2 (Hget r') (conj Hr' Hid')) as [= ->]. done.
    + intros [Hg Hp]. split; [done|]. by apply Hp.
  - split; [|naive_solver]. intros [Hg _]. split; [done|]. intros r Hr Hid.
    pose proof (proj2 (Hget r) (conj Hr Hid)). done.
Qed.

Lemma accept_verdict_spec criteria rs :
  NoDup (result_id <$> rs) →
  match accept_verdict criteria rs with
  | rejected => ∃ c, c ∈ criteria ∧ unpassed rs c
  | ship_with_flags => (∀ c, c ∈ criteria → ¬ unpassed rs c)
      ∧ ∃ c, c ∈ criteria ∧ is_graded c = false
  | accepted => ∀ c, c ∈ criteria → ¬ unpassed rs c ∧ is_graded c = true
  end.
Proof.
  intros Hnd. unfold accept_verdict.
  assert (∀ c, c ∈ _failures criteria rs ↔ c ∈ criteria ∧ unpassed rs c) as Hf.
  { intros c. unfold _failures. rewrite list_elem_of_filter, failed_in_iff by done. tauto. }
  destruct (_failures criteria rs) as [|c fs].
  - assert (∀ c, c ∈ criteria → ¬ unpassed rs c) as Hnone.
    { intros c Hc Hu. assert (c ∈ []) as H by by apply Hf. by apply not_elem_of_nil in H. }
    pose proof (ungraded_elem criteria) as Hu. destruct (ungraded criteria) as [|v vs].
    + intros c Hc. split; [by apply Hnone|]. destruct c as [v|]; [|done].
      destruct (is_graded (Validated v)) eqn:E; [done|].
      assert (v ∈ []) as H by by apply Hu. by apply not_elem_of_nil in H.
    + split; [done|]. destruct (proj1 (Hu v)) as [Hv Hg]; [by left|]. by eexists.
  - destruct (proj1 (Hf c)) as [Hc Hun]; [by left|]. by exists c.
Qed.

(** ** Grading, verified *)

Section grade.
Context (criteria : list ExecutionCriterion) (output : AcceptanceCriteriaOutput)
  (undemonstrated : pydict CriterionId UndemonstratedReason).
Let dispatched : list CriterionId := criterion_id <$> criteria.
Let rep : report CriterionResult :=
  foldl (read_answer result_id (list_to_set dispatched : gset CriterionId)) empty_report
    (criteria_results output).

(** A criterion passes on one passing answer nothing withheld, and on nothing else. *)
Definition demonstrated (c : ExecutionCriterion) : Prop :=
  ∃ a, answers_to result_id (criteria_results output) (criterion_id c) = [a]
    ∧ result_passed a = true ∧ dict_get undemonstrated (criterion_id c) = None.

Lemma grade_row_id c : result_id (grade_row rep undemonstrated c) = criterion_id c.
Proof. unfold grade_row. by repeat case_match. Qed.
Lemma grade_row_text c : result_text (grade_row rep undemonstrated c) = criterion_body c.
Proof. unfold grade_row. by repeat case_match. Qed.

Lemma grade_row_passed c :
  c ∈ criteria →
  result_passed (grade_row rep undemonstrated c) = true ↔ demonstrated c.
Proof.
  intros Hc. unfold grade_row, demonstrated.
  assert (criterion_id c ∈ dispatched) as Hid by by apply list_elem_of_fmap_2.
  assert (dict_get (seen rep) (criterion_id c)
    = head (answers_to result_id (criteria_results output) (criterion_id c))) as ->
    by by apply report_seen.
  assert (criterion_id c ∈ duplicates rep ↔
    1 < length (answers_to result_id (criteria_results output) (criterion_id c))) as Hdup.
  { pose proof (report_duplicates result_id dispatched (criteria_results output)
      (criterion_id c)) as Hd. fold rep in Hd. tauto. }
  destruct (answers_to _ _ _) as [|a [|b l]]; cbn [head length] in *.
  - destruct (dict_get undemonstrated _); simpl; split; try done; by intros (? & ? & _).
  - rewrite decide_False by (rewrite Hdup; lia).
    destruct (dict_get undemonstrated _) as [w|]; simpl; split; try done.
    + by intros (? & _ & _ & ?).
    + intros Hp. by exists a.
    + by intros (? & [= <-] & ? & _).
  - rewrite decide_True by (rewrite Hdup; lia).
    destruct (dict_get undemonstrated _); simpl; split; try done; by intros (? & ? & _).
Qed.

(** A withheld row carries the harness's reason, whatever the session said. *)
Lemma grade_row_withheld c w :
  dict_get undemonstrated (criterion_id c) = Some w →
  reasoning (grade_row rep undemonstrated c) = UNDEMONSTRATED_REASONS w.
Proof. intros Hw. unfold grade_row. rewrite Hw. by repeat case_match. Qed.

Lemma rows_ids : result_id <$> (grade_row rep undemonstrated <$> criteria) = dispatched.
Proof.
  unfold dispatched. rewrite <-list_fmap_compose. apply list_fmap_ext.
  intros i c _. apply grade_row_id.
Qed.

Lemma unpassed_rows c :
  NoDup dispatched → c ∈ criteria →
  unpassed (grade_row rep undemonstrated <$> criteria) c ↔ is_graded c = true ∧ ¬ demonstrated c.
Proof.
  intros Hnd Hc. unfold unpassed. rewrite <-grade_row_passed by done. split.
  - intros [Hg Hu]. split; [done|]. rewrite Hu; [done|by apply list_elem_of_fmap_2|].
    apply grade_row_id.
  - intros [Hg Hn]. split; [done|]. intros r (c' & -> & Hc')%list_elem_of_fmap Hid.
    rewrite grade_row_id in Hid.
    assert (c' = c) as ->; [|by apply not_true_is_false].
    by eapply (NoDup_fmap_elem criterion_id).
Qed.
End grade.

(** A grade's rows and verdict, for the components that read them. *)
Lemma grade_iteration_ok criteria output undemonstrated grade :
  grade_iteration criteria output undemonstrated = Ok grade →
  results grade = grade_row (foldl (read_answer result_id
    (list_to_set (criterion_id <$> criteria) : gset CriterionId)) empty_report
    (criteria_results output)) undemonstrated <$> criteria
  ∧ verdict grade = accept_verdict criteria (results grade) ∧ criteria ≠ [].
Proof.
  unfold grade_iteration. cbv zeta. intros Hg. ok_inv. subst grade. cbn. split_and!; [done..|].
  by intros ->.
Qed.

Lemma grade_iteration_ids criteria output undemonstrated grade :
  grade_iteration criteria output undemonstrated = Ok grade →
  result_id <$> results grade = criterion_id <$> criteria.
Proof. intros (-> & _ & _)%grade_iteration_ok. apply rows_ids. Qed.

(** A passing row is a demonstrated criterion of the dispatched set. *)
Lemma grade_iteration_passed criteria output undemonstrated grade r :
  grade_iteration criteria output undemonstrated = Ok grade →
  r ∈ results grade → result_passed r = true →
  ∃ c, c ∈ criteria ∧ criterion_id c = result_id r ∧ demonstrated output undemonstrated c.
Proof.
  intros (-> & _ & _)%grade_iteration_ok (c & -> & Hc)%list_elem_of_fmap Hp.
  exists c. rewrite grade_row_id. split_and!; [done..|]. by apply (grade_row_passed criteria).
Qed.

(** A cleared gate leaves no graded criterion undemonstrated. *)
Lemma gate_cleared_demonstrated criteria output undemonstrated grade c :
  grade_iteration criteria output undemonstrated = Ok grade →
  NoDup (criterion_id <$> criteria) →
  gate_cleared (verdict grade) = true → c ∈ criteria → is_graded c = true →
  demonstrated output undemonstrated c.
Proof.
  intros Hg Hnd Hclear Hc Hgr. pose proof Hg as (Hrows & Hv & _)%grade_iteration_ok.
  rewrite Hv, Hrows in Hclear.
  apply (grade_row_passed criteria); [done|]. apply not_false_iff_true. intros Hf.
  set (rs := grade_row _ _ <$> criteria) in *.
  assert (unpassed rs c) as Hu.
  { apply unpassed_rows; [done..|]. split; [done|]. rewrite <-(grade_row_passed criteria) by done.
    by rewrite Hf. }
  assert (NoDup (result_id <$> rs)) as Hnd' by (unfold rs; by rewrite rows_ids).
  pose proof (accept_verdict_spec criteria rs Hnd') as Hs. unfold gate_cleared in Hclear.
  destruct (accept_verdict criteria rs); [by apply Hs in Hc as [[] _]| |done].
  by apply (proj1 Hs c Hc).
Qed.

(** One evaluation pass. Grading refuses only an empty dispatched set. Otherwise
    it has one row per dispatched criterion, in dispatch order, carrying the
    harness's own text; a row passes exactly when the evaluator answered its id
    once, passing, and nothing was withheld from it; and the holes it names are
    exactly the ids unanswered, answered more than once, and never dispatched. *)
Theorem grade_iteration_spec (criteria : list ExecutionCriterion)
    (output : AcceptanceCriteriaOutput)
    (undemonstrated : pydict CriterionId UndemonstratedReason) :
  match grade_iteration criteria output undemonstrated with
  | Err e => e = ValidationError "IterationGrade" ∧ criteria = []
  | Ok grade =>
      Forall2 (λ c r, result_id r = criterion_id c ∧ result_text r = criterion_body c
          ∧ (result_passed r = true ↔ demonstrated output undemonstrated c))
        criteria (results grade)
      ∧ (∀ id, id ∈ missing_ids grade ↔
           id ∈ criterion_id <$> criteria ∧ id ∉ result_id <$> criteria_results output)
      ∧ (∀ id, id ∈ duplicate_ids grade ↔ id ∈ criterion_id <$> criteria
           ∧ 1 < length (answers_to result_id (criteria_results output) id))
      ∧ (∀ id, id ∈ unknown_ids grade ↔
           id ∈ result_id <$> criteria_results output ∧ id ∉ criterion_id <$> criteria)
      ∧ dispatched_count grade = length criteria ∧ criteria ≠ []
  end.
Proof.
  unfold grade_iteration. cbv zeta.
  destruct criteria as [|c0 cs] eqn:Hcs; [done|]. rewrite <-Hcs. cbn [raise_if].
  rewrite (bool_decide_false (length criteria = 0)) by (by rewrite Hcs). cbn. split_and!.
  - apply Forall2_fmap_r. apply Forall_Forall2_diag, Forall_forall. intros c Hc.
    split_and!; [apply grade_row_id|apply grade_row_text|by apply grade_row_passed].
  - apply report_missing.
  - apply report_duplicates.
  - apply report_unknown.
  - done.
  - by rewrite Hcs.
Qed.

(** The permutation guard. A grade passes the guard exactly when every
    dispatched id was answered once and nothing else was, that is, over distinct
    dispatched ids, when the answered ids are a permutation of them. *)
Theorem require_permutation_spec (criteria : list ExecutionCriterion)
    (output : AcceptanceCriteriaOutput)
    (undemonstrated : pydict CriterionId UndemonstratedReason) (grade : IterationGrade) :
  grade_iteration criteria output undemonstrated = Ok grade →
  NoDup (criterion_id <$> criteria) →
  (require_permutation grade = Ok tt ↔
     result_id <$> criteria_results output ≡ₚ criterion_id <$> criteria)
  ∧ (require_permutation grade ≠ Ok tt →
     require_permutation grade = Err (CriteriaFanInError FAN_IN_MESSAGE
       (missing_ids grade) (duplicate_ids grade) (unknown_ids grade))).
Proof.
  unfold grade_iteration. cbv zeta. intros Hg Hnd. ok_inv. subst grade.
  rewrite <-answers_exactly_perm by done. unfold require_permutation. cbn.
  set (rep := foldl _ _ _).
  pose proof (report_clean result_id (criterion_id <$> criteria) (criteria_results output)
    (unknown rep)) as Hclean. fold rep in Hclean.
  destruct (fan_in_breach _ _ _) as [e|] eqn:Hb.
  - split; [|intros _; simpl; by apply fan_in_breach_Some in Hb as ->].
    split; [done|]. intros Ha. exfalso.
    assert (unknown rep = []) as Hu.
    { apply elem_of_nil_inv. intros id [Hid Hn]%report_unknown. by apply Hn, (proj2 Ha). }
    discriminate (proj2 (Hclean (λ id, conj (λ H, or_introl H) (λ H, match H with
      or_introl H => H | or_intror H => H end))) (conj Ha Hu)).
  - split; [|done]. split; [intros _|done]. apply Hclean; [tauto|done].
Qed.

Lemma sum_passed_failed {A} (p g : A → Prop) `{∀ x, Decision (p x), ∀ x, Decision (g x)}
    (l : list A) :
  length (filter (λ x, p x ∧ g x) l) + length (filter g (filter (λ x, ¬ p x) l))
  + length (filter (λ x, ¬ g x) l) = length l.
Proof.
  induction l as [|x l IH]; [done|]. rewrite !filter_cons.
  repeat case_decide; rewrite ?filter_cons; repeat case_decide; simpl; try tauto; lia.
Qed.

(** The criteria's own counts, which the rows' counts turn out to be. *)
Lemma grade_counts criteria output undemonstrated grade :
  grade_iteration criteria output undemonstrated = Ok grade →
  NoDup (criterion_id <$> criteria) →
  let row := grade_row (foldl (read_answer result_id
    (list_to_set (criterion_id <$> criteria) : gset CriterionId)) empty_report
    (criteria_results output)) undemonstrated in
  failures grade = failure_of ∘ row <$>
    filter (λ c, is_graded c = true) (filter (λ c, ¬ result_passed (row c) = true) criteria)
  ∧ passed_count grade
    = length (filter (λ c, result_passed (row c) = true ∧ is_graded c = true) criteria).
Proof.
  unfold grade_iteration. cbv zeta. intros Hg Hnd. ok_inv. subst grade. cbn.
  set (row := grade_row _ _).
  assert (∀ c, c ∈ criteria → criterion_id c ∈ (list_to_set (criterion_id <$>
    filter (λ c, is_graded c = true) criteria) : gset CriterionId) ↔ is_graded c = true) as Hin.
  { intros c Hc. rewrite elem_of_list_to_set, list_elem_of_fmap. split.
    - intros (c' & Heq & [Hg' Hc']%list_elem_of_filter).
      assert (c = c') as ->; [|done].
      apply list_elem_of_lookup in Hc as [i Hi]. apply list_elem_of_lookup in Hc' as [j Hj].
      assert (i = j) as ->; [|congruence].
      eapply NoDup_lookup; [exact Hnd|..]; rewrite list_lookup_fmap.
      + by rewrite Hi.
      + by rewrite Hj, Heq.
    - intros Hg'. exists c. by rewrite list_elem_of_filter. }
  rewrite !filter_of_fmap, !length_fmap, <-list_fmap_compose. split.
  - f_equal. rewrite (filter_ext_in (λ c, result_passed (row c) = false)
      (λ c, ¬ result_passed (row c) = true)) by (intros c _; by rewrite not_true_iff_false).
    apply filter_ext_in. intros c [_ Hc]%list_elem_of_filter.
    cbn. unfold row. rewrite grade_row_id. by apply Hin.
  - f_equal. apply filter_ext_in. intros c Hc. cbn. unfold row.
    rewrite grade_row_id. by rewrite Hin.
Qed.

Lemma length_ungraded criteria :
  length (ungraded criteria) = length (filter (λ c, ¬ is_graded c = true) criteria).
Proof.
  unfold ungraded. induction criteria as [|c l IH]; [done|]. rewrite filter_cons. simpl.
  destruct c as [v|t]; simpl.
  - destruct (decide (feasibility_verdict (feasibility v) = unverifiable)) as [H|H].
    + rewrite bool_decide_true by done. simpl. by f_equal.
    + rewrite bool_decide_false by done. simpl. done.
  - done.
Qed.

(** The verdict is arithmetic over the whole dispatched set: the graded passes,
    the failures and the ungraded criteria sum to the dispatched count; the
    failures are exactly the graded criteria not demonstrated; a run is rejected
    exactly when there is one, ships with flags when there is none but something
    went ungraded, and is accepted only when every dispatched criterion passed. *)
Theorem grade_verdict_spec (criteria : list ExecutionCriterion)
    (output : AcceptanceCriteriaOutput)
    (undemonstrated : pydict CriterionId UndemonstratedReason) (grade : IterationGrade) :
  grade_iteration criteria output undemonstrated = Ok grade →
  NoDup (criterion_id <$> criteria) →
  passed_count grade + length (failures grade) + length (ungraded criteria)
    = dispatched_count grade
  ∧ (∀ id, id ∈ failure_id <$> failures grade ↔
       ∃ c, c ∈ criteria ∧ criterion_id c = id ∧ is_graded c = true
         ∧ ¬ demonstrated output undemonstrated c)
  ∧ match verdict grade with
    | rejected => failures grade ≠ []
    | ship_with_flags => failures grade = [] ∧ ungraded criteria ≠ []
    | accepted => passed_count grade = dispatched_count grade
    end.
Proof.
  intros Hg Hnd. destruct (grade_counts _ _ _ _ Hg Hnd) as [Hfail Hpass].
  set (row := grade_row _ _) in *.
  assert (∀ id, id ∈ failure_id <$> failures grade ↔
       ∃ c, c ∈ criteria ∧ criterion_id c = id ∧ is_graded c = true
         ∧ ¬ demonstrated output undemonstrated c) as Hfids.
  { intros id. rewrite Hfail, <-list_fmap_compose, list_elem_of_fmap.
    setoid_rewrite list_elem_of_filter. setoid_rewrite list_elem_of_filter. split.
    - intros (c & -> & ? & Hp & ?). exists c. unfold row in Hp.
      rewrite grade_row_passed in Hp by done. cbn. unfold row. by rewrite grade_row_id.
    - intros (c & Hc & <- & ? & Hp). exists c. cbn. unfold row. rewrite grade_row_id.
      by rewrite grade_row_passed. }
  assert (passed_count grade + length (failures grade) + length (ungraded criteria)
    = dispatched_count grade) as Hsum.
  { rewrite Hpass, Hfail, length_fmap, length_ungraded, sum_passed_failed.
    unfold grade_iteration in Hg. cbv zeta in Hg. ok_inv. by subst grade. }
  split_and!; [done..|].
  assert (verdict grade = accept_verdict criteria (row <$> criteria)
    ∧ NoDup (result_id <$> (row <$> criteria))) as [-> Hrows].
  { split; [unfold grade_iteration in Hg; cbv zeta in Hg; ok_inv; by subst grade|].
    unfold row. by rewrite rows_ids. }
  pose proof (accept_verdict_spec criteria (row <$> criteria) Hrows) as Hv.
  assert (failures grade = [] ↔ ∀ c, c ∈ criteria → ¬ unpassed (row <$> criteria) c) as Hnil.
  { split.
    - intros E c Hc Hu. unfold row in Hu. rewrite unpassed_rows in Hu by done.
      assert (criterion_id c ∈ failure_id <$> failures grade) as Hi
        by (apply Hfids; exists c; tauto). rewrite E in Hi. by apply not_elem_of_nil in Hi.
    - intros Hn. apply (fmap_nil_inv failure_id), elem_of_nil_inv.
      intros id (c & Hc & _ & Hu)%Hfids. apply (Hn c Hc). unfold row.
      by apply unpassed_rows. }
  destruct (accept_verdict _ _).
  - assert (failures grade = []) as Hf by (apply Hnil; intros c Hc; by apply Hv).
    assert (length (ungraded criteria) = 0) as Hu; [|rewrite Hf, Hu in Hsum; simpl in Hsum; lia].
    destruct (ungraded criteria) as [|v vs] eqn:E; [done|].
    assert (v ∈ ungraded criteria) as [Hin Hgr]%ungraded_elem by (rewrite E; left).
    destruct (Hv _ Hin). congruence.
  - destruct Hv as [Hv (c & Hc & Hgr)]. split; [by apply Hnil|].
    destruct c as [v|]; [|done]. intros E.
    assert (v ∈ ungraded criteria) as Hin by by apply ungraded_elem.
    rewrite E in Hin. by apply not_elem_of_nil in Hin.
  - destruct Hv as (c & Hc & Hu). intros E. by apply (proj1 Hnil E c Hc).
Qed.

(** ** Concrete passes *)

Definition tracked (id text : string) : ExecutionCriterion :=
  Tracked {| tracked_id := id; tracked_text := text |}.
Definition answer (id : string) (ok : bool) : CriterionResult := {|
  result_id := id; result_text := "echo"; result_passed := ok; reasoning := "ran";
  result_class := cheap; result_paths := [] |}.
Definition two_criteria : list ExecutionCriterion := [tracked "K-1" "a"; tracked "K-2" "b"].
Definition two_answers : AcceptanceCriteriaOutput :=
  {| criteria_results := [answer "K-2" true; answer "K-1" false]; output_flags := [] |}.

Lemma two_criteria_NoDup : NoDup (criterion_id <$> two_criteria).
Proof. by apply (bool_decide_unpack _). Qed.

Lemma require_permutation_spec_witness :
  ∃ grade, grade_iteration two_criteria two_answers [] = Ok grade
    ∧ require_permutation grade = Ok tt
    ∧ result_id <$> criteria_results two_answers ≡ₚ criterion_id <$> two_criteria.
Proof.
  eexists. split; [reflexivity|]. split; [reflexivity|].
  apply (proj1 (require_permutation_spec two_criteria two_answers [] _ eq_refl
    two_criteria_NoDup)). reflexivity.
Defined.

Lemma grade_verdict_spec_witness :
  ∃ grade, grade_iteration two_criteria two_answers [] = Ok grade
    ∧ verdict grade = rejected ∧ failures grade ≠ [] ∧ passed_count grade = 1.
Proof.
  eexists. split; [reflexivity|]. split; [reflexivity|]. split; [|reflexivity].
  exact (proj2 (proj2 (grade_verdict_spec two_criteria two_answers [] _ eq_refl
    two_criteria_NoDup))).
Defined.

(** ** What a flagged run owes its reader *)

Lemma flagged_items_named criteria flags :
  (∀ v, Validated v ∈ criteria → feasibility_verdict (feasibility v) = unverifiable →
     _blank (feasibility_missing_resource (feasibility v)) = false) →
  ∃ items, flagged_items criteria flags = Ok (items ++ sherlock_items flags)
    ∧ item_criterion <$> items = (λ v, Some (valid_id v)) <$> ungraded criteria.
Proof.
  intros Hnamed. unfold flagged_items.
  destruct (mapM_all_ok (λ v i, item_criterion i = Some (valid_id v))
    (λ c, resource ← named_resource c;
      Ok {| item_criterion := Some (valid_id c);
            summary := valid_text c +:+ " — ungraded: demonstration deferred, "
                       +:+ resource +:+ " absent" |}) (ungraded criteria))
    as (items & -> & Hitems).
  { intros v [Hin Hg]%ungraded_elem. specialize (Hnamed v Hin).
    simpl in Hg. apply negb_false_iff, bool_decide_eq_true in Hg.
    specialize (Hnamed Hg). unfold named_resource.
    destruct (feasibility_missing_resource _) as [r|]; [|done]. simpl in Hnamed.
    rewrite Hnamed. eexists. by split. }
  exists items. split; [done|]. clear -Hitems.
  induction Hitems as [|v i vs its Hvi _ IH]; [done|]. by rewrite !fmap_cons, Hvi, IH.
Qed.

(** The sweep's promise to the gate. Over grounded findings, whatever the sweep
    and the artifact built from it return, the gate can list the run's flagged
    items: every ungraded criterion names the resource that blocks it, in order,
    followed by the evaluator's own concerns. *)
Theorem flagged_items_of_sweep (criteria : list GeneratedCriterion)
    (output : CriteriaValidationOutput) (validation : CriteriaValidation)
    (artifact : CriteriaArtifact) (flags : list SherlockFlag) :
  Forall finding_grounded (findings output) →
  sweep criteria output = Ok validation →
  build_artifact criteria validation = Ok artifact →
  ∃ items,
    flagged_items (Validated <$> artifact_criteria artifact) flags
      = Ok (items ++ sherlock_items flags)
    ∧ item_criterion <$> items
      = (λ v, Some (valid_id v)) <$> ungraded (Validated <$> artifact_criteria artifact).
Proof.
  intros Hval Hsweep Hart. apply flagged_items_named.
  destruct (sweep_returns _ _ _ Hval Hsweep) as (_ & Hblank & _).
  intros v (v' & [= <-] & Hv)%list_elem_of_fmap Hun.
  unfold build_artifact in Hart. cbv zeta in Hart. ok_inv. subst artifact. cbn in Hv.
  apply mapM_ok in Hv0. apply list_elem_of_lookup in Hv as [i Hi].
  destruct (Forall2_lookup_r _ _ _ _ _ Hv0 Hi) as (c & _ & Hc).
  destruct (dict_get _ _) as [f|] eqn:Hf; [|done]. injection Hc as <-. cbn in Hun |- *.
  apply dict_of_get, list_elem_of_fmap in Hf as (f' & [= _ <-] & Hf').
  rewrite Forall_forall in Hblank. by apply (Hblank f).
Qed.

Lemma flagged_items_of_sweep_witness :
  ∃ validation artifact,
    sweep [{| gen_id := "AC-1"; gen_text := "runs on a GPU" |}]
      {| findings := [uneconomic_finding]; contradictions := [] |} = Ok validation
    ∧ build_artifact [{| gen_id := "AC-1"; gen_text := "runs on a GPU" |}] validation
      = Ok artifact
    ∧ is_ok (flagged_items (Validated <$> artifact_criteria artifact) []) = true.
Proof.
  eexists _, _. split; [reflexivity|]. split; [reflexivity|].
  destruct (flagged_items_of_sweep [{| gen_id := "AC-1"; gen_text := "runs on a GPU" |}]
    {| findings := [uneconomic_finding]; contradictions := [] |} _ _ []
    ltac:(repeat constructor; done) eq_refl eq_refl) as (items & -> & _).
  reflexivity.
Defined.
