(* ===== verification/CrossOff.v ===== *)
(** * One cross-off per graded criterion (domain/criterion_cross_off.py).

    What a verdict becomes: the roster's whole reading over a session's rows and
    the gradings that still stand ([iteration_output]), the reasons a pass is no
    reading of the branch ([undemonstrated_reasons], [base_answers],
    [base_reasons]), the cross-offs themselves ([cross_offs_for]), and the refusal
    of a tick its sub-issue no longer answers to ([require_tickable]). *)

From S2P Require Import Prelude PyStr Tracker Errors FireSpec Criteria Lapse Grading.

(** [result.criterion_id in surviving_checks] *)
Definition undemonstrated_reasons (rs : list CriterionResult) (workspace_stood : bool)
    (surviving_checks : gset CriterionId) : pydict CriterionId UndemonstratedReason :=
  if negb workspace_stood then
    dict_of ((λ r, (result_id r, workspace_not_the_graded_sha)) <$> rs)
  else
    dict_of ((λ r, (result_id r, check_survived_mutation))
      <$> filter (λ r, result_id r ∈ surviving_checks) rs).

Definition evaluation_observation (session_id : string) (iteration : Z) : string :=
  "evaluator session " +:+ session_id +:+ ", iteration " +:+ pretty iteration.

Definition CARRIED_REASON : string :=
  "carried: nothing this grading exercised moved since the sha it was "
  +:+ "graded at, so the verdict it reached still stands and was not asked again".
Definition LAPSE_REASON : string :=
  "lapsed: what this grading exercised moved after the sha it was graded "
  +:+ "at, so the verdict it reached is owed again rather than failed".

Definition held_by (standing : list CriterionCrossOff) : pydict CriterionRef CriterionCrossOff :=
  dict_of ((λ c, (criterion c, c)) <$> standing).

(** [answered.setdefault(id, []).append(result)] *)
Definition group_row (answered : pydict CriterionId (list CriterionResult))
    (r : CriterionResult) : pydict CriterionId (list CriterionResult) :=
  dict_set answered (result_id r) (default [] (dict_get answered (result_id r)) ++ [r]).

(** The row a standing grading earns a withheld criterion. *)
Definition standing_row (c : TrackerCriterion) (st : GradedState) (prior : CriterionCrossOff) :
    CriterionResult := {|
  result_id := tracked_id c; result_text := tracked_text c;
  result_passed := bool_decide (st = counted);
  reasoning := if decide (st = counted) then CARRIED_REASON else LAPSE_REASON;
  result_class := rederivation_class prior; result_paths := exercised_paths prior |}.

(** One turn of the loop over the roster. *)
Definition roster_turn (held : pydict CriterionRef CriterionCrossOff)
    (reading : pydict CriterionRef GradedState)
    (s : list CriterionResult * pydict CriterionId (list CriterionResult))
    (c : TrackerCriterion) :
    result exn (list CriterionResult * pydict CriterionId (list CriterionResult)) :=
  let '(rows, answered) := s in
  let id := tracked_id c in
  match dict_get reading id with
  | None => Ok (rows ++ default [] (dict_get answered id), dict_pop answered id)
  | Some st =>
      match dict_get held id with
      | Some prior => Ok (rows ++ [standing_row c st prior], dict_pop answered id)
      | None => Err (KeyError id)
      end
  end.

Definition iteration_output (criteria : list TrackerCriterion)
    (standing : list CriterionCrossOff) (reading : pydict CriterionRef GradedState)
    (graded : AcceptanceCriteriaOutput) : result exn AcceptanceCriteriaOutput :=
  let answered := foldl group_row [] (criteria_results graded) in
  s ← foldM (roster_turn (held_by standing) reading) ([], answered) criteria;
  let rows := s.1 ++ mjoin (dict_values s.2) in
  raise_if (bool_decide (length rows = 0)) (ValidationError "AcceptanceCriteriaOutput")
    (Ok {| criteria_results := rows; output_flags := output_flags graded |}).

Definition LAPSE_POINTER : string := "that grading lapsed".
Definition lapse_observation (observation : string) : string :=
  observation +:+ " — " +:+ LAPSE_POINTER.

Definition declared_class (class : RederivationClass) (paths : list string) :
    RederivationClass * list string :=
  let paths := filter (λ p, str_blank p = false) paths in
  if path_bound class && bool_decide (paths = []) then (cheap, []) else (class, paths).

Definition passed_ids (rs : list CriterionResult) : gset CriterionId :=
  list_to_set (result_id <$> filter (λ r, result_passed r = true) rs).

Record BaseCheckResult := {
  base_criterion : CriterionId; base_command : string; base_satisfied : bool;
}.

(** The loop's state: the last answer to each id, and the ids answered twice. *)
Definition read_base_answer (s : pydict CriterionId bool * gset CriterionId)
    (r : BaseCheckResult) : pydict CriterionId bool * gset CriterionId :=
  (dict_set s.1 (base_criterion r) (base_satisfied r),
   if decide (base_criterion r ∈ dict_keys s.1) then {[ base_criterion r ]} ∪ s.2 else s.2).

Definition base_answers (rs : list BaseCheckResult) : pydict CriterionId bool :=
  let '(answers, answered_twice) := foldl read_base_answer ([], ∅) rs in
  filter (λ kv, kv.1 ∉ answered_twice) answers.

Definition base_reason (at_base : pydict CriterionId bool) (id : CriterionId) :
    option UndemonstratedReason :=
  match dict_get at_base id with
  | Some true => Some satisfied_at_base
  | Some false => None
  | None => Some base_reading_unsettled
  end.

(** [passing] is a [Collection], read in its own order. *)
Definition base_reasons (passing : list CriterionId) (at_base : pydict CriterionId bool) :
    pydict CriterionId UndemonstratedReason :=
  foldl (λ reasons id, match base_reason at_base id with
                       | Some reason => dict_set reasons id reason
                       | None => reasons
                       end) [] passing.

Definition cross_off_state (ok : bool) (reason : option UndemonstratedReason) : CrossOffState :=
  match reason with
  | Some _ => undemonstrated
  | None => if ok then passed else failed
  end.

(** The five facts of one result's cross-off, or the one it keeps. *)
Definition cross_off_of (graded_sha observation : string)
    (reasons : pydict CriterionId UndemonstratedReason)
    (held : pydict CriterionRef CriterionCrossOff) (reading : pydict CriterionRef GradedState)
    (r : CriterionResult) : result exn CriterionCrossOff :=
  let id := result_id r in
  match dict_get reading id with
  | Some st =>
      match dict_get held id with
      | None => Err (KeyError id)
      | Some prior =>
          if decide (st = counted) then Ok prior
          else make_cross_off {|
            criterion := id; state := lapsed;
            evidence := {| graded_sha := Lapse.graded_sha (evidence prior);
                           test := lapse_observation (test (evidence prior)) |};
            rederivation_class := rederivation_class prior;
            exercised_paths := exercised_paths prior;
            undemonstrated_reason := None |}
      end
  | None =>
      let withheld := dict_get reasons id in
      let '(class, paths) := declared_class (result_class r) (result_paths r) in
      make_cross_off {|
        criterion := id; state := cross_off_state (result_passed r) withheld;
        evidence := {| graded_sha := graded_sha; test := observation |};
        rederivation_class := class; exercised_paths := paths;
        undemonstrated_reason := withheld |}
  end.

Definition cross_offs_for (rs : list CriterionResult) (graded_sha observation : string)
    (reasons : pydict CriterionId UndemonstratedReason) (standing : list CriterionCrossOff)
    (reading : pydict CriterionRef GradedState) : result exn (list CriterionCrossOff) :=
  let held := held_by standing in
  raise_if (negb (bool_decide (Forall (λ k, k ∈ dict_keys held) (dict_keys reading))))
    (ValueError "a standing reading names a criterion nothing is standing for")
    (mapM (cross_off_of graded_sha observation reasons held reading) rs).

(** ** The precondition of a tick *)

Definition HELD_CRITERION_STATE : WorkflowStateKind := COMPLETED.
Definition TICKABLE_STATES : gset WorkflowStateKind := {[ UNSTARTED; HELD_CRITERION_STATE ]}.

(** The anchor's sentence, as the two values it renders. *)
Definition tick_anchor (c : TrackerCriterion) : write_anchor :=
  TickAnchor (tracked_id c) (tracked_text c).

Definition tickable (issue : TrackerIssue) (c : TrackerCriterion) : bool :=
  has_label "criterion" issue
  && bool_decide (state_kind issue ∈ TICKABLE_STATES)
  && bool_decide (criterion_field_bodies (body issue) F_CHECK = [tracked_text c])
  && bool_decide (duplicated_row_labels (body issue) = []).

Definition require_tickable (issue : TrackerIssue) (c : TrackerCriterion) : result exn unit :=
  raise_if (negb (tickable issue c)) (StaleWriteError (tracked_id c) (tick_anchor c)) (Ok tt).

(** ** Declared classes *)

Lemma declared_class_spec class paths :
  let '(class', paths') := declared_class class paths in
  (path_bound class' = true → paths' ≠ [])
  ∧ Forall (λ p, str_blank p = false) paths'
  ∧ (class' = class ∨ class' = cheap ∧ Forall (λ p, str_blank p = true) paths).
Proof.
  unfold declared_class. cbv zeta.
  assert (Forall (λ p, str_blank p = false) (filter (λ p, str_blank p = false) paths)) as Hall.
  { apply Forall_forall. by intros p [? _]%list_elem_of_filter. }
  destruct (path_bound class) eqn:Hb, (decide (filter (λ p, str_blank p = false) paths = []))
    as [E|E]; [rewrite (bool_decide_true _ E)|rewrite (bool_decide_false _ E)| |];
    cbn [andb]; split_and!; try done; try (by left); try congruence.
  right. split; [done|]. apply Forall_forall. intros p Hp.
  destruct (str_blank p) eqn:Hbl; [done|].
  assert (p ∈ filter (λ p, str_blank p = false) paths) as Hin by by apply list_elem_of_filter.
  rewrite E in Hin. by apply not_elem_of_nil in Hin.
Qed.

(** ** The reading at the base *)

Lemma base_answers_fold rs (s : pydict CriterionId bool * gset CriterionId) :
  NoDup (dict_keys s.1) →
  let s' := foldl read_base_answer s rs in
  NoDup (dict_keys s'.1)
  ∧ (∀ id, dict_get s'.1 id =
       match last (answers_to base_criterion rs id) with
       | Some r => Some (base_satisfied r)
       | None => dict_get s.1 id
       end)
  ∧ (∀ id, id ∈ s'.2 ↔ id ∈ s.2 ∨
       1 < (if decide (id ∈ dict_keys s.1) then 1 else 0)
           + length (answers_to base_criterion rs id)
       ∧ answers_to base_criterion rs id ≠ []).
Proof.
  revert s; induction rs as [|r rs IH]; intros s Hnd; cbv zeta; cbn [foldl].
  { split_and!; [done..|]. intros id. cbn. tauto. }
  destruct (IH (read_base_answer s r)) as (H1 & H2 & H3).
  { cbn. by apply dict_set_NoDup. }
  split_and!; [done|..]; intros id.
  - rewrite H2. unfold answers_to. rewrite filter_cons. cbn [read_base_answer fst].
    rewrite dict_get_set. destruct (decide (base_criterion r = id)) as [<-|Hne].
    + destruct (filter _ rs) as [|y l]; [done|]. rewrite last_cons_cons.
      destruct (last (y :: l)) eqn:E; [done|by apply last_None in E].
    + done.
  - rewrite H3. clear H1 H2 H3 IH. unfold answers_to. rewrite filter_cons.
    unfold read_base_answer. cbn [fst snd].
    assert (∀ k : list BaseCheckResult, k ≠ [] ↔ 0 < length k) as Hlen
      by (intros [|]; simpl; split; (done || lia)).
    rewrite !Hlen. destruct (decide (base_criterion r = id)) as [<-|Hne].
    + rewrite (decide_True (P := base_criterion r ∈ dict_keys (dict_set _ _ _)))
        by (apply elem_of_dict_set_keys; by left).
      case_decide; simpl; rewrite ?elem_of_union, ?elem_of_singleton.
      * split; [|intros _; left; by left]. intros _. right. lia.
      * split; [intros [?|?]; [by left|right; lia]|intros [?|?]; [by left|right; lia]].
    + assert (∀ X, (id ∈ (if decide (base_criterion r ∈ dict_keys s.1)
          then {[ base_criterion r ]} ∪ X else X : gset CriterionId)) ↔ id ∈ X) as HX
        by (intros X; case_decide; set_solver).
      rewrite HX.
      replace (if decide (id ∈ dict_keys (dict_set s.1 (base_criterion r) (base_satisfied r)))
        then 1 else 0) with (if decide (id ∈ dict_keys s.1) then 1 else 0); [done|].
      pose proof (elem_of_dict_set_keys s.1 (base_criterion r) (base_satisfied r) id) as He.
      repeat case_decide; naive_solver.
Qed.

Lemma dict_get_filter_key {V} (P : string → Prop) `{∀ k, Decision (P k)}
    (d : pydict string V) k :
  dict_get (filter (λ kv, P kv.1) d) k = if decide (P k) then dict_get d k else None.
Proof.
  induction d as [|[i v] d IH]; [by case_decide|]. rewrite filter_cons. cbn [fst].
  destruct (decide (P i)) as [Hi|Hi]; simpl; rewrite IH.
  - destruct (decide (i = k)) as [->|]; [by rewrite decide_True by done|done].
  - destruct (decide (i = k)) as [->|]; [by rewrite !decide_False by done|done].
Qed.

Lemma base_answers_get rs id b :
  dict_get (base_answers rs) id = Some b ↔
  ∃ r, answers_to base_criterion rs id = [r] ∧ base_satisfied r = b.
Proof.
  unfold base_answers. destruct (base_answers_fold rs ([], ∅)) as (_ & Hget & Htwice);
    [constructor|]. destruct (foldl _ _ rs) as [answers twice]. cbn [fst snd] in *.
  assert (dict_get (filter (λ kv, kv.1 ∉ twice) answers) id
    = if decide (id ∉ twice) then dict_get answers id else None) as ->
    by exact (dict_get_filter_key (λ k, k ∉ twice) answers id).
  rewrite Hget. specialize (Htwice id).
  rewrite elem_of_empty in Htwice.
  destruct (decide (id ∈ dict_keys ([] : pydict CriterionId bool))) as [Hn|_];
    [by apply not_elem_of_nil in Hn|].
  destruct (answers_to base_criterion rs id) as [|r [|r' l]] eqn:E; cbn in Htwice.
  - rewrite decide_True by (intros Hi; apply Htwice in Hi; lia || naive_solver).
    split; [done|]. by intros (? & ? & _).
  - rewrite decide_True by (rewrite Htwice; intros [[]|[? _]]; lia). simpl.
    split; [intros [= <-]; by exists r|]. by intros (? & [= <-] & ->).
  - rewrite decide_False by (intros Hn; apply Hn, Htwice; right; split; [lia|done]).
    split; [done|]. by intros (? & ? & _).
Qed.

Lemma base_reasons_get passing at_base id :
  dict_get (base_reasons passing at_base) id
  = if decide (id ∈ passing) then base_reason at_base id else None.
Proof.
  unfold base_reasons.
  enough (∀ d, dict_get (foldl (λ reasons id, match base_reason at_base id with
      | Some reason => dict_set reasons id reason | None => reasons end) d passing) id
    = match (if decide (id ∈ passing) then base_reason at_base id else None) with
      | Some reason => Some reason | None => dict_get d id end) as H.
  { rewrite (H []). simpl. by destruct (if decide _ then _ else _). }
  induction passing as [|i passing IH]; intros d; [done|]. cbn [foldl]. rewrite IH. clear IH.
  destruct (decide (id = i)) as [->|Hne].
  - rewrite (decide_True (P := i ∈ i :: passing)) by (by left).
    destruct (base_reason at_base i) as [r|] eqn:E; [|by case_decide].
    rewrite dict_get_set_eq. by case_decide.
  - assert (dict_get (match base_reason at_base i with
      | Some reason => dict_set d i reason | None => d end) id = dict_get d id) as ->
      by (destruct (base_reason at_base i); [by apply dict_get_set_ne|done]).
    destruct (decide (id ∈ passing)) as [Hin|Hn];
      [rewrite decide_True by (by right)|rewrite decide_False by set_solver]; done.
Qed.

(** The reading at the base fails closed. Of the passes sent to the base, one
    stands exactly when the base reading answered that id once and the check failed
    there; a check that already passed there is [satisfied_at_base]; an id answered
    never, or more than once, is [base_reading_unsettled]; and no id outside the
    passes gets a reason. *)
Theorem base_reasons_spec (passing : list CriterionId) (rs : list BaseCheckResult)
    (id : CriterionId) :
  let reason := dict_get (base_reasons passing (base_answers rs)) id in
  let answers := answers_to base_criterion rs id in
  (reason = None ↔ id ∉ passing ∨ ∃ r, answers = [r] ∧ base_satisfied r = false)
  ∧ (reason = Some satisfied_at_base ↔
       id ∈ passing ∧ ∃ r, answers = [r] ∧ base_satisfied r = true)
  ∧ (reason = Some base_reading_unsettled ↔ id ∈ passing ∧ length answers ≠ 1).
Proof.
  cbv zeta. rewrite base_reasons_get. unfold base_reason.
  pose proof (base_answers_get rs id) as Hget.
  destruct (decide (id ∈ passing)) as [Hin|Hn].
  2:{ split_and!; split; try done; tauto. }
  destruct (dict_get (base_answers rs) id) as [b|].
  - destruct (proj1 (Hget b) eq_refl) as (r & Hr & <-). rewrite Hr.
    destruct (base_satisfied r) eqn:Hb; split_and!; split; try done; try (by eauto).
    + intros [?|(r' & [= <-] & ?)]; congruence.
    + by intros [_ ?].
    + intros (_ & r' & [= <-] & ?). congruence.
    + by intros [_ ?].
  - assert (∀ r, answers_to base_criterion rs id ≠ [r]) as Hno.
    { intros r Hr. pose proof (proj2 (Hget (base_satisfied r)) (ex_intro _ r (conj Hr eq_refl))).
      done. }
    assert (length (answers_to base_criterion rs id) ≠ 1) as Hlen
      by (destruct (answers_to _ _ _) as [|r [|]]; [done|by destruct (Hno r)|done]).
    split_and!; split; try done; try tauto.
    + intros [?|(r' & Hr & _)]; [done|by destruct (Hno r')].
    + intros (_ & r' & Hr & _). by destruct (Hno r').
Qed.

(** ** Cross-offs, verified *)

Definition cross_off_valid (c : CriterionCrossOff) : Prop := make_cross_off c = Ok c.

Lemma cross_off_valid_iff c :
  cross_off_valid c ↔
  (undemonstrated_reason c ≠ None ↔ state c = undemonstrated)
  ∧ (path_bound (rederivation_class c) = true → exercised_paths c ≠ []).
Proof.
  unfold cross_off_valid, make_cross_off, _the_reason_is_the_undemonstrated_state,
    _path_bound_classes_name_their_paths.
  rewrite !raise_if_ok, !negb_involutive, andb_false_iff, bool_decide_eq_false, eqb_false_iff.
  destruct (path_bound (rederivation_class c)); repeat case_bool_decide; naive_solver.
Qed.

Lemma make_cross_off_valid c : cross_off_valid c → make_cross_off c = Ok c.
Proof. done. Qed.

(** The cross-off a fresh verdict makes. *)
Lemma fresh_valid id ok reason ev class paths :
  (path_bound class = true → paths ≠ []) →
  cross_off_valid {| criterion := id; state := cross_off_state ok reason; evidence := ev;
    rederivation_class := class; exercised_paths := paths; undemonstrated_reason := reason |}.
Proof.
  intros Hp. apply cross_off_valid_iff. cbn. split; [|done].
  destruct reason, ok; cbn; split; congruence.
Qed.

(** What one result's cross-off says, given what is still standing. *)
Definition crosses_off (graded_sha observation : string)
    (reasons : pydict CriterionId UndemonstratedReason) (standing : list CriterionCrossOff)
    (reading : pydict CriterionRef GradedState) (r : CriterionResult) (c : CriterionCrossOff) :
    Prop :=
  criterion c = result_id r ∧ cross_off_valid c ∧
  match dict_get reading (result_id r) with
  | Some counted => c ∈ standing
  | Some grading_lapsed => state c = lapsed ∧ ∃ prior, prior ∈ standing
      ∧ criterion prior = criterion c
      ∧ Lapse.graded_sha (evidence c) = Lapse.graded_sha (evidence prior)
      ∧ rederivation_class c = rederivation_class prior
      ∧ exercised_paths c = exercised_paths prior
  | None =>
      evidence c = {| Lapse.graded_sha := graded_sha; test := observation |}
      ∧ undemonstrated_reason c = dict_get reasons (result_id r)
      ∧ (state c = passed ↔
           result_passed r = true ∧ dict_get reasons (result_id r) = None)
      ∧ state c ≠ lapsed
  end.

Lemma held_by_get standing id c :
  dict_get (held_by standing) id = Some c → c ∈ standing ∧ criterion c = id.
Proof.
  unfold held_by. intros (c' & [= -> ->] & Hc)%dict_of_get%list_elem_of_fmap. done.
Qed.

(** What [cross_offs_for] answers, for every component that reads cross-offs. *)
Lemma cross_offs_for_cases (rs : list CriterionResult) (graded_sha observation : string)
    (reasons : pydict CriterionId UndemonstratedReason) (standing : list CriterionCrossOff)
    (reading : pydict CriterionRef GradedState) :
  Forall cross_off_valid standing →
  match cross_offs_for rs graded_sha observation reasons standing reading with
  | Ok cs => Forall2 (crosses_off graded_sha observation reasons standing reading) rs cs
      ∧ ∀ id, id ∈ dict_keys reading → id ∈ criterion <$> standing
  | Err e => (∃ message, e = ValueError message)
      ∧ ∃ id, id ∈ dict_keys reading ∧ id ∉ criterion <$> standing
  end.
Proof.
  intros Hvalid. unfold cross_offs_for. cbv zeta. rewrite Forall_forall in Hvalid.
  assert (∀ id, id ∈ dict_keys (held_by standing) ↔ id ∈ criterion <$> standing) as Hkeys.
  { intros id. unfold held_by. rewrite dict_of_keys, <-list_fmap_compose. done. }
  destruct (decide (Forall (λ k, k ∈ dict_keys (held_by standing)) (dict_keys reading)))
    as [Hsub|Hsub].
  2:{ rewrite bool_decide_false by done. simpl. split; [by eexists|].
      apply not_Forall_Exists in Hsub; [|apply _].
      apply Exists_exists in Hsub as (id & Hid & Hn). exists id. by rewrite <-Hkeys. }
  rewrite bool_decide_true by done. cbn [negb raise_if].
  rewrite Forall_forall in Hsub.
  destruct (mapM_all_ok (crosses_off graded_sha observation reasons standing reading)
    (cross_off_of graded_sha observation reasons (held_by standing) reading) rs)
    as (cs & -> & Hcs).
  2:{ split; [done|]. intros id Hid. by apply Hkeys, Hsub. }
  intros r _. unfold cross_off_of, crosses_off. cbv zeta.
  destruct (dict_get reading (result_id r)) as [st|] eqn:Hread.
  - assert (is_Some (dict_get (held_by standing) (result_id r))) as [prior Hp].
    { apply dict_get_is_Some, Hsub, dict_get_is_Some. by eexists. }
    rewrite Hp. apply held_by_get in Hp as [Hin Hid].
    pose proof (Hvalid _ Hin) as Hpv. destruct st; cbn [decide].
    + exists prior. split; [done|]. by split_and!.
    + eexists. rewrite make_cross_off_valid; [split; [reflexivity|]|].
      2:{ apply cross_off_valid_iff in Hpv as [_ ?]. apply cross_off_valid_iff. cbn.
          split; [|done]. split; [by intros []|done]. }
      cbn. split_and!; [done| |done|by exists prior].
      apply cross_off_valid_iff in Hpv as [_ ?]. apply cross_off_valid_iff. cbn.
      split; [|done]. split; [by intros []|done].
  - pose proof (declared_class_spec (result_class r) (result_paths r)) as Hdecl.
    destruct (declared_class _ _) as [class paths]. destruct Hdecl as (Hpaths & _ & _).
    eexists. rewrite make_cross_off_valid; [split; [reflexivity|]|]; cbn.
    + split_and!; [done| |done|done|..].
      * by apply fresh_valid.
      * unfold cross_off_state. destruct (dict_get reasons _), (result_passed r); naive_solver.
      * unfold cross_off_state. by destruct (dict_get reasons _), (result_passed r).
    + by apply fresh_valid.
Qed.

(** The cross-offs of one attempt. Over valid standing gradings, building them
    refuses only a reading that names a criterion nothing is standing for; no
    validator of a cross-off ever fails. There is one cross-off per result, in
    order: a counted criterion keeps a standing cross-off unchanged, a lapsed one
    is lapsed at the sha it was graded at, and any other is stamped with this
    attempt's sha and passes exactly when its result does and nothing was
    withheld. *)
Theorem cross_offs_for_spec (rs : list CriterionResult) (graded_sha observation : string)
    (reasons : pydict CriterionId UndemonstratedReason) (standing : list CriterionCrossOff)
    (reading : pydict CriterionRef GradedState) :
  Forall cross_off_valid standing →
  match cross_offs_for rs graded_sha observation reasons standing reading with
  | Ok cs => Forall2 (crosses_off graded_sha observation reasons standing reading) rs cs
      ∧ ∀ id, id ∈ dict_keys reading → id ∈ criterion <$> standing
  | Err e => (∃ message, e = ValueError message)
      ∧ ∃ id, id ∈ dict_keys reading ∧ id ∉ criterion <$> standing
  end.
Proof. apply cross_offs_for_cases. Qed.

Definition observed_pass : CriterionCrossOff := {|
  criterion := "K-1"; state := passed;
  evidence := {| Lapse.graded_sha := "a1"; test := "evaluator session s, iteration 1" |};
  rederivation_class := observed; exercised_paths := ["src/api"];
  undemonstrated_reason := None |}.

Lemma cross_offs_for_spec_witness :
  Forall cross_off_valid [observed_pass]
  ∧ ∃ cs, cross_offs_for [answer "K-1" false; answer "K-2" true] "b2" "obs" []
            [observed_pass] [("K-1", grading_lapsed)] = Ok cs
    ∧ state <$> cs = [lapsed; passed]
    ∧ Forall2 (crosses_off "b2" "obs" [] [observed_pass] [("K-1", grading_lapsed)])
        [answer "K-1" false; answer "K-2" true] cs.
Proof.
  assert (Forall cross_off_valid [observed_pass]) as Hv by (repeat constructor).
  split; [exact Hv|]. eexists. split; [reflexivity|]. split; [reflexivity|].
  exact (proj1 (cross_offs_for_spec [answer "K-1" false; answer "K-2" true] "b2" "obs" []
    [observed_pass] [("K-1", grading_lapsed)] Hv)).
Defined.

(** ** The roster's whole reading, verified *)

Definition grouped (d : pydict CriterionId (list CriterionResult)) : Prop :=
  NoDup (dict_keys d) ∧ Forall (λ kv, Forall (λ r, result_id r = kv.1) kv.2) d.

Lemma answers_to_app {T} (key : T → string) l k id :
  answers_to key (l ++ k) id = answers_to key l id ++ answers_to key k id.
Proof. unfold answers_to. apply filter_app. Qed.

Lemma answers_to_all {T} (key : T → string) l id :
  Forall (λ x, key x = id) l → answers_to key l id = l.
Proof.
  unfold answers_to. induction 1 as [|x l Hx _ IH]; [done|].
  by rewrite filter_cons, decide_True, IH.
Qed.

Lemma answers_to_none {T} (key : T → string) l id :
  Forall (λ x, key x ≠ id) l → answers_to key l id = [].
Proof.
  unfold answers_to. induction 1 as [|x l Hx _ IH]; [done|].
  by rewrite filter_cons, decide_False.
Qed.

Lemma answers_to_own {T} (key : T → string) l id :
  Forall (λ x, key x = id) (answers_to key l id).
Proof. apply Forall_forall. by intros x [? _]%list_elem_of_filter. Qed.

Lemma grouped_values d id :
  grouped d → answers_to result_id (mjoin (dict_values d)) id = default [] (dict_get d id).
Proof.
  intros [Hnd Hall]. induction d as [|[k rows] d IH]; [done|].
  cbn in Hnd. rewrite NoDup_cons in Hnd. destruct Hnd as [Hk Hnd].
  apply Forall_cons in Hall as [Hrows Hall]. cbn in Hrows.
  change (mjoin (dict_values ((k, rows) :: d))) with (rows ++ mjoin (dict_values d)).
  rewrite answers_to_app, IH by done. cbn [dict_get].
  case_decide as Hki.
  - subst k. rewrite answers_to_all by done.
    apply dict_get_None in Hk. unfold dict_keys in Hk. by rewrite Hk, app_nil_r.
  - rewrite answers_to_none; [done|]. eapply Forall_impl; [exact Hrows|]. cbn. congruence.
Qed.

Lemma group_row_grouped d r : grouped d → grouped (group_row d r).
Proof.
  intros [Hnd Hall]. split; [by apply dict_set_NoDup|].
  unfold group_row. apply Forall_forall. intros [k rows] Hin.
  apply dict_get_NoDup in Hin; [|by apply dict_set_NoDup]. cbn.
  rewrite Forall_forall in Hall. rewrite dict_get_set in Hin. case_decide as Hk.
  - injection Hin as <-. subst. apply Forall_app. split; [|by repeat constructor].
    destruct (dict_get d (result_id r)) as [rows|] eqn:E; [|constructor].
    by apply dict_get_elem in E as E%Hall.
  - by apply dict_get_elem in Hin as Hin%Hall.
Qed.

Lemma group_rows_get rs d id :
  default [] (dict_get (foldl group_row d rs) id)
  = default [] (dict_get d id) ++ answers_to result_id rs id.
Proof.
  revert d; induction rs as [|r rs IH]; intros d; cbn [foldl]; [by rewrite app_nil_r|].
  rewrite IH. unfold group_row, answers_to. rewrite dict_get_set, filter_cons.
  destruct (decide (result_id r = id)) as [<-|Hne]; [simpl; by rewrite <-app_assoc|done].
Qed.

Lemma group_rows_grouped rs d : grouped d → grouped (foldl group_row d rs).
Proof. revert d; induction rs; intros d Hd; [done|]. apply IHrs. by apply group_row_grouped. Qed.

Lemma grouped_pop d k : grouped d → grouped (dict_pop d k).
Proof.
  intros [Hnd Hall]. split; [by apply dict_pop_NoDup|].
  apply Forall_forall. intros kv [_ Hin]%list_elem_of_filter.
  rewrite Forall_forall in Hall. by apply Hall.
Qed.

Section roster.
Context (standing : list CriterionCrossOff) (reading : pydict CriterionRef GradedState)
  (graded : AcceptanceCriteriaOutput).
Let held := held_by standing.
Implicit Types c : TrackerCriterion.

(** The rows one criterion of the roster gets. *)
Definition roster_rows (c : TrackerCriterion) : list CriterionResult :=
  match dict_get reading (tracked_id c), dict_get (held_by standing) (tracked_id c) with
  | None, _ => answers_to result_id (criteria_results graded) (tracked_id c)
  | Some st, Some prior => [standing_row c st prior]
  | Some _, None => []
  end.

Lemma roster_rows_own c : Forall (λ r, result_id r = tracked_id c) (roster_rows c).
Proof.
  unfold roster_rows. repeat case_match; repeat constructor. apply answers_to_own.
Qed.

Lemma roster_loop criteria rows answered :
  NoDup (tracked_id <$> criteria) → grouped answered →
  (∀ c, c ∈ criteria → is_Some (dict_get reading (tracked_id c)) →
     is_Some (dict_get held (tracked_id c))) →
  (∀ c, c ∈ criteria → default [] (dict_get answered (tracked_id c))
     = answers_to result_id (criteria_results graded) (tracked_id c)) →
  ∃ answered', foldM (roster_turn held reading) (rows, answered) criteria
      = Ok (rows ++ mjoin (roster_rows <$> criteria), answered')
    ∧ grouped answered'
    ∧ ∀ id, dict_get answered' id
        = if decide (id ∈ tracked_id <$> criteria) then None else dict_get answered id.
Proof.
  revert rows answered. induction criteria as [|c criteria IH]; intros rows answered.
  { intros _ Hgr _ _. exists answered. cbn. rewrite app_nil_r. by split_and!. }
  rewrite fmap_cons, NoDup_cons. intros [Hc Hnd] Hgr Hheld Hans.
  assert (roster_turn held reading (rows, answered) c
      = Ok (rows ++ roster_rows c, dict_pop answered (tracked_id c))) as Hturn.
  { unfold roster_turn, roster_rows. fold held.
    pose proof (Hheld c (list_elem_of_here _ _)) as Hh.
    destruct (dict_get reading (tracked_id c)) as [st|].
    - destruct Hh as [prior ->]; [by eexists|done].
    - rewrite Hans by left. done. }
  cbn [foldM]. rewrite Hturn.
  destruct (IH (rows ++ roster_rows c) (dict_pop answered (tracked_id c)))
    as (answered' & Hloop & Hgr' & Hget).
  - done.
  - by apply grouped_pop.
  - intros c' Hc'. apply Hheld. by right.
  - intros c' Hc'. rewrite dict_get_pop_ne; [apply Hans; by right|].
    intros Heq. apply Hc. rewrite <-Heq. by apply list_elem_of_fmap_2.
  - exists answered'. rewrite Hloop. cbn. rewrite <-app_assoc. split_and!; [done..|].
    intros id. rewrite Hget. destruct (decide (id = tracked_id c)) as [->|Hne].
    + rewrite dict_get_pop_eq. rewrite (decide_True (P := _ ∈ _ :: _)) by left.
      by case_decide.
    + rewrite dict_get_pop_ne by done.
      destruct (decide (id ∈ tracked_id <$> criteria)) as [Hi|Hi];
        [rewrite decide_True by (by right)|rewrite decide_False by set_solver]; done.
Qed.

Lemma answers_to_roster criteria id :
  NoDup (tracked_id <$> criteria) →
  answers_to result_id (mjoin (roster_rows <$> criteria)) id
  = match first_such (λ c, bool_decide (tracked_id c = id)) criteria with
    | Some c => roster_rows c
    | None => []
    end.
Proof.
  induction criteria as [|c criteria IH]; [done|].
  rewrite fmap_cons, NoDup_cons. intros [Hc Hnd].
  change (mjoin (roster_rows <$> c :: criteria))
    with (roster_rows c ++ mjoin (roster_rows <$> criteria)).
  rewrite answers_to_app, IH by done. cbn [first_such].
  case_bool_decide as Hid.
  - rewrite answers_to_all by (subst; apply roster_rows_own).
    destruct (first_such _ criteria) as [c'|] eqn:E; [|by rewrite app_nil_r].
    apply first_such_Some in E as (l1 & l2 & -> & Hc'%bool_decide_eq_true & _).
    destruct Hc. rewrite Hid, <-Hc'. apply list_elem_of_fmap_2, elem_of_app. right. by left.
  - rewrite answers_to_none; [done|]. eapply Forall_impl; [apply roster_rows_own|].
    cbn. congruence.
Qed.
End roster.

(** The rows [iteration_output] puts together: what it answers unless there is none. *)
Lemma iteration_output_reads (criteria : list TrackerCriterion)
    (standing : list CriterionCrossOff) (reading : pydict CriterionRef GradedState)
    (graded : AcceptanceCriteriaOutput) :
  NoDup (tracked_id <$> criteria) →
  (∀ id, id ∈ dict_keys reading → id ∈ criterion <$> standing) →
  ∃ rows, iteration_output criteria standing reading graded
      = raise_if (bool_decide (length rows = 0)) (ValidationError "AcceptanceCriteriaOutput")
          (Ok {| criteria_results := rows; output_flags := output_flags graded |})
    ∧ (∀ c st, c ∈ criteria → dict_get reading (tracked_id c) = Some st →
         ∃ prior row, prior ∈ standing ∧ criterion prior = tracked_id c
           ∧ answers_to result_id rows (tracked_id c) = [row]
           ∧ (result_passed row = true ↔ st = counted)
           ∧ result_class row = rederivation_class prior
           ∧ result_paths row = exercised_paths prior)
    ∧ ∀ id, (∀ c, c ∈ criteria → tracked_id c = id → dict_get reading id = None) →
         answers_to result_id rows id = answers_to result_id (criteria_results graded) id.
Proof.
  intros Hnd Hsub. unfold iteration_output. cbv zeta.
  set (answered := foldl group_row [] (criteria_results graded)).
  assert (∀ id, default [] (dict_get answered id)
    = answers_to result_id (criteria_results graded) id) as Hans
    by (intros id; unfold answered; by rewrite group_rows_get).
  assert (grouped answered) as Hgr by (apply group_rows_grouped; split; constructor).
  assert (∀ id, is_Some (dict_get reading id) → is_Some (dict_get (held_by standing) id))
    as Hheld.
  { intros id Hid%dict_get_is_Some%Hsub. apply dict_get_is_Some. unfold held_by.
    by rewrite dict_of_keys, <-list_fmap_compose. }
  destruct (roster_loop standing reading graded criteria [] answered Hnd Hgr
    (λ c _, Hheld (tracked_id c)) (λ c _, Hans (tracked_id c)))
    as (answered' & Hloop & Hgr' & Hget).
  rewrite Hloop. cbn [mbind result_bind fst snd app].
  set (rows := mjoin (roster_rows standing reading graded <$> criteria) ++ _).
  assert (∀ id, answers_to result_id rows id =
    match first_such (λ c, bool_decide (tracked_id c = id)) criteria with
    | Some c => roster_rows standing reading graded c
    | None => answers_to result_id (criteria_results graded) id
    end) as Hrows.
  { intros id. unfold rows. rewrite answers_to_app, answers_to_roster, grouped_values by done.
    rewrite Hget. destruct (first_such _ criteria) as [c|] eqn:E.
    - apply first_such_Some in E as (l1 & l2 & -> & Hc%bool_decide_eq_true & _).
      rewrite decide_True; [by rewrite app_nil_r|]. rewrite <-Hc.
      apply list_elem_of_fmap_2, elem_of_app. right. by left.
    - apply first_such_None in E. rewrite Forall_forall in E.
      rewrite decide_False; [apply Hans|]. intros (c & -> & Hc)%list_elem_of_fmap.
      pose proof (E c Hc) as Hn%bool_decide_eq_false. done. }
  assert (∀ id, (∀ c, c ∈ criteria → tracked_id c = id → dict_get reading id = None) →
    answers_to result_id rows id = answers_to result_id (criteria_results graded) id) as Hkeep.
  { intros id Hno. rewrite Hrows. destruct (first_such _ criteria) as [c|] eqn:E; [|done].
    apply first_such_Some in E as (l1 & l2 & Heq & Hc%bool_decide_eq_true & _).
    unfold roster_rows. rewrite Hc, (Hno c); [done| |done].
    rewrite Heq. apply elem_of_app. right. by left. }
  assert (∀ c st, c ∈ criteria → dict_get reading (tracked_id c) = Some st →
    ∃ prior row, prior ∈ standing ∧ criterion prior = tracked_id c
      ∧ answers_to result_id rows (tracked_id c) = [row]
      ∧ (result_passed row = true ↔ st = counted)
      ∧ result_class row = rederivation_class prior
      ∧ result_paths row = exercised_paths prior) as Hwith.
  { intros c st Hc Hst. destruct (Hheld (tracked_id c)) as [prior Hp]; [by eexists|].
    pose proof (held_by_get _ _ _ Hp) as [Hin Hid]. exists prior, (standing_row c st prior).
    split_and!; [done|done| |by apply bool_decide_eq_true|done|done].
    rewrite Hrows. destruct (first_such _ criteria) as [c'|] eqn:E.
    - apply first_such_Some in E as (l1 & l2 & Heq & Hc'%bool_decide_eq_true & _).
      assert (c' = c) as ->; [|unfold roster_rows; by rewrite Hst, Hp].
      assert (c' ∈ criteria) as Hin' by (rewrite Heq; apply elem_of_app; right; by left).
      by eapply (NoDup_fmap_elem tracked_id).
    - apply first_such_None in E. rewrite Forall_forall in E.
      pose proof (E c Hc) as Hn%bool_decide_eq_false. done. }
  exists rows. by split_and!.
Qed.

(** The roster's whole reading. Over distinct criteria, a nonempty session
    output and a reading every key of which something is standing for, the
    iteration output always exists; a criterion the reading withholds gets exactly
    one row, of its standing grading's class and paths, passing exactly when that
    grading counts; every other
    id, dispatched or not, keeps exactly the session's rows for it. *)
Theorem iteration_output_spec (criteria : list TrackerCriterion)
    (standing : list CriterionCrossOff) (reading : pydict CriterionRef GradedState)
    (graded : AcceptanceCriteriaOutput) :
  NoDup (tracked_id <$> criteria) →
  criteria_results graded ≠ [] →
  (∀ id, id ∈ dict_keys reading → id ∈ criterion <$> standing) →
  ∃ out, iteration_output criteria standing reading graded = Ok out
    ∧ output_flags out = output_flags graded
    ∧ (∀ c st, c ∈ criteria → dict_get reading (tracked_id c) = Some st →
         ∃ prior row, prior ∈ standing ∧ criterion prior = tracked_id c
           ∧ answers_to result_id (criteria_results out) (tracked_id c) = [row]
           ∧ (result_passed row = true ↔ st = counted)
           ∧ result_class row = rederivation_class prior
           ∧ result_paths row = exercised_paths prior)
    ∧ ∀ id, (∀ c, c ∈ criteria → tracked_id c = id → dict_get reading id = None) →
         answers_to result_id (criteria_results out) id
         = answers_to result_id (criteria_results graded) id.
Proof.
  intros Hnd Hne Hsub.
  destruct (iteration_output_reads criteria standing reading graded Hnd Hsub)
    as (rows & -> & Hwith & Hkeep).
  rewrite (bool_decide_false (length rows = 0)).
  { eexists. split; [reflexivity|]. by split_and!. }
  intros Hlen%nil_length_inv. destruct (criteria_results graded) as [|r rs] eqn:Hrs; [done|].
  assert (∀ c, c ∈ criteria → tracked_id c = result_id r → dict_get reading (result_id r) = None)
    as Hno.
  { intros c Hc Hid. destruct (dict_get reading (result_id r)) as [st|] eqn:Hst; [|done].
    rewrite <-Hid in Hst. destruct (Hwith c st Hc Hst) as (prior & row & _ & _ & Hone & _).
    rewrite Hlen in Hone. done. }
  specialize (Hkeep _ Hno). rewrite Hlen in Hkeep. unfold answers_to in Hkeep.
  rewrite filter_cons, decide_True in Hkeep by done. done.
Qed.

Lemma iteration_output_spec_witness :
  ∃ out, iteration_output [{| tracked_id := "K-1"; tracked_text := "a" |};
                           {| tracked_id := "K-2"; tracked_text := "b" |}]
           [observed_pass] [("K-1", counted)]
           {| criteria_results := [answer "K-2" false]; output_flags := [] |} = Ok out
    ∧ answers_to result_id (criteria_results out) "K-2" = [answer "K-2" false].
Proof.
  destruct (iteration_output_spec
    [{| tracked_id := "K-1"; tracked_text := "a" |}; {| tracked_id := "K-2"; tracked_text := "b" |}]
    [observed_pass] [("K-1", counted)]
    {| criteria_results := [answer "K-2" false]; output_flags := [] |})
    as (out & Hout & _ & _ & Hkeep).
  - by apply (bool_decide_unpack _).
  - done.
  - intros id Hid. exact Hid.
  - exists out. split; [exact Hout|]. apply Hkeep. intros c Hc _.
    reflexivity.
Defined.
