(* ===== verification/Trajectory.v ===== *)
(** * The loop's progress memory and its plateaus.

    The fold over a loop's iteration records and the commit it may land
    (domain/trajectory.py), and the plateau over a fire's subtree of criterion
    identities (domain/fire_plateau.py). The window is a Python int: the slices
    [records[:-w]] and [records[-w:]] are written out for every sign of [w]. *)

From S2P Require Import Prelude PyStr Tracker Errors Criteria.

(** ** The fold (types/domain/trajectory.py, domain/trajectory.py) *)

Record IterationRecord := {
  iteration : nat;
  record_passed : nat;
  failing_criterion_ids : list CriterionId;
  commit_sha : option string;
}.
#[export] Instance IterationRecord_eq_dec : EqDecision IterationRecord.
Proof. solve_decision. Defined.

Record LoopTrajectory := {
  records : list IterationRecord;
  never_passed_ids : list CriterionId;
  best_passed_count : nat;
  best_iteration : nat;
  best_commit_sha : option string;
  plateaued : bool;
}.
#[export] Instance LoopTrajectory_eq_dec : EqDecision LoopTrajectory.
Proof. solve_decision. Defined.

(** Where [l[:-w]] ends and [l[-w:]] starts. *)
Definition slice_at {A} (w : Z) (l : list A) : nat :=
  if (w <=? 0)%Z then Z.to_nat (- w) else length l - Z.to_nat w.
Definition before_last {A} (w : Z) (l : list A) : list A := take (slice_at w l) l.
Definition last_of {A} (w : Z) (l : list A) : list A := drop (slice_at w l) l.

(** [max(r.passed_count for r in l)]; an empty sequence raises. *)
Definition max_passed (l : list IterationRecord) : result exn nat :=
  match l with
  | [] => Err (ValueError "max() arg is an empty sequence")
  | r :: l => Ok (foldl (λ m r, m `max` record_passed r) (record_passed r) l)
  end.

Definition empty_trajectory : LoopTrajectory := {|
  records := []; never_passed_ids := []; best_passed_count := 0; best_iteration := 0;
  best_commit_sha := None; plateaued := false |}.

(** [max(records, key=passed_count)], and the first record with that count. *)
Definition best_of (first : IterationRecord) (rest : list IterationRecord) : IterationRecord :=
  let best := foldl (λ b r, if (record_passed b <? record_passed r)%nat then r else b)
                first rest in
  default best (first_such (λ r, bool_decide (record_passed r = record_passed best))
                  (first :: rest)).

Definition fold_trajectory (records : list IterationRecord) (plateau_window : Z) :
    result exn LoopTrajectory :=
  match records with
  | [] => Ok empty_trajectory
  | first :: rest =>
      let always_failing :=
        foldl (λ s r, s ∩ list_to_set (failing_criterion_ids r))
          (list_to_set (failing_criterion_ids first) : gset CriterionId) rest in
      let best_record := best_of first rest in
      plateau ←
        (if (plateau_window <? Z.of_nat (length records))%Z then
           best_before ← max_passed (before_last plateau_window records);
           Ok (forallb (λ r, record_passed r <=? best_before)%nat
                 (last_of plateau_window records))
         else Ok false);
      Ok {|
        records := records;
        never_passed_ids := filter (λ id, id ∈ always_failing) (failing_criterion_ids first);
        best_passed_count := record_passed best_record;
        best_iteration := iteration best_record;
        best_commit_sha := commit_sha best_record;
        plateaued := plateau |}
  end.

(** The loop of [landable_commit]: the best sha, its count, the commit carried. *)
Record landing := { best_sha : option string; best_count : Z; carried_sha : option string }.

Definition land_record (s : landing) (r : IterationRecord) : landing :=
  let carried := match commit_sha r with Some c => Some c | None => carried_sha s end in
  match carried with
  | Some _ =>
      if (best_count s <? Z.of_nat (record_passed r))%Z
      then {| best_sha := carried; best_count := Z.of_nat (record_passed r);
              carried_sha := carried |}
      else {| best_sha := best_sha s; best_count := best_count s; carried_sha := carried |}
  | None => {| best_sha := best_sha s; best_count := best_count s; carried_sha := carried |}
  end.

Definition landable_commit (trajectory : LoopTrajectory) : option string :=
  best_sha (foldl land_record {| best_sha := None; best_count := -1; carried_sha := None |}
              (records trajectory)).

(** ** The fire's plateau (domain/fire_plateau.py) *)

Record SubtreeTick := { previously_open : gset string; currently_closed : gset string }.

Definition _criterion_keys (criteria : list TrackerIssue) (reading : string) :
    result exn (gset string) :=
  raise_if (existsb (λ c, negb (has_label "criterion" c)) criteria)
    (ValueError ("the " +:+ reading +:+ " reading holds a non-criterion sub-issue"))
  (let keys := issue_key <$> criteria in
   raise_if (negb (bool_decide (size (list_to_set keys : gset string) = length keys)))
    (ValueError ("a criterion identity repeats in the " +:+ reading +:+ " reading"))
   (Ok (list_to_set keys))).

Definition observe_tick (previously_open : list string)
    (subtree_criteria open_criteria : list TrackerIssue) : result exn SubtreeTick :=
  present ← _criterion_keys subtree_criteria "subtree";
  still_open ← _criterion_keys open_criteria "open";
  raise_if (negb (bool_decide (still_open ∖ present = ∅)))
    (ValueError "an open criterion is absent from the subtree reading")
  (raise_if (negb (bool_decide
      (size (list_to_set previously_open : gset string) = length previously_open)))
    (ValueError "a criterion identity repeats in the previous reading")
  (raise_if (existsb str_blank previously_open)
    (ValueError "a criterion identity must be nonempty")
  (Ok {| previously_open := list_to_set previously_open;
         currently_closed := present ∖ still_open |}))).

Definition closed_previous_work (tick : SubtreeTick) : gset string :=
  previously_open tick ∩ currently_closed tick.

Definition fire_plateaued (ticks : list SubtreeTick) (plateau_bound : Z) : result exn bool :=
  raise_if (plateau_bound <? 1)%Z (ValueError "a plateau bound counts at least one tick")
  (Ok (if (Z.of_nat (length ticks) <? plateau_bound)%Z then false
       else negb (existsb (λ t, negb (bool_decide (closed_previous_work t = ∅)))
                    (last_of plateau_bound ticks)))).

(** ** The commit a run may land, verified *)

(** The commit an iteration's state is held in: its own, or the last before it. *)
Definition carried_at (l : list IterationRecord) (i : nat) : option string :=
  last (omap commit_sha (take (S i) l)).

Lemma carried_at_app l r :
  carried_at (l ++ [r]) (length l)
  = match commit_sha r with Some c => Some c | None => last (omap commit_sha l) end.
Proof.
  unfold carried_at. rewrite take_ge by (rewrite length_app; simpl; lia).
  rewrite omap_app. simpl. destruct (commit_sha r); simpl; [by rewrite last_snoc|].
  by rewrite app_nil_r.
Qed.

Lemma carried_at_lt l r i : i < length l → carried_at (l ++ [r]) i = carried_at l i.
Proof. intros Hi. unfold carried_at. by rewrite take_app_le by lia. Qed.

(** [sha] is held at the first of the best-scoring iterations that have a commit. *)
Definition lands (l : list IterationRecord) (sha : string) : Prop :=
  ∃ i r, l !! i = Some r ∧ carried_at l i = Some sha
    ∧ ∀ j r', l !! j = Some r' → is_Some (carried_at l j) →
        record_passed r' ≤ record_passed r ∧ (j < i → record_passed r' < record_passed r).

Lemma land_records_spec l :
  let s := foldl land_record {| best_sha := None; best_count := -1; carried_sha := None |} l in
  carried_sha s = last (omap commit_sha l)
  ∧ match best_sha s with
    | None => best_count s = (-1)%Z ∧ ∀ j r, l !! j = Some r → carried_at l j = None
    | Some sha => ∃ i r, l !! i = Some r ∧ carried_at l i = Some sha
        ∧ best_count s = Z.of_nat (record_passed r)
        ∧ ∀ j r', l !! j = Some r' → is_Some (carried_at l j) →
            record_passed r' ≤ record_passed r ∧ (j < i → record_passed r' < record_passed r)
    end.
Proof.
  induction l as [|r l IH] using rev_ind; cbv zeta in *.
  { by split; [|split]. }
  rewrite foldl_app. cbn [foldl].
  set (s := foldl land_record _ l) in *. destruct IH as [Hcar IH].
  assert (last (omap commit_sha (l ++ [r]))
    = match commit_sha r with Some c => Some c | None => carried_sha s end) as Hlast.
  { rewrite omap_app, Hcar. simpl. destruct (commit_sha r); simpl; [by rewrite last_snoc|].
    by rewrite app_nil_r. }
  assert (carried_at (l ++ [r]) (length l)
    = match commit_sha r with Some c => Some c | None => carried_sha s end) as Hnow
    by (rewrite carried_at_app, Hcar; done).
  assert (∀ j r', (l ++ [r]) !! j = Some r' →
    (j < length l ∧ l !! j = Some r' ∧ carried_at (l ++ [r]) j = carried_at l j)
    ∨ (j = length l ∧ r' = r)) as Hsplit.
  { intros j r' Hj. destruct (decide (j < length l)) as [Hlt|Hge].
    - left. rewrite lookup_app_l in Hj by done. split_and!; [done..|]. by apply carried_at_lt.
    - right. pose proof (lookup_lt_Some _ _ _ Hj) as Hlen.
      rewrite length_app in Hlen. simpl in Hlen. assert (j = length l) as -> by lia.
      rewrite lookup_app_r, Nat.sub_diag in Hj by lia. by injection Hj as ->. }
  unfold land_record. rewrite <-Hlast in Hnow. rewrite <-Hlast.
  destruct (last (omap commit_sha (l ++ [r]))) as [c|] eqn:Hc.
  - destruct (best_count s <? Z.of_nat (record_passed r))%Z eqn:Hlt; cbn;
      (split; [done|]).
    + apply Z.ltb_lt in Hlt. exists (length l), r. split_and!; [|done|done|].
      { rewrite lookup_app_r, Nat.sub_diag by lia. done. }
      intros j r' Hj Hcj. apply Hsplit in Hj as [(Hjl & Hj & Heq)|[-> ->]]; [|lia].
      rewrite Heq in Hcj. destruct (best_sha s) as [sha|].
      * destruct IH as (i & b & _ & _ & Hb & Hbest). destruct (Hbest j r' Hj Hcj) as [? _]. lia.
      * destruct IH as [_ Hno]. rewrite (Hno j r' Hj) in Hcj. by destruct Hcj.
    + apply Z.ltb_ge in Hlt. destruct (best_sha s) as [sha|]; [|destruct IH as [? _]; lia].
      destruct IH as (i & b & Hi & Hci & Hb & Hbest). exists i, b.
      pose proof (lookup_lt_Some _ _ _ Hi) as Hil.
      split_and!; [by apply lookup_app_l_Some|by rewrite carried_at_lt|done|].
      intros j r' Hj Hcj. apply Hsplit in Hj as [(Hjl & Hj & Heq)|[-> ->]]; [|lia].
      rewrite Heq in Hcj. by apply Hbest.
  - cbn. split; [done|]. destruct (best_sha s) as [sha|].
    + destruct IH as (i & b & Hi & Hci & Hb & Hbest). exists i, b.
      pose proof (lookup_lt_Some _ _ _ Hi) as Hil.
      split_and!; [by apply lookup_app_l_Some|by rewrite carried_at_lt|done|].
      intros j r' Hj Hcj. apply Hsplit in Hj as [(Hjl & Hj & Heq)|[-> ->]].
      * rewrite Heq in Hcj. by apply Hbest.
      * rewrite Hnow in Hcj. by destruct Hcj.
    + destruct IH as [? Hno]. split; [done|]. intros j r' Hj.
      apply Hsplit in Hj as [(Hjl & Hj & Heq)|[-> ->]]; [|done]. rewrite Heq. by eapply Hno.
Qed.

(** The landable commit. [landable_commit] is [None] exactly when no iteration
    committed; otherwise it is the commit carried at the earliest of the
    best-scoring iterations that have one at or before them. *)
Theorem landable_commit_spec (trajectory : LoopTrajectory) :
  match landable_commit trajectory with
  | None => ∀ r, r ∈ records trajectory → commit_sha r = None
  | Some sha => lands (records trajectory) sha
  end.
Proof.
  unfold landable_commit. pose proof (land_records_spec (records trajectory)) as [_ H].
  destruct (best_sha _) as [sha|].
  - destruct H as (i & r & Hi & Hc & _ & Hbest). by exists i, r.
  - destruct H as [_ Hno]. intros r [i Hi]%list_elem_of_lookup. specialize (Hno i r Hi).
    unfold carried_at in Hno. apply last_None in Hno.
    destruct (commit_sha r) as [c|] eqn:Hr; [|done]. exfalso.
    assert (c ∈ omap commit_sha (take (S i) (records trajectory))) as Hin.
    { apply list_elem_of_omap. exists r. split; [|done]. apply list_elem_of_lookup.
      exists i. rewrite lookup_take_lt by lia. done. }
    rewrite Hno in Hin. by apply not_elem_of_nil in Hin.
Qed.

(** ** The fold, verified *)

Lemma max_passed_spec l m :
  max_passed l = Ok m →
  (∃ r, r ∈ l ∧ record_passed r = m) ∧ ∀ r, r ∈ l → record_passed r ≤ m.
Proof.
  destruct l as [|r l]; [done|]. intros [= <-]. revert r.
  induction l as [|x l IH] using rev_ind; intros r; cbn.
  { split; [exists r; split; [by left|done]|]. by intros r' ->%list_elem_of_singleton. }
  rewrite foldl_app. cbn. destruct (IH r) as [(b & Hb & Hm) Hle]. split.
  - destruct (Nat.max_spec (foldl (λ m r, m `max` record_passed r) (record_passed r) l)
      (record_passed x)) as [[_ ->]|[_ ->]].
    + exists x. split; [|done]. right. apply elem_of_app. right. by left.
    + exists b. split; [|done]. rewrite app_comm_cons. apply elem_of_app. by left.
  - intros r' Hr'. rewrite app_comm_cons in Hr'.
    apply elem_of_app in Hr' as [Hr'| ->%list_elem_of_singleton]; [|lia].
    specialize (Hle r' Hr'). lia.
Qed.

Lemma best_of_spec first rest :
  let b := best_of first rest in
  ∃ l1 l2, first :: rest = l1 ++ b :: l2
    ∧ (∀ r, r ∈ first :: rest → record_passed r ≤ record_passed b)
    ∧ ∀ r, r ∈ l1 → record_passed r < record_passed b.
Proof.
  cbv zeta. unfold best_of.
  set (best := foldl (λ b r, if (record_passed b <? record_passed r)%nat then r else b) first rest).
  assert (best ∈ first :: rest ∧ ∀ r, r ∈ first :: rest → record_passed r ≤ record_passed best)
    as [Hin Hmax].
  { unfold best. clear best. induction rest as [|x l IH] using rev_ind; cbn [foldl].
    { split; [by left|]. by intros r ->%list_elem_of_singleton. }
    rewrite foldl_app. cbn [foldl]. cbv beta. destruct IH as [Hb Hle].
    set (b := foldl _ first l) in *.
    destruct (record_passed b <? record_passed x)%nat eqn:E.
    - apply Nat.ltb_lt in E. split; [right; apply elem_of_app; right; by left|].
      intros r Hr. rewrite app_comm_cons in Hr.
      apply elem_of_app in Hr as [Hr| ->%list_elem_of_singleton]; [|done].
      specialize (Hle r Hr). lia.
    - apply Nat.ltb_ge in E. split; [rewrite app_comm_cons; apply elem_of_app; by left|].
      intros r Hr. rewrite app_comm_cons in Hr.
      apply elem_of_app in Hr as [Hr| ->%list_elem_of_singleton]; [by apply Hle|done]. }
  destruct (first_such _ (first :: rest)) as [b|] eqn:E.
  - apply first_such_Some in E as (l1 & l2 & Heq & Hb%bool_decide_eq_true & Hl1).
    cbn [default from_option id]. exists l1, l2. rewrite Hb. split_and!; [done..|].
    intros r Hr. rewrite Forall_forall in Hl1. pose proof (Hl1 r Hr) as Hn%bool_decide_eq_false.
    assert (record_passed r ≤ record_passed best); [|lia].
    apply Hmax. rewrite Heq. apply elem_of_app. by left.
  - apply first_such_None in E. rewrite Forall_forall in E.
    pose proof (E best Hin) as Hn%bool_decide_eq_false. done.
Qed.

Lemma always_failing_elem id rest (s : gset CriterionId) :
  id ∈ foldl (λ s r, s ∩ list_to_set (failing_criterion_ids r)) s rest ↔
  id ∈ s ∧ ∀ r, r ∈ rest → id ∈ failing_criterion_ids r.
Proof.
  revert s; induction rest as [|r rest IH]; intros s; cbn [foldl].
  { split; [|by intros []]. intros Hid. split; [done|]. by intros r ?%not_elem_of_nil. }
  rewrite IH, elem_of_intersection, elem_of_list_to_set. setoid_rewrite elem_of_cons.
  naive_solver.
Qed.

(** The trajectory. For any window of at least one iteration the fold never
    raises. The never-passed criteria are exactly those that failed in every
    record; the best record is the earliest with the highest count; and the loop
    has plateaued exactly when there are more records than the window and none of
    the last window's records beat every one before them. A window of zero raises
    on any nonempty record list. *)
Theorem fold_trajectory_spec (records : list IterationRecord) (window : Z) :
  (window = 0%Z → records ≠ [] → ∃ e, fold_trajectory records window = Err e)
  ∧ ((1 ≤ window)%Z →
    ∃ t, fold_trajectory records window = Ok t
    ∧ Trajectory.records t = records
    ∧ (∀ id, id ∈ never_passed_ids t ↔
         records ≠ [] ∧ ∀ r, r ∈ records → id ∈ failing_criterion_ids r)
    ∧ (records ≠ [] → ∃ l1 b l2, records = l1 ++ b :: l2
         ∧ best_passed_count t = record_passed b ∧ best_iteration t = iteration b
         ∧ best_commit_sha t = commit_sha b
         ∧ (∀ r, r ∈ records → record_passed r ≤ record_passed b)
         ∧ ∀ r, r ∈ l1 → record_passed r < record_passed b)
    ∧ (plateaued t = true ↔
         Z.to_nat window < length records
         ∧ ∀ r, r ∈ last_of window records →
             ∃ r', r' ∈ before_last window records ∧ record_passed r ≤ record_passed r')).
Proof.
  split.
  { intros -> Hne. destruct records as [|first rest]; [done|]. unfold fold_trajectory.
    cbn. by eexists. }
  intros Hw. destruct records as [|first rest] eqn:Hrs.
  { exists empty_trajectory. split; [done|]. split; [done|]. cbn. split_and!.
    - intros id. split; [intros Hi; by apply not_elem_of_nil in Hi|]. by intros [? _].
    - done.
    - split; [done|]. intros [? _]. lia. }
  unfold fold_trajectory. cbv zeta. rewrite <-Hrs.
  destruct (best_of_spec first rest) as (l1 & l2 & Heq & Hmax & Hfirst).
  rewrite <-Hrs in Heq, Hmax.
  assert (∀ id, id ∈ filter (λ id, id ∈ foldl (λ s r, s ∩ list_to_set (failing_criterion_ids r))
      (list_to_set (failing_criterion_ids first) : gset CriterionId) rest)
      (failing_criterion_ids first) ↔
    records ≠ [] ∧ ∀ r, r ∈ records → id ∈ failing_criterion_ids r) as Hnever.
  { intros id. rewrite list_elem_of_filter, always_failing_elem, elem_of_list_to_set, Hrs.
    setoid_rewrite elem_of_cons. naive_solver. }
  destruct (window <? Z.of_nat (length records))%Z eqn:Hlt.
  - apply Z.ltb_lt in Hlt.
    assert (slice_at window records = length records - Z.to_nat window) as Hs.
    { unfold slice_at. destruct (Z.leb_spec window 0); [lia|done]. }
    destruct (max_passed (before_last window records)) as [m|e] eqn:Hm.
    2:{ exfalso. unfold before_last in Hm. rewrite Hs, Hrs in Hm.
        assert (length (first :: rest) - Z.to_nat window = S (length rest - Z.to_nat window)) as Hk
          by (rewrite Hrs in Hlt; simpl in *; lia).
        rewrite Hk in Hm. done. }
    apply max_passed_spec in Hm as [(b & Hb & <-) Hle].
    eexists. split; [reflexivity|]. cbn. split_and!; [done|done| |].
    + intros _. exists l1, (best_of first rest), l2. by split_and!.
    + rewrite forallb_forall. split.
      * intros Hall. split; [lia|]. intros r Hr. exists b. split; [done|].
        apply Nat.leb_le, Hall. by apply list_elem_of_In.
      * intros [_ Hall] r Hr%list_elem_of_In. apply Nat.leb_le.
        destruct (Hall r Hr) as (r' & Hr' & ?). specialize (Hle r' Hr'). lia.
  - apply Z.ltb_ge in Hlt. eexists. split; [reflexivity|]. cbn. split_and!; [done|done| |].
    + intros _. exists l1, (best_of first rest), l2. by split_and!.
    + split; [done|]. intros [? _]. lia.
Qed.

Definition iter (n passed : nat) (failing : list string) (sha : option string) : IterationRecord :=
  {| iteration := n; record_passed := passed; failing_criterion_ids := failing;
     commit_sha := sha |}.

Lemma fold_trajectory_spec_witness :
  ∃ t, fold_trajectory [iter 1 2 ["A"; "B"] (Some "c1"); iter 2 1 ["B"; "C"] None;
                        iter 3 2 ["B"] (Some "c3")] 2 = Ok t
    ∧ plateaued t = true ∧ never_passed_ids t = ["B"] ∧ best_commit_sha t = Some "c1".
Proof.
  destruct (fold_trajectory_spec [iter 1 2 ["A"; "B"] (Some "c1"); iter 2 1 ["B"; "C"] None;
    iter 3 2 ["B"] (Some "c3")] 2) as [_ H].
  destruct H as (t & Ht & _); [lia|]. exists t. split; [exact Ht|].
  vm_compute in Ht. injection Ht as <-. by vm_compute.
Defined.

(** ** The fire's plateau, verified *)

Lemma criterion_keys_ok criteria reading keys :
  _criterion_keys criteria reading = Ok keys ↔
  Forall (λ c, has_label "criterion" c = true) criteria ∧ NoDup (issue_key <$> criteria)
  ∧ keys = list_to_set (issue_key <$> criteria).
Proof.
  unfold _criterion_keys. cbv zeta. rewrite !raise_if_ok.
  rewrite negb_false_iff, bool_decide_eq_true.
  assert (existsb (λ c, negb (has_label "criterion" c)) criteria = false ↔
    Forall (λ c, has_label "criterion" c = true) criteria) as ->.
  { rewrite <-not_true_iff_false, existsb_exists, Forall_forall. split.
    - intros H c Hc. destruct (has_label "criterion" c) eqn:E; [done|]. destruct H.
      exists c. rewrite E. split; [by apply list_elem_of_In|done].
    - intros H (c & Hc%list_elem_of_In & Hn). by rewrite H in Hn. }
  rewrite size_list_to_set_NoDup. split; [by intros (? & ? & [= <-])|].
  by intros (? & ? & ->).
Qed.

(** The readings one tick may be taken from. *)
Definition tick_readable (prev : list string) (subtree open : list TrackerIssue) : Prop :=
  Forall (λ c, has_label "criterion" c = true) subtree
  ∧ Forall (λ c, has_label "criterion" c = true) open
  ∧ NoDup (issue_key <$> subtree) ∧ NoDup (issue_key <$> open)
  ∧ (∀ k, k ∈ issue_key <$> open → k ∈ issue_key <$> subtree)
  ∧ NoDup prev ∧ Forall (λ k, str_blank k = false) prev.

(** One tick. A tick is read exactly from readings that hold only criterion
    sub-issues, each once, whose open ones lie in the subtree, and from distinct
    nonblank previous identities; anything else is a [ValueError]. What it then
    says this tick closed of the previous work is exactly the identities owed
    before, still in the subtree and no longer open. *)
Theorem observe_tick_spec (prev : list string) (subtree open : list TrackerIssue) :
  match observe_tick prev subtree open with
  | Ok tick => tick_readable prev subtree open
      ∧ ∀ k, k ∈ closed_previous_work tick ↔
          k ∈ prev ∧ k ∈ issue_key <$> subtree ∧ k ∉ issue_key <$> open
  | Err e => ¬ tick_readable prev subtree open ∧ ∃ message, e = ValueError message
  end.
Proof.
  assert (∀ criteria reading e, _criterion_keys criteria reading = Err e →
    (∃ m, e = ValueError m) ∧ ¬ (Forall (λ c, has_label "criterion" c = true) criteria
      ∧ NoDup (issue_key <$> criteria))) as Hkerr.
  { intros criteria reading e He. split.
    - unfold _criterion_keys, raise_if in He. cbv zeta in He.
      repeat case_match; simplify_eq; eauto.
    - intros [H1 H2]. assert (_criterion_keys criteria reading = Ok
        (list_to_set (issue_key <$> criteria))) as Hok by by apply criterion_keys_ok.
      congruence. }
  unfold observe_tick, tick_readable.
  destruct (_criterion_keys subtree "subtree") as [present|e] eqn:Hp; cbn [mbind result_bind].
  2:{ apply Hkerr in Hp. tauto. }
  apply criterion_keys_ok in Hp as (Hps & Hpn & ->).
  destruct (_criterion_keys open "open") as [still|e] eqn:Ho; cbn [mbind result_bind].
  2:{ apply Hkerr in Ho. tauto. }
  apply criterion_keys_ok in Ho as (Hos & Hon & ->).
  assert ((list_to_set (issue_key <$> open) : gset string) ∖ list_to_set (issue_key <$> subtree) = ∅
    ↔ ∀ k, k ∈ issue_key <$> open → k ∈ issue_key <$> subtree) as Hsub.
  { split.
    - intros H k Hk. apply dec_stable. intros Hn.
      assert (k ∈ (list_to_set (issue_key <$> open) : gset string)
        ∖ list_to_set (issue_key <$> subtree)) as Hi; [|by rewrite H in Hi].
      by rewrite elem_of_difference, !elem_of_list_to_set.
    - intros H. apply set_eq. intros k.
      rewrite elem_of_difference, !elem_of_list_to_set, elem_of_empty. naive_solver. }
  unfold raise_if. case_bool_decide as Hd; cbn [negb].
  2:{ split; [tauto|by eexists]. }
  case_bool_decide as Hs; cbn [negb].
  2:{ rewrite size_list_to_set_NoDup in Hs. split; [tauto|by eexists]. }
  rewrite size_list_to_set_NoDup in Hs.
  assert (existsb str_blank prev = false ↔ Forall (λ k, str_blank k = false) prev) as Hbl.
  { rewrite <-not_true_iff_false, existsb_exists, Forall_forall. split.
    - intros H k Hk. destruct (str_blank k) eqn:E; [|done]. destruct H.
      exists k. split; [by apply list_elem_of_In|done].
    - intros H (k & Hk%list_elem_of_In & Hb). by rewrite H in Hb. }
  destruct (existsb str_blank prev) eqn:Hb.
  { split; [|by eexists]. intros (_ & _ & _ & _ & _ & _ & H%Hbl). done. }
  split; [tauto|]. intros k. unfold closed_previous_work. cbn.
  rewrite elem_of_intersection, elem_of_difference, !elem_of_list_to_set. tauto.
Qed.

(** The fire's plateau. A bound below one is refused. Otherwise the fire has
    plateaued exactly when at least that many ticks were taken and each of the last
    of them closed nothing that was owed before it. *)
Theorem fire_plateaued_spec (ticks : list SubtreeTick) (bound : Z) :
  ((bound < 1)%Z → ∃ message, fire_plateaued ticks bound = Err (ValueError message))
  ∧ ((1 ≤ bound)%Z → ∃ b, fire_plateaued ticks bound = Ok b ∧
      (b = true ↔ Z.to_nat bound ≤ length ticks
        ∧ ∀ i t, length ticks - Z.to_nat bound ≤ i → ticks !! i = Some t →
            ∀ k, k ∈ previously_open t → k ∉ currently_closed t)).
Proof.
  unfold fire_plateaued, raise_if. split.
  { intros Hb%Z.ltb_lt. rewrite Hb. by eexists. }
  intros Hb. destruct (Z.ltb_spec bound 1); [lia|]. eexists. split; [reflexivity|].
  destruct (Z.ltb_spec (Z.of_nat (length ticks)) bound) as [Hlt|Hge].
  { split; [done|]. intros [? _]. lia. }
  assert (slice_at bound ticks = length ticks - Z.to_nat bound) as Hs.
  { unfold slice_at. destruct (Z.leb_spec bound 0); [lia|done]. }
  unfold last_of. rewrite Hs, negb_true_iff, <-not_true_iff_false, existsb_exists.
  set (n := length ticks - Z.to_nat bound).
  assert (∀ t, closed_previous_work t = ∅ ↔ ∀ k, k ∈ previously_open t → k ∉ currently_closed t)
    as Hc.
  { intros t. unfold closed_previous_work. split; [set_solver|]. intros H'.
    apply set_eq. intros k. rewrite elem_of_intersection. set_solver. }
  split.
  - intros Hno. split; [lia|]. intros i t Hi Ht. apply Hc, dec_stable. intros Hne.
    destruct Hno. exists t. rewrite bool_decide_false by done. split; [|done].
    apply list_elem_of_In, list_elem_of_lookup. exists (i - n).
    rewrite lookup_drop. by replace (n + (i - n)) with i by lia.
  - intros [_ Hall] (t & Ht%list_elem_of_In & Hne). apply list_elem_of_lookup in Ht as [i Hi].
    rewrite lookup_drop in Hi. rewrite bool_decide_true in Hne; [done|].
    apply Hc. by eapply Hall; [|exact Hi]; lia.
Qed.

Lemma fire_plateaued_spec_witness :
  (1 ≤ 2)%Z ∧ ∃ b, fire_plateaued
    [{| previously_open := {[ "K-1" ]}; currently_closed := {[ "K-1" ]} |};
     {| previously_open := {[ "K-2" ]}; currently_closed := {[ "K-1" ]} |};
     {| previously_open := {[ "K-2" ]}; currently_closed := ∅ |}] 2 = Ok b ∧ b = true.
Proof.
  split; [lia|]. destruct (fire_plateaued_spec
    [{| previously_open := {[ "K-1" ]}; currently_closed := {[ "K-1" ]} |};
     {| previously_open := {[ "K-2" ]}; currently_closed := {[ "K-1" ]} |};
     {| previously_open := {[ "K-2" ]}; currently_closed := ∅ |}] 2) as [_ H].
  destruct (H ltac:(lia)) as (b & Hb & _). exists b. split; [exact Hb|].
  vm_compute in Hb. injection Hb as <-. reflexivity.
Defined.
