(* ===== verification/Redispatch.v ===== *)
(** * Bounded re-dispatch until a session conforms (core/redispatch.py).

    The loop around one session and the check of what it answered: a refusal the
    caller names [correctable] earns another dispatch, handed that refusal, until
    the bound is spent. What the session answers is the argument [dispatch], a
    function of the attempt's number and of the refusal it was handed. *)

From S2P Require Import Prelude PyStr Tracker Errors.

(** What a bounded re-dispatch returned, and what it spent. *)
Record Redispatched (T : Type) := {
  output : T;
  unresolved : option exn;
  breaches : list exn;
  attempts : nat;
}.
Arguments output {T} r.
Arguments unresolved {T} r.
Arguments breaches {T} r.
Arguments attempts {T} r.

(** The attempts the bound pays for: the first one is made whatever the bound says. *)
Definition attempt_bound (max_attempts : Z) : nat := S (Z.to_nat (max_attempts - 1)).

Section until.
Context {T : Type} (dispatch : nat → option exn → result exn T)
  (check : T → result exn unit) (correctable : exn → bool).

(** The [while True] loop, entered for attempt [attempt] with the breaches so far;
    [remaining] attempts remain after this one. *)
Fixpoint attempts_from (remaining attempt : nat) (seen : list exn) : result exn (Redispatched T) :=
  match dispatch attempt (last seen) with
  | Err caught =>
      if correctable caught then
        match remaining with
        | O => Err caught
        | S remaining => attempts_from remaining (S attempt) (seen ++ [caught])
        end
      else Err caught
  | Ok out =>
      match check out with
      | Ok _ => Ok {| output := out; unresolved := None; breaches := seen; attempts := attempt |}
      | Err caught =>
          if correctable caught then
            match remaining with
            | O => Ok {| output := out; unresolved := Some caught;
                         breaches := seen ++ [caught]; attempts := attempt |}
            | S remaining => attempts_from remaining (S attempt) (seen ++ [caught])
            end
          else Err caught
      end
  end.

Definition until_conforming (max_attempts : Z) : result exn (Redispatched T) :=
  attempts_from (Z.to_nat (max_attempts - 1)) 1 [].
End until.

Definition is_CriteriaFanInError (e : exn) : bool :=
  match e with CriteriaFanInError _ _ _ _ => true | _ => false end.

(** The fan-in channel's binding: the same prompt again, nothing restated. *)
Definition until_permutation {T} (dispatch : nat → result exn T) (check : T → result exn unit)
    (max_attempts : Z) : result exn (T * option exn * nat) :=
  r ← until_conforming (λ attempt _, dispatch attempt) check is_CriteriaFanInError max_attempts;
  Ok (output r, unresolved r, attempts r).

(** The refusal the next prompt restates under [CORRECTION_HEADER], if any. *)
Definition correction_notice (breach : exn) : option exn :=
  if is_CriteriaFanInError breach then None else Some breach.

Record ContractCorrection := { corrected : list exn; correction_attempts : nat }.

Definition correction_report {T} (r : Redispatched T) : option ContractCorrection :=
  match breaches r with
  | [] => None
  | seen => Some {| corrected := seen; correction_attempts := attempts r |}
  end.

(** ** The bound, verified *)

Section spec.
Context {T : Type} (dispatch : nat → option exn → result exn T)
  (check : T → result exn unit) (correctable : exn → bool).

(** Attempt [n], handed [prior], was refused with [e], by the session or the check. *)
Definition refused (n : nat) (prior : option exn) (e : exn) : Prop :=
  dispatch n prior = Err e ∨ ∃ out, dispatch n prior = Ok out ∧ check out = Err e.

(** Every breach of a run so far is the correctable refusal of its own attempt, which
    was handed the breach before it. *)
Definition breached (seen : list exn) : Prop :=
  ∀ i e, seen !! i = Some e → correctable e = true ∧ refused (S i) (last (take i seen)) e.

Lemma breached_snoc seen e :
  breached seen → correctable e = true → refused (S (length seen)) (last seen) e →
  breached (seen ++ [e]).
Proof.
  intros Hseen Hc Hr i x [[Hlt Hi]|[-> <-]]%lookup_snoc_Some.
  - rewrite take_app_le by lia. by apply Hseen.
  - rewrite take_app_length. done.
Qed.

(** What the loop answers, entered with [seen] and [remaining] attempts past this one. *)
Definition conforms (bound : nat) (r : result exn (Redispatched T)) : Prop :=
  match r with
  | Ok r =>
      1 ≤ attempts r ≤ bound ∧ breached (breaches r)
      ∧ dispatch (attempts r) (last (take (attempts r - 1) (breaches r))) = Ok (output r)
      ∧ match unresolved r with
        | None => check (output r) = Ok tt ∧ length (breaches r) = attempts r - 1
        | Some e => check (output r) = Err e ∧ attempts r = bound
            ∧ length (breaches r) = bound ∧ last (breaches r) = Some e
        end
  | Err e => ∃ seen, breached seen ∧ length seen < bound
      ∧ refused (S (length seen)) (last seen) e
      ∧ (correctable e = true →
           S (length seen) = bound ∧ dispatch bound (last seen) = Err e)
  end.

Lemma attempts_from_spec remaining seen :
  breached seen →
  conforms (S (length seen) + remaining)
    (attempts_from dispatch check correctable remaining (S (length seen)) seen).
Proof.
  revert seen. induction remaining as [|remaining IH]; intros seen Hseen; cbn [attempts_from];
    destruct (dispatch (S (length seen)) (last seen)) as [out|e] eqn:Hd.
  all: try (destruct (check out) as [[]|e] eqn:Hch).
  all: try (destruct (correctable e) eqn:Hc).
  all: try (rewrite Nat.add_succ_r, <-Nat.add_succ_l; pose proof (IH (seen ++ [e])) as H;
    rewrite length_app, Nat.add_1_r in H; apply H, breached_snoc; [done..|];
    (by left) || (by right; exists out)).
  all: cbn; rewrite ?Nat.sub_0_r, ?firstn_all.
  all: try (split_and!; [lia..|done|done|done|lia]).
  all: try (exists seen; split_and!; [done|lia|(by left) || (by right; exists out)|]).
  all: try (by rewrite Hc).
  - rewrite last_snoc, length_app, take_app_length, !Nat.add_1_r, Nat.add_0_r.
    split_and!; try lia; try done. apply breached_snoc; [done..|]. right. by exists out.
  - rewrite Nat.add_0_r. by split.
Qed.
End spec.

(** The bounded re-dispatch. It makes at most [max_attempts] attempts, one at least,
    each handed the refusal of the attempt before it, and stops at the first answer
    the check passes. Every breach it reports is the refusal of its own attempt. An
    answer comes back unresolved only with the bound spent on it, carrying the
    refusal of that very answer; and a correctable refusal is raised only when the
    last attempt produced no answer at all. *)
Theorem until_conforming_spec {T} (dispatch : nat → option exn → result exn T)
    (check : T → result exn unit) (correctable : exn → bool) (max_attempts : Z) :
  conforms dispatch check correctable (attempt_bound max_attempts)
    (until_conforming dispatch check correctable max_attempts).
Proof.
  apply (attempts_from_spec dispatch check correctable (Z.to_nat (max_attempts - 1)) []).
  intros i e Hi. done.
Qed.

(** What [until_permutation] answers, for the loop that reads it. *)
Lemma until_permutation_ok {T} (dispatch : nat → result exn T) check max_attempts out un n :
  until_permutation dispatch check max_attempts = Ok (out, un, n) →
  dispatch n = Ok out
  ∧ match un with
    | None => check out = Ok tt
    | Some e => check out = Err e ∧ is_CriteriaFanInError e = true
    end.
Proof.
  unfold until_permutation, until_conforming.
  pose proof (attempts_from_spec (λ attempt _, dispatch attempt) check is_CriteriaFanInError
    (Z.to_nat (max_attempts - 1)) []) as H.
  cbn [length] in H. destruct (attempts_from _ _ _ _ _ _) as [r|e]; cbn [mbind result_bind];
    [|done].
  destruct H as (_ & Hb & Hd & Hu); [done|]. intros [= <- <- <-]. split; [done|].
  destruct (unresolved r) as [e|]; [|by destruct Hu].
  destruct Hu as (Hch & _ & Hlen & Hlast). split; [done|].
  rewrite last_lookup in Hlast. by destruct (Hb _ _ Hlast).
Qed.
