(* ===== verification/Amendment.v ===== *)
(** * Proposed departures and their judgments (domain/amendment.py,
    types/domain/amendment.py).

    A writer proposes to depart from a criterion or a ruling; an independent session
    judges the proposal; [upheld_reason] says why the existing subject stands, or that
    an amendment may be written. The report of a commit's judgments is what the loop
    reads: a report that upholds anything blocks the evaluation of that attempt.
    Text constraints a field declares are checked where a value enters the program. *)

From S2P Require Import Prelude PyStr Tracker Errors Criteria.

(** ** Data (types/domain/amendment.py, operation.py, audit.py, write_back.py) *)

Inductive AmendmentSubject := CriterionSubject (id : string) | RulingSubject (id : string).
#[export] Instance AmendmentSubject_eq_dec : EqDecision AmendmentSubject.
Proof. solve_decision. Defined.

Definition subject_kind (s : AmendmentSubject) : string :=
  match s with CriterionSubject _ => "criterion" | RulingSubject _ => "ruling" end.
Definition subject_id (s : AmendmentSubject) : string :=
  match s with CriterionSubject id | RulingSubject id => id end.

Inductive AmendmentGround :=
| UNSATISFIABLE_AT_BASE | MUTUALLY_UNSATISFIABLE | PREMISE_FALSE_AT_BASE
| REQUIRES_BREAKING_HOUSE_RULE.
#[export] Instance AmendmentGround_eq_dec : EqDecision AmendmentGround.
Proof. solve_decision. Defined.

Inductive CheckPrerequisite := REPOSITORY_HISTORY | NETWORK | CREDENTIALS.
#[export] Instance CheckPrerequisite_eq_dec : EqDecision CheckPrerequisite.
Proof. solve_decision. Defined.
Definition CheckPrerequisite_value (p : CheckPrerequisite) : string :=
  match p with
  | REPOSITORY_HISTORY => "repository_history" | NETWORK => "network"
  | CREDENTIALS => "credentials"
  end.

Record AmendmentClaim := {
  claim_subject : AmendmentSubject;
  claim_ground : AmendmentGround;
  departure : string;
  claimed_capability : option CheckPrerequisite;
}.
#[export] Instance AmendmentClaim_eq_dec : EqDecision AmendmentClaim.
Proof. solve_decision. Defined.

Record BaseCitation := { citation_path : string; quote : string }.
#[export] Instance BaseCitation_eq_dec : EqDecision BaseCitation.
Proof. solve_decision. Defined.

(** [judged_finding] is a [FindingEvidence]: the [CriterionFinding] without its id,
    which nothing here reads. *)
Record AmendmentJudgment := {
  judged_subject : AmendmentSubject;
  base_sha : string;
  judged_ground : AmendmentGround;
  reproduced : bool;
  judged_finding : CriterionFinding;
  citations : list BaseCitation;
  measured_by : option string;
}.
#[export] Instance AmendmentJudgment_eq_dec : EqDecision AmendmentJudgment.
Proof. solve_decision. Defined.

Inductive UpheldReason :=
| GROUND_NOT_REPRODUCED | ENVIRONMENT_LACKS_CAPABILITY | COST_MEASURED_AFFORDABLE
| COST_MEASURED_UNECONOMIC.
#[export] Instance UpheldReason_eq_dec : EqDecision UpheldReason.
Proof. solve_decision. Defined.
Definition UpheldReason_value (r : UpheldReason) : string :=
  match r with
  | GROUND_NOT_REPRODUCED => "ground_not_reproduced"
  | ENVIRONMENT_LACKS_CAPABILITY => "environment_lacks_capability"
  | COST_MEASURED_AFFORDABLE => "cost_measured_affordable"
  | COST_MEASURED_UNECONOMIC => "cost_measured_uneconomic"
  end.

Lemma UpheldReason_value_inj r r' : UpheldReason_value r = UpheldReason_value r' → r = r'.
Proof. by destruct r, r'. Qed.

(** Membership in [ESCALATED_REASONS]. *)
Definition escalated_reason (r : UpheldReason) : bool :=
  match r with COST_MEASURED_UNECONOMIC | ENVIRONMENT_LACKS_CAPABILITY => true | _ => false end.

Inductive AuditVerdict := HOLDS | REFUTED | UNVERIFIABLE.
#[export] Instance AuditVerdict_eq_dec : EqDecision AuditVerdict.
Proof. solve_decision. Defined.

(** What a settled write left: the verdict and the artifact it addresses. *)
Record WriteBackResult := {
  write_verdict : AuditVerdict;
  write_surface : WritableSurface;
  write_native_ref : string;
}.
#[export] Instance WriteBackResult_eq_dec : EqDecision WriteBackResult.
Proof. solve_decision. Defined.

Inductive RefusalPublication :=
| RecordedRefusal (record : WriteBackResult)
| EscalatedRefusal (record escalation : WriteBackResult).
#[export] Instance RefusalPublication_eq_dec : EqDecision RefusalPublication.
Proof. solve_decision. Defined.
Definition publication_results (p : RefusalPublication) : list WriteBackResult :=
  match p with
  | RecordedRefusal record => [record]
  | EscalatedRefusal record escalation => [record; escalation]
  end.
Definition is_escalated (p : RefusalPublication) : bool :=
  match p with EscalatedRefusal _ _ => true | RecordedRefusal _ => false end.

Record UpheldAmendment := {
  upheld_claim : AmendmentClaim;
  reason : UpheldReason;
  upheld_judgment : AmendmentJudgment;
  publication : RefusalPublication;
}.
#[export] Instance UpheldAmendment_eq_dec : EqDecision UpheldAmendment.
Proof. solve_decision. Defined.
Definition upheld_subject (u : UpheldAmendment) : AmendmentSubject := claim_subject (upheld_claim u).

Record AmendedAmendment := {
  amended_claim : AmendmentClaim;
  amended_judgment : AmendmentJudgment;
  prior_surface : WritableSurface;
  prior_native_ref : string;
  archive : WriteBackResult;
  applied : WriteBackResult;
}.
#[export] Instance AmendedAmendment_eq_dec : EqDecision AmendedAmendment.
Proof. solve_decision. Defined.

Inductive AmendmentVerdict := Upheld (u : UpheldAmendment) | Amended (a : AmendedAmendment).
#[export] Instance AmendmentVerdict_eq_dec : EqDecision AmendmentVerdict.
Proof. solve_decision. Defined.
Definition verdict_subject (v : AmendmentVerdict) : AmendmentSubject :=
  match v with Upheld u => upheld_subject u | Amended a => claim_subject (amended_claim a) end.

Record AmendmentReport := { verdicts : list AmendmentVerdict }.
#[export] Instance AmendmentReport_eq_dec : EqDecision AmendmentReport.
Proof. solve_decision. Defined.

Definition upheld (r : AmendmentReport) : list UpheldAmendment :=
  omap (λ v, match v with Upheld u => Some u | Amended _ => None end) (verdicts r).

Record RepeatedUpheld := {
  repeated_subject : AmendmentSubject; repeated_reason : UpheldReason; repeated_count : nat;
}.
#[export] Instance RepeatedUpheld_eq_dec : EqDecision RepeatedUpheld.
Proof. solve_decision. Defined.

Record NativeAmendmentEvent := { report : AmendmentReport; repeated : list RepeatedUpheld }.
#[export] Instance NativeAmendmentEvent_eq_dec : EqDecision NativeAmendmentEvent.
Proof. solve_decision. Defined.

(** ** The validators a judgment's record must pass *)

Definition cost_measurement_of (j : AmendmentJudgment) : option CostMeasurement :=
  cost_claim (judged_finding j) ≫= measurement.

(** [UpheldJudgment.same_subject] *)
Definition same_subject (c : AmendmentClaim) (r : UpheldReason) (j : AmendmentJudgment) : bool :=
  bool_decide (claim_subject c = judged_subject j)
  && bool_decide (claim_ground c = judged_ground j)
  && match r with
     | COST_MEASURED_AFFORDABLE | COST_MEASURED_UNECONOMIC =>
         match cost_measurement_of j, measured_by j with
         | Some m, Some _ =>
             Bool.eqb (affordable m) (bool_decide (r = COST_MEASURED_AFFORDABLE))
         | _, _ => false
         end
     | ENVIRONMENT_LACKS_CAPABILITY => negb (bool_decide (claimed_capability c = None))
     | GROUND_NOT_REPRODUCED => true
     end.

(** [UpheldAmendment.verified_publication] *)
Definition verified_publication (u : UpheldAmendment) : bool :=
  let results := publication_results (publication u) in
  Bool.eqb (is_escalated (publication u)) (escalated_reason (reason u))
  && forallb (λ w, bool_decide (write_verdict w = HOLDS)) results
  && forallb (λ w, bool_decide (surface_kind (write_surface w) = MARKER_COMMENT)) results
  && match upheld_subject u with
     | CriterionSubject id =>
         forallb (λ w, bool_decide (scope_key (surface_ref (write_surface w)) = id)) results
     | RulingSubject _ => true
     end
  && match results with
     | w :: rest => forallb (λ v, bool_decide
         (surface_ref (write_surface v) = surface_ref (write_surface w))) rest
     | [] => false
     end.

(** What [AmendedAmendment.same_verified_subject] asks of the judgment itself. *)
Definition amendable (c : AmendmentClaim) (j : AmendmentJudgment) : bool :=
  bool_decide (claim_subject c = judged_subject j)
  && bool_decide (claim_ground c = judged_ground j)
  && reproduced j
  && bool_decide (stated_verdict (judged_finding j) = infeasible)
  && match cost_claim (judged_finding j) with None => true | Some _ => false end
  && negb (bool_decide (length (citations j) = 0)).

(** [AmendedAmendment.same_verified_subject] *)
Definition same_verified_subject (a : AmendedAmendment) : bool :=
  amendable (amended_claim a) (amended_judgment a)
  && forallb (λ w, bool_decide (write_verdict w = HOLDS)) [archive a; applied a]
  && bool_decide (write_surface (applied a) = prior_surface a)
  && bool_decide (write_native_ref (applied a) = prior_native_ref a)
  && bool_decide (surface_ref (write_surface (archive a)) = surface_ref (prior_surface a))
  && bool_decide (surface_kind (write_surface (archive a)) = MARKER_COMMENT)
  && match claim_subject (amended_claim a) with
     | CriterionSubject id =>
         bool_decide (surface_kind (prior_surface a) = CRITERION_SUB_ISSUE)
         && bool_decide (prior_native_ref a = id)
     | RulingSubject _ => bool_decide (surface_kind (prior_surface a) = MARKER_COMMENT)
     end.

(** [AmendmentReport.unique_subjects]; [NativeWriterOutput.unique_subjects] asks the
    same of a writer's claims. *)
Definition unique_subjects (subjects : list AmendmentSubject) : bool :=
  bool_decide (NoDup ((λ s, (subject_kind s, subject_id s)) <$> subjects)).

(** ** Accounting (domain/amendment.py) *)

Definition amended_records (r : AmendmentReport) : gset string :=
  list_to_set (omap (λ v, match v with
    | Amended a => match claim_subject (amended_claim a) with
                   | RulingSubject id => Some id | CriterionSubject _ => None end
    | Upheld _ => None
    end) (verdicts r)).

Definition upheld_reason (claim : AmendmentClaim) (judgment : AmendmentJudgment)
    (environment : option (pydict CheckPrerequisite bool)) : result exn (option UpheldReason) :=
  match cost_claim (judged_finding judgment) with
  | Some cost =>
      match measurement cost, measured_by judgment with
      | Some m, Some _ =>
          if decide (length (citations judgment) = 0) then Ok (Some GROUND_NOT_REPRODUCED)
          else Ok (Some (if affordable m then COST_MEASURED_AFFORDABLE
                         else COST_MEASURED_UNECONOMIC))
      | _, _ => Ok (Some GROUND_NOT_REPRODUCED)
      end
  | None =>
      if decide (stated_verdict (judged_finding judgment) = unverifiable) then
        match claimed_capability claim, environment with
        | Some capability, Some environment =>
            if decide (dict_get environment capability = Some false)
            then Ok (Some ENVIRONMENT_LACKS_CAPABILITY)
            else Ok (Some GROUND_NOT_REPRODUCED)
        | _, _ => Ok (Some GROUND_NOT_REPRODUCED)
        end
      else if negb (reproduced judgment) then Ok (Some GROUND_NOT_REPRODUCED)
      else raise_if (negb (bool_decide (stated_verdict (judged_finding judgment) = infeasible))
                     || bool_decide (length (citations judgment) = 0))
             (NativeWriteRefusalError "A reproduced ground requires cited refutation")
             (Ok None)
  end.

Definition escalation_question (r : UpheldReason) (claim : AmendmentClaim)
    (judgment : AmendmentJudgment) : result exn string :=
  match r with
  | COST_MEASURED_UNECONOMIC =>
      Ok ("Resolve the measured uneconomic departure for " +:+ subject_id (claim_subject claim))
  | ENVIRONMENT_LACKS_CAPABILITY =>
      match claimed_capability claim with
      | None => Err (NativeWriteRefusalError
          "A missing-capability escalation requires the typed claimed capability")
      | Some capability =>
          let revival :=
            "Resolve the missing capability " +:+ CheckPrerequisite_value capability +:+ " for "
            +:+ subject_id (claim_subject claim) +:+ ": the demonstration needs "
            +:+ default "None" (missing_resource (judged_finding judgment))
            +:+ ", which the declared runner environment does not provide. Declaring "
            +:+ CheckPrerequisite_value capability
            +:+ " in the repository's runner environment and removing the decision "
            +:+ "classification from this issue, then firing again, revives it" in
          match claim_subject claim with
          | CriterionSubject _ => Ok (revival
              +:+ "; otherwise a person cancels the criterion with a supersession.")
          | RulingSubject _ => Ok (revival +:+ ".")
          end
      end
  | r => Err (NativeWriteRefusalError ("No escalation is raised at " +:+ UpheldReason_value r))
  end.

(** The key a refusal is counted under, and the two dictionaries of the loop. *)
Definition upheld_key (u : UpheldAmendment) : string * (string * string) :=
  (subject_kind (upheld_subject u), (subject_id (upheld_subject u), UpheldReason_value (reason u))).

Record tally := {
  counts : pydict (string * (string * string)) nat;
  subjects : pydict (string * (string * string)) (AmendmentSubject * UpheldReason);
}.

Definition count_upheld (t : tally) (u : UpheldAmendment) : tally :=
  let key := upheld_key u in {|
    counts := dict_set (counts t) key (S (default 0 (dict_get (counts t) key)));
    subjects := dict_set (subjects t) key (upheld_subject u, reason u) |}.

Definition repeated_upheld (reports : list AmendmentReport) : list RepeatedUpheld :=
  let t := foldl count_upheld {| counts := []; subjects := [] |} (mjoin (upheld <$> reports)) in
  omap (λ kc, match dict_get (subjects t) kc.1 with
              | Some (s, r) =>
                  if decide (2 ≤ kc.2) then
                    Some {| repeated_subject := s; repeated_reason := r; repeated_count := kc.2 |}
                  else None
              | None => None
              end)
    (sort_by fst (counts t)).

(** ** The judgment, verified *)

(** C40. Why a departure is refused. Judged over the claim's own subject and ground, a
    reason [upheld_reason] gives is one the refusal's record accepts, and a question
    can be composed for it whenever it is one that escalates; no reason is given exactly
    when the judgment reproduced a cited refutation at no cost, which is what an
    amendment's record asks of it; and it raises only on a reproduced judgment that
    is neither, whatever the declared environment. *)
Theorem upheld_reason_spec (claim : AmendmentClaim) (judgment : AmendmentJudgment)
    (environment : option (pydict CheckPrerequisite bool)) :
  claim_subject claim = judged_subject judgment →
  claim_ground claim = judged_ground judgment →
  match upheld_reason claim judgment environment with
  | Ok (Some r) => same_subject claim r judgment = true
      ∧ (escalated_reason r = true ↔ is_ok (escalation_question r claim judgment) = true)
      ∧ amendable claim judgment = false
  | Ok None => amendable claim judgment = true
  | Err e => amendable claim judgment = false ∧ reproduced judgment = true
      ∧ e = NativeWriteRefusalError "A reproduced ground requires cited refutation"
  end.
Proof.
  intros Hs Hg. unfold upheld_reason, amendable, same_subject, cost_measurement_of.
  rewrite (bool_decide_true _ Hs), (bool_decide_true _ Hg).
  destruct (cost_claim (judged_finding judgment)) as [cost|]; cbn [mbind option_bind].
  { rewrite !andb_false_r. destruct (measurement cost) as [m|], (measured_by judgment); try done.
    destruct (decide (length (citations judgment) = 0)); [done|].
    by destruct (affordable m). }
  destruct (decide (stated_verdict (judged_finding judgment) = unverifiable)) as [->|Hv].
  { rewrite !andb_false_r. destruct (claimed_capability claim) as [p|] eqn:Hp; [|done].
    destruct environment as [env|]; [|done]. case_decide; [|done]. cbn. rewrite Hp.
    by destruct (claim_subject claim). }
  destruct (reproduced judgment); cbn; [|done].
  case_bool_decide; case_bool_decide; cbn; done.
Qed.

Definition sample_finding (v : CriterionVerdict) : CriterionFinding := {|
  finding_id := ""; stated_verdict := v; smallest_repair := environment_supply;
  refutation := None; missing_resource := Some "a registry"; cost_claim := None;
  base_demonstration := None; pinned_literals := []; forbidden_class := None;
  undeclared_switch_arms := [] |}.
Definition sample_claim (capability : option CheckPrerequisite) : AmendmentClaim := {|
  claim_subject := CriterionSubject "K-1"; claim_ground := UNSATISFIABLE_AT_BASE;
  departure := "skip it"; claimed_capability := capability |}.
Definition sample_judgment (v : CriterionVerdict) : AmendmentJudgment := {|
  judged_subject := CriterionSubject "K-1"; base_sha := "aa";
  judged_ground := UNSATISFIABLE_AT_BASE; reproduced := false;
  judged_finding := sample_finding v; citations := []; measured_by := None |}.

Lemma upheld_reason_spec_witness :
  upheld_reason (sample_claim (Some NETWORK)) (sample_judgment unverifiable)
    (Some [(NETWORK, false)]) = Ok (Some ENVIRONMENT_LACKS_CAPABILITY)
  ∧ same_subject (sample_claim (Some NETWORK)) ENVIRONMENT_LACKS_CAPABILITY
      (sample_judgment unverifiable) = true.
Proof.
  split; [reflexivity|].
  pose proof (upheld_reason_spec (sample_claim (Some NETWORK)) (sample_judgment unverifiable)
    (Some [(NETWORK, false)]) eq_refl eq_refl) as H.
  exact (proj1 H).
Defined.

(** ** The tally, verified *)

Definition occurrences (us : list UpheldAmendment) (s : AmendmentSubject) (r : UpheldReason) : nat :=
  length (filter (λ u, upheld_subject u = s ∧ reason u = r) us).

Lemma upheld_key_iff u s r :
  upheld_key u = (subject_kind s, (subject_id s, UpheldReason_value r)) ↔
  upheld_subject u = s ∧ reason u = r.
Proof.
  unfold upheld_key. split; [|by intros [-> ->]].
  intros [=Hk Hi Hr%UpheldReason_value_inj]. split; [|done].
  destruct (upheld_subject u), s; naive_solver.
Qed.

(** The two dictionaries agree on their keys, and count what was seen. *)
Definition tallied (us : list UpheldAmendment) (t : tally) : Prop :=
  NoDup (dict_keys (counts t))
  ∧ (∀ k, default 0 (dict_get (counts t) k) = length (filter (λ u, upheld_key u = k) us))
  ∧ (∀ k, dict_get (counts t) k = None ↔ dict_get (subjects t) k = None)
  ∧ ∀ k s r, dict_get (subjects t) k = Some (s, r) →
      k = (subject_kind s, (subject_id s, UpheldReason_value r)).

Lemma count_upheld_tallied us u t : tallied us t → tallied (us ++ [u]) (count_upheld t u).
Proof.
  intros (Hnd & Hc & Hn & Hs). unfold count_upheld. split_and!; cbn.
  - by apply dict_set_NoDup.
  - intros k. rewrite dict_get_set, filter_app, length_app, filter_cons, filter_nil.
    case_decide as Hk; simpl; [|by rewrite Hc, Nat.add_0_r].
    subst k. simpl. rewrite Hc. lia.
  - intros k. rewrite !dict_get_set. by case_decide.
  - intros k s r. rewrite dict_get_set. case_decide as Hk; [|apply Hs].
    intros [= <- <-]. by rewrite <-Hk.
Qed.

Lemma tallied_all us :
  tallied us (foldl count_upheld {| counts := []; subjects := [] |} us).
Proof.
  induction us as [|u us IH] using rev_ind.
  { split_and!; [constructor|done..]. }
  rewrite foldl_app. by apply count_upheld_tallied.
Qed.

Definition repeated_key (r : RepeatedUpheld) : string * (string * string) :=
  (subject_kind (repeated_subject r),
   (subject_id (repeated_subject r), UpheldReason_value (repeated_reason r))).

(** What a loop's reports refused again. The rows are exactly the subjects and
    reasons upheld at least twice over all the reports, each with the number of times it
    was, once each, in the order of their kind, identity and reason. *)
Theorem repeated_upheld_spec (reports : list AmendmentReport) :
  let us := mjoin (upheld <$> reports) in
  (∀ s r n, {| repeated_subject := s; repeated_reason := r; repeated_count := n |}
              ∈ repeated_upheld reports ↔ n = occurrences us s r ∧ 2 ≤ n)
  ∧ StronglySorted (λ a b, key_leb (repeated_key a) (repeated_key b) = true
      ∧ repeated_key a ≠ repeated_key b) (repeated_upheld reports).
Proof.
  cbv zeta. unfold repeated_upheld. set (us := mjoin _).
  destruct (tallied_all us) as (Hnd & Hc & Hn & Hs).
  set (t := foldl _ _ _) in *. set (row := λ kc : _ * nat, match _ with Some _ => _ | _ => _ end).
  assert (∀ kc x, row kc = Some x → repeated_key x = kc.1 ∧ repeated_count x = kc.2 ∧ 2 ≤ kc.2)
    as Hrow.
  { intros kc x. unfold row. destruct (dict_get (subjects t) kc.1) as [[s r]|] eqn:E; [|done].
    case_decide; [|done]. intros [= <-]. apply Hs in E. by rewrite E. }
  split.
  - intros s r n. rewrite list_elem_of_omap. unfold occurrences.
    set (k := (subject_kind s, (subject_id s, UpheldReason_value r))).
    assert (length (filter (λ u, upheld_subject u = s ∧ reason u = r) us)
      = default 0 (dict_get (counts t) k)) as ->.
    { rewrite Hc. f_equal. apply list_filter_iff. intros u. symmetry. apply upheld_key_iff. }
    split.
    + intros ([k' n'] & Hin & Hx). destruct (Hrow _ _ Hx) as (Hk & Hnn & H2). cbn in *.
      change (k = k') in Hk. subst k' n'. rewrite elem_of_sort_by in Hin.
      by rewrite (dict_get_NoDup _ _ _ Hnd Hin).
    + intros [-> H2]. destruct (dict_get (counts t) k) as [m|] eqn:E; cbn in *; [|lia].
      exists (k, m). rewrite elem_of_sort_by. split; [by apply dict_get_elem|].
      unfold row. cbn. destruct (dict_get (subjects t) k) as [[s' r']|] eqn:E'.
      * apply Hs in E'. rewrite decide_True by done.
        assert (s' = s ∧ r' = r) as [-> ->]; [|done].
        injection E' as Hk Hi Hr%UpheldReason_value_inj.
        split; [|done]. destruct s, s'; naive_solver.
      * apply Hn in E'. congruence.
  - assert (NoDup (sort_by fst (counts t)).*1) as Hnd'
      by (rewrite sort_by_perm; exact Hnd).
    pose proof (sort_by_sorted fst (counts t)) as Hsort.
    induction Hsort as [|kc l Hl IH Hle]; cbn [omap list_omap]; [constructor|].
    rewrite fmap_cons, NoDup_cons in Hnd'. destruct Hnd' as [Hkc Hnd'].
    destruct (row kc) as [x|] eqn:Hx; [|by apply IH]. constructor; [by apply IH|].
    apply Forall_forall. intros y (kd & Hkd & Hy)%list_elem_of_omap.
    destruct (Hrow _ _ Hx) as [Hkx _], (Hrow _ _ Hy) as [Hky _]. rewrite Hkx, Hky.
    rewrite Forall_forall in Hle. split; [by apply Hle|].
    intros Heq. apply Hkc. rewrite Heq. by apply list_elem_of_fmap_2.
Qed.
