(* ===== verification/RalphLoop.v ===== *)
(** * The quality-gating loop (chains/ralph_loop.py, types/domain/ralph_outcome.py).

    One iteration executes (a session writes code and commits) and evaluates (a session
    grades the commit, what earlier gradings are still worth is read, the cross-offs go
    to the board); the loop goes round until its gate clears, its iterations are spent
    or its trajectory has plateaued. The sessions, git, the tracker and the workspaces
    answer through the records of section "What the world answers"; each is asked once,
    where the code asks. What a node did before it raised is kept: a node returns the
    trace of its effects beside its result. *)

From S2P Require Import Prelude PyStr Tracker Errors FireSpec Criteria Lapse Grading CrossOff.
From S2P Require Import Trajectory Redispatch Amendment.

(** ** Data (types/domain/agent.py, workflow.py, ralph_outcome.py) *)

Record WorkflowIterationEvent := {
  event_iteration : nat;
  event_branch : string;
  event_commit : option string;
  event_verdict : AcceptVerdict;
  evaluation : AcceptanceCriteriaOutput;
  trajectory : LoopTrajectory;
  fan_in : option FanInReport;
}.
#[export] Instance WorkflowIterationEvent_eq_dec : EqDecision WorkflowIterationEvent.
Proof. solve_decision. Defined.

Inductive RalphOutcome :=
| PendingRalphOutcome
| EvaluatedRalphOutcome (event : WorkflowIterationEvent) (roster : list ExecutionCriterion)
| NativeEvaluatedRalphOutcome (event : WorkflowIterationEvent) (roster : list ExecutionCriterion)
    (head_sha : string)
| RefusedRalphOutcome (event : NativeAmendmentEvent)
    (last_iteration : option WorkflowIterationEvent) (roster : list ExecutionCriterion).

(** The receipt's validators: the rows are the roster's, one each, in its order; and a
    committed iteration was graded at its own commit. *)
Definition _same_roster (event : WorkflowIterationEvent) (roster : list ExecutionCriterion) : bool :=
  let expected := (λ c, (criterion_id c, criterion_body c)) <$> roster in
  let actual := (λ r, (result_id r, result_text r)) <$> criteria_results (evaluation event) in
  bool_decide (NoDup expected.*1) && bool_decide (actual = expected).

Definition _same_commit (event : WorkflowIterationEvent) (head_sha : string) : bool :=
  match event_commit event with None => true | Some sha => bool_decide (sha = head_sha) end.

Definition make_evaluated (event : WorkflowIterationEvent) (roster : list ExecutionCriterion) :
    result exn RalphOutcome :=
  raise_if (bool_decide (length roster = 0) || negb (_same_roster event roster))
    (ValidationError "EvaluatedRalphOutcome") (Ok (EvaluatedRalphOutcome event roster)).

Definition make_native_evaluated (event : WorkflowIterationEvent)
    (roster : list ExecutionCriterion) (head_sha : string) : result exn RalphOutcome :=
  raise_if (bool_decide (length roster = 0) || negb (_same_roster event roster)
            || negb (_same_commit event head_sha))
    (ValidationError "NativeEvaluatedRalphOutcome")
    (Ok (NativeEvaluatedRalphOutcome event roster head_sha)).

Definition make_refused (event : NativeAmendmentEvent)
    (last_iteration : option WorkflowIterationEvent) (roster : list ExecutionCriterion) :
    result exn RalphOutcome :=
  raise_if (bool_decide (length (upheld (report event)) = 0))
    (ValidationError "RefusedRalphOutcome")
    (Ok (RefusedRalphOutcome event last_iteration roster)).

Definition outcome_roster (o : RalphOutcome) : list ExecutionCriterion :=
  match o with
  | PendingRalphOutcome => []
  | EvaluatedRalphOutcome _ roster | NativeEvaluatedRalphOutcome _ roster _
  | RefusedRalphOutcome _ _ roster => roster
  end.

(** The fields of the context the loop reads. *)
Record RalphLoopContext := {
  tracker_spec : option TrackerSpec;
  acceptance_criteria : list ExecutionCriterion;
  repo_path : option string;
  feature_branch : string;
  ralph_branch : string;
  work_base_ref : string;
  base_branch : string;
  resumed_head_sha : option string;
  base_stale : bool;
  surface_holder : option string;
  scope : option ScopeRef;
}.

Record RalphLoopState := {
  loop_iteration : nat;
  loop_verdict : AcceptVerdict;
  pending_failures : list CriterionFailure;
  iteration_records : list IterationRecord;
  outcome : RalphOutcome;
  iteration_commit_sha : option string;
  amendment_reports : list AmendmentReport;
  amendment_blocked : bool;
  standing : list CriterionCrossOff;
}.

(** What [run] starts the graph with. *)
Definition initial_state : RalphLoopState := {|
  loop_iteration := 0; loop_verdict := rejected; pending_failures := [];
  iteration_records := []; outcome := PendingRalphOutcome; iteration_commit_sha := None;
  amendment_reports := []; amendment_blocked := false; standing := [] |}.

(** The loop's configuration, and which optional collaborators it was given. *)
Record RalphLoop := {
  max_iterations : Z;
  plateau_window : Z;
  fan_in_max_attempts : Z;
  has_criteria_reader : bool;
  has_amendments : bool;
  has_source : bool;
  has_lane_state : bool;
  has_workspace : bool;
  has_lapse_escalations : bool;
  has_mutation : bool;
  has_evaluator_rulings : bool;
}.

(** ** Effects: what a node puts on the stream and on the board, in order *)

Inductive Effect :=
| SessionEvent
| AmendmentEvent (e : NativeAmendmentEvent)
| IterationEvent (e : WorkflowIterationEvent)
| RulingsRecorded (iteration : nat) (previous : option AcceptanceCriteriaOutput)
    (current : AcceptanceCriteriaOutput)
| CrossOffsWritten (dispatched : list TrackerCriterion) (cross_offs : list CriterionCrossOff)
| LapsesRaised (lapsed : list CriterionCrossOff) (head_sha : string).

(** A node's run so far: its effects, and its value or what it raised. *)
Definition traced (A : Type) : Type := list Effect * result exn A.

#[export] Instance traced_ret : MRet traced := λ A a, ([], Ok a).
#[export] Instance traced_bind : MBind traced := λ A B f m,
  match m.2 with
  | Ok a => (m.1 ++ (f a).1, (f a).2)
  | Err e => (m.1, Err e)
  end.

Definition lift {A} (r : result exn A) : traced A := ([], r).
Definition emit (e : Effect) : traced unit := ([e], Ok tt).
(** A call that writes: what it did is in the trace when it returned. *)
Definition act (answer : result exn unit) (e : Effect) : traced unit :=
  match answer with Ok _ => emit e | Err x => lift (Err x) end.

(** ** What the world answers *)

(** [FireCriteriaReader.read_current]: the Checks of the subject at this moment, read
    with the roster the caller holds. *)
Notation board_reading := (option (list TrackerCriterion) → result exn (list TrackerCriterion)).

(** The last frame of a drained stream; [structured_output] is its payload as the
    response model validates it. *)
Record ResultEvent := {
  session_id : string;
  structured_output : option (result exn AcceptanceCriteriaOutput);
}.

(** One evaluation session: [drained] is the session in the workspace it acquired, with
    the openings it recorded; [tree] the head and dirtiness of that workspace after it,
    and its release; [branch_after] what the loop branch names once it is over. *)
Record AttemptAnswers := {
  board : board_reading;
  drained : result exn (option ResultEvent * bool);
  tree : result exn (string * bool);
  branch_after : result exn string;
}.

Record MutationAnswers := {
  mutant_acquired : result exn unit;
  behaviour_removed : result exn unit;
  mutant_tree : result exn (string * bool);
  mutant_drained : result exn (option ResultEvent);
  mutant_released : result exn unit;
}.

Record BaseAnswers := {
  base_head : result exn string;
  base_acquired : result exn unit;
  base_before : result exn (string * bool);
  base_judged : result exn (list BaseCheckResult);
  base_after : result exn (string * bool);
  base_released : result exn unit;
}.

Record EvaluateAnswers := {
  evaluate_cached : result exn unit;
  head_read : result exn string;
  changeset_read : result exn unit;
  moved : string → result exn ChangesetDigest;
  session_attempts : nat → AttemptAnswers;
  mutation : MutationAnswers;
  branch_after_mutation : result exn string;
  rulings_recorded : result exn unit;
  base_reading : BaseAnswers;
  cross_offs_written : result exn unit;
  lapses_raised : result exn unit;
}.

(** What the implementation session streams, as far as the node reads it. *)
Inductive ExecEvent :=
| AmendmentReported (r : AmendmentReport)
| ResultSeen (commit_sha : option string)
| OtherEvent.

Record ExecuteAnswers := {
  lane_writable : result exn unit;
  execute_board : board_reading;
  execute_cached : result exn unit;
  resumed_read : result exn string;
  guard_ready : result exn unit;
  exec_events : list ExecEvent;
  exec_end : result exn unit;
}.

(** ** Collaborators *)

Definition held_roster (roster : list ExecutionCriterion) : option (list TrackerCriterion) :=
  match omap (λ c, match c with Tracked t => Some t | Validated _ => None end) roster with
  | [] => None
  | held => Some held
  end.

Definition _held (criteria : list ExecutionCriterion) (o : RalphOutcome) :
    option (list TrackerCriterion) := held_roster (criteria ++ outcome_roster o).

Section loop.
Context (self : RalphLoop) (ctx : RalphLoopContext).

Definition current_native_criteria (spec : TrackerSpec) (reader : board_reading)
    (held : option (list TrackerCriterion)) : result exn (list TrackerCriterion) :=
  raise_if (negb (has_criteria_reader self))
    (FireSpecEntryError (spec_subject spec)
      "the current tracker criteria reader is not configured")
    (reader held).

Definition _resolve (answer : result exn string) : result exn string :=
  raise_if (negb (has_source self))
    (NativeWriteRefusalError "Native execution requires its Git source reader")
    match answer with
    | Err (GitSourceReadError _ _ _) =>
        Err (NativeWriteRefusalError "The evaluated native ref cannot be read")
    | r => r
    end.

Definition _evaluation_workspace : result exn unit :=
  raise_if (negb (has_workspace self))
    (NativeWriteRefusalError "Native evaluation requires its workspace provider") (Ok tt).
Definition _lane_writer : result exn unit :=
  raise_if (negb (has_lane_state self))
    (NativeWriteRefusalError "Native execution requires the lane state writer") (Ok tt).
Definition _lapse_escalator : result exn unit :=
  raise_if (negb (has_lapse_escalations self))
    (NativeWriteRefusalError "Native execution requires the lapse escalation writer") (Ok tt).

Definition _lane_binding : result exn unit :=
  match tracker_spec ctx, surface_holder ctx with
  | Some _, Some _ => Ok tt
  | _, _ => Err (NativeWriteRefusalError "The lane state record has no lane and holder to name")
  end.

(** [cwd]: the clone is made available only when no path is given. *)
Definition ensure_available (answer : result exn unit) : result exn unit :=
  match repo_path ctx with Some _ => Ok tt | None => answer end.

(** ** The execute node *)

Definition _require_resumed_head (cached : result exn unit) (answer : result exn string) :
    result exn unit :=
  match resumed_head_sha ctx with
  | None => Err (NativeWriteRefusalError
      "A continued native branch names no head to continue from")
  | Some expected =>
      _ ← ensure_available cached;
      head ← _resolve answer;
      raise_if (negb (bool_decide (head = expected)))
        (NativeWriteRefusalError
          "The continued native branch is not at the head the lane entered on") (Ok tt)
  end.

(** The loop over the session's events: the reports so far, whether the last one
    blocked, the last event that did, and the commit. *)
Record exec_state := {
  exec_reports : list AmendmentReport;
  exec_blocked : bool;
  exec_refusal : option NativeAmendmentEvent;
  exec_commit : option string;
}.

Definition exec_turn (s : exec_state) (e : ExecEvent) : exec_state * Effect :=
  match e with
  | AmendmentReported r =>
      let reports := exec_reports s ++ [r] in
      let event := {| report := r; repeated := repeated_upheld reports |} in
      let blocked := negb (bool_decide (length (upheld r) = 0)) in
      ({| exec_reports := reports; exec_blocked := blocked;
          exec_refusal := if blocked then Some event else exec_refusal s;
          exec_commit := exec_commit s |}, AmendmentEvent event)
  | ResultSeen (Some sha) =>
      ({| exec_reports := exec_reports s; exec_blocked := exec_blocked s;
          exec_refusal := exec_refusal s;
          exec_commit := if decide (sha = "") then exec_commit s else Some sha |}, SessionEvent)
  | ResultSeen None | OtherEvent => (s, SessionEvent)
  end.

Fixpoint exec_stream (s : exec_state) (events : list ExecEvent) : list Effect * exec_state :=
  match events with
  | [] => ([], s)
  | e :: events =>
      let '(s, eff) := exec_turn s e in
      let '(effs, s) := exec_stream s events in (eff :: effs, s)
  end.

Definition last_iteration_of (o : RalphOutcome) : option WorkflowIterationEvent :=
  match o with
  | EvaluatedRalphOutcome event _ | NativeEvaluatedRalphOutcome event _ _ => Some event
  | RefusedRalphOutcome _ last _ => last
  | PendingRalphOutcome => None
  end.

Definition native : bool := match tracker_spec ctx with Some _ => true | None => false end.

(** What a native iteration settles from its wiring before its first read. *)
Definition native_wiring (writable : result exn unit) : result exn unit :=
  raise_if (negb (has_source self))
    (NativeWriteRefusalError "Native execution requires its Git source reader")
  (raise_if (negb (has_amendments self))
    (NativeWriteRefusalError "Native execution requires the precommit amendment owner")
  (_ ← _evaluation_workspace; _ ← _lane_writer; _ ← _lane_binding; writable)).

Definition _execute_node (st : RalphLoopState) (a : ExecuteAnswers) : traced RalphLoopState :=
  _ ← lift (if native then native_wiring (lane_writable a) else Ok tt);
  _ ← lift (match tracker_spec ctx with
            | None => Ok []
            | Some spec => current_native_criteria spec (execute_board a)
                (_held (acceptance_criteria ctx) (outcome st))
            end);
  let iteration := S (loop_iteration st) in
  let is_first := bool_decide (iteration = 1) in
  let cut := is_first && negb (bool_decide (work_base_ref ctx = ralph_branch ctx)) in
  _ ← lift (if is_first && negb cut
            then _require_resumed_head (execute_cached a) (resumed_read a) else Ok tt);
  _ ← lift (if native then guard_ready a else Ok tt);
  let '(effs, s) := exec_stream {| exec_reports := amendment_reports st; exec_blocked := false;
                                   exec_refusal := None; exec_commit := None |}
                      (exec_events a) in
  _ ← (effs, exec_end a);
  refused ← lift (match exec_refusal s with
                  | Some event => if native
                      then Some <$> make_refused event (last_iteration_of (outcome st))
                                      (outcome_roster (outcome st))
                      else Ok None
                  | None => Ok None
                  end);
  mret {|
    loop_iteration := iteration; loop_verdict := loop_verdict st;
    pending_failures := pending_failures st; iteration_records := iteration_records st;
    outcome := default (outcome st) refused;
    iteration_commit_sha := exec_commit s;
    amendment_reports := if native then exec_reports s else amendment_reports st;
    amendment_blocked := if native then exec_blocked s else amendment_blocked st;
    standing := standing st |}.

(** ** One evaluation session *)

(** What a dispatch returned, with what the code carries out of the closure. *)
Record Graded := {
  graded : IterationGrade;
  graded_roster : list ExecutionCriterion;
  graded_in : string;
  graded_output : AcceptanceCriteriaOutput;
  workspace_stood : bool;
}.

Definition session_output (d : option ResultEvent * bool) :
    result exn (string * AcceptanceCriteriaOutput) :=
  match d.1 with
  | Some event =>
      match structured_output event with
      | Some payload => out ← payload; Ok (session_id event, out)
      | None => Err (soft_failure "Evaluator produced no structured output." d.2)
      end
  | None => Err (soft_failure "Evaluator produced no structured output." d.2)
  end.

(** The ids this iteration's session is not asked about. *)
Definition withheld_ids (s : HeldStanding) : list CriterionId :=
  criterion <$> (carried s ++ standing_lapsed s).

Definition evaluate (st : RalphLoopState) (native_ref : option string) (s : HeldStanding)
    (reading : pydict CriterionRef GradedState) (a : AttemptAnswers) : result exn Graded :=
  roster ← match tracker_spec ctx with
           | None => Ok None
           | Some spec => Some <$> current_native_criteria spec (board a)
               (_held (acceptance_criteria ctx) (outcome st))
           end;
  let criteria := match roster with
                  | None => acceptance_criteria ctx
                  | Some snapshot => Tracked <$> snapshot
                  end in
  let for_session := filter (λ c, criterion_id c ∉ withheld_ids s) criteria in
  raise_if (bool_decide (length for_session = 0))
    (NativeWriteRefusalError "The native evaluation has no criterion left to grade")
  (_ ← (if native_ref then _evaluation_workspace else Ok tt);
   result_event ← drained a;
   stood ← match native_ref with
           | None => Ok true
           | Some head => stands ← tree a; Ok (bool_decide (stands = (head, false)))
           end;
   answer ← session_output result_event;
   let '(session, output) := answer in
   _ ← match native_ref with
       | None => Ok tt
       | Some head =>
           now ← _resolve (branch_after a);
           raise_if (negb (bool_decide (now = head)))
             (NativeWriteRefusalError "The native branch changed during evaluation") (Ok tt)
       end;
   output ← match roster with
            | Some snapshot =>
                if decide (length reading = 0) then Ok output
                else iteration_output snapshot (standing st) reading output
            | None => Ok output
            end;
   grade ← grade_iteration criteria output [];
   Ok {| graded := grade; graded_roster := criteria; graded_in := session;
         graded_output := output; workspace_stood := stood |}).

(** ** The readings a grade is qualified by *)

(** [_moved_since]: the digest of what moved since each standing path-bound sha. *)
Definition _moved_since (read : string → result exn ChangesetDigest)
    (prior : list CriterionCrossOff) : result exn (pydict string ChangesetDigest) :=
  let shas := (λ c, graded_sha (evidence c)) <$> filter (λ c,
    state c = passed ∧ path_bound (rederivation_class c) = true) prior in
  mapM (λ sha, digest ← read sha; Ok (sha, digest)) (sort_by (λ sha, sha) (dict_fromkeys shas)).

(** What each carried and each lapsed grading is read as, the lapsed ones last. *)
Definition standing_reading (s : HeldStanding) : pydict CriterionRef GradedState :=
  dict_of (((λ c, (criterion c, counted)) <$> carried s)
           ++ ((λ c, (criterion c, grading_lapsed)) <$> standing_lapsed s)).

Definition surviving_checks (clean mutated : list CriterionResult) : gset CriterionId :=
  passed_ids clean ∩ passed_ids mutated.

(** A workspace is released on every way out; a release that raises replaces the rest. *)
Definition releasing {A} (body : result exn A) (released : result exn unit) : result exn A :=
  match released with Ok _ => body | Err e => Err e end.

(** [MutationSurvivalReader._regrade] and [survivors] (services/mutation_survival.py). *)
Definition _regrade (event : option ResultEvent) : result exn (option AcceptanceCriteriaOutput) :=
  match event ≫= structured_output with
  | None => Ok None
  | Some (Ok output) => Ok (Some output)
  | Some (Err (ValidationError _)) => Ok None
  | Some (Err e) => Err e
  end.

Definition survivors (grade : IterationGrade) (head : string) (a : MutationAnswers) :
    result exn (gset CriterionId) :=
  if decide (passed_ids (results grade) = ∅) then Ok ∅
  else
    _ ← mutant_acquired a;
    mutated ← releasing
      (_ ← behaviour_removed a;
       stands ← mutant_tree a;
       if decide (stands = (head, true)) then event ← mutant_drained a; _regrade event
       else Ok None) (mutant_released a);
    Ok match mutated with
       | Some mutated => surviving_checks (results grade) (criteria_results mutated)
       | None => ∅
       end.

(** [_checks_at_base]: the reading's [require_base], and the refusals it turns into
    one error. *)
Definition require_base (base_sha : string) (stands : result exn (string * bool)) :
    result exn unit :=
  stands ← stands;
  raise_if (negb (bool_decide (stands = (base_sha, false))))
    (BaseReadingUnavailableError (base_branch ctx) "the tree is not the base commit") (Ok tt).

Definition unreadable_as (reason : string) (p : exn → bool) {A} (r : result exn A) : result exn A :=
  match r with
  | Err e => if p e then Err (BaseReadingUnavailableError (base_branch ctx) reason) else Err e
  | Ok a => Ok a
  end.

Definition is_NativeWriteRefusalError (e : exn) : bool :=
  match e with NativeWriteRefusalError _ => true | _ => false end.
Definition is_WorkspaceError (e : exn) : bool :=
  match e with WorkspaceError _ => true | _ => false end.
Definition is_BaseReadingUnavailableError (e : exn) : bool :=
  match e with BaseReadingUnavailableError _ _ => true | _ => false end.
(** [NoStructuredOutputError], its subclass included, or [ValidationError]. *)
Definition is_unusable_answer (e : exn) : bool :=
  match e with
  | NoStructuredOutputError _ | RateLimitedSoftFailureError _ | ValidationError _ => true
  | _ => false
  end.

Definition _checks_at_base (a : BaseAnswers) : result exn (list BaseCheckResult) :=
  base_sha ← unreadable_as "the lane's base ref cannot be read" is_NativeWriteRefusalError
    (_resolve (base_head a));
  unreadable_as "a tree at the base was refused" is_WorkspaceError
    (_ ← _evaluation_workspace;
     _ ← base_acquired a;
     releasing
       (_ ← require_base base_sha (base_before a);
        answers ← unreadable_as "the checks at the base returned no usable answer"
          is_unusable_answer (base_judged a);
        _ ← require_base base_sha (base_after a);
        Ok answers) (base_released a)).

(** [_base_reading]: a reading that could not be taken is no answer at all. *)
Definition _base_reading (a : BaseAnswers) : result exn (pydict CriterionId bool) :=
  match _checks_at_base a with
  | Ok answers => Ok (base_answers answers)
  | Err e => if is_BaseReadingUnavailableError e then Ok [] else Err e
  end.

(** [{**d, **e}] *)
Definition dict_merge {V} (d e : pydict string V) : pydict string V :=
  foldl (λ d kv, dict_set d kv.1 kv.2) d e.

(** ** What an attempt decided, on the board *)

Definition zip_strict {A B} (l : list A) (k : list B) : result exn (list (A * B)) :=
  raise_if (negb (bool_decide (length l = length k)))
    (ValueError "zip() arguments have different lengths") (Ok (zip l k)).

Definition _cross_off (grade : IterationGrade) (dispatched : list ExecutionCriterion)
    (head : string) (session : string) (reasons : pydict CriterionId UndemonstratedReason)
    (iteration : nat) (prior : list CriterionCrossOff)
    (reading : pydict CriterionRef GradedState) (written : result exn unit) :
    traced (list CriterionCrossOff) :=
  _ ← lift _lane_writer;
  roster ← lift (match held_roster dispatched with
                 | Some roster => Ok roster
                 | None => Err (NativeWriteRefusalError
                     "The native evaluation graded no tracker criterion in a session")
                 end);
  cross_offs ← lift (cross_offs_for (results grade) head
    (evaluation_observation session (Z.of_nat iteration)) reasons prior reading);
  _ ← lift (held_rederivation_classes (prior ++ cross_offs));
  pairs ← lift (zip_strict roster cross_offs);
  let decided := filter (λ p, dict_get reading (criterion p.2) ≠ Some counted) pairs in
  _ ← lift _lane_binding;
  _ ← act written (CrossOffsWritten decided.*1 decided.*2);
  mret cross_offs.

(** ** The evaluate node *)

(** What the standing gradings are worth at the head, and how each is read. *)
Definition read_standing (st : RalphLoopState) (native_ref : option string)
    (read : string → result exn ChangesetDigest) :
    result exn (HeldStanding * pydict CriterionRef GradedState) :=
  match native_ref, standing st with
  | Some head, _ :: _ =>
      changesets ← _moved_since read (standing st);
      let s := held_standing (standing st) head changesets (base_stale ctx) in
      Ok (s, standing_reading s)
  | _, _ => Ok (empty_standing, [])
  end.

(** The checks that passed in the mutant tree too, when that reading is taken. *)
Definition mutation_reading (native_ref : option string) (g : Graded) (a : EvaluateAnswers) :
    result exn (gset CriterionId) :=
  match native_ref with
  | Some head =>
      if workspace_stood g && has_mutation self then
        surviving ← survivors (graded g) head (mutation a);
        now ← _resolve (branch_after_mutation a);
        raise_if (negb (bool_decide (now = head)))
          (NativeWriteRefusalError "The native branch changed during the mutation reading")
          (Ok surviving)
      else Ok ∅
  | None => Ok ∅
  end.

(** The grade with what this attempt did not demonstrate withheld from it. *)
Definition withhold (g : Graded) (reasons : pydict CriterionId UndemonstratedReason) :
    result exn IterationGrade :=
  if decide (length reasons = 0) then Ok (graded g)
  else grade_iteration (graded_roster g) (graded_output g) reasons.

(** The passes this attempt read, and their answers at the base. *)
Definition passing_here (grade : IterationGrade) (reading : pydict CriterionRef GradedState) :
    gset CriterionId :=
  filter (λ id, id ∉ dict_keys reading) (passed_ids (results grade)).

Definition base_answers_for (passing : gset CriterionId) (a : BaseAnswers) :
    result exn (pydict CriterionId bool) :=
  if decide (passing = ∅) then Ok [] else _base_reading a.

Definition previous_evaluation (o : RalphOutcome) : option AcceptanceCriteriaOutput :=
  match o with EvaluatedRalphOutcome event _ => Some (evaluation event) | _ => None end.

(** The node up to its verdict: what stands, the dispatch, the mutation reading, and the
    grade with what was not demonstrated withheld. *)
Record Reading := {
  native_ref : option string;
  held_reading : HeldStanding;
  reading : pydict CriterionRef GradedState;
  dispatched : Graded;
  fan_in_holes : option FanInReport;
  grade : IterationGrade;
  undemonstrated_here : pydict CriterionId UndemonstratedReason;
}.

Definition escalates (s : HeldStanding) : bool :=
  negb (bool_decide (length (newly_lapsed s) = 0)).

Definition read_attempt (st : RalphLoopState) (a : EvaluateAnswers) : result exn Reading :=
  _ ← ensure_available (evaluate_cached a);
  ref ← (if native then Some <$> _resolve (head_read a) else Ok None);
  _ ← changeset_read a;
  sr ← read_standing st ref (moved a);
  _ ← (if escalates sr.1 then _lapse_escalator else Ok tt);
  dispatch ← until_permutation
    (λ attempt, evaluate st ref sr.1 sr.2 (session_attempts a attempt))
    (λ g, require_permutation (graded g)) (fan_in_max_attempts self);
  let '(g, unresolved, attempts) := dispatch in
  surviving ← mutation_reading ref g a;
  let reasons := undemonstrated_reasons
    (filter (λ r, result_id r ∉ dict_keys sr.2) (results (graded g)))
    (workspace_stood g) surviving in
  grade ← withhold g reasons;
  Ok {| native_ref := ref; held_reading := sr.1; reading := sr.2; dispatched := g;
        fan_in_holes := (λ _, fan_in_report (graded g) attempts) <$> unresolved;
        grade := grade; undemonstrated_here := reasons |}.

Definition reconciled (x : Reading) : AcceptanceCriteriaOutput :=
  {| criteria_results := results (grade x); output_flags := grade_flags (grade x) |}.

Definition next_records (st : RalphLoopState) (x : Reading) : list IterationRecord :=
  iteration_records st ++ [{|
    iteration := loop_iteration st; record_passed := passed_count (grade x);
    failing_criterion_ids := failure_id <$> failures (grade x);
    commit_sha := iteration_commit_sha st |}].

Definition iteration_event (st : RalphLoopState) (x : Reading) (folded : LoopTrajectory) :
    WorkflowIterationEvent := {|
  event_iteration := loop_iteration st; event_branch := ralph_branch ctx;
  event_commit := iteration_commit_sha st; event_verdict := verdict (grade x);
  evaluation := reconciled x; trajectory := folded; fan_in := fan_in_holes x |}.

(** What follows the grade on the native arm: the base reading, the cross-offs, and the
    question a lapse owes. *)
Definition settle_native (st : RalphLoopState) (head : string) (x : Reading)
    (a : EvaluateAnswers) : traced (list CriterionCrossOff) :=
  let passing := passing_here (grade x) (reading x) in
  at_base ← lift (base_answers_for passing (base_reading a));
  cross_offs ← _cross_off (grade x) (graded_roster (dispatched x)) head
    (graded_in (dispatched x))
    (dict_merge (undemonstrated_here x) (base_reasons (elements passing) at_base))
    (loop_iteration st) (standing st) (reading x) (cross_offs_written a);
  _ ← (if escalates (held_reading x) then
         _ ← lift _lane_binding;
         act (lapses_raised a) (LapsesRaised (newly_lapsed (held_reading x)) head)
       else mret tt);
  mret cross_offs.

Definition record_rulings (st : RalphLoopState) (x : Reading) (a : EvaluateAnswers) :
    traced unit :=
  if negb (bool_decide (scope ctx = None)) && has_evaluator_rulings self then
    act (rulings_recorded a)
      (RulingsRecorded (loop_iteration st) (previous_evaluation (outcome st)) (reconciled x))
  else mret tt.

Definition make_outcome (ref : option string) (event : WorkflowIterationEvent)
    (roster : list ExecutionCriterion) : result exn RalphOutcome :=
  match ref with
  | None => make_evaluated event roster
  | Some head => make_native_evaluated event roster head
  end.

Definition _evaluate_node (st : RalphLoopState) (a : EvaluateAnswers) : traced RalphLoopState :=
  x ← lift (read_attempt st a);
  _ ← lift (raise_if (bool_decide (length (results (grade x)) = 0))
      (ValidationError "AcceptanceCriteriaOutput") (Ok tt));
  _ ← record_rulings st x a;
  folded ← lift (fold_trajectory (next_records st x) (plateau_window self));
  next_standing ← match native_ref x with
                  | None => mret []
                  | Some head => settle_native st head x a
                  end;
  let event := iteration_event st x folded in
  _ ← emit (IterationEvent event);
  o ← lift (make_outcome (native_ref x) event (graded_roster (dispatched x)));
  mret {|
    loop_iteration := loop_iteration st; loop_verdict := verdict (grade x);
    pending_failures := failures (grade x); iteration_records := next_records st x;
    outcome := o; iteration_commit_sha := iteration_commit_sha st;
    amendment_reports := amendment_reports st; amendment_blocked := amendment_blocked st;
    standing := next_standing |}.

(** ** Routing *)

Inductive Node := EXECUTE | EVALUATE | END.
#[export] Instance Node_eq_dec : EqDecision Node.
Proof. solve_decision. Defined.

Definition _should_continue (st : RalphLoopState) : result exn Node :=
  if gate_cleared (loop_verdict st) && negb (amendment_blocked st) then Ok END
  else if (max_iterations self <=? Z.of_nat (loop_iteration st))%Z then Ok END
  else
    folded ← fold_trajectory (iteration_records st) (plateau_window self);
    Ok (if plateaued folded then END else EXECUTE).

Definition _route_after_execute (st : RalphLoopState) : result exn Node :=
  if amendment_blocked st then _should_continue st else Ok EVALUATE.

(** ** The graph, and what [run] does once it is over *)

Record NodeAnswers := { execution : ExecuteAnswers; evaluation_of : EvaluateAnswers }.

Inductive position := At (n : Node) | Raised (e : exn).

Record config := { at_node : position; loop_state : RalphLoopState; trace : list Effect }.

Definition start : config :=
  {| at_node := At EXECUTE; loop_state := initial_state; trace := [] |}.

Definition running (c : config) : bool :=
  match at_node c with At EXECUTE | At EVALUATE => true | At END | Raised _ => false end.

(** One node, routed: the node and where it leads. *)
Definition run_node (c : config) (a : NodeAnswers) : traced (RalphLoopState * Node) :=
  match at_node c with
  | At EXECUTE =>
      st ← _execute_node (loop_state c) (execution a);
      next ← lift (_route_after_execute st); mret (st, next)
  | At EVALUATE =>
      st ← _evaluate_node (loop_state c) (evaluation_of a);
      next ← lift (_should_continue st); mret (st, next)
  | _ => mret (loop_state c, END)
  end.

(** The graph's step when the node is not tried again: its update, or the run's end. *)
Definition advance (c : config) (a : NodeAnswers) : config :=
  if running c then
    let '(effs, r) := run_node c a in
    match r with
    | Ok (st, next) => {| at_node := At next; loop_state := st; trace := trace c ++ effs |}
    | Err e => {| at_node := Raised e; loop_state := loop_state c; trace := trace c ++ effs |}
    end
  else c.

(** The runs of the graph, with what the world answered each node so far. Its retry
    policy may run a node that raised a transient failure again, from the same state;
    how often is the graph's, so any number of times is allowed here. *)
Inductive reached : list NodeAnswers → config → Prop :=
| reached_start : reached [] start
| reached_advance h c a : reached h c → running c = true → reached (h ++ [a]) (advance c a)
| reached_retry h c a effs e :
    reached h c → running c = true → run_node c a = (effs, Err e) → should_retry e = true →
    reached (h ++ [a])
      {| at_node := at_node c; loop_state := loop_state c; trace := trace c ++ effs |}.

Fixpoint drive (c : config) (answers : list NodeAnswers) : config :=
  match answers with [] => c | a :: answers => drive (advance c a) answers end.

(** [RalphLoop.run] past the graph: the barrier a native run passes, and the frames it
    yields when the graph's own stream did not end with the outcome's. *)
Record FinishAnswers := {
  finish_board : board_reading;
  finish_cached : result exn unit;
  finish_head : result exn string;
}.

Definition forwards (e : Effect) : bool :=
  match e with IterationEvent _ | AmendmentEvent _ => true | _ => false end.
Definition forwarded_of (effs : list Effect) : option Effect :=
  last (filter (λ e, forwards e = true) effs).

Definition finish (effs : list Effect) (o : RalphOutcome) (a : FinishAnswers) : traced unit :=
  match tracker_spec ctx with
  | None => mret tt
  | Some spec =>
      current ← lift (current_native_criteria spec (finish_board a)
        (_held (acceptance_criteria ctx) o));
      match o with
      | PendingRalphOutcome | EvaluatedRalphOutcome _ _ =>
          lift (Err (NativeWriteRefusalError "The native loop has no completed outcome"))
      | NativeEvaluatedRalphOutcome event roster head =>
          _ ← lift (raise_if (negb (bool_decide (Tracked <$> current = roster)))
            (NativeWriteRefusalError "Current Checks differ from the saved native evaluation")
            (_ ← ensure_available (finish_cached a);
             now ← _resolve (finish_head a);
             raise_if (negb (bool_decide (now = head)))
               (NativeWriteRefusalError "The evaluated native branch changed")
             (raise_if (negb (bool_decide (event_branch event = ralph_branch ctx)))
               (NativeWriteRefusalError "The saved native evaluation belongs to another branch")
               (Ok tt))));
          match forwarded_of effs with
          | Some (IterationEvent e) => if decide (e = event) then mret tt
                                       else emit (IterationEvent event)
          | _ => emit (IterationEvent event)
          end
      | RefusedRalphOutcome event last _ =>
          match forwarded_of effs with
          | Some (AmendmentEvent e) => if decide (e = event) then mret tt
              else _ ← from_option (λ l, emit (IterationEvent l)) (mret tt) last;
                   emit (AmendmentEvent event)
          | _ => _ ← from_option (λ l, emit (IterationEvent l)) (mret tt) last;
                 emit (AmendmentEvent event)
          end
      end
  end.

End loop.
