(* ===== verification/RalphLoopSpec.v ===== *)
(** * The loop's properties.

    Over every run of the graph of [RalphLoop], retried nodes included: it ends within
    its bound, what stands was demonstrated in this run, a cleared gate is earned, and a
    lapse is asked about once and only after the board took the criterion back. *)

From S2P Require Import Prelude PyStr Tracker Errors FireSpec Criteria Lapse Grading CrossOff.
From S2P Require Import Trajectory Redispatch Amendment RalphLoop.

(** ** Views of a traced run *)

Lemma traced_inv {A B} (m : traced A) (f : A → traced B) effs r :
  (m ≫= f) = (effs, r) →
  (∃ e, m = (effs, Err e) ∧ r = Err e)
  ∨ ∃ l a k, m = (l, Ok a) ∧ f a = (k, r) ∧ effs = l ++ k.
Proof.
  unfold mbind, traced_bind. destruct m as [l [a|e]]; cbn.
  - intros [= <- <-]. right. exists l, a, (f a).1. by destruct (f a).
  - intros [= <- <-]. left. by exists e.
Qed.

Lemma lift_inv {A} (r : result exn A) effs r' : lift r = (effs, r') → effs = [] ∧ r = r'.
Proof. by intros [= <- <-]. Qed.

Lemma mret_inv {A} (a : A) effs r : (mret a : traced A) = (effs, r) → effs = [] ∧ r = Ok a.
Proof. by intros [= <- <-]. Qed.

Lemma traced_act_inv w e effs r :
  act w e = (effs, r) →
  (effs = [e] ∧ r = Ok tt) ∨ (effs = [] ∧ ∃ x, r = Err x).
Proof. destruct w as [[]|x]; intros [= <- <-]; [by left|right; eauto]. Qed.

(** Take one step of a run in hypothesis [H]: [Hm] is the step, or it raised. *)
Ltac tstep H x Hm :=
  let e := fresh "e" in let l := fresh "l" in let k := fresh "k" in let Hr := fresh "Hr" in
  apply traced_inv in H as [(e & Hm & Hr)|(l & x & k & Hm & H & ->)];
  [try match type of Hr with ?r = _ => subst r end|].
(** The same when the step is a lifted result. *)
Ltac tlift H x Hm := tstep H x Hm; apply lift_inv in Hm as [-> Hm].
Ltac tret H := apply mret_inv in H as [-> H]; first [injection H as ->|subst].

(** An effect that touches neither the board's criteria nor its questions. *)
Definition quiet (e : Effect) : Prop :=
  match e with CrossOffsWritten _ _ | LapsesRaised _ _ => False | _ => True end.

Section spec.
Context (self : RalphLoop) (ctx : RalphLoopContext).
Implicit Types (st : RalphLoopState) (c : config).

Lemma exec_stream_quiet s events : Forall quiet (exec_stream s events).1.
Proof.
  revert s; induction events as [|e events IH]; intros s; cbn; [constructor|].
  destruct (exec_turn s e) as [s' eff] eqn:E. specialize (IH s').
  destruct (exec_stream s' events). constructor; [|done].
  destruct e as [r|[sha|]|]; cbn in E; by injection E as <- <-.
Qed.

(** The execute node touches no board state; it moves the iteration on, and the rest of
    the loop's memory stands. *)
Lemma execute_inv st a effs r :
  _execute_node self ctx st a = (effs, r) →
  Forall quiet effs
  ∧ ∀ st', r = Ok st' →
      loop_iteration st' = S (loop_iteration st) ∧ standing st' = standing st
      ∧ iteration_records st' = iteration_records st ∧ loop_verdict st' = loop_verdict st.
Proof.
  unfold _execute_node. intros H.
  tlift H u1 H1; [by split; [constructor|]|].
  tlift H u2 H2; [by split; [constructor|]|].
  tlift H u3 H3; [by split; [constructor|]|].
  tlift H u4 H4; [by split; [constructor|]|].
  pose proof (exec_stream_quiet {| exec_reports := amendment_reports st; exec_blocked := false;
    exec_refusal := None; exec_commit := None |} (exec_events a)) as Hq.
  destruct (exec_stream _ _) as [es s]. cbn in Hq.
  tstep H u5 H5; [injection H5 as <- _; by split|]. injection H5 as <- _.
  tlift H u6 H6; [rewrite app_nil_r; by split|].
  tret H. cbn. rewrite !app_nil_r. split; [done|]. by intros st' [= <-].
Qed.

(** ** Termination *)

(** The iterations the loop may use. *)
Definition iteration_bound : nat := Nat.max 1 (Z.to_nat (max_iterations self)).

(** Why a run of the graph is over. *)
Definition stopped st : Prop :=
  (gate_cleared (loop_verdict st) = true ∧ amendment_blocked st = false)
  ∨ (max_iterations self ≤ Z.of_nat (loop_iteration st))%Z
  ∨ ∃ folded, fold_trajectory (iteration_records st) (plateau_window self) = Ok folded
      ∧ plateaued folded = true.

Lemma should_continue_inv st next :
  _should_continue self st = Ok next →
  (next = END ∧ stopped st)
  ∨ (next = EXECUTE ∧ (Z.of_nat (loop_iteration st) < max_iterations self)%Z).
Proof.
  unfold _should_continue, stopped.
  destruct (gate_cleared (loop_verdict st)), (amendment_blocked st); cbn;
    try (intros [= <-]; left; tauto).
  all: destruct (max_iterations self <=? Z.of_nat (loop_iteration st))%Z eqn:E;
    [apply Z.leb_le in E; intros [= <-]; tauto|apply Z.leb_gt in E].
  all: destruct (fold_trajectory _ _) as [folded|] eqn:Hf; cbn; [|done].
  all: intros [= <-]; destruct (plateaued folded) eqn:Hp; [left|by right].
  all: split; [done|]; right; right; eauto.
Qed.

(** Steps the graph may still take. *)
Definition left_to_run c : nat :=
  match at_node c with
  | At EXECUTE => 2 * (iteration_bound - loop_iteration (loop_state c))
  | At EVALUATE => 2 * (iteration_bound - loop_iteration (loop_state c)) + 1
  | _ => 0
  end.

(** The iteration never passes the bound, and execution only starts below it. *)
Definition within c : Prop :=
  match at_node c with
  | At EXECUTE => loop_iteration (loop_state c) < iteration_bound
  | At END => loop_iteration (loop_state c) ≤ iteration_bound ∧ stopped (loop_state c)
  | At EVALUATE | Raised _ => loop_iteration (loop_state c) ≤ iteration_bound
  end.

Lemma start_within : within start.
Proof. unfold within, start, iteration_bound. cbn. lia. Qed.

Lemma evaluate_memory st a effs st' :
  _evaluate_node self ctx st a = (effs, Ok st') →
  loop_iteration st' = loop_iteration st ∧ amendment_blocked st' = amendment_blocked st.
Proof.
  unfold _evaluate_node. intros H.
  tlift H x H1; [done|]. tlift H u H2; [done|]. tstep H v H3; [done|].
  tlift H folded H4; [done|]. tstep H next H5; [done|]. tstep H w H6; [done|].
  tlift H o H7; [done|]. by tret H.
Qed.

Lemma advance_within c a :
  within c → running c = true →
  within (advance self ctx c a) ∧ left_to_run (advance self ctx c a) < left_to_run c.
Proof.
  intros Hw Hr. unfold advance. rewrite Hr. unfold run_node, within, left_to_run in *.
  unfold running in Hr. destruct (at_node c) as [[]|] eqn:Hn; try done.
  - destruct (st ← _execute_node _ _ _ _; _) as [effs r] eqn:E.
    tstep E st H1; [cbn; lia|]. apply execute_inv in H1 as [_ H1].
    destruct (H1 _ eq_refl) as (Hi & _).
    unfold _route_after_execute in E.
    tlift E next H2; [cbn; lia|]. tret E. cbn. rewrite Hi.
    destruct (amendment_blocked st).
    + apply should_continue_inv in H2 as [[-> Hs]|[-> Hlt]]; [split; [split; [lia|done]|lia]|].
      rewrite Hi in Hlt. unfold iteration_bound in *. lia.
    + injection H2 as <-. lia.
  - destruct (st ← _evaluate_node _ _ _ _; _) as [effs r] eqn:E.
    tstep E st H1; [cbn; lia|]. apply evaluate_memory in H1 as [Hi Hb].
    tlift E next H2; [cbn; lia|]. tret E. cbn.
    apply should_continue_inv in H2 as [[-> Hs]|[-> Hlt]]; rewrite Hi in *; cbn.
    + split; [by split|lia].
    + unfold iteration_bound in *. lia.
Qed.

Lemma reached_within h c : reached self ctx h c → within c.
Proof.
  induction 1 as [|h c a _ IH Hr|h c a effs e _ IH Hr Hn _]; [apply start_within| |done].
  by apply advance_within.
Qed.

Lemma drive_ends c answers :
  within c → left_to_run c ≤ length answers → running (drive self ctx c answers) = false.
Proof.
  revert c. induction answers as [|a answers IH]; intros c Hw Hlen; cbn.
  - unfold left_to_run, within, running in *. destruct (at_node c) as [[]|]; cbn in *; done || lia.
  - destruct (running c) eqn:Hr.
    + destruct (advance_within c a Hw Hr). apply IH; [done|cbn in Hlen; lia].
    + unfold advance. rewrite Hr. apply IH; [done|].
      unfold left_to_run, running in *. destruct (at_node c) as [[]|]; done || lia.
Qed.

Lemma left_to_run_bound c : left_to_run c ≤ 2 * iteration_bound + 1.
Proof. unfold left_to_run. destruct (at_node c) as [[]|]; lia. Qed.

(** C26. The loop ends. Whatever the world answers and however often a transient failure
    makes the graph run a node again, the loop never starts an iteration past
    [max_iterations] (one at least); from any state of it, as many node executions as two
    per iteration and one more end it; and when the graph itself ends it, the gate has
    cleared with nothing refused, the iterations are spent, or the trajectory has
    plateaued. *)
Theorem loop_terminates h c :
  reached self ctx h c →
  loop_iteration (loop_state c) ≤ iteration_bound
  ∧ (at_node c = At END → stopped (loop_state c))
  ∧ ∀ answers, 2 * iteration_bound + 1 ≤ length answers →
      running (drive self ctx c answers) = false.
Proof.
  intros Hw%reached_within. split_and!.
  - unfold within in Hw. destruct (at_node c) as [[]|]; lia || by destruct Hw.
  - intros Hat. unfold within in Hw. rewrite Hat in Hw. apply Hw.
  - intros answers Hlen. apply drive_ends; [done|]. pose proof (left_to_run_bound c). lia.
Qed.

(** ** What an evaluation read *)

(** The mutant tree stood at the head with changes, and its session answered [m]. *)
Definition mutant_read (a : MutationAnswers) (head : string) (m : AcceptanceCriteriaOutput) : Prop :=
  mutant_acquired a = Ok tt ∧ behaviour_removed a = Ok tt ∧ mutant_tree a = Ok (head, true)
  ∧ ∃ event, mutant_drained a = Ok (Some event) ∧ structured_output event = Some (Ok m).

(** A session of this evaluation passed [id], once, over a clean tree at [head], which
    the loop branch still named afterwards; and a mutation reading, where the loop takes
    one, did not pass it again. *)
Definition demonstrated_by (a : EvaluateAnswers) (head : string) (id : CriterionId) : Prop :=
  _resolve self (head_read a) = Ok head
  ∧ ∃ n event limited out answer, let t := session_attempts a n in
      drained t = Ok (Some event, limited) ∧ structured_output event = Some (Ok out)
      ∧ tree t = Ok (head, false) ∧ _resolve self (branch_after t) = Ok head
      ∧ answers_to result_id (criteria_results out) id = [answer]
      ∧ result_passed answer = true
      ∧ (has_mutation self = true → ∀ m, mutant_read (mutation a) head m →
           id ∉ passed_ids (criteria_results m)).

(** And its check failed at the lane's base, where it was answered once. *)
Definition demonstrated_in (a : EvaluateAnswers) (head : string) (id : CriterionId) : Prop :=
  demonstrated_by a head id
  ∧ ∃ answers r, _checks_at_base self ctx (base_reading a) = Ok answers
      ∧ answers_to base_criterion answers id = [r] ∧ base_satisfied r = false.

Lemma session_output_ok d session out :
  session_output d = Ok (session, out) →
  ∃ event, d.1 = Some event ∧ structured_output event = Some (Ok out).
Proof.
  unfold session_output. destruct d as [[event|] limited]; cbn; [|done].
  destruct (structured_output event) as [payload|] eqn:Hs; [|done].
  intros (out' & -> & [= _ ->])%bind_ok. by exists event.
Qed.

(** One native dispatch that graded. *)
Lemma evaluate_inv st spec head s reading a g :
  tracker_spec ctx = Some spec →
  evaluate self ctx st (Some head) s reading a = Ok g →
  ∃ snapshot event limited out,
    board a (_held (acceptance_criteria ctx) (outcome st)) = Ok snapshot
    ∧ graded_roster g = Tracked <$> snapshot
    ∧ drained a = Ok (Some event, limited) ∧ structured_output event = Some (Ok out)
    ∧ (workspace_stood g = true → tree a = Ok (head, false))
    ∧ _resolve self (branch_after a) = Ok head
    ∧ (if decide (length reading = 0) then graded_output g = out
       else iteration_output snapshot (standing st) reading out = Ok (graded_output g))
    ∧ grade_iteration (graded_roster g) (graded_output g) [] = Ok (graded g).
Proof.
  intros Hspec. unfold evaluate. rewrite Hspec.
  intros (roster & Hroster & H)%bind_ok. cbn in H.
  destruct (current_native_criteria _ _ _ _) as [snapshot|] eqn:Hsnap; cbn in Hroster; [|done].
  injection Hroster as <-. apply raise_if_ok in Hsnap as [_ Hsnap].
  apply raise_if_ok in H as [_ H].
  apply bind_ok in H as (? & _ & H). apply bind_ok in H as (d & Hd & H).
  apply bind_ok in H as (stood & Hstood & H). apply bind_ok in H as ([session out] & Hout & H).
  apply bind_ok in H as (? & Hbranch & H). apply bind_ok in H as (output & Hio & H).
  apply bind_ok in H as (grade & Hgrade & [= <-]). cbn.
  apply session_output_ok in Hout as (event & Hev & Hpay).
  exists snapshot, event, d.2, out. split_and!; try done.
  - rewrite Hd. destruct d; cbn in Hev; by subst.
  - apply bind_ok in Hstood as (stands & -> & [= <-]). by intros ->%bool_decide_eq_true.
  - apply bind_ok in Hbranch as (now & Hnow & [Hh _]%raise_if_ok).
    apply negb_false_iff, bool_decide_eq_true in Hh. by subst.
  - case_decide; [by injection Hio|done].
Qed.

(** The node's verdict, with the dispatch it rests on. *)
Record verdict_of st (a : EvaluateAnswers) (head : string) (x : Reading) : Prop := {
  vo_ref : native_ref x = Some head;
  vo_head : _resolve self (head_read a) = Ok head;
  vo_standing : read_standing ctx st (Some head) (moved a) = Ok (held_reading x, reading x);
  vo_dispatch : ∃ n, evaluate self ctx st (Some head) (held_reading x) (reading x)
                       (session_attempts a n) = Ok (dispatched x);
  vo_mutation : ∃ surviving,
    mutation_reading self (Some head) (dispatched x) a = Ok surviving
    ∧ undemonstrated_here x = undemonstrated_reasons
        (filter (λ r, result_id r ∉ dict_keys (reading x)) (results (graded (dispatched x))))
        (workspace_stood (dispatched x)) surviving;
  vo_grade : withhold (dispatched x) (undemonstrated_here x) = Ok (grade x);
}.

Lemma read_attempt_inv st spec a x :
  tracker_spec ctx = Some spec → read_attempt self ctx st a = Ok x →
  ∃ head, verdict_of st a head x.
Proof.
  intros Hspec. unfold read_attempt, native. rewrite Hspec.
  intros (? & _ & H)%bind_ok. apply bind_ok in H as (ref & Href & H).
  destruct (_resolve self (head_read a)) as [head|] eqn:Hhead; cbn in Href; [|done].
  injection Href as <-.
  apply bind_ok in H as (? & _ & H). apply bind_ok in H as ([s reading] & Hs & H).
  apply bind_ok in H as (? & _ & H). apply bind_ok in H as ([[g un] n] & Hd & H). cbn in H.
  apply bind_ok in H as (surviving & Hm & H). apply bind_ok in H as (grade & Hg & [= <-]).
  apply until_permutation_ok in Hd as [Hd _].
  exists head. split; cbn; try done; eauto.
Qed.

(** ** What still stood *)

(** A standing pass that counts at the head: its class is path-bound, its base is not
    stale, and nothing it exercised has moved. *)
Definition still_counts st (head : string) (y : CriterionCrossOff) : Prop :=
  y ∈ standing st ∧ state y = passed ∧ path_bound (rederivation_class y) = true
  ∧ ∃ changesets, worth head changesets (base_stale ctx) y = counted.

Lemma read_standing_inv st head read s reading :
  read_standing ctx st (Some head) read = Ok (s, reading) →
  reading = standing_reading s
  ∧ ∃ changesets, s = held_standing (standing st) head changesets (base_stale ctx).
Proof.
  unfold read_standing. destruct (standing st) as [|y prior] eqn:Hst.
  - intros [= <- <-]. split; [done|]. by exists [].
  - intros (changesets & _ & [= <- <-])%bind_ok. split; [done|]. by exists changesets.
Qed.

Lemma standing_reading_get s id v :
  dict_get (standing_reading s) id = Some v →
  ∃ y, criterion y = id ∧ (v = counted ∧ y ∈ carried s ∨ v = grading_lapsed ∧ y ∈ standing_lapsed s).
Proof.
  unfold standing_reading. intros Hv%dict_of_get.
  apply elem_of_app in Hv as [(y & [= -> ->] & Hy)%list_elem_of_fmap
    |(y & [= -> ->] & Hy)%list_elem_of_fmap]; exists y; tauto.
Qed.

Lemma held_standing_elem prior head changesets stale y :
  let s := held_standing prior head changesets stale in
  (y ∈ carried s ↔ y ∈ prior ∧ placed head changesets stale y = Carries)
  ∧ (y ∈ standing_lapsed s ↔ y ∈ prior
       ∧ (placed head changesets stale y = StaysLapsed ∨ placed head changesets stale y = LapsesNow))
  ∧ (y ∈ newly_lapsed s ↔ y ∈ prior ∧ placed head changesets stale y = LapsesNow).
Proof. cbv zeta. rewrite held_standing_placed. cbn. rewrite !list_elem_of_filter. tauto. Qed.

Lemma reading_keys st head read s reading id :
  read_standing ctx st (Some head) read = Ok (s, reading) →
  id ∈ dict_keys reading → id ∈ criterion <$> standing st.
Proof.
  intros (-> & changesets & ->)%read_standing_inv (v & Hv)%dict_get_is_Some.
  apply standing_reading_get in Hv as (y & <- & Hy). apply list_elem_of_fmap_2.
  pose proof (held_standing_elem (standing st) head changesets (base_stale ctx) y)
    as (Hc & Hl & _). destruct Hy as [[_ Hy%Hc]|[_ Hy%Hl]]; tauto.
Qed.

Lemma reading_counted st head read s reading id :
  read_standing ctx st (Some head) read = Ok (s, reading) →
  dict_get reading id = Some counted →
  ∃ y, criterion y = id ∧ still_counts st head y.
Proof.
  intros (-> & changesets & ->)%read_standing_inv
    (y & <- & [[_ Hy]|[? _]])%standing_reading_get; [|done].
  exists y. split; [done|].
  apply (held_standing_elem (standing st) head changesets (base_stale ctx) y) in Hy as [Hin Hp].
  unfold placed in Hp. repeat case_decide; try done. unfold still_counts. naive_solver.
Qed.

(** ** What a passing row says *)

Lemma withhold_grade g reasons grade :
  grade_iteration (graded_roster g) (graded_output g) [] = Ok (graded g) →
  withhold g reasons = Ok grade →
  grade_iteration (graded_roster g) (graded_output g) reasons = Ok grade.
Proof.
  intros Hg. unfold withhold. case_decide as Hr; [|done]. intros [= <-].
  by apply nil_length_inv in Hr as ->.
Qed.

Lemma undemonstrated_reasons_get rs stood surviving id :
  id ∈ result_id <$> rs →
  dict_get (undemonstrated_reasons rs stood surviving) id = None →
  stood = true ∧ id ∉ surviving.
Proof.
  intros Hin Hn%dict_get_None. unfold undemonstrated_reasons in Hn.
  destruct stood; cbn [negb] in Hn; rewrite dict_of_keys, <-list_fmap_compose in Hn; [|done].
  split; [done|]. intros Hs. apply Hn.
  apply list_elem_of_fmap in Hin as (r & -> & Hr). apply list_elem_of_fmap. exists r.
  split; [done|]. by apply list_elem_of_filter.
Qed.

Lemma mutation_read_passed g a head surviving m id :
  mutation_reading self (Some head) g a = Ok surviving →
  workspace_stood g = true → has_mutation self = true →
  mutant_read (mutation a) head m → id ∈ passed_ids (results (graded g)) →
  id ∉ surviving → id ∉ passed_ids (criteria_results m).
Proof.
  unfold mutation_reading. intros H Hst Hm Hread Hid Hs. rewrite Hst, Hm in H. cbn in H.
  apply bind_ok in H as (sv & Hsv & (now & _ & [_ [= ->]]%raise_if_ok)%bind_ok).
  destruct Hread as (H1 & H2 & H3 & event & H4 & H5). unfold survivors, releasing in Hsv.
  rewrite H1, H2, H3 in Hsv. cbn in Hsv. case_decide as He; [set_solver|].
  rewrite decide_True in Hsv by done. rewrite H4 in Hsv. cbn in Hsv.
  unfold _regrade in Hsv. cbn in Hsv. rewrite H5 in Hsv.
  destruct (mutant_released (mutation a)); cbn in Hsv; [|done]. injection Hsv as <-.
  unfold surviving_checks in Hs. set_solver.
Qed.

Lemma passed_ids_elem rs id :
  id ∈ passed_ids rs ↔ ∃ r, r ∈ rs ∧ result_id r = id ∧ result_passed r = true.
Proof.
  unfold passed_ids. rewrite elem_of_list_to_set, list_elem_of_fmap.
  setoid_rewrite list_elem_of_filter. naive_solver.
Qed.

Lemma roster_ids (snapshot : list TrackerCriterion) :
  criterion_id <$> (Tracked <$> snapshot) = tracked_id <$> snapshot.
Proof. by rewrite <-list_fmap_compose. Qed.

(** The one answer to [t] in what was graded is the session's own, or a counted pass. *)
Lemma session_answer st head read s reading snapshot out output t ans :
  read_standing ctx st (Some head) read = Ok (s, reading) →
  NoDup (tracked_id <$> snapshot) → t ∈ snapshot →
  (if decide (length reading = 0) then output = out
   else iteration_output snapshot (standing st) reading out = Ok output) →
  answers_to result_id (criteria_results output) (tracked_id t) = [ans] →
  result_passed ans = true →
  dict_get reading (tracked_id t) = Some counted
  ∨ dict_get reading (tracked_id t) = None
    ∧ answers_to result_id (criteria_results out) (tracked_id t) = [ans].
Proof.
  intros Hst Hnd Ht Hout Hans Hp. destruct (decide (length reading = 0)) as [Hz|_].
  { apply nil_length_inv in Hz as ->. subst out. by right. }
  destruct (iteration_output_reads snapshot (standing st) reading out Hnd)
    as (rows & Heq & Hwith & Hkeep); [intros id; by eapply reading_keys|].
  rewrite Heq in Hout. apply raise_if_ok in Hout as [_ [= <-]]. cbn [criteria_results] in Hans.
  destruct (dict_get reading (tracked_id t)) as [v|] eqn:Hv.
  - left. destruct (Hwith t v Ht Hv) as (prior & row & _ & _ & Hrow & Hiff & _).
    rewrite Hrow in Hans. injection Hans as ->. by apply Hiff in Hp as ->.
  - right. split; [done|]. rewrite <-Hkeep; [done|]. by intros c _ _.
Qed.

(** A row a grade with nothing withheld passes. *)
Lemma demonstrated_passed criteria output grade t :
  grade_iteration criteria output [] = Ok grade → Tracked t ∈ criteria →
  (∃ ans, answers_to result_id (criteria_results output) (tracked_id t) = [ans]
    ∧ result_passed ans = true) →
  tracked_id t ∈ passed_ids (results grade).
Proof.
  intros (-> & _ & _)%grade_iteration_ok Ht (ans & Hans & Hp). apply passed_ids_elem.
  eexists. rewrite grade_row_id. split_and!; [by apply list_elem_of_fmap_2|done|].
  apply (grade_row_passed criteria); [done|]. by exists ans.
Qed.

(** A criterion the grade demonstrates was demonstrated in this evaluation, unless the
    reading counted an earlier pass of it. *)
Lemma demonstrated_here st spec a head x t :
  tracker_spec ctx = Some spec → verdict_of st a head x →
  NoDup (criterion_id <$> graded_roster (dispatched x)) →
  Tracked t ∈ graded_roster (dispatched x) →
  demonstrated (graded_output (dispatched x)) (undemonstrated_here x) (Tracked t) →
  dict_get (reading x) (tracked_id t) = Some counted
  ∨ dict_get (reading x) (tracked_id t) = None ∧ demonstrated_by a head (tracked_id t).
Proof.
  intros Hspec [Href Hhead Hst [n Hn] [surviving [Hmut Hund]] Hgrade] Hnd Ht (ans & Hans & Hp & Hwh).
  eapply evaluate_inv in Hn as (snapshot & event & limited & out & Hboard & Hros & Hdr & Hpay
    & Htree & Hbr & Hout & Hgr); [|done].
  cbn [criterion_id] in Hans, Hwh.
  assert (t ∈ snapshot) as Hts.
  { rewrite Hros in Ht. by apply list_elem_of_fmap in Ht as (t' & [= ->] & ?). }
  rewrite Hros, roster_ids in Hnd.
  destruct (session_answer _ _ _ _ _ snapshot out _ t ans Hst Hnd Hts Hout Hans Hp)
    as [?|[Hno Hans']]; [by left|].
  right. split; [done|]. split; [done|].
  exists n, event, limited, out, ans.
  destruct (undemonstrated_reasons_get
    (filter (λ r, result_id r ∉ dict_keys (reading x)) (results (graded (dispatched x))))
    (workspace_stood (dispatched x)) surviving (tracked_id t)) as [Hstood Hsurv].
  { assert (tracked_id t ∈ result_id <$> results (graded (dispatched x))) as Hi.
    { rewrite (grade_iteration_ids _ _ _ _ Hgr), Hros, roster_ids. by apply list_elem_of_fmap_2. }
    apply list_elem_of_fmap in Hi as (r0 & Hid & Hr0). rewrite Hid.
    apply list_elem_of_fmap_2, list_elem_of_filter. rewrite <-Hid. by rewrite <-dict_get_None. }
  { by rewrite <-Hund. }
  split_and!; try done; [by apply Htree|].
  intros Hm m Hread. eapply mutation_read_passed; try done.
  eapply demonstrated_passed; [done..|]. by exists ans.
Qed.

(** ** What is written *)

Lemma dict_merge_get {V} (d e : pydict string V) k :
  NoDup (dict_keys e) →
  dict_get (dict_merge d e) k
  = match dict_get e k with Some v => Some v | None => dict_get d k end.
Proof.
  unfold dict_merge. revert d; induction e as [|[j v] e IH]; intros d; [done|].
  cbn [dict_keys fmap list_fmap foldl fst snd]. rewrite NoDup_cons. intros [Hj Hnd].
  rewrite IH by done. cbn [dict_get]. rewrite dict_get_set.
  destruct (decide (j = k)) as [->|Hne]; [|done].
  apply dict_get_None in Hj. unfold dict_keys in Hj. by rewrite Hj.
Qed.

Lemma base_reasons_NoDup passing at_base : NoDup (dict_keys (base_reasons passing at_base)).
Proof.
  unfold base_reasons.
  enough (∀ d, NoDup (dict_keys d) → NoDup (dict_keys (foldl (λ reasons id,
    match base_reason at_base id with
    | Some reason => dict_set reasons id reason | None => reasons end) d passing))) as H
    by (apply H; constructor).
  induction passing as [|id passing IH]; intros d Hd; [done|]. apply IH.
  destruct (base_reason at_base id); [by apply dict_set_NoDup|done].
Qed.

Lemma elem_of_zip_r {A B} (l : list A) (k : list B) y :
  length l = length k → y ∈ k ↔ ∃ x, (x, y) ∈ zip l k.
Proof.
  intros Hlen. rewrite <-(snd_zip l k) at 1 by lia. rewrite list_elem_of_fmap. split.
  - intros ([x y'] & -> & H). by exists x.
  - intros [x H]. by exists (x, y).
Qed.

Definition cross_offs_of (st : RalphLoopState) (head : string) (x : Reading)
    (at_base : pydict CriterionId bool) : result exn (list CriterionCrossOff) :=
  cross_offs_for (results (grade x)) head
    (evaluation_observation (graded_in (dispatched x)) (Z.of_nat (loop_iteration st)))
    (dict_merge (undemonstrated_here x)
      (base_reasons (elements (passing_here (grade x) (reading x))) at_base))
    (standing st) (reading x).

(** The cross-offs the node decided: all but those whose grading still counts. *)
Definition decided (x : Reading) (cs ws : list CriterionCrossOff) : Prop :=
  ∀ y, y ∈ ws ↔ y ∈ cs ∧ dict_get (reading x) (criterion y) ≠ Some counted.

Lemma settle_inv st head x a effs r :
  settle_native self ctx st head x a = (effs, r) →
  (effs = [] ∧ ∃ e, r = Err e)
  ∨ ∃ at_base cs ds ws,
      base_answers_for self ctx (passing_here (grade x) (reading x)) (base_reading a) = Ok at_base
      ∧ cross_offs_of st head x at_base = Ok cs ∧ decided x cs ws
      ∧ ((∃ e, r = Err e ∧ effs = [CrossOffsWritten ds ws])
         ∨ r = Ok cs ∧ effs = CrossOffsWritten ds ws ::
             (if escalates (held_reading x) then [LapsesRaised (newly_lapsed (held_reading x)) head]
              else [])).
Proof.
  unfold settle_native. cbv zeta. intros H.
  tlift H at_base Hb; [left; by eauto|]. tstep H cs Hc.
  { left. revert Hc. unfold _cross_off. intros H.
    tlift H u1 H1; [by eauto|]. tlift H u2 H2; [by eauto|]. tlift H u3 H3; [by eauto|].
    tlift H u4 H4; [by eauto|]. tlift H u5 H5; [by eauto|]. tlift H u6 H6; [by eauto|].
    tstep H u7 H7; [apply traced_act_inv in H7 as [[_ ?]|[-> _]]; [done|by eauto]|].
    by apply mret_inv in H as [_ ?]. }
  right. revert Hc. unfold _cross_off. intros H'.
  tlift H' u1 H1; [done|]. tlift H' roster H2; [done|]. tlift H' cs' H3; [done|].
  tlift H' u4 H4; [done|]. tlift H' pairs H5; [done|]. tlift H' u6 H6; [done|].
  tstep H' u7 H7; [done|]. tret H'. apply traced_act_inv in H7 as [[-> _]|[_ [? ?]]]; [|done].
  apply raise_if_ok in H5 as [Hlen [= <-]].
  apply negb_false_iff, bool_decide_eq_true in Hlen.
  set (pairs := filter (λ p, dict_get (reading x) (criterion p.2) ≠ Some counted) (zip roster cs')).
  exists at_base, cs', pairs.*1, pairs.*2. split_and!; [done|exact H3| |].
  { intros y. unfold pairs. rewrite list_elem_of_fmap, (elem_of_zip_r roster) by done.
    setoid_rewrite list_elem_of_filter. cbn. split.
    - intros ([t y'] & -> & Hy & Hin). split; [by exists t|done].
    - intros [[t Ht] Hy]. by exists (t, y). }
  destruct (escalates (held_reading x)).
  - tstep H u8 H8.
    + left. exists e. split; [done|]. revert H8. intros H8. tlift H8 u9 H9; [done|].
      apply traced_act_inv in H8 as [[_ ?]|[-> _]]; done.
    + tret H. right. split; [done|]. tlift H8 u9 H9; [done|].
      by apply traced_act_inv in H8 as [[-> _]|[_ [? ?]]].
  - tstep H u8 H8; [done|]. tret H. right. apply mret_inv in H8 as [-> _]. done.
Qed.

Lemma record_rulings_quiet st x a effs r :
  record_rulings self ctx st x a = (effs, r) → Forall quiet effs.
Proof.
  unfold record_rulings. case_match.
  - intros [[-> _]|[-> _]]%traced_act_inv; by repeat constructor.
  - intros [-> _]%mret_inv. constructor.
Qed.

(** The receipt an evaluation leaves, on the native arm. *)
Definition receipt st (head : string) (x : Reading) (cs : list CriterionCrossOff)
    (event : WorkflowIterationEvent) (st' : RalphLoopState) : Prop :=
  outcome st' = NativeEvaluatedRalphOutcome event (graded_roster (dispatched x)) head
  ∧ standing st' = cs ∧ loop_verdict st' = verdict (grade x)
  ∧ evaluation event = reconciled x
  ∧ _same_roster event (graded_roster (dispatched x)) = true.

Lemma evaluate_node_inv st spec a effs r :
  tracker_spec ctx = Some spec → _evaluate_node self ctx st a = (effs, r) →
  (Forall quiet effs ∧ ∃ e, r = Err e)
  ∨ ∃ head x pre k rs,
      verdict_of st a head x ∧ Forall quiet pre ∧ settle_native self ctx st head x a = (k, rs)
      ∧ match rs with
        | Err e => r = Err e ∧ effs = pre ++ k
        | Ok cs => ∃ event, effs = pre ++ k ++ [IterationEvent event]
            ∧ ((∃ m, r = Err (ValidationError m)) ∨ ∃ st', r = Ok st' ∧ receipt st head x cs event st')
        end.
Proof.
  intros Hspec. unfold _evaluate_node. intros H.
  tlift H x Hx; [left; by eauto|]. eapply read_attempt_inv in Hx as (head & Hx); [|done].
  tlift H u1 H1; [left; by eauto|]. tstep H u2 H2.
  { left. apply record_rulings_quiet in H2. by eauto. }
  apply record_rulings_quiet in H2.
  tlift H folded H3; [left; rewrite app_nil_r; cbn; by eauto|].
  rewrite (vo_ref _ _ _ _ Hx) in H. right.
  tstep H cs Hcs; [exists head, x, l, k0, (Err e); by cbn|].
  exists head, x, l, l0, (Ok cs). split_and!; [done..|]. cbn [app].
  set (event := iteration_event ctx st x folded) in *. exists event.
  tstep H u3 H4; [done|]. injection H4 as <-. unfold make_outcome, make_native_evaluated in H.
  tlift H o Ho.
  - split; [done|]. left. destruct (_ || _); cbn in Ho; [|done]. injection Ho as <-. by eexists.
  - tret H. rewrite app_nil_r. split; [done|]. right. eexists. split; [reflexivity|].
    apply raise_if_ok in Ho as [Hv [= <-]].
    apply orb_false_iff in Hv as [[_ Hr]%orb_false_iff _]. apply negb_false_iff in Hr. by split.
Qed.

Lemma evaluate_node_authored st a effs r :
  tracker_spec ctx = None → _evaluate_node self ctx st a = (effs, r) →
  Forall quiet effs ∧ ∀ st', r = Ok st' → standing st' = [].
Proof.
  intros Hspec. unfold _evaluate_node. intros H.
  tlift H x Hx; [by split; [constructor|]|].
  assert (native_ref x = None) as Href.
  { revert Hx. unfold read_attempt, native. rewrite Hspec.
    intros (? & _ & (? & [= <-] & (? & _ & ([s' rd] & _ & H')%bind_ok)%bind_ok)%bind_ok)%bind_ok.
    apply bind_ok in H' as (? & _ & H'). apply bind_ok in H' as ([[g un] n] & _ & H').
    apply bind_ok in H' as (? & _ & H'). by apply bind_ok in H' as (? & _ & [= <-]). }
  tlift H u1 H1; [by split; [constructor|]|]. tstep H u2 H2.
  { apply record_rulings_quiet in H2. by split. }
  apply record_rulings_quiet in H2.
  tlift H folded H3; [rewrite app_nil_r; by split|].
  rewrite Href in H. tstep H next H4; [done|]. apply mret_inv in H4 as [-> [= <-]].
  tstep H u3 H5; [done|]. injection H5 as <-.
  tlift H o Ho; [|tret H].
  all: cbn; rewrite ?app_nil_r; split;
    [apply Forall_app; split; [done|by repeat constructor]|intros st' [= <-]; done].
Qed.

(** ** The gradings that stand *)

(** What the loop remembers holds together, and every pass in it was demonstrated by an
    evaluation of this run, at the commit it names. *)
Definition stands_on (h : list NodeAnswers) st : Prop :=
  Forall cross_off_valid (standing st) ∧ NoDup (criterion <$> standing st)
  ∧ ∀ y, y ∈ standing st → state y = passed →
      ∃ a, a ∈ h ∧ demonstrated_in (evaluation_of a) (graded_sha (evidence y)) (criterion y).

Lemma crosses_off_ids head obs reasons prior reading (rs : list CriterionResult) cs :
  Forall2 (crosses_off head obs reasons prior reading) rs cs →
  criterion <$> cs = result_id <$> rs.
Proof. induction 1 as [|r y rs cs [Hid _] _ IH]; [done|]. cbn. by rewrite Hid, IH. Qed.

Lemma same_roster_NoDup event roster :
  _same_roster event roster = true → NoDup (criterion_id <$> roster).
Proof.
  unfold _same_roster. rewrite andb_true_iff, !bool_decide_eq_true. intros [Hnd _].
  by rewrite <-list_fmap_compose in Hnd.
Qed.

Lemma verdict_rows st spec a head x :
  tracker_spec ctx = Some spec → verdict_of st a head x →
  grade_iteration (graded_roster (dispatched x)) (graded_output (dispatched x))
    (undemonstrated_here x) = Ok (grade x)
  ∧ ∃ snapshot, graded_roster (dispatched x) = Tracked <$> snapshot.
Proof.
  intros Hspec [_ _ _ [n Hn] _ Hg].
  eapply evaluate_inv in Hn as (snapshot & ? & ? & ? & _ & Hros & _ & _ & _ & _ & _ & Hgr); [|done].
  split; [by eapply withhold_grade|by exists snapshot].
Qed.

(** A fresh pass of this evaluation. *)
Lemma fresh_pass st spec a head x at_base r :
  tracker_spec ctx = Some spec → verdict_of st a head x →
  NoDup (criterion_id <$> graded_roster (dispatched x)) →
  base_answers_for self ctx (passing_here (grade x) (reading x)) (base_reading a) = Ok at_base →
  r ∈ results (grade x) → result_passed r = true → dict_get (reading x) (result_id r) = None →
  dict_get (dict_merge (undemonstrated_here x)
    (base_reasons (elements (passing_here (grade x) (reading x))) at_base)) (result_id r) = None →
  demonstrated_in a head (result_id r).
Proof.
  intros Hspec Hx Hnd Hbase Hr Hp Hno Hreasons.
  destruct (verdict_rows _ _ _ _ _ Hspec Hx) as [Hg [snapshot Hros]].
  assert (result_id r ∈ passing_here (grade x) (reading x)) as Hpass.
  { unfold passing_here. apply elem_of_filter. rewrite <-dict_get_None. split; [done|].
    apply passed_ids_elem. by exists r. }
  split.
  - destruct (grade_iteration_passed _ _ _ _ _ Hg Hr Hp) as (c & Hc & Hid & Hd).
    assert (∃ t, c = Tracked t) as [t ->].
    { rewrite Hros in Hc. apply list_elem_of_fmap in Hc as (t & -> & _). by exists t. }
    rewrite <-Hid in Hno |- *.
    destruct (demonstrated_here _ _ _ _ _ _ Hspec Hx Hnd Hc Hd) as [?|[_ ?]]; [|done].
    cbn in Hno. congruence.
  - rewrite dict_merge_get in Hreasons by apply base_reasons_NoDup.
    rewrite base_reasons_get, decide_True in Hreasons by by apply elem_of_elements.
    unfold base_reason in Hreasons.
    destruct (dict_get at_base (result_id r)) as [[]|] eqn:Hb; try done.
    unfold base_answers_for in Hbase. case_decide as He; [set_solver|].
    unfold _base_reading in Hbase.
    destruct (_checks_at_base self ctx (base_reading a)) as [answers|e] eqn:Hch.
    + injection Hbase as <-. apply base_answers_get in Hb as (br & Hbr & Hs).
      by exists answers, br.
    + destruct (is_BaseReadingUnavailableError e); [|done]. by injection Hbase as <-.
Qed.

Lemma settled_stands h st spec a head x at_base cs event st' :
  tracker_spec ctx = Some spec → verdict_of st (evaluation_of a) head x →
  stands_on h st →
  base_answers_for self ctx (passing_here (grade x) (reading x))
    (base_reading (evaluation_of a)) = Ok at_base →
  cross_offs_of st head x at_base = Ok cs → receipt st head x cs event st' →
  stands_on (h ++ [a]) st'.
Proof.
  intros Hspec Hx (Hval & Hnd & Hpast) Hbase Hcs (_ & Hst & _ & _ & Hros).
  apply same_roster_NoDup in Hros.
  destruct (verdict_rows _ _ _ _ _ Hspec Hx) as [Hg _].
  unfold cross_offs_of in Hcs.
  pose proof (cross_offs_for_cases (results (grade x)) head
    (evaluation_observation (graded_in (dispatched x)) (Z.of_nat (loop_iteration st)))
    (dict_merge (undemonstrated_here x)
      (base_reasons (elements (passing_here (grade x) (reading x))) at_base))
    (standing st) (reading x) Hval) as Hcases.
  rewrite Hcs in Hcases. destruct Hcases as [Hall _]. unfold stands_on. rewrite Hst.
  split_and!.
  - clear -Hall. induction Hall as [|r y rs ys (_ & ? & _) _ IH]; by constructor.
  - by rewrite (crosses_off_ids _ _ _ _ _ _ _ Hall), (grade_iteration_ids _ _ _ _ Hg).
  - intros y Hy Hp. apply list_elem_of_lookup in Hy as [i Hi].
    destruct (Forall2_lookup_r _ _ _ _ _ Hall Hi) as (r & Hr & Hid & _ & Hread).
    apply list_elem_of_lookup_2 in Hr. rewrite Hid.
    destruct (dict_get (reading x) (result_id r)) as [[]|] eqn:Hv.
    + destruct (Hpast _ Hread Hp) as (a0 & Ha0 & Hd). exists a0. rewrite Hid in Hd.
      split; [apply elem_of_app; by left|done].
    + destruct Hread as [? _]. congruence.
    + destruct Hread as (Hev & _ & Hiff & _). destruct (proj1 Hiff Hp) as [Hrp Hno].
      rewrite Hev. cbn [graded_sha].
      exists a. split; [apply elem_of_app; right; by left|].
      by eapply fresh_pass.
Qed.

Lemma stands_on_more h k st : stands_on h st → stands_on (h ++ k) st.
Proof.
  intros (Hv & Hn & Hp). split_and!; [done..|]. intros y Hy Hs.
  destruct (Hp y Hy Hs) as (a & Ha & ?). exists a. split; [apply elem_of_app; by left|done].
Qed.

Lemma stands_on_same h st st' : standing st' = standing st → stands_on h st → stands_on h st'.
Proof. unfold stands_on. by intros ->. Qed.

Lemma evaluate_stands h st a effs st' :
  stands_on h st → _evaluate_node self ctx st (evaluation_of a) = (effs, Ok st') →
  stands_on (h ++ [a]) st'.
Proof.
  intros Hst H. destruct (tracker_spec ctx) as [spec|] eqn:Hspec.
  - eapply evaluate_node_inv in H as [[_ [? ?]]|(head & x & pre & k & rs & Hx & _ & Hk & H)];
      [done| |done].
    destruct rs as [cs|e]; [|by destruct H].
    destruct H as (event & _ & [[? ?]|(st1 & [= <-] & Hrec)]); [done|].
    apply settle_inv in Hk as [[_ [? ?]]|(at_base & cs' & ds & ws & Hb & Hcs & _ & [[? [? _]]|[Hr _]])];
      [done..|]. injection Hr as ->. by eapply settled_stands.
  - apply evaluate_node_authored in H as [_ H]; [|done]. specialize (H _ eq_refl).
    unfold stands_on. rewrite H. split_and!; [constructor|constructor|].
    intros y Hy. by apply not_elem_of_nil in Hy.
Qed.

Lemma reached_stands h c : reached self ctx h c → stands_on h (loop_state c).
Proof.
  induction 1 as [|h c a _ IH Hr|h c a effs e _ IH Hr Hn _].
  - split_and!; [constructor|constructor|]. intros y Hy. by apply not_elem_of_nil in Hy.
  - unfold advance. rewrite Hr. unfold run_node.
    destruct (at_node c) as [[]|] eqn:Hat; [| |by apply stands_on_more..].
    + destruct (st ← _execute_node _ _ _ _; _) as [effs r] eqn:E.
      tstep E st Hex; [by apply stands_on_more|].
      apply execute_inv in Hex as [_ Hex]. destruct (Hex _ eq_refl) as (_ & Hsame & _).
      tlift E next Hroute; [by apply stands_on_more|]. tret E. cbn.
      eapply stands_on_same; [exact Hsame|]. by apply stands_on_more.
    + destruct (st ← _evaluate_node _ _ _ _; _) as [effs r] eqn:E.
      tstep E st Hev; [by apply stands_on_more|].
      tlift E next Hroute; [by apply stands_on_more|]. tret E. cbn.
      by eapply evaluate_stands.
  - by apply stands_on_more.
Qed.

(** C24. What stands was earned. On every run of the loop, retries included, each criterion
    stands at most once, and a criterion that stands as passed was demonstrated by an
    evaluation of this very run at the commit its record names: that commit was the loop
    branch's head before and after the session, the session's tree was that commit and
    clean, it answered the criterion exactly once and passed it, no mutant reading passed
    it again, and its check was run at the lane's base and failed there. *)
Theorem standing_pass_earned h c :
  reached self ctx h c →
  NoDup (criterion <$> standing (loop_state c))
  ∧ ∀ y, y ∈ standing (loop_state c) → state y = passed →
      ∃ a, a ∈ h ∧ demonstrated_in (evaluation_of a) (graded_sha (evidence y)) (criterion y).
Proof. intros (_ & ? & ?)%reached_stands. done. Qed.

(** A cleared gate is earned. When the native graph ends with its gate cleared and
    nothing refused, the step that ended it was an evaluation of the loop branch's head:
    its receipt covers the board's Checks as that evaluation read them, and each of them
    was demonstrated by this evaluation, or is an earlier pass that still counts at this
    head and was demonstrated, and failed at the base, when it was graded. *)
Lemma acceptance_earned h c a spec :
  reached self ctx h c → tracker_spec ctx = Some spec → running c = true →
  let c' := advance self ctx c a in
  at_node c' = At END → gate_cleared (loop_verdict (loop_state c')) = true →
  amendment_blocked (loop_state c') = false →
  ∃ head snapshot event,
    outcome (loop_state c') = NativeEvaluatedRalphOutcome event (Tracked <$> snapshot) head
    ∧ _resolve self (head_read (evaluation_of a)) = Ok head
    ∧ ∀ t, t ∈ snapshot →
        demonstrated_by (evaluation_of a) head (tracked_id t)
        ∨ ∃ y a0, still_counts (loop_state c) head y ∧ criterion y = tracked_id t
            ∧ a0 ∈ h ∧ demonstrated_in (evaluation_of a0) (graded_sha (evidence y)) (tracked_id t).
Proof.
  intros (_ & _ & Hpast)%reached_stands Hspec Hr. cbv zeta. unfold advance. rewrite Hr.
  unfold run_node. destruct (at_node c) as [[]|] eqn:Hat; [| |by unfold running in Hr; rewrite Hat in Hr..].
  { destruct (st ← _execute_node _ _ _ _; _) as [effs r] eqn:E.
    tstep E st Hex; [done|]. tlift E next Hroute; [done|]. tret E. cbn.
    intros [= ->] _ Hb. unfold _route_after_execute in Hroute. by rewrite Hb in Hroute. }
  destruct (st ← _evaluate_node _ _ _ _; _) as [effs r] eqn:E.
  tstep E st Hev; [done|]. tlift E next Hroute; [done|]. tret E. cbn. intros _ Hclear _.
  eapply evaluate_node_inv in Hev as [[_ [? ?]]|(head & x & pre & k & rs & Hx & _ & _ & H)];
    [done| |done].
  destruct rs as [cs|e]; [|by destruct H].
  destruct H as (event & _ & [[? ?]|(st1 & [= <-] & Hout & _ & Hv & _ & Hros)]); [done|].
  apply same_roster_NoDup in Hros.
  destruct (verdict_rows _ _ _ _ _ Hspec Hx) as [Hg [snapshot Hsn]].
  exists head, snapshot, event. rewrite Hout, Hsn.
  split_and!; [done|apply (vo_head _ _ _ _ Hx)|]. intros t Ht. rewrite Hv in Hclear.
  assert (Tracked t ∈ graded_roster (dispatched x)) as Hin
    by (rewrite Hsn; by apply list_elem_of_fmap_2).
  pose proof (gate_cleared_demonstrated _ _ _ _ _ Hg Hros Hclear Hin eq_refl) as Hd.
  destruct (demonstrated_here _ _ _ _ _ _ Hspec Hx Hros Hin Hd) as [Hc|[_ ?]]; [|by left].
  right. eapply reading_counted in Hc as (y & Hy & Hsc); [|apply (vo_standing _ _ _ _ Hx)].
  pose proof Hsc as (Hys & Hyp & _). destruct (Hpast y Hys Hyp) as (a0 & Ha0 & Hd0).
  rewrite Hy in Hd0. by exists y, a0.
Qed.

(** ** The questions a lapse owes *)

(** [y] was written to the board as passed, and nothing was asked about it since. *)
Definition pass_open (effs : list Effect) (y : CriterionCrossOff) : Prop :=
  ∃ m1 ds ws m2, effs = m1 ++ CrossOffsWritten ds ws :: m2 ∧ y ∈ ws ∧ state y = passed
    ∧ ∀ ls head, LapsesRaised ls head ∈ m2 → criterion y ∉ criterion <$> ls.

(** Each question follows a write that leaves none of its criteria anything but lapsed,
    and is about observations the board was given as passed and nothing asked about. *)
Definition asked_well (effs : list Effect) : Prop :=
  ∀ l1 ls head l2, effs = l1 ++ LapsesRaised ls head :: l2 →
    (∃ l0 ds ws, l1 = l0 ++ [CrossOffsWritten ds ws]
       ∧ ∀ y z, y ∈ ls → z ∈ ws → criterion z = criterion y → state z = lapsed)
    ∧ ∀ y, y ∈ ls → rederivation_class y = observed ∧ pass_open l1 y.

Definition unasked (e : Effect) : Prop := match e with LapsesRaised _ _ => False | _ => True end.

Lemma quiet_unasked effs : Forall quiet effs → Forall unasked effs.
Proof. intros H. eapply Forall_impl; [exact H|]. by intros []. Qed.

Lemma pass_open_app effs k y :
  pass_open effs y →
  (∀ ls head, LapsesRaised ls head ∈ k → criterion y ∉ criterion <$> ls) →
  pass_open (effs ++ k) y.
Proof.
  intros (m1 & ds & ws & m2 & -> & Hy & Hp & Hno) Hk.
  exists m1, ds, ws, (m2 ++ k). rewrite <-app_assoc. split_and!; [done..|].
  intros ls head [?|?]%elem_of_app; eauto.
Qed.

Lemma pass_open_unasked effs k y :
  pass_open effs y → Forall unasked k → pass_open (effs ++ k) y.
Proof.
  intros Ho Hk. apply pass_open_app; [done|]. intros ls head Hin.
  rewrite Forall_forall in Hk. by apply Hk in Hin.
Qed.

Lemma asked_well_unasked effs k : asked_well effs → Forall unasked k → asked_well (effs ++ k).
Proof.
  intros Ha Hk l1 ls head l2 Heq.
  apply app_eq_inv in Heq as [(m & -> & Hm)|(m & -> & Hm)].
  - destruct m as [|e m]; cbn in Hm.
    + rewrite <-Hm, Forall_cons in Hk. by destruct Hk.
    + injection Hm as <- ->. by eapply Ha.
  - rewrite Hm, Forall_app, Forall_cons in Hk. by destruct Hk as [_ [[] _]].
Qed.

Lemma asked_well_ask effs ls head :
  asked_well effs →
  (∃ l0 ds ws, effs = l0 ++ [CrossOffsWritten ds ws]
     ∧ ∀ y z, y ∈ ls → z ∈ ws → criterion z = criterion y → state z = lapsed) →
  (∀ y, y ∈ ls → rederivation_class y = observed ∧ pass_open effs y) →
  asked_well (effs ++ [LapsesRaised ls head]).
Proof.
  intros Ha Hw Hy l1 ls' head' l2 Heq.
  apply app_eq_inv in Heq as [(m & -> & Hm)|(m & -> & Hm)].
  - destruct m as [|e m]; cbn in Hm.
    + simplify_eq. rewrite app_nil_r in Hw, Hy. by split.
    + injection Hm as <- ->. by eapply Ha.
  - destruct m as [|e m]; cbn in Hm; [|by destruct m].
    simplify_eq. rewrite app_nil_r. by split.
Qed.

(** The reading of a criterion that lapses at this head. *)
Lemma newly_lapsed_reading st head read s reading y :
  read_standing ctx st (Some head) read = Ok (s, reading) →
  NoDup (criterion <$> standing st) → y ∈ newly_lapsed s →
  y ∈ standing st ∧ state y = passed ∧ rederivation_class y = observed
  ∧ dict_get reading (criterion y) = Some grading_lapsed.
Proof.
  intros (-> & changesets & ->)%read_standing_inv Hnd Hy.
  pose proof (held_standing_elem (standing st) head changesets (base_stale ctx)) as Hel.
  apply Hel in Hy as [Hin Hp].
  assert (state y = passed ∧ rederivation_class y = observed) as [Hpass Hobs]
    by (unfold placed in Hp; repeat case_decide; naive_solver).
  split_and!; [done..|].
  set (s := held_standing _ _ _ _) in *.
  assert (is_Some (dict_get (standing_reading s) (criterion y))) as [v Hv].
  { apply dict_get_is_Some. unfold standing_reading. rewrite dict_of_keys, fmap_app, elem_of_app.
    right. rewrite <-list_fmap_compose. apply list_elem_of_fmap_2, Hel. tauto. }
  rewrite Hv. f_equal.
  apply standing_reading_get in Hv as (y' & Hid & [[_ Hc]|[-> _]]); [|done].
  apply Hel in Hc as [Hin' Hp']. assert (y' = y) as ->; [|congruence].
  by eapply (NoDup_fmap_elem criterion).
Qed.

(** The trace's questions are well asked, and every pass that stands is still open. *)
Definition opens (effs : list Effect) st : Prop :=
  ∀ y, y ∈ standing st → state y = passed → pass_open effs y.

Lemma opens_unasked effs k st : opens effs st → Forall unasked k → opens (effs ++ k) st.
Proof. intros Ho Hk y Hy Hp. apply pass_open_unasked; [by apply Ho|done]. Qed.

(** What one settled evaluation does to the trace. *)
Section settled.
Context (h : list NodeAnswers) (st : RalphLoopState) (a : EvaluateAnswers) (head : string)
  (x : Reading) (at_base : pydict CriterionId bool) (cs ws : list CriterionCrossOff)
  (ds : list TrackerCriterion) (T : list Effect).
Context (Hstands : stands_on h st) (Hopens : opens T st)
  (Hx : verdict_of st a head x) (Hcs : cross_offs_of st head x at_base = Ok cs)
  (Hws : decided x cs ws).

Lemma settled_crosses y : y ∈ cs → ∃ r, criterion y = result_id r
  ∧ match dict_get (reading x) (criterion y) with
    | Some counted => y ∈ standing st
    | Some grading_lapsed => state y = lapsed
    | None => True
    end.
Proof.
  intros Hy. destruct Hstands as (Hval & _).
  pose proof (cross_offs_for_cases (results (grade x)) head
    (evaluation_observation (graded_in (dispatched x)) (Z.of_nat (loop_iteration st)))
    (dict_merge (undemonstrated_here x)
      (base_reasons (elements (passing_here (grade x) (reading x))) at_base))
    (standing st) (reading x) Hval) as Hc.
  unfold cross_offs_of in Hcs. rewrite Hcs in Hc. destruct Hc as [Hall _].
  apply list_elem_of_lookup in Hy as [i Hi].
  destruct (Forall2_lookup_r _ _ _ _ _ Hall Hi) as (r & _ & Hid & _ & Hread).
  exists r. split; [done|]. rewrite Hid. repeat case_match; tauto.
Qed.

Lemma settled_newly y :
  y ∈ newly_lapsed (held_reading x) →
  y ∈ standing st ∧ state y = passed ∧ rederivation_class y = observed
  ∧ dict_get (reading x) (criterion y) = Some grading_lapsed.
Proof.
  destruct Hstands as (_ & Hnd & _). intros Hy.
  eapply newly_lapsed_reading; [apply (vo_standing _ _ _ _ Hx)|done|done].
Qed.

Lemma settled_asked :
  asked_well T →
  asked_well (T ++ [CrossOffsWritten ds ws] ++ [LapsesRaised (newly_lapsed (held_reading x)) head]).
Proof.
  intros Ha. rewrite app_assoc. apply asked_well_ask.
  - apply asked_well_unasked; [done|by repeat constructor].
  - exists T, ds, ws. split; [done|]. intros y z (_ & _ & _ & Hread)%settled_newly Hz Hid.
    apply Hws in Hz as [Hz _]. apply settled_crosses in Hz as (r & _ & Hs).
    by rewrite Hid, Hread in Hs.
  - intros y (Hy & Hp & Hobs & _)%settled_newly. split; [done|].
    apply pass_open_unasked; [by apply Hopens|by repeat constructor].
Qed.

Lemma settled_open y asks :
  y ∈ cs → state y = passed →
  (∀ ls hd, LapsesRaised ls hd ∈ asks → ls = newly_lapsed (held_reading x)) →
  pass_open (T ++ CrossOffsWritten ds ws :: asks) y.
Proof.
  intros Hy Hp Hasks. pose proof (settled_crosses y Hy) as (r & _ & Hread).
  assert (∀ ls hd, LapsesRaised ls hd ∈ asks → criterion y ∉ criterion <$> ls) as Hno.
  { intros ls hd ->%Hasks (z & Hid & Hz)%list_elem_of_fmap.
    apply settled_newly in Hz as (_ & _ & _ & Hz). rewrite Hid, Hz in Hread. congruence. }
  destruct (dict_get (reading x) (criterion y)) as [[]|] eqn:Hv.
  - apply pass_open_app; [by apply Hopens|].
    intros ls hd [?|?]%elem_of_cons; [done|by eapply Hno].
  - congruence.
  - exists T, ds, ws, asks. split_and!; try done. apply Hws. by rewrite Hv.
Qed.
End settled.

Lemma asks_newly (x : Reading) head (b : bool) ls hd :
  LapsesRaised ls hd ∈ (if b then [LapsesRaised (newly_lapsed (held_reading x)) head] else [])
    ++ [] → ls = newly_lapsed (held_reading x).
Proof. rewrite app_nil_r. destruct b; [by intros [= -> _]%list_elem_of_singleton|by intros ?%not_elem_of_nil]. Qed.

Lemma evaluate_asks h st a effs r T :
  stands_on h st → opens T st → asked_well T →
  _evaluate_node self ctx st a = (effs, r) →
  asked_well (T ++ effs)
  ∧ match r with
    | Ok st' => opens (T ++ effs) st'
    | Err e => should_retry e = true → opens (T ++ effs) st
    end.
Proof.
  intros Hst Ho Ha H. destruct (tracker_spec ctx) as [spec|] eqn:Hspec.
  2:{ eapply evaluate_node_authored in H as [Hq Hn]; [|done]. apply quiet_unasked in Hq.
      split; [by apply asked_well_unasked|]. destruct r as [st'|e].
      - intros y Hy. rewrite (Hn st' eq_refl) in Hy. by apply not_elem_of_nil in Hy.
      - intros _. by apply opens_unasked. }
  eapply evaluate_node_inv in H as [[Hq [e ->]]|(head & x & pre & k & rs & Hx & Hpre & Hk & H)];
    [|apply quiet_unasked in Hpre|done].
  { apply quiet_unasked in Hq. split; [by apply asked_well_unasked|intros _; by apply opens_unasked]. }
  assert (opens (T ++ pre) st) as Ho' by by apply opens_unasked.
  assert (asked_well (T ++ pre)) as Ha' by by apply asked_well_unasked.
  apply settle_inv in Hk as [[-> [e ->]]|(at_base & cs & ds & ws & _ & Hcs & Hws & Hcase)].
  { destruct H as [-> ->]. rewrite app_nil_r. by split. }
  assert (Forall unasked [CrossOffsWritten ds ws]) as Hw by by repeat constructor.
  destruct Hcase as [(e & -> & ->)|[-> ->]].
  { destruct H as [-> ->]. rewrite app_assoc.
    split; [by apply asked_well_unasked|intros _; by apply opens_unasked]. }
  destruct H as (event & -> & H). rewrite app_assoc, (app_assoc (T ++ pre)).
  assert (Forall unasked [IterationEvent event]) as Hev by by repeat constructor.
  split.
  { apply asked_well_unasked; [|done]. destruct (escalates (held_reading x)).
    - by eapply settled_asked.
    - by apply asked_well_unasked. }
  destruct H as [[m ->]|(st' & -> & _ & Hst' & _)]; [done|].
  intros y Hy Hp. rewrite Hst' in Hy. apply pass_open_unasked; [|done].
  eapply settled_open; [exact Hst|exact Ho'|exact Hx|exact Hcs|exact Hws|done|done|].
  intros ls hd Hin. eapply asks_newly. rewrite app_nil_r. exact Hin.
Qed.

Lemma should_continue_err st e : _should_continue self st = Err e → ∃ m, e = ValueError m.
Proof.
  unfold _should_continue, fold_trajectory, max_passed. intros H.
  repeat case_match; simplify_eq/=; eauto.
  all: repeat (case_match; simplify_eq/=); eauto.
Qed.

Lemma reached_asks h c :
  reached self ctx h c →
  asked_well (trace c) ∧ (running c = true → opens (trace c) (loop_state c)).
Proof.
  induction 1 as [|h c a Hre [IHa IHo] Hr|h c a effs e Hre [IHa IHo] Hr Hn Hret].
  - split; [intros l1 ls head l2 Heq; by destruct l1|].
    intros _ y Hy. by apply not_elem_of_nil in Hy.
  - specialize (IHo Hr). pose proof (reached_stands _ _ Hre) as Hst.
    unfold advance. rewrite Hr. unfold run_node.
    destruct (at_node c) as [[]|] eqn:Hat; [| |by unfold running in Hr; rewrite Hat in Hr..].
    + destruct (st ← _execute_node _ _ _ _; _) as [effs r] eqn:E.
      tstep E st Hex; apply execute_inv in Hex as [Hq%quiet_unasked Hex].
      { cbn. split; [by apply asked_well_unasked|done]. }
      destruct (Hex _ eq_refl) as (_ & Hsame & _).
      tlift E next Hroute; [|tret E]; cbn; rewrite ?app_nil_r;
        (split; [by apply asked_well_unasked|]); [done|].
      intros _ y Hy. rewrite Hsame in Hy. by apply (opens_unasked _ _ _ IHo).
    + destruct (st ← _evaluate_node _ _ _ _; _) as [effs r] eqn:E.
      tstep E st Hev; eapply evaluate_asks in Hev as [Hasked Hopen]; try done.
      tlift E next Hroute; [|tret E]; cbn; rewrite ?app_nil_r; by split.
  - specialize (IHo Hr). pose proof (reached_stands _ _ Hre) as Hst. cbn.
    unfold run_node in Hn.
    destruct (at_node c) as [[]|] eqn:Hat; [| |by unfold running in Hr; rewrite Hat in Hr..].
    + tstep Hn st Hex; apply execute_inv in Hex as [Hq%quiet_unasked _].
      * split; [by apply asked_well_unasked|intros _; by apply opens_unasked].
      * tlift Hn next Hroute; [|by apply mret_inv in Hn as [_ ?]]. rewrite app_nil_r.
        split; [by apply asked_well_unasked|intros _; by apply opens_unasked].
    + tstep Hn st Hev; eapply evaluate_asks in Hev as [Hasked Hopen]; try done.
      { injection Hr0 as <-. split; [done|intros _; by apply Hopen]. }
      tlift Hn next Hroute; [|by apply mret_inv in Hn as [_ ?]].
      apply should_continue_err in Hroute as [m Hm]. injection Hr0 as ->. by rewrite Hm in Hret.
Qed.

(** A lapse is asked about once, after the board took the criterion back. On every run
    of the loop, whatever was retried, each question about lapsed gradings comes right
    after a write of cross-offs that leaves none of its criteria in any state but
    lapsed; each grading it names is an observation this run wrote to the board as
    passed, and since that write no other question named its criterion. *)
Theorem lapse_asked_once h c : reached self ctx h c → asked_well (trace c).
Proof. intros H. apply (reached_asks h c H). Qed.

(** ** What [run] does past the graph *)

Lemma forwarded_app l k :
  forwarded_of (l ++ k) = match forwarded_of k with Some e => Some e | None => forwarded_of l end.
Proof. unfold forwarded_of. by rewrite filter_app, last_app. Qed.

Lemma exec_stream_blocked s events :
  let '(effs, s') := exec_stream s events in
  exec_blocked s' = true →
  (∃ event, exec_refusal s' = Some event ∧ forwarded_of effs = Some (AmendmentEvent event))
  ∨ (forwarded_of effs = None ∧ exec_blocked s = true ∧ exec_refusal s' = exec_refusal s).
Proof.
  revert s. induction events as [|e events IH]; intros s; cbn; [by right|].
  destruct (exec_turn s e) as [s1 eff] eqn:E. specialize (IH s1).
  destruct (exec_stream s1 events) as [effs s']. intros Hb.
  change (eff :: effs) with ([eff] ++ effs). rewrite forwarded_app.
  destruct (IH Hb) as [(event & Hr & ->)|(-> & Hb1 & ->)]; [left; by exists event|].
  destruct e as [r|[sha|]|]; cbn in E; injection E as <- <-; cbn in Hb1 |- *; try by right.
  left. eexists. rewrite Hb1. split; reflexivity.
Qed.

(** The outcome a native run of the graph ends with, already forwarded. *)
Definition completed c : Prop :=
  match outcome (loop_state c) with
  | NativeEvaluatedRalphOutcome event _ _ =>
      forwarded_of (trace c) = Some (IterationEvent event)
      ∧ amendment_blocked (loop_state c) = false
  | RefusedRalphOutcome event _ _ =>
      forwarded_of (trace c) = Some (AmendmentEvent event)
      ∧ amendment_blocked (loop_state c) = true
  | _ => False
  end.

Lemma execute_blocked st spec a effs st' T :
  tracker_spec ctx = Some spec → _execute_node self ctx st a = (effs, Ok st') →
  amendment_blocked st' = true →
  ∃ event last roster, outcome st' = RefusedRalphOutcome event last roster
    ∧ forwarded_of (T ++ effs) = Some (AmendmentEvent event).
Proof.
  intros Hspec. unfold _execute_node, native. rewrite Hspec. intros H.
  tlift H u1 H1; [done|]. tlift H u2 H2; [done|]. tlift H u3 H3; [done|]. tlift H u4 H4; [done|].
  pose proof (exec_stream_blocked {| exec_reports := amendment_reports st; exec_blocked := false;
    exec_refusal := None; exec_commit := None |} (exec_events a)) as Hb.
  destruct (exec_stream _ _) as [es s].
  tstep H u5 H5; [done|]. injection H5 as <- _. tlift H u6 H6; [done|]. tret H.
  cbn. intros Hblocked. destruct (Hb Hblocked) as [(event & Href & Hf)|(_ & Hx & _)]; [|discriminate Hx].
  rewrite Href in H6. cbn in H6. unfold make_refused in H6.
  destruct (bool_decide (length (upheld (report event)) = 0)); cbn in H6; [done|].
  injection H6 as <-. cbn.
  eexists event, _, _. split; [done|]. by rewrite app_nil_r, forwarded_app, Hf.
Qed.

Lemma evaluate_forwarded st spec a effs st' T :
  tracker_spec ctx = Some spec → _evaluate_node self ctx st a = (effs, Ok st') →
  ∃ event roster head, outcome st' = NativeEvaluatedRalphOutcome event roster head
    ∧ forwarded_of (T ++ effs) = Some (IterationEvent event).
Proof.
  intros Hspec H.
  eapply evaluate_node_inv in H as [[_ [? ?]]|(head & x & pre & k & rs & _ & _ & _ & H)];
    [done| |done].
  destruct rs as [cs|e]; [|by destruct H].
  destruct H as (event & -> & [[? ?]|(st1 & [= <-] & -> & _)]); [done|].
  exists event, (graded_roster (dispatched x)), head. split; [done|].
  by rewrite !app_assoc, forwarded_app.
Qed.

(** A native run is evaluated only when its last execution was not refused. *)
Lemma reached_completed h c spec :
  reached self ctx h c → tracker_spec ctx = Some spec →
  match at_node c with
  | At EVALUATE => amendment_blocked (loop_state c) = false
  | At END => completed c
  | _ => True
  end.
Proof.
  intros H Hspec. induction H as [|h c a _ IH Hr|h c a effs e _ IH Hr Hn _]; [done| |].
  2:{ cbn. unfold running in Hr. by destruct (at_node c) as [[]|]. }
  unfold advance. rewrite Hr. unfold run_node.
  destruct (at_node c) as [[]|] eqn:Hat; [| |by unfold running in Hr; rewrite Hat in Hr..].
  - destruct (st ← _execute_node _ _ _ _; _) as [effs r] eqn:E.
    tstep E st Hex; [done|]. tlift E next Hroute; [done|]. tret E. cbn. rewrite app_nil_r.
    unfold _route_after_execute in Hroute. destruct (amendment_blocked st) eqn:Hb.
    + apply should_continue_inv in Hroute as [[-> _]|[-> _]]; [|done].
      apply (execute_blocked _ _ _ _ _ (trace c) Hspec) in Hex
        as (event & last & roster & Ho & Hf); [|done].
      unfold completed. cbn [loop_state trace]. by rewrite Ho, Hf, Hb.
    + by injection Hroute as <-.
  - destruct (st ← _evaluate_node _ _ _ _; _) as [effs r] eqn:E.
    tstep E st Hev; [done|]. tlift E next Hroute; [done|]. tret E. cbn. rewrite app_nil_r.
    pose proof (evaluate_memory _ _ _ _ Hev) as [_ Hb]. rewrite IH in Hb.
    apply should_continue_inv in Hroute as [[-> _]|[-> _]]; [|done].
    apply (evaluate_forwarded _ _ _ _ _ (trace c) Hspec) in Hev
      as (event & roster & head & Ho & Hf).
    unfold completed. cbn [loop_state trace]. by rewrite Ho, Hf, Hb.
Qed.

(** What the barrier read when an evaluated run returned. *)
Lemma finish_evaluated spec effs event roster head a effs' :
  tracker_spec ctx = Some spec →
  finish self ctx effs (NativeEvaluatedRalphOutcome event roster head) a = (effs', Ok tt) →
  ∃ current, finish_board a (_held (acceptance_criteria ctx)
      (NativeEvaluatedRalphOutcome event roster head)) = Ok current
    ∧ roster = Tracked <$> current ∧ _resolve self (finish_head a) = Ok head.
Proof.
  intros Hspec. unfold finish. rewrite Hspec. intros H.
  tlift H current Hcur; [done|]. apply raise_if_ok in Hcur as [_ Hcur].
  tlift H u Hb; [done|]. exists current. split; [done|].
  apply raise_if_ok in Hb as [Hros Hb]. apply negb_false_iff, bool_decide_eq_true in Hros.
  apply bind_ok in Hb as (? & _ & Hb). apply bind_ok in Hb as (now & -> & Hb).
  apply raise_if_ok in Hb as [Hnow _]. apply negb_false_iff, bool_decide_eq_true in Hnow.
  by subst.
Qed.

(** The barrier past the graph. A native run whose graph ended has a completed outcome,
    the last one it forwarded, so nothing is yielded a second time; and [run] returns only
    after reading the board again with the roster it holds, an evaluated run only when
    the board's Checks are the roster it graded and the loop branch is still the head it
    graded. *)
Theorem finish_spec h c spec a :
  reached self ctx h c → tracker_spec ctx = Some spec → at_node c = At END →
  completed c
  ∧ match finish self ctx (trace c) (outcome (loop_state c)) a with
    | (effs, Err _) => effs = []
    | (effs, Ok _) => effs = []
        ∧ ∃ current, finish_board a (_held (acceptance_criteria ctx) (outcome (loop_state c)))
              = Ok current
            ∧ ∀ event roster head,
                outcome (loop_state c) = NativeEvaluatedRalphOutcome event roster head →
                roster = Tracked <$> current ∧ _resolve self (finish_head a) = Ok head
    end.
Proof.
  intros Hre Hspec Hat. pose proof (reached_completed _ _ _ Hre Hspec) as Hc. rewrite Hat in Hc.
  split; [done|]. unfold finish. rewrite Hspec. unfold completed in Hc.
  destruct (current ← lift _; _) as [effs r] eqn:H.
  tlift H current Hcur; [done|]. apply raise_if_ok in Hcur as [_ Hcur].
  destruct (outcome (loop_state c)) as [|?|event roster head|event last roster]; try done.
  - tlift H u Hb; [done|]. destruct Hc as [Hf _]. rewrite Hf, decide_True in H by done. tret H.
    split; [done|]. exists current. split; [done|]. intros ? ? ? [= <- <- <-].
    apply raise_if_ok in Hb as [Hros Hb]. apply negb_false_iff, bool_decide_eq_true in Hros.
    apply bind_ok in Hb as (? & _ & Hb). apply bind_ok in Hb as (now & -> & Hb).
    apply raise_if_ok in Hb as [Hnow _]. apply negb_false_iff, bool_decide_eq_true in Hnow.
    by subst.
  - destruct Hc as [Hf _]. rewrite Hf, decide_True in H by done. tret H.
    split; [done|]. by exists current.
Qed.
End spec.

(** ** A concrete run: an observation passes, its code moves, and it lapses *)

Definition sample_loop : RalphLoop := {|
  max_iterations := 2; plateau_window := 2; fan_in_max_attempts := 2;
  has_criteria_reader := true; has_amendments := true; has_source := true;
  has_lane_state := true; has_workspace := true; has_lapse_escalations := true;
  has_mutation := false; has_evaluator_rulings := false |}.

Definition sample_spec : TrackerSpec := {|
  spec_subject := "K-9"; spec_body := "body"; spec_criteria := ["K-1"; "K-2"];
  read_at_version := "v1" |}.

Definition sample_roster : list TrackerCriterion :=
  [{| tracked_id := "K-1"; tracked_text := "a" |}; {| tracked_id := "K-2"; tracked_text := "b" |}].

Definition sample_ctx : RalphLoopContext := {|
  tracker_spec := Some sample_spec; acceptance_criteria := Tracked <$> sample_roster;
  repo_path := Some "/repo"; feature_branch := "feature"; ralph_branch := "loop";
  work_base_ref := "main"; base_branch := "main"; resumed_head_sha := None;
  base_stale := false; surface_holder := Some "job"; scope := None |}.

Definition sample_execution (sha : string) : ExecuteAnswers := {|
  lane_writable := Ok tt; execute_board := λ _, Ok sample_roster; execute_cached := Ok tt;
  resumed_read := Ok sha; guard_ready := Ok tt; exec_events := [ResultSeen (Some sha)];
  exec_end := Ok tt |}.

Definition sample_row (id : string) (ok : bool) (paths : list string) : CriterionResult := {|
  result_id := id; result_text := id; result_passed := ok; reasoning := "read";
  result_class := observed; result_paths := paths |}.

Definition sample_session (head : string) (rows : list CriterionResult) : AttemptAnswers := {|
  board := λ _, Ok sample_roster;
  drained := Ok (Some {| session_id := "s"; structured_output :=
    Some (Ok {| criteria_results := rows; output_flags := [] |}) |}, false);
  tree := Ok (head, false); branch_after := Ok head |}.

(** [head] is graded; the base read nothing of [rows] as satisfied; [paths] moved since. *)
Definition sample_evaluation (head : string) (rows : list CriterionResult)
    (paths : list string) : EvaluateAnswers := {|
  evaluate_cached := Ok tt; head_read := Ok head; changeset_read := Ok tt;
  moved := λ _, Ok {| file_paths := paths; commit_subjects := []; commit_count := 1 |};
  session_attempts := λ _, sample_session head rows;
  mutation := {| mutant_acquired := Ok tt; behaviour_removed := Ok tt;
                 mutant_tree := Ok (head, true); mutant_drained := Ok None;
                 mutant_released := Ok tt |};
  branch_after_mutation := Ok head; rulings_recorded := Ok tt;
  base_reading := {| base_head := Ok "b0"; base_acquired := Ok tt;
    base_before := Ok ("b0", false);
    base_judged := Ok ((λ r, {| base_criterion := result_id r; base_command := "run";
                                base_satisfied := false |}) <$> rows);
    base_after := Ok ("b0", false); base_released := Ok tt |};
  cross_offs_written := Ok tt; lapses_raised := Ok tt |}.

Definition first_round : NodeAnswers := {|
  execution := sample_execution "c1";
  evaluation_of := sample_evaluation "c1"
    [sample_row "K-1" true ["src/api"]; sample_row "K-2" false ["src/ui"]] [] |}.
Definition second_round : NodeAnswers := {|
  execution := sample_execution "c2";
  evaluation_of := sample_evaluation "c2" [sample_row "K-2" true ["src/ui"]] ["src/api/x"] |}.

Definition sample_history : list NodeAnswers :=
  [first_round; first_round; second_round; second_round].
Definition sample_end : config := drive sample_loop sample_ctx start sample_history.

Lemma drive_reached self ctx h c answers :
  reached self ctx h c →
  (∀ n, n < length answers → running (drive self ctx c (take n answers)) = true) →
  reached self ctx (h ++ answers) (drive self ctx c answers).
Proof.
  revert h c. induction answers as [|a answers IH]; intros h c Hc Hrun; cbn.
  { by rewrite app_nil_r. }
  rewrite (cons_middle a), app_assoc. apply IH.
  - apply reached_advance; [done|]. apply (Hrun 0). cbn. lia.
  - intros n Hn. apply (Hrun (S n)). cbn. lia.
Qed.

Lemma sample_end_reached : reached sample_loop sample_ctx sample_history sample_end.
Proof.
  apply (drive_reached _ _ []); [constructor|]. intros m Hm. cbn in Hm.
  assert (m = 0 ∨ m = 1 ∨ m = 2 ∨ m = 3) as [-> |[-> |[-> | ->]]] by lia; by vm_compute.
Qed.

Lemma lapse_asked_once_witness :
  asked_well (trace sample_end)
  ∧ omap (λ e, match e with LapsesRaised ls _ => Some (criterion <$> ls) | _ => None end)
      (trace sample_end) = [["K-1"]].
Proof.
  split; [exact (lapse_asked_once sample_loop sample_ctx _ _ sample_end_reached)|].
  vm_compute. reflexivity.
Defined.

Lemma loop_terminates_witness :
  at_node sample_end = At END ∧ loop_iteration (loop_state sample_end) = 2
  ∧ stopped sample_loop (loop_state sample_end).
Proof.
  assert (at_node sample_end = At END) as Hat by by vm_compute.
  split; [exact Hat|]. split; [by vm_compute|].
  exact (proj1 (proj2 (loop_terminates sample_loop sample_ctx _ _ sample_end_reached))
    Hat).
Defined.

Lemma standing_pass_earned_witness :
  (λ y, (criterion y, (state y, graded_sha (evidence y)))) <$> standing (loop_state sample_end)
  = [("K-1", (lapsed, "c1")); ("K-2", (passed, "c2"))]
  ∧ ∃ y a, y ∈ standing (loop_state sample_end) ∧ state y = passed ∧ a ∈ sample_history
      ∧ demonstrated_in sample_loop sample_ctx (evaluation_of a) (graded_sha (evidence y))
          (criterion y).
Proof.
  split; [by vm_compute|].
  destruct (standing_pass_earned sample_loop sample_ctx _ _ sample_end_reached)
    as [_ Hd].
  assert (∃ y, standing (loop_state sample_end) !! 1 = Some y ∧ state y = passed)
    as (y & Hy & Hp) by (eexists; split; vm_compute; reflexivity).
  apply list_elem_of_lookup_2 in Hy. destruct (Hd y Hy Hp) as (a & Ha & Hdem).
  by exists y, a.
Defined.

Definition passing_round : NodeAnswers := {|
  execution := sample_execution "c1";
  evaluation_of := sample_evaluation "c1"
    [sample_row "K-1" true ["src/api"]; sample_row "K-2" true ["src/ui"]] [] |}.
Definition sample_executed : config := drive sample_loop sample_ctx start [passing_round].

Lemma executed_reached :
  reached sample_loop sample_ctx [passing_round] sample_executed.
Proof.
  apply (drive_reached _ _ []); [constructor|]. intros [|n] Hn; [by vm_compute|cbn in Hn; lia].
Qed.

Definition sample_barrier : FinishAnswers := {|
  finish_board := λ _, Ok sample_roster; finish_cached := Ok tt; finish_head := Ok "c2" |}.

Lemma finish_spec_witness :
  finish sample_loop sample_ctx (trace sample_end) (outcome (loop_state sample_end))
    sample_barrier = ([], Ok tt)
  ∧ completed sample_end.
Proof.
  split; [by vm_compute|].
  assert (at_node sample_end = At END) as Hat by by vm_compute.
  destruct (finish_spec sample_loop sample_ctx sample_history sample_end sample_spec
    sample_barrier sample_end_reached eq_refl Hat) as [Hc _].
  exact Hc.
Defined.
