(* ===== verification/Outcome.v ===== *)
(** * The terminal disposition of a run (types/domain/outcome.py, domain/outcome.py).

    [WorkflowOutcome] is the wire partition; [classify_outcome] reads a fire's
    state into it; [derive_scope_outcome] reads a scope's lanes
    (types/domain/scope_terminal.py). Of [WorkflowState] the record keeps the
    fields the classifier reads. *)

From S2P Require Import Prelude PyStr Tracker Errors Criteria Lapse Grading Trajectory.

Inductive WorkflowOutcome :=
| merge_divergent | fix_consolidation_failed | loop_plateaued | loop_not_accepted
| review_passed_no_pr_adapter | review_failed_fix_budget_exhausted | pr_opened | ci_passed
| ci_not_configured | ci_failed_fix_budget_exhausted | criteria_infeasible
| stalled_pr_opened | zero_commit_no_pr | remediation_budget_exhausted | engine_error
| shutdown_abandoned | scope_converged | scope_converged_with_residual | scope_stopped_short
| handed_off_for_delivery | ci_failed_environment_prerequisite | ci_failed_unclassified
| ci_no_run_at_ref | ruling_unrecorded | job_timed_out.
#[export] Instance WorkflowOutcome_eq_dec : EqDecision WorkflowOutcome.
Proof. solve_decision. Defined.

(** The fields of [WorkflowState] that [classify_outcome] reads. *)
Record WorkflowState := {
  accept : AcceptVerdict;
  merged : bool;
  merge_error : option string;
  remediation_rounds_used : Z;
  review_passed : bool;
  trajectory : option LoopTrajectory;
  best_iteration_sha : option string;
  is_criteria_infeasible : bool;
  is_ruling_unrecorded : bool;  (* absent reads as [false] *)
}.

Definition merge_failed (s : WorkflowState) : bool :=
  negb (merged s) && negb (bool_decide (merge_error s = None)).
Definition loop_exit (s : WorkflowState) : bool :=
  negb (gate_cleared (accept s)) && negb (merged s) && bool_decide (merge_error s = None).

(** The classifier's [if]s, in the order the code makes them. *)
Definition classify_outcome (s : WorkflowState) : result exn WorkflowOutcome :=
  let accepted := gate_cleared (accept s) in
  if is_ruling_unrecorded s then Ok ruling_unrecorded
  else if is_criteria_infeasible s then Ok criteria_infeasible
  else if merge_failed s && (remediation_rounds_used s =? 0)%Z then Ok merge_divergent
  else if merge_failed s && (0 <? remediation_rounds_used s)%Z then Ok fix_consolidation_failed
  else if loop_exit s && bool_decide (best_iteration_sha s = None)
          && (if trajectory s is Some _ then true else false) then Ok zero_commit_no_pr
  else if (0 <? remediation_rounds_used s)%Z && negb accepted then Ok remediation_budget_exhausted
  else if loop_exit s && (if trajectory s is Some t then plateaued t else false)
  then Ok loop_plateaued
  else if loop_exit s && (if trajectory s is Some t then negb (plateaued t) else true)
  then Ok loop_not_accepted
  else if merged s && review_passed s then Ok handed_off_for_delivery
  else if merged s && negb (review_passed s) then Ok review_failed_fix_budget_exhausted
  else Err (ValueError "Unclassifiable terminal state").

Record ScopeLaneEntry := {
  lane_issue : string; done_lane : bool; lane_branch : option string; lane_pr : option Z;
}.

Definition derive_scope_outcome (lanes : list ScopeLaneEntry) : WorkflowOutcome :=
  if negb (bool_decide (length lanes = 0)) && forallb done_lane lanes
  then scope_converged else scope_stopped_short.

(** A terminal event's two validators: one entry per lane, and the outcome its own
    vector derives to. *)
Definition make_scope_terminal (lanes : list ScopeLaneEntry) (outcome : WorkflowOutcome) :
    result exn (list ScopeLaneEntry * WorkflowOutcome) :=
  raise_if (negb (bool_decide (NoDup (lane_issue <$> lanes))))
    (ValidationError "ScopeTerminalEvent")
  (raise_if (negb (bool_decide (outcome = derive_scope_outcome lanes)))
    (ValidationError "ScopeTerminalEvent") (Ok (lanes, outcome))).

(** ** The classifier, verified *)

(** The outcomes a fire's own state can have. *)
Definition fire_outcome (o : WorkflowOutcome) : Prop :=
  o ∈ [ruling_unrecorded; criteria_infeasible; merge_divergent; fix_consolidation_failed;
       zero_commit_no_pr; remediation_budget_exhausted; loop_plateaued; loop_not_accepted;
       handed_off_for_delivery; review_failed_fix_budget_exhausted].

(** The states a fire may end in: not (cleared the gate, left unmerged and hit no
    merge error), unless it halted before the loop. *)
Definition classifiable (s : WorkflowState) : Prop :=
  is_ruling_unrecorded s = true ∨ is_criteria_infeasible s = true
  ∨ merged s = true ∨ merge_error s ≠ None ∨ accept s = rejected.

(** One leaf of the decision table. *)
Ltac close_case :=
  first [ done
        | by apply (bool_decide_unpack _)
        | by eexists
        | by right; right; left
        | by right; right; right; left
        | by right; right; right; right
        | intros [?|[?|[?|[?|?]]]]; congruence
        | by intros [?|?]
        | intros _; split_and!; (done || (by left) || (by right)) ].

(** The classifier. With a nonnegative round count it refuses exactly the run
    that cleared the gate and was neither merged nor failed to merge. Its answers
    are fire outcomes only, never one the queue or a scope assigns; work is handed
    off for delivery only when it merged, passed review and halted nowhere
    earlier, and only on a cleared gate unless no remediation round was spent;
    and a run is said to have committed nothing only when it recorded no best
    commit. *)
Theorem classify_outcome_spec (s : WorkflowState) :
  (0 ≤ remediation_rounds_used s)%Z →
  match classify_outcome s with
  | Err e => ¬ classifiable s ∧ ∃ message, e = ValueError message
  | Ok o => classifiable s ∧ fire_outcome o
      ∧ (o = handed_off_for_delivery →
           merged s = true ∧ review_passed s = true ∧ is_ruling_unrecorded s = false
           ∧ is_criteria_infeasible s = false
           ∧ (remediation_rounds_used s = 0%Z ∨ accept s ≠ rejected))
      ∧ (o = zero_commit_no_pr → best_iteration_sha s = None ∧ merged s = false
           ∧ accept s = rejected)
      ∧ (o = merge_divergent ∨ o = fix_consolidation_failed →
           merged s = false ∧ merge_error s ≠ None)
  end.
Proof.
  intros Hr. unfold classify_outcome, classifiable, fire_outcome, merge_failed, loop_exit,
    gate_cleared. cbv zeta.
  destruct s as [acc mg err rounds rev traj best inf rul]; cbn in *.
  destruct rul; [cbn; split_and!; close_case|].
  destruct inf; [cbn; split_and!; close_case|].
  assert (rounds = 0%Z ∧ (rounds =? 0)%Z = true ∧ (0 <? rounds)%Z = false
    ∨ rounds ≠ 0%Z ∧ (rounds =? 0)%Z = false ∧ (0 <? rounds)%Z = true) as Hrd by lia.
  destruct acc, mg, err as [err|], rev, traj as [t|], best as [b|];
    destruct Hrd as [(Hz & -> & ->)|(Hz & -> & ->)];
    (try destruct (plateaued t)); cbn; split_and!; close_case.
Qed.

(** A scope's outcome is its own vector's: converged exactly when there is a
    lane and every lane is done; a terminal event exists for exactly that outcome
    over distinct lanes, so no event can claim a finish its lanes do not show. *)
Theorem make_scope_terminal_spec (lanes : list ScopeLaneEntry) (outcome : WorkflowOutcome) :
  make_scope_terminal lanes outcome = Ok (lanes, outcome) ↔
  NoDup (lane_issue <$> lanes)
  ∧ ((outcome = scope_converged ∧ lanes ≠ [] ∧ ∀ l, l ∈ lanes → done_lane l = true)
     ∨ (outcome = scope_stopped_short
        ∧ (lanes = [] ∨ ∃ l, l ∈ lanes ∧ done_lane l = false))).
Proof.
  unfold make_scope_terminal. rewrite !raise_if_ok, !negb_false_iff, !bool_decide_eq_true.
  assert (forallb done_lane lanes = true ↔ ∀ l, l ∈ lanes → done_lane l = true) as Hall.
  { rewrite forallb_forall. setoid_rewrite list_elem_of_In. done. }
  unfold derive_scope_outcome. destruct lanes as [|l0 ls] eqn:Hls.
  { cbn. split; [intros (? & -> & _); split; [done|right; tauto]|].
    intros (? & [(_ & ? & _)|(-> & _)]); done. }
  rewrite <-Hls in *. rewrite (bool_decide_false (length lanes = 0)) by (by rewrite Hls).
  cbn [negb andb]. destruct (forallb done_lane lanes) eqn:E.
  - split.
    + intros (? & -> & _). split; [done|]. left. split_and!; [done|by rewrite Hls|by apply Hall].
    + intros (? & [(-> & _)|(_ & [He|(l & Hl & Hd)])]); [done|by rewrite Hls in He|].
      rewrite (proj1 Hall) in Hd; done.
  - split.
    + intros (? & -> & _). split; [done|]. right. split; [done|]. right.
      apply not_true_iff_false in E. rewrite forallb_forall in E.
      destruct (decide (Exists (λ l, done_lane l = false) lanes)) as [Hex|Hno].
      { by apply Exists_exists in Hex. }
      exfalso. apply E. intros l Hl%list_elem_of_In. apply not_false_iff_true. intros Hf.
      apply Hno, Exists_exists. by exists l.
    + intros (? & [(_ & _ & H)|(-> & _)]); [|done]. by apply Hall in H.
Qed.

Definition merged_state : WorkflowState := {|
  accept := ship_with_flags; merged := true; merge_error := None; remediation_rounds_used := 1;
  review_passed := true; trajectory := None; best_iteration_sha := Some "c1";
  is_criteria_infeasible := false; is_ruling_unrecorded := false |}.

Lemma classify_outcome_spec_witness :
  (0 ≤ remediation_rounds_used merged_state)%Z
  ∧ classify_outcome merged_state = Ok handed_off_for_delivery
  ∧ merged merged_state = true ∧ accept merged_state ≠ rejected.
Proof.
  assert (0 ≤ remediation_rounds_used merged_state)%Z as Hr by (cbn; lia).
  split; [exact Hr|]. split; [reflexivity|].
  pose proof (classify_outcome_spec merged_state Hr) as H. cbn in H.
  destruct H as (_ & _ & H & _). split; [exact (proj1 (H eq_refl))|]. discriminate.
Defined.
