(* ===== verification/Sha256.v ===== *)
(** * [hashlib.sha256(...).hexdigest()], as FIPS 180-4 defines it.

    The digest the branch names and the record keys carry, over a string's bytes.
    Words are 32-bit [Z]s; the examples are the standard's own vectors. *)

From S2P Require Import Prelude PyStr.

Section words.
Definition word (x : Z) : Z := Z.land x 4294967295.
Definition add32 (x y : Z) : Z := word (x + y).
Definition rotr (n x : Z) : Z := Z.lor (Z.shiftr x n) (word (Z.shiftl x (32 - n))).
Definition shr (n x : Z) : Z := Z.shiftr x n.
Definition ch (x y z : Z) : Z := Z.lxor (Z.land x y) (Z.land (Z.lxor x 4294967295) z).
Definition maj (x y z : Z) : Z := Z.lxor (Z.lxor (Z.land x y) (Z.land x z)) (Z.land y z).
Definition Sigma0 (x : Z) : Z := Z.lxor (Z.lxor (rotr 2 x) (rotr 13 x)) (rotr 22 x).
Definition Sigma1 (x : Z) : Z := Z.lxor (Z.lxor (rotr 6 x) (rotr 11 x)) (rotr 25 x).
Definition sigma0 (x : Z) : Z := Z.lxor (Z.lxor (rotr 7 x) (rotr 18 x)) (shr 3 x).
Definition sigma1 (x : Z) : Z := Z.lxor (Z.lxor (rotr 17 x) (rotr 19 x)) (shr 10 x).
End words.

(** The fractional parts of the cube roots of the first 64 primes. *)
Definition K256 : list Z := [
  1116352408; 1899447441; 3049323471; 3921009573; 961987163; 1508970993; 2453635748; 2870763221;
  3624381080; 310598401; 607225278; 1426881987; 1925078388; 2162078206; 2614888103; 3248222580;
  3835390401; 4022224774; 264347078; 604807628; 770255983; 1249150122; 1555081692; 1996064986;
  2554220882; 2821834349; 2952996808; 3210313671; 3336571891; 3584528711; 113926993; 338241895;
  666307205; 773529912; 1294757372; 1396182291; 1695183700; 1986661051; 2177026350; 2456956037;
  2730485921; 2820302411; 3259730800; 3345764771; 3516065817; 3600352804; 4094571909; 275423344;
  430227734; 506948616; 659060556; 883997877; 958139571; 1322822218; 1537002063; 1747873779;
  1955562222; 2024104815; 2227730452; 2361852424; 2428436474; 2756734187; 3204031479; 3329325298]%Z.

(** The fractional parts of the square roots of the first 8 primes. *)
Definition H256 : list Z := [
  1779033703; 3144134277; 1013904242; 2773480762; 1359893119; 2600822924; 528734635; 1541459225]%Z.

Fixpoint str_bytes (s : string) : list Z :=
  match s with
  | EmptyString => []
  | String c s => byte c :: str_bytes s
  end.

(** [n] in [k] bytes, most significant first. *)
Fixpoint be_bytes (k : nat) (n : Z) : list Z :=
  match k with
  | 0 => []
  | S k => Z.land (Z.shiftr n (8 * Z.of_nat k)) 255 :: be_bytes k n
  end.

(** A one bit, zeros to 56 bytes modulo 64, and the length in bits. *)
Definition pad (m : list Z) : list Z :=
  let n := length m in
  m ++ 128%Z :: replicate ((119 - n mod 64) mod 64) 0%Z ++ be_bytes 8 (8 * Z.of_nat n).

Fixpoint be_words (l : list Z) : list Z :=
  match l with
  | a :: b :: c :: d :: l =>
      (Z.lor (Z.lor (Z.shiftl a 24) (Z.shiftl b 16)) (Z.lor (Z.shiftl c 8) d)) :: be_words l
  | _ => []
  end.

(** The message schedule, latest word first. *)
Fixpoint schedule (fuel : nat) (rev_w : list Z) : list Z :=
  match fuel with
  | 0 => rev_w
  | S fuel =>
      let at_back i := nth i rev_w 0%Z in
      schedule fuel (word (sigma1 (at_back 1) + at_back 6 + sigma0 (at_back 14) + at_back 15)
                     :: rev_w)
  end.

Definition round (s : list Z) (kw : Z * Z) : list Z :=
  match s with
  | [a; b; c; d; e; f; g; h] =>
      let t1 := (h + Sigma1 e + ch e f g + kw.1 + kw.2)%Z in
      let t2 := (Sigma0 a + maj a b c)%Z in
      [word (t1 + t2); a; b; c; add32 d t1; e; f; g]
  | _ => s
  end.

Definition compress (h block : list Z) : list Z :=
  let w := rev (schedule 48 (rev block)) in
  zip_with add32 h (foldl round h (zip K256 w)).

(** Blocks of sixteen words. *)
Fixpoint blocks (fuel : nat) (l : list Z) : list (list Z) :=
  match fuel, l with
  | S fuel, _ :: _ => take 16 l :: blocks fuel (drop 16 l)
  | _, _ => []
  end.

Definition hex_digit (n : Z) : Ascii.ascii :=
  Ascii.ascii_of_N (Z.to_N (if (n <? 10)%Z then 48 + n else 87 + n)).

Fixpoint hex (k : nat) (n : Z) : string :=
  match k with
  | 0 => ""
  | S k => String (hex_digit (Z.land (Z.shiftr n (4 * Z.of_nat k)) 15)) (hex k n)
  end.

Definition sha256_hex (s : string) : string :=
  let w := be_words (pad (str_bytes s)) in
  String.concat "" (map (hex 8) (foldl compress H256 (blocks (length w) w))).

Example sha256_abc : sha256_hex "abc" =
  "ba7816bf8f01cfea414140de5dae2223b00361a396177a9cb410ff61f20015ad".
Proof. vm_compute. reflexivity. Qed.

Example sha256_two_blocks :
  sha256_hex "abcdbcdecdefdefgefghfghighijhijkijkljklmklmnlmnomnopnopq" =
  "248d6a61d20638b8e5c026930c3e6039a33ce45964ff2167f6ecedd419db06c1".
Proof. vm_compute. reflexivity. Qed.

Example sha256_empty : sha256_hex "" =
  "e3b0c44298fc1c149afbf4c8996fb92427ae41e4649b934ca495991b7852b855".
Proof. vm_compute. reflexivity. Qed.

(** ** The digest's shape *)

Lemma hex_length k n : String.length (hex k n) = k.
Proof. induction k as [|k IH]; cbn; [done|]. by rewrite IH. Qed.

Lemma round_length s kw : length (round s kw) = length s.
Proof. do 9 (destruct s as [|? s]; [done|]). done. Qed.

Lemma rounds_length kws s : length (foldl round s kws) = length s.
Proof.
  revert s; induction kws as [|kw kws IH]; intros s; [done|]. cbn. by rewrite IH, round_length.
Qed.

Lemma compress_length h b : length (compress h b) = length h.
Proof. unfold compress. rewrite length_zip_with, rounds_length. lia. Qed.

Lemma blocks_length bs h : length (foldl compress h bs) = length h.
Proof.
  revert h; induction bs as [|b bs IH]; intros h; [done|]. cbn. by rewrite IH, compress_length.
Qed.

Lemma concat_hex_length ws : String.length (String.concat "" (map (hex 8) ws)) = 8 * length ws.
Proof.
  induction ws as [|w ws IH]; [done|]. destruct ws as [|w' ws].
  { cbn [map String.concat]. by rewrite hex_length. }
  change (String.concat "" (map (hex 8) (w :: w' :: ws)))
    with (hex 8 w +:+ String.concat "" (map (hex 8) (w' :: ws))).
  rewrite str_length_app, IH, hex_length. cbn [length]. lia.
Qed.

Lemma sha256_hex_length s : String.length (sha256_hex s) = 64.
Proof. unfold sha256_hex. by rewrite concat_hex_length, blocks_length. Qed.
