(* ===== verification/BaseResolution.v ===== *)
(** * The base a lane is built on.

    Ref names and work refs (types/domain/branch.py), the rule over resolved blocker
    inputs (domain/base_resolution.py, base_staleness.py) and the service that reads the
    inputs, asks git what contains what and builds the combined base
    (services/base_resolver.py).

    The tracker, the ref reader and git are arguments: a finite snapshot of issues, the
    refs recorded on a key, and git's answers, each of which may raise. The walk up a
    blocker's parents carries fuel, [None] when it runs out; the calls [_construct] makes
    are kept as a trace, answered by an oracle of the calls made before. *)

From Stdlib Require Import Ascii.
From S2P Require Import Prelude PyStr Tracker Errors Sha256.

(** ** Ref names and work refs (types/domain/branch.py) *)

Inductive WorkRefRole := DELIVERABLE | ITERATION | RECOVERY | BEST_ITERATION | INTEGRATION.
#[export] Instance WorkRefRole_eq_dec : EqDecision WorkRefRole.
Proof. solve_decision. Defined.

Inductive WorkRefLanding := LANDED | NOT_LANDED | UNKNOWN.
#[export] Instance WorkRefLanding_eq_dec : EqDecision WorkRefLanding.
Proof. solve_decision. Defined.

Record WorkRef := {
  ref_issue_id : string;
  ref_role : WorkRefRole;
  ref_branch : string;
  pushed_head_sha : option string;
  landing : WorkRefLanding;
  recorded_at : Z;
}.

(** What makes a ref this ref, the recording instant excluded. *)
Definition identity (r : WorkRef) :
    string * WorkRefRole * string * option string * WorkRefLanding :=
  (ref_issue_id r, ref_role r, ref_branch r, pushed_head_sha r, landing r).

Record BaseInput := { blocker_issue_id : string; branch : string; sha : string }.
#[export] Instance BaseInput_eq_dec : EqDecision BaseInput.
Proof. solve_decision. Defined.

(** The fields' [min_length=1]. *)
Definition make_base_input (i : BaseInput) : result exn BaseInput :=
  raise_if (bool_decide (blocker_issue_id i = "" ∨ branch i = "" ∨ sha i = ""))
    (ValidationError "BaseInput") (Ok i).

Record BaseSpec := {
  inputs : list BaseInput;
  base_branch : string;
  base_role : option WorkRefRole;
}.
#[export] Instance BaseSpec_eq_dec : EqDecision BaseSpec.
Proof. solve_decision. Defined.

Definition make_base_spec (s : BaseSpec) : result exn BaseSpec :=
  raise_if (bool_decide (base_branch s = "")) (ValidationError "BaseSpec") (Ok s).

Definition trunk_base (b : string) : result exn BaseSpec :=
  make_base_spec {| inputs := []; base_branch := b; base_role := None |}.

Definition _INTEGRATION_INFIX : string := "-integration-".
Definition tab : Ascii.ascii := Ascii.ascii_of_nat 9.

Definition input_line (i : BaseInput) : string :=
  blocker_issue_id i +:+ String tab (branch i +:+ String tab (sha i)).
Definition digest_preimage (l : list BaseInput) : string :=
  join (String newline "") (map input_line l).
Definition _digest_of (l : list BaseInput) : string := sha256_hex (digest_preimage l).

Record IntegrationBranchName := { name_issue_id : string; name_inputs : list BaseInput }.
Definition make_integration_name (n : IntegrationBranchName) :
    result exn IntegrationBranchName :=
  raise_if (bool_decide (name_issue_id n = "")) (ValidationError "IntegrationBranchName") (Ok n).
Definition integration_str (n : IntegrationBranchName) : string :=
  name_issue_id n +:+ _INTEGRATION_INFIX +:+ _digest_of (name_inputs n).

(** [LANE_KEY_PATTERN] as the automaton of [^S(?:/S)*$], [S] being
    [[A-Za-z0-9]+(?:[-_.][A-Za-z0-9]+)*]: an alphanumeric is due, or one was just read. *)
Definition alnum (c : Ascii.ascii) : bool :=
  let n := byte c in
  ((48 <=? n) && (n <=? 57) || (65 <=? n) && (n <=? 90) || (97 <=? n) && (n <=? 122))%Z.
Definition joiner (c : Ascii.ascii) : bool :=
  bool_decide (c = "-"%char) || bool_decide (c = "_"%char) || bool_decide (c = "."%char)
  || bool_decide (c = "/"%char).
Fixpoint lane_key_run (due : bool) (s : string) : bool :=
  match s with
  | EmptyString => negb due
  | String c s => if alnum c then lane_key_run false s
                  else negb due && joiner c && lane_key_run true s
  end.
Definition lane_key_matches (s : string) : bool := lane_key_run true s.

Definition LOCK_SUFFIX : string := ".lock".
Definition lower_hex (c : Ascii.ascii) : bool :=
  let n := byte c in ((48 <=? n) && (n <=? 57) || (97 <=? n) && (n <=? 102))%Z.

Record LaneBranchName := { lane_issue_key : string; short_id : string }.
Definition make_lane_branch (n : LaneBranchName) : result exn LaneBranchName :=
  raise_if (negb (lane_key_matches (lane_issue_key n))
            || existsb (λ part, endswith part LOCK_SUFFIX) (split_char "/"%char (lane_issue_key n))
            || negb (bool_decide (String.length (short_id n) = 8) && str_all lower_hex (short_id n)))
    (ValidationError "LaneBranchName") (Ok n).
Definition lane_branch_str (n : LaneBranchName) : string :=
  "kodezart/" +:+ lane_issue_key n +:+ "-" +:+ short_id n.

(** ** The rule (domain/base_resolution.py) *)

Record BasePlan := {
  spec : BaseSpec;
  branch_point : option string;
  merge_inputs : list string;
}.
Definition requires_construction (p : BasePlan) : bool := bool_decide (branch_point p ≠ None).

Definition _deduped_in_deterministic_order (blocker_inputs : list BaseInput) : list BaseInput :=
  let by_branch := foldl (λ d i, dict_setdefault d (branch i) i) []
                     (sort_by blocker_issue_id blocker_inputs) in
  sort_by blocker_issue_id (dict_values by_branch).

Definition _frontier (ordered : list BaseInput) (containment : gset (string * string)) :
    list BaseInput :=
  filter (λ item, ¬ Exists (λ other, branch other ≠ branch item
                             ∧ (branch item, branch other) ∈ containment) ordered) ordered.

Definition _combine (issue_id : string) (frontier : list BaseInput) (trunk : string) :
    result exn BasePlan :=
  match frontier with
  | [] =>
      s ← make_base_spec {| inputs := []; base_branch := trunk; base_role := None |};
      Ok {| spec := s; branch_point := None; merge_inputs := [] |}
  | [head] =>
      s ← make_base_spec {| inputs := frontier; base_branch := branch head;
                            base_role := Some DELIVERABLE |};
      Ok {| spec := s; branch_point := None; merge_inputs := [] |}
  | head :: tail =>
      name ← make_integration_name {| name_issue_id := issue_id; name_inputs := frontier |};
      s ← make_base_spec {| inputs := frontier; base_branch := integration_str name;
                            base_role := Some INTEGRATION |};
      Ok {| spec := s; branch_point := Some (branch head); merge_inputs := branch <$> tail |}
  end.

Definition resolve_base (issue_id : string) (blocker_inputs : list BaseInput)
    (containment : list (string * string)) (trunk : string) : result exn BasePlan :=
  let ordered := _deduped_in_deterministic_order blocker_inputs in
  let frontier := _frontier ordered (list_to_set containment) in
  _combine issue_id frontier trunk.

(** ** Staleness (domain/base_staleness.py) *)

Definition is_base_stale (recorded implied : BaseSpec) : bool :=
  negb (bool_decide (recorded = implied)).

(** ** The resolver (services/base_resolver.py) *)

(** A read that may run out of fuel or raise. *)
Notation pending A := (option (result exn A)).
Definition pbind {A B} (m : pending A) (f : A → pending B) : pending B :=
  match m with
  | None => None
  | Some (Err e) => Some (Err e)
  | Some (Ok a) => f a
  end.

Fixpoint map_pending {A B} (f : A → pending B) (l : list A) : pending (list B) :=
  match l with
  | [] => Some (Ok [])
  | x :: l => pbind (f x) (λ y, pbind (map_pending f l) (λ ys, Some (Ok (y :: ys))))
  end.

Section reading.
Context (issues : gmap string TrackerIssue) (absent : string → exn).
Context (work_refs : string → result exn (list WorkRef)).
Context (remote_branch_sha : string → result exn (option string)).
Context (is_ancestor : string → string → result exn bool).

Definition read_issue (key : string) : result exn TrackerIssue :=
  match issues !! key with
  | Some i => Ok i
  | None => Err (absent key)
  end.

Definition _blocker_keys (issue_key : string) : result exn (list string) :=
  issue ← read_issue issue_key;
  Ok (relation_issue_key <$> filter (λ r, relation_kind r = BLOCKED_BY) (relations issue)).

Definition deliverables (refs : list WorkRef) : list WorkRef :=
  filter (λ r, ref_role r = DELIVERABLE) refs.

(** The loop: the cursor climbs the parents until a deliverable ref, a root or a key
    already seen. *)
Fixpoint nearest (fuel : nat) (seen : gset string) (cursor : option string)
    (blocker_key issue_key : string) : pending (option WorkRef) :=
  match cursor with
  | None => Some (Ok None)
  | Some key =>
      if decide (key ∈ seen) then Some (Ok None)
      else match fuel with
      | 0 => None
      | S fuel =>
          match work_refs key with
          | Err e => Some (Err e)
          | Ok refs =>
              match deliverables refs with
              | [] =>
                  match read_issue key with
                  | Err e => Some (Err e)
                  | Ok i => nearest fuel ({[ key ]} ∪ seen) (parent_key i) blocker_key issue_key
                  end
              | [ref] => Some (Ok (Some ref))
              | many => Some (Err (BaseResolutionError
                          ("multiple deliverable refs are recorded on " +:+ key)
                          issue_key [blocker_key] (ref_branch <$> many)))
              end
          end
      end
  end.

Definition _nearest_deliverable_ref (blocker_key issue_key : string) : pending (option WorkRef) :=
  nearest (S (size issues)) ∅ (Some blocker_key) blocker_key issue_key.

Definition _input_for (issue_key blocker_key : string) : pending (option BaseInput) :=
  pbind (_nearest_deliverable_ref blocker_key issue_key) (λ found,
  Some match found with
  | None =>
      blocker ← read_issue blocker_key;
      if negb (is_open (state_kind blocker)) then Ok None
      else Err (BaseResolutionError
             "no deliverable ref on the blocker or any of its ancestors" issue_key [blocker_key] [])
  | Some ref =>
      match landing ref with
      | LANDED => Ok None
      | NOT_LANDED | UNKNOWN =>
          match pushed_head_sha ref with
          | None => Err (BaseResolutionError
                      "the blocker's deliverable ref has never been pushed"
                      issue_key [blocker_key] [ref_branch ref])
          | Some head =>
              i ← make_base_input {| blocker_issue_id := blocker_key; branch := ref_branch ref;
                                     sha := head |};
              Ok (Some i)
          end
      end
  end).

Definition _require_present_on_remote (issue_key : string) (item : BaseInput) : result exn unit :=
  head ← remote_branch_sha (branch item);
  match head with
  | None => Err (BaseResolutionError "the blocker's deliverable ref is absent from the remote"
                   issue_key [blocker_issue_id item] [branch item])
  | Some _ => Ok tt
  end.

(** The double loop over the sorted distinct branches. *)
Definition _containment (l : list BaseInput) : result exn (list (string * string)) :=
  let branches := sort_by id (elements (list_to_set (branch <$> l) : gset string)) in
  foldM (λ pairs pair,
    if decide (pair.1 = pair.2) then Ok pairs
    else contained ← is_ancestor pair.1 pair.2;
         Ok (if contained : bool then pairs ++ [pair] else pairs))
    [] (contained ← branches; containing ← branches; [(contained, containing)]).

(** [resolve] up to the plan. *)
Definition resolve_plan (issue_key trunk : string) : pending BasePlan :=
  pbind (Some (_blocker_keys issue_key)) (λ blocker_keys,
  pbind (map_pending (_input_for issue_key) blocker_keys) (λ found,
  Some (let items := omap id found in
        _ ← foldM (λ _ item, _require_present_on_remote issue_key item) tt items;
        containment ← _containment items;
        resolve_base issue_key items containment trunk))).

(** [unrecorded_closed_blockers]: its loop over the blocker keys. *)
Fixpoint assumed_landed (issue_key : string) (seen : gset string) (keys : list string) :
    pending (list string) :=
  match keys with
  | [] => Some (Ok [])
  | key :: keys =>
      if decide (key ∈ seen) then assumed_landed issue_key seen keys
      else
        let seen := {[ key ]} ∪ seen in
        pbind (_nearest_deliverable_ref key issue_key) (λ ref,
        match ref with
        | Some _ => assumed_landed issue_key seen keys
        | None =>
            match read_issue key with
            | Err e => Some (Err e)
            | Ok blocker =>
                if is_open (state_kind blocker) then assumed_landed issue_key seen keys
                else pbind (assumed_landed issue_key seen keys) (λ l, Some (Ok (key :: l)))
            end
        end)
  end.
Definition unrecorded_closed_blockers (issue_key : string) : pending (list string) :=
  pbind (Some (_blocker_keys issue_key)) (assumed_landed issue_key ∅).
End reading.

(** ** Building the combined base *)

Inductive call :=
| CreateWorktree (at_ref new_branch : string)
| MergeBranch (source : string)
| RemoveWorktree
| Push (pushed : string)
| CurrentSha
| RecordWorkRef (ref : WorkRef).

Section construction.
(** What git and the tracker answer, given the calls made before: a call raises, or
    answers, [CurrentSha] with the sha. *)
Context (answer : list call → call → result exn string).

Definition do (t : list call) (c : call) : list call * result exn string := (t ++ [c], answer t c).

Fixpoint merge_all (t : list call) (sources : list string) : list call * result exn unit :=
  match sources with
  | [] => (t, Ok tt)
  | source :: sources =>
      match do t (MergeBranch source) with
      | (t, Ok _) => merge_all t sources
      | (t, Err e) => (t, Err e)
      end
  end.

Definition _construct (issue_key : string) (plan : BasePlan) (now : Z) (t : list call) :
    list call * result exn unit :=
  let new_branch := base_branch (spec plan) in
  match do t (CreateWorktree (default "None" (branch_point plan)) new_branch) with
  | (t, Err e) => (t, Err e)
  | (t, Ok _) =>
      match merge_all t (merge_inputs plan) with
      | (t, Err (MergeConflictError _ paths)) =>
          match do t RemoveWorktree with
          | (t, Err e) => (t, Err e)
          | (t, Ok _) => (t, Err (BaseIntegrationConflictError issue_key
                                    (branch <$> inputs (spec plan)) paths))
          end
      | (t, Err e) => (t, Err e)
      | (t, Ok _) =>
          match do t (Push new_branch) with
          | (t, Err e) => (t, Err e)
          | (t, Ok _) =>
              match do t CurrentSha with
              | (t, Err e) => (t, Err e)
              | (t, Ok head) =>
                  match do t RemoveWorktree with
                  | (t, Err e) => (t, Err e)
                  | (t, Ok _) =>
                      let ref := {| ref_issue_id := issue_key; ref_role := INTEGRATION;
                                    ref_branch := new_branch; pushed_head_sha := Some head;
                                    landing := UNKNOWN; recorded_at := now |} in
                      match do t (RecordWorkRef ref) with
                      | (t, Err e) => (t, Err e)
                      | (t, Ok _) => (t, Ok tt)
                      end
                  end
              end
          end
      end
  end.

(** [resolve], given the plan its reads came to. *)
Definition resolve (issue_key : string) (plan : result exn BasePlan) (now : Z) :
    list call * result exn BaseSpec :=
  match plan with
  | Err e => ([], Err e)
  | Ok plan =>
      if requires_construction plan then
        match _construct issue_key plan now [] with
        | (t, Ok _) => (t, Ok (spec plan))
        | (t, Err e) => (t, Err e)
        end
      else ([], Ok (spec plan))
  end.
End construction.

(** ** The order and the frontier *)

(** The dict of first-comers, keyed by branch. *)
Record first_comers (l : list BaseInput) (d : pydict string BaseInput) : Prop := {
  fc_keys : NoDup (dict_keys d);
  fc_branch : ∀ k i, (k, i) ∈ d → branch i = k ∧ i ∈ l;
  fc_all : ∀ i, i ∈ l → branch i ∈ dict_keys d;
}.

Lemma first_comers_fold l :
  first_comers l (foldl (λ d i, dict_setdefault d (branch i) i) [] l).
Proof.
  induction l as [|i l IH] using rev_ind.
  { constructor; cbn; [constructor|by intros k i ?%not_elem_of_nil|by intros i ?%not_elem_of_nil]. }
  rewrite foldl_app. cbn [foldl]. destruct IH as [Hk Hb Ha].
  set (d := foldl _ [] l) in *. unfold dict_setdefault.
  destruct (dict_get d (branch i)) as [v|] eqn:E.
  - constructor; [done| |].
    + intros k j [? ?]%Hb. split; [done|]. apply elem_of_app. by left.
    + intros j [Hj|Hj]%elem_of_app; [by apply Ha|]. apply list_elem_of_singleton in Hj as ->.
      apply dict_get_is_Some. by exists v.
  - apply dict_get_None in E. constructor.
    + by apply dict_set_NoDup.
    + rewrite dict_set_fresh by done. intros k j [Hj|Hj]%elem_of_app.
      * apply Hb in Hj as [? ?]. split; [done|]. apply elem_of_app. by left.
      * apply list_elem_of_singleton in Hj as [= -> ->]. split; [done|].
        apply elem_of_app. right. by left.
    + intros j Hj. apply elem_of_dict_set_keys. apply elem_of_app in Hj as [Hj|Hj].
      * right. by apply Ha.
      * left. by apply list_elem_of_singleton in Hj as ->.
Qed.

Lemma deduped_elem l i : i ∈ _deduped_in_deterministic_order l → i ∈ l.
Proof.
  unfold _deduped_in_deterministic_order, dict_values.
  rewrite elem_of_sort_by, list_elem_of_fmap. intros ([k j] & -> & Hin).
  apply (fc_branch _ _ (first_comers_fold _)) in Hin as [_ Hin].
  by apply elem_of_sort_by in Hin.
Qed.

Lemma deduped_covers l i :
  i ∈ l → ∃ j, j ∈ _deduped_in_deterministic_order l ∧ branch j = branch i.
Proof.
  intros Hi. pose proof (first_comers_fold (sort_by blocker_issue_id l)) as [_ Hb Ha].
  apply elem_of_sort_by with (key := blocker_issue_id) in Hi. apply Ha in Hi.
  unfold dict_keys in Hi. apply list_elem_of_fmap in Hi as ([k j] & Hk & Hin).
  exists j. unfold _deduped_in_deterministic_order, dict_values. split.
  - apply elem_of_sort_by, list_elem_of_fmap. by exists (k, j).
  - apply Hb in Hin as [-> _]. done.
Qed.

Lemma deduped_NoDup l : NoDup (branch <$> _deduped_in_deterministic_order l).
Proof.
  pose proof (first_comers_fold (sort_by blocker_issue_id l)) as [Hk Hb _].
  unfold _deduped_in_deterministic_order. rewrite sort_by_perm. unfold dict_values.
  rewrite <-list_fmap_compose. set (d := foldl _ [] _) in *.
  assert (branch ∘ snd <$> d = dict_keys d) as ->; [|done].
  apply list_fmap_ext. intros n [k i] Hi%list_elem_of_lookup_2. by apply Hb.
Qed.

Lemma frontier_elem l c i :
  i ∈ _frontier l c ↔
  i ∈ l ∧ ∀ j, j ∈ l → branch j ≠ branch i → (branch i, branch j) ∉ c.
Proof.
  unfold _frontier. rewrite list_elem_of_filter, Exists_exists. split.
  - intros [Hn Hi]. split; [done|]. intros j Hj Hne Hc. apply Hn. by exists j.
  - intros [Hi Hn]. split; [|done]. intros (j & Hj & Hne & Hc). by apply (Hn j).
Qed.

Lemma frontier_sublist l c : _frontier l c `sublist_of` l.
Proof. apply sublist_filter. Qed.

(** Containment of commits: transitive, and over pairs of distinct branches, two of which
    contain each other when they stand at one commit. *)
Definition contained_transitively (c : gset (string * string)) : Prop :=
  ∀ a b d, (a, b) ∈ c → (b, d) ∈ c → a ≠ d → (a, d) ∈ c.

(** Two inputs of distinct branches contain each other, and [i] is one of them or below. *)
Definition tied (l : list BaseInput) (c : gset (string * string)) (i : BaseInput) : Prop :=
  ∃ j k, j ∈ l ∧ k ∈ l ∧ branch j ≠ branch k ∧ (branch j, branch k) ∈ c ∧ (branch k, branch j) ∈ c
    ∧ (branch i = branch j ∨ (branch i, branch j) ∈ c).

(** The inputs above one: what shrinks on the way to a maximal one. *)
Definition above (l : list BaseInput) (c : gset (string * string)) (i : BaseInput) : list BaseInput :=
  filter (λ j, branch j ≠ branch i ∧ (branch i, branch j) ∈ c) l.

Lemma above_shrinks l c i j :
  contained_transitively c → j ∈ above l c i → (branch j, branch i) ∉ c →
  length (above l c j) < length (above l c i).
Proof.
  intros Hc [[Hne Hij] Hj]%list_elem_of_filter Hji.
  assert (above l c j = filter (λ k, branch k ≠ branch j ∧ (branch j, branch k) ∈ c)
    (above l c i)) as ->.
  { unfold above. rewrite list_filter_filter. apply list_filter_iff. intros k.
    split; [|tauto]. intros [Hk Hjk]. assert (branch k ≠ branch i) by congruence.
    split; [done|]. split; [done|]. by apply (Hc _ (branch j)). }
  apply length_filter_lt with j; [|by intros [? _]]. by apply list_elem_of_filter.
Qed.

Lemma frontier_covers l c i :
  contained_transitively c → i ∈ l →
  (∃ j, j ∈ _frontier l c ∧ (branch j = branch i ∨ (branch i, branch j) ∈ c)) ∨ tied l c i.
Proof.
  intros Hc. remember (length (above l c i)) as n eqn:Hn. revert i Hn.
  induction (lt_wf n) as [n _ IH]. intros i -> Hi.
  destruct (decide (i ∈ _frontier l c)) as [Hf|Hf]; [left; exists i; split; [done|by left]|].
  assert (Exists (λ j, branch j ≠ branch i ∧ (branch i, branch j) ∈ c) l) as Hex.
  { destruct (decide (Exists (λ j, branch j ≠ branch i ∧ (branch i, branch j) ∈ c) l))
      as [|Hn]; [done|]. destruct Hf. by apply list_elem_of_filter. }
  apply Exists_exists in Hex as (j & Hj & Hne & Hij).
  destruct (decide ((branch j, branch i) ∈ c)) as [Hji|Hji].
  { right. exists i, j. split_and!; [done..|by left]. }
  assert (∀ k, branch j = branch k ∨ (branch j, branch k) ∈ c → branch i = branch k ∨ (branch i, branch k) ∈ c) as Hup.
  { intros k [<-|Hjk]; [by right|]. destruct (decide (branch i = branch k)); [by left|]. right.
    by apply (Hc _ (branch j)). }
  destruct (IH (length (above l c j))) with (i := j) as [(k & Hk & Hjk)|(k & k' & Hk & Hk' & Hkk & H1 & H2 & Hjk)]; [|done..| |].
  { apply above_shrinks; [done| |done]. by apply list_elem_of_filter. }
  - left. exists k. split; [done|]. destruct (Hup k) as [?|?]; [destruct Hjk; auto|by left|by right].
  - right. exists k, k'. split_and!; try done. by apply Hup.
Qed.

(** ** The rule, verified *)

(** The base a frontier makes. *)
Definition combined (issue_id trunk : string) (frontier : list BaseInput) (p : BasePlan) : Prop :=
  inputs (spec p) = frontier
  ∧ match frontier with
    | [] => base_branch (spec p) = trunk ∧ base_role (spec p) = None
            ∧ branch_point p = None ∧ merge_inputs p = []
    | [i] => base_branch (spec p) = branch i ∧ base_role (spec p) = Some DELIVERABLE
             ∧ branch_point p = None ∧ merge_inputs p = []
    | i :: rest => base_branch (spec p) = issue_id +:+ "-integration-" +:+ _digest_of frontier
                   ∧ base_role (spec p) = Some INTEGRATION
                   ∧ branch_point p = Some (branch i) ∧ merge_inputs p = branch <$> rest
    end.

Lemma combine_Ok issue_id frontier trunk p :
  _combine issue_id frontier trunk = Ok p → combined issue_id trunk frontier p.
Proof.
  unfold _combine, make_base_spec, make_integration_name.
  destruct frontier as [|i [|j rest]]; intros H; ok_inv; subst; by split.
Qed.

Lemma combine_Err issue_id frontier trunk e :
  _combine issue_id frontier trunk = Err e →
  trunk = "" ∨ issue_id = "" ∨ ∃ i, i ∈ frontier ∧ branch i = "".
Proof.
  unfold _combine, make_base_spec, make_integration_name, raise_if.
  destruct frontier as [|i [|j rest]]; cbn.
  - case_bool_decide; [by left|done].
  - case_bool_decide; [|done]. intros _. right. right. exists i. split; [by left|done].
  - case_bool_decide; [by right; left|]. cbn. case_bool_decide as He; [|done]. cbn in He.
    exfalso. destruct issue_id; [done|]. cbn in He. done.
Qed.

(** The rule over blocker inputs: it refuses only empty names; otherwise the base keeps
    inputs of distinct branches in the blockers' order, none contained in another, such that
    every blocker's branch is one of them or contained in one of them, unless it is, or is
    below, one of two branches at one commit. *)
Lemma resolve_base_frontier issue_id blockers containment trunk :
  contained_transitively (list_to_set containment) →
  match resolve_base issue_id blockers containment trunk with
  | Ok p =>
      combined issue_id trunk (inputs (spec p)) p
      ∧ (blockers = [] → inputs (spec p) = [])
      ∧ NoDup (branch <$> inputs (spec p))
      ∧ StronglySorted (λ i j, str_leb (blocker_issue_id i) (blocker_issue_id j) = true)
          (inputs (spec p))
      ∧ (∀ i, i ∈ inputs (spec p) → i ∈ blockers
           ∧ ∀ j, j ∈ inputs (spec p) → branch j ≠ branch i → (branch i, branch j) ∉ containment)
      ∧ ∀ i, i ∈ blockers → (∃ j, j ∈ inputs (spec p)
           ∧ (branch j = branch i ∨ (branch i, branch j) ∈ containment))
           ∨ tied blockers (list_to_set containment) i
  | Err _ => trunk = "" ∨ issue_id = "" ∨ ∃ i, i ∈ blockers ∧ branch i = ""
  end.
Proof.
  intros Hc. unfold resolve_base. cbv zeta.
  set (l := _deduped_in_deterministic_order blockers).
  set (f := _frontier l (list_to_set containment)).
  assert (∀ i, i ∈ blockers → (∃ j, j ∈ f
    ∧ (branch j = branch i ∨ (branch i, branch j) ∈ containment))
    ∨ tied blockers (list_to_set containment) i) as Hcov.
  { intros i Hi. destruct (deduped_covers blockers i Hi) as (i' & Hi' & Hb).
    destruct (frontier_covers l _ i' Hc Hi') as [(j & Hj & Hij)|(j & k & Hj & Hk & Ht)].
    - left. exists j. rewrite <-Hb. split; [done|]. by rewrite elem_of_list_to_set in Hij.
    - right. exists j, k. rewrite <-Hb. split; [by apply deduped_elem|]. split; [by apply deduped_elem|done]. }
  destruct (_combine issue_id f trunk) as [p|e] eqn:E.
  - pose proof (combine_Ok _ _ _ _ E) as Hp. split; [by rewrite (proj1 Hp)|]. split_and!.
    + intros Hnil. rewrite (proj1 Hp). unfold f, l. by rewrite Hnil.
    + rewrite (proj1 Hp). eapply sublist_NoDup; [apply deduped_NoDup|]. by apply fmap_sublist, frontier_sublist.
    + rewrite (proj1 Hp). apply StronglySorted_filter.
      exact (sort_by_sorted blocker_issue_id _).
    + rewrite (proj1 Hp). intros i [Hi Hn]%frontier_elem. split; [by apply deduped_elem|].
      intros j [Hj _]%frontier_elem Hne Hin. apply (Hn j Hj Hne). by rewrite elem_of_list_to_set.
    + by rewrite (proj1 Hp).
  - apply combine_Err in E as [?|[?|(i & [Hi _]%frontier_elem & He)]]; [by left|by right; left|].
    right. right. exists i. split; [by apply deduped_elem|done].
Qed.

(** Where the trunk is used. Whatever git answered, the base is the trunk exactly
    when every blocker's branch is contained in another blocker's: when there is no
    blocker, and also when two blockers' branches stand at one commit, since git holds
    each of those for an ancestor of the other. *)
Theorem resolve_base_trunk_iff issue_id blockers containment trunk p :
  resolve_base issue_id blockers containment trunk = Ok p →
  base_role (spec p) = None ↔
  ∀ i, i ∈ blockers → ∃ j, j ∈ blockers ∧ branch j ≠ branch i
    ∧ (branch i, branch j) ∈ containment.
Proof.
  unfold resolve_base. cbv zeta. intros Hp%combine_Ok.
  set (l := _deduped_in_deterministic_order blockers) in *.
  set (f := _frontier l (list_to_set containment)) in *.
  assert (base_role (spec p) = None ↔ f = []) as ->.
  { destruct Hp as [_ Hp]. destruct f as [|i [|j rest]];
      [by split; [|intros _; apply Hp]|..]; destruct Hp as (_ & -> & _); done. }
  split.
  - intros Hf i Hi. destruct (deduped_covers blockers i Hi) as (i' & Hi' & Hb).
    destruct (decide (i' ∈ f)) as [Hin|Hn]; [rewrite Hf in Hin; by apply not_elem_of_nil in Hin|].
    destruct (decide (Exists (λ j, branch j ≠ branch i'
      ∧ (branch i', branch j) ∈ (list_to_set containment : gset _)) l)) as [Hex|Hex].
    + apply Exists_exists in Hex as (j & Hj & Hne & Hij). exists j. rewrite <-Hb.
      rewrite elem_of_list_to_set in Hij. split; [by apply deduped_elem|done].
    + destruct Hn. by apply list_elem_of_filter.
  - intros Hall. destruct f as [|i rest] eqn:Hf; [done|]. exfalso.
    assert (i ∈ f) as Hi by (rewrite Hf; by left). apply frontier_elem in Hi as [Hi Hn].
    destruct (Hall i) as (j & Hj & Hne & Hij); [by apply deduped_elem|].
    destruct (deduped_covers blockers j Hj) as (j' & Hj' & Hb).
    apply (Hn j' Hj'); [congruence|]. by rewrite elem_of_list_to_set, Hb.
Qed.

(** The base does not depend on the order the tracker lists the blockers in, nor on
    the order git was asked in. *)
Theorem resolve_base_order issue_id l1 l2 c1 c2 trunk :
  l1 ≡ₚ l2 → (∀ i j, i ∈ l1 → j ∈ l1 → blocker_issue_id i = blocker_issue_id j → i = j) →
  (∀ ab, ab ∈ c1 ↔ ab ∈ c2) →
  resolve_base issue_id l1 c1 trunk = resolve_base issue_id l2 c2 trunk.
Proof.
  intros Hl Hid Hc. unfold resolve_base.
  assert (sort_by blocker_issue_id l1 = sort_by blocker_issue_id l2) as Hs
    by by apply sort_by_unique_in.
  assert (list_to_set c1 = (list_to_set c2 : gset (string * string))) as Hset.
  { apply set_eq. intros ab. by rewrite !elem_of_list_to_set. }
  unfold _deduped_in_deterministic_order. by rewrite Hs, Hset.
Qed.

(** ** The walk to the nearest deliverable *)

Section walking.
Context (issues : gmap string TrackerIssue) (absent : string → exn).
Context (work_refs : string → result exn (list WorkRef)).

(** [b] is the parent the snapshot gives [a]. *)
Definition parent_of (a b : string) : Prop :=
  ∃ i, issues !! a = Some i ∧ parent_key i = Some b.

(** [a] records no deliverable ref. *)
Definition barren (a : string) : Prop :=
  ∃ refs, work_refs a = Ok refs ∧ deliverables refs = [].

(** What a finished walk found. *)
Definition walked (blocker : string) (found : option WorkRef) : Prop :=
  match found with
  | Some r => ∃ a refs, rtc parent_of blocker a ∧ work_refs a = Ok refs ∧ deliverables refs = [r]
  | None => ∀ a, rtc parent_of blocker a → barren a
  end.

(** The keys seen are the ancestors walked so far, all barren, and their parents are
    seen too but for the cursor. *)
Record walk_inv (blocker : string) (seen : gset string) (cursor : option string) : Prop := {
  wi_start : blocker ∈ seen ∨ cursor = Some blocker;
  wi_barren : ∀ a, a ∈ seen → barren a;
  wi_known : seen ⊆ dom issues;
  wi_parent : ∀ a b, a ∈ seen → parent_of a b → b ∈ seen ∨ cursor = Some b;
  wi_cursor : ∀ c, cursor = Some c → rtc parent_of blocker c;
}.

Lemma walk_inv_start blocker : walk_inv blocker ∅ (Some blocker).
Proof.
  constructor; [by right|set_solver|set_solver|set_solver|]. by intros c [= <-].
Qed.

Lemma walk_inv_step blocker seen c refs i :
  walk_inv blocker seen (Some c) → work_refs c = Ok refs → deliverables refs = [] →
  issues !! c = Some i → walk_inv blocker ({[c]} ∪ seen) (parent_key i).
Proof.
  intros [Hs Hb Hk Hp Hc] Hr Hd Hi. constructor.
  - destruct Hs as [Hs|[= ->]]; [left; set_solver|left; set_solver].
  - intros a [->%elem_of_singleton|Ha]%elem_of_union; [by exists refs|by apply Hb].
  - apply union_subseteq. split; [|done]. apply singleton_subseteq_l, elem_of_dom. by exists i.
  - intros a b [->%elem_of_singleton|Ha]%elem_of_union Hab.
    + right. destruct Hab as (i' & Hi' & Hb'). congruence.
    + left. destruct (Hp a b Ha Hab) as [?|[= ->]]; set_solver.
  - intros d Hd'. eapply rtc_r; [by apply Hc|]. by exists i.
Qed.

(** A walk that stops without a ref has seen every ancestor. *)
Lemma walk_inv_closed blocker seen cursor a :
  walk_inv blocker seen cursor → (∀ c, cursor = Some c → c ∈ seen) →
  rtc parent_of blocker a → a ∈ seen.
Proof.
  intros [Hs Hb Hk Hp Hc] Hstop. apply (rtc_ind_r (λ a, a ∈ seen)).
  - destruct Hs as [|Hs]; [done|by apply Hstop].
  - intros b d _ Hbd IH. destruct (Hp b d IH Hbd) as [|Hcur]; [done|by apply Hstop].
Qed.

Lemma nearest_walks fuel seen cursor blocker issue_key :
  walk_inv blocker seen cursor → size issues < fuel + size seen →
  ∃ r, nearest issues absent work_refs fuel seen cursor blocker issue_key = Some r
    ∧ match r with Ok found => walked blocker found | Err _ => True end.
Proof.
  revert seen cursor. induction fuel as [|fuel IH]; intros seen cursor Hinv Hf.
  { destruct cursor as [c|]; cbn [nearest].
    - exfalso. pose proof (subseteq_size _ _ (wi_known _ _ _ Hinv)) as Hle.
      rewrite size_dom in Hle. lia.
    - eexists. split; [done|]. intros a Ha. apply (wi_barren _ _ _ Hinv).
      by eapply walk_inv_closed. }
  destruct cursor as [c|]; cbn [nearest].
  2:{ eexists. split; [done|]. intros a Ha. apply (wi_barren _ _ _ Hinv).
      by eapply walk_inv_closed. }
  destruct (decide (c ∈ seen)) as [Hc|Hc].
  { eexists. split; [done|]. intros a Ha. apply (wi_barren _ _ _ Hinv).
    eapply walk_inv_closed; [done| |done]. by intros ? [= <-]. }
  destruct (work_refs c) as [refs|e] eqn:Hr; [|by eexists].
  destruct (deliverables refs) as [|d [|d' ds]] eqn:Hd; [|eexists; split; [done|]|by eexists].
  - unfold read_issue. destruct (issues !! c) as [i|] eqn:Hi; [|by eexists].
    apply IH; [by eapply walk_inv_step|]. rewrite size_union, size_singleton by set_solver. lia.
  - exists c, refs. split; [|done]. by apply (wi_cursor _ _ _ Hinv).
Qed.

Lemma nearest_ref_walks blocker issue_key :
  ∃ r, _nearest_deliverable_ref issues absent work_refs blocker issue_key = Some r
    ∧ match r with Ok found => walked blocker found | Err _ => True end.
Proof. apply nearest_walks; [apply walk_inv_start|]. rewrite size_empty. lia. Qed.

(** What a blocker contributes to the base. *)
Definition contributes (blocker : string) (item : option BaseInput) : Prop :=
  match item with
  | None =>
      (∀ a, rtc parent_of blocker a → barren a)
      ∧ (∃ i, issues !! blocker = Some i ∧ is_open (state_kind i) = false)
      ∨ ∃ r, walked blocker (Some r) ∧ landing r = LANDED
  | Some item => ∃ r, walked blocker (Some r) ∧ landing r ≠ LANDED
      ∧ blocker_issue_id item = blocker ∧ branch item = ref_branch r
      ∧ pushed_head_sha r = Some (sha item)
  end.

Lemma input_for_spec issue_key blocker :
  ∃ r, _input_for issues absent work_refs issue_key blocker = Some r
    ∧ match r with Ok item => contributes blocker item | Err _ => True end.
Proof.
  unfold _input_for. destruct (nearest_ref_walks blocker issue_key) as (r & -> & Hr).
  destruct r as [[ref|]|e]; cbn [pbind]; [| |by eexists].
  - eexists. split; [reflexivity|]. destruct (landing ref) eqn:Hl.
    { right. by exists ref. }
    all: destruct (pushed_head_sha ref) as [head|] eqn:Hp; [|done].
    all: unfold make_base_input; destruct (raise_if _ _ _) as [item|] eqn:Hi; [|done];
      ok_inv; subst item; exists ref; by rewrite Hl.
  - eexists. split; [reflexivity|]. unfold read_issue.
    destruct (issues !! blocker) as [i|] eqn:Hi; [|done]. cbn.
    destruct (is_open (state_kind i)) eqn:Ho; [done|]. left. split; [done|]. by exists i.
Qed.

Lemma inputs_spec issue_key keys :
  ∃ r, map_pending (_input_for issues absent work_refs issue_key) keys = Some r
    ∧ match r with Ok items => Forall2 contributes keys items | Err _ => True end.
Proof.
  induction keys as [|k keys IH]; cbn [map_pending]; [exists (Ok []); split; [done|constructor]|].
  destruct (input_for_spec issue_key k) as ([item|e] & -> & Hk); cbn [pbind]; [|by eexists].
  destruct IH as ([items|e] & -> & Hks); cbn [pbind]; [|by eexists].
  eexists. split; [done|]. by constructor.
Qed.
End walking.

(** ** The resolver, verified *)

Lemma containment_spec (is_ancestor : string → string → result exn bool) l pairs :
  _containment is_ancestor l = Ok pairs →
  ∀ a b, (a, b) ∈ pairs ↔ a ∈ branch <$> l ∧ b ∈ branch <$> l ∧ a ≠ b ∧ is_ancestor a b = Ok true.
Proof.
  unfold _containment. set (bs := sort_by id _).
  assert (∀ b, b ∈ bs ↔ b ∈ branch <$> l) as Hbs
    by (intros b; unfold bs; by rewrite elem_of_sort_by, elem_of_elements, elem_of_list_to_set).
  assert (∀ ps acc out, foldM (λ pairs pair, if decide (pair.1 = pair.2) then Ok pairs
      else contained ← is_ancestor pair.1 pair.2;
           Ok (if contained : bool then pairs ++ [pair] else pairs)) acc ps = Ok out →
    ∀ p, p ∈ out ↔ p ∈ acc ∨ p ∈ ps ∧ p.1 ≠ p.2 ∧ is_ancestor p.1 p.2 = Ok true) as Hfold.
  { induction ps as [|q ps IH]; intros acc out; cbn [foldM].
    { intros [= <-] p. rewrite elem_of_nil. tauto. }
    intros (acc' & Hq & Hrest)%bind_ok p. rewrite (IH _ _ Hrest p), elem_of_cons. clear IH Hrest.
    assert (p ∈ acc' ↔ p ∈ acc ∨ p = q ∧ p.1 ≠ p.2 ∧ is_ancestor p.1 p.2 = Ok true) as ->;
      [|tauto].
    destruct (decide (q.1 = q.2)) as [Heq|Heq].
    { injection Hq as <-. split; [by left|]. intros [?|(-> & ? & _)]; done. }
    destruct (is_ancestor q.1 q.2) as [[]|] eqn:Hanc; [| |done]; injection Hq as <-.
    - rewrite elem_of_app, list_elem_of_singleton. split; [|tauto].
      intros [?| ->]; [by left|by right].
    - split; [by left|]. intros [?|(-> & _ & ?)]; [done|congruence]. }
  intros Hp a b. rewrite (Hfold _ _ _ Hp (a, b)), elem_of_nil. cbn [fst snd].
  rewrite <-!Hbs, list_elem_of_bind. setoid_rewrite list_elem_of_bind.
  setoid_rewrite list_elem_of_singleton. split.
  - intros [[]|[(x & (y & [= -> ->] & Hy) & Hx) ?]]. done.
  - intros (Ha & Hb & ?). right. split; [|done]. exists a. split; [|done]. by exists b.
Qed.

Lemma require_all_present remote issue_key l :
  foldM (λ _ item, _require_present_on_remote remote issue_key item) tt l = Ok tt →
  ∀ i, i ∈ l → ∃ head, remote (branch i) = Ok (Some head).
Proof.
  induction l as [|j l IH]; cbn [foldM]; [by intros _ i ?%not_elem_of_nil|].
  intros ([] & Hj & Hl)%bind_ok i [->|Hi]%elem_of_cons; [|by apply IH].
  unfold _require_present_on_remote in Hj. apply bind_ok in Hj as ([head|] & Hh & Hj); [|done].
  by exists head.
Qed.

(** [i] is one of two branches among the blockers' inputs that git holds for ancestors of
    each other, or an ancestor of one. *)
Definition at_one_commit (is_ancestor : string → string → result exn bool)
    (items : list (option BaseInput)) (i : BaseInput) : Prop :=
  ∃ j k, Some j ∈ items ∧ Some k ∈ items ∧ branch j ≠ branch k
    ∧ is_ancestor (branch j) (branch k) = Ok true ∧ is_ancestor (branch k) (branch j) = Ok true
    ∧ (branch i = branch j ∨ is_ancestor (branch i) (branch j) = Ok true).

(** C39. The resolver. Over a finite snapshot the walk up a blocker's parents always ends,
    a cycle of parents included. When the resolution returns a plan, each BLOCKED_BY
    blocker either is closed with no deliverable ref on itself or any ancestor, or its
    nearest ref has landed, or its nearest ref's branch is on the remote and is a kept
    input, or contained in one, or else it is, or is contained in, one of two blockers'
    branches that stand at one commit: git holds each of those for an ancestor of the
    other, and the code then drops both. The plan keeps only blockers' inputs, and is the
    trunk when no blocker contributes a branch, and otherwise only when every one that does
    is dropped so. Git's containment is assumed transitive, nothing else. *)
Theorem resolve_plan_spec issues absent work_refs remote is_ancestor issue_key trunk :
  (∀ a b d, is_ancestor a b = Ok true → is_ancestor b d = Ok true → is_ancestor a d = Ok true) →
  ∃ r, resolve_plan issues absent work_refs remote is_ancestor issue_key trunk = Some r
    ∧ ∀ p, r = Ok p → ∃ issue items,
        issues !! issue_key = Some issue
        ∧ Forall2 (contributes issues work_refs)
            (relation_issue_key <$> filter (λ r, relation_kind r = BLOCKED_BY) (relations issue)) items
        ∧ (∀ i, Some i ∈ items → (∃ head, remote (branch i) = Ok (Some head))
             ∧ ((∃ j, j ∈ inputs (spec p)
                   ∧ (branch j = branch i ∨ is_ancestor (branch i) (branch j) = Ok true))
                ∨ at_one_commit is_ancestor items i))
        ∧ (∀ j, j ∈ inputs (spec p) → Some j ∈ items)
        ∧ ((∀ i, Some i ∉ items) → base_role (spec p) = None)
        ∧ (base_role (spec p) = None → base_branch (spec p) = trunk
             ∧ ∀ i, Some i ∈ items → at_one_commit is_ancestor items i).
Proof.
  intros Htrans. unfold resolve_plan, _blocker_keys, read_issue.
  destruct (issues !! issue_key) as [issue|] eqn:Hissue; cbn [mbind result_bind pbind];
    [|by eexists].
  destruct (inputs_spec issues absent work_refs issue_key
    (relation_issue_key <$> filter (λ r, relation_kind r = BLOCKED_BY) (relations issue)))
    as ([items|e] & -> & Hitems); cbn [pbind]; [|by eexists].
  eexists. split; [reflexivity|]. intros p Hp.
  apply bind_ok in Hp as ([] & Hpres & Hp). apply bind_ok in Hp as (c & Hc & Hp).
  pose proof (containment_spec _ _ _ Hc) as Hpairs.
  assert (∀ i, i ∈ omap id items ↔ Some i ∈ items) as Homap.
  { intros i. rewrite list_elem_of_omap. split; [by intros ([x|] & Hx & [= <-])|].
    intros Hi. by exists (Some i). }
  assert (contained_transitively (list_to_set c)) as Hord.
  { intros a b d. rewrite !elem_of_list_to_set, !Hpairs.
    intros (Ha & _ & _ & Hab) (_ & Hd & _ & Hbd) Hne. split_and!; [done..|by eapply Htrans]. }
  pose proof (resolve_base_frontier issue_key (omap id items) c trunk Hord) as Hspec.
  rewrite Hp in Hspec. destruct Hspec as (Hcomb & Hnil & _ & _ & Hin & Hcov).
  assert (∀ i, Some i ∈ items → (∃ j, j ∈ inputs (spec p)
      ∧ (branch j = branch i ∨ is_ancestor (branch i) (branch j) = Ok true))
    ∨ at_one_commit is_ancestor items i) as Hall.
  { intros i Hi. destruct (Hcov i) as [(j & Hj & Hij)|(j & k & Hj & Hk & Hne & Hjk & Hkj & Hij)]; [by apply Homap|left|right].
    - exists j. split; [done|]. destruct Hij as [?|Hij%Hpairs]; [by left|right; by apply Hij].
    - rewrite !elem_of_list_to_set, !Hpairs in Hjk, Hkj, Hij. exists j, k.
      split_and!; [by apply Homap|by apply Homap|done|by apply Hjk|by apply Hkj|].
      destruct Hij as [?|Hij]; [by left|right; by apply Hij]. }
  exists issue, items. split_and!; [done..| | | |].
  - intros i Hi. split; [|by apply Hall]. apply (require_all_present _ _ _ Hpres). by apply Homap.
  - intros j Hj. by apply Homap, Hin.
  - intros Hno. assert (omap id items = []) as Ho%Hnil.
    { destruct (omap id items) as [|i l] eqn:Ho; [done|]. destruct (Hno i).
      apply (proj1 (Homap i)). by left. }
    destruct Hcomb as [_ Hcomb]. rewrite Ho in Hcomb. by destruct Hcomb as (_ & ? & _).
  - intros Hrole. assert (inputs (spec p) = [] ∧ base_branch (spec p) = trunk) as [Hi0 ->].
    { destruct Hcomb as [_ Hcomb]. destruct (inputs (spec p)) as [|j [|k rest]];
        destruct Hcomb as (? & ? & _); [done|congruence..]. }
    split; [done|]. intros i Hi. destruct (Hall i Hi) as [(j & Hj & _)|?]; [|done].
    rewrite Hi0 in Hj. by apply elem_of_nil in Hj.
Qed.

(** ** Building the base, verified *)

(** The calls that build a plan's base, in order. *)
Definition building (issue_key : string) (plan : BasePlan) (head : string) (now : Z) : list call :=
  CreateWorktree (default "None" (branch_point plan)) (base_branch (spec plan))
  :: (MergeBranch <$> merge_inputs plan)
  ++ [Push (base_branch (spec plan)); CurrentSha; RemoveWorktree;
      RecordWorkRef {| ref_issue_id := issue_key; ref_role := INTEGRATION;
        ref_branch := base_branch (spec plan); pushed_head_sha := Some head;
        landing := UNKNOWN; recorded_at := now |}].

Definition publishes (c : call) : Prop :=
  match c with Push _ | RecordWorkRef _ => True | _ => False end.

Section building.
Context (answer : list call → call → result exn string).

Lemma merge_all_spec t sources :
  match merge_all answer t sources with
  | (t', Ok _) => t' = t ++ (MergeBranch <$> sources)
  | (t', Err e) => ∃ done source, (done ++ [source]) `prefix_of` sources
      ∧ t' = t ++ (MergeBranch <$> done ++ [source])
      ∧ answer (t ++ (MergeBranch <$> done)) (MergeBranch source) = Err e
  end.
Proof.
  revert t. induction sources as [|s sources IH]; intros t; cbn [merge_all].
  { by rewrite app_nil_r. }
  unfold do. destruct (answer t (MergeBranch s)) as [x|e] eqn:Hs.
  - specialize (IH (t ++ [MergeBranch s])). destruct (merge_all answer _ sources) as [t' [u|e]].
    + by rewrite IH, <-app_assoc.
    + destruct IH as (d & src & Hp & -> & He). exists (s :: d), src. split_and!.
      * by apply prefix_cons.
      * by rewrite <-app_assoc.
      * by rewrite <-app_assoc in He.
  - exists [], s. split_and!; [by apply prefix_cons, prefix_nil|done|by rewrite app_nil_r].
Qed.

Lemma merges_publish_nothing l : Forall (λ c, ¬ publishes c) (MergeBranch <$> l).
Proof. apply Forall_fmap, Forall_true. by intros s []. Qed.
End building.

(** The merges before one that conflicts. *)
Lemma merge_all_conflict answer t done s rest e :
  (∀ d x, (d ++ [x]) `prefix_of` done → ∃ r, answer (t ++ (MergeBranch <$> d)) (MergeBranch x) = Ok r) →
  answer (t ++ (MergeBranch <$> done)) (MergeBranch s) = Err e →
  merge_all answer t (done ++ s :: rest) = (t ++ (MergeBranch <$> done ++ [s]), Err e).
Proof.
  revert t. induction done as [|x done IH]; intros t Hok He; cbn [merge_all app]; unfold do.
  { rewrite app_nil_r in He. by rewrite He. }
  destruct (Hok [] x) as [r Hr]; [by apply prefix_cons, prefix_nil|].
  cbn in Hr. rewrite app_nil_r in Hr. rewrite Hr. rewrite IH.
  - by rewrite <-app_assoc.
  - intros d y Hd. destruct (Hok (x :: d) y) as [r' Hr']; [by apply prefix_cons|].
    exists r'. by rewrite <-app_assoc.
  - by rewrite <-app_assoc.
Qed.

(** Building the combined base. When it succeeds, the worktree was cut from the first
    input, every other input merged in order, the branch pushed, and the ref recorded
    with the sha git answered after the push, in that order; when it does not, nothing
    was pushed or recorded, or every merge had succeeded and the calls made are the
    first of those. And where a merge conflicts the worktree is removed and the conflict
    reported with every input of the base. *)
Theorem construct_spec answer issue_key plan now :
  let cut := CreateWorktree (default "None" (branch_point plan)) (base_branch (spec plan)) in
  let merges := MergeBranch <$> merge_inputs plan in
  match _construct answer issue_key plan now [] with
  | (t, Ok _) => ∃ head, t = building issue_key plan head now
      ∧ answer (cut :: merges ++ [Push (base_branch (spec plan))]) CurrentSha = Ok head
  | (t, Err _) => Forall (λ c, ¬ publishes c) t
      ∨ ∃ head, t `prefix_of` building issue_key plan head now ∧ (cut :: merges) `prefix_of` t
  end
  ∧ ∀ done s rest source paths r0 r1,
      merge_inputs plan = done ++ s :: rest →
      answer [] cut = Ok r0 →
      (∀ d x, (d ++ [x]) `prefix_of` done →
         ∃ r, answer (cut :: (MergeBranch <$> d)) (MergeBranch x) = Ok r) →
      answer (cut :: (MergeBranch <$> done)) (MergeBranch s) = Err (MergeConflictError source paths) →
      answer (cut :: (MergeBranch <$> done ++ [s])) RemoveWorktree = Ok r1 →
      _construct answer issue_key plan now []
      = (cut :: (MergeBranch <$> done ++ [s]) ++ [RemoveWorktree],
         Err (BaseIntegrationConflictError issue_key (branch <$> inputs (spec plan)) paths)).
Proof.
  cbv zeta. set (cut := CreateWorktree _ _). split.
  2:{ intros done s rest source paths r0 r1 Hm H0 Hok Hs H1. unfold _construct, do. fold cut.
      cbn [app]. rewrite H0, Hm.
      rewrite (merge_all_conflict answer [cut] done s rest _ Hok Hs). cbn [app]. by rewrite H1. }
  unfold _construct, do. fold cut. cbn [app].
  destruct (answer [] cut) as [r0|e]; [|left; by repeat constructor; intros []].
  pose proof (merge_all_spec answer [cut] (merge_inputs plan)) as Hm.
  destruct (merge_all answer [cut] (merge_inputs plan)) as [t [u|e]].
  - subst t. cbn [app].
    destruct (answer _ (Push _)) as [r1|e].
    2:{ right. exists "". split; [|by eexists]. eexists. unfold building. cbn. fold cut.
        by rewrite <-app_assoc. }
    destruct (answer _ CurrentSha) as [head|e] eqn:Hh.
    2:{ right. exists "". split; [|eexists; cbn; by rewrite <-!app_assoc].
        eexists. unfold building. cbn. fold cut. by rewrite <-!app_assoc. }
    destruct (answer _ RemoveWorktree) as [r2|e].
    2:{ right. exists head. split; [|eexists; cbn; by rewrite <-!app_assoc].
        eexists. unfold building. cbn. fold cut. by rewrite <-!app_assoc. }
    destruct (answer _ (RecordWorkRef _)) as [r3|e].
    2:{ right. exists head. split; [|eexists; cbn; by rewrite <-!app_assoc].
        exists []. unfold building. cbn. fold cut. by rewrite <-!app_assoc. }
    exists head. split; [|done]. unfold building. cbn. fold cut. by rewrite <-!app_assoc.
  - destruct Hm as (d & s & _ & -> & _).
    assert (Forall (λ c, ¬ publishes c) ([cut] ++ (MergeBranch <$> d ++ [s]))) as Hno.
    { apply Forall_app. split; [by repeat constructor; intros []|apply merges_publish_nothing]. }
    assert (Forall (λ c, ¬ publishes c) (([cut] ++ (MergeBranch <$> d ++ [s])) ++ [RemoveWorktree]))
      as Hno' by (apply Forall_app; split; [done|by repeat constructor; intros []]).
    destruct e; try (by left). destruct (answer _ RemoveWorktree); by left.
Qed.

(** ** Names *)

Lemma str_app_inv_length s1 s2 t1 t2 :
  String.length t1 = String.length t2 → s1 +:+ t1 = s2 +:+ t2 → s1 = s2 ∧ t1 = t2.
Proof.
  intros Ht. revert s2. induction s1 as [|a s1 IH]; intros [|b s2]; cbn; intros E.
  - done.
  - exfalso. apply (f_equal String.length) in E. cbn in E. rewrite str_length_app in E. lia.
  - exfalso. apply (f_equal String.length) in E. cbn in E. rewrite str_length_app in E. lia.
  - injection E as -> E. destruct (IH _ E) as [-> ->]. done.
Qed.

Definition free_of (c : ascii) (s : string) : bool := str_all (λ a, negb (bool_decide (a = c))) s.

(** An input whose fields hold neither separator: every ref git accepts. *)
Definition clean (i : BaseInput) : bool :=
  forallb (λ s, free_of tab s && free_of newline s) [blocker_issue_id i; branch i; sha i].

Lemma clean_fields i :
  clean i = true →
  (free_of tab (blocker_issue_id i) = true ∧ free_of tab (branch i) = true)
  ∧ free_of newline (input_line i) = true.
Proof.
  unfold clean. cbn [forallb]. rewrite !andb_true_iff. intros ([? ?] & [? ?] & [? ?] & _).
  split; [done|]. unfold free_of, input_line in *. rewrite !str_all_app. cbn [str_all].
  rewrite !str_all_app. cbn [str_all]. by rewrite !andb_true_iff.
Qed.

Lemma input_line_inj i j : clean i = true → clean j = true → input_line i = input_line j → i = j.
Proof.
  intros [[Hi1 Hi2] _]%clean_fields [[Hj1 Hj2] _]%clean_fields. unfold input_line.
  intros [E1 E]%str_split_unique; [|done..]. apply str_split_unique in E as [E2 E3]; [|done..].
  destruct i, j. cbn in *. by subst.
Qed.

Lemma join_lines_inj (l1 l2 : list string) :
  Forall (λ s, free_of newline s = true ∧ s ≠ "") l1 →
  Forall (λ s, free_of newline s = true ∧ s ≠ "") l2 →
  join (String newline "") l1 = join (String newline "") l2 → l1 = l2.
Proof.
  assert (∀ x y l, join (String newline "") (x :: y :: l)
    = x +:+ String newline (join (String newline "") (y :: l))) as Hjoin by done.
  assert (∀ x s, free_of newline x = true → free_of newline (x +:+ String newline s) = false) as Hno.
  { intros x s Hx. unfold free_of in *. rewrite str_all_app. cbn [str_all].
    rewrite bool_decide_true by done. by rewrite andb_false_r. }
  intros H1. revert l2. induction H1 as [|x l1 [Hx Hx0] H1 IH]; intros l2 H2.
  { destruct H2 as [|y l2 [Hy Hy0] H2]; [done|]. destruct l2; cbn [join]; [by intros <-|].
    intros E. destruct y; [done|discriminate E]. }
  destruct H2 as [|y l2 [Hy Hy0] H2].
  { destruct l1; cbn [join]; [done|]. intros E. destruct x; [done|discriminate E]. }
  destruct l1 as [|x' l1], l2 as [|y' l2]; rewrite ?Hjoin; intros E.
  - cbn in E. by subst.
  - cbn [join] in E. subst x. by rewrite Hno in Hx.
  - cbn [join] in E. subst y. by rewrite Hno in Hy.
  - apply str_split_unique in E as [-> E]; [|done..]. f_equal. by apply IH.
Qed.

Lemma digest_preimage_inj l1 l2 :
  Forall (λ i, clean i = true) l1 → Forall (λ i, clean i = true) l2 →
  digest_preimage l1 = digest_preimage l2 → l1 = l2.
Proof.
  intros H1 H2 E.
  assert (∀ l, Forall (λ i, clean i = true) l →
    Forall (λ s, free_of newline s = true ∧ s ≠ "") (map input_line l)) as Hlines.
  { intros l Hl. apply Forall_fmap. eapply Forall_impl; [done|]. intros i [_ Hi]%clean_fields.
    split; [done|]. unfold input_line. by destruct (blocker_issue_id i). }
  apply join_lines_inj in E; [|by apply Hlines..]. clear Hlines. revert l2 H2 E.
  induction H1 as [|i l1 Hi H1 IH]; intros [|j l2] H2 E; try done.
  apply Forall_cons in H2 as [Hj H2]. injection E as E1 E2.
  apply input_line_inj in E1 as ->; [|done..]. f_equal. by apply IH.
Qed.

(** An integration branch's name determines its base: two names that are equal are of
    one issue and of the same inputs in the same order (whose fields hold no tab or
    newline, as no git ref does), unless they exhibit two texts of one SHA-256. A change
    to any input names another branch. *)
Theorem integration_str_inj n1 n2 :
  Forall (λ i, clean i = true) (name_inputs n1) → Forall (λ i, clean i = true) (name_inputs n2) →
  integration_str n1 = integration_str n2 →
  n1 = n2 ∨ name_issue_id n1 = name_issue_id n2
    ∧ ∃ s1 s2, s1 ≠ s2 ∧ sha256_hex s1 = sha256_hex s2.
Proof.
  intros H1 H2. unfold integration_str, _digest_of. rewrite !str_app_assoc.
  intros [E Hd]%str_app_inv_length; [|by rewrite !sha256_hex_length].
  apply str_app_inv_length in E as [Hid _]; [|done].
  destruct (decide (digest_preimage (name_inputs n1) = digest_preimage (name_inputs n2)))
    as [Heq|Hne].
  - left. apply digest_preimage_inj in Heq; [|done..]. destruct n1, n2. cbn in *. by subst.
  - right. split; [done|]. by eexists _, _.
Qed.

(** ** A lane behind two blockers *)

Module two_blockers.
Definition blocked : TrackerIssue := {|
  issue_key := "L"; title := "L"; body := ""; priority := NONE; state_name := "";
  state_kind := UNSTARTED; queue_states := ∅; issue_labels := ∅; team_key := None;
  project := None; project_id := None; milestone_key := None;
  relations := [{| relation_kind := BLOCKED_BY; relation_issue_key := "B" |};
                {| relation_kind := BLOCKED_BY; relation_issue_key := "A" |}];
  parent_key := None; assignee_key := None; created_at := 0; updated_at := 0; url := "" |}.
Definition issues : gmap string TrackerIssue :=
  {[ "L" := blocked; "A" := plain_issue "A" UNSTARTED; "B" := plain_issue "B" UNSTARTED ]}.
Definition ref_of (key : string) : WorkRef := {|
  ref_issue_id := key; ref_role := DELIVERABLE; ref_branch := "branch-" +:+ key;
  pushed_head_sha := Some ("sha-" +:+ key); landing := NOT_LANDED; recorded_at := 0 |}.
Definition work_refs (key : string) : result exn (list WorkRef) := Ok [ref_of key].
Definition remote (b : string) : result exn (option string) := Ok (Some "head").

(** Git's answers: two branches apart, one within the other, both at one commit. *)
Definition apart (a b : string) : result exn bool := Ok false.
Definition stacked (a b : string) : result exn bool :=
  Ok (bool_decide ((a, b) = ("branch-A", "branch-B"))).
Definition same_commit (a b : string) : result exn bool := Ok true.

Definition plan_with (is_ancestor : string → string → result exn bool) : option (list string * string) :=
  match resolve_plan issues KeyError work_refs remote is_ancestor "L" "main" with
  | Some (Ok p) => Some (branch <$> inputs (spec p), base_branch (spec p))
  | _ => None
  end.

Definition input_of (key : string) : BaseInput :=
  {| blocker_issue_id := key; branch := "branch-" +:+ key; sha := "sha-" +:+ key |}.
End two_blockers.

Example plan_stacked : two_blockers.plan_with two_blockers.stacked = Some (["branch-B"], "branch-B").
Proof. vm_compute. reflexivity. Qed.

(** Two blockers whose branches stand at one commit leave the lane on the trunk. *)
Example plan_same_commit : two_blockers.plan_with two_blockers.same_commit = Some ([], "main").
Proof. vm_compute. reflexivity. Qed.

Example plan_apart : two_blockers.plan_with two_blockers.apart
  = Some (["branch-A"; "branch-B"],
          "L-integration-" +:+ _digest_of [two_blockers.input_of "A"; two_blockers.input_of "B"]).
Proof. vm_compute. reflexivity. Qed.

Lemma resolve_plan_spec_witness :
  ∃ p, resolve_plan two_blockers.issues KeyError two_blockers.work_refs two_blockers.remote
         two_blockers.stacked "L" "main" = Some (Ok p)
    ∧ ∀ j, j ∈ inputs (spec p) → j = two_blockers.input_of "B".
Proof.
  destruct (resolve_plan_spec two_blockers.issues KeyError two_blockers.work_refs
    two_blockers.remote two_blockers.stacked "L" "main") as (r & Hr & Hp).
  { intros a b d [= Ha] [= Hb]. apply bool_decide_eq_true in Ha as [= -> ->].
    apply bool_decide_eq_true in Hb. discriminate Hb. }
  assert (∃ p, resolve_plan two_blockers.issues KeyError two_blockers.work_refs two_blockers.remote
    two_blockers.stacked "L" "main" = Some (Ok p) ∧ inputs (spec p) = [two_blockers.input_of "B"])
    as (p & Hres & Hin) by (eexists; split; [vm_compute; reflexivity|reflexivity]).
  exists p. split; [exact Hres|]. rewrite Hin. intros j Hj. by apply list_elem_of_singleton in Hj.
Defined.

Lemma resolve_base_trunk_iff_witness :
  let pair := [two_blockers.input_of "A"; two_blockers.input_of "B"] in
  let both := [("branch-A", "branch-B"); ("branch-B", "branch-A")] in
  ∃ p, resolve_base "L" pair both "main" = Ok p ∧ base_role (spec p) = None.
Proof.
  cbv zeta. eexists. split; [vm_compute; reflexivity|].
  apply (resolve_base_trunk_iff "L" [two_blockers.input_of "A"; two_blockers.input_of "B"]
    [("branch-A", "branch-B"); ("branch-B", "branch-A")] "main"); [vm_compute; reflexivity|].
  intros i [->|[->|[]%elem_of_nil]%elem_of_cons]%elem_of_cons;
    [exists (two_blockers.input_of "B")|exists (two_blockers.input_of "A")];
    (split; [by apply (bool_decide_unpack _)|split; [done|by apply (bool_decide_unpack _)]]).
Defined.

Lemma resolve_base_order_witness :
  resolve_base "L" [two_blockers.input_of "A"; two_blockers.input_of "B"] [] "main"
  = resolve_base "L" [two_blockers.input_of "B"; two_blockers.input_of "A"] [] "main".
Proof.
  apply resolve_base_order; [apply Permutation_swap| |done].
  intros i j [->|[->|[]%elem_of_nil]%elem_of_cons]%elem_of_cons
    [->|[->|[]%elem_of_nil]%elem_of_cons]%elem_of_cons; done.
Defined.

Lemma construct_spec_witness :
  let plan := {| spec := {| inputs := [two_blockers.input_of "A"; two_blockers.input_of "B"];
                            base_branch := "L-integration"; base_role := Some INTEGRATION |};
                 branch_point := Some "branch-A"; merge_inputs := ["branch-B"] |} in
  let answer (t : list call) c := match c with
    | MergeBranch s => Err (MergeConflictError s ["file"]) | _ => Ok "" end in
  (_construct answer "L" plan 0 []).2
  = Err (BaseIntegrationConflictError "L" ["branch-A"; "branch-B"] ["file"]).
Proof.
  cbv zeta. edestruct (construct_spec (λ (t : list call) c, match c with
    | MergeBranch s => Err (MergeConflictError s ["file"]) | _ => Ok "" end) "L"
    {| spec := {| inputs := [two_blockers.input_of "A"; two_blockers.input_of "B"];
                  base_branch := "L-integration"; base_role := Some INTEGRATION |};
       branch_point := Some "branch-A"; merge_inputs := ["branch-B"] |} 0) as [_ H].
  rewrite (H [] "branch-B" [] "branch-B" ["file"] "" ""); [reflexivity|reflexivity|reflexivity| |
    reflexivity|reflexivity].
  intros d x Hd%prefix_length. rewrite length_app in Hd. cbn in Hd. lia.
Defined.

Lemma integration_str_inj_witness :
  let name := {| name_issue_id := "L"; name_inputs := [two_blockers.input_of "A"] |} in
  name = name ∨ name_issue_id name = name_issue_id name
    ∧ ∃ s1 s2, s1 ≠ s2 ∧ sha256_hex s1 = sha256_hex s2.
Proof.
  cbv zeta. apply integration_str_inj; [..|reflexivity];
    (apply Forall_singleton; reflexivity).
Defined.
