(* ===== verification/LaneRecord.v ===== *)
(** * The lane's record (types/domain/run_state.py, branch.py, domain/lane_record.py).

    What a lane has committed and which branches it stands on: the value, its
    validators, and the one constructor every write goes through. Rendering the
    record as a comment is pydantic's JSON between fixed texts and is left out. *)

From S2P Require Import Prelude PyStr Tracker Errors Lapse BaseResolution.

Local Open Scope nat_scope.

(** ** Data *)

Inductive BranchRole := ROLE_DELIVERABLE | ROLE_LOOP | ROLE_RECOVERY.
#[export] Instance BranchRole_eq_dec : EqDecision BranchRole.
Proof. solve_decision. Defined.

Record BranchAssociation := {
  assoc_branch : string;
  assoc_role : BranchRole;
  derived_from : option string;
  assoc_run_id : string;
}.
#[export] Instance BranchAssociation_eq_dec : EqDecision BranchAssociation.
Proof. solve_decision. Defined.

(** The fields' [min_length=1]. *)
Definition make_association (a : BranchAssociation) : result exn BranchAssociation :=
  raise_if (bool_decide (assoc_branch a = "" ∨ derived_from a = Some "" ∨ assoc_run_id a = ""))
    (ValidationError "BranchAssociation") (Ok a).

Record LaneBinding := {
  binding_lane_key : string;
  loop_branch : string;
  deliverable_branch : string;
  binding_base : BaseSpec;
  binding_digest : string;
  repo_url : option string;
  repo_path : option string;
  run_id : string;
}.

Record LaneCommit := { commit_sha : string; commit_subject : string; commit_issue_id : string }.
#[export] Instance LaneCommit_eq_dec : EqDecision LaneCommit.
Proof. solve_decision. Defined.

Record LanePR := { pr_url : string; pr_number : Z; pr_state : string }.
#[export] Instance LanePR_eq_dec : EqDecision LanePR.
Proof. solve_decision. Defined.

Record LaneRunState := {
  lane_key : string;
  record_branch : string;
  branch_url : string;
  head_sha : string;
  record_pushed_sha : option string;
  commits_ahead : nat;
  files_changed : nat;
  commits : list LaneCommit;
  pr : option LanePR;
  record_digest : option string;
  dispatch_base : option BaseSpec;
  associations : list BranchAssociation;
}.
#[export] Instance LaneRunState_eq_dec : EqDecision LaneRunState.
Proof. solve_decision. Defined.

(** [^[0-9a-f]{64}$] *)
Definition is_digest (s : string) : bool :=
  str_all (λ a, ((48 <=? byte a) && (byte a <=? 57) || (97 <=? byte a) && (byte a <=? 102))%Z) s
  && bool_decide (String.length s = 64).

(** [_require_loop_and_deliverable_cardinality] *)
Definition has_loop_association (branch : string) (l : list BranchAssociation) : bool :=
  existsb (λ a, bool_decide (assoc_role a = ROLE_LOOP ∧ assoc_branch a = branch)) l.
Definition deliverable_runs (l : list BranchAssociation) : list string :=
  assoc_run_id <$> filter (λ a, assoc_role a = ROLE_DELIVERABLE) l.

Definition record_valid (r : LaneRunState) : bool :=
  bool_decide (lane_key r ≠ "" ∧ record_branch r ≠ "" ∧ branch_url r ≠ "" ∧ head_sha r ≠ ""
               ∧ record_pushed_sha r ≠ Some "")
  && (match record_digest r with Some d => is_digest d | None => true end)
  && has_loop_association (record_branch r) (associations r)
  && bool_decide (NoDup (deliverable_runs (associations r))).

Definition make_lane_run_state (r : LaneRunState) : result exn LaneRunState :=
  raise_if (negb (record_valid r)) (ValidationError "LaneRunState") (Ok r).

(** ** Composing a record (domain/lane_record.py) *)

Definition associated_branches (r : LaneRunState) : gset string :=
  list_to_set (assoc_branch <$> associations r).

Definition prior_associations (prior : option LaneRunState) : list BranchAssociation :=
  match prior with Some p => associations p | None => [] end.
Definition prior_commits (prior : option LaneRunState) : list LaneCommit :=
  match prior with Some p => commits p | None => [] end.

(** The first association of this run that delivers somewhere else. *)
Definition rebound (prior : option LaneRunState) (lane : LaneBinding) : option BranchAssociation :=
  first_such (λ a, bool_decide (assoc_role a = ROLE_DELIVERABLE ∧ assoc_run_id a = run_id lane
      ∧ (assoc_branch a, derived_from a)
        ≠ (deliverable_branch lane, Some (base_branch (binding_base lane)))))
    (prior_associations prior).

Definition _require_one_binding_per_run (prior : option LaneRunState) (lane : LaneBinding) :
    result exn unit :=
  match rebound prior lane with
  | Some a => Err (LaneRecordWriteError (binding_lane_key lane)
      (RunReboundTo (run_id lane) (assoc_branch a) (derived_from a) (deliverable_branch lane)
        (base_branch (binding_base lane))))
  | None => Ok tt
  end.

(** The associations this commit observes, each validated as it is built. *)
Definition candidates (lane : LaneBinding) (recovery_ref : option string) :
    list BranchAssociation :=
  [{| assoc_branch := deliverable_branch lane; assoc_role := ROLE_DELIVERABLE;
      derived_from := Some (base_branch (binding_base lane)); assoc_run_id := run_id lane |};
   {| assoc_branch := loop_branch lane; assoc_role := ROLE_LOOP;
      derived_from := Some (deliverable_branch lane); assoc_run_id := run_id lane |}]
  ++ match recovery_ref with
     | Some ref => [{| assoc_branch := ref; assoc_role := ROLE_RECOVERY;
                       derived_from := Some (loop_branch lane); assoc_run_id := run_id lane |}]
     | None => []
     end.

(** [if association not in associations: associations.append(association)] *)
Definition associate (l cs : list BranchAssociation) : list BranchAssociation :=
  foldl (λ l c, if decide (c ∈ l) then l else l ++ [c]) l cs.

Definition next_commits (prior : option LaneRunState) (lane : LaneBinding)
    (head_sha subject : string) : list LaneCommit :=
  let rows := prior_commits prior in
  if decide (commit_sha <$> last rows = Some head_sha) then rows
  else rows ++ [{| commit_sha := head_sha; commit_subject := subject;
                   commit_issue_id := binding_lane_key lane |}].

Definition pinned {A} (held : option A) (now : A) : option A :=
  match held with Some a => Some a | None => Some now end.

Definition next_lane_record (prior : option LaneRunState) (lane : LaneBinding)
    (branch_url head_sha : string) (pushed_head_sha : option string)
    (changeset : ChangesetDigest) (subject : string) (recovery_ref : option string) :
    result exn LaneRunState :=
  _ ← _require_one_binding_per_run prior lane;
  let composed :=
    cs ← mapM make_association (candidates lane recovery_ref);
    make_lane_run_state {|
      lane_key := binding_lane_key lane;
      record_branch := loop_branch lane;
      branch_url := branch_url;
      head_sha := head_sha;
      record_pushed_sha := pushed_head_sha;
      commits_ahead := commit_count changeset;
      files_changed := length (file_paths changeset);
      commits := next_commits prior lane head_sha subject;
      pr := prior ≫= pr;
      record_digest := pinned (prior ≫= record_digest) (binding_digest lane);
      dispatch_base := pinned (prior ≫= dispatch_base) (binding_base lane);
      associations := associate (prior_associations prior) cs |} in
  match composed with
  | Err (ValidationError _) => Err (LaneRecordWriteError (binding_lane_key lane) RefusedFields)
  | r => r
  end.

Definition record_with_pull_request (prior : LaneRunState) (p : LanePR) : LaneRunState := {|
  lane_key := lane_key prior; record_branch := record_branch prior;
  branch_url := branch_url prior; head_sha := head_sha prior;
  record_pushed_sha := record_pushed_sha prior; commits_ahead := commits_ahead prior;
  files_changed := files_changed prior; commits := commits prior; pr := Some p;
  record_digest := record_digest prior; dispatch_base := dispatch_base prior;
  associations := associations prior |}.

(** * Lemmas *)

Lemma associate_elem l cs a : a ∈ associate l cs ↔ a ∈ l ∨ a ∈ cs.
Proof.
  unfold associate. revert l. induction cs as [|c cs IH]; intros l; cbn [foldl].
  - set_solver.
  - rewrite IH. case_decide; set_solver.
Qed.

Lemma associate_prefix l cs : ∃ k, associate l cs = l ++ k.
Proof.
  unfold associate. revert l. induction cs as [|c cs IH]; intros l; cbn [foldl].
  - exists []. by rewrite app_nil_r.
  - case_decide; [apply IH|]. destruct (IH (l ++ [c])) as [k ->]. exists (c :: k).
    by rewrite <-app_assoc.
Qed.

Lemma candidates_made lane recovery_ref cs :
  mapM make_association (candidates lane recovery_ref) = Ok cs → cs = candidates lane recovery_ref.
Proof.
  rewrite mapM_ok. induction 1 as [|a c l k Ha _ IH]; [done|].
  unfold make_association in Ha. apply raise_if_ok in Ha as [_ [= ->]]. by rewrite IH.
Qed.

(** What a composed record holds. *)
Lemma next_lane_record_ok prior lane url head pushed changeset subject recovery r :
  next_lane_record prior lane url head pushed changeset subject recovery = Ok r →
  rebound prior lane = None
  ∧ record_valid r = true
  ∧ lane_key r = binding_lane_key lane
  ∧ record_branch r = loop_branch lane
  ∧ head_sha r = head
  ∧ commits r = next_commits prior lane head subject
  ∧ associations r = associate (prior_associations prior) (candidates lane recovery)
  ∧ record_digest r = pinned (prior ≫= record_digest) (binding_digest lane)
  ∧ dispatch_base r = pinned (prior ≫= dispatch_base) (binding_base lane)
  ∧ pr r = prior ≫= pr.
Proof.
  unfold next_lane_record, _require_one_binding_per_run.
  destruct (rebound prior lane); [done|]. cbn [mbind result_bind].
  destruct (mapM make_association (candidates lane recovery)) as [cs|e] eqn:Em; cbn [mbind result_bind].
  2:{ by destruct e. }
  apply candidates_made in Em as ->. unfold make_lane_run_state.
  set (rec := {| lane_key := _ |}). destruct (record_valid rec) eqn:Ev; cbn [negb raise_if]; [|done].
  intros [= <-]. repeat split; done.
Qed.

Lemma next_lane_record_named prior lane url head pushed changeset subject recovery r :
  next_lane_record prior lane url head pushed changeset subject recovery = Ok r →
  deliverable_branch lane ≠ "".
Proof.
  unfold next_lane_record. intros (? & _ & E)%bind_ok.
  destruct (mapM make_association (candidates lane recovery)) as [cs|e] eqn:Em; [|by destruct e].
  apply mapM_ok in Em. unfold candidates in Em. cbn [app] in Em.
  apply Forall2_cons_inv_l in Em as (a & ? & Ha & _ & _).
  unfold make_association in Ha. apply raise_if_ok in Ha as [Ha%bool_decide_eq_false _].
  cbn in Ha. tauto.
Qed.

Lemma next_commits_last prior lane head subject :
  ∃ row, last (next_commits prior lane head subject) = Some row ∧ commit_sha row = head.
Proof.
  unfold next_commits. case_decide as E.
  - destruct (last (prior_commits prior)) as [row|]; [|done]. injection E as E. eauto.
  - rewrite last_snoc. eauto.
Qed.

Lemma associate_known l cs : (∀ c, c ∈ cs → c ∈ l) → associate l cs = l.
Proof.
  unfold associate. induction cs as [|c cs IH]; intros H; [done|]. cbn [foldl].
  rewrite decide_True by (apply H; by left). apply IH. intros c' Hc. apply H. by right.
Qed.

Lemma next_lane_record_err prior lane url head pushed changeset subject recovery e :
  next_lane_record prior lane url head pushed changeset subject recovery = Err e →
  ∃ reason, e = LaneRecordWriteError (binding_lane_key lane) reason
    ∧ match rebound prior lane with
      | Some a => reason = RunReboundTo (run_id lane) (assoc_branch a) (derived_from a)
          (deliverable_branch lane) (base_branch (binding_base lane))
      | None => reason = RefusedFields
      end.
Proof.
  unfold next_lane_record, _require_one_binding_per_run.
  destruct (rebound prior lane); cbn [mbind result_bind]; [intros [= <-]; eauto|].
  destruct (mapM make_association (candidates lane recovery)) as [cs|e'] eqn:Em; cbn [mbind result_bind].
  - unfold make_lane_run_state. destruct (record_valid _); cbn [negb raise_if]; [done|].
    intros [= <-]. eauto.
  - apply mapM_err in Em as (a & _ & Ha). unfold make_association in Ha.
    destruct (bool_decide _); [|done]. cbn in Ha. injection Ha as <-. intros [= <-]. eauto.
Qed.

(** What a commit leaves on the lane's record. Rows are only ever appended: the
    record keeps every earlier row, its last row is the commit just recorded, and a head
    already last adds none. No association is dropped, so a branch once associated stays
    so, and this commit's own are there; the branch it stands on has its LOOP
    association and no run delivers twice. The digest and the dispatch base are pinned
    by the first write that has them, and the pull request is carried over. It is
    refused exactly when the run is rebound to another deliverable or base, or when the
    facts are not a record. Recording the same facts again
    changes neither rows nor associations. *)
Theorem next_lane_record_spec (prior : option LaneRunState) (lane : LaneBinding)
    (url head : string) (pushed : option string) (changeset : ChangesetDigest)
    (subject : string) (recovery : option string) :
  match next_lane_record prior lane url head pushed changeset subject recovery with
  | Ok r =>
      rebound prior lane = None
      ∧ (∃ rows, commits r = prior_commits prior ++ rows ∧ length rows ≤ 1)
      ∧ commit_sha <$> last (commits r) = Some head
      ∧ (∃ added, associations r = prior_associations prior ++ added)
      ∧ (∀ a, a ∈ candidates lane recovery → a ∈ associations r)
      ∧ has_loop_association (record_branch r) (associations r) = true
      ∧ NoDup (deliverable_runs (associations r))
      ∧ record_digest r = pinned (prior ≫= record_digest) (binding_digest lane)
      ∧ dispatch_base r = pinned (prior ≫= dispatch_base) (binding_base lane)
      ∧ pr r = prior ≫= pr
      ∧ ∀ r' pushed' changeset',
          next_lane_record (Some r) lane url head pushed' changeset' subject recovery = Ok r' →
          commits r' = commits r ∧ associations r' = associations r
  | Err e =>
      ∃ reason, e = LaneRecordWriteError (binding_lane_key lane) reason
        ∧ match rebound prior lane with
          | Some a => reason = RunReboundTo (run_id lane) (assoc_branch a) (derived_from a)
              (deliverable_branch lane) (base_branch (binding_base lane))
          | None => reason = RefusedFields
          end
  end.
Proof.
  destruct (next_lane_record prior lane url head pushed changeset subject recovery) as [r|e] eqn:E;
    [|by apply next_lane_record_err in E].
  apply next_lane_record_ok in E as (Hb & Hv & _ & _ & _ & Ec & Ea & Ed & Eb & Ep).
  destruct (next_commits_last prior lane head subject) as (row & Hrow & Hsha).
  assert (Hcs : ∀ a, a ∈ candidates lane recovery → a ∈ associations r)
    by (intros a Ha; rewrite Ea; apply associate_elem; by right).
  assert (Hlast : commit_sha <$> last (commits r) = Some head)
    by (rewrite Ec, Hrow; cbn; by rewrite Hsha).
  unfold record_valid in Hv. rewrite !andb_true_iff, !bool_decide_eq_true in Hv.
  split; [done|]. split.
  { rewrite Ec. unfold next_commits. case_decide.
    - exists []. split; [by rewrite app_nil_r|cbn; lia].
    - eexists. split; [done|cbn; lia]. }
  split; [done|]. split; [rewrite Ea; apply associate_prefix|]. split; [done|].
  split; [tauto|]. split; [tauto|]. repeat (split; [done|]).
  intros r' pushed' changeset' (_ & _ & _ & _ & _ & Ec' & Ea' & _)%next_lane_record_ok.
  rewrite Ec', Ea'. cbn [prior_associations]. unfold next_commits at 1. cbn [prior_commits].
  rewrite decide_True by done. split; [done|]. by apply associate_known.
Qed.
