(* ===== verification/LaneEntry.v ===== *)
(** * How a lane enters its fire (domain/lane_entry.py, types/domain/lane_entry.py,
    services/lane_entry.py, the names a run starts on in chains/ralph_workflow.py).

    The entry is decided from the lane's record, where its branches stand on the
    remote, what its subtree still owes and the base that resolves now. The theorems
    say what each decision rests on, and that a lane whose records were written by its
    own fires can always be entered again. *)

From S2P Require Import Prelude PyStr Tracker Errors Sha256 BaseResolution FireSpec LaneRecord.

Local Open Scope nat_scope.

(** ** Data *)

(** What an entry that stands on a record carries. *)
Record Reentry := {
  entry_deliverable : string;
  entry_loop : option string;
  entry_head : string;
  entry_deliverable_head : option string;
  entry_digest : option string;
  entry_base_stale : bool;
}.
#[export] Instance Reentry_eq_dec : EqDecision Reentry.
Proof. solve_decision. Defined.

(** [LaneEntry]; a [DeliverOnlyLane]'s loop branch is always named. *)
Inductive LaneEntry := NewLane | ResumedLane (e : Reentry) | DeliverOnlyLane (e : Reentry).
#[export] Instance LaneEntry_eq_dec : EqDecision LaneEntry.
Proof. solve_decision. Defined.

Definition body_digest (body : string) : string := sha256_hex body.

(** ** What a record alone settles *)

Record RecordedBranches := {
  named_loop : string;
  named_deliverable : string;
  recorded_base : string;
}.
Record RecordedLane := {
  recorded_record : LaneRunState;
  recorded_names : RecordedBranches;
  recorded_head : LaneCommit;
}.

(** The set, as its members once each. *)
Definition _derived_from (record : LaneRunState) (role : BranchRole) (branch : string) : list string :=
  dict_fromkeys (omap derived_from
    (filter (λ a, assoc_role a = role ∧ assoc_branch a = branch) (associations record))).

Definition sorted_names (l : list string) : list string := sort_by (λ s : string, s) l.

Definition recorded_branches (record : LaneRunState) : result exn RecordedBranches :=
  match _derived_from record ROLE_LOOP (record_branch record) with
  | [deliverable] =>
      match _derived_from record ROLE_DELIVERABLE deliverable with
      | [base] => Ok {| named_loop := record_branch record; named_deliverable := deliverable;
                        recorded_base := base |}
      | bases => Err (LaneEntryError (lane_key record) (NotOneBase (length bases)) (sorted_names bases))
      end
  | deliverables => Err (LaneEntryError (lane_key record) (NotOneDeliverable (length deliverables))
                           (sorted_names deliverables))
  end.

Definition recorded_commit (record : LaneRunState) : result exn LaneCommit :=
  match last (commits record) with
  | Some row => Ok row
  | None => Err (LaneEntryError (lane_key record) NoCommitAct [record_branch record])
  end.

Definition recorded_lane (record : LaneRunState) : result exn RecordedLane :=
  branches ← recorded_branches record;
  head ← recorded_commit record;
  mret {| recorded_record := record; recorded_names := branches; recorded_head := head |}.

Definition recorded_entry (entry : option LaneEntry) : option Reentry :=
  match entry with
  | Some (ResumedLane e) | Some (DeliverOnlyLane e) => Some e
  | _ => None
  end.

(** ** The decision *)

Definition decide_lane_entry (on_issue : string) (recorded : option RecordedLane)
    (remote_loop_head remote_deliverable_head : option string) (open_criteria : list string)
    (implied_base : BaseSpec) : result exn (option LaneEntry) :=
  match recorded with
  | None => Ok (if decide (open_criteria = []) then None else Some NewLane)
  | Some r =>
      let record := recorded_record r in
      let branches := recorded_names r in
      match remote_loop_head with
      | None => Err (LaneEntryError on_issue BranchAbsentFromRemote [named_loop branches])
      | Some remote =>
          if decide (recorded_base branches = base_branch implied_base) then
            let head := commit_sha (recorded_head r) in
            let continued := bool_decide (remote = head) in
            let entry loop := {|
              entry_deliverable := named_deliverable branches; entry_loop := loop;
              entry_head := head; entry_deliverable_head := remote_deliverable_head;
              entry_digest := record_digest record;
              entry_base_stale := match dispatch_base record with
                                  | Some base => is_base_stale base implied_base
                                  | None => false
                                  end |} in
            if decide (open_criteria = []) then
              if decide (pr record = None) then
                if continued then Ok (Some (DeliverOnlyLane (entry (Some (named_loop branches)))))
                else Err (LaneEntryError on_issue NothingOwedOffHead [named_loop branches])
              else Ok None
            else Ok (Some (ResumedLane (entry (if continued then Some (named_loop branches) else None))))
          else Err (LaneEntryError on_issue
                      (RecordedBaseMoved (recorded_base branches) (base_branch implied_base))
                      [named_deliverable branches])
      end
  end.

Definition require_unamended_subject (on_issue : string) (entry : option LaneEntry)
    (spec : TrackerSpec) : result exn unit :=
  match recorded_entry entry ≫= entry_digest with
  | None => Ok tt
  | Some recorded =>
      let current := body_digest (spec_body spec) in
      raise_if (negb (bool_decide (current = recorded)))
        (SubjectAmendedError on_issue recorded current) (Ok tt)
  end.

(** ** Gathering the facts (services/lane_entry.py) *)

(** The record the lane's comment holds, and the remote's tips, as one walk reads them. *)
Record EntryReads := {
  find_record : string → result exn (option LaneRunState);
  remote_branch_sha : string → result exn (option string);
}.

Definition read_entry_facts (reads : EntryReads) (on_issue : string) (open_criteria : list string)
    (implied_base : BaseSpec) : result exn (option LaneEntry) :=
  located ← find_record reads on_issue;
  match located with
  | None => decide_lane_entry on_issue None None None open_criteria implied_base
  | Some record =>
      recorded ← recorded_lane record;
      let named := recorded_names recorded in
      remote_head ← remote_branch_sha reads (named_loop named);
      deliverable_head ← remote_branch_sha reads (named_deliverable named);
      _ ← remote_branch_sha reads (recorded_base named);
      decide_lane_entry on_issue (Some recorded) remote_head deliverable_head open_criteria implied_base
  end.

(** ** The branches a run starts on (chains/ralph_workflow.py) *)

(** The deliverable branch, the loop branch, and the ref the loop is cut from or
    continues; [minted] and [fresh_loop] are the two name generators' answers. *)
Definition entry_branches (entry : LaneEntry) (base : BaseSpec) (minted : string * string)
    (fresh_loop : string → string) : string * string * string :=
  match entry with
  | NewLane => (minted.1, minted.2, base_branch base)
  | ResumedLane e =>
      match entry_loop e with
      | None => (entry_deliverable e, fresh_loop (entry_deliverable e), entry_head e)
      | Some loop => (entry_deliverable e, loop, loop)
      end
  | DeliverOnlyLane e =>
      let loop := default "" (entry_loop e) in (entry_deliverable e, loop, loop)
  end.

(** * Re-entry *)

(** One lane's life: fires that enter it, the commits and landings they record, its
    delivery, and remediation rounds that draw a fresh loop branch. Each fire's binding
    is the one its entry gives, on the base that resolved for it. *)
Inductive lane_life : option LaneRunState → option LaneBinding → Prop :=
| unborn : lane_life None None
| fire record binding on_issue remote deliverable open base entry minted fresh b :
    lane_life record binding →
    (recorded ← match record with Some r => Some <$> recorded_lane r | None => Ok None end;
     decide_lane_entry on_issue recorded remote deliverable open base) = Ok (Some entry) →
    (deliverable_branch b, loop_branch b) = (entry_branches entry base minted fresh).1 →
    binding_base b = base →
    lane_life record (Some b)
| commit prior b url head pushed changeset subject recovery r :
    lane_life prior (Some b) →
    next_lane_record prior b url head pushed changeset subject recovery = Ok r →
    lane_life (Some r) (Some b)
| remediate record b b' :
    lane_life record (Some b) →
    deliverable_branch b' = deliverable_branch b → binding_base b' = binding_base b →
    lane_life record (Some b')
| deliver r binding p :
    lane_life (Some r) binding → lane_life (Some (record_with_pull_request r p)) binding.

(** Every association is of the lane's one deliverable branch on its one base. *)
Record one_lineage (r : LaneRunState) (deliverable base : string) : Prop := {
  lineage_loops a : a ∈ associations r → assoc_role a = ROLE_LOOP → derived_from a = Some deliverable;
  lineage_deliverables a : a ∈ associations r → assoc_role a = ROLE_DELIVERABLE →
    assoc_branch a = deliverable ∧ derived_from a = Some base;
  lineage_loop : ∃ a, a ∈ associations r ∧ assoc_role a = ROLE_LOOP
    ∧ assoc_branch a = record_branch r;
  lineage_deliverable : ∃ a, a ∈ associations r ∧ assoc_role a = ROLE_DELIVERABLE;
  lineage_head : ∃ row, last (commits r) = Some row ∧ commit_sha row = head_sha r;
  lineage_named : deliverable ≠ "";
}.

Lemma derived_from_one r role branch d :
  (∀ a, a ∈ associations r → assoc_role a = role → assoc_branch a = branch → derived_from a = Some d) →
  (∃ a, a ∈ associations r ∧ assoc_role a = role ∧ assoc_branch a = branch) →
  _derived_from r role branch = [d].
Proof.
  intros Hall (a & Ha & Hr & Hb). unfold _derived_from. set (l := omap _ _).
  assert (∀ x, x ∈ dict_fromkeys l ↔ x = d) as Hd.
  { intros x. rewrite elem_of_fromkeys. unfold l. rewrite list_elem_of_omap. split.
    - intros (a' & [[Hr' Hb'] Ha']%list_elem_of_filter & E). rewrite (Hall _ Ha' Hr' Hb') in E. by injection E.
    - intros ->. exists a. split; [by apply list_elem_of_filter|by apply Hall]. }
  pose proof (fromkeys_NoDup l) as Hnd. destruct (dict_fromkeys l) as [|x [|y k]].
  - destruct (Hd d) as [_ H]. by apply elem_of_nil in H.
  - f_equal. apply Hd. by left.
  - exfalso. assert (x = d) as -> by (apply Hd; by left). assert (y = d) as -> by (apply Hd; right; by left).
    apply NoDup_cons in Hnd as [Hn _]. apply Hn. by left.
Qed.

Lemma one_lineage_enters r deliverable base :
  one_lineage r deliverable base →
  ∃ row, recorded_lane r = Ok {| recorded_record := r;
      recorded_names := {| named_loop := record_branch r; named_deliverable := deliverable;
                           recorded_base := base |};
      recorded_head := row |} ∧ commit_sha row = head_sha r.
Proof.
  intros [Hl Hd (a & Ha & Har & Hab) (c & Hc & Hcr) (row & Hrow & Hsha) _].
  exists row. split; [|done]. unfold recorded_lane, recorded_branches, recorded_commit.
  rewrite (derived_from_one r ROLE_LOOP (record_branch r) deliverable); [|by eauto|by eauto].
  rewrite (derived_from_one r ROLE_DELIVERABLE deliverable base).
  - cbn. by rewrite Hrow.
  - intros a' ? ? _. by apply Hd.
  - exists c. split; [done|]. split; [done|]. by apply Hd.
Qed.

(** What a lane's life keeps: one lineage, and a binding on it. *)
Definition bound_to (binding : option LaneBinding) (deliverable base : string) : Prop :=
  ∀ b, binding = Some b → deliverable_branch b = deliverable ∧ base_branch (binding_base b) = base.

Lemma has_loop_association_spec branch l :
  has_loop_association branch l = true →
  ∃ a, a ∈ l ∧ assoc_role a = ROLE_LOOP ∧ assoc_branch a = branch.
Proof.
  unfold has_loop_association. rewrite existsb_exists.
  intros (a & Ha%list_elem_of_In & E%bool_decide_eq_true). naive_solver.
Qed.

Lemma commit_lineage prior b url head pushed changeset subject recovery r deliverable base :
  (∀ p, prior = Some p → one_lineage p deliverable base) → bound_to (Some b) deliverable base →
  next_lane_record prior b url head pushed changeset subject recovery = Ok r →
  one_lineage r deliverable base.
Proof.
  intros Hp Hb E. pose proof (next_lane_record_named _ _ _ _ _ _ _ _ _ E) as Hnamed. revert E.
  intros (_ & Hv & _ & Ebr & Eh & Ec & Ea & _)%next_lane_record_ok.
  destruct (Hb b eq_refl) as [Ed Eb].
  assert (∀ a, a ∈ associations r → a ∈ prior_associations prior ∨ a ∈ candidates b recovery) as Hin
    by (intros a; rewrite Ea; apply associate_elem).
  assert (∀ a, a ∈ candidates b recovery →
    (assoc_role a = ROLE_LOOP → derived_from a = Some deliverable)
    ∧ (assoc_role a = ROLE_DELIVERABLE → assoc_branch a = deliverable ∧ derived_from a = Some base)) as Hc.
  { intros a. unfold candidates. rewrite elem_of_app, !elem_of_cons, elem_of_nil.
    intros [[->|[->|[]]]|Hr]; cbn; [by rewrite Ed, Eb|by rewrite Ed|].
    destruct recovery as [ref|]; [|by apply elem_of_nil in Hr].
    by apply list_elem_of_singleton in Hr as ->. }
  assert (∀ a, a ∈ prior_associations prior →
    (assoc_role a = ROLE_LOOP → derived_from a = Some deliverable)
    ∧ (assoc_role a = ROLE_DELIVERABLE → assoc_branch a = deliverable ∧ derived_from a = Some base)) as Hpr.
  { intros a Ha. destruct prior as [p|]; [|by apply elem_of_nil in Ha].
    destruct (Hp p eq_refl) as [Hl Hd _ _ _ _]. split; [by apply Hl|by apply Hd]. }
  split.
  - intros a [Ha|Ha]%Hin; [by apply Hpr|by apply Hc].
  - intros a [Ha|Ha]%Hin; [by apply Hpr|by apply Hc].
  - apply has_loop_association_spec. unfold record_valid in Hv. rewrite !andb_true_iff in Hv. tauto.
  - eexists. split; [rewrite Ea; apply associate_elem; right; by left|done].
  - rewrite Ec, Eh. apply next_commits_last.
  - by rewrite <-Ed.
Qed.

(** An entry that stands on a record starts its run on the record's own branches. *)
Lemma decided_entry on_issue r remote deliverable_head open base entry :
  decide_lane_entry on_issue (Some r) remote deliverable_head open base = Ok (Some entry) →
  ∃ e, (entry = ResumedLane e ∨ entry = DeliverOnlyLane e)
    ∧ entry_deliverable e = named_deliverable (recorded_names r)
    ∧ recorded_base (recorded_names r) = base_branch base
    ∧ entry_head e = commit_sha (recorded_head r).
Proof.
  unfold decide_lane_entry. destruct remote as [tip|]; [|done].
  repeat case_decide; try done; try case_match; intros; simplify_eq; eauto 10.
Qed.

Lemma lane_life_lineage record binding :
  lane_life record binding →
  match record with
  | Some r => ∃ deliverable base, one_lineage r deliverable base ∧ bound_to binding deliverable base
  | None => True
  end.
Proof.
  induction 1 as [|record binding on_issue remote dh open base entry minted fresh b Hl IH Ed Eb Ebase
    |prior b url head pushed changeset subject recovery r Hl IH E
    |record b b' Hl IH Ed Eb|r binding p Hl IH]; [done| | | |].
  - destruct record as [r|]; [|done]. destruct IH as (d & bs & Hr & _).
    exists d, bs. split; [done|].
    destruct (one_lineage_enters _ _ _ Hr) as (row & Erl & _). rewrite Erl in Ed.
    apply bind_ok in Ed as (x & [= <-] & Ed).
    apply decided_entry in Ed as (e & He & Hd & Hbase & _). cbn in Hd, Hbase.
    intros b' [= <-]. rewrite Ebase, <-Hbase. split; [|done].
    destruct He as [->| ->]; cbn in Eb; [|by injection Eb as -> _; rewrite Hd].
    destruct (entry_loop e); cbn in Eb; injection Eb as -> _; by rewrite Hd.
  - destruct prior as [p|].
    + destruct IH as (d & bs & Hp & Hb). exists d, bs. split; [|done].
      eapply commit_lineage; [|done|done]. by intros p' [= <-].
    + exists (deliverable_branch b), (base_branch (binding_base b)).
      assert (bound_to (Some b) (deliverable_branch b) (base_branch (binding_base b))) as Hb
        by (by intros b' [= <-]).
      split; [|done]. eapply commit_lineage; [|done|done]. done.
  - destruct record as [r|]; [|done]. destruct IH as (d & bs & Hr & Hb).
    exists d, bs. split; [done|]. intros b0 [= <-]. rewrite Ed, Eb. by apply Hb.
  - destruct IH as (d & bs & [H1 H2 H3 H4 H5 H6] & Hb). exists d, bs. split; [by split|done].
Qed.

(** ** Theorems *)

(** C31. A lane can always be entered again from what its own fires recorded. However
    its fires, re-entries, remediation rounds, commits, landings and delivery went, the
    record settles one deliverable branch and one base, so resolving it never refuses;
    it resolves the branch the record stands on, at the head the record names; and the
    fire in progress is bound to those same branches, so recording its next commit is
    never refused as a rebinding of the run. *)
Theorem lane_reentry (r : LaneRunState) (binding : option LaneBinding)
    (Hlife : lane_life (Some r) binding) :
  ∃ recorded, recorded_lane r = Ok recorded
    ∧ recorded_record recorded = r
    ∧ named_loop (recorded_names recorded) = record_branch r
    ∧ commit_sha (recorded_head recorded) = head_sha r
    ∧ ∀ b, binding = Some b →
        rebound (Some r) b = None
        ∧ deliverable_branch b = named_deliverable (recorded_names recorded)
        ∧ base_branch (binding_base b) = recorded_base (recorded_names recorded).
Proof.
  destruct (lane_life_lineage _ _ Hlife) as (d & bs & Hr & Hb).
  destruct (one_lineage_enters _ _ _ Hr) as (row & E & Hsha).
  eexists. split; [exact E|]. split; [done|]. split; [done|]. split; [done|].
  intros b Eb. destruct (Hb b Eb) as [Hd Hbs]. split; [|done].
  unfold rebound. apply first_such_None, Forall_forall. intros a Ha. apply bool_decide_eq_false.
  intros (Hrole & _ & Hne). apply Hne. destruct (lineage_deliverables _ _ _ Hr a Ha Hrole) as [-> ->].
  by rewrite Hd, Hbs.
Qed.

(** What each answer of the entry decision rests on. A new lane is minted only with
    no record and something owed, so never beside recorded branches. With a record, the
    entry carries the record's own deliverable branch, head and pinned digest, and
    continues its loop branch exactly when the remote holds it at that head: resumed
    when something is owed, delivered when nothing is and no pull request is recorded.
    Nothing to do is no record and nothing owed, or nothing owed and a pull request
    recorded. The refusals are: the branch gone from the remote, the base moved, or
    nothing owed with the branch off its head. *)
Theorem decide_lane_entry_spec (on_issue : string) (recorded : option RecordedLane)
    (remote dh : option string) (open : list string) (base : BaseSpec) :
  match decide_lane_entry on_issue recorded remote dh open base with
  | Ok (Some NewLane) => recorded = None ∧ open ≠ []
  | Ok None =>
      open = [] ∧ (recorded = None ∨ ∃ r, recorded = Some r ∧ pr (recorded_record r) ≠ None)
  | Ok (Some (ResumedLane e)) =>
      open ≠ [] ∧ ∃ r, recorded = Some r ∧ recorded_base (recorded_names r) = base_branch base
        ∧ entry_deliverable e = named_deliverable (recorded_names r)
        ∧ entry_head e = commit_sha (recorded_head r)
        ∧ entry_digest e = record_digest (recorded_record r)
        ∧ (entry_loop e = Some (named_loop (recorded_names r)) ∧ remote = Some (entry_head e)
           ∨ entry_loop e = None ∧ remote ≠ None ∧ remote ≠ Some (entry_head e))
  | Ok (Some (DeliverOnlyLane e)) =>
      open = [] ∧ ∃ r, recorded = Some r ∧ pr (recorded_record r) = None
        ∧ recorded_base (recorded_names r) = base_branch base
        ∧ entry_deliverable e = named_deliverable (recorded_names r)
        ∧ entry_loop e = Some (named_loop (recorded_names r))
        ∧ entry_head e = commit_sha (recorded_head r) ∧ remote = Some (entry_head e)
  | Err e =>
      ∃ r reason branches, recorded = Some r ∧ e = LaneEntryError on_issue reason branches
        ∧ (reason = BranchAbsentFromRemote ∧ remote = None
           ∨ reason = RecordedBaseMoved (recorded_base (recorded_names r)) (base_branch base)
             ∧ recorded_base (recorded_names r) ≠ base_branch base
           ∨ reason = NothingOwedOffHead ∧ open = [] ∧ pr (recorded_record r) = None
             ∧ remote ≠ Some (commit_sha (recorded_head r)))
  end.
Proof.
  unfold decide_lane_entry. destruct recorded as [r|]; [|case_decide; naive_solver].
  destruct remote as [tip|]; [|naive_solver].
  case_decide; [|naive_solver]. case_decide.
  - case_decide; [|naive_solver]. case_bool_decide; naive_solver.
  - split; [done|]. exists r. cbn [entry_deliverable entry_head entry_digest entry_loop].
    repeat (split; [done|]). case_bool_decide; [left|right]; naive_solver.
Qed.

(** ** A lane that commits, is remediated and is entered again *)

Definition sample_base : BaseSpec := {| inputs := []; base_branch := "main"; base_role := None |}.
Definition sample_binding (loop run : string) : LaneBinding := {|
  binding_lane_key := "K-1"; loop_branch := loop; deliverable_branch := "kodezart/K-1-aa";
  binding_base := sample_base;
  binding_digest := "0123456789abcdef0123456789abcdef0123456789abcdef0123456789abcdef";
  repo_url := Some "https://forge/repo"; repo_path := None;
  run_id := run |}.
Definition sample_changes : Lapse.ChangesetDigest := {|
  Lapse.file_paths := ["a.py"]; Lapse.commit_subjects := ["work"]; Lapse.commit_count := 1 |}.
Definition sample_record (prior : option LaneRunState) (b : LaneBinding) (head : string) :
    result exn LaneRunState :=
  next_lane_record prior b "https://forge/K-1" head (Some head) sample_changes "work" None.

Definition sample_life : result exn LaneRunState :=
  r1 ← sample_record None (sample_binding "l1" "run-1") "c1";
  r2 ← sample_record (Some r1) (sample_binding "l2" "run-1") "c2";
  sample_record (Some r2) (sample_binding "l2" "run-2") "c3".

Lemma sample_lived r : sample_life = Ok r → lane_life (Some r) (Some (sample_binding "l2" "run-2")).
Proof.
  unfold sample_life. intros (r1 & E1 & (r2 & E2 & E3)%bind_ok)%bind_ok.
  eapply commit; [|exact E3].
  eapply (fire _ _ "K-1" (Some "c2") None ["K-2"] sample_base _ ("", "") (λ d, d) _);
    [eapply commit; [|exact E2];
     eapply remediate; [eapply commit; [|exact E1];
       eapply (fire None None "K-1" None None ["K-2"] sample_base NewLane
                 ("kodezart/K-1-aa", "l1") (λ d, d)); [apply unborn|done|done|done]
       |done|done]
    | | |done].
  - vm_compute in E1. injection E1 as <-. vm_compute in E2. injection E2 as <-. vm_compute. reflexivity.
  - done.
Qed.

Example lane_reentry_witness :
  ∃ r, sample_life = Ok r ∧
  ∃ recorded, recorded_lane r = Ok recorded ∧ commit_sha (recorded_head recorded) = head_sha r
    ∧ named_deliverable (recorded_names recorded) = "kodezart/K-1-aa".
Proof.
  destruct sample_life as [r|] eqn:E; [|by vm_compute in E].
  exists r. split; [done|].
  destruct (lane_reentry r _ (sample_lived r E)) as (recorded & Hr & _ & _ & Hh & Hb).
  exists recorded. split; [exact Hr|]. split; [exact Hh|].
  destruct (Hb _ eq_refl) as (_ & Hd & _). by rewrite <-Hd.
Defined.
