(* ===== verification/FireCriteria.v ===== *)
(** * A fire's criteria, read off the board at its barriers (chains/criteria.py,
    services/scope_membership.py).

    One reading of a subject's subtree answers what the fire is specified by, what it
    owes and what it may deliver. The tracker is what it answers at the moment of a
    reading; the theorems say which readings admit a fire, with which roster, and
    exactly which later readings leave that roster standing. *)

From S2P Require Import Prelude PyStr Tracker Errors FireSpec Gap Criteria Lapse CrossOff.
From S2P Require Import Sha256 BaseResolution LaneRecord LaneEntry.

Local Open Scope nat_scope.

(** ** Membership of a scope (services/scope_membership.py) *)

(** The reads of the port: a scope's issues, the criteria of one issue, and the
    subject of a fire with its admission. *)
Record SubjectReader := {
  scope_issues : ScopeRef → result exn (list TrackerIssue);
  read_criteria : string → result exn (list TrackerIssue);
  read_fire_subject : string → result exn TrackerIssue;
}.

Notation members := (pydict string TrackerIssue).

Definition add_scoped (scope : ScopeRef) (ms : members) (issue : TrackerIssue) : result exn members :=
  raise_if (dict_mem ms (issue_key issue)) (ScopeReadError "duplicate scope member" scope)
    (Ok (dict_set ms (issue_key issue) issue)).

(** One criterion of one member: the keys seen under it, and the members so far. *)
Definition add_child (scope : ScopeRef) (parent : string) (s : gset string * members)
    (criterion : TrackerIssue) : result exn (gset string * members) :=
  let '(child_keys, ms) := s in
  let key := issue_key criterion in
  raise_if (bool_decide (key ∈ child_keys))
    (ScopeReadError "duplicate scope criterion member" scope)
  (raise_if (negb (bool_decide (parent_key criterion = Some parent))
             || match dict_get ms key with
                | Some previous => negb (bool_decide (previous = criterion))
                | None => false
                end)
     (ScopeReadError "scope criterion membership changed" scope)
     (Ok ({[ key ]} ∪ child_keys, dict_set ms key criterion))).

Definition add_children (tracker : SubjectReader) (scope : ScopeRef) (ms : members)
    (issue : TrackerIssue) : result exn members :=
  criteria ← read_criteria tracker (issue_key issue);
  s ← foldM (add_child scope (issue_key issue)) (∅, ms) criteria;
  mret s.2.

Definition read_scope_members (tracker : SubjectReader) (scope : ScopeRef) : result exn members :=
  scoped ← scope_issues tracker scope;
  ms ← foldM (add_scoped scope) [] scoped;
  foldM (add_children tracker scope) ms scoped.

Definition read_subtree_members (tracker : SubjectReader) (subject : string) : result exn members :=
  read_scope_members tracker {| scope_kind := ISSUE; scope_key := subject |}.

Definition subtree_criteria (ms : members) : members :=
  filter (λ ki, has_label "criterion" ki.2 = true) ms.

Definition read_subtree_criteria (tracker : SubjectReader) (subject : string) : result exn members :=
  subtree_criteria <$> read_subtree_members tracker subject.

(** Every issue beneath the members of a scope; the scope's own copy of an issue stands. *)
Definition add_rooted (tracker : SubjectReader) (ms : members) (subtree : members)
    (member : string * TrackerIssue) : result exn members :=
  if decide (parent_key member.2 ∈ Some <$> dict_keys ms) then Ok subtree
  else
    rooted ← read_scope_members tracker {| scope_kind := ISSUE; scope_key := member.1 |};
    mret (foldl (λ t ki, dict_set t ki.1 (default ki.2 (dict_get ms ki.1))) subtree rooted).

Definition read_member_subtrees (tracker : SubjectReader) (scope : ScopeRef) (ms : members) :
    result exn members :=
  subtree ← foldM (add_rooted tracker ms) [] ms;
  let absent := filter (λ k, k ∉ dict_keys subtree) (dict_keys ms) in
  raise_if (negb (bool_decide (absent = [])))
    (ScopeReadError ("scope member is outside every member subtree: "
                     +:+ join ", " (sorted_names absent)) scope)
    (Ok subtree).

(** ** The barriers (chains/criteria.py) *)

Definition OWED_CRITERION_STATE : WorkflowStateKind := UNSTARTED.

(** [_TRANSPORT_FAILURES] *)
Definition is_transport_failure (e : exn) : bool :=
  is_TransientAPIError e ||
  match e with
  | ConnectionError | TimeoutError _ | TrackerUnavailableError | TrackerAccessDeniedError => true
  | _ => false
  end.

(** [try: ... except _TRANSPORT_FAILURES as exc: raise refusal from exc] *)
Definition refuse_transport {A} (refusal : exn) (r : result exn A) : result exn A :=
  match r with
  | Err e => if is_transport_failure e then Err refusal else Err e
  | r => r
  end.

(** [except TrackerProtocolError as exc: raise refusal from exc] *)
Definition refuse_protocol {A} (refusal : exn) (r : result exn A) : result exn A :=
  match r with Err (TrackerProtocolError _) => Err refusal | r => r end.

(** [sorted(criteria.items())] *)
Definition sorted_items (criteria : members) : members := sort_by (λ ki : string * TrackerIssue, ki.1) criteria.

Section barriers.
Context (isoformat : Z → string) (tracker : SubjectReader).

Definition _capture (key : string) : result exn (TrackerSpec * members) :=
  read ← refuse_protocol (CriterionReadError key "the tracker read failed or was incomplete")
    (refuse_transport (FireSpecEntryError key "the tracker subject spec could not be read")
      (subject ← read_fire_subject tracker key;
       criteria ← read_subtree_criteria tracker (issue_key subject);
       mret (subject, criteria)));
  let '(subject, criteria) := read in
  spec ← tracker_spec_from_issues isoformat subject (sorted_items criteria).*2;
  mret (spec, criteria).

Definition owes (held : gset string) (key : string) (issue : TrackerIssue) : bool :=
  bool_decide (state_kind issue = OWED_CRITERION_STATE)
  || bool_decide (state_kind issue = HELD_CRITERION_STATE ∧ key ∈ held).

(** The Checks of the items a barrier selects, in key order. *)
Definition checks_of (subject : string) (selected : string → TrackerIssue → result exn bool)
    (criteria : members) : result exn (pydict string string) :=
  foldM (λ checks ki,
      keep ← selected ki.1 ki.2;
      if (keep : bool) then
        check ← criterion_check ki.2 subject; mret (checks ++ [(ki.1, check)])
      else mret checks)
    [] (sorted_items criteria).

Definition _owed (spec : TrackerSpec) (criteria : members) (held : gset string) :
    result exn (list TrackerCriterion) :=
  owed ← checks_of (spec_subject spec) (λ key issue, Ok (owes held key issue)) criteria;
  raise_if (bool_decide (owed = []))
    (FireSpecEntryError (spec_subject spec) "the subtree has no Todo criteria to execute")
    (criterion_set owed).

Definition held_keys (held : option (list TrackerCriterion)) : gset string :=
  match held with Some cs => list_to_set (tracked_id <$> cs) | None => ∅ end.

Definition owed_from (spec : TrackerSpec) (criteria : members)
    (held : option (list TrackerCriterion)) : result exn (list TrackerCriterion) :=
  _owed spec criteria (held_keys held).

(** The refusal names the unfinished criteria, in key order. *)
Definition _finished (spec : TrackerSpec) (criteria : members) :
    result exn (list TrackerCriterion) :=
  gap ← compute_gap (sorted_items criteria).*2;
  let unfinished := issue_key <$> owed gap in
  raise_if (negb (bool_decide (unfinished = [])))
    (FireSpecEntryError (spec_subject spec)
      ("a criterion of the subtree is not finished: " +:+ join ", " unfinished))
    (roster ← checks_of (spec_subject spec)
       (λ _ issue, m ← gap_membership issue; mret (bool_decide (m = DISCHARGED))) criteria;
     raise_if (bool_decide (roster = []))
       (FireSpecEntryError (spec_subject spec) "the subtree has no criteria to deliver")
       (criterion_set roster)).

Definition read_entry (key : string) (delivering : bool) :
    result exn (TrackerSpec * list TrackerCriterion) :=
  captured ← _capture key;
  let '(spec, criteria) := captured in
  roster ← (if delivering then _finished spec criteria else _owed spec criteria ∅);
  mret (spec, roster).

Definition read_owed_criteria (key : string) : result exn (pydict string string) :=
  entered ← read_entry key false;
  mret (dict_of ((λ c, (tracked_id c, tracked_text c)) <$> entered.2)).

Definition _read_subtree_criteria (spec : TrackerSpec) : result exn members :=
  criteria ← read_subtree_criteria tracker (spec_subject spec);
  match first_such (λ named, negb (dict_mem criteria named)) (spec_criteria spec) with
  | Some named => Err (InvalidFireCriterionError (spec_subject spec) named
                         "the spec names a criterion the subtree does not hold")
  | None => Ok criteria
  end.

Definition read_current (spec : TrackerSpec) (held : option (list TrackerCriterion)) :
    result exn (list TrackerCriterion) :=
  criteria ← refuse_transport
    (FireSpecEntryError (spec_subject spec) "current tracker criteria could not be read")
    (_read_subtree_criteria spec);
  owed_from spec criteria held.

(** The workflow's entry node, over the fields of its state it reads. A persisted
    artifact as the recorded set is [PersistedCriterionSetError]'s, the authored spec
    the mismatch's: neither is the tracker arm's, and both are left out of the type. *)
Definition revalidate_criteria (state_issue_key : option string) (state_spec : option TrackerSpec)
    (lane_entry : option LaneEntry) (state_set : option (list TrackerCriterion)) :
    result exn (TrackerSpec * list TrackerCriterion) :=
  match state_issue_key with
  | None => Err (ValueError "A tracker-native fire carries its subject as issue_key")
  | Some key =>
      entered ← match state_spec with
                | Some spec => mret (spec, None)
                | None => entered ← read_entry key
                            (match lane_entry with Some (DeliverOnlyLane _) => true | _ => false end);
                          mret (entered.1, Some entered.2)
                end;
      let '(spec, entry_set) := (entered : TrackerSpec * option (list TrackerCriterion)) in
      raise_if (negb (bool_decide (spec_subject spec = key)))
        (ValueError "The native fire spec must match its addressed subject")
        (_ ← require_unamended_subject key lane_entry spec;
         match entry_set with
         | Some roster => mret (spec, roster)
         | None => roster ← read_current spec state_set; mret (spec, roster)
         end)
  end.

(** A judgment's effect, permitted only over the roster it was reached on; [configured]
    tells whether the node was given a criteria reader ([current_native_criteria]). *)
Definition require_current_native_snapshot (configured : bool) (state_spec : option TrackerSpec)
    (recorded : option (list TrackerCriterion)) : result exn unit :=
  match state_spec with
  | None => Ok tt
  | Some spec =>
      current ← raise_if (negb configured)
        (FireSpecEntryError (spec_subject spec)
          "the current tracker criteria reader is not configured")
        (read_current spec recorded);
      raise_if (negb (bool_decide (Some current = recorded)))
        (FireSpecEntryError (spec_subject spec)
          "current tracker criteria differ from the evaluated snapshot") (Ok tt)
  end.
End barriers.

(** * Lemmas *)

(** Issues keyed by their own keys, once each. *)
Definition keyed (ms : members) : Prop :=
  NoDup (dict_keys ms) ∧ ∀ k i, (k, i) ∈ ms → issue_key i = k.

Lemma keyed_set ms i : keyed ms → keyed (dict_set ms (issue_key i) i).
Proof.
  intros [Hnd Hk]. split; [by apply dict_set_NoDup|].
  intros k j [[= -> ->]|Hin]%dict_set_elem; [done|by apply Hk].
Qed.

Lemma read_scope_members_keyed tracker scope ms :
  read_scope_members tracker scope = Ok ms → keyed ms.
Proof.
  unfold read_scope_members. intros (scoped & _ & (ms0 & E0 & E)%bind_ok)%bind_ok.
  assert (keyed ms0) as H0.
  { revert E0. apply (foldM_invariant keyed).
    - intros m i m' _ Hm. unfold add_scoped. rewrite raise_if_ok. intros [_ [= <-]]. by apply keyed_set.
    - split; [constructor|]. by intros k i ?%elem_of_nil. }
  revert E. apply (foldM_invariant keyed); [|done].
  intros m issue m' _ Hm. unfold add_children. intros (cs & _ & (s & Es & [= <-])%bind_ok)%bind_ok.
  revert Es. apply (foldM_invariant (λ s : gset string * members, keyed s.2)); [|done].
  intros [ks m1] c [ks' m2] _ Hm1. unfold add_child. rewrite !raise_if_ok.
  intros (_ & _ & [= _ <-]). by apply keyed_set.
Qed.

Lemma subtree_criteria_keyed ms : keyed ms → keyed (subtree_criteria ms).
Proof.
  intros [Hnd Hk]. unfold subtree_criteria. split; [by apply NoDup_fmap_filter|].
  intros k i [_ Hin]%list_elem_of_filter. by apply Hk.
Qed.

Lemma read_subtree_criteria_ok tracker subject criteria :
  read_subtree_criteria tracker subject = Ok criteria →
  keyed criteria ∧ ∀ k i, (k, i) ∈ criteria → has_label "criterion" i = true.
Proof.
  unfold read_subtree_criteria. destruct (read_subtree_members tracker subject) as [ms|] eqn:E; [|done].
  intros [= <-]. split; [by eapply subtree_criteria_keyed, read_scope_members_keyed|].
  intros k i [H _]%list_elem_of_filter. exact H.
Qed.

Lemma sorted_items_elem ki criteria : ki ∈ sorted_items criteria ↔ ki ∈ criteria.
Proof. apply elem_of_sort_by. Qed.

Lemma sorted_items_keys criteria :
  keyed criteria →
  NoDup (sorted_items criteria).*1
  ∧ StronglySorted (λ x y, key_leb x.1 y.1 = true) (sorted_items criteria).
Proof.
  intros [Hnd _]. unfold sorted_items. split; [by rewrite sort_by_perm|apply sort_by_sorted].
Qed.

Lemma sorted_fst_unique {A B} (l : list (string * A)) (k : list (string * B)) :
  StronglySorted (λ x y, key_leb x.1 y.1 = true) l → NoDup l.*1 →
  StronglySorted (λ x y, key_leb x.1 y.1 = true) k → NoDup k.*1 →
  (∀ x, x ∈ l.*1 ↔ x ∈ k.*1) → l.*1 = k.*1.
Proof.
  intros Hl Hln Hk Hkn Hlk.
  assert (∀ {C} (l : list (string * C)), StronglySorted (λ x y, key_leb x.1 y.1 = true) l →
    StronglySorted (λ x y : string, key_leb x y = true) l.*1) as Hs.
  { intros C l0. induction 1 as [|x l0 _ IH Hx]; [constructor|]. rewrite fmap_cons. constructor; [done|].
    by apply Forall_fmap. }
  apply (StronglySorted_unique_strong (λ x y : string, key_leb x y = true)).
  - intros x y _ _. apply key_leb_antisym.
  - by apply Hs.
  - by apply Hs.
  - by apply NoDup_Permutation.
Qed.

(** What a barrier's selection answers. *)
Definition check_row (subject : string) (ki : string * TrackerIssue) (kc : string * string) : Prop :=
  kc.1 = ki.1 ∧ criterion_check ki.2 subject = Ok kc.2.

Lemma checks_of_ok subject sel (p : string * TrackerIssue → bool) criteria checks :
  (∀ ki, ki ∈ criteria → sel ki.1 ki.2 = Ok (p ki)) →
  checks_of subject sel criteria = Ok checks ↔
  Forall2 (check_row subject) (filter (λ ki, p ki = true) (sorted_items criteria)) checks.
Proof.
  intros Hsel. unfold checks_of.
  assert (∀ ki, ki ∈ sorted_items criteria → sel ki.1 ki.2 = Ok (p ki)) as Hs
    by (intros ki; rewrite sorted_items_elem; apply Hsel).
  clear Hsel. set (f := λ checks ki, _).
  enough (∀ acc, foldM f acc (sorted_items criteria) = Ok checks ↔
    ∃ cs, checks = acc ++ cs
      ∧ Forall2 (check_row subject) (filter (λ ki, p ki = true) (sorted_items criteria)) cs) as H.
  { rewrite H. split; [by intros (cs & -> & ?)|by exists checks]. }
  induction (sorted_items criteria) as [|ki l IH]; intros acc; cbn [foldM].
  { split; [intros [= <-]; exists []; by rewrite app_nil_r|].
    intros (cs & -> & Hn%Forall2_nil_inv_l). subst. by rewrite app_nil_r. }
  unfold f at 1. rewrite Hs by by left. cbn [mbind result_bind].
  specialize (IH (λ ki' H, Hs ki' (list_elem_of_further _ _ _ H))).
  rewrite filter_cons. destruct (p ki); cbn [mbind result_bind].
  2:{ rewrite decide_False by done. apply IH. }
  rewrite decide_True by done.
  destruct (criterion_check ki.2 subject) as [check|e] eqn:E; cbn [mbind result_bind].
  - cbn [mret result_ret]. rewrite IH. split.
    + intros (cs & -> & Hcs). exists ((ki.1, check) :: cs). rewrite <-app_assoc.
      split; [done|]. by constructor.
    + intros (cs & -> & Hcs). apply Forall2_cons_inv_l in Hcs as ([k' c'] & cs' & [E1 E2] & Hcs & ->).
      cbn in E1, E2. rewrite E in E2. injection E2 as <-. subst k'. exists cs'.
      by rewrite <-app_assoc.
  - split; [done|]. intros (cs & -> & Hcs).
    apply Forall2_cons_inv_l in Hcs as ([k' c'] & cs' & [_ E2] & _). congruence.
Qed.

Definition as_roster (checks : pydict string string) : list TrackerCriterion :=
  (λ kv, {| tracked_id := kv.1; tracked_text := kv.2 |}) <$> checks.

Lemma as_roster_inj c1 c2 : as_roster c1 = as_roster c2 → c1 = c2.
Proof. apply list_fmap_eq_inj. by intros [] [] [= -> ->]. Qed.

Lemma as_roster_ids checks : tracked_id <$> as_roster checks = checks.*1.
Proof. unfold as_roster. by rewrite <-list_fmap_compose. Qed.

Lemma owed_ok spec criteria held roster :
  _owed spec criteria held = Ok roster ↔
  ∃ checks, Forall2 (check_row (spec_subject spec))
      (filter (λ ki, owes held ki.1 ki.2 = true) (sorted_items criteria)) checks
    ∧ checks ≠ [] ∧ roster = as_roster checks.
Proof.
  unfold _owed. rewrite bind_ok. setoid_rewrite (checks_of_ok _ _ (λ ki, owes held ki.1 ki.2)); [|done].
  setoid_rewrite raise_if_ok. unfold criterion_set. setoid_rewrite raise_if_ok.
  setoid_rewrite bool_decide_eq_false. split.
  - intros (checks & Hc & Hne & _ & [= <-]). by exists checks.
  - intros (checks & Hc & Hne & ->). by exists checks.
Qed.

Lemma check_rows_fst subject l checks : Forall2 (check_row subject) l checks → checks.*1 = l.*1.
Proof. induction 1 as [|ki kc l cs [E _] _ IH]; [done|]. rewrite !fmap_cons. by rewrite E, IH. Qed.

Lemma selected_sorted criteria (P : string * TrackerIssue → Prop) `{∀ x, Decision (P x)} :
  keyed criteria →
  NoDup (filter P (sorted_items criteria)).*1
  ∧ StronglySorted (λ x y, key_leb x.1 y.1 = true) (filter P (sorted_items criteria)).
Proof.
  intros Hk. destruct (sorted_items_keys criteria Hk) as [Hnd Hs].
  split; [by apply NoDup_fmap_filter|by apply StronglySorted_filter].
Qed.

(** The rows of a selection, one by one. *)
Lemma check_rows_elem subject l checks k c :
  NoDup l.*1 → Forall2 (check_row subject) l checks →
  (k, c) ∈ checks ↔ ∃ i, (k, i) ∈ l ∧ criterion_check i subject = Ok c.
Proof.
  intros _. induction 1 as [|[k0 i0] [k1 c1] l cs [E1 E2] _ IH].
  - split; [by intros ?%elem_of_nil|]. by intros (i & ?%elem_of_nil & _).
  - cbn in E1, E2. subst k1. rewrite elem_of_cons, IH. setoid_rewrite elem_of_cons. split.
    + intros [[= -> ->]|(i & Hi & Hc)]; [by eauto|eauto 6].
    + intros (i & [[= -> ->]|Hi] & Hc); [left; congruence|right; eauto].
Qed.

(** A list of identities in key order, once each. *)
Definition in_key_order (roster : list TrackerCriterion) : Prop :=
  NoDup (tracked_id <$> roster)
  ∧ StronglySorted (λ x y : string, key_leb x y = true) (tracked_id <$> roster).

Lemma sorted_fst_ids {A} (l : list (string * A)) :
  StronglySorted (λ x y, key_leb x.1 y.1 = true) l →
  StronglySorted (λ x y : string, key_leb x y = true) l.*1.
Proof.
  induction 1 as [|x l _ IH Hx]; [constructor|]. rewrite fmap_cons. constructor; [done|].
  by apply Forall_fmap.
Qed.

Lemma roster_in_order subject criteria (P : string * TrackerIssue → Prop)
    `{∀ x, Decision (P x)} checks :
  keyed criteria → Forall2 (check_row subject) (filter P (sorted_items criteria)) checks →
  in_key_order (as_roster checks).
Proof.
  intros Hk Hc. destruct (selected_sorted criteria P Hk) as [Hnd Hs].
  unfold in_key_order. rewrite as_roster_ids, (check_rows_fst _ _ _ Hc).
  split; [done|by apply sorted_fst_ids].
Qed.

Lemma ids_unique (l1 l2 : list string) :
  NoDup l1 → StronglySorted (λ x y : string, key_leb x y = true) l1 →
  NoDup l2 → StronglySorted (λ x y : string, key_leb x y = true) l2 →
  (∀ x, x ∈ l1 ↔ x ∈ l2) → l1 = l2.
Proof.
  intros Hn1 Hs1 Hn2 Hs2 H. apply (StronglySorted_unique_strong (λ x y : string, key_leb x y = true));
    [|done|done|by apply NoDup_Permutation].
  intros x y _ _. apply key_leb_antisym.
Qed.

(** What a later reading of the subtree must show for a roster to stand on it. *)
Definition stands (subject : string) (roster : list TrackerCriterion) (criteria : members) : Prop :=
  (∀ c, c ∈ roster → ∃ i, (tracked_id c, i) ∈ criteria
     ∧ (state_kind i = OWED_CRITERION_STATE ∨ state_kind i = HELD_CRITERION_STATE)
     ∧ criterion_check i subject = Ok (tracked_text c))
  ∧ (∀ k i, (k, i) ∈ criteria → k ∉ tracked_id <$> roster → state_kind i ≠ OWED_CRITERION_STATE).

Lemma owes_iff held k i :
  owes held k i = true ↔ state_kind i = OWED_CRITERION_STATE
    ∨ state_kind i = HELD_CRITERION_STATE ∧ k ∈ held.
Proof. unfold owes. by rewrite orb_true_iff, !bool_decide_eq_true. Qed.

Lemma held_keys_elem k roster : k ∈ held_keys (Some roster) ↔ k ∈ tracked_id <$> roster.
Proof. unfold held_keys. apply elem_of_list_to_set. Qed.

Lemma keyed_unique criteria k i j : keyed criteria → (k, i) ∈ criteria → (k, j) ∈ criteria → i = j.
Proof.
  intros [Hnd _] Hi Hj. by injection (NoDup_fmap_elem fst criteria (k, i) (k, j) Hnd Hi Hj eq_refl).
Qed.

(** The roster a barrier answers with is the one it was asked about exactly when that
    roster stands. *)
Lemma owed_stands spec criteria roster :
  keyed criteria → roster ≠ [] → in_key_order roster →
  _owed spec criteria (held_keys (Some roster)) = Ok roster ↔ stands (spec_subject spec) roster criteria.
Proof.
  intros Hk Hne [Hrn Hrs]. rewrite owed_ok.
  set (sel := filter (λ ki, owes (held_keys (Some roster)) ki.1 ki.2 = true) (sorted_items criteria)).
  destruct (selected_sorted criteria (λ ki, owes (held_keys (Some roster)) ki.1 ki.2 = true) Hk) as [Hsn Hss].
  fold sel in Hsn, Hss.
  assert (∀ k i, (k, i) ∈ sel ↔ (k, i) ∈ criteria ∧ (state_kind i = OWED_CRITERION_STATE
    ∨ state_kind i = HELD_CRITERION_STATE ∧ k ∈ tracked_id <$> roster)) as Hsel.
  { intros k i. unfold sel. rewrite list_elem_of_filter, sorted_items_elem. cbn [fst snd].
    rewrite owes_iff, held_keys_elem. tauto. }
  split.
  - intros (checks & Hc & _ & ->). pose proof (check_rows_fst _ _ _ Hc) as Hf. split.
    + intros c ([k t] & -> & Hin)%list_elem_of_fmap. cbn [tracked_id tracked_text].
      apply (check_rows_elem _ _ _ _ _ Hsn Hc) in Hin as (i & Hi & Ht).
      apply Hsel in Hi as [Hi Hst]. exists i. split; [done|]. split; [tauto|done].
    + intros k i Hi Hn Hst. apply Hn. rewrite as_roster_ids, Hf.
      apply (list_elem_of_fmap_2 fst sel (k, i)), Hsel. auto.
  - intros [Hin Hout].
    assert (sel.*1 = tracked_id <$> roster) as Hids.
    { apply ids_unique; [done|by apply sorted_fst_ids|done|done|]. intros x. split.
      - intros ([k i] & -> & [Hi [Hst|[_ Hst]]]%Hsel)%list_elem_of_fmap; [|done]. cbn [fst].
        destruct (decide (k ∈ tracked_id <$> roster)) as [|Hn]; [done|]. by destruct (Hout k i Hi Hn).
      - intros (c & -> & Hc)%list_elem_of_fmap. destruct (Hin c Hc) as (i & Hi & Hst & _).
        apply (list_elem_of_fmap_2 fst sel (tracked_id c, i)), Hsel. split; [done|].
        destruct Hst; [by left|right]. split; [done|]. by apply list_elem_of_fmap_2. }
    exists ((λ c, (tracked_id c, tracked_text c)) <$> roster). split; [|split].
    + assert (∀ ki, ki ∈ sel → ki ∈ criteria) as Hsub by (intros [k i] [? _]%Hsel; done).
      clear Hsel Hout Hne Hrn Hrs Hsn Hss. clearbody sel. revert sel Hids Hsub.
      induction roster as [|c roster IH]; intros [|[k i] sel] Hids Hsub; try done.
      rewrite !fmap_cons in Hids. injection Hids as -> Hids. rewrite fmap_cons. constructor.
      * split; [done|]. cbn [snd]. destruct (Hin c) as (j & Hj & _ & Ht); [by left|].
        by rewrite (keyed_unique criteria _ i j Hk (Hsub _ (list_elem_of_here _ _)) Hj).
      * apply IH; [|done|]; intros; [apply Hin|apply Hsub]; by right.
    + intros E. by apply fmap_nil_inv in E.
    + unfold as_roster. rewrite <-list_fmap_compose. symmetry.
      rewrite (list_fmap_ext _ (λ x, x)); [by rewrite list_fmap_id|]. by intros _ [] _.
Qed.

Lemma refuse_transport_ok {A} refusal (r : result exn A) a :
  refuse_transport refusal r = Ok a ↔ r = Ok a.
Proof. destruct r as [|e]; cbn; [done|]. by destruct (is_transport_failure e). Qed.

Lemma refuse_protocol_ok {A} refusal (r : result exn A) a :
  refuse_protocol refusal r = Ok a ↔ r = Ok a.
Proof. destruct r as [|[]]; done. Qed.

Lemma read_spec_criteria_ok tracker spec criteria :
  _read_subtree_criteria tracker spec = Ok criteria ↔
  read_subtree_criteria tracker (spec_subject spec) = Ok criteria
  ∧ ∀ k, k ∈ spec_criteria spec → k ∈ dict_keys criteria.
Proof.
  unfold _read_subtree_criteria. rewrite bind_ok.
  assert (∀ ms : members, first_such (λ named, negb (dict_mem ms named)) (spec_criteria spec) = None
    ↔ ∀ k, k ∈ spec_criteria spec → k ∈ dict_keys ms) as Hf.
  { intros ms. rewrite first_such_None, Forall_forall. unfold dict_mem.
    by setoid_rewrite negb_false_iff; setoid_rewrite bool_decide_eq_true. }
  split.
  - intros (ms & E & H). destruct (first_such _ _) eqn:Ef; [done|]. injection H as ->.
    split; [done|]. by apply Hf.
  - intros [E H]. exists criteria. split; [done|]. by rewrite (proj2 (Hf criteria) H).
Qed.

Lemma read_current_ok tracker spec held roster :
  read_current tracker spec held = Ok roster ↔
  ∃ criteria, read_subtree_criteria tracker (spec_subject spec) = Ok criteria
    ∧ (∀ k, k ∈ spec_criteria spec → k ∈ dict_keys criteria)
    ∧ _owed spec criteria (held_keys held) = Ok roster.
Proof.
  unfold read_current. rewrite bind_ok. setoid_rewrite refuse_transport_ok.
  setoid_rewrite read_spec_criteria_ok. unfold owed_from. naive_solver.
Qed.

Lemma capture_ok isoformat tracker key spec criteria :
  _capture isoformat tracker key = Ok (spec, criteria) ↔
  ∃ subject, read_fire_subject tracker key = Ok subject
    ∧ read_subtree_criteria tracker (issue_key subject) = Ok criteria
    ∧ tracker_spec_from_issues isoformat subject (sorted_items criteria).*2 = Ok spec.
Proof.
  unfold _capture. rewrite bind_ok. setoid_rewrite refuse_protocol_ok. setoid_rewrite refuse_transport_ok.
  split.
  - intros ([subject cs] & (s & Hs & (c & Hc & [= <- <-])%bind_ok)%bind_ok
      & (sp & Hsp & [= <- <-])%bind_ok). by exists s.
  - intros (s & Hs & Hc & Hsp). exists (s, criteria).
    split; [by rewrite Hs; cbn [mbind result_bind]; rewrite Hc|]. by rewrite Hsp.
Qed.

Lemma sorted_items_issue_keys criteria :
  keyed criteria → issue_key <$> (sorted_items criteria).*2 = (sorted_items criteria).*1.
Proof.
  intros [_ Hk]. rewrite <-list_fmap_compose. apply list_fmap_ext. intros n [k i] Hn. cbn.
  apply (Hk k i), sorted_items_elem. by apply list_elem_of_lookup_2 in Hn.
Qed.

Lemma finished_ok spec criteria roster :
  keyed criteria → (∀ k i, (k, i) ∈ criteria → has_label "criterion" i = true) →
  _finished spec criteria = Ok roster ↔
  (∀ k i, (k, i) ∈ criteria → is_open (state_kind i) = false)
  ∧ ∃ checks, Forall2 (check_row (spec_subject spec))
      (filter (λ ki, bool_decide (state_membership (state_kind ki.2) = DISCHARGED) = true)
        (sorted_items criteria)) checks
    ∧ checks ≠ [] ∧ roster = as_roster checks.
Proof.
  intros Hk Hlab. unfold _finished.
  assert (∀ i, i ∈ (sorted_items criteria).*2 ↔ ∃ k, (k, i) ∈ criteria) as Hin.
  { intros i. rewrite list_elem_of_fmap. setoid_rewrite sorted_items_elem. split.
    - intros ([k j] & -> & H). by exists k.
    - intros [k H]. by exists (k, i). }
  assert (compute_gap (sorted_items criteria).*2 = Ok (gap_of (sorted_items criteria).*2)) as ->.
  { apply compute_gap_ok. split; [|split; [|done]].
    - rewrite sorted_items_issue_keys by done. by apply sorted_items_keys.
    - apply Forall_forall. intros i [k H]%Hin. by apply Hlab in H. }
  cbn [mbind result_bind]. rewrite raise_if_ok, negb_false_iff, bool_decide_eq_true.
  rewrite bind_ok. setoid_rewrite (checks_of_ok _ _
    (λ ki, bool_decide (state_membership (state_kind ki.2) = DISCHARGED))).
  2:{ intros [k i] H. unfold gap_membership. cbn [fst snd]. by rewrite (Hlab _ _ H). }
  assert (issue_key <$> owed (gap_of (sorted_items criteria).*2) = []
    ↔ ∀ k i, (k, i) ∈ criteria → is_open (state_kind i) = false) as Hopen.
  { unfold gap_of. cbn [owed]. split.
    - intros E k i Hi. apply not_true_iff_false. rewrite <-open_state_kind_is_open. intros Ho.
      apply fmap_nil_inv in E.
      assert (i ∈ filter (λ c, open_state_kind (state_kind c) = true) (sorted_items criteria).*2) as H
        by (apply list_elem_of_filter; split; [done|apply Hin; eauto]).
      rewrite E in H. by apply elem_of_nil in H.
    - intros H. rewrite filter_none; [done|]. intros i [k Hi]%Hin. rewrite open_state_kind_is_open.
      by rewrite (H k i Hi). }
  rewrite Hopen. apply and_iff_compat_l. setoid_rewrite raise_if_ok. unfold criterion_set.
  setoid_rewrite raise_if_ok. setoid_rewrite bool_decide_eq_false. split.
  - intros (checks & Hc & Hne & _ & [= <-]). by exists checks.
  - intros (checks & Hc & Hne & ->). by exists checks.
Qed.

Lemma tracker_spec_ok isoformat subject criteria spec :
  tracker_spec_from_issues isoformat subject criteria = Ok spec ↔
  let counting := filter (λ c, is_non_counting (state_kind c) = false) criteria in
  counting ≠ []
  ∧ (∀ c, c ∈ counting → ∃ check, criterion_check c (issue_key subject) = Ok check)
  ∧ issue_key subject ≠ "" ∧ "" ∉ issue_key <$> counting ∧ isoformat (updated_at subject) ≠ ""
  ∧ spec = {| spec_subject := issue_key subject; spec_body := body subject;
              spec_criteria := issue_key <$> counting;
              read_at_version := isoformat (updated_at subject) |}.
Proof.
  unfold tracker_spec_from_issues, _tracker_spec, criterion_ref. cbv zeta.
  rewrite raise_if_ok, bool_decide_eq_false, bind_ok, list_fmap_id.
  set (counting := filter (λ c, is_non_counting (state_kind c) = false) criteria). split.
  - intros (Hne & checks & Hm & [Hb%bool_decide_eq_false [= <-]]%raise_if_ok). split; [done|]. split.
    + apply mapM_ok in Hm. intros c [n Hn]%list_elem_of_lookup.
      destruct (Forall2_lookup_l _ _ _ _ _ Hm Hn) as (check & _ & H). by exists check.
    + repeat split; tauto.
  - intros (Hne & Hc & H1 & H2 & H3 & ->). split; [done|].
    destruct (mapM (λ c, criterion_check c (issue_key subject)) counting) as [checks|e] eqn:E.
    + exists checks. split; [done|]. apply raise_if_ok. split; [|done].
      apply bool_decide_eq_false. tauto.
    + apply mapM_err in E as (c & Hin & E). destruct (Hc c Hin) as [check Hch]. congruence.
Qed.

(** * Properties *)

(** The state a criterion a roster starts on sits in. *)
Definition enters (delivering : bool) (i : TrackerIssue) : Prop :=
  if delivering then state_membership (state_kind i) = DISCHARGED
  else state_kind i = OWED_CRITERION_STATE.

Lemma roster_elem subject criteria (P : string * TrackerIssue → Prop)
    `{∀ x, Decision (P x)} checks k c :
  keyed criteria → Forall2 (check_row subject) (filter P (sorted_items criteria)) checks →
  {| tracked_id := k; tracked_text := c |} ∈ as_roster checks ↔
  ∃ i, (k, i) ∈ criteria ∧ P (k, i) ∧ criterion_check i subject = Ok c.
Proof.
  intros Hk Hc. transitivity ((k, c) ∈ checks).
  - unfold as_roster. rewrite list_elem_of_fmap. split.
    + by intros ([k' c'] & [= -> ->] & Hin).
    + intros Hin. by exists (k, c).
  - rewrite (check_rows_elem _ _ _ _ _ (proj1 (selected_sorted criteria P Hk)) Hc).
    setoid_rewrite list_elem_of_filter. setoid_rewrite sorted_items_elem. naive_solver.
Qed.

Lemma as_roster_nil checks : as_roster checks = [] ↔ checks = [].
Proof. unfold as_roster. split; [apply fmap_nil_inv|by intros ->]. Qed.

(** The roster of either entry, off the one reading. *)
Lemma entry_roster_ok spec criteria (delivering : bool) roster :
  keyed criteria → (∀ k i, (k, i) ∈ criteria → has_label "criterion" i = true) →
  (if delivering then _finished spec criteria else _owed spec criteria ∅) = Ok roster →
  roster ≠ [] ∧ in_key_order roster
  ∧ (∀ k c, {| tracked_id := k; tracked_text := c |} ∈ roster ↔
      ∃ i, (k, i) ∈ criteria ∧ enters delivering i ∧ criterion_check i (spec_subject spec) = Ok c)
  ∧ (delivering = true → ∀ k i, (k, i) ∈ criteria → is_open (state_kind i) = false).
Proof.
  intros Hk Hlab. destruct delivering.
  - rewrite finished_ok by done. intros (Hopen & checks & Hc & Hne & ->).
    split; [by rewrite as_roster_nil|]. split; [by eapply roster_in_order|]. split; [|done].
    intros k c. rewrite (roster_elem _ _ _ _ _ _ Hk Hc). cbn [snd enters].
    by setoid_rewrite bool_decide_eq_true.
  - rewrite owed_ok. intros (checks & Hc & Hne & ->).
    split; [by rewrite as_roster_nil|]. split; [by eapply roster_in_order|]. split; [|done].
    intros k c. rewrite (roster_elem _ _ _ _ _ _ Hk Hc). cbn [fst snd enters].
    setoid_rewrite owes_iff. split.
    + intros (i & Hi & [H|[_ []%elem_of_empty]] & Ht). by exists i.
    + intros (i & Hi & H & Ht). exists i. auto.
Qed.

Lemma read_entry_ok isoformat tracker key delivering spec roster :
  read_entry isoformat tracker key delivering = Ok (spec, roster) ↔
  ∃ criteria, _capture isoformat tracker key = Ok (spec, criteria)
    ∧ (if delivering then _finished spec criteria else _owed spec criteria ∅) = Ok roster.
Proof.
  unfold read_entry. rewrite bind_ok. split.
  - intros ([sp cs] & Hc & (r & Hr & [= -> ->])%bind_ok). by exists cs.
  - intros (cs & Hc & Hr). exists (spec, cs). split; [done|]. by rewrite Hr.
Qed.

(** [read_entry] composes the spec and the starting roster of a fire out of one
    reading: the spec carries the subject's own key and text and names exactly the
    criteria of its subtree that count; the roster is never empty, lists each key once
    and in key order, and holds exactly the Checks of the unstarted criteria of that
    reading (of the completed ones, with nothing left open, for a lane entered to
    deliver). *)
Theorem read_entry_spec isoformat tracker key delivering spec roster :
  read_entry isoformat tracker key delivering = Ok (spec, roster) →
  ∃ subject criteria,
    read_fire_subject tracker key = Ok subject
    ∧ read_subtree_criteria tracker (issue_key subject) = Ok criteria
    ∧ spec_subject spec = issue_key subject ∧ spec_body spec = body subject
    ∧ (∀ k, k ∈ spec_criteria spec ↔
         ∃ i, (k, i) ∈ criteria ∧ is_non_counting (state_kind i) = false)
    ∧ roster ≠ [] ∧ in_key_order roster
    ∧ (∀ k c, {| tracked_id := k; tracked_text := c |} ∈ roster ↔
         ∃ i, (k, i) ∈ criteria ∧ enters delivering i
           ∧ criterion_check i (issue_key subject) = Ok c)
    ∧ (delivering = true → ∀ k i, (k, i) ∈ criteria → is_open (state_kind i) = false).
Proof.
  intros (criteria & (subject & Hs & Hc & Hspec)%capture_ok & Hr)%read_entry_ok.
  destruct (read_subtree_criteria_ok _ _ _ Hc) as [Hk Hlab].
  apply entry_roster_ok in Hr; [|done..].
  apply tracker_spec_ok in Hspec as (_ & _ & _ & _ & _ & ->). cbn [spec_subject] in Hr.
  exists subject, criteria. do 4 (split; [done|]). split; [|done].
  intros named. cbn [spec_criteria]. rewrite list_elem_of_fmap.
  setoid_rewrite list_elem_of_filter. setoid_rewrite list_elem_of_fmap.
  setoid_rewrite sorted_items_elem. split.
  - intros (i & -> & Hn & [k j] & -> & Hin). exists j. cbn [snd] in *. split; [|done].
    by rewrite (proj2 Hk _ _ Hin).
  - intros (i & Hin & Hn). exists i. split; [symmetry; by apply (proj2 Hk)|].
    split; [done|]. by exists (named, i).
Qed.

Lemma native_snapshot_ok tracker spec roster :
  require_current_native_snapshot tracker true (Some spec) (Some roster) = Ok tt ↔
  read_current tracker spec (Some roster) = Ok roster.
Proof.
  unfold require_current_native_snapshot. cbn [negb raise_if]. rewrite bind_ok.
  setoid_rewrite raise_if_ok. setoid_rewrite negb_false_iff. setoid_rewrite bool_decide_eq_true.
  split; [by intros (r & Hr & [= ->] & _)|]. intros H. by exists roster.
Qed.

(** C30. The barrier of a judgment's effect, asked of the roster a fire entered with and
    over any later answers of the tracker, passes exactly when the later subtree still
    holds every criterion the spec names, every criterion of the roster still reads
    with the same Check and is unstarted or finished, and no criterion outside the
    roster has become unstarted: the fire's own cross-offs never refuse it, and a lost,
    reworded, abandoned or added obligation always does. *)
Theorem barrier_admits isoformat tracker key spec roster tracker' :
  read_entry isoformat tracker key false = Ok (spec, roster) →
  require_current_native_snapshot tracker' true (Some spec) (Some roster) = Ok tt ↔
  ∃ criteria, read_subtree_criteria tracker' (spec_subject spec) = Ok criteria
    ∧ (∀ k, k ∈ spec_criteria spec → k ∈ dict_keys criteria)
    ∧ stands (spec_subject spec) roster criteria.
Proof.
  intros (entry & (subject & _ & Hc & _)%capture_ok & Hr)%read_entry_ok.
  destruct (read_subtree_criteria_ok _ _ _ Hc) as [Hk Hlab].
  apply (entry_roster_ok spec entry false) in Hr as (Hne & Hord & _ & _); [|done..].
  rewrite native_snapshot_ok, read_current_ok. clear -Hne Hord.
  split; intros (criteria & Hread & Hnamed & H); exists criteria; split_and!; try done.
  - by apply owed_stands; [apply (read_subtree_criteria_ok _ _ _ Hread)|..].
  - by apply owed_stands; [apply (read_subtree_criteria_ok _ _ _ Hread)|..].
Qed.

(** ** A board with a subject, a deliverable under it, and a criterion of each *)

Definition sample_criterion (key parent : string) (kind : WorkflowStateKind) : TrackerIssue := {|
  issue_key := key; title := key; body := "**Check:** run " +:+ key; priority := NONE;
  state_name := ""; state_kind := kind; queue_states := ∅; issue_labels := {["criterion"]};
  team_key := None; project := None; project_id := None; milestone_key := None; relations := [];
  parent_key := Some parent; assignee_key := None; created_at := 0; updated_at := 0; url := "";
|}.

Definition sample_tracker (first second : WorkflowStateKind) : SubjectReader := {|
  scope_issues := λ scope, Ok [plain_issue "S-1" STARTED; plain_issue "S-2" UNSTARTED];
  read_criteria := λ key,
    if bool_decide (key = "S-1") then Ok [sample_criterion "C-9" "S-1" first]
    else Ok [sample_criterion "C-2" "S-2" second];
  read_fire_subject := λ key, Ok (plain_issue "S-1" STARTED);
|}.

Definition sample_spec : TrackerSpec :=
  {| spec_subject := "S-1"; spec_body := ""; spec_criteria := ["C-2"; "C-9"];
     read_at_version := "v" |}.

Definition sample_roster : list TrackerCriterion :=
  [{| tracked_id := "C-2"; tracked_text := "run C-2" |};
   {| tracked_id := "C-9"; tracked_text := "run C-9" |}].

Example read_entry_spec_witness :
  read_entry (λ _, "v") (sample_tracker UNSTARTED UNSTARTED) "s1" false
    = Ok (sample_spec, sample_roster)
  ∧ in_key_order sample_roster.
Proof.
  assert (read_entry (λ _, "v") (sample_tracker UNSTARTED UNSTARTED) "s1" false
    = Ok (sample_spec, sample_roster)) as H by (by vm_compute).
  split; [done|].
  destruct (read_entry_spec _ _ _ _ _ _ H) as (_ & _ & _ & _ & _ & _ & _ & _ & Hord & _).
  exact Hord.
Defined.

(** The fire finishes one of its two criteria and the barrier still admits it. *)
Example barrier_admits_witness :
  require_current_native_snapshot (sample_tracker COMPLETED UNSTARTED) true
    (Some sample_spec) (Some sample_roster) = Ok tt.
Proof.
  apply (barrier_admits (λ _, "v") (sample_tracker UNSTARTED UNSTARTED) "s1"); [by vm_compute|].
  exists [("C-9", sample_criterion "C-9" "S-1" COMPLETED);
          ("C-2", sample_criterion "C-2" "S-2" UNSTARTED)].
  split; [by vm_compute|]. split; [|split].
  - intros k Hk. apply (bool_decide_unpack _).
    revert k Hk. apply Forall_forall, (bool_decide_unpack _). by vm_compute.
  - intros c [->|[->|[]%elem_of_nil]%elem_of_cons]%elem_of_cons;
      (eexists; split; [(by left) || (right; by left)|]); (split; [|by vm_compute]);
      [by left|by right].
  - intros k i [[= -> ->]|[[= -> ->]|[]%elem_of_nil]%elem_of_cons]%elem_of_cons Hn; cbn; try done.
    destruct Hn. by left.
Defined.

(** A criterion taken back to the backlog is refused. *)
Example moved_criterion_refused :
  require_current_native_snapshot (sample_tracker UNSTARTED BACKLOG) true
    (Some sample_spec) (Some sample_roster)
  = Err (FireSpecEntryError "S-1" "current tracker criteria differ from the evaluated snapshot").
Proof. by vm_compute. Qed.
