(* ===== verification/ScopeWalker.v ===== *)
(** * The ready set of a scope (chains/scope_walker.py, services/scope_planning.py,
    types/domain/scope_ready.py).

    One reading of a scope plans its members, closes over each member's subtree, asks who
    is approved, and then reads everything again: an answer that moved refuses. Each read
    is a tracker of its own here, so that anything may have moved between two of them. *)

From S2P Require Import Sha256 BaseResolution LaneRecord LaneEntry.
From S2P Require Import Prelude PyStr Tracker Errors FireSpec Gap Dispatch Topology Criteria Lapse CrossOff.
From S2P Require Import FireCriteria IssueTree.

Local Open Scope nat_scope.

(** ** The plan of a scope (services/scope_planning.py) *)

Record ScopePlanReader := {
  plan_members : SubjectReader;
  require_scope_plan_reads : result exn unit;
  read_planning_issue : string → result exn TrackerIssue;
}.

Record ResolvedScope := { resolved_ref : ScopeRef; issues : list TrackerIssue }.
#[export] Instance ResolvedScope_eq_dec : EqDecision ResolvedScope.
Proof. solve_decision. Defined.

Record ScopePlanSnapshot := { plan_scope : ResolvedScope; dependencies : list TrackerIssue }.
#[export] Instance ScopePlanSnapshot_eq_dec : EqDecision ScopePlanSnapshot.
Proof. solve_decision. Defined.

Section planning.
(** Fuel for the closure over blockers: one step per issue there is to read. *)
Context (board_size : nat).

(** One blocker of the issue in hand: the facts, and what was pushed. *)
Definition add_dependency (tracker : ScopePlanReader) (ref : ScopeRef) (subtree : members)
    (s : members * list TrackerIssue) (key : string) : result exn (members * list TrackerIssue) :=
  if dict_mem s.1 key then Ok s
  else
    dependency ← match dict_get subtree key with
                 | Some issue => Ok issue
                 | None =>
                     found ← read_planning_issue tracker key;
                     raise_if (negb (bool_decide (issue_key found = key)))
                       (ScopeReadError "dependency read changed the requested identity" ref) (Ok found)
                 end;
    Ok (dict_set s.1 key dependency, dependency :: s.2).

(** [while pending: issue = pending.pop() ...]; the end of the Python list is the head. *)
Fixpoint close_dependencies (fuel : nat) (tracker : ScopePlanReader) (ref : ScopeRef) (subtree : members)
    (facts : members) (pending : list TrackerIssue) : looping members :=
  match pending with
  | [] => mret facts
  | issue :: pending =>
      match fuel with
      | 0 => None
      | S fuel =>
          match foldM (add_dependency tracker ref subtree) (facts, pending) (blocker_keys issue) with
          | Ok (facts, pending) => close_dependencies fuel tracker ref subtree facts pending
          | Err e => straight (Err e)
          end
      end
  end.

Definition _read_scope_facts (ref : ScopeRef) (tracker : ScopePlanReader) :
    looping (ScopePlanSnapshot * list TrackerIssue) :=
  _ ← straight (require_scope_plan_reads tracker);
  ms ← straight (read_scope_members (plan_members tracker) ref);
  subtree ← straight (if decide (scope_kind ref = ISSUE) then Ok ms
                      else read_member_subtrees (plan_members tracker) ref ms);
  facts ← close_dependencies board_size tracker ref subtree ms (reverse (dict_values ms));
  mret ({| plan_scope := {| resolved_ref := ref; issues := dict_values ms |};
           dependencies := (filter (λ ki, ki.1 ∉ dict_keys ms) facts).*2 |},
        dict_values subtree).

Definition read_scope_facts (ref : ScopeRef) (tracker : ScopePlanReader) : looping ScopePlanSnapshot :=
  s ← _read_scope_facts ref tracker;
  _ ← plan_topology (issues (plan_scope s.1) ++ dependencies s.1) ∅ None;
  mret s.1.

(** [facts[target]]: every blocker of a fact is a fact. *)
Definition crossing_edge (facts : members) (issue : TrackerIssue) (target : string) :
    result exn (list (string * string)) :=
  match dict_get facts target with
  | None => Err (KeyError target)
  | Some t =>
      Ok (if (is_criterion issue || is_criterion t)
             && (bool_decide (parent_key issue = None) || negb (bool_decide (parent_key issue = parent_key t)))
          then [(issue_key issue, target)] else [])
  end.

Definition read_scope_plan (ref : ScopeRef) (tracker : ScopePlanReader) : looping ScopePlanSnapshot :=
  s ← _read_scope_facts ref tracker;
  let '(snapshot, subtree) := s in
  let facts := dict_of (keyed_rows (issues (plan_scope snapshot) ++ dependencies snapshot)) in
  let open_decisions := issue_key <$> filter (λ i, has_label "decision" i = true ∧ is_open (state_kind i) = true) subtree in
  let backlog := issue_key <$> filter (λ i, is_criterion i = true ∧ state_kind i = BACKLOG) subtree in
  crossing ← straight (mjoin <$> mapM (λ issue, mjoin <$> mapM (crossing_edge facts issue) (blocker_keys issue))
                         (dict_values facts));
  _ ← straight (raise_if (negb (bool_decide (open_decisions = [] ∧ backlog = [] ∧ crossing = [])))
                  (ScopePlanRefusalError ref open_decisions backlog crossing) (Ok tt));
  _ ← plan_topology (dict_values facts) ∅ None;
  mret snapshot.

Definition _read_plan (stage_barriers : bool) (ref : ScopeRef) (tracker : ScopePlanReader) : looping ScopePlanSnapshot :=
  if stage_barriers then read_scope_plan ref tracker else read_scope_facts ref tracker.

(** ** The ready set *)

Definition _read_tree (stage_barriers : bool) (root : string) (ref : ScopeRef) (tracker : ScopePlanReader) :
    looping facts_t :=
  tree ← _read_plan stage_barriers {| scope_kind := ISSUE; scope_key := root |} tracker;
  index_issue_tree root (issues (plan_scope tree)) ref.

Inductive UnreachableReason := OTHER_PROJECT | NO_PROJECT | OTHER_MILESTONE | NO_MILESTONE.

Record UnreachableCriterion := {
  unreachable_key : string; reason : UnreachableReason; container : option string }.

Record ScopeReadyLane := {
  lane_issue : TrackerIssue;
  lane_priority : IssuePriority;
  lane_gap : list TrackerIssue;
  lane_criteria : list TrackerIssue;
}.

Record ScopeHeldMember := { held_issue : TrackerIssue; held_criteria : list TrackerIssue }.

Record ScopeReadySet := {
  scope_of : ResolvedScope;
  ready_lanes_of : list ScopeReadyLane;
  blocked_of_scope : list BlockedIssue;
  unapproved : list string;
  scope_criteria : list TrackerIssue;
  closed_members : list TrackerIssue;
  unresolved : list string;
  unreachable_criteria : list UnreachableCriterion;
  excluded_criteria : list string;
  held_members : list ScopeHeldMember;
}.

Definition _filter_reason (ref : ScopeRef) (issue : TrackerIssue) : result exn UnreachableCriterion :=
  match scope_kind ref with
  | PROJECT | INITIATIVE => Ok {|
      unreachable_key := issue_key issue;
      reason := if decide (project_id issue = None) then NO_PROJECT else OTHER_PROJECT;
      container := project_id issue |}
  | MILESTONE => Ok {|
      unreachable_key := issue_key issue;
      reason := if decide (milestone_key issue = None) then NO_MILESTONE else OTHER_MILESTONE;
      container := milestone_key issue |}
  | ISSUE => Err (ScopeReadError "an issue scope left an open criterion outside its own subtree" ref)
  end.

Definition _unreachable_criteria (closure : SubtreeClosure) (ms : members) : result exn (list UnreachableCriterion) :=
  g ← scope_gap closure;
  mapM (_filter_reason (closure_ref closure)) (filter (λ c, issue_key c ∉ dict_keys ms) (owed g)).

(** The reads of one computation, each the tracker as it answers it. *)
Record Readings := {
  require_issue_classification_reads : result exn unit;
  plan_read : ScopePlanReader;
  tree_read : string → ScopePlanReader;
  approval_read : string → result exn bool;
  tree_reread : string → ScopePlanReader;
  plan_reread : ScopePlanReader;
  approval_reread : string → result exn bool;
}.

Fixpoint foldL {A B} (f : A → B → looping A) (a : A) (l : list B) : looping A :=
  match l with [] => mret a | b :: l => a ← f a b; foldL f a l end.

(** [d == d']: a dict's order does not count. *)
Definition dict_same (d d' : facts_t) : bool :=
  bool_decide ((list_to_map d : gmap string TrackerIssue) = list_to_map d').

Section ready.
Context (stage_barriers : bool) (ref : ScopeRef) (reads : Readings).

Definition merge_fact (facts : facts_t) (child : string * TrackerIssue) : result exn facts_t :=
  raise_if (match dict_get facts child.1 with Some f => negb (bool_decide (f = child.2)) | None => false end)
    (ScopeReadError "overlapping subtree facts changed" ref) (Ok (dict_set facts child.1 child.2)).

(** The facts and the trees, over the members that no member holds. *)
Definition add_tree (ms : members) (s : facts_t * pydict string facts_t) (member : string * TrackerIssue) :
    looping (facts_t * pydict string facts_t) :=
  if match parent_key member.2 with Some p => dict_mem ms p | None => false end then mret s
  else
    tree ← _read_tree stage_barriers member.1 ref (tree_read reads member.1);
    facts ← straight (foldM merge_fact s.1 tree);
    mret (facts, dict_set s.2 member.1 tree).

Definition covered (trees : pydict string facts_t) : list string := mjoin (dict_keys <$> dict_values trees).

Definition held_keys (ms : members) (facts : facts_t) : list string :=
  if stage_barriers then []
  else
    let criterion_parents := parent_key <$> filter (λ row, is_criterion row = true) (dict_values facts) in
    (filter (λ ki, has_label "decision" ki.2 = true ∧ is_criterion ki.2 = false
                   ∧ Some ki.1 ∈ criterion_parents) ms).*1.

(** What the loop over the members has sorted out so far. *)
Record sorted_members := {
  memo : readings;
  approvals : pydict string bool;
  open_gaps : pydict string (list TrackerIssue);
  closed : pydict string TrackerIssue;
  held_so_far : list ScopeHeldMember;
}.

Definition sort_member (closure : SubtreeClosure) (s : sorted_members) (member : string * TrackerIssue) :
    looping sorted_members :=
  let '(key, issue) := member in
  if is_criterion issue then mret s
  else if is_record issue then
    if decide (key ∈ held closure) then
      r ← roster closure (memo s) key;
      mret {| memo := r.1; approvals := approvals s; open_gaps := open_gaps s; closed := closed s;
              held_so_far := held_so_far s ++ [{| held_issue := issue; held_criteria := r.2 |}] |}
    else mret s
  else
    approved ← straight (approval_read reads key);
    let approvals := dict_set (approvals s) key approved in
    if (approved : bool) then
      g ← gap closure (memo s) key;
      mret (if decide (g.2 = []) then
              {| memo := g.1; approvals := approvals; open_gaps := open_gaps s;
                 closed := dict_set (closed s) key issue; held_so_far := held_so_far s |}
            else
              {| memo := g.1; approvals := approvals; open_gaps := dict_set (open_gaps s) key g.2;
                 closed := closed s; held_so_far := held_so_far s |})
    else mret {| memo := memo s; approvals := approvals; open_gaps := open_gaps s; closed := closed s;
                 held_so_far := held_so_far s |}.

(** The blockers of the candidates within the scope, in the order they are first met (the
    code's is a set), and those of them that still owe. *)
Definition scope_blockers (ms : members) (gaps : pydict string (list TrackerIssue)) : list string :=
  dict_fromkeys (mjoin ((λ kg, match dict_get ms kg.1 with
                               | Some i => filter (λ b, dict_mem ms b = true) (blocker_keys i)
                               | None => []
                               end) <$> gaps)).

Definition still_blocking (closure : SubtreeClosure) (s : readings * gset string) (key : string) :
    looping (readings * gset string) :=
  r ← is_closed closure s.1 key;
  mret (r.1, if (r.2 : bool) then s.2 else {[ key ]} ∪ s.2).

Definition reread_tree (kt : string * facts_t) : looping unit :=
  again ← _read_tree stage_barriers kt.1 ref (tree_reread reads kt.1);
  straight (raise_if (negb (dict_same again kt.2))
    (ScopeReadError "subtree family changed during readiness" ref) (Ok tt)).

Definition reread_approval (ka : string * bool) : looping unit :=
  again ← straight (approval_reread reads ka.1);
  straight (raise_if (negb (bool_decide (again = ka.2)))
    (ScopeReadError "scope approval changed during readiness" ref) (Ok tt)).

Definition ready_lane (closure : SubtreeClosure) (gaps : pydict string (list TrackerIssue))
    (s : readings * list ScopeReadyLane) (entry : ReadyIssue) : looping (readings * list ScopeReadyLane) :=
  let key := issue_key (ready_issue entry) in
  g ← straight (match dict_get gaps key with Some g => Ok g | None => Err (KeyError key) end);
  r ← roster closure s.1 key;
  mret (r.1, s.2 ++ [{| lane_issue := ready_issue entry; lane_priority := effective_priority entry;
                        lane_gap := g; lane_criteria := r.2 |}]).

Definition read_scope_ready : looping ScopeReadySet :=
  _ ← straight (require_issue_classification_reads reads);
  plan ← _read_plan stage_barriers ref (plan_read reads);
  let ms := dict_of (keyed_rows (issues (plan_scope plan))) in
  ft ← foldL (add_tree ms) (ms, []) ms;
  let '(facts, trees) := ft in
  _ ← straight (raise_if (negb (bool_decide (Forall (λ k, k ∈ covered trees) (dict_keys ms))))
                  (ScopeReadError "scope parentage is not rooted" ref) (Ok tt));
  let closure := make_closure facts ref (held_keys ms facts) in
  s ← foldL (sort_member closure)
        {| memo := no_readings; approvals := []; open_gaps := []; closed := []; held_so_far := [] |} ms;
  b ← foldL (still_blocking closure) (memo s, ∅) (scope_blockers ms (open_gaps s));
  topology ← plan_topology (issues (plan_scope plan) ++ dependencies plan)
               (list_to_set (dict_keys (open_gaps s))) (Some b.2);
  _ ← foldL (λ _ kt, reread_tree kt) tt trees;
  plan' ← _read_plan stage_barriers ref (plan_reread reads);
  _ ← straight (raise_if (negb (bool_decide (plan' = plan)))
                  (ScopeReadError "scope plan changed during readiness" ref) (Ok tt));
  _ ← foldL (λ _ ka, reread_approval ka) tt (approvals s);
  g ← straight (scope_gap closure);
  lanes ← foldL (ready_lane closure (open_gaps s)) (b.1, []) (ready topology);
  unreachable ← straight (_unreachable_criteria closure ms);
  mret {| scope_of := plan_scope plan;
          ready_lanes_of := lanes.2;
          blocked_of_scope := blocked topology;
          unapproved := (filter (λ ka, ka.2 = false) (approvals s)).*1;
          scope_criteria := filter (λ i, is_criterion i = true) (dict_values facts);
          closed_members := dict_values (closed s);
          unresolved := issue_key <$> owed g;
          unreachable_criteria := unreachable;
          excluded_criteria := excluded g;
          held_members := held_so_far s |}.

End ready.
End planning.
