(* ===== verification/ScopeReady.v ===== *)
(** * What a scope's ready set says.

    An answer of [read_scope_ready] rests on one set of facts: the members' subtrees as
    they were read. Every approved lane of the scope is in exactly the place its own
    subtree and its blockers' subtrees put it, by one arithmetic. *)

From S2P Require Import Sha256 BaseResolution LaneRecord LaneEntry.
From S2P Require Import Prelude PyStr Tracker Errors FireSpec Gap Dispatch Topology Criteria Lapse CrossOff.
From S2P Require Import FireCriteria IssueTree ScopeWalker.

Local Open Scope nat_scope.

(** ** Loops *)

Lemma loop_bind_ok {A B} (m : looping A) (f : A → looping B) b :
  (m ≫= f) = Some (Ok b) → ∃ a, m = Some (Ok a) ∧ f a = Some (Ok b).
Proof. unfold mbind, looping_bind. destruct m as [[a|e]|]; [eauto|done..]. Qed.

Lemma straight_raise_ok {A} b e (r : result exn A) a : straight (raise_if b e r) = Some (Ok a) → b = false ∧ r = Ok a.
Proof. intros H%straight_ok. by apply raise_if_ok in H. Qed.

Lemma loop_ret_ok {A} (a b : A) : (mret a : looping A) = Some (Ok b) → a = b.
Proof. by intros [= ->]. Qed.

Lemma foldL_prefix {A B} (P : list B → A → Prop) (f : A → B → looping A) l a a' :
  (∀ done b a1 a2, P done a1 → b ∈ l → f a1 b = Some (Ok a2) → P (done ++ [b]) a2) →
  P [] a → foldL f a l = Some (Ok a') → P l a'.
Proof.
  intros Hf. enough (∀ done rest a, (∀ b, b ∈ rest → b ∈ l) → P done a → foldL f a rest = Some (Ok a') → P (done ++ rest) a') as H.
  { intros Ha E. by apply (H [] l a). }
  intros done rest. revert done. induction rest as [|b rest IH]; intros done a0 Hin Ha; cbn [foldL].
  - intros <-%loop_ret_ok. by rewrite app_nil_r.
  - intros (a1 & E1 & E)%loop_bind_ok. change (b :: rest) with ([b] ++ rest). rewrite app_assoc.
    eapply IH; [|by eapply Hf; [|apply Hin; left|]|exact E]. intros b' Hb'. apply Hin. by right.
Qed.

Lemma foldL_each {B} (f : B → looping unit) l u :
  foldL (λ _ b, f b) tt l = Some (Ok u) → ∀ b, b ∈ l → f b = Some (Ok tt).
Proof.
  intros E. eapply (foldL_prefix (λ done _, ∀ b, b ∈ done → f b = Some (Ok tt))); [| |exact E].
  - intros done b [] [] Hd _ Hb b' [?| ->%list_elem_of_singleton]%elem_of_app; auto.
  - by intros b ?%elem_of_nil.
Qed.

(** ** The facts *)

Lemma index_issue_tree_keyed root rows ref f : index_issue_tree root rows ref = Some (Ok f) → keyed f.
Proof.
  unfold index_issue_tree. intros ([f' c] & E%straight_ok & H)%loop_bind_ok.
  pose proof (index_rows root ref rows) as Hr. rewrite E in Hr. destruct Hr as (-> & [Hnd _] & _).
  destruct (dict_get (keyed_rows rows) root); [|done].
  apply loop_bind_ok in H as (v & _ & H%straight_ok). rewrite !raise_if_ok in H. destruct H as (_ & _ & [= <-]).
  split; [by rewrite keyed_rows_keys|apply keyed_rows_keyed].
Qed.

Lemma dict_of_rows rows : keyed (dict_of (keyed_rows rows)).
Proof.
  unfold dict_of. enough (∀ d, keyed d → keyed (foldl (λ d kv, dict_set d kv.1 kv.2) d (keyed_rows rows))) as H.
  { apply H. split; [constructor|]. by intros k i ?%elem_of_nil. }
  induction rows as [|i rows IH]; intros d Hd; [done|]. apply IH. by apply keyed_set.
Qed.

Lemma dict_of_rows_get rows i : NoDup (issue_key <$> rows) →
  dict_get (dict_of (keyed_rows rows)) (issue_key i) = Some i ↔ i ∈ rows.
Proof.
  intros Hnd. split.
  - intros (j & [= _ ->] & Hj)%dict_of_get%list_elem_of_fmap. done.
  - intros Hi. pose proof (dict_of_keys (keyed_rows rows)) as Hk.
    assert (issue_key i ∈ dict_keys (dict_of (keyed_rows rows))) as [j Ej]%dict_get_is_Some.
    { apply Hk. change ((keyed_rows rows).*1) with (dict_keys (keyed_rows rows)).
      rewrite keyed_rows_keys. by apply list_elem_of_fmap_2. }
    rewrite Ej. pose proof Ej as (j' & [= Ek ->] & Hj)%dict_of_get%list_elem_of_fmap.
    f_equal. by eapply NoDup_fmap_elem.
Qed.

Definition includes (d d' : facts_t) : Prop := ∀ k i, dict_get d k = Some i → dict_get d' k = Some i.

Lemma merge_fact_includes ref d kc d' :
  keyed d → issue_key kc.2 = kc.1 → merge_fact ref d kc = Ok d' → keyed d' ∧ includes d d'.
Proof.
  intros Hd Hk. unfold merge_fact. rewrite raise_if_ok. intros [Hb [= <-]]. split; [rewrite <-Hk; by apply keyed_set|].
  intros k i Hi. rewrite dict_get_set. case_decide as E; [|done]. subst k. rewrite Hi in Hb.
  apply negb_false_iff, bool_decide_eq_true in Hb. by subst.
Qed.

Section facts.
Context (board_size : nat) (stage : bool) (ref : ScopeRef) (reads : Readings).

Lemma read_tree_keyed root tracker f : _read_tree board_size stage root ref tracker = Some (Ok f) → keyed f.
Proof. unfold _read_tree. intros (plan & _ & H)%loop_bind_ok. by eapply index_issue_tree_keyed. Qed.

Lemma merge_facts_spec (l : facts_t) d d' :
  (∀ kc, kc ∈ l → issue_key kc.2 = kc.1) → keyed d → foldM (merge_fact ref) d l = Ok d' →
  keyed d' ∧ includes d d' ∧ (∀ kc, kc ∈ l → dict_get d' kc.1 = Some kc.2)
  ∧ ∀ k i, dict_get d' k = Some i → dict_get d k = Some i ∨ (k, i) ∈ l.
Proof.
  revert d. induction l as [|kc l IH]; intros d Hl Hd; cbn [foldM].
  { intros [= <-]. split_and!; [done|by intros ?|by intros ? ?%elem_of_nil|by left]. }
  destruct (merge_fact ref d kc) as [d1|e] eqn:E; [|done]. intros Hrest.
  destruct (merge_fact_includes ref d kc d1 Hd (Hl _ (list_elem_of_here _ _)) E) as [Hd1 Hi1].
  assert (d1 = dict_set d kc.1 kc.2) as Ed.
  { unfold merge_fact in E. rewrite raise_if_ok in E. by destruct E as [_ [= <-]]. }
  destruct (IH d1) as (Hd' & Hi & Hall & Hsrc); [intros; apply Hl; by right|done|done|]. split_and!; [done|..].
  - intros k i Hk. by apply Hi, Hi1.
  - intros kc' [->|Hin]%elem_of_cons; [|by apply Hall]. apply Hi. rewrite Ed. apply dict_get_set_eq.
  - intros k i [Hk|Hk]%Hsrc; [|right; by right]. rewrite Ed, dict_get_set in Hk. case_decide as Ek; [|by left].
    right. injection Hk as <-. subst k. destruct kc. left.
Qed.

(** A member that no member holds: its subtree is read. *)
Definition topmost (ms : members) (i : TrackerIssue) : Prop :=
  match parent_key i with Some p => dict_mem ms p | None => false end = false.

(** The trees and the facts, over the members gone through: a tree for each topmost one,
    as it was read, and in the facts the members and the trees' rows, nothing else. *)
Record trees_read (ms done : members) (s : facts_t * pydict string facts_t) : Prop := {
  tr_keyed : keyed s.1;
  tr_once : NoDup (dict_keys s.2);
  tr_from : includes ms s.1;
  tr_tree k t : dict_get s.2 k = Some t →
    (∃ i, (k, i) ∈ done ∧ topmost ms i) ∧ _read_tree board_size stage k ref (tree_read reads k) = Some (Ok t)
    ∧ includes t s.1;
  tr_all k i : (k, i) ∈ done → topmost ms i → is_Some (dict_get s.2 k);
  tr_source k i : dict_get s.1 k = Some i →
    dict_get ms k = Some i ∨ ∃ root t, dict_get s.2 root = Some t ∧ dict_get t k = Some i;
}.

Lemma add_tree_step ms (done : members) member s s' :
  trees_read ms done s → add_tree board_size stage ref reads ms s member = Some (Ok s') →
  trees_read ms (done ++ [member]) s'.
Proof.
  intros [Hk Ho Hf Ht Ha Hs]. destruct member as [key issue]. unfold add_tree. cbn [fst snd].
  destruct (match parent_key issue with Some p => dict_mem ms p | None => false end) eqn:Etop.
  { intros <-%loop_ret_ok. split; try done.
    - intros k t Hkt. destruct (Ht k t Hkt) as ((i & ? & ?) & ?). split; [|done]. exists i. rewrite elem_of_app. auto.
    - intros k i [Hin|[= -> ->]%list_elem_of_singleton]%elem_of_app Hi; [by eapply Ha|]. unfold topmost in Hi. congruence. }
  intros (tree & Et & (f & Ef%straight_ok & <-%loop_ret_ok)%loop_bind_ok)%loop_bind_ok.
  pose proof (read_tree_keyed _ _ _ Et) as [Hnt Hkt].
  destruct (merge_facts_spec tree s.1 f) as (Hkf & Hif & Hall & Hsrc); [by intros [k c] Hkc; apply (Hkt k c)|done|done|].
  assert (includes tree f) as Htf by (intros k i Hi%dict_get_elem; by apply (Hall (k, i))).
  split; cbn [fst snd]; try done.
  - by apply dict_set_NoDup.
  - intros k i Hi. by apply Hif, Hf.
  - intros k t. rewrite dict_get_set. case_decide as E.
    + intros [= <-]. subst k. split; [|done]. exists issue. split; [|done]. apply elem_of_app. right. left.
    + intros Hkt'. destruct (Ht k t Hkt') as ((i & ? & ?) & ? & Hi). split_and!; [|done|intros j c Hj; by apply Hif, Hi].
      exists i. rewrite elem_of_app. auto.
  - intros k i Hin Hi. rewrite dict_get_set. case_decide as E; [done|].
    apply elem_of_app in Hin as [Hin|[= -> ->]%list_elem_of_singleton]; [by eapply Ha|done].
  - intros k i [Hi|Hi]%Hsrc.
    + destruct (Hs k i Hi) as [?|(root & t & Hr & ?)]; [by left|right].
      destruct (decide (key = root)) as [<-|Hne].
      * exists key, tree. rewrite dict_get_set_eq. split; [done|].
        destruct (Ht _ _ Hr) as (_ & Er & _). congruence.
      * exists root, t. by rewrite dict_get_set_ne.
    + right. exists key, tree. rewrite dict_get_set_eq. split; [done|]. by apply dict_get_NoDup.
Qed.

Lemma add_tree_facts ms s' : keyed ms →
  foldL (add_tree board_size stage ref reads ms) (ms, []) ms = Some (Ok s') → trees_read ms ms s'.
Proof.
  intros Hms E. refine (foldL_prefix (trees_read ms) _ _ _ _ _ _ E).
  - intros done member s1 s2 Hs _. by apply add_tree_step.
  - split; cbn; try done; [constructor|by intros ?|by intros k i ?%elem_of_nil|by left].
Qed.

(** A tree of the scope as it was read, and read again the same at the end. *)
Definition tree_of (root : string) (t : facts_t) : Prop :=
  _read_tree board_size stage root ref (tree_read reads root) = Some (Ok t)
  ∧ ∃ again, _read_tree board_size stage root ref (tree_reread reads root) = Some (Ok again)
      ∧ dict_same again t = true.

(** The facts are the rows of the topmost members' trees, all of them and nothing else. *)
Definition facts_of_trees (ms : members) (facts : facts_t) : Prop :=
  (∀ k i, (k, i) ∈ ms → topmost ms i → ∃ t, tree_of k t ∧ includes t facts)
  ∧ ∀ k i, dict_get facts k = Some i → ∃ root top t, (root, top) ∈ ms ∧ topmost ms top ∧ tree_of root t
      ∧ dict_get t k = Some i.

Lemma facts_read_again ms s : trees_read ms ms s → keyed ms →
  Forall (λ k, k ∈ covered s.2) (dict_keys ms) →
  (∀ kt, kt ∈ s.2 → reread_tree board_size stage ref reads kt = Some (Ok tt)) → facts_of_trees ms s.1.
Proof.
  intros [Hk Ho Hf Ht Ha Hs] [Hnd _] Hcov Hre.
  assert (∀ root t, dict_get s.2 root = Some t → tree_of root t) as Htree.
  { intros root t Hrt. split; [by apply Ht|]. pose proof (Hre _ (dict_get_elem _ _ _ Hrt)) as Hr. unfold reread_tree in Hr.
    apply loop_bind_ok in Hr as (again & Ea & [Hsame _]%straight_raise_ok). exists again.
    split; [done|]. by apply negb_false_iff. }
  split.
  - intros k i Hin Htop. destruct (Ha k i Hin Htop) as [t Hkt]. exists t. split; [by apply Htree|by apply (Ht k)].
  - intros k i Hki. assert (∃ root t, dict_get s.2 root = Some t ∧ dict_get t k = Some i) as (root & t & Hr & Hti).
    { destruct (Hs k i Hki) as [Hmi|?]; [|done]. assert (k ∈ dict_keys ms) as Hin by (apply dict_get_is_Some; by eexists).
      rewrite Forall_forall in Hcov. apply Hcov in Hin. unfold covered in Hin.
      apply list_elem_of_join in Hin as (ks & Hk' & (t & -> & Hin)%list_elem_of_fmap).
      unfold dict_values in Hin. apply list_elem_of_fmap in Hin as ([root t'] & -> & Hin).
      assert (dict_get s.2 root = Some t') as Hr by by apply dict_get_NoDup. exists root, t'. split; [done|].
      apply dict_get_is_Some in Hk' as [j Hj]. cbn in Hj. destruct (Ht root t' Hr) as (_ & _ & Hi).
      pose proof (Hi _ _ Hj). congruence. }
    destruct (Ht root t Hr) as ((top & ? & ?) & _). exists root, top, t. split_and!; [done..|by apply Htree|done].
Qed.
End facts.

(** ** The members, sorted *)

Definition lane_member (i : TrackerIssue) : Prop := is_criterion i = false ∧ is_record i = false.

Section sorting.
Context (reads : Readings) (ref : ScopeRef) (facts : facts_t) (held : list string) (ms : members).
Context (Hfacts : keyed facts) (Hms : ∀ k i, (k, i) ∈ ms → dict_get facts k = Some i).
Notation closure := (make_closure facts ref held).
Notation roster_of := (roster_of facts held).
Notation true_readings := (true_readings facts held).

Lemma closure_walk m k : true_readings m → k ∈ dict_keys facts →
  match _walk closure m k with
  | Some (Ok m') => true_readings m' ∧ ∃ r, roster_of k r ∧ dict_get (rosters m') k = Some r ∧ dict_get (gaps m') k = Some (open_of r)
  | _ => True
  end.
Proof.
  intros Hm Hk. destruct Hfacts as [Hnd Hkd]. pose proof (walk_reads facts ref held Hnd Hkd m k Hm Hk) as H.
  destruct (_walk closure m k) as [[m'|e]|]; [|done..]. by destruct H as (? & _ & ?).
Qed.

Lemma gap_ok m k m' g : true_readings m → k ∈ dict_keys facts → gap closure m k = Some (Ok (m', g)) →
  true_readings m' ∧ ∃ r, roster_of k r ∧ g = open_of r.
Proof.
  intros Hm Hk. unfold gap, gap_or_roster. intros (m1 & E & H%straight_ok)%loop_bind_ok.
  pose proof (closure_walk m k Hm Hk) as Hw. rewrite E in Hw. destruct Hw as (? & r & ? & _ & Eg). rewrite Eg in H.
  injection H as <- <-. eauto.
Qed.

Lemma roster_ok m k m' r : true_readings m → k ∈ dict_keys facts → roster closure m k = Some (Ok (m', r)) →
  true_readings m' ∧ roster_of k r.
Proof.
  intros Hm Hk. unfold roster, gap_or_roster. intros (m1 & E & H%straight_ok)%loop_bind_ok.
  pose proof (closure_walk m k Hm Hk) as Hw. rewrite E in Hw. destruct Hw as (? & r' & ? & Er & _). rewrite Er in H.
  injection H as <- <-. eauto.
Qed.

Lemma member_fact k i : (k, i) ∈ ms → k ∈ dict_keys facts.
Proof. intros H%Hms. apply dict_get_is_Some. by eexists. Qed.

Record sorted_so_far (done : members) (s : sorted_members) : Prop := {
  sorted_memo : true_readings (memo s);
  sorted_approval k a : dict_get (approvals s) k = Some a →
    approval_read reads k = Ok a ∧ ∃ i, (k, i) ∈ done ∧ lane_member i;
  sorted_asked k i : (k, i) ∈ done → lane_member i → is_Some (dict_get (approvals s) k);
  sorted_gap k g : dict_get (open_gaps s) k = Some g →
    g ≠ [] ∧ dict_get (approvals s) k = Some true ∧ ∃ r, roster_of k r ∧ g = open_of r;
  sorted_closed k i : dict_get (closed s) k = Some i →
    (k, i) ∈ done ∧ dict_get (approvals s) k = Some true ∧ ∃ r, roster_of k r ∧ open_of r = [];
  sorted_either k : dict_get (approvals s) k = Some true →
    is_Some (dict_get (open_gaps s) k) ∨ is_Some (dict_get (closed s) k);
}.

Lemma sorted_start :
  sorted_so_far [] {| memo := no_readings; approvals := []; open_gaps := []; closed := []; held_so_far := [] |}.
Proof. split; cbn; try done. by intros k i ?%elem_of_nil. Qed.

(** A member that is no lane leaves all but the memory and the held. *)
Lemma sorted_skip done k i s m' h : sorted_so_far done s → ¬ lane_member i → true_readings m' →
  sorted_so_far (done ++ [(k, i)]) {| memo := m'; approvals := approvals s; open_gaps := open_gaps s;
                                      closed := closed s; held_so_far := h |}.
Proof.
  intros [Hm Ha Has Hg Hc He] Hn Hm'. split; cbn; try done.
  - intros k' a Hk. destruct (Ha k' a Hk) as (? & j & ? & ?). split; [done|]. exists j. rewrite elem_of_app. auto.
  - intros k' j [Hj|[= -> ->]%list_elem_of_singleton]%elem_of_app Hl; [eauto|done].
  - intros k' j Hj. destruct (Hc k' j Hj) as (? & ? & ?). rewrite elem_of_app. auto.
Qed.

(** A lane, once asked. *)
Lemma sorted_lane done k i s a m' og cl : sorted_so_far done s → lane_member i → approval_read reads k = Ok a →
  true_readings m' →
  (∀ j g, dict_get og j = Some g → dict_get (open_gaps s) j = Some g
     ∨ j = k ∧ a = true ∧ g ≠ [] ∧ ∃ r, roster_of k r ∧ g = open_of r) →
  (∀ j x, dict_get cl j = Some x → dict_get (closed s) j = Some x
     ∨ j = k ∧ a = true ∧ x = i ∧ ∃ r, roster_of k r ∧ open_of r = []) →
  (∀ j, is_Some (dict_get (open_gaps s) j) ∨ is_Some (dict_get (closed s) j) →
        is_Some (dict_get og j) ∨ is_Some (dict_get cl j)) →
  (a = true → is_Some (dict_get og k) ∨ is_Some (dict_get cl k)) →
  sorted_so_far (done ++ [(k, i)]) {| memo := m'; approvals := dict_set (approvals s) k a; open_gaps := og;
                                      closed := cl; held_so_far := held_so_far s |}.
Proof.
  intros [Hm Ha Has Hg Hc He] Hl Hread Hm' Hog Hcl Hkeep Hk.
  assert (∀ j, dict_get (approvals s) j = Some true → dict_get (dict_set (approvals s) k a) j = Some true) as Happ.
  { intros j Hj. rewrite dict_get_set. case_decide as E; [|done]. subst j. apply Ha in Hj as [Hj _]. congruence. }
  split; cbn; [done|..].
  - intros j b. rewrite dict_get_set. case_decide as E.
    + subst j. intros [= <-]. split; [done|]. exists i. split; [|done]. apply elem_of_app. right. left.
    + intros Hj. destruct (Ha j b Hj) as (? & x & ? & ?). split; [done|]. exists x. rewrite elem_of_app. auto.
  - intros j x [Hj|[= -> ->]%list_elem_of_singleton]%elem_of_app Hlx.
    + rewrite dict_get_set. case_decide; [done|]. by eapply Has.
    + rewrite dict_get_set_eq. done.
  - intros j g [Hj|(-> & -> & Hne & r & Hr & Eg)]%Hog.
    + destruct (Hg j g Hj) as (? & ? & ?). auto.
    + rewrite dict_get_set_eq. eauto.
  - intros j x [Hj|(-> & -> & -> & r & Hr & Eo)]%Hcl.
    + destruct (Hc j x Hj) as (? & ? & ?). rewrite elem_of_app. auto.
    + rewrite dict_get_set_eq, elem_of_app. split; [right; left|]. eauto.
  - intros j. rewrite dict_get_set. case_decide as E; [subst; intros [= ->]; auto|]. intros Hj. by apply Hkeep, He.
Qed.

Lemma sort_member_step done member s s' :
  sorted_so_far done s → member ∈ ms → sort_member reads closure s member = Some (Ok s') →
  sorted_so_far (done ++ [member]) s'.
Proof.
  intros Hs Hin. destruct member as [k i]. pose proof (member_fact _ _ Hin) as Hk. unfold sort_member.
  pose proof (sorted_memo _ _ Hs) as Hm.
  destruct (is_criterion i) eqn:Ec.
  { intros <-%loop_ret_ok. destruct s as [m0 ap og cl h0]. apply (sorted_skip _ k i _ m0 h0 Hs); [|done]. intros [??]. congruence. }
  destruct (is_record i) eqn:Er.
  { assert (¬ lane_member i) as Hn by (intros [??]; congruence). case_decide.
    - intros ([m' r] & Hr & <-%loop_ret_ok)%loop_bind_ok. apply sorted_skip; [done..|]. by eapply roster_ok in Hr as [? _].
    - intros <-%loop_ret_ok. destruct s as [m0 ap og cl h0]. by apply (sorted_skip _ k i _ m0 h0 Hs). }
  intros (a & Ha%straight_ok & H)%loop_bind_ok. destruct a.
  - apply loop_bind_ok in H as ([m' g] & Eg & <-%loop_ret_ok). apply gap_ok in Eg as (Hm' & r & Hr & ->); [|done..].
    cbn [fst snd]. case_decide as Eo; apply sorted_lane; try done; cbn; auto.
    + intros j x. rewrite dict_get_set. case_decide; [intros [= <-]; subst; right; eauto 6|by left].
    + intros j [?|?]; [by left|right]. rewrite dict_get_set. by case_decide.
    + intros _. right. by rewrite dict_get_set_eq.
    + intros j x. rewrite dict_get_set. case_decide; [intros [= <-]; subst; right; eauto 8|by left].
    + intros j [?|?]; [left|by right]. rewrite dict_get_set. by case_decide.
    + intros _. left. by rewrite dict_get_set_eq.
  - apply loop_ret_ok in H as <-. apply sorted_lane; by auto.
Qed.

Lemma members_sorted s s' :
  foldL (sort_member reads closure) s ms = Some (Ok s') → sorted_so_far [] s → sorted_so_far ms s'.
Proof.
  intros E Hs. refine (foldL_prefix sorted_so_far _ _ _ _ _ Hs E).
  intros done b a1 a2 Ha Hb. by apply sort_member_step.
Qed.

(** ** The blockers, and the lanes *)

Definition discharged (b : string) : Prop := ∃ r, roster_of b r ∧ open_of r = [].
Definition owing (b : string) : Prop := ∃ r, roster_of b r ∧ open_of r ≠ [].

Lemma blocking_sorted l m b : (∀ k, k ∈ l → k ∈ dict_keys facts) → true_readings m →
  foldL (still_blocking closure) (m, ∅) l = Some (Ok b) →
  true_readings b.1 ∧ ∀ k, (k ∈ b.2 → k ∈ l ∧ owing k) ∧ (k ∈ l → k ∉ b.2 → discharged k).
Proof using Hfacts.
  clear ms Hms.
  intros Hl Hm E. refine (foldL_prefix (λ done s, true_readings s.1
    ∧ ∀ k, (k ∈ s.2 → k ∈ done ∧ owing k) ∧ (k ∈ done → k ∉ s.2 → discharged k)) _ _ _ _ _ _ E).
  2:{ split; [done|]. intros k. split; [set_solver|by intros ?%elem_of_nil]. }
  clear E b. intros done k s1 s2 [Ht Hk] Hin. unfold still_blocking.
  intros ([m' c] & Ec & <-%loop_ret_ok)%loop_bind_ok. unfold is_closed in Ec.
  apply loop_bind_ok in Ec as ([m1 g] & Eg & [= <- <-]%loop_ret_ok). cbn.
  apply gap_ok in Eg as (Hm' & r & Hr & ->); [|done|by apply Hl]. split; [done|]. intros j.
  setoid_rewrite elem_of_app. setoid_rewrite list_elem_of_singleton.
  destruct (Hk j) as [H1 H2]. case_bool_decide as Eo.
  - split; [intros Hj; destruct (H1 Hj); auto|]. intros [Hj| ->] Hn; [auto|]. by exists r.
  - rewrite elem_of_union, elem_of_singleton. split.
    + intros [->|Hj]; [|destruct (H1 Hj); auto]. split; [auto|]. by exists r.
    + intros [Hj| ->] Hn; [|tauto]. apply H2; tauto.
Qed.

Lemma lanes_sorted gaps m entries s' : true_readings m →
  (∀ e, e ∈ entries → issue_key (ready_issue e) ∈ dict_keys facts) →
  foldL (ready_lane closure gaps) (m, []) entries = Some (Ok s') →
  (∀ lane, lane ∈ s'.2 → ∃ e, e ∈ entries ∧ lane_issue lane = ready_issue e ∧ lane_priority lane = effective_priority e
     ∧ dict_get gaps (issue_key (ready_issue e)) = Some (lane_gap lane)
     ∧ roster_of (issue_key (ready_issue e)) (lane_criteria lane))
  ∧ ∀ e, e ∈ entries → ∃ lane, lane ∈ s'.2 ∧ lane_issue lane = ready_issue e.
Proof.
  intros Hm Hin E. refine (proj2 (foldL_prefix (λ done s, true_readings s.1
    ∧ (∀ lane, lane ∈ s.2 → ∃ e, e ∈ entries ∧ lane_issue lane = ready_issue e ∧ lane_priority lane = effective_priority e
       ∧ dict_get gaps (issue_key (ready_issue e)) = Some (lane_gap lane)
       ∧ roster_of (issue_key (ready_issue e)) (lane_criteria lane))
    ∧ ∀ e, e ∈ done → ∃ lane, lane ∈ s.2 ∧ lane_issue lane = ready_issue e) _ _ _ _ _ _ E)).
  2:{ split; [done|]. split; by intros ? ?%elem_of_nil. }
  clear E s'. intros done e s1 s2 (Ht & Hlanes & Hall) He. unfold ready_lane.
  intros (g & Eg & ([m' r] & Er & <-%loop_ret_ok)%loop_bind_ok)%loop_bind_ok.
  apply straight_ok in Eg. destruct (dict_get gaps _) as [g'|] eqn:Egap; [|done]. injection Eg as ->.
  apply roster_ok in Er as [Hm' Hr]; [|done|by apply Hin]. cbn [fst snd]. split; [done|]. split.
  - intros lane [Hl| ->%list_elem_of_singleton]%elem_of_app; [auto|]. by exists e.
  - intros e' [He'| ->%list_elem_of_singleton]%elem_of_app.
    + destruct (Hall e' He') as (lane & ? & ?). exists lane. rewrite elem_of_app. auto.
    + eexists. rewrite elem_of_app, list_elem_of_singleton. split; [by right|done].
Qed.
End sorting.

(** ** The answer *)

Section answer.
Context (board_size : nat) (stage : bool) (ref : ScopeRef) (reads : Readings).

Lemma elem_of_scope_blockers ms gaps b : b ∈ scope_blockers ms gaps ↔
  b ∈ dict_keys ms ∧ ∃ k g i, (k, g) ∈ gaps ∧ dict_get ms k = Some i ∧ b ∈ blocker_keys i.
Proof.
  unfold scope_blockers. rewrite elem_of_fromkeys, list_elem_of_join. split.
  - intros (l & Hb & ([k g] & -> & Hkg)%list_elem_of_fmap). cbn in Hb.
    destruct (dict_get ms k) as [i|] eqn:Ei; [|by apply elem_of_nil in Hb].
    apply list_elem_of_filter in Hb as [Hd Hb]. apply bool_decide_eq_true in Hd. split; [done|]. by exists k, g, i.
  - intros (Hd & k & g & i & Hkg & Ei & Hb). eexists. split; [|by apply list_elem_of_fmap_2; exact Hkg].
    cbn. rewrite Ei. apply list_elem_of_filter. split; [by apply bool_decide_eq_true|done].
Qed.

Lemma dict_keys_get {V} (d : pydict string V) k : k ∈ dict_keys d → ∃ v, (k, v) ∈ d ∧ dict_get d k = Some v.
Proof. intros [v E]%dict_get_is_Some. exists v. split; [by apply dict_get_elem|done]. Qed.

(** What a lane of the ready set is. *)
Definition ready_for (facts : facts_t) (held : list string) (set : ScopeReadySet) (lane : ScopeReadyLane) : Prop :=
  let i := lane_issue lane in
  i ∈ issues (scope_of set) ∧ lane_member i
  ∧ approval_read reads (issue_key i) = Ok true ∧ approval_reread reads (issue_key i) = Ok true
  ∧ roster_of facts held (issue_key i) (lane_criteria lane)
  ∧ lane_gap lane = open_of (lane_criteria lane) ∧ lane_gap lane ≠ []
  ∧ ∀ b, b ∈ blocker_keys i → b ∈ issue_key <$> issues (scope_of set) → discharged facts held b.

(** Where a lane of the scope that is approved stands. *)
Definition placed (facts : facts_t) (held : list string) (set : ScopeReadySet) (i : TrackerIssue) : Prop :=
  ∃ r, roster_of facts held (issue_key i) r
    ∧ ((open_of r = [] ∧ i ∈ closed_members set)
       ∨ (open_of r ≠ [] ∧ ∃ lane, lane ∈ ready_lanes_of set ∧ lane_issue lane = i)
       ∨ (open_of r ≠ [] ∧ ∃ e, e ∈ blocked_of_scope set ∧ blocked_issue_key e = issue_key i
            ∧ blocked_blocker_keys e ≠ []
            ∧ ∀ b, b ∈ blocked_blocker_keys e →
                b ∈ blocker_keys i ∧ b ∈ issue_key <$> issues (scope_of set) ∧ owing facts held b)).

Lemma roster_open_fact facts held k r c : roster_of facts held k r → c ∈ open_of r →
  is_criterion c = true ∧ is_open (state_kind c) = true ∧ ∃ j, dict_get facts j = Some c.
Proof.
  intros Hr [Ho Hc]%list_elem_of_filter. apply (roster_of_elem _ _ _ _ Hr) in Hc as (? & j & _ & ?). eauto.
Qed.

Lemma scope_gap_unresolved facts held g k : keyed facts →
  scope_gap (make_closure facts ref held) = Ok g →
  k ∈ issue_key <$> owed g ↔ ∃ i, dict_get facts k = Some i ∧ is_criterion i = true ∧ is_open (state_kind i) = true.
Proof.
  intros [Hnd Hk]. unfold scope_gap. intros (_ & _ & ->)%compute_gap_ok. cbn [owed gap_of IssueTree.facts make_closure].
  rewrite list_elem_of_fmap. setoid_rewrite list_elem_of_filter. setoid_rewrite list_elem_of_filter.
  setoid_rewrite open_state_kind_is_open. split.
  - intros (i & -> & Ho & Hc & Hi). exists i. split; [|done].
    apply list_elem_of_fmap in Hi as ([k i'] & -> & Hi). cbn in *. apply dict_get_NoDup; [done|].
    by rewrite (Hk k i' Hi).
  - intros (i & Hi & Hc & Ho). exists i. pose proof (dict_get_elem _ _ _ Hi) as Hin.
    split; [by rewrite (Hk k i Hin)|]. split_and!; [done..|]. apply list_elem_of_fmap. by exists (k, i).
Qed.

(** The blockers of an entry of the plan that hold it, when [blocking] are members that owe. *)
Lemma live_of_blocking snapshot blocking i b :
  b ∈ live_of snapshot (Some blocking) i ↔ b ∈ blocker_keys i ∧ b ∈ blocking.
Proof.
  unfold live_of. rewrite list_elem_of_filter, elem_of_fromkeys. cbn. rewrite bool_decide_eq_true. tauto.
Qed.
(** The facts of an answer: the rows of the trees of its topmost members, each read twice the
    same; and the held members they make. *)
Definition facts_read (set : ScopeReadySet) (facts : facts_t) : Prop :=
  facts_of_trees board_size stage ref reads (dict_of (keyed_rows (issues (scope_of set)))) facts.
Definition held_read (set : ScopeReadySet) (facts : facts_t) : list string :=
  held_keys stage (dict_of (keyed_rows (issues (scope_of set)))) facts.

(** The parts of an answer. *)
Record answered (plan : ScopePlanSnapshot) (ms : members) (facts : facts_t) (held : list string)
    (s : sorted_members) (b : readings * gset string) (topology : TopologyPlan) (set : ScopeReadySet) : Prop := {
  answered_plan : _read_plan board_size stage ref (plan_read reads) = Some (Ok plan);
  answered_again : _read_plan board_size stage ref (plan_reread reads) = Some (Ok plan);
  answered_ms : ms = dict_of (keyed_rows (issues (plan_scope plan)));
  answered_facts : keyed facts ∧ includes ms facts;
  answered_trees : facts_of_trees board_size stage ref reads ms facts;
  answered_held : held = held_keys stage ms facts;
  answered_sorted : sorted_so_far reads facts held ms s;
  answered_blocking : foldL (still_blocking (make_closure facts ref held)) (memo s, ∅)
    (scope_blockers ms (open_gaps s)) = Some (Ok b);
  answered_topology : plan_topology (issues (plan_scope plan) ++ dependencies plan)
    (list_to_set (dict_keys (open_gaps s))) (Some b.2) = Some (Ok topology);
  answered_approvals k a : (k, a) ∈ approvals s → approval_reread reads k = Ok a;
  answered_lanes : ∃ m, foldL (ready_lane (make_closure facts ref held) (open_gaps s)) (b.1, []) (ready topology)
    = Some (Ok (m, ready_lanes_of set));
  answered_scope : scope_of set = plan_scope plan;
  answered_blocked : blocked_of_scope set = blocked topology;
  answered_unapproved : unapproved set = (filter (λ ka, ka.2 = false) (approvals s)).*1;
  answered_closed : closed_members set = dict_values (closed s);
  answered_gap : ∃ g, scope_gap (make_closure facts ref held) = Ok g ∧ unresolved set = issue_key <$> owed g;
}.

Arguments answered_plan {_ _ _ _ _ _ _ _}.
Arguments answered_again {_ _ _ _ _ _ _ _}.
Arguments answered_ms {_ _ _ _ _ _ _ _}.
Arguments answered_facts {_ _ _ _ _ _ _ _}.
Arguments answered_trees {_ _ _ _ _ _ _ _}.
Arguments answered_held {_ _ _ _ _ _ _ _}.
Arguments answered_sorted {_ _ _ _ _ _ _ _}.
Arguments answered_blocking {_ _ _ _ _ _ _ _}.
Arguments answered_topology {_ _ _ _ _ _ _ _}.
Arguments answered_approvals {_ _ _ _ _ _ _ _}.
Arguments answered_lanes {_ _ _ _ _ _ _ _}.
Arguments answered_scope {_ _ _ _ _ _ _ _}.
Arguments answered_blocked {_ _ _ _ _ _ _ _}.
Arguments answered_unapproved {_ _ _ _ _ _ _ _}.
Arguments answered_closed {_ _ _ _ _ _ _ _}.
Arguments answered_gap {_ _ _ _ _ _ _ _}.

Lemma read_scope_ready_answered set :
  read_scope_ready board_size stage ref reads = Some (Ok set) →
  ∃ plan ms facts held s b topology, answered plan ms facts held s b topology set.
Proof.
  unfold read_scope_ready. intros (u0 & _ & (plan & Eplan & H)%loop_bind_ok)%loop_bind_ok.
  set (ms := dict_of _) in H. apply loop_bind_ok in H as ([facts trees] & Efacts & H).
  apply loop_bind_ok in H as (u1 & [Ecov _]%straight_raise_ok & H). set (held := held_keys stage ms facts) in H.
  apply loop_bind_ok in H as (s & Es & H). apply loop_bind_ok in H as (b & Eb & H).
  apply loop_bind_ok in H as (topology & Et & H). apply loop_bind_ok in H as (u2 & Etrees & H).
  apply loop_bind_ok in H as (plan' & Eplan' & H).
  apply loop_bind_ok in H as (u3 & [Esame _]%straight_raise_ok & H).
  apply negb_false_iff, bool_decide_eq_true in Esame as ->.
  apply loop_bind_ok in H as (u4 & Eappr & H). apply loop_bind_ok in H as (g & Eg%straight_ok & H).
  apply loop_bind_ok in H as ([m lanes] & Elanes & H). apply loop_bind_ok in H as (un & _ & <-%loop_ret_ok).
  pose proof (add_tree_facts board_size stage ref reads ms _ (dict_of_rows _) Efacts) as Hread.
  pose proof Hread as [Hk _ Hi _ _ _]. cbn [fst snd] in Hk, Hi.
  apply negb_false_iff, bool_decide_eq_true in Ecov.
  pose proof (foldL_each (reread_tree board_size stage ref reads) _ _ Etrees) as Hre.
  pose proof (facts_read_again board_size stage ref reads ms (facts, trees) Hread (dict_of_rows _) Ecov Hre) as Htrees.
  cbn [fst] in Htrees.
  exists plan, ms, facts, held, s, b, topology. split; try done; cbn; [|..|by exists m|by exists g].
  - eapply (members_sorted reads ref facts held ms Hk); [|exact Es|apply sorted_start].
    intros k i Hin. apply Hi, dict_get_NoDup; [apply dict_of_rows|done].
  - intros k a Ha. pose proof (foldL_each _ _ _ Eappr _ Ha) as Hr. unfold reread_approval in Hr.
    apply loop_bind_ok in Hr as (a' & Ea%straight_ok & [Hs _]%straight_raise_ok).
    apply negb_false_iff, bool_decide_eq_true in Hs as ->. done.
Qed.

Section says.
Context plan ms facts held s b topology set (HA : answered plan ms facts held s b topology set).
Notation scope := (issues (plan_scope plan)).

Lemma says_complete :
  snapshot_complete (scope ++ dependencies plan) (list_to_set (dict_keys (open_gaps s))) (Some b.2)
  ∧ (∀ e, e ∈ ready topology ↔ is_ready_entry (scope ++ dependencies plan) (Some b.2) (list_to_set (dict_keys (open_gaps s))) e)
  ∧ (∀ e, e ∈ blocked topology ↔ is_blocked_entry (scope ++ dependencies plan) (Some b.2) (list_to_set (dict_keys (open_gaps s))) e)
  ∧ ∀ k, k ∈ issue_key <$> scope ++ dependencies plan →
      ∃ p, inherited_priority (issue_graph (scope ++ dependencies plan)) (own_priority (scope ++ dependencies plan)) k p.
Proof. apply plan_topology_ok, (answered_topology HA). Qed.

Lemma says_once : NoDup (issue_key <$> scope ++ dependencies plan) ∧ NoDup (issue_key <$> scope).
Proof.
  destruct says_complete as [[Hnd _ _ _] _]. split; [done|]. rewrite fmap_app in Hnd. by apply NoDup_app in Hnd as [? _].
Qed.

Lemma says_member i : i ∈ scope ↔ (issue_key i, i) ∈ ms.
Proof.
  rewrite (answered_ms HA), <-(dict_of_rows_get scope i) by apply says_once. split.
  - apply dict_get_elem.
  - apply dict_get_NoDup, dict_of_rows.
Qed.

Lemma says_key k i : (k, i) ∈ ms → issue_key i = k.
Proof. rewrite (answered_ms HA). apply dict_of_rows. Qed.

Lemma says_fact i : i ∈ scope → dict_get facts (issue_key i) = Some i.
Proof.
  intros Hi%says_member. apply (answered_facts HA). apply dict_get_NoDup; [|done].
  rewrite (answered_ms HA). apply dict_of_rows.
Qed.

Lemma answered_reads : facts_read set facts ∧ held = held_read set facts.
Proof.
  unfold facts_read, held_read. rewrite (answered_scope HA), <-(answered_ms HA).
  split; [apply (answered_trees HA)|apply (answered_held HA)].
Qed.

Lemma says_scope_key k : k ∈ issue_key <$> scope ↔ k ∈ dict_keys ms.
Proof.
  rewrite (answered_ms HA). unfold dict_keys at 1. change ((dict_of (keyed_rows scope)).*1) with
    (dict_keys (dict_of (keyed_rows scope))). rewrite dict_of_keys.
  change ((keyed_rows scope).*1) with (dict_keys (keyed_rows scope)). by rewrite keyed_rows_keys.
Qed.

(** A candidate is an approved lane of the scope that owes. *)
Lemma says_candidate k g : dict_get (open_gaps s) k = Some g → ∃ i, i ∈ scope ∧ issue_key i = k ∧ lane_member i
  ∧ approval_read reads k = Ok true ∧ approval_reread reads k = Ok true
  ∧ g ≠ [] ∧ ∃ r, roster_of facts held k r ∧ g = open_of r.
Proof.
  intros Hg. pose proof (answered_sorted HA) as Hs.
  destruct (sorted_gap _ _ _ _ _ Hs k g Hg) as (Hne & Ha & Hr).
  destruct (sorted_approval _ _ _ _ _ Hs k true Ha) as (Hread & i & Hin & Hl).
  pose proof (says_key k i Hin) as Hk. exists i. rewrite says_member, Hk. split_and!; try done.
  by apply (answered_approvals HA), dict_get_elem.
Qed.

Lemma says_blocking : true_readings facts held b.1 ∧ ∀ k,
  (k ∈ b.2 → k ∈ scope_blockers ms (open_gaps s) ∧ owing facts held k)
  ∧ (k ∈ scope_blockers ms (open_gaps s) → k ∉ b.2 → discharged facts held k).
Proof.
  apply (blocking_sorted ref facts held (proj1 (answered_facts HA)) _ (memo s) b).
  - intros j (Hj & _)%elem_of_scope_blockers. apply says_scope_key in Hj as (i & -> & Hi)%list_elem_of_fmap.
    apply dict_get_is_Some. rewrite says_fact by done. by eexists.
  - apply (sorted_memo _ _ _ _ _ (answered_sorted HA)).
  - apply (answered_blocking HA).
Qed.

(** An issue of the plan whose key is a candidate's is that candidate. *)
Lemma says_entry i : i ∈ scope ++ dependencies plan → issue_key i ∈ (list_to_set (dict_keys (open_gaps s)) : gset string) →
  ∃ g, dict_get (open_gaps s) (issue_key i) = Some g ∧ i ∈ scope.
Proof.
  intros Hi [g Eg]%elem_of_list_to_set%dict_get_is_Some. exists g. split; [done|].
  destruct (says_candidate _ _ Eg) as (j & Hj & Ej & _).
  assert (i = j) as ->; [|done]. eapply (NoDup_fmap_elem issue_key); [exact (proj1 says_once)|exact Hi|apply elem_of_app; by left|by rewrite Ej].
Qed.

Lemma says_ready_entry e : e ∈ ready topology → ∃ g, dict_get (open_gaps s) (issue_key (ready_issue e)) = Some g
  ∧ ready_issue e ∈ scope
  ∧ ∀ k, k ∈ blocker_keys (ready_issue e) → k ∈ issue_key <$> scope → discharged facts held k.
Proof.
  intros (Hi & Hc & Hlive & _)%says_complete. destruct (says_entry _ Hi Hc) as (g & Eg & Hin).
  exists g. split_and!; [done..|]. intros k Hk Hks%says_scope_key. apply says_blocking.
  - apply elem_of_scope_blockers. split; [done|]. exists (issue_key (ready_issue e)), g, (ready_issue e).
    split; [by apply dict_get_elem|]. split; [|done]. apply says_member in Hin.
    apply dict_get_NoDup; [|done]. rewrite (answered_ms HA). apply dict_of_rows.
  - intros Hb. assert (k ∈ live_of (scope ++ dependencies plan) (Some b.2) (ready_issue e)) as Hl.
    { by apply live_of_blocking. }
    rewrite Hlive in Hl. by apply elem_of_nil in Hl.
Qed.

Lemma says_lanes :
  (∀ lane, lane ∈ ready_lanes_of set → ∃ e, e ∈ ready topology ∧ lane_issue lane = ready_issue e
     ∧ dict_get (open_gaps s) (issue_key (ready_issue e)) = Some (lane_gap lane)
     ∧ roster_of facts held (issue_key (ready_issue e)) (lane_criteria lane))
  ∧ ∀ e, e ∈ ready topology → ∃ lane, lane ∈ ready_lanes_of set ∧ lane_issue lane = ready_issue e.
Proof.
  destruct (answered_lanes HA) as [m Em].
  pose proof (lanes_sorted ref facts held (proj1 (answered_facts HA)) _ _ _ _
    (proj1 says_blocking)
    ltac:(intros e (g & _ & Hin & _)%says_ready_entry; apply dict_get_is_Some; rewrite says_fact by done; by eexists)
    Em) as [H1 H2].
  cbn in H1, H2. split; [|exact H2]. intros lane Hl. destruct (H1 lane Hl) as (e & ? & ? & _ & ? & ?). by exists e.
Qed.

Lemma says_ready lane : lane ∈ ready_lanes_of set → ready_for facts held set lane.
Proof.
  intros (e & He & Ei & Eg & Hr)%says_lanes. destruct (says_ready_entry e He) as (g & Eg' & Hin & Hb).
  destruct (says_candidate _ _ Eg) as (i & Hi & Ek & Hl & Ha & Ha' & Hne & r & Hr' & Er).
  assert (i = ready_issue e) as -> by (eapply (NoDup_fmap_elem issue_key); [apply (proj2 says_once)|done..]).
  unfold ready_for. rewrite Ei, (answered_scope HA). split_and!; try done.
  by rewrite Er, (roster_of_functional _ _ _ _ _ Hr Hr').
Qed.

Lemma says_asked i : i ∈ scope → lane_member i →
  ∃ a, dict_get (approvals s) (issue_key i) = Some a ∧ approval_read reads (issue_key i) = Ok a
    ∧ approval_reread reads (issue_key i) = Ok a.
Proof.
  intros Hi Hl. apply says_member in Hi. pose proof (answered_sorted HA) as Hs.
  destruct (sorted_asked _ _ _ _ _ Hs _ _ Hi Hl) as [a Ea]. exists a. split; [done|].
  destruct (sorted_approval _ _ _ _ _ Hs _ _ Ea) as [Hr _]. split; [done|].
  by apply (answered_approvals HA), dict_get_elem.
Qed.

Lemma says_unapproved i : dict_get (approvals s) (issue_key i) = Some false → issue_key i ∈ unapproved set.
Proof.
  intros E%dict_get_elem. rewrite (answered_unapproved HA). apply list_elem_of_fmap. exists (issue_key i, false).
  split; [done|]. by apply list_elem_of_filter.
Qed.

(** A candidate of the plan is ready or blocked. *)
Lemma says_split i g : i ∈ scope → dict_get (open_gaps s) (issue_key i) = Some g →
  (∃ lane, lane ∈ ready_lanes_of set ∧ lane_issue lane = i)
  ∨ ∃ e, e ∈ blocked_of_scope set ∧ blocked_issue_key e = issue_key i ∧ blocked_blocker_keys e ≠ []
      ∧ ∀ k, k ∈ blocked_blocker_keys e →
          k ∈ blocker_keys i ∧ k ∈ issue_key <$> issues (scope_of set) ∧ owing facts held k.
Proof.
  intros Hi Eg. destruct says_complete as (_ & Hready & Hblocked & Hprio).
  assert (i ∈ scope ++ dependencies plan) as His by (apply elem_of_app; by left).
  assert (issue_key i ∈ (list_to_set (dict_keys (open_gaps s)) : gset string)) as Hc.
  { apply elem_of_list_to_set, dict_get_is_Some. by eexists. }
  destruct (decide (live_of (scope ++ dependencies plan) (Some b.2) i = [])) as [Hl|Hl].
  - left. destruct (Hprio (issue_key i)) as [p Hp]; [by apply list_elem_of_fmap_2|].
    destruct (proj2 says_lanes {| ready_issue := i; effective_priority := p |}) as (lane & ? & ?); [by apply Hready|].
    by exists lane.
  - right. exists {| blocked_issue_key := issue_key i;
      blocked_blocker_keys := live_of (scope ++ dependencies plan) (Some b.2) i |}.
    rewrite (answered_blocked HA), (answered_scope HA). split; [apply Hblocked; by exists i|].
    cbn. split_and!; [done..|]. intros k [Hk Hb]%live_of_blocking. destruct (proj1 (proj2 says_blocking k) Hb) as [Hin Howe].
    apply elem_of_scope_blockers in Hin as [Hin _]. split_and!; [done| |done]. by apply says_scope_key.
Qed.

Lemma says_placed i : i ∈ scope → dict_get (approvals s) (issue_key i) = Some true → placed facts held set i.
Proof.
  intros Hi Ha. pose proof (answered_sorted HA) as Hs.
  destruct (sorted_either _ _ _ _ _ Hs _ Ha) as [[g Eg]|[x Ex]].
  - destruct (sorted_gap _ _ _ _ _ Hs _ _ Eg) as (Hne & _ & r & Hr & Er). exists r. split; [done|]. right.
    rewrite <-Er. destruct (says_split i g Hi Eg); [left|right]; by split.
  - destruct (sorted_closed _ _ _ _ _ Hs _ _ Ex) as (Hin & _ & r & Hr & Eo). exists r. split; [done|]. left.
    split; [done|]. rewrite (answered_closed HA). assert (x = i) as ->.
    { apply says_member in Hi. pose proof (dict_of_rows scope) as [Hnd _]. rewrite <-(answered_ms HA) in Hnd.
      apply (dict_get_NoDup _ _ _ Hnd) in Hin, Hi. congruence. }
    apply list_elem_of_fmap. exists (issue_key i, i). split; [done|]. by apply dict_get_elem.
Qed.

Lemma says_unresolved k : k ∈ unresolved set ↔
  ∃ i, dict_get facts k = Some i ∧ is_criterion i = true ∧ is_open (state_kind i) = true.
Proof.
  destruct (answered_gap HA) as (g & Eg & ->). apply (scope_gap_unresolved facts held g k); [|done].
  apply (answered_facts HA).
Qed.

Lemma says_owed k g : dict_get (open_gaps s) k = Some g → unresolved set ≠ [].
Proof.
  intros (i & _ & _ & _ & _ & _ & Hne & r & Hr & ->)%says_candidate. destruct (open_of r) as [|c l] eqn:E; [done|].
  destruct (roster_open_fact facts held k r c Hr) as (Hc & Ho & j & Hj); [rewrite E; left|].
  intros Hu. assert (j ∈ unresolved set) as Hin by (apply says_unresolved; by exists c).
  rewrite Hu in Hin. by apply elem_of_nil in Hin.
Qed.

Lemma says_rest : unresolved set = [] → ready_lanes_of set = [] ∧ blocked_of_scope set = [].
Proof.
  intros Hu. destruct says_complete as (_ & _ & Hblocked & _). split; apply elem_of_nil_inv.
  - intros lane (e & _ & _ & Eg & _)%says_lanes. by apply says_owed in Eg.
  - intros e. rewrite (answered_blocked HA). intros (i & Hi & Hc & _)%Hblocked.
    destruct (says_entry i Hi Hc) as (g & Eg & _). by apply says_owed in Eg.
Qed.
End says.

(** C10. The ready set of a scope. An answer rests on the plan, the trees and the approvals,
    all of which read the same again at its end. Its facts are the rows of the trees read of
    the members that no other member holds, all of them and nothing else, and they hold the
    plan's members as they were read. Its ready lanes are members that are lanes, approved,
    owe the open criteria beneath them, at least one, and are blocked by no member that
    owes. Every member that is a lane is in its place: unapproved; or, once approved, closed
    when no criterion beneath it is open, else ready, or blocked on members that owe. What
    the scope owes is every open criterion of the facts, those a lane is fired for included,
    so a scope that reports nothing unresolved has no lane ready or blocked. *)
Theorem ready_set_sound (set : ScopeReadySet)
    (H : read_scope_ready board_size stage ref reads = Some (Ok set)) :
  ∃ plan facts,
    (_read_plan board_size stage ref (plan_read reads) = Some (Ok plan)
     ∧ _read_plan board_size stage ref (plan_reread reads) = Some (Ok plan) ∧ scope_of set = plan_scope plan)
    ∧ facts_read set facts
    ∧ (∀ i, i ∈ issues (scope_of set) → dict_get facts (issue_key i) = Some i)
    ∧ (∀ lane, lane ∈ ready_lanes_of set → ready_for facts (held_read set facts) set lane)
    ∧ (∀ i, i ∈ issues (scope_of set) → lane_member i →
         ∃ a, approval_read reads (issue_key i) = Ok a ∧ approval_reread reads (issue_key i) = Ok a
           ∧ if a then placed facts (held_read set facts) set i else issue_key i ∈ unapproved set)
    ∧ (∀ k, k ∈ unresolved set ↔
         ∃ i, dict_get facts k = Some i ∧ is_criterion i = true ∧ is_open (state_kind i) = true)
    ∧ (unresolved set = [] → ready_lanes_of set = [] ∧ blocked_of_scope set = []).
Proof.
  apply read_scope_ready_answered in H as (plan & ms & facts & held & s & b & topology & HA).
  destruct (answered_reads _ _ _ _ _ _ _ _ HA) as [Hfacts Hheld].
  exists plan, facts. rewrite <-Hheld. rewrite (answered_scope HA). split_and!; try done.
  - apply (answered_plan HA).
  - apply (answered_again HA).
  - intros i. apply (says_fact _ _ _ _ _ _ _ _ HA).
  - intros lane. apply (says_ready _ _ _ _ _ _ _ _ HA).
  - intros i Hi Hl. destruct (says_asked _ _ _ _ _ _ _ _ HA i Hi Hl) as (a & Ea & ? & ?). exists a. split_and!; [done..|].
    destruct a; [by eapply says_placed|by eapply says_unapproved].
  - apply (says_unresolved _ _ _ _ _ _ _ _ HA).
  - apply (says_rest _ _ _ _ _ _ _ _ HA).
Qed.
End answer.
