(* ===== verification/ScopeEnds.v ===== *)
(** * When reading a ready set ends.

    Over a board of finitely many issues every loop of [read_scope_ready] ends, but for
    one: the closure's walk does not on facts whose parentage is a cycle. Each subtree is
    checked for that alone, so a board that moves between two subtrees' reads can yield
    such facts; the last example is one. *)

From S2P Require Import Sha256 BaseResolution LaneRecord LaneEntry.
From S2P Require Import Prelude PyStr Tracker Errors FireSpec Gap Dispatch Topology Criteria Lapse CrossOff.
From S2P Require Import FireCriteria IssueTree ScopeWalker ScopeReady.

Local Open Scope nat_scope.

Lemma bind_ends {A B} (m : looping A) (f : A → looping B) :
  m ≠ None → (∀ a, m = Some (Ok a) → f a ≠ None) → (m ≫= f) ≠ None.
Proof. unfold mbind, looping_bind. destruct m as [[a|e]|]; [|done..]. intros _ H. by apply H. Qed.

Lemma straight_ends {A} (r : result exn A) : straight r ≠ None.
Proof. done. Qed.

Lemma foldL_ends {A B} (P : A → Prop) (f : A → B → looping A) l a :
  (∀ a b, b ∈ l → P a → f a b ≠ None ∧ ∀ a', f a b = Some (Ok a') → P a') → P a → foldL f a l ≠ None.
Proof.
  revert a. induction l as [|b l IH]; intros a Hf Ha; cbn [foldL]; [done|].
  destruct (Hf a b (list_elem_of_here _ _) Ha) as [H1 H2]. apply bind_ends; [done|]. intros a' Ea.
  apply IH; [|by apply H2]. intros a0 b0 Hb0. apply Hf. by right.
Qed.

(** ** Boards of finitely many issues *)

Section ends.
Context (B : gset string).

(** The board [B] answers for its own issues alone. *)
Record bounded (tracker : ScopePlanReader) : Prop := {
  bounded_members ref ms : read_scope_members (plan_members tracker) ref = Ok ms → ∀ k, k ∈ dict_keys ms → k ∈ B;
  bounded_planning k i : read_planning_issue tracker k = Ok i → k ∈ B;
}.

Definition within (d : members) : Prop := ∀ k, k ∈ dict_keys d → k ∈ B.

Lemma within_set d k i : within d → k ∈ B → within (dict_set d k i).
Proof. intros Hd Hk j [->|Hj]%elem_of_dict_set_keys; auto. Qed.

Lemma subtrees_within tracker ref ms subtree : bounded tracker → within ms →
  read_member_subtrees (plan_members tracker) ref ms = Ok subtree → within subtree.
Proof.
  intros Hb Hms. unfold read_member_subtrees. intros (t & Et & H)%bind_ok. apply raise_if_ok in H as [_ [= <-]].
  revert Et. apply (foldM_invariant within); [|by intros k ?%elem_of_nil].
  intros d m d' _ Hd. unfold add_rooted. case_decide; [by intros [= <-]|].
  intros (rooted & Er & [= <-])%bind_ok. pose proof (bounded_members _ Hb _ _ Er) as Hr. clear Er.
  assert (∀ l, (∀ ki, ki ∈ l → ki.1 ∈ B) → ∀ d, within d →
    within (foldl (λ t (ki : string * TrackerIssue), dict_set t ki.1 (default ki.2 (dict_get ms ki.1))) d l)) as Hgo.
  { intros l. induction l as [|ki l IH]; intros Hl d1 Hd1; [done|]. cbn. apply IH; [intros; apply Hl; by right|].
    apply within_set; [done|]. apply Hl. left. }
  apply Hgo; [|done]. intros ki Hki. apply Hr. by apply list_elem_of_fmap_2.
Qed.

Definition known (d : members) : nat := size (list_to_set (dict_keys d) : gset string).

Lemma known_within d : within d → known d ≤ size B.
Proof. intros Hd. unfold known. apply subseteq_size. intros k Hk%elem_of_list_to_set. by apply Hd. Qed.

Lemma known_set d k i : k ∉ dict_keys d → known (dict_set d k i) = S (known d).
Proof.
  intros Hk. unfold known. rewrite dict_set_keys, decide_False by done.
  rewrite list_to_set_app, size_union by set_solver. rewrite (size_list_to_set (C := gset string) [k]) by apply NoDup_singleton.
  cbn. lia.
Qed.

Lemma add_dependencies_known tracker ref subtree keys facts pending facts' pending' :
  bounded tracker → within subtree → within facts →
  foldM (add_dependency tracker ref subtree) (facts, pending) keys = Ok (facts', pending') →
  within facts' ∧ length pending' + known facts = length pending + known facts'.
Proof.
  intros Hb Hsub. revert facts pending. induction keys as [|k keys IH]; intros facts pending Hf; cbn [foldM].
  { by intros [= <- <-]. }
  unfold add_dependency at 1. cbn [fst snd]. unfold dict_mem. case_bool_decide as Hk; [by apply IH|].
  assert (∀ dep, k ∈ B → foldM (add_dependency tracker ref subtree) (dict_set facts k dep, dep :: pending) keys
      = Ok (facts', pending') → within facts' ∧ length pending' + known facts = length pending + known facts') as Hnext.
  { intros dep HkB Hrest. destruct (IH _ _ (within_set _ _ dep Hf HkB) Hrest) as [? Hlen]. split; [done|].
    rewrite known_set in Hlen by done. cbn in Hlen. lia. }
  destruct (dict_get subtree k) as [i|] eqn:Es.
  { cbn. apply Hnext, Hsub, dict_get_is_Some. by eexists. }
  destruct (read_planning_issue tracker k) as [i|e] eqn:Ep; cbn; [|done].
  case_bool_decide; cbn; [|done]. apply Hnext. by eapply bounded_planning.
Qed.

Lemma close_dependencies_ends tracker ref subtree fuel facts pending :
  bounded tracker → within subtree → within facts → length pending + (size B - known facts) ≤ fuel →
  close_dependencies fuel tracker ref subtree facts pending ≠ None.
Proof.
  intros Hb Hsub. revert facts pending. induction fuel as [|fuel IH]; intros facts [|i pending] Hf Hl;
    cbn [close_dependencies]; try done; cbn [length] in Hl; [lia|].
  destruct (foldM _ _ (blocker_keys i)) as [[f' p']|e] eqn:E; [|done].
  destruct (add_dependencies_known _ _ _ _ _ _ _ _ Hb Hsub Hf E) as [Hf' Hlen]. apply IH; [done|].
  pose proof (known_within _ Hf'). pose proof (known_within _ Hf). lia.
Qed.

Lemma plan_topology_ends issues candidates blocking : plan_topology issues candidates blocking ≠ None.
Proof.
  unfold plan_topology. destruct (index_snapshot issues ≫= _) as [by_key|e] eqn:E; [|done].
  pose proof (plan_topology_incomplete issues candidates blocking) as Hi.
  pose proof (plan_topology_complete issues candidates blocking) as Hc. unfold plan_topology in Hi, Hc. rewrite E in Hi, Hc.
  assert (snapshot_complete issues candidates blocking) as Hs.
  { apply bind_ok in E as (d & Ed & E). apply bind_ok in E as ([] & Ec & [= <-]).
    apply index_snapshot_ok in Ed as [Hnd ->]. by apply check_snapshot_ok. }
  destruct (Hc Hs) as [(keys & -> & _)|(eff & _ & ->)]; done.
Qed.

Context (board_size : nat) (Hsize : size B ≤ board_size).

Lemma read_facts_ends ref tracker : bounded tracker → _read_scope_facts board_size ref tracker ≠ None.
Proof.
  intros Hb. unfold _read_scope_facts. apply bind_ends; [done|]. intros u _. apply bind_ends; [done|].
  intros ms Ems%straight_ok. apply bind_ends; [done|]. intros subtree Es%straight_ok.
  assert (within ms) as Hms by (intros k; by apply (bounded_members _ Hb _ _ Ems)).
  assert (within subtree) as Hsub by (case_decide; [by injection Es as <-|by eapply subtrees_within]).
  pose proof (read_scope_members_keyed _ _ _ Ems) as [Hnd _].
  apply bind_ends; [|done]. apply close_dependencies_ends; [done..|].
  assert (known ms = length ms) as Ek.
  { unfold known. rewrite size_list_to_set by done. unfold dict_keys. by rewrite length_fmap. }
  pose proof (known_within _ Hms). rewrite length_reverse. unfold dict_values. rewrite length_fmap. lia.
Qed.

Lemma read_plan_ends stage ref tracker : bounded tracker → _read_plan board_size stage ref tracker ≠ None.
Proof.
  intros Hb. unfold _read_plan. destruct stage.
  - apply bind_ends; [by apply read_facts_ends|]. intros [snapshot subtree] _. cbv zeta.
    apply bind_ends; [done|]. intros crossing _. apply bind_ends; [done|]. intros u _.
    apply bind_ends; [apply plan_topology_ends|done].
  - apply bind_ends; [by apply read_facts_ends|]. intros s _. apply bind_ends; [apply plan_topology_ends|done].
Qed.

Lemma index_ends root rows ref : index_issue_tree root rows ref ≠ None.
Proof.
  unfold index_issue_tree. pose proof (index_rows root ref rows) as H. unfold mbind, looping_bind, straight.
  destruct (foldM (index_row root ref) ([], []) rows) as [[f c]|e]; [|done]. destruct H as (-> & [Hnd Hp] & Hc).
  destruct (dict_get (keyed_rows rows) root) as [top|] eqn:Etop; [|done].
  destruct (top_issue _ _ _ Hnd Etop) as [Hin Ek].
  assert (root ∈ issue_key <$> rows) as Hroot by by (rewrite <-Ek; apply list_elem_of_fmap_2).
  destruct (visit_searched root ref rows c Hnd Hroot Hc (S (length (keyed_rows rows))) ∅ [root]) as (v & -> & _);
    [by eapply searched_start|unfold keyed_rows; rewrite length_fmap; lia|done].
Qed.

Lemma read_tree_ends stage root ref tracker : bounded tracker → _read_tree board_size stage root ref tracker ≠ None.
Proof. intros Hb. apply bind_ends; [by apply read_plan_ends|]. intros tree _. apply index_ends. Qed.
End ends.

(** ** The whole reading *)

Section whole.
Context (B : gset string) (board_size : nat) (Hsize : size B ≤ board_size).
Context (stage : bool) (ref : ScopeRef) (reads : Readings).

Record board_bounded : Prop := {
  board_plan : bounded B (plan_read reads) ∧ bounded B (plan_reread reads);
  board_trees k : bounded B (tree_read reads k) ∧ bounded B (tree_reread reads k);
}.

Definition grounded (facts : facts_t) : Prop := ∀ k p, reach facts k p → ¬ under facts k p.

Section closed.
Context (facts : facts_t) (held : list string) (ms : members) (Hfacts : keyed facts) (Hg : grounded facts).
Context (Hms : ∀ k i, (k, i) ∈ ms → dict_get facts k = Some i).
Notation closure := (make_closure facts ref held).

Lemma read_ends read m k : true_readings facts held m → k ∈ dict_keys facts →
  gap_or_roster closure read m k ≠ None.
Proof.
  intros Hm Hk. apply bind_ends; [|done]. intros E. destruct Hfacts as [Hnd Hkd].
  pose proof (walk_reads facts ref held Hnd Hkd m k Hm Hk) as H. rewrite E in H. apply H. intros p. apply Hg.
Qed.

Lemma sort_members_ends s : sorted_so_far reads facts held [] s → foldL (sort_member reads closure) s ms ≠ None.
Proof.
  intros Hs. assert (true_readings facts held (memo s)) as Hm by apply Hs. clear Hs.
  apply (foldL_ends (λ s, true_readings facts held (memo s))); [|done]. clear s Hm.
  intros s [k i] Hin Hm. pose proof (member_fact facts ms Hms _ _ Hin) as Hk. unfold sort_member.
  destruct (is_criterion i); [split; [done|by intros s' <-%loop_ret_ok]|].
  destruct (is_record i).
  - case_decide; [|split; [done|by intros s' <-%loop_ret_ok]]. split.
    + apply bind_ends; [by apply read_ends|done].
    + intros s' ([m' r] & Er & <-%loop_ret_ok)%loop_bind_ok. cbn. by apply (roster_ok ref facts held Hfacts) in Er as [? _].
  - split.
    + apply bind_ends; [done|]. intros [] _; [|done]. apply bind_ends; [by apply read_ends|done].
    + intros s' ([] & _ & H)%loop_bind_ok; [|by apply loop_ret_ok in H as <-].
      apply loop_bind_ok in H as ([m' g] & Eg & <-%loop_ret_ok).
      apply (gap_ok ref facts held Hfacts) in Eg as [? _]; [|done..]. by case_decide.
Qed.

Lemma still_blocking_ends l m : true_readings facts held m → (∀ k, k ∈ l → k ∈ dict_keys facts) →
  foldL (still_blocking closure) (m, ∅) l ≠ None.
Proof.
  intros Hm Hl. apply (foldL_ends (λ s, true_readings facts held s.1)); [|done]. intros s k Hk Ht. unfold still_blocking. split.
  - apply bind_ends; [|done]. apply bind_ends; [by apply read_ends, Hl|done].
  - intros s' ([m' c] & Ec & <-%loop_ret_ok)%loop_bind_ok. unfold is_closed in Ec.
    apply loop_bind_ok in Ec as ([m1 g] & Eg & [= <- <-]%loop_ret_ok). cbn.
    by apply (gap_ok ref facts held Hfacts) in Eg as [? _]; [| |apply Hl].
Qed.

Lemma ready_lanes_ends gaps m entries : true_readings facts held m →
  (∀ k g, dict_get gaps k = Some g → k ∈ dict_keys facts) → foldL (ready_lane closure gaps) (m, []) entries ≠ None.
Proof.
  intros Hm Hgaps. apply (foldL_ends (λ s, true_readings facts held s.1)); [|done]. intros s e _ Ht. unfold ready_lane.
  destruct (dict_get gaps (issue_key (ready_issue e))) as [g|] eqn:Eg; [|done]. apply Hgaps in Eg. split.
  - apply bind_ends; [done|]. intros x _. apply bind_ends; [by apply read_ends|done].
  - intros s' (x & _ & ([m' r] & Er & <-%loop_ret_ok)%loop_bind_ok)%loop_bind_ok. cbn.
    by apply (roster_ok ref facts held Hfacts) in Er as [? _].
Qed.
End closed.

(** C14. Over a board of finitely many issues the reading of a ready set always ends, with
    as much fuel for the blockers as the board has issues, unless the subtrees that were
    read, put together, make some issue its own descendant. *)
Theorem ready_set_ends (Hb : board_bounded)
    (Hg : ∀ plan facts trees, _read_plan board_size stage ref (plan_read reads) = Some (Ok plan) →
            let ms := dict_of (keyed_rows (issues (plan_scope plan))) in
            foldL (add_tree board_size stage ref reads ms) (ms, []) ms = Some (Ok (facts, trees)) → grounded facts) :
  read_scope_ready board_size stage ref reads ≠ None.
Proof.
  destruct Hb as [[Hplan Hplan'] Htrees]. unfold read_scope_ready. apply bind_ends; [done|]. intros u0 _.
  apply bind_ends; [by apply (read_plan_ends B)|]. intros plan Eplan. specialize (Hg plan).
  set (ms := dict_of _) in *. apply bind_ends.
  { apply (foldL_ends (λ _, True)); [|done]. intros s [k i] _ _. split; [|done]. unfold add_tree.
    destruct (match parent_key _ with Some p => _ | None => false end); [done|].
    apply bind_ends; [by apply (read_tree_ends B); [|apply Htrees]|]. intros tree _. by apply bind_ends. }
  intros [facts trees] Efacts. apply bind_ends; [done|]. intros u1 _. set (held := held_keys stage ms facts).
  pose proof (add_tree_facts board_size stage ref reads ms _ (dict_of_rows _) Efacts) as [Hfacts _ Hinc _ _ _].
  cbn [fst] in Hfacts, Hinc. specialize (Hg facts trees Eplan Efacts).
  assert (∀ k i, (k, i) ∈ ms → dict_get facts k = Some i) as Hms.
  { intros k i Hin. apply Hinc, dict_get_NoDup; [apply dict_of_rows|done]. }
  apply bind_ends; [by apply sort_members_ends, sorted_start|]. intros s Es.
  pose proof (members_sorted reads ref facts held ms Hfacts Hms _ _ Es (sorted_start _ _ _)) as Hs.
  assert (∀ k, k ∈ scope_blockers ms (open_gaps s) → k ∈ dict_keys facts) as Hsb.
  { intros k (Hk & _)%elem_of_scope_blockers. apply dict_keys_get in Hk as (i & Hin & _). by eapply member_fact. }
  apply bind_ends; [by apply still_blocking_ends; [..|apply Hs|]|]. intros b Eb.
  apply (blocking_sorted ref facts held Hfacts _ _ _ Hsb) in Eb as [Hm _]; [|apply Hs].
  apply bind_ends; [apply plan_topology_ends|]. intros topology _. apply bind_ends.
  { apply (foldL_ends (λ _, True)); [|done]. intros [] kt _ _. split; [|done]. apply bind_ends; [|done].
    apply (read_tree_ends B); [done|apply Htrees]. }
  intros u2 _. apply bind_ends; [by apply (read_plan_ends B)|]. intros plan' _. apply bind_ends; [done|]. intros u3 _.
  apply bind_ends.
  { apply (foldL_ends (λ _, True)); [|done]. intros [] ka _ _. split; [|done]. by apply bind_ends. }
  intros u4 _. apply bind_ends; [done|]. intros g _.
  apply bind_ends; [|intros lanes _; by apply bind_ends]. apply ready_lanes_ends; [done..|].
  intros k g' Eg'. destruct (sorted_gap _ _ _ _ _ Hs k g' Eg') as (_ & Ha & _).
  destruct (sorted_approval _ _ _ _ _ Hs k true Ha) as (_ & i & Hin & _). by eapply member_fact.
Qed.
End whole.

(** ** A scope of four lanes: one blocked, one closed *)

Definition lane_issue_of (key : string) (parent : option string) (blockers : list string) : TrackerIssue := {|
  issue_key := key; title := key; body := ""; priority := NONE; state_name := ""; state_kind := STARTED;
  queue_states := ∅; issue_labels := ∅; team_key := Some "T"; project := None; project_id := None;
  milestone_key := None; relations := (λ k, {| relation_kind := BLOCKED_BY; relation_issue_key := k |}) <$> blockers;
  parent_key := parent; assignee_key := None; created_at := 0; updated_at := 0; url := "" |}.

Definition criterion_of (key parent : string) (kind : WorkflowStateKind) : TrackerIssue :=
  tree_issue key (Some parent) {[ "criterion" ]} kind.

Definition reader_of (scoped : ScopeRef → list TrackerIssue) (criteria : string → list TrackerIssue) : ScopePlanReader := {|
  plan_members := {| scope_issues r := Ok (scoped r); read_criteria k := Ok (criteria k);
                     read_fire_subject k := Err (KeyError k) |};
  require_scope_plan_reads := Ok tt;
  read_planning_issue k := Err (KeyError k) |}.

Definition sample_scoped (r : ScopeRef) : list TrackerIssue :=
  if decide (r = sample_ref) then
    [lane_issue_of "L" None []; lane_issue_of "M" (Some "L") []; lane_issue_of "N" (Some "L") ["M"];
     lane_issue_of "P" (Some "L") []]
  else [].

Definition sample_criteria (k : string) : list TrackerIssue :=
  default [] (dict_get [("L", [criterion_of "c1" "L" UNSTARTED]); ("M", [criterion_of "c2" "M" UNSTARTED]);
                        ("N", [criterion_of "c3" "N" UNSTARTED]); ("P", [criterion_of "c4" "P" COMPLETED])] k).

Definition sample_reader : ScopePlanReader := reader_of sample_scoped sample_criteria.

Definition sample_reads : Readings := {|
  require_issue_classification_reads := Ok tt; plan_read := sample_reader; tree_read _ := sample_reader;
  approval_read k := Ok true; tree_reread _ := sample_reader; plan_reread := sample_reader;
  approval_reread k := Ok true |}.

Definition sample_board : gset string := {[ "L"; "M"; "N"; "P"; "c1"; "c2"; "c3"; "c4" ]}.

(** What an answer shows. *)
Definition shown (r : looping ScopeReadySet) : list (list string) :=
  match r with
  | Some (Ok set) => [issue_key ∘ lane_issue <$> ready_lanes_of set; blocked_issue_key <$> blocked_of_scope set;
                      issue_key <$> closed_members set; unresolved set]
  | _ => []
  end.

Example sample_shown :
  shown (read_scope_ready 8 true sample_ref sample_reads) = [["L"; "M"]; ["N"]; ["P"]; ["c1"; "c2"; "c3"]].
Proof. by vm_compute. Qed.

Lemma sample_bounded : bounded sample_board sample_reader.
Proof.
  split; [|done]. intros r ms. unfold read_scope_members. cbn [plan_members sample_reader reader_of scope_issues].
  unfold sample_scoped. case_decide as Hr; [|by intros [= <-] k ?%elem_of_nil].
  intros E. vm_compute in E. injection E as <-. intros k Hk. cbn in Hk. clear Hr.
  repeat (apply elem_of_cons in Hk as [->|Hk]; [by apply (bool_decide_unpack _)|]). by apply elem_of_nil in Hk.
Qed.

Definition sample_facts : list TrackerIssue :=
  [lane_issue_of "L" None []; lane_issue_of "M" (Some "L") []; lane_issue_of "N" (Some "L") ["M"];
   lane_issue_of "P" (Some "L") []; criterion_of "c1" "L" UNSTARTED; criterion_of "c2" "M" UNSTARTED;
   criterion_of "c3" "N" UNSTARTED; criterion_of "c4" "P" COMPLETED].

Lemma sample_rooted : rooted_tree "L" sample_facts.
Proof.
  assert (beneath "L" sample_facts "L") as HL by constructor.
  assert (∀ i p, i ∈ sample_facts → issue_key i ≠ "L" → parent_key i = Some p → beneath "L" sample_facts p →
    beneath "L" sample_facts (issue_key i)) as Hc by (intros i p Hi Hne; by eapply beneath_child).
  assert (Forall (λ k, beneath "L" sample_facts k) ["L"; "M"; "N"; "P"]) as Hlanes.
  { repeat constructor.
    - apply (Hc (lane_issue_of "M" (Some "L") []) "L"); [by repeat (left || right)|done..].
    - apply (Hc (lane_issue_of "N" (Some "L") ["M"]) "L"); [by repeat (left || right)|done..].
    - apply (Hc (lane_issue_of "P" (Some "L") []) "L"); [by repeat (left || right)|done..]. }
  assert (∀ k, k ∈ ["L"; "M"; "N"; "P"] → beneath "L" sample_facts k) as Hin by by apply Forall_forall.
  split; [by apply (bool_decide_unpack _)|left|..].
  - apply Forall_forall. unfold sample_facts at 2. repeat constructor;
      first [by apply Hin; repeat (left || right)
            |eapply Hc; [by repeat (left || right)|done|reflexivity|apply Hin; by repeat (left || right)]].
  - intros i p Hi Hk. unfold sample_facts in Hi.
    repeat (apply elem_of_cons in Hi as [->|Hi]; [by vm_compute in Hk|]). by apply elem_of_nil in Hi.
Qed.

Lemma sample_grounded : grounded (keyed_rows sample_facts).
Proof.
  intros k p Hp Hk. assert (k ∈ issue_key <$> sample_facts) as Hin.
  { rewrite <-keyed_rows_keys. eapply under_there; [|apply keyed_rows_keyed|exact Hk].
    rewrite keyed_rows_keys. apply sample_rooted. }
  by apply (rooted_grounded "L" sample_facts sample_rooted k p).
Qed.

Example ready_set_ends_witness :
  read_scope_ready 8 true sample_ref sample_reads ≠ None
  ∧ shown (read_scope_ready 8 true sample_ref sample_reads) = [["L"; "M"]; ["N"]; ["P"]; ["c1"; "c2"; "c3"]].
Proof.
  split; [|by vm_compute]. apply (ready_set_ends sample_board 8).
  - by vm_compute; lia.
  - split; [split|intros k; split]; apply sample_bounded.
  - intros plan facts trees Eplan ms Efacts. vm_compute in Eplan. injection Eplan as <-.
    vm_compute in ms. subst ms.
    vm_compute in Efacts. injection Efacts as <- _. apply sample_grounded.
Defined.

Example ready_set_sound_witness :
  ∃ set, read_scope_ready 8 true sample_ref sample_reads = Some (Ok set)
    ∧ ∃ facts, facts_read 8 true sample_ref sample_reads set facts ∧ length (ready_lanes_of set) = 2
      ∧ ∀ lane, lane ∈ ready_lanes_of set → ready_for sample_reads facts (held_read true set facts) set lane.
Proof.
  destruct (read_scope_ready 8 true sample_ref sample_reads) as [[set|e]|] eqn:E;
    [|by exfalso; pose proof sample_shown as H; rewrite E in H..].
  exists set. split; [done|].
  pose proof (ready_set_sound 8 true sample_ref sample_reads set E) as (plan & facts & _ & Hfacts & _ & Hlanes & _).
  exists facts. split; [exact Hfacts|]. split; [|exact Hlanes]. pose proof sample_shown as H. rewrite E in H. cbn in H.
  injection H as H _ _ _. apply (f_equal length) in H. by rewrite length_fmap in H.
Defined.

(** ** Two subtrees read apart, whose parentage is a cycle

    [A] hangs under [X], [X] under [B], [B] under [Y], [Y] under [A]. Each tree alone is
    one: the tree read under [A] has [Y] and not [B], the tree under [B] has [X] and not
    [A]. The facts put together have no top, and the walk over them never ends. *)

Definition cycle_ref : ScopeRef := {| scope_kind := PROJECT; scope_key := "project" |}.

Definition cycle_scoped (r : ScopeRef) : list TrackerIssue :=
  let A := lane_issue_of "A" (Some "X") [] in
  let X := lane_issue_of "X" (Some "B") [] in
  let B := lane_issue_of "B" (Some "Y") [] in
  let Y := lane_issue_of "Y" (Some "A") [] in
  if decide (r = cycle_ref) then [A; B]
  else if decide (scope_key r = "A") then [A; Y] else [B; X].

Definition cycle_criteria (k : string) : list TrackerIssue := [criterion_of ("c" +:+ k) k UNSTARTED].

Definition cycle_reader : ScopePlanReader := reader_of cycle_scoped cycle_criteria.

Definition cycle_reads : Readings := {|
  require_issue_classification_reads := Ok tt; plan_read := cycle_reader; tree_read _ := cycle_reader;
  approval_read k := Ok true; tree_reread _ := cycle_reader; plan_reread := cycle_reader;
  approval_reread k := Ok true |}.

Definition cycle_facts : facts_t := keyed_rows
  [lane_issue_of "A" (Some "X") []; lane_issue_of "B" (Some "Y") []; criterion_of "cA" "A" UNSTARTED;
   criterion_of "cB" "B" UNSTARTED; lane_issue_of "Y" (Some "A") []; criterion_of "cY" "Y" UNSTARTED;
   lane_issue_of "X" (Some "B") []; criterion_of "cX" "X" UNSTARTED].

Definition refusable (facts : facts_t) (k : string) : bool :=
  match dict_get facts k with
  | Some i => if is_criterion i then negb (bool_decide (below facts k = []))
              else is_record i || bool_decide (filter (λ c, is_criterion c = true) (below facts k) = [])
  | None => false
  end.

Lemma refuses_refusable facts ref held k e : refuses facts ref held k e → refusable facts k = true.
Proof.
  unfold refusable. intros [k' i Hi Hc Hb|k' i Hi Hc Hr _ _|k' i Hi [Hc _] Hb]; rewrite Hi, Hc.
  - by rewrite bool_decide_eq_false_2.
  - by rewrite Hr.
  - apply orb_true_iff. right. apply bool_decide_eq_true, elem_of_nil_inv. intros c [Hcc Hin]%list_elem_of_filter.
    apply Hb in Hin. congruence.
Qed.

(** Every read is answered and every tree accepted; the closure of the facts is what fails
    to end, however long it runs. *)
Lemma cycle_diverges :
  (∃ trees, (plan ← _read_plan 8 true cycle_ref cycle_reader;
     let ms := dict_of (keyed_rows (issues (plan_scope plan))) in
     foldL (add_tree 8 true cycle_ref cycle_reads ms) (ms, []) ms) = Some (Ok (cycle_facts, trees)))
  ∧ read_scope_ready 8 true cycle_ref cycle_reads = None
  ∧ ∀ fuel, walk_loop (make_closure cycle_facts cycle_ref []) fuel no_readings [("A", false)] = None.
Proof.
  split; [eexists; by vm_compute|]. split; [by vm_compute|]. intros fuel.
  assert (NoDup (dict_keys cycle_facts)) as Hnd by by apply (bool_decide_unpack _).
  assert (∀ c p, bool_decide (c ∈ issue_key <$> below cycle_facts p) = true → under cycle_facts c p) as Hu.
  { intros c p (i & -> & Hi)%bool_decide_eq_true%list_elem_of_fmap. by exists i. }
  apply (cycle_never_ends cycle_facts cycle_ref [] Hnd (keyed_rows_keyed _) no_readings "A" "X").
  - apply true_no_readings.
  - left.
  - eapply (rtc_l _ _ "Y"); [by apply Hu; vm_compute|]. eapply (rtc_l _ _ "B"); [by apply Hu; vm_compute|].
    eapply (rtc_l _ _ "X"); [by apply Hu; vm_compute|]. apply rtc_refl.
  - by apply Hu; vm_compute.
  - intros k e _ Hr%refuses_refusable.
    assert (∀ j, j ∈ dict_keys cycle_facts → refusable cycle_facts j = false) as Hno.
    { apply Forall_forall. apply (bool_decide_unpack _). by vm_compute. }
    destruct (decide (k ∈ dict_keys cycle_facts)) as [Hk|Hk]; [by rewrite (Hno k Hk) in Hr|].
    apply dict_get_None in Hk. unfold refusable in Hr. by rewrite Hk in Hr.
Qed.
