(* ===== verification/LoopBoard.v ===== *)
(** * The native loop over the board it was entered from.

    The loop ([RalphLoop]) reads the board through a port; [FireCriteria] is what the
    fire's criteria source answers through it. Composed, they tell what an accepted run
    means for the subject's subtree at the moment [run] returns. *)

From S2P Require Import Prelude PyStr Tracker Errors FireSpec Criteria Lapse Grading CrossOff.
From S2P Require Import Trajectory Redispatch Amendment RalphLoop RalphLoopSpec FireCriteria.

Lemma held_roster_keys l k :
  k ∈ held_keys (held_roster l) ↔ ∃ t, Tracked t ∈ l ∧ tracked_id t = k.
Proof.
  assert (∀ t, t ∈ omap (λ c, match c with Tracked t => Some t | Validated _ => None end) l
    ↔ Tracked t ∈ l) as Hin.
  { intros t. rewrite list_elem_of_omap. split; [by intros ([] & ? & [= <-])|].
    intros ?. by exists (Tracked t). }
  assert (k ∈ held_keys (held_roster l) ↔ k ∈ tracked_id <$>
    omap (λ c, match c with Tracked t => Some t | Validated _ => None end) l) as ->.
  { unfold held_roster. destruct (omap _ l); [|by rewrite held_keys_elem].
    cbn. by rewrite elem_of_empty, elem_of_nil. }
  rewrite list_elem_of_fmap. setoid_rewrite Hin. naive_solver.
Qed.

(** Every criterion a barrier selects is in what it answers. *)
Lemma current_lists tracker spec held current :
  read_current tracker spec held = Ok current →
  ∃ criteria, read_subtree_criteria tracker (spec_subject spec) = Ok criteria
    ∧ (∀ k, k ∈ spec_criteria spec → k ∈ dict_keys criteria)
    ∧ ∀ k i, (k, i) ∈ criteria → owes (held_keys held) k i = true →
        ∃ t, t ∈ current ∧ tracked_id t = k
          ∧ criterion_check i (spec_subject spec) = Ok (tracked_text t).
Proof.
  intros (criteria & Hread & Hnamed & Ho)%read_current_ok. exists criteria. do 2 (split; [done|]).
  destruct (read_subtree_criteria_ok _ _ _ Hread) as [Hk _].
  apply owed_ok in Ho as (checks & Hc & _ & ->). intros k i Hi Howes.
  assert ((k, i) ∈ filter (λ ki, owes (held_keys held) ki.1 ki.2 = true) (sorted_items criteria))
    as [n Hn]%list_elem_of_lookup by (apply list_elem_of_filter; by rewrite sorted_items_elem).
  destruct (Forall2_lookup_l _ _ _ _ _ Hc Hn) as ([k' c] & Hkc & [Ek Ec]). cbn in Ek, Ec. subst k'.
  exists {| tracked_id := k; tracked_text := c |}. split; [|done].
  apply (roster_elem _ _ _ _ _ _ Hk Hc). exists i. split; [done|]. by split.
Qed.

Section over_board.
Context (self : RalphLoop) (ctx : RalphLoopContext) (tracker : SubjectReader).

(** C25. An accepted native run, over the board it left. When the graph ended with its
    gate cleared and [run] returned past a barrier that read the subject's subtree, the
    loop branch is still the head the receipt names, the subtree still holds every
    criterion the spec names, and each of its criteria that is unstarted at that moment,
    or finished and part of the roster the run was given, was demonstrated at that head
    by the last evaluation, or earlier in this run by a pass that still counts there. *)
Theorem accepted_over_board h c a spec b effs' :
  reached self ctx h c → tracker_spec ctx = Some spec → running c = true →
  let c' := advance self ctx c a in
  at_node c' = At END → gate_cleared (loop_verdict (loop_state c')) = true →
  amendment_blocked (loop_state c') = false →
  finish_board b = read_current tracker spec →
  finish self ctx (trace c') (outcome (loop_state c')) b = (effs', Ok tt) →
  ∃ head criteria,
    _resolve self (finish_head b) = Ok head
    ∧ read_subtree_criteria tracker (spec_subject spec) = Ok criteria
    ∧ (∀ k, k ∈ spec_criteria spec → k ∈ dict_keys criteria)
    ∧ ∀ k i, (k, i) ∈ criteria →
        state_kind i = OWED_CRITERION_STATE
        ∨ state_kind i = HELD_CRITERION_STATE
          ∧ (∃ t, Tracked t ∈ acceptance_criteria ctx ∧ tracked_id t = k) →
        demonstrated_by self (evaluation_of a) head k
        ∨ ∃ y a0, still_counts ctx (loop_state c) head y ∧ criterion y = k
            ∧ a0 ∈ h ∧ demonstrated_in self ctx (evaluation_of a0) (graded_sha (evidence y)) k.
Proof.
  intros Hre Hspec Hrun. cbv zeta. intros Hat Hclear Hb Hboard Hfin.
  destruct (acceptance_earned self ctx h c a spec Hre Hspec Hrun Hat Hclear Hb)
    as (head & snapshot & event & Hout & _ & Hall). rewrite Hout in Hfin.
  apply (finish_evaluated _ _ _ _ _ _ _ _ _ Hspec) in Hfin as (current & Hcur & Hros & Hhead).
  apply list_fmap_eq_inj in Hros as ->; [|by intros ?? [= ->]].
  rewrite Hboard in Hcur. destruct (current_lists _ _ _ _ Hcur) as (criteria & Hread & Hnamed & Hsel).
  exists head, criteria. do 3 (split; [done|]). intros k i Hi Hst.
  destruct (Hsel k i Hi) as (t & Ht & <- & _); [|by apply Hall].
  apply owes_iff. destruct Hst as [|[Hk (t & Ht & <-)]]; [by left|right]. split; [done|].
  unfold _held. apply held_roster_keys. exists t. split; [|done]. apply elem_of_app. by left.
Qed.
End over_board.

(** ** A run accepted in one round, over a board where its cross-offs arrived *)

Definition crossed_off (key check : string) : TrackerIssue := {|
  issue_key := key; title := key; body := "**Check:** " +:+ check; priority := NONE;
  state_name := ""; state_kind := COMPLETED; queue_states := ∅; issue_labels := {["criterion"]};
  team_key := None; project := None; project_id := None; milestone_key := None; relations := [];
  parent_key := Some "K-9"; assignee_key := None; created_at := 0; updated_at := 0; url := "";
|}.

Definition sample_board : SubjectReader := {|
  scope_issues := λ _, Ok [plain_issue "K-9" STARTED];
  read_criteria := λ _, Ok [crossed_off "K-2" "b"; crossed_off "K-1" "a"];
  read_fire_subject := λ _, Ok (plain_issue "K-9" STARTED);
|}.

Definition board_barrier : FinishAnswers := {|
  finish_board := read_current sample_board RalphLoopSpec.sample_spec;
  finish_cached := Ok tt; finish_head := Ok "c1" |}.

Lemma accepted_over_board_witness :
  ∃ head, _resolve sample_loop (finish_head board_barrier) = Ok head ∧ head = "c1".
Proof.
  destruct (accepted_over_board sample_loop sample_ctx sample_board [passing_round]
    sample_executed passing_round RalphLoopSpec.sample_spec board_barrier [] executed_reached)
    as (head & criteria & Hhead & _).
  1,2: by vm_compute.
  1,2,3: by vm_compute.
  - reflexivity.
  - by vm_compute.
  - exists head. split; [exact Hhead|]. cbn in Hhead. by injection Hhead.
Defined.
