(* ===== verification/JobQueue.v ===== *)
(** * The job queue and its registry (adapters/job_registry.py, asyncio_job_queue.py).

    One value is the whole queue: its lanes with their workers, the registry's
    records in submission order, the requests not yet taken, one replay stream per
    job, and the evictions scheduled. A transition is what the code does between
    two awaits: [handle] maps a label (a submission, a worker taking a job, a
    frame, the end of a run, an eviction firing, a reader attaching or reading, the
    two halves of [stop]) to the queue after it and the exception the code raises,
    or to [None] where the label is not enabled. The engine is the labels' source,
    so a run yields any frames and ends in any way. Job ids come from [uuid4]: a
    submission's id is one that occurs nowhere in the queue. *)

From S2P Require Import BaseResolution.
From S2P Require Import Prelude PyStr Tracker Errors Outcome.

(** ** Settings (config/job_queue.py) *)

Record JobQueueSettings := {
  max_concurrent_runs_per_lane : nat;
  max_depth_per_lane : nat;
  event_buffer_capacity : nat;
}.

(** ** Frames and replay streams *)

(** The frames a run yields, told apart as far as the queue does. *)
Inductive AgentEvent :=
| WorkflowCompleteEvent (outcome : WorkflowOutcome)
| ScopeTerminalEvent (outcome : WorkflowOutcome)
| ErrorEvent (error_kind : string)
| OtherEvent (payload : string).

(** [_JobStream]: the bounded deque, each subscriber's queue, the closed flag. *)
Record JobStream := {
  capacity : nat;
  buffer : list AgentEvent;
  subscribers : pydict nat (list (option AgentEvent));
  stream_closed : bool;
}.

Definition new_stream (capacity : nat) : JobStream :=
  {| capacity := capacity; buffer := []; subscribers := []; stream_closed := false |}.

(** Appending to a [deque(maxlen=...)] drops from the left what does not fit. *)
Definition deque_append {A} (maxlen : nat) (b : list A) (x : A) : list A :=
  drop (S (length b) - maxlen) (b ++ [x]).

Definition put_all (item : option AgentEvent) (subs : pydict nat (list (option AgentEvent))) :
    pydict nat (list (option AgentEvent)) := (λ kq, (kq.1, kq.2 ++ [item])) <$> subs.

(** The stream after a frame, and whether the oldest was evicted for it. *)
Definition stream_publish (s : JobStream) (event : AgentEvent) : JobStream * bool :=
  ({| capacity := capacity s; buffer := deque_append (capacity s) (buffer s) event;
      subscribers := put_all (Some event) (subscribers s); stream_closed := stream_closed s |},
   bool_decide (length (buffer s) = capacity s)).

Definition stream_close (s : JobStream) : JobStream :=
  {| capacity := capacity s; buffer := buffer s; subscribers := put_all None (subscribers s);
     stream_closed := true |}.

Definition discard_buffer (s : JobStream) : JobStream * nat :=
  ({| capacity := capacity s; buffer := []; subscribers := subscribers s;
      stream_closed := stream_closed s |}, length (buffer s)).

(** A reader in [stream()]: what is left of the replay it snapshotted, its queue
    when the stream was open, what it has yielded, and whether it returned. *)
Record reader := {
  replay : list AgentEvent;
  subscription : option nat;
  yielded : list AgentEvent;
  returned : bool;
}.

(** The first [__anext__]: snapshot the buffer, subscribe if the stream is open. *)
Definition stream_open (s : JobStream) (id : nat) : JobStream * reader :=
  if stream_closed s then
    (s, {| replay := buffer s; subscription := None; yielded := []; returned := false |})
  else
    ({| capacity := capacity s; buffer := buffer s; subscribers := subscribers s ++ [(id, [])];
        stream_closed := stream_closed s |},
     {| replay := buffer s; subscription := Some id; yielded := []; returned := false |}).

(** One further [__anext__]; [None] when it waits, or the reader has returned. *)
Definition stream_next (s : JobStream) (r : reader) : option (JobStream * reader) :=
  if returned r then None
  else match replay r with
  | e :: rest => Some (s, {| replay := rest; subscription := subscription r;
                             yielded := yielded r ++ [e]; returned := false |})
  | [] =>
      let finished := {| replay := []; subscription := subscription r;
                         yielded := yielded r; returned := true |} in
      match subscription r with
      | None => Some (s, finished)
      | Some id =>
          match dict_get (subscribers s) id with
          | Some (Some e :: q) =>
              Some ({| capacity := capacity s; buffer := buffer s;
                       subscribers := dict_set (subscribers s) id q;
                       stream_closed := stream_closed s |},
                    {| replay := []; subscription := Some id;
                       yielded := yielded r ++ [e]; returned := false |})
          | Some (None :: _) =>
              Some ({| capacity := capacity s; buffer := buffer s;
                       subscribers := dict_pop (subscribers s) id;
                       stream_closed := stream_closed s |}, finished)
          | _ => None
          end
      end
  end.

(** ** Records (types/domain/job.py) and the registry (adapters/job_registry.py) *)

Inductive JobState := QUEUED | RUNNING | TERMINAL.
#[export] Instance JobState_eq_dec : EqDecision JobState.
Proof. solve_decision. Defined.

Record JobRecord := {
  job_id : string;
  lane : string;
  job_state : JobState;
  queue_position : option nat;
  submitted_at : Z;
  job_scope : option ScopeRef;
  job_outcome : option WorkflowOutcome;
  truncated : bool;
}.

Notation registry := (pydict string JobRecord).

Definition registry_get (records : registry) (id : string) : option JobRecord :=
  dict_get records id.

Definition live_for_scope (records : registry) (scope : ScopeRef) : list JobRecord :=
  filter (λ r, job_scope r = Some scope ∧ job_state r ≠ TERMINAL) (dict_values records).

Definition registry_add (records : registry) (r : JobRecord) : registry :=
  dict_set records (job_id r) r.

Definition amend (records : registry) (id : string) (change : JobRecord → JobRecord) :
    result exn registry :=
  match dict_get records id with
  | Some r => Ok (dict_set records id (change r))
  | None => Err (KeyError id)
  end.

Definition forget (records : registry) (id : string) : registry := dict_pop records id.

Definition registry_open (records : registry) : list JobRecord :=
  filter (λ r, job_state r ≠ TERMINAL) (dict_values records).

(** The copies [amend] makes. *)
Definition set_position (p : option nat) (r : JobRecord) : JobRecord := {|
  job_id := job_id r; lane := lane r; job_state := job_state r; queue_position := p;
  submitted_at := submitted_at r; job_scope := job_scope r; job_outcome := job_outcome r;
  truncated := truncated r |}.
Definition set_running (r : JobRecord) : JobRecord := {|
  job_id := job_id r; lane := lane r; job_state := RUNNING; queue_position := None;
  submitted_at := submitted_at r; job_scope := job_scope r; job_outcome := job_outcome r;
  truncated := truncated r |}.
Definition set_terminal (outcome : option WorkflowOutcome) (r : JobRecord) : JobRecord := {|
  job_id := job_id r; lane := lane r; job_state := TERMINAL; queue_position := None;
  submitted_at := submitted_at r; job_scope := job_scope r; job_outcome := outcome;
  truncated := truncated r |}.
Definition set_truncated (r : JobRecord) : JobRecord := {|
  job_id := job_id r; lane := lane r; job_state := job_state r;
  queue_position := queue_position r; submitted_at := submitted_at r;
  job_scope := job_scope r; job_outcome := job_outcome r; truncated := true |}.

(** ** The queue *)

(** Where a worker task stands. [Reporting] is the error path between the log and
    the error frame, [Finishing] the point before [_finish], [Closing] the point
    after it, before the evictions are scheduled. [Died] is a task that ended with a
    [CancelledError] its engine raised: no one takes its place. *)
Inductive worker :=
| Idle
| Running (job : string) (outcome : option WorkflowOutcome)
| Reporting (job : string) (event : AgentEvent) (outcome : WorkflowOutcome)
| Finishing (job : string) (outcome : option WorkflowOutcome)
| Closing (job : string)
| Died (job : string)
| Cancelled (job : option string).

Record Lane := { lane_queue : list string; pending : list string; workers : list worker }.

Inductive eviction := DropBuffer (job : string) | DropRecord (job : string).
#[export] Instance eviction_eq_dec : EqDecision eviction.
Proof. solve_decision. Defined.
Definition evicted (e : eviction) : string :=
  match e with DropBuffer j | DropRecord j => j end.


(** types/domain/session.py *)
Inductive PermissionMode := INTERACTIVE | ACCEPT_EDITS | PLAN | UNATTENDED.
Inductive ToolPreset := EVALUATION | DELEGATED_EVALUATION | AUTHORING | IMPLEMENTATION.
Definition AllowedTools : Type := ToolPreset + list string.

(** types/domain/workflow.py; the queue itself reads its scope alone. *)
Record WorkflowSubmission := {
  prompt : string;
  submission_issue_key : option string;
  submission_repo_path : option string;
  submission_repo_url : option string;
  base_spec : BaseSpec;
  implied_base : option BaseSpec;
  submission_scope : option ScopeRef;
  permission_mode : PermissionMode;
  allowed_tools : AllowedTools;
}.

Record JobQueue := {
  lanes : gmap string Lane;
  records : registry;
  requests : gmap string WorkflowSubmission;
  streams : gmap string JobStream;
  evictions : list eviction;
  accepting : bool;
}.

Definition set_lane (q : JobQueue) (name : string) (l : Lane) : JobQueue := {|
  lanes := <[name := l]> (lanes q); records := records q; requests := requests q;
  streams := streams q; evictions := evictions q; accepting := accepting q |}.
Definition set_records (q : JobQueue) (rs : registry) : JobQueue := {|
  lanes := lanes q; records := rs; requests := requests q;
  streams := streams q; evictions := evictions q; accepting := accepting q |}.
Definition set_stream (q : JobQueue) (id : string) (s : JobStream) : JobQueue := {|
  lanes := lanes q; records := records q; requests := requests q;
  streams := <[id := s]> (streams q); evictions := evictions q; accepting := accepting q |}.
Definition set_evictions (q : JobQueue) (es : list eviction) : JobQueue := {|
  lanes := lanes q; records := records q; requests := requests q;
  streams := streams q; evictions := es; accepting := accepting q |}.

Section ops.
Context (cfg : JobQueueSettings).

Definition new_lane : Lane := {|
  lane_queue := []; pending := [];
  workers := replicate (max_concurrent_runs_per_lane cfg) Idle |}.

Definition _ensure_lane (q : JobQueue) (name : string) : JobQueue * Lane :=
  match lanes q !! name with
  | Some l => (q, l)
  | None => (set_lane q name new_lane, new_lane)
  end.

(** [asyncio.Queue.full]: a [maxsize] of zero never is. *)
Definition queue_full (l : Lane) : bool :=
  (0 <? max_depth_per_lane cfg) && (max_depth_per_lane cfg <=? length (lane_queue l)).

(** Up to the log line: the queue after it, and the refusal or the record. *)
Definition submit (q : JobQueue) (name : string) (request : WorkflowSubmission)
    (id : string) (now : Z) : JobQueue * result exn JobRecord :=
  if negb (accepting q) then (q, Err (QueueFullError name None))
  else
    let '(q, runtime) := _ensure_lane q name in
    let record := {|
      job_id := id; lane := name; job_state := QUEUED;
      queue_position := Some (length (pending runtime) + 1); submitted_at := now;
      job_scope := submission_scope request; job_outcome := None; truncated := false |} in
    if queue_full runtime then
      (q, Err (QueueFullError name (Some (max_depth_per_lane cfg))))
    else
      ({| lanes := <[name := {| lane_queue := lane_queue runtime ++ [id];
                                pending := pending runtime ++ [id];
                                workers := workers runtime |}]> (lanes q);
          records := registry_add (records q) record;
          requests := <[id := request]> (requests q);
          streams := <[id := new_stream (event_buffer_capacity cfg)]> (streams q);
          evictions := evictions q; accepting := accepting q |}, Ok record).

(** [list.remove]: the first occurrence; the caller tested membership. *)
Fixpoint remove_first (x : string) (l : list string) : list string :=
  match l with
  | [] => []
  | y :: l => if decide (y = x) then l else y :: remove_first x l
  end.

Fixpoint _reindex (position : nat) (pending : list string) (rs : registry) : registry :=
  match pending with
  | [] => rs
  | id :: pending =>
      let rs := match dict_get rs id with
                | Some r => if decide (job_state r = QUEUED)
                            then dict_set rs id (set_position (Some position) r) else rs
                | None => rs
                end in
      _reindex (S position) pending rs
  end.

Definition put_worker (l : Lane) (i : nat) (w : worker) : Lane :=
  {| lane_queue := lane_queue l; pending := pending l; workers := <[i := w]> (workers l) |}.

(** A worker takes the head of its lane's queue and runs to [job_started]. *)
Definition start_job (q : JobQueue) (name : string) (l : Lane) (i : nat) (id : string)
    (rest : list string) : result exn JobQueue :=
  let pending' := remove_first id (pending l) in
  let l' := {| lane_queue := rest; pending := pending';
               workers := <[i := Running id None]> (workers l) |} in
  rs ← amend (_reindex 1 pending' (records q)) id set_running;
  match requests q !! id with
  | None => Err (KeyError id)
  | Some _ => Ok {| lanes := <[name := l']> (lanes q); records := rs;
                    requests := delete id (requests q); streams := streams q;
                    evictions := evictions q; accepting := accepting q |}
  end.

Definition _publish (q : JobQueue) (id : string) (event : AgentEvent) : result exn JobQueue :=
  match streams q !! id with
  | None => Err (KeyError id)
  | Some s =>
      let '(s', dropped) := stream_publish s event in
      let q := set_stream q id s' in
      if negb dropped then Ok q
      else match dict_get (records q) id with
           | None => Err (KeyError id)
           | Some r => if truncated r then Ok q
                       else rs ← amend (records q) id set_truncated; Ok (set_records q rs)
           end
  end.

(** What a terminal frame says of the run. *)
Definition event_outcome (event : AgentEvent) (outcome : option WorkflowOutcome) :
    option WorkflowOutcome :=
  match event with
  | WorkflowCompleteEvent o | ScopeTerminalEvent o => Some o
  | _ => outcome
  end.

Definition _finish (q : JobQueue) (id : string) (outcome : option WorkflowOutcome) :
    result exn JobQueue :=
  rs ← amend (records q) id (set_terminal outcome);
  match streams q !! id with
  | None => Err (KeyError id)
  | Some s => Ok (set_stream (set_records q rs) id (stream_close s))
  end.

Definition _drop_buffer_later (q : JobQueue) (id : string) : result exn JobQueue :=
  match streams q !! id with
  | None => Ok q
  | Some s =>
      let '(s', dropped) := discard_buffer s in
      let q := set_stream q id s' in
      if decide (dropped = 0) then Ok q
      else match dict_get (records q) id with
           | Some r => if truncated r then Ok q
                       else rs ← amend (records q) id set_truncated; Ok (set_records q rs)
           | None => Ok q
           end
  end.

Definition _drop_record_later (q : JobQueue) (id : string) : JobQueue := {|
  lanes := lanes q; records := forget (records q) id; requests := requests q;
  streams := delete id (streams q); evictions := evictions q; accepting := accepting q |}.

(** Cancelling a worker leaves it holding what it held, and moving no more. *)
Definition cancel (w : worker) : worker :=
  match w with
  | Running j _ | Reporting j _ _ | Finishing j _ | Died j => Cancelled (Some j)
  | Cancelled j => Cancelled j
  | Idle | Closing _ => Cancelled None
  end.

Definition stop_begin (q : JobQueue) : JobQueue := {|
  lanes := (λ l, {| lane_queue := lane_queue l; pending := pending l;
                    workers := cancel <$> workers l |}) <$> lanes q;
  records := records q; requests := requests q; streams := streams q;
  evictions := []; accepting := false |}.

Definition abandon (q : JobQueue) (r : JobRecord) : result exn JobQueue :=
  rs ← amend (records q) (job_id r) (set_terminal (Some shutdown_abandoned));
  let q := set_records q rs in
  Ok (match streams q !! job_id r with
      | Some s => set_stream q (job_id r) (stream_close s)
      | None => q
      end).

Definition stop_finish (q : JobQueue) : result exn JobQueue :=
  let q := {|
    lanes := (λ l, {| lane_queue := lane_queue l; pending := []; workers := [] |}) <$> lanes q;
    records := records q; requests := requests q; streams := streams q;
    evictions := []; accepting := accepting q |} in
  foldM abandon q (registry_open (records q)).

(** ** Transitions *)

Inductive label :=
| Submit (name : string) (request : WorkflowSubmission) (id : string) (now : Z)
| Start (name : string) (i : nat)
| Frame (name : string) (i : nat) (event : AgentEvent)
| EngineEnds (name : string) (i : nat)
| EngineFails (name : string) (i : nat) (error_kind : string)
| EngineCancels (name : string) (i : nat)
| DeadlineExpires (name : string) (i : nat)
| Report (name : string) (i : nat)
| Finish (name : string) (i : nat)
| Schedule (name : string) (i : nat)
| BufferEviction (id : string)
| RecordEviction (id : string)
| Attach (id : string) (sub : nat)
| StopBegin
| StopFinish.

Definition worker_at (q : JobQueue) (name : string) (i : nat) : option (Lane * worker) :=
  l ← lanes q !! name; w ← workers l !! i; Some (l, w).

(** Every mention of a job id in the queue. *)
Definition mentions (w : worker) : option string :=
  match w with
  | Running j _ | Reporting j _ _ | Finishing j _ | Died j | Closing j => Some j
  | Cancelled j => j
  | Idle => None
  end.
Definition occurs (q : JobQueue) (id : string) : bool :=
  dict_mem (records q) id || bool_decide (is_Some (requests q !! id))
  || bool_decide (is_Some (streams q !! id))
  || bool_decide (id ∈ evicted <$> evictions q)
  || bool_decide (map_Exists (λ _ l, id ∈ lane_queue l ∨ id ∈ pending l
       ∨ id ∈ omap mentions (workers l)) (lanes q)).

(** Move worker [i] to [w] once the operation succeeded. *)
Definition advance (r : result exn JobQueue) (name : string) (i : nat) (w : worker) :
    option (result exn JobQueue) :=
  Some (q ← r; Ok (match lanes q !! name with
                   | Some l => set_lane q name (put_worker l i w)
                   | None => q
                   end)).

Definition handle (q : JobQueue) (lb : label) : option (result exn JobQueue) :=
  match lb with
  | Submit name request id now =>
      if occurs q id then None
      else match submit q name request id now with
           | (q', Ok _) => Some (Ok q')
           | (q', Err e) => Some (Ok q')   (* the caller is refused with [e] *)
           end
  | Start name i =>
      match worker_at q name i with
      | Some (l, Idle) =>
          match lane_queue l with
          | id :: rest => Some (start_job q name l i id rest)
          | [] => None
          end
      | _ => None
      end
  | Frame name i event =>
      match worker_at q name i with
      | Some (_, Running id outcome) =>
          advance (_publish q id event) name i (Running id (event_outcome event outcome))
      | _ => None
      end
  | EngineEnds name i =>
      match worker_at q name i with
      | Some (_, Running id outcome) => advance (Ok q) name i (Finishing id outcome)
      | _ => None
      end
  | EngineFails name i error_kind =>
      match worker_at q name i with
      | Some (_, Running id _) =>
          advance (Ok q) name i (Reporting id (ErrorEvent error_kind) engine_error)
      | _ => None
      end
  | EngineCancels name i =>
      match worker_at q name i with
      | Some (_, Running id _) => advance (Ok q) name i (Died id)
      | _ => None
      end
  | DeadlineExpires name i =>
      match worker_at q name i with
      | Some (_, Running id _) =>
          advance (Ok q) name i (Reporting id (ErrorEvent "TimeoutError") job_timed_out)
      | _ => None
      end
  | Report name i =>
      match worker_at q name i with
      | Some (_, Reporting id event outcome) =>
          advance (_publish q id event) name i (Finishing id (Some outcome))
      | _ => None
      end
  | Finish name i =>
      match worker_at q name i with
      | Some (_, Finishing id outcome) => advance (_finish q id outcome) name i (Closing id)
      | _ => None
      end
  | Schedule name i =>
      match worker_at q name i with
      | Some (_, Closing id) =>
          advance (Ok (set_evictions q (evictions q ++ [DropBuffer id; DropRecord id])))
            name i Idle
      | _ => None
      end
  | BufferEviction id =>
      if decide (DropBuffer id ∈ evictions q)
      then Some (_drop_buffer_later (set_evictions q
             (filter (λ e, e ≠ DropBuffer id) (evictions q))) id)
      else None
  | RecordEviction id =>
      if decide (DropRecord id ∈ evictions q)
      then Some (Ok (_drop_record_later (set_evictions q
             (filter (λ e, e ≠ DropRecord id) (evictions q))) id))
      else None
  | Attach id sub =>
      match streams q !! id with
      | None => Some (Err (KeyError id))
      | Some s =>
          if decide (sub ∈ dict_keys (subscribers s)) then None
          else Some (Ok (set_stream q id (stream_open s sub).1))
      end
  | StopBegin => if accepting q then Some (Ok (stop_begin q)) else None
  | StopFinish => if accepting q then None else Some (stop_finish q)
  end.

(** [start] opened the dispatcher and spawned the default lane. *)
Definition initial (default_lane : string) : JobQueue := {|
  lanes := {[ default_lane := new_lane ]}; records := []; requests := ∅; streams := ∅;
  evictions := []; accepting := true |}.

Inductive reachable (default_lane : string) : JobQueue → Prop :=
| reach_init : reachable default_lane (initial default_lane)
| reach_step q lb q' :
    reachable default_lane q → handle q lb = Some (Ok q') → reachable default_lane q'.
End ops.

(** ** Readings of the registry *)

(** The jobs waiting on a lane, in submission order. *)
Definition queued_on (name : string) (rs : registry) : list string :=
  (filter (λ kv, job_state kv.2 = QUEUED ∧ lane kv.2 = name) rs).*1.

(** The job a worker is running. *)
Definition holding (w : worker) : option string :=
  match w with
  | Running j _ | Reporting j _ _ | Finishing j _ | Died j => Some j
  | Cancelled j => j
  | Idle | Closing _ => None
  end.

Lemma queued_on_elem name rs id :
  NoDup (dict_keys rs) →
  id ∈ queued_on name rs ↔
  ∃ r, dict_get rs id = Some r ∧ job_state r = QUEUED ∧ lane r = name.
Proof.
  intros Hnd. unfold queued_on. rewrite list_elem_of_fmap. split.
  - intros ([k r] & -> & [[Hs Hl] Hin]%list_elem_of_filter). exists r. cbn in *.
    split; [by apply dict_get_NoDup|done].
  - intros (r & Hr & Hs & Hl). exists (id, r). split; [done|].
    apply list_elem_of_filter. split; [done|]. by apply dict_get_elem.
Qed.

Lemma queued_on_NoDup name rs : NoDup (dict_keys rs) → NoDup (queued_on name rs).
Proof. apply NoDup_fmap_filter. Qed.

(** Replacing a record by one that waits exactly where it did. *)
Lemma queued_on_same name rs id r r' :
  dict_get rs id = Some r → job_state r = job_state r' → lane r = lane r' →
  queued_on name (dict_set rs id r') = queued_on name rs.
Proof.
  unfold queued_on. induction rs as [|[k x] rs IH]; [done|]. cbn [dict_get dict_set].
  case_decide as Hk.
  - intros [= ->] Hs Hl. rewrite !filter_cons. cbn [snd]. rewrite <-Hs, <-Hl. subst k.
    by case_decide.
  - intros Hr Hs Hl. rewrite !filter_cons. case_decide; [|by apply IH].
    rewrite !fmap_cons. f_equal. by apply IH.
Qed.

(** Replacing a record by one that no longer waits. *)
Lemma queued_on_leave name rs id r' :
  NoDup (dict_keys rs) → is_Some (dict_get rs id) → job_state r' ≠ QUEUED →
  queued_on name (dict_set rs id r') = filter (λ j, j ≠ id) (queued_on name rs).
Proof.
  unfold queued_on. induction rs as [|[k x] rs IH]; [by intros _ []|].
  cbn [dict_get dict_set]. intros Hnd Hin Hs. cbn in Hnd. rewrite NoDup_cons in Hnd.
  destruct Hnd as [Hk Hnd]. case_decide as Hkid.
  - subst k. rewrite !filter_cons. cbn [snd]. rewrite decide_False by tauto.
    assert (filter (λ j, j ≠ id) (filter (λ kv : string * JobRecord,
      job_state kv.2 = QUEUED ∧ lane kv.2 = name) rs).*1 =
      (filter (λ kv : string * JobRecord, job_state kv.2 = QUEUED ∧ lane kv.2 = name) rs).*1)
      as Hf.
    { clear -Hk. induction rs as [|[j y] rs IH]; [done|]. cbn in Hk.
      rewrite not_elem_of_cons in Hk. destruct Hk as [Hj Hk]. rewrite filter_cons.
      case_decide; [|by apply IH]. rewrite fmap_cons, filter_cons. cbn [fst].
      rewrite decide_True by done. f_equal. by apply IH. }
    case_decide; [|by rewrite Hf].
    rewrite fmap_cons, filter_cons. cbn [fst]. by rewrite decide_False, Hf by tauto.
  - rewrite !filter_cons. case_decide; [|by apply IH].
    rewrite !fmap_cons, filter_cons. cbn [fst]. rewrite decide_True by done. f_equal.
    by apply IH.
Qed.

(** A new record at the end. *)
Lemma queued_on_add name rs id r :
  id ∉ dict_keys rs →
  queued_on name (dict_set rs id r)
  = queued_on name rs ++ (if decide (job_state r = QUEUED ∧ lane r = name) then [id] else []).
Proof.
  intros Hid. rewrite dict_set_fresh by done. unfold queued_on.
  rewrite filter_app, fmap_app. f_equal. rewrite filter_cons. cbn [snd]. by case_decide.
Qed.

(** Forgetting a record that does not wait. *)
Lemma queued_on_forget name rs id :
  NoDup (dict_keys rs) → (∀ r, dict_get rs id = Some r → job_state r ≠ QUEUED) →
  queued_on name (dict_pop rs id) = queued_on name rs.
Proof.
  intros Hnd Hq. unfold queued_on, dict_pop. f_equal.
  rewrite list_filter_filter. apply filter_ext_in. intros [k r] Hin. cbn.
  split; [tauto|]. intros [Hs Hl]. split; [done|]. intros ->.
  by apply (Hq r); [apply dict_get_NoDup|].
Qed.

Lemma dict_set_keys_present {V} (d : pydict string V) k v :
  is_Some (dict_get d k) → dict_keys (dict_set d k v) = dict_keys d.
Proof.
  intros Hk%dict_get_is_Some. rewrite dict_set_keys. by rewrite decide_True by done.
Qed.

(** ** Reindexing *)

Lemma reindex_keys k pend rs : dict_keys (_reindex k pend rs) = dict_keys rs.
Proof.
  revert k rs; induction pend as [|j pend IH]; intros k rs; [done|]. cbn [_reindex].
  rewrite IH. destruct (dict_get rs j) as [r|] eqn:E; [|done]. case_decide; [|done].
  by apply dict_set_keys_present.
Qed.

Lemma reindex_queued name k pend rs : queued_on name (_reindex k pend rs) = queued_on name rs.
Proof.
  revert k rs; induction pend as [|j pend IH]; intros k rs; [done|]. cbn [_reindex].
  rewrite IH. destruct (dict_get rs j) as [r|] eqn:E; [|done]. case_decide; [|done].
  by eapply queued_on_same.
Qed.

Lemma reindex_get k pend rs id :
  NoDup pend →
  dict_get (_reindex k pend rs) id =
  match dict_get rs id with
  | Some r => Some (if decide (job_state r = QUEUED ∧ id ∈ pend)
                    then set_position (Some (k + index_of id pend)) r else r)
  | None => None
  end.
Proof.
  revert k rs; induction pend as [|j pend IH]; intros k rs Hnd; cbn [_reindex].
  { destruct (dict_get rs id); [|done]. rewrite decide_False; [done|].
    intros [_ H]. by apply not_elem_of_nil in H. }
  apply NoDup_cons in Hnd as [Hj Hnd]. rewrite IH by done. cbn [index_of].
  destruct (decide (j = id)) as [->|Hne].
  - destruct (dict_get rs id) as [r|] eqn:E; [|by rewrite E].
    destruct (decide (job_state r = QUEUED)) as [Hq|Hq].
    + rewrite dict_get_set_eq. rewrite decide_False by tauto.
      rewrite decide_True by (split; [done|by left]). by rewrite Nat.add_0_r.
    + rewrite E. rewrite !decide_False by tauto. done.
  - assert (dict_get (match dict_get rs j with
      | Some r => if decide (job_state r = QUEUED)
                  then dict_set rs j (set_position (Some k) r) else rs
      | None => rs end) id = dict_get rs id) as ->.
    { destruct (dict_get rs j) as [x|]; [|done].
      destruct (decide (job_state x = QUEUED)); [|done]. by apply dict_get_set_ne. }
    destruct (dict_get rs id) as [r|]; [|done]. f_equal.
    destruct (decide (job_state r = QUEUED ∧ id ∈ pend)) as [[Hq Hin]|Hn].
    + rewrite decide_True by (split; [done|by right]). f_equal. f_equal. lia.
    + rewrite decide_False; [done|]. intros [Hq [Heq|Hin]%elem_of_cons]; [congruence|tauto].
Qed.

Lemma index_of_lookup `{EqDecision A} (l : list A) i (x : A) :
  NoDup l → l !! i = Some x → index_of x l = i.
Proof.
  intros Hnd. revert i; induction l as [|y l IH]; intros i; [done|].
  apply NoDup_cons in Hnd as [Hy Hnd]. destruct i as [|i]; cbn.
  - intros [= ->]. by rewrite decide_True by done.
  - intros Hi. rewrite decide_False; [by rewrite (IH Hnd i)|].
    intros ->. apply Hy. by eapply list_elem_of_lookup_2.
Qed.

Lemma index_of_app_l `{EqDecision A} (l k : list A) (x : A) :
  x ∈ l → index_of x (l ++ k) = index_of x l.
Proof.
  induction l as [|y l IH]; [by intros ?%not_elem_of_nil|]. cbn.
  case_decide; [done|]. intros [?|Hx]%elem_of_cons; [congruence|]. by rewrite IH.
Qed.

Lemma omap_cons_eq {A B} (f : A → option B) x (l : list A) :
  omap f (x :: l) = match f x with Some y => y :: omap f l | None => omap f l end.
Proof. reflexivity. Qed.

Lemma elem_of_list_insert {A} (l : list A) i x y : x ∈ <[i := y]> l → x = y ∨ x ∈ l.
Proof.
  intros [j Hj]%list_elem_of_lookup.
  apply list_lookup_insert_Some in Hj as [(_ & -> & _)|[_ Hj]]; [by left|].
  right. by eapply list_elem_of_lookup_2.
Qed.

Lemma omap_insert_same {A B} (f : A → option B) (l : list A) i x y :
  l !! i = Some x → f y = f x → omap f (<[i := y]> l) = omap f l.
Proof.
  revert i; induction l as [|z l IH]; intros i; [done|]. destruct i as [|i].
  - intros [= ->] Hf. change (omap f (y :: l) = omap f (x :: l)). by rewrite !omap_cons_eq, Hf.
  - intros Hi Hf. change (omap f (z :: <[i := y]> l) = omap f (z :: l)).
    by rewrite !omap_cons_eq, (IH i Hi Hf).
Qed.

(** A worker that held nothing takes hold of a job. *)
Lemma omap_insert_hold {A B} (f : A → option B) (l : list A) i x y b :
  l !! i = Some x → f x = None → f y = Some b → omap f (<[i := y]> l) ≡ₚ b :: omap f l.
Proof.
  revert i; induction l as [|z l IH]; intros i; [done|]. destruct i as [|i].
  - intros [= ->] Hx Hy. change (omap f (y :: l) ≡ₚ b :: omap f (x :: l)).
    by rewrite !omap_cons_eq, Hx, Hy.
  - intros Hi Hx Hy. change (omap f (z :: <[i := y]> l) ≡ₚ b :: omap f (z :: l)).
    rewrite !omap_cons_eq. destruct (f z); rewrite (IH i Hi Hx Hy); [|done].
    apply Permutation_swap.
Qed.

(** ** The invariant *)

Section invariant.
Context (cfg : JobQueueSettings).

Record queue_inv (q : JobQueue) : Prop := {
  q_keys : NoDup (dict_keys (records q));
  q_ids : ∀ id r, dict_get (records q) id = Some r → job_id r = id;
  q_pending : ∀ name l, lanes q !! name = Some l →
    pending l = lane_queue l ∧ lane_queue l = queued_on name (records q);
  q_depth : ∀ name l, lanes q !! name = Some l → 0 < max_depth_per_lane cfg →
    length (lane_queue l) ≤ max_depth_per_lane cfg;
  q_workers : ∀ name l, lanes q !! name = Some l →
    length (workers l) = max_concurrent_runs_per_lane cfg
    ∧ NoDup (omap holding (workers l));
  q_cancelled : ∀ name l w, lanes q !! name = Some l → w ∈ workers l →
    (∃ j, w = Cancelled j) ↔ accepting q = false;
  q_position : ∀ id r, dict_get (records q) id = Some r →
    queue_position r = if decide (job_state r = QUEUED)
      then Some (S (index_of id (queued_on (lane r) (records q)))) else None;
  q_queued : ∀ id r, dict_get (records q) id = Some r → job_state r = QUEUED →
    is_Some (lanes q !! lane r);
  q_running : ∀ id r, dict_get (records q) id = Some r → job_state r = RUNNING →
    ∃ l, lanes q !! lane r = Some l ∧ id ∈ omap holding (workers l);
  q_held : ∀ name l id, lanes q !! name = Some l → id ∈ omap holding (workers l) →
    ∃ r, dict_get (records q) id = Some r ∧ job_state r = RUNNING ∧ lane r = name;
  q_closing : ∀ name l id r, lanes q !! name = Some l → Closing id ∈ workers l →
    dict_get (records q) id = Some r → job_state r = TERMINAL;
  q_evicted : ∀ e r, e ∈ evictions q → dict_get (records q) (evicted e) = Some r →
    job_state r = TERMINAL;
  q_requests : ∀ id, is_Some (requests q !! id) ↔
    ∃ r, dict_get (records q) id = Some r ∧ job_state r = QUEUED;
  q_streams : ∀ id, is_Some (streams q !! id) ↔ is_Some (dict_get (records q) id);
  q_stream : ∀ id s r, streams q !! id = Some s → dict_get (records q) id = Some r →
    (stream_closed s = true ↔ job_state r = TERMINAL) ∧ capacity s = event_buffer_capacity cfg;
}.

Lemma inv_worker q name l i w w' :
  lanes q !! name = Some l → workers l !! i = Some w → holding w' = holding w →
  (∀ j r, w' = Closing j → dict_get (records q) j = Some r → job_state r = TERMINAL) →
  ((∃ j, w' = Cancelled j) ↔ (∃ j, w = Cancelled j)) →
  queue_inv q → queue_inv (set_lane q name (put_worker l i w')).
Proof.
  intros Hl Hi Hh Hc Hcan Hinv.
  assert (omap holding (workers (put_worker l i w')) = omap holding (workers l)) as Hom
    by (by apply omap_insert_same with w).
  assert (∀ name' l', lanes (set_lane q name (put_worker l i w')) !! name' = Some l' →
    ∃ l0, lanes q !! name' = Some l0 ∧ lane_queue l' = lane_queue l0
      ∧ pending l' = pending l0 ∧ length (workers l') = length (workers l0)
      ∧ omap holding (workers l') = omap holding (workers l0)
      ∧ ∀ x, x ∈ workers l' → x ∈ workers l0 ∨ x = w') as Hlanes.
  { intros name' l'. cbn. rewrite lookup_insert_Some. intros [[<- <-]|[Hne Hl']].
    - exists l. split_and!; [done..|by cbn; rewrite length_insert|done|].
      intros x [?|?]%elem_of_list_insert; [by right|by left].
    - exists l'. split_and!; [done..|]. by left. }
  constructor; cbn [records requests streams evictions accepting set_lane]; try apply Hinv.
  - intros name' l' (l0 & Hl0 & -> & -> & _)%Hlanes. by apply (q_pending _ Hinv).
  - intros name' l' (l0 & Hl0 & -> & _)%Hlanes. by apply (q_depth _ Hinv name').
  - intros name' l' (l0 & Hl0 & _ & _ & -> & -> & _)%Hlanes. by apply (q_workers _ Hinv name').
  - intros name' l' x (l0 & Hl0 & _ & _ & _ & _ & Hw)%Hlanes Hx.
    destruct (Hw x Hx) as [Hx0| ->]; [by apply (q_cancelled _ Hinv name' l0)|].
    rewrite Hcan. apply (q_cancelled _ Hinv name l); [done|]. by eapply list_elem_of_lookup_2.
  - intros id r Hr Hq. cbn. rewrite lookup_insert_is_Some'. right.
    by apply (q_queued _ Hinv id).
  - intros id r Hr Hrun. destruct (q_running _ Hinv id r Hr Hrun) as (l0 & Hl0 & Hid).
    cbn. destruct (decide (name = lane r)) as [Heq|Hne].
    + exists (put_worker l i w'). rewrite <-Heq, lookup_insert_eq. split; [done|].
      rewrite Hom. assert (l = l0) as -> by congruence. done.
    + exists l0. by rewrite lookup_insert_ne.
  - intros name' l' id (l0 & Hl0 & _ & _ & _ & -> & _)%Hlanes. by apply (q_held _ Hinv).
  - intros name' l' id r (l0 & Hl0 & _ & _ & _ & _ & Hw)%Hlanes Hcl Hr.
    destruct (Hw _ Hcl) as [Hx0|Heq]; [by eapply (q_closing _ Hinv name' l0 id r)|].
    by eapply Hc.
Qed.

Lemma inv_stream q id s s' :
  streams q !! id = Some s → stream_closed s' = stream_closed s → capacity s' = capacity s →
  queue_inv q → queue_inv (set_stream q id s').
Proof.
  intros Hs Hcl Hcap Hinv. constructor; cbn; try apply Hinv.
  - intros id'. rewrite lookup_insert_is_Some'. rewrite <-(q_streams _ Hinv id').
    split; [intros [<-|?]; [by eexists|done]|by right].
  - intros id' x r. rewrite lookup_insert_Some. intros [[<- <-]|[_ Hx]] Hr.
    + rewrite Hcl, Hcap. by apply (q_stream _ Hinv id).
    + by apply (q_stream _ Hinv id').
Qed.

(** A record replaced by one standing where it stood. *)
Lemma inv_record q id r r' :
  dict_get (records q) id = Some r → job_id r' = job_id r → lane r' = lane r →
  job_state r' = job_state r → queue_position r' = queue_position r →
  queue_inv q → queue_inv (set_records q (dict_set (records q) id r')).
Proof.
  intros Hr Hid Hlane Hst Hpos Hinv.
  assert (∀ name, queued_on name (dict_set (records q) id r') = queued_on name (records q))
    as Hq by (intros name; by apply queued_on_same with r).
  assert (∀ id' x, dict_get (dict_set (records q) id r') id' = Some x →
    ∃ y, dict_get (records q) id' = Some y ∧ job_id x = job_id y ∧ lane x = lane y
      ∧ job_state x = job_state y ∧ queue_position x = queue_position y) as Hback.
  { intros id' x. rewrite dict_get_set. case_decide as Hk; [|by exists x].
    intros [= <-]. subst. by exists r. }
  assert (∀ id' y, dict_get (records q) id' = Some y →
    ∃ x, dict_get (dict_set (records q) id r') id' = Some x
      ∧ lane x = lane y ∧ job_state x = job_state y) as Hforth.
  { intros id' y Hy. rewrite dict_get_set. case_decide as Hk; [|by exists y].
    exists r'. subst. split; [done|]. split; congruence. }
  constructor; cbn [records requests streams evictions accepting lanes set_records];
    try apply Hinv.
  - rewrite dict_set_keys_present; [apply Hinv|by eexists].
  - intros id' x (y & Hy & -> & _)%Hback. by apply (q_ids _ Hinv).
  - intros name l Hl. rewrite Hq. by apply (q_pending _ Hinv).
  - intros id' x (y & Hy & _ & -> & -> & ->)%Hback. rewrite Hq. by apply (q_position _ Hinv).
  - intros id' x (y & Hy & _ & -> & -> & _)%Hback. by apply (q_queued _ Hinv id').
  - intros id' x (y & Hy & _ & -> & -> & _)%Hback. by apply (q_running _ Hinv).
  - intros name l id' Hl Hh. destruct (q_held _ Hinv _ _ _ Hl Hh) as (y & Hy & Hs & Hn).
    destruct (Hforth _ _ Hy) as (x & Hx & Hlx & Hsx). exists x. split; [done|]. split; congruence.
  - intros name l id' x Hl Hc (y & Hy & _ & _ & -> & _)%Hback.
    by eapply (q_closing _ Hinv).
  - intros e x He (y & Hy & _ & _ & -> & _)%Hback. by eapply (q_evicted _ Hinv).
  - intros id'. rewrite (q_requests _ Hinv id'). split.
    + intros (y & Hy & Hs). destruct (Hforth _ _ Hy) as (x & Hx & _ & Hsx).
      exists x. split; [done|congruence].
    + intros (x & (y & Hy & _ & _ & -> & _)%Hback & Hs). by exists y.
  - intros id'. rewrite (q_streams _ Hinv id'). split.
    + intros [y Hy]. destruct (Hforth _ _ Hy) as (x & Hx & _). by exists x.
    + intros [x (y & Hy & _)%Hback]. by exists y.
  - intros id' s x Hs (y & Hy & _ & _ & -> & _)%Hback. by apply (q_stream _ Hinv id').
Qed.

Lemma inv_evictions q es :
  (∀ e r, e ∈ es → dict_get (records q) (evicted e) = Some r → job_state r = TERMINAL) →
  queue_inv q → queue_inv (set_evictions q es).
Proof. intros Hes Hinv. constructor; cbn; try apply Hinv. exact Hes. Qed.

Lemma inv_ensure_lane q name :
  accepting q = true → queue_inv q →
  queue_inv (_ensure_lane cfg q name).1
  ∧ lanes (_ensure_lane cfg q name).1 !! name = Some (_ensure_lane cfg q name).2
  ∧ records (_ensure_lane cfg q name).1 = records q
  ∧ streams (_ensure_lane cfg q name).1 = streams q
  ∧ requests (_ensure_lane cfg q name).1 = requests q
  ∧ evictions (_ensure_lane cfg q name).1 = evictions q
  ∧ accepting (_ensure_lane cfg q name).1 = true
  ∧ ∀ name' l', lanes (_ensure_lane cfg q name).1 !! name' = Some l' →
      lanes q !! name' = Some l' ∨ l' = new_lane cfg.
Proof.
  intros Hacc Hinv. unfold _ensure_lane.
  destruct (lanes q !! name) as [l|] eqn:Hl; cbn [fst snd]; [split_and!; auto|].
  assert (omap holding (workers (new_lane cfg)) = []) as Hnone.
  { cbn. induction (max_concurrent_runs_per_lane cfg); [done|done]. }
  assert (queued_on name (records q) = []) as Hempty.
  { apply elem_of_nil_inv. intros id Hid.
    apply queued_on_elem in Hid as (r & Hr & Hq & Hn); [|apply Hinv].
    apply (q_queued _ Hinv id) in Hr; [|done]. rewrite Hn, Hl in Hr. by destruct Hr. }
  split_and!; cbn; try done; [|by rewrite lookup_insert_eq|].
  2:{ intros name' l'. rewrite lookup_insert_Some. intros [[_ <-]|[_ ?]]; auto. }
  constructor; cbn [records requests streams evictions accepting set_lane lanes];
    try apply Hinv.
  - intros name' l'. rewrite lookup_insert_Some. intros [[<- <-]|[_ Hl']].
    + by rewrite Hempty.
    + by apply (q_pending _ Hinv).
  - intros name' l'. rewrite lookup_insert_Some. intros [[<- <-]|[_ Hl']]; [cbn; lia|].
    by apply (q_depth _ Hinv name').
  - intros name' l'. rewrite lookup_insert_Some. intros [[<- <-]|[_ Hl']].
    + rewrite Hnone. split; [cbn; by rewrite length_replicate|constructor].
    + by apply (q_workers _ Hinv name').
  - intros name' l' w. rewrite lookup_insert_Some. intros [[<- <-]|[_ Hl']].
    + cbn. intros [-> _]%elem_of_replicate. rewrite Hacc. split; [by intros [? ?]|done].
    + by apply (q_cancelled _ Hinv name').
  - intros id r Hr Hq. rewrite lookup_insert_is_Some'. right. by apply (q_queued _ Hinv id).
  - intros id r Hr Hrun. destruct (q_running _ Hinv id r Hr Hrun) as (l0 & Hl0 & Hid).
    exists l0. rewrite lookup_insert_ne; [done|]. congruence.
  - intros name' l' id. rewrite lookup_insert_Some. intros [[<- <-]|[_ Hl']].
    + rewrite Hnone. intros Hid. by apply not_elem_of_nil in Hid.
    + by apply (q_held _ Hinv).
  - intros name' l' id r. rewrite lookup_insert_Some. intros [[<- <-]|[_ Hl']].
    + cbn. by intros [? _]%elem_of_replicate.
    + by apply (q_closing _ Hinv name').
Qed.
End invariant.

Lemma filter_ne_notin (l : list string) id : id ∉ l → filter (λ j, j ≠ id) l = l.
Proof.
  induction l as [|j l IH]; [done|]. rewrite not_elem_of_cons, filter_cons. intros [Hj Hl].
  by rewrite decide_True, IH by done.
Qed.

(** Replacing a record that does not wait by another that does not. *)
Lemma queued_on_out name rs id r r' :
  NoDup (dict_keys rs) → dict_get rs id = Some r → job_state r ≠ QUEUED →
  job_state r' ≠ QUEUED → queued_on name (dict_set rs id r') = queued_on name rs.
Proof.
  intros Hnd Hr Hs Hs'. rewrite queued_on_leave; [|done|by eexists|done].
  apply filter_ne_notin. intros Hin. apply queued_on_elem in Hin as (x & Hx & Hq & _); [|done].
  congruence.
Qed.

(** ** What a step may do to a record *)

Definition state_rank (s : JobState) : nat :=
  match s with QUEUED => 0 | RUNNING => 1 | TERMINAL => 2 end.

Record advances (r r' : JobRecord) : Prop := {
  adv_job : job_id r' = job_id r;
  adv_lane : lane r' = lane r;
  adv_submitted : submitted_at r' = submitted_at r;
  adv_scope : job_scope r' = job_scope r;
  adv_truncated : truncated r = true → truncated r' = true;
  adv_state : state_rank (job_state r) ≤ state_rank (job_state r');
  adv_outcome : job_state r = TERMINAL → job_outcome r' = job_outcome r;
}.

Lemma advances_refl r : advances r r.
Proof. by constructor. Qed.
#[export] Hint Resolve advances_refl : core.

Definition records_advance (rs rs' : registry) : Prop :=
  ∀ id r, dict_get rs id = Some r → ∃ r', dict_get rs' id = Some r' ∧ advances r r'.

Lemma records_advance_refl rs : records_advance rs rs.
Proof. intros id r Hr. by exists r. Qed.

Lemma records_advance_set rs id r r' :
  dict_get rs id = Some r → advances r r' → records_advance rs (dict_set rs id r').
Proof.
  intros Hr Hadv j x Hx. rewrite dict_get_set. case_decide as Hj; [|by exists x].
  subst j. exists r'. split; [done|]. congruence.
Qed.

Section steps.
Context (cfg : JobQueueSettings).

Lemma publish_step q id event r :
  queue_inv cfg q → dict_get (records q) id = Some r →
  ∃ q', _publish q id event = Ok q' ∧ queue_inv cfg q' ∧ lanes q' = lanes q
    ∧ records_advance (records q) (records q').
Proof.
  intros Hinv Hr. unfold _publish.
  destruct (proj2 (q_streams _ _ Hinv id)) as [s Hs]; [by eexists|]. rewrite Hs.
  destruct (stream_publish s event) as [s' dropped] eqn:Hp.
  unfold stream_publish in Hp. injection Hp as <- <-.
  assert (queue_inv cfg (set_stream q id (stream_publish s event).1)) as Hinv'
    by by apply inv_stream with s.
  cbn [stream_publish fst] in Hinv'.
  destruct (bool_decide (length (buffer s) = capacity s)); cbn [negb].
  2:{ eexists. split; [reflexivity|]. split_and!; [done|done|apply records_advance_refl]. }
  cbn [records set_stream]. rewrite Hr. destruct (truncated r).
  { eexists. split; [reflexivity|]. split_and!; [done|done|apply records_advance_refl]. }
  unfold amend. cbn [records set_stream]. rewrite Hr. cbn [mbind result_bind].
  eexists. split; [reflexivity|]. split_and!; [|done|].
  - by apply (inv_record cfg (set_stream q id _) id r).
  - cbn. by apply records_advance_set with r.
Qed.

Lemma start_step q name l i id rest :
  queue_inv cfg q → lanes q !! name = Some l → workers l !! i = Some Idle →
  lane_queue l = id :: rest →
  ∃ q', start_job q name l i id rest = Ok q' ∧ queue_inv cfg q'
    ∧ records_advance (records q) (records q').
Proof.
  intros Hinv Hl Hi Hlq. destruct (q_pending _ _ Hinv name l Hl) as [Hpend Hqueued].
  pose proof (q_keys _ _ Hinv) as Hkeys.
  assert (NoDup (id :: rest)) as Hnd by (rewrite <-Hlq, Hqueued; by apply queued_on_NoDup).
  apply NoDup_cons in Hnd as [Hid Hnd].
  assert (∀ j, j ∈ id :: rest ↔ ∃ r, dict_get (records q) j = Some r
    ∧ job_state r = QUEUED ∧ lane r = name) as Hmem
    by (intros j; rewrite <-Hlq, Hqueued; by apply queued_on_elem).
  destruct (proj1 (Hmem id)) as (r & Hr & Hrq & Hrl); [by left|].
  unfold start_job. rewrite Hpend, Hlq. cbn [remove_first]. rewrite decide_True by done.
  set (rs1 := _reindex 1 rest (records q)).
  assert (∀ j, dict_get rs1 j = match dict_get (records q) j with
    | Some y => Some (if decide (job_state y = QUEUED ∧ j ∈ rest)
                      then set_position (Some (1 + index_of j rest)) y else y)
    | None => None end) as Hget1 by (intros j; by apply reindex_get).
  assert (dict_get rs1 id = Some r) as Hr1.
  { rewrite Hget1, Hr. rewrite decide_False; [done|]. by intros [_ ?]. }
  unfold amend. rewrite Hr1. cbn [mbind result_bind].
  destruct (proj2 (q_requests _ _ Hinv id)) as [req Hreq]; [by exists r|]. rewrite Hreq.
  eexists. split; [reflexivity|].
  set (rs2 := dict_set rs1 id (set_running r)).
  assert (∀ j x, dict_get rs2 j = Some x →
    (j = id ∧ x = set_running r)
    ∨ (j ≠ id ∧ ∃ y, dict_get (records q) j = Some y
        ∧ x = if decide (job_state y = QUEUED ∧ j ∈ rest)
              then set_position (Some (1 + index_of j rest)) y else y)) as Hback.
  { intros j x. unfold rs2. rewrite dict_get_set, Hget1.
    destruct (decide (id = j)) as [<-|Hne].
    - intros [= <-]. by left.
    - destruct (dict_get (records q) j) as [y|]; [|done]. intros [= <-].
      right. split; [done|]. by exists y. }
  assert (∀ j y, dict_get (records q) j = Some y → ∃ x, dict_get rs2 j = Some x
    ∧ advances y x ∧ (j ≠ id → job_state x = job_state y) ∧ lane x = lane y) as Hforth.
  { intros j y Hy. unfold rs2. rewrite dict_get_set, Hget1, Hy.
    destruct (decide (id = j)) as [<-|Hne].
    - eexists. split; [done|]. assert (y = r) as -> by congruence.
      split_and!; try done. constructor; try done; rewrite Hrq; cbn; (done || lia).
    - eexists. split; [done|]. case_decide as Hc; [|by split_and!].
      split_and!; try done. }
  assert (∀ n, queued_on n rs2 = filter (λ j, j ≠ id) (queued_on n (records q))) as Hq2.
  { intros n. unfold rs2. rewrite queued_on_leave; [|by unfold rs1; rewrite reindex_keys|by eexists|done].
    unfold rs1. by rewrite reindex_queued. }
  assert (queued_on name rs2 = rest) as Hqn.
  { rewrite Hq2, <-Hqueued, Hlq, filter_cons. rewrite decide_False by (intros []; done).
    by apply filter_ne_notin. }
  assert (∀ n, n ≠ name → queued_on n rs2 = queued_on n (records q)) as Hqo.
  { intros n Hn. rewrite Hq2. apply filter_ne_notin. intros Hin.
    apply queued_on_elem in Hin as (x & Hx & _ & Hlx); [|done]. congruence. }
  set (l' := {| lane_queue := rest; pending := rest; workers := <[i:=Running id None]> (workers l) |}).
  assert (∀ n l0, <[name := l']> (lanes q) !! n = Some l0 →
    n = name ∧ l0 = l' ∨ n ≠ name ∧ lanes q !! n = Some l0) as Hlanes.
  { intros n l0. rewrite lookup_insert_Some. intros [[<- <-]|[? ?]]; [by left|by right]. }
  assert (omap holding (workers l') ≡ₚ id :: omap holding (workers l)) as Hhold
    by by apply omap_insert_hold with Idle.
  assert (accepting q = true) as Hacc.
  { destruct (accepting q) eqn:E; [done|].
    destruct (proj2 (q_cancelled _ _ Hinv name l Idle Hl
      (list_elem_of_lookup_2 _ _ _ Hi)) E) as [j Hj]. done. }
  split; [|intros j y Hy; destruct (Hforth j y Hy) as (x & ? & ? & _); by exists x].
  constructor; cbn [records requests streams evictions accepting lanes].
  - unfold rs2. rewrite dict_set_keys_present by (by eexists). unfold rs1.
    by rewrite reindex_keys.
  - intros j x [[-> ->]|(Hne & y & Hy & ->)]%Hback; [by apply (q_ids _ _ Hinv id r)|].
    case_decide; by apply (q_ids _ _ Hinv j y).
  - intros n l0 [[-> ->]|[Hn Hl0]]%Hlanes; [by rewrite Hqn|].
    rewrite Hqo by done. by apply (q_pending _ _ Hinv).
  - intros n l0 [[-> ->]|[Hn Hl0]]%Hlanes; [|by apply (q_depth _ _ Hinv n)].
    intros Hd. pose proof (q_depth _ _ Hinv name l Hl Hd) as Hle. rewrite Hlq in Hle.
    cbn in *. lia.
  - intros n l0 [[-> ->]|[Hn Hl0]]%Hlanes; [|by apply (q_workers _ _ Hinv n)].
    destruct (q_workers _ _ Hinv name l Hl) as [Hlen Hndw]. split.
    + cbn. by rewrite length_insert.
    + rewrite Hhold. constructor; [|done]. intros Hin.
      destruct (q_held _ _ Hinv name l id Hl Hin) as (x & Hx & Hrun & _). congruence.
  - intros n l0 w [[-> ->]|[Hn Hl0]]%Hlanes; [|by apply (q_cancelled _ _ Hinv n)].
    cbn. intros [->|Hw]%elem_of_list_insert; [|by apply (q_cancelled _ _ Hinv name l)].
    rewrite Hacc. split; [by intros [? ?]|done].
  - intros j x [[-> ->]|(Hne & y & Hy & ->)]%Hback; [done|].
    pose proof (q_position _ _ Hinv j y Hy) as Hpos.
    destruct (decide (job_state y = QUEUED)) as [Hyq|Hyq].
    + destruct (decide (lane y = name)) as [Hyn|Hyn].
      * assert (j ∈ rest) as Hjr.
        { assert (j ∈ id :: rest) as [->|?]%elem_of_cons; [|done..].
          apply Hmem. by exists y. }
        rewrite decide_True by done. cbn [set_position job_state queue_position lane].
        rewrite decide_True by done. by rewrite Hyn, Hqn.
      * rewrite decide_False.
        2:{ intros [_ Hjr]. destruct (proj1 (Hmem j)) as (z & Hz & _ & Hzl); [by right|].
            congruence. }
        rewrite decide_True by done. by rewrite Hqo.
    + rewrite decide_False by tauto. by rewrite decide_False.
  - intros j x [[-> ->]|(Hne & y & Hy & ->)]%Hback Hx; [done|].
    apply lookup_insert_is_Some'. right.
    case_decide; by apply (q_queued _ _ Hinv j y).
  - intros j x [[-> ->]|(Hne & y & Hy & ->)]%Hback Hx.
    + cbn. rewrite Hrl. exists l'. rewrite lookup_insert_eq. split; [done|].
      rewrite Hhold. by left.
    + rewrite decide_False in Hx by (intros [Hq _]; case_decide; cbn in Hx; congruence).
      rewrite decide_False by (intros [Hq _]; congruence).
      destruct (q_running _ _ Hinv j y Hy Hx) as (l0 & Hl0 & Hin).
      destruct (decide (name = lane y)) as [Heq|Hn].
      * exists l'. rewrite <-Heq, lookup_insert_eq. split; [done|].
        rewrite Hhold. right. assert (l0 = l) as -> by congruence. done.
      * exists l0. by rewrite lookup_insert_ne.
  - intros n l0 j [[-> ->]|[Hn Hl0]]%Hlanes Hj.
    + rewrite Hhold in Hj. apply elem_of_cons in Hj as [->|Hj].
      * exists (set_running r). unfold rs2. by rewrite dict_get_set_eq.
      * destruct (q_held _ _ Hinv name l j Hl Hj) as (y & Hy & Hrun & Hyl).
        destruct (Hforth j y Hy) as (x & Hx & _ & Hsx & Hlx). exists x.
        split_and!; [done| |congruence]. rewrite Hsx; [done|]. congruence.
    + destruct (q_held _ _ Hinv n l0 j Hl0 Hj) as (y & Hy & Hrun & Hyl).
      destruct (Hforth j y Hy) as (x & Hx & _ & Hsx & Hlx). exists x.
      split_and!; [done| |congruence]. rewrite Hsx; [done|]. congruence.
  - intros n l0 j x Hl0' Hcl Hx.
    assert (∃ l1, lanes q !! n = Some l1 ∧ Closing j ∈ workers l1) as (l1 & Hl1 & Hcl1).
    { apply Hlanes in Hl0' as [[-> ->]|[Hn Hl0]]; [|by exists l0]. exists l.
      split; [done|]. cbn in Hcl. by apply elem_of_list_insert in Hcl as [?|?]. }
    apply Hback in Hx as [[-> ->]|(Hne & y & Hy & ->)].
    + pose proof (q_closing _ _ Hinv n l1 id r Hl1 Hcl1 Hr). congruence.
    + pose proof (q_closing _ _ Hinv n l1 j y Hl1 Hcl1 Hy). by case_decide.
  - intros e x He [[Heq ->]|(Hne & y & Hy & ->)]%Hback.
    + rewrite <-Heq in Hr. pose proof (q_evicted _ _ Hinv e r He Hr). congruence.
    + pose proof (q_evicted _ _ Hinv e y He Hy). by case_decide.
  - intros j. destruct (decide (j = id)) as [->|Hne].
    + rewrite lookup_delete_eq. split; [by intros []|].
      intros (x & [[_ ->]|[? _]]%Hback & Hx); done.
    + rewrite lookup_delete_ne by done. rewrite (q_requests _ _ Hinv j). split.
      * intros (y & Hy & Hyq). destruct (Hforth j y Hy) as (x & Hx & _ & Hsx & _).
        exists x. split; [done|]. by rewrite Hsx.
      * intros (x & [[? _]|(_ & y & Hy & ->)]%Hback & Hx); [done|].
        exists y. split; [done|]. by case_decide.
  - intros j. rewrite (q_streams _ _ Hinv j). split.
    + intros [y Hy]. destruct (Hforth j y Hy) as (x & Hx & _). by exists x.
    + intros [x [[-> _]|(_ & y & Hy & _)]%Hback]; by eexists.
  - intros j s x Hs [[-> ->]|(Hne & y & Hy & ->)]%Hback.
    + pose proof (q_stream _ _ Hinv id s r Hs Hr) as [Hc Hcap]. split; [|done].
      rewrite Hc. cbn. split; congruence.
    + pose proof (q_stream _ _ Hinv j s y Hs Hy) as [Hc Hcap]. split; [|done].
      rewrite Hc. by case_decide.
Qed.
End steps.

Section more_steps.
Context (cfg : JobQueueSettings).

Lemma omap_insert_release l i x y (b : string) :
  l !! i = Some x → holding x = Some b → holding y = None →
  omap holding l ≡ₚ b :: omap holding (<[i := y]> l).
Proof.
  intros Hi Hx Hy. rewrite <-(list_insert_id l i x Hi) at 1.
  rewrite <-(list_insert_insert_eq l i x y). apply omap_insert_hold with y; [|done..].
  apply list_lookup_insert_eq. by eapply lookup_lt_Some.
Qed.

(** [_finish] and the worker's move past it. *)
Lemma finish_step q name l i id outcome :
  queue_inv cfg q → lanes q !! name = Some l → workers l !! i = Some (Finishing id outcome) →
  ∃ q1, _finish q id outcome = Ok q1 ∧ lanes q1 = lanes q
    ∧ queue_inv cfg (set_lane q1 name (put_worker l i (Closing id)))
    ∧ records_advance (records q) (records q1)
    ∧ ∃ r, dict_get (records q1) id = Some r ∧ job_state r = TERMINAL
        ∧ job_outcome r = outcome.
Proof.
  intros Hinv Hl Hi.
  assert (id ∈ omap holding (workers l)) as Hheld.
  { apply list_elem_of_omap. exists (Finishing id outcome).
    split; [by eapply list_elem_of_lookup_2|done]. }
  destruct (q_held _ _ Hinv name l id Hl Hheld) as (r & Hr & Hrun & Hrl).
  destruct (proj2 (q_streams _ _ Hinv id)) as [s Hs]; [by eexists|].
  pose proof (q_keys _ _ Hinv) as Hkeys.
  unfold _finish, amend. rewrite Hr. cbn [mbind result_bind]. rewrite Hs.
  eexists. split; [reflexivity|]. split; [done|].
  set (rs := dict_set (records q) id (set_terminal outcome r)).
  assert (∀ j x, dict_get rs j = Some x →
    j = id ∧ x = set_terminal outcome r ∨ j ≠ id ∧ dict_get (records q) j = Some x) as Hback.
  { intros j x. unfold rs. rewrite dict_get_set. case_decide as Hj.
    - intros [= <-]. subst j. by left.
    - right. split; [congruence|done]. }
  assert (∀ j x, j ≠ id → dict_get (records q) j = Some x → dict_get rs j = Some x) as Hforth.
  { intros j x Hne Hx. unfold rs. by rewrite dict_get_set_ne by congruence. }
  assert (∀ n, queued_on n rs = queued_on n (records q)) as Hq.
  { intros n. unfold rs. apply queued_on_out with r; try done. congruence. }
  pose proof (omap_insert_release _ _ _ (Closing id) id Hi eq_refl eq_refl) as Hrel.
  set (l' := put_worker l i (Closing id)).
  assert (∀ n l0, <[name := l']> (lanes q) !! n = Some l0 →
    n = name ∧ l0 = l' ∨ n ≠ name ∧ lanes q !! n = Some l0) as Hlanes.
  { intros n l0. rewrite lookup_insert_Some. intros [[<- <-]|[? ?]]; [by left|by right]. }
  destruct (q_workers _ _ Hinv name l Hl) as [Hlen Hndw].
  assert (id ∉ omap holding (workers l') ∧ NoDup (omap holding (workers l'))) as [Hid' Hnd'].
  { rewrite Hrel in Hndw. by apply NoDup_cons in Hndw. }
  split_and!.
  2:{ cbn. apply records_advance_set with r; [done|]. constructor; try done; cbn; [|congruence].
      rewrite Hrun. cbn. lia. }
  2:{ exists (set_terminal outcome r). cbn. unfold rs. by rewrite dict_get_set_eq. }
  constructor; cbn [records requests streams evictions accepting lanes set_lane set_stream
    set_records].
  - unfold rs. by rewrite dict_set_keys_present by (by eexists).
  - intros j x [[-> ->]|[_ Hx]]%Hback; [by apply (q_ids _ _ Hinv id r)|].
    by apply (q_ids _ _ Hinv).
  - intros n l0 [[-> ->]|[Hn Hl0]]%Hlanes; rewrite Hq;
      [by apply (q_pending _ _ Hinv name l)|by apply (q_pending _ _ Hinv)].
  - intros n l0 [[-> ->]|[Hn Hl0]]%Hlanes; [by apply (q_depth _ _ Hinv name l)|].
    by apply (q_depth _ _ Hinv n).
  - intros n l0 [[-> ->]|[Hn Hl0]]%Hlanes; [|by apply (q_workers _ _ Hinv n)].
    split; [cbn; by rewrite length_insert|done].
  - intros n l0 w [[-> ->]|[Hn Hl0]]%Hlanes; [|by apply (q_cancelled _ _ Hinv n)].
    cbn. intros [->|Hw]%elem_of_list_insert; [|by apply (q_cancelled _ _ Hinv name l)].
    rewrite <-(q_cancelled _ _ Hinv name l (Finishing id outcome) Hl
      (list_elem_of_lookup_2 _ _ _ Hi)). split; by intros [? ?].
  - intros j x [[-> ->]|[_ Hx]]%Hback; [done|]. rewrite Hq. by apply (q_position _ _ Hinv).
  - intros j x [[-> ->]|[_ Hx]]%Hback Hxq; [done|]. apply lookup_insert_is_Some'. right.
    by apply (q_queued _ _ Hinv j).
  - intros j x [[-> ->]|[Hne Hx]]%Hback Hxr; [done|].
    destruct (q_running _ _ Hinv j x Hx Hxr) as (l0 & Hl0 & Hin).
    destruct (decide (name = lane x)) as [Heq|Hn].
    + exists l'. rewrite <-Heq, lookup_insert_eq. split; [done|].
      assert (l0 = l) as -> by congruence. rewrite Hrel in Hin.
      by apply elem_of_cons in Hin as [?|?].
    + exists l0. by rewrite lookup_insert_ne.
  - intros n l0 j [[-> ->]|[Hn Hl0]]%Hlanes Hj.
    + destruct (q_held _ _ Hinv name l j Hl) as (x & Hx & ? & ?).
      { rewrite Hrel. by right. }
      exists x. split_and!; [|done..]. apply Hforth; [|done]. by intros ->.
    + destruct (q_held _ _ Hinv n l0 j Hl0 Hj) as (x & Hx & ? & ?).
      exists x. split_and!; [|done..]. apply Hforth; [|done]. intros ->. congruence.
  - intros n l0 j x Hl0' Hcl [[-> ->]|[Hne Hx]]%Hback; [done|].
    apply Hlanes in Hl0' as [[-> ->]|[Hn Hl0]]; [|by eapply (q_closing _ _ Hinv n l0 j)].
    cbn in Hcl. apply elem_of_list_insert in Hcl as [[= ->]|Hcl]; [done|].
    by eapply (q_closing _ _ Hinv name l j).
  - intros e x He [[_ ->]|[_ Hx]]%Hback; [done|]. by eapply (q_evicted _ _ Hinv).
  - intros j. rewrite (q_requests _ _ Hinv j). split.
    + intros (x & Hx & Hxq). exists x. split; [|done]. apply Hforth; [|done].
      intros ->. congruence.
    + intros (x & [[_ ->]|[_ Hx]]%Hback & Hxq); [done|]. by exists x.
  - intros j. rewrite lookup_insert_is_Some', (q_streams _ _ Hinv j). unfold rs.
    rewrite dict_get_set. case_decide as Hj.
    + subst j. split; [by eexists|by left].
    + split; [by intros [?|?]|by right].
  - intros j s0 x Hs0 [[-> ->]|[Hne Hx]]%Hback.
    + rewrite lookup_insert_eq in Hs0. injection Hs0 as <-. cbn.
      pose proof (q_stream _ _ Hinv id s r Hs Hr) as [_ Hcap]. done.
    + rewrite lookup_insert_ne in Hs0 by congruence. by apply (q_stream _ _ Hinv j).
Qed.

Lemma occurs_false q id :
  occurs q id = false →
  id ∉ dict_keys (records q) ∧ requests q !! id = None ∧ streams q !! id = None
  ∧ (∀ e, e ∈ evictions q → evicted e ≠ id)
  ∧ ∀ name l, lanes q !! name = Some l →
      id ∉ lane_queue l ∧ id ∉ omap mentions (workers l).
Proof.
  unfold occurs, dict_mem. rewrite !orb_false_iff, !bool_decide_eq_false.
  intros [[[[H1 H2] H3] H4] H5]. split_and!; [done| | | |].
  - by apply eq_None_not_Some.
  - by apply eq_None_not_Some.
  - intros e He <-. apply H4. by apply list_elem_of_fmap_2.
  - intros name l Hl. split; intros Hin; apply H5; exists name, l; tauto.
Qed.

Lemma submit_step q name request id now :
  queue_inv cfg q → occurs q id = false →
  queue_inv cfg (submit cfg q name request id now).1
  ∧ records_advance (records q) (records (submit cfg q name request id now).1).
Proof.
  intros Hinv Hfresh. unfold submit.
  destruct (accepting q) eqn:Hacc; cbn [negb]; [|split; [done|apply records_advance_refl]].
  apply occurs_false in Hfresh as (Hrec & _ & _ & Hev & Hocc).
  destruct (inv_ensure_lane cfg q name Hacc Hinv)
    as (Hinv1 & Hl & Hrs & Hst & Hrq & Hes & Hacc1 & Hlold).
  destruct (_ensure_lane cfg q name) as [q1 l] eqn:Hens. cbn [fst snd] in *.
  destruct (queue_full cfg l) eqn:Hfull.
  { split; [done|]. cbn. rewrite Hrs. apply records_advance_refl. }
  cbn [fst]. rewrite <-Hrs in Hrec. rewrite <-Hes in Hev. rewrite <-Hrs.
  assert (∀ n l0, lanes q1 !! n = Some l0 →
    id ∉ lane_queue l0 ∧ id ∉ omap mentions (workers l0)) as Hno.
  { intros n l0 [Hold| ->]%Hlold; [by eapply Hocc|]. cbn. split; [apply not_elem_of_nil|].
    induction (max_concurrent_runs_per_lane cfg); [apply not_elem_of_nil|done]. }
  clear Hocc Hlold Hens Hinv.
  set (record := {| job_id := id; lane := name; job_state := QUEUED; queue_position := _;
    submitted_at := now; job_scope := _; job_outcome := None; truncated := false |}).
  set (l' := {| lane_queue := _; pending := _; workers := workers l |}).
  pose proof (q_keys _ _ Hinv1) as Hkeys.
  destruct (q_pending _ _ Hinv1 name l Hl) as [Hpend Hqueued].
  assert (∀ j x, dict_get (dict_set (records q1) id record) j = Some x →
    j = id ∧ x = record ∨ j ≠ id ∧ dict_get (records q1) j = Some x) as Hback.
  { intros j x. rewrite dict_get_set. case_decide as Hj.
    - intros [= <-]. subst j. by left.
    - right. split; [congruence|done]. }
  assert (∀ j x, dict_get (records q1) j = Some x →
    j ≠ id ∧ dict_get (dict_set (records q1) id record) j = Some x) as Hforth.
  { intros j x Hx. assert (j ≠ id) as Hne.
    { intros ->. apply Hrec, dict_get_is_Some. by eexists. }
    split; [done|]. by rewrite dict_get_set_ne by congruence. }
  assert (∀ n, queued_on n (dict_set (records q1) id record)
    = queued_on n (records q1) ++ (if decide (name = n) then [id] else [])) as Hq.
  { intros n. rewrite queued_on_add by done. f_equal. cbn.
    destruct (decide (name = n)); [rewrite decide_True by done|rewrite decide_False by tauto];
    done. }
  assert (∀ n l0, <[name := l']> (lanes q1) !! n = Some l0 →
    n = name ∧ l0 = l' ∨ n ≠ name ∧ lanes q1 !! n = Some l0) as Hlanes.
  { intros n l0. rewrite lookup_insert_Some. intros [[<- <-]|[? ?]]; [by left|by right]. }
  assert (∀ n l0, <[name := l']> (lanes q1) !! n = Some l0 →
    ∃ l1, lanes q1 !! n = Some l1 ∧ workers l0 = workers l1) as Hworkers.
  { intros n l0 [[-> ->]|[_ ?]]%Hlanes; by eexists. }
  assert (∀ w j, holding w = Some j → mentions w = Some j) as Hhm by by intros [].
  split; [|intros j x Hx; exists x; split; [by apply Hforth|done]].
  unfold registry_add. cbn [job_id record].
  constructor; cbn [records requests streams evictions accepting lanes].
  - by apply dict_set_NoDup.
  - intros j x [[-> ->]|[_ Hx]]%Hback; [done|]. by apply (q_ids _ _ Hinv1).
  - intros n l0 [[-> ->]|[Hn Hl0]]%Hlanes; rewrite Hq.
    + rewrite decide_True by done. cbn. by rewrite Hpend, Hqueued.
    + rewrite decide_False, app_nil_r by congruence. by apply (q_pending _ _ Hinv1).
  - intros n l0 [[-> ->]|[Hn Hl0]]%Hlanes Hd; [|by apply (q_depth _ _ Hinv1 n)].
    cbn. rewrite length_app. cbn. unfold queue_full in Hfull.
    apply andb_false_iff in Hfull as [Hf|Hf].
    + apply Nat.ltb_ge in Hf. lia.
    + apply Nat.leb_gt in Hf. lia.
  - intros n l0 (l1 & Hl1 & ->)%Hworkers. by apply (q_workers _ _ Hinv1 n).
  - intros n l0 w (l1 & Hl1 & ->)%Hworkers. by apply (q_cancelled _ _ Hinv1 n).
  - intros j x [[-> ->]|[Hne Hx]]%Hback.
    + rewrite decide_True by done. cbn. rewrite Hq, decide_True by done. f_equal.
      rewrite Hpend, Hqueued, Nat.add_comm. cbn. f_equal. symmetry. apply index_of_lookup.
      * apply NoDup_app. split_and!; [by apply queued_on_NoDup| |apply NoDup_singleton].
        intros j Hj ->%list_elem_of_singleton. rewrite <-Hqueued in Hj.
        by destruct (Hno name l Hl) as [? _].
      * by rewrite lookup_app_r, Nat.sub_diag by lia.
    + rewrite (q_position _ _ Hinv1 j x Hx). case_decide as Hxq; [|done]. do 2 f_equal.
      rewrite Hq. symmetry. apply index_of_app_l. apply queued_on_elem; [done|]. by exists x.
  - intros j x [[-> ->]|[_ Hx]]%Hback Hxq; apply lookup_insert_is_Some'; [by left|right].
    by apply (q_queued _ _ Hinv1 j).
  - intros j x [[-> ->]|[_ Hx]]%Hback Hxr; [done|].
    destruct (q_running _ _ Hinv1 j x Hx Hxr) as (l0 & Hl0 & Hin).
    destruct (decide (name = lane x)) as [Heq|Hn].
    + exists l'. rewrite <-Heq, lookup_insert_eq. split; [done|].
      assert (l0 = l) as -> by congruence. done.
    + exists l0. by rewrite lookup_insert_ne.
  - intros n l0 j (l1 & Hl1 & ->)%Hworkers Hj.
    destruct (q_held _ _ Hinv1 n l1 j Hl1 Hj) as (x & Hx & ? & ?).
    exists x. split_and!; [by apply Hforth|done..].
  - intros n l0 j x (l1 & Hl1 & ->)%Hworkers Hcl [[-> ->]|[_ Hx]]%Hback.
    + destruct (Hno n l1 Hl1) as [_ Hm]. destruct Hm. apply list_elem_of_omap.
      by exists (Closing id).
    + by eapply (q_closing _ _ Hinv1 n l1 j).
  - intros e x He [[Heq ->]|[_ Hx]]%Hback; [by destruct (Hev e He)|].
    by eapply (q_evicted _ _ Hinv1).
  - intros j. rewrite lookup_insert_is_Some', (q_requests _ _ Hinv1 j). split.
    + intros [<-|(x & Hx & Hxq)].
      * exists record. by rewrite dict_get_set_eq.
      * exists x. split; [by apply Hforth|done].
    + intros (x & [[-> _]|[_ Hx]]%Hback & Hxq); [by left|right; by exists x].
  - intros j. rewrite lookup_insert_is_Some', (q_streams _ _ Hinv1 j). rewrite dict_get_set.
    case_decide as Hj; split; try (by eexists); try tauto.
  - intros j s x Hs [[-> ->]|[Hne Hx]]%Hback.
    + rewrite lookup_insert_eq in Hs. by injection Hs as <-.
    + rewrite lookup_insert_ne in Hs by congruence. by apply (q_stream _ _ Hinv1 j).
Qed.
End more_steps.

Section stopping.
Context (cfg : JobQueueSettings).

Lemma drop_buffer_step q id :
  queue_inv cfg q →
  ∃ q', _drop_buffer_later q id = Ok q' ∧ queue_inv cfg q'
    ∧ records_advance (records q) (records q').
Proof.
  intros Hinv. unfold _drop_buffer_later. destruct (streams q !! id) as [s|] eqn:Hs.
  2:{ exists q. split_and!; [done..|apply records_advance_refl]. }
  cbn [discard_buffer].
  assert (queue_inv cfg (set_stream q id (discard_buffer s).1)) as Hinv'
    by by apply inv_stream with s.
  cbn [discard_buffer fst] in Hinv'.
  case_decide; [eexists; split; [reflexivity|]; split; [done|apply records_advance_refl]|].
  cbn [records set_stream]. destruct (dict_get (records q) id) as [r|] eqn:Hr.
  2:{ eexists. split; [reflexivity|]. split; [done|apply records_advance_refl]. }
  destruct (truncated r).
  { eexists. split; [reflexivity|]. split; [done|apply records_advance_refl]. }
  unfold amend. cbn [records set_stream]. rewrite Hr. cbn [mbind result_bind].
  eexists. split; [reflexivity|]. split.
  - by apply (inv_record cfg (set_stream q id _) id r).
  - cbn. by apply records_advance_set with r.
Qed.

Lemma drop_record_step q id :
  (∀ r, dict_get (records q) id = Some r → job_state r = TERMINAL) →
  queue_inv cfg q → queue_inv cfg (_drop_record_later q id).
Proof.
  intros Hterm Hinv. pose proof (q_keys _ _ Hinv) as Hkeys.
  assert (∀ n, queued_on n (dict_pop (records q) id) = queued_on n (records q)) as Hq.
  { intros n. apply queued_on_forget; [done|]. intros r Hr. by rewrite (Hterm r Hr). }
  assert (∀ j x, dict_get (dict_pop (records q) id) j = Some x ↔
    j ≠ id ∧ dict_get (records q) j = Some x) as Hget.
  { intros j x. destruct (decide (j = id)) as [->|Hne].
    - rewrite dict_get_pop_eq. split; [done|]. by intros [? _].
    - rewrite dict_get_pop_ne by done. tauto. }
  assert (∀ j x, dict_get (records q) j = Some x → job_state x ≠ TERMINAL →
    dict_get (dict_pop (records q) id) j = Some x) as Hforth.
  { intros j x Hx Hs. apply Hget. split; [|done]. intros ->. by apply Hs, Hterm. }
  constructor; cbn [records requests streams evictions accepting lanes _drop_record_later forget].
  - by apply dict_pop_NoDup.
  - intros j x [_ Hx]%Hget. by apply (q_ids _ _ Hinv).
  - intros n l Hl. unfold forget. rewrite Hq. by apply (q_pending _ _ Hinv).
  - apply Hinv.
  - apply Hinv.
  - apply Hinv.
  - intros j x [_ Hx]%Hget. unfold forget. rewrite Hq. by apply (q_position _ _ Hinv).
  - intros j x [_ Hx]%Hget. by apply (q_queued _ _ Hinv j).
  - intros j x [_ Hx]%Hget. by apply (q_running _ _ Hinv).
  - intros n l j Hl Hj. destruct (q_held _ _ Hinv n l j Hl Hj) as (x & Hx & Hs & ?).
    exists x. split; [|done]. apply Hforth; [done|]. by rewrite Hs.
  - intros n l j x Hl Hc [_ Hx]%Hget. by eapply (q_closing _ _ Hinv).
  - intros e x He [_ Hx]%Hget. by eapply (q_evicted _ _ Hinv).
  - intros j. rewrite (q_requests _ _ Hinv j). split.
    + intros (x & Hx & Hs). exists x. split; [|done]. apply Hforth; [done|]. by rewrite Hs.
    + intros (x & [_ Hx]%Hget & Hs). by exists x.
  - intros j. unfold forget. destruct (decide (j = id)) as [->|Hne].
    + rewrite lookup_delete_eq, dict_get_pop_eq. done.
    + rewrite lookup_delete_ne, dict_get_pop_ne by done. apply (q_streams _ _ Hinv).
  - intros j s x Hs [Hne Hx]%Hget. rewrite lookup_delete_ne in Hs by done.
    by apply (q_stream _ _ Hinv j).
Qed.

Lemma holding_cancel (ws : list worker) : omap holding (cancel <$> ws) = omap holding ws.
Proof.
  induction ws as [|w ws IH]; [done|]. rewrite fmap_cons, !omap_cons_eq, IH. by destruct w.
Qed.

Lemma cancelled_elem (ws : list worker) w : w ∈ cancel <$> ws → ∃ j, w = Cancelled j.
Proof. intros (w' & -> & _)%list_elem_of_fmap. destruct w'; by eexists. Qed.

Lemma stop_begin_step q : queue_inv cfg q → queue_inv cfg (stop_begin q).
Proof.
  intros Hinv.
  assert (∀ n l, lanes (stop_begin q) !! n = Some l → ∃ l0, lanes q !! n = Some l0
    ∧ lane_queue l = lane_queue l0 ∧ pending l = pending l0
    ∧ workers l = cancel <$> workers l0) as Hlanes.
  { intros n l. cbn. rewrite lookup_fmap_Some. intros (l0 & <- & Hl0). by exists l0. }
  constructor; cbn [records requests streams evictions accepting stop_begin]; try apply Hinv.
  - intros n l (l0 & Hl0 & -> & -> & _)%Hlanes. by apply (q_pending _ _ Hinv).
  - intros n l (l0 & Hl0 & -> & _)%Hlanes. by apply (q_depth _ _ Hinv n).
  - intros n l (l0 & Hl0 & _ & _ & ->)%Hlanes. rewrite length_fmap, holding_cancel.
    by apply (q_workers _ _ Hinv n).
  - intros n l w (l0 & Hl0 & _ & _ & ->)%Hlanes Hw. split; [done|]. intros _.
    by eapply cancelled_elem.
  - intros j x Hx Hs. cbn. rewrite lookup_fmap, fmap_is_Some. by apply (q_queued _ _ Hinv j).
  - intros j x Hx Hs. destruct (q_running _ _ Hinv j x Hx Hs) as (l & Hl & Hj).
    cbn. rewrite lookup_fmap, Hl. eexists. split; [done|]. cbn. by rewrite holding_cancel.
  - intros n l j (l0 & Hl0 & _ & _ & ->)%Hlanes. rewrite holding_cancel.
    by apply (q_held _ _ Hinv).
  - intros n l j x (l0 & Hl0 & _ & _ & ->)%Hlanes Hc.
    apply cancelled_elem in Hc as [? ?]. done.
  - intros e x He. by apply not_elem_of_nil in He.
Qed.

(** The queue after [stop]: every record terminal, every stream closed. *)
Record stopped (q : JobQueue) : Prop := {
  s_accepting : accepting q = false;
  s_keys : NoDup (dict_keys (records q));
  s_ids : ∀ id r, dict_get (records q) id = Some r → job_id r = id;
  s_lanes : ∀ n l, lanes q !! n = Some l → workers l = [] ∧ pending l = [];
  s_evictions : evictions q = [];
  s_terminal : ∀ id r, dict_get (records q) id = Some r →
    job_state r = TERMINAL ∧ queue_position r = None;
  s_held : ∀ id, is_Some (streams q !! id) ↔ is_Some (dict_get (records q) id);
  s_streams : ∀ id s, streams q !! id = Some s → stream_closed s = true;
}.

Lemma abandon_all rs q :
  NoDup (job_id <$> rs) →
  (∀ r, r ∈ rs → dict_get (records q) (job_id r) = Some r) →
  ∃ q', foldM abandon q rs = Ok q' ∧ lanes q' = lanes q ∧ evictions q' = evictions q
    ∧ accepting q' = accepting q ∧ requests q' = requests q
    ∧ dict_keys (records q') = dict_keys (records q)
    ∧ (∀ id, dict_get (records q') id
         = if decide (id ∈ job_id <$> rs)
           then set_terminal (Some shutdown_abandoned) <$> dict_get (records q) id
           else dict_get (records q) id)
    ∧ ∀ id, streams q' !! id = if decide (id ∈ job_id <$> rs)
           then stream_close <$> streams q !! id else streams q !! id.
Proof.
  revert q; induction rs as [|r rs IH]; intros q Hnd Hrs.
  { exists q. split_and!; done. }
  rewrite fmap_cons, NoDup_cons in Hnd. destruct Hnd as [Hr Hnd].
  cbn [foldM]. unfold abandon at 1, amend. rewrite (Hrs r) by left. cbn [mbind result_bind].
  match goal with |- context [foldM abandon ?x rs] => set (q1 := x) end.
  assert (records q1 = dict_set (records q) (job_id r) (set_terminal (Some shutdown_abandoned) r)
    ∧ lanes q1 = lanes q ∧ evictions q1 = evictions q ∧ accepting q1 = accepting q
    ∧ requests q1 = requests q
    ∧ ∀ id, streams q1 !! id = if decide (id = job_id r)
        then stream_close <$> streams q !! id else streams q !! id)
    as (Hq1 & Hl1 & He1 & Ha1 & Hre1 & Hs1).
  { unfold q1. cbn [streams set_records]. destruct (streams q !! job_id r) as [s|] eqn:Hs; split_and!; try done.
    - intros id. cbn. case_decide as Hid; [subst; by rewrite lookup_insert_eq, Hs|].
      by rewrite lookup_insert_ne by congruence.
    - intros id. cbn. case_decide as Hid; [subst; by rewrite Hs|done]. }
  destruct (IH q1) as (q' & Hq' & Hl & He & Ha & Hre & Hk & Hget & Hst).
  { done. }
  { intros r' Hr'. rewrite Hq1, dict_get_set_ne; [apply Hrs; by right|].
    intros Heq. apply Hr. rewrite Heq. by apply list_elem_of_fmap_2. }
  exists q'. split; [done|]. split_and!; try congruence.
  - rewrite Hk, Hq1. apply dict_set_keys_present. eexists. apply Hrs. by left.
  - intros id. rewrite Hget, Hq1, dict_get_set. destruct (decide (job_id r = id)) as [<-|Hne].
    + rewrite decide_False by done. rewrite decide_True by left.
      rewrite (Hrs r) by left. done.
    + destruct (decide (id ∈ job_id <$> rs)) as [Hin|Hn].
      * by rewrite decide_True by (by right).
      * rewrite decide_False; [done|]. intros [?|?]%elem_of_cons; [congruence|done].
  - intros id. rewrite Hst, Hs1. destruct (decide (id = job_id r)) as [->|Hne].
    + rewrite decide_False by done. by rewrite decide_True by left.
    + destruct (decide (id ∈ job_id <$> rs)) as [Hin|Hn].
      * by rewrite decide_True by (by right).
      * rewrite decide_False; [done|]. by intros [?|?]%elem_of_cons.
Qed.

(** The sweep over any queue whose records are keyed by their own ids. *)
Lemma stop_finish_sweep q :
  NoDup (dict_keys (records q)) →
  (∀ id r, dict_get (records q) id = Some r → job_id r = id) →
  ∃ q', stop_finish q = Ok q' ∧ evictions q' = [] ∧ accepting q' = accepting q
    ∧ (∀ n l, lanes q' !! n = Some l → workers l = [] ∧ pending l = [])
    ∧ dict_keys (records q') = dict_keys (records q)
    ∧ (∀ id r, dict_get (records q) id = Some r → dict_get (records q') id
         = Some (if decide (job_state r = TERMINAL) then r
                 else set_terminal (Some shutdown_abandoned) r))
    ∧ (∀ id s, streams q !! id = Some s → streams q' !! id
         = Some (match dict_get (records q) id with
                 | Some r => if decide (job_state r = TERMINAL) then s else stream_close s
                 | None => s end))
    ∧ ∀ id, is_Some (streams q' !! id) ↔ is_Some (streams q !! id).
Proof.
  intros Hkeys Hids. unfold stop_finish. cbv zeta.
  set (q0 := {| lanes := _ <$> lanes q; records := records q; requests := requests q;
    streams := streams q; evictions := []; accepting := accepting q |}).
  assert (∀ r, r ∈ registry_open (records q) ↔
    dict_get (records q) (job_id r) = Some r ∧ job_state r ≠ TERMINAL) as Hopen.
  { intros r. unfold registry_open, dict_values. rewrite list_elem_of_filter, list_elem_of_fmap.
    split.
    - intros [Hs ([k x] & -> & Hin)]. cbn in *. split; [|done].
      apply dict_get_NoDup in Hin; [|done]. by rewrite (Hids k x Hin).
    - intros [Hr Hs]. split; [done|]. exists (job_id r, r). split; [done|].
      by apply dict_get_elem. }
  assert (∀ id r, dict_get (records q) id = Some r →
    id ∈ job_id <$> registry_open (records q) ↔ job_state r ≠ TERMINAL) as Hmem.
  { intros id r Hr. rewrite list_elem_of_fmap. setoid_rewrite Hopen. split.
    - intros (x & -> & Hx & Hs). congruence.
    - intros Hs. exists r. pose proof (Hids id r Hr) as <-. done. }
  destruct (abandon_all (registry_open (records q)) q0)
    as (q' & Hq' & Hl & He & Ha & _ & Hk & Hget & Hst).
  { assert (registry_open (records q)
      = (filter (λ kv : string * JobRecord, job_state kv.2 ≠ TERMINAL) (records q)).*2) as ->
      by (unfold registry_open, dict_values; by rewrite filter_of_fmap).
    rewrite <-list_fmap_compose.
    assert (job_id ∘ snd <$> filter (λ kv : string * JobRecord, job_state kv.2 ≠ TERMINAL)
        (records q)
      = (filter (λ kv : string * JobRecord, job_state kv.2 ≠ TERMINAL) (records q)).*1) as ->.
    { apply list_fmap_ext. intros i [k x] Hi%list_elem_of_lookup_2.
      apply list_elem_of_filter in Hi as [_ Hin]. cbn.
      apply Hids. by apply dict_get_NoDup. }
    by apply NoDup_fmap_filter. }
  { intros r Hr. by apply Hopen. }
  exists q'. cbn in Hget, Hst. split_and!; try done.
  - intros n l. rewrite Hl. cbn. rewrite lookup_fmap_Some. by intros (l0 & <- & _).
  - intros id r Hr. rewrite Hget, Hr. pose proof (Hmem id r Hr) as Hm. cbn.
    destruct (decide (job_state r = TERMINAL)); case_decide; cbn; tauto || done.
  - intros id s Hs. rewrite Hst, Hs. destruct (dict_get (records q) id) as [r|] eqn:Hr.
    + pose proof (Hmem id r Hr) as Hm.
      destruct (decide (job_state r = TERMINAL)); case_decide; cbn; tauto || done.
    + rewrite decide_False; [done|]. intros (x & -> & [Hx _]%Hopen)%list_elem_of_fmap.
      congruence.
  - intros id. rewrite Hst. case_decide; [by rewrite fmap_is_Some|done].
Qed.
End stopping.

Section reachability.
Context (cfg : JobQueueSettings).

(** What a step does to the records: one is dropped only when terminal, and every
    other moves forward. *)
Definition records_step (rs rs' : registry) : Prop :=
  ∀ id r, dict_get rs id = Some r →
    dict_get rs' id = None ∧ job_state r = TERMINAL
    ∨ ∃ r', dict_get rs' id = Some r' ∧ advances r r'.

Lemma records_advance_step rs rs' : records_advance rs rs' → records_step rs rs'.
Proof. intros H id r Hr. right. by apply H. Qed.

Lemma records_step_refl rs : records_step rs rs.
Proof. apply records_advance_step, records_advance_refl. Qed.

Definition good (q : JobQueue) : Prop := queue_inv cfg q ∨ stopped q.

(** The one way a transition raises: a reader asks for a job nobody holds. *)
Definition unknown_job (q : JobQueue) (lb : label) (e : exn) : Prop :=
  ∃ id sub, lb = Attach id sub ∧ e = KeyError id ∧ dict_get (records q) id = None.

Definition stepped (q : JobQueue) (lb : label) (r : result exn JobQueue) : Prop :=
  match r with
  | Ok q' => good q' ∧ records_step (records q) (records q')
  | Err e => unknown_job q lb e
  end.

Lemma worker_at_Some q name i l w :
  worker_at q name i = Some (l, w) → lanes q !! name = Some l ∧ workers l !! i = Some w.
Proof.
  unfold worker_at. destruct (lanes q !! name) as [l0|] eqn:Hl; [|done]. cbn.
  destruct (workers l0 !! i) eqn:Hw; [|done]. cbn. by intros [= <- <-].
Qed.

Lemma stopped_no_worker q name i : stopped q → worker_at q name i = None.
Proof.
  intros Hs. destruct (worker_at q name i) as [[l w]|] eqn:Hw; [|done].
  apply worker_at_Some in Hw as [Hl Hw]. by rewrite (proj1 (s_lanes _ Hs _ _ Hl)) in Hw.
Qed.

Lemma advance_Ok q name i w l :
  lanes q !! name = Some l → advance (Ok q) name i w = Some (Ok (set_lane q name (put_worker l i w))).
Proof. intros Hl. unfold advance. cbn. by rewrite Hl. Qed.

Lemma held_record q name l i w id :
  queue_inv cfg q → lanes q !! name = Some l → workers l !! i = Some w →
  holding w = Some id → ∃ r, dict_get (records q) id = Some r.
Proof.
  intros Hinv Hl Hw Hh. destruct (q_held _ _ Hinv name l id) as (r & Hr & _); [done| |by exists r].
  apply list_elem_of_omap. exists w. split; [by eapply list_elem_of_lookup_2|done].
Qed.

(** The labels whose worker only moves. *)
Lemma move_step q lb name i l w w' id :
  queue_inv cfg q → lanes q !! name = Some l → workers l !! i = Some w →
  holding w = Some id → holding w' = Some id →
  (∀ j, w ≠ Cancelled j) → (∀ j, w' ≠ Cancelled j) →
  stepped q lb (Ok (set_lane q name (put_worker l i w'))).
Proof.
  intros Hinv Hl Hw Hh Hh' Hc Hc'. split; [|apply records_step_refl]. left.
  apply inv_worker with w; [done..|congruence| | |done].
  - by intros j r ->.
  - split; intros [j Hj]; [by destruct (Hc' j)|by destruct (Hc j)].
Qed.

(** The labels whose worker publishes a frame and moves. *)
Lemma publish_move_step q lb name i l w w' id event r :
  queue_inv cfg q → lanes q !! name = Some l → workers l !! i = Some w →
  holding w = Some id → holding w' = Some id →
  (∀ j, w ≠ Cancelled j) → (∀ j, w' ≠ Cancelled j) →
  advance (_publish q id event) name i w' = Some r → stepped q lb r.
Proof.
  intros Hinv Hl Hw Hh Hh' Hc Hc'. destruct (held_record q name l i w id) as [x Hx]; [done..|].
  destruct (publish_step cfg q id event x Hinv Hx) as (q1 & -> & Hinv1 & Hlanes & Hadv).
  rewrite <-Hlanes in Hl. rewrite advance_Ok with (l := l) by done. intros [= <-].
  destruct (move_step q1 lb name i l w w' id) as [Hg _]; [done..|].
  split; [exact Hg|]. by apply records_advance_step.
Qed.

Lemma worker_step q lb name i r :
  queue_inv cfg q →
  match lb with
  | Start n j | Frame n j _ | EngineEnds n j | EngineFails n j _ | EngineCancels n j | DeadlineExpires n j
  | Report n j | Finish n j | Schedule n j => n = name ∧ j = i
  | _ => False
  end →
  handle cfg q lb = Some r → stepped q lb r.
Proof.
  intros Hinv Hlb. destruct lb; try done; destruct Hlb as [-> ->]; cbn [handle];
    destruct (worker_at q name i) as [[l w]|] eqn:Hw; try done;
    apply worker_at_Some in Hw as [Hl Hw]; destruct w; try done.
  - destruct (lane_queue l) as [|id rest] eqn:Hlq; [done|].
    destruct (start_step cfg q name l i id rest) as (q' & -> & Hinv' & Hadv); [done..|].
    intros [= <-]. split; [by left|by apply records_advance_step].
  - by eapply publish_move_step.
  - rewrite advance_Ok with (l := l) by done. intros [= <-]. by eapply move_step.
  - rewrite advance_Ok with (l := l) by done. intros [= <-]. by eapply move_step.
  - rewrite advance_Ok with (l := l) by done. intros [= <-]. by eapply move_step.
  - rewrite advance_Ok with (l := l) by done. intros [= <-]. by eapply move_step.
  - by eapply publish_move_step.
  - destruct (finish_step cfg q name l i job outcome) as (q1 & -> & Hlanes & Hinv1 & Hadv & _);
      [done..|].
    rewrite <-Hlanes in Hl. rewrite advance_Ok with (l := l) by done. intros [= <-].
    split; [by left|by apply records_advance_step].
  - rewrite advance_Ok with (l := l) by done. intros [= <-].
    split; [left|apply records_step_refl].
    apply inv_worker with (Closing job); [done..| |].
    { split; intros [j Hj]; done. }
    apply inv_evictions; [|done]. intros e x [He|He]%elem_of_app Hx; [by eapply (q_evicted _ _ Hinv)|].
    eapply (q_closing _ _ Hinv name l job x); [done|by eapply list_elem_of_lookup_2|].
    apply elem_of_cons in He as [-> |He]; [done|]. apply list_elem_of_singleton in He as ->. done.
Qed.

Lemma evict_inv q e :
  queue_inv cfg q → queue_inv cfg (set_evictions q (filter (λ e', e' ≠ e) (evictions q))).
Proof.
  intros Hinv. apply inv_evictions; [|done]. intros e' r [_ He]%list_elem_of_filter.
  by apply (q_evicted _ _ Hinv).
Qed.

Lemma evict_record_step q id q' :
  queue_inv cfg q → DropRecord id ∈ evictions q →
  q' = _drop_record_later (set_evictions q
         (filter (λ e, e ≠ DropRecord id) (evictions q))) id →
  good q' ∧ records_step (records q) (records q').
Proof.
  intros Hinv Hin ->.
  assert (∀ r, dict_get (records q) id = Some r → job_state r = TERMINAL) as Hterm
    by (intros r Hr; by apply (q_evicted _ _ Hinv (DropRecord id))).
  split; [left; apply drop_record_step; [done|by apply evict_inv]|].
  intros j r Hr. change (records (_drop_record_later _ id)) with (dict_pop (records q) id).
  destruct (decide (j = id)) as [->|Hne].
  - left. rewrite dict_get_pop_eq. split; [done|by apply Hterm].
  - right. exists r. by rewrite dict_get_pop_ne.
Qed.

Lemma attach_step q id sub r :
  good q → handle cfg q (Attach id sub) = Some r → stepped q (Attach id sub) r.
Proof.
  intros Hg. cbn [handle]. destruct (streams q !! id) as [s|] eqn:Hs.
  2:{ intros [= <-]. exists id, sub. split_and!; [done..|]. apply eq_None_not_Some.
      intros Hr. destruct Hg as [Hinv|Hst].
      - apply (q_streams _ _ Hinv) in Hr. by rewrite Hs in Hr; destruct Hr.
      - apply (s_held _ Hst) in Hr. by rewrite Hs in Hr; destruct Hr. }
  case_decide; [done|]. intros [= <-]. split; [|apply records_step_refl].
  destruct Hg as [Hinv|Hst].
  - left. apply inv_stream with s; [done| | |done]; unfold stream_open;
      by destruct (stream_closed s) eqn:Hc.
  - right. unfold stream_open. rewrite (s_streams _ Hst id s Hs). cbn [fst].
    assert (set_stream q id s = q) as ->; [|done].
    unfold set_stream. rewrite insert_id by done. by destruct q.
Qed.

Lemma terminal_advances r :
  job_state r ≠ TERMINAL → advances r (set_terminal (Some shutdown_abandoned) r).
Proof.
  intros Hs. constructor; try done. cbn. destruct (job_state r); cbn; lia.
Qed.

(** What the sweep needs of either kind of queue. *)
Lemma good_facts q :
  good q →
  NoDup (dict_keys (records q))
  ∧ (∀ id x, dict_get (records q) id = Some x → job_id x = id)
  ∧ (∀ id, is_Some (streams q !! id) ↔ is_Some (dict_get (records q) id))
  ∧ ∀ id s x, streams q !! id = Some s → dict_get (records q) id = Some x →
      job_state x = TERMINAL → stream_closed s = true ∧ queue_position x = None.
Proof.
  intros [Hinv|Hst].
  - split_and!; try apply Hinv. intros id s x Hs Hx Ht. split.
    + by apply (q_stream _ _ Hinv id s x).
    + rewrite (q_position _ _ Hinv id x Hx). by rewrite decide_False by congruence.
  - split_and!; try apply Hst. intros id s x Hs Hx _. split; [by apply (s_streams _ Hst id)|].
    by apply (s_terminal _ Hst id).
Qed.

Lemma stop_finish_stopped q q' :
  good q → handle cfg q StopFinish = Some (Ok q') → stopped q'.
Proof.
  intros (Hkeys & Hids & Hheld & Hterm)%good_facts. cbn [handle].
  destruct (accepting q) eqn:Hacc; [done|]. intros [= Hq'].
  destruct (stop_finish_sweep q Hkeys Hids) as (q0 & H0 & He & Ha & Hl & Hk & Hrec & Hstr & Hsd).
  assert (q' = q0) as -> by congruence. clear Hq' H0.
  assert (∀ id, is_Some (dict_get (records q0) id) ↔ is_Some (dict_get (records q) id)) as Hdom
    by (intros id; by rewrite !dict_get_is_Some, Hk).
  constructor; try done; [by rewrite Ha|by rewrite Hk| | | |].
  - intros id x Hx. destruct (proj1 (Hdom id)) as [y Hy]; [by eexists|].
    rewrite (Hrec id y Hy) in Hx. injection Hx as <-. pose proof (Hids id y Hy). by case_decide.
  - intros id x Hx. destruct (proj1 (Hdom id)) as [y Hy]; [by eexists|].
    rewrite (Hrec id y Hy) in Hx. injection Hx as <-. case_decide as Ht; [|done].
    split; [done|]. destruct (proj2 (Hheld id)) as [s Hs]; [by eexists|].
    by apply (Hterm id s).
  - intros id. rewrite Hdom, Hsd. done.
  - intros id s Hs. destruct (proj1 (Hsd id)) as [s0 Hs0]; [by eexists|].
    rewrite (Hstr id s0 Hs0) in Hs. injection Hs as <-.
    destruct (proj1 (Hheld id)) as [y Hy]; [by eexists|]. rewrite Hy.
    case_decide; [|done]. by apply (Hterm id s0 y).
Qed.

Lemma stop_finish_step q r :
  good q → handle cfg q StopFinish = Some r → stepped q StopFinish r.
Proof.
  intros Hg Hh. pose proof Hh as Hh'. cbn [handle] in Hh'.
  destruct (accepting q) eqn:Hacc; [done|]. injection Hh' as <-.
  destruct (good_facts q Hg) as (Hkeys & Hids & _).
  destruct (stop_finish_sweep q Hkeys Hids) as (q' & Hq' & _ & _ & _ & _ & Hrec & _).
  rewrite Hq' in Hh |- *. split; [right; by apply stop_finish_stopped with q|].
  intros id x Hx. right. eexists. split; [by apply Hrec|]. case_decide; [done|].
  by apply terminal_advances.
Qed.

Lemma handle_step q lb r : good q → handle cfg q lb = Some r → stepped q lb r.
Proof.
  intros [Hinv|Hst] Hh.
  - destruct lb as [name request id now|name i|name i event|name i|name i k|name i|name i|name i
      |name i|name i|id|id|id sub| |];
      try (by eapply worker_step).
    + cbn [handle] in Hh. destruct (occurs q id) eqn:Hocc; [done|].
      destruct (submit_step cfg q name request id now Hinv Hocc) as [Hinv' Hadv].
      assert (r = Ok (submit cfg q name request id now).1) as ->
        by (destruct (submit cfg q name request id now) as [q' [x|e]]; by injection Hh as <-).
      split; [by left|by apply records_advance_step].
    + cbn [handle] in Hh. case_decide; [|done]. injection Hh as <-.
      destruct (drop_buffer_step cfg _ id (evict_inv q (DropBuffer id) Hinv))
        as (q' & -> & Hinv' & Hadv).
      split; [by left|by apply records_advance_step].
    + cbn [handle] in Hh. case_decide; [|done]. injection Hh as <-.
      by eapply evict_record_step.
    + by apply attach_step; [left|].
    + cbn [handle] in Hh. destruct (accepting q); [|done]. injection Hh as <-.
      split; [left; by apply stop_begin_step|apply records_step_refl].
    + by apply stop_finish_step; [left|].
  - destruct lb as [name request id now|name i|name i event|name i|name i k|name i|name i|name i
      |name i|name i|id|id|id sub| |]; try (by apply attach_step; [right|]);
      try (by apply stop_finish_step; [right|]); cbn [handle] in Hh;
      try (by rewrite (stopped_no_worker q name i Hst) in Hh);
      try (by rewrite (s_evictions _ Hst), decide_False in Hh by apply not_elem_of_nil).
    + destruct (occurs q id); [done|]. unfold submit in Hh. rewrite (s_accepting _ Hst) in Hh.
      injection Hh as <-. split; [by right|apply records_step_refl].
    + by rewrite (s_accepting _ Hst) in Hh.
Qed.

Lemma initial_inv name : queue_inv cfg (initial cfg name).
Proof.
  assert (∀ n l, lanes (initial cfg name) !! n = Some l → l = new_lane cfg) as Hl
    by (intros n l; cbn; by intros [_ <-]%lookup_singleton_Some).
  assert (∀ k, omap holding (replicate k Idle) = []) as Hno
    by (intros k; induction k as [|k IH]; [done|by cbn]).
  constructor; cbn [records requests streams evictions accepting initial]; try done.
  - apply NoDup_nil_2.
  - by intros n l ->%Hl.
  - intros n l ->%Hl ?. cbn. lia.
  - intros n l ->%Hl. cbn. rewrite length_replicate, Hno. split; [done|apply NoDup_nil_2].
  - intros n l w ->%Hl. cbn. intros [-> _]%elem_of_replicate. split; [by intros [? ?]|done].
  - intros n l id ->%Hl. cbn. rewrite Hno. by intros ?%not_elem_of_nil.
  - intros id. rewrite lookup_empty. split; [by intros [? ?]|by intros (? & ? & _)].
  - intros id. rewrite lookup_empty. cbn. split; by intros [? ?].
Qed.

Lemma reachable_good name q : reachable cfg name q → good q.
Proof.
  induction 1 as [|q lb q' _ IH Hh]; [left; apply initial_inv|].
  apply (handle_step q lb (Ok q') IH Hh).
Qed.

(** Once swept, the records stand. *)
Lemma stopped_records q lb q' :
  stopped q → handle cfg q lb = Some (Ok q') → records q' = records q.
Proof.
  intros Hst Hh. destruct lb as [name request id now|name i|name i event|name i|name i k|name i|name i
    |name i|name i|name i|id|id|id sub| |];
    try (cbn [handle] in Hh; by rewrite (stopped_no_worker q name i Hst) in Hh);
    try (cbn [handle] in Hh;
         by rewrite (s_evictions _ Hst), decide_False in Hh by apply not_elem_of_nil).
  - cbn [handle] in Hh. destruct (occurs q id); [done|]. unfold submit in Hh.
    rewrite (s_accepting _ Hst) in Hh. by injection Hh as <-.
  - cbn [handle] in Hh. destruct (streams q !! id); [|done]. case_decide; [done|].
    by injection Hh as <-.
  - cbn [handle] in Hh. by rewrite (s_accepting _ Hst) in Hh.
  - pose proof Hh as Hh'. cbn [handle] in Hh'. destruct (accepting q); [done|].
    injection Hh' as Hq'. unfold stop_finish in Hq'.
    assert (registry_open (records q) = []) as Ho.
    { unfold registry_open, dict_values.
      destruct (filter _ _) as [|x l] eqn:Hf; [done|].
      assert (x ∈ filter (λ r, job_state r ≠ TERMINAL) (records q).*2) as Hx
        by (rewrite Hf; by left).
      apply list_elem_of_filter in Hx as [Hs ([k y] & -> & Hin)%list_elem_of_fmap].
      apply dict_get_NoDup in Hin; [|apply Hst].
      by destruct Hs; apply (s_terminal _ Hst k y). }
    cbn [records] in Hq'. rewrite Ho in Hq'. by injection Hq' as <-.
Qed.
End reachability.

Section properties.
Context (cfg : JobQueueSettings).

(** C2. On every queue the transitions reach from [start], the queue's three views of
    a job agree: each lane's asyncio queue and its pending list are the lane's QUEUED
    records in submission order, within the configured depth; a QUEUED record's
    position is its 1-based place there and no other record has one; the RUNNING
    records are exactly the jobs its workers hold, each by one worker; requests are
    held for the waiting jobs and streams for the recorded ones, closed exactly when
    terminal. Or [stop] has swept it. *)
Theorem queue_invariant default_lane q :
  reachable cfg default_lane q → queue_inv cfg q ∨ stopped q.
Proof. apply reachable_good. Qed.

(** C27. No transition of a reachable queue raises, except a reader attaching to a job
    the queue holds no record of; and a transition only moves a record forward
    (QUEUED, RUNNING, TERMINAL; its address, lane and submission time fixed; an outcome,
    once terminal, fixed; [truncated] never cleared) and drops it only once TERMINAL. *)
Theorem transitions_safe default_lane q lb r :
  reachable cfg default_lane q → handle cfg q lb = Some r →
  match r with
  | Ok q' => records_step (records q) (records q')
  | Err e => ∃ id sub, lb = Attach id sub ∧ e = KeyError id ∧ dict_get (records q) id = None
  end.
Proof.
  intros Hq Hh. pose proof (handle_step cfg q lb r (reachable_good _ _ _ Hq) Hh) as Hs.
  destruct r as [q'|e]; [exact (proj2 Hs)|exact Hs].
Qed.

(** The lane's waiting jobs, when the lane was never made. *)
Lemma queued_no_lane q name :
  queue_inv cfg q → lanes q !! name = None → queued_on name (records q) = [].
Proof.
  intros Hinv Hl. destruct (queued_on name (records q)) as [|id l] eqn:Hq; [done|].
  assert (id ∈ queued_on name (records q)) as Hid by (rewrite Hq; by left).
  apply queued_on_elem in Hid as (r & Hr & Hs & <-); [|apply Hinv].
  destruct (q_queued _ _ Hinv id r Hr Hs) as [x Hx]. congruence.
Qed.

Lemma ensured_queue q name :
  accepting q = true → queue_inv cfg q →
  pending (_ensure_lane cfg q name).2 = queued_on name (records q)
  ∧ lane_queue (_ensure_lane cfg q name).2 = queued_on name (records q).
Proof.
  intros Hacc Hinv. destruct (inv_ensure_lane cfg q name Hacc Hinv) as (Hinv1 & Hl & Hr & _).
  destruct (q_pending _ _ Hinv1 name _ Hl) as [Hp Hlq]. by rewrite Hp, Hlq, Hr.
Qed.

(** A submission is refused, with nothing recorded, exactly when the queue does
    not accept or the lane's waiting jobs are at the configured depth (zero bounds
    nothing); otherwise the record is appended to the registry as QUEUED at the place
    after the jobs waiting on its lane, which it joins last. *)
Theorem submit_spec default_lane q name request id now :
  reachable cfg default_lane q → occurs q id = false →
  let waiting := queued_on name (records q) in
  let q' := (submit cfg q name request id now).1 in
  let bound := max_depth_per_lane cfg in
  match (submit cfg q name request id now).2 with
  | Err e => records q' = records q
      ∧ (accepting q = false ∧ e = QueueFullError name None
         ∨ 0 < bound ≤ length waiting ∧ e = QueueFullError name (Some bound))
  | Ok r => accepting q = true ∧ (0 < bound → length waiting < bound)
      ∧ records q' = records q ++ [(id, r)]
      ∧ queued_on name (records q') = waiting ++ [id]
      ∧ job_id r = id ∧ lane r = name ∧ job_state r = QUEUED
      ∧ queue_position r = Some (S (length waiting))
      ∧ job_scope r = submission_scope request ∧ job_outcome r = None
      ∧ requests q' !! id = Some request
      ∧ streams q' !! id = Some (new_stream (event_buffer_capacity cfg))
  end.
Proof.
  intros Hq Hfresh. cbv zeta. unfold submit.
  destruct (accepting q) eqn:Hacc; cbn [negb fst snd]; [|split; [done|by left]].
  destruct (reachable_good _ _ _ Hq) as [Hinv|Hst]; [|by rewrite (s_accepting _ Hst) in Hacc].
  apply occurs_false in Hfresh as (Hrec & _).
  destruct (inv_ensure_lane cfg q name Hacc Hinv) as (_ & _ & Hrs & _).
  destruct (ensured_queue q name Hacc Hinv) as [Hp Hlq].
  destruct (_ensure_lane cfg q name) as [q1 l] eqn:Hens. cbn [fst snd] in *.
  unfold queue_full. rewrite Hlq, Hp, Hrs.
  destruct ((0 <? max_depth_per_lane cfg) && _) eqn:Hfull; cbn [fst snd records].
  { split; [done|right]. split; [|done].
    apply andb_true_iff in Hfull as [?%Nat.ltb_lt ?%Nat.leb_le]. lia. }
  split; [done|]. split.
  { intros Hb. apply andb_false_iff in Hfull as [?%Nat.ltb_ge|?%Nat.leb_gt]; lia. }
  unfold registry_add. cbn [job_id lane job_state queue_position job_scope job_outcome requests streams].
  rewrite !lookup_insert_eq, queued_on_add by done. cbn [job_state lane].
  rewrite decide_True by done. rewrite dict_set_fresh by done.
  split_and!; try done. f_equal. lia.
Qed.

(** A worker that starts a job starts the one its lane's submission order puts
    first: that record becomes RUNNING with no position, it leaves the waiting jobs,
    and each job still waiting is one place nearer the front. *)
Theorem start_spec default_lane q name i r :
  reachable cfg default_lane q → handle cfg q (Start name i) = Some r →
  ∃ q' id rest, r = Ok q' ∧ queued_on name (records q) = id :: rest
    ∧ queued_on name (records q') = rest
    ∧ (∃ x, dict_get (records q') id = Some x ∧ job_state x = RUNNING
            ∧ queue_position x = None)
    ∧ ∀ k j, rest !! k = Some j →
        (∃ x, dict_get (records q) j = Some x ∧ queue_position x = Some (S (S k)))
        ∧ ∃ x, dict_get (records q') j = Some x ∧ queue_position x = Some (S k).
Proof.
  intros Hq Hh. destruct (reachable_good _ _ _ Hq) as [Hinv|Hst].
  2:{ cbn [handle] in Hh. by rewrite stopped_no_worker in Hh. }
  cbn [handle] in Hh. destruct (worker_at q name i) as [[l w]|] eqn:Hw; [|done].
  apply worker_at_Some in Hw as [Hl Hw]. destruct w; try done.
  destruct (lane_queue l) as [|id rest] eqn:Hlq; [done|]. injection Hh as <-.
  destruct (start_step cfg q name l i id rest) as (q' & Hs & Hinv' & _); [done..|].
  exists q', id, rest. destruct (q_pending _ _ Hinv name l Hl) as [_ Hwait].
  rewrite Hlq in Hwait. split; [done|]. split; [done|].
  assert (lanes q' !! name = Some {| lane_queue := rest; pending := remove_first id (pending l);
    workers := <[i := Running id None]> (workers l) |}) as Hl'.
  { unfold start_job in Hs. destruct (amend _ id set_running); [|done]. cbn in Hs.
    destruct (requests q !! id); [|done]. injection Hs as <-. cbn. by rewrite lookup_insert_eq. }
  destruct (q_pending _ _ Hinv' name _ Hl') as [_ Hwait']. cbn in Hwait'.
  assert (∀ q0 wait k j, queue_inv cfg q0 → queued_on name (records q0) = wait →
    wait !! k = Some j → ∃ x, dict_get (records q0) j = Some x
      ∧ queue_position x = Some (S k)) as Hpos.
  { intros q0 wait k j Hinv0 Hwq Hk.
    assert (j ∈ queued_on name (records q0)) as Hj
      by (rewrite Hwq; by eapply list_elem_of_lookup_2).
    apply queued_on_elem in Hj as (x & Hx & Hsx & Hlx); [|apply Hinv0].
    exists x. split; [done|]. rewrite (q_position _ _ Hinv0 j x Hx), decide_True by done.
    rewrite Hlx, Hwq. f_equal. f_equal. apply index_of_lookup; [|done].
    rewrite <-Hwq. apply queued_on_NoDup, Hinv0. }
  split; [done|]. split.
  - destruct (q_held _ _ Hinv' name _ id Hl') as (x & Hx & Hr & _).
    { cbn. apply list_elem_of_omap. exists (Running id None). split; [|done].
      eapply list_elem_of_lookup_2 with i, list_lookup_insert_eq. by eapply lookup_lt_Some. }
    exists x. split; [done|]. split; [done|].
    by rewrite (q_position _ _ Hinv' id x Hx), decide_False by congruence.
  - intros k j Hk. split; [|by apply (Hpos q' rest)].
    by apply (Hpos q (id :: rest) (S k) j).
Qed.

(** The RUNNING records of a lane. *)
Definition running_on (name : string) (rs : registry) : list string :=
  (filter (λ kv, job_state kv.2 = RUNNING ∧ lane kv.2 = name) rs).*1.

Lemma length_omap_le {A B} (f : A → option B) (l : list A) : length (omap f l) ≤ length l.
Proof. induction l as [|x l IH]; [done|]. rewrite omap_cons_eq. destruct (f x); cbn; lia. Qed.

(** At no time are more jobs of a lane RUNNING than the configured concurrency. *)
Theorem concurrency_bound default_lane q name :
  reachable cfg default_lane q →
  length (running_on name (records q)) ≤ max_concurrent_runs_per_lane cfg.
Proof.
  intros Hq.
  assert (∀ id, NoDup (dict_keys (records q)) → id ∈ running_on name (records q) →
    ∃ r, dict_get (records q) id = Some r ∧ job_state r = RUNNING ∧ lane r = name) as Hrun.
  { intros id Hk Hid. unfold running_on in Hid.
    apply list_elem_of_fmap in Hid as ([k r] & -> & [[Hs Hl] Hin]%list_elem_of_filter).
    exists r. split; [by apply dict_get_NoDup|done]. }
  destruct (reachable_good _ _ _ Hq) as [Hinv|Hst].
  - specialize (λ id, Hrun id (q_keys _ _ Hinv)).
    destruct (running_on name (records q)) as [|id0 ids] eqn:Hids; [cbn; lia|].
    destruct (Hrun id0) as (r0 & Hr0 & Hs0 & Hl0); [by left|].
    destruct (q_running _ _ Hinv id0 r0 Hr0 Hs0) as (l & Hl & _). rewrite Hl0 in Hl.
    destruct (q_workers _ _ Hinv name l Hl) as [<- Hnd].
    etransitivity; [|apply (length_omap_le holding)].
    apply submseteq_length, NoDup_submseteq.
    + rewrite <-Hids. apply NoDup_fmap_filter, Hinv.
    + intros id Hid. destruct (Hrun id Hid) as (r & Hr & Hs & Hrl).
      destruct (q_running _ _ Hinv id r Hr Hs) as (l' & Hl' & Hin). congruence.
  - destruct (running_on name (records q)) as [|id0 ids] eqn:Hids; [cbn; lia|].
    destruct (Hrun id0) as (r0 & Hr0 & Hs0 & Hl0); [apply Hst|by left|].
    destruct (s_terminal _ Hst id0 r0 Hr0). congruence.
Qed.

(** The two halves of [stop] always run: afterwards nothing is accepted, every job
    that was TERMINAL keeps its record, every other one, waiting or running, is
    TERMINAL as shutdown_abandoned without a position, every stream is closed, no
    eviction is left, and whatever happens next leaves the records as they are. *)
Theorem stop_spec default_lane q :
  reachable cfg default_lane q → accepting q = true →
  ∃ q1 q2, handle cfg q StopBegin = Some (Ok q1) ∧ handle cfg q1 StopFinish = Some (Ok q2)
    ∧ accepting q2 = false ∧ evictions q2 = []
    ∧ dict_keys (records q2) = dict_keys (records q)
    ∧ (∀ id r, dict_get (records q) id = Some r → dict_get (records q2) id
         = Some (if decide (job_state r = TERMINAL) then r
                 else set_terminal (Some shutdown_abandoned) r))
    ∧ (∀ id s, streams q2 !! id = Some s → stream_closed s = true)
    ∧ ∀ lb q3, handle cfg q2 lb = Some (Ok q3) → records q3 = records q2.
Proof.
  intros Hq Hacc. destruct (reachable_good _ _ _ Hq) as [Hinv|Hst].
  2:{ by rewrite (s_accepting _ Hst) in Hacc. }
  assert (handle cfg q StopBegin = Some (Ok (stop_begin q))) as H1 by (cbn; by rewrite Hacc).
  destruct (stop_finish_sweep (stop_begin q)) as (q2 & H2 & He & Ha & Hl & Hk & Hrec & Hstr & Hsd);
    [apply Hinv..|].
  assert (handle cfg (stop_begin q) StopFinish = Some (Ok q2)) as H2' by (cbn; by rewrite <-H2).
  assert (good cfg (stop_begin q)) as Hg1 by (left; by apply stop_begin_step).
  assert (stopped q2) as Hst by (by eapply stop_finish_stopped).
  exists (stop_begin q), q2. split_and!; try done; [apply Hst|].
  intros lb q3. by apply stopped_records.
Qed.

(** What a run's frames and its end leave as the job's outcome. *)
Inductive run_end := Ends | Fails (error_kind : string) | TimesOut.
Definition end_labels (name : string) (i : nat) (e : run_end) : list label :=
  match e with
  | Ends => [EngineEnds name i; Finish name i]
  | Fails k => [EngineFails name i k; Report name i; Finish name i]
  | TimesOut => [DeadlineExpires name i; Report name i; Finish name i]
  end.
Definition run_outcome (frames : list AgentEvent) (e : run_end) : option WorkflowOutcome :=
  match e with
  | Ends => foldl (λ o ev, event_outcome ev o) None frames
  | Fails _ => Some engine_error
  | TimesOut => Some job_timed_out
  end.

Fixpoint exec (q : JobQueue) (lbs : list label) : option (result exn JobQueue) :=
  match lbs with
  | [] => Some (Ok q)
  | lb :: lbs =>
      match handle cfg q lb with
      | Some (Ok q') => exec q' lbs
      | r => r
      end
  end.

Lemma exec_reachable name q lbs q' :
  reachable cfg name q → exec q lbs = Some (Ok q') → reachable cfg name q'.
Proof.
  revert q. induction lbs as [|lb lbs IH]; intros q Hq; cbn [exec].
  { by intros [= <-]. }
  destruct (handle cfg q lb) as [[q1|e]|] eqn:Hh; [|done|done].
  apply IH. by apply reach_step with q lb.
Qed.

Lemma moved_worker q name i l w w' :
  lanes q !! name = Some l → workers l !! i = Some w →
  worker_at (set_lane q name (put_worker l i w')) name i = Some (put_worker l i w', w').
Proof.
  intros Hl Hw. unfold worker_at. cbn. rewrite lookup_insert_eq. cbn.
  by rewrite list_lookup_insert_eq by (by eapply lookup_lt_Some).
Qed.

(** Publishing with a worker's move, as an equation. *)
Lemma publish_moves q name i l w w' id event :
  queue_inv cfg q → worker_at q name i = Some (l, w) →
  holding w = Some id → holding w' = Some id →
  (∀ j, w ≠ Cancelled j) → (∀ j, w' ≠ Cancelled j) →
  ∃ q', advance (_publish q id event) name i w' = Some (Ok q') ∧ queue_inv cfg q'
    ∧ ∃ l', worker_at q' name i = Some (l', w').
Proof.
  intros Hinv [Hl Hw]%worker_at_Some Hh Hh' Hc Hc'.
  destruct (held_record cfg q name l i w id) as [x Hx]; [done..|].
  destruct (publish_step cfg q id event x Hinv Hx) as (q1 & -> & Hinv1 & Hlanes & Hadv).
  rewrite <-Hlanes in Hl. rewrite advance_Ok with (l := l) by done.
  eexists. split; [done|]. split; [|eexists; by eapply moved_worker].
  apply inv_worker with w; [done..|congruence| | |done].
  - by intros j r ->.
  - split; intros [j Hj]; [by destruct (Hc' j)|by destruct (Hc j)].
Qed.

Lemma worker_moves q name i l w w' id :
  queue_inv cfg q → worker_at q name i = Some (l, w) →
  holding w = Some id → holding w' = Some id →
  (∀ j, w ≠ Cancelled j) → (∀ j, w' ≠ Cancelled j) →
  ∃ q', advance (Ok q) name i w' = Some (Ok q') ∧ queue_inv cfg q'
    ∧ ∃ l', worker_at q' name i = Some (l', w').
Proof.
  intros Hinv [Hl Hw]%worker_at_Some Hh Hh' Hc Hc'.
  rewrite advance_Ok with (l := l) by done. eexists. split; [done|].
  split; [|eexists; by eapply moved_worker].
  apply inv_worker with w; [done..|congruence| | |done].
  - by intros j r ->.
  - split; intros [j Hj]; [by destruct (Hc' j)|by destruct (Hc j)].
Qed.

Lemma frames_exec frames q name i l id o rest :
  queue_inv cfg q → worker_at q name i = Some (l, Running id o) →
  ∃ q' l', exec q (map (Frame name i) frames ++ rest) = exec q' rest ∧ queue_inv cfg q'
    ∧ worker_at q' name i
      = Some (l', Running id (foldl (λ o ev, event_outcome ev o) o frames)).
Proof.
  revert q l o. induction frames as [|ev frames IH]; intros q l o Hinv Hw.
  { by exists q, l. }
  destruct (publish_moves q name i l (Running id o) (Running id (event_outcome ev o)) id ev)
    as (q1 & H1 & Hinv1 & l1 & Hw1); [done..|].
  destruct (IH q1 l1 _ Hinv1 Hw1) as (q' & l' & He & Hinv' & Hw').
  exists q', l'. split; [|done]. cbn [map app exec handle]. by rewrite Hw, H1.
Qed.

Lemma finish_exec q name i l id o :
  queue_inv cfg q → worker_at q name i = Some (l, Finishing id o) →
  ∃ q', exec q [Finish name i] = Some (Ok q') ∧ queue_inv cfg q'
    ∧ ∃ r, dict_get (records q') id = Some r ∧ job_state r = TERMINAL ∧ job_outcome r = o.
Proof.
  intros Hinv Hw. pose proof Hw as [Hl Hwi]%worker_at_Some.
  destruct (finish_step cfg q name l i id o) as (q1 & H1 & Hl1 & Hinv1 & _ & r & Hr);
    [done..|].
  rewrite <-Hl1 in Hl. cbn [exec handle]. rewrite Hw, H1, advance_Ok with (l := l) by done.
  eexists. split; [done|]. split; [done|]. by exists r.
Qed.

Lemma report_exec q name i l id ev o :
  queue_inv cfg q → worker_at q name i = Some (l, Reporting id ev o) →
  ∃ q', exec q [Report name i; Finish name i] = Some (Ok q') ∧ queue_inv cfg q'
    ∧ ∃ r, dict_get (records q') id = Some r ∧ job_state r = TERMINAL
           ∧ job_outcome r = Some o.
Proof.
  intros Hinv Hw.
  destruct (publish_moves q name i l (Reporting id ev o) (Finishing id (Some o)) id ev)
    as (q1 & H1 & Hinv1 & l1 & Hw1); [done..|].
  destruct (finish_exec q1 name i l1 id (Some o)) as (q' & He & Hr); [done..|].
  exists q'. split; [|done]. cbn [exec handle] in *. by rewrite Hw, H1.
Qed.

(** A started run always reaches its end: whatever frames it yields and however it
    ends, the job's record becomes TERMINAL and its stream closed; its outcome is the
    one its last terminal frame names when the run returned, engine_error when it
    raised and job_timed_out when the queue's limit ended it, whatever it yielded. *)
Theorem run_spec default_lane q name i l id frames e :
  reachable cfg default_lane q → worker_at q name i = Some (l, Running id None) →
  ∃ q', exec q (map (Frame name i) frames ++ end_labels name i e) = Some (Ok q')
    ∧ ∃ r s, dict_get (records q') id = Some r ∧ job_state r = TERMINAL
        ∧ job_outcome r = run_outcome frames e
        ∧ streams q' !! id = Some s ∧ stream_closed s = true.
Proof.
  intros Hq Hw. destruct (reachable_good _ _ _ Hq) as [Hinv|Hst].
  2:{ by rewrite (stopped_no_worker q name i Hst) in Hw. }
  assert (∃ q', exec q (map (Frame name i) frames ++ end_labels name i e) = Some (Ok q')
    ∧ queue_inv cfg q' ∧ ∃ r, dict_get (records q') id = Some r ∧ job_state r = TERMINAL
      ∧ job_outcome r = run_outcome frames e) as (q' & He & Hinv' & r & Hr & Ht & Ho).
  { destruct (frames_exec frames q name i l id None (end_labels name i e))
      as (q1 & l1 & -> & Hinv1 & Hw1); [done..|].
    set (o := foldl _ None frames) in *.
    destruct e as [|k|]; cbn [end_labels run_outcome].
    - destruct (worker_moves q1 name i l1 (Running id o) (Finishing id o) id)
        as (q2 & H2 & Hinv2 & l2 & Hw2); [done..|].
      destruct (finish_exec q2 name i l2 id o) as (q' & Hx & Hr); [done..|].
      exists q'. split; [|done]. cbn [exec handle] in *. by rewrite Hw1, H2.
    - destruct (worker_moves q1 name i l1 (Running id o)
        (Reporting id (ErrorEvent k) engine_error) id)
        as (q2 & H2 & Hinv2 & l2 & Hw2); [done..|].
      destruct (report_exec q2 name i l2 id (ErrorEvent k) engine_error)
        as (q' & Hx & Hr); [done..|].
      exists q'. split; [|done]. cbn [exec handle] in *. by rewrite Hw1, H2.
    - destruct (worker_moves q1 name i l1 (Running id o)
        (Reporting id (ErrorEvent "TimeoutError") job_timed_out) id)
        as (q2 & H2 & Hinv2 & l2 & Hw2); [done..|].
      destruct (report_exec q2 name i l2 id (ErrorEvent "TimeoutError") job_timed_out)
        as (q' & Hx & Hr); [done..|].
      exists q'. split; [|done]. cbn [exec handle] in *. by rewrite Hw1, H2. }
  exists q'. split; [done|]. destruct (proj2 (q_streams _ _ Hinv' id)) as [s Hs]; [by eexists|].
  exists r, s. split_and!; try done. by apply (q_stream _ _ Hinv' id s r).
Qed.
End properties.

(** ** A reader's stream *)

(** What happens around one reader: frames published, the close, the buffer discarded,
    and the reader's own reads (one that would wait leaves all as it is). *)
Inductive stream_op := Publishes (event : AgentEvent) | Closes | Discards | Reads.

Definition stream_act (st : JobStream * reader) (op : stream_op) : JobStream * reader :=
  let '(s, r) := st in
  match op with
  | Publishes e => ((stream_publish s e).1, r)
  | Closes => (stream_close s, r)
  | Discards => ((discard_buffer s).1, r)
  | Reads => default (s, r) (stream_next s r)
  end.

(** The frames published before the close. *)
Fixpoint published (ops : list stream_op) : list AgentEvent :=
  match ops with
  | [] => []
  | Publishes e :: ops => e :: published ops
  | Closes :: _ => []
  | _ :: ops => published ops
  end.

Definition closes (ops : list stream_op) : bool :=
  existsb (λ op, match op with Closes => true | _ => false end) ops.

Lemma put_all_get item subs sub :
  dict_get (put_all item subs) sub = (λ q, q ++ [item]) <$> dict_get subs sub.
Proof.
  unfold put_all. induction subs as [|[k q] subs IH]; [done|]. cbn. by case_decide.
Qed.

Section reading.
Context (sub : nat).

(** What the reader has, will replay and has queued are the frames so far; its queue
    holds the end marker once the stream closed. *)
Definition reads_inv (st : JobStream * reader) (frames : list AgentEvent) (closed : bool) : Prop :=
  let '(s, r) := st in
  (returned r = true ∧ closed = true ∧ yielded r = frames)
  ∨ (returned r = false ∧ subscription r = Some sub
     ∧ ∃ waiting rest, dict_get (subscribers s) sub
         = Some ((Some <$> waiting) ++ (if closed then None :: rest else []))
       ∧ yielded r ++ replay r ++ waiting = frames).

Lemma open_inv s :
  stream_closed s = false → sub ∉ dict_keys (subscribers s) →
  reads_inv (stream_open s sub) (buffer s) false.
Proof.
  intros Hc Hs. unfold stream_open. rewrite Hc. right. cbn. split_and!; [done..|].
  exists [], []. split; [|by rewrite app_nil_r].
  rewrite <-dict_set_fresh by done. by rewrite dict_get_set_eq.
Qed.

Lemma put_inv s r s' frames closed item :
  subscribers s' = put_all item (subscribers s) →
  reads_inv (s, r) frames closed →
  reads_inv (s', r) (match item with
                     | Some e => if closed then frames else frames ++ [e]
                     | None => frames end)
    (match item with Some _ => closed | None => true end).
Proof.
  intros Hs [(Hr & -> & Hy)|(Hr & Hsub & w & rest & Hget & Hy)].
  { left. by destruct item. }
  right. split_and!; [done..|]. rewrite Hs, put_all_get, Hget. cbn [fmap option_fmap option_map].
  destruct closed, item as [e|].
  - exists w, (rest ++ [Some e]). split; [|done]. by rewrite <-app_assoc.
  - exists w, (rest ++ [None]). split; [|done]. by rewrite <-app_assoc.
  - exists (w ++ [e]), []. split; [by rewrite fmap_app, !app_nil_r|].
    by rewrite <-Hy, <-!app_assoc.
  - exists w, []. split; [|done]. by rewrite app_nil_r.
Qed.

Lemma read_inv s r frames closed :
  reads_inv (s, r) frames closed → reads_inv (default (s, r) (stream_next s r)) frames closed.
Proof.
  intros [(Hr & Hc & Hy)|(Hr & Hsub & w & rest & Hget & Hy)]; unfold stream_next; rewrite Hr.
  { by left. }
  destruct (replay r) as [|e rep] eqn:Hrep; cbn [default].
  2:{ right. cbn. split_and!; [done..|]. exists w, rest. split; [done|]. by rewrite <-app_assoc. }
  rewrite Hsub, Hget. destruct w as [|e w]; cbn [fmap list_fmap app].
  - destruct closed; cbn.
    + left. cbn. split_and!; [done..|]. cbn in Hy. by rewrite app_nil_r in Hy.
    + right. split_and!; [done..|]. exists [], []. by rewrite Hrep.
  - right. cbn. split_and!; [done..|]. exists w, rest. rewrite dict_get_set_eq.
    split; [done|]. by rewrite <-app_assoc.
Qed.

Lemma act_inv ops st frames closed :
  reads_inv st frames closed →
  reads_inv (foldl stream_act st ops)
    (if closed then frames else frames ++ published ops) (closed || closes ops).
Proof.
  revert st frames closed. induction ops as [|op ops IH]; intros [s r] frames closed Hinv.
  { cbn. rewrite app_nil_r, orb_false_r. by destruct closed. }
  cbn [foldl stream_act]. destruct op as [e| | |].
  - apply (put_inv s r (stream_publish s e).1 frames closed (Some e)) in Hinv; [|done].
    apply IH in Hinv. cbn. destruct closed; [done|]. by rewrite <-app_assoc in Hinv.
  - apply (put_inv s r (stream_close s) frames closed None) in Hinv; [|done].
    apply IH in Hinv. cbn. destruct closed; [done|]. by rewrite app_nil_r.
  - by apply (IH ((discard_buffer s).1, r)).
  - by apply read_inv, IH in Hinv.
Qed.

(** Closed, the reader never waits: each read yields a frame or ends. *)
Definition left_to_read (frames : list AgentEvent) (r : reader) : nat :=
  if returned r then 0 else S (length frames - length (yielded r)).

Lemma read_progress s r frames :
  reads_inv (s, r) frames true →
  left_to_read frames (default (s, r) (stream_next s r)).2 ≤ pred (left_to_read frames r).
Proof.
  intros [(Hr & _ & Hy)|(Hr & Hsub & w & rest & Hget & Hy)]; unfold stream_next, left_to_read.
  { rewrite !Hr. cbn. by rewrite Hr. }
  rewrite Hr. cbn [pred]. destruct (replay r) as [|e rep] eqn:Hrep.
  - rewrite Hsub, Hget. destruct w as [|e w]; cbn; [lia|].
    rewrite <-Hy, !length_app. cbn. lia.
  - cbn. rewrite <-Hy, !length_app. cbn. lia.
Qed.

Lemma read_to_end n s r frames :
  reads_inv (s, r) frames true → left_to_read frames r ≤ n →
  let r' := (foldl stream_act (s, r) (replicate n Reads)).2 in
  returned r' = true ∧ yielded r' = frames.
Proof.
  cbv zeta. revert s r. induction n as [|n IH]; intros s r Hinv Hn; cbn [replicate foldl].
  - unfold left_to_read in Hn. destruct (returned r) eqn:Hr; [|lia].
    destruct Hinv as [(_ & _ & Hy)|(Hr' & _)]; [done|congruence].
  - pose proof (read_progress s r frames Hinv) as Hp. apply read_inv in Hinv. cbn [stream_act].
    destruct (default (s, r) (stream_next s r)) as [s1 r1]. apply IH; [done|]. cbn in Hp. lia.
Qed.
End reading.

(** A reader that attaches to an open stream is given the frames buffered then,
    followed by every frame published until the close, in order, none twice and none
    missing, whatever is published, discarded or read in between: what it has yielded is
    always a prefix of those, and once the stream is closed it never waits and returns
    after yielding exactly them. *)
Theorem reader_spec s sub ops n :
  stream_closed s = false → sub ∉ dict_keys (subscribers s) →
  let frames := buffer s ++ published ops in
  let r := (foldl stream_act (stream_open s sub) ops).2 in
  let r' := (foldl stream_act (stream_open s sub) (ops ++ replicate n Reads)).2 in
  yielded r `prefix_of` frames
  ∧ (returned r = true → closes ops = true ∧ yielded r = frames)
  ∧ (closes ops = true → length frames < n → returned r' = true ∧ yielded r' = frames).
Proof.
  intros Hc Hs. cbv zeta. rewrite foldl_app.
  pose proof (act_inv sub ops _ _ _ (open_inv sub s Hc Hs)) as Hinv. cbn [orb] in Hinv.
  destruct (foldl stream_act (stream_open s sub) ops) as [s1 r1]. cbn [snd].
  split_and!.
  - destruct Hinv as [(_ & _ & ->)|(_ & _ & w & rest & _ & <-)]; [done|by apply prefix_app_r].
  - destruct Hinv as [(_ & Hcl & Hy)|(Hr & _)]; [done|congruence].
  - intros Hcl Hn. rewrite Hcl in Hinv. apply read_to_end with sub; [done|].
    unfold left_to_read. destruct (returned r1); lia.
Qed.

(** ** Concrete runs *)

Module demo.
Definition cfg : JobQueueSettings := {|
  max_concurrent_runs_per_lane := 1; max_depth_per_lane := 2; event_buffer_capacity := 2 |}.
Definition ask : WorkflowSubmission := {|
  prompt := "p"; submission_issue_key := None; submission_repo_path := None;
  submission_repo_url := None;
  base_spec := {| inputs := []; base_branch := "main"; base_role := None |}; implied_base := None;
  submission_scope := None; permission_mode := UNATTENDED; allowed_tools := inl IMPLEMENTATION |}.
Definition waiting : list label :=
  [Submit "main" ask "a" 1; Submit "main" ask "b" 2; Start "main" 0; Submit "main" ask "c" 3].

(** The queue after some labels; the initial one where they do not run. *)
Definition after (lbs : list label) : JobQueue :=
  match exec cfg (initial cfg "main") lbs with
  | Some (Ok q) => q
  | _ => initial cfg "main"
  end.

Lemma after_reachable lbs : reachable cfg "main" (after lbs).
Proof.
  unfold after. destruct (exec cfg _ lbs) as [[q|e]|] eqn:He; try apply reach_init.
  by eapply exec_reachable; [apply reach_init|].
Qed.
End demo.

(** An engine that raises [CancelledError] itself ends its lane's worker: the job stays
    RUNNING with its stream open, the lane of one worker starts no other, and only [stop]
    ends the job. *)
Example lane_without_worker :
  let q := demo.after (demo.waiting ++ [EngineCancels "main" 0]) in
  job_state <$> dict_get (records q) "a" = Some RUNNING
  ∧ queued_on "main" (records q) = ["b"; "c"]
  ∧ handle demo.cfg q (Start "main" 0) = None
  ∧ (λ x, (job_state x, job_outcome x)) <$>
      dict_get (records (demo.after (demo.waiting ++ [EngineCancels "main" 0; StopBegin; StopFinish]))) "a"
    = Some (TERMINAL, Some shutdown_abandoned).
Proof. by vm_compute. Qed.

Lemma queue_invariant_witness :
  let q := demo.after demo.waiting in
  queued_on "main" (records q) = ["b"; "c"] ∧ (queue_inv demo.cfg q ∨ stopped q).
Proof.
  split; [vm_compute; reflexivity|].
  apply (queue_invariant demo.cfg "main"), demo.after_reachable.
Defined.

Lemma transitions_safe_witness :
  ∃ q', handle demo.cfg (demo.after demo.waiting) (Frame "main" 0 (ErrorEvent "x")) = Some (Ok q')
    ∧ records_step (records (demo.after demo.waiting)) (records q').
Proof.
  eexists. split; [vm_compute; reflexivity|].
  refine (transitions_safe demo.cfg "main" (demo.after demo.waiting)
    (Frame "main" 0 (ErrorEvent "x")) (Ok _) (demo.after_reachable _) _).
  vm_compute. reflexivity.
Defined.

Lemma submit_spec_witness :
  queue_position <$> (match (submit demo.cfg (demo.after [Submit "main" demo.ask "a" 1]) "main"
    demo.ask "b" 2).2 with Ok r => Some r | Err _ => None end) = Some (Some 2)
  ∧ let q := demo.after demo.waiting in
    records (submit demo.cfg q "main" demo.ask "d" 4).1 = records q.
Proof.
  split; [vm_compute; reflexivity|].
  pose proof (submit_spec demo.cfg "main" (demo.after demo.waiting) "main" demo.ask "d" 4
    (demo.after_reachable _)) as H.
  cbv zeta in H. destruct (submit _ _ _ _ _ _).2 as [r|e] eqn:E; [vm_compute in E; discriminate|].
  apply H. vm_compute. reflexivity.
Defined.

Lemma start_spec_witness :
  let q := demo.after [Submit "main" demo.ask "a" 1; Submit "main" demo.ask "b" 2] in
  ∃ r, handle demo.cfg q (Start "main" 0) = Some r
    ∧ ∃ q' id rest, r = Ok q' ∧ queued_on "main" (records q) = id :: rest
      ∧ queued_on "main" (records q') = rest.
Proof.
  cbv zeta. eexists. split; [vm_compute; reflexivity|].
  edestruct (start_spec demo.cfg "main"
    (demo.after [Submit "main" demo.ask "a" 1; Submit "main" demo.ask "b" 2]) "main" 0)
    as (q' & id & rest & Hr & Hq & Hq' & _); [apply demo.after_reachable|vm_compute; reflexivity|].
  exists q', id, rest. split; [exact Hr|]. split; [exact Hq|exact Hq'].
Defined.

Lemma concurrency_bound_witness :
  running_on "main" (records (demo.after demo.waiting)) = ["a"]
  ∧ length (running_on "main" (records (demo.after demo.waiting))) ≤ 1.
Proof.
  split; [vm_compute; reflexivity|].
  apply (concurrency_bound demo.cfg "main"), demo.after_reachable.
Defined.

Lemma stop_spec_witness :
  accepting (demo.after demo.waiting) = true
  ∧ ∃ q1 q2, handle demo.cfg (demo.after demo.waiting) StopBegin = Some (Ok q1)
      ∧ handle demo.cfg q1 StopFinish = Some (Ok q2) ∧ accepting q2 = false.
Proof.
  split; [vm_compute; reflexivity|].
  destruct (stop_spec demo.cfg "main" (demo.after demo.waiting)) as (q1 & q2 & H1 & H2 & H3 & _);
    [apply demo.after_reachable|vm_compute; reflexivity|].
  exists q1, q2. split; [exact H1|]. split; [exact H2|exact H3].
Defined.

Lemma run_spec_witness :
  ∃ q', exec demo.cfg (demo.after demo.waiting)
      (map (Frame "main" 0) [WorkflowCompleteEvent shutdown_abandoned] ++ end_labels "main" 0 TimesOut)
      = Some (Ok q')
    ∧ ∃ r, dict_get (records q') "a" = Some r ∧ job_outcome r = Some job_timed_out.
Proof.
  edestruct (run_spec demo.cfg "main" (demo.after demo.waiting) "main" 0)
    with (frames := [WorkflowCompleteEvent shutdown_abandoned]) (e := TimesOut)
    as (q' & He & r & s & Hr & _ & Ho & _);
    [apply demo.after_reachable|vm_compute; reflexivity|].
  exists q'. split; [exact He|]. exists r. split; [exact Hr|exact Ho].
Defined.

Lemma reader_spec_witness :
  let s := (stream_publish (new_stream 2) (ErrorEvent "x")).1 in
  let r := (foldl stream_act (stream_open s 0)
    ([Publishes (ErrorEvent "y"); Discards; Reads; Closes] ++ replicate 3 Reads)).2 in
  yielded r = [ErrorEvent "x"; ErrorEvent "y"].
Proof.
  cbv zeta.
  destruct (reader_spec (stream_publish (new_stream 2) (ErrorEvent "x")).1 0
    [Publishes (ErrorEvent "y"); Discards; Reads; Closes] 3) as (_ & _ & H);
    [reflexivity|apply not_elem_of_nil|].
  apply H; [reflexivity|cbn; lia].
Defined.
