(* ===== verification/Surface.v ===== *)
(** * Writable surfaces (types/domain/surface.py, domain/surface_lease.py's order,
    domain/model_surfaces.py, adapters/linear/tracker.py's encoding).

    The addresses a writing job takes: their validated constructor, the total order two
    racing holders name a conflict by, and the line one marker carries for each, which
    tells two surfaces apart. A job that touches a marked model takes all of it. *)

From Stdlib Require Import Ascii.
From S2P Require Import Prelude PyStr Tracker Errors.

(** ** The address *)

Definition _CONTAINER_KINDS : list SurfaceKind := [CONTAINER_DESCRIPTION; CONTAINER_STATUS_UPDATE].
Definition BODY_AUTHORSHIP_SURFACES : list SurfaceKind := [ISSUE_DESCRIPTION; CRITERION_SUB_ISSUE].

(** [WritableSurface.__post_init__] *)
Definition make_surface (kind : SurfaceKind) (ref : ScopeRef) (marker : option string) :
    result exn WritableSurface :=
  if str_blank (scope_key ref) then
    Err (ValueError "a writable surface requires a nonblank scope key")
  else
    _ ← (if decide (kind ∈ _CONTAINER_KINDS) then
           if decide (scope_kind ref = ISSUE)
           then Err (ValueError "a container surface requires a container reference")
           else Ok tt
         else if decide (scope_kind ref ≠ ISSUE)
              then Err (ValueError "an issue surface requires an issue reference")
              else Ok tt);
    _ ← (if decide (kind = MARKER_COMMENT) then
           match marker with
           | Some m => if str_blank m
                       then Err (ValueError "a marker-keyed comment requires a nonblank marker")
                       else Ok tt
           | None => Err (ValueError "a marker-keyed comment requires a nonblank marker")
           end
         else match marker with
              | Some _ => Err (ValueError "only a marker-keyed comment may carry a marker")
              | None => Ok tt
              end);
    Ok {| surface_kind := kind; surface_ref := ref; surface_marker := marker |}.

Definition valid_surface (s : WritableSurface) : Prop :=
  make_surface (surface_kind s) (surface_ref s) (surface_marker s) = Ok s.

(** [surface_address]; the marker of a surface that carries none reads [""]. *)
Definition surface_address (s : WritableSurface) : list string :=
  [surface_kind_value (surface_kind s); scope_kind_value (scope_kind (surface_ref s));
   scope_key (surface_ref s); default "" (surface_marker s)].

Lemma valid_surface_marker s : valid_surface s → surface_marker s ≠ Some "".
Proof.
  destruct s as [k r m]. unfold valid_surface, make_surface. cbn [surface_kind surface_ref surface_marker].
  intros Hv ->. destruct (str_blank (scope_key r)); [done|].
  apply bind_ok in Hv as (? & _ & Hv). by destruct (decide (k = MARKER_COMMENT)).
Qed.

(** The order is total on valid surfaces: two of one address are one surface. *)
Lemma surface_address_inj s s' :
  valid_surface s → valid_surface s' → surface_address s = surface_address s' → s = s'.
Proof.
  intros Hv%valid_surface_marker Hv'%valid_surface_marker.
  destruct s as [k [sk key] m], s' as [k' [sk' key'] m']. cbn in *.
  intros [= ->%surface_kind_value_inj ->%scope_kind_value_inj -> Hm]. do 2 f_equal.
  destruct m as [m|], m' as [m'|]; cbn in Hm; congruence.
Qed.

(** ** The marker line: [urllib.parse.quote] of each component, joined by a bar *)

Definition unreserved (a : ascii) : bool :=
  let b := byte a in
  ((48 <=? b) && (b <=? 57) || (65 <=? b) && (b <=? 90) || (97 <=? b) && (b <=? 122)
   || (b =? 95) || (b =? 46) || (b =? 45) || (b =? 126))%Z.

Definition hex_upper (d : Z) : ascii :=
  ascii_of_N (Z.to_N (if (d <? 10)%Z then 48 + d else 55 + d)%Z).

Definition quote_char (a : ascii) : string :=
  if unreserved a then String a ""
  else String "%" (String (hex_upper (byte a / 16)) (String (hex_upper (byte a mod 16)) "")).
Definition quote (s : string) : string := str_map_chars quote_char s.

Definition _surface_line (s : WritableSurface) : string :=
  join "|" (quote <$> surface_address s).

(** What [quote] wrote, read back. *)
Definition hex_value (a : ascii) : Z :=
  if (byte a <? 58)%Z then byte a - 48 else byte a - 55.
Fixpoint unquote (s : string) : string :=
  match s with
  | String "%" (String a (String b s)) =>
      String (ascii_of_N (Z.to_N (hex_value a * 16 + hex_value b))) (unquote s)
  | String a s => String a (unquote s)
  | EmptyString => ""
  end.

Lemma unquote_char a s : unquote (quote_char a +:+ s) = String a (unquote s).
Proof. destruct a as [[] [] [] [] [] [] [] []]; reflexivity. Qed.

Lemma unquote_quote s : unquote (quote s) = s.
Proof. induction s as [|a s IH]; [done|]. unfold quote in *. cbn [str_map_chars]. by rewrite unquote_char, IH. Qed.

Lemma quote_inj s s' : quote s = quote s' → s = s'.
Proof. intros E. by rewrite <-(unquote_quote s), E, unquote_quote. Qed.

Lemma quote_no_bar s : str_all (λ a, negb (bool_decide (a = "|"%char))) (quote s) = true.
Proof.
  induction s as [|a s IH]; [done|]. unfold quote in *. cbn [str_map_chars]. rewrite str_all_app.
  rewrite IH, andb_true_r. destruct a as [[] [] [] [] [] [] [] []]; reflexivity.
Qed.

Lemma quoted_line_inj l l' :
  length l = length l' → join "|" (quote <$> l) = join "|" (quote <$> l') → l = l'.
Proof.
  revert l'. induction l as [|x [|y l] IH]; intros [|x' [|y' l']]; cbn [length]; try lia; intros Hlen; [done|..].
  - by intros ->%quote_inj.
  - intros E. change (quote x +:+ String "|" (join "|" (quote <$> (y :: l)))
      = quote x' +:+ String "|" (join "|" (quote <$> (y' :: l')))) in E.
    apply str_split_unique in E as [->%quote_inj E]; [|apply quote_no_bar..].
    f_equal. apply IH; [|done]. cbn. lia.
Qed.

(** The line a marker carries for a surface tells it from every other surface: a
    separator inside a key or a marker's name is escaped, and a surface without a marker
    is not confused with a marker-keyed one. *)
Theorem surface_line_inj s s' :
  valid_surface s → valid_surface s' → _surface_line s = _surface_line s' → s = s'.
Proof. intros Hv Hv' E. by apply surface_address_inj; [..|apply quoted_line_inj]. Qed.

Definition marker_surface (key marker : string) : WritableSurface := {|
  surface_kind := MARKER_COMMENT; surface_ref := {| scope_kind := ISSUE; scope_key := key |};
  surface_marker := Some marker |}.

Example line_escapes : _surface_line (marker_surface "KOD-1" "a|b%")
  = "marker_comment|issue|KOD-1|a%7Cb%25".
Proof. reflexivity. Qed.

Lemma surface_line_inj_witness :
  valid_surface (marker_surface "KOD-1" "a|b")
  ∧ (_surface_line (marker_surface "KOD-1" "a|b") = _surface_line (marker_surface "KOD-1" "a|b") →
     marker_surface "KOD-1" "a|b" = marker_surface "KOD-1" "a|b").
Proof. split; [reflexivity|]. apply surface_line_inj; reflexivity. Defined.

(** ** Authorship and write authority *)

Inductive SurfaceAuthorship := PRINCIPAL_AUTHORED | MACHINE_AUTHORED.

(** [SurfaceProvenance] and its [__post_init__] *)
Record SurfaceProvenance := { authorship : SurfaceAuthorship; holders : list string }.
Definition make_provenance (authorship : SurfaceAuthorship) (holders : list string) :
    result exn SurfaceProvenance :=
  if existsb str_blank holders then Err (ValueError "a surface write holder is nonblank")
  else if decide (NoDup holders) then Ok {| authorship := authorship; holders := holders |}
  else Err (ValueError "surface write holders are distinct in write order").

Definition ordered_holders (written_by : list string) : list string := dict_fromkeys written_by.

Definition require_body_authorship_surface (s : WritableSurface) : result exn unit :=
  if decide (surface_kind s ∈ BODY_AUTHORSHIP_SURFACES) then Ok tt
  else Err (ValueError ("authorship is recorded for an issue body, not "
                        +:+ surface_kind_value (surface_kind s))).

(** A log's holders, folded, always make a provenance where none is blank. *)
Lemma ordered_holders_provenance a l :
  existsb str_blank l = false →
  make_provenance a (ordered_holders l) = Ok {| authorship := a; holders := ordered_holders l |}.
Proof.
  intros Hb. unfold make_provenance, ordered_holders.
  destruct (existsb str_blank (dict_fromkeys l)) eqn:E.
  - apply existsb_exists in E as (x & Hx%list_elem_of_In & Hx').
    apply (elem_of_fromkeys l) in Hx.
    exfalso. assert (existsb str_blank l = true); [|congruence].
    apply existsb_exists. exists x. split; [by apply list_elem_of_In|done].
  - by rewrite decide_True by apply fromkeys_NoDup.
Qed.

(** ** A marked model's surfaces (domain/model_surfaces.py) *)

Definition issue_surface (kind : SurfaceKind) (key : string) : WritableSurface := {|
  surface_kind := kind; surface_ref := {| scope_kind := ISSUE; scope_key := key |};
  surface_marker := None |}.

Definition member_surfaces (members : list TrackerIssue) (criteria : gmap string (list TrackerIssue)) :
    gset WritableSurface :=
  list_to_set ((λ m, issue_surface ISSUE_DESCRIPTION (issue_key m)) <$> members)
  ∪ list_to_set (m ← members; child ← default [] (criteria !! issue_key m);
                 [issue_surface CRITERION_SUB_ISSUE (issue_key child)]).

Definition model_lease_set (requested model : gset WritableSurface) : gset WritableSurface :=
  let covered : gset string := set_map (λ t : WritableSurface, scope_key (surface_ref t)) model in
  if decide (set_Exists (λ t : WritableSurface, scope_key (surface_ref t) ∈ covered) requested)
  then requested ∪ model else requested.

(** Two jobs that each touch an issue of one model take sets that share all of it. *)
Lemma model_lease_set_covers requested model s t :
  s ∈ requested → t ∈ model → scope_key (surface_ref s) = scope_key (surface_ref t) →
  model_lease_set requested model = requested ∪ model.
Proof.
  intros Hs Ht Hk. unfold model_lease_set. rewrite decide_True; [done|].
  exists s. split; [done|]. rewrite Hk. apply elem_of_map. by exists t.
Qed.

Lemma model_lease_set_outside requested model :
  (∀ s t, s ∈ requested → t ∈ model → scope_key (surface_ref s) ≠ scope_key (surface_ref t)) →
  model_lease_set requested model = requested.
Proof.
  intros Hne. unfold model_lease_set. rewrite decide_False; [done|].
  intros (s & Hs & (t & Hk & Ht)%elem_of_map). by apply (Hne s t).
Qed.
