(* ===== verification/Board.v ===== *)
(** * The tracker's comment log, and programs over it.

    The ownership markers of adapters/linear/tracker.py live as comments on a backend
    that orders creations and stamps every write it accepts, and that offers no
    conditional write. A [board] is that log with the backend's clock. A [prog] is a
    coroutine of the adapter as its calls: what it asks and, for each answer or
    exception, how it goes on. [exec] is what one call may do: a call that raises may
    have been performed or not, and a listing may leave comments out. Calls of different
    programs interleave in any order.

    The section [rely] is the discipline the proofs use: [guar] is what a holder's own
    calls may do to the log, and [wp] says that a program, run among others that keep to
    it, keeps to it and ends in a given result, whatever its listings leave out or, where
    [whole], when they leave out nothing. *)

From S2P Require Import Prelude PyStr Tracker Errors.

(** ** Markers (adapters/linear/tracker.py) *)

Inductive GrantKind := CLAIM | LEASE | BODY_WRITE.
#[export] Instance GrantKind_eq_dec : EqDecision GrantKind.
Proof. solve_decision. Defined.

Inductive GrantState := BID | HELD | VOID.
#[export] Instance GrantState_eq_dec : EqDecision GrantState.
Proof. solve_decision. Defined.

(** The comment parent a marker is written on. *)
Record Target := { field : string; target_key : string }.
#[export] Instance Target_eq_dec : EqDecision Target.
Proof. solve_decision. Defined.

(** The fields a marker's body states. *)
Record marker_body := {
  kind : GrantKind;
  state : GrantState;
  holder : string;
  nonce : string;
  lease : Z;
  since : option Z;
  advertised : Z;
  lines : list string;
}.

(** [_GrantMarker]: a marker with the stamps the backend put on its comment. *)
Record GrantMarker := {
  target : Target;
  comment_key : string;
  created_at : Z;
  updated_at : Z;
  stated : marker_body;
}.

(** ** The log *)

(** [issued] is every comment key the backend has given out: none is given twice. *)
Record board := { now : Z; comments : list GrantMarker; issued : gset string }.

(** ** Calls and programs

    [Interrupted] is no call of the backend's: it asks whether the caller was cancelled
    while an operation it owns was running. *)

Inductive request : Type → Type :=
| SaveNew (t : Target) (b : marker_body) : request string
| SaveOver (key : string) (b : marker_body) : request unit
| DeleteComment (key : string) : request unit
| ListComments (t : Target) : request (list GrantMarker)
| ReadClock : request Z
| Uuid4 : request string
| Interrupted : request bool.

Inductive prog (R : Type) : Type :=
| Return (r : R)
| Raise (e : exn)
| Call {X} (q : request X) (k : result exn X → prog R).
Arguments Return {R} r.
Arguments Raise {R} e.
Arguments Call {R X} q k.

Fixpoint prog_bind {A B} (f : A → prog B) (p : prog A) : prog B :=
  match p with
  | Return a => f a
  | Raise e => Raise e
  | Call q k => Call q (λ r, prog_bind f (k r))
  end.
#[export] Instance prog_mret : MRet prog := λ A a, Return a.
#[export] Instance prog_mbind : MBind prog := λ A B f p, prog_bind f p.

Definition of_result {A} (r : result exn A) : prog A :=
  match r with Ok a => Return a | Err e => Raise e end.

(** A call whose exception propagates. *)
Definition ask {X} (q : request X) : prog X := Call q of_result.

(** [try]: what a program raises, as a value. *)
Fixpoint attempt {A} (p : prog A) : prog (result exn A) :=
  match p with
  | Return a => Return (Ok a)
  | Raise e => Return (Err e)
  | Call q k => Call q (λ r, attempt (k r))
  end.

(** ** What a call may do *)

Definition save_over (c : GrantMarker) (n : Z) (b : marker_body) : GrantMarker := {|
  target := target c; comment_key := comment_key c; created_at := created_at c;
  updated_at := n; stated := b |}.

Definition unchanged (s s' : board) : Prop := comments s' = comments s ∧ issued s' = issued s.

(** A listing shows comments of the log in its order. Nothing promises that it shows all
    of them; [whole] says that those a program reads do. *)
Definition performed (whole : bool) {X} (q : request X) : board → board → X → Prop :=
  match q in request X return board → board → X → Prop with
  | SaveNew t b => λ s s' key,
      key ∉ issued s ∧ issued s' = {[ key ]} ∪ issued s
      ∧ comments s' = comments s ++ [{| target := t; comment_key := key; created_at := now s';
                                        updated_at := now s'; stated := b |}]
  | SaveOver key b => λ s s' _, ∃ l1 c l2,
      comments s = l1 ++ c :: l2 ∧ comment_key c = key ∧ issued s' = issued s
      ∧ comments s' = l1 ++ save_over c (now s') b :: l2
  | DeleteComment key => λ s s' _, ∃ l1 c l2,
      comments s = l1 ++ c :: l2 ∧ comment_key c = key ∧ issued s' = issued s
      ∧ comments s' = l1 ++ l2
  | ListComments t => λ s s' l,
      unchanged s s' ∧ l `sublist_of` filter (λ c, target c = t) (comments s)
      ∧ (whole = true → l = filter (λ c, target c = t) (comments s))
  | ReadClock => λ s s' _, unchanged s s'
  | Interrupted => λ s s' _, unchanged s s'
  | Uuid4 => λ s s' n, unchanged s s' ∧ ∀ c, c ∈ comments s → nonce (stated c) ≠ n
  end.

Definition exec (whole : bool) {X} (q : request X) (s s' : board) (r : result exn X) : Prop :=
  (now s ≤ now s')%Z
  ∧ ((∃ e, r = Err e) ∧ unchanged s s'
     ∨ ∃ x, performed whole q s s' x ∧ (r = Ok x ∨ ∃ e, r = Err e)).

(** ** Rely and guarantee *)

(** [renewed_deadline] of domain/surface_lease.py: a write the backend stamped at or
    after the deadline it was published against renews nothing. *)
Definition renews (published_at since : Z) : bool := (published_at <? since)%Z.
Definition renewed_deadline (published_at lease since : Z) : Z :=
  if renews published_at since then (published_at + lease)%Z else since.

(** The deadline a marker is read by. *)
Definition deadline (c : GrantMarker) : Z :=
  match since (stated c) with
  | None => created_at c + lease (stated c)
  | Some s => renewed_deadline (updated_at c) (lease (stated c)) s
  end.

(** What a holder may write over its own marker: its retraction, its confirmation over
    the same lease, or a renewal published against its standing deadline. *)
Definition rewrites (c : GrantMarker) (b : marker_body) : Prop :=
  holder b = holder (stated c) ∧ kind b = kind (stated c) ∧ nonce b = nonce (stated c)
  ∧ (state b = VOID
     ∨ state b = HELD ∧ state (stated c) ≠ VOID ∧ (∀ a, a ∈ lines b → a ∈ lines (stated c))
       ∧ (since b = None ∧ since (stated c) = None ∧ lease b = lease (stated c)
          ∨ since b = Some (deadline c))).

Inductive guar (h : string) (s s' : board) : Prop :=
| guar_tick :
    (now s ≤ now s')%Z → unchanged s s' → guar h s s'
| guar_new c :
    (now s ≤ now s')%Z → comment_key c ∉ issued s → issued s' = {[ comment_key c ]} ∪ issued s →
    holder (stated c) = h → created_at c = now s' → updated_at c = now s' →
    comments s' = comments s ++ [c] →
    (∀ d, d ∈ comments s → holder (stated d) = h → nonce (stated d) = nonce (stated c) →
       target d ≠ target c) → guar h s s'
| guar_over l1 c l2 b :
    (now s ≤ now s')%Z → comments s = l1 ++ c :: l2 → holder (stated c) = h → rewrites c b →
    issued s' = issued s → comments s' = l1 ++ save_over c (now s') b :: l2 → guar h s s'
| guar_delete l1 c l2 :
    (now s ≤ now s')%Z → comments s = l1 ++ c :: l2 → holder (stated c) = h →
    issued s' = issued s → comments s' = l1 ++ l2 → guar h s s'.

(** What the others may have done meanwhile. *)
Definition rely (h : string) : board → board → Prop :=
  rtc (λ s s', ∃ h', h' ≠ h ∧ guar h' s s').

(** The board's own invariant. *)
Record board_inv (s : board) : Prop := {
  bi_keys : NoDup (comment_key <$> comments s);
  bi_issued : ∀ c, c ∈ comments s → comment_key c ∈ issued s;
  bi_stamps : ∀ c, c ∈ comments s → (created_at c ≤ updated_at c ≤ now s)%Z;
  bi_order : StronglySorted Z.le (created_at <$> comments s);
}.

Fixpoint wp {R} (whole : bool) (h : string) (p : prog R) (s : board) (Q : result exn R → board → Prop) : Prop :=
  match p with
  | Return r => Q (Ok r) s
  | Raise e => Q (Err e) s
  | Call q k => ∀ s0 s1 r, rely h s s0 → board_inv s0 → exec whole q s0 s1 r →
      guar h s0 s1 ∧ wp whole h (k r) s1 Q
  end.

(** ** The discipline's own lemmas *)

Definition own (h : string) (s : board) : list GrantMarker :=
  filter (λ c, holder (stated c) = h) (comments s).

Lemma elem_of_own h s c : c ∈ own h s ↔ c ∈ comments s ∧ holder (stated c) = h.
Proof. unfold own. rewrite list_elem_of_filter. tauto. Qed.

Lemma guar_now h s s' : guar h s s' → (now s ≤ now s')%Z.
Proof. by destruct 1. Qed.

Lemma guar_own h h' s s' : h' ≠ h → guar h' s s' → own h s' = own h s.
Proof.
  intros Hne [Hn [Hc Hi]|c Hn Hk Hi Hh Hcr Hu Hc Hf|l1 c l2 b Hn Hs Hh Hr Hi Hc|l1 c l2 Hn Hs Hh Hi Hc];
    unfold own.
  - by rewrite Hc.
  - rewrite Hc, filter_app, filter_cons, decide_False by congruence. by rewrite app_nil_r.
  - rewrite Hc, Hs, !filter_app, !filter_cons. destruct Hr as [Hb _].
    cbn [stated save_over]. by rewrite !decide_False by congruence.
  - rewrite Hc, Hs, !filter_app, !filter_cons. by rewrite decide_False by congruence.
Qed.

Lemma guar_inv h s s' : guar h s s' → board_inv s → board_inv s'.
Proof.
  intros [Hn [Hc Hi]|c Hn Hk Hi Hh Hcr Hu Hc Hf|l1 c l2 b Hn Hs Hh Hr Hi Hc|l1 c l2 Hn Hs Hh Hi Hc]
    [Hkeys Hiss Hst Hord].
  - constructor; rewrite ?Hc, ?Hi; try done. intros d Hd. specialize (Hst d Hd). lia.
  - constructor; rewrite ?Hc, ?Hi.
    + rewrite fmap_app, NoDup_app. split_and!; [done| |apply NoDup_singleton].
      intros k Hin Hk'. apply list_elem_of_singleton in Hk' as ->.
      apply list_elem_of_fmap in Hin as (d & Hd & Hin). apply Hk. rewrite Hd. by apply Hiss.
    + intros d [Hd|Hd]%elem_of_app; [set_solver|]. apply list_elem_of_singleton in Hd as ->. set_solver.
    + intros d [Hd|Hd]%elem_of_app; [specialize (Hst d Hd); lia|].
      apply list_elem_of_singleton in Hd as ->. lia.
    + rewrite fmap_app. apply StronglySorted_snoc; [done|]. apply Forall_fmap, Forall_forall.
      intros d Hd. specialize (Hst d Hd). cbn. lia.
  - assert (∀ d, d ∈ comments s' → ∃ d0, d0 ∈ comments s ∧ comment_key d = comment_key d0
      ∧ created_at d = created_at d0 ∧ (updated_at d = updated_at d0 ∨ updated_at d = now s')) as Hback.
    { intros d. rewrite Hc, Hs. intros [Hd|[->|Hd]%elem_of_cons]%elem_of_app.
      - exists d. split_and!; try done; [apply elem_of_app; by left|by left].
      - exists c. split_and!; try done; [apply elem_of_app; right; by left|by right].
      - exists d. split_and!; try done; [apply elem_of_app; right; by right|by left]. }
    constructor.
    + rewrite Hc. rewrite Hs in Hkeys. rewrite !fmap_app, !fmap_cons in *. done.
    + intros d (d0 & Hd0 & -> & _)%Hback. rewrite Hi. by apply Hiss.
    + intros d (d0 & Hd0 & _ & -> & Hup)%Hback. specialize (Hst d0 Hd0). destruct Hup as [->| ->]; lia.
    + rewrite Hc. rewrite Hs in Hord. rewrite !fmap_app, !fmap_cons in *. done.
  - constructor; rewrite ?Hi.
    + rewrite Hc. rewrite Hs in Hkeys. rewrite !fmap_app, ?fmap_cons in *.
      eapply sublist_NoDup; [done|]. apply sublist_app; [done|]. by apply sublist_cons.
    + intros d Hd. apply Hiss. rewrite Hs. rewrite Hc in Hd. set_solver.
    + intros d Hd. assert (d ∈ comments s) as Hd' by (rewrite Hs; rewrite Hc in Hd; set_solver).
      specialize (Hst d Hd'). lia.
    + rewrite Hc. rewrite Hs in Hord. rewrite !fmap_app, ?fmap_cons in *.
      by eapply StronglySorted_remove.
Qed.

(** What a marker keeps through a step, or that it is new. *)
Definition same_marker (c c' : GrantMarker) : Prop :=
  comment_key c' = comment_key c ∧ target c' = target c ∧ created_at c' = created_at c
  ∧ holder (stated c') = holder (stated c) ∧ kind (stated c') = kind (stated c)
  ∧ nonce (stated c') = nonce (stated c).

Lemma guar_back h s s' c' :
  guar h s s' → c' ∈ comments s' →
  (∃ c, c ∈ comments s ∧ same_marker c c')
  ∨ comment_key c' ∉ issued s ∧ holder (stated c') = h.
Proof.
  intros [Hn [E _]|x Hn Hk _ Hh Hcr Hu E Hf|l1 x l2 b Hn Es Hh Hr _ E|l1 x l2 Hn Es Hh _ E]; rewrite E.
  - intros Hc. left. by exists c'.
  - intros [Hc|Hc]%elem_of_app; [left; by exists c'|]. right.
    by apply list_elem_of_singleton in Hc as ->.
  - rewrite Es. intros [Hc|[->|Hc]%elem_of_cons]%elem_of_app; left.
    + exists c'. split; [|done]. apply elem_of_app. by left.
    + exists x. split; [apply elem_of_app; right; by left|]. by destruct Hr as (? & ? & ? & _).
    + exists c'. split; [|done]. apply elem_of_app. right. by right.
  - rewrite Es. intros Hc. left. exists c'. split; [|done]. set_solver.
Qed.

Lemma guar_issued h s s' : guar h s s' → issued s ⊆ issued s'.
Proof.
  intros [Hn [_ E]|x Hn Hk E Hh Hcr Hu _ _|l1 x l2 b Hn Es Hh Hr E _|l1 x l2 Hn Es Hh E _];
    rewrite E; set_solver.
Qed.

Lemma rely_trans h s1 s2 s3 : rely h s1 s2 → rely h s2 s3 → rely h s1 s3.
Proof. unfold rely. intros. by etransitivity. Qed.

Lemma rely_own h s s' : rely h s s' → own h s' = own h s.
Proof.
  induction 1 as [|s s1 s' (h' & Hne & Hg) _ IH]; [done|].
  by rewrite IH, (guar_own h h' s s1).
Qed.

Lemma rely_now h s s' : rely h s s' → (now s ≤ now s')%Z.
Proof.
  induction 1 as [|s s1 s' (h' & _ & Hg%guar_now) _ IH]; [done|]. lia.
Qed.

Lemma rely_inv h s s' : rely h s s' → board_inv s → board_inv s'.
Proof. induction 1 as [|s s1 s' (h' & _ & Hg) _ IH]; [done|]. intros. by eapply IH, guar_inv. Qed.

(** A tick is anyone's. *)
Lemma tick_rely h s s' : (now s ≤ now s')%Z → unchanged s s' → rely h s s'.
Proof.
  intros Hn Hu. apply rtc_once. exists (h +:+ "'"). split; [|by apply guar_tick].
  intros E. apply (f_equal String.length) in E. rewrite str_length_app in E. cbn in E. lia.
Qed.

Lemma key_inj s c d :
  board_inv s → c ∈ comments s → d ∈ comments s → comment_key c = comment_key d → c = d.
Proof.
  intros Hb [i Hi]%list_elem_of_lookup [j Hj]%list_elem_of_lookup Hk.
  assert (i = j) as ->; [|congruence].
  eapply NoDup_lookup; [apply (bi_keys _ Hb)|..]; rewrite list_lookup_fmap.
  - by rewrite Hi.
  - rewrite Hj. cbn. by rewrite Hk.
Qed.

(** ** A marker that leads *)

(** [d] was created before [c]. *)
Definition precedes (d c : GrantMarker) (s : board) : Prop :=
  ∃ i j, i < j ∧ comments s !! i = Some d ∧ comments s !! j = Some c.

(** For the address [a] of kind [k], no live marker of a rival of [h]. *)
Definition dead (k : GrantKind) (h a : string) (n : Z) (d : GrantMarker) : Prop :=
  kind (stated d) ≠ k ∨ holder (stated d) = h ∨ state (stated d) = VOID
  ∨ a ∉ lines (stated d) ∨ (deadline d ≤ n)%Z.

(** [c] holds [a] for its holder, and every rival's marker created before it on its
    target is dead: what a grant has established. *)
Record stands (k : GrantKind) (a : string) (c : GrantMarker) (s : board) : Prop := {
  st_there : c ∈ comments s;
  st_kind : kind (stated c) = k;
  st_held : state (stated c) = HELD;
  st_covers : a ∈ lines (stated c);
  st_leads : ∀ d, precedes d c s → target d = target c →
    dead k (holder (stated c)) a (now s) d;
}.

Lemma deadline_save_over c n b :
  rewrites c b → state b ≠ VOID → (updated_at c ≤ n)%Z →
  (deadline c ≤ n)%Z → (deadline (save_over c n b) ≤ n)%Z.
Proof.
  intros (_ & _ & _ & [Hv|(_ & _ & _ & Hb)]) Hs Hu Hd; [done|]. unfold deadline in *.
  cbn [stated save_over created_at updated_at]. destruct Hb as [(-> & Hc & ->)| ->].
  - by rewrite Hc in Hd.
  - unfold renewed_deadline, renews. destruct (Z.ltb_spec n (match since (stated c) with
      | Some s => if updated_at c <? s then updated_at c + lease (stated c) else s
      | None => created_at c + lease (stated c) end)%Z) as [Hlt|Hge]; [|done].
    unfold renewed_deadline, renews in Hd. lia.
Qed.

Lemma dead_save_over k h a s c n b :
  rewrites c b → (updated_at c ≤ n)%Z → (now s ≤ n)%Z →
  dead k h a (now s) c → dead k h a n (save_over c n b).
Proof.
  intros Hr Hu Hn Hd. pose proof Hr as (Hh & Hk & _ & Hst). unfold dead in *.
  cbn [stated save_over]. rewrite Hh, Hk.
  destruct Hst as [Hv|(Hs & Hv & Hl & _)]; [by right; right; left|].
  destruct Hd as [?|[?|[?|[Ha|Hd]]]]; [by left|by right; left|done| |].
  - right; right; right; left. intros Hin. by apply Ha, Hl.
  - right; right; right; right. apply deadline_save_over; [done|congruence|done|lia].
Qed.

Lemma lookup_replace {A} (l1 : list A) x y l2 i d :
  (l1 ++ y :: l2) !! i = Some d →
  i = length l1 ∧ d = y ∨ i ≠ length l1 ∧ (l1 ++ x :: l2) !! i = Some d.
Proof.
  intros H. destruct (decide (i = length l1)) as [->|Hi].
  - left. split; [done|]. rewrite list_lookup_middle in H by done. congruence.
  - right. split; [done|]. destruct (decide (i < length l1)) as [Hlt|Hge].
    + rewrite lookup_app_l in H |- * by done. done.
    + rewrite lookup_app_r in H |- * by lia.
      destruct (i - length l1) as [|n] eqn:E; [lia|done].
Qed.

Lemma lookup_remove {A} (l1 : list A) x l2 i d :
  (l1 ++ l2) !! i = Some d →
  (l1 ++ x :: l2) !! (if decide (i < length l1) then i else S i) = Some d.
Proof.
  intros H. case_decide as Hi.
  - rewrite lookup_app_l in H |- * by done. done.
  - rewrite lookup_app_r in H |- * by lia.
    by replace (S i - length l1) with (S (i - length l1)) by lia.
Qed.

(** Where a step moves each comment. *)
Lemma guar_lookup h s s' :
  guar h s s' →
  ∃ f : nat → nat, (∀ i j, i < j → f i < f j) ∧
    ∀ i c', comments s' !! i = Some c' →
      (∃ c, comments s !! f i = Some c
         ∧ (c' = c ∨ ∃ b, rewrites c b ∧ holder (stated c) = h ∧ c' = save_over c (now s') b))
      ∨ comment_key c' ∉ issued s ∧ S i = length (comments s').
Proof.
  intros [Hn [E _]|x Hn Hk _ Hh Hcr Hu E _|l1 x l2 b Hn Es Hh Hr _ E|l1 x l2 Hn Es Hh _ E].
  - exists id. split; [done|]. intros i c' Hi. rewrite E in Hi. left. exists c'. by split; [|left].
  - exists id. split; [done|]. intros i c' Hi. rewrite E in Hi |- *.
    apply lookup_app_Some in Hi as [Hi|[Hge Hi]]; [left; exists c'; by split; [|left]|right].
    apply list_lookup_singleton_Some in Hi as [Hi <-]. split; [done|]. rewrite length_app. cbn. lia.
  - exists id. split; [done|]. intros i c' Hi. rewrite E in Hi. left. rewrite Es.
    destruct (lookup_replace l1 x _ l2 i c' Hi) as [[-> ->]|[Hne Hi']].
    + exists x. split; [by rewrite list_lookup_middle|]. right. by exists b.
    + exists c'. by split; [|left].
  - exists (λ i, if decide (i < length l1) then i else S i). split.
    { intros i j Hij. repeat case_decide; lia. }
    intros i c' Hi. rewrite E in Hi. left. exists c'. split; [|by left].
    rewrite Es. by apply lookup_remove.
Qed.

(** What a step makes of a marker, by its key. *)
Lemma guar_same h s s' c c' :
  board_inv s → guar h s s' → c ∈ comments s → c' ∈ comments s' → comment_key c' = comment_key c →
  c' = c ∨ ∃ b, rewrites c b ∧ holder (stated c) = h ∧ c' = save_over c (now s') b.
Proof.
  intros Hinv Hg Hc [i Hi]%list_elem_of_lookup Hk.
  destruct (guar_lookup h s s' Hg) as (f & _ & Hf).
  destruct (Hf i c' Hi) as [(c0 & Hc0 & Hor)|[Hnew _]].
  - assert (c0 = c) as ->; [|done]. apply list_elem_of_lookup_2 in Hc0. apply (key_inj s); [done..|].
    rewrite <-Hk. by destruct Hor as [->|(b & _ & _ & ->)].
  - destruct Hnew. rewrite Hk. by apply (bi_issued _ Hinv).
Qed.

(** What a step does to a marker's predecessors. *)
Lemma precedes_step h s s' d' c c' :
  board_inv s → guar h s s' → c ∈ comments s → comment_key c' = comment_key c → precedes d' c' s' →
  ∃ d, precedes d c s ∧ (d' = d ∨ ∃ b, rewrites d b ∧ d' = save_over d (now s') b).
Proof.
  intros Hinv Hg Hc Hk (i & j & Hij & Hi & Hj).
  destruct (guar_lookup h s s' Hg) as (f & Hmono & Hf). pose proof (lookup_lt_Some _ _ _ Hj) as Hlt.
  destruct (Hf i d' Hi) as [(d & Hd & Hor)|[_ ?]]; [|lia].
  destruct (Hf j c' Hj) as [(c0 & Hc0 & Hor')|[Hnew _]].
  - exists d. split; [|destruct Hor as [->|(b & ? & _ & ->)]; [by left|right; by exists b]].
    exists (f i), (f j). split; [by apply Hmono|]. split; [done|]. rewrite Hc0. f_equal.
    apply list_elem_of_lookup_2 in Hc0. apply (key_inj s); [done..|].
    rewrite <-Hk. by destruct Hor' as [->|(b & _ & _ & ->)].
  - destruct Hnew. rewrite Hk. by apply (bi_issued _ Hinv).
Qed.

(** A marker's lead is lost only with the marker, its confirmation or its address. *)
Lemma stands_over h k a c c' s s' :
  board_inv s → guar h s s' → c' ∈ comments s' → comment_key c' = comment_key c →
  state (stated c') = HELD → a ∈ lines (stated c') → stands k a c s → stands k a c' s'.
Proof.
  intros Hinv Hg Hc' Hkey Hs' Ha' [Hc Hk Hs Ha Hl].
  assert (kind (stated c') = kind (stated c) ∧ holder (stated c') = holder (stated c)
    ∧ target c' = target c) as (Hkc & Hhc & Htc).
  { destruct (guar_same h s s' c c' Hinv Hg Hc Hc' Hkey) as [->|(b & (? & ? & _) & _ & ->)]; done. }
  constructor; [done|congruence|done..|]. intros d' Hp Ht.
  destruct (precedes_step h s s' d' c c' Hinv Hg Hc Hkey Hp) as (d & Hpd & Hd).
  assert (target d = target c) as Htd by (destruct Hd as [->|(b & _ & ->)]; cbn in *; congruence).
  specialize (Hl d Hpd Htd). rewrite Hhc. pose proof (guar_now _ _ _ Hg) as Hn.
  destruct Hpd as (i & j & _ & Hi & _). apply list_elem_of_lookup_2 in Hi.
  pose proof (bi_stamps _ Hinv d Hi) as Hst.
  destruct Hd as [->|(b & Hr & ->)].
  - unfold dead in *. destruct Hl as [?|[?|[?|[?|?]]]]; [by left|by right; left|by right; right; left
      |by right; right; right; left|]. right; right; right; right. lia.
  - apply dead_save_over with s; [done|lia|lia|done].
Qed.

Lemma stands_step h k a c s s' :
  board_inv s → guar h s s' → c ∈ comments s' → stands k a c s → stands k a c s'.
Proof. intros Hinv Hg Hc Hs. by apply stands_over with h c s; [..|apply Hs|apply Hs|]. Qed.

Lemma stands_rely h k a c s s' :
  board_inv s → holder (stated c) = h → rely h s s' → stands k a c s → stands k a c s'.
Proof.
  intros Hinv Hh Hr. revert Hinv. induction Hr as [|s s1 s' (h' & Hne & Hg) _ IH]; [done|].
  intros Hinv Hs. apply IH; [by eapply guar_inv|]. eapply stands_step; [done..| |done].
  assert (c ∈ own h s) as Hc by (apply elem_of_own; split; [apply Hs|done]).
  rewrite <-(guar_own h h' s s1 Hne Hg) in Hc. by apply elem_of_own in Hc as [? _].
Qed.

(** Two standing markers of different holders over one address are never both live. *)
Lemma stands_exclude k a c d s :
  board_inv s → stands k a c s → stands k a d s → target c = target d →
  holder (stated c) ≠ holder (stated d) →
  (deadline c ≤ now s)%Z ∨ (deadline d ≤ now s)%Z.
Proof.
  intros Hinv Hc Hd Ht Hne.
  assert (∀ x y, stands k a x s → stands k a y s → target x = target y →
    holder (stated x) ≠ holder (stated y) → precedes x y s → (deadline x ≤ now s)%Z) as Hgo.
  { intros x y Hx Hy Hxy Hh Hp.
    destruct (st_leads _ _ _ _ Hy x Hp Hxy) as [Hk|[?|[Hv|[Ha|?]]]]; [|done| | |done].
    - destruct Hk. apply Hx.
    - by rewrite (st_held _ _ _ _ Hx) in Hv.
    - destruct Ha. apply Hx. }
  destruct (list_elem_of_lookup_1 _ _ (st_there _ _ _ _ Hc)) as [i Hi].
  destruct (list_elem_of_lookup_1 _ _ (st_there _ _ _ _ Hd)) as [j Hj].
  destruct (Nat.lt_trichotomy i j) as [Hij|[->|Hij]].
  - left. apply (Hgo c d); try done. by exists i, j.
  - congruence.
  - right. apply (Hgo d c); try done. by exists j, i.
Qed.

(** ** Programs *)

(** A result's description that the others' steps cannot spoil. *)
Definition steady {R} (h : string) (Q : R → board → Prop) : Prop :=
  ∀ r s s', board_inv s → rely h s s' → Q r s → Q r s'.

Lemma wp_rely {R} w h (p : prog R) s s' Q :
  steady h Q → board_inv s → rely h s s' → wp w h p s Q → wp w h p s' Q.
Proof.
  intros HQ Hinv Hr. destruct p as [r|e|X q k]; cbn; [by apply HQ..|].
  intros Hwp s0 s1 r Hr0. apply Hwp. by eapply rely_trans.
Qed.

Lemma wp_mono {R} w h (p : prog R) s (Q Q' : result exn R → board → Prop) :
  wp w h p s Q → (∀ r s', Q r s' → Q' r s') → wp w h p s Q'.
Proof.
  intros Hwp HQ. revert s Hwp. induction p as [r|e|X q k IH]; intros s; cbn; [by apply HQ..|].
  intros Hwp s0 s1 r Hr Hinv He. destruct (Hwp s0 s1 r Hr Hinv He) as [Hg Hk].
  split; [done|]. by apply IH.
Qed.

Lemma wp_bind {A B} w h (p : prog A) (f : A → prog B) s Q :
  wp w h p s (λ r s', match r with Ok a => wp w h (f a) s' Q | Err e => Q (Err e) s' end) →
  wp w h (p ≫= f) s Q.
Proof.
  revert s. induction p as [r|e|X q k IH]; intros s; cbn; [done..|].
  intros Hwp s0 s1 r Hr Hinv He. destruct (Hwp s0 s1 r Hr Hinv He) as [Hg Hk].
  split; [done|]. by apply IH.
Qed.

Lemma wp_attempt {A} w h (p : prog A) s Q :
  wp w h p s (λ r s', Q (Ok r) s') → wp w h (attempt p) s Q.
Proof.
  revert s. induction p as [r|e|X q k IH]; intros s; cbn; [done..|].
  intros Hwp s0 s1 r Hr Hinv He. destruct (Hwp s0 s1 r Hr Hinv He) as [Hg Hk].
  split; [done|]. by apply IH.
Qed.
