(* ===== verification/Lease.v ===== *)
(** * The ownership protocol (adapters/linear/tracker.py, domain/surface_lease.py).

    How a holder takes exclusive ownership of tracker addresses: a bid on every target, a
    read-back, a confirmation in place and a second read-back ([_grant]); the fenced
    renewal ([_extend]); the withdrawal ([_withdraw]). The same code arbitrates issue
    claims and surface leases, over an [Addressing]. Each is a [prog] over the board: the
    text of a marker and its pagination are the adapter's encoding and are left out, as is
    the author no arbitration reads. A duration is an integer in the unit of the clock.
    [granted_on] is what the code holds in [held] or [renewed] when it returns; nothing
    of the program reads it. *)

From S2P Require Import Prelude PyStr Tracker Errors Board.

(** ** The shared arithmetic (domain/surface_lease.py) *)

Definition expires_at (c : GrantMarker) : Z := deadline c.

(** [_GrantMarker]'s properties. *)
Definition in_force (c : GrantMarker) : bool :=
  match since (stated c) with
  | None => true
  | Some s => renews (updated_at c) s
  end.
Definition order (c : GrantMarker) : Z * string := (created_at c, comment_key c).
Definition retracted (c : GrantMarker) : bool := bool_decide (state (stated c) = VOID).
Definition addresses (c : GrantMarker) : gset string := list_to_set (lines (stated c)).

Definition retracts (standing accounted : Z) : bool := (standing <=? accounted)%Z.

Fixpoint live_conflict {Addr} `{EqDecision Addr} (requested : list Addr)
    (held : pydict Addr GrantMarker) (holder : string) (now : Z) : option (Addr * string) :=
  match requested with
  | [] => None
  | address :: requested =>
      match dict_get held address with
      | None => live_conflict requested held holder now
      | Some grant =>
          if (expires_at grant <=? now)%Z || bool_decide (Board.holder (stated grant) = holder)
          then live_conflict requested held holder now
          else Some (address, Board.holder (stated grant))
      end
  end.

(** [_OwnGrant] *)
Record OwnGrant := { grant_order : Z * string; grant_expires_at : Z }.

(** Which sibling stands, by its nonce: [standing is not grants[nonce]] compares the
    objects, so the choice is made on the pairs. *)
Definition one_ownership (mine : string * OwnGrant) (siblings : list (string * OwnGrant))
    (now : Z) : string * OwnGrant :=
  foldl (λ standing sibling,
    if (now <? grant_expires_at sibling.2)%Z
       && key_ltb (grant_order sibling.2) (grant_order standing.2)
    then sibling else standing) mine siblings.

(** ** Addressing *)

Record Addressing (Addr : Type) := {
  ad_kind : GrantKind;
  encode : Addr → string;
  ad_target : Addr → Target;
  ad_order : Addr → list string;
}.
Arguments ad_kind {Addr}. Arguments encode {Addr}.
Arguments ad_target {Addr}. Arguments ad_order {Addr}.

Record Granted := { granted_expires_at : Z; granted_on : pydict Target GrantMarker }.

Record Conflict (Addr : Type) := {
  conflict_address : Addr; conflict_holder : option string; conflict_settled : bool }.
Arguments conflict_address {Addr}. Arguments conflict_holder {Addr}.
Arguments conflict_settled {Addr}.

Record Refused (Addr : Type) := {
  refused_address : Addr; refused_holder : option string; refused_settled : bool;
  refused_expires_at : Z }.
Arguments refused_address {Addr}. Arguments refused_holder {Addr}.
Arguments refused_settled {Addr}. Arguments refused_expires_at {Addr}.

(** ** Reading and retracting *)

Fixpoint _markers_on (k : GrantKind) (targets : list Target) : prog (list GrantMarker) :=
  match targets with
  | [] => mret []
  | t :: targets =>
      wires ← ask (ListComments t);
      rest ← _markers_on k targets;
      mret (filter (λ c, kind (stated c) = k) wires ++ rest)
  end.

(** [_WrittenMarker]: a marker's key and the body that retracts it. *)
Record WrittenMarker := { written_key : string; void_body : marker_body }.

Definition _void_body (c : GrantMarker) : marker_body := {|
  kind := kind (stated c); state := VOID; holder := holder (stated c);
  nonce := nonce (stated c); lease := lease (stated c); since := None;
  advertised := advertised (stated c); lines := lines (stated c) |}.
Definition _retraction (c : GrantMarker) : WrittenMarker :=
  {| written_key := comment_key c; void_body := _void_body c |}.

(** The exceptions a compensating request may raise without failing its caller. *)
Definition transport_failure (e : exn) : bool :=
  match e with
  | TrackerAccessDeniedError | TrackerUnavailableError | TransientAPIError _ _
  | RateLimitError _ _ => true
  | _ => false
  end.

Fixpoint _delete_markers (ms : list WrittenMarker) : prog (list (WrittenMarker * exn)) :=
  match ms with
  | [] => mret []
  | m :: ms =>
      Call (DeleteComment (written_key m)) (λ r,
        match r with
        | Ok _ => _delete_markers ms
        | Err e => if transport_failure e
                   then refused ← _delete_markers ms; mret ((m, e) :: refused)
                   else Raise e
        end)
  end.

Fixpoint void_markers (ms : list WrittenMarker) : prog unit :=
  match ms with
  | [] => mret tt
  | m :: ms =>
      Call (SaveOver (written_key m) (void_body m)) (λ r,
        match r with
        | Ok _ => void_markers ms
        | Err e => if transport_failure e then void_markers ms else Raise e
        end)
  end.

Definition _stand_down (ms : list WrittenMarker) : prog unit :=
  _ ← void_markers ms;
  _ ← _delete_markers ms;
  mret tt.

(** [min] of a nonempty iterable of integers; an empty one raises. *)
Definition min_of (l : list Z) : result exn Z :=
  match l with
  | [] => Err (ValueError "min() iterable argument is empty")
  | x :: l => Ok (py_min Z.ltb x l)
  end.

Definition _own_grants (markers : list GrantMarker) (h : string) (covered : gset string) :
    pydict string OwnGrant :=
  foldl (λ grants m,
    if bool_decide (holder (stated m) = h ∧ state (stated m) = HELD ∧ addresses m = covered)
    then
      let mine := {| grant_order := order m; grant_expires_at := deadline m |} in
      dict_set grants (nonce (stated m))
        match dict_get grants (nonce (stated m)) with
        | None => mine
        | Some standing => {|
            grant_order := if key_leb (grant_order standing) (order m)
                           then grant_order standing else order m;
            grant_expires_at := Z.min (grant_expires_at standing) (deadline m) |}
        end
    else grants) [] markers.

Definition _own (markers : list GrantMarker) (h n : string) (st : option GrantState) :
    pydict Target GrantMarker :=
  dict_of ((λ m, (target m, m)) <$> filter (λ m, holder (stated m) = h ∧ nonce (stated m) = n
    ∧ (st = None ∨ st = Some (state (stated m)))) markers).

(** [set(d) != set(l)] on a dict's keys. *)
Definition same_keys {K V} `{Countable K} (d : pydict K V) (l : list K) : bool :=
  bool_decide ((list_to_set (dict_keys d) : gset K) = list_to_set l).

#[export] Instance Target_countable : Countable Target.
Proof.
  apply (inj_countable' (λ t, (field t, target_key t)) (λ p, {| field := p.1; target_key := p.2 |})).
  by intros [].
Defined.

Section protocol.
Context {Addr : Type} `{Countable Addr} (ad : Addressing Addr).

Definition sorted_addresses (addrs : gset Addr) : list Addr := sort_by (ad_order ad) (elements addrs).
Definition ad_lines (addrs : gset Addr) : list string := encode ad <$> sorted_addresses addrs.
Definition ad_targets (addrs : gset Addr) : list Target :=
  dict_fromkeys (ad_target ad <$> sorted_addresses addrs).

Definition _grant_body (h n : string) (st : GrantState) (lease_seconds adv : Z)
    (s : option Z) (encoded : list string) : marker_body := {|
  kind := ad_kind ad; state := st; holder := h; nonce := n; lease := lease_seconds;
  since := s; advertised := adv; lines := encoded |}.

(** [min(addresses, key=order)] *)
Definition first_address (addrs : gset Addr) : result exn Addr :=
  match sorted_addresses addrs with
  | [] => Err (ValueError "min() iterable argument is empty")
  | a :: _ => Ok a
  end.

(** The marker that answers for one address, if any. *)
Definition covering (markers : list GrantMarker) (mine : GrantMarker) (h : string) (a : Addr) :
    list GrantMarker :=
  filter (λ m, target m = ad_target ad a ∧ holder (stated m) ≠ h ∧ retracted m = false
    ∧ encode ad a ∈ lines (stated m) ∧ (created_at m ≤ created_at mine)%Z
    ∧ (updated_at mine < deadline m)%Z) markers.

Definition earliest (l : list GrantMarker) : option GrantMarker :=
  match l with
  | [] => None
  | x :: l => Some (py_min (λ a b, key_ltb (order a) (order b)) x l)
  end.

(** [mine[target]] *)
Definition mine_at (mine : pydict Target GrantMarker) (t : Target) : result exn GrantMarker :=
  match dict_get mine t with
  | Some m => Ok m
  | None => Err (KeyError (target_key t))
  end.

Definition _conflict (addrs : gset Addr) (markers : list GrantMarker)
    (mine : pydict Target GrantMarker) (h : string) : result exn (option (Conflict Addr)) :=
  held ← foldM (λ held a,
    own ← mine_at mine (ad_target ad a);
    Ok (match earliest (covering markers own h a) with
        | Some m => dict_set held a m
        | None => held
        end)) [] (sorted_addresses addrs);
  now ← min_of (updated_at <$> dict_values mine);
  match live_conflict (sorted_addresses addrs) held h now with
  | None => Ok None
  | Some (a, owner) =>
      match dict_get held a with
      | None => Err (KeyError (encode ad a))
      | Some answering =>
          own ← mine_at mine (ad_target ad a);
          let settled := bool_decide (state (stated answering) = HELD)
                         && negb (created_at answering =? created_at own)%Z in
          Ok (Some {| conflict_address := a;
                      conflict_holder := if settled then Some owner else None;
                      conflict_settled := settled |})
      end
  end.

Definition _refuse_bid (addrs : gset Addr) (markers : list GrantMarker)
    (mine : pydict Target GrantMarker) (h : string) (expires : Z) (confirmed : bool) :
    prog (option (Refused Addr)) :=
  conflict ← of_result (_conflict addrs markers mine h);
  let lapsed := existsb (λ m, (deadline m <=? updated_at m)%Z) (dict_values mine) in
  match conflict, confirmed && negb lapsed with
  | None, true => mret None
  | _, _ =>
      _ ← _stand_down (_retraction <$> dict_values mine);
      match conflict with
      | None =>
          a ← of_result (first_address addrs);
          mret (Some {| refused_address := a; refused_holder := None; refused_settled := false;
                        refused_expires_at := expires |})
      | Some c =>
          mret (Some {| refused_address := conflict_address c;
                        refused_holder := conflict_holder c;
                        refused_settled := conflict_settled c; refused_expires_at := expires |})
      end
  end.

(** The holder's confirmed marker over the whole set on each target, earliest first. *)
Definition confirmed_markers (markers : list GrantMarker) (h : string) (encoded : gset string) :
    pydict Target GrantMarker :=
  foldl (λ mine m,
    if bool_decide (holder (stated m) = h ∧ state (stated m) = HELD ∧ encoded ⊆ addresses m)
    then match dict_get mine (target m) with
         | None => dict_set mine (target m) m
         | Some standing => if key_ltb (order m) (order standing)
                            then dict_set mine (target m) m else mine
         end
    else mine) [] markers.

(** What the renewal's loop carries: [seen], [renewed] and [accounted]. *)
Record renewal := {
  seen : list GrantMarker;
  renewed : pydict Target GrantMarker;
  accounted : pydict Target Z;
}.

Fixpoint renew_markers (addrs : gset Addr) (h : string) (lease_seconds adv : Z)
    (mine : pydict Target GrantMarker) (st : renewal) : prog renewal :=
  match mine with
  | [] => mret st
  | (t, marker) :: mine =>
      _ ← ask (SaveOver (comment_key marker)
            (_grant_body h (nonce (stated marker)) HELD lease_seconds adv
               (Some (deadline marker)) (ad_lines addrs)));
      written ← _markers_on (ad_kind ad) [t];
      let st := {| seen := seen st ++ written; renewed := renewed st; accounted := accounted st |} in
      match dict_get (_own written h (nonce (stated marker)) (Some HELD)) t with
      | None => mret st
      | Some standing =>
          let st := {| seen := seen st; renewed := renewed st;
                       accounted := dict_set (accounted st) t (deadline standing) |} in
          if negb (in_force standing) then mret st
          else renew_markers addrs h lease_seconds adv mine
                 {| seen := seen st; renewed := dict_set (renewed st) t standing;
                    accounted := accounted st |}
      end
  end.

Definition _renewal_retractions (mine : pydict Target GrantMarker) (acc : pydict Target Z) :
    prog (list WrittenMarker) :=
  markers ← _markers_on (ad_kind ad) (dict_keys mine);
  let standing := dict_of ((λ m, (comment_key m, m)) <$> markers) in
  mret (omap (λ tm,
    current ← dict_get standing (comment_key tm.2);
    if retracts (deadline current) (default (deadline tm.2) (dict_get acc tm.1))
    then Some (_retraction current) else None) mine).

Definition _extend (addrs : gset Addr) (h : string) (lease_seconds : Z) : prog (option Granted) :=
  let encoded : gset string := list_to_set (ad_lines addrs) in
  let targets := ad_targets addrs in
  markers ← _markers_on (ad_kind ad) targets;
  let mine := confirmed_markers markers h encoded in
  if negb (same_keys mine targets) then
    _ ← _stand_down (_retraction <$> filter (λ m, holder (stated m) = h ∧ addresses m = encoded)
                                        markers);
    mret None
  else
    conflict ← of_result (_conflict addrs markers mine h);
    match conflict with
    | Some _ => _ ← _stand_down (_retraction <$> dict_values mine); mret None
    | None =>
        clock ← ask ReadClock;
        let adv := (clock + lease_seconds)%Z in
        st ← renew_markers addrs h lease_seconds adv mine
               {| seen := []; renewed := []; accounted := [] |};
        late ← (if negb (same_keys (renewed st) targets) then mret true
                else conflict ← of_result (_conflict addrs (seen st) (renewed st) h);
                     mret (bool_decide (is_Some (conflict : option (Conflict Addr)))));
        if late : bool then
          retractions ← _renewal_retractions mine (accounted st);
          _ ← _stand_down retractions;
          mret None
        else mret (Some {| granted_expires_at := adv; granted_on := renewed st |})
    end.

Definition _withdraw_into (addrs : gset Addr) (h : string) (lease_seconds : Z)
    (mine : pydict Target GrantMarker) (expires : Z) : prog (Granted + Refused Addr) :=
  _ ← _stand_down (_retraction <$> dict_values mine);
  extended ← _extend addrs h lease_seconds;
  match extended with
  | Some g => mret (inl g)
  | None =>
      a ← of_result (first_address addrs);
      mret (inr {| refused_address := a; refused_holder := None; refused_settled := false;
                   refused_expires_at := expires |})
  end.

(** [{target: await self._write_marker(...) for target in targets}] *)
Fixpoint write_bids (targets : list Target) (b : marker_body) : prog (pydict Target string) :=
  match targets with
  | [] => mret []
  | t :: targets =>
      key ← ask (SaveNew t b);
      rest ← write_bids targets b;
      mret ((t, key) :: rest)
  end.

Fixpoint confirm_markers (mine : list GrantMarker) (b : marker_body) : prog unit :=
  match mine with
  | [] => mret tt
  | m :: mine => _ ← ask (SaveOver (comment_key m) b); confirm_markers mine b
  end.

Definition _grant (addrs : gset Addr) (h : string) (lease_seconds : Z) :
    prog (Granted + Refused Addr) :=
  clock ← ask ReadClock;
  let adv := (clock + lease_seconds)%Z in
  n ← ask Uuid4;
  let encoded := ad_lines addrs in
  let targets := ad_targets addrs in
  let states st := _grant_body h n st lease_seconds adv None encoded in
  written ← write_bids targets (states BID);
  markers ← _markers_on (ad_kind ad) targets;
  let mine := _own markers h n None in
  if negb (same_keys mine (dict_keys written)) then
    _ ← _stand_down ((λ tk, {| written_key := tk.2; void_body := states VOID |}) <$> written);
    Raise (TrackerProtocolError "the grant marker is absent from the log it was written to")
  else
    refused ← _refuse_bid addrs markers mine h adv true;
    match refused with
    | Some r => mret (inr r)
    | None =>
        _ ← confirm_markers (dict_values mine) (states HELD);
        after ← _markers_on (ad_kind ad) targets;
        let held := _own after h n (Some HELD) in
        let confirmed := same_keys held targets in
        refused ← _refuse_bid addrs after (if confirmed then held else mine) h adv confirmed;
        match refused with
        | Some r => mret (inr r)
        | None =>
            let covered : gset string := list_to_set encoded in
            instant ← of_result (min_of (updated_at <$> dict_values held));
            let grants := _own_grants after h covered in
            match dict_get grants n with
            | None => Raise (KeyError n)
            | Some own_grant =>
                let standing := one_ownership (n, own_grant)
                                  (filter (λ kg, kg.1 ≠ n) grants) instant in
                if decide (standing.1 = n) then
                  _ ← _stand_down (_retraction <$> filter (λ m, holder (stated m) = h
                        ∧ nonce (stated m) ≠ n ∧ addresses m = covered
                        ∧ (deadline m ≤ instant)%Z) after);
                  mret (inl {| granted_expires_at := adv; granted_on := held |})
                else _withdraw_into addrs h lease_seconds held adv
            end
        end
    end.

Definition _withdraw (addrs : gset Addr) (h : string) : prog unit :=
  let encoded : gset string := list_to_set (ad_lines addrs) in
  markers ← _markers_on (ad_kind ad) (ad_targets addrs);
  refused ← _delete_markers (_retraction <$>
    filter (λ m, holder (stated m) = h ∧ addresses m ∩ encoded ≠ ∅) markers);
  match refused with
  | [] => mret tt
  | (_, e) :: _ => Raise e
  end.
End protocol.
