(* ===== verification/Claims.v ===== *)
(** * Claims, surface leases and a run's lease (adapters/linear/tracker.py,
    services/run_surface_lease.py, core/owned_tasks.py).

    The two addressings the protocol of [Lease] is used with, the operations the tracker's
    ports offer over them, the check before a write and the report of a claim, and the
    object that holds one job's lease from acquisition to release. *)

From S2P Require Import Prelude PyStr Tracker Errors Surface Board Lease.

(** ** Addressings *)

Definition _COMMENT_PARENT_BY_SCOPE_KIND (k : ScopeKind) : string :=
  match k with
  | ISSUE => "issueId" | PROJECT => "projectId"
  | INITIATIVE => "initiativeId" | MILESTONE => "milestoneId"
  end.

Definition _surface_target (s : WritableSurface) : Target := {|
  field := _COMMENT_PARENT_BY_SCOPE_KIND (scope_kind (surface_ref s));
  target_key := scope_key (surface_ref s) |}.

Definition _CLAIM_ADDRESSING : Addressing string := {|
  ad_kind := CLAIM; encode := λ issue_key, issue_key;
  ad_target := λ issue_key, {| field := "issueId"; target_key := issue_key |};
  ad_order := λ issue_key, [issue_key] |}.

Definition _LEASE_ADDRESSING : Addressing WritableSurface := {|
  ad_kind := LEASE; encode := _surface_line; ad_target := _surface_target;
  ad_order := surface_address |}.

(** ** Claims *)

Definition claim_issue (issue_key holder : string) (lease_seconds : Z) : prog ClaimResult :=
  outcome ← _grant _CLAIM_ADDRESSING {[ issue_key ]} holder lease_seconds;
  mret match outcome with
       | inr refused => {|
           claim_issue_key := issue_key;
           claim_status := if refused_settled refused then LOST else CONTENDED;
           claim_holder := holder; claim_expires_at := refused_expires_at refused;
           current_holder := refused_holder refused |}
       | inl granted => {|
           claim_issue_key := issue_key; claim_status := GRANTED; claim_holder := holder;
           claim_expires_at := granted_expires_at granted; current_holder := None |}
       end.

Definition renew_claim (issue_key holder : string) (lease_seconds : Z) : prog (option ClaimResult) :=
  extended ← _extend _CLAIM_ADDRESSING {[ issue_key ]} holder lease_seconds;
  mret match extended with
       | None => None
       | Some g => Some {| claim_issue_key := issue_key; claim_status := GRANTED;
           claim_holder := holder; claim_expires_at := granted_expires_at g; current_holder := None |}
       end.

Definition release_claim (issue_key holder : string) : prog unit :=
  _withdraw _CLAIM_ADDRESSING {[ issue_key ]} holder.

(** The holders of the markers created at the same instant as the earliest. *)
Definition tying (earliest : GrantMarker) (markers : list GrantMarker) : gset string :=
  list_to_set ((λ m, holder (stated m)) <$> filter (λ m, created_at m = created_at earliest) markers).

(** [active_claim] past its listing; [v02] is what [_v02_claim] answers for the comments
    of an earlier version, whose text is not modelled. *)
Definition active_claim (issue_key : string) (markers : list GrantMarker)
    (v02 : option ClaimResult) (now : Z) : option ClaimResult :=
  let markers := filter (λ m, state (stated m) = HELD ∧ (now < deadline m)%Z) markers in
  match earliest markers with
  | None => v02
  | Some first =>
      if (1 <? size (tying first markers))%nat then None
      else match (λ m, advertised (stated m)) <$>
                   filter (λ m, holder (stated m) = holder (stated first)) markers with
           | [] => None
           | x :: l => Some {| claim_issue_key := issue_key; claim_status := GRANTED;
               claim_holder := holder (stated first);
               claim_expires_at := foldl Z.max x l; current_holder := None |}
           end
  end.

(** ** Surfaces *)

(** [SurfaceLease]; [lease_granted] is the grant behind it, which no code reads. *)
Record SurfaceLease := {
  lease_holder : string;
  lease_surfaces : gset WritableSurface;
  lease_expires_at : Z;
  lease_granted : Granted;
}.

(** [SurfaceLease.__post_init__] *)
Definition make_surface_lease (holder : string) (surfaces : gset WritableSurface) (g : Granted) :
    result exn SurfaceLease :=
  if str_blank holder then Err (ValueError "a surface lease requires a nonblank holder")
  else if decide (surfaces = ∅)
       then Err (ValueError "a surface lease requires at least one surface")
       else Ok {| lease_holder := holder; lease_surfaces := surfaces;
                  lease_expires_at := granted_expires_at g; lease_granted := g |}.

Definition acquire_surfaces (surfaces : gset WritableSurface) (holder : string) (lease_seconds : Z) :
    prog SurfaceLease :=
  outcome ← _grant _LEASE_ADDRESSING surfaces holder lease_seconds;
  match outcome with
  | inr refused => Raise (SurfaceContendedError
      (if refused_settled refused then "surface set intersects a live lease"
       else "surface set meets a race the backend has not settled")
      (refused_address refused) (refused_holder refused))
  | inl granted => of_result (make_surface_lease holder surfaces granted)
  end.

Definition renew_surfaces (surfaces : gset WritableSurface) (holder : string) (lease_seconds : Z) :
    prog (option SurfaceLease) :=
  extended ← _extend _LEASE_ADDRESSING surfaces holder lease_seconds;
  match extended with
  | None => mret None
  | Some granted =>
      lease ← of_result (make_surface_lease holder surfaces granted);
      mret (Some lease)
  end.

Definition release_surfaces (surfaces : gset WritableSurface) (holder : string) : prog unit :=
  _withdraw _LEASE_ADDRESSING surfaces holder.

(** [_assert_surface_holder]: [now] is the reader's own clock. *)
Definition _assert_surface_holder (surface : WritableSurface) (h : option string)
    (markers : list GrantMarker) (now : Z) : result exn unit :=
  let live := filter (λ m, retracted m = false ∧ in_force m = true ∧ (now < deadline m)%Z
                           ∧ _surface_line surface ∈ lines (stated m)) markers in
  let owner := match earliest live with
    | Some first => if decide (state (stated first) = HELD ∧ size (tying first live) = 1%nat)
                    then Some (holder (stated first)) else None
    | None => None
    end in
  if decide (h = None ∨ owner ≠ h)
  then Err (SurfaceLeaseError "the writing job does not hold this live surface" surface owner)
  else Ok tt.

Definition _require_surface_holder (surface : WritableSurface) (h : option string) : prog unit :=
  markers ← _markers_on LEASE [_surface_target surface];
  now ← ask ReadClock;
  of_result (_assert_surface_holder surface h markers now).

(** ** A run's lease (services/run_surface_lease.py, core/owned_tasks.py) *)

(** [settle]: the operation finishes before the caller's cancellation propagates. *)
Definition settle {A} (operation : prog A) : prog A :=
  outcome ← attempt operation;
  cancelled ← ask Interrupted;
  if cancelled : bool then Raise CancelledError else of_result outcome.

(** [RunSurfaceLease]; [run_grant] is the grant [active] speaks of, which no code reads. *)
Record RunSurfaceLease := {
  run_job_id : string;
  run_surfaces : gset WritableSurface;
  run_lease_seconds : Z;
  entered : bool;
  active : bool;
  run_grant : option Granted;
}.

Definition make_run_lease (job_id : string) (surfaces : gset WritableSurface) (lease_seconds : Z) :
    result exn RunSurfaceLease :=
  if str_blank job_id || bool_decide (surfaces = ∅)
  then Err (ValueError "a run lease needs a job id and a nonempty write set")
  else Ok {| run_job_id := job_id; run_surfaces := surfaces; run_lease_seconds := lease_seconds;
             entered := false; active := false; run_grant := None |}.

Definition set_active (self : RunSurfaceLease) (entered active : bool) (g : option Granted) :
    RunSurfaceLease := {|
  run_job_id := run_job_id self; run_surfaces := run_surfaces self;
  run_lease_seconds := run_lease_seconds self; entered := entered; active := active;
  run_grant := g |}.

(** A method answers with the object it leaves and what it returned or raised. *)
Definition method_result : Type := RunSurfaceLease * result exn unit.

Definition _release (self : RunSurfaceLease) : prog method_result :=
  let self := set_active self (entered self) false None in
  released ← attempt (settle (release_surfaces (run_surfaces self) (run_job_id self)));
  mret (self, released).

Definition __aenter__ (self : RunSurfaceLease) : prog method_result :=
  if entered self
  then mret (self, Err (ValueError "a run surface lease may be entered only once"))
  else
    let self := set_active self true (active self) (run_grant self) in
    acquired ← attempt (settle (acquire_surfaces (run_surfaces self) (run_job_id self)
                                  (run_lease_seconds self)));
    match acquired with
    | Ok lease => mret (set_active self true true (Some (lease_granted lease)), Ok tt)
    | Err (SurfaceLeaseError _ _ _ as e) | Err (SurfaceContendedError _ _ _ as e) =>
        mret (self, Err e)
    | Err e =>
        released ← _release self;
        mret (released.1, match released.2 with Ok _ => Err e | Err e' => Err e' end)
    end.

Definition renew (self : RunSurfaceLease) : prog method_result :=
  let lost := SurfaceLeaseLostError (run_job_id self) (run_surfaces self) in
  if negb (active self) then mret (self, Err lost)
  else
    let self := set_active self (entered self) false None in
    renewed ← attempt (settle (renew_surfaces (run_surfaces self) (run_job_id self)
                                 (run_lease_seconds self)));
    mret match renewed with
         | Ok (Some lease) =>
             (set_active self (entered self) true (Some (lease_granted lease)), Ok tt)
         | Ok None => (self, Err lost)
         | Err e => (self, Err e)
         end.

Definition __aexit__ (self : RunSurfaceLease) : prog method_result := _release self.

(** A caller's use of the object: any methods in any order, one after the other. *)
Inductive method := Enter | Renew | Exit.
Definition call_method (m : method) : RunSurfaceLease → prog method_result :=
  match m with Enter => __aenter__ | Renew => renew | Exit => __aexit__ end.

Fixpoint use_lease (self : RunSurfaceLease) (ms : list method) :
    prog (RunSurfaceLease * list (result exn unit)) :=
  match ms with
  | [] => mret (self, [])
  | m :: ms =>
      called ← call_method m self;
      rest ← use_lease called.1 ms;
      mret (rest.1, called.2 :: rest.2)
  end.
