(* ===== verification/LeaseSafety.v ===== *)
(** * Exclusive ownership over a shared log: the proof of [Lease].

    [mine_inv] is what a holder knows of its own markers, [read_ok] what a listing
    establishes, and each program has a lemma in [wp]: run among any other holders'
    programs it only writes its own markers, and a grant it returns stands. [system]
    puts one program per holder over one board, interleaved call by call; its invariant
    gives the exclusion theorem. *)

From S2P Require Import Prelude PyStr Tracker Errors Board Lease.

Section safety.
(** Whether the holder's listings are whole. *)
Context (whole : bool).

(** ** What a holder keeps *)

(** One marker of the holder's per grant and target. *)
Definition own_unique (h : string) (s : board) : Prop :=
  ∀ c d, c ∈ own h s → d ∈ own h s → nonce (stated c) = nonce (stated d) →
    target c = target d → c = d.

Record mine_inv (h : string) (s : board) : Prop := {
  mi_board : board_inv s;
  mi_unique : own_unique h s;
}.

Lemma mine_inv_rely h s s' : rely h s s' → mine_inv h s → mine_inv h s'.
Proof.
  intros Hr [Hb Hu]. constructor; [by eapply rely_inv|].
  intros c d. rewrite (rely_own _ _ _ Hr). apply Hu.
Qed.

(** A marker that may be retracted: any comment under the key is the body's own. *)
Definition retractable (h : string) (w : WrittenMarker) (s : board) : Prop :=
  state (void_body w) = VOID ∧ written_key w ∈ issued s
  ∧ ∀ c, c ∈ comments s → comment_key c = written_key w →
      holder (stated c) = h ∧ holder (void_body w) = h
      ∧ kind (void_body w) = kind (stated c) ∧ nonce (void_body w) = nonce (stated c).

Lemma retractable_guar h h' w s s' : guar h' s s' → retractable h w s → retractable h w s'.
Proof.
  intros Hg (Hv & Hi & Hw). split; [done|]. split; [by eapply guar_issued|].
  intros c' Hc' Hk. destruct (guar_back _ _ _ _ Hg Hc')
    as [(c & Hc & Hkey & _ & _ & Hh & Hkd & Hn)|[Hn _]]; [|by rewrite Hk in Hn].
  rewrite Hh, Hkd, Hn. apply Hw; [done|congruence].
Qed.

Lemma retractable_rely h w s s' : rely h s s' → retractable h w s → retractable h w s'.
Proof. induction 1 as [|s s1 s' (h' & _ & Hg) _ IH]; [done|]. intros. by eapply IH, retractable_guar. Qed.

(** A marker of the holder's read in a listing may be retracted. *)
Lemma retractable_own h c s :
  mine_inv h s → c ∈ own h s → retractable h (_retraction c) s.
Proof.
  intros [Hb _] [Hc Hh]%elem_of_own. split; [done|]. split; [by apply (bi_issued _ Hb)|].
  intros d Hd Hk. cbn in Hk.
  assert (d = c) as ->; [by apply (key_inj s)|by rewrite Hh].
Qed.

(** ** Single calls *)

(** What a holder's marker loses or keeps when others move: nothing. *)
Lemma own_elem_rely h s s' c : rely h s s' → c ∈ own h s ↔ c ∈ own h s'.
Proof. intros Hr. by rewrite (rely_own _ _ _ Hr). Qed.

Lemma exec_read {X} (q : request X) s s' r :
  match q with SaveNew _ _ | SaveOver _ _ | DeleteComment _ => False | _ => True end →
  exec whole q s s' r → (now s ≤ now s')%Z ∧ unchanged s s' ∧ (∀ x, r = Ok x → performed whole q s s' x).
Proof.
  intros Hq [Hn [[[e ->] Hu]|(x & Hp & Hr)]]; (split; [done|]).
  { split; [done|]. by intros. }
  assert (unchanged s s') as Hu by (by destruct q; cbn in Hp; try done; destruct Hp).
  split; [done|]. intros y Hy. destruct Hr as [->|[e ->]]; [|done]. by injection Hy as <-.
Qed.

(** A read, among the others. *)
Lemma wp_read {X R} h (q : request X) (k : result exn X → prog R) s Q :
  match q with SaveNew _ _ | SaveOver _ _ | DeleteComment _ => False | _ => True end →
  (∀ s0 s1 r, rely h s s0 → board_inv s0 → (now s0 ≤ now s1)%Z → unchanged s0 s1 →
     (∀ x, r = Ok x → performed whole q s0 s1 x) → wp whole h (k r) s1 Q) →
  wp whole h (Call q k) s Q.
Proof.
  intros Hq Hk s0 s1 r Hr Hb He. apply exec_read in He as (Hn & Hu & Hp); [|done].
  split; [by apply guar_tick|]. by apply (Hk s0 s1 r).
Qed.

(** ** Listings *)

Definition clear (h a : string) (c : GrantMarker) (ms : list GrantMarker) : Prop :=
  ∀ d, d ∈ ms → target d = target c → holder (stated d) ≠ h → state (stated d) ≠ VOID →
    a ∈ lines (stated d) → (created_at d ≤ created_at c)%Z → (deadline d ≤ updated_at c)%Z.

Record read_ok (k : GrantKind) (h : string) (ts : list Target) (ms : list GrantMarker) (s : board) :
    Prop := {
  ro_kind : ∀ c, c ∈ ms → kind (stated c) = k ∧ target c ∈ ts;
  ro_own : ∀ c, c ∈ ms → holder (stated c) = h → c ∈ own h s;
  ro_stands : ∀ c a, whole = true → c ∈ ms → holder (stated c) = h → state (stated c) = HELD →
    a ∈ lines (stated c) → clear h a c ms → stands k a c s;
}.

Lemma read_ok_rely k h ts ms s s' :
  board_inv s → rely h s s' → read_ok k h ts ms s → read_ok k h ts ms s'.
Proof.
  intros Hb Hr [Hk Ho Hs]. constructor; [done| |].
  - intros c Hc Hh. rewrite <-own_elem_rely by done. by apply Ho.
  - intros c a Hw Hc Hh Hst Hl Hcl. eapply stands_rely; [done..|]. by apply Hs.
Qed.

(** A listing shows what is there, and a whole one what precedes a marker of the
    holder's. *)
Lemma listing_read_ok k h t wires s :
  board_inv s → wires `sublist_of` filter (λ c, target c = t) (comments s) →
  (whole = true → wires = filter (λ c, target c = t) (comments s)) →
  read_ok k h [t] (filter (λ c, kind (stated c) = k) wires) s.
Proof.
  intros Hb Hsub Hall.
  assert (∀ c, c ∈ filter (λ c, kind (stated c) = k) wires →
    kind (stated c) = k ∧ target c = t ∧ c ∈ comments s) as Hout.
  { intros c [Hk Hc]%list_elem_of_filter. split; [done|].
    by apply (elem_of_sublist _ _ _ Hc), list_elem_of_filter in Hsub. }
  constructor.
  - intros c (Hk & Ht & _)%Hout. split; [done|]. rewrite Ht. by left.
  - intros c (_ & _ & Hc)%Hout Hh. by apply elem_of_own.
  - intros c a Hw (Hk & Ht & Hc)%Hout Hh Hst Hl Hcl. rewrite (Hall Hw) in Hcl.
    assert (∀ c, c ∈ filter (λ c, kind (stated c) = k) (filter (λ c, target c = t) (comments s))
      ↔ kind (stated c) = k ∧ target c = t ∧ c ∈ comments s) as Hin
      by (intros c'; by rewrite !list_elem_of_filter).
    constructor; [done..|].
    intros d (i & j & Hij & Hi & Hj) Htd. unfold dead.
    destruct (decide (kind (stated d) = k)) as [Hkd|]; [|by left].
    destruct (decide (holder (stated d) = h)); [by right; left; rewrite Hh|].
    destruct (decide (state (stated d) = VOID)); [by right; right; left|].
    destruct (decide (a ∈ lines (stated d))); [|by right; right; right; left].
    right; right; right; right.
    assert (deadline d ≤ updated_at c)%Z as Hd.
    { apply Hcl; try done.
      - apply Hin. split; [done|]. split; [by rewrite Htd|]. by eapply list_elem_of_lookup_2.
      - pose proof (bi_order _ Hb) as Ho.
        rewrite <-(take_drop i (comments s)) in Ho. rewrite fmap_app in Ho.
        assert (drop i (comments s) = d :: drop (S i) (comments s)) as Hdr
          by (by apply drop_S).
        rewrite Hdr, fmap_cons in Ho. apply StronglySorted_app_1_r in Ho.
        apply StronglySorted_inv in Ho as [_ Ho]. rewrite Forall_forall in Ho. apply Ho.
        apply list_elem_of_fmap_2. apply list_elem_of_lookup_2 with (j - S i).
        rewrite lookup_drop. by replace (S i + (j - S i)) with j by lia. }
    pose proof (bi_stamps _ Hb c Hc). lia.
Qed.

Lemma read_ok_app k h t ts ms1 ms2 s :
  read_ok k h [t] ms1 s → read_ok k h ts ms2 s → read_ok k h (t :: ts) (ms1 ++ ms2) s.
Proof.
  intros [Hk1 Ho1 Hs1] [Hk2 Ho2 Hs2]. constructor.
  - intros c [Hc|Hc]%elem_of_app.
    + destruct (Hk1 c Hc) as [? ->%list_elem_of_singleton]. split; [done|by left].
    + destruct (Hk2 c Hc). split; [done|by right].
  - intros c [Hc|Hc]%elem_of_app; [by apply Ho1|by apply Ho2].
  - intros c a Hw [Hc|Hc]%elem_of_app Hh Hst Hl Hcl.
    + apply Hs1; try done. intros d Hd. apply Hcl. apply elem_of_app. by left.
    + apply Hs2; try done. intros d Hd. apply Hcl. apply elem_of_app. by right.
Qed.

(** The result of listing [ts], and that only the others moved: a comment it shows under a
    key of the holder's is the holder's. *)
Definition listed k h ts (s : board) (r : result exn (list GrantMarker)) (s' : board) : Prop :=
  rely h s s' ∧
  match r with
  | Ok ms => read_ok k h ts ms s'
      ∧ ∀ w c, retractable h w s → c ∈ ms → comment_key c = written_key w → holder (stated c) = h
  | Err _ => True
  end.

Lemma wp_markers_on k h ts s :
  board_inv s → wp whole h (_markers_on k ts) s (listed k h ts s).
Proof.
  revert s. induction ts as [|t ts IH]; intros s Hb; cbn [_markers_on].
  { split; [apply rtc_refl|]. split; [|by intros w c _ ?%not_elem_of_nil].
    by constructor; [intros c ?%not_elem_of_nil..|intros c a _ ?%not_elem_of_nil]. }
  apply wp_bind, wp_read; [done|]. intros s0 s1 r Hr Hb0 Hn Hu Hp.
  assert (rely h s s1) as Hr1 by (eapply rely_trans; [done|by apply tick_rely]).
  destruct r as [wires|e]; cbn; [|by split].
  destruct (Hp wires eq_refl) as (_ & Hsub & Hall).
  assert (board_inv s1) as Hb1 by (by eapply rely_inv).
  assert (read_ok k h [t] (filter (λ c, kind (stated c) = k) wires) s1) as Hok
    by (apply listing_read_ok; rewrite ?(proj1 Hu); done).
  apply wp_bind. eapply wp_mono; [by apply IH|]. intros [rest|e] s2 [Hr2 Hrest].
  - destruct Hrest as [Hrest Hkeys]. cbn. split; [by eapply rely_trans|]. split.
    + apply read_ok_app; [|done]. by eapply read_ok_rely.
    + intros w c Hw [Hc|Hc]%elem_of_app Hk.
      * apply list_elem_of_filter in Hc as [_ Hc].
        apply (elem_of_sublist _ _ _ Hc), list_elem_of_filter in Hsub as [_ Hc'].
        by apply (retractable_rely _ _ _ _ Hr Hw).
      * by apply (Hkeys w c (retractable_rely _ _ _ _ Hr1 Hw)).
  - cbn. split; [by eapply rely_trans|done].
Qed.

(** ** Writes *)

(** The holder's markers outside [ks] stay as they are and keep standing. *)
Definition kept (ks : list string) (h : string) (s s' : board) : Prop :=
  ∀ c, c ∈ own h s → comment_key c ∉ ks →
    c ∈ own h s' ∧ ∀ k a, stands k a c s → stands k a c s'.

Lemma kept_rely h s s' : board_inv s → rely h s s' → kept [] h s s'.
Proof.
  intros Hb Hr c Hc _. split; [by rewrite <-own_elem_rely|].
  intros k a. apply elem_of_own in Hc as [_ Hh]. by apply stands_rely with h.
Qed.

Lemma kept_trans ks1 ks2 h s1 s2 s3 :
  kept ks1 h s1 s2 → kept ks2 h s2 s3 → kept (ks1 ++ ks2) h s1 s3.
Proof.
  intros H1 H2 c Hc Hk. rewrite elem_of_app in Hk.
  destruct (H1 c Hc) as [Hc2 Hs2]; [tauto|]. destruct (H2 c Hc2) as [Hc3 Hs3]; [tauto|].
  split; [done|]. intros k a Hs. by apply Hs3, Hs2.
Qed.

Lemma kept_mono ks1 ks2 h s s' : (∀ x, x ∈ ks1 → x ∈ ks2) → kept ks1 h s s' → kept ks2 h s s'.
Proof. intros Hks Hk c Hc Hn. apply Hk; [done|]. intros Hx. by apply Hn, Hks. Qed.

(** A holder's step over its own markers, none of them new. *)
Lemma mine_inv_guar h s s' :
  guar h s s' → mine_inv h s → (∀ c, c ∈ comments s' → comment_key c ∈ issued s) → mine_inv h s'.
Proof.
  intros Hg [Hb Hu] Hold. pose proof (guar_inv _ _ _ Hg Hb) as Hb'. constructor; [done|].
  intros c' d' [Hc' Hhc]%elem_of_own [Hd' Hhd]%elem_of_own Hn Ht.
  destruct (guar_back _ _ _ _ Hg Hc') as [(c & Hc & Hkc & Htc & _ & Hhc' & _ & Hnc)|[Hnew _]].
  2:{ by destruct Hnew; apply Hold. }
  destruct (guar_back _ _ _ _ Hg Hd') as [(d & Hd & Hkd & Htd & _ & Hhd' & _ & Hnd)|[Hnew _]].
  2:{ by destruct Hnew; apply Hold. }
  assert (c = d) as <-; [|apply (key_inj s'); congruence].
  apply Hu; try apply elem_of_own; try done; try congruence; split; [done|congruence|done|congruence].
Qed.

Lemma kept_step h key s s' :
  mine_inv h s → guar h s s' →
  (∀ c, c ∈ comments s → comment_key c ≠ key → c ∈ comments s') → kept [key] h s s'.
Proof.
  intros [Hb _] Hg Hin c [Hc Hh]%elem_of_own Hk.
  assert (c ∈ comments s') as Hc' by (apply Hin; [done|]; intros E; apply Hk; rewrite E; by left).
  split; [by apply elem_of_own|]. intros k a Hs. by apply stands_step with h s.
Qed.

Ltac in_app := rewrite ?elem_of_app, ?elem_of_cons in *; tauto.

Lemma elem_of_middle {A} (l1 : list A) x y l2 z : z ∈ l1 ++ x :: l2 → z ≠ x → z ∈ l1 ++ y :: l2.
Proof. rewrite !elem_of_app, !elem_of_cons. tauto. Qed.

Lemma exec_save_over h key b s s' r :
  mine_inv h s →
  (∀ c, c ∈ comments s → comment_key c = key → holder (stated c) = h ∧ rewrites c b) →
  exec whole (SaveOver key b) s s' r →
  guar h s s' ∧ mine_inv h s' ∧ kept [key] h s s'
  ∧ (is_ok r = true → ∀ c, c ∈ comments s → comment_key c = key → save_over c (now s') b ∈ comments s').
Proof.
  intros Hm Hrw [Hn [[[e ->] Hu]|([] & (l1 & c & l2 & Es & Hk & Hi & E) & Hr)]].
  { assert (guar h s s') as Hg by (by apply guar_tick). destruct Hu as [Hc Hi].
    split; [done|]. split; [apply mine_inv_guar with s; [done..|]|].
    - intros d. rewrite Hc. apply (bi_issued _ (mi_board _ _ Hm)).
    - split; [|done]. apply kept_step; [done..|]. intros d. by rewrite Hc. }
  assert (c ∈ comments s) as Hcin by (rewrite Es; in_app).
  destruct (Hrw c Hcin Hk) as [Hh Hc].
  assert (guar h s s') as Hg by (by eapply guar_over).
  split; [done|]. split_and!.
  - apply mine_inv_guar with s; [done..|]. intros d Hd.
    destruct (guar_back _ _ _ _ Hg Hd) as [(d0 & Hd0 & -> & _)|[Hnew _]].
    + by apply (bi_issued _ (mi_board _ _ Hm)).
    + rewrite E in Hd. apply elem_of_app in Hd as [Hd|[->|Hd]%elem_of_cons].
      * apply (bi_issued _ (mi_board _ _ Hm)). rewrite Es. in_app.
      * exact (bi_issued _ (mi_board _ _ Hm) c Hcin).
      * apply (bi_issued _ (mi_board _ _ Hm)). rewrite Es. in_app.
  - apply kept_step; [done..|]. intros d Hd Hne. rewrite E. rewrite Es in Hd.
    apply elem_of_middle with c; [done|]. by intros ->.
  - intros _ d Hd Hkd. assert (d = c) as ->.
    { apply (key_inj s); [apply Hm|done|done|congruence]. }
    rewrite E. in_app.
Qed.

Lemma exec_delete h key s s' r :
  mine_inv h s →
  (∀ c, c ∈ comments s → comment_key c = key → holder (stated c) = h) →
  exec whole (DeleteComment key) s s' r → guar h s s' ∧ mine_inv h s' ∧ kept [key] h s s'.
Proof.
  intros Hm Hh [Hn [[_ Hu]|([] & (l1 & c & l2 & Es & Hk & Hi & E) & Hr)]].
  { assert (guar h s s') as Hg by (by apply guar_tick). destruct Hu as [Hc Hi].
    split; [done|]. split; [apply mine_inv_guar with s; [done..|]|].
    - intros d. rewrite Hc. apply (bi_issued _ (mi_board _ _ Hm)).
    - apply kept_step; [done..|]. intros d. by rewrite Hc. }
  assert (guar h s s') as Hg.
  { eapply guar_delete; try done. apply Hh; [rewrite Es; in_app|done]. }
  split; [done|]. split.
  - apply mine_inv_guar with s; [done..|]. intros d Hd.
    apply (bi_issued _ (mi_board _ _ Hm)). rewrite Es. rewrite E in Hd. in_app.
  - apply kept_step; [done..|]. intros d Hd Hne. rewrite E. rewrite Es in Hd.
    apply elem_of_app in Hd as [?|[->|?]%elem_of_cons]; [in_app|done|in_app].
Qed.

(** ** Standing down *)

Definition stood_down (ws : list WrittenMarker) (h : string) (s s' : board) : Prop :=
  mine_inv h s' ∧ kept (written_key <$> ws) h s s'.

Lemma stood_down_step w ws h s s0 s1 s' :
  mine_inv h s → rely h s s0 → kept [written_key w] h s0 s1 → stood_down ws h s1 s' →
  stood_down (w :: ws) h s s'.
Proof.
  intros Hm Hr Hk [Hm' Hk']. split; [done|].
  eapply kept_mono; [|eapply kept_trans; [eapply kept_trans; [apply kept_rely; [apply Hm|exact Hr]|exact Hk]|exact Hk']].
  done.
Qed.

Lemma wp_delete_markers h ws s :
  mine_inv h s → (∀ w, w ∈ ws → retractable h w s) →
  wp whole h (_delete_markers ws) s (λ _ s', stood_down ws h s s').
Proof.
  revert s. induction ws as [|w ws IH]; intros s Hm Hw; cbn [_delete_markers].
  { split; [done|]. apply kept_rely; [apply Hm|apply rtc_refl]. }
  intros s0 s1 r Hr Hb0 He. assert (mine_inv h s0) as Hm0 by (by eapply mine_inv_rely).
  assert (retractable h w s0) as Hw0 by (eapply retractable_rely, Hw; [done|by left]).
  destruct (exec_delete h (written_key w) s0 s1 r Hm0) as (Hg & Hm1 & Hk); [|done|].
  { intros c Hc Hkey. by apply Hw0. }
  split; [done|].
  assert (∀ w', w' ∈ ws → retractable h w' s1) as Hw1.
  { intros w' Hin. eapply retractable_guar; [done|]. eapply retractable_rely, Hw; [done|by right]. }
  assert (wp whole h (_delete_markers ws) s1 (λ _ s', stood_down (w :: ws) h s s')) as Hgo.
  { eapply wp_mono; [by apply IH|]. intros r' s' Hs. by eapply stood_down_step. }
  destruct r as [[]|e]; [done|]. destruct (transport_failure e).
  - apply wp_bind. eapply wp_mono; [exact Hgo|]. by intros [l|e'] s'.
  - cbn. eapply stood_down_step; [done..|]. split; [done|].
    eapply kept_mono; [|apply kept_rely; [apply Hm1|apply rtc_refl]]. by intros x ?%not_elem_of_nil.
Qed.

Lemma wp_void_markers h ws s :
  mine_inv h s → (∀ w, w ∈ ws → retractable h w s) →
  wp whole h (void_markers ws) s (λ _ s', stood_down ws h s s' ∧ ∀ w, retractable h w s → retractable h w s').
Proof.
  revert s. induction ws as [|w ws IH]; intros s Hm Hw; cbn [void_markers].
  { split; [|done]. split; [done|]. apply kept_rely; [apply Hm|apply rtc_refl]. }
  intros s0 s1 r Hr Hb0 He. assert (mine_inv h s0) as Hm0 by (by eapply mine_inv_rely).
  assert (retractable h w s0) as Hw0 by (eapply retractable_rely, Hw; [done|by left]).
  destruct (exec_save_over h (written_key w) (void_body w) s0 s1 r Hm0) as (Hg & Hm1 & Hk & _);
    [|done|].
  { intros c Hc Hkey. destruct Hw0 as (Hv & _ & Hw0). destruct (Hw0 c Hc Hkey) as (Hh & Hb & Hkd & Hn).
    split; [done|]. split; [congruence|]. split; [done|]. split; [done|]. by left. }
  split; [done|].
  assert (∀ w', retractable h w' s → retractable h w' s1) as Hw1.
  { intros w' Hin. eapply retractable_guar; [done|]. by eapply retractable_rely. }
  assert (wp whole h (void_markers ws) s1 (λ _ s', stood_down (w :: ws) h s s'
    ∧ ∀ w, retractable h w s → retractable h w s')) as Hgo.
  { eapply wp_mono; [apply IH; [done|]|].
    - intros w' Hin. apply Hw1, Hw. by right.
    - intros r' s' [Hs Hrt]. split; [by eapply stood_down_step|]. intros w' Hin. by apply Hrt, Hw1. }
  destruct r as [[]|e]; [done|]. destruct (transport_failure e); [done|].
  cbn. split; [|done]. eapply stood_down_step; [done..|]. split; [done|].
  eapply kept_mono; [|apply kept_rely; [apply Hm1|apply rtc_refl]]. by intros x ?%not_elem_of_nil.
Qed.

Lemma wp_stand_down h ws s :
  mine_inv h s → (∀ w, w ∈ ws → retractable h w s) →
  wp whole h (_stand_down ws) s (λ _ s', stood_down ws h s s').
Proof.
  intros Hm Hw. unfold _stand_down. apply wp_bind.
  eapply wp_mono; [by apply wp_void_markers|]. intros r s' [[Hm' Hk] Hrt].
  destruct r as [[]|e]; [|done]. apply wp_bind.
  eapply wp_mono; [apply wp_delete_markers; [done|]|].
  { intros w Hin. by apply Hrt, Hw. }
  intros r s2 [Hm2 Hk2]. assert (stood_down ws h s s2) as Hs.
  { split; [done|]. eapply kept_mono; [|eapply kept_trans; [exact Hk|exact Hk2]].
    intros x [?|?]%elem_of_app; done. }
  by destruct r as [[]|e].
Qed.

(** ** The read-back's question *)

Lemma min_of_le l n : min_of l = Ok n → ∀ x, x ∈ l → (n ≤ x)%Z.
Proof.
  destruct l as [|x0 l]; [done|]. cbn. intros [= <-] x Hx.
  pose proof (py_min_least (id : Z → Z) x0 l x Hx) as Hle. unfold id, key_ltb in Hle. cbn in Hle.
  apply Z.leb_le in Hle. etransitivity; [|exact Hle]. clear. unfold py_min.
  assert (∀ l y, foldl (λ best z, if (z <? best)%Z then z else best) y l
    = foldl (λ best z, if negb (best <=? z)%Z then z else best) y l) as ->; [|lia].
  intros k. induction k as [|z k IH]; intros y; [done|]. cbn.
  by rewrite IH, Z.ltb_antisym.
Qed.

Section conflict.
Context {Addr : Type} `{Countable Addr} (ad : Addressing Addr).
Context (ms : list GrantMarker) (mine : pydict Target GrantMarker) (h : string).

(** The marker that answers for an address. *)
Definition answering (a : Addr) : option GrantMarker :=
  match mine_at mine (ad_target ad a) with
  | Ok mine => earliest (covering ad ms mine h a)
  | Err _ => None
  end.

Lemma held_fold l held0 held :
  foldM (λ held a,
    mine ← mine_at mine (ad_target ad a);
    Ok (match earliest (covering ad ms mine h a) with
        | Some m => dict_set held a m
        | None => held
        end)) held0 l = Ok held →
  (∀ a, a ∈ l → ∃ m, dict_get mine (ad_target ad a) = Some m)
  ∧ ∀ a m, answering a = Some m → a ∈ l ∨ dict_get held0 a = Some m → dict_get held a = Some m.
Proof.
  revert held0. induction l as [|x l IH]; intros held0; cbn [foldM].
  { intros [= <-]. split; [by intros a ?%not_elem_of_nil|].
    intros a m _ [?%not_elem_of_nil|?]; done. }
  intros (held1 & (mx & Hx & E)%bind_ok & Hrest)%bind_ok. injection E as E.
  destruct (IH _ Hrest) as [Hall Hget]. split.
  - intros a [->|Ha]%elem_of_cons; [|by apply Hall]. unfold mine_at in Hx.
    destruct (dict_get mine (ad_target ad x)) as [m|]; [by exists m|done].
  - intros a m Ha Hor. apply Hget; [done|].
    destruct (decide (a ∈ l)) as [|Hn]; [by left|right].
    destruct (decide (a = x)) as [->|Hne].
    + unfold answering in Ha. rewrite Hx in Ha. rewrite Ha in E. subst held1.
      by rewrite dict_get_set_eq.
    + destruct Hor as [[?|?]%elem_of_cons|Hg]; [done..|]. subst held1.
      destruct (earliest _); [by rewrite dict_get_set_ne by done|done].
Qed.

Lemma live_conflict_None (requested : list Addr) (held : pydict Addr GrantMarker) n (a : Addr) grant :
  live_conflict requested held h n = None → a ∈ requested → dict_get held a = Some grant →
  (deadline grant ≤ n)%Z ∨ holder (stated grant) = h.
Proof.
  induction requested as [|x l IH]; [by intros _ ?%not_elem_of_nil|]. cbn [live_conflict].
  intros Hl Hin Hg. apply elem_of_cons in Hin as [<-|Hin].
  - rewrite Hg in Hl. destruct ((expires_at grant <=? n)%Z || _) eqn:E; [|done].
    apply orb_true_iff in E as [E%Z.leb_le|E%bool_decide_eq_true]; [by left|by right].
  - apply IH; [|done..]. destruct (dict_get held x); [|done]. by destruct (_ || _).
Qed.

(** No conflict: every address has a marker of the holder's that nothing stands before. *)
Lemma conflict_None addrs :
  (∀ t m, dict_get mine t = Some m → target m = t) →
  _conflict ad addrs ms mine h = Ok None →
  ∀ a, a ∈ addrs → ∃ m, dict_get mine (ad_target ad a) = Some m ∧ clear h (encode ad a) m ms.
Proof.
  intros Ht Hc a Ha. unfold _conflict in Hc.
  apply bind_ok in Hc as (held & Hheld & Hc). apply bind_ok in Hc as (n & Hn & Hc).
  destruct (live_conflict _ held h n) as [[a0 o]|] eqn:Hlive.
  { destruct (dict_get held a0); [|done]. by apply bind_ok in Hc as (? & _ & ?). }
  apply held_fold in Hheld as [Hall Hget].
  assert (a ∈ sorted_addresses ad addrs) as Has
    by (unfold sorted_addresses; by rewrite elem_of_sort_by, elem_of_elements).
  destruct (Hall a Has) as [m Hm]. exists m. split; [done|].
  intros d Hd Htd Hh Hs Hl Hcr. destruct (decide (deadline d ≤ updated_at m)%Z) as [|Hgt]; [done|].
  exfalso.
  assert (d ∈ covering ad ms m h a) as Hcov.
  { apply list_elem_of_filter. split; [|done]. rewrite (Ht _ _ Hm) in Htd.
    unfold retracted. rewrite bool_decide_false by done. split_and!; try done. lia. }
  destruct (covering ad ms m h a) as [|x l] eqn:Ecov; [by apply not_elem_of_nil in Hcov|].
  set (w := py_min (λ a b, key_ltb (order a) (order b)) x l).
  assert (answering a = Some w) as Hans by (unfold answering, mine_at; by rewrite Hm, Ecov).
  assert (w ∈ covering ad ms m h a) as Hw by (rewrite Ecov; apply py_min_elem).
  apply list_elem_of_filter in Hw as [(_ & Hwh & _ & _ & _ & Hwd) _].
  destruct (live_conflict_None _ _ _ a w Hlive Has) as [Hle|?]; [by apply Hget; [|left]| |done].
  assert (n ≤ updated_at m)%Z; [|lia]. eapply min_of_le; [done|].
  apply list_elem_of_fmap_2. unfold dict_values. apply list_elem_of_fmap.
  exists (ad_target ad a, m). split; [done|]. by apply dict_get_elem.
Qed.
End conflict.

(** ** What a whole program leaves of the log *)

Definition step (s s' : board) : Prop := ∃ h, guar h s s'.

Lemma rely_steps h s s' : rely h s s' → rtc step s s'.
Proof. apply rtc_subrel. intros x y (h' & _ & Hg). by exists h'. Qed.

Lemma steps_retractable h w s s' : rtc step s s' → retractable h w s → retractable h w s'.
Proof. induction 1 as [|s s1 s' [h' Hg] _ IH]; [done|]. intros Hw. by eapply IH, retractable_guar. Qed.

Lemma wp_steps {R} h (p : prog R) s Q :
  wp whole h p s Q → wp whole h p s (λ r s', Q r s' ∧ rtc step s s').
Proof.
  intros Hwp. assert (∀ s1, rtc step s s1 → wp whole h p s1 Q → wp whole h p s1 (λ r s', Q r s' ∧ rtc step s s'))
    as Hgo; [|apply Hgo; [apply rtc_refl|done]]. clear Hwp.
  induction p as [r|e|X q k IH]; intros s1 Hs; cbn; [done..|].
  intros Hwp s2 s3 r Hr Hinv He. destruct (Hwp s2 s3 r Hr Hinv He) as [Hg Hk].
  split; [done|]. apply IH; [|done]. etrans; [exact Hs|].
  eapply rtc_r; [by eapply rely_steps|by exists h].
Qed.

(** ** Bids and confirmations *)

Lemma exec_save_new h t b s s' r :
  mine_inv h s → holder b = h →
  (∀ c, c ∈ own h s → nonce (stated c) = nonce b → target c ≠ t) →
  exec whole (SaveNew t b) s s' r →
  guar h s s' ∧ mine_inv h s'
  ∧ (∀ c, c ∈ own h s' → c ∈ own h s ∨ target c = t ∧ stated c = b)
  ∧ (∀ key v, r = Ok key → state v = VOID → holder v = h → kind v = kind b → nonce v = nonce b →
       retractable h {| written_key := key; void_body := v |} s').
Proof.
  intros Hm Hh Hfresh [Hn [[[e ->] Hu]|(key & (Hk & Hi & E) & Hr)]].
  { assert (guar h s s') as Hg by (by apply guar_tick). pose proof Hu as [Hc _].
    assert (rely h s s') as Hrel by (by apply tick_rely).
    split; [done|]. split; [by eapply mine_inv_rely|]. split; [|done].
    intros c Hin. left. by rewrite own_elem_rely. }
  set (c := {| target := t; comment_key := key; created_at := now s'; updated_at := now s';
    stated := b |}) in E.
  assert (guar h s s') as Hg.
  { apply guar_new with c; try done. intros d Hd Hhd Hnd. by apply Hfresh; [apply elem_of_own|]. }
  assert (own h s' = own h s ++ [c]) as Hown.
  { unfold own. by rewrite E, filter_app, filter_cons, decide_True. }
  split; [done|]. split_and!.
  - constructor; [by eapply guar_inv, mi_board|]. intros x y. rewrite Hown.
    intros [Hx|Hx%list_elem_of_singleton]%elem_of_app [Hy|Hy%list_elem_of_singleton]%elem_of_app Hxy Ht;
      [by apply (mi_unique _ _ Hm)| | |congruence].
    + subst y. by destruct (Hfresh x Hx Hxy).
    + subst x. by destruct (Hfresh y Hy (eq_sym Hxy)).
  - intros x. rewrite Hown. intros [Hx| ->%list_elem_of_singleton]%elem_of_app; [by left|by right].
  - intros key' v Hr' Hv Hhv Hkv Hnv. destruct Hr as [->|[e ->]]; [|done]. injection Hr' as <-.
    split; [done|]. split; [rewrite Hi; set_solver|]. cbn. intros d Hd Hdk. rewrite E in Hd.
    apply elem_of_app in Hd as [Hd| ->%list_elem_of_singleton].
    + destruct Hk. rewrite <-Hdk. by apply (bi_issued _ (mi_board _ _ Hm)).
    + by rewrite Hkv, Hnv.
Qed.

(** The holder's markers of one grant have a body [bs] allows. *)
Definition bodies (n : string) (bs : marker_body → Prop) (h : string) (s : board) : Prop :=
  ∀ c, c ∈ own h s → nonce (stated c) = n → bs (stated c).

Lemma bodies_rely n bs h s s' : rely h s s' → bodies n bs h s → bodies n bs h s'.
Proof. intros Hr Hb c. rewrite <-own_elem_rely by done. apply Hb. Qed.

Lemma wp_write_bids h ts b s :
  mine_inv h s → holder b = h → NoDup ts → bodies (nonce b) (eq b) h s →
  (∀ c, c ∈ own h s → nonce (stated c) = nonce b → target c ∉ ts) →
  wp whole h (write_bids ts b) s (λ r s', mine_inv h s' ∧
    match r with
    | Ok written => bodies (nonce b) (eq b) h s' ∧ (∀ tk v, tk ∈ written → state v = VOID →
        holder v = h → kind v = kind b → nonce v = nonce b →
        retractable h {| written_key := tk.2; void_body := v |} s')
    | Err _ => True
    end).
Proof.
  intros Hm Hh Hnd. revert s Hm. induction Hnd as [|t ts Ht Hnd IH]; intros s Hm Hbs Hts; cbn [write_bids].
  { split; [done|]. split; [done|]. by intros tk v ?%not_elem_of_nil. }
  apply wp_bind. intros s0 s1 r Hr Hb0 He.
  assert (mine_inv h s0) as Hm0 by (by eapply mine_inv_rely).
  destruct (exec_save_new h t b s0 s1 r Hm0 Hh) as (Hg & Hm1 & Hnew & Hret); [|done|].
  { intros c. rewrite <-own_elem_rely by done. intros Hc Hn E. apply (Hts c Hc Hn). rewrite E. by left. }
  split; [done|]. destruct r as [key|e]; [|done]. apply wp_bind.
  eapply wp_mono; [apply wp_steps, IH; [done|..]|].
  - intros c Hc Hn. destruct (Hnew c Hc) as [Hc0|[_ Hc0]]; [|done].
    by apply (bodies_rely _ _ _ _ _ Hr Hbs).
  - intros c Hc Hn. destruct (Hnew c Hc) as [Hc0|[E _]]; [|by rewrite E].
    rewrite <-own_elem_rely in Hc0 by done. intros Hin. apply (Hts c Hc0 Hn). by right.
  - intros [rest|e] s2 [[Hm2 Hrest] Hs]; [|done]. destruct Hrest as [Hbs2 Hret2].
    split; [done|]. split; [done|]. intros tk v [->|Hin]%elem_of_cons Hv Hhv Hkv Hnv.
    + cbn. eapply steps_retractable; [done|]. by apply Hret.
    + by apply Hret2.
Qed.

(** What a write in place does to the holder's markers. *)
Lemma exec_save_over_own h key b s s' r :
  (∀ c, c ∈ comments s → comment_key c = key → holder (stated c) = h ∧ rewrites c b) →
  exec whole (SaveOver key b) s s' r →
  (∀ c, c ∈ own h s' → c ∈ own h s ∨ ∃ c0, c0 ∈ own h s ∧ comment_key c0 = key ∧ c = save_over c0 (now s') b)
  ∧ (∀ c, c ∈ own h s → ∃ c', c' ∈ own h s' ∧ comment_key c' = comment_key c).
Proof.
  intros Hrw [Hn [[_ [Hc Hi]]|([] & (l1 & c & l2 & Es & Hk & Hi & E) & _)]].
  { assert (own h s' = own h s) as -> by (unfold own; by rewrite Hc).
    split; intros c Hin; [by left|by exists c]. }
  destruct (Hrw c) as [Hh Hr]; [rewrite Es; in_app|done|]. split; intros d; rewrite !elem_of_own.
  - intros [Hd Hhd]. rewrite E in Hd. apply elem_of_app in Hd as [Hd|[->|Hd]%elem_of_cons].
    + left. split; [rewrite Es; in_app|done].
    + right. exists c. rewrite elem_of_own. split; [|done]. split; [rewrite Es; in_app|done].
    + left. split; [rewrite Es; in_app|done].
  - intros [Hd Hhd]. rewrite Es in Hd. apply elem_of_app in Hd as [Hd|[->|Hd]%elem_of_cons].
    + exists d. rewrite elem_of_own, E. split; [|done]. split; [in_app|done].
    + exists (save_over c (now s') b). rewrite elem_of_own, E. split; [|done]. split; [in_app|].
      cbn. destruct Hr as [-> _]. done.
    + exists d. rewrite elem_of_own, E. split; [|done]. split; [in_app|done].
Qed.

Section grants.
Context {Addr : Type} `{Countable Addr} (ad : Addressing Addr).
Context (h : string).

Definition bid_or_held n ls adv enc (b : marker_body) : Prop :=
  b = _grant_body ad h n BID ls adv None enc ∨ b = _grant_body ad h n HELD ls adv None enc.

Lemma wp_confirm_markers n ls adv enc ms s :
  mine_inv h s → bodies n (bid_or_held n ls adv enc) h s →
  (∀ m, m ∈ ms → nonce (stated m) = n ∧ retractable h (_retraction m) s) →
  wp whole h (confirm_markers ms (_grant_body ad h n HELD ls adv None enc)) s (λ r s',
    mine_inv h s' ∧ bodies n (bid_or_held n ls adv enc) h s').
Proof.
  revert s. induction ms as [|m ms IH]; intros s Hm Hbs Hms; cbn [confirm_markers]; [done|].
  apply wp_bind. intros s0 s1 r Hr Hb0 He. assert (mine_inv h s0) as Hm0 by (by eapply mine_inv_rely).
  assert (∀ c, c ∈ comments s0 → comment_key c = comment_key m →
    holder (stated c) = h ∧ rewrites c (_grant_body ad h n HELD ls adv None enc)) as Hrw.
  { intros c Hc Hk. destruct (Hms m) as [Hn Hret]; [by left|].
    pose proof (retractable_rely _ _ _ _ Hr Hret) as (_ & _ & Hret0).
    destruct (Hret0 c Hc Hk) as (Hh & _ & _ & Hnc). split; [done|].
    destruct (bodies_rely _ _ _ _ _ Hr Hbs c) as [E|E]; [by apply elem_of_own|cbn in Hnc; congruence|..];
      unfold rewrites; rewrite E; cbn; split_and!; try done; right; split_and!; try done; left; done. }
  destruct (exec_save_over h _ _ s0 s1 r Hm0 Hrw He) as (Hg & Hm1 & _).
  split; [done|]. destruct (exec_save_over_own h _ _ s0 s1 r Hrw He) as [Hown _].
  assert (bodies n (bid_or_held n ls adv enc) h s1) as Hbs1.
  { intros c Hc Hn. destruct (Hown c Hc) as [Hc0|(c0 & _ & _ & ->)]; [|by right].
    by apply (bodies_rely _ _ _ _ _ Hr Hbs). }
  destruct r as [[]|e]; [|done]. apply IH; [done..|].
  intros m' Hin. destruct (Hms m') as [Hn Hret]; [by right|]. split; [done|].
  eapply retractable_guar; [done|]. by eapply retractable_rely.
Qed.

(** ** The refusal of a bid *)

Lemma wp_refuse_bid addrs ms mine expires confirmed s :
  mine_inv h s → (∀ m, m ∈ dict_values mine → retractable h (_retraction m) s) →
  wp whole h (_refuse_bid ad addrs ms mine h expires confirmed) s (λ r s', mine_inv h s'
    ∧ (r = Ok None → s' = s ∧ confirmed = true ∧ _conflict ad addrs ms mine h = Ok None)).
Proof.
  intros Hm Hmine. unfold _refuse_bid. apply wp_bind.
  destruct (_conflict ad addrs ms mine h) as [conflict|e]; [|done]. cbn [of_result wp].
  assert (∀ (rest : prog (option (Refused Addr))),
    (∀ s', mine_inv h s' → wp whole h rest s' (λ r s', mine_inv h s' ∧ r ≠ Ok None)) →
    wp whole h (_stand_down (_retraction <$> dict_values mine) ≫= λ _, rest) s (λ r s', mine_inv h s'
      ∧ (r = Ok None → s' = s ∧ confirmed = true ∧ (Ok conflict : result exn _) = Ok None))) as Hdown.
  { intros rest Hrest. apply wp_bind. eapply wp_mono; [apply wp_stand_down; [done|]|].
    { by intros w (m & -> & Hin)%list_elem_of_fmap; apply Hmine. }
    intros [[]|e] s' [Hm' _]; [|done]. eapply wp_mono; [by apply Hrest|]. by intros r s2 [? ?]. }
  assert (∀ c s', mine_inv h s' → wp whole h (mret (Some c) : prog (option (Refused Addr))) s'
    (λ r s', mine_inv h s' ∧ r ≠ Ok None)) as Hsome by done.
  destruct conflict as [c|].
  - apply Hdown. intros s' Hm'. by apply Hsome.
  - destruct (confirmed && _) eqn:E.
    + cbn. split; [done|]. intros _. apply andb_true_iff in E as [? _]. done.
    + apply Hdown. intros s' Hm'. apply wp_bind.
      destruct (first_address ad addrs); [by apply Hsome|done].
Qed.

(** ** The holder's own markers in a listing *)

Lemma own_entry ms n st t m :
  (t, m) ∈ _own ms h n st → m ∈ ms ∧ target m = t ∧ holder (stated m) = h ∧ nonce (stated m) = n
    ∧ (st = None ∨ st = Some (state (stated m))).
Proof.
  unfold _own. intros (x & [= -> ->] & Hx)%dict_of_elem%list_elem_of_fmap.
  apply list_elem_of_filter in Hx. tauto.
Qed.

Lemma own_value ms n st m :
  m ∈ dict_values (_own ms h n st) → m ∈ ms ∧ holder (stated m) = h ∧ nonce (stated m) = n.
Proof. intros ([t x] & -> & Hx)%list_elem_of_fmap. by apply own_entry in Hx as (? & _ & ? & ? & _). Qed.

Lemma confirmed_entry ms enc :
  NoDup (dict_keys (confirmed_markers ms h enc))
  ∧ ∀ t m, (t, m) ∈ confirmed_markers ms h enc →
      m ∈ ms ∧ target m = t ∧ holder (stated m) = h ∧ state (stated m) = HELD ∧ enc ⊆ addresses m.
Proof.
  unfold confirmed_markers. set (f := λ mine m, _).
  assert (∀ l d, (∀ m, m ∈ l → m ∈ ms) →
    (NoDup (dict_keys d) ∧ ∀ t m, (t, m) ∈ d →
      m ∈ ms ∧ target m = t ∧ holder (stated m) = h ∧ state (stated m) = HELD ∧ enc ⊆ addresses m) →
    NoDup (dict_keys (foldl f d l)) ∧ ∀ t m, (t, m) ∈ foldl f d l →
      m ∈ ms ∧ target m = t ∧ holder (stated m) = h ∧ state (stated m) = HELD ∧ enc ⊆ addresses m)
    as Hgo.
  2:{ apply Hgo; [done|]. split; [constructor|]. by intros t m ?%not_elem_of_nil. }
  induction l as [|x l IH]; intros d Hl [Hnd Hd]; cbn [foldl]; [done|].
  apply IH; [intros m Hm; apply Hl; by right|]. unfold f at 1 2. case_bool_decide as Hx; [|done].
  assert (NoDup (dict_keys (dict_set d (target x) x)) ∧ ∀ t m, (t, m) ∈ dict_set d (target x) x →
    m ∈ ms ∧ target m = t ∧ holder (stated m) = h ∧ state (stated m) = HELD ∧ enc ⊆ addresses m)
    as Hset.
  { split; [by apply dict_set_NoDup|]. intros t m [[= -> ->]|Hin]%dict_set_elem; [|by apply Hd].
    destruct Hx as (? & ? & ?). split_and!; try done. apply Hl. by left. }
  destruct (dict_get d (target x)); [|done]. by destruct (key_ltb _ _).
Qed.

Lemma same_keys_elem {V} (d : pydict Target V) l t : same_keys d l = true → t ∈ l → t ∈ dict_keys d.
Proof.
  intros E%bool_decide_eq_true Ht. apply (elem_of_list_to_set (C := gset Target)).
  rewrite E. by apply elem_of_list_to_set.
Qed.

Lemma ad_targets_elem addrs a : a ∈ addrs → ad_target ad a ∈ ad_targets ad addrs.
Proof.
  intros Ha. apply elem_of_fromkeys, list_elem_of_fmap_2. unfold sorted_addresses.
  by rewrite elem_of_sort_by, elem_of_elements.
Qed.

Lemma ad_lines_elem addrs a : a ∈ addrs → encode ad a ∈ ad_lines ad addrs.
Proof.
  intros Ha. apply list_elem_of_fmap_2. unfold sorted_addresses.
  by rewrite elem_of_sort_by, elem_of_elements.
Qed.

(** ** The renewal *)

Definition keys_kept (s s' : board) : Prop :=
  ∀ c, c ∈ own h s → ∃ c', c' ∈ own h s' ∧ comment_key c' = comment_key c.

Lemma keys_kept_trans s1 s2 s3 : keys_kept s1 s2 → keys_kept s2 s3 → keys_kept s1 s3.
Proof. intros H1 H2 c (c2 & Hc2 & <-)%H1. by apply H2. Qed.

Lemma keys_kept_rely s s' : rely h s s' → keys_kept s s'.
Proof. intros Hr c Hc. exists c. by rewrite <-own_elem_rely. Qed.

(** A marker of the holder's in a whole listing leads once nothing listed stands before it. *)
Definition led (addrs : gset Addr) (ms : list GrantMarker) (c : GrantMarker) (s : board) : Prop :=
  ∀ a, whole = true → a ∈ addrs → clear h (encode ad a) c ms → stands (ad_kind ad) (encode ad a) c s.

Definition renewal_ok (addrs : gset Addr) (st : renewal) (s : board) : Prop :=
  ∀ t c, (t, c) ∈ renewed st → target c = t ∧ c ∈ own h s ∧ led addrs (seen st) c s.

Definition renewable (addrs : gset Addr) (t : Target) (m : GrantMarker) (s : board) : Prop :=
  m ∈ own h s ∧ target m = t ∧ kind (stated m) = ad_kind ad ∧ state (stated m) = HELD
  ∧ ∀ x, x ∈ ad_lines ad addrs → x ∈ lines (stated m).

Lemma led_app addrs ms1 ms2 c s : led addrs ms1 c s → led addrs (ms1 ++ ms2) c s.
Proof. intros Hl a Hw Ha Hc. apply Hl; [done..|]. intros d Hd. apply Hc. in_app. Qed.

Lemma led_kept ks addrs ms c s s' :
  kept ks h s s' → c ∈ own h s → comment_key c ∉ ks → led addrs ms c s → led addrs ms c s'.
Proof. intros Hk Hc Hn Hl a Hw Ha Hcl. by apply (Hk c Hc Hn), Hl. Qed.

(** Rewriting one marker leaves the holder's others on other targets. *)
Lemma other_key s m c :
  board_inv s → m ∈ own h s → c ∈ own h s → target c ≠ target m → comment_key c ∉ [comment_key m].
Proof.
  intros Hb [Hm _]%elem_of_own [Hc _]%elem_of_own Ht Hk%list_elem_of_singleton. apply Ht.
  by rewrite (key_inj s c m).
Qed.

Lemma renew_write addrs n ls adv t m s s0 s1 r :
  mine_inv h s → rely h s s0 → renewable addrs t m s → nonce (stated m) = n →
  exec whole (SaveOver (comment_key m) (_grant_body ad h n HELD ls adv (Some (deadline m)) (ad_lines ad addrs)))
    s0 s1 r →
  guar h s0 s1 ∧ mine_inv h s1 ∧ keys_kept s s1 ∧ kept [comment_key m] h s s1
  ∧ (is_ok r = true → ∃ c, c ∈ own h s1 ∧ target c = t ∧ nonce (stated c) = n
       ∧ lines (stated c) = ad_lines ad addrs).
Proof.
  intros Hm Hr (Hin & Ht & Hk & Hst & Hl) <- He. assert (mine_inv h s0) as Hm0 by (by eapply mine_inv_rely).
  set (b := _grant_body ad h _ HELD ls adv _ _) in *.
  rewrite own_elem_rely in Hin by done. pose proof Hin as [Hc Hh]%elem_of_own.
  assert (∀ c, c ∈ comments s0 → comment_key c = comment_key m →
    holder (stated c) = h ∧ rewrites c b) as Hrw.
  { intros c Hc' Hkey. assert (c = m) as -> by (apply (key_inj s0); [apply Hm0|done..]).
    split; [done|]. unfold rewrites. cbn. split_and!; try done. right. rewrite Hst.
    split_and!; try done. by right. }
  destruct (exec_save_over h _ _ s0 s1 r Hm0 Hrw He) as (Hg & Hm1 & Hkept & Hok).
  destruct (exec_save_over_own h _ _ s0 s1 r Hrw He) as [_ Hkeys].
  split; [done|]. split; [done|]. split.
  { eapply keys_kept_trans; [by apply keys_kept_rely|]. exact Hkeys. }
  split.
  { eapply (kept_mono ([] ++ [_])); [done|]. eapply kept_trans; [|exact Hkept].
    apply kept_rely; [apply Hm|done]. }
  intros Hr'. exists (save_over m (now s1) b).
  split; [apply elem_of_own; by split; [apply (Hok Hr')|]|]. by rewrite <-Ht.
Qed.

Lemma wp_renew_markers addrs ls adv mine st s :
  mine_inv h s → NoDup (dict_keys mine) → (∀ t m, (t, m) ∈ mine → renewable addrs t m s) →
  renewal_ok addrs st s → (∀ t c, (t, c) ∈ renewed st → t ∉ dict_keys mine) →
  wp whole h (renew_markers ad addrs h ls adv mine st) s (λ r s', mine_inv h s' ∧ keys_kept s s'
    ∧ ∀ st', r = Ok st' → renewal_ok addrs st' s').
Proof.
  revert st s. induction mine as [|[t m] mine IH]; intros st s Hm Hnd Hren Hok Hfresh; cbn [renew_markers].
  { split; [done|]. split; [apply keys_kept_rely, rtc_refl|]. by intros st' [= <-]. }
  apply NoDup_cons in Hnd as [Hnt Hnd]. apply wp_bind. intros s0 s1 r Hr Hb0 He.
  destruct (Hren t m) as (Hin & Ht & Hk & Hst & Hl); [by left|].
  destruct (renew_write addrs _ ls adv t m s s0 s1 r Hm Hr (Hren t m (list_elem_of_here _ _)) eq_refl He)
    as (Hg & Hm1 & Hkeys & Hkept & Hw).
  split; [done|]. destruct r as [[]|e]; [|done]. destruct (Hw eq_refl) as (w & Hwown & Hwt & Hwn & Hwl).
  apply wp_bind. eapply wp_mono; [apply wp_markers_on, Hm1|]. intros r s2 [Hr2 Hlist].
  assert (mine_inv h s2) as Hm2 by (by eapply mine_inv_rely).
  assert (keys_kept s s2) as Hkeys2 by (eapply keys_kept_trans; [done|by apply keys_kept_rely]).
  destruct r as [written|e]; [|done]. destruct Hlist as [Hread _].
  assert (kept [comment_key m] h s s2) as Hkept2.
  { eapply (kept_mono ([_] ++ [])); [done|]. eapply kept_trans; [done|]. apply kept_rely; [apply Hm1|done]. }
  assert (∀ t' c, t' ≠ t → target c = t' → c ∈ own h s → comment_key c ∉ [comment_key m]) as Hother.
  { intros t' c Hne Hc Hcin. apply other_key with s; [apply Hm|done|done|congruence]. }
  set (st1 := {| seen := seen st ++ written; renewed := renewed st; accounted := accounted st |}).
  assert (renewal_ok addrs st1 s2) as Hok1.
  { intros t' c Hc. destruct (Hok t' c Hc) as (Htc & Hcin & Hled).
    assert (comment_key c ∉ [comment_key m]) as Hkc.
    { apply (Hother t'); [|done..]. intros ->. apply (Hfresh _ _ Hc). by left. }
    split; [done|]. split; [by apply (Hkept2 c)|]. apply led_app. by eapply led_kept. }
  cbv zeta. destruct (dict_get _ t) as [standing|] eqn:Eget; [|by split; [done|split; [done|]; intros ? [= <-]]].
  apply dict_get_elem, own_entry in Eget as (Hsin & Hstt & Hsh & Hsn & [?|[= Hsh']]); [done|].
  assert (standing = w) as <-.
  { apply (mi_unique _ _ Hm2); [by apply (ro_own _ _ _ _ _ Hread)|by rewrite <-own_elem_rely|congruence..]. }
  destruct (in_force standing); [|by split; [done|split; [done|]; intros ? [= <-]]].
  cbn [negb]. eapply wp_mono; [apply IH; [done|done|..]|].
  - intros t' m' Hin'. destruct (Hren t' m') as (Hin2 & Ht' & Hrest); [by right|].
    split; [|done]. apply (Hkept2 m' Hin2). apply (Hother t'); [|done..].
    intros ->. apply Hnt. apply list_elem_of_fmap. by exists (t, m').
  - intros t' c [[= -> ->]|Hc]%dict_set_elem; [|by apply Hok1].
    split; [done|]. split; [by rewrite <-own_elem_rely|]. intros a Hwhole Ha Hcl.
    apply (ro_stands _ _ _ _ _ Hread); [done..|rewrite Hwl; by apply ad_lines_elem|].
    intros d Hd. apply Hcl. cbn. in_app.
  - intros t' c [[= -> ->]|Hc]%dict_set_elem; [done|].
    intros Hin'. apply (Hfresh t' c Hc). by right.
  - intros r s3 (Hm3 & Hkeys3 & Hok3). split; [done|]. split; [by eapply keys_kept_trans|done].
Qed.

Lemma wp_renewal_retractions mine acc s :
  mine_inv h s → (∀ t m, (t, m) ∈ mine → ∃ c, c ∈ own h s ∧ comment_key c = comment_key m) →
  wp whole h (_renewal_retractions ad mine acc) s (λ r s', mine_inv h s'
    ∧ ∀ ws w, r = Ok ws → w ∈ ws → retractable h w s').
Proof.
  intros Hm Hmine. unfold _renewal_retractions. apply wp_bind.
  eapply wp_mono; [apply wp_markers_on, Hm|]. intros r s' [Hr Hl].
  assert (mine_inv h s') as Hm' by (by eapply mine_inv_rely).
  destruct r as [ms|e]; [|done]. destruct Hl as [Hread Hown]. split; [done|].
  intros ws w [= <-] ([t m] & Hin & E)%list_elem_of_omap. cbn in E.
  destruct (dict_get _ (comment_key m)) as [current|] eqn:Eget; [|done]. cbn in E.
  destruct (retracts _ _); [|done]. injection E as <-.
  apply dict_of_get in Eget. apply list_elem_of_fmap in Eget as (x & [= Hk ->] & Hx).
  destruct (Hmine t m Hin) as (c & Hc & Hkc).
  assert (holder (stated x) = h) as Hh.
  { apply (Hown (_retraction c)); [by apply retractable_own|done|]. cbn. congruence. }
  apply retractable_own; [done|]. by apply (ro_own _ _ _ _ _ Hread).
Qed.

(** ** A grant that stands, where it was made on whole listings *)

Definition granted_ok (addrs : gset Addr) (g : Granted) (s : board) : Prop :=
  ∀ a, a ∈ addrs → ∃ c, dict_get (granted_on g) (ad_target ad a) = Some c ∧ target c = ad_target ad a ∧ c ∈ own h s
    ∧ (whole = true → stands (ad_kind ad) (encode ad a) c s).

Lemma retractions_ok (ms : list GrantMarker) s :
  mine_inv h s → (∀ m, m ∈ ms → m ∈ own h s) →
  ∀ w, w ∈ _retraction <$> ms → retractable h w s.
Proof. intros Hm Hms w (m & -> & Hin)%list_elem_of_fmap. by apply retractable_own, Hms. Qed.

(** A program that stands down and then grants nothing. *)
Lemma wp_stand_down_none {R} ws (x : R) s (Q : result exn R → Prop) :
  mine_inv h s → (∀ w, w ∈ ws → retractable h w s) → Q (Ok x) → (∀ e, Q (Err e)) →
  wp whole h (_stand_down ws ≫= λ _, mret x) s (λ r s', mine_inv h s' ∧ Q r).
Proof.
  intros Hm Hw Hx He. apply wp_bind. eapply wp_mono; [by apply wp_stand_down|].
  by intros [[]|e] s' [Hm' _].
Qed.

Lemma wp_extend addrs ls s :
  mine_inv h s →
  wp whole h (_extend ad addrs h ls) s (λ r s', mine_inv h s'
    ∧ ∀ g, r = Ok (Some g) → granted_ok addrs g s').
Proof.
  intros Hm. unfold _extend. apply wp_bind.
  eapply wp_mono; [apply wp_markers_on, Hm|]. intros r s1 [Hr1 Hl].
  assert (mine_inv h s1) as Hm1 by (by eapply mine_inv_rely). clear Hm.
  destruct r as [ms|e]; [|done]. destruct Hl as [Hread _]. cbv zeta.
  assert (∀ ws, (∀ w, w ∈ ws → retractable h w s1) →
    wp whole h (_stand_down ws ≫= λ _, mret None) s1 (λ r s', mine_inv h s'
      ∧ ∀ g, r = Ok (Some g) → granted_ok addrs g s')) as Hnone.
  { intros ws Hws. eapply wp_mono; [apply (wp_stand_down_none ws None s1
      (λ r, ∀ g, r ≠ Ok (Some g))); done|]. intros r s' [? Hq]. split; [done|]. by intros g ?%Hq. }
  set (enc := list_to_set (ad_lines ad addrs) : gset string).
  destruct (confirmed_entry ms enc) as [Hnd Hmine].
  assert (∀ t m, (t, m) ∈ confirmed_markers ms h enc → renewable addrs t m s1) as Hren.
  { intros t m Hin. destruct (Hmine t m Hin) as (Hms & Ht & Hh & Hs & Henc).
    split; [by apply (ro_own _ _ _ _ _ Hread)|]. split; [done|].
    split; [by apply (ro_kind _ _ _ _ _ Hread)|]. split; [done|].
    intros x Hx. apply (elem_of_list_to_set (C := gset string)). apply Henc.
    by apply elem_of_list_to_set. }
  destruct (negb (same_keys _ _)) eqn:Esame.
  { apply Hnone, retractions_ok; [done|]. intros m Hin. apply list_elem_of_filter in Hin as [[Hh _] Hin].
    by apply (ro_own _ _ _ _ _ Hread). }
  destruct (_conflict ad addrs ms _ h) as [conflict|e]; [|by apply wp_bind].
  cbn [of_result]. destruct conflict as [c|].
  { apply Hnone, retractions_ok; [done|]. intros m ([t x] & -> & Hin)%list_elem_of_fmap.
    by apply Hren in Hin as [? _]. }
  apply wp_bind, wp_read; [done|]. intros s2 s3 r Hr2 Hb2 Hn Hu _.
  assert (rely h s1 s3) as Hr3 by (eapply rely_trans; [done|by apply tick_rely]).
  assert (mine_inv h s3) as Hm3 by (by eapply mine_inv_rely).
  destruct r as [clock|e]; [|done]. cbn [of_result]. apply wp_bind.
  eapply wp_mono; [apply wp_renew_markers; [done|done| |by intros t c ?%not_elem_of_nil..]|].
  { intros t m Hin. destruct (Hren t m Hin) as [Hin' Hrest]. split; [|done].
    by rewrite <-own_elem_rely. }
  intros r s4 (Hm4 & Hkeys & Hok). destruct r as [st|e]; [|done]. specialize (Hok st eq_refl).
  assert (wp whole h (retractions ← _renewal_retractions ad (confirmed_markers ms h enc) (accounted st);
    _ ← _stand_down retractions; mret None) s4 (λ r s', mine_inv h s'
      ∧ ∀ g, r = Ok (Some g) → granted_ok addrs g s')) as Hlate.
  { apply wp_bind. eapply wp_mono; [apply wp_renewal_retractions; [done|]|].
    - intros t m Hin. apply Hkeys. destruct (Hren t m Hin) as [Hin' _]. by rewrite <-own_elem_rely.
    - intros r s5 [Hm5 Hws]. destruct r as [ws|e]; [|done].
      eapply wp_mono; [apply (wp_stand_down_none ws None s5 (λ r, ∀ g, r ≠ Ok (Some g))); try done|].
      + intros w. by apply Hws.
      + intros r s6 [? Hq]. split; [done|]. by intros g ?%Hq. }
  apply wp_bind. destruct (negb (same_keys (renewed st) _)); [exact Hlate|].
  apply wp_bind. destruct (_conflict ad addrs (seen st) (renewed st) h) as [[c|]|e] eqn:Ec;
    [exact Hlate| |done].
  cbn. split; [done|]. intros g [= <-] a Ha.
  destruct (conflict_None ad (seen st) (renewed st) h addrs) with (a := a)
    as (m & Hget & Hcl); [|done..|].
  { intros t m Hget%dict_get_elem. by apply (Hok t m). }
  destruct (Hok _ _ (dict_get_elem _ _ _ Hget)) as (Ht & Hin & Hled).
  exists m. split; [done|]. split; [done|]. split; [done|]. intros Hwhole. by apply Hled.
Qed.

(** ** The acquisition *)

Definition acquired (addrs : gset Addr) (r : result exn (Granted + Refused Addr)) (s : board) : Prop :=
  mine_inv h s ∧ ∀ g, r = Ok (inl g) → granted_ok addrs g s.

Lemma wp_withdraw_into addrs ls mine expires s :
  mine_inv h s → (∀ m, m ∈ dict_values mine → m ∈ own h s) →
  wp whole h (_withdraw_into ad addrs h ls mine expires) s (acquired addrs).
Proof.
  intros Hm Hmine. unfold _withdraw_into. apply wp_bind.
  eapply wp_mono; [apply wp_stand_down, retractions_ok; done|]. intros r s1 [Hm1 _].
  destruct r as [[]|e]; [|done]. apply wp_bind. eapply wp_mono; [by apply wp_extend|].
  intros [[g|]|e] s2 [Hm2 Hg]; [| |done].
  - split; [done|]. intros g' [= <-]. by apply Hg.
  - apply wp_bind. by destruct (first_address ad addrs).
Qed.

(** The end of [_grant]: the holder's own grants over the same set. *)
Lemma wp_settle addrs ls adv n after s :
  let held := _own after h n (Some HELD) in
  let covered : gset string := list_to_set (ad_lines ad addrs) in
  mine_inv h s → read_ok (ad_kind ad) h (ad_targets ad addrs) after s →
  granted_ok addrs {| granted_expires_at := adv; granted_on := held |} s →
  wp whole h (instant ← of_result (min_of (updated_at <$> dict_values held));
        let grants := _own_grants after h covered in
        match dict_get grants n with
        | None => Raise (KeyError n)
        | Some own_grant =>
            let standing := one_ownership (n, own_grant)
                              (filter (λ kg, kg.1 ≠ n) grants) instant in
            if decide (standing.1 = n) then
              _ ← _stand_down (_retraction <$> filter (λ m, holder (stated m) = h
                    ∧ nonce (stated m) ≠ n ∧ addresses m = covered
                    ∧ (deadline m ≤ instant)%Z) after);
              mret (inl {| granted_expires_at := adv; granted_on := held |})
            else _withdraw_into ad addrs h ls held adv
        end) s (acquired addrs).
Proof.
  intros held covered Hm Hread Hok. apply wp_bind.
  destruct (min_of _) as [instant|e]; [|done]. cbn [of_result wp]. cbv zeta.
  destruct (dict_get _ n) as [g|]; [|done].
  assert (∀ m, m ∈ dict_values held → m ∈ own h s ∧ nonce (stated m) = n) as Hheld.
  { intros m (Hin & Hh & Hn)%own_value. split; [by apply (ro_own _ _ _ _ _ Hread)|done]. }
  destruct (decide _); [|apply wp_withdraw_into; [done|]; intros m Hin; by apply Hheld].
  apply wp_bind. eapply wp_mono; [apply wp_stand_down, retractions_ok; [done..|]|].
  { intros m [(Hh & _) Hin]%list_elem_of_filter. by apply (ro_own _ _ _ _ _ Hread). }
  intros r s' [Hm' Hkept]. destruct r as [[]|e']; [|done]. split; [done|].
  intros g' [= <-] a Ha. destruct (Hok a Ha) as (c & Hin & Ht & Hc & Hst).
  destruct (Hkept c Hc) as [Hc' Hk]; [|exists c; by eauto 6].
  intros (w & Hw & (m & -> & Hmin)%list_elem_of_fmap)%list_elem_of_fmap.
  apply list_elem_of_filter in Hmin as [(Hh & Hn & _) Hmin].
  destruct (Hheld c) as [_ Hcn].
  { apply list_elem_of_fmap. exists (ad_target ad a, c). split; [done|]. by apply dict_get_elem. }
  apply Hn. rewrite <-Hcn. do 2 f_equal.
  apply (key_inj s); [apply Hm| | |done].
  - by apply (ro_own _ _ _ _ _ Hread), elem_of_own in Hmin as [? _].
  - by apply elem_of_own in Hc as [? _].
Qed.

Lemma held_granted_ok addrs n ls adv after s :
  let held := _own after h n (Some HELD) in
  read_ok (ad_kind ad) h (ad_targets ad addrs) after s →
  bodies n (bid_or_held n ls adv (ad_lines ad addrs)) h s →
  _conflict ad addrs after held h = Ok None →
  granted_ok addrs {| granted_expires_at := adv; granted_on := held |} s.
Proof.
  intros held Hread Hbs Hc a Ha.
  destruct (conflict_None ad after held h addrs) with (a := a) as (m & Hget & Hcl);
    [|done..|].
  { intros t m Hget%dict_get_elem. by apply own_entry in Hget as (_ & ? & _). }
  pose proof Hget as (Hin & Ht & Hh & Hn & [?|[= Hst]])%dict_get_elem%own_entry; [done|].
  pose proof (ro_own _ _ _ _ _ Hread m Hin Hh) as Hown.
  exists m. split; [done|]. split; [done|]. split; [done|]. intros Hwhole. apply (ro_stands _ _ _ _ _ Hread); [done..| |done].
  destruct (Hbs m Hown Hn) as [->| ->]; by apply ad_lines_elem.
Qed.

Lemma wp_grant addrs ls s :
  mine_inv h s → wp whole h (_grant ad addrs h ls) s (acquired addrs).
Proof.
  intros Hm. unfold _grant. apply wp_bind, wp_read; [done|]. intros s0 s1 r Hr Hb0 Hn Hu _.
  assert (mine_inv h s1) as Hm1.
  { eapply mine_inv_rely; [|done]. eapply rely_trans; [done|by apply tick_rely]. }
  clear Hm Hr Hb0 Hn Hu s s0. destruct r as [clock|e]; [|done]. cbn [of_result wp]. cbv zeta.
  apply wp_bind, wp_read; [done|]. intros s2 s3 r Hr Hb2 Hn Hu Hfresh.
  assert (mine_inv h s3) as Hm3.
  { eapply mine_inv_rely; [|done]. eapply rely_trans; [done|by apply tick_rely]. }
  destruct r as [n|e]; [|done]. cbn [of_result wp]. cbv zeta.
  destruct (Hfresh n eq_refl) as [_ Hnone].
  assert (∀ c, c ∈ own h s3 → nonce (stated c) ≠ n) as Hown3.
  { intros c [Hc _]%elem_of_own. apply Hnone. by rewrite <-(proj1 Hu). }
  clear Hfresh Hnone Hu Hn Hb2 Hr Hm1 s2 s1.
  set (adv := (clock + ls)%Z). set (enc := ad_lines ad addrs). set (ts := ad_targets ad addrs).
  apply wp_bind. eapply wp_mono; [apply wp_write_bids; [done|done|apply fromkeys_NoDup|..]|].
  { by intros c Hc ?%Hown3. }
  { by intros c Hc ?%Hown3. }
  intros r s4 [Hm4 Hw]. destruct r as [written|e]; [|done]. destruct Hw as [Hbid Hret].
  apply wp_bind. eapply wp_mono; [apply wp_markers_on, Hm4|]. intros r s5 [Hr5 Hl].
  assert (mine_inv h s5) as Hm5 by (by eapply mine_inv_rely).
  destruct r as [ms|e]; [|done]. destruct Hl as [Hread _].
  assert (∀ m, m ∈ dict_values (_own ms h n None) → m ∈ own h s5 ∧ nonce (stated m) = n) as Hmine.
  { intros m (Hin & Hh & Hmn)%own_value. split; [by apply (ro_own _ _ _ _ _ Hread)|done]. }
  destruct (negb (same_keys _ _)).
  { apply wp_bind. eapply wp_mono; [apply wp_stand_down; [done|]|].
    - intros w (tk & -> & Hin)%list_elem_of_fmap. eapply retractable_rely; [done|]. by apply Hret.
    - by intros [[]|e] s6 [? _]. }
  apply wp_bind. eapply wp_mono; [apply wp_refuse_bid; [done|]|].
  { intros m Hin. by apply retractable_own, Hmine. }
  intros r s6 [Hm6 Hnone]. destruct r as [[rf|]|e]; [done| |done].
  destruct (Hnone eq_refl) as [-> _]. clear Hnone Hm6.
  apply wp_bind. eapply wp_mono; [apply wp_steps, (wp_confirm_markers n ls adv enc); [done|..]|].
  { intros c Hc Hcn. left. symmetry. by apply (bodies_rely _ _ _ _ _ Hr5 Hbid). }
  { intros m Hin. split; [by apply Hmine|]. by apply retractable_own, Hmine. }
  intros r s6 [[Hm6 Hbs6] Hsteps]. destruct r as [[]|e]; [|done].
  apply wp_bind. eapply wp_mono; [apply wp_markers_on, Hm6|]. intros r s7 [Hr7 Hl].
  assert (mine_inv h s7) as Hm7 by (by eapply mine_inv_rely).
  destruct r as [after|e]; [|done]. destruct Hl as [Hread7 _].
  apply wp_bind. eapply wp_mono; [apply wp_refuse_bid; [done|]|].
  { intros m Hin. destruct (same_keys _ ts).
    - apply own_value in Hin as (Hin & Hh & _). apply retractable_own; [done|].
      by apply (ro_own _ _ _ _ _ Hread7).
    - eapply retractable_rely; [exact Hr7|]. eapply steps_retractable; [exact Hsteps|].
      by apply retractable_own, Hmine. }
  intros r s8 [Hm8 Hnone]. destruct r as [[rf|]|e]; [done| |done].
  destruct (Hnone eq_refl) as (-> & Hsame & Hconf). rewrite Hsame in Hconf.
  apply wp_settle; [done|done|]. apply held_granted_ok with ls; [done|by eapply bodies_rely|done].
Qed.

(** ** The withdrawal *)

Lemma wp_withdraw addrs s :
  mine_inv h s → wp whole h (_withdraw ad addrs h) s (λ _ s', mine_inv h s').
Proof.
  intros Hm. unfold _withdraw. apply wp_bind.
  eapply wp_mono; [apply wp_markers_on, Hm|]. intros r s1 [Hr Hl].
  assert (mine_inv h s1) as Hm1 by (by eapply mine_inv_rely).
  destruct r as [ms|e]; [|done]. destruct Hl as [Hread _].
  apply wp_bind. eapply wp_mono; [apply wp_delete_markers, retractions_ok; [done..|]|].
  { intros m Hin. apply list_elem_of_filter in Hin as [[Hh _] Hin].
    by apply (ro_own _ _ _ _ _ Hread). }
  intros [[|[w e] l]|e] s2 [Hm2 _]; done.
Qed.
End grants.
End safety.
