(* ===== verification/LeaseSystem.v ===== *)
(** * Many holders on one board: exclusive ownership.

    [sys_step] interleaves, call by call, the operations of any number of holders over one
    board; a holder runs one operation at a time, as [RunSurfaceLease] requires of its
    caller, and may vanish between two calls. A listing may leave comments out; an
    operation is started with a flag that says whether its own will, and [history] keeps
    every grant an operation returned with that flag. From the lemmas of [LeaseSafety],
    every marker granted on whole listings leads its address from then on, whatever happens
    next and whatever the others read, and so no two such grants of different holders are
    live at once. Where a listing left a rival out two holders do own one address
    ([veiled_grants]), until the later one renews. *)

From S2P Require Import Prelude PyStr Tracker Errors Surface Board Lease Claims LeaseSafety.

(** ** Every holder's markers stay apart *)

Lemma unique_snoc h s c l :
  own_unique h s → own h l = own h s ++ [c] →
  (∀ d, d ∈ own h s → nonce (stated d) = nonce (stated c) → target d ≠ target c) → own_unique h l.
Proof.
  intros Hu E Hf x y. rewrite E.
  intros [Hx|Hx%list_elem_of_singleton]%elem_of_app [Hy|Hy%list_elem_of_singleton]%elem_of_app Hxy Ht.
  - by apply Hu.
  - subst y. by destruct (Hf x Hx Hxy).
  - subst x. by destruct (Hf y Hy (eq_sym Hxy)).
  - congruence.
Qed.

Lemma guar_unique h h' s s' :
  guar h' s s' → board_inv s → own_unique h s → own_unique h s'.
Proof.
  intros Hg Hb Hu. destruct (decide (h' = h)) as [->|Hne].
  2:{ intros c d. rewrite (guar_own h h' s s' Hne Hg). apply Hu. }
  assert (issued s' = issued s → own_unique h s') as Hold.
  { intros Hi. apply (mi_unique h s'). apply mine_inv_guar with s; [done|done|].
    intros c Hc. rewrite <-Hi. apply (bi_issued s'); [by eapply guar_inv|done]. }
  destruct Hg as [Hn [_ Hi]|c Hn Hk _ Hh _ _ E Hf|l1 c l2 b Hn Es Hh Hr Hi _|l1 c l2 Hn Es Hh Hi _];
    [by apply Hold| |by apply Hold..].
  apply unique_snoc with s c; [done| |].
  - unfold own. by rewrite E, filter_app, filter_cons, decide_True.
  - intros d [Hd Hhd]%elem_of_own. by apply Hf.
Qed.

(** ** A granted address keeps its lead *)

(** The marker under [key] on [t] leads [a] for as long as it states it, held: what is
    left of a grant, whatever its holder and the others do since. *)
Definition leads (k : GrantKind) (a : string) (t : Target) (key h : string) (s : board) : Prop :=
  key ∈ issued s ∧ ∀ c, c ∈ comments s → comment_key c = key →
    holder (stated c) = h ∧ target c = t
    ∧ (state (stated c) = VOID
       ∨ state (stated c) = HELD ∧ (a ∈ lines (stated c) → stands k a c s)).

Lemma stands_leads k a c s :
  board_inv s → stands k a c s → leads k a (target c) (comment_key c) (holder (stated c)) s.
Proof.
  intros Hb Hs. split; [apply (bi_issued _ Hb), Hs|]. intros d Hd Hk.
  assert (d = c) as -> by (apply (key_inj s); [done|done|apply Hs|done]).
  split; [done|]. split; [done|]. right. split; [apply Hs|done].
Qed.

Lemma leads_step k a t key h h' s s' :
  board_inv s → guar h' s s' → leads k a t key h s → leads k a t key h s'.
Proof.
  intros Hb Hg [Hi Hl]. split; [by apply (guar_issued h' s s' Hg)|]. intros c' Hc' Hk.
  destruct (guar_back h' s s' c' Hg Hc') as [(c & Hc & Hkc & _)|[Hnew _]]; [|by rewrite Hk in Hnew].
  destruct (Hl c Hc) as (Hh & Ht & Hst); [congruence|].
  destruct (guar_same h' s s' c c' Hb Hg Hc Hc' Hkc) as [->|(b & Hr & _ & E)].
  - split; [done|]. split; [done|]. destruct Hst as [Hv|[Hs Hst]]; [by left|right]. split; [done|].
    intros Ha. by apply stands_step with h' s; [..|apply Hst].
  - pose proof Hr as (Hhb & _ & _ & Hor).
    assert (holder (stated c') = h ∧ target c' = t) as [Hh' Ht'] by (rewrite E; cbn; split; congruence).
    split; [done|]. split; [done|]. destruct Hor as [Hv|(Hs & Hns & Hsub & _)]; [left; by rewrite E|].
    destruct Hst as [Hv|[_ Hst]]; [done|]. right. split; [by rewrite E|]. intros Ha.
    apply stands_over with h' c s; [done..|by rewrite E|done|].
    apply Hst, Hsub. rewrite E in Ha. done.
Qed.

(** ** The system *)

(** What a holder asks of the protocol, over either addressing. *)
Inductive operation :=
| Acquire {Addr} `{Countable Addr} (ad : Addressing Addr) (addrs : gset Addr) (lease_seconds : Z)
| Extend {Addr} `{Countable Addr} (ad : Addressing Addr) (addrs : gset Addr) (lease_seconds : Z)
| Withdraw {Addr} `{Countable Addr} (ad : Addressing Addr) (addrs : gset Addr).

Definition run_operation (h : string) (op : operation) : prog (option Granted) :=
  match op with
  | Acquire ad addrs ls =>
      outcome ← _grant ad addrs h ls;
      mret match outcome with inl g => Some g | inr _ => None end
  | Extend ad addrs ls => _extend ad addrs h ls
  | Withdraw ad addrs => _ ← _withdraw ad addrs h; mret None
  end.

Record system := {
  log : board;
  running : gmap string (operation * bool * prog (option Granted));
  history : list (string * operation * bool * Granted);
}.

(** An operation is started with a flag its listings then keep to: one whose listings all
    turn out whole is one started with [true]. *)
Inductive sys_step : system → system → Prop :=
| sys_start σ h op w :
    running σ !! h = None →
    sys_step σ {| log := log σ; running := <[h := (op, w, run_operation h op)]> (running σ);
                  history := history σ |}
| sys_call σ h op w X (q : request X) k r s' :
    running σ !! h = Some (op, w, Call q k) → exec w q (log σ) s' r →
    sys_step σ {| log := s'; running := <[h := (op, w, k r)]> (running σ); history := history σ |}
| sys_return σ h op w g :
    running σ !! h = Some (op, w, Return g) →
    sys_step σ {| log := log σ; running := delete h (running σ);
                  history := match g with Some g => (h, op, w, g) :: history σ | None => history σ end |}
| sys_raise σ h op w e :
    running σ !! h = Some (op, w, Raise e) →
    sys_step σ {| log := log σ; running := delete h (running σ); history := history σ |}
| sys_vanish σ h op w p :
    running σ !! h = Some (op, w, p) →
    sys_step σ {| log := log σ; running := delete h (running σ); history := history σ |}.

(** A board on which no holder is at work; markers may already be on it. *)
Definition initial (σ : system) : Prop :=
  board_inv (log σ) ∧ (∀ h, own_unique h (log σ)) ∧ running σ = ∅ ∧ history σ = [].

(** ** Its invariant *)

Definition op_granted (w : bool) (h : string) (op : operation) (g : Granted) (s : board) : Prop :=
  match op with
  | Acquire ad addrs _ | Extend ad addrs _ => granted_ok w ad h addrs g s
  | Withdraw _ _ => False
  end.

Definition op_leads (h : string) (op : operation) (g : Granted) (s : board) : Prop :=
  match op with
  | Acquire ad addrs _ | Extend ad addrs _ => ∀ a, a ∈ addrs →
      ∃ c, dict_get (granted_on g) (ad_target ad a) = Some c
        ∧ leads (ad_kind ad) (encode ad a) (ad_target ad a) (comment_key c) h s
  | Withdraw _ _ => False
  end.

Definition op_post (w : bool) (h : string) (op : operation) (r : result exn (option Granted)) (s : board) :
    Prop :=
  mine_inv h s ∧ ∀ g, r = Ok (Some g) → op_granted w h op g s.

Lemma granted_ok_rely w {Addr} `{Countable Addr} (ad : Addressing Addr) h addrs g s s' :
  board_inv s → rely h s s' → granted_ok w ad h addrs g s → granted_ok w ad h addrs g s'.
Proof.
  intros Hb Hr Hg a Ha. destruct (Hg a Ha) as (c & Hc & Ht & Hown & Hst). exists c.
  split; [done|]. split; [done|]. split; [by rewrite <-own_elem_rely|].
  intros Hw. apply stands_rely with h s; [done| |done|by apply Hst].
  by apply elem_of_own in Hown as [_ ?].
Qed.

Lemma op_post_steady w h op : steady h (op_post w h op).
Proof.
  intros r s s' Hb Hr [Hm Hg]. split; [by eapply mine_inv_rely|]. intros g Hrg.
  specialize (Hg g Hrg). destruct op; [by eapply granted_ok_rely..|done].
Qed.

Lemma op_granted_leads h op g s : board_inv s → op_granted true h op g s → op_leads h op g s.
Proof.
  intros Hb. destruct op as [Addr E C ad addrs ls|Addr E C ad addrs ls|]; cbn; [..|done];
    intros Hg a Ha; destruct (Hg a Ha) as (c & Hc & Ht & [_ Hh]%elem_of_own & Hst);
    exists c; (split; [done|]); rewrite <-Hh, <-Ht; by apply stands_leads, Hst.
Qed.

Lemma op_leads_step h h' op g s s' :
  board_inv s → guar h' s s' → op_leads h op g s → op_leads h op g s'.
Proof.
  intros Hb Hg. destruct op as [Addr E C ad addrs ls|Addr E C ad addrs ls|]; cbn; [..|done];
    intros Hl a Ha; destruct (Hl a Ha) as (c & Hc & Hlead); exists c; (split; [done|]);
    by apply leads_step with h' s.
Qed.

Lemma wp_operation w h op s : mine_inv h s → wp w h (run_operation h op) s (op_post w h op).
Proof.
  intros Hm. destruct op as [Addr E C ad addrs ls|Addr E C ad addrs ls|Addr E C ad addrs]; cbn [run_operation].
  - apply wp_bind. eapply wp_mono; [by apply wp_grant|]. intros [[g|rf]|e] s' [Hm' Hg]; (split; [done|]);
      [|done..]. intros g' [= <-]. by apply Hg.
  - eapply wp_mono; [by apply wp_extend|]. done.
  - apply wp_bind. eapply wp_mono; [by apply wp_withdraw|]. by intros [[]|e] s' Hm'.
Qed.

Record sys_inv (σ : system) : Prop := {
  si_board : board_inv (log σ);
  si_unique : ∀ h, own_unique h (log σ);
  si_running : ∀ h op w p, running σ !! h = Some (op, w, p) → wp w h p (log σ) (op_post w h op);
  si_history : ∀ h op g, (h, op, true, g) ∈ history σ → op_leads h op g (log σ);
}.

Lemma starts_inv σ : initial σ → sys_inv σ.
Proof.
  intros (Hb & Hu & Hr & Hh). constructor; [done..| |].
  - intros h op w p. by rewrite Hr, lookup_empty.
  - intros h op g. rewrite Hh. by intros ?%not_elem_of_nil.
Qed.

Lemma sys_inv_step σ σ' : sys_inv σ → sys_step σ σ' → sys_inv σ'.
Proof.
  intros [Hb Hu Hr Hh] Hstep.
  destruct Hstep as [σ h op w Hno|σ h op w X q k r s' Hrun He|σ h op w g Hrun|σ h op w e Hrun|σ h op w p Hrun].
  - constructor; cbn; [done..| |done]. intros h' op' w' p'.
    destruct (decide (h' = h)) as [->|Hne].
    + rewrite lookup_insert_eq. intros [= <- <- <-]. by apply wp_operation.
    + rewrite lookup_insert_ne by done. apply Hr.
  - destruct (Hr h op w _ Hrun (log σ) s' r) as [Hg Hk]; [apply rtc_refl|done|done|].
    constructor; cbn.
    + by eapply guar_inv.
    + intros h'. by eapply guar_unique.
    + intros h' op' w' p'. destruct (decide (h' = h)) as [->|Hne].
      * rewrite lookup_insert_eq. by intros [= <- <- <-].
      * rewrite lookup_insert_ne by done. intros Hp. apply wp_rely with (log σ); [apply op_post_steady|done| |by apply Hr].
        apply rtc_once. by exists h.
    + intros h' op' g' Hin. by eapply op_leads_step, Hh.
  - constructor; cbn; [done..| |].
    + intros h' op' w' p'. rewrite lookup_delete_Some. intros [_ Hp]. by apply Hr.
    + destruct g as [g|]; [|done]. intros h' op' g' [[= -> -> <- ->]|Hin]%elem_of_cons; [|by apply Hh].
      destruct (Hr _ _ _ _ Hrun) as [_ Hg]. by apply op_granted_leads, Hg.
  - constructor; cbn; [done..| |done]. intros h' op' w' p'. rewrite lookup_delete_Some. intros [_ Hp]. by apply Hr.
  - constructor; cbn; [done..| |done]. intros h' op' w' p'. rewrite lookup_delete_Some. intros [_ Hp]. by apply Hr.
Qed.

Lemma reachable_inv σ σ' : sys_inv σ → rtc sys_step σ σ' → sys_inv σ'.
Proof. intros Hi Hs. induction Hs; [done|]. by eauto using sys_inv_step. Qed.

(** ** Ownership *)

(** The operation named the address [line] on the target [t]. *)
Definition covers (op : operation) (k : GrantKind) (t : Target) (line : string) : Prop :=
  match op with
  | Acquire ad addrs _ | Extend ad addrs _ =>
      ad_kind ad = k ∧ ∃ a, a ∈ addrs ∧ ad_target ad a = t ∧ encode ad a = line
  | Withdraw _ _ => False
  end.

(** The grant's marker for [line] is on the board, held, and live at [clock]. *)
Definition live_at (g : Granted) (t : Target) (line : string) (clock : Z) (s : board)
    (c' : GrantMarker) : Prop :=
  ∃ c, dict_get (granted_on g) t = Some c ∧ c' ∈ comments s ∧ comment_key c' = comment_key c
    ∧ state (stated c') = HELD ∧ line ∈ lines (stated c') ∧ (clock < deadline c')%Z.

Definition owns (g : Granted) (t : Target) (line : string) (s : board) : Prop :=
  ∃ c, live_at g t line (now s) s c.

Lemma live_stands σ h op g k t line clock c :
  sys_inv σ → (h, op, true, g) ∈ history σ → covers op k t line → live_at g t line clock (log σ) c →
  stands k line c (log σ) ∧ holder (stated c) = h ∧ target c = t.
Proof.
  intros Hinv Hin Hcov (c0 & Hget & Hc & Hk & Hs & Hl & _).
  pose proof (si_history _ Hinv _ _ _ Hin) as Hlead.
  destruct op as [Addr E C ad addrs ls|Addr E C ad addrs ls|]; [..|done];
    destruct Hcov as [<- (a & Ha & <- & <-)];
    destruct (Hlead a Ha) as (c1 & Hget' & _ & Hst);
    assert (c1 = c0) as -> by congruence;
    destruct (Hst c Hc Hk) as (Hh & Ht & [Hv|[_ Hst']]); [congruence|by auto|congruence|by auto].
Qed.

(** C1. Exclusive ownership. Whatever holders acquire, renew, withdraw, fail or vanish in
    whatever order their calls interleave, a holder running one operation at a time, and
    whatever listings of the others left out: two grants the protocol ever returned over
    one address and kind, each to an operation whose own listings were whole, are never
    both live at one instant of the backend's clock unless they are the same holder's. *)
Theorem grants_exclusive σ0 σ h1 h2 op1 op2 g1 g2 k t line :
  initial σ0 → rtc sys_step σ0 σ →
  (h1, op1, true, g1) ∈ history σ → (h2, op2, true, g2) ∈ history σ →
  covers op1 k t line → covers op2 k t line →
  owns g1 t line (log σ) → owns g2 t line (log σ) → h1 = h2.
Proof.
  intros Hi Hs H1 H2 Hc1 Hc2 [c1 Ho1] [c2 Ho2].
  assert (sys_inv σ) as Hinv by (by eapply reachable_inv; [apply starts_inv|]).
  destruct (live_stands σ h1 op1 g1 k t line (now (log σ)) c1) as (Hs1 & <- & Ht1); [done..|].
  destruct (live_stands σ h2 op2 g2 k t line (now (log σ)) c2) as (Hs2 & <- & Ht2); [done..|].
  destruct (decide (holder (stated c1) = holder (stated c2))) as [|Hne]; [done|].
  destruct Ho1 as (_ & _ & _ & _ & _ & _ & Hl1), Ho2 as (_ & _ & _ & _ & _ & _ & Hl2).
  destruct (stands_exclude k line c1 c2 (log σ)); [apply Hinv|done|done|congruence|done|lia..].
Qed.

(** ** The check before a write *)

Definition listing (k : GrantKind) (t : Target) (s : board) : list GrantMarker :=
  filter (λ c, kind (stated c) = k) (filter (λ c, target c = t) (comments s)).

Lemma elem_of_listing k t s c :
  c ∈ listing k t s ↔ kind (stated c) = k ∧ target c = t ∧ c ∈ comments s.
Proof. unfold listing. by rewrite !list_elem_of_filter. Qed.

Lemma earliest_least l c first :
  earliest l = Some first → c ∈ l → first ∈ l ∧ key_leb (order first) (order c) = true.
Proof.
  destruct l as [|x l]; [done|]. unfold earliest. intros E Hc. injection E as <-.
  split; [apply py_min_elem|]. by apply (py_min_least order).
Qed.

(** A marker the backend renewed in time is in force. *)
Lemma live_in_force s c clock :
  board_inv s → c ∈ comments s → (now s ≤ clock)%Z → (clock < deadline c)%Z → in_force c = true.
Proof.
  intros Hb Hc Hn. pose proof (bi_stamps _ Hb c Hc) as Hst. unfold in_force, deadline.
  destruct (since (stated c)) as [x|]; [|done]. unfold renewed_deadline.
  destruct (renews (updated_at c) x) eqn:E; [done|]. unfold renews in E. apply Z.ltb_ge in E. lia.
Qed.

Lemma created_lt_precedes s c d :
  board_inv s → c ∈ comments s → d ∈ comments s → (created_at c < created_at d)%Z → precedes c d s.
Proof.
  intros Hb [i Hi]%list_elem_of_lookup [j Hj]%list_elem_of_lookup Hlt. exists i, j.
  split; [|done]. destruct (Nat.lt_trichotomy i j) as [?|[->|Hji]]; [done| |].
  - assert (c = d) as -> by congruence. lia.
  - pose proof (bi_order _ Hb) as Ho. exfalso.
    assert (created_at d ≤ created_at c)%Z; [|lia].
    apply (StronglySorted_lookup_lt Z.le (created_at <$> comments s) j i); [done| | |lia].
    + by rewrite list_lookup_fmap, Hj.
    + by rewrite list_lookup_fmap, Hi.
Qed.

(** What a writer who passes the check is, where another's marker stands live. *)
Lemma assert_holder_stands surface h c s clock :
  board_inv s → (now s ≤ clock)%Z → stands LEASE (_surface_line surface) c s →
  target c = _surface_target surface → (clock < deadline c)%Z →
  _assert_surface_holder surface (Some h) (listing LEASE (_surface_target surface) s) clock = Ok tt →
  holder (stated c) = h.
Proof.
  intros Hb Hn Hs Ht Hlive. unfold _assert_surface_holder.
  set (live := filter _ (listing LEASE _ s)).
  assert (c ∈ live) as Hc.
  { apply list_elem_of_filter. split.
    - unfold retracted. rewrite (st_held _ _ _ _ Hs), bool_decide_false by done.
      rewrite (live_in_force s c clock) by (try apply Hs; done). split_and!; try done. apply Hs.
    - apply elem_of_listing. split_and!; [apply Hs|done|apply Hs]. }
  destruct (earliest live) as [first|] eqn:Ee; [|by rewrite decide_True by (right; done)].
  destruct (earliest_least live c first Ee Hc) as [Hfirst Hle].
  destruct (decide (state (stated first) = HELD ∧ size (tying first live) = 1)) as [[Hheld Hsize]|];
    [|by rewrite decide_True by (right; done)].
  destruct (decide (Some h = None ∨ Some (holder (stated first)) ≠ Some h)) as [|Hh]; [done|].
  intros _. assert (holder (stated first) = h) as <-.
  { destruct (decide (holder (stated first) = h)) as [|Hne]; [done|]. exfalso. apply Hh. right. congruence. }
  destruct (decide (holder (stated c) = holder (stated first))) as [|Hne]; [done|exfalso].
  pose proof Hfirst as [(_ & _ & Hfl & Hfa) (Hfk & Hft & Hfin)%elem_of_listing]%list_elem_of_filter.
  assert (created_at first ≤ created_at c)%Z as Hcr.
  { unfold order in Hle. cbn in Hle. lia. }
  destruct (decide (created_at first = created_at c)) as [Heq|Hlt].
  - assert ({[ holder (stated first); holder (stated c) ]} ⊆ tying first live) as Hsub.
    { apply union_subseteq. split; apply singleton_subseteq_l, elem_of_list_to_set,
        (list_elem_of_fmap_2 (λ m, holder (stated m))), list_elem_of_filter; done. }
    apply subseteq_size in Hsub. rewrite Hsize, size_union, !size_singleton in Hsub by set_solver. lia.
  - assert (precedes first c s) as Hp.
    { apply created_lt_precedes; [done..|apply Hs|lia]. }
    destruct (st_leads _ _ _ _ Hs first Hp) as [?|[?|[?|[?|?]]]]; [congruence|done|congruence|congruence|done|lia].
Qed.

(** C28. A write over a surface another job holds is refused. While a grant's marker over a
    surface is live, the grant made on whole listings, the check before a write
    ([_assert_surface_holder]), made on the target's whole listing at a reader's clock not
    behind the backend's, passes for no other holder. *)
Theorem foreign_write_refused σ0 σ h op g c surface h' clock :
  let s := log σ in
  initial σ0 → rtc sys_step σ0 σ → (h, op, true, g) ∈ history σ →
  covers op LEASE (_surface_target surface) (_surface_line surface) →
  live_at g (_surface_target surface) (_surface_line surface) clock s c → (now s ≤ clock)%Z →
  _assert_surface_holder surface (Some h') (listing LEASE (_surface_target surface) s) clock = Ok tt →
  h' = h.
Proof.
  intros s Hi Hs Hin Hcov Hlive Hn Hok.
  assert (sys_inv σ) as Hinv by (by eapply reachable_inv; [apply starts_inv|]).
  destruct (live_stands σ h op g LEASE _ _ clock c Hinv Hin Hcov Hlive) as (Hst & <- & Ht).
  destruct Hlive as (_ & _ & _ & _ & _ & _ & Hl).
  symmetry. by apply (assert_holder_stands surface h' c s clock); [apply Hinv|..].
Qed.

(** ** A run's lease *)

Section lease.
(** Whether the job's listings are whole. *)
Context (whole : bool).

Definition holds (self : RunSurfaceLease) (s : board) : Prop :=
  ∃ g, run_grant self = Some g
    ∧ granted_ok whole _LEASE_ADDRESSING (run_job_id self) (run_surfaces self) g s.

(** An object that says it is active was entered and its grant stands over its whole set,
    made on whole listings. *)
Definition lease_wf (self : RunSurfaceLease) (s : board) : Prop :=
  mine_inv (run_job_id self) s ∧ (active self = true → entered self = true ∧ holds self s).

(** What a method leaves: the same job and set, and no life after a loss. *)
Definition method_post (self self' : RunSurfaceLease) (s : board) : Prop :=
  lease_wf self' s ∧ run_job_id self' = run_job_id self ∧ run_surfaces self' = run_surfaces self
  ∧ (entered self = true → entered self' = true)
  ∧ (entered self = true → active self = false → active self' = false).

Definition leased (h : string) (surfaces : gset WritableSurface) (r : option Granted) (s : board) : Prop :=
  mine_inv h s ∧ ∀ g, r = Some g → granted_ok whole _LEASE_ADDRESSING h surfaces g s.

Lemma leased_rely h surfaces r s s' : rely h s s' → leased h surfaces r s → leased h surfaces r s'.
Proof.
  intros Hr [Hm Hg]. split; [by eapply mine_inv_rely|]. intros g Hgr.
  apply granted_ok_rely with s; [apply Hm|done|by apply Hg].
Qed.

(** An owned operation ends before its caller's cancellation is raised. *)
Lemma wp_settled {A} h (op : prog A) s (grant : A → option Granted) surfaces :
  wp whole h op s (λ r s', leased h surfaces (match r with Ok x => grant x | Err _ => None end) s') →
  wp whole h (attempt (settle op)) s (λ r s', ∃ x, r = Ok x
    ∧ leased h surfaces (match x with Ok x => grant x | Err _ => None end) s').
Proof.
  intros Hwp. apply wp_attempt. unfold settle. apply wp_bind, wp_attempt.
  eapply wp_mono; [exact Hwp|]. intros r s1 Hq. apply wp_bind, wp_read; [done|].
  intros s2 s3 c Hr Hb Hn Hu _.
  assert (rely h s1 s3) as Hr3 by (eapply rely_trans; [done|by apply tick_rely]).
  apply (leased_rely _ _ _ _ _ Hr3) in Hq.
  assert (∀ e : exn, ∃ x : result exn A, Ok (Err e) = Ok (E := exn) x
    ∧ leased h surfaces (match x with Ok x => grant x | Err _ => None end) s3) as Herr.
  { intros e. exists (Err e). split; [done|]. split; [apply Hq|done]. }
  destruct c as [[]|e]; [apply Herr| |apply Herr].
  destruct r as [x|e]; [|apply Herr]. exists (Ok x). by split.
Qed.

Lemma wp_acquire_surfaces h surfaces ls s :
  mine_inv h s →
  wp whole h (acquire_surfaces surfaces h ls) s (λ r s', leased h surfaces
    (match r with Ok l => Some (lease_granted l) | Err _ => None end) s').
Proof.
  intros Hm. unfold acquire_surfaces. apply wp_bind. eapply wp_mono; [by apply wp_grant|].
  intros [[g|rf]|e] s' [Hm' Hg]; [|done..]. unfold make_surface_lease.
  destruct (str_blank h); [done|]. destruct (decide (surfaces = ∅)); [done|].
  split; [done|]. intros g' [= <-]. by apply Hg.
Qed.

Lemma wp_renew_surfaces h surfaces ls s :
  mine_inv h s →
  wp whole h (renew_surfaces surfaces h ls) s (λ r s', leased h surfaces
    (match r with Ok (Some l) => Some (lease_granted l) | _ => None end) s').
Proof.
  intros Hm. unfold renew_surfaces. apply wp_bind. eapply wp_mono; [by apply wp_extend|].
  intros [[g|]|e] s' [Hm' Hg]; [|done..]. apply wp_bind. unfold make_surface_lease.
  destruct (str_blank h); [done|]. destruct (decide (surfaces = ∅)); [done|].
  split; [done|]. intros g' [= <-]. by apply Hg.
Qed.

Lemma wp_release self s :
  mine_inv (run_job_id self) s →
  wp whole (run_job_id self) (_release self) s (λ r s', mine_inv (run_job_id self) s'
    ∧ ∃ out, r = Ok (set_active self (entered self) false None, out)).
Proof.
  intros Hm. unfold _release. apply wp_bind.
  eapply wp_mono; [apply (wp_settled _ _ _ (λ _, None) (run_surfaces self))|].
  - eapply wp_mono; [by apply wp_withdraw|]. intros r s' Hm'. split; [done|]. by destruct r.
  - intros r s' (out & -> & [Hm' _]). split; [done|]. by exists out.
Qed.

Definition left_by (self : RunSurfaceLease) (r : result exn method_result) (s : board) : Prop :=
  ∃ self' out, r = Ok (self', out) ∧ method_post self self' s.

Lemma inactive_post self e g s :
  mine_inv (run_job_id self) s → (entered self = true → e = true) →
  method_post self (set_active self e false g) s.
Proof. intros Hm He. split_and!; try done. Qed.

Lemma active_post self g s :
  active self = true ∨ entered self = false →
  leased (run_job_id self) (run_surfaces self) (Some g) s →
  method_post self (set_active self true true (Some g)) s.
Proof.
  intros Hor [Hm Hg]. split_and!; try done.
  - split; [done|]. intros _. split; [done|]. exists g. split; [done|]. by apply Hg.
  - cbn. intros He Ha. destruct Hor; congruence.
Qed.

Lemma wp_enter self s :
  lease_wf self s → wp whole (run_job_id self) (__aenter__ self) s (left_by self).
Proof.
  intros [Hm Ha]. unfold __aenter__. destruct (entered self) eqn:Ee.
  { eexists _, _. split; [done|]. split_and!; try done. split; [done|]. by rewrite Ee. }
  apply wp_bind. eapply wp_mono.
  { apply (wp_settled _ _ _ (λ l, Some (lease_granted l)) (run_surfaces self)).
    eapply wp_mono; [by apply wp_acquire_surfaces|]. by intros [l|e] s'. }
  assert (active self = false) as Hna.
  { destruct (active self); [|done]. destruct (Ha eq_refl). congruence. }
  intros r s1 (x & -> & Hl). cbv zeta. rewrite Hna. destruct x as [lease|e].
  { eexists _, _. split; [done|]. by apply (active_post self (lease_granted lease)); [right|]. }
  assert (∀ e', left_by self (Ok (set_active self true false (run_grant self), Err e')) s1) as Hkeep.
  { intros e'. eexists _, _. split; [done|]. apply inactive_post; [apply Hl|done]. }
  assert (∀ e' : exn, wp whole (run_job_id self) (released ← _release (set_active self true false (run_grant self));
    mret (released.1, match released.2 with Ok _ => Err e' | Err e'' => Err e'' end)) s1
    (left_by self)) as Hrel.
  { intros e'. apply wp_bind. eapply wp_mono; [apply (wp_release (set_active self true false (run_grant self))), Hl|].
    intros r s2 [Hm2 [out ->]]. eexists _, _. split; [done|]. by apply (inactive_post self true None). }
  destruct e; first [apply Hrel|apply Hkeep].
Qed.

Lemma wp_renew self s :
  lease_wf self s → wp whole (run_job_id self) (renew self) s (left_by self).
Proof.
  intros [Hm Ha]. unfold renew. destruct (active self) eqn:Ea; cbn [negb].
  2:{ eexists _, _. split; [done|]. split_and!; try done. split; [done|]. congruence. }
  destruct (Ha eq_refl) as [He _]. apply wp_bind. eapply wp_mono.
  { apply (wp_settled _ _ _ (λ l, lease_granted <$> l) (run_surfaces self)).
    eapply wp_mono; [by apply wp_renew_surfaces|]. by intros [[l|]|e] s'. }
  intros r s1 (x & -> & Hl). rewrite He. destruct x as [[lease|]|e]; eexists _, _; (split; [done|]).
  - by apply (active_post self (lease_granted lease)); [left|].
  - apply (inactive_post self true None); [apply Hl|done].
  - apply (inactive_post self true None); [apply Hl|done].
Qed.

Lemma wp_method m self s :
  lease_wf self s → wp whole (run_job_id self) (call_method m self) s (left_by self).
Proof.
  intros Hw. destruct m; [by apply wp_enter|by apply wp_renew|].
  cbn [call_method]. unfold __aexit__. eapply wp_mono; [apply wp_release, Hw|].
  intros r s' [Hm' [out ->]]. eexists _, _. split; [done|].
  by apply (inactive_post self (entered self) None).
Qed.

(** C29. A run's lease tells the truth. Whatever methods a job calls on its lease object in
    whatever order, among any other holders' programs, cancelled or failing anywhere: an
    object that says it is active was entered and holds a grant over its whole set, which
    stands for the job when its listings are whole; once entered and not active it is never
    active again, so that a lost lease is never reacquired; and the object always answers,
    whatever its listings leave out. *)
Theorem run_lease_spec self ms s :
  lease_wf self s →
  wp whole (run_job_id self) (use_lease self ms) s (λ r s',
    ∃ self' outs, r = Ok (self', outs) ∧ length outs = length ms ∧ method_post self self' s').
Proof.
  revert self s. induction ms as [|m ms IH]; intros self s Hw; cbn [use_lease].
  { exists self, []. split; [done|]. split; [done|]. by split_and!. }
  apply wp_bind. eapply wp_mono; [by apply wp_method|].
  intros r s1 (self1 & out & -> & (Hw1 & Hj & Hs & He & Ha)). cbn [fst snd].
  apply wp_bind. rewrite <-Hj. eapply wp_mono; [by apply IH|].
  intros r s2 (self2 & outs & -> & Hlen & (Hw2 & Hj2 & Hs2 & He2 & Ha2)).
  exists self2, (out :: outs). split; [done|]. split; [cbn; congruence|].
  split_and!; [done|congruence..|by auto|]. intros Hent Hact. apply Ha2; by auto.
Qed.
End lease.

(** ** A backend that answers, for concrete runs *)

(** The first comment under a key, with what surrounds it. *)
Fixpoint split_at_key (key : string) (l : list GrantMarker) :
    option (list GrantMarker * GrantMarker * list GrantMarker) :=
  match l with
  | [] => None
  | c :: l =>
      if decide (comment_key c = key) then Some ([], c, l)
      else '(l1, d, l2) ← split_at_key key l; Some (c :: l1, d, l2)
  end.

Lemma split_at_key_Some key l l1 c l2 :
  split_at_key key l = Some (l1, c, l2) → l = l1 ++ c :: l2 ∧ comment_key c = key.
Proof.
  revert l1. induction l as [|d l IH]; intros l1; [done|]. cbn [split_at_key].
  destruct (decide (comment_key d = key)); [by intros [= <- <- <-]|].
  destruct (split_at_key key l) as [[[l1' c'] l2']|]; [|done]. cbn. intros [= <- <- <-].
  destruct (IH l1' eq_refl) as [-> <-]. done.
Qed.

Definition tick (s : board) (l : list GrantMarker) (i : gset string) : board := {|
  now := now s + 1; comments := l; issued := i |}.

(** One call, each a tick later than the last; a name already given out fails the call, and
    the markers of [veiled] are left out of the listings. *)
Definition serve (veiled : option string) {X} (q : request X) (s : board) : board * result exn X :=
  let fail := (tick s (comments s) (issued s), Err TrackerUnavailableError) in
  match q in request X return board * result exn X → board * result exn X with
  | SaveNew t b => λ fail,
      let key := "c" +:+ pretty (N.of_nat (size (issued s))) in
      if decide (key ∈ issued s) then fail
      else (tick s (comments s ++ [{| target := t; comment_key := key; created_at := now s + 1;
                                      updated_at := now s + 1; stated := b |}])
              ({[ key ]} ∪ issued s), Ok key)
  | SaveOver key b => λ fail,
      match split_at_key key (comments s) with
      | None => fail
      | Some (l1, c, l2) => (tick s (l1 ++ save_over c (now s + 1) b :: l2) (issued s), Ok tt)
      end
  | DeleteComment key => λ fail,
      match split_at_key key (comments s) with
      | None => fail
      | Some (l1, _, l2) => (tick s (l1 ++ l2) (issued s), Ok tt)
      end
  | ListComments t => λ _,
      (tick s (comments s) (issued s),
       Ok (filter (λ c, Some (holder (stated c)) ≠ veiled) (filter (λ c, target c = t) (comments s))))
  | ReadClock => λ _, (tick s (comments s) (issued s), Ok (now s))
  | Uuid4 => λ fail,
      let n := "n" +:+ pretty (Z.to_N (now s)) in
      if decide (Exists (λ c, nonce (stated c) = n) (comments s)) then fail
      else (tick s (comments s) (issued s), Ok n)
  | Interrupted => λ _, (tick s (comments s) (issued s), Ok false)
  end fail.

Lemma serve_exec veiled w {X} (q : request X) s :
  (w = true → veiled = None) → exec w q s (serve veiled q s).1 (serve veiled q s).2.
Proof.
  intros Hw. assert (∀ X (q : request X),
    exec w q s (tick s (comments s) (issued s)) (Err TrackerUnavailableError)) as Hfail.
  { intros Y q'. split; [cbn; lia|]. left. split; [by eexists|done]. }
  destruct q as [t b|key b|key|t| | |]; cbn -[decide split_at_key].
  - destruct (decide _) as [|Hk]; [apply Hfail|]. split; [cbn; lia|]. right. eexists.
    split; [|by left]. done.
  - destruct (split_at_key key (comments s)) as [[[l1 c] l2]|] eqn:E; [|apply Hfail].
    apply split_at_key_Some in E as [E Hk]. split; [cbn; lia|]. right. exists tt.
    split; [|by left]. by exists l1, c, l2.
  - destruct (split_at_key key (comments s)) as [[[l1 c] l2]|] eqn:E; [|apply Hfail].
    apply split_at_key_Some in E as [E Hk]. split; [cbn; lia|]. right. exists tt.
    split; [|by left]. by exists l1, c, l2.
  - split; [cbn; lia|]. right. eexists. split; [|by left]. split; [done|].
    split; [apply sublist_filter|]. intros ->%Hw.
    induction (filter _ (comments s)) as [|c l IH]; [done|]. by rewrite filter_cons_True, IH.
  - split; [cbn; lia|]. right. eexists. split; [|by left]. done.
  - destruct (decide _) as [|Hk]; [apply Hfail|]. split; [cbn; lia|]. right. eexists.
    split; [|by left]. split; [done|]. intros c Hc Hn. apply Hk, Exists_exists. by exists c.
  - split; [cbn; lia|]. right. eexists. split; [|by left]. done.
Qed.

(** A program alone on the board. *)
Fixpoint solo {R} (veiled : option string) (p : prog R) (s : board) : board * result exn R :=
  match p with
  | Return r => (s, Ok r)
  | Raise e => (s, Err e)
  | Call q k => solo veiled (k (serve veiled q s).2) (serve veiled q s).1
  end.

(** A holder's whole operation, alone, from start to return; with one holder's markers left
    out of its listings, or with none. *)
Definition solo_operation (veiled : option string) (σ : system) (h : string) (op : operation) : system :=
  let out := solo veiled (run_operation h op) (log σ) in
  {| log := out.1; running := delete h (running σ);
     history := match out.2 with Ok (Some g) => (h, op, bool_decide (veiled = None), g) :: history σ | _ => history σ end |}.

Lemma solo_steps veiled h op p σ σ' :
  running σ' = <[h := (op, bool_decide (veiled = None), p)]> (running σ) → history σ' = history σ → running σ !! h = None →
  rtc sys_step σ' {| log := (solo veiled p (log σ')).1; running := delete h (running σ);
    history := match (solo veiled p (log σ')).2 with Ok (Some g) => (h, op, bool_decide (veiled = None), g) :: history σ | _ => history σ end |}.
Proof.
  revert σ'. induction p as [g|e|X q k IH]; intros σ' Hr Hh Hno.
  - assert (running σ' !! h = Some (op, bool_decide (veiled = None), Return g)) as Hl by (by rewrite Hr, lookup_insert_eq).
    apply rtc_once. pose proof (sys_return σ' h op _ g Hl) as Hs.
    rewrite Hr, Hh, delete_insert_eq in Hs. cbn. by destruct g.
  - assert (running σ' !! h = Some (op, bool_decide (veiled = None), Raise e)) as Hl by (by rewrite Hr, lookup_insert_eq).
    apply rtc_once. pose proof (sys_raise σ' h op _ e Hl) as Hs.
    by rewrite Hr, Hh, delete_insert_eq in Hs.
  - assert (running σ' !! h = Some (op, bool_decide (veiled = None), Call q k)) as Hl by (by rewrite Hr, lookup_insert_eq).
    eapply rtc_l; [apply (sys_call σ' h op _ X q k (serve veiled q (log σ')).2 (serve veiled q (log σ')).1 Hl), serve_exec; by intros ?%bool_decide_eq_true|].
    eapply (IH (serve veiled q (log σ')).2 {| log := (serve veiled q (log σ')).1;
      running := <[h := (op, bool_decide (veiled = None), k (serve veiled q (log σ')).2)]> (running σ'); history := history σ' |});
      [|done..]. cbn. by rewrite Hr, insert_insert_eq.
Qed.

Lemma solo_operation_steps veiled σ h op :
  running σ !! h = None → rtc sys_step σ (solo_operation veiled σ h op).
Proof.
  intros Hno. eapply rtc_l; [by apply (sys_start σ h op (bool_decide (veiled = None)))|].
  by apply (solo_steps veiled h op (run_operation h op) σ {| log := log σ;
    running := <[h := (op, bool_decide (veiled = None), run_operation h op)]> (running σ); history := history σ |}).
Qed.

(** An empty board: one job acquires two surfaces, another is refused until the first
    withdraws, then acquires. *)
Definition empty_system : system :=
  {| log := {| now := 0; comments := []; issued := ∅ |}; running := ∅; history := [] |}.

Lemma empty_initial : initial empty_system.
Proof.
  split; [|split; [|done]].
  - constructor; cbn; [constructor|intros c ?%not_elem_of_nil; done..|constructor].
  - intros h c d [?%not_elem_of_nil _]%elem_of_own. done.
Qed.

Definition two_surfaces : gset WritableSurface :=
  {[ issue_surface ISSUE_DESCRIPTION "A"; issue_surface ISSUE_GRAPH "B" ]}.
Definition after_one : system :=
  solo_operation None empty_system "job-1" (Acquire _LEASE_ADDRESSING two_surfaces 100).
Definition after_two : system :=
  solo_operation None after_one "job-2"
    (Acquire _LEASE_ADDRESSING {[ issue_surface ISSUE_GRAPH "B" ]} 100).

Example one_granted : (λ e, e.1.1.1) <$> history after_one = ["job-1"].
Proof. vm_compute. reflexivity. Qed.
Example two_refused : (λ e, e.1.1.1) <$> history after_two = ["job-1"].
Proof. vm_compute. reflexivity. Qed.

Definition after_withdrawal : system :=
  solo_operation None after_two "job-1" (Withdraw _LEASE_ADDRESSING two_surfaces).
Definition after_three : system :=
  solo_operation None after_withdrawal "job-2"
    (Acquire _LEASE_ADDRESSING {[ issue_surface ISSUE_GRAPH "B" ]} 100).
Example freed_granted : (λ e, e.1.1.1) <$> history after_three = ["job-2"; "job-1"].
Proof. vm_compute. reflexivity. Qed.

Lemma after_one_reachable : rtc sys_step empty_system after_one.
Proof. by apply solo_operation_steps. Qed.

Definition op_one : operation := Acquire _LEASE_ADDRESSING two_surfaces 100.
Definition granted_first : Granted :=
  match (solo None (run_operation "job-1" op_one) (log empty_system)).2 with
  | Ok (Some g) => g
  | _ => {| granted_expires_at := 0; granted_on := [] |}
  end.
Definition marker_of (t : Target) : GrantMarker :=
  match dict_get (granted_on granted_first) t with
  | Some c => c
  | None => {| target := t; comment_key := ""; created_at := 0; updated_at := 0;
      stated := _grant_body _LEASE_ADDRESSING "" "" BID 0 0 None [] |}
  end.
Definition graph_b : WritableSurface := issue_surface ISSUE_GRAPH "B".

Lemma one_history : ("job-1", op_one, true, granted_first) ∈ history after_one.
Proof.
  assert ((solo None (run_operation "job-1" op_one) (log empty_system)).2 = Ok (Some granted_first)) as E
    by (vm_compute; reflexivity).
  unfold after_one, solo_operation. fold op_one. cbv zeta. cbn [history]. rewrite E. by left.
Qed.
Lemma one_covers : covers op_one LEASE (_surface_target graph_b) (_surface_line graph_b).
Proof. split; [done|]. exists graph_b. split; [|done]. unfold two_surfaces, graph_b. set_solver. Qed.
Lemma one_live clock :
  (clock < 100)%Z →
  live_at granted_first (_surface_target graph_b) (_surface_line graph_b) clock (log after_one)
    (marker_of (_surface_target graph_b)).
Proof.
  intros Hc. exists (marker_of (_surface_target graph_b)).
  split; [by vm_compute|]. split.
  { apply list_elem_of_lookup_2 with 1. by vm_compute. }
  split; [done|]. split; [by vm_compute|]. split.
  { apply list_elem_of_lookup_2 with 1. by vm_compute. }
  assert (deadline (marker_of (_surface_target graph_b)) = 104)%Z as -> by (by vm_compute). lia.
Qed.

Lemma grants_exclusive_witness :
  owns granted_first (_surface_target graph_b) (_surface_line graph_b) (log after_one)
  ∧ "job-1" = "job-1".
Proof.
  assert (owns granted_first (_surface_target graph_b) (_surface_line graph_b) (log after_one)) as Ho.
  { eexists. apply one_live. by vm_compute. }
  split; [exact Ho|].
  by apply (grants_exclusive empty_system after_one "job-1" "job-1" op_one op_one granted_first
    granted_first LEASE (_surface_target graph_b) (_surface_line graph_b) empty_initial
    after_one_reachable one_history one_history one_covers one_covers).
Defined.

Lemma foreign_write_refused_witness :
  _assert_surface_holder graph_b (Some "job-1")
    (listing LEASE (_surface_target graph_b) (log after_one)) 50 = Ok tt ∧ "job-1" = "job-1".
Proof.
  assert (_assert_surface_holder graph_b (Some "job-1")
    (listing LEASE (_surface_target graph_b) (log after_one)) 50 = Ok tt) as Hok by (by vm_compute).
  split; [exact Hok|].
  apply (foreign_write_refused empty_system after_one "job-1" op_one granted_first
    (marker_of (_surface_target graph_b)) graph_b "job-1" 50 empty_initial after_one_reachable
    one_history one_covers); [by apply one_live|by vm_compute|exact Hok].
Defined.

Definition fresh_lease : RunSurfaceLease := {|
  run_job_id := "job-1"; run_surfaces := two_surfaces; run_lease_seconds := 100;
  entered := false; active := false; run_grant := None |}.

Example fresh_lease_made : make_run_lease "job-1" two_surfaces 100 = Ok fresh_lease.
Proof.
  assert (str_blank "job-1" || bool_decide (two_surfaces = ∅) = false) as E by (vm_compute; reflexivity).
  unfold make_run_lease. by rewrite E.
Qed.

Lemma run_lease_spec_witness :
  lease_wf true fresh_lease (log empty_system)
  ∧ wp true "job-1" (use_lease fresh_lease [Enter; Renew; Exit; Renew]) (log empty_system) (λ r s',
    ∃ self' outs, r = Ok (self', outs) ∧ length outs = 4 ∧ method_post true fresh_lease self' s').
Proof.
  assert (lease_wf true fresh_lease (log empty_system)) as Hw.
  { destruct empty_initial as (Hb & Hu & _). split; [|done]. constructor; [exact Hb|apply Hu]. }
  split; [exact Hw|]. apply (run_lease_spec true fresh_lease [Enter; Renew; Exit; Renew] _ Hw).
Defined.

(** The object's own run on an empty board. *)
Example lease_used :
  match (solo None (use_lease fresh_lease [Enter; Renew; Exit; Renew]) (log empty_system)).2 with
  | Ok out => Some (entered out.1, active out.1, is_ok <$> out.2)
  | Err _ => None
  end = Some (true, false, [true; true; true; false]).
Proof. vm_compute. reflexivity. Qed.

(** ** Where a listing leaves a rival out

    The veil of tests/tracker/test_ownership_arbitration.py ([_UnseenRace]): the second
    job's listings leave the first one's marker out, and both own the surface. On whole
    listings the later one finds itself outranked when it renews, and gives way. *)

Definition one_surface : gset WritableSurface := {[ graph_b ]}.
Definition veiled_first : system :=
  solo_operation None empty_system "job-1" (Acquire _LEASE_ADDRESSING one_surface 100).
Definition veiled_second : system :=
  solo_operation (Some "job-1") veiled_first "job-2" (Acquire _LEASE_ADDRESSING one_surface 100).
Definition veil_lifted : system :=
  solo_operation None
    (solo_operation None veiled_second "job-1" (Extend _LEASE_ADDRESSING one_surface 100))
    "job-2" (Extend _LEASE_ADDRESSING one_surface 100).

Definition standing_holders (σ : system) : list (string * GrantState) :=
  (λ c, (holder (stated c), state (stated c))) <$> comments (log σ).

Example veiled_grants :
  standing_holders veiled_second = [("job-1", HELD); ("job-2", HELD)]
  ∧ (λ e, (e.1.1.1, e.1.2)) <$> history veiled_second = [("job-2", false); ("job-1", true)]
  ∧ Forall (λ c, now (log veiled_second) < deadline c)%Z (comments (log veiled_second)).
Proof. split; [by vm_compute|]. split; [by vm_compute|]. apply (bool_decide_unpack _). by vm_compute. Qed.

Example veil_lifted_gives_way :
  standing_holders veil_lifted = [("job-1", HELD)]
  ∧ (λ e, e.1.1.1) <$> history veil_lifted = ["job-1"; "job-2"; "job-1"].
Proof. by vm_compute. Qed.

Lemma veiled_reachable : rtc sys_step empty_system veil_lifted.
Proof.
  unfold veil_lifted, veiled_second, veiled_first.
  repeat (etransitivity; [|by apply solo_operation_steps]). apply rtc_refl.
Qed.
