(* ===== verification/CommentMarkers.v ===== *)
(** * Comment identities and tracker writes (domain/comment_markers.py,
    domain/tracker_writes.py, domain/criterion_amendment.py).

    A comment the program owns carries a marker as its first line: an operation's prefix
    for the purpose, the lane and, for a recurring purpose, an occurrence. The
    development of the writers rests on these identities never being taken for one
    another, and on writes that assert what they replace. *)

From Stdlib Require Import Ascii.
From S2P Require Import Prelude PyStr PyLines Tracker Errors Surface.

(** ** The operation's prefixes (types/domain/operation.py) *)

(** Whether a white-space character starts at a text. *)
Definition space_at (s : string) : bool :=
  match s with
  | EmptyString => false
  | String a s1 =>
      ws1 a || match s1 with
               | EmptyString => false
               | String b s2 =>
                   ws2 a b || match s2 with
                              | EmptyString => false
                              | String c _ => ws3 a b c
                              end
               end
  end.
Fixpoint has_space (s : string) : bool :=
  match s with EmptyString => false | String _ r => space_at s || has_space r end.

(** The characters that delimit a marker: angle and square brackets, the colon and
    the double quote. *)
Definition marker_delimiter (a : ascii) : bool :=
  bool_decide (byte a ∈ [60; 62; 91; 93; 58; 34]%Z).

Definition marker_token (prefix : string) : bool :=
  negb (bool_decide (prefix = "")) && negb (has_space prefix)
  && str_all (λ a, negb (marker_delimiter a)) prefix.

Definition marker_prefixes_valid (prefixes : pydict string string) : bool :=
  forallb (λ pp, negb (bool_decide (pp.1 = "")) && marker_token pp.2) prefixes
  && bool_decide (NoDup prefixes.*2).

(** ** Markers (domain/comment_markers.py) *)

Definition configured_marker_prefix (prefixes : pydict string string) (purpose : string) :
    result exn string :=
  match dict_get prefixes purpose with
  | Some prefix => Ok prefix
  | None => Err (OperationMemberAbsentError purpose)
  end.

Definition colon : ascii := ":".
Definition compose_comment_marker (prefixes : pydict string string) (purpose lane : string)
    (occurrence_key : option string) : result exn string :=
  prefix ← configured_marker_prefix prefixes purpose;
  raise_if (bool_decide (lane = "" ∨ occurrence_key = Some ""))
    (ValueError "marker identity components must be nonempty")
    (Ok ("[" +:+ join ":" (prefix :: quote lane :: (quote <$> option_list occurrence_key)) +:+ "]")).

(** ** Reads and writes under a marker (domain/tracker_writes.py) *)

Definition marked_comment_body (marker body : string) : result exn string :=
  raise_if (negb (bool_decide (splitlines marker = [marker])))
    (ValueError "a comment marker must be one nonempty line")
    (Ok (marker +:+ nl +:+ body)).

(** [body.splitlines()[:1] == [marker]] *)
Definition carries (marker body : string) : bool :=
  bool_decide (head (splitlines body) = Some marker).

Definition comment_under_marker (target marker : string) (comments : list TrackerComment)
    (prefix : bool) : result exn (option TrackerComment) :=
  let matches := filter (λ c,
    (if prefix then startswith (first_line (comment_body c)) marker
     else carries marker (comment_body c)) = true) comments in
  match matches with
  | [] => Ok None
  | [c] => Ok (Some c)
  | _ => Err (DuplicateCommentMarkerError target marker (comment_key <$> matches))
  end.

Definition description_replacement (target body expected replacement : string) :
    result exn (option string) :=
  if decide (expected = replacement ∨ body = replacement) then Ok None
  else if decide (body = expected) then Ok (Some replacement)
  else Err (StaleWriteError target (ExpectedText expected)).

(** A comment with its body left out of the comparison. *)
Definition without_body (c : TrackerComment) : TrackerComment := {|
  comment_key := comment_key c; comment_issue_key := comment_issue_key c;
  author_key := author_key c; comment_body := "";
  comment_created_at := comment_created_at c; reply_to := reply_to c |}.

Definition require_expected_comment (target marker : string) (expected : TrackerComment)
    (current : option TrackerComment) (replacement : string) : result exn unit :=
  let stale reason := Err (StaleCommentWriteError target (comment_key expected) reason) in
  if decide (comment_issue_key expected ≠ target ∨ reply_to expected ≠ None
             ∨ carries marker (comment_body expected) = false)
  then stale "the expected record does not address this root marker"
  else match current with
       | None => stale "the expected native comment is absent"
       | Some c =>
           if decide (without_body c ≠ without_body expected)
           then stale "the expected native identity or provenance changed"
           else if decide (comment_body c ≠ comment_body expected ∧ comment_body c ≠ replacement)
                then stale "the expected comment body changed"
                else Ok tt
       end.

(** [classification_surface] *)
Definition classification_surface (issue : TrackerIssue) : WritableSurface :=
  issue_surface (if has_label "criterion" issue then CRITERION_SUB_ISSUE else ISSUE_LABEL_SET)
    (issue_key issue).

(** [require_criterion_source] (domain/criterion_amendment.py): the facts of a criterion
    compared with the ignored ones blanked. *)
Definition source_facts (pending : bool) (i : TrackerIssue) : TrackerIssue := {|
  issue_key := issue_key i; title := title i; body := body i; priority := priority i;
  state_name := if pending then "" else state_name i;
  state_kind := if pending then UNSTARTED else state_kind i;
  queue_states := queue_states i; issue_labels := issue_labels i; team_key := team_key i;
  project := project i; project_id := project_id i; milestone_key := milestone_key i;
  relations := relations i; parent_key := parent_key i; assignee_key := assignee_key i;
  created_at := created_at i; updated_at := 0; url := url i |}.

Definition require_criterion_source (expected current : TrackerIssue) (pending_replay : bool) :
    result exn unit :=
  let pending := pending_replay && bool_decide (state_kind current = UNSTARTED) in
  raise_if (negb (has_label "criterion" current) || bool_decide (parent_key current = None))
    (CriterionReadError (issue_key expected)
      "the native criterion lost its classification or parent")
  (raise_if (negb (bool_decide (source_facts pending expected = source_facts pending current)))
    (CriterionReadError (issue_key expected)
      "native criterion facts changed before amendment")
    (Ok tt)).

(** * Lemmas *)

Lemma space_at_boundary s : space_at s = false → line_boundary s = 0%nat.
Proof.
  destruct s as [|a [|b [|c s]]]; [done|..]; unfold space_at, line_boundary, boundary_length, ws1, ws2, ws3;
    cbn [byte_at]; intros H; repeat case_bool_decide; try done; exfalso; revert H;
    repeat match goal with
      | H : _ ∈ _ |- _ => repeat (apply elem_of_cons in H as [H|H]); [..|by apply elem_of_nil in H]
      | H : _ ∧ _ |- _ => destruct H
      | H : _ ∨ _ |- _ => destruct H
      end;
    repeat match goal with H : byte _ = _ |- _ => rewrite H; clear H end; cbn;
    rewrite ?orb_true_r; done.
Qed.

Lemma no_space_unbroken s : has_space s = false → unbroken s = true.
Proof.
  induction s as [|a s IH]; [done|]. cbn [has_space unbroken]. intros [H1 H2]%orb_false_iff.
  rewrite andb_true_iff, bool_decide_eq_true. split; [by apply space_at_boundary|auto].
Qed.

(** What [quote] writes. *)
Definition quoted_char (a : ascii) : bool := unreserved a || bool_decide (byte a = 37%Z).

Lemma quote_all s : str_all quoted_char (quote s) = true.
Proof.
  induction s as [|a s IH]; [done|]. unfold quote in *. cbn [str_map_chars].
  rewrite str_all_app, IH, andb_true_r. destruct a as [[] [] [] [] [] [] [] []]; reflexivity.
Qed.

Lemma str_all_impl (p q : ascii → bool) s :
  (∀ a, p a = true → q a = true) → str_all p s = true → str_all q s = true.
Proof.
  intros Hpq. induction s as [|a s IH]; [done|]. cbn. rewrite !andb_true_iff. naive_solver.
Qed.

Lemma quote_no_colon s : str_all (λ a, negb (bool_decide (a = colon))) (quote s) = true.
Proof.
  eapply str_all_impl; [|apply quote_all]. intros a. destruct a as [[] [] [] [] [] [] [] []]; intros Ha; first [reflexivity|discriminate Ha].
Qed.

Lemma prefix_no_colon p :
  marker_token p = true → str_all (λ a, negb (bool_decide (a = colon))) p = true.
Proof.
  unfold marker_token. intros [_ H]%andb_true_iff. eapply str_all_impl; [|exact H].
  intros a. destruct a as [[] [] [] [] [] [] [] []]; intros Ha; first [reflexivity|discriminate Ha].
Qed.

(** A text of such characters and of a marker's own holds no line boundary, and
    completes none begun before it. *)
Definition marker_char (a : ascii) : bool :=
  quoted_char a || bool_decide (a = colon) || bool_decide (byte a = 93%Z).

Lemma marker_chars_unbroken s :
  str_all marker_char s = true → unbroken s = true ∧ joins s = true.
Proof.
  intros H. split; [|by destruct s as [|[[] [] [] [] [] [] [] []] ?]].
  induction s as [|a s IH]; [done|]. cbn [str_all unbroken] in *. apply andb_true_iff in H as [Ha Ht].
  rewrite andb_true_iff, bool_decide_eq_true. split; [|auto]. apply space_at_boundary.
  clear -Ha. destruct s as [|b [|c s]]; destruct a as [[] [] [] [] [] [] [] []]; first [done|reflexivity].
Qed.

Lemma quote_marker_chars s : str_all marker_char (quote s) = true.
Proof. eapply str_all_impl; [|apply quote_all]. intros a Ha. unfold marker_char. by rewrite Ha. Qed.

(** The components of a marker are read back from it. *)
Lemma join_colon_inj l l' :
  l ≠ [] → l' ≠ [] →
  Forall (λ s, str_all (λ a, negb (bool_decide (a = colon))) s = true) l →
  Forall (λ s, str_all (λ a, negb (bool_decide (a = colon))) s = true) l' →
  join ":" l = join ":" l' → l = l'.
Proof.
  assert (∀ s t, str_all (λ a, negb (bool_decide (a = colon))) (s +:+ String colon t) = false) as Hno.
  { intros s t. rewrite str_all_app. cbn. by rewrite andb_false_r. }
  revert l'. induction l as [|x [|y l] IH]; intros [|x' [|y' l']] Hn Hn' Hl Hl' E; try done.
  - cbn in E. by subst.
  - cbn [join] in E. apply Forall_cons in Hl as [Hx _]. subst x.
    change (":" +:+ ?s) with (String colon s) in Hx. by rewrite Hno in Hx.
  - cbn [join] in E. apply Forall_cons in Hl' as [Hx _]. subst x'.
    change (":" +:+ ?s) with (String colon s) in Hx. by rewrite Hno in Hx.
  - apply Forall_cons in Hl as [Hx Hl], Hl' as [Hx' Hl'].
    change (x +:+ String colon (join ":" (y :: l)) = x' +:+ String colon (join ":" (y' :: l'))) in E.
    apply str_split_unique in E as [-> E]; [|done..]. f_equal. by apply IH.
Qed.

Lemma bracket_no_boundary s : line_boundary (String "[" s) = 0%nat.
Proof. apply space_at_boundary. by destruct s as [|b [|c s]]. Qed.

Section identities.
Context (prefixes : pydict string string) (Hvalid : marker_prefixes_valid prefixes = true).

Lemma configured_prefix_ok purpose prefix :
  configured_marker_prefix prefixes purpose = Ok prefix →
  (purpose, prefix) ∈ prefixes ∧ marker_token prefix = true.
Proof.
  unfold configured_marker_prefix. destruct (dict_get prefixes purpose) as [p|] eqn:E; [|done].
  intros [= ->]. apply dict_get_elem in E. split; [done|].
  unfold marker_prefixes_valid in Hvalid. apply andb_true_iff in Hvalid as [Hall _].
  rewrite forallb_forall in Hall. apply list_elem_of_In in E.
  apply Hall in E. by apply andb_true_iff in E as [_ E].
Qed.

Lemma prefix_purpose purpose purpose' prefix :
  (purpose, prefix) ∈ prefixes → (purpose', prefix) ∈ prefixes → purpose = purpose'.
Proof.
  intros H H'. unfold marker_prefixes_valid in Hvalid.
  apply andb_true_iff in Hvalid as [_ Hnd%bool_decide_eq_true].
  by injection (NoDup_fmap_elem snd prefixes _ _ Hnd H H' eq_refl).
Qed.

(** A composed marker, taken apart. *)
Lemma compose_ok purpose lane occ marker :
  compose_comment_marker prefixes purpose lane occ = Ok marker →
  ∃ prefix, (purpose, prefix) ∈ prefixes ∧ marker_token prefix = true
    ∧ lane ≠ "" ∧ occ ≠ Some ""
    ∧ marker = "[" +:+ join ":" (prefix :: quote lane :: (quote <$> option_list occ)) +:+ "]".
Proof.
  unfold compose_comment_marker. intros (p & [Hin Ht]%configured_prefix_ok & H)%bind_ok.
  apply raise_if_ok in H as [Hne%bool_decide_eq_false [= <-]]. exists p.
  repeat split; try done; tauto.
Qed.

Lemma marker_inj purpose lane occ purpose' lane' occ' marker :
  compose_comment_marker prefixes purpose lane occ = Ok marker →
  compose_comment_marker prefixes purpose' lane' occ' = Ok marker →
  purpose = purpose' ∧ lane = lane' ∧ occ = occ'.
Proof.
  intros (p & Hp & Ht & _ & Hoc & ->)%compose_ok (p' & Hp' & Ht' & _ & Hoc' & E)%compose_ok.
  apply str_app_inj_l, str_app_inj_r in E. apply join_colon_inj in E; [|done|done|..].
  2,3: repeat (constructor; [first [by apply prefix_no_colon|apply quote_no_colon]|]);
    apply Forall_fmap, Forall_forall; intros; apply quote_no_colon.
  injection E as -> ->%quote_inj E. split; [by eapply prefix_purpose|]. split; [done|].
  destruct occ, occ'; cbn in E; [by injection E as ->%quote_inj|done..].
Qed.

Lemma marker_unbroken purpose lane occ marker :
  compose_comment_marker prefixes purpose lane occ = Ok marker → unbroken marker = true ∧ marker ≠ "".
Proof.
  intros (p & _ & Ht & _ & _ & ->)%compose_ok. split; [|done].
  assert (unbroken p = true) as Hp.
  { apply no_space_unbroken. unfold marker_token in Ht.
    apply andb_true_iff in Ht as [Ht _]. by apply andb_true_iff in Ht as [_ Ht%negb_true_iff]. }
  assert (∀ l, str_all marker_char (join ":" (quote <$> l)) = true) as Hq.
  { intros l. induction l as [|x [|y l] IH]; [done|apply quote_marker_chars|].
    change (str_all marker_char (quote x +:+ ":" +:+ join ":" (quote <$> y :: l)) = true).
    by rewrite !str_all_app, quote_marker_chars, IH. }
  specialize (Hq (lane :: option_list occ)).
  assert (str_all marker_char (":" +:+ join ":" (quote <$> lane :: option_list occ) +:+ "]") = true)
    as [Hu Hj]%marker_chars_unbroken by (by rewrite !str_all_app, Hq).
  change ("[" +:+ ?x) with (String "[" x). cbn [unbroken].
  rewrite andb_true_iff, bool_decide_eq_true. split; [apply bracket_no_boundary|].
  change (join ":" (p :: quote lane :: (quote <$> option_list occ)))
    with (p +:+ ":" +:+ join ":" (quote <$> lane :: option_list occ)).
  rewrite <-!str_app_assoc. by apply unbroken_app.
Qed.
End identities.

Lemma splitlines_unbroken m : unbroken m = true → m ≠ "" → splitlines m = [m].
Proof. intros Hu Hne. unfold splitlines. rewrite splitlines_keep_unbroken by done. by destruct m. Qed.

Lemma marked_ok m b : unbroken m = true → m ≠ "" → marked_comment_body m b = Ok (m +:+ nl +:+ b).
Proof.
  intros Hu Hne. unfold marked_comment_body. by rewrite splitlines_unbroken, bool_decide_true by done.
Qed.

Lemma carries_marked m m' b : unbroken m' = true → carries m (m' +:+ nl +:+ b) = bool_decide (m = m').
Proof.
  intros Hu. unfold carries. change (nl +:+ b) with (String newline b). rewrite splitlines_line by done.
  cbn [head]. apply bool_decide_ext. split; congruence.
Qed.

(** * A comment is found by its identity *)

(** Purpose, lane and occurrence. *)
Notation identity := (string * string * option string)%type.
Definition marker_of (prefixes : pydict string string) (id : identity) : result exn string :=
  compose_comment_marker prefixes id.1.1 id.1.2 id.2.

(** A comment the program wrote under an identity, whatever its text. *)
Definition written_as (prefixes : pydict string string) (id : identity) (c : TrackerComment) : Prop :=
  ∃ marker text, marker_of prefixes id = Ok marker
    ∧ marked_comment_body marker text = Ok (comment_body c).

Section found.
Context (prefixes : pydict string string) (Hvalid : marker_prefixes_valid prefixes = true).

Lemma marker_of_inj id id' marker :
  marker_of prefixes id = Ok marker → marker_of prefixes id' = Ok marker → id = id'.
Proof.
  destruct id as [[p l] o], id' as [[p' l'] o']. intros H H'.
  destruct (marker_inj prefixes Hvalid p l o p' l' o' _ H H') as (-> & -> & ->). done.
Qed.

Lemma written_carries id id' marker c :
  marker_of prefixes id = Ok marker → written_as prefixes id' c →
  carries marker (comment_body c) = bool_decide (id' = id).
Proof.
  intros H (m' & text & H' & Hb).
  destruct (marker_unbroken prefixes Hvalid _ _ _ _ H') as [Hu Hne].
  rewrite marked_ok in Hb by done.
  assert (comment_body c = m' +:+ nl +:+ text) as -> by congruence. rewrite carries_marked by done.
  apply bool_decide_ext. split; [|congruence].
  intros ->. by apply (marker_of_inj id' id m').
Qed.

(** Every marker can be written under. *)
Lemma marker_writable id marker body :
  marker_of prefixes id = Ok marker → marked_comment_body marker body = Ok (marker +:+ nl +:+ body).
Proof.
  intros H. destruct (marker_unbroken prefixes Hvalid _ _ _ _ H). by apply marked_ok.
Qed.
End found.

(** A comment is found by its identity and by nothing else. Over any comments the
    program wrote, under valid prefixes, the search for an identity answers with the one
    comment written for exactly that purpose, lane and occurrence, with nothing when
    there is none, and refuses naming all of them when there are several; no separator
    inside a lane key or an occurrence confuses two identities, and a composed marker can
    always be written under. *)
Theorem found_by_identity (prefixes : pydict string string) (target marker : string)
    (id : string * string * option string)
    (written : list (string * string * option string * TrackerComment))
    (Hvalid : marker_prefixes_valid prefixes = true)
    (Hwritten : ∀ id' c, (id', c) ∈ written → written_as prefixes id' c)
    (Hid : marker_of prefixes id = Ok marker) :
  let own := (filter (λ ic, ic.1 = id) written).*2 in
  comment_under_marker target marker written.*2 false
    = match own with
      | [] => Ok None
      | [c] => Ok (Some c)
      | _ => Err (DuplicateCommentMarkerError target marker (comment_key <$> own))
      end
  ∧ ∀ body, is_ok (marked_comment_body marker body) = true.
Proof.
  cbv zeta. split.
  - unfold comment_under_marker.
    assert (filter (λ c, carries marker (comment_body c) = true) written.*2
      = (filter (λ ic, ic.1 = id) written).*2) as ->; [|done].
    rewrite filter_of_fmap. f_equal. apply filter_ext_in. intros [id' c] Hin. cbn [fst snd].
    rewrite (written_carries prefixes Hvalid id id' marker c Hid (Hwritten _ _ Hin)).
    apply bool_decide_eq_true.
  - intros body. by rewrite (marker_writable prefixes Hvalid _ _ _ Hid).
Qed.

Definition sample_prefixes : pydict string string := [("run_state", "kz-state"); ("run_event", "kz-event")].

Definition sample_comment (key body : string) : TrackerComment := {|
  comment_key := key; comment_issue_key := "K-1"; author_key := Some "bot";
  comment_body := body; comment_created_at := 0; reply_to := None |}.

(** A lane key holding the separator, beside the lane and occurrence it would spell. *)
Example found_by_identity_witness :
  comment_under_marker "K-1" "[kz-state:a%3Ab]"
    [sample_comment "c1" ("[kz-state:a:b]" +:+ nl +:+ "x"); sample_comment "c2" ("[kz-state:a%3Ab]" +:+ nl +:+ "y")]
    false
  = Ok (Some (sample_comment "c2" ("[kz-state:a%3Ab]" +:+ nl +:+ "y"))).
Proof.
  refine (proj1 (found_by_identity sample_prefixes "K-1" "[kz-state:a%3Ab]" ("run_state", "a:b", None)
    [(("run_state", "a", Some "b"), sample_comment "c1" ("[kz-state:a:b]" +:+ nl +:+ "x"));
     (("run_state", "a:b", None), sample_comment "c2" ("[kz-state:a%3Ab]" +:+ nl +:+ "y"))] _ _ _)).
  - by vm_compute.
  - intros id' c [[= -> ->]|[[= -> ->]|[]%elem_of_nil]%elem_of_cons]%elem_of_cons.
    + exists "[kz-state:a:b]", "x". by vm_compute.
    + exists "[kz-state:a%3Ab]", "y". by vm_compute.
  - by vm_compute.
Defined.
