(* ===== verification/IssueIdentity.v ===== *)
(** * The identity an issue carries in its description (adapters/linear/issue_identity.py).

    The first line of a description may be an HTML comment under the operation's own
    prefix, which holds the issue's identity as JSON. Every description write keeps it:
    it is decoded from the body about to be replaced and encoded into the replacement.
    The JSON is written as [json.dumps] writes it; reading it back into the model is
    pydantic's, a class. The lemmas show that the carrier adds nothing a reader of the
    body's fields sees. *)

From S2P Require Import Prelude PyStr PyLines Tracker Errors Json FireSpec CommentMarkers.

Local Open Scope nat_scope.

(** ** [json.dumps] of a text (ensure_ascii) *)

Definition hex_char (d : Z) : Ascii.ascii := chr (if decide (d < 10)%Z then 48 + d else 87 + d)%Z.

(** ['\\u{0:04x}'] *)
Definition u_escape (n : Z) : string :=
  String backslash (String (chr 117)
    (String (hex_char (n / 4096 mod 16)) (String (hex_char (n / 256 mod 16))
    (String (hex_char (n / 16 mod 16)) (String (hex_char (n mod 16)) ""))))).

(** The characters escaped by one letter, each with that letter. *)
Definition ESCAPE_DCT : pydict Z Z := [(92, 92); (34, 34); (8, 98); (12, 102); (10, 110); (13, 114); (9, 116)]%Z.

Definition json_escape (c : Z) : string :=
  match dict_get ESCAPE_DCT c with
  | Some e => String backslash (String (chr e) "")
  | None =>
      if decide (32 ≤ c ≤ 126)%Z then String (chr c) ""
      else if decide (c < 65536)%Z then u_escape c
      else let n := (c - 65536)%Z in
           u_escape (55296 + n / 1024 mod 1024) +:+ u_escape (56320 + n mod 1024)
  end.

Fixpoint json_escapes (fuel : nat) (s : string) : string :=
  match fuel with
  | O => ""
  | S fuel => match code_point s with
              | Some (c, r) => json_escape c +:+ json_escapes fuel r
              | None => ""
              end
  end.

(** The turns of the loop: every one shortens the text. *)
Definition json_dumps_str (s : string) : string :=
  String dq (json_escapes (String.length s) s +:+ String dq "").

(** ** The identity (types/domain/issue_identity.py) *)

Record IssueIdentity := {
  identity_scope : ScopeRef;
  deliverable_key : string;
}.
#[export] Instance IssueIdentity_eq_dec : EqDecision IssueIdentity.
Proof. solve_decision. Defined.

(** Pydantic's [IssueIdentity.model_validate_json]. *)
Class IdentityJson := validate_identity : string → option IssueIdentity.

(** [json.dumps(identity.model_dump(by_alias=True), separators=(",", ":"))] *)
Definition member (key value : string) : string := json_dumps_str key +:+ ":" +:+ value.
Definition object (members : list string) : string := "{" +:+ join "," members +:+ "}".
Definition dump_identity (identity : IssueIdentity) : string :=
  let scope := identity_scope identity in
  object
    [member "scopeKey" (object
       [member "kind" (json_dumps_str (scope_kind_value (scope_kind scope)));
        member "key" (json_dumps_str (scope_key scope))]);
     member "deliverableKey" (json_dumps_str (deliverable_key identity))].

(** [.replace("<", "\\u003c").replace(">", "\\u003e")] *)
Definition without_angles (payload : string) : string :=
  str_map_chars (λ a, if decide (byte a = 60%Z) then u_escape 60
                      else if decide (byte a = 62%Z) then u_escape 62 else String a "") payload.

(** ** The carrier *)

Section carrier.
Context `{IdentityJson} (prefixes : pydict string string).

Definition IDENTITY_PURPOSE : string := "issue_identity".
Definition carrier_close : string := " -->".
Definition carrier_open (prefix : string) : string := "<!-- " +:+ prefix +:+ " ".

Definition decode (body issue_key : string) : result exn (option IssueIdentity) :=
  match dict_get prefixes IDENTITY_PURPOSE with
  | None => Ok None
  | Some prefix =>
      let first := default "" (head (splitlines body)) in
      let start := carrier_open prefix in
      if startswith first start then
        raise_if (negb (endswith first carrier_close))
          (TrackerProtocolError "issue identity carrier is incomplete")
          (match validate_identity (slice first (String.length start)
                   (String.length first - String.length carrier_close)) with
           | Some identity => Ok (Some identity)
           | None => Err (TrackerProtocolError "issue identity carrier is malformed")
           end)
      else Ok None
  end.

(** The line an identity is carried in. *)
Definition carrier_line (prefix : string) (identity : IssueIdentity) : string :=
  carrier_open prefix +:+ without_angles (dump_identity identity) +:+ carrier_close.

Definition encode (identity : IssueIdentity) (body issue_key : string) : result exn string :=
  prefix ← configured_marker_prefix prefixes IDENTITY_PURPOSE;
  held ← decode body issue_key;
  match held with
  | Some h =>
      raise_if (negb (bool_decide (h = identity)))
        (TrackerProtocolError "a description edit cannot replace an issue's identity") (Ok body)
  | None => Ok (carrier_line prefix identity +:+ nl +:+ nl +:+ body)
  end.
End carrier.

(** * What the carrier is to a reader of fields *)

(** A character of [json.dumps]'s answer with its angles replaced. *)
Definition plain_char (a : Ascii.ascii) : bool :=
  bool_decide (32 ≤ byte a ≤ 126)%Z && negb (bool_decide (byte a = 62%Z)).

Definition printable (a : Ascii.ascii) : bool := bool_decide (32 ≤ byte a ≤ 126)%Z.

Lemma byte_chr c : (0 ≤ c < 256)%Z → byte (chr c) = c.
Proof. intros Hc. unfold byte, chr. rewrite Ascii.N_ascii_embedding; lia. Qed.

Lemma hex_char_printable d : (0 ≤ d < 16)%Z → printable (hex_char d) = true.
Proof. intros Hd. unfold printable, hex_char. case_decide; rewrite byte_chr by lia; apply bool_decide_eq_true; lia. Qed.

Lemma u_escape_printable n : str_all printable (u_escape n) = true.
Proof.
  unfold u_escape. cbn [str_all].
  rewrite !hex_char_printable by (apply Z.mod_pos_bound; lia). reflexivity.
Qed.

Lemma json_escape_printable c : str_all printable (json_escape c) = true.
Proof.
  unfold json_escape. destruct (dict_get ESCAPE_DCT c) as [e|] eqn:E.
  - apply dict_get_elem in E. unfold ESCAPE_DCT in E.
    repeat (apply elem_of_cons in E as [[= -> ->]|E]; [reflexivity|]). by apply elem_of_nil in E.
  - case_decide as Hc.
    + cbn [str_all]. unfold printable. rewrite byte_chr, andb_true_r by lia. by apply bool_decide_eq_true.
    + case_decide; [apply u_escape_printable|]. by rewrite str_all_app, !u_escape_printable.
Qed.

Lemma json_dumps_str_printable s : str_all printable (json_dumps_str s) = true.
Proof.
  unfold json_dumps_str. cbn [str_all]. rewrite str_all_app. cbn [str_all andb].
  assert (∀ fuel s, str_all printable (json_escapes fuel s) = true) as ->; [|reflexivity].
  clear s. induction fuel as [|fuel IH]; intros s; cbn [json_escapes]; [done|].
  destruct (code_point s) as [[c r]|]; [|done]. by rewrite str_all_app, json_escape_printable, IH.
Qed.

Lemma dump_identity_printable identity : str_all printable (dump_identity identity) = true.
Proof.
  unfold dump_identity, object, member. cbn [join].
  repeat (rewrite ?str_all_app, ?json_dumps_str_printable; cbn [str_all andb]). reflexivity.
Qed.

Lemma without_angles_plain payload :
  str_all printable payload = true → str_all plain_char (without_angles payload) = true.
Proof.
  unfold without_angles. induction payload as [|a s IH]; [done|]. cbn [str_all str_map_chars].
  rewrite andb_true_iff, str_all_app. intros [Ha Hs]. rewrite (IH Hs), andb_true_r.
  destruct (decide (byte a = 60%Z)); [reflexivity|]. destruct (decide (byte a = 62%Z)) as [|Hne]; [reflexivity|].
  cbn [str_all]. unfold plain_char. fold (printable a). rewrite Ha. cbn [andb].
  by rewrite (bool_decide_eq_false_2 (byte a = 62%Z)).
Qed.

Lemma carried_payload_plain identity : str_all plain_char (without_angles (dump_identity identity)) = true.
Proof. apply without_angles_plain, dump_identity_printable. Qed.

Lemma printable_boundary a s : printable a = true → line_boundary (String a s) = 0.
Proof.
  intros Ha. destruct s as [|b [|c s]]; destruct a as [[] [] [] [] [] [] [] []]; first [done|reflexivity].
Qed.

Lemma printable_unbroken x y : str_all printable x = true → unbroken y = true → unbroken (x +:+ y) = true.
Proof.
  intros Hx Hy. induction x as [|a x IH]; [done|]. cbn [str_all String.append unbroken] in *.
  apply andb_true_iff in Hx as [Ha Hx]. rewrite andb_true_iff, bool_decide_eq_true.
  split; [by apply printable_boundary|auto].
Qed.

Lemma plain_printable s : str_all plain_char s = true → str_all printable s = true.
Proof. apply str_all_impl. intros a. unfold plain_char. by rewrite andb_true_iff; intros [??]. Qed.

(** The first of a closing bracket's texts is the one after a text that holds no bracket. *)
Lemma cut_close s : str_all (λ a, negb (bool_decide (byte a = 62%Z))) s = true →
  cut "-->" (s +:+ "-->") = Some (s, "").
Proof.
  induction s as [|a s IH]; [done|]. cbn [str_all]. rewrite andb_true_iff. intros [_ Hs].
  cbn [String.append cut]. rewrite (IH Hs).
  destruct (strip_prefix "-->" _) as [r|] eqn:E; [exfalso|done]. apply strip_prefix_Some in E.
  cbn in E. injection E as _ E.
  destruct s as [|b [|c s]]; [discriminate|discriminate|]. injection E as _ -> _.
  cbn [str_all] in Hs. by apply andb_true_iff in Hs as [_ [Hs _]%andb_true_iff].
Qed.

Section reading.
Context `{IdentityJson} (prefixes : pydict string string) (Hvalid : marker_prefixes_valid prefixes = true).

Definition inside (prefix payload : string) : string := " " +:+ prefix +:+ " " +:+ payload +:+ " ".

Lemma carrier_inside prefix identity :
  carrier_line prefix identity
  = "<!--" +:+ inside prefix (without_angles (dump_identity identity)) +:+ "-->".
Proof.
  unfold carrier_line, carrier_open, inside, carrier_close.
  by rewrite <-?str_app_assoc.
Qed.

Lemma inside_closed prefix identity :
  marker_token prefix = true →
  str_all (λ a, negb (bool_decide (byte a = 62%Z))) (inside prefix (without_angles (dump_identity identity))) = true.
Proof.
  intros Ht. unfold inside. rewrite !str_all_app. cbn [str_all andb].
  unfold marker_token in Ht. rewrite !andb_true_iff in Ht. destruct Ht as [_ Hp].
  rewrite (str_all_impl (λ a, negb (marker_delimiter a))
    (λ a, negb (bool_decide (byte a = 62%Z))) prefix); [|intros a|exact Hp].
  2:{ unfold marker_delimiter. rewrite !negb_true_iff, !bool_decide_eq_false. set_solver. }
  cbn [andb]. rewrite (str_all_impl plain_char); [reflexivity| |apply carried_payload_plain].
  intros a. unfold plain_char. rewrite andb_true_iff. by intros [_ ?].
Qed.

(** The walk of a body's lines sees an empty line where the carrier stands. *)
Lemma carrier_visible prefix identity :
  marker_token prefix = true → visible_line (None, false) (carrier_line prefix identity) = ((None, false), inr "").
Proof.
  intros Ht. rewrite carrier_inside. pose proof (cut_close _ (inside_closed prefix identity Ht)) as Hc.
  revert Hc. generalize (inside prefix (without_angles (dump_identity identity))). intros m Hc.
  unfold visible_line. cbn [fst snd].
  assert (_without_comments ("<!--" +:+ m +:+ "-->") false = ("", false)) as ->; [|done].
  unfold _without_comments. change (String.length ("<!--" +:+ m +:+ "-->")) with (S (S (S (S (String.length (m +:+ "-->")))))).
  cbn [comment_loop]. rewrite (decide_False (P := _ = "")) by done.
  change (cut "<!--" ("<!--" +:+ m +:+ "-->")) with (Some ("", m +:+ "-->")). cbv beta iota.
  rewrite decide_False by (by destruct m). by rewrite Hc.
Qed.

Lemma carrier_unbroken prefix identity :
  marker_token prefix = true → unbroken (carrier_line prefix identity) = true.
Proof.
  intros Ht. unfold carrier_line, carrier_open. rewrite <-!str_app_assoc.
  apply printable_unbroken; [reflexivity|]. unfold marker_token in Ht. rewrite !andb_true_iff in Ht.
  destruct Ht as [[_ Hs%negb_true_iff] _]. apply unbroken_app; [by apply no_space_unbroken| |done].
  apply printable_unbroken; [reflexivity|].
  apply printable_unbroken; [apply plain_printable, carried_payload_plain|reflexivity].
Qed.

Lemma carried_lines prefix identity x :
  marker_token prefix = true →
  splitlines (carrier_line prefix identity +:+ nl +:+ nl +:+ x) = carrier_line prefix identity :: "" :: splitlines x.
Proof.
  intros Ht. change (nl +:+ nl +:+ x) with (String newline (String newline x)).
  rewrite splitlines_line by (by apply carrier_unbroken).
  by rewrite (splitlines_line "" x eq_refl : splitlines (String newline x) = "" :: splitlines x).
Qed.

(** Encoding an identity changes no field of a body, nor whether its rows are settled. *)
Lemma encode_reads identity body issue_key text :
  encode prefixes identity body issue_key = Ok text →
  (∀ field, criterion_field_bodies text field = criterion_field_bodies body field)
  ∧ field_texts text = field_texts body ∧ settled text = settled body.
Proof using Hvalid.
  unfold encode. intros (prefix & Hp & (held & _ & E)%bind_ok)%bind_ok.
  apply (configured_prefix_ok prefixes Hvalid) in Hp as [_ Ht].
  destruct held as [h|]; [by apply raise_if_ok in E as [_ [= ->]]|].
  assert (text = carrier_line prefix identity +:+ nl +:+ nl +:+ body) as -> by congruence.
  assert (∀ ls, blocks (λ l, l) (None, false) (carrier_line prefix identity :: "" :: ls)
    = let '(pre, texts, bs) := blocks (λ l, l) (None, false) ls in
      (carrier_line prefix identity :: "" :: pre, "" :: "" :: texts, bs)) as Hb.
  { intros ls. cbn [blocks]. rewrite (carrier_visible _ _ Ht), visible_line_empty.
    by destruct (blocks _ _ ls) as [[??]?]. }
  assert (field_texts (carrier_line prefix identity +:+ nl +:+ nl +:+ body) = field_texts body) as Hf.
  { rewrite !field_texts_lines, (carried_lines _ _ _ Ht). unfold line_fields. rewrite Hb.
    by destruct (blocks _ _ (splitlines body)) as [[??]?]. }
  split; [intros field; by rewrite !field_bodies_texts, Hf|]. split; [done|].
  unfold settled. rewrite (carried_lines _ _ _ Ht). cbn [settled_from].
  by rewrite (carrier_visible _ _ Ht), visible_line_empty.
Qed.
End reading.

(** ** What is written is JSON *)

Definition sample_identity : IssueIdentity := {|
  identity_scope := {| scope_kind := ISSUE; scope_key := "K-1" |}; deliverable_key := "<!-- " +:+ utf8 233 |}.

Example identity_is_json :
  json_loads_unique (dump_identity sample_identity) = true
  ∧ json_loads_unique (without_angles (dump_identity sample_identity)) = true
  ∧ cut "<" (without_angles (dump_identity sample_identity)) = None.
Proof. by vm_compute. Qed.
