(* ===== verification/RunEvents.v ===== *)
(** * The lane's run-event stream (types/domain/run_event.py, domain/run_event_stream.py,
    domain/audit_claims.py).

    Events are comments posted once under the stream's marker and read back in creation
    order. Which kinds record a write of a criterion's Evidence row, and what the audit
    makes of the last of them, is kept here beside the vocabulary. *)

From Stdlib Require Import Ascii.
From S2P Require Import Prelude PyStr PyLines Tracker Errors Json Criteria Lapse CriterionEvidence.
From S2P Require Import Redispatch Amendment Surface CommentMarkers.

Local Open Scope nat_scope.

(** ** The vocabulary (types/domain/run_event.py) *)

Inductive RunEventKind :=
| FIRST_PUSH | PR_OPENED | GATE_GREEN | GATE_RED | EVALUATOR_ACCEPTED | LANE_PLATEAUED
| ISSUE_CROSSED_OFF | CRITERION_REFUTED | CRITERION_PASSED | CRITERION_LAPSED
| ESCALATION_RAISED | LANE_DISPATCHED | CLAIM_LOST | CHECKS_GREEN | LANDED_AND_VERIFIED
| CRITERIA_HALT | AUDIT_REFUTED | RUN_ALARM_RAISED | RUN_ALARM_CLEARED
| NODE_SESSION_STARTED | CRITERION_GRADING_UNVERIFIED | CRITERION_CHECK_SURVIVED_MUTATION
| CRITERION_SATISFIED_AT_BASE | CRITERION_BASE_READING_UNSETTLED.
#[export] Instance RunEventKind_eq_dec : EqDecision RunEventKind.
Proof. solve_decision. Defined.

Definition kind_value (k : RunEventKind) : string :=
  match k with
  | FIRST_PUSH => "first_push" | PR_OPENED => "pr_opened" | GATE_GREEN => "gate_green"
  | GATE_RED => "gate_red" | EVALUATOR_ACCEPTED => "evaluator_accepted"
  | LANE_PLATEAUED => "lane_plateaued" | ISSUE_CROSSED_OFF => "issue_crossed_off"
  | CRITERION_REFUTED => "criterion_refuted" | CRITERION_PASSED => "criterion_passed"
  | CRITERION_LAPSED => "criterion_lapsed" | ESCALATION_RAISED => "escalation_raised"
  | LANE_DISPATCHED => "lane_dispatched" | CLAIM_LOST => "claim_lost"
  | CHECKS_GREEN => "checks_green" | LANDED_AND_VERIFIED => "landed_and_verified"
  | CRITERIA_HALT => "criteria_halt" | AUDIT_REFUTED => "audit_refuted"
  | RUN_ALARM_RAISED => "run_alarm_raised" | RUN_ALARM_CLEARED => "run_alarm_cleared"
  | NODE_SESSION_STARTED => "node_session_started"
  | CRITERION_GRADING_UNVERIFIED => "criterion_grading_unverified"
  | CRITERION_CHECK_SURVIVED_MUTATION => "criterion_check_survived_mutation"
  | CRITERION_SATISFIED_AT_BASE => "criterion_satisfied_at_base"
  | CRITERION_BASE_READING_UNSETTLED => "criterion_base_reading_unsettled"
  end.

Definition RUN_EVENT_KINDS : list RunEventKind :=
  [FIRST_PUSH; PR_OPENED; GATE_GREEN; GATE_RED; EVALUATOR_ACCEPTED; LANE_PLATEAUED;
   ISSUE_CROSSED_OFF; CRITERION_REFUTED; CRITERION_PASSED; CRITERION_LAPSED;
   ESCALATION_RAISED; LANE_DISPATCHED; CLAIM_LOST; CHECKS_GREEN; LANDED_AND_VERIFIED;
   CRITERIA_HALT; AUDIT_REFUTED; RUN_ALARM_RAISED; RUN_ALARM_CLEARED;
   NODE_SESSION_STARTED; CRITERION_GRADING_UNVERIFIED; CRITERION_CHECK_SURVIVED_MUTATION;
   CRITERION_SATISFIED_AT_BASE; CRITERION_BASE_READING_UNSETTLED].

Inductive RunEventEffect := DERIVED | NO_TRANSITION.
#[export] Instance RunEventEffect_eq_dec : EqDecision RunEventEffect.
Proof. solve_decision. Defined.
Inductive RunEventPublisher := LANE | RAISER.

Definition RUN_EVENT_PUBLISHERS (k : RunEventKind) : RunEventPublisher :=
  match k with
  | FIRST_PUSH | PR_OPENED | GATE_GREEN | GATE_RED | EVALUATOR_ACCEPTED | LANE_PLATEAUED
  | ISSUE_CROSSED_OFF | CRITERION_REFUTED | CRITERION_PASSED | CRITERION_LAPSED
  | ESCALATION_RAISED | CRITERION_GRADING_UNVERIFIED | CRITERION_CHECK_SURVIVED_MUTATION
  | CRITERION_SATISFIED_AT_BASE | CRITERION_BASE_READING_UNSETTLED => LANE
  | LANE_DISPATCHED | CLAIM_LOST | CHECKS_GREEN | LANDED_AND_VERIFIED | CRITERIA_HALT
  | AUDIT_REFUTED | RUN_ALARM_RAISED | RUN_ALARM_CLEARED | NODE_SESSION_STARTED => RAISER
  end.

Definition DERIVED_RUN_EVENTS : list RunEventKind :=
  [EVALUATOR_ACCEPTED; AUDIT_REFUTED; CRITERION_REFUTED; CRITERION_PASSED; CRITERION_LAPSED;
   LANDED_AND_VERIFIED].

Definition SILENT_STATE_EVENTS : list RunEventKind :=
  [FIRST_PUSH; GATE_GREEN; GATE_RED; ESCALATION_RAISED; ISSUE_CROSSED_OFF; RUN_ALARM_RAISED;
   RUN_ALARM_CLEARED; NODE_SESSION_STARTED; CRITERION_GRADING_UNVERIFIED;
   CRITERION_CHECK_SURVIVED_MUTATION; CRITERION_SATISFIED_AT_BASE;
   CRITERION_BASE_READING_UNSETTLED].

Definition UNDEMONSTRATED_EVENT_KINDS (r : UndemonstratedReason) : RunEventKind :=
  match r with
  | workspace_not_the_graded_sha => CRITERION_GRADING_UNVERIFIED
  | check_survived_mutation => CRITERION_CHECK_SURVIVED_MUTATION
  | satisfied_at_base => CRITERION_SATISFIED_AT_BASE
  | base_reading_unsettled => CRITERION_BASE_READING_UNSETTLED
  end.

Definition EVIDENCE_ROW_WRITES : list RunEventKind := [CRITERION_PASSED; CRITERION_REFUTED].

(** ** Events (domain/run_event_stream.py) *)

Definition RUN_EVENT_PURPOSE : string := "run_event".

Record LaneRunEvent := {
  event_kind : RunEventKind;
  event_lane : string;
  subject_key : option string;
  event_sha : option string;
}.
#[export] Instance LaneRunEvent_eq_dec : EqDecision LaneRunEvent.
Proof. solve_decision. Defined.

(** The constraints pydantic checks: each text holds a character that is no space. *)
Definition event_valid (e : LaneRunEvent) : bool :=
  negb (str_blank (event_lane e))
  && forallb (λ s, negb (str_blank s)) (option_list (subject_key e) ++ option_list (event_sha e)).

(** pydantic: [model_dump_json(by_alias=True, indent=2)] and
    [model_validate_json(..., strict=True)] of an event. *)
Class EventJson := {
  dump_event : LaneRunEvent → string;
  validate_event : string → option LaneRunEvent;
}.
Class EventJsonLaws `{EventJson} : Prop :=
  validate_dumped e : event_valid e = true → validate_event (dump_event e) = Some e.

Definition _PAYLOAD_OPEN : string := "```json" +:+ nl.
Definition _PAYLOAD_CLOSE : string := nl +:+ "```".

Section stream.
Context `{EventJson} (prefixes : pydict string string).

Definition _stream_marker (lane_key : string) : result exn string :=
  compose_comment_marker prefixes RUN_EVENT_PURPOSE lane_key None.

Definition render_run_event (e : LaneRunEvent) : result exn string :=
  marker ← _stream_marker (event_lane e);
  marked_comment_body marker (_PAYLOAD_OPEN +:+ dump_event e +:+ _PAYLOAD_CLOSE).

(** [body[len(prefix) : -len(_PAYLOAD_CLOSE)]]; a body too short for both reads "". *)
Definition _parse_run_event (prefix lane_key body : string) : result exn LaneRunEvent :=
  raise_if (negb (endswith body _PAYLOAD_CLOSE))
    (ValueError "the run-event payload framing is invalid")
    (match validate_event (str_drop (String.length prefix)
             (str_take (String.length body - String.length _PAYLOAD_CLOSE) body)) with
     | None => Err (ValidationError "LaneRunEvent")
     | Some e =>
         raise_if (negb (bool_decide (event_lane e = lane_key)))
           (ValueError "the run event's lane does not match its marker") (Ok e)
     end).

Definition in_stream (prefix : string) (c : TrackerComment) : bool :=
  bool_decide (reply_to c = None) && startswith (comment_body c) prefix.

Definition lane_run_events (comments : list TrackerComment) (lane_key : string) :
    result exn (list LaneRunEvent) :=
  marker ← _stream_marker lane_key;
  let prefix := marker +:+ nl +:+ _PAYLOAD_OPEN in
  mapM (λ c, _parse_run_event prefix lane_key (comment_body c))
    (filter (λ c, in_stream prefix c = true) (sort_by comment_created_at comments)).
End stream.

(** ** What the audit reads of it (domain/audit_claims.py, chains/audit_evidence.py) *)

Definition writes_row (criterion_key : string) (e : LaneRunEvent) : bool :=
  bool_decide (subject_key e = Some criterion_key)
  && bool_decide (event_kind e ∈ EVIDENCE_ROW_WRITES).

Definition evidence_row_history (events : list LaneRunEvent) (criterion_key : string) : list string :=
  omap event_sha (filter (λ e, writes_row criterion_key e = true) events).

Definition restamp_verdict (history : list string) (graded_sha : string) : AuditVerdict :=
  if decide (last history = Some graded_sha) then HOLDS else REFUTED.

(** [AuditEvidence.observe]: the trace of a row, [None] for one no grading was recorded of. *)
Definition observe_restamp (events : list LaneRunEvent) (criterion_key : string)
    (evidence : CriterionEvidence) : option AuditVerdict :=
  let history := evidence_row_history events criterion_key in
  if decide (history = []) then None else Some (restamp_verdict history (graded_sha evidence)).

(** * Lemmas *)

(** The latest element is sorted last, wherever it stands; one of its key before it stays
    before it. *)
Lemma sort_by_latest {A K} `{PyOrd K} (key : A → K) l1 l2 x :
  (∀ y, y ∈ l1 → key_leb (key y) (key x) = true) → (∀ y, y ∈ l2 → key_leb (key x) (key y) = false) →
  sort_by key (l1 ++ x :: l2) = sort_by key (l1 ++ l2) ++ [x].
Proof.
  intros Hl1 Hl2. induction l1 as [|y l1 IH]; cbn [app sort_by].
  - assert (∀ y, y ∈ sort_by key l2 → key_leb (key x) (key y) = false) as Hs
      by (intros y Hy%elem_of_sort_by; by apply Hl2).
    induction (sort_by key l2) as [|y k IH]; [done|]. cbn [sort_insert app].
    rewrite (Hs y) by by left. rewrite IH; [done|]. intros z Hz. apply Hs. by right.
  - rewrite IH by (intros; apply Hl1; by right).
    assert (key_leb (key y) (key x) = true) as Hy by (apply Hl1; by left).
    generalize (sort_by key (l1 ++ l2)). intros k. induction k as [|z k IHk]; cbn [sort_insert app].
    + by rewrite Hy.
    + destruct (key_leb (key y) (key z)); [done|]. by rewrite IHk.
Qed.
Lemma sort_by_snoc {A K} `{PyOrd K} (key : A → K) l x :
  (∀ y, y ∈ l → key_leb (key y) (key x) = true) → sort_by key (l ++ [x]) = sort_by key l ++ [x].
Proof. intros Hle. rewrite sort_by_latest by (done || by intros y ?%elem_of_nil). by rewrite app_nil_r. Qed.

Lemma sort_insert_filter {A K} `{PyOrd K} (key : A → K) (P : A → Prop) `{∀ x, Decision (P x)} x l :
  StronglySorted (key_le key) l →
  filter P (sort_insert key x l)
  = if decide (P x) then sort_insert key x (filter P l) else filter P l.
Proof.
  induction 1 as [|y l Hl IH Hy].
  - cbn [sort_insert]. rewrite filter_cons, filter_nil. by case_decide.
  - cbn [sort_insert]. destruct (key_leb (key x) (key y)) eqn:E.
    + rewrite (filter_cons P x). case_decide; [|done].
      destruct (filter P (y :: l)) as [|z k] eqn:Ez; [done|]. cbn [sort_insert].
      assert (key_leb (key x) (key z) = true) as ->; [|done].
      assert (z ∈ y :: l) as [->|Hz]%elem_of_cons
        by (eapply list_elem_of_filter; rewrite Ez; by left); [done|].
      rewrite Forall_forall in Hy. eapply key_leb_trans; [exact E|by apply Hy].
    + rewrite !filter_cons, IH. repeat case_decide; try done. cbn [sort_insert]. by rewrite E.
Qed.

(** Selecting from a sorted listing is sorting the selection. *)
Lemma filter_sort_by {A K} `{PyOrd K} (key : A → K) (P : A → Prop) `{∀ x, Decision (P x)} l :
  filter P (sort_by key l) = sort_by key (filter P l).
Proof.
  induction l as [|x l IH]; [done|]. cbn [sort_by].
  rewrite sort_insert_filter by apply sort_by_sorted. rewrite filter_cons, IH.
  by case_decide.
Qed.

Lemma mapM_app_ok {E A B} (f : A → result E B) l k ys zs :
  mapM f l = Ok ys → mapM f k = Ok zs → mapM f (l ++ k) = Ok (ys ++ zs).
Proof.
  rewrite !mapM_ok. intros. by apply Forall2_app.
Qed.

(** The text after the first line, when the line holds no line feed. *)
Lemma first_line_unique m m' x x' :
  unbroken m = true → unbroken m' = true → m +:+ nl +:+ x = m' +:+ nl +:+ x' → m = m'.
Proof.
  intros Hm Hm' E. apply (f_equal splitlines) in E.
  change (nl +:+ x) with (String newline x) in E. change (nl +:+ x') with (String newline x') in E.
  rewrite !splitlines_line in E by done. by injection E.
Qed.

Section stream_lemmas.
Context `{EventJson} (prefixes : pydict string string) (Hvalid : marker_prefixes_valid prefixes = true).

(** Only the comments of the stream are read. *)
Lemma lane_run_events_stream marker comments lane :
  _stream_marker prefixes lane = Ok marker →
  let prefix := marker +:+ nl +:+ _PAYLOAD_OPEN in
  lane_run_events prefixes comments lane
  = mapM (λ c, _parse_run_event prefix lane (comment_body c))
      (sort_by comment_created_at (filter (λ c, in_stream prefix c = true) comments)).
Proof. intros E. unfold lane_run_events. rewrite E. cbn [mbind result_bind]. by rewrite filter_sort_by. Qed.

Lemma lane_run_events_ext comments comments' lane :
  (∀ marker, _stream_marker prefixes lane = Ok marker →
     filter (λ c, in_stream (marker +:+ nl +:+ _PAYLOAD_OPEN) c = true) comments
     = filter (λ c, in_stream (marker +:+ nl +:+ _PAYLOAD_OPEN) c = true) comments') →
  lane_run_events prefixes comments lane = lane_run_events prefixes comments' lane.
Proof.
  intros Hf. destruct (_stream_marker prefixes lane) as [marker|e] eqn:E.
  - rewrite !(lane_run_events_stream marker) by done. by rewrite Hf.
  - unfold lane_run_events. by rewrite E.
Qed.

Lemma parse_rendered prefix e :
  validate_event (dump_event e) = Some e →
  _parse_run_event prefix (event_lane e) (prefix +:+ dump_event e +:+ _PAYLOAD_CLOSE) = Ok e.
Proof.
  intros Hd. unfold _parse_run_event.
  assert (endswith (prefix +:+ dump_event e +:+ _PAYLOAD_CLOSE) _PAYLOAD_CLOSE = true) as ->.
  { apply endswith_spec. exists (prefix +:+ dump_event e). by rewrite str_app_assoc. }
  cbn [negb raise_if].
  rewrite (str_app_assoc prefix), str_length_app.
  replace (_ + _ - _) with (String.length (prefix +:+ dump_event e)) by lia.
  by rewrite str_take_app, str_drop_app, Hd, bool_decide_true.
Qed.

(** A comment whose first line is another marker is no entry. *)
Lemma foreign_comment marker marker' x c :
  unbroken marker = true → unbroken marker' = true → marker ≠ marker' →
  comment_body c = marker' +:+ nl +:+ x → in_stream (marker +:+ nl +:+ _PAYLOAD_OPEN) c = false.
Proof.
  intros Hu Hu' Hne Hb. unfold in_stream. apply andb_false_iff. right.
  apply not_true_iff_false. rewrite startswith_spec. intros [r E]. apply Hne.
  apply (first_line_unique _ _ (_PAYLOAD_OPEN +:+ r) x Hu Hu'). by rewrite <-Hb, E, <-!str_app_assoc.
Qed.

(** A posted event, as the stream it joins reads it, wherever the listing has it. *)
Lemma posted_event_anywhere `{!EventJsonLaws} l1 l2 lane events e c :
  lane_run_events prefixes (l1 ++ l2) lane = Ok events →
  event_valid e = true → event_lane e = lane →
  render_run_event prefixes e = Ok (comment_body c) → reply_to c = None →
  (∀ d, d ∈ l1 → (comment_created_at d ≤ comment_created_at c)%Z) →
  (∀ d, d ∈ l2 → (comment_created_at d < comment_created_at c)%Z) →
  lane_run_events prefixes (l1 ++ c :: l2) lane = Ok (events ++ [e]).
Proof.
  intros Hev Hval <- Hr Hreply Hl1 Hl2. unfold render_run_event in Hr.
  apply bind_ok in Hr as (marker & Hm & Hr).
  assert (comment_body c = (marker +:+ nl +:+ _PAYLOAD_OPEN) +:+ dump_event e +:+ _PAYLOAD_CLOSE) as Hb.
  { destruct (marker_unbroken prefixes Hvalid _ _ _ _ Hm) as [Hu Hne].
    rewrite marked_ok in Hr by done. rewrite <-!str_app_assoc. congruence. }
  rewrite (lane_run_events_stream marker) in Hev |- * by done.
  rewrite filter_app in Hev. rewrite filter_app, filter_cons, decide_True.
  2:{ unfold in_stream. rewrite Hreply, bool_decide_true, Hb by done. apply startswith_app. }
  rewrite sort_by_latest.
  - apply mapM_app_ok; [done|]. cbn [mapM]. rewrite Hb, parse_rendered by (by apply validate_dumped).
    done.
  - intros d [_ Hd]%list_elem_of_filter. apply Z.leb_le. by apply Hl1.
  - intros d [_ Hd]%list_elem_of_filter. apply Z.leb_gt. by apply Hl2.
Qed.
Lemma posted_event `{!EventJsonLaws} comments lane events e c :
  lane_run_events prefixes comments lane = Ok events →
  event_valid e = true → event_lane e = lane →
  render_run_event prefixes e = Ok (comment_body c) → reply_to c = None →
  (∀ d, d ∈ comments → (comment_created_at d ≤ comment_created_at c)%Z) →
  lane_run_events prefixes (comments ++ [c]) lane = Ok (events ++ [e]).
Proof.
  intros. apply posted_event_anywhere; [by rewrite app_nil_r|done..|by intros d ?%elem_of_nil].
Qed.

(** A comment under another marker leaves the stream as it reads, wherever it stands. *)
Lemma unrelated_comment lane marker' x c l1 l2 :
  comment_body c = marker' +:+ nl +:+ x → unbroken marker' = true →
  (∀ marker, _stream_marker prefixes lane = Ok marker → marker ≠ marker') →
  lane_run_events prefixes (l1 ++ c :: l2) lane = lane_run_events prefixes (l1 ++ l2) lane.
Proof.
  intros Hb Hu Hne. apply lane_run_events_ext. intros marker Hm.
  destruct (marker_unbroken prefixes Hvalid _ _ _ _ Hm) as [Hum _].
  rewrite !filter_app, (filter_cons _ c), decide_False; [done|].
  by rewrite (foreign_comment marker marker' x c Hum Hu (Hne _ Hm) Hb).
Qed.
End stream_lemmas.

(** * A posted event is read back *)

(** C34. Posting an event appends exactly it to its lane's stream, which is read in creation
    order. For any comments the stream already reads from, a comment posted with the
    rendering of a valid event makes the stream read as before with that event last, and
    every other lane's stream read as before, at whatever place the tracker lists it, as
    long as it was created no earlier than the comments listed before it and later than
    those listed after it. The rendering never refuses a lane the operation has a prefix
    for. *)
Theorem posted_event_read `{EventJsonLaws} (prefixes : pydict string string)
    (l1 l2 : list TrackerComment) (c : TrackerComment) (e : LaneRunEvent)
    (events : list LaneRunEvent)
    (Hvalid : marker_prefixes_valid prefixes = true)
    (Hevents : lane_run_events prefixes (l1 ++ l2) (event_lane e) = Ok events)
    (He : event_valid e = true)
    (Hbefore : ∀ d, d ∈ l1 → (comment_created_at d ≤ comment_created_at c)%Z)
    (Hafter : ∀ d, d ∈ l2 → (comment_created_at d < comment_created_at c)%Z) :
  (∃ text, render_run_event prefixes e = Ok text)
  ∧ (render_run_event prefixes e = Ok (comment_body c) → reply_to c = None →
     lane_run_events prefixes (l1 ++ c :: l2) (event_lane e) = Ok (events ++ [e])
     ∧ ∀ lane, lane ≠ event_lane e →
         lane_run_events prefixes (l1 ++ c :: l2) lane = lane_run_events prefixes (l1 ++ l2) lane).
Proof.
  assert (∃ marker, _stream_marker prefixes (event_lane e) = Ok marker) as [marker Hm].
  { unfold lane_run_events in Hevents. apply bind_ok in Hevents as (marker & Hm & _). by exists marker. }
  destruct (marker_unbroken prefixes Hvalid _ _ _ _ Hm) as [Hu Hne].
  split.
  - unfold render_run_event. rewrite Hm. cbn [mbind result_bind]. rewrite marked_ok by done. eauto.
  - intros Hr Hreply. split; [by apply posted_event_anywhere|]. intros lane Hlane.
    unfold render_run_event in Hr. rewrite Hm in Hr. cbn [mbind result_bind] in Hr.
    rewrite marked_ok in Hr by done.
    apply (unrelated_comment prefixes Hvalid lane marker
      (_PAYLOAD_OPEN +:+ dump_event e +:+ _PAYLOAD_CLOSE)); [congruence|done|].
    intros m Hm' ->. apply Hlane.
    by destruct (marker_inj prefixes Hvalid _ _ _ _ _ _ _ Hm' Hm) as (_ & ? & _).
Qed.

(** ** An implementation of the event's JSON, for concrete inputs *)

Definition json_key (k : string) : string := sp2 +:+ quoted k +:+ ": ".
Definition dump_option (o : option string) : string :=
  match o with Some s => dump_literal s | None => "null" end.
Definition read_option (s : string) : option (option string * string) :=
  match strip_prefix "null" s with
  | Some r => Some (None, r)
  | None => prod_map Some id <$> json_string s
  end.

Definition kind_of (s : string) : option RunEventKind :=
  list_find (λ k, kind_value k = s) RUN_EVENT_KINDS ≫= λ ik, Some ik.2.

Definition event_text (e : LaneRunEvent) : string :=
  ("{" +:+ nl +:+ json_key "kind") +:+ dump_literal (kind_value (event_kind e))
  +:+ ("," +:+ nl +:+ json_key "laneKey") +:+ dump_literal (event_lane e)
  +:+ ("," +:+ nl +:+ json_key "subjectKey") +:+ dump_option (subject_key e)
  +:+ ("," +:+ nl +:+ json_key "gradedSha") +:+ dump_option (event_sha e)
  +:+ (nl +:+ "}").

Definition text_event (text : string) : option LaneRunEvent :=
  r ← strip_prefix ("{" +:+ nl +:+ json_key "kind") text;
  '(kind, r) ← json_string r;
  k ← kind_of kind;
  r ← strip_prefix ("," +:+ nl +:+ json_key "laneKey") r;
  '(lane, r) ← json_string r;
  r ← strip_prefix ("," +:+ nl +:+ json_key "subjectKey") r;
  '(subject, r) ← read_option r;
  r ← strip_prefix ("," +:+ nl +:+ json_key "gradedSha") r;
  '(sha, r) ← read_option r;
  let e := {| event_kind := k; event_lane := lane; subject_key := subject; event_sha := sha |} in
  if decide (r = nl +:+ "}" ∧ event_valid e = true) then Some e else None.

#[export] Instance reference_event_json : EventJson :=
  {| dump_event := event_text; validate_event := text_event |}.

Lemma read_dumped_option o r : read_option (dump_option o +:+ r) = Some (o, r).
Proof.
  destruct o as [s|]; [|done]. unfold read_option. cbn [dump_option].
  assert (strip_prefix "null" (dump_literal s +:+ r) = None) as -> by done.
  by rewrite dump_literal_reads.
Qed.

Lemma kind_of_value k : kind_of (kind_value k) = Some k.
Proof. by destruct k. Qed.

#[export] Instance reference_event_json_laws : EventJsonLaws.
Proof.
  intros e He. cbn [validate_event dump_event reference_event_json]. unfold text_event, event_text.
  assert (∀ p r, strip_prefix p (p +:+ r) = Some r) as Hp by (intros; by apply strip_prefix_Some).
  repeat (rewrite Hp || rewrite dump_literal_reads || rewrite kind_of_value
          || rewrite read_dumped_option || (progress (cbn [mbind option_bind]))).
  destruct e. cbn [event_kind event_lane subject_key event_sha] in *. by rewrite decide_True.
Qed.

Definition sample_event (kind : RunEventKind) (sha : string) : LaneRunEvent :=
  {| event_kind := kind; event_lane := "K-1"; subject_key := Some "C-1"; event_sha := Some sha |}.

Definition posted_at (key : string) (at_time : Z) (e : LaneRunEvent) : TrackerComment := {|
  comment_key := key; comment_issue_key := "K-1"; author_key := Some "bot";
  comment_body := match render_run_event sample_prefixes e with Ok t => t | Err _ => "" end;
  comment_created_at := at_time; reply_to := None |}.

(** Listed newest first, the posted event with them; read in creation order. *)
Example posted_event_read_witness :
  lane_run_events sample_prefixes
    ([] ++ posted_at "3" 3 (sample_event CRITERION_PASSED "c")
     :: [posted_at "2" 2 (sample_event CRITERION_REFUTED "b"); posted_at "1" 1 (sample_event CRITERION_PASSED "a")]) "K-1"
  = Ok ([sample_event CRITERION_PASSED "a"; sample_event CRITERION_REFUTED "b"]
        ++ [sample_event CRITERION_PASSED "c"]).
Proof.
  refine (proj1 (proj2 (posted_event_read sample_prefixes [] _ (posted_at "3" 3 (sample_event CRITERION_PASSED "c"))
    (sample_event CRITERION_PASSED "c") _ _ _ _ _ _) _ _)); try by vm_compute.
  - by intros d ?%elem_of_nil.
  - intros d [->|[->|[]%elem_of_nil]%elem_of_cons]%elem_of_cons; by vm_compute.
Defined.
