(* ===== verification/SelfWrites.v ===== *)
(** * What an operation's own writes leave behind (types/domain/self_writes.py,
    types/domain/dispatch.py, domain/self_writes.py).

    The ledger of the writes a process made, bounded to the newest receipts, and the
    replay that says whether receipts alone explain what an issue has become. *)

From S2P Require Import Prelude PyStr Tracker Errors.

Local Open Scope nat_scope.

Notation FieldValues := (list (string * string)).
Notation CommentValues := (list (string * FieldValues)).

Record IssueMovementSnapshot := {
  moved_issue_key : string;
  moved_updated_at : Z;
  moved_fields : FieldValues;
  moved_comments : CommentValues;
}.

Record OwnMutation := {
  mutation_fields : FieldValues;
  expected_fields : FieldValues;
  additions : list (string * list string);
  created : CommentValues;
  edited : CommentValues;
  deleted : list string;
}.

(** ** The ledger (types/domain/dispatch.py) *)

Definition _SELF_WRITE_RECEIPT_LIMIT : nat := 256.

Record SelfWriteLedger := {
  _stamps : pydict string Z;
  _mutations : list (string * nat * OwnMutation);
  _versions : pydict string nat;
  _discarded : pydict string nat;
}.

Definition new_ledger : SelfWriteLedger :=
  {| _stamps := []; _mutations := []; _versions := []; _discarded := [] |}.

Definition record_stamp (l : SelfWriteLedger) (issue : string) (at_time : Z) : SelfWriteLedger :=
  {| _stamps := dict_set (_stamps l) issue at_time; _mutations := _mutations l;
     _versions := _versions l; _discarded := _discarded l |}.

Definition wrote (l : SelfWriteLedger) (issue : string) (at_time : Z) : bool :=
  bool_decide (dict_get (_stamps l) issue = Some at_time).

Definition version_of (l : SelfWriteLedger) (issue : string) : nat := default 0 (dict_get (_versions l) issue).

(** [if len(...) == limit: popleft()]; the deque is longer than the limit at no time. *)
Definition evict_oldest (l : SelfWriteLedger) : SelfWriteLedger :=
  if decide (length (_mutations l) = _SELF_WRITE_RECEIPT_LIMIT) then
    match _mutations l with
    | (issue, version, _) :: rest =>
        {| _stamps := _stamps l; _mutations := rest; _versions := _versions l;
           _discarded := dict_set (_discarded l) issue version |}
    | [] => l
    end
  else l.

Definition record_mutation (l : SelfWriteLedger) (issue : string) (m : OwnMutation) : SelfWriteLedger :=
  let l := evict_oldest l in
  let version := S (version_of l issue) in
  {| _stamps := _stamps l; _mutations := _mutations l ++ [(issue, version, m)];
     _versions := dict_set (_versions l) issue version; _discarded := _discarded l |}.

(** A cursor, and the receipts after it; [None] is evicted history. *)
Definition receipts (l : SelfWriteLedger) (issue : string) (after : nat) :
    nat * option (list OwnMutation) :=
  let version := version_of l issue in
  if decide (after < default 0 (dict_get (_discarded l) issue) ∨ version < after) then (version, None)
  else (version, Some ((λ r, r.2) <$> filter (λ r, r.1.1 = issue ∧ after < r.1.2) (_mutations l))).

(** *** The ledger over a history of writes *)

Definition recorded : Type := string * OwnMutation.

Definition ledger_of (history : list recorded) : SelfWriteLedger :=
  foldl (λ l r, record_mutation l r.1 r.2) new_ledger history.

(** Everything ever recorded of one issue, oldest first. *)
Definition written_to (issue : string) (history : list recorded) : list OwnMutation :=
  snd <$> filter (λ r, r.1 = issue) history.

(** The history with each write numbered within its issue. *)
Fixpoint numbered (before : list recorded) (history : list recorded) : list (string * nat * OwnMutation) :=
  match history with
  | [] => []
  | r :: rest => (r.1, S (length (written_to r.1 before)), r.2) :: numbered (before ++ [r]) rest
  end.

Definition dropped (history : list recorded) : list recorded :=
  take (length history - _SELF_WRITE_RECEIPT_LIMIT) history.
Definition held (history : list recorded) : list recorded :=
  drop (length history - _SELF_WRITE_RECEIPT_LIMIT) history.

Record ledger_agrees (l : SelfWriteLedger) (history : list recorded) : Prop := {
  agrees_versions : ∀ issue, version_of l issue = length (written_to issue history);
  agrees_mutations : _mutations l = numbered (dropped history) (held history);
  agrees_discarded : ∀ issue, default 0 (dict_get (_discarded l) issue)
    = length (written_to issue (dropped history));
}.

Lemma written_to_app issue h1 h2 : written_to issue (h1 ++ h2) = written_to issue h1 ++ written_to issue h2.
Proof. unfold written_to. by rewrite filter_app, fmap_app. Qed.

Lemma written_to_one issue (r : recorded) :
  written_to issue [r] = if decide (r.1 = issue) then [r.2] else [].
Proof. unfold written_to. rewrite filter_cons. by case_decide. Qed.

Lemma numbered_app b h1 h2 : numbered b (h1 ++ h2) = numbered b h1 ++ numbered (b ++ h1) h2.
Proof.
  revert b. induction h1 as [|r h1 IH]; intros b; cbn; [by rewrite app_nil_r|].
  rewrite IH. by rewrite <-app_assoc.
Qed.

Lemma length_numbered b h : length (numbered b h) = length h.
Proof. revert b. induction h as [|r h IH]; intros b; cbn; [done|]. by rewrite IH. Qed.

Lemma dropped_held h : dropped h ++ held h = h.
Proof. apply take_drop. Qed.

Lemma dropped_snoc h (r : recorded) :
  dropped (h ++ [r]) = take (S (length h) - _SELF_WRITE_RECEIPT_LIMIT) h
  ∧ held (h ++ [r]) = drop (S (length h) - _SELF_WRITE_RECEIPT_LIMIT) h ++ [r].
Proof.
  unfold dropped, held. rewrite length_app. cbn [length]. rewrite Nat.add_1_r.
  assert (S (length h) - _SELF_WRITE_RECEIPT_LIMIT ≤ length h) by (unfold _SELF_WRITE_RECEIPT_LIMIT; lia).
  split; [by rewrite take_app_le|by rewrite drop_app_le].
Qed.

Lemma length_held h : length (held h) = length h `min` _SELF_WRITE_RECEIPT_LIMIT.
Proof. unfold held. rewrite length_drop. lia. Qed.

(** The eviction keeps the agreement, one write short of the next. *)
Lemma evict_agrees l h (r : recorded) :
  ledger_agrees l h →
  (∀ issue, version_of (evict_oldest l) issue = length (written_to issue h))
  ∧ _mutations (evict_oldest l) = numbered (dropped (h ++ [r])) (drop (length (dropped (h ++ [r]))) h)
  ∧ ∀ issue, default 0 (dict_get (_discarded (evict_oldest l)) issue)
    = length (written_to issue (dropped (h ++ [r]))).
Proof.
  intros [Hv Hm Hd]. destruct (dropped_snoc h r) as [Ed _]. rewrite Ed.
  assert (length (_mutations l) = length h `min` _SELF_WRITE_RECEIPT_LIMIT) as Hlen.
  { by rewrite Hm, length_numbered, length_held. }
  unfold evict_oldest. case_decide as Hfull.
  - assert (_SELF_WRITE_RECEIPT_LIMIT ≤ length h) as Hle by lia.
    assert (∃ x, held h = x :: drop (S (length h) - _SELF_WRITE_RECEIPT_LIMIT) h
      ∧ take (S (length h) - _SELF_WRITE_RECEIPT_LIMIT) h = dropped h ++ [x]) as (x & Hx & Ht).
    { unfold held, dropped. rewrite Nat.sub_succ_l by done.
      destruct (drop (length h - _SELF_WRITE_RECEIPT_LIMIT) h) as [|x rest] eqn:E.
      { apply (f_equal length) in E. rewrite length_drop in E. unfold _SELF_WRITE_RECEIPT_LIMIT in *. cbn in E. lia. }
      assert (h !! (length h - _SELF_WRITE_RECEIPT_LIMIT) = Some x) as Hl.
      { rewrite <-(Nat.add_0_r (length h - _)), <-lookup_drop, E. done. }
      exists x. split; [|by apply take_S_r]. by rewrite (drop_S _ _ _ Hl) in E. }
    rewrite Hm, Hx. cbn [numbered _mutations version_of _versions _discarded]. rewrite Ht.
    split; [done|]. split.
    + f_equal. rewrite <-Ht, length_take. f_equal. unfold _SELF_WRITE_RECEIPT_LIMIT. lia.
    + intros issue. rewrite dict_get_set, written_to_app, written_to_one, length_app, <-Hd.
      destruct (decide (x.1 = issue)) as [E|E]; [|by rewrite Nat.add_0_r].
      subst issue. rewrite Hd. cbn. lia.
  - assert (length h < _SELF_WRITE_RECEIPT_LIMIT) as Hlt by lia.
    assert (S (length h) - _SELF_WRITE_RECEIPT_LIMIT = 0) as -> by lia.
    assert (dropped h = [] ∧ held h = h) as [Edr Eh].
    { unfold dropped, held. assert (length h - _SELF_WRITE_RECEIPT_LIMIT = 0) as -> by lia. done. }
    rewrite Edr in *. rewrite Eh in *. cbn [take length drop]. done.
Qed.

Lemma record_agrees l h (r : recorded) : ledger_agrees l h → ledger_agrees (record_mutation l r.1 r.2) (h ++ [r]).
Proof.
  intros (Hv & Hm & Hd)%(evict_agrees _ _ r). unfold record_mutation. cbv zeta.
  destruct (dropped_snoc h r) as [Ed Eh].
  constructor; cbn [version_of _versions _mutations _discarded].
  - intros issue. rewrite written_to_app, written_to_one, length_app, <-Hv. unfold version_of.
    cbn [_versions]. rewrite dict_get_set. destruct (decide (r.1 = issue)) as [->|E];
      [|by rewrite Nat.add_0_r]. unfold version_of. cbn. lia.
  - rewrite Hm, Eh, numbered_app. f_equal.
    + f_equal. rewrite Ed, length_take. f_equal. unfold _SELF_WRITE_RECEIPT_LIMIT. lia.
    + cbn [numbered]. do 2 f_equal. f_equal. f_equal. rewrite Hv. f_equal. f_equal.
      rewrite Ed. by rewrite take_drop.
  - exact Hd.
Qed.

Lemma ledger_of_agrees h : ledger_agrees (ledger_of h) h.
Proof.
  induction h as [|r h IH] using rev_ind; [by constructor|].
  unfold ledger_of. rewrite foldl_app. cbn. by apply record_agrees.
Qed.

(** The receipts kept of an issue after a cursor are the newest of those written. *)
Lemma numbered_after issue after b h :
  (λ r, r.2) <$> filter (λ r, r.1.1 = issue ∧ after < r.1.2) (numbered b h)
  = drop (after - length (written_to issue b)) (written_to issue h).
Proof.
  revert b. induction h as [|r h IH]; intros b; [by destruct (_ - _)|].
  assert (written_to issue (r :: h) = written_to issue [r] ++ written_to issue h) as ->
    by by rewrite <-written_to_app.
  cbn [numbered]. rewrite filter_cons. cbn [fst snd]. specialize (IH (b ++ [r])).
  rewrite written_to_app, written_to_one in IH. rewrite written_to_one.
  destruct (decide (r.1 = issue)) as [E|E].
  - subst issue. rewrite length_app in IH. cbn [length app] in *.
    destruct (decide (after ≤ length (written_to r.1 b))) as [Ha|Ha].
    + rewrite decide_True by (split; [done|lia]). cbn [fmap list_fmap snd]. f_equal.
      replace (after - length (written_to r.1 b)) with 0 by lia. cbn. f_equal.
      rewrite IH. by replace (after - (length (written_to r.1 b) + 1)) with 0 by lia.
    + rewrite decide_False by lia. rewrite IH.
      by replace (after - length (written_to r.1 b)) with (S (after - (length (written_to r.1 b) + 1))) by lia.
  - rewrite app_nil_r in IH. rewrite decide_False by tauto. exact IH.
Qed.

(** C35. Whatever a process wrote, in whatever order and over however many issues, the
    ledger keeps at most 256 receipts, an issue's cursor counts every write of it, and the
    receipts answered after a cursor are all the writes of the issue since, in order: the
    answer is that history is missing exactly when one of those writes was evicted or the
    cursor is past the last. *)
Theorem receipts_complete history issue after :
  let l := ledger_of history in
  length (_mutations l) ≤ _SELF_WRITE_RECEIPT_LIMIT
  ∧ (receipts l issue after).1 = length (written_to issue history)
  ∧ match (receipts l issue after).2 with
    | Some ms => after ≤ length (written_to issue history) ∧ ms = drop after (written_to issue history)
    | None => after < length (written_to issue (dropped history)) ∨ length (written_to issue history) < after
    end.
Proof.
  cbv zeta. destruct (ledger_of_agrees history) as [Hv Hm Hd]. split.
  { rewrite Hm, length_numbered, length_held. lia. }
  unfold receipts. rewrite Hv, Hd. case_decide as Ha; [done|]. cbn [fst snd]. split; [done|].
  split; [lia|]. rewrite Hm, numbered_after.
  rewrite <-(dropped_held history) at 3. rewrite written_to_app, drop_app_ge by lia. done.
Qed.

(** ** The replay (domain/self_writes.py) *)

(** [json], on values only the adapter reads: [json.loads], the elements of a list,
    [json.dumps] of a list in its one spelling, and Python's [==]. *)
Class JsonValues (J : Type) := {
  loads : string → option J;
  list_items : J → option (list J);
  dumps_list : list J → string;
  json_eq : J → J → bool;
}.

Definition dict_update {V} (d : pydict string V) (values : list (string * V)) : pydict string V :=
  foldl (λ d kv, dict_set d kv.1 kv.2) d values.

Section replay.
Context {J : Type} `{JsonValues J}.

(** [return False] is [Err None], an exception [Err (Some e)]. *)
Notation replaying := (result (option exn)).

Definition json_loads (text : string) : replaying J :=
  match loads text with Some v => Ok v | None => Err (Some (ValueError "JSONDecodeError")) end.

(** [if value not in held: held.append(value)] *)
Definition append_missing (items : list J) (encoded : string) : replaying (list J) :=
  value ← json_loads encoded;
  Ok (if existsb (json_eq value) items then items else items ++ [value]).

Definition replay_addition (fields : pydict string string) (a : string * list string) :
    replaying (pydict string string) :=
  match dict_get fields a.1 with
  | None => Err None
  | Some text =>
      value ← json_loads text;
      match list_items value with
      | None => Err None
      | Some items => items ← foldM append_missing items a.2; Ok (dict_set fields a.1 (dumps_list items))
      end
  end.

Definition replay_created (comments : pydict string FieldValues) (c : string * FieldValues) :
    replaying (pydict string FieldValues) :=
  if dict_mem comments c.1 then Err None else Ok (dict_set comments c.1 c.2).

(** [tuple(sorted({**dict(comments[key]), **dict(values)}.items()))] *)
Definition replay_edited (comments : pydict string FieldValues) (c : string * FieldValues) :
    replaying (pydict string FieldValues) :=
  match dict_get comments c.1 with
  | None => Err None
  | Some values => Ok (dict_set comments c.1 (sort_by id (dict_update (dict_of values) c.2)))
  end.

Definition replay_deleted (comments : pydict string FieldValues) (key : string) :
    replaying (pydict string FieldValues) :=
  if dict_mem comments key then Ok (dict_pop comments key) else Err None.

Definition replayed : Type := pydict string string * pydict string FieldValues.

Definition replay_mutation (s : replayed) (m : OwnMutation) : replaying replayed :=
  if existsb (λ kv, negb (bool_decide (dict_get s.1 kv.1 = Some kv.2))) (expected_fields m) then Err None
  else
    fields ← foldM replay_addition (dict_update s.1 (mutation_fields m)) (additions m);
    comments ← foldM replay_created s.2 (created m);
    comments ← foldM replay_edited comments (edited m);
    comments ← foldM replay_deleted comments (deleted m);
    Ok (fields, comments).

Definition matches_own_mutations (before after : IssueMovementSnapshot) (ms : list OwnMutation) :
    result exn bool :=
  if decide (moved_issue_key before ≠ moved_issue_key after ∨ ms = []) then Ok false
  else
    match foldM replay_mutation (dict_of (moved_fields before), dict_of (moved_comments before)) ms with
    | Err None => Ok false
    | Err (Some e) => Err e
    | Ok (fields, comments) =>
        Ok (bool_decide (sort_by id fields = moved_fields after)
            && bool_decide (sort_by id comments = moved_comments after))
    end.

(** *** What receipts can account for *)

(** The fields and comments a receipt says it wrote. *)
Definition names_field (m : OwnMutation) (key : string) : Prop :=
  key ∈ (mutation_fields m).*1 ∨ key ∈ (additions m).*1.
Definition names_comment (m : OwnMutation) (key : string) : Prop :=
  key ∈ (created m).*1 ∨ key ∈ (edited m).*1 ∨ key ∈ deleted m.

Lemma dict_update_other {V} (d : pydict string V) values key :
  key ∉ values.*1 → dict_get (dict_update d values) key = dict_get d key.
Proof.
  unfold dict_update. revert d. induction values as [|kv values IH]; intros d Hk; [done|].
  rewrite fmap_cons, not_elem_of_cons in Hk. cbn. rewrite IH by tauto.
  apply dict_get_set_ne. naive_solver.
Qed.

Lemma dict_update_NoDup {V} (d : pydict string V) values :
  NoDup (dict_keys d) → NoDup (dict_keys (dict_update d values)).
Proof.
  unfold dict_update. revert d. induction values as [|kv values IH]; intros d Hd; [done|].
  cbn. by apply IH, dict_set_NoDup.
Qed.

(** A loop that only sets or drops the keys it is given keeps the others. *)
Lemma foldM_other {E X V} (key_of : X → string) (f : pydict string V → X → result E (pydict string V)) :
  (∀ d x d', f d x = Ok d' → ∀ key, key ≠ key_of x → dict_get d' key = dict_get d key) →
  ∀ l d d', foldM f d l = Ok d' → ∀ key, key ∉ key_of <$> l → dict_get d' key = dict_get d key.
Proof.
  intros Hf l. induction l as [|x l IH]; intros d d'; cbn; [by intros [= ->]|].
  destruct (f d x) as [d1|e] eqn:Ed; [|done]. intros Hl key Hk. rewrite not_elem_of_cons in Hk.
  rewrite (IH _ _ Hl) by tauto. apply (Hf _ _ _ Ed). tauto.
Qed.

Lemma foldM_keys_NoDup {E X V} (f : pydict string V → X → result E (pydict string V)) :
  (∀ d x d', f d x = Ok d' → NoDup (dict_keys d) → NoDup (dict_keys d')) →
  ∀ l d d', foldM f d l = Ok d' → NoDup (dict_keys d) → NoDup (dict_keys d').
Proof. intros Hf l d d' Hl Hd. eapply (foldM_invariant (λ d, NoDup (dict_keys d))); eauto. Qed.

Lemma replay_addition_ok fields a fields' :
  replay_addition fields a = Ok fields' → ∃ text, fields' = dict_set fields a.1 text.
Proof.
  unfold replay_addition. destruct (dict_get _ _); [|done]. intros (v & _ & Hv)%bind_ok.
  destruct (list_items v); [|done]. apply bind_ok in Hv as (items & _ & [= <-]). by eexists.
Qed.

Lemma replay_created_ok comments c comments' :
  replay_created comments c = Ok comments' → comments' = dict_set comments c.1 c.2.
Proof. unfold replay_created. destruct (dict_mem _ _); [done|]. by intros [= <-]. Qed.

Lemma replay_edited_ok comments c comments' :
  replay_edited comments c = Ok comments' → ∃ values, comments' = dict_set comments c.1 values.
Proof. unfold replay_edited. destruct (dict_get _ _); [|done]. intros [= <-]. by eexists. Qed.

Lemma replay_deleted_ok comments key comments' :
  replay_deleted comments key = Ok comments' → comments' = dict_pop comments key.
Proof. unfold replay_deleted. destruct (dict_mem _ _); [|done]. by intros [= <-]. Qed.

(** One receipt leaves what it does not name as it was. *)
Lemma replay_mutation_ok s m s' :
  replay_mutation s m = Ok s' →
  (∀ key, ¬ names_field m key → dict_get s'.1 key = dict_get s.1 key)
  ∧ (∀ key, ¬ names_comment m key → dict_get s'.2 key = dict_get s.2 key)
  ∧ (NoDup (dict_keys s.1) → NoDup (dict_keys s'.1)) ∧ (NoDup (dict_keys s.2) → NoDup (dict_keys s'.2)).
Proof.
  unfold replay_mutation. destruct (existsb _ _); [done|].
  intros (fields & Hf & (c1 & H1 & (c2 & H2 & (c3 & H3 & [= <-])%bind_ok)%bind_ok)%bind_ok)%bind_ok.
  unfold names_field, names_comment. cbn [fst snd]. split; [|split; [|split]].
  - intros key Hk. rewrite (foldM_other fst replay_addition) with (l := additions m)
      (d := dict_update s.1 (mutation_fields m)) (d' := fields) (key := key);
      [apply dict_update_other; tauto| |done|tauto].
    intros d x d' (text & ->)%replay_addition_ok k Hne. by apply dict_get_set_ne.
  - intros key Hk.
    rewrite (foldM_other id replay_deleted) with (l := deleted m) (d := c2) (key := key);
      [| |done|rewrite list_fmap_id; tauto].
    2: { intros d x d' ->%replay_deleted_ok k Hne. by apply dict_get_pop_ne. }
    rewrite (foldM_other fst replay_edited) with (l := edited m) (d := c1) (key := key);
      [| |done|tauto].
    2: { intros d x d' (v & ->)%replay_edited_ok k Hne. by apply dict_get_set_ne. }
    rewrite (foldM_other fst replay_created) with (l := created m) (d := s.2) (key := key);
      [done| |done|tauto].
    intros d x d' ->%replay_created_ok k Hne. by apply dict_get_set_ne.
  - intros Hnd. eapply foldM_keys_NoDup; [|exact Hf|by apply dict_update_NoDup].
    intros d x d' (text & ->)%replay_addition_ok. apply dict_set_NoDup.
  - intros Hnd. eapply foldM_keys_NoDup; [|exact H3|].
    { intros d x d' ->%replay_deleted_ok. apply dict_pop_NoDup. }
    eapply foldM_keys_NoDup; [|exact H2|].
    { intros d x d' (v & ->)%replay_edited_ok. apply dict_set_NoDup. }
    eapply foldM_keys_NoDup; [|exact H1|done].
    intros d x d' ->%replay_created_ok. apply dict_set_NoDup.
Qed.

Lemma replay_all ms s s' :
  foldM replay_mutation s ms = Ok s' →
  (∀ key, (∀ m, m ∈ ms → ¬ names_field m key) → dict_get s'.1 key = dict_get s.1 key)
  ∧ (∀ key, (∀ m, m ∈ ms → ¬ names_comment m key) → dict_get s'.2 key = dict_get s.2 key)
  ∧ (NoDup (dict_keys s.1) → NoDup (dict_keys s'.1)) ∧ (NoDup (dict_keys s.2) → NoDup (dict_keys s'.2)).
Proof.
  revert s. induction ms as [|m ms IH]; intros s; cbn; [by intros [= ->]|].
  destruct (replay_mutation s m) as [s1|e] eqn:E; [|done]. intros Hs.
  destruct (IH _ Hs) as (Hf & Hc & Hn1 & Hn2). destruct (replay_mutation_ok _ _ _ E) as (Hf' & Hc' & Hn1' & Hn2').
  split; [|split; [|split]]; [| |by auto..].
  - intros key Hk. rewrite Hf by set_solver. apply Hf'. set_solver.
  - intros key Hk. rewrite Hc by set_solver. apply Hc'. set_solver.
Qed.

(** *** What receipts say a key holds *)

(** What one receipt makes of one field: the last text it wrote to it, and then each
    addition to the list the text spells. *)
Definition set_said {V} (key : string) (held : option V) (kv : string * V) : option V :=
  if decide (kv.1 = key) then Some kv.2 else held.
Definition latest {V} (key : string) (values : list (string * V)) (held : option V) : option V :=
  foldl (set_said key) held values.
Definition appended (encoded : list string) (text : string) : option string :=
  match (value ← json_loads text;
         match list_items value with
         | None => Err None
         | Some items => items ← foldM append_missing items encoded; Ok (dumps_list items)
         end) with
  | Ok text => Some text
  | Err _ => None
  end.
Definition addition_said (key : string) (held : option string) (a : string * list string) : option string :=
  if decide (a.1 = key) then held ≫= appended a.2 else held.
Definition field_said (key : string) (held : option string) (m : OwnMutation) : option string :=
  foldl (addition_said key) (latest key (mutation_fields m) held) (additions m).
(** And of one comment: created as given, then each edit over what it held, or gone. *)
Definition edited_by (values : FieldValues) (held : FieldValues) : FieldValues :=
  sort_by id (dict_update (dict_of held) values).
Definition edit_said (key : string) (held : option FieldValues) (c : string * FieldValues) : option FieldValues :=
  if decide (c.1 = key) then edited_by c.2 <$> held else held.
Definition comment_said (key : string) (held : option FieldValues) (m : OwnMutation) : option FieldValues :=
  let written := foldl (edit_said key) (latest key (created m) held) (edited m) in
  if decide (key ∈ deleted m) then None else written.

(** Each receipt was written over what it expected. *)
Fixpoint expectations (held : string → option string) (ms : list OwnMutation) : Prop :=
  match ms with
  | [] => True
  | m :: ms => (∀ kv, kv ∈ expected_fields m → held kv.1 = Some kv.2)
               ∧ expectations (λ key, field_said key (held key) m) ms
  end.
Lemma expectations_ext ms held held' :
  (∀ key, held key = held' key) → expectations held ms → expectations held' ms.
Proof.
  revert held held'. induction ms as [|m ms IH]; intros held held' He; [done|]. intros [Hm Hms]. split.
  - intros kv Hkv. rewrite <-He. by apply Hm.
  - eapply IH; [|done]. intros key. cbn. by rewrite He.
Qed.

Lemma foldM_said {E X V} (f : pydict string V → X → result E (pydict string V)) (said : string → option V → X → option V) :
  (∀ d x d' key, f d x = Ok d' → dict_get d' key = said key (dict_get d key) x) →
  ∀ l d d' key, foldM f d l = Ok d' → dict_get d' key = foldl (said key) (dict_get d key) l.
Proof.
  intros Hf l. induction l as [|x l IH]; intros d d' key; cbn; [by intros [= ->]|].
  destruct (f d x) as [d1|e] eqn:Ed; [|done]. intros Hl. rewrite (IH _ _ _ Hl). by rewrite (Hf _ _ _ key Ed).
Qed.

Lemma dict_update_said {V} (d : pydict string V) values key :
  dict_get (dict_update d values) key = latest key values (dict_get d key).
Proof.
  unfold dict_update, latest. revert d. induction values as [|kv values IH]; intros d; [done|].
  cbn. rewrite IH. unfold set_said at 3. by rewrite dict_get_set.
Qed.
Lemma replay_addition_said fields a fields' key :
  replay_addition fields a = Ok fields' →
  dict_get fields' key = addition_said key (dict_get fields key) a.
Proof.
  unfold replay_addition, addition_said, appended. destruct (dict_get fields a.1) as [text|] eqn:Et; [|done].
  intros (v & Hv & Hl)%bind_ok. case_decide as Hk.
  - subst key. rewrite Et. cbn. rewrite Hv. cbn [mbind result_bind].
    destruct (list_items v) as [items|]; [|done]. apply bind_ok in Hl as (items' & -> & [= <-]).
    cbn. by rewrite dict_get_set_eq.
  - destruct (list_items v) as [items|]; [|done]. apply bind_ok in Hl as (items' & _ & [= <-]).
    by rewrite dict_get_set_ne.
Qed.
Lemma replay_deleted_said l (d d' : pydict string FieldValues) key :
  NoDup (dict_keys d) → foldM replay_deleted d l = Ok d' →
  dict_get d' key = if decide (key ∈ l) then None else dict_get d key.
Proof.
  intros Hnd Hl. case_decide as Hk.
  2:{ by rewrite (foldM_other id replay_deleted) with (l := l) (d := d) (key := key);
      [|intros d0 x d0' ->%replay_deleted_ok k Hne; by apply dict_get_pop_ne| |rewrite list_fmap_id]. }
  revert d Hnd Hl. induction l as [|x l IH]; intros d Hnd; [by apply elem_of_nil in Hk|]. cbn.
  destruct (replay_deleted d x) as [d1|e] eqn:E; [|done]. intros Hl. apply replay_deleted_ok in E as ->.
  assert (NoDup (dict_keys (dict_pop d x))) as Hnd1 by by apply dict_pop_NoDup.
  destruct (decide (key ∈ l)) as [Hin|Hin]; [by eapply IH|].
  apply elem_of_cons in Hk as [->|Hk]; [|done].
  rewrite (foldM_other id replay_deleted) with (l := l) (d := dict_pop d x) (key := x);
    [apply dict_get_pop_eq|intros d0 y d0' ->%replay_deleted_ok k Hne; by apply dict_get_pop_ne|done|by rewrite list_fmap_id].
Qed.

(** One receipt makes of every key what it says. *)
Lemma replay_mutation_said s m s' :
  NoDup (dict_keys s.2) → replay_mutation s m = Ok s' →
  (∀ kv, kv ∈ expected_fields m → dict_get s.1 kv.1 = Some kv.2)
  ∧ (∀ key, dict_get s'.1 key = field_said key (dict_get s.1 key) m)
  ∧ (∀ key, dict_get s'.2 key = comment_said key (dict_get s.2 key) m).
Proof.
  intros Hnd. unfold replay_mutation. destruct (existsb _ _) eqn:Ex; [done|].
  intros (fields & Hf & (c1 & Hc1 & (c2 & Hc2 & (c3 & Hc3 & [= <-])%bind_ok)%bind_ok)%bind_ok)%bind_ok.
  cbn [fst snd]. split; [|split].
  - intros kv Hkv. destruct (decide (dict_get s.1 kv.1 = Some kv.2)) as [|Hne]; [done|]. exfalso.
    enough (existsb (λ kv, negb (bool_decide (dict_get s.1 kv.1 = Some kv.2))) (expected_fields m) = true) by congruence.
    apply existsb_exists. exists kv. split; [by apply list_elem_of_In|]. by rewrite bool_decide_false.
  - intros key. unfold field_said. rewrite <-dict_update_said.
    apply (foldM_said replay_addition addition_said); [|done].
    intros d x d' k. apply replay_addition_said.
  - intros key. unfold comment_said. cbv zeta.
    assert (NoDup (dict_keys c2)) as Hnd2.
    { eapply foldM_keys_NoDup; [|exact Hc2|].
      { intros d x d' (v & ->)%replay_edited_ok. apply dict_set_NoDup. }
      eapply foldM_keys_NoDup; [|exact Hc1|done]. intros d x d' ->%replay_created_ok. apply dict_set_NoDup. }
    rewrite (replay_deleted_said _ _ _ key Hnd2 Hc3). case_decide; [done|].
    rewrite (foldM_said replay_edited edit_said)
      with (l := edited m) (d := c1); [| |done].
    2:{ intros d x d' k. unfold replay_edited. destruct (dict_get d x.1) as [held|] eqn:Eh; [|done].
        intros [= <-]. unfold edit_said. rewrite dict_get_set. case_decide; [subst k; by rewrite Eh|done]. }
    unfold latest.
    rewrite (foldM_said replay_created set_said)
      with (l := created m) (d := s.2); [done| |done].
    intros d x d' k ->%replay_created_ok. unfold set_said. by rewrite dict_get_set.
Qed.

Lemma replay_said ms s s' :
  NoDup (dict_keys s.2) → foldM replay_mutation s ms = Ok s' →
  expectations (dict_get s.1) ms
  ∧ (∀ key, dict_get s'.1 key = foldl (field_said key) (dict_get s.1 key) ms)
  ∧ (∀ key, dict_get s'.2 key = foldl (comment_said key) (dict_get s.2 key) ms).
Proof.
  revert s. induction ms as [|m ms IH]; intros s Hnd; cbn; [by intros [= ->]|].
  destruct (replay_mutation s m) as [s1|e] eqn:E; [|done]. intros Hs.
  destruct (replay_mutation_ok _ _ _ E) as (_ & _ & _ & Hn2).
  apply replay_mutation_said in E as (Hx & Hf & Hc); [|done].
  destruct (IH s1) as (Hx' & Hf' & Hc'); [by apply Hn2|done|]. split; [split; [done|]|split].
  - eapply expectations_ext; [|done]. intros key. by rewrite Hf.
  - intros key. by rewrite Hf', Hf.
  - intros key. by rewrite Hc', Hc.
Qed.

Lemma dict_get_perm {V} (d d' : pydict string V) key :
  d ≡ₚ d' → NoDup (dict_keys d) → dict_get d key = dict_get d' key.
Proof.
  intros Hp Hnd. assert (NoDup (dict_keys d')) as Hnd' by (unfold dict_keys; by rewrite <-Hp).
  destruct (dict_get d key) as [v|] eqn:E.
  - symmetry. apply dict_get_NoDup; [done|]. rewrite <-Hp. by apply dict_get_elem.
  - symmetry. apply dict_get_None. apply dict_get_None in E. unfold dict_keys in *. by rewrite <-Hp.
Qed.

Lemma dict_of_keys_NoDup {V} (l : list (string * V)) : NoDup (dict_keys (dict_of l)).
Proof. apply (dict_update_NoDup [] l). constructor. Qed.

(** Own receipts never stand for a change they do not name, nor for another value of one
    they do: when a replay explains what an issue has become, there were receipts, each over
    what it expected, and every field and every comment of the later snapshot holds exactly
    what the receipts, in their order, make of what it held in the earlier, so that those
    no receipt names are as they were. *)
Lemma matches_own_mutations_sound before after ms :
  matches_own_mutations before after ms = Ok true →
  ms ≠ [] ∧ moved_issue_key before = moved_issue_key after
  ∧ expectations (dict_get (dict_of (moved_fields before))) ms
  ∧ (∀ key, dict_get (moved_fields after) key
       = foldl (field_said key) (dict_get (dict_of (moved_fields before)) key) ms)
  ∧ (∀ key, dict_get (moved_comments after) key
       = foldl (comment_said key) (dict_get (dict_of (moved_comments before)) key) ms)
  ∧ (∀ key, (∀ m, m ∈ ms → ¬ names_field m key) →
       dict_get (moved_fields after) key = dict_get (dict_of (moved_fields before)) key)
  ∧ (∀ key, (∀ m, m ∈ ms → ¬ names_comment m key) →
       dict_get (moved_comments after) key = dict_get (dict_of (moved_comments before)) key).
Proof.
  unfold matches_own_mutations. case_decide as Hk; [done|].
  destruct (foldM _ _ _) as [[fields comments]|[e|]] eqn:E; [|done..].
  intros [= [Hf%bool_decide_eq_true_1 Hc%bool_decide_eq_true_1]%andb_true_iff].
  destruct (replay_all _ _ _ E) as (Hfs & Hcs & Hn1 & Hn2).
  apply replay_said in E as (Hx & Hfa & Hca); [|apply dict_of_keys_NoDup]. cbn [fst snd] in *.
  specialize (Hn1 (dict_of_keys_NoDup _)). specialize (Hn2 (dict_of_keys_NoDup _)).
  assert (moved_issue_key before = moved_issue_key after).
  { destruct (decide (moved_issue_key before = moved_issue_key after)); [done|]. destruct Hk. by left. }
  assert (∀ key, dict_get (moved_fields after) key = dict_get fields key) as Ef.
  { intros key. rewrite <-Hf. symmetry. apply dict_get_perm; [|done]. symmetry. apply sort_by_perm. }
  assert (∀ key, dict_get (moved_comments after) key = dict_get comments key) as Ec.
  { intros key. rewrite <-Hc. symmetry. apply dict_get_perm; [|done]. symmetry. apply sort_by_perm. }
  setoid_rewrite Ef. setoid_rewrite Ec. split_and!; try done. tauto.
Qed.
End replay.

(** ** Concrete snapshots *)

(** A text that stands for itself, read as no list. *)
#[export] Instance text_values : JsonValues string := {|
  loads s := Some s; list_items _ := None; dumps_list := join ","; json_eq := String.eqb |}.

Definition sample_snapshot (at_time : Z) (fields : FieldValues) : IssueMovementSnapshot := {|
  moved_issue_key := "K-1"; moved_updated_at := at_time; moved_fields := fields;
  moved_comments := [("c1", [("body", "hello")])] |}.

Definition state_written (value : string) : OwnMutation := {|
  mutation_fields := [("state", value)]; expected_fields := []; additions := []; created := [];
  edited := []; deleted := [] |}.
