(* ===== verification/Organize.v ===== *)
(** * The organize table (types/domain/organize.py).

    The phases of a scope's organization: what an operation configures of each, what the
    lane fixes of each, and the references by which a row names its labels. *)

From Stdlib Require Import Ascii.
From S2P Require Import Prelude PyStr Tracker.

Local Open Scope nat_scope.

(** types/domain/prompts.py *)
Inductive PromptKey :=
| BRANCH_NAME | TICKET_CREATE | TICKET_REVIEW | TICKET_REVISION | ACCEPTANCE_CRITERIA
| CRITERIA_VALIDATION | IMPLEMENTATION | NATIVE_WRITER_CONTRACT | AMENDMENT_JUDGE
| AMENDMENT_AUTHOR | EVALUATION | BASE_CHECK | ITERATION_FEEDBACK | POST_MERGE_REVIEW | FIX
| REMEDIATION_TICKET | COMMIT_MESSAGE | PR_DESCRIPTION | FIRE_PREP_PASS | GROOMING_PASS
| PASS_GATE | SCOPE_SCAN | SCOPE_DONE | CONTENT_AUDIT | ORGANIZE_ASSESS | ORGANIZE_AUTHOR
| ORGANIZE_VERIFY | WRITE_BACK_VERIFY | AUDIT_CLAIM | AUDIT_OVERCLAIM | AUDIT_MANDATE
| AUDIT_DETECTION_REMOVAL | ORGANIZE_CRITERIA_AUTHOR | ORGANIZE_SPEC_RUBRIC | ORGANIZE_SESSION
| KNOWLEDGE_MAP | FIRE_RECORD | FIRE_TIME_RULING | MUTATION_SURVIVAL.
#[export] Instance PromptKey_eq_dec : EqDecision PromptKey.
Proof. solve_decision. Defined.

Inductive MandateKind := TICKET | CRITERIA.
#[export] Instance MandateKind_eq_dec : EqDecision MandateKind.
Proof. solve_decision. Defined.
Definition mandate_kind_value (k : MandateKind) : string :=
  match k with TICKET => "ticket" | CRITERIA => "criteria" end.

Inductive OrganizeLabelNamespace := NS_SCOPE | NS_ISSUE.
#[export] Instance OrganizeLabelNamespace_eq_dec : EqDecision OrganizeLabelNamespace.
Proof. solve_decision. Defined.
Definition namespace_value (n : OrganizeLabelNamespace) : string :=
  match n with NS_SCOPE => "scope_labels" | NS_ISSUE => "issue_labels" end.

(** [s.partition(c)]: what is before the first [c] and after it; [None] without one. *)
Fixpoint partition_char (c : Ascii.ascii) (s : string) : option (string * string) :=
  match s with
  | EmptyString => None
  | String a s =>
      if Ascii.ascii_dec a c then Some ("", s)
      else match partition_char c s with
           | Some (before, after) => Some (String a before, after)
           | None => None
           end
  end.

Definition dot : ascii := ".".

(** The reason a reference cannot be read: no namespace or key, or an unknown namespace. *)
Inductive label_refusal := NoNamespaceOrKey | UnknownNamespace (namespace : string).

Definition split_label_key (reference : string) :
    result label_refusal (OrganizeLabelNamespace * string) :=
  match partition_char dot reference with
  | None => Err NoNamespaceOrKey
  | Some (namespace, key) =>
      if str_blank key then Err NoNamespaceOrKey
      else if decide (namespace = namespace_value NS_SCOPE) then Ok (NS_SCOPE, key)
      else if decide (namespace = namespace_value NS_ISSUE) then Ok (NS_ISSUE, key)
      else Err (UnknownNamespace namespace)
  end.

(** One phase as an operation configures it. *)
Record MandateSpec := {
  mandate_kind : MandateKind;
  gate_label_key : string;
  rubric_prompt_key : PromptKey;
  admission_prompt_key : PromptKey;
  terminal_marker_key : string;
}.

(** The validators of a row: both references are qualified, and a phase ends on an issue's
    marker. *)
Definition mandate_spec_valid (spec : MandateSpec) : bool :=
  is_ok (split_label_key (gate_label_key spec))
  && match split_label_key (terminal_marker_key spec) with
     | Ok (NS_ISSUE, _) => true
     | _ => false
     end.

(** One phase as the lane fixes it. *)
Record MandatePhaseRole := {
  author_prompt_key : PromptKey;
  marks_specification_body : bool;
  marks_execution_stage : bool;
  runs_under_approval : bool;
  write_surfaces : gset SurfaceKind;
  prompt_phase : string;
}.

(** The governed sequence of phases is the order of this table. *)
Definition MANDATE_PHASE_ROLES : pydict MandateKind MandatePhaseRole :=
  [(TICKET,
    {| author_prompt_key := ORGANIZE_AUTHOR; marks_specification_body := true;
       marks_execution_stage := false; runs_under_approval := true; prompt_phase := "phase_ticket";
       write_surfaces := {[ ISSUE_DESCRIPTION; ISSUE_SPLIT_SET; ISSUE_LABEL_SET ]} |});
   (CRITERIA,
    {| author_prompt_key := ORGANIZE_CRITERIA_AUTHOR; marks_specification_body := false;
       marks_execution_stage := true; runs_under_approval := true; prompt_phase := "phase_criteria";
       write_surfaces := {[ CRITERION_CHILD_SET; ISSUE_LABEL_SET ]} |})].

Definition phase_sequence : list MandateKind := dict_keys MANDATE_PHASE_ROLES.

(** [MANDATE_PHASE_ROLES[kind]]: every kind has its row. *)
Definition phase_role (k : MandateKind) : MandatePhaseRole :=
  default {| author_prompt_key := ORGANIZE_AUTHOR; marks_specification_body := false;
             marks_execution_stage := false; runs_under_approval := false; write_surfaces := ∅;
             prompt_phase := "" |} (dict_get MANDATE_PHASE_ROLES k).

(** [sequence.index(kind)] *)
Definition phase_index (k : MandateKind) : nat :=
  match list_find (.= k) phase_sequence with Some (i, _) => i | None => 0 end.

Definition phase_marker_source (phase : string) : string :=
  "organize_mandates." +:+ phase +:+ ".terminal_marker_key".

Definition phase_successor (phase : MandateKind) : option MandateKind :=
  phase_sequence !! S (phase_index phase).

Record ResolvedMandateSpec := {
  resolved_spec : MandateSpec;
  gate_label : string;
  terminal_marker : string;
  phase_role_of : MandatePhaseRole;
  marker_source : string;
}.

(** ** The sequence *)

Lemma phase_role_found k : dict_get MANDATE_PHASE_ROLES k = Some (phase_role k).
Proof. by destruct k. Qed.

Lemma phase_sequence_all k : k ∈ phase_sequence.
Proof. apply (bool_decide_unpack _). by destruct k. Qed.

Lemma phase_sequence_NoDup : NoDup phase_sequence.
Proof. by apply (bool_decide_unpack _). Qed.

Lemma phase_index_inj k k' : phase_index k = phase_index k' → k = k'.
Proof. by destruct k, k'. Qed.

Lemma phase_under_approval k : runs_under_approval (phase_role k) = true.
Proof. by destruct k. Qed.

Lemma partition_char_spec c s before after :
  partition_char c s = Some (before, after) →
  s = before +:+ String c after ∧ str_all (λ a, negb (bool_decide (a = c))) before = true.
Proof.
  revert before. induction s as [|a s IH]; intros before; cbn [partition_char]; [done|].
  destruct (Ascii.ascii_dec a c) as [->|Hne]; [by intros [= <- <-]|].
  destruct (partition_char c s) as [[b r]|]; [|done]. intros [= <- <-].
  destruct (IH b eq_refl) as [-> Hall]. split; [done|]. cbn. rewrite Hall, andb_true_r.
  by rewrite bool_decide_eq_false_2.
Qed.

(** A reference that is read was spelled with its namespace. *)
Lemma split_label_key_ok reference n key :
  split_label_key reference = Ok (n, key) →
  reference = namespace_value n +:+ "." +:+ key ∧ str_blank key = false.
Proof.
  unfold split_label_key. destruct (partition_char dot reference) as [[b a]|] eqn:E; [|done].
  apply partition_char_spec in E as [-> _].
  destruct (str_blank a) eqn:Eb; [done|]. repeat case_decide; try done; intros [= <- <-]; by subst.
Qed.
