(* ===== verification/Privacy.v ===== *)
(** * Private surfaces (types/domain/privacy.py).

    The hosts and workspaces a deployment declares private, and the validators that bring
    each to one spelling. *)

From Stdlib Require Import Ascii.
From S2P Require Import Prelude PyStr PyLines.

(** pydantic's [AnyHttpUrl]: the parts it reads from an address, or its refusal. *)
Record HttpUrl := {
  url_host : option string;
  url_username : option string;
  url_password : option string;
  url_path : option string;
  url_query : option string;
  url_fragment : option string;
}.
Class HttpUrls := validate_http_url : string → option HttpUrl.
(** [str.casefold], a table of Unicode's. *)
Class CaseFold := casefold : string → string.

(** [any(c in value for c in ...)] *)
Definition holds_any (chars : list ascii) (value : string) : bool :=
  negb (str_all (λ c, negb (bool_decide (c ∈ chars))) value).

Record PrivateSurface := {
  description : string;
  private_hosts : list string;
  private_workspaces : pydict string (list string);
}.

(** What a configuration's text gives: prose, or the facts. *)
Definition private_value : Type := string + PrivateSurface.
Definition _migrate_private_description (value : private_value) : PrivateSurface :=
  match value with
  | inl text => {| description := text; private_hosts := []; private_workspaces := [] |}
  | inr facts => facts
  end.

Section privacy.
Context `{HttpUrls} `{CaseFold}.

Definition normalized_host (value : string) : option string :=
  url ← validate_http_url ("https://" +:+ value);
  host ← url_host url;
  if negb (bool_decide (url_username url = None)) || negb (bool_decide (url_password url = None))
     || negb (bool_decide (url_path url = Some "/")) || negb (bool_decide (url_query url = None))
     || negb (bool_decide (url_fragment url = None))
     || holds_any [":"%char] value || holds_any ["/"%char] value
     || negb (bool_decide (value = strip value))
  then None else Some (rstrip_char "."%char host).

Definition normalized_workspace (value : string) : option string :=
  if bool_decide (value = "") || negb (bool_decide (value = strip value))
     || holds_any ["/"; "\"; "?"; "#"; "%"]%char value
  then None else Some (casefold value).

(** [_host_aliases_do_not_overwrite_facts]: two spellings of one host are refused. *)
Definition hosts_distinct (value : pydict string (list string)) : option (list string) :=
  hosts ← mapM normalized_host (dict_keys value);
  if decide (NoDup hosts) then Some hosts else None.

(** [PrivateSurface.model_validate] *)
Definition validate_surface (given : PrivateSurface) : option PrivateSurface :=
  hosts ← mapM normalized_host (private_hosts given);
  holders ← hosts_distinct (private_workspaces given);
  named ← mapM (mapM normalized_workspace) (dict_values (private_workspaces given));
  Some {| description := description given; private_hosts := hosts;
          private_workspaces := zip holders named |}.

(** No host is protected under two spellings, and prose keeps its exact text. *)
Lemma validate_surface_hosts given p :
  validate_surface given = Some p →
  NoDup (dict_keys (private_workspaces p))
  ∧ length (private_workspaces p) = length (private_workspaces given)
  ∧ description p = description given.
Proof.
  unfold validate_surface, hosts_distinct. intros E.
  apply bind_Some in E as (hosts & _ & E). apply bind_Some in E as (holders & Hh & E).
  apply bind_Some in E as (named & Hn & [= <-]). apply bind_Some in Hh as (hs & Hm & Hd).
  destruct (decide (NoDup hs)) as [Hnd|]; [injection Hd as ->|done]. cbn.
  apply mapM_Some, Forall2_length in Hm, Hn. unfold dict_keys, dict_values in *. rewrite !length_fmap in Hm. rewrite !length_fmap in Hn.
  rewrite fst_zip by lia. split; [done|]. split; [|done]. rewrite length_zip. lia.
Qed.
Lemma validate_prose text :
  validate_surface (_migrate_private_description (inl text)) = Some (_migrate_private_description (inl text)).
Proof. done. Qed.
End privacy.
