(* ===== verification/Operation.v ===== *)
(** * The configuration of an operation (types/domain/operation.py).

    What an operation declares: who may approve, the boards it scans and the repositories
    it fires into with the routing between them, the labels and states its members are
    spelled with, the table of what each run event does to a workflow state, the phases of
    a scope's organization, its documents and records. The validators of each entry are
    here; what must agree between the entries is [OperationLoad]. *)

From Stdlib Require Import Ascii.
From S2P Require Import Prelude PyStr CheckChain Tracker Errors CommentMarkers RunEvents Organize.
From S2P Require Import Privacy.

(** types/domain/gating.py *)
Inductive RepoVisibility := PRIVATE | PUBLIC | UNKNOWN.
#[export] Instance RepoVisibility_eq_dec : EqDecision RepoVisibility.
Proof. solve_decision. Defined.

Inductive DocumentSystem := SYSTEM_TRACKER | SYSTEM_KNOWLEDGE.
#[export] Instance DocumentSystem_eq_dec : EqDecision DocumentSystem.
Proof. solve_decision. Defined.

(** The kinds of run an operation records. *)
Inductive RunKind := RUN_FIRE_PREP | RUN_GROOMING | RUN_FIRE | RUN_AUDIT.
#[export] Instance RunKind_eq_dec : EqDecision RunKind.
Proof. solve_decision. Defined.
Definition run_kind_value (k : RunKind) : string :=
  match k with
  | RUN_FIRE_PREP => "fire_prep" | RUN_GROOMING => "grooming" | RUN_FIRE => "fire"
  | RUN_AUDIT => "audit"
  end.
Definition RUN_KINDS : list RunKind := [RUN_FIRE_PREP; RUN_GROOMING; RUN_FIRE; RUN_AUDIT].

Inductive PrincipalRole := APPROVER | PRINCIPAL | ASSIGNEE.
#[export] Instance PrincipalRole_eq_dec : EqDecision PrincipalRole.
Proof. solve_decision. Defined.
#[export] Program Instance PrincipalRole_finite : finite.Finite PrincipalRole :=
  {| finite.enum := [APPROVER; PRINCIPAL; ASSIGNEE] |}.
Next Obligation. by apply (bool_decide_unpack _). Qed.
Next Obligation. intros []; by apply (bool_decide_unpack _). Qed.

Definition queue_state_value (q : QueueState) : string :=
  match q with
  | Q_TRIAGE => "triage" | Q_PROPOSED => "proposed" | Q_APPROVED => "approved" | Q_DONE => "done"
  | Q_DECISION => "decision"
  end.

Inductive ScopeLabel := LABEL_TRIAGE | LABEL_PROPOSED | LABEL_APPROVED.
#[export] Instance ScopeLabel_eq_dec : EqDecision ScopeLabel.
Proof. solve_decision. Defined.
Definition scope_label_value (l : ScopeLabel) : string :=
  match l with
  | LABEL_TRIAGE => "triage" | LABEL_PROPOSED => "proposed" | LABEL_APPROVED => "approved"
  end.
Definition SCOPE_LABELS : list ScopeLabel := [LABEL_TRIAGE; LABEL_PROPOSED; LABEL_APPROVED].

(** [label == scope_labels.get("approved")] *)
Definition aliases_approval_member (label : string) (scope_labels : pydict string string) : bool :=
  bool_decide (dict_get scope_labels (scope_label_value LABEL_APPROVED) = Some label).

Inductive LifecycleStage := IN_PROGRESS | IN_REVIEW | DONE.
#[export] Instance LifecycleStage_eq_dec : EqDecision LifecycleStage.
Proof. solve_decision. Defined.
Definition LIFECYCLE_STAGES : list LifecycleStage := [IN_PROGRESS; IN_REVIEW; DONE].

Record Principal := {
  tracker_user : string;
  principal_roles : gset PrincipalRole;
  principal_handle : string;
  forge_handle : option string;
}.

Record TeamEntry := {
  team_name : string;
  team_short_key : string;
  repository : option string;
  team_scope : list string;
  visibility : option RepoVisibility;
}.

Record RepoEntry := {
  repo_entry_url : string;
  trunk : string;
  checks : list CheckStep;
  runner_environment : pydict CheckPrerequisite bool;
  forge_exempt : bool;
}.

Record DocumentEntry := {
  document_system : DocumentSystem;
  document_name : string;
  document_id : option string;
  document_container : option string;
}.

(** A document in the knowledge system declares its id. *)
Definition document_valid (d : DocumentEntry) : bool :=
  negb (bool_decide (document_name d = ""))
  && negb (bool_decide (document_system d = SYSTEM_KNOWLEDGE ∧ document_id d = None)).

(** *** Record destinations *)

Record RecordOutcomeMapping := { outcome_property : string; outcome_options : pydict string string }.

(** [key.partition(".")] names a source, [run] or [workflow], and an outcome. *)
Definition outcome_mapping_valid (m : RecordOutcomeMapping) : bool :=
  negb (str_blank (outcome_property m))
  && forallb (λ kv, match partition_char dot kv.1 with
                    | Some (source, outcome) =>
                        bool_decide (source ∈ ["run"; "workflow"]) && negb (str_blank outcome)
                        && negb (str_blank kv.2)
                    | None => false
                    end) (outcome_options m).

Inductive RecordDurationUnit := SECONDS | MINUTES.

Record RecordColumns := {
  column_repo : string; column_pr_url : string; column_base_branch : string;
  column_started : string; column_ended : string; column_duration : string;
  duration_unit : RecordDurationUnit;
  column_iterations : string; column_what_happened : string;
  repo_options : pydict string string;
}.

Definition property_names (c : RecordColumns) : list string :=
  [column_repo c; column_pr_url c; column_base_branch c; column_started c; column_ended c;
   column_duration c; column_iterations c; column_what_happened c].

Definition columns_valid (c : RecordColumns) : bool :=
  forallb (λ n, negb (str_blank n)) (property_names c)
  && bool_decide (NoDup (property_names c))
  && forallb (λ kv, negb (str_blank kv.1) && negb (str_blank kv.2)) (repo_options c).

Record RecordDestination := {
  destination_system : DocumentSystem;
  destination_name : string;
  destination_id : string;
  append_only : bool;
  outcome_mapping : option RecordOutcomeMapping;
  record_columns : option RecordColumns;
}.

Definition destination_valid (d : RecordDestination) : bool :=
  negb (bool_decide (destination_name d = ""))
  && forallb outcome_mapping_valid (option_list (outcome_mapping d))
  && forallb columns_valid (option_list (record_columns d))
  && match outcome_mapping d, record_columns d with
     | None, None => true
     | _, _ => bool_decide (destination_system d = SYSTEM_KNOWLEDGE)
     end
  && match outcome_mapping d, record_columns d with
     | Some m, Some c => negb (bool_decide (outcome_property m ∈ property_names c))
     | _, _ => true
     end.

(** Whether a row of this kind is written from declared structure. *)
Definition records_structured (d : RecordDestination) (kind : RunKind) : bool :=
  match outcome_mapping d with
  | Some _ => true
  | None => bool_decide (kind = RUN_FIRE) && match record_columns d with Some _ => true | None => false end
  end.

Record OrganizeScopeBinding := {
  binding_scope : ScopeRef;
  binding_repo_url : string;
  report_issue_key : option string;
}.

(** The stage an event moves its issue to, or one of the two effects that move nothing. *)
Definition event_effect : Type := LifecycleStage + RunEventEffect.

Record OperationConfig := {
  operation_name : string;
  config_workspace : string;
  principals : list Principal;
  agent_identities : list string;
  teams : pydict string TeamEntry;
  queue_state_labels : pydict string string;
  scope_labels : pydict string string;
  config_issue_labels : pydict string string;
  organize_mandates : list MandateSpec;
  organize_scopes : list OrganizeScopeBinding;
  workflow_states : pydict LifecycleStage string;
  run_event_states : pydict string event_effect;
  marker_prefixes : pydict string string;
  repos : list RepoEntry;
  documents : pydict string DocumentEntry;
  record_destinations : pydict string RecordDestination;
  knowledge : pydict string string;
  endpoints : pydict string string;
  private_surface : option PrivateSurface;
}.

(** An operation that declares boards and repositories alone: every other collection
    defaults empty. *)
Definition boards_operation (boards : pydict string TeamEntry) (declared : list RepoEntry) :
    OperationConfig := {|
  operation_name := "operation"; config_workspace := "workspace"; principals := []; agent_identities := [];
  teams := boards; queue_state_labels := []; scope_labels := []; config_issue_labels := [];
  organize_mandates := []; organize_scopes := []; workflow_states := []; run_event_states := [];
  marker_prefixes := []; repos := declared; documents := []; record_destinations := [];
  knowledge := []; endpoints := []; private_surface := None |}.

Definition plain_team (name : string) (bound : option string) : TeamEntry := {|
  team_name := name; team_short_key := name; repository := bound; team_scope := [];
  visibility := None |}.
Definition plain_repo (url : string) : RepoEntry := {|
  repo_entry_url := url; trunk := "main"; checks := []; runner_environment := [];
  forge_exempt := false |}.

Section operation.
Context (self : OperationConfig).

Definition approver : result exn Principal :=
  match first_such (λ p, bool_decide (APPROVER ∈ principal_roles p)) (principals self) with
  | Some p => Ok p
  | None => Err (OperationMemberAbsentError "principal carrying the APPROVER role")
  end.

Definition assignee : result exn Principal :=
  match first_such (λ p, bool_decide (ASSIGNEE ∈ principal_roles p)) (principals self) with
  | Some p => Ok p
  | None => Err (OperationMemberAbsentError "principal carrying the ASSIGNEE role")
  end.

Definition team_keys : result exn (list string) :=
  raise_if (bool_decide (teams self = [])) (OperationMemberAbsentError "teams entry")
    (Ok (dict_keys (teams self))).

Definition teams_bound_to (repo_url : string) : list string :=
  let implicit := bool_decide (repo_entry_url <$> repos self = [repo_url]) in
  (filter (λ ke, repository ke.2 = Some repo_url ∨ repository ke.2 = None ∧ implicit = true)
     (teams self)).*1.

Definition teams_scanned_by (repo_url : string) : list string :=
  if decide (length (repos self) ≤ 1)%nat then teams_bound_to repo_url
  else
    let bound := teams_bound_to repo_url in
    (filter (λ ke, ke.1 ∈ bound ∨ repository ke.2 = None) (teams self)).*1.

Definition team_keys_for_repo (repo_url : string) : result exn (list string) :=
  let scanned := teams_scanned_by repo_url in
  raise_if (bool_decide (scanned = []))
    (OperationMemberAbsentError ("teams entry scanned by " +:+ repo_url)) (Ok scanned).

Definition board_visibility (team : option string) : RepoVisibility :=
  let entry := match team with None => None | Some key => dict_get (teams self) key end in
  match entry with
  | Some e => if decide (visibility e = Some PRIVATE) then PRIVATE else PUBLIC
  | None => PUBLIC
  end.
End operation.
