(* ===== verification/RunRecords.v ===== *)
(** * What a run is recorded as (types/domain/run_records.py).

    The outcome of a run, its identity and the title its row is found under. *)

From S2P Require Import Prelude PyStr Operation.

Local Open Scope nat_scope.

Inductive RunOutcome := COMPLETED_RUN | FAILED | TIMED_OUT | NEVER_STARTED.
#[export] Instance RunOutcome_eq_dec : EqDecision RunOutcome.
Proof. solve_decision. Defined.
Definition run_outcome_value (o : RunOutcome) : string :=
  match o with
  | COMPLETED_RUN => "completed" | FAILED => "failed" | TIMED_OUT => "timed_out"
  | NEVER_STARTED => "never_started"
  end.

Inductive RunRecordResult := WRITTEN | VERIFIED | UNDECLARED.
Inductive RunRecordFailure :=
| SESSION_CLOSED | UNANSWERED | VENDOR_REFUSED | SINK_UNWIRED | MAPPING_INVALID | IDENTITY_CONFLICT.

Record RunIdentity := { identity_kind : RunKind; identity_name : string; identity_started_at : Z }.

(** The workflow outcome and the facts of a fire are columns nothing here reads. *)
Record RunRecord := {
  record_kind : RunKind;
  record_name : string;
  record_outcome : RunOutcome;
  record_duration : Z;
  record_started_at : Z;
  recorded_at : Z;
}.

(** [_stamp]: the one spelling of an instant in UTC. *)
Class Stamps := stamp : Z → string.
Class StampsLaws `{Stamps} : Prop := stamp_inj t t' : stamp t = stamp t' → t = t'.

Section records.
Context `{Stamps}.

Definition identity_title (i : RunIdentity) : string :=
  if decide (identity_kind i = RUN_FIRE) then
    run_kind_value (identity_kind i) +:+ " — " +:+ identity_name i +:+ " @ " +:+ stamp (identity_started_at i)
  else stamp (identity_started_at i).

Definition identity_of (r : RunRecord) : RunIdentity := {|
  identity_kind := record_kind r; identity_name := record_name r;
  identity_started_at := record_started_at r |}.
Definition record_title (r : RunRecord) : string := identity_title (identity_of r).
End records.
