(* ===== verification/OperationLoad.v ===== *)
(** * Loading an operation's configuration (types/domain/operation.py).

    [_check_structure] collects every disagreement between the entries of a configuration;
    one that loads has none. Each group of failures is a definition here, in the order the
    code collects them, and the theorems say what a configuration that loads is. *)

From S2P Require Import Prelude PyStr CheckChain Tracker Errors CommentMarkers RunEvents Organize.
From S2P Require Import Privacy Operation.

Local Open Scope nat_scope.

Definition CHECKPOINT_DOCUMENT_KEY : string := "checkpoint".

(** The two label references of a row. *)
Inductive mandate_field := GATE_LABEL_KEY | TERMINAL_MARKER_KEY.
#[export] Instance mandate_field_eq_dec : EqDecision mandate_field.
Proof. solve_decision. Defined.

Inductive mandate_failure :=
| PhaseMissing (kind : MandateKind)
| PhaseRepeated (kind : MandateKind)
| LabelUnmapped (kind : MandateKind) (field : mandate_field) (reference : string)
| NamesApproval (kind : MandateKind) (field : mandate_field)
| BadReference (refusal : label_refusal).

(** What the load says; the text of each is left out. *)
Inductive config_failure :=
| MemberInvalid
| EventMissing (name : string) | EventUndeclared (name : string)
| RequiresDerived (kind : RunEventKind) | RequiresNoTransition (kind : RunEventKind)
| RequiresStage (kind : RunEventKind)
| MandatesRefused (failures : list mandate_failure)
| ScopesWithoutMandates | ScopeRepeated | ScopeWithoutRepository
| ApproverCount (found : nat) | AssigneeCount (found : nat) | NotPrincipal (index : nat)
| TeamNameRepeated (key name : string) | TeamRepositoryUndeclared (key repository : string)
| QueueStateMissing (state : QueueState) | ScopeLabelMissing (label : ScopeLabel)
| QueueStateApproval (name label : string) | StageMissing (stage : LifecycleStage)
| IssueLabelEmpty (name : string) | IssueLabelRepeated (name label : string)
| MarkerNoToken (purpose : string) | MarkerRepeated (purpose prefix : string)
| CheckpointMissing | ContainerUndeclared (key team : string)
| RecordKeyUnknown (key : string)
| ChainFailure (index : nat) (failure : chain_failure)
| AgentIsPrincipal (index : nat) (identity : string)
| HandleEmpty (index : nat) | HandleRepeated (index : nat) (handle : string)
| HandleIsAgent (index : nat) (handle : string).

(** [f"..." for x in l if p(x)] *)
Definition flagged {A} (p : A → bool) (f : A → config_failure) (l : list A) : list config_failure :=
  f <$> filter (λ x, p x = true) l.

(** [l.count(x)] *)
Definition count_in `{EqDecision A} (x : A) (l : list A) : nat := length (filter (.= x) l).

(** [enumerate(l)] *)
Definition enumerate {A} (l : list A) : list (nat * A) := imap pair l.

Section check.
Context (self : OperationConfig).

(** *** [require_run_event_table] *)

Definition effect_failure (k : RunEventKind) (effect : event_effect) : list config_failure :=
  if decide (k ∈ DERIVED_RUN_EVENTS) then
    if decide (effect = inr DERIVED) then [] else [RequiresDerived k]
  else if decide (k ∈ SILENT_STATE_EVENTS) then
    if decide (effect = inr NO_TRANSITION) then [] else [RequiresNoTransition k]
  else match effect with inl _ => [] | inr _ => [RequiresStage k] end.

(** Every kind has a publisher, so the partition of the publishers never fails. *)
Definition run_event_table_failures : list config_failure :=
  let vocabulary := kind_value <$> RUN_EVENT_KINDS in
  let present := dict_keys (run_event_states self) in
  (EventMissing <$> sort_by id (filter (.∉ present) vocabulary))
  ++ (EventUndeclared <$> sort_by id (filter (.∉ vocabulary) present))
  ++ (RUN_EVENT_KINDS ≫= λ k, match dict_get (run_event_states self) (kind_value k) with
                              | None => []
                              | Some effect => effect_failure k effect
                              end).

Definition require_run_event_table : result (list config_failure) unit :=
  match run_event_table_failures with [] => Ok tt | fs => Err fs end.

Definition event_failures : list config_failure :=
  match run_event_states self with
  | [] => []
  | _ => match require_run_event_table with Ok _ => [] | Err fs => fs end
  end.

(** *** [resolve_organize_mandates] *)

Definition label_mapping (n : OrganizeLabelNamespace) : pydict string string :=
  match n with NS_SCOPE => scope_labels self | NS_ISSUE => config_issue_labels self end.

Definition label_reference (spec : MandateSpec) (f : mandate_field) : string :=
  match f with
  | GATE_LABEL_KEY => gate_label_key spec
  | TERMINAL_MARKER_KEY => terminal_marker_key spec
  end.

Definition resolve_field (spec : MandateSpec) (f : mandate_field) :
    result label_refusal (mandate_failure + string) :=
  let reference := label_reference spec f in
  nk ← split_label_key reference;
  let '(namespace, key) := nk in
  match dict_get (label_mapping namespace) key with
  | None => Ok (inl (LabelUnmapped (mandate_kind spec) f reference))
  | Some label =>
      if str_blank label then Ok (inl (LabelUnmapped (mandate_kind spec) f reference))
      else if aliases_approval_member label (scope_labels self)
              && negb (bool_decide (f = GATE_LABEL_KEY) && bool_decide (namespace = NS_SCOPE)
                       && runs_under_approval (phase_role (mandate_kind spec)))
      then Ok (inl (NamesApproval (mandate_kind spec) f))
      else Ok (inr label)
  end.

Definition field_failure (r : mandate_failure + string) : list mandate_failure :=
  match r with inl failure => [failure] | inr _ => [] end.

Definition resolve_row (s : list mandate_failure * list ResolvedMandateSpec) (spec : MandateSpec) :
    result label_refusal (list mandate_failure * list ResolvedMandateSpec) :=
  gate ← resolve_field spec GATE_LABEL_KEY;
  terminal ← resolve_field spec TERMINAL_MARKER_KEY;
  Ok (s.1 ++ field_failure gate ++ field_failure terminal,
      match gate, terminal with
      | inr g, inr t =>
          s.2 ++ [{| resolved_spec := spec; gate_label := g; terminal_marker := t;
                     phase_role_of := phase_role (mandate_kind spec);
                     marker_source := phase_marker_source (mandate_kind_value (mandate_kind spec)) |}]
      | _, _ => s.2
      end).

Definition phase_failures (kinds : list MandateKind) : list mandate_failure :=
  phase_sequence ≫= λ k,
    match length (filter (.= k) kinds) with
    | 0 => [PhaseMissing k]
    | 1 => []
    | _ => [PhaseRepeated k]
    end.

Definition resolve_organize_mandates : result (list mandate_failure) (list ResolvedMandateSpec) :=
  match organize_mandates self with
  | [] => Ok []
  | rows =>
      match foldM resolve_row (phase_failures (mandate_kind <$> rows), [])
              (sort_by (λ row, phase_index (mandate_kind row)) rows) with
      | Err refusal => Err [BadReference refusal]
      | Ok ([], resolved) => Ok resolved
      | Ok (fs, _) => Err fs
      end
  end.

(** *** [_check_structure] *)

Definition mandate_failures : list config_failure :=
  match resolve_organize_mandates with Ok _ => [] | Err fs => [MandatesRefused fs] end.

Definition repositories_at (url : string) : nat :=
  length (filter (λ r, repo_entry_url r = url) (repos self)).

Definition scope_failures : list config_failure :=
  match organize_scopes self with
  | [] => []
  | bindings =>
      (if decide (organize_mandates self = []) then [ScopesWithoutMandates] else [])
      ++ (if decide (NoDup (binding_scope <$> bindings)) then [] else [ScopeRepeated])
      ++ flagged (λ b, negb (bool_decide (repositories_at (binding_repo_url b) = 1)))
           (λ _, ScopeWithoutRepository) bindings
  end.

Definition holding (role : PrincipalRole) : list Principal :=
  filter (λ p, role ∈ principal_roles p) (principals self).

Definition principal_failures : list config_failure :=
  match principals self with
  | [] => []
  | _ => (if decide (length (holding APPROVER) = 1) then []
          else [ApproverCount (length (holding APPROVER))])
         ++ (if decide (1 < length (holding ASSIGNEE)) then [AssigneeCount (length (holding ASSIGNEE))]
             else [])
  end
  ++ flagged (λ ip, negb (bool_decide (PRINCIPAL ∈ principal_roles ip.2))) (λ ip, NotPrincipal ip.1)
       (enumerate (principals self)).

Definition team_failures : list config_failure :=
  let names := team_name <$> dict_values (teams self) in
  flagged (λ ke, bool_decide (1 < count_in (team_name ke.2) names))
    (λ ke, TeamNameRepeated ke.1 (team_name ke.2)) (teams self)
  ++ (teams self ≫= λ ke, match repository ke.2 with
                          | None => []
                          | Some r => if decide (r ∈ repo_entry_url <$> repos self) then []
                                      else [TeamRepositoryUndeclared ke.1 r]
                          end).

Definition label_failures : list config_failure :=
  match queue_state_labels self with
  | [] => []
  | d => flagged (λ q, negb (dict_mem d (queue_state_value q))) QueueStateMissing
           (finite.enum QueueState)
  end
  ++ match scope_labels self with
     | [] => []
     | d => flagged (λ l, negb (dict_mem d (scope_label_value l))) ScopeLabelMissing SCOPE_LABELS
     end
  ++ flagged (λ nl, aliases_approval_member nl.2 (scope_labels self))
       (λ nl, QueueStateApproval nl.1 nl.2) (queue_state_labels self)
  ++ match workflow_states self with
     | [] => []
     | d => flagged (λ s, negb (dict_mem d s)) StageMissing LIFECYCLE_STAGES
     end.

Definition issue_label_failures : list config_failure :=
  flagged (λ nl, str_blank nl.1 || str_blank nl.2) (λ nl, IssueLabelEmpty nl.1) (config_issue_labels self)
  ++ flagged (λ nl, bool_decide (1 < count_in nl.2 (dict_values (config_issue_labels self))))
       (λ nl, IssueLabelRepeated nl.1 nl.2) (config_issue_labels self).

Definition marker_failures : list config_failure :=
  flagged (λ pp, bool_decide (pp.1 = "") || bool_decide (pp.2 = "")
                 || (has_space pp.2 || negb (str_all (λ a, negb (marker_delimiter a)) pp.2)))
    (λ pp, MarkerNoToken pp.1) (marker_prefixes self)
  ++ flagged (λ pp, bool_decide (1 < count_in pp.2 (dict_values (marker_prefixes self))))
       (λ pp, MarkerRepeated pp.1 pp.2) (marker_prefixes self).

Definition document_failures : list config_failure :=
  match documents self with
  | [] => []
  | d => if dict_mem d CHECKPOINT_DOCUMENT_KEY then [] else [CheckpointMissing]
  end
  ++ (documents self ≫= λ ke, match document_container ke.2 with
                              | None => []
                              | Some t => if dict_mem (teams self) t then [] else [ContainerUndeclared ke.1 t]
                              end)
  ++ flagged (λ key, negb (bool_decide (key ∈ run_kind_value <$> RUN_KINDS))) RecordKeyUnknown
       (dict_keys (record_destinations self)).

(** The walk of each chain may not end: [None] is out of fuel. *)
Definition indexed_chain_failures (ir : nat * RepoEntry) : option (list config_failure) :=
  match check_chain_failures (checks ir.2) with
  | Some fs => Some (ChainFailure ir.1 <$> fs)
  | None => None
  end.

Definition repo_chain_failures : option (list config_failure) :=
  match mapM indexed_chain_failures (enumerate (repos self)) with
  | Some found => Some (concat found)
  | None => None
  end.

Definition identity_failures : list config_failure :=
  let handles := principal_handle <$> principals self in
  flagged (λ ii, bool_decide (ii.2 ∈ tracker_user <$> principals self))
    (λ ii, AgentIsPrincipal ii.1 ii.2) (enumerate (agent_identities self))
  ++ flagged (λ ih, str_blank ih.2) (λ ih, HandleEmpty ih.1) (enumerate handles)
  ++ flagged (λ ih, bool_decide (1 < count_in ih.2 handles)) (λ ih, HandleRepeated ih.1 ih.2)
       (enumerate handles)
  ++ flagged (λ ih, bool_decide (ih.2 ∈ agent_identities self)) (λ ih, HandleIsAgent ih.1 ih.2)
       (enumerate handles).

Definition _check_structure : option (list config_failure) :=
  chains ← repo_chain_failures;
  Some (event_failures ++ mandate_failures ++ scope_failures ++ principal_failures ++ team_failures
        ++ label_failures ++ issue_label_failures ++ marker_failures ++ document_failures
        ++ chains ++ identity_failures).

(** The validators of the members, which run before the structure is looked at. *)
Definition nonempty (s : string) : bool := negb (bool_decide (s = "")).

Definition team_valid (t : TeamEntry) : bool := nonempty (team_name t) && nonempty (team_short_key t).

Definition binding_valid (b : OrganizeScopeBinding) : bool :=
  nonempty (scope_key (binding_scope b)) && nonempty (binding_repo_url b)
  && forallb (λ k, negb (str_blank k)) (option_list (report_issue_key b)).

Definition members_valid : bool :=
  forallb team_valid (dict_values (teams self))
  && forallb mandate_spec_valid (organize_mandates self)
  && forallb binding_valid (organize_scopes self)
  && forallb (λ r, nonempty (trunk r)) (repos self)
  && forallb document_valid (dict_values (documents self))
  && forallb destination_valid (dict_values (record_destinations self)).

End check.

Definition with_private_surface (self : OperationConfig) (p : option PrivateSurface) : OperationConfig := {|
  operation_name := operation_name self; config_workspace := config_workspace self;
  principals := principals self; agent_identities := agent_identities self; teams := teams self;
  queue_state_labels := queue_state_labels self; scope_labels := scope_labels self;
  config_issue_labels := config_issue_labels self; organize_mandates := organize_mandates self;
  organize_scopes := organize_scopes self; workflow_states := workflow_states self;
  run_event_states := run_event_states self; marker_prefixes := marker_prefixes self;
  repos := repos self; documents := documents self; record_destinations := record_destinations self;
  knowledge := knowledge self; endpoints := endpoints self; private_surface := p |}.

Section loading.
Context `{HttpUrls} `{CaseFold}.

(** What the members' validators make of what was given: the private facts are brought to
    one spelling, everything else is kept. *)
Definition validated (given : OperationConfig) : option OperationConfig :=
  if members_valid given then
    match private_surface given with
    | None => Some given
    | Some facts => p ← validate_surface facts; Some (with_private_surface given (Some p))
    end
  else None.

(** [OperationConfig.model_validate]: the configuration, or every failure of its structure
    at once; the members' own failures are one here. *)
Definition load (given : OperationConfig) : option (result (list config_failure) OperationConfig) :=
  match validated given with
  | None => Some (Err [MemberInvalid])
  | Some self =>
      found ← _check_structure self;
      Some (match found with [] => Ok self | fs => Err fs end)
  end.
End loading.

(** ** Collected failures *)

Lemma flagged_nil {A} (p : A → bool) f (l : list A) : flagged p f l = [] ↔ ∀ x, x ∈ l → p x = false.
Proof.
  unfold flagged. split.
  - intros H%fmap_nil_inv x Hx. apply not_true_iff_false. intros Hp.
    assert (x ∈ filter (λ x, p x = true) l) as Hin by by apply list_elem_of_filter.
    rewrite H in Hin. by apply elem_of_nil in Hin.
  - intros H. rewrite filter_none; [done|]. intros x Hx. by rewrite H.
Qed.

Lemma elem_of_enumerate {A} (l : list A) ix : ix ∈ enumerate l ↔ l !! ix.1 = Some ix.2.
Proof.
  unfold enumerate. destruct ix as [i x]. rewrite elem_of_lookup_imap. cbn.
  split; [by intros (? & ? & [= <- <-] & ?)|by exists i, x].
Qed.

Lemma flagged_enumerate {A} (p : A → bool) f (l : list A) :
  flagged (λ ix, p ix.2) f (enumerate l) = [] ↔ ∀ x, x ∈ l → p x = false.
Proof.
  rewrite flagged_nil. split.
  - intros H x [i Hi]%list_elem_of_lookup. apply (H (i, x)). by apply elem_of_enumerate.
  - intros H ix Hix%elem_of_enumerate. apply H. by eapply list_elem_of_lookup_2.
Qed.

(** Rewrites with [flagged_enumerate] at the predicate [p]. *)
Ltac flag_enumerate p :=
  let H := fresh in
  pose proof (λ f l, flagged_enumerate p f l) as H; cbn beta in H; rewrite H; clear H.

Lemma bind_nil {A B} (f : A → list B) (l : list A) : l ≫= f = [] ↔ ∀ x, x ∈ l → f x = [].
Proof.
  induction l as [|x l IH]; cbn; [split; [by intros _ ? ?%elem_of_nil|done]|].
  rewrite app_nil, IH. split; [|set_solver]. intros [? H] y [->|?]%elem_of_cons; [done|by apply H].
Qed.

Section counted.
Context `{EqDecision A}.
Implicit Types (x y : A) (l : list A).

Lemma count_in_cons x y l : count_in x (y :: l) = (if decide (y = x) then 1 else 0) + count_in x l.
Proof. unfold count_in. rewrite filter_cons. by case_decide. Qed.

Lemma count_in_pos x l : 0 < count_in x l ↔ x ∈ l.
Proof.
  induction l as [|y l IH]; [split; [cbn; lia|by intros ?%elem_of_nil]|].
  rewrite count_in_cons, elem_of_cons, <-IH. case_decide; split; [auto|lia|auto with lia|].
  intros [->|?]; [done|lia].
Qed.

Lemma count_in_NoDup l : (∀ x, x ∈ l → ¬ 1 < count_in x l) ↔ NoDup l.
Proof.
  induction l as [|y l IH]; [split; [constructor|by intros _ ? ?%elem_of_nil]|].
  rewrite NoDup_cons, <-IH. split.
  - intros H. split.
    + intros Hy%count_in_pos. apply (H y); [by left|]. rewrite count_in_cons, decide_True by done. lia.
    + intros x Hx Hc. apply (H x); [by right|]. rewrite count_in_cons. lia.
  - intros [Hy H] x [->|Hx]%elem_of_cons Hc; rewrite count_in_cons in Hc.
    + rewrite decide_True in Hc by done. apply Hy, count_in_pos. lia.
    + case_decide as E; [by subst|]. by apply (H x Hx).
Qed.

End counted.

(** The failures of repeated values, over a dict. *)
Lemma flagged_repeated {V} (f : V → string) g (d : pydict string V) :
  flagged (λ ke, bool_decide (1 < count_in (f ke.2) (f <$> dict_values d))) g d = []
  ↔ NoDup (f <$> dict_values d).
Proof.
  rewrite flagged_nil, <-count_in_NoDup. unfold dict_values. split.
  - intros H x Hx Hc. apply list_elem_of_fmap in Hx as (v & -> & Hv).
    apply list_elem_of_fmap in Hv as (ke & -> & Hke). specialize (H ke Hke).
    by apply bool_decide_eq_false in H.
  - intros H ke Hke. apply bool_decide_eq_false, H. by do 2 apply list_elem_of_fmap_2.
Qed.

Lemma flagged_repeated_values g (d : pydict string string) :
  flagged (λ ke, bool_decide (1 < count_in ke.2 (dict_values d))) g d = [] ↔ NoDup (dict_values d).
Proof. pose proof (flagged_repeated id g d) as H. by rewrite list_fmap_id in H. Qed.

Lemma flagged_repeated_enumerate g (l : list string) :
  flagged (λ ih, bool_decide (1 < count_in ih.2 l)) g (enumerate l) = [] ↔ NoDup l.
Proof.
  flag_enumerate (λ x : string, bool_decide (1 < count_in x l)).
  rewrite <-count_in_NoDup. by setoid_rewrite bool_decide_eq_false.
Qed.

Lemma dict_missing {V} (d : pydict string V) {A} (key : A → string) g (members : list A) :
  flagged (λ a, negb (dict_mem d (key a))) g members = [] ↔ ∀ a, a ∈ members → key a ∈ dict_keys d.
Proof.
  rewrite flagged_nil. unfold dict_mem. by setoid_rewrite negb_false_iff; setoid_rewrite bool_decide_eq_true.
Qed.

(** ** What a configuration that loads is *)

(** The effect a table may give an event of this kind. *)
Definition effect_fits (k : RunEventKind) (effect : event_effect) : Prop :=
  if decide (k ∈ DERIVED_RUN_EVENTS) then effect = inr DERIVED
  else if decide (k ∈ SILENT_STATE_EVENTS) then effect = inr NO_TRANSITION
  else ∃ stage, effect = inl stage.

Section well_formed.
Context (self : OperationConfig).

(** A label a row may name: mapped, not blank, and the approved scope label only as the
    gate, by that very reference. *)
Definition names_label (spec : MandateSpec) (f : mandate_field) (label : string) : Prop :=
  ∃ namespace key, split_label_key (label_reference spec f) = Ok (namespace, key)
    ∧ dict_get (label_mapping self namespace) key = Some label ∧ str_blank label = false
    ∧ (aliases_approval_member label (scope_labels self) = true → f = GATE_LABEL_KEY ∧ namespace = NS_SCOPE).

Definition mandates_formed : Prop :=
  organize_mandates self = []
  ∨ (∀ k, length (filter (.= k) (mandate_kind <$> organize_mandates self)) = 1)
    ∧ ∀ spec f, spec ∈ organize_mandates self → ∃ label, names_label spec f label.

Record well_formed : Prop := {
  wf_events : run_event_states self = []
    ∨ (∀ name, name ∈ dict_keys (run_event_states self) ↔ ∃ k, name = kind_value k)
      ∧ ∀ k effect, dict_get (run_event_states self) (kind_value k) = Some effect → effect_fits k effect;
  wf_mandates : mandates_formed;
  wf_scopes : organize_scopes self = []
    ∨ organize_mandates self ≠ [] ∧ NoDup (binding_scope <$> organize_scopes self)
      ∧ ∀ b, b ∈ organize_scopes self → repositories_at self (binding_repo_url b) = 1;
  wf_authority : principals self = []
    ∨ (∃ p, holding self APPROVER = [p]) ∧ length (holding self ASSIGNEE) ≤ 1;
  wf_principals : ∀ p, p ∈ principals self → PRINCIPAL ∈ principal_roles p;
  wf_team_names : NoDup (team_name <$> dict_values (teams self));
  wf_team_repos : ∀ key t r, (key, t) ∈ teams self → repository t = Some r →
    r ∈ repo_entry_url <$> repos self;
  wf_queue : queue_state_labels self = []
    ∨ ∀ q, queue_state_value q ∈ dict_keys (queue_state_labels self);
  wf_scope_labels : scope_labels self = [] ∨ ∀ l, scope_label_value l ∈ dict_keys (scope_labels self);
  wf_approval : ∀ label, label ∈ dict_values (queue_state_labels self) →
    aliases_approval_member label (scope_labels self) = false;
  wf_stages : workflow_states self = [] ∨ ∀ s, s ∈ dict_keys (workflow_states self);
  wf_issue_labels : NoDup (dict_values (config_issue_labels self))
    ∧ ∀ name label, (name, label) ∈ config_issue_labels self → str_blank name = false ∧ str_blank label = false;
  wf_markers : marker_prefixes_valid (marker_prefixes self) = true;
  wf_documents : documents self = [] ∨ CHECKPOINT_DOCUMENT_KEY ∈ dict_keys (documents self);
  wf_containers : ∀ key d t, (key, d) ∈ documents self → document_container d = Some t →
    t ∈ dict_keys (teams self);
  wf_records : ∀ key, key ∈ dict_keys (record_destinations self) → ∃ kind, key = run_kind_value kind;
  wf_chains : ∀ r, r ∈ repos self → well_chained (checks r);
  wf_agents : ∀ a, a ∈ agent_identities self → a ∉ tracker_user <$> principals self;
  wf_handles : NoDup (principal_handle <$> principals self)
    ∧ ∀ h, h ∈ principal_handle <$> principals self → str_blank h = false ∧ h ∉ agent_identities self;
}.
End well_formed.

(** ** The event table *)

Lemma sort_by_nil {A K} `{PyOrd K} (key : A → K) l : sort_by key l = [] ↔ l = [].
Proof.
  split; [|by intros ->]. intros E. apply Permutation_nil_r. by rewrite <-(sort_by_perm key l), E.
Qed.

Lemma filter_nil {A} (P : A → Prop) `{∀ x, Decision (P x)} (l : list A) :
  filter P l = [] ↔ ∀ x, x ∈ l → ¬ P x.
Proof.
  split; [|by apply filter_none]. intros E x Hx Hp.
  assert (x ∈ filter P l) as Hin by by apply list_elem_of_filter. rewrite E in Hin.
  by apply elem_of_nil in Hin.
Qed.

Lemma run_event_kinds_all k : k ∈ RUN_EVENT_KINDS.
Proof. apply (bool_decide_unpack _). by destruct k. Qed.

Lemma effect_failure_nil k effect : effect_failure k effect = [] ↔ effect_fits k effect.
Proof.
  unfold effect_failure, effect_fits. repeat case_decide; try done.
  destruct effect as [s|e]; [by split; [exists s|]|by split; [|intros [? ?]]].
Qed.

Section loads.
Context (self : OperationConfig).

Lemma run_event_table_ok :
  run_event_table_failures self = []
  ↔ (∀ name, name ∈ dict_keys (run_event_states self) ↔ ∃ k, name = kind_value k)
    ∧ ∀ k effect, dict_get (run_event_states self) (kind_value k) = Some effect → effect_fits k effect.
Proof.
  unfold run_event_table_failures. cbv zeta. rewrite !app_nil, bind_nil. split.
  - intros (Hm%fmap_nil_inv & Hu%fmap_nil_inv & He).
    rewrite sort_by_nil, filter_nil in Hm. rewrite sort_by_nil, filter_nil in Hu. split.
    + intros name. split.
      * intros Hn. destruct (decide (name ∈ kind_value <$> RUN_EVENT_KINDS)) as [Hv|Hv].
        { apply list_elem_of_fmap in Hv as (k & -> & _). by exists k. }
        by apply Hu in Hv.
      * intros [k ->]. destruct (decide (kind_value k ∈ dict_keys (run_event_states self))); [done|].
        exfalso. apply (Hm (kind_value k)); [|done].
        apply list_elem_of_fmap_2, run_event_kinds_all.
    + intros k effect E. specialize (He k (run_event_kinds_all k)). rewrite E in He.
      by apply effect_failure_nil.
  - intros [Hk He]. split; [|split].
    + rewrite (proj2 (sort_by_nil _ _)); [done|]. apply filter_nil.
      intros name (k & -> & _)%list_elem_of_fmap Hn. apply Hn, Hk. by exists k.
    + rewrite (proj2 (sort_by_nil _ _)); [done|]. apply filter_nil.
      intros name (k & ->)%Hk Hn. apply Hn, list_elem_of_fmap_2, run_event_kinds_all.
    + intros k _. destruct (dict_get _ _) as [effect|] eqn:E; [|done]. by apply effect_failure_nil, He.
Qed.

Lemma event_failures_nil :
  event_failures self = [] ↔ run_event_states self = []
    ∨ (∀ name, name ∈ dict_keys (run_event_states self) ↔ ∃ k, name = kind_value k)
      ∧ ∀ k effect, dict_get (run_event_states self) (kind_value k) = Some effect → effect_fits k effect.
Proof.
  rewrite <-run_event_table_ok. unfold event_failures, require_run_event_table.
  destruct (run_event_states self) eqn:E; [by split; [left|]|]. rewrite <-E.
  destruct (run_event_table_failures self) eqn:Ef; [by split; [right|]|]. split; [done|].
  by intros [H|H]; [rewrite H in E|].
Qed.

(** ** The organize table *)

Lemma resolve_field_ok spec f label :
  resolve_field self spec f = Ok (inr label) ↔ names_label self spec f label.
Proof.
  unfold resolve_field, names_label. cbv zeta. rewrite phase_under_approval.
  destruct (split_label_key _) as [[ns key]|r] eqn:Es; cbn [mbind result_bind].
  2: { split; [done|]. by intros (? & ? & ? & _). }
  destruct (dict_get (label_mapping self ns) key) as [l|] eqn:Ed.
  2: { split; [done|]. intros (? & ? & [= <- <-] & H & _). congruence. }
  destruct (str_blank l) eqn:Eb.
  { split; [done|]. intros (? & ? & [= <- <-] & H & Hb & _). congruence. }
  destruct (aliases_approval_member l (scope_labels self)) eqn:Ea; cbn [andb].
  - destruct (decide (f = GATE_LABEL_KEY ∧ ns = NS_SCOPE)) as [[-> ->]|Hn].
    + rewrite !bool_decide_eq_true_2 by done. cbn. split.
      * intros [= <-]. by exists NS_SCOPE, key.
      * intros (? & ? & [= <- <-] & H & _). congruence.
    + assert (bool_decide (f = GATE_LABEL_KEY) && bool_decide (ns = NS_SCOPE) = false) as ->.
      { apply andb_false_iff. rewrite !bool_decide_eq_false. destruct (decide (f = GATE_LABEL_KEY)); tauto. }
      cbn. split; [done|]. intros (? & ? & [= <- <-] & H & _ & Hal).
      rewrite Ed in H. injection H as <-. by destruct (Hn (Hal Ea)).
  - split.
    + intros [= <-]. exists ns, key. repeat split; try done; congruence.
    + intros (? & ? & [= <- <-] & H & _ & _). congruence.
Qed.

(** What a row of the table comes back as. *)
Definition resolved_as (spec : MandateSpec) (r : ResolvedMandateSpec) : Prop :=
  resolved_spec r = spec
  ∧ names_label self spec GATE_LABEL_KEY (gate_label r)
  ∧ names_label self spec TERMINAL_MARKER_KEY (terminal_marker r)
  ∧ phase_role_of r = phase_role (mandate_kind spec)
  ∧ marker_source r = phase_marker_source (mandate_kind_value (mandate_kind spec)).

Lemma resolve_row_formed s spec g t :
  names_label self spec GATE_LABEL_KEY g → names_label self spec TERMINAL_MARKER_KEY t →
  ∃ r, resolve_row self s spec = Ok (s.1, s.2 ++ [r]) ∧ resolved_as spec r.
Proof.
  intros Hg Ht. unfold resolve_row.
  rewrite (proj2 (resolve_field_ok _ _ _) Hg), (proj2 (resolve_field_ok _ _ _) Ht). cbn.
  eexists. rewrite app_nil_r. split; [reflexivity|]. by repeat split.
Qed.

Lemma resolve_row_clean s spec s' :
  resolve_row self s spec = Ok s' → s'.1 = [] →
  s.1 = [] ∧ ∃ r, s'.2 = s.2 ++ [r] ∧ resolved_as spec r.
Proof.
  unfold resolve_row. intros (g & Hg & (t & Ht & [= <-])%bind_ok)%bind_ok. cbn.
  intros [-> [Hfg Hft]%app_nil]%app_nil. split; [done|].
  destruct g as [|g]; [done|]. destruct t as [|t]; [done|].
  apply resolve_field_ok in Hg, Ht. eexists. split; [done|]. by repeat split.
Qed.

Lemma resolve_rows_clean rows s resolved :
  foldM (resolve_row self) s rows = Ok ([], resolved)
  ↔ s.1 = [] ∧ ∃ rs, resolved = s.2 ++ rs ∧ Forall2 resolved_as rows rs.
Proof.
  revert s. induction rows as [|spec rows IH]; intros [fs rs0]; cbn [foldM].
  { split; [intros [= -> ->]; split; [done|]; exists []; by rewrite app_nil_r|].
    intros (Hf & rs & -> & ->%Forall2_nil_inv_l). cbn in *. by rewrite Hf, app_nil_r. }
  split.
  - destruct (resolve_row self (fs, rs0) spec) as [s'|e] eqn:E; [|done].
    intros [Hs' (rs & -> & Hrs)]%IH. destruct (resolve_row_clean _ _ _ E Hs') as (Hf & r & -> & Hr).
    split; [done|]. exists (r :: rs). split; [by rewrite <-app_assoc|]. by constructor.
  - intros (Hf & rs & -> & Hrs). inversion Hrs as [|? r ? rs' Hr Hrs']; subst.
    destruct Hr as (Hspec & Hg & Ht & Hrole & Hm).
    destruct (resolve_row_formed (fs, rs0) spec _ _ Hg Ht) as (r' & -> & Hs' & Hg' & Ht' & Hrole' & Hm').
    apply IH. split; [done|]. exists rs'. cbn. rewrite <-app_assoc. split; [|done]. cbn. do 2 f_equal.
    apply resolve_field_ok in Hg, Ht, Hg', Ht'. destruct r, r'; cbn in *. congruence.
Qed.

Lemma phase_failures_nil kinds :
  phase_failures kinds = [] ↔ ∀ k, length (filter (.= k) kinds) = 1.
Proof.
  unfold phase_failures. rewrite bind_nil. split.
  - intros H k. specialize (H k (phase_sequence_all k)). by destruct (length _) as [|[|n]].
  - intros H k _. by rewrite H.
Qed.

Definition phase_order (rows : list MandateSpec) : list MandateSpec :=
  sort_by (λ row, phase_index (mandate_kind row)) rows.

Lemma resolve_organize_mandates_ok resolved :
  resolve_organize_mandates self = Ok resolved
  ↔ organize_mandates self = [] ∧ resolved = []
    ∨ organize_mandates self ≠ []
      ∧ (∀ k, length (filter (.= k) (mandate_kind <$> organize_mandates self)) = 1)
      ∧ Forall2 resolved_as (phase_order (organize_mandates self)) resolved.
Proof.
  unfold resolve_organize_mandates.
  destruct (organize_mandates self) as [|row rows] eqn:E; [split; [intros [= <-]; by left|naive_solver]|].
  rewrite <-E. rewrite <-phase_failures_nil. split.
  - intros H. right. split; [by rewrite E|].
    destruct (foldM _ _ _) as [[[|] l]|e] eqn:Ef; [|done..]. injection H as <-.
    apply resolve_rows_clean in Ef as (Hp & rs & -> & Hrs). by split.
  - intros [[H _]|(_ & Hp & Hrs)]; [congruence|].
    assert (foldM (resolve_row self) (phase_failures (mandate_kind <$> organize_mandates self), [])
              (phase_order (organize_mandates self)) = Ok ([], resolved)) as Hf.
    { apply resolve_rows_clean. split; [done|]. by exists resolved. }
    unfold phase_order in Hf. by rewrite Hf.
Qed.

Lemma mandate_failures_nil : mandate_failures self = [] ↔ mandates_formed self.
Proof.
  unfold mandate_failures, mandates_formed. split.
  - destruct (resolve_organize_mandates self) as [resolved|] eqn:E; [|done]. intros _.
    apply resolve_organize_mandates_ok in E as [[E _]|(Hne & Hk & Hrs)]; [by left|right].
    split; [done|]. intros spec f Hin.
    assert (spec ∈ phase_order (organize_mandates self)) as [i Hi]%list_elem_of_lookup
      by by apply elem_of_sort_by.
    destruct (Forall2_lookup_l _ _ _ _ _ Hrs Hi) as (r & _ & _ & Hg & Ht & _).
    destruct f; [by exists (gate_label r)|by exists (terminal_marker r)].
  - intros [E|[Hk Hl]].
    { by rewrite (proj2 (resolve_organize_mandates_ok [])); [|left]. }
    assert (∃ resolved, Forall2 resolved_as (phase_order (organize_mandates self)) resolved) as [rs Hrs].
    { assert (∀ spec, spec ∈ phase_order (organize_mandates self) → spec ∈ organize_mandates self) as Hin
        by (intros spec Hs; by apply elem_of_sort_by in Hs).
      induction (phase_order (organize_mandates self)) as [|spec rows IH]; [by exists []; constructor|].
      destruct (IH (λ s Hs, Hin s (list_elem_of_further _ _ _ Hs))) as [rs Hrs].
      assert (spec ∈ organize_mandates self) as Hs by (apply Hin; left).
      destruct (Hl spec GATE_LABEL_KEY Hs) as [g Hg], (Hl spec TERMINAL_MARKER_KEY Hs) as [t Ht].
      destruct (resolve_row_formed ([], []) spec g t Hg Ht) as (r & _ & Hr).
      exists (r :: rs). by constructor. }
    rewrite (proj2 (resolve_organize_mandates_ok rs)); [done|]. right. split; [|done].
    intros E. specialize (Hk TICKET). by rewrite E in Hk.
Qed.
(** ** The other groups *)

Lemma scope_failures_nil :
  scope_failures self = [] ↔ organize_scopes self = []
    ∨ organize_mandates self ≠ [] ∧ NoDup (binding_scope <$> organize_scopes self)
      ∧ ∀ b, b ∈ organize_scopes self → repositories_at self (binding_repo_url b) = 1.
Proof.
  unfold scope_failures. destruct (organize_scopes self) eqn:E; [by split; [left|]|]. rewrite <-E.
  rewrite !app_nil, flagged_nil. setoid_rewrite negb_false_iff. setoid_rewrite bool_decide_eq_true.
  split.
  - intros (Hm & Hn & Hr). right. repeat case_decide; done.
  - intros [H|(Hm & Hn & Hr)]; [by rewrite H in E|]. by rewrite decide_False, decide_True.
Qed.

Lemma principal_failures_nil :
  principal_failures self = []
  ↔ (principals self = []
     ∨ (∃ p, holding self APPROVER = [p]) ∧ length (holding self ASSIGNEE) ≤ 1)
    ∧ ∀ p, p ∈ principals self → PRINCIPAL ∈ principal_roles p.
Proof.
  unfold principal_failures. rewrite app_nil.
  flag_enumerate (λ p : Principal, negb (bool_decide (PRINCIPAL ∈ principal_roles p))).
  setoid_rewrite negb_false_iff. setoid_rewrite bool_decide_eq_true. apply and_iff_compat_r.
  destruct (principals self) eqn:E; [by split; [left|]|]. rewrite app_nil. split.
  - intros [Ha Hs]. right. split.
    + destruct (decide (length (holding self APPROVER) = 1)) as [Hl|]; [|done].
      destruct (holding self APPROVER) as [|q [|]]; [done|by exists q|done].
    + destruct (decide (1 < length (holding self ASSIGNEE))); [done|lia].
  - intros [H|[[q Hq] Hs]]; [done|]. rewrite Hq, decide_True by done. by rewrite decide_False by lia.
Qed.

Lemma team_failures_nil :
  team_failures self = []
  ↔ NoDup (team_name <$> dict_values (teams self))
    ∧ ∀ key t r, (key, t) ∈ teams self → repository t = Some r → r ∈ repo_entry_url <$> repos self.
Proof.
  unfold team_failures. cbv zeta. rewrite app_nil, flagged_repeated, bind_nil. apply and_iff_compat_l.
  split.
  - intros H key t r Hin Hr. specialize (H _ Hin). cbn in H. rewrite Hr in H. by case_decide.
  - intros H [key t] Hin. cbn. destruct (repository t) as [r|] eqn:Er; [|done].
    by rewrite decide_True by by eapply H.
Qed.

Lemma members_nil {A B V} (key : B → A) `{EqDecision A} (d : pydict A V) g (members : list B) :
  (∀ b, b ∈ members) →
  match d with
  | [] => []
  | kv :: rest => flagged (λ b, negb (dict_mem (kv :: rest) (key b))) g members
  end = []
  ↔ d = [] ∨ ∀ b, key b ∈ dict_keys d.
Proof.
  intros Hall. destruct d as [|kv d]; [by split; [left|]|]. rewrite flagged_nil. unfold dict_mem.
  setoid_rewrite negb_false_iff. setoid_rewrite bool_decide_eq_true. split; [|by intros [|H] b _].
  intros H. right. intros b. apply H, Hall.
Qed.

Lemma label_failures_nil :
  label_failures self = []
  ↔ (queue_state_labels self = [] ∨ ∀ q, queue_state_value q ∈ dict_keys (queue_state_labels self))
    ∧ (scope_labels self = [] ∨ ∀ l, scope_label_value l ∈ dict_keys (scope_labels self))
    ∧ (∀ label, label ∈ dict_values (queue_state_labels self) →
         aliases_approval_member label (scope_labels self) = false)
    ∧ (workflow_states self = [] ∨ ∀ s, s ∈ dict_keys (workflow_states self)).
Proof.
  unfold label_failures. rewrite !app_nil.
  rewrite (members_nil queue_state_value) by (intros; apply finite.elem_of_enum).
  rewrite (members_nil scope_label_value) by (intros []; by apply (bool_decide_unpack _)).
  rewrite (members_nil id) by (intros []; by apply (bool_decide_unpack _)).
  rewrite flagged_nil. do 2 apply and_iff_compat_l. apply and_iff_compat_r. unfold dict_values. split.
  - intros H label (nl & -> & Hin)%list_elem_of_fmap. by apply H.
  - intros H nl Hin. apply H. by apply list_elem_of_fmap_2.
Qed.

Lemma issue_label_failures_nil :
  issue_label_failures self = []
  ↔ NoDup (dict_values (config_issue_labels self))
    ∧ ∀ name label, (name, label) ∈ config_issue_labels self → str_blank name = false ∧ str_blank label = false.
Proof.
  unfold issue_label_failures. rewrite app_nil, flagged_repeated_values, flagged_nil.
  setoid_rewrite orb_false_iff. split; [|by intros [? H]; split; [intros []; apply H|]].
  intros [H ?]. split; [done|]. intros name label. apply (H (name, label)).
Qed.

Lemma marker_failures_nil : marker_failures self = [] ↔ marker_prefixes_valid (marker_prefixes self) = true.
Proof.
  unfold marker_failures, marker_prefixes_valid, marker_token.
  rewrite app_nil, flagged_repeated_values, flagged_nil, andb_true_iff, bool_decide_eq_true, forallb_forall.
  apply and_iff_compat_r. setoid_rewrite <-list_elem_of_In.
  split; intros H pp Hin; specialize (H pp Hin); revert H;
    rewrite ?orb_false_iff, ?andb_true_iff, ?negb_true_iff, ?negb_false_iff; tauto.
Qed.

Lemma document_failures_nil :
  document_failures self = []
  ↔ (documents self = [] ∨ CHECKPOINT_DOCUMENT_KEY ∈ dict_keys (documents self))
    ∧ (∀ key d t, (key, d) ∈ documents self → document_container d = Some t → t ∈ dict_keys (teams self))
    ∧ ∀ key, key ∈ dict_keys (record_destinations self) → ∃ kind, key = run_kind_value kind.
Proof.
  unfold document_failures. rewrite !app_nil, bind_nil, flagged_nil. unfold dict_mem.
  apply Morphisms_Prop.and_iff_morphism; [|apply Morphisms_Prop.and_iff_morphism].
  - destruct (documents self) as [|kd d]; [by split; [left|]|]. case_bool_decide; [|naive_solver].
    by split; [right|].
  - split.
    + intros H key d t Hin Ht. specialize (H _ Hin). cbn in H. rewrite Ht in H. by case_bool_decide.
    + intros H [key d] Hin. cbn. destruct (document_container d) as [t|] eqn:Et; [|done].
      by rewrite bool_decide_eq_true_2 by by eapply H.
  - split; intros H key Hk; specialize (H key Hk).
    + rewrite negb_false_iff, bool_decide_eq_true in H. apply list_elem_of_fmap in H as (k & -> & _). by exists k.
    + destruct H as [k ->]. rewrite negb_false_iff, bool_decide_eq_true.
      apply list_elem_of_fmap_2. by destruct k; apply (bool_decide_unpack _).
Qed.

Lemma repo_chain_failures_total : is_Some (repo_chain_failures self).
Proof.
  unfold repo_chain_failures.
  assert (is_Some (mapM indexed_chain_failures (enumerate (repos self)))) as [l ->]; [|done].
  apply mapM_is_Some, Forall_forall. intros ir _. unfold indexed_chain_failures, compose.
  by destruct (check_chain_failures_total (checks ir.2)) as [fs ->].
Qed.

Lemma repo_chain_failures_nil :
  repo_chain_failures self = Some [] ↔ ∀ r, r ∈ repos self → well_chained (checks r).
Proof.
  unfold repo_chain_failures. setoid_rewrite <-check_chain_failures_nil. split.
  - destruct (mapM _ _) as [found|] eqn:E; [|done]. intros [= Hc] r [i Hi]%list_elem_of_lookup.
    apply mapM_Some in E. rewrite concat_nil in Hc.
    assert ((i, r) ∈ enumerate (repos self)) as [j Hj]%list_elem_of_lookup by by apply elem_of_enumerate.
    destruct (Forall2_lookup_l _ _ _ _ _ E Hj) as (fs & Hfs & Hl).
    apply list_elem_of_lookup_2, Hc in Hfs as ->. unfold indexed_chain_failures in Hl. cbn in Hl.
    destruct (check_chain_failures (checks r)) as [l|]; [|done]. injection Hl as Hl.
    by apply fmap_nil_inv in Hl as ->.
  - intros H. pose proof repo_chain_failures_total as [l Hl]. unfold repo_chain_failures in Hl.
    destruct (mapM _ _) as [found|] eqn:E; [|done]. f_equal. apply concat_nil.
    intros fs [i Hi]%list_elem_of_lookup. apply mapM_Some in E.
    destruct (Forall2_lookup_r _ _ _ _ _ E Hi) as ([j r] & Hj & Hf).
    apply list_elem_of_lookup_2, elem_of_enumerate, list_elem_of_lookup_2 in Hj. cbn in Hj.
    unfold indexed_chain_failures in Hf. cbn in Hf. rewrite (H r Hj) in Hf. by injection Hf as <-.
Qed.

Lemma identity_failures_nil :
  identity_failures self = []
  ↔ (∀ a, a ∈ agent_identities self → a ∉ tracker_user <$> principals self)
    ∧ NoDup (principal_handle <$> principals self)
    ∧ ∀ h, h ∈ principal_handle <$> principals self → str_blank h = false ∧ h ∉ agent_identities self.
Proof.
  unfold identity_failures. cbv zeta. rewrite !app_nil, flagged_repeated_enumerate.
  flag_enumerate (λ a : string, bool_decide (a ∈ tracker_user <$> principals self)).
  flag_enumerate (λ h : string, str_blank h).
  flag_enumerate (λ h : string, bool_decide (h ∈ agent_identities self)).
  setoid_rewrite bool_decide_eq_false. split.
  - intros (? & ? & ? & ?). auto.
  - intros (? & ? & H). repeat split; try done; intros h Hh; by apply H.
Qed.

Lemma check_structure_nil : _check_structure self = Some [] ↔ well_formed self.
Proof.
  unfold _check_structure. destruct repo_chain_failures_total as [chains Ec].
  pose proof repo_chain_failures_nil as Hc. rewrite Ec in *. cbn [mbind option_bind].
  assert (Some chains = Some [] ↔ chains = []) as Hsome by (split; congruence).
  rewrite Hsome in Hc.
  transitivity (event_failures self = [] ∧ mandate_failures self = [] ∧ scope_failures self = []
    ∧ principal_failures self = [] ∧ team_failures self = [] ∧ label_failures self = []
    ∧ issue_label_failures self = [] ∧ marker_failures self = [] ∧ document_failures self = []
    ∧ chains = [] ∧ identity_failures self = []).
  { rewrite <-!app_nil. split; congruence. }
  rewrite event_failures_nil, mandate_failures_nil, scope_failures_nil, principal_failures_nil,
    team_failures_nil, label_failures_nil, issue_label_failures_nil, marker_failures_nil,
    document_failures_nil, Hc, identity_failures_nil.
  split; [intros H|intros []]; [|tauto]. destruct_and!. by constructor.
Qed.
End loads.

(** ** What a consumer can rely on *)

Lemma sort_by_fmap {A B K} `{PyOrd K} (f : A → B) (key : B → K) (l : list A) :
  f <$> sort_by (λ x, key (f x)) l = sort_by key (f <$> l).
Proof.
  induction l as [|x l IH]; [done|]. cbn [sort_by fmap list_fmap]. rewrite <-IH.
  generalize (sort_by (λ x, key (f x)) l). intros k. induction k as [|y k IHk]; [done|].
  cbn [sort_insert fmap list_fmap]. destruct (key_leb _ _); [done|]. cbn [fmap list_fmap]. by f_equal.
Qed.

Lemma phase_order_kinds rows :
  (∀ k, length (filter (.= k) (mandate_kind <$> rows)) = 1) →
  mandate_kind <$> phase_order rows = phase_sequence.
Proof.
  intros H. unfold phase_order. rewrite (sort_by_fmap mandate_kind phase_index).
  transitivity (sort_by phase_index phase_sequence); [|done]. apply sort_by_unique.
  - apply NoDup_Permutation; [|apply phase_sequence_NoDup|].
    + apply count_in_NoDup. intros k _. unfold count_in. rewrite H. lia.
    + intros k. split; [intros _; apply phase_sequence_all|]. intros _. apply count_in_pos.
      unfold count_in. rewrite H. lia.
  - apply NoDup_fmap_2_strong; [intros; by apply phase_index_inj|].
    apply count_in_NoDup. intros k _. unfold count_in. rewrite H. lia.
Qed.

Section loaded.
Context (self : OperationConfig) (Hwf : well_formed self).

Lemma first_holding role p :
  first_such (λ p, bool_decide (role ∈ principal_roles p)) (principals self) = Some p →
  p ∈ holding self role.
Proof.
  intros (l1 & l2 & E & Hp & _)%first_such_Some. apply list_elem_of_filter.
  split; [by apply bool_decide_eq_true_1 in Hp|]. rewrite E. apply elem_of_app. right. by left.
Qed.

Lemma loaded_approver :
  (principals self = [] ∧ approver self = Err (OperationMemberAbsentError "principal carrying the APPROVER role"))
  ∨ ∃ p, approver self = Ok p ∧ ∀ q, q ∈ principals self → APPROVER ∈ principal_roles q → q = p.
Proof.
  unfold approver. destruct (wf_authority _ Hwf) as [E|[[p Hp] _]]; [left; by rewrite E|right].
  assert (∀ q, q ∈ principals self → APPROVER ∈ principal_roles q → q = p) as Hq.
  { intros q Hin Hr. apply list_elem_of_singleton. rewrite <-Hp. by apply list_elem_of_filter. }
  destruct (first_such _ _) as [q|] eqn:E.
  - exists q. split; [done|]. apply first_holding in E. rewrite Hp in E.
    apply list_elem_of_singleton in E as ->. done.
  - exfalso. assert (p ∈ holding self APPROVER) as Hin by (rewrite Hp; by left).
    apply list_elem_of_filter in Hin as [Hr Hin].
    assert (bool_decide (APPROVER ∈ principal_roles p) = false) as Ef%bool_decide_eq_false_1; [|done].
    by apply (proj1 (Forall_forall _ _) (proj1 (first_such_None _ _) E)).
Qed.

Lemma loaded_assignee p q :
  assignee self = Ok p → q ∈ principals self → ASSIGNEE ∈ principal_roles q → q = p.
Proof.
  unfold assignee. destruct (first_such _ _) as [p'|] eqn:E; [|done]. intros [= ->] Hin Hr.
  pose proof (first_holding _ _ E) as Hp. assert (q ∈ holding self ASSIGNEE) as Hq by by apply list_elem_of_filter.
  destruct (wf_authority _ Hwf) as [En|[_ Hl]]; [rewrite En in Hin; by apply elem_of_nil in Hin|].
  destruct (holding self ASSIGNEE) as [|a [|]]; [by apply elem_of_nil in Hp| |cbn in Hl; lia].
  apply list_elem_of_singleton in Hp, Hq. congruence.
Qed.

(** An event that moves its issue moves it to a state the operation names. *)
Lemma loaded_event k stage :
  dict_get (run_event_states self) (kind_value k) = Some (inl stage) →
  k ∉ DERIVED_RUN_EVENTS ∧ k ∉ SILENT_STATE_EVENTS
  ∧ (workflow_states self = [] ∨ is_Some (dict_get (workflow_states self) stage)).
Proof.
  intros E. split_and!.
  1,2: destruct (wf_events _ Hwf) as [En|[_ H]]; [by rewrite En in E|];
    specialize (H _ _ E); unfold effect_fits in H; repeat case_decide; done.
  destruct (wf_stages _ Hwf) as [?|H]; [by left|right]. apply dict_get_is_Some, H.
Qed.

(** The resolved table: the governed sequence, each row under its approval, and no row
    marking with the label that admits a scope. *)
Lemma loaded_mandates :
  ∃ resolved, resolve_organize_mandates self = Ok resolved
    ∧ (organize_mandates self = [] ∧ resolved = []
       ∨ (λ r, mandate_kind (resolved_spec r)) <$> resolved = phase_sequence)
    ∧ ∀ r, r ∈ resolved → resolved_as self (resolved_spec r) r
        ∧ aliases_approval_member (terminal_marker r) (scope_labels self) = false.
Proof.
  pose proof (wf_mandates _ Hwf) as Hm. apply mandate_failures_nil in Hm. unfold mandate_failures in Hm.
  destruct (resolve_organize_mandates self) as [resolved|] eqn:E; [|done]. exists resolved. split; [done|].
  apply resolve_organize_mandates_ok in E as [[E ->]|(Hne & Hk & Hrs)].
  { split; [by left|]. by intros r ?%elem_of_nil. }
  split.
  - right. rewrite <-(phase_order_kinds _ Hk). clear -Hrs.
    induction Hrs as [|spec r rows rs [Es _] _ IH]; [done|]. cbn. by rewrite Es, IH.
  - intros r [i Hi]%list_elem_of_lookup. destruct (Forall2_lookup_r _ _ _ _ _ Hrs Hi) as (spec & _ & Hr).
    pose proof (proj1 Hr) as Es. rewrite Es. split; [done|].
    destruct Hr as (_ & _ & (ns & key & _ & _ & _ & Hal) & _).
    destruct (aliases_approval_member _ _); [|done]. by destruct (Hal eq_refl).
Qed.
End loaded.

(** *** Routing *)

Section routing.
Context (self : OperationConfig).

Lemma elem_of_bound key url :
  key ∈ teams_bound_to self url ↔ ∃ e, (key, e) ∈ teams self
    ∧ (repository e = Some url ∨ repository e = None ∧ repo_entry_url <$> repos self = [url]).
Proof.
  unfold teams_bound_to. cbv zeta. rewrite list_elem_of_fmap. setoid_rewrite list_elem_of_filter.
  setoid_rewrite bool_decide_eq_true. split.
  - intros ([k e] & -> & H & Hin). by exists e.
  - intros (e & Hin & H). by exists (key, e).
Qed.

Lemma elem_of_scanned key url :
  NoDup (dict_keys (teams self)) → url ∈ repo_entry_url <$> repos self →
  key ∈ teams_scanned_by self url ↔ ∃ e, (key, e) ∈ teams self ∧ (repository e = Some url ∨ repository e = None).
Proof.
  intros Hnd Hurl. unfold teams_scanned_by. case_decide as Hl.
  - rewrite elem_of_bound. destruct (repos self) as [|r [|]] eqn:Er; cbn in *;
      [by apply elem_of_nil in Hurl| |lia].
    apply list_elem_of_singleton in Hurl as <-. naive_solver.
  - cbv zeta. rewrite list_elem_of_fmap. setoid_rewrite list_elem_of_filter. split.
    + intros ([k e] & -> & Hor & Hin). cbn in Hor. exists e. split; [done|].
      destruct Hor as [(e' & Hin' & [?|[? _]])%elem_of_bound|Hn]; [left|right|by right].
      * apply dict_get_NoDup in Hin, Hin'; [congruence|done..].
      * apply dict_get_NoDup in Hin, Hin'; [congruence|done..].
    + intros (e & Hin & H). exists (key, e). split; [done|]. split; [|done]. cbn.
      destruct H as [H|H]; [left|by right]. apply elem_of_bound. exists e. auto.
Qed.
End routing.

(** C15. Loading always ends. It accepts a configuration exactly when its members are valid,
    the private hosts and workspaces among them, and it is well formed: one approver, no
    identity or label shared where it would be ambiguous, every reference declared, both
    vocabularies total, a total event table with each event's kind of effect, an organize
    table that names each phase once and marks no phase with the approval label, and check
    chains that can be classified. A row may gate on the approval label through any scope
    label spelled like it, as the code decides by namespace and not by the reference itself
    ([alias_gate_loads]). What is accepted is what was given, with its private facts brought
    to one spelling and no host under two; otherwise at least one failure is named. *)
Theorem load_well_formed `{HttpUrls} `{CaseFold} given :
  (∀ self, load given = Some (Ok self) ↔ validated given = Some self ∧ well_formed self)
  ∧ (∀ self, load given = Some (Ok self) →
       self = with_private_surface given (private_surface self)
       ∧ members_valid given = true
       ∧ (private_surface self = None ↔ private_surface given = None)
       ∧ ∀ p, private_surface self = Some p →
           NoDup (dict_keys (private_workspaces p))
           ∧ ∃ facts, private_surface given = Some facts ∧ validate_surface facts = Some p)
  ∧ ((∃ self, load given = Some (Ok self)) ∨ ∃ f fs, load given = Some (Err (f :: fs))).
Proof.
  assert (∀ self, load given = Some (Ok self) ↔ validated given = Some self ∧ well_formed self) as Hload.
  { intros self. unfold load. destruct (validated given) as [self'|]; [|by split; [|intros []]].
    rewrite <-check_structure_nil. destruct (_check_structure self') as [[|f fs]|] eqn:E; cbn [mbind option_bind].
    - split; [by intros [= <-]|]. by intros [[= <-] _].
    - split; [done|]. intros [[= <-] E']. congruence.
    - split; [done|]. intros [[= <-] E']. congruence. }
  split; [done|]. split.
  - intros self [Hv _]%Hload. unfold validated in Hv. destruct (members_valid given); [|done].
    destruct (private_surface given) as [facts|] eqn:Ep.
    + apply bind_Some in Hv as (p & Hp & [= <-]). cbn. split_and!; [done..|].
      intros p' [= <-]. split; [by destruct (validate_surface_hosts _ _ Hp)|]. by exists facts.
    + injection Hv as <-. rewrite Ep. split_and!; [by destruct given; cbn in *; subst|done|done|done].
  - unfold load. destruct (validated given) as [self'|]; [|right; by exists MemberInvalid, []].
    unfold _check_structure. destruct (repo_chain_failures_total self') as [chains ->]. cbn [mbind option_bind].
    destruct (event_failures self' ++ _) as [|f fs]; [left; by eexists|right; by exists f, fs].
Qed.

Lemma load_check `{HttpUrls} `{CaseFold} given self :
  load given = Some (Ok self) → _check_structure self = Some [].
Proof.
  unfold load. destruct (validated given) as [self'|]; [|done].
  destruct (_check_structure self') as [[|f fs]|] eqn:E; cbn; [by intros [= <-]|done..].
Qed.

(** C16. What an accepted configuration answers at its points of need. An operation with
    principals has one approver and at most one assignee, and [approver] and [assignee]
    name them; the resolved organize table is empty or the governed sequence, every row
    with the labels and the role of its phase and none marking with the label that admits
    a scope; no queue state is spelled as that label; an event moves an issue only if its
    kind is one that moves, to a state the operation names; and every team is scanned: a
    bound team by the pass of its repository alone, an unbound team by every pass. *)
Theorem loaded_operation `{HttpUrls} `{CaseFold} given self :
  load given = Some (Ok self) → NoDup (dict_keys (teams self)) →
  (principals self = [] ∨ ∃ p, approver self = Ok p
     ∧ ∀ q, q ∈ principals self → APPROVER ∈ principal_roles q → q = p)
  ∧ (∀ p q, assignee self = Ok p → q ∈ principals self → ASSIGNEE ∈ principal_roles q → q = p)
  ∧ (∃ resolved, resolve_organize_mandates self = Ok resolved
      ∧ (organize_mandates self = [] ∧ resolved = []
         ∨ (λ r, mandate_kind (resolved_spec r)) <$> resolved = phase_sequence)
      ∧ ∀ r, r ∈ resolved → resolved_as self (resolved_spec r) r
          ∧ aliases_approval_member (terminal_marker r) (scope_labels self) = false)
  ∧ (∀ label, label ∈ dict_values (queue_state_labels self) →
       aliases_approval_member label (scope_labels self) = false)
  ∧ (∀ k stage, dict_get (run_event_states self) (kind_value k) = Some (inl stage) →
       k ∉ DERIVED_RUN_EVENTS ∧ k ∉ SILENT_STATE_EVENTS
       ∧ (workflow_states self = [] ∨ is_Some (dict_get (workflow_states self) stage)))
  ∧ (∀ key team url, (key, team) ∈ teams self → url ∈ repo_entry_url <$> repos self →
       (key ∈ teams_scanned_by self url ↔ repository team = None ∨ repository team = Some url))
  ∧ (∀ key team url, (key, team) ∈ teams self → repository team = Some url →
       url ∈ repo_entry_url <$> repos self).
Proof.
  intros Hl Hnd. apply load_check, check_structure_nil in Hl as Hwf.
  split; [|split; [|split; [|split; [|split; [|split]]]]].
  - destruct (loaded_approver _ Hwf) as [[? _]|?]; auto.
  - intros p q. by apply loaded_assignee.
  - by apply loaded_mandates.
  - apply (wf_approval _ Hwf).
  - apply (loaded_event _ Hwf).
  - intros key team url Hin Hurl. rewrite elem_of_scanned by done. split.
    + intros (e & Hin' & Hor). apply dict_get_NoDup in Hin, Hin'; [|done..].
      assert (e = team) as -> by congruence. tauto.
    + intros Hor. exists team. tauto.
  - apply (wf_team_repos _ Hwf).
Qed.

(** ** A configuration that loads *)

Definition sample_effect (k : RunEventKind) : event_effect :=
  if decide (k ∈ DERIVED_RUN_EVENTS) then inr DERIVED
  else if decide (k ∈ SILENT_STATE_EVENTS) then inr NO_TRANSITION else inl IN_PROGRESS.

Definition sample_row (k : MandateKind) (gate marker : string) : MandateSpec := {|
  mandate_kind := k; gate_label_key := gate; rubric_prompt_key := ORGANIZE_SPEC_RUBRIC;
  admission_prompt_key := ORGANIZE_ASSESS; terminal_marker_key := marker |}.

Definition sample_repo (url : string) : RepoEntry := {|
  repo_entry_url := url; trunk := "main"; checks := sample_chain; runner_environment := [];
  forge_exempt := false |}.

(** An address whose host is all there is of it. *)
#[local] Instance plain_urls : HttpUrls := λ s,
  host ← strip_prefix "https://" s;
  Some {| url_host := Some host; url_username := None; url_password := None; url_path := Some "/";
          url_query := None; url_fragment := None |}.
#[local] Instance plain_casefold : CaseFold := id.

Definition sample_operation : OperationConfig := {|
  operation_name := "op"; config_workspace := "w";
  principals := [{| tracker_user := "ann"; principal_roles := {[ APPROVER; PRINCIPAL; ASSIGNEE ]};
                    principal_handle := "@ann"; forge_handle := None |};
                 {| tracker_user := "bob"; principal_roles := {[ PRINCIPAL ]};
                    principal_handle := "@bob"; forge_handle := Some "bobby" |}];
  agent_identities := ["bot"];
  teams := [("eng", plain_team "Engineering" (Some "u1")); ("ops", plain_team "Operations" None)];
  queue_state_labels := (λ q, (queue_state_value q, "q-" +:+ queue_state_value q)) <$> finite.enum QueueState;
  scope_labels := (λ l, (scope_label_value l, "s-" +:+ scope_label_value l)) <$> SCOPE_LABELS;
  config_issue_labels := [("written", "spec-written"); ("drafted", "criteria-drafted")];
  organize_mandates := [sample_row CRITERIA "issue_labels.written" "issue_labels.drafted";
                        sample_row TICKET "scope_labels.approved" "issue_labels.written"];
  organize_scopes := [{| binding_scope := {| scope_kind := PROJECT; scope_key := "P" |};
                         binding_repo_url := "u1"; report_issue_key := None |}];
  workflow_states := [(IN_PROGRESS, "Doing"); (IN_REVIEW, "Review"); (DONE, "Done")];
  run_event_states := (λ k, (kind_value k, sample_effect k)) <$> RUN_EVENT_KINDS;
  marker_prefixes := [("run_event", "kodezart")];
  repos := [sample_repo "u1"; sample_repo "u2"];
  documents := [("checkpoint", {| document_system := SYSTEM_TRACKER; document_name := "Checkpoint";
                                  document_id := None; document_container := Some "ops" |})];
  record_destinations := []; knowledge := []; endpoints := [];
  private_surface := Some {| description := "the clients"; private_hosts := ["example.org."];
                             private_workspaces := [("linear.app", ["w"])] |} |}.
Definition sample_loaded : OperationConfig := with_private_surface sample_operation
  (Some {| description := "the clients"; private_hosts := ["example.org"];
           private_workspaces := [("linear.app", ["w"])] |}).

Lemma sample_loads : load sample_operation = Some (Ok sample_loaded).
Proof. vm_compute. reflexivity. Qed.

Example loaded_operation_witness :
  (∃ p, approver sample_loaded = Ok p ∧ tracker_user p = "ann")
  ∧ "ops" ∈ teams_scanned_by sample_loaded "u2" ∧ "eng" ∉ teams_scanned_by sample_loaded "u2".
Proof.
  destruct (loaded_operation sample_operation sample_loaded sample_loads) as (Ha & _ & _ & _ & _ & Hs & _).
  { by apply (bool_decide_unpack _). }
  destruct Ha as [Ha|(p & Hp & Hq)]; [discriminate Ha|].
  split; [|split].
  - exists p. split; [exact Hp|]. vm_compute in Hp. injection Hp as <-. reflexivity.
  - apply (Hs "ops" (plain_team "Operations" None) "u2"); [right; left|right; left|left; reflexivity].
  - intros Hin. apply (Hs "eng" (plain_team "Engineering" (Some "u1")) "u2") in Hin;
      [destruct Hin as [H|H]; discriminate H|left|right; left].
Defined.

(** The documentation lets a row gate on the approval label by the reference
    [scope_labels.approved] alone, and never through an alias. This table gates on another
    scope label spelled like it, and loads. *)
Definition alias_operation : OperationConfig := {|
  operation_name := "op"; config_workspace := "w"; principals := []; agent_identities := []; teams := [];
  queue_state_labels := [];
  scope_labels := [("triage", "s-approved"); ("proposed", "s-proposed"); ("approved", "s-approved")];
  config_issue_labels := [("written", "spec-written"); ("drafted", "criteria-drafted")];
  organize_mandates := [sample_row TICKET "scope_labels.triage" "issue_labels.written";
                        sample_row CRITERIA "issue_labels.written" "issue_labels.drafted"];
  organize_scopes := []; workflow_states := []; run_event_states := []; marker_prefixes := []; repos := [];
  documents := []; record_destinations := []; knowledge := []; endpoints := []; private_surface := None |}.
Example alias_gate_loads : load alias_operation = Some (Ok alias_operation).
Proof. vm_compute. reflexivity. Qed.
