(* ===== verification/LaneRecords.v ===== *)
(** * The lane record's comment (domain/lane_record.py, services/lane_records.py).

    A record is rendered as one JSON block between its marker and a fixed section, which
    was worded differently before; the reader finds the one comment under the lane's
    marker and parses it, refusing everything it cannot read. *)

From Stdlib Require Import Ascii.
From S2P Require Import Prelude PyStr PyLines Tracker Errors Json Lapse BaseResolution LaneRecord LaneEntry.
From S2P Require Import Surface CommentMarkers.

Local Open Scope nat_scope.

(** ** The text (domain/lane_record.py) *)

Definition RUN_STATE_PURPOSE : string := "run_state".
Definition LANDING_ROW_SUBJECT : string := "land: the best iteration this run reached".

Definition REENTRY_SECTION : string :=
"## Re-entry

Resume at the record's last commit act, the sha of its final commits row, and
never at a remote tip the record does not name. Find the loop branch by the
LOOP role and the record's branch field. When the remote holds it at that sha,
check it out and continue it. When it stands anywhere else, a lane that still
owes criteria cuts a fresh loop branch from the record's last commit act and
keeps the old association, and the old branch stays where it stands; a lane
that owes nothing and carries no pull request is refused rather than delivered
from a branch standing elsewhere. When the remote no longer holds it, recover
it before continuing: never mint a new branch in place of a recorded
association. pushedHeadSha is where the remote held the loop branch when a
commit last observed it, not the head to resume at. Follow the explicit roles
and derivedFrom links to the deliverable, other loop and recovery branches; do
not infer their roles from their names. Associations survive reaping, so verify
current remote liveness before checkout.

Grade the existing commits against each criterion sub-issue's own Check and
verification instructions, reading satisfaction and Evidence on that sub-issue.
Let only failing criteria drive new work.".

Definition PREVIOUS_REENTRY_SECTIONS : list string := [
"## Re-entry

Resume the branch identified by the LOOP role and the record's branch field.
When pushedHeadSha is present, that branch exists on the remote at the recorded
head; check out the existing branch. When pushedHeadSha is null, no remote copy
was recorded: recover the existing branch before continuing. Never mint a new
branch in place of a recorded association. Follow the explicit roles and
derivedFrom links to the deliverable, other loop and recovery branches; do not
infer their roles from their names. Associations survive reaping, so verify
current remote liveness before checkout.

Grade the existing commits against each criterion sub-issue's own Check and
verification instructions, reading satisfaction and Evidence on that sub-issue.
Let only failing criteria drive new work.";
"## Re-entry

Resume at the record's last commit act, the sha of its final commits row, and
never at a remote tip the record does not name. Find the loop branch by the
LOOP role and the record's branch field. When the remote holds it at that sha,
check it out and continue it. When it stands anywhere else, cut a fresh loop
branch from that sha and keep the old association; the old branch stays where
it stands. When the remote no longer holds it, recover it before continuing:
never mint a new branch in place of a recorded association. pushedHeadSha is
where the remote held the loop branch when a commit last observed it, not the
head to resume at. Follow the explicit roles and derivedFrom links to the
deliverable, other loop and recovery branches; do not infer their roles from
their names. Associations survive reaping, so verify current remote liveness
before checkout.

Grade the existing commits against each criterion sub-issue's own Check and
verification instructions, reading satisfaction and Evidence on that sub-issue.
Let only failing criteria drive new work."].

(** pydantic: [model_dump_json(by_alias=True, indent=2)] and
    [model_validate_json(..., strict=True)] of a record. *)
Class RecordJson := {
  dump_record : LaneRunState → string;
  validate_record_json : string → option LaneRunState;
}.

Definition record_fence : string := "```json" +:+ nl.
Definition section_frame (section : string) : string := nl +:+ "```" +:+ nl +:+ nl +:+ section.

Section text.
Context `{RecordJson} (prefixes : pydict string string).

Definition lane_record_body (record : LaneRunState) : string :=
  record_fence +:+ dump_record record +:+ section_frame REENTRY_SECTION.

Definition record_marker (lane : string) : result exn string :=
  compose_comment_marker prefixes RUN_STATE_PURPOSE lane None.

Definition render_lane_record (record : LaneRunState) : result exn string :=
  marker ← record_marker (lane_key record);
  marked_comment_body marker (lane_record_body record).

Definition framing_error : exn :=
  ValueError "the record framing or fixed re-entry section is invalid".

(** [json.loads] raises on a text that is no JSON or repeats a key. *)
Definition parse_lane_record (text lane : string) : result exn LaneRunState :=
  marker ← record_marker lane;
  let prefix := marker +:+ nl +:+ record_fence in
  let suffix := first_such (λ framed, endswith text framed)
                  (section_frame <$> REENTRY_SECTION :: PREVIOUS_REENTRY_SECTIONS) in
  match suffix with
  | None => Err framing_error
  | Some suffix =>
      raise_if (negb (startswith text prefix)) framing_error
      (let payload := str_drop (String.length prefix)
                        (str_take (String.length text - String.length suffix) text) in
       raise_if (negb (json_loads_unique payload)) (ValueError "invalid record JSON")
       (match validate_record_json payload with
        | None => Err (ValidationError "LaneRunState")
        | Some record =>
            raise_if (negb (bool_decide (lane_key record = lane)))
              (ValueError "the record lane does not match its configured marker") (Ok record)
        end))
  end.

(** ** The reader (services/lane_records.py) *)

Definition is_ValueError (e : exn) : bool :=
  match e with ValueError _ | ValueErrorOf _ _ | ValidationError _ => true | _ => false end.

Definition _addressed (on_issue lane : string) (record_ref : option string) : result exn string :=
  marker ← record_marker lane;
  raise_if (bool_decide (on_issue = "" ∨ record_ref = Some ""))
    (LaneRecordReadError on_issue lane record_ref EmptyReference) (Ok marker).

Definition locate (comments : list TrackerComment) (on_issue lane : string)
    (record_ref : option string) : result exn (option (TrackerComment * LaneRunState)) :=
  let refusal reason := LaneRecordReadError on_issue lane record_ref reason in
  marker ← _addressed on_issue lane record_ref;
  raise_if (existsb (λ c, negb (bool_decide (comment_issue_key c = on_issue))) comments)
    (refusal ForeignComment)
  (found ← match comment_under_marker on_issue marker comments false with
           | Err (DuplicateCommentMarkerError _ _ _) => Err (refusal SeveralRecords)
           | r => r
           end;
   match found with
   | None => Ok None
   | Some c =>
       raise_if (match record_ref with
                 | Some ref => negb (bool_decide (comment_key c = ref))
                 | None => false
                 end) (refusal NotTheReference)
       (raise_if (negb (bool_decide (reply_to c = None))) (refusal RecordInReply)
         (match parse_lane_record (comment_body c) lane with
          | Ok record => Ok (Some (c, record))
          | Err e => if is_ValueError e then Err (refusal InvalidRecordBody) else Err e
          end))
   end).

(** What a listing that failed to arrive raises. *)
Definition unreadable_listing (e : exn) : bool :=
  is_TransientAPIError e ||
  match e with
  | TrackerUnavailableError | TrackerAccessDeniedError | TrackerProtocolError _
  | ValidationError _ => true
  | _ => false
  end.

(** [listing] is what [list_comments] answers. *)
Definition find (listing : result exn (list TrackerComment)) (on_issue lane : string)
    (record_ref : option string) : result exn (option (TrackerComment * LaneRunState)) :=
  _ ← _addressed on_issue lane record_ref;
  comments ← match listing with
             | Err e => if unreadable_listing e
                        then Err (LaneRecordReadError on_issue lane record_ref ReadFailed) else Err e
             | r => r
             end;
  locate comments on_issue lane record_ref.

Definition read (listing : result exn (list TrackerComment)) (on_issue lane : string)
    (record_ref : option string) : result exn (TrackerComment * LaneRunState) :=
  located ← find listing on_issue lane record_ref;
  match located with
  | None => Err (LaneRecordReadError on_issue lane record_ref NoLaneComment)
  | Some found => Ok found
  end.

(** [RecordedDeliverableRefs.work_refs] *)
Definition work_refs (listing : result exn (list TrackerComment)) (on_issue : string) :
    result exn (list WorkRef) :=
  located ← find listing on_issue on_issue None;
  match located with
  | None => Ok []
  | Some (c, record) =>
      branches ← recorded_branches record;
      raise_if (bool_decide (named_deliverable branches = "")) (ValidationError "WorkRef")
      (Ok [{| ref_issue_id := on_issue; ref_role := DELIVERABLE;
               ref_branch := named_deliverable branches;
               pushed_head_sha := record_pushed_sha record;
               landing := UNKNOWN; recorded_at := comment_created_at c |}])
  end.
End text.

(** * Lemmas *)

Definition RECORD_SECTIONS : list string := REENTRY_SECTION :: PREVIOUS_REENTRY_SECTIONS.

(** Two endings of one text: one is an ending of the other. *)
Lemma endings_nested t a b :
  endswith t a = true → endswith t b = true → endswith a b = true ∨ endswith b a = true.
Proof.
  rewrite !endswith_spec. intros [x ->] [y E].
  assert (∀ x y a b, x +:+ a = y +:+ b → (∃ r, a = r +:+ b) ∨ (∃ r, b = r +:+ a)) as H; [|by eapply H].
  clear. induction x as [|c x IH]; intros [|d y] a b E.
  - left. by exists "".
  - left. cbn in E. exists (String d y). done.
  - right. cbn in E. exists (String c x). by rewrite <-E.
  - injection E as -> E. by apply (IH y).
Qed.

(** No section's frame ends with another's, so a text's is found. *)
Lemma section_found section text :
  section ∈ RECORD_SECTIONS → endswith text (section_frame section) = true →
  first_such (λ framed, endswith text framed) (section_frame <$> RECORD_SECTIONS)
  = Some (section_frame section).
Proof.
  intros Hs He.
  assert (∀ other, other ∈ RECORD_SECTIONS → endswith text (section_frame other) = true → other = section) as Hu.
  { intros other Ho Heo.
    assert (Forall (λ a, Forall (λ b, endswith (section_frame a) (section_frame b) = true → a = b)
      RECORD_SECTIONS) RECORD_SECTIONS) as Hd.
    { unfold RECORD_SECTIONS, PREVIOUS_REENTRY_SECTIONS.
      repeat (constructor; [repeat (constructor; [first [intros _; reflexivity|intros E; vm_compute in E; discriminate E]|]); constructor|]);
      constructor. }
    rewrite Forall_forall in Hd. pose proof (Hd _ Hs) as H1. pose proof (Hd _ Ho) as H2.
    rewrite Forall_forall in H1, H2. destruct (endings_nested _ _ _ Heo He) as [E|E].
    - by apply H2. - symmetry. by apply H1. }
  destruct (first_such _ _) as [framed|] eqn:E.
  - apply first_such_Some in E as (l1 & l2 & El & Hf & _).
    assert (framed ∈ section_frame <$> RECORD_SECTIONS) as (o & -> & Ho)%list_elem_of_fmap
      by (rewrite El; apply elem_of_app; right; by left).
    by rewrite (Hu o Ho Hf).
  - rewrite first_such_None, Forall_fmap, Forall_forall in E.
    assert (endswith text (section_frame section) = false) by exact (E section Hs). congruence.
Qed.

Section readback.
Context `{RecordJson} (prefixes : pydict string string) (Hvalid : marker_prefixes_valid prefixes = true).

(** A record as some section framed it. *)
Definition framed_record (marker section : string) (r : LaneRunState) : string :=
  marker +:+ nl +:+ record_fence +:+ dump_record r +:+ section_frame section.

(** What pydantic and [json] make of a record's own JSON. *)
Definition json_reads_back (r : LaneRunState) : Prop :=
  json_loads_unique (dump_record r) = true ∧ validate_record_json (dump_record r) = Some r.

Lemma rendered_record r marker :
  record_marker prefixes (lane_key r) = Ok marker →
  render_lane_record prefixes r = Ok (framed_record marker REENTRY_SECTION r).
Proof.
  intros Hm. unfold render_lane_record. rewrite Hm. cbn [mbind result_bind].
  destruct (marker_unbroken prefixes Hvalid _ _ _ _ Hm). by rewrite marked_ok.
Qed.

Lemma parse_framed r marker section :
  record_marker prefixes (lane_key r) = Ok marker → section ∈ RECORD_SECTIONS → json_reads_back r →
  parse_lane_record prefixes (framed_record marker section r) (lane_key r) = Ok r.
Proof.
  intros Hm Hs [Hj Hv]. unfold parse_lane_record. rewrite Hm. cbn [mbind result_bind].
  change (REENTRY_SECTION :: PREVIOUS_REENTRY_SECTIONS) with RECORD_SECTIONS.
  rewrite (section_found section) by (try done; apply endswith_spec;
    exists (marker +:+ nl +:+ record_fence +:+ dump_record r); unfold framed_record; by rewrite !str_app_assoc).
  assert (framed_record marker section r
    = ((marker +:+ nl +:+ record_fence) +:+ dump_record r) +:+ section_frame section) as ->
    by (unfold framed_record; by rewrite !str_app_assoc).
  assert (startswith (((marker +:+ nl +:+ record_fence) +:+ dump_record r) +:+ section_frame section)
    (marker +:+ nl +:+ record_fence) = true) as ->
    by (rewrite <-str_app_assoc; apply startswith_app).
  cbn [negb raise_if]. set (framed := (_ +:+ _) +:+ dump_record r).
  assert (String.length (framed +:+ section_frame section) - String.length (section_frame section)
    = String.length framed) as -> by (rewrite str_length_app; lia).
  rewrite str_take_app. unfold framed.
  rewrite str_drop_app, Hj, Hv. by rewrite bool_decide_true.
Qed.

(** The one comment under a marker. *)
Lemma sole_comment target marker l1 c l2 :
  carries marker (comment_body c) = true →
  (∀ d, d ∈ l1 ++ l2 → carries marker (comment_body d) = false) →
  comment_under_marker target marker (l1 ++ c :: l2) false = Ok (Some c).
Proof.
  intros Hc Hrest. unfold comment_under_marker. rewrite filter_app, filter_cons, decide_True by done.
  rewrite !filter_none; [done|..]; intros d Hd; rewrite Hrest; try done; apply elem_of_app; auto.
Qed.

Lemma framed_carries marker section r :
  unbroken marker = true → carries marker (framed_record marker section r) = true.
Proof. intros Hu. unfold framed_record. rewrite carries_marked by done. by apply bool_decide_eq_true. Qed.

Lemma located_record r marker section on_issue l1 c l2 ref :
  record_marker prefixes (lane_key r) = Ok marker → section ∈ RECORD_SECTIONS → json_reads_back r →
  comment_body c = framed_record marker section r → reply_to c = None →
  on_issue ≠ "" → (∀ d, d ∈ l1 ++ c :: l2 → comment_issue_key d = on_issue) →
  (∀ d, d ∈ l1 ++ l2 → carries marker (comment_body d) = false) →
  ref = None ∨ ref = Some (comment_key c) ∧ comment_key c ≠ "" →
  locate prefixes (l1 ++ c :: l2) on_issue (lane_key r) ref = Ok (Some (c, r)).
Proof.
  intros Hm Hs Hj Hb Hreply Hon Hissue Hrest Href. unfold locate, _addressed. rewrite Hm.
  cbn [mbind result_bind].
  rewrite bool_decide_false by (destruct Href as [->|[-> ?]]; intros [|]; congruence).
  cbn [raise_if mbind result_bind].
  assert (existsb (λ d, negb (bool_decide (comment_issue_key d = on_issue))) (l1 ++ c :: l2) = false) as ->.
  { apply not_true_iff_false. rewrite existsb_exists. intros (d & Hd%list_elem_of_In & E).
    rewrite bool_decide_true in E by (by apply Hissue). done. }
  cbn [raise_if]. destruct (marker_unbroken prefixes Hvalid _ _ _ _ Hm) as [Hu _].
  rewrite sole_comment by (try done; rewrite Hb; by apply framed_carries). cbn [mbind result_bind].
  assert (match ref with Some k => negb (bool_decide (comment_key c = k)) | None => false end = false) as ->
    by (destruct Href as [->|[-> _]]; [done|by rewrite bool_decide_true]).
  rewrite Hreply, bool_decide_true by done. cbn [raise_if negb]. rewrite Hb. by rewrite parse_framed.
Qed.
End readback.

(** C33. What the lane wrote of itself is what every reader of it finds. A record rendered
    under the lane's marker, with the current section or an earlier one, is found among
    any other comments of the issue that do not carry that marker, and reads back as the
    same record, with its comment. When it is the record of a lane's own life, base
    resolution is answered with exactly one ref: the lane's deliverable branch, at the
    head last pushed, stamped with the comment's creation. *)
Theorem lane_record_read_back `{RecordJson} (prefixes : pydict string string)
    (r : LaneRunState) (section : string) (l1 l2 : list TrackerComment) (c : TrackerComment)
    (Hvalid : marker_prefixes_valid prefixes = true)
    (Hmarker : is_ok (record_marker prefixes (lane_key r)) = true)
    (Hsection : section ∈ RECORD_SECTIONS) (Hjson : json_reads_back r)
    (Hbody : ∀ marker, record_marker prefixes (lane_key r) = Ok marker →
       comment_body c = framed_record marker section r
       ∧ ∀ d, d ∈ l1 ++ l2 → carries marker (comment_body d) = false)
    (Hreply : reply_to c = None)
    (Hissue : ∀ d, d ∈ l1 ++ c :: l2 → comment_issue_key d = lane_key r) :
  find prefixes (Ok (l1 ++ c :: l2)) (lane_key r) (lane_key r) None = Ok (Some (c, r))
  ∧ ∀ binding, lane_life (Some r) binding →
      ∃ recorded, recorded_lane r = Ok recorded
        ∧ work_refs prefixes (Ok (l1 ++ c :: l2)) (lane_key r)
          = Ok [{| ref_issue_id := lane_key r; ref_role := DELIVERABLE;
                   ref_branch := named_deliverable (recorded_names recorded);
                   pushed_head_sha := record_pushed_sha r; landing := UNKNOWN;
                   recorded_at := comment_created_at c |}].
Proof.
  destruct (record_marker prefixes (lane_key r)) as [marker|] eqn:Hm; [|done].
  destruct (Hbody marker eq_refl) as [Hb Hrest].
  destruct (compose_ok prefixes Hvalid _ _ _ _ Hm) as (_ & _ & _ & Hlane & _ & _).
  assert (find prefixes (Ok (l1 ++ c :: l2)) (lane_key r) (lane_key r) None = Ok (Some (c, r))) as Hf.
  { unfold find, _addressed. rewrite Hm. cbn [mbind result_bind].
    rewrite bool_decide_false by (intros [|]; congruence). cbn [raise_if mbind result_bind].
    eapply located_record; try done. by left. }
  split; [done|]. intros binding (d & bs & Hr & _)%lane_life_lineage.
  destruct (one_lineage_enters _ _ _ Hr) as (row & Erl & _). eexists. split; [exact Erl|].
  unfold work_refs. rewrite Hf. cbn [mbind result_bind].
  unfold recorded_lane in Erl. apply bind_ok in Erl as (names & -> & Erl).
  apply bind_ok in Erl as (? & _ & Erl). injection Erl as -> _. cbn [mbind result_bind].
  rewrite bool_decide_false; [done|]. apply (lineage_named _ _ _ Hr).
Qed.

(** ** A lane's record among its comments *)

Definition empty_record : LaneRunState := {|
  lane_key := ""; record_branch := ""; branch_url := ""; head_sha := ""; record_pushed_sha := None;
  commits_ahead := 0; files_changed := 0; commits := []; pr := None; record_digest := None;
  dispatch_base := None; associations := [] |}.
Definition lived_record : LaneRunState :=
  match sample_life with Ok r => r | Err _ => empty_record end.

(** Two fields of the record, read back for the record above. *)
Definition sample_dump (r : LaneRunState) : string :=
  let field k v := String dq (k +:+ String dq (": " +:+ String dq (v +:+ String dq ""))) in
  "{" +:+ nl +:+ field "laneKey" (lane_key r) +:+ "," +:+ nl +:+ field "headSha" (head_sha r) +:+ nl +:+ "}".
#[local] Instance sample_record_json : RecordJson := {|
  dump_record := sample_dump;
  validate_record_json s := if decide (s = sample_dump lived_record) then Some lived_record else None |}.

Definition record_comment : TrackerComment :=
  {| comment_key := "r"; comment_issue_key := "K-1"; author_key := Some "bot";
     comment_body := framed_record "[kz-state:K-1]" REENTRY_SECTION lived_record;
     comment_created_at := 7; reply_to := None |}.

Example lane_record_read_back_witness :
  find sample_prefixes (Ok [sample_comment "n" "a note"; record_comment]) "K-1" "K-1" None
    = Ok (Some (record_comment, lived_record))
  ∧ ∃ refs, work_refs sample_prefixes (Ok [sample_comment "n" "a note"; record_comment]) "K-1" = Ok refs
      ∧ ref_branch <$> refs = ["kodezart/K-1-aa"].
Proof.
  destruct (lane_record_read_back sample_prefixes lived_record REENTRY_SECTION
    [sample_comment "n" "a note"] [] record_comment) as [Hf Hw].
  - by vm_compute.
  - by vm_compute.
  - by left.
  - split; by vm_compute.
  - intros marker Hm. vm_compute in Hm. injection Hm as <-. split; [by vm_compute|].
    intros d [->|[]%elem_of_nil]%elem_of_cons. by vm_compute.
  - done.
  - intros d [->|[->|[]%elem_of_nil]%elem_of_cons]%elem_of_cons; by vm_compute.
  - split; [exact Hf|]. assert (sample_life = Ok lived_record) as Hl by (by vm_compute).
    destruct (Hw _ (sample_lived _ Hl)) as (recorded & Hr & Hrefs).
    eexists. split; [exact Hrefs|]. vm_compute in Hr. by injection Hr as <-.
Defined.
