(* ===== verification/LanePort.v ===== *)
(** * The tracker as a lane's writer meets it (adapters/linear/tracker.py).

    The operations of the port the writer uses, as the adapter makes them: sequences of
    calls over the board, none of which is conditional on what an earlier one read.
    Between two calls others may write, a call may fail unperformed, and it may be
    performed and its answer lost: a [turn] says which. A run keeps what its own calls
    did to the board, one pair of boards a call. A call stands for its retries, which
    the adapter makes only of what was not sent.

    [runs] is the program logic the writer is proved in: whatever the turns, as long as
    others keep to [rely], every own step satisfies the guarantee, an answer satisfies
    its postcondition, and a refusal leaves what the last argument says. *)

From S2P Require Import Prelude PyStr PyLines Tracker Errors FireSpec Criteria Lapse CriterionEvidence CrossOff.
From S2P Require Import Surface CommentMarkers IssueIdentity RunEvents.

Local Open Scope nat_scope.

(** ** The board *)

(** The issues, the comments of the lane's issue, and the backend's clock. *)
Record tracker_world := {
  issues : gmap string TrackerIssue;
  lane_comments : list TrackerComment;
  clock : Z;
}.

(** What the backend assigns and the operation configures. *)
Record Backend := {
  new_comment_key : tracker_world → string;
  author : string;
  writer_identity : gset string;
  (* the member an issue is attributed to, who does not change *)
  created_by : string → option string;
  done_state : option string;
  pending_state : string;
}.

Inductive fate := Answered | Unperformed (e : exn) | Unanswered (e : exn).

Record turn := { meanwhile : tracker_world → tracker_world; answer : fate }.
Definition quiet : turn := {| meanwhile := id; answer := Answered |}.

Record run := {
  world : tracker_world;
  turns : list turn;
  steps : list (tracker_world * tracker_world);
}.

(** ** Programs *)

Definition io (A : Type) : Type := run → run * result exn A.
#[export] Instance io_mret : MRet io := λ A a s, (s, Ok a).
#[export] Instance io_mbind : MBind io := λ A B f m s,
  match m s with (s', Ok a) => f a s' | (s', Err e) => (s', Err e) end.
#[export] Instance io_fmap : FMap io := λ A B f m, m ≫= λ a, mret (f a).

Definition lift {A} (r : result exn A) : io A := λ s, (s, r).

Definition call {A} (op : tracker_world → tracker_world * result exn A) : io A := λ s,
  let t := default quiet (head (turns s)) in
  let w := meanwhile t (world s) in
  match answer t with
  | Unperformed e => ({| world := w; turns := tail (turns s); steps := steps s |}, Err e)
  | told =>
      let '(w', r) := op w in
      ({| world := w'; turns := tail (turns s); steps := steps s ++ [(w, w')] |},
       match told with Unanswered e => Err e | _ => r end)
  end.

Fixpoint each {A} (f : A → io unit) (l : list A) : io unit :=
  match l with [] => mret tt | x :: l => _ ← f x; each f l end.

(** ** The port's calls *)

Definition with_body (i : TrackerIssue) (text : string) (now : Z) : TrackerIssue := {|
  issue_key := issue_key i; title := title i; body := text; priority := priority i;
  state_name := state_name i; state_kind := state_kind i;
  queue_states := queue_states i; issue_labels := issue_labels i; team_key := team_key i;
  project := project i; project_id := project_id i; milestone_key := milestone_key i;
  relations := relations i; parent_key := parent_key i; assignee_key := assignee_key i;
  created_at := created_at i; updated_at := now; url := url i |}.

Definition with_state (i : TrackerIssue) (name : string) (kind : WorkflowStateKind) (now : Z) :
    TrackerIssue := {|
  issue_key := issue_key i; title := title i; body := body i; priority := priority i;
  state_name := name; state_kind := kind;
  queue_states := queue_states i; issue_labels := issue_labels i; team_key := team_key i;
  project := project i; project_id := project_id i; milestone_key := milestone_key i;
  relations := relations i; parent_key := parent_key i; assignee_key := assignee_key i;
  created_at := created_at i; updated_at := now; url := url i |}.

Definition unknown_issue : exn := TrackerProtocolError "the issue is absent".

Definition get_issue (key : string) (w : tracker_world) : tracker_world * result exn TrackerIssue :=
  (w, match issues w !! key with Some i => Ok i | None => Err unknown_issue end).

Definition save_issue (key : string) (f : Z → TrackerIssue → TrackerIssue) (w : tracker_world) :
    tracker_world * result exn TrackerIssue :=
  let now := (clock w + 1)%Z in
  match issues w !! key with
  | Some i => ({| issues := <[key := f now i]> (issues w); lane_comments := lane_comments w;
                  clock := now |}, Ok (f now i))
  | None => (w, Err unknown_issue)
  end.

Definition get_comments (w : tracker_world) : tracker_world * result exn (list TrackerComment) :=
  (w, Ok (lane_comments w)).

Section port.
Context `{IdentityJson} (b : Backend) (prefixes : pydict string string) (lane : string).

Definition create_comment (text : string) (w : tracker_world) : tracker_world * result exn unit :=
  let now := (clock w + 1)%Z in
  ({| issues := issues w;
      lane_comments := lane_comments w ++
        [{| comment_key := new_comment_key b w; comment_issue_key := lane;
            author_key := Some (author b); comment_body := text;
            comment_created_at := now; reply_to := None |}];
      clock := now |}, Ok tt).

Definition rewrite_comment (key text : string) (w : tracker_world) : tracker_world * result exn unit :=
  ({| issues := issues w;
      lane_comments := (λ c, if decide (comment_key c = key) then
        {| comment_key := comment_key c; comment_issue_key := comment_issue_key c;
           author_key := author_key c; comment_body := text;
           comment_created_at := comment_created_at c; reply_to := reply_to c |} else c)
        <$> lane_comments w;
      clock := (clock w + 1)%Z |}, Ok tt).

(** ** The port's operations *)

Definition read_issue (key : string) : io TrackerIssue := call (get_issue key).
Definition list_comments : io (list TrackerComment) := call get_comments.

(** The members this credential writes as, one read of the current user. *)
Definition _require_machine_authored (key : string) : io unit :=
  mine ← match created_by b key with
         | Some creator =>
             authors ← call (λ w, (w, Ok (writer_identity b)));
             mret (bool_decide (creator ∈ authors))
         | None => mret false
         end;
  lift (raise_if (negb mine)
    (PrincipalAuthoredSurfaceError {| surface_kind := ISSUE_DESCRIPTION;
       surface_ref := {| scope_kind := ISSUE; scope_key := key |}; surface_marker := None |}) (Ok tt)).

(** The body is replaced whole, the identity the replaced one carries kept. *)
Definition _patch_issue (key text : string) : io unit :=
  current ← read_issue key;
  _ ← _require_machine_authored key;
  identity ← lift (decode prefixes (body current) key);
  text ← lift (match identity with
               | Some identity => encode prefixes identity text key
               | None => Ok text
               end);
  _ ← call (save_issue key (λ now i, with_body i text now));
  mret tt.

(** [edit_description] without an authorization. *)
Definition edit_description (target expected replacement : string) : io bool :=
  current ← read_issue target;
  text ← lift (description_replacement target (body current) expected replacement);
  match text with
  | None => mret false
  | Some text => _ ← _patch_issue target text; mret true
  end.

(** [set_workflow_state] for the finished stage. *)
Definition set_workflow_done (key : string) : io unit :=
  match done_state b with
  | None => lift (Err (TrackerProtocolError "no workflow state is configured for this lifecycle stage"))
  | Some name =>
      current ← read_issue key;
      if decide (state_name current = name) then mret tt
      else _ ← call (save_issue key (λ now i, with_state i name COMPLETED now)); mret tt
  end.

(** [reset_criterion_pending] without a holder; the team's unstarted state is one read. *)
Definition reset_criterion_pending (expected : TrackerIssue) : io unit :=
  let key := issue_key expected in
  current ← read_issue key;
  _ ← lift (require_criterion_source expected current true);
  _ ← lift (raise_if (bool_decide (team_key current = None))
    (CriterionReadError key "the criterion has no declared team") (Ok tt));
  state ← call (λ w, (w, Ok (pending_state b)));
  current ← read_issue key;
  _ ← lift (require_criterion_source expected current true);
  _ ← (if decide (state_kind current = UNSTARTED) then mret tt
       else _ ← call (save_issue key (λ now i, with_state i state UNSTARTED now)); mret tt);
  current ← read_issue key;
  _ ← lift (require_criterion_source expected current true);
  lift (raise_if (negb (bool_decide (state_kind current = UNSTARTED)))
    (CriterionReadError key "the reset did not land in the native unstarted state") (Ok tt)).

Definition post_comment (text : string) : io unit := call (create_comment text).

(** [upsert_comment] without a holder, on the lane's own issue. *)
Definition upsert_comment (marker text : string) (expected : option TrackerComment) : io unit :=
  content ← lift (marked_comment_body marker text);
  comments ← list_comments;
  existing ← lift (comment_under_marker lane marker comments false);
  let mine c := match author_key c with
                | Some a => bool_decide (a ∈ writer_identity b)
                | None => false
                end in
  identified ← match existing with
               | Some c =>
                   if decide (comment_body c = content) then mret false
                   else _ ← call (λ w, (w, Ok tt));
                        lift (raise_if (negb (mine c))
                          (SurfaceWriteAttributionError lane marker (author_key c)) (Ok true))
               | None => mret false
               end;
  current ← list_comments;
  existing ← lift (comment_under_marker lane marker current false);
  _ ← lift (match expected with
            | Some e => require_expected_comment lane marker e existing content
            | None => Ok tt
            end);
  match existing with
  | None => call (create_comment content)
  | Some c =>
      if decide (comment_body c = content) then mret tt
      else _ ← lift (raise_if (negb (identified && mine c))
             (SurfaceWriteAttributionError lane marker (author_key c)) (Ok tt));
           call (rewrite_comment (comment_key c) content)
  end.
End port.

(** * The program logic *)

Section logic.
(** What others' moves keep, and what an own step must be. *)
Context (rely : tracker_world → tracker_world → Prop) (guar : tracker_world → tracker_world → Prop).

Definition fair (t : turn) : Prop := ∀ w, rely w (meanwhile t w).
Definition stable (P : tracker_world → Prop) : Prop := ∀ w w', rely w w' → P w → P w'.

Definition runs {A} (P : tracker_world → Prop) (m : io A) (Q : A → tracker_world → Prop)
    (E : tracker_world → Prop) : Prop :=
  ∀ s, Forall fair (turns s) → Forall (λ ww, guar ww.1 ww.2) (steps s) → P (world s) →
    Forall fair (turns (m s).1) ∧ Forall (λ ww, guar ww.1 ww.2) (steps (m s).1)
    ∧ match (m s).2 with Ok a => Q a (world (m s).1) | Err _ => E (world (m s).1) end.

Lemma runs_ret {A} (P E : tracker_world → Prop) (Q : A → tracker_world → Prop) a :
  (∀ w, P w → Q a w) → runs P (mret a) Q E.
Proof. intros H s Hf Hg HP. cbn. auto. Qed.

Lemma runs_lift {A} (P E : tracker_world → Prop) (Q : A → tracker_world → Prop) r :
  (∀ w, P w → match r with Ok a => Q a w | Err _ => E w end) → runs P (lift r) Q E.
Proof. intros H s Hf Hg HP. specialize (H _ HP). cbn. by destruct r. Qed.

Lemma runs_bind {A B} (P E : tracker_world → Prop) (R : A → tracker_world → Prop)
    (Q : B → tracker_world → Prop) (m : io A) (f : A → io B) :
  runs P m R E → (∀ a, runs (R a) (f a) Q E) → runs P (m ≫= f) Q E.
Proof.
  intros Hm Hf s Ht Hg HP. specialize (Hm s Ht Hg HP). unfold mbind, io_mbind.
  destruct (m s) as [s' [a|e]]; cbn in *; [|done]. destruct Hm as (? & ? & HR).
  by apply (Hf a s').
Qed.

Lemma runs_weaken {A} (P P' E E' : tracker_world → Prop) (Q Q' : A → tracker_world → Prop) (m : io A) :
  runs P' m Q' E' → (∀ w, P w → P' w) → (∀ a w, Q' a w → Q a w) → (∀ w, E' w → E w) → runs P m Q E.
Proof.
  intros Hm HP HQ HE s Ht Hg H. destruct (Hm s Ht Hg (HP _ H)) as (? & ? & Hr).
  split_and!; [done..|]. destruct (m s).2; auto.
Qed.

(** One call: unperformed it leaves what [P] says, performed what the operation makes. *)
Lemma runs_call {A} (P E : tracker_world → Prop) (Q : A → tracker_world → Prop)
    (op : tracker_world → tracker_world * result exn A) :
  stable P → (∀ w, P w → E w) →
  (∀ w, P w → guar w (op w).1 ∧ E (op w).1 ∧ ∀ a, (op w).2 = Ok a → Q a (op w).1) →
  runs P (call op) Q E.
Proof.
  intros Hs HE Hop s Hf Hg HP. unfold call.
  assert (Forall fair (tail (turns s))) as Ht
    by (destruct (turns s); [done|by apply Forall_cons in Hf as [_ ?]]).
  set (t := default quiet (head (turns s))).
  assert (P (meanwhile t (world s))) as HPw.
  { unfold t. destruct (turns s) as [|x l]; cbn; [done|]. apply Forall_cons in Hf as [Hx _].
    by eapply Hs. }
  specialize (Hop _ HPw). destruct (op (meanwhile t (world s))) as [w' r]. cbn in Hop.
  destruct Hop as (Hgw & HEw & HQ).
  assert (Forall (λ ww, guar ww.1 ww.2) (steps s ++ [(meanwhile t (world s), w')])) as Hg'
    by (apply Forall_app; split; [done|]; by constructor).
  destruct (answer t); cbn; [|by auto|by auto]. destruct r; auto.
Qed.

(** A call that changes nothing. *)
Lemma runs_read {A} (P E : tracker_world → Prop) (Q : A → tracker_world → Prop)
    (op : tracker_world → tracker_world * result exn A) :
  stable P → (∀ w, P w → E w) → (∀ w, guar w w) → (∀ w, (op w).1 = w) →
  (∀ w a, P w → (op w).2 = Ok a → Q a w) →
  runs P (call op) Q E.
Proof. intros Hs HE Hrefl Hw HQ. apply runs_call; [done..|]. intros w HP. rewrite Hw. auto. Qed.

Lemma runs_each {A} (I : list A → tracker_world → Prop) (E : tracker_world → Prop) (f : A → io unit) l :
  (∀ done x rest, l = done ++ x :: rest → runs (I done) (f x) (λ _, I (done ++ [x])) E) →
  runs (I []) (each f l) (λ _, I l) E.
Proof.
  intros Hf.
  assert (∀ done rest, l = done ++ rest → runs (I done) (each f rest) (λ _, I l) E) as H;
    [|by apply (H [] l)].
  intros done rest. revert done. induction rest as [|x rest IH]; intros done El; cbn [each].
  - apply runs_ret. by rewrite El, app_nil_r.
  - eapply runs_bind; [by eapply Hf|]. intros u. cbn. apply IH. by rewrite El, <-app_assoc.
Qed.
End logic.
