(* ===== verification/LaneWriter.v ===== *)
(** * The lane writes its own state (services/lane_state_writer.py).

    Two acts: a commit leaves the lane's one record, rewritten where it stands, and a
    verdict leaves its cross-offs on the criterion sub-issues and the lane's stream. The
    tracker is the port of [LanePort]; git, the forge and the outbound gate answer as
    arguments. *)

From S2P Require Import Prelude PyStr PyLines GitUrl Tracker Errors FireSpec Criteria Lapse CriterionEvidence CrossOff.
From S2P Require Import BaseResolution LaneRecord LaneEntry Surface CommentMarkers IssueIdentity RunEvents LaneRecords LanePort.

Local Open Scope nat_scope.

(** [ANNOUNCING_STATES]: the states whose write can announce something. *)
Definition ANNOUNCING_STATES : list CrossOffState := [passed; failed; lapsed; undemonstrated].

Definition _ends_row_history (event : LaneRunEvent) (events : list LaneRunEvent) : bool :=
  bool_decide (last (filter (λ e, subject_key e = subject_key event
                                  ∧ event_kind e ∈ EVIDENCE_ROW_WRITES) events) = Some event).

(** What the writer reads of a commit: the workspace's head, the remote's tip of the loop
    branch, and the changes since the base. *)
Record CommitReads := {
  current_sha : result exn string;
  remote_branch_sha : result exn (option string);
  diff_summary : result exn ChangesetDigest;
}.

(** [PersistResult], as far as the writer reads it. *)
Record PersistResult := {
  receipt_sha : string;
  receipt_message : string;
  receipt_recovery : option string;
}.

Inductive OutboundDestination :=
| BRANCH_NAME | COMMIT_MESSAGE | COMMIT_MESSAGE_DIVERGENCE_REPLAY | PR_TITLE | PR_BODY | PR_COMMENT
| ARTIFACT_TICKET_JSON | ARTIFACT_CRITERIA_JSON | TRACKER_COMMENT | TRACKER_STATUS_UPDATE
| TRACKER_DESCRIPTION | TRACKER_TITLE | TRACKER_CLASSIFICATION.

Section writer.
Context `{PydanticJson} `{EventJson} `{RecordJson} `{IdentityJson}.
Context (b : Backend) (prefixes : pydict string string).
(** The outbound gate's answer about a content, and the forge's page of a branch. *)
Context (gate : OutboundDestination → string → result exn string).
Context (branch_web_url : option (string → string → result exn string)).

Definition _markers (lane : string) : result exn (string * string) :=
  marker ← record_marker prefixes lane;
  stream ← configured_marker_prefix prefixes RUN_EVENT_PURPOSE;
  mret (marker, stream).


Definition _branch_url (lane : LaneBinding) : result exn string :=
  let address := match repo_url lane with
                 | Some url => if decide (url = "") then default "" (repo_path lane) else url
                 | None => default "" (repo_path lane)
                 end in
  let recorded := raise_if (bool_decide (address = ""))
    (LaneRecordWriteError (binding_lane_key lane) NoRepository) (Ok address) in
  match branch_web_url, repo_url lane with
  | Some page, Some url =>
      if is_forge_less_origin url then recorded else page url (loop_branch lane)
  | _, _ => recorded
  end.

Definition require_writable (lane : LaneBinding) : result exn unit :=
  _ ← _markers (binding_lane_key lane);
  _ ← _branch_url lane;
  mret tt.

(** [gated_exact] (core/outbound_write.py) *)
Definition _gate_exact (destination : OutboundDestination) (content lane : string) : result exn string :=
  admitted ← gate destination content;
  raise_if (negb (bool_decide (admitted = content)))
    (LaneRecordWriteError lane FactsChangedByGate) (Ok admitted).

Definition _board (lane : string) : io (list TrackerComment) := λ s,
  match list_comments s with
  | (s', Err (ValidationError _)) => (s', Err (LaneRecordWriteError lane CommentsUnreadable))
  | answered => answered
  end.

Definition _events (comments : list TrackerComment) (lane : string) : result exn (list LaneRunEvent) :=
  match lane_run_events prefixes comments lane with
  | Err e => if is_ValueError e then Err (LaneRecordWriteError lane StreamUnreadable) else Err e
  | events => events
  end.

Definition _first_push (comments : list TrackerComment) (lane : string) : result exn bool :=
  events ← _events comments lane;
  mret (negb (existsb (λ e, bool_decide (event_kind e = FIRST_PUSH)) events)).

(** [_unreadable] *)
Definition unreadable_record {A} (lane : string) (r : result exn A) : result exn A :=
  match r with
  | Err (LaneRecordReadError _ _ _ reason) => Err (LaneRecordWriteError lane (RecordUnreadable reason))
  | r => r
  end.

Definition post_run_event (e : LaneRunEvent) : io unit :=
  text ← lift (render_run_event prefixes e);
  post_comment b (event_lane e) text.

(** The record read first, by the one reader of it; [find] with its listing as a call. *)
Definition find_prior (lane : string) : io (option (TrackerComment * LaneRunState)) := λ s,
  match _addressed prefixes lane lane None with
  | Err e => (s, unreadable_record lane (Err e))
  | Ok _ => let '(s', listing) := list_comments s in
            (s', unreadable_record lane (find prefixes listing lane lane None))
  end.

Definition write_record (lane marker : string) (prior : option TrackerComment) (record : LaneRunState) :
    io LaneRunState :=
  text ← lift (_gate_exact TRACKER_COMMENT (lane_record_body record) lane);
  _ ← upsert_comment b lane marker text prior;
  mret record.

Definition record_commit (lane : LaneBinding) (git : CommitReads) (receipt : PersistResult) :
    io LaneRunState :=
  let key := binding_lane_key lane in
  markers ← lift (_markers key);
  branch_url ← lift (_branch_url lane);
  head ← lift (current_sha git);
  _ ← lift (raise_if (negb (bool_decide (head = receipt_sha receipt)))
    (LaneRecordWriteError key HeadNotReceipt) (Ok tt));
  pushed ← lift (remote_branch_sha git);
  changeset ← lift (diff_summary git);
  comments ← _board key;
  first_push ← lift (_first_push comments key);
  located ← lift (unreadable_record key (locate prefixes comments key key None));
  record ← lift (next_lane_record (snd <$> located) lane branch_url head pushed changeset
                   (first_line (receipt_message receipt)) (receipt_recovery receipt));
  record ← write_record key markers.1 (fst <$> located) record;
  _ ← (if (first_push : bool) then
         post_run_event {| event_kind := FIRST_PUSH; event_lane := key;
                           subject_key := None; event_sha := None |}
       else mret tt);
  mret record.

(** [changes] is the digest of the interval from the record's head to the landed commit. *)
Definition record_landing (lane : LaneBinding) (landed_sha : string)
    (changes : string → result exn ChangesetDigest) : io (option LaneRunState) :=
  let key := binding_lane_key lane in
  markers ← lift (_markers key);
  branch_url ← lift (_branch_url lane);
  located ← find_prior key;
  match located with
  | None => mret None
  | Some (comment, prior) =>
      if decide (commit_sha <$> last (commits prior) = Some landed_sha) then mret (Some prior)
      else
        changeset ← lift (changes (head_sha prior));
        record ← lift (next_lane_record (Some prior) lane branch_url landed_sha
                         (record_pushed_sha prior) changeset LANDING_ROW_SUBJECT None);
        Some <$> write_record key markers.1 (Some comment) record
  end.

Definition record_pull_request (lane : string) (p : LanePR) : io (option LaneRunState) :=
  markers ← lift (_markers lane);
  located ← find_prior lane;
  match located with
  | None => mret None
  | Some (comment, prior) =>
      if decide (pr prior = Some p) then mret (Some prior)
      else Some <$> write_record lane markers.1 (Some comment) (record_with_pull_request prior p)
  end.

(** [openings] are the observed session keys, each as the JSON of its [NodeSessionKey]. *)
Definition announce_opening (lane : string) (posted : list LaneRunEvent) (opening : string) :
    io (list LaneRunEvent) :=
  let event := {| event_kind := NODE_SESSION_STARTED; event_lane := lane;
                  subject_key := Some opening; event_sha := None |} in
  if decide (event ∈ posted) then mret posted
  else _ ← post_run_event event; mret (posted ++ [event]).

Fixpoint announce_openings (lane : string) (posted : list LaneRunEvent) (openings : list string) : io unit :=
  match openings with
  | [] => mret tt
  | o :: openings => posted ← announce_opening lane posted o; announce_openings lane posted openings
  end.

Definition record_node_sessions (lane : string) (openings : list string) : io unit :=
  if decide (openings = []) then mret tt
  else
    comments ← _board lane;
    posted ← lift (_events comments lane);
    announce_openings lane posted openings.

(** ** The verdict's writes *)

Definition _evidence_body (issue : TrackerIssue) (c : TrackerCriterion) (y : CriterionCrossOff) :
    result exn string :=
  match apply_evidence (body issue) (evidence y) with
  | Err e => if is_ValueError e then Err (StaleWriteError (tracked_id c) (tick_anchor c)) else Err e
  | text => text
  end.

Section verdict.
Context (lane : string).

Definition _stamp (c : TrackerCriterion) (issue : TrackerIssue) (y : CriterionCrossOff) : io unit :=
  text ← lift (text ← _evidence_body issue c y; _gate_exact TRACKER_DESCRIPTION text lane);
  _ ← edit_description b prefixes (tracked_id c) (body issue) text;
  mret tt.

(** An event about one criterion, at the sha its cross-off was graded at. *)
Definition graded_event (kind : RunEventKind) (c : TrackerCriterion) (y : CriterionCrossOff) :
    LaneRunEvent := {|
  event_kind := kind; event_lane := lane; subject_key := Some (tracked_id c);
  event_sha := Some (graded_sha (evidence y)) |}.

Definition unless (posted : bool) (event : LaneRunEvent) : io unit :=
  if posted then mret tt else post_run_event event.

Definition _write_one (events : list LaneRunEvent) (c : TrackerCriterion) (y : CriterionCrossOff) : io unit :=
  issue ← read_issue (tracked_id c);
  _ ← lift (require_tickable issue c);
  let crossed_off := graded_event ISSUE_CROSSED_OFF c y in
  let event := graded_event CRITERION_PASSED c y in
  let posted := _ends_row_history event events in
  let crossed := bool_decide (crossed_off ∈ events) in
  _ ← _stamp c issue y;
  _ ← unless posted event;
  stamped ← read_issue (tracked_id c);
  _ ← lift (require_tickable stamped c);
  _ ← set_workflow_done b (tracked_id c);
  unless crossed crossed_off.

Definition _take_back (events : list LaneRunEvent) (event : LaneRunEvent) (c : TrackerCriterion)
    (y : CriterionCrossOff) : io unit :=
  issue ← read_issue (tracked_id c);
  if decide (state_kind issue = HELD_CRITERION_STATE) then
    _ ← lift (require_tickable issue c);
    _ ← lift (_evidence_body issue c y);
    let posted := if decide (event_kind event ∈ EVIDENCE_ROW_WRITES)
                  then _ends_row_history event events else bool_decide (event ∈ events) in
    _ ← reset_criterion_pending b issue;
    moved ← read_issue (tracked_id c);
    _ ← lift (require_tickable moved c);
    _ ← _stamp c moved y;
    unless posted event
  else mret tt.

Definition _undemonstrated (events : list LaneRunEvent) (reason : UndemonstratedReason)
    (c : TrackerCriterion) (y : CriterionCrossOff) : io unit :=
  let event := graded_event (UNDEMONSTRATED_EVENT_KINDS reason) c y in
  unless (bool_decide (event ∈ events)) event.

(** One criterion of the act. *)
Definition write_cross_off (events : list LaneRunEvent) (cy : TrackerCriterion * CriterionCrossOff) : io unit :=
  let '(c, y) := cy in
  match state y with
  | passed => _write_one events c y
  | st =>
      match undemonstrated_reason y with
      | Some reason => _undemonstrated events reason c y
      | None =>
          match st with
          | failed => _take_back events (graded_event CRITERION_REFUTED c y) c y
          | lapsed => _take_back events (graded_event CRITERION_LAPSED c y) c y
          | _ => mret tt
          end
      end
  end.

Definition write_cross_offs (dispatched : list TrackerCriterion) (cross_offs : list CriterionCrossOff) :
    io unit :=
  _ ← lift (raise_if (negb (bool_decide ((criterion <$> cross_offs) = (tracked_id <$> dispatched))))
    (LaneRecordWriteError lane CrossOffsNotDispatched) (Ok tt));
  events ← (if existsb (λ y, bool_decide (state y ∈ ANNOUNCING_STATES)) cross_offs then
              comments ← _board lane; lift (_events comments lane)
            else mret []);
  each (write_cross_off events) (zip dispatched cross_offs).
End verdict.
End writer.
