(* ===== verification/LaneWriterSpec.v ===== *)
(** * What the lane's writes leave, whatever fails between them.

    The claim of services/lane_state_writer.py is that a criterion's Evidence row and the
    stream's history of it move together. It is proved here over every schedule of
    failures, lost answers and others' writes, and read through the audit that looks for
    rows behind their last recorded grading (domain/audit_claims.py). *)

From S2P Require Import Prelude PyStr PyLines Tracker Errors FireSpec Criteria Lapse CriterionEvidence CrossOff.
From S2P Require Import Redispatch Amendment BaseResolution LaneRecord LaneEntry Surface CommentMarkers IssueIdentity RunEvents.
From S2P Require Import LaneRecords LanePort LaneWriter.

Local Open Scope nat_scope.

(** A grading's commit holds a character that is no space. *)
Lemma valid_evidence_sha e : valid_evidence e = true → str_blank (graded_sha e) = false.
Proof.
  unfold valid_evidence. rewrite !andb_true_iff, bool_decide_eq_true. intros [[Hh Hl] _].
  destruct (graded_sha e) as [|a s]; [cbn in Hl; set_solver|].
  cbn [str_all] in Hh. apply andb_true_iff in Hh as [Ha _].
  assert (ws1 a = false ∧ (∀ b, ws2 a b = false) ∧ ∀ b c, ws3 a b c = false) as (W1 & W2 & W3).
  { revert Ha. clear. destruct a as [[] [] [] [] [] [] [] []]; intros Ha; try done;
      split_and!; intros; reflexivity. }
  cbn [str_blank]. rewrite W1. destruct s as [|a2 [|a3 s]]; rewrite ?W2, ?W3; done.
Qed.

Section spec.
Context {pj : PydanticJson} {ej : EventJson} {ejl : EventJsonLaws} {rj : RecordJson} {ij : IdentityJson}.
Context (b : Backend) (prefixes : pydict string string) (lane : string).
Context (gate : OutboundDestination → string → result exn string).
Context (Hvalid : marker_prefixes_valid prefixes = true) (Hlane : str_blank lane = false).

(** ** The two readings *)

(** A criterion's Evidence row, and the lane's stream, as the board shows them. *)
Definition row (w : tracker_world) (k : string) : list string :=
  match issues w !! k with Some i => criterion_field_bodies (body i) F_EVIDENCE | None => [] end.
Definition stream (w : tracker_world) : result exn (list LaneRunEvent) :=
  lane_run_events prefixes (lane_comments w) lane.

(** The backend's clock has passed every comment. *)
Definition clocked (w : tracker_world) : Prop :=
  ∀ c, c ∈ lane_comments w → (comment_created_at c ≤ clock w)%Z.

Definition stamp (e : CriterionEvidence) : list string := [strip (evidence_field_value e)].

(** The commit the stream last recorded a write of the row at. *)
Definition recorded (events : list LaneRunEvent) (k : string) : option string :=
  last (evidence_row_history events k).

(** The row names the commit its history ends at. *)
Definition accounted (w : tracker_world) (events : list LaneRunEvent) (k : string) : Prop :=
  ∀ sha, recorded events k = Some sha →
    ∃ e, valid_evidence e = true ∧ row w k = stamp e ∧ graded_sha e = sha.

(** What others' moves keep: no one else writes an Evidence row or posts on this stream.
    They may move states, edit Checks, and comment. *)
Definition others (w w' : tracker_world) : Prop :=
  clocked w → clocked w' ∧ (∀ k, row w' k = row w k) ∧ stream w' = stream w.

(** ** What one step of the act may be *)

Section act.
Context (ys : list CriterionCrossOff).

Definition announced (w : tracker_world) (e : LaneRunEvent) : Prop :=
  ∀ k, writes_row k e = true →
    ∃ y, y ∈ ys ∧ criterion y = k ∧ event_sha e = Some (graded_sha (evidence y))
      ∧ row w k = stamp (evidence y).

(** A row is only ever set to a cross-off's evidence; an entry of a row's history is only
    posted while the row names its commit; and a criterion is only finished on its pass,
    with its row and its history at the graded commit. *)
Definition lawful (w w' : tracker_world) : Prop :=
  (∀ k, row w' k = row w k
     ∨ ∃ y, y ∈ ys ∧ criterion y = k ∧ state y ≠ undemonstrated ∧ row w' k = stamp (evidence y))
  ∧ (∀ events, stream w = Ok events → ∃ new, stream w' = Ok (events ++ new)
       ∧ ∀ e, e ∈ new → announced w e)
  ∧ (∀ k i i', issues w !! k = Some i → issues w' !! k = Some i' →
       state_kind i ≠ COMPLETED → state_kind i' = COMPLETED →
       ∃ y, y ∈ ys ∧ criterion y = k ∧ state y = passed ∧ row w k = stamp (evidence y)
         ∧ ∀ events, stream w = Ok events → recorded events k = Some (graded_sha (evidence y))).

(** The board between two writes: the criteria of [X] apart, every row is accounted for. *)
Definition balanced (events : list LaneRunEvent) (X : gset string) (w : tracker_world) : Prop :=
  clocked w ∧ stream w = Ok events ∧ ∀ k, k ∉ X → accounted w events k.

Notation run_io P m Q E := (runs others lawful P m Q E).

Lemma others_stable P :
  (∀ w w', clocked w → clocked w' → (∀ k, row w' k = row w k) → stream w' = stream w → P w → P w') →
  (∀ w, P w → clocked w) → stable others P.
Proof. intros H Hc w w' Hrel HP. destruct (Hrel (Hc _ HP)) as (? & ? & ?). by eapply H; eauto. Qed.

Lemma accounted_ext w w' events k : row w' k = row w k → accounted w events k → accounted w' events k.
Proof. intros E Ha sha Hr. rewrite E. by apply Ha. Qed.

Lemma balanced_stable events X : stable others (balanced events X).
Proof.
  apply others_stable; [|by intros w []].
  intros w w' _ Hc Hrow Hst (_ & E & Ha). split; [done|]. split; [congruence|].
  intros k Hk. eapply accounted_ext; [apply Hrow|by apply Ha].
Qed.

Lemma balanced_row_stable events X k rows :
  stable others (λ w, balanced events X w ∧ row w k = rows).
Proof.
  intros w w' Hrel [Hs Hr]. split; [by eapply balanced_stable|].
  destruct Hs as [Hc _]. destruct (Hrel Hc) as (_ & Hrow & _). by rewrite Hrow.
Qed.

Lemma lawful_refl w : lawful w w.
Proof.
  split; [by left|]. split.
  - intros events E. exists []. rewrite app_nil_r. split; [done|]. by intros ? ?%elem_of_nil.
  - intros. by simplify_eq.
Qed.

(** ** The board's writes *)

(** A save that keeps bodies keeps every row and the stream. *)
Lemma save_state_world key name kind w :
  let w' := (save_issue key (λ now i, with_state i name kind now) w).1 in
  clocked w → clocked w' ∧ (∀ k, row w' k = row w k) ∧ stream w' = stream w.
Proof.
  cbv zeta. unfold save_issue. destruct (issues w !! key) as [i|] eqn:E; [|done]. intros Hc. cbn.
  split; [|split; [|done]].
  - intros c Hin. specialize (Hc c Hin). cbn. lia.
  - intros k. unfold row. cbn. destruct (decide (k = key)) as [->|]; [|by rewrite lookup_insert_ne].
    by rewrite lookup_insert_eq, E.
Qed.

Lemma save_body_world key text w :
  let w' := (save_issue key (λ now i, with_body i text now) w).1 in
  clocked w → clocked w' ∧ (∀ k, k ≠ key → row w' k = row w k)
    ∧ (is_Some (issues w !! key) → row w' key = criterion_field_bodies text F_EVIDENCE)
    ∧ (¬ is_Some (issues w !! key) → w' = w)
    ∧ stream w' = stream w
    ∧ ∀ k i', issues w' !! k = Some i' → ∃ i, issues w !! k = Some i ∧ state_kind i' = state_kind i.
Proof.
  cbv zeta. unfold save_issue. destruct (issues w !! key) as [i|] eqn:E.
  2:{ intros Hc. split_and!; try done. eauto. }
  intros Hc. cbn. split; [|split; [|split; [|split; [|split]]]].
  - intros c Hin. specialize (Hc c Hin). cbn. lia.
  - intros k Hk. unfold row. cbn. by rewrite lookup_insert_ne.
  - intros _. unfold row. cbn. by rewrite lookup_insert_eq.
  - intros []. eauto.
  - done.
  - intros k i'. destruct (decide (k = key)) as [->|]; [|rewrite lookup_insert_ne; eauto].
    rewrite lookup_insert_eq. intros [= <-]. by exists i.
Qed.

Lemma post_world e text events w :
  render_run_event prefixes e = Ok text → event_valid e = true → event_lane e = lane →
  clocked w → stream w = Ok events →
  let w' := (create_comment b lane text w).1 in
  clocked w' ∧ stream w' = Ok (events ++ [e]) ∧ (∀ k, row w' k = row w k) ∧ issues w' = issues w.
Proof.
  intros Hr He Hl Hc Hs. cbn. split; [|split; [|done]].
  - intros c [Hin|Hin%list_elem_of_singleton]%elem_of_app; [specialize (Hc c Hin); cbn; lia|]. by subst.
  - apply (posted_event prefixes Hvalid); [done..|]. intros d Hd. cbn. specialize (Hc d Hd). lia.
Qed.

(** ** The histories *)

Lemma writes_row_subject k e : writes_row k e = true → subject_key e = Some k.
Proof. unfold writes_row. rewrite andb_true_iff, bool_decide_eq_true. tauto. Qed.

Lemma history_app events ext k :
  evidence_row_history (events ++ ext) k = evidence_row_history events k ++ evidence_row_history ext k.
Proof. unfold evidence_row_history. by rewrite filter_app, omap_app. Qed.

(** Events about other criteria, and those that are no write of a row, leave it. *)
Lemma history_other ext k :
  (∀ e, e ∈ ext → writes_row k e = false) → evidence_row_history ext k = [].
Proof.
  intros H. unfold evidence_row_history. rewrite filter_none; [done|].
  intros e Hin. by rewrite H.
Qed.

Lemma recorded_posted events e k sha :
  writes_row k e = true → event_sha e = Some sha → recorded (events ++ [e]) k = Some sha.
Proof.
  intros Hw Hs. unfold recorded. rewrite history_app. unfold evidence_row_history at 2.
  rewrite filter_cons_True by done. cbn. rewrite Hs. by rewrite last_snoc.
Qed.

Lemma recorded_other events e k :
  event_kind e ∉ EVIDENCE_ROW_WRITES ∨ subject_key e ≠ Some k → recorded (events ++ [e]) k = recorded events k.
Proof.
  intros He. unfold recorded. rewrite history_app, (history_other [_]), app_nil_r; [done|].
  intros e' ->%list_elem_of_singleton. apply not_true_is_false. unfold writes_row.
  rewrite andb_true_iff, !bool_decide_eq_true. tauto.
Qed.

Lemma ends_row_history_recorded event events k sha :
  _ends_row_history event events = true → subject_key event = Some k → event_sha event = Some sha →
  recorded events k = Some sha.
Proof.
  unfold _ends_row_history. rewrite bool_decide_eq_true. intros Hl Hk Hs.
  unfold recorded, evidence_row_history.
  assert (filter (λ e, writes_row k e = true) events
    = filter (λ e, subject_key e = subject_key event ∧ event_kind e ∈ EVIDENCE_ROW_WRITES) events) as ->.
  { apply list_filter_iff. intros e. rewrite Hk. unfold writes_row.
    by rewrite andb_true_iff, !bool_decide_eq_true. }
  apply last_Some in Hl as [l ->]. rewrite omap_app. cbn. rewrite Hs. by rewrite last_snoc.
Qed.

(** ** The programs *)

Lemma runs_lift_keep {A} (P E : tracker_world → Prop) (r : result exn A) :
  (∀ w, P w → E w) → run_io P (lift r) (λ a w, P w ∧ r = Ok a) E.
Proof. intros HE. apply runs_lift. intros w HP. destruct r; auto. Qed.

Lemma runs_pure {A} (φ : Prop) (P E : tracker_world → Prop) (Q : A → tracker_world → Prop) m :
  (φ → run_io P m Q E) → run_io (λ w, P w ∧ φ) m Q E.
Proof. intros H s Hf Hg [HP Hφ]. by apply H. Qed.

Lemma runs_read_issue k (P E : tracker_world → Prop) :
  stable others P → (∀ w, P w → E w) →
  run_io P (read_issue k)
    (λ i w, P w ∧ row w k = criterion_field_bodies (body i) F_EVIDENCE) E.
Proof.
  intros Hs HE. apply runs_read; [done|done|apply lawful_refl|done|].
  intros w i HP. cbn. unfold row. destruct (issues w !! k); [|done]. by intros [= ->].
Qed.

Lemma balanced_mono events X Y w : X ⊆ Y → balanced events X w → balanced events Y w.
Proof. intros HXY (Hc & Hs & Ha). split; [done|]. split; [done|]. intros k Hk. apply Ha. set_solver. Qed.

(** ** One criterion of the act *)

Section criterion.
Context (c : TrackerCriterion) (y : CriterionCrossOff).
Notation k := (tracked_id c).
Context (Hy : y ∈ ys) (Hk : criterion y = k) (Hkey : str_blank k = false)
  (Hev : valid_evidence (evidence y) = true).

(** The row names this cross-off's commit. *)
Definition stamped_row (events : list LaneRunEvent) (X : gset string) (w : tracker_world) : Prop :=
  balanced events X w ∧ row w k = stamp (evidence y).

(** What is left of the act on [k], done or not: only its own events were posted. *)
Definition left_by (events : list LaneRunEvent) (w : tracker_world) : Prop :=
  ∃ ext X, Forall (λ e, subject_key e = Some k) ext ∧ X ⊆ {[ k ]} ∧ balanced (events ++ ext) X w.
Definition done_by (events : list LaneRunEvent) (w : tracker_world) : Prop :=
  ∃ ext, Forall (λ e, subject_key e = Some k) ext ∧ balanced (events ++ ext) ∅ w.

Lemma left_by_intro events X w : X ⊆ {[ k ]} → balanced events X w → left_by events w.
Proof. intros HX Hb. exists [], X. rewrite app_nil_r. auto. Qed.

Lemma left_by_app events ext w :
  Forall (λ e, subject_key e = Some k) ext → left_by (events ++ ext) w → left_by events w.
Proof.
  intros He (ext' & X & He' & HX & Hb). exists (ext ++ ext'), X. rewrite app_assoc.
  split; [by apply Forall_app|done].
Qed.

Lemma graded_event_valid kind : event_valid (graded_event lane kind c y) = true.
Proof using Hlane Hkey Hev.
  unfold event_valid. cbn. by rewrite Hlane, Hkey, (valid_evidence_sha _ Hev).
Qed.

(** An event of the stream that records no write of a row. *)
Lemma post_other kind events X rows :
  kind ∉ EVIDENCE_ROW_WRITES → X ⊆ {[ k ]} →
  run_io (λ w, balanced events X w ∧ row w k = rows)
    (post_run_event b prefixes (graded_event lane kind c y))
    (λ _ w, balanced (events ++ [graded_event lane kind c y]) X w ∧ row w k = rows)
    (left_by events).
Proof.
  intros Hkind HX. unfold post_run_event. eapply runs_bind.
  { apply runs_lift_keep. intros w [Hb _]. by eapply left_by_intro. }
  intros text. apply runs_pure. intros Ht. apply runs_call.
  - apply balanced_row_stable.
  - intros w [Hb _]. by eapply left_by_intro.
  - intros w [(Hc & Hs & Ha) Hr].
    destruct (post_world (graded_event lane kind c y) text events w Ht (graded_event_valid kind) eq_refl Hc Hs)
      as (Hc' & Hs' & Hrow & Hi).
    assert (∀ k', writes_row k' (graded_event lane kind c y) = false) as Hw.
    { intros k'. unfold writes_row. cbn. rewrite (bool_decide_eq_false_2 (kind ∈ _)) by done.
      by rewrite andb_false_r. }
    assert (balanced (events ++ [graded_event lane kind c y]) X (create_comment b lane text w).1) as Hb.
    { split; [done|]. split; [done|]. intros k' Hk'. eapply accounted_ext; [apply Hrow|].
      intros sha. rewrite recorded_other by by left. by apply Ha. }
    cbn [event_lane graded_event]. split; [|split].
    + split; [by left; rewrite Hrow|]. split.
      * intros evs E. exists [graded_event lane kind c y]. split; [congruence|].
        intros e ->%list_elem_of_singleton k' Hw'. by rewrite Hw in Hw'.
      * rewrite Hi. intros. by simplify_eq.
    + exists [graded_event lane kind c y], X. split; [by constructor|done].
    + intros _ _. split; [done|]. by rewrite Hrow.
Qed.

(** The entry of the row's history, posted while the row names its commit. *)
Lemma post_graded kind events X :
  kind ∈ EVIDENCE_ROW_WRITES → X ⊆ {[ k ]} →
  run_io (stamped_row events X) (post_run_event b prefixes (graded_event lane kind c y))
    (λ _, stamped_row (events ++ [graded_event lane kind c y]) ∅) (left_by events).
Proof.
  intros Hkind HX. unfold post_run_event. eapply runs_bind.
  { apply runs_lift_keep. intros w [Hb _]. by eapply left_by_intro. }
  intros text. apply runs_pure. intros Ht. apply runs_call.
  - apply balanced_row_stable.
  - intros w [Hb _]. by eapply left_by_intro.
  - intros w [(Hc & Hs & Ha) Hr]. set (e := graded_event lane kind c y) in *.
    destruct (post_world e text events w Ht (graded_event_valid kind) eq_refl Hc Hs)
      as (Hc' & Hs' & Hrow & Hi).
    assert (writes_row k e = true) as Hw
      by (unfold writes_row; cbn; by rewrite !bool_decide_eq_true_2).
    assert (balanced (events ++ [e]) ∅ (create_comment b lane text w).1) as Hb.
    { split; [done|]. split; [done|]. intros k' _. destruct (decide (k' = k)) as [->|Hne].
      - intros sha. rewrite (recorded_posted _ _ _ (graded_sha (evidence y))) by done.
        intros [= <-]. exists (evidence y). by rewrite Hrow.
      - eapply accounted_ext; [apply Hrow|]. intros sha.
        rewrite recorded_other by (right; unfold e; cbn; congruence). apply Ha. set_solver. }
    change (event_lane e) with lane. split; [|split].
    + split; [by left; rewrite Hrow|]. split.
      * intros evs E. exists [e]. split; [congruence|].
        intros e' ->%list_elem_of_singleton k' Hw'%writes_row_subject. injection Hw' as <-.
        by exists y.
      * rewrite Hi. intros. by simplify_eq.
    + exists [e], ∅. split; [by constructor|done].
    + intros _ _. split; [done|]. by rewrite Hrow.
Qed.

Lemma apply_evidence_row text e final :
  apply_evidence text e = Ok final → criterion_field_bodies final F_EVIDENCE = stamp e.
Proof.
  unfold apply_evidence, replace_criterion_fields. intros [_ E]%raise_if_ok.
  cbn [foldM] in E. unfold append_field in E. cbn [fst snd] in E.
  apply bind_ok in E as (r & E & [= <-]). apply raise_if_ok in E as [Hb [= <-]].
  by apply negb_false_iff, bool_decide_eq_true in Hb.
Qed.

Lemma stamped_text issue text :
  (text ← _evidence_body issue c y; _gate_exact gate TRACKER_DESCRIPTION text lane) = Ok text →
  criterion_field_bodies text F_EVIDENCE = stamp (evidence y).
Proof.
  intros (t & E & Hg)%bind_ok. unfold _gate_exact in Hg.
  apply bind_ok in Hg as (t' & _ & [Heq [= ->]]%raise_if_ok).
  apply negb_false_iff, bool_decide_eq_true in Heq as <-.
  unfold _evidence_body in E. destruct (apply_evidence (body issue) (evidence y)) as [t|e] eqn:Ea.
  - injection E as ->. by eapply apply_evidence_row.
  - by destruct (is_ValueError e).
Qed.

(** The call that saves the body, whatever identity line it was given. *)
Lemma save_stamps events X text :
  state y ≠ undemonstrated → X ⊆ {[ k ]} → criterion_field_bodies text F_EVIDENCE = stamp (evidence y) →
  run_io (balanced events X) (call (save_issue k (λ now i, with_body i text now)))
    (λ _, stamped_row events {[ k ]}) (balanced events {[ k ]}).
Proof.
  intros Hst HX Ht. apply runs_call; [apply balanced_stable|intros w; by apply balanced_mono|].
  intros w (Hc & Hs & Ha).
  destruct (save_body_world k text w Hc) as (Hc' & Hother & Hrow & Hsame & Hst' & Hkind).
  set (w' := (save_issue k _ w).1) in *.
  assert (balanced events {[ k ]} w') as Hb.
  { split; [done|]. split; [congruence|]. intros k' Hk'%not_elem_of_singleton.
    eapply accounted_ext; [by apply Hother|]. apply Ha. set_solver. }
  split; [|split; [done|]].
  - split; [|split].
    + intros k'. destruct (decide (k' = k)) as [->|]; [|left; by apply Hother].
      destruct (decide (is_Some (issues w !! k))) as [Hi|Hi]; [|left; by rewrite Hsame].
      right. exists y. rewrite Hrow; done.
    + intros evs E. exists []. rewrite app_nil_r. split; [congruence|].
      by intros e ?%elem_of_nil.
    + intros k' i0 i' H0 H' Hne Hc0. exfalso.
      destruct (Hkind k' i' H') as (i1 & H1 & E1). congruence.
  - intros i0 E0. split; [done|]. rewrite Hrow; [done|].
    unfold save_issue in E0. destruct (issues w !! k); [done|discriminate].
Qed.

Lemma authored_runs (P E : tracker_world → Prop) :
  stable others P → (∀ w, P w → E w) → run_io P (_require_machine_authored b k) (λ _, P) E.
Proof.
  intros Hs HE. unfold _require_machine_authored. apply (runs_bind _ _ _ _ (λ _, P)).
  - destruct (created_by b k); [|by apply runs_ret].
    apply (runs_bind _ _ _ _ (λ _, P)); [|intros a; by apply runs_ret].
    apply runs_read; [done|done|apply lawful_refl|done|done].
  - intros mine. apply runs_lift. intros w HP. destruct mine; cbn; auto.
Qed.

Lemma patch_stamps events X text :
  state y ≠ undemonstrated → X ⊆ {[ k ]} → criterion_field_bodies text F_EVIDENCE = stamp (evidence y) →
  run_io (balanced events X) (_patch_issue b prefixes k text)
    (λ _, stamped_row events {[ k ]}) (balanced events {[ k ]}).
Proof.
  intros Hst HX Ht. assert (∀ w, balanced events X w → balanced events {[ k ]} w) as Hmono
    by (intros w; by apply balanced_mono).
  unfold _patch_issue. eapply runs_bind; [by apply (runs_read_issue _ (balanced events X)); [apply balanced_stable|]|].
  intros current. apply (runs_bind _ _ _ _ (λ _, balanced events X)).
  { eapply runs_weaken; [by apply authored_runs; [apply balanced_stable|exact Hmono]|by intros w []|done|done]. }
  intros u. eapply runs_bind; [by apply runs_lift_keep|]. intros identity. apply runs_pure. intros _.
  eapply runs_bind; [by apply runs_lift_keep|]. intros text'. apply runs_pure. intros Htext.
  eapply runs_bind; [|intros saved; apply runs_ret; intros w; exact id].
  apply save_stamps; [done..|]. destruct identity as [identity|]; [|by injection Htext as <-].
  destruct (encode_reads prefixes Hvalid _ _ _ _ Htext) as [Hr _]. by rewrite Hr.
Qed.

Lemma edit_stamps events X expected text :
  state y ≠ undemonstrated → X ⊆ {[ k ]} → criterion_field_bodies text F_EVIDENCE = stamp (evidence y) →
  run_io (λ w, balanced events X w ∧ row w k = criterion_field_bodies expected F_EVIDENCE)
    (edit_description b prefixes k expected text)
    (λ _, stamped_row events {[ k ]}) (balanced events {[ k ]}).
Proof.
  intros Hst HX Ht. unfold edit_description. eapply runs_bind.
  { apply runs_read_issue; [apply balanced_row_stable|]. intros w [Hb _]. by eapply balanced_mono. }
  intros i. eapply runs_bind.
  { apply runs_lift_keep. intros w [[Hb _] _]. by eapply balanced_mono. }
  intros t. apply runs_pure. unfold description_replacement. intros E.
  case_decide as D1; [|case_decide as D2; [|done]]; injection E as <-.
  - apply runs_ret. intros w [[Hb Hr] Hi]. split; [by eapply balanced_mono|].
    destruct D1 as [->|<-]; congruence.
  - eapply (runs_weaken _ _ _ (balanced events X) _ (balanced events {[ k ]})); cycle 1.
    + by intros w [[Hb _] _].
    + intros a w. exact id.
    + done.
    + eapply runs_bind; [by apply patch_stamps|]. intros u. by apply runs_ret.
Qed.

Lemma stamp_runs events X issue :
  state y ≠ undemonstrated → X ⊆ {[ k ]} →
  run_io (λ w, balanced events X w ∧ row w k = criterion_field_bodies (body issue) F_EVIDENCE)
    (_stamp b prefixes gate lane c issue y) (λ _, stamped_row events {[ k ]}) (balanced events {[ k ]}).
Proof.
  intros Hst HX. unfold _stamp. eapply runs_bind.
  { apply runs_lift_keep. intros w [Hb _]. by eapply balanced_mono. }
  intros text. apply runs_pure. intros Ht.
  eapply runs_bind; [|by intros u; apply runs_ret; intros w; exact id].
  apply edit_stamps; [done|done|]. by apply (stamped_text issue).
Qed.

(** A state is moved without touching a row; finished only where the pass is on record. *)
Lemma save_state_runs events X key name kind (P : tracker_world → Prop) :
  stable others P → (∀ w, P w → balanced events X w) →
  (∀ w w', (∀ k, row w' k = row w k) → balanced events X w' → P w → P w') →
  (kind = COMPLETED → key = k ∧ state y = passed ∧ recorded events k = Some (graded_sha (evidence y))
     ∧ ∀ w, P w → row w k = stamp (evidence y)) →
  X ⊆ {[ k ]} →
  run_io P (call (save_issue key (λ now i, with_state i name kind now))) (λ _, P) (left_by events).
Proof.
  intros Hstab HP Hmove Hdone HX. apply runs_call; [done|intros w HPw; eapply left_by_intro; eauto|].
  intros w HPw. destruct (HP w HPw) as (Hc & Hs & Ha).
  destruct (save_state_world key name kind w Hc) as (Hc' & Hrow & Hs').
  set (w' := (save_issue key _ w).1) in *.
  assert (balanced events X w') as Hb.
  { split; [done|]. split; [congruence|]. intros k' Hk'. eapply accounted_ext; [apply Hrow|by apply Ha]. }
  split; [|split; [by eapply left_by_intro|intros _ _; by eapply Hmove]].
  split; [by left|]. split.
  - intros evs E. exists []. rewrite app_nil_r. split; [congruence|]. by intros e ?%elem_of_nil.
  - intros k' i i' Hi Hi' Hne Hc0. exists y. split; [done|].
    assert (k' = key ∧ kind = COMPLETED) as [-> Hkind].
    { revert Hi'. unfold w', save_issue. destruct (issues w !! key) as [j|] eqn:Ej; cbn.
      - destruct (decide (k' = key)) as [->|]; [|rewrite lookup_insert_ne by done; congruence].
        rewrite lookup_insert_eq. intros [= <-]. done.
      - intros; simplify_eq. }
    destruct (Hdone Hkind) as (-> & ? & ? & Hr). split_and!; [done..|by apply Hr|].
    intros evs E. congruence.
Qed.

Lemma set_done_runs events X :
  state y = passed → recorded events k = Some (graded_sha (evidence y)) → X ⊆ {[ k ]} →
  run_io (stamped_row events X) (set_workflow_done b k) (λ _, stamped_row events X) (left_by events).
Proof.
  intros Hp Hrec HX. assert (∀ w, stamped_row events X w → left_by events w) as HE.
  { intros w [Hb _]. by eapply left_by_intro. }
  unfold set_workflow_done. destruct (done_state b) as [name|]; [|by apply runs_lift].
  eapply runs_bind; [apply runs_read_issue; [apply balanced_row_stable|done]|]. intros i. cbn.
  eapply (runs_weaken _ _ _ (stamped_row events X) _ (left_by events)); [|by intros w []|intros u w; exact id|done].
  case_decide; [by apply runs_ret|].
  eapply runs_bind; [|intros u; apply runs_ret; intros w; exact id].
  apply (save_state_runs events X); [apply balanced_row_stable|by intros w []| |intros _; by split_and!; [..|intros w []]|done].
  intros w w' Hrow Hb [_ Hr]. split; [done|]. by rewrite Hrow.
Qed.

(** An unstarted state is never the finished one. *)
Lemma reset_runs events X issue :
  X ⊆ {[ k ]} →
  run_io (balanced events X) (reset_criterion_pending b issue) (λ _, balanced events X) (left_by events).
Proof.
  intros HX. assert (∀ w, balanced events X w → left_by events w) as HE.
  { intros w Hb. by eapply left_by_intro. }
  set (key := issue_key issue).
  assert (∀ i, run_io (λ w, balanced events X w ∧ row w key = criterion_field_bodies (body i) F_EVIDENCE)
    (lift (require_criterion_source issue i true)) (λ _, balanced events X) (left_by events)) as Hreq.
  { intros i. apply runs_lift. intros w [Hb _]. destruct (require_criterion_source issue i true); auto. }
  assert (run_io (balanced events X) (read_issue key)
    (λ i w, balanced events X w ∧ row w key = criterion_field_bodies (body i) F_EVIDENCE) (left_by events)) as Hread
    by (apply runs_read_issue; [apply balanced_stable|done]).
  unfold reset_criterion_pending. fold key. cbv zeta.
  eapply runs_bind; [exact Hread|]. intros i. eapply runs_bind; [apply Hreq|]. intros ?.
  eapply runs_bind; [apply runs_lift; intros w Hb; destruct (raise_if _ _ _); [exact Hb|by apply HE]|].
  intros ?. eapply runs_bind.
  { apply runs_read; [apply balanced_stable|done|apply lawful_refl|done|]. intros w pending Hb _. exact Hb. }
  intros st. eapply runs_bind; [exact Hread|]. intros i2. eapply runs_bind; [apply Hreq|]. intros ?.
  eapply (runs_bind _ _ _ _ (λ _, balanced events X)).
  { case_decide; [by apply runs_ret|].
    eapply runs_bind; [|intros u; apply runs_ret; intros w; exact id].
    by apply (save_state_runs events X); [apply balanced_stable|done|done|..]. }
  intros ?. eapply runs_bind; [exact Hread|]. intros i3. eapply runs_bind; [apply Hreq|]. intros ?.
  apply runs_lift. intros w Hb. destruct (raise_if _ _ _); [exact Hb|by apply HE].
Qed.

Lemma runs_exist {A B} (P : B → tracker_world → Prop) (E : tracker_world → Prop)
    (Q : A → tracker_world → Prop) m :
  (∀ x, run_io (P x) m Q E) → run_io (λ w, ∃ x, P x w) m Q E.
Proof. intros H s Hf Hg [x HP]. by apply (H x). Qed.

(** The history's entry, unless it already ends there. *)
Definition on_record (events : list LaneRunEvent) (w : tracker_world) : Prop :=
  ∃ ext, (stamped_row (events ++ ext) ∅ w ∧ Forall (λ e, subject_key e = Some k) ext)
         ∧ recorded (events ++ ext) k = Some (graded_sha (evidence y)).

Lemma unless_graded events posted kind :
  kind ∈ EVIDENCE_ROW_WRITES →
  (posted = true → recorded events k = Some (graded_sha (evidence y))) →
  run_io (stamped_row events {[ k ]}) (unless b prefixes posted (graded_event lane kind c y))
    (λ _, on_record events) (left_by events).
Proof.
  intros Hkind Hp. unfold unless. destruct posted.
  - apply runs_ret. intros w [(Hc & Hs & Ha) Hr]. exists []. rewrite app_nil_r.
    split; [|by apply Hp]. split; [|by constructor]. split; [|done]. split; [done|]. split; [done|].
    intros k' _. destruct (decide (k' = k)) as [->|]; [|apply Ha; set_solver].
    intros sha. rewrite Hp by done. intros [= <-]. by exists (evidence y).
  - eapply runs_weaken; [by apply post_graded|done| |done]. intros u w Hb.
    exists [graded_event lane kind c y]. split; [split; [done|by constructor]|].
    apply recorded_posted; [|done]. unfold writes_row. cbn. by rewrite !bool_decide_eq_true_2.
Qed.

(** An announcement of no row's write, unless it stands in the stream. *)
Lemma unless_other events posted kind :
  kind ∉ EVIDENCE_ROW_WRITES →
  run_io (balanced events ∅) (unless b prefixes posted (graded_event lane kind c y))
    (λ _, done_by events) (left_by events).
Proof.
  intros Hkind. unfold unless. destruct posted.
  - apply runs_ret. intros w Hb. exists []. by rewrite app_nil_r.
  - apply (runs_weaken _ _ _ (λ w, ∃ rows, balanced events ∅ w ∧ row w k = rows) _ (left_by events) _
      (λ _, done_by events)); [|eauto|done|done].
    apply runs_exist. intros rows.
    eapply runs_weaken; [apply (post_other kind events ∅ rows); [done|set_solver]|done| |done].
    intros u w [Hb _]. exists [graded_event lane kind c y]. split; [by constructor|done].
Qed.

Lemma done_by_app events ext w :
  Forall (λ e, subject_key e = Some k) ext → done_by (events ++ ext) w → done_by events w.
Proof.
  intros He (ext' & He' & Hb). exists (ext ++ ext'). rewrite app_assoc. split; [by apply Forall_app|done].
Qed.

Lemma after_record {A} events (m : io A) :
  (∀ ext, recorded (events ++ ext) k = Some (graded_sha (evidence y)) →
     run_io (stamped_row (events ++ ext) ∅) m (λ _, done_by (events ++ ext)) (left_by (events ++ ext))) →
  run_io (on_record events) m (λ _, done_by events) (left_by events).
Proof.
  intros Hm. apply runs_exist. intros ext. apply runs_pure. intros Hrec. apply runs_pure. intros He.
  eapply runs_weaken; [by apply Hm|done| |]; intros; [by eapply done_by_app|by eapply left_by_app].
Qed.

(** A guard read off the board changes nothing. *)
Lemma runs_guard {A} (P E : tracker_world → Prop) (r : result exn A) :
  (∀ w, P w → E w) → run_io P (lift r) (λ _, P) E.
Proof. intros HE. apply runs_lift. intros w HP. destruct r; auto. Qed.

(** The stream the act read still holds what it will say of this criterion. *)
Context (evs events : list LaneRunEvent)
  (Hhist : evidence_row_history events k = evidence_row_history evs k).

Lemma posted_recorded kind :
  _ends_row_history (graded_event lane kind c y) evs = true →
  recorded events k = Some (graded_sha (evidence y)).
Proof. intros Hp. unfold recorded. rewrite Hhist. by eapply ends_row_history_recorded. Qed.

Lemma balanced_left w : balanced events ∅ w → left_by events w.
Proof. apply left_by_intro. set_solver. Qed.
Lemma stamped_left w : stamped_row events {[ k ]} w → left_by events w.
Proof. intros [Hb _]. by eapply left_by_intro. Qed.
Lemma stamped_stable evs' X : stable others (stamped_row evs' X).
Proof. apply balanced_row_stable. Qed.
Lemma in_doubt_left w : balanced events {[ k ]} w → left_by events w.
Proof. by apply left_by_intro. Qed.

Lemma write_one_runs :
  state y = passed →
  run_io (balanced events ∅) (_write_one b prefixes gate lane evs c y)
    (λ _, done_by events) (left_by events).
Proof.
  intros Hst. unfold _write_one. cbv zeta.
  eapply runs_bind; [apply runs_read_issue; [apply balanced_stable|apply balanced_left]|]. intros issue.
  eapply runs_bind; [apply runs_guard; intros w []; by apply balanced_left|]. intros ?.
  eapply runs_bind.
  { eapply runs_weaken; [apply (stamp_runs events ∅); [by rewrite Hst|set_solver]|done..|apply in_doubt_left]. }
  intros ?. eapply runs_bind; [apply unless_graded; [set_solver|apply posted_recorded]|]. intros ?.
  apply after_record. intros ext Hrec.
  assert (∀ w, stamped_row (events ++ ext) ∅ w → left_by (events ++ ext) w) as HE.
  { intros w [Hb _]. eapply left_by_intro; [|done]. set_solver. }
  eapply runs_bind; [apply runs_read_issue; [apply stamped_stable|done]|]. intros stamped.
  eapply runs_bind; [apply runs_guard; intros w []; by apply HE|]. intros ?.
  eapply runs_bind.
  { eapply runs_weaken; [by apply (set_done_runs (events ++ ext) ∅)|by intros w []|intros u w; exact id|done]. }
  intros ?. eapply runs_weaken; [apply (unless_other (events ++ ext)); set_solver|by intros w []|done..].
Qed.

Lemma take_back_runs kind :
  state y ≠ undemonstrated →
  (kind ∈ EVIDENCE_ROW_WRITES ∨
   ∀ sha, recorded evs k = Some sha → sha = graded_sha (evidence y)) →
  run_io (balanced events ∅) (_take_back b prefixes gate lane evs (graded_event lane kind c y) c y)
    (λ _, done_by events) (left_by events).
Proof.
  intros Hst Hkind. assert (∀ w, balanced events ∅ w → done_by events w) as HQ.
  { intros w Hb. exists []. by rewrite app_nil_r. }
  unfold _take_back. cbv zeta.
  eapply runs_bind; [apply runs_read_issue; [apply balanced_stable|apply balanced_left]|]. intros issue.
  case_decide; [|apply runs_ret; intros w []; by apply HQ].
  eapply runs_bind; [apply runs_guard; intros w []; by apply balanced_left|]. intros ?.
  eapply runs_bind; [apply runs_guard; intros w []; by apply balanced_left|]. intros ?.
  eapply runs_bind.
  { eapply runs_weaken; [apply (reset_runs events ∅ issue); set_solver|by intros w []|intros u w; exact id|done]. }
  intros ?.
  eapply runs_bind; [apply runs_read_issue; [apply balanced_stable|apply balanced_left]|]. intros moved.
  eapply runs_bind; [apply runs_guard; intros w []; by apply balanced_left|]. intros ?.
  eapply runs_bind.
  { eapply runs_weaken; [apply (stamp_runs events ∅); [done|set_solver]|done..|apply in_doubt_left]. }
  intros ?. cbn [event_kind graded_event]. destruct (decide (kind ∈ EVIDENCE_ROW_WRITES)) as [Hin|Hin].
  - eapply runs_weaken; [apply unless_graded; [done|apply posted_recorded]|done| |done].
    intros u w (ext & (([Hb _] & He) & _)). by exists ext.
  - destruct Hkind as [|Hsame]; [done|].
    eapply runs_weaken; [by apply (unless_other events)| |done..].
    intros w [(Hc & Hs & Ha) Hr]. split; [done|]. split; [done|]. intros k' _.
    destruct (decide (k' = k)) as [->|]; [|apply Ha; set_solver].
    intros sha. unfold recorded. rewrite Hhist. intros ->%Hsame. by exists (evidence y).
Qed.

Lemma write_cross_off_runs :
  (undemonstrated_reason y = None → state y = lapsed →
   ∀ sha, recorded evs k = Some sha → sha = graded_sha (evidence y)) →
  run_io (balanced events ∅) (write_cross_off b prefixes gate lane evs (c, y))
    (λ _, done_by events) (left_by events).
Proof.
  intros Hlapsed. assert (∀ w, balanced events ∅ w → done_by events w) as HQ.
  { intros w Hb. exists []. by rewrite app_nil_r. }
  assert (∀ r, run_io (balanced events ∅) (_undemonstrated b prefixes lane evs r c y)
    (λ _, done_by events) (left_by events)) as Hund.
  { intros r. apply unless_other. destruct r; set_solver. }
  unfold write_cross_off. destruct (state y) eqn:Hst; [by apply write_one_runs|..];
    (destruct (undemonstrated_reason y); [apply Hund|]);
    [apply take_back_runs; [congruence|left; set_solver]
    |apply take_back_runs; [congruence|right; by apply Hlapsed]
    |apply runs_ret; auto..].
Qed.
End criterion.

(** ** The act *)

Lemma zip_elem {A B} (f : A → string) (g : B → string) l l' a a' :
  f <$> l = g <$> l' → (a', a) ∈ zip l' l → a ∈ l ∧ a' ∈ l' ∧ f a = g a'.
Proof.
  revert l'. induction l as [|x l IH]; intros [|x' l'] E Hin; cbn in Hin; try by apply elem_of_nil in Hin.
  injection E as Ex El. apply elem_of_cons in Hin as [[= -> ->]|Hin].
  - split; [left|split; [left|done]].
  - destruct (IH l' El Hin) as (? & ? & ?). split; [by right|split; [by right|done]].
Qed.

Lemma zip_keys {A B} (f : A → string) (g : B → string) l l' :
  f <$> l = g <$> l' → (λ p, g p.1) <$> zip l' l = g <$> l'.
Proof.
  revert l'. induction l as [|x l IH]; intros [|x' l'] E; try done.
  injection E as _ El. cbn. f_equal. by apply IH.
Qed.

Section verdicts.
Context (dispatched : list TrackerCriterion) (evs : list LaneRunEvent).
Notation ids := (tracked_id <$> dispatched).
Context (Hids : NoDup ids) (Hkeys : Forall (λ k, str_blank k = false) ids)
  (Hevs : ∀ y, y ∈ ys → valid_evidence (evidence y) = true)
  (Hlapsed : ∀ y sha, y ∈ ys → state y = lapsed → recorded evs (criterion y) = Some sha →
     sha = graded_sha (evidence y)).

(** What an interrupted act leaves: at most the criterion it was at. *)
Definition interrupted (w : tracker_world) : Prop :=
  ∃ new X, balanced (evs ++ new) X w ∧ size X ≤ 1 ∧ X ⊆ list_to_set ids.

Definition progress (cys : list (TrackerCriterion * CriterionCrossOff)) (w : tracker_world) : Prop :=
  ∃ new, balanced (evs ++ new) ∅ w
    ∧ Forall (λ e, ∃ cy, cy ∈ cys ∧ subject_key e = Some (tracked_id cy.1)) new.

Lemma progress_history (cys : list (TrackerCriterion * CriterionCrossOff)) new k :
  Forall (λ e, ∃ cy, cy ∈ cys ∧ subject_key e = Some (tracked_id cy.1)) new →
  k ∉ (λ cy, tracked_id cy.1) <$> cys →
  evidence_row_history (evs ++ new) k = evidence_row_history evs k.
Proof.
  intros Hnew Hk. rewrite history_app, (history_other new), app_nil_r; [done|].
  intros e Hin. apply not_true_is_false. intros Hw%writes_row_subject.
  rewrite Forall_forall in Hnew. destruct (Hnew e Hin) as (cy & Hcy & E).
  apply Hk, list_elem_of_fmap. exists cy. split; [congruence|done].
Qed.

Lemma act_step done' c y rest :
  criterion <$> ys = ids → zip dispatched ys = done' ++ (c, y) :: rest →
  run_io (progress done') (write_cross_off b prefixes gate lane evs (c, y))
    (λ _, progress (done' ++ [(c, y)])) interrupted.
Proof.
  intros Hfst El. assert ((c, y) ∈ zip dispatched ys) as Hin
    by (rewrite El; apply elem_of_app; right; left).
  destruct (zip_elem _ _ _ _ _ _ Hfst Hin) as (Hy & Hc & Hk).
  assert (tracked_id c ∉ (λ cy : _ * CriterionCrossOff, tracked_id cy.1) <$> done') as Hnot.
  { pose proof Hids as Hnd. rewrite <-(zip_keys criterion tracked_id ys dispatched Hfst), El, fmap_app in Hnd.
    apply NoDup_app in Hnd as (_ & Hd & _). intros Hd'. apply (Hd _ Hd'). left. }
  apply runs_exist. intros new. apply runs_pure. intros Hnew.
  assert (str_blank (tracked_id c) = false) as Hkey.
  { rewrite Forall_forall in Hkeys. apply Hkeys, list_elem_of_fmap. by exists c. }
  eapply runs_weaken.
  - apply (write_cross_off_runs c y Hy Hk Hkey (Hevs y Hy) evs (evs ++ new)).
    + by eapply progress_history.
    + intros _ Hst sha Hrec. apply (Hlapsed y); [done..|]. by rewrite Hk.
  - done.
  - intros _ w (ext & He & Hb). exists (new ++ ext). rewrite app_assoc. split; [done|].
    apply Forall_app. split.
    + eapply Forall_impl; [exact Hnew|]. intros e (cy & ? & ?). exists cy. split; [set_solver|done].
    + eapply Forall_impl; [exact He|]. intros e ?. exists (c, y). split; [set_solver|done].
  - intros w (ext & X & _ & HX & Hb). exists (new ++ ext), X. rewrite app_assoc. split; [done|].
    split; [|set_solver]. transitivity (size ({[ tracked_id c ]} : gset string)).
    + by apply subseteq_size.
    + by rewrite size_singleton.
Qed.

Lemma progress_interrupted cys w : progress cys w → interrupted w.
Proof. intros (new & Hb & _). exists new, ∅. split; [done|]. rewrite size_empty. split; [lia|set_solver]. Qed.

Lemma act_runs :
  run_io (balanced evs ∅) (write_cross_offs b prefixes gate lane dispatched ys)
    (λ _ w, ∃ new, balanced (evs ++ new) ∅ w) interrupted.
Proof.
  assert (∀ w, balanced evs ∅ w → progress [] w) as Hstart.
  { intros w Hb. exists []. rewrite app_nil_r. auto. }
  assert (∀ w, balanced evs ∅ w → interrupted w) as Hint
    by (intros w Hb; by apply (progress_interrupted []), Hstart).
  unfold write_cross_offs. eapply runs_bind; [by apply runs_lift_keep|]. intros u. cbv beta.
  apply runs_pure. intros [Hd _]%raise_if_ok. apply negb_false_iff, bool_decide_eq_true in Hd.
  apply (runs_bind _ _ _ _ (λ evs' w, balanced evs ∅ w ∧ (evs' = evs ∨ ys = []))).
  - destruct (existsb _ ys) eqn:Ex.
    + eapply (runs_bind _ _ _ _ (λ cs w, balanced evs ∅ w ∧ lane_run_events prefixes cs lane = Ok evs)).
      * intros s Hf Hg Hb. unfold _board.
        destruct (runs_read others lawful (balanced evs ∅) interrupted
          (λ cs w, balanced evs ∅ w ∧ lane_run_events prefixes cs lane = Ok evs) get_comments
          (balanced_stable evs ∅) Hint lawful_refl ltac:(done)
          ltac:(intros w cs Hb' [= <-]; split; [done|by destruct Hb' as (_ & ? & _)])
          s Hf Hg Hb) as (H1 & H2 & H3).
        unfold list_comments. destruct (call get_comments s) as [s' [cs|e]]; [done|].
        by destruct e.
      * intros cs. apply runs_lift. intros w [Hb E]. unfold _events. rewrite E. auto.
    + apply runs_ret. intros w Hb. split; [done|]. right. destruct ys as [|y ys']; [done|].
      exfalso. cbn in Ex. destruct (state y); discriminate.
  - intros evs'. apply runs_pure. intros Hcase.
    eapply (runs_weaken _ _ _ (progress []) _ interrupted _ (λ _, progress (zip dispatched ys)));
      [|done|intros a w (new & Hb & _); by exists new|done].
    destruct Hcase as [->|E].
    + apply (runs_each _ _ progress). intros done' [c y] rest El. by eapply act_step.
    + rewrite E. destruct dispatched; by apply runs_ret.
Qed.
End verdicts.
End act.

(** ** The audit's reading *)

Lemma accounted_trace {pl : PydanticJsonLaws} w events k i e :
  accounted w events k → issues w !! k = Some i → parse_criterion_evidence (body i) = Ok e →
  observe_restamp events k e ≠ Some REFUTED.
Proof.
  intros Ha Hi Hp. unfold observe_restamp. case_decide as Hh; [done|].
  unfold restamp_verdict. rewrite decide_True; [done|].
  destruct (last (evidence_row_history events k)) as [sha|] eqn:El; [|by apply last_None in El].
  destruct (Ha sha El) as (e' & Hv & Hr & Hs). unfold row in Hr. rewrite Hi in Hr.
  unfold stamp in Hr. rewrite (proj2 (strip_record e')) in Hr.
  rewrite (parse_fenced _ e' Hr Hv) in Hp. congruence.
Qed.
End spec.

(** C3. A verdict's writes and the audit never disagree, whatever fails between them. From
    a board where every criterion's Evidence row names the commit its recorded history
    ends at, [write_cross_offs] is run over any schedule: any call may fail unperformed,
    any may be performed and its answer lost, and between any two calls others may do
    anything to the board that leaves every Evidence row and this lane's stream as they
    read (move states, edit Checks, comment elsewhere). Then (1) each of its own writes is
    lawful: a row is set to a cross-off's evidence only, a history's entry is posted only
    while the row names its commit, and an issue is finished only on its pass, its row and
    its history at the graded commit; (2) the lane's stream has only grown, and at most one
    dispatched criterion is left in doubt, none when the act ended well; (3) every other
    criterion is accounted for, so the audit finds no restamped row. The evidences are
    valid and a lapse is graded at the last recorded commit, as the loop makes them. *)
Theorem write_cross_offs_accounts {pj : PydanticJson} {pl : PydanticJsonLaws}
    {ej : EventJson} {ejl : EventJsonLaws} {ij : IdentityJson} (b : Backend) (prefixes : pydict string string)
    (gate : OutboundDestination → string → result exn string) (lane : string)
    (dispatched : list TrackerCriterion) (ys : list CriterionCrossOff)
    (w0 : tracker_world) (evs : list LaneRunEvent) (schedule : list turn)
    (Hprefixes : marker_prefixes_valid prefixes = true) (Hlane : str_blank lane = false)
    (Hfair : Forall (fair (others prefixes lane)) schedule)
    (Hclock : clocked w0) (Hstream : stream prefixes lane w0 = Ok evs)
    (Hboard : ∀ k, accounted w0 evs k)
    (Hids : NoDup (tracked_id <$> dispatched))
    (Hkeys : Forall (λ k, str_blank k = false) (tracked_id <$> dispatched))
    (Hevs : ∀ y, y ∈ ys → valid_evidence (evidence y) = true)
    (Hlapsed : ∀ y sha, y ∈ ys → state y = lapsed → recorded evs (criterion y) = Some sha →
       sha = graded_sha (evidence y)) :
  let '(s, r) := write_cross_offs b prefixes gate lane dispatched ys
                   {| world := w0; turns := schedule; steps := [] |} in
  Forall (λ ww, lawful prefixes lane ys ww.1 ww.2) (steps s)
  ∧ ∃ new (X : gset string), stream prefixes lane (world s) = Ok (evs ++ new)
      ∧ size X ≤ 1 ∧ X ⊆ list_to_set (tracked_id <$> dispatched) ∧ (r = Ok tt → X = ∅)
      ∧ ∀ k, k ∉ X → accounted (world s) (evs ++ new) k
          ∧ ∀ i e, issues (world s) !! k = Some i → parse_criterion_evidence (body i) = Ok e →
              observe_restamp (evs ++ new) k e ≠ Some REFUTED.
Proof.
  destruct (act_runs b prefixes lane gate Hprefixes Hlane ys dispatched evs Hids Hkeys Hevs Hlapsed
    {| world := w0; turns := schedule; steps := [] |} Hfair ltac:(by constructor)
    ltac:(by split)) as (_ & Hlaw & Hend).
  destruct (write_cross_offs _ _ _ _ _ _ _) as [s r]. cbn [fst snd] in *. split; [done|].
  assert (∀ events X k, balanced prefixes lane events X (world s) → k ∉ X →
    accounted (world s) events k
    ∧ ∀ i e, issues (world s) !! k = Some i → parse_criterion_evidence (body i) = Ok e →
        observe_restamp events k e ≠ Some REFUTED) as Hread.
  { intros events X k (_ & _ & Ha) Hk. split; [by apply Ha|]. intros i e. by apply accounted_trace, Ha. }
  destruct r as [[]|e].
  - destruct Hend as (new & Hb). exists new, ∅. rewrite size_empty.
    split; [apply Hb|]. split; [lia|]. split; [set_solver|]. split; [done|]. intros k. by apply Hread.
  - destruct Hend as (new & X & Hb & Hsize & Hsub). exists new, X.
    split; [apply Hb|]. split; [done|]. split; [done|]. split; [done|]. intros k. by apply Hread.
Qed.

(** ** A stamped row whose event could not be posted *)

(** A reader of no identity: the sample bodies carry none. *)
#[export] Instance no_identity : IdentityJson := λ _, None.

Definition board_issue (key : string) : TrackerIssue := {|
  issue_key := key; title := "criterion"; body := "**Check:** it builds" +:+ nl; priority := NONE;
  state_name := "Todo"; state_kind := UNSTARTED; queue_states := ∅; issue_labels := {[ "criterion" ]};
  team_key := Some "T"; project := None; project_id := None; milestone_key := None;
  relations := []; parent_key := Some "K-1"; assignee_key := None;
  created_at := 0; updated_at := 0; url := "" |}.

Definition board_world : tracker_world := {|
  issues := {[ "C-1" := board_issue "C-1"; "C-2" := board_issue "C-2" ]};
  lane_comments := []; clock := 0 |}.

Definition board_backend : Backend := {|
  new_comment_key := λ w, "comment"; author := "bot"; writer_identity := {[ "bot" ]};
  created_by := λ _, Some "bot"; done_state := Some "Done"; pending_state := "Todo" |}.

Definition board_cross_off (key : string) : CriterionCrossOff := {|
  criterion := key; state := passed; evidence := sample_evidence;
  rederivation_class := cheap; exercised_paths := []; undemonstrated_reason := None |}.

(** The second criterion's history entry is refused by the backend. *)
Definition board_schedule : list turn :=
  replicate 16 quiet ++ [{| meanwhile := id; answer := Unperformed unknown_issue |}].

Definition board_run : run * result exn () :=
  write_cross_offs board_backend sample_prefixes (λ _, Ok) "K-1"
    [{| tracked_id := "C-1"; tracked_text := "it builds" |};
     {| tracked_id := "C-2"; tracked_text := "it builds" |}]
    [board_cross_off "C-1"; board_cross_off "C-2"]
    {| world := board_world; turns := board_schedule; steps := [] |}.

Example write_cross_offs_accounts_witness :
  board_run.2 = Err unknown_issue
  ∧ row (world board_run.1) "C-2" = stamp sample_evidence
  ∧ Forall (λ ww, lawful sample_prefixes "K-1" [board_cross_off "C-1"; board_cross_off "C-2"] ww.1 ww.2)
      (steps board_run.1)
  ∧ ∃ new (X : gset string), stream sample_prefixes "K-1" (world board_run.1) = Ok new
      ∧ size X ≤ 1 ∧ ∀ k, k ∉ X → accounted (world board_run.1) new k.
Proof.
  split; [by vm_compute|]. split; [by vm_compute|].
  pose proof (write_cross_offs_accounts board_backend sample_prefixes (λ _, Ok) "K-1"
    [{| tracked_id := "C-1"; tracked_text := "it builds" |};
     {| tracked_id := "C-2"; tracked_text := "it builds" |}]
    [board_cross_off "C-1"; board_cross_off "C-2"] board_world [] board_schedule) as H.
  fold board_run in H. destruct board_run as [s r]. cbn [fst snd].
  destruct H as [Hlaw (new & X & Hs & Hsize & _ & _ & Hk)].
  - done.
  - done.
  - apply Forall_forall. intros t Ht w Hc. apply elem_of_app in Ht as [Ht|Ht].
    + by apply elem_of_replicate_inv in Ht as ->.
    + by apply list_elem_of_singleton in Ht as ->.
  - intros c. set_solver.
  - by vm_compute.
  - intros k sha. done.
  - apply (bool_decide_unpack _). by vm_compute.
  - repeat constructor.
  - intros y Hy. apply elem_of_cons in Hy as [Hy|Hy%list_elem_of_singleton]; subst y; by vm_compute.
  - intros y sha _ _ Hr. done.
  - split; [exact Hlaw|]. exists new, X. split; [exact Hs|]. split; [done|]. intros k Hx. by apply Hk.
Defined.
