(* ===== verification/LaneWriterLedger.v ===== *)
(** * What the lane's writes come to when nothing fails.

    The act of services/lane_state_writer.py, some twenty calls a criterion, refines an
    update of a ledger: a criterion's state, its Evidence row, and the commit its history
    ends at. Here it is proved that on a board the act can be written to it returns, and
    its calls together are that update, criterion by criterion. *)

From S2P Require Import Prelude PyStr PyLines Tracker Errors FireSpec Criteria Lapse CriterionEvidence CrossOff.
From S2P Require Import Redispatch Amendment BaseResolution LaneRecord LaneEntry Surface CommentMarkers IssueIdentity RunEvents.
From S2P Require Import LaneRecords LanePort LaneWriter LaneWriterSpec.

Local Open Scope nat_scope.

(** ** The ledger *)

Record Standing := {
  standing_kind : WorkflowStateKind;
  standing_row : list string;
  standing_recorded : option string;
}.

Definition standing_of (i : TrackerIssue) (recorded_sha : option string) : Standing := {|
  standing_kind := state_kind i;
  standing_row := criterion_field_bodies (body i) F_EVIDENCE;
  standing_recorded := recorded_sha |}.

Definition standing (w : tracker_world) (events : list LaneRunEvent) (k : string) : option Standing :=
  i ← issues w !! k; Some (standing_of i (recorded events k)).

(** What a cross-off makes of a criterion: a pass finishes it; a failure or a lapse takes
    a finished one back; a reading that demonstrated nothing moves nothing. *)
Definition verdict `{PydanticJson} (y : CriterionCrossOff) (st : Standing) : Standing :=
  let sha := graded_sha (evidence y) in
  let taken_back recorded_sha :=
    if decide (standing_kind st = COMPLETED) then
      {| standing_kind := UNSTARTED; standing_row := stamp (evidence y);
         standing_recorded := recorded_sha |}
    else st in
  match state y, undemonstrated_reason y with
  | passed, _ => {| standing_kind := COMPLETED; standing_row := stamp (evidence y);
                    standing_recorded := Some sha |}
  | failed, None => taken_back (Some sha)
  | lapsed, None => taken_back (standing_recorded st)
  | _, _ => st
  end.

(** What a sequence of cross-offs makes of one criterion. *)
Definition apply_verdicts `{PydanticJson} (ys : list CriterionCrossOff) (k : string)
    (st : option Standing) : option Standing :=
  foldl (λ st y, if decide (criterion y = k) then verdict y <$> st else st) st ys.

(** What the stream says of a cross-off besides the row's history. *)
Definition announcement (y : CriterionCrossOff) : option RunEventKind :=
  match state y, undemonstrated_reason y with
  | passed, _ => Some ISSUE_CROSSED_OFF
  | _, Some reason => Some (UNDEMONSTRATED_EVENT_KINDS reason)
  | _, None => None
  end.

(** ** Programs that return *)

Definition lands {A} (P : tracker_world → Prop) (m : io A) (Q : A → tracker_world → Prop) : Prop :=
  ∀ s, turns s = [] → P (world s) →
    ∃ a, (m s).2 = Ok a ∧ turns (m s).1 = [] ∧ Q a (world (m s).1).

Lemma lands_ret {A} (P : tracker_world → Prop) (Q : A → tracker_world → Prop) a :
  (∀ w, P w → Q a w) → lands P (mret a) Q.
Proof. intros H s Hs HP. exists a. cbn. auto. Qed.

Lemma lands_lift {A} (P : tracker_world → Prop) (r : result exn A) a :
  (∀ w, P w → r = Ok a) → lands P (lift r) (λ x w, x = a ∧ P w).
Proof. intros H s Hs HP. exists a. cbn. rewrite (H _ HP). auto. Qed.

Lemma lands_bind {A B} P (R : A → tracker_world → Prop) (Q : B → tracker_world → Prop)
    (m : io A) (f : A → io B) :
  lands P m R → (∀ a, lands (R a) (f a) Q) → lands P (m ≫= f) Q.
Proof.
  intros Hm Hf s Hs HP. destruct (Hm s Hs HP) as (a & Ea & Ht & HR). unfold mbind, io_mbind.
  destruct (m s) as [s' r]. cbn in *. subst r. by apply Hf.
Qed.

Lemma lands_weaken {A} P P' (Q Q' : A → tracker_world → Prop) (m : io A) :
  lands P' m Q' → (∀ w, P w → P' w) → (∀ a w, Q' a w → Q a w) → lands P m Q.
Proof. intros H HP HQ s Hs Hw. destruct (H s Hs (HP _ Hw)) as (a & ? & ? & ?). exists a. auto. Qed.

Lemma lands_pure {A} (φ : Prop) P (Q : A → tracker_world → Prop) m :
  (φ → lands P m Q) → lands (λ w, φ ∧ P w) m Q.
Proof. intros H s Hs [Hφ HP]. by apply H. Qed.

Lemma lands_exist {A B} (P : B → tracker_world → Prop) (Q : A → tracker_world → Prop) m :
  (∀ x, lands (P x) m Q) → lands (λ w, ∃ x, P x w) m Q.
Proof. intros H s Hs [x HP]. by apply (H x). Qed.

Lemma lands_call {A} P (Q : A → tracker_world → Prop) (op : tracker_world → tracker_world * result exn A) :
  (∀ w, P w → ∃ a, (op w).2 = Ok a ∧ Q a (op w).1) → lands P (call op) Q.
Proof.
  intros H s Hs HP. destruct (H _ HP) as (a & E & HQ). unfold call. rewrite Hs. cbn.
  destruct (op (world s)) as [w r]. cbn in *. subst r. by exists a.
Qed.

Lemma lands_each {A} (I : list A → tracker_world → Prop) (f : A → io unit) l :
  (∀ done x rest, l = done ++ x :: rest → lands (I done) (f x) (λ _, I (done ++ [x]))) →
  lands (I []) (each f l) (λ _, I l).
Proof.
  intros Hf.
  assert (∀ done rest, l = done ++ rest → lands (I done) (each f rest) (λ _, I l)) as H;
    [|by apply (H [] l)].
  intros done rest. revert done. induction rest as [|x rest IH]; intros done El; cbn [each].
  - apply lands_ret. by rewrite El, app_nil_r.
  - eapply lands_bind; [by eapply Hf|]. intros u. cbn. apply IH. by rewrite El, <-app_assoc.
Qed.

Section ledger.
Context {pj : PydanticJson} {pl : PydanticJsonLaws} {ej : EventJson} {ejl : EventJsonLaws} {ij : IdentityJson}.
Context (b : Backend) (prefixes : pydict string string) (lane : string).
Context (Hvalid : marker_prefixes_valid prefixes = true) (Hlane : str_blank lane = false).

(** The board [w0] with one issue as the act has left it so far. *)
Definition at_issue (w0 : tracker_world) (k : string) (i : TrackerIssue) (events : list LaneRunEvent)
    (w : tracker_world) : Prop :=
  clocked w ∧ stream prefixes lane w = Ok events ∧ issues w = <[k := i]> (issues w0).

Lemma lands_read w0 k i events :
  lands (at_issue w0 k i events) (read_issue k) (λ j w, j = i ∧ at_issue w0 k i events w).
Proof.
  apply lands_call. intros w (Hc & Hs & Hi). exists i. cbn. by rewrite Hi, lookup_insert_eq.
Qed.

Lemma lands_save w0 k i events f :
  lands (at_issue w0 k i events) (call (save_issue k f))
    (λ _ w, ∃ now, at_issue w0 k (f now i) events w).
Proof.
  apply lands_call. intros w (Hc & Hs & Hi). unfold save_issue. rewrite Hi, lookup_insert_eq.
  cbn. eexists. split; [done|]. exists (clock w + 1)%Z. split; [|split; [done|]].
  - intros c Hin. specialize (Hc c Hin). cbn. lia.
  - cbn. by rewrite insert_insert_eq.
Qed.

(** The stream was read under the lane's marker, so a comment can be composed under it. *)
Lemma render_ok w events e :
  stream prefixes lane w = Ok events → event_lane e = lane →
  ∃ text, render_run_event prefixes e = Ok text.
Proof.
  intros Hs El. unfold stream, lane_run_events in Hs. apply bind_ok in Hs as (marker & Hm & _).
  unfold render_run_event. rewrite El, Hm. cbn.
  destruct (marker_unbroken prefixes Hvalid _ _ _ _ Hm) as [Hu Hne].
  rewrite marked_ok by done. eauto.
Qed.

Lemma lands_post w0 k i events e :
  event_valid e = true → event_lane e = lane →
  lands (at_issue w0 k i events) (post_run_event b prefixes e)
    (λ _, at_issue w0 k i (events ++ [e])).
Proof.
  intros He El s Ht (Hc & Hs & Hi). destruct (render_ok _ _ e Hs El) as [text Er].
  destruct (post_world b prefixes lane Hvalid e text events (world s) Er He El Hc Hs) as (? & ? & _ & ?).
  unfold post_run_event. rewrite Er. exists tt. unfold mbind, io_mbind, lift, post_comment, call.
  rewrite Ht, El. cbn. split; [done|]. split; [done|]. split; [done|]. split; [done|].
  cbn. by rewrite <-Hi.
Qed.

Lemma lands_unless w0 k i events posted e :
  event_valid e = true → event_lane e = lane →
  lands (at_issue w0 k i events) (unless b prefixes posted e)
    (λ _, at_issue w0 k i (if (posted : bool) then events else events ++ [e])).
Proof. intros He El. destruct posted; [by apply lands_ret|by apply lands_post]. Qed.

(** ** One criterion *)

Section criterion.
Context (gate : OutboundDestination → string → result exn string).
Context (Hgate : ∀ text, gate TRACKER_DESCRIPTION text = Ok text).
Context (done_name : string) (Hdone : done_state b = Some done_name).

(** A body this credential's account wrote, and that carries no identity. *)
Definition rewritable (key : string) (i : TrackerIssue) : Prop :=
  decode prefixes (body i) key = Ok None
  ∧ ∃ creator, created_by b key = Some creator ∧ creator ∈ writer_identity b.

(** A criterion's issue the act can be written to. *)
Definition ready (c : TrackerCriterion) (i : TrackerIssue) : Prop :=
  issue_key i = tracked_id c ∧ tickable i c = true ∧ settled (body i) = true
  ∧ parent_key i ≠ None ∧ team_key i ≠ None
  ∧ rewritable (tracked_id c) i
  ∧ (state_name i = done_name → state_kind i = COMPLETED).

Context (c : TrackerCriterion) (y : CriterionCrossOff) (w0 : tracker_world).
Notation k := (tracked_id c).
Context (Hkey : str_blank k = false) (Hev : valid_evidence (evidence y) = true)
  (Hplain : plain_text (test (evidence y)) = true).

Lemma tickable_labels i : tickable i c = true → NoDup (field_texts (body i)).*1.
Proof.
  unfold tickable. rewrite !andb_true_iff, !bool_decide_eq_true. intros (_ & H).
  by apply duplicated_row_labels_nil.
Qed.

Lemma require_tickable_ok i : tickable i c = true → require_tickable i c = Ok tt.
Proof. intros H. unfold require_tickable. by rewrite H. Qed.

Lemma evidence_body_ok i :
  tickable i c = true → settled (body i) = true → ∃ text, _evidence_body i c y = Ok text
    ∧ criterion_field_bodies text F_EVIDENCE = stamp (evidence y)
    ∧ ∀ now, tickable (with_body i text now) c = true.
Proof.
  intros Ht Hs.
  destruct (apply_evidence_reads (body i) (evidence y) (tickable_labels i Ht) Hs Hev Hplain)
    as (text & E & Hrow & Hother & _ & Hnd).
  exists text. unfold _evidence_body. rewrite E. split; [done|]. split.
  { rewrite Hrow. unfold stamp. by rewrite (proj2 (strip_record (evidence y))). }
  intros now. revert Ht. unfold tickable. rewrite !andb_true_iff, !bool_decide_eq_true.
  intros [[[Hl Hk] Hc] _]. split; [split; [by split|]|].
  - cbn [body with_body]. by rewrite Hother.
  - by apply duplicated_row_labels_nil.
Qed.

(** The body read again carries no identity, so it is replaced by the text as it is. *)
Lemma lands_patch i events text :
  rewritable k i →
  lands (at_issue w0 k i events) (_patch_issue b prefixes k text)
    (λ _ w, ∃ now, at_issue w0 k (with_body i text now) events w).
Proof.
  intros (Hcarrier & creator & Hcreator & Hmine). unfold _patch_issue. eapply lands_bind; [apply lands_read|]. intros j. apply lands_pure. intros ->.
  apply (lands_bind _ (λ _, at_issue w0 k i events)).
  { unfold _require_machine_authored. rewrite Hcreator.
    apply (lands_bind _ (λ mine w, mine = true ∧ at_issue w0 k i events w)).
    - apply (lands_bind _ (λ authors w, authors = writer_identity b ∧ at_issue w0 k i events w)).
      + apply lands_call. intros w Hw. by exists (writer_identity b).
      + intros authors. apply lands_pure. intros ->. apply lands_ret. intros w Hw.
        by rewrite bool_decide_eq_true_2.
    - intros mine. apply lands_pure. intros ->.
      eapply lands_weaken; [by apply (lands_lift _ _ tt)|done|]. by intros a w [_ ?]. }
  intros u. eapply lands_bind; [by apply lands_lift|]. intros identity. apply lands_pure. intros ->.
  eapply lands_bind; [by apply (lands_lift _ _ text)|]. intros t. apply lands_pure. intros ->.
  eapply lands_bind; [apply lands_save|]. intros saved. by apply lands_ret.
Qed.

Lemma lands_edit i events text :
  rewritable k i →
  lands (at_issue w0 k i events) (edit_description b prefixes k (body i) text)
    (λ _ w, ∃ now, at_issue w0 k (with_body i text now) events w).
Proof.
  intros Hrewritable. unfold edit_description. eapply lands_bind; [apply lands_read|]. intros j. apply lands_pure. intros ->.
  assert (body i = text → with_body i text (updated_at i) = i) as Hsame
    by (intros <-; by destruct i).
  unfold description_replacement. destruct (decide (body i = text ∨ body i = text)) as [E|E].
  - eapply lands_bind; [by apply lands_lift|]. intros t. apply lands_pure. intros ->.
    apply lands_ret. intros w Hw. exists (updated_at i). by rewrite Hsame by tauto.
  - rewrite decide_True by done.
    eapply lands_bind; [by apply lands_lift|]. intros t. apply lands_pure. intros ->.
    eapply lands_bind; [by apply lands_patch|]. intros u. by apply lands_ret.
Qed.

Lemma lands_stamp i events :
  tickable i c = true → settled (body i) = true → rewritable k i →
  lands (at_issue w0 k i events) (_stamp b prefixes gate lane c i y)
    (λ _ w, ∃ i', (state_kind i' = state_kind i ∧ state_name i' = state_name i
                   ∧ criterion_field_bodies (body i') F_EVIDENCE = stamp (evidence y)
                   ∧ tickable i' c = true) ∧ at_issue w0 k i' events w).
Proof.
  intros Hti Hsi Hri. destruct (evidence_body_ok i Hti Hsi) as (text & E & Hrow & Ht). unfold _stamp.
  eapply lands_bind.
  { apply (lands_lift _ _ text). intros w _. rewrite E. cbn. unfold _gate_exact. rewrite Hgate. cbn.
    by rewrite bool_decide_eq_true_2. }
  intros t. apply lands_pure. intros ->. eapply lands_bind; [by apply lands_edit|].
  intros u. apply lands_ret. intros w [now Hw]. exists (with_body i text now). split; [|done].
  by split_and!.
Qed.

Lemma lands_done i events :
  (state_name i = done_name → state_kind i = COMPLETED) →
  lands (at_issue w0 k i events) (set_workflow_done b k)
    (λ _ w, ∃ i', (state_kind i' = COMPLETED ∧ body i' = body i) ∧ at_issue w0 k i' events w).
Proof.
  intros Hname. unfold set_workflow_done. rewrite Hdone.
  eapply lands_bind; [apply lands_read|]. intros j. apply lands_pure. intros ->.
  case_decide as Hn.
  - apply lands_ret. intros w Hw. exists i. auto.
  - eapply lands_bind; [apply lands_save|]. intros u. apply lands_ret. intros w [now Hw].
    by exists (with_state i done_name COMPLETED now).
Qed.

Lemma lands_reset i events :
  ready c i → state_kind i = COMPLETED →
  lands (at_issue w0 k i events) (reset_criterion_pending b i)
    (λ _ w, ∃ now, at_issue w0 k (with_state i (pending_state b) UNSTARTED now) events w).
Proof.
  intros (Hk & Ht & _ & Hparent & Hteam & _) Hst.
  assert (has_label "criterion" i = true) as Hlabel.
  { revert Ht. unfold tickable. rewrite !andb_true_iff. tauto. }
  assert (∀ j, has_label "criterion" j = true → parent_key j ≠ None →
    source_facts (bool_decide (state_kind j = UNSTARTED)) i
      = source_facts (bool_decide (state_kind j = UNSTARTED)) j →
    require_criterion_source i j true = Ok tt) as Hreq.
  { intros j Hl Hp Hf. unfold require_criterion_source. cbv zeta. cbn [andb].
    rewrite Hl, Hf, (bool_decide_eq_false_2 _ Hp). cbn [negb orb raise_if].
    by rewrite bool_decide_eq_true_2. }
  unfold reset_criterion_pending. rewrite Hk. cbv zeta.
  eapply lands_bind; [apply lands_read|]. intros j. apply lands_pure. intros ->.
  eapply lands_bind; [by apply lands_lift; intros _ _; apply Hreq|]. intros u. apply lands_pure. intros _.
  eapply lands_bind; [apply lands_lift; intros _ _; by rewrite bool_decide_eq_false_2|]. intros u'.
  apply lands_pure. intros _.
  eapply (lands_bind _ (λ st w, st = pending_state b ∧ at_issue w0 k i events w)).
  { apply lands_call. intros w Hw. by exists (pending_state b). }
  intros st. apply lands_pure. intros ->.
  eapply lands_bind; [apply lands_read|]. intros j. apply lands_pure. intros ->.
  eapply lands_bind; [by apply lands_lift; intros _ _; apply Hreq|]. intros u2. apply lands_pure. intros _.
  rewrite decide_False by congruence.
  eapply (lands_bind _ (λ _ w, ∃ now,
    at_issue w0 k (with_state i (pending_state b) UNSTARTED now) events w)).
  { eapply lands_bind; [apply lands_save|]. intros u3. by apply lands_ret. }
  intros u3. apply lands_exist. intros now.
  eapply lands_bind; [apply lands_read|]. intros j. apply lands_pure. intros ->.
  eapply lands_bind; [by apply lands_lift; intros _ _; apply Hreq|]. intros u4. apply lands_pure. intros _.
  eapply lands_weaken; [apply (lands_lift _ _ tt); intros _ _; by rewrite bool_decide_eq_true_2|done|].
  intros u5 w [_ Hw]. by exists now.
Qed.

(** What the act read of the stream, which has since grown by other criteria's events. *)
Context (evs events : list LaneRunEvent)
  (Hhist : evidence_row_history events k = evidence_row_history evs k)
  (Hgrown : ∀ e, e ∈ evs → e ∈ events).

Definition settles (i : TrackerIssue) (w : tracker_world) : Prop :=
  ∃ i' ext, at_issue w0 k i' (events ++ ext) w ∧ Forall (λ e, subject_key e = Some k) ext
    ∧ standing_of i' (recorded (events ++ ext) k) = verdict y (standing_of i (recorded events k))
    ∧ ∀ kind, announcement y = Some kind → graded_event lane kind c y ∈ events ++ ext.

(** The event is in the stream after it, posted now or read there. *)
Lemma unless_in posted kind evs' :
  (posted = true → graded_event lane kind c y ∈ evs') →
  ∃ ext, (if (posted : bool) then evs' else evs' ++ [graded_event lane kind c y]) = evs' ++ ext
    ∧ Forall (λ e, subject_key e = Some k) ext ∧ graded_event lane kind c y ∈ evs' ++ ext.
Proof.
  intros Hp. destruct posted.
  - exists []. rewrite app_nil_r. split_and!; [done|done|by apply Hp].
  - eexists. split; [done|]. split; [by constructor|]. set_solver.
Qed.

Lemma unless_recorded posted kind evs' :
  kind ∈ EVIDENCE_ROW_WRITES → (posted = true → recorded evs' k = Some (graded_sha (evidence y))) →
  recorded (if (posted : bool) then evs' else evs' ++ [graded_event lane kind c y]) k
    = Some (graded_sha (evidence y)).
Proof.
  intros Hkind Hp. destruct posted; [by apply Hp|]. apply recorded_posted; [|done].
  unfold writes_row. cbn. by rewrite !bool_decide_eq_true_2.
Qed.

Lemma unless_not_recorded posted kind evs' :
  kind ∉ EVIDENCE_ROW_WRITES →
  recorded (if (posted : bool) then evs' else evs' ++ [graded_event lane kind c y]) k = recorded evs' k.
Proof. intros Hkind. destruct posted; [done|]. apply recorded_other. by left. Qed.

Lemma ends_in_stream kind :
  _ends_row_history (graded_event lane kind c y) evs = true → graded_event lane kind c y ∈ events.
Proof.
  unfold _ends_row_history. rewrite bool_decide_eq_true. intros [l El]%last_Some.
  apply Hgrown. assert (graded_event lane kind c y ∈ l ++ [graded_event lane kind c y]) as Hin by set_solver.
  rewrite <-El in Hin. by apply list_elem_of_filter in Hin as [_ ?].
Qed.

Lemma write_one_lands i :
  state y = passed → ready c i →
  lands (at_issue w0 k i events) (_write_one b prefixes gate lane evs c y) (λ _, settles i).
Proof.
  intros Hst Hr. destruct Hr as (Hk & Ht & Hset & _ & _ & Hri & Hr). unfold _write_one. cbv zeta.
  eapply lands_bind; [apply lands_read|]. intros j. apply lands_pure. intros ->.
  eapply lands_bind; [apply lands_lift; intros _ _; by apply require_tickable_ok|]. intros u.
  apply lands_pure. intros _.
  eapply lands_bind; [by apply lands_stamp|]. intros u1. apply lands_exist. intros i1.
  apply lands_pure. intros (Hkind1 & Hname1 & Hrow1 & Ht1).
  eapply lands_bind; [apply lands_unless; [by apply graded_event_valid|done]|]. intros u2.
  eapply lands_bind; [apply lands_read|]. intros j. apply lands_pure. intros ->.
  eapply lands_bind; [apply lands_lift; intros _ _; by apply require_tickable_ok|]. intros u3.
  apply lands_pure. intros _.
  eapply lands_bind; [apply lands_done; rewrite Hkind1, Hname1; apply Hr|]. intros u4.
  apply lands_exist. intros i2. apply lands_pure. intros (Hkind2 & Hbody2).
  eapply lands_weaken; [apply lands_unless; [by apply graded_event_valid|done]|done|].
  intros u5 w Hw.
  destruct (unless_in (_ends_row_history (graded_event lane CRITERION_PASSED c y) evs) CRITERION_PASSED
    events (ends_in_stream _)) as (e1 & E1 & H1 & _).
  pose proof (unless_recorded (_ends_row_history (graded_event lane CRITERION_PASSED c y) evs) CRITERION_PASSED
    events ltac:(set_solver) (posted_recorded lane c y evs events Hhist _)) as Hrec.
  rewrite E1 in Hw, Hrec.
  pose proof (unless_not_recorded (bool_decide (graded_event lane ISSUE_CROSSED_OFF c y ∈ evs))
    ISSUE_CROSSED_OFF (events ++ e1) ltac:(set_solver)) as Hrec'.
  destruct (unless_in (bool_decide (graded_event lane ISSUE_CROSSED_OFF c y ∈ evs)) ISSUE_CROSSED_OFF
    (events ++ e1)) as (e2 & E2 & H2 & Hin).
  { intros H%bool_decide_eq_true. apply elem_of_app. left. by apply Hgrown. }
  rewrite E2, Hrec in Hrec'. rewrite E2 in Hw. rewrite <-app_assoc in Hw, Hin, Hrec'.
  exists i2, (e1 ++ e2). split; [done|]. split; [by apply Forall_app|]. split.
  - rewrite Hrec'. unfold verdict, standing_of. by rewrite Hst, Hkind2, Hbody2, Hrow1.
  - unfold announcement. rewrite Hst. by intros kind [= <-].
Qed.

Lemma taken_back_lands i kind :
  (state y = failed ∧ kind = CRITERION_REFUTED ∨ state y = lapsed ∧ kind = CRITERION_LAPSED) →
  undemonstrated_reason y = None → ready c i →
  lands (at_issue w0 k i events)
    (_take_back b prefixes gate lane evs (graded_event lane kind c y) c y) (λ _, settles i).
Proof.
  intros Hst Hreason Hr. pose proof Hr as (Hk & Ht & Hset & _ & _ & Hri & _). unfold _take_back. cbv zeta.
  assert (∀ kind', announcement y ≠ Some kind') as Hann.
  { intros kind'. unfold announcement. rewrite Hreason. by destruct Hst as [[-> _]|[-> _]]. }
  eapply lands_bind; [apply lands_read|]. intros j. apply lands_pure. intros ->.
  unfold HELD_CRITERION_STATE. case_decide as Hheld.
  2:{ apply lands_ret. intros w Hw. exists i, []. rewrite app_nil_r. split; [done|]. split; [done|].
      split; [|by intros kind' ?%Hann]. unfold verdict. rewrite Hreason. cbn [standing_kind standing_of].
      rewrite !decide_False by done. by destruct Hst as [[-> _]|[-> _]]. }
  eapply lands_bind; [apply lands_lift; intros _ _; by apply require_tickable_ok|]. intros u.
  apply lands_pure. intros _. destruct (evidence_body_ok i Ht Hset) as (text & Etext & _).
  eapply lands_bind; [by apply lands_lift; intros _ _; apply Etext|]. intros t. apply lands_pure. intros _.
  eapply lands_bind; [by apply lands_reset|]. intros u1. apply lands_exist. intros now.
  set (i1 := with_state i (pending_state b) UNSTARTED now).
  assert (tickable i1 c = true) as Ht1.
  { revert Ht. unfold tickable. rewrite !andb_true_iff, !bool_decide_eq_true. intros [[[? ?] ?] ?].
    split_and!; try done; cbn; set_solver. }
  eapply lands_bind; [apply lands_read|]. intros j. apply lands_pure. intros ->.
  eapply lands_bind; [apply lands_lift; intros _ _; by apply require_tickable_ok|]. intros u2.
  apply lands_pure. intros _.
  eapply lands_bind; [by apply lands_stamp|]. intros u3. apply lands_exist. intros i2.
  apply lands_pure. intros (Hkind2 & _ & Hrow2 & _).
  eapply lands_weaken; [apply lands_unless; [by apply graded_event_valid|done]|done|].
  intros u4 w Hw. cbn [event_kind graded_event] in Hw.
  assert (standing_of i2 (recorded events k) = {| standing_kind := UNSTARTED;
    standing_row := stamp (evidence y); standing_recorded := recorded events k |}) as Hst2
    by (unfold standing_of; by rewrite Hkind2, Hrow2).
  assert (∀ posted : bool, (posted = true → graded_event lane kind c y ∈ events) →
    (kind = CRITERION_REFUTED → posted = true → recorded events k = Some (graded_sha (evidence y))) →
    at_issue w0 k i2 (if posted then events else events ++ [graded_event lane kind c y]) w → settles i w)
    as Hfin.
  { intros posted Hin Hrec Hw'. destruct (unless_in posted kind events Hin) as (ext & Eext & Hsub & _).
    rewrite Eext in Hw'. exists i2, ext. split; [done|]. split; [done|].
    split; [|by intros kind' ?%Hann]. unfold verdict. rewrite Hreason, <-Eext. cbn [standing_kind standing_of].
    rewrite !decide_True by done. unfold standing_of. rewrite Hkind2, Hrow2.
    destruct Hst as [[-> ->]|[-> ->]]; [rewrite unless_recorded by (set_solver || auto)
      |rewrite unless_not_recorded by set_solver]; done. }
  case_decide as Hw0.
  - eapply Hfin, Hw; [apply ends_in_stream|]. intros _. by eapply posted_recorded.
  - eapply Hfin, Hw; [|intros ->; set_solver].
    intros H%bool_decide_eq_true. by apply Hgrown.
Qed.

Lemma write_cross_off_lands i :
  ready c i →
  lands (at_issue w0 k i events) (write_cross_off b prefixes gate lane evs (c, y)) (λ _, settles i).
Proof.
  intros Hr.
  assert (∀ reason, undemonstrated_reason y = Some reason → state y ≠ passed →
    lands (at_issue w0 k i events) (_undemonstrated b prefixes lane evs reason c y) (λ _, settles i)) as Hund.
  { intros reason Hreason Hst. unfold _undemonstrated.
    set (kind := UNDEMONSTRATED_EVENT_KINDS reason).
    assert (kind ∉ EVIDENCE_ROW_WRITES) as Hkind by (destruct reason; set_solver).
    eapply lands_weaken; [apply lands_unless; [by apply graded_event_valid|done]|done|].
    intros u w Hw. pose proof (unless_not_recorded (bool_decide (graded_event lane kind c y ∈ evs)) kind
      events Hkind) as Hrec.
    destruct (unless_in (bool_decide (graded_event lane kind c y ∈ evs)) kind events)
      as (ext & Eext & Hsub & Hin).
    { intros H%bool_decide_eq_true. by apply Hgrown. }
    rewrite Eext in Hw, Hrec. exists i, ext. split; [done|]. split; [done|]. split.
    - rewrite Hrec. unfold verdict. rewrite Hreason. by destruct (state y).
    - unfold announcement. rewrite Hreason. destruct (state y); [done|..]; by intros kind' [= <-]. }
  unfold write_cross_off. destruct (state y) eqn:Hst; [by apply write_one_lands|..];
    (destruct (undemonstrated_reason y) as [reason|] eqn:Hreason; [by apply Hund|]);
    [apply taken_back_lands; auto|apply taken_back_lands; auto|].
  apply lands_ret. intros w Hw. exists i, []. rewrite app_nil_r. split; [done|]. split; [done|].
  unfold verdict, announcement. by rewrite Hst, Hreason.
Qed.
End criterion.


(** ** The act *)

Section act.
Context (gate : OutboundDestination → string → result exn string).
Context (Hgate : ∀ text, gate TRACKER_DESCRIPTION text = Ok text).
Context (done_name : string) (Hdone : done_state b = Some done_name).
Context (dispatched : list TrackerCriterion) (ys : list CriterionCrossOff) (w0 : tracker_world)
  (evs : list LaneRunEvent).
Notation ids := (tracked_id <$> dispatched).
Context (Hfst : criterion <$> ys = ids) (Hids : NoDup ids)
  (Hkeys : Forall (λ k, str_blank k = false) ids)
  (Hevs : ∀ y, y ∈ ys → valid_evidence (evidence y) = true ∧ plain_text (test (evidence y)) = true)
  (Hready : ∀ c, c ∈ dispatched → ∃ i, issues w0 !! tracked_id c = Some i ∧ ready done_name c i).

Notation key cy := (tracked_id cy.1).

(** After the criteria of [cys]: each stands as its verdict leaves it, the rest as before. *)
Definition written (cys : list (TrackerCriterion * CriterionCrossOff)) (w : tracker_world) : Prop :=
  ∃ new, clocked w ∧ stream prefixes lane w = Ok (evs ++ new)
    ∧ Forall (λ e, ∃ cy, cy ∈ cys ∧ subject_key e = Some (key cy)) new
    ∧ (∀ k, k ∉ (λ cy, key cy) <$> cys → issues w !! k = issues w0 !! k)
    ∧ (∀ k, standing w (evs ++ new) k = apply_verdicts cys.*2 k (standing w0 evs k))
    ∧ ∀ cy kind, cy ∈ cys → announcement cy.2 = Some kind →
        graded_event lane kind cy.1 cy.2 ∈ evs ++ new.

Lemma written_start w : clocked w0 → stream prefixes lane w0 = Ok evs → w = w0 → written [] w.
Proof.
  intros Hc Hs ->. exists []. rewrite app_nil_r. split_and!; try done.
  by intros ? ? ?%elem_of_nil.
Qed.

Lemma written_step done' c y rest :
  zip dispatched ys = done' ++ (c, y) :: rest →
  lands (written done') (write_cross_off b prefixes gate lane evs (c, y)) (λ _, written (done' ++ [(c, y)])).
Proof.
  intros El s Hs (new & Hc & Hst & Hnew & Hrest & Hstand & Hann).
  assert ((c, y) ∈ zip dispatched ys) as Hin by (rewrite El; apply elem_of_app; right; left).
  destruct (zip_elem _ _ _ _ _ _ Hfst Hin) as (Hy & Hcin & Hk).
  assert (tracked_id c ∉ (λ cy : _ * CriterionCrossOff, key cy) <$> done') as Hnot.
  { pose proof Hids as Hnd. rewrite <-(zip_keys criterion tracked_id ys dispatched Hfst), El, fmap_app in Hnd.
    apply NoDup_app in Hnd as (_ & Hd & _). intros Hd'. apply (Hd _ Hd'). left. }
  destruct (Hready c Hcin) as (i & Hi & Hr). rewrite <-(Hrest _ Hnot) in Hi.
  destruct (Hevs y Hy) as [Hv Hp].
  assert (str_blank (tracked_id c) = false) as Hkey.
  { rewrite Forall_forall in Hkeys. apply Hkeys, list_elem_of_fmap. by exists c. }
  destruct (write_cross_off_lands gate Hgate done_name Hdone c y (world s)
    Hkey Hv Hp evs (evs ++ new) (progress_history evs done' new _ Hnew Hnot)
    ltac:(intros e ?; apply elem_of_app; by left) i Hr s Hs) as (u & Eu & Ht & Hset).
  { split; [done|]. split; [done|]. by rewrite insert_id. }
  exists u. split; [done|]. split; [done|].
  destruct Hset as (i' & ext & (Hc' & Hst' & Hi') & Hext & Hverdict & Hin').
  rewrite <-app_assoc in Hst', Hin', Hverdict.
  exists (new ++ ext). split; [done|]. split; [done|]. split.
  { apply Forall_app. split.
    - eapply Forall_impl; [exact Hnew|]. intros e (cy & ? & ?). exists cy. split; [set_solver|done].
    - eapply Forall_impl; [exact Hext|]. intros e ?. exists (c, y). split; [set_solver|done]. }
  split.
  { intros k Hk'. rewrite fmap_app in Hk'. rewrite Hi', lookup_insert_ne by set_solver. apply Hrest. set_solver. }
  split.
  - intros k. unfold apply_verdicts. rewrite fmap_app, foldl_app. fold (apply_verdicts done'.*2 k (standing w0 evs k)).
    rewrite <-Hstand. cbn [fmap list_fmap foldl snd]. rewrite Hk. unfold standing. rewrite Hi'.
    case_decide as Hkk.
    + subst k. rewrite lookup_insert_eq, Hi. cbn. by rewrite <-Hverdict.
    + rewrite lookup_insert_ne by done. unfold recorded. rewrite app_assoc, history_app, (history_other ext), app_nil_r; [done|].
      intros e He. apply not_true_is_false. intros Hw%writes_row_subject.
      rewrite Forall_forall in Hext. specialize (Hext e He). congruence.
  - intros cy kind [Hcy|Hcy%list_elem_of_singleton]%elem_of_app Hkind; [|subst cy; by apply Hin'].
    rewrite app_assoc. apply elem_of_app. left. by apply Hann.
Qed.

Lemma act_lands :
  clocked w0 → stream prefixes lane w0 = Ok evs →
  lands (λ w, w = w0) (write_cross_offs b prefixes gate lane dispatched ys)
    (λ _, written (zip dispatched ys)).
Proof.
  intros Hc Hs. unfold write_cross_offs.
  eapply lands_bind.
  { apply lands_lift. intros w _. by rewrite (bool_decide_eq_true_2 _ Hfst). }
  intros u. apply lands_pure. intros _.
  apply (lands_bind _ (λ evs' w, (evs' = evs ∨ ys = []) ∧ w = w0)).
  - destruct (existsb _ ys) eqn:Ex.
    + intros s Ht Hw. exists evs. unfold mbind, io_mbind, _board, list_comments, call. rewrite Ht.
      cbn. rewrite Hw. unfold _events. unfold stream in Hs. rewrite Hs. auto.
    + apply lands_ret. intros w ->. split; [|done]. right. destruct ys as [|y ys']; [done|].
      exfalso. cbn in Ex. destruct (state y); discriminate.
  - intros evs'. apply lands_pure. intros Hcase.
    eapply (lands_weaken _ (written [])); [|intros w Hw; by apply written_start|intros ? w Hw; exact Hw].
    destruct Hcase as [->|E].
    + apply (lands_each written). intros done' [c y] rest El. by eapply written_step.
    + rewrite E. destruct dispatched; by apply lands_ret.
Qed.
End act.
End ledger.


(** ** A pass, and a finished criterion taken back *)

Definition finished (i : TrackerIssue) : TrackerIssue := with_state i "Done" COMPLETED 0.

Definition refuted_world : tracker_world := {|
  issues := {[ "C-1" := board_issue "C-1"; "C-2" := finished (board_issue "C-2") ]};
  lane_comments := []; clock := 0 |}.

Definition refuted_cross_off (key : string) : CriterionCrossOff := {|
  criterion := key; state := failed; evidence := sample_evidence;
  rederivation_class := cheap; exercised_paths := []; undemonstrated_reason := None |}.

Definition board_roster : list TrackerCriterion :=
  [{| tracked_id := "C-1"; tracked_text := "it builds" |};
   {| tracked_id := "C-2"; tracked_text := "it builds" |}].

Definition refuted_run : run * result exn () :=
  write_cross_offs board_backend sample_prefixes (λ _, Ok) "K-1" board_roster
    [board_cross_off "C-1"; refuted_cross_off "C-2"]
    {| world := refuted_world; turns := []; steps := [] |}.

