(* ===== verification/FireContext.v ===== *)
(** * What a fire carries into its session (services/fire_context.py,
    types/domain/fire.py). *)

From S2P Require Import Prelude PyStr PyLines Tracker Errors.

Local Open Scope nat_scope.

(** types/domain/gating.py *)
Inductive GateVerdict := CLEAN | REDACTED | BLOCKED.
#[export] Instance GateVerdict_eq_dec : EqDecision GateVerdict.
Proof. solve_decision. Defined.
Definition verdict_value (v : GateVerdict) : string :=
  match v with CLEAN => "clean" | REDACTED => "redacted" | BLOCKED => "blocked" end.

Record FireAsset := { asset_key : string; asset_title : string; content : string }.

(** Texts are UTF-8 bytes here, so the encoded size is the length. *)
Definition size_bytes (a : FireAsset) : nat := String.length (content a).

Record FireContext := { context_issue_key : string; context_body : string; assets : list FireAsset }.

Definition _INVENTORY_HEADING : string := "## Fetched assets".
Definition _NO_ASSETS : string := "This ticket references no assets.".
Definition _CONTENT_HEADING : string := "### ".
Definition _FENCE : string := "```".

Definition render (self : FireContext) : string :=
  let sections := ["Tracker issue: " +:+ context_issue_key self; context_body self; _INVENTORY_HEADING] in
  join (nl +:+ nl)
    (match assets self with
     | [] => sections ++ [_NO_ASSETS]
     | l => sections
            ++ [join nl ((λ a, "- " +:+ asset_key a +:+ ": " +:+ asset_title a) <$> l)]
            ++ ((λ a, _CONTENT_HEADING +:+ asset_key a +:+ nl +:+ _FENCE +:+ nl +:+ content a
                      +:+ nl +:+ _FENCE) <$> l)
     end).

(** The assembler's settings, and what the world answers it. *)
Record FireContextAssembler := { max_count : nat; max_bytes : nat }.

(** One fetched document: its content, the budget of the fetch run out, or any failure. *)
Inductive fetched := Content (text : string) | FetchTimedOut | FetchFailed (e : exn).

Section assemble.
Context {W : Type}.
Context (list_issue_assets : string → W → W * result exn (list (string * string))).
Context (read_document : string → W → W * fetched).
Context (gate : string → W → W * result exn GateVerdict).
Context (self : FireContextAssembler).

Definition _admit (issue : string) (a : FireAsset) (w : W) : W * result exn unit :=
  match gate (content a) w with
  | (w, Ok verdict) =>
      (w, raise_if (negb (bool_decide (verdict = CLEAN)))
            (AssetFetchError issue (AssetNotClean (verdict_value verdict)) (Some (asset_key a)))
            (Ok tt))
  | (w, Err e) => (w, Err e)
  end.

(** [except TimeoutError], then [except Exception]: a cancellation is neither. *)
Definition _fetch (issue key title : string) (w : W) : W * result exn FireAsset :=
  match read_document key w with
  | (w, FetchTimedOut) | (w, FetchFailed (TimeoutError _)) =>
      (w, Err (AssetFetchError issue AssetTimedOut (Some key)))
  | (w, FetchFailed CancelledError) => (w, Err CancelledError)
  | (w, FetchFailed _) => (w, Err (AssetFetchError issue AssetUnreadable (Some key)))
  | (w, Content text) =>
      let a := {| asset_key := key; asset_title := title; content := text |} in
      if decide (max_bytes self < size_bytes a) then
        (w, Err (AssetFetchError issue (AssetTooLarge (size_bytes a) (max_bytes self)) (Some key)))
      else match _admit issue a w with (w, Ok _) => (w, Ok a) | (w, Err e) => (w, Err e) end
  end.

Fixpoint fetch_all (issue : string) (refs : list (string * string)) (w : W) :
    W * result exn (list FireAsset) :=
  match refs with
  | [] => (w, Ok [])
  | (key, title) :: refs =>
      match _fetch issue key title w with
      | (w, Err e) => (w, Err e)
      | (w, Ok a) => match fetch_all issue refs w with
                     | (w, Ok l) => (w, Ok (a :: l))
                     | (w, Err e) => (w, Err e)
                     end
      end
  end.

Definition assemble (issue body : string) (w : W) : W * result exn FireContext :=
  match list_issue_assets issue w with
  | (w, Err e) => (w, Err e)
  | (w, Ok refs) =>
      if decide (max_count self < length refs) then
        (w, Err (AssetFetchError issue (TooManyAssets (length refs) (max_count self)) None))
      else match fetch_all issue refs w with
           | (w, Ok l) => (w, Ok {| context_issue_key := issue; context_body := body; assets := l |})
           | (w, Err e) => (w, Err e)
           end
  end.
End assemble.
