(* ===== verification/FireDispatcher.v ===== *)
(** * The dispatch pass (services/fire_dispatcher.py, scope_dispatcher.py,
    types/domain/dispatch.py).

    One pass scans the boards, excludes by clauses, ranks what is left, and claims,
    resolves and enqueues one fire. The tracker, the queue, the forge, the resolver and the
    clock are the port [Ports]: state-passing calls over a world the model never looks
    into, so that anything may have moved between two of them. A dispatcher is its three
    memories; the writes it made are kept in order. [record_run_outcome] runs between two
    passes: the model does not suspend a pass for it. *)

From S2P Require Import BaseResolution Topology IssueTree ScopeWalker.
From S2P Require Import Prelude PyStr PyLines Tracker Errors Dispatch Outcome JobQueue Operation RunRecords FireContext.

Local Open Scope nat_scope.

(** ** Reports (types/domain/dispatch.py) *)

Inductive DispatchOutcome :=
  fire_enqueued | claim_lost | empty_eligible_set | base_unresolved | winner_blocked.
#[export] Instance DispatchOutcome_eq_dec : EqDecision DispatchOutcome.
Proof. solve_decision. Defined.

Inductive ExclusionClause :=
| OUTSIDE_TEAM | BASE_UNRESOLVED | RUN_FAILED | LANE_BACKOFF | OUT_OF_SCOPE
| NO_RECORDED_REPOSITORY | RECORDED_ELSEWHERE | NOT_APPROVED | NOT_OPEN | LIVE_BLOCKER
| CLAIMED_OR_IN_FLIGHT | OPEN_DELIVERY.
#[export] Instance ExclusionClause_eq_dec : EqDecision ExclusionClause.
Proof. solve_decision. Defined.

Record IssueSnapshot := {
  row_key : string;
  row_priority : IssuePriority;
  row_state_name : string;
  row_created_at : Z;
}.

Record IssueExclusion := { excluded_key : string; clause : ExclusionClause; detail : string }.

Record DispatchReport := {
  outcome : DispatchOutcome;
  snapshot : list IssueSnapshot;
  exclusions : list IssueExclusion;
  eligible : list string;
  tied_candidates : list string;
  claimed_issue_key : option string;
  claimed_state_name : option string;
  claimed_visibility : RepoVisibility;
  enqueued_job : option string;
  report_base : option BaseSpec;
  superseded_base : option BaseSpec;
  criterion_keys : list string;
}.

(** types/domain/tracker.py *)
Record IssueQuery := {
  query_queue_state : option QueueState;
  query_team_key : option string;
  query_updated_since : option Z;
  query_page_size : nat;
}.

(** ** What a dispatcher remembers *)

Record _RememberedExclusion := {
  remembered_at : Z;
  remembered_clause : ExclusionClause;
  remembered_detail : string;
}.

Record _LaneBackoff := { until : Z; failure_class : string }.

Record Dispatcher := {
  jobs_by_issue : pydict string string;
  remembered : pydict string _RememberedExclusion;
  initiatives_by_project : pydict string (gset string);
}.
Definition fresh_dispatcher : Dispatcher :=
  {| jobs_by_issue := []; remembered := []; initiatives_by_project := [] |}.

(** ** The ports *)

Record Ports (W : Type) := {
  (* the clock, and the operation's one cooldown, which every dispatcher reads and sets *)
  now : W → Z;
  backoff : W → option _LaneBackoff;
  set_backoff : option _LaneBackoff → W → W;
  (* FireDispatchTracker *)
  scan_issues : IssueQuery → W → W * result exn (list TrackerIssue);
  read_issue : string → W → W * result exn TrackerIssue;
  recorded_repository : string → W → W * result exn (option string);
  initiative_identifiers : string → W → W * result exn (gset string);
  active_claim : string → W → W * result exn (option ClaimResult);
  claim_issue : string → string → Z → W → W * result exn ClaimResult;
  release_claim : string → string → W → W * result exn unit;
  read_base_spec : string → W → W * result exn (option BaseSpec);
  record_base_spec : string → BaseSpec → W → W * result exn unit;
  (* JobRegistry, JobQueue *)
  get_job : string → W → W * result exn (option JobRecord);
  submit_job : string → WorkflowSubmission → W → W * result exn JobRecord;
  (* DeliveryProbe, RepoCache, BaseResolver, FireContextAssembler *)
  open_delivery_exists : string → string → W → W * result exn bool;
  ensure_available : string → W → W * result exn string;
  generate_workspace_id : W → W * result exn string;
  resolve_base_of : string → string → string → string → Z → W → W * result exn BaseSpec;
  assemble_context : string → string → W → W * result exn FireContext;
}.
Arguments now {W}. Arguments backoff {W}. Arguments set_backoff {W}.
Arguments scan_issues {W}. Arguments read_issue {W}. Arguments recorded_repository {W}.
Arguments initiative_identifiers {W}. Arguments active_claim {W}. Arguments claim_issue {W}.
Arguments release_claim {W}. Arguments read_base_spec {W}. Arguments record_base_spec {W}.
Arguments get_job {W}. Arguments submit_job {W}. Arguments open_delivery_exists {W}.
Arguments ensure_available {W}. Arguments generate_workspace_id {W}.
Arguments resolve_base_of {W}. Arguments assemble_context {W}.

(** The settings a dispatcher is built with. *)
Record FireDispatcher := {
  operation : OperationConfig;
  repo_url : string;
  dispatch_lane : string;
  holder : string;
  claim_lease_seconds : Z;
  page_size : nat;
  cooldown_seconds : Z;
  dispatch_trunk : string;
  integration_workspace_dir : string;
}.

(** The writes of a pass. *)
Inductive write :=
| Claims (issue : string)
| Releases (issue : string)
| RecordsBase (issue : string) (spec : BaseSpec)
| Submits (request : WorkflowSubmission).

(** ** Coroutines: the memories and the writes so far are kept when one raises *)

Section dispatcher.
Context {W : Type} (port : Ports W) (draw : list string → string) (self : FireDispatcher).

Record state := { memory : Dispatcher; world : W; writes : list write }.

Definition co (A : Type) : Type := state → state * result exn A.
#[export] Instance co_mret : MRet co := λ A a s, (s, Ok a).
#[export] Instance co_mbind : MBind co := λ A B f m s,
  match m s with (s, Ok a) => f a s | (s, Err e) => (s, Err e) end.

Definition awaits {A} (op : W → W * result exn A) : co A := λ s,
  let '(w, r) := op (world s) in
  ({| memory := memory s; world := w; writes := writes s |}, r).

(** A call that writes: the write may have been performed though it raised. *)
Definition performs {A} (e : write) (op : W → W * result exn A) : co A := λ s,
  let '(w, r) := op (world s) in
  ({| memory := memory s; world := w; writes := writes s ++ [e] |}, r).

Definition raises {A} (r : result exn A) : co A := λ s, (s, r).
Definition recalls {A} (f : Dispatcher → A) : co A := λ s, (s, Ok (f (memory s))).
Definition observes {A} (f : W → A) : co A := λ s, (s, Ok (f (world s))).
Definition remembers (f : Dispatcher → Dispatcher) : co unit := λ s,
  ({| memory := f (memory s); world := world s; writes := writes s |}, Ok tt).
Definition changes (f : W → W) : co unit := λ s,
  ({| memory := memory s; world := f (world s); writes := writes s |}, Ok tt).

Definition set_remembered (issue : string) (r : _RememberedExclusion) (d : Dispatcher) : Dispatcher :=
  {| jobs_by_issue := jobs_by_issue d; remembered := dict_set (remembered d) issue r;
     initiatives_by_project := initiatives_by_project d |}.
Definition forget (issue : string) (d : Dispatcher) : Dispatcher :=
  {| jobs_by_issue := jobs_by_issue d; remembered := dict_pop (remembered d) issue;
     initiatives_by_project := initiatives_by_project d |}.
Definition set_job (issue job : string) (d : Dispatcher) : Dispatcher :=
  {| jobs_by_issue := dict_set (jobs_by_issue d) issue job; remembered := remembered d;
     initiatives_by_project := initiatives_by_project d |}.
Definition set_initiatives (project : string) (ids : gset string) (d : Dispatcher) : Dispatcher :=
  {| jobs_by_issue := jobs_by_issue d; remembered := remembered d;
     initiatives_by_project := dict_set (initiatives_by_project d) project ids |}.

(** [a or await b] over exclusions. *)
Definition or_else (m m' : co (option IssueExclusion)) : co (option IssueExclusion) :=
  found ← m; match found with Some e => mret (Some e) | None => m' end.

(** [try: x = m() except ... else: f(x)], where [h] says what is caught. *)
Definition try_else {A B} (m : co A) (h : exn → option (co B)) (f : A → co B) : co B := λ s,
  match m s with
  | (s, Ok a) => f a s
  | (s, Err e) => match h e with Some k => k s | None => (s, Err e) end
  end.

(** ** The shared cooldown *)

Definition begin_cooldown (failure : string) : co unit :=
  changes (λ w, set_backoff port (Some {| until := (now port w + cooldown_seconds self)%Z;
                                          failure_class := failure |}) w).

Definition holding : co (option string) :=
  held ← observes (backoff port);
  match held with
  | None => mret None
  | Some b =>
      t ← observes (now port);
      if decide (t < until b)%Z then mret (Some (failure_class b))
      else _ ← changes (set_backoff port None); mret None
  end.

(** ** The clauses *)

Definition exclude_as (issue : TrackerIssue) (c : ExclusionClause) (text : string) : option IssueExclusion :=
  Some {| excluded_key := issue_key issue; clause := c; detail := text |}.

Definition _team_exclusion (issue : TrackerIssue) (team_keys : list string) : co (option IssueExclusion) :=
  mret (if clause_in_team issue (list_to_set team_keys) then None
        else exclude_as issue OUTSIDE_TEAM (default "" (team_key issue))).

Definition _still_stands (r : _RememberedExclusion) : co bool :=
  if decide (remembered_clause r = LIVE_BLOCKER) then
    blocker ← awaits (read_issue port (remembered_detail r));
    mret (clause_open blocker)
  else mret true.

Definition _memory_exclusion (issue : TrackerIssue) : co (option IssueExclusion) :=
  r ← recalls (λ d, dict_get (remembered d) (issue_key issue));
  match r with
  | None => mret None
  | Some r =>
      stands ← (if decide (updated_at issue ≤ remembered_at r)%Z then _still_stands r else mret false);
      if (stands : bool) then mret (exclude_as issue (remembered_clause r) (remembered_detail r))
      else _ ← remembers (forget (issue_key issue)); mret None
  end.

Definition _backoff_exclusion (issue : TrackerIssue) : co (option IssueExclusion) :=
  held ← holding;
  mret (match held with None => None | Some failure => exclude_as issue LANE_BACKOFF failure end).

Definition _initiatives_for (project : string) : co (gset string) :=
  cached ← recalls (λ d, dict_get (initiatives_by_project d) project);
  match cached with
  | Some ids => mret ids
  | None => ids ← awaits (initiative_identifiers port project);
            _ ← remembers (set_initiatives project ids); mret ids
  end.

Definition _exclude_by_scope (issue : TrackerIssue) : co (option IssueExclusion) :=
  let entry := match team_key issue with
               | None => None
               | Some key => dict_get (teams (operation self)) key
               end in
  let scope := match entry with None => [] | Some e => team_scope e end in
  if decide (scope = []) then mret None
  else
    let identifiers := option_list (Tracker.project issue) ++ option_list (project_id issue) in
    identifiers ← match project_id issue with
                  | Some p => if clause_in_scope scope identifiers then mret identifiers
                              else more ← _initiatives_for p; mret (identifiers ++ elements more)
                  | None => mret identifiers
                  end;
    mret (if clause_in_scope scope identifiers then None
          else exclude_as issue OUT_OF_SCOPE
                 (default "the issue belongs to no project" (Tracker.project issue))).

Definition _route_exclusion (issue : TrackerIssue) : co (option IssueExclusion) :=
  let bound := match team_key issue with
               | Some key => bool_decide (key ∈ teams_bound_to (operation self) (repo_url self))
               | None => false
               end in
  if bound then mret None
  else
    recorded ← awaits (recorded_repository port (issue_key issue));
    mret (if clause_recorded_repository false recorded (repo_url self) then None
          else match recorded with
               | None => exclude_as issue NO_RECORDED_REPOSITORY ""
               | Some url => exclude_as issue RECORDED_ELSEWHERE url
               end).

Definition _approval_exclusion (issue : TrackerIssue) : co (option IssueExclusion) :=
  mret (if clause_approved issue then None else exclude_as issue NOT_APPROVED "").

Definition _open_exclusion (issue : TrackerIssue) : co (option IssueExclusion) :=
  mret (if clause_open issue then None else exclude_as issue NOT_OPEN (state_name issue)).

(** The dict comprehension over the blockers' readings. *)
Fixpoint read_blockers (keys : list string) (found : pydict string TrackerIssue) :
    co (pydict string TrackerIssue) :=
  match keys with
  | [] => mret found
  | key :: keys => b ← awaits (read_issue port key); read_blockers keys (dict_set found key b)
  end.

Definition _live_blocker_of (issue : TrackerIssue) : co (option string) :=
  blockers ← read_blockers (blocker_keys issue) [];
  mret (live_blocker issue blockers).

Definition _blocker_exclusion (issue : TrackerIssue) : co (option IssueExclusion) :=
  blocking ← _live_blocker_of issue;
  mret (match blocking with None => None | Some key => exclude_as issue LIVE_BLOCKER key end).

Definition _run_is_live (issue : string) : co bool :=
  job ← recalls (λ d, dict_get (jobs_by_issue d) issue);
  match job with
  | None => mret false
  | Some id =>
      record ← awaits (get_job port id);
      mret (match record with Some r => negb (bool_decide (job_state r = TERMINAL)) | None => false end)
  end.

Definition _in_flight_exclusion (issue : TrackerIssue) : co (option IssueExclusion) :=
  claim ← awaits (active_claim port (issue_key issue));
  run_is_live ← _run_is_live (issue_key issue);
  mret (if clause_unclaimed claim run_is_live then None
        else exclude_as issue CLAIMED_OR_IN_FLIGHT
               (match claim with None => "" | Some c => claim_holder c end)).

Definition _delivery_exclusion (issue : TrackerIssue) : co (option IssueExclusion) :=
  delivered ← awaits (open_delivery_exists port (repo_url self) (issue_key issue));
  mret (if clause_undelivered delivered then None else exclude_as issue OPEN_DELIVERY "").

Definition _exclude (issue : TrackerIssue) (team_keys : list string) : co (option IssueExclusion) :=
  foldr or_else (mret None)
    [_team_exclusion issue team_keys; _memory_exclusion issue; _backoff_exclusion issue;
     _exclude_by_scope issue; _route_exclusion issue; _approval_exclusion issue;
     _open_exclusion issue; _blocker_exclusion issue; _in_flight_exclusion issue;
     _delivery_exclusion issue].

Definition standing_exclusion (issue : TrackerIssue) : co (option IssueExclusion) :=
  team_keys ← raises (team_keys_for_repo (operation self) (repo_url self));
  foldr or_else (mret None)
    [_team_exclusion issue team_keys; _route_exclusion issue; _memory_exclusion issue;
     _backoff_exclusion issue; _in_flight_exclusion issue; _delivery_exclusion issue].

(** ** The launch *)

(** What a selection hands the launch: its rows, exclusions and keys. *)
Record Selected := {
  selected_rows : list IssueSnapshot;
  selected_exclusions : list IssueExclusion;
  selected_eligible : list string;
  selected_tied : list string;
  selected_criteria : list string;
}.

Definition report_of (s : Selected) (o : DispatchOutcome) (claimed : option string) : DispatchReport := {|
  outcome := o; snapshot := selected_rows s; exclusions := selected_exclusions s;
  eligible := selected_eligible s; tied_candidates := selected_tied s;
  claimed_issue_key := claimed; claimed_state_name := None; claimed_visibility := PUBLIC;
  enqueued_job := None; report_base := None; superseded_base := None;
  criterion_keys := selected_criteria s |}.

(** [self._resolver.resolve], its arguments evaluated first. *)
Definition resolve_winner (winner : TrackerIssue) : co BaseSpec :=
  path ← awaits (ensure_available port (repo_url self));
  workspace ← awaits (generate_workspace_id port);
  t ← observes (now port);
  awaits (resolve_base_of port (issue_key winner) path
            (integration_workspace_dir self +:+ "/" +:+ workspace) (dispatch_trunk self) t).

Definition fire_submission (winner : TrackerIssue) (context : FireContext) (spec : BaseSpec) :
    WorkflowSubmission := {|
  prompt := render context; submission_issue_key := Some (issue_key winner);
  submission_repo_path := None; submission_repo_url := Some (repo_url self);
  base_spec := spec; implied_base := Some spec; submission_scope := None;
  permission_mode := UNATTENDED; allowed_tools := inl IMPLEMENTATION |}.

(** The fire of a winner whose claim is held and whose base is resolved. *)
Definition enqueue (winner : TrackerIssue) (sel : Selected) (spec : BaseSpec) : co DispatchReport :=
  context ← awaits (assemble_context port (issue_key winner) (body winner));
  recorded ← awaits (read_base_spec port (issue_key winner));
  let superseded := match recorded with
                    | Some r => if is_base_stale r spec then Some r else None
                    | None => None
                    end in
  _ ← performs (RecordsBase (issue_key winner) spec) (record_base_spec port (issue_key winner) spec);
  let request := fire_submission winner context spec in
  record ← performs (Submits request) (submit_job port (dispatch_lane self) request);
  _ ← remembers (set_job (issue_key winner) (job_id record));
  mret {| outcome := fire_enqueued; snapshot := selected_rows sel; exclusions := selected_exclusions sel;
          eligible := selected_eligible sel; tied_candidates := selected_tied sel;
          claimed_issue_key := Some (issue_key winner); claimed_state_name := Some (state_name winner);
          claimed_visibility := board_visibility (operation self) (team_key winner);
          enqueued_job := Some (job_id record); report_base := Some spec;
          superseded_base := superseded; criterion_keys := selected_criteria sel |}.

Definition base_refused (winner : TrackerIssue) (sel : Selected) (reason : string) : co DispatchReport :=
  let key := issue_key winner in
  _ ← performs (Releases key) (release_claim port key (holder self));
  refreshed ← awaits (read_issue port key);
  _ ← remembers (set_remembered key {| remembered_at := updated_at refreshed;
                                       remembered_clause := BASE_UNRESOLVED; remembered_detail := reason |});
  mret (report_of sel base_unresolved (Some key)).

(** [try: ... except BaseResolutionError as exc]: the other exceptions go on. *)
Definition launch (winner : TrackerIssue) (sel : Selected) : co DispatchReport :=
  claim ← performs (Claims (issue_key winner))
            (claim_issue port (issue_key winner) (holder self) (claim_lease_seconds self));
  match claim_status claim with
  | GRANTED => try_else (resolve_winner winner)
                 (λ e, base_refused winner sel <$> base_refusal_text e) (enqueue winner sel)
  | _ => mret (report_of sel claim_lost None)
  end.

(** ** The pass *)

Fixpoint _scan (team_keys : list string) : co (list TrackerIssue) :=
  match team_keys with
  | [] => mret []
  | key :: keys =>
      found ← awaits (scan_issues port {| query_queue_state := Some Q_APPROVED; query_team_key := Some key;
                                          query_updated_since := None; query_page_size := page_size self |});
      rest ← _scan keys;
      mret (found ++ rest)
  end.

Fixpoint partition_issues (team_keys : list string) (issues : list TrackerIssue) :
    co (list TrackerIssue * list IssueExclusion) :=
  match issues with
  | [] => mret ([], [])
  | issue :: issues =>
      exclusion ← _exclude issue team_keys;
      rest ← partition_issues team_keys issues;
      mret (match exclusion with
            | None => (issue :: rest.1, rest.2)
            | Some e => (rest.1, e :: rest.2)
            end)
  end.

Definition snapshot_row (issue : TrackerIssue) : IssueSnapshot := {|
  row_key := issue_key issue; row_priority := priority issue;
  row_state_name := state_name issue; row_created_at := created_at issue |}.

Definition _claim_and_enqueue (selection : Selection) (sel : Selected) : co DispatchReport :=
  winner ← awaits (read_issue port (winner_key selection));
  blocking ← _live_blocker_of winner;
  match blocking with
  | Some blocker =>
      _ ← remembers (set_remembered (issue_key winner)
            {| remembered_at := updated_at winner; remembered_clause := LIVE_BLOCKER;
               remembered_detail := blocker |});
      mret (report_of {| selected_rows := selected_rows sel;
                         selected_exclusions := selected_exclusions sel ++
                           [{| excluded_key := issue_key winner; clause := LIVE_BLOCKER; detail := blocker |}];
                         selected_eligible := selected_eligible sel; selected_tied := selected_tied sel;
                         selected_criteria := [] |} winner_blocked None)
  | None => launch winner sel
  end.

Definition run_pass : co DispatchReport :=
  team_keys ← raises (team_keys_for_repo (operation self) (repo_url self));
  issues ← _scan team_keys;
  split ← partition_issues team_keys issues;
  let rows := snapshot_row <$> issues in
  match select_top_ranked split.1 draw with
  | None => mret (report_of {| selected_rows := rows; selected_exclusions := split.2; selected_eligible := [];
                               selected_tied := []; selected_criteria := [] |} empty_eligible_set None)
  | Some selection =>
      _claim_and_enqueue selection
        {| selected_rows := rows; selected_exclusions := split.2; selected_eligible := issue_key <$> split.1;
           selected_tied := tied selection; selected_criteria := [] |}
  end.

(** [failure] is the class name the run died of. *)
Definition record_run_outcome (issue : string) (o : RunOutcome) (failure : option string) : co unit :=
  if decide (o = COMPLETED_RUN) then mret tt
  else
    _ ← (if decide (failure = Some "RateLimitedSoftFailureError")
         then begin_cooldown "RateLimitedSoftFailureError" else mret tt);
    fired ← recalls (λ d, dict_mem (jobs_by_issue d) issue);
    if negb fired then mret tt
    else
      refreshed ← awaits (read_issue port issue);
      remembers (set_remembered issue
        {| remembered_at := updated_at refreshed; remembered_clause := RUN_FAILED;
           remembered_detail := default (run_outcome_value o) failure |}).

(** ** The scope's pass (services/scope_dispatcher.py), over a ready set *)

Record ReadySet := {
  ready_lanes : list (TrackerIssue * list string);
  blocked_lanes : list (TrackerIssue * list string);
  unreachable : list (string * string);
}.

Definition unreachable_value (r : UnreachableReason) : string :=
  match r with
  | OTHER_PROJECT => "other_project" | NO_PROJECT => "no_project"
  | OTHER_MILESTONE => "other_milestone" | NO_MILESTONE => "no_milestone"
  end.

(** What the pass offers of a scope's ready set: [members[blocked.issue_key]] may raise. *)
Definition offered (ready : ScopeReadySet) : result exn ReadySet :=
  let members := dict_of (keyed_rows (ScopeWalker.issues (scope_of ready))) in
  blocked ← mapM (λ b, match dict_get members (blocked_issue_key b) with
                       | Some issue => Ok (issue, blocked_blocker_keys b)
                       | None => Err (KeyError (blocked_issue_key b))
                       end) (blocked_of_scope ready);
  mret {| ready_lanes := (λ lane, (ScopeWalker.lane_issue lane, issue_key <$> ScopeWalker.lane_gap lane)) <$> ready_lanes_of ready;
          blocked_lanes := blocked;
          unreachable := (λ u, (unreachable_key u, match container u with
                                                   | Some c => if decide (c = "") then unreachable_value (reason u) else c
                                                   | None => unreachable_value (reason u)
                                                   end)) <$> unreachable_criteria ready |}.

Fixpoint launch_first (ready : ReadySet) (rows : list IssueSnapshot) (eligible_keys : list string)
    (exclusions : list IssueExclusion) (lanes : list (TrackerIssue * list string)) : co DispatchReport :=
  match lanes with
  | [] => mret (report_of {| selected_rows := rows; selected_exclusions := exclusions;
                             selected_eligible := eligible_keys; selected_tied := []; selected_criteria := [] |}
                  empty_eligible_set None)
  | (issue, gap) :: lanes =>
      exclusion ← standing_exclusion issue;
      match exclusion with
      | Some e => launch_first ready rows eligible_keys (exclusions ++ [e]) lanes
      | None => launch issue {| selected_rows := rows; selected_exclusions := exclusions;
                                selected_eligible := eligible_keys; selected_tied := [];
                                selected_criteria := gap |}
      end
  end.

Definition run_scope_pass (ready : ReadySet) : co DispatchReport :=
  let rows := snapshot_row <$> ((ready_lanes ready).*1 ++ (blocked_lanes ready).*1) in
  let held_back :=
    ((λ n, {| excluded_key := n.1; clause := OUT_OF_SCOPE; detail := n.2 |}) <$> unreachable ready)
    ++ ((λ b, {| excluded_key := issue_key b.1; clause := LIVE_BLOCKER; detail := join "," b.2 |})
          <$> blocked_lanes ready) in
  launch_first ready rows (issue_key ∘ fst <$> ready_lanes ready) held_back (ready_lanes ready).
End dispatcher.
