(* ===== verification/PassGate.v ===== *)
(** * The gate of a dispatch tick (services/pass_gate.py, services/dispatch_pass.py).

    A tick asks its gate what moved since each window's mark and runs the dispatcher only
    when something did. The marks and the snapshots a gate holds are one record; the
    tracker, the shared ledger and the dispatcher answer from a world that others change
    between any two calls. A coroutine keeps what it did when it raises, and the trace
    holds what was read of each window once that window was committed. *)

From S2P Require Import BaseResolution Topology IssueTree ScopeWalker.
From S2P Require Import Prelude PyStr PyLines GitUrl Tracker Errors Dispatch Outcome JobQueue Operation RunRecords FireContext.
From S2P Require Import FireDispatcher SelfWrites.

Local Open Scope nat_scope.

(** types/domain/dispatch.py *)
Inductive PassSignal := approved_changed | issues_changed | triage_backlog | reviews_changed.
#[export] Instance PassSignal_eq_dec : EqDecision PassSignal.
Proof. solve_decision. Defined.
Definition signal_value (s : PassSignal) : string :=
  match s with
  | approved_changed => "approved_changed" | issues_changed => "issues_changed"
  | triage_backlog => "triage_backlog" | reviews_changed => "reviews_changed"
  end.

Record PassDelta := { changed : list string; delta_mark : option Z }.
Definition has_delta (d : PassDelta) : bool := negb (bool_decide (changed d = [])).

Inductive PassRun := RAN | SKIPPED.
#[export] Instance PassRun_eq_dec : EqDecision PassRun.
Proof. solve_decision. Defined.

(** types/domain/tracker.py *)
Record TrackerReview := { review_key : string; review_updated_at : Z }.
Record ReviewQuery := {
  review_repo_url : option string;
  review_updated_since : option Z;
  review_page_size : nat;
}.

(** What a gate is built with. *)
Record PassGate := {
  _signals : list PassSignal;
  _team_keys : list string;
  _repo_urls : list string;
  _page_size : nat;
}.

Notation window := (PassSignal * string)%type.
Notation observation := (IssueMovementSnapshot * nat)%type.

(** What it keeps from tick to tick. *)
Record GateMemory := {
  _marks : pydict window (option Z);
  _advanced : pydict window (option Z);
  _observations : pydict (window * string) observation;
  _previous_observations : pydict (window * string) observation;
}.

(** Why a listed issue did or did not count as movement. *)
Inductive judgement :=
| Moved
| OwnStamp (ledger : SelfWriteLedger)
| OwnReplay (ledger : SelfWriteLedger) (before : observation) (after : IssueMovementSnapshot)
    (ms : list OwnMutation).

Inductive gate_event :=
| IssueRead (w : window) (issue : TrackerIssue) (j : judgement)
| ReviewRead (w : window) (review : TrackerReview)
| Standing (w : window) (issue : TrackerIssue)
| Dispatches (reported : list string)
| Follows (issue job state : string).

(** The ports: [PassGateReader], the ledger this process shares, and the dispatcher. *)
Record GatePorts (W : Type) := {
  gate_issues : IssueQuery → W → W * result exn (list TrackerIssue);
  gate_reviews : ReviewQuery → W → W * result exn (list TrackerReview);
  read_issue_movement : string → W → W * result exn IssueMovementSnapshot;
  gate_ledger : W → SelfWriteLedger;
  run_dispatch : W → W * result exn DispatchReport;
  follow_fire : string → string → string → RepoVisibility → W → W;
}.
Arguments gate_issues {W}. Arguments gate_reviews {W}. Arguments read_issue_movement {W}.
Arguments gate_ledger {W}. Arguments run_dispatch {W}. Arguments follow_fire {W}.

Section gate.
Context {W J : Type} `{JsonValues J} (port : GatePorts W) (self : PassGate).

Record gate_state := { held_memory : GateMemory; outside : W; trace : list gate_event }.

Definition gco (A : Type) : Type := gate_state → gate_state * result exn A.
#[export] Instance gco_mret : MRet gco := λ A a s, (s, Ok a).
#[export] Instance gco_mbind : MBind gco := λ A B f m s,
  match m s with (s, Ok a) => f a s | (s, Err e) => (s, Err e) end.

Definition g_awaits {A} (op : W → W * result exn A) : gco A := λ s,
  let '(w, r) := op (outside s) in
  ({| held_memory := held_memory s; outside := w; trace := trace s |}, r).
Definition g_raises {A} (r : result exn A) : gco A := λ s, (s, r).
Definition g_recalls {A} (f : GateMemory → A) : gco A := λ s, (s, Ok (f (held_memory s))).
Definition g_observes {A} (f : W → A) : gco A := λ s, (s, Ok (f (outside s))).
Definition g_updates (f : GateMemory → GateMemory) : gco unit := λ s,
  ({| held_memory := f (held_memory s); outside := outside s; trace := trace s |}, Ok tt).
Definition g_changes (f : W → W) : gco unit := λ s,
  ({| held_memory := held_memory s; outside := f (outside s); trace := trace s |}, Ok tt).
Definition g_notes (es : list gate_event) : gco unit := λ s,
  ({| held_memory := held_memory s; outside := outside s; trace := trace s ++ es |}, Ok tt).

(** [for x in l: acc = body(acc, x)] *)
Fixpoint g_for {A B} (body : B → A → gco B) (acc : B) (l : list A) : gco B :=
  match l with
  | [] => mret acc
  | x :: l => acc ← body acc x; g_for body acc l
  end.

(** ** Containers *)

Definition _containers (signal : PassSignal) : result exn (list string) :=
  match signal with
  | reviews_changed =>
      match first_such is_forge_less_origin (_repo_urls self) with
      | Some url => Err (PassGateScopeError (signal_value signal) url)
      | None =>
          raise_if (bool_decide (_repo_urls self = []))
            (OperationMemberAbsentError "repository this gate's review signal can be scoped to")
            (Ok (_repo_urls self))
      end
  | triage_backlog | approved_changed | issues_changed =>
      raise_if (bool_decide (_team_keys self = []))
        (OperationMemberAbsentError "team this gate's issue signals can be scoped to")
        (Ok (_team_keys self))
  end.

(** [PassGate.__init__]: one unset mark per signal and container. *)
Definition new_gate : result exn GateMemory :=
  marks ← foldM (λ marks signal,
                   cs ← _containers signal;
                   Ok (foldl (λ marks c, dict_set marks (signal, c) None) marks cs)) [] (_signals self);
  Ok {| _marks := marks; _advanced := []; _observations := []; _previous_observations := [] |}.

Definition mark_of (m : GateMemory) (w : window) : option Z := default None (dict_get (_marks m) w).

(** ** The questions *)

Definition _backlog (team : string) : gco (list string) :=
  issues ← g_awaits (gate_issues port {| query_queue_state := Some Q_TRIAGE; query_team_key := Some team;
                                         query_updated_since := None; query_page_size := _page_size self |});
  _ ← g_notes (Standing (triage_backlog, team) <$> issues);
  mret (issue_key <$> issues).

(** [max] of the stamps listed. *)
Definition newest (first : Z) (rest : list Z) : Z := foldl Z.max first rest.

(** The window is committed: its mark moves, and what it held is kept for a rearm. *)
Definition advance (w : window) (stamp : Z) (m : GateMemory) : GateMemory := {|
  _marks := dict_set (_marks m) w (Some stamp);
  _advanced := dict_set (_advanced m) w (mark_of m w);
  _observations := _observations m; _previous_observations := _previous_observations m |}.
Definition commit_observations (observed : pydict (window * string) observation) (m : GateMemory) :
    GateMemory := {|
  _marks := _marks m; _advanced := _advanced m;
  _observations := foldl (λ d kv, dict_set d kv.1 kv.2) (_observations m) observed;
  _previous_observations := _previous_observations m |}.

Record sweep := {
  moved_keys : list string;
  swept : pydict (window * string) observation;
  sightings : list gate_event;
}.

(** Whose movement a stable snapshot shows: ours by the stamp of our own last write, or by
    a complete replay of the receipts since the retained observation. *)
Definition whose (before ledger : SelfWriteLedger) (previous : option observation)
    (mutations : option (list OwnMutation)) (issue : TrackerIssue) (snapshot : IssueMovementSnapshot) :
    result exn judgement :=
  if wrote ledger (issue_key issue) (updated_at issue) then Ok (OwnStamp ledger)
  else match previous, mutations with
       | Some p, Some ms =>
           own ← matches_own_mutations p.1 snapshot ms;
           Ok (if (own : bool) then OwnReplay before p snapshot ms else Moved)
       | _, _ => Ok Moved
       end.

(** One listed issue of the loop of [_issue_delta]. *)
Definition judge (w : window) (acc : sweep) (issue : TrackerIssue) : gco sweep :=
  previous ← g_recalls (λ m, dict_get (_observations m) (w, issue_key issue));
  before ← g_observes (gate_ledger port);
  let after := match previous with None => 0 | Some p => p.2 end in
  let '(cursor, mutations) := receipts before (issue_key issue) after in
  snapshot ← g_awaits (read_issue_movement port (issue_key issue));
  ledger ← g_observes (gate_ledger port);
  if bool_decide (moved_issue_key snapshot = issue_key issue ∧ moved_updated_at snapshot = updated_at issue
                  ∧ cursor = (receipts ledger (issue_key issue) 0).1)
  then
    verdict ← g_raises (whose before ledger previous mutations issue snapshot);
    mret {| moved_keys := match verdict with
                          | Moved => moved_keys acc ++ [issue_key issue]
                          | _ => moved_keys acc
                          end;
            swept := dict_set (swept acc) (w, issue_key issue) (snapshot, cursor);
            sightings := sightings acc ++ [IssueRead w issue verdict] |}
  else g_raises (Err (TrackerProtocolError "issue movement changed during the gate observation")).

Definition _issue_delta (signal : PassSignal) (team : string) (queue : option QueueState) :
    gco (list string) :=
  since ← g_recalls (λ m, mark_of m (signal, team));
  issues ← g_awaits (gate_issues port {| query_queue_state := queue; query_team_key := Some team;
                                         query_updated_since := since; query_page_size := _page_size self |});
  match issues with
  | [] => mret []
  | first :: rest =>
      all ← g_for (judge (signal, team)) {| moved_keys := []; swept := []; sightings := [] |} issues;
      _ ← g_updates (commit_observations (swept all));
      _ ← g_updates (advance (signal, team) (newest (updated_at first) (updated_at <$> rest)));
      _ ← g_notes (sightings all);
      mret (moved_keys all)
  end.

Definition _review_delta (signal : PassSignal) (url : string) : gco (list string) :=
  since ← g_recalls (λ m, mark_of m (signal, url));
  reviews ← g_awaits (gate_reviews port {| review_repo_url := Some url; review_updated_since := since;
                                           review_page_size := _page_size self |});
  match reviews with
  | [] => mret []
  | first :: rest =>
      _ ← g_updates (advance (signal, url) (newest (review_updated_at first) (review_updated_at <$> rest)));
      _ ← g_notes (ReviewRead (signal, url) <$> reviews);
      mret (review_key <$> reviews)
  end.

Definition _observe (signal : PassSignal) (container : string) : gco (list string) :=
  match signal with
  | triage_backlog => _backlog container
  | reviews_changed => _review_delta signal container
  | approved_changed => _issue_delta signal container (Some Q_APPROVED)
  | issues_changed => _issue_delta signal container None
  end.

(** [except (TrackerUnavailableError, TrackerProtocolError)]: named and skipped. *)
Definition unanswerable (e : exn) : bool :=
  match e with TrackerUnavailableError | TrackerProtocolError _ => true | _ => false end.

Definition ask (signal : PassSignal) (changed : list string) (container : string) : gco (list string) := λ s,
  match _observe signal container s with
  | (s, Ok more) => (s, Ok (changed ++ more))
  | (s, Err e) => if unanswerable e then (s, Ok changed) else (s, Err e)
  end.

Definition ask_signal (changed : list string) (signal : PassSignal) : gco (list string) :=
  cs ← g_raises (_containers signal);
  g_for (ask signal) changed cs.

Definition open_delta (m : GateMemory) : GateMemory := {|
  _marks := _marks m; _advanced := []; _observations := _observations m;
  _previous_observations := _observations m |}.

Definition newest_mark (m : GateMemory) : option Z :=
  match omap id (dict_values (_marks m)) with [] => None | t :: ts => Some (newest t ts) end.

Definition delta : gco PassDelta :=
  _ ← g_updates open_delta;
  changed ← g_for ask_signal [] (_signals self);
  stamp ← g_recalls newest_mark;
  mret {| changed := changed; delta_mark := stamp |}.

Definition rearm (m : GateMemory) : GateMemory := {|
  _marks := foldl (λ d kv, dict_set d kv.1 kv.2) (_marks m) (_advanced m);
  _advanced := [];
  _observations := match _advanced m with [] => _observations m | _ => _previous_observations m end;
  _previous_observations := _previous_observations m |}.
End gate.

(** ** The tick (services/dispatch_pass.py) *)

Section tick.
Context {W J : Type} `{JsonValues J} (port : GatePorts W).

Definition _dispatch (reported : list string) : gco (W := W) unit :=
  _ ← g_notes [Dispatches reported];
  report ← g_awaits (run_dispatch port);
  if bool_decide (outcome report ≠ fire_enqueued) then mret tt
  else
    match claimed_issue_key report, enqueued_job report, claimed_state_name report with
    | Some issue, Some job, Some state =>
        _ ← g_changes (follow_fire port issue job state (claimed_visibility report));
        g_notes [Follows issue job state]
    | _, _, _ => g_raises (Err (RuntimeError "fire_enqueued report is missing what the enqueue produced"))
    end.

(** The body of the [try]; without a gate every tick dispatches. *)
Definition gated (gate : option PassGate) : gco (W := W) PassRun :=
  match gate with
  | Some self =>
      d ← delta port self;
      if has_delta d then _ ← _dispatch (changed d); mret RAN else mret SKIPPED
  | None => _ ← _dispatch []; mret RAN
  end.

(** [except BaseException: rearm; raise] *)
Definition run (gate : option PassGate) : gco (W := W) PassRun := λ s,
  match gated gate s with
  | (s, Err e) =>
      (match gate with
       | Some _ => {| held_memory := rearm (held_memory s); outside := outside s; trace := trace s |}
       | None => s
       end, Err e)
  | done => done
  end.
End tick.

(** ** What a tick read *)

(** What an event tells the pass of. *)
Definition tells (e : gate_event) : list string :=
  match e with
  | IssueRead _ issue Moved => [issue_key issue]
  | ReviewRead _ review => [review_key review]
  | Standing _ issue => [issue_key issue]
  | _ => []
  end.
Definition told (es : list gate_event) : list string := es ≫= tells.

(** The stamps read in one window. *)
Definition stamp_in (w : window) (e : gate_event) : list Z :=
  match e with
  | IssueRead w' issue _ => if decide (w' = w) then [updated_at issue] else []
  | ReviewRead w' review => if decide (w' = w) then [review_updated_at review] else []
  | _ => []
  end.
Definition stamps_in (w : window) (es : list gate_event) : list Z := es ≫= stamp_in w.

(** A mark after reading: the newest stamp read in its window, or what it was. *)
Definition mark_after (old : option Z) (stamps : list Z) : option Z :=
  match stamps with [] => old | t :: ts => Some (newest t ts) end.

(** Why an issue that was read is not told of: the process's own last write left its
    stamp, or the receipts of all it wrote since the gate last saw the issue make of every
    field and every comment exactly what they are now, each over what it expected; those no
    receipt names are as they were. *)
Definition justified {J} `{JsonValues J} (m : GateMemory) (e : gate_event) : Prop :=
  match e with
  | IssueRead w issue (OwnStamp ledger) => wrote ledger (issue_key issue) (updated_at issue) = true
  | IssueRead w issue (OwnReplay ledger before after ms) =>
      dict_get (_observations m) (w, issue_key issue) = Some before
      ∧ (receipts ledger (issue_key issue) before.2).2 = Some ms ∧ ms ≠ []
      ∧ moved_issue_key after = issue_key issue ∧ moved_updated_at after = updated_at issue
      ∧ expectations (J := J) (dict_get (dict_of (moved_fields before.1))) ms
      ∧ (∀ key, dict_get (moved_fields after) key
           = foldl (field_said (J := J) key) (dict_get (dict_of (moved_fields before.1)) key) ms)
      ∧ (∀ key, dict_get (moved_comments after) key
           = foldl (comment_said key) (dict_get (dict_of (moved_comments before.1)) key) ms)
      ∧ (∀ key, (∀ m, m ∈ ms → ¬ names_field m key) →
           dict_get (moved_fields after) key = dict_get (dict_of (moved_fields before.1)) key)
      ∧ (∀ key, (∀ m, m ∈ ms → ¬ names_comment m key) →
           dict_get (moved_comments after) key = dict_get (dict_of (moved_comments before.1)) key)
  | _ => True
  end.

Lemma told_app es es' : told (es ++ es') = told es ++ told es'.
Proof. apply bind_app. Qed.
Lemma stamps_in_app w es es' : stamps_in w (es ++ es') = stamps_in w es ++ stamps_in w es'.
Proof. apply bind_app. Qed.

(** *** The sweep of a window *)

Section reading.
Context {W J : Type} `{JsonValues J} (port : GatePorts W) (self : PassGate).
Notation gate_state := (gate_state (W := W)).

Lemma gbind_inv {A B} (m : gco (W := W) A) (f : A → gco (W := W) B) s s' r :
  (m ≫= f) s = (s', r) →
  (∃ e, m s = (s', Err e) ∧ r = Err e) ∨ ∃ s1 a, m s = (s1, Ok a) ∧ f a s1 = (s', r).
Proof.
  unfold mbind, gco_mbind. destruct (m s) as [s1 [a|e]]; [by right; exists s1, a|].
  intros [= -> <-]. left. by exists e.
Qed.

(** The loop of [_issue_delta] so far: its rows in the order listed, each judged. *)
Record swept_so_far (w : window) (m : GateMemory) (read : list TrackerIssue) (acc : sweep) : Prop := {
  swept_moved : moved_keys acc = told (sightings acc);
  swept_stamps : stamps_in w (sightings acc) = updated_at <$> read;
  swept_window : ∀ w', w' ≠ w → stamps_in w' (sightings acc) = [];
  swept_justified : Forall (justified (J := J) m) (sightings acc);
  swept_keys : ∀ kv, kv ∈ swept acc → kv.1.1 = w;
}.

Lemma whose_ok before ledger previous issue snapshot verdict m w :
  previous = dict_get (_observations m) (w, issue_key issue) →
  moved_issue_key snapshot = issue_key issue → moved_updated_at snapshot = updated_at issue →
  whose before ledger previous
    (receipts before (issue_key issue) (match previous with None => 0 | Some p => p.2 end)).2
    issue snapshot = Ok verdict →
  justified (J := J) m (IssueRead w issue verdict).
Proof.
  intros Hp Hk Hu. unfold whose. destruct (wrote ledger _ _) eqn:Ew; [by intros [= <-]|].
  destruct previous as [p|]; [|by intros [= <-]].
  destruct (receipts before (issue_key issue) p.2).2 as [ms|] eqn:Er; [|by intros [= <-]].
  intros (own & Ho & [= <-])%bind_ok. destruct own; [|done]. cbn.
  apply matches_own_mutations_sound in Ho as (Hne & _ & Ho). destruct_and! Ho. by split_and!.
Qed.

Lemma judge_keeps w acc issue s s' r :
  judge port w acc issue s = (s', r) → held_memory s' = held_memory s ∧ trace s' = trace s.
Proof.
  unfold judge, mbind, gco_mbind, g_recalls, g_observes, g_awaits, g_raises.
  destruct (receipts _ _ _). destruct (read_issue_movement _ _ _) as [w1 [snapshot|e]]; cbn;
    [|by intros [= <- <-]].
  case_bool_decide; [|by intros [= <- <-]]. by destruct (whose _ _ _ _ _ _); intros [= <- <-].
Qed.

Lemma judge_spec w acc issue s s' acc' read :
  judge port w acc issue s = (s', Ok acc') →
  swept_so_far w (held_memory s) read acc → swept_so_far w (held_memory s) (read ++ [issue]) acc'.
Proof.
  unfold judge, mbind, gco_mbind, g_recalls, g_observes, g_awaits, g_raises.
  set (previous := dict_get (_observations (held_memory s)) (w, issue_key issue)).
  destruct (receipts _ _ _) as [cursor mutations] eqn:Er.
  destruct (read_issue_movement _ _ _) as [w1 [snapshot|e]]; cbn [outside]; [|done].
  case_bool_decide as Hst; [|done]. destruct Hst as (Hk & Hu & _).
  destruct (whose _ _ _ _ _ _) as [verdict|e] eqn:Ev; [|done]. intros [= _ <-] [Hm Hs Hw Hj Hkeys].
  assert (mutations = (receipts (gate_ledger port (outside s)) (issue_key issue)
    (match previous with None => 0 | Some p => p.2 end)).2) as Emut by by rewrite Er.
  rewrite Emut in Ev. apply (whose_ok _ _ _ _ _ _ (held_memory s) w) in Ev as Hjust; [|done..].
  constructor; cbn [moved_keys sightings swept].
  - rewrite told_app, <-Hm. cbn. rewrite app_nil_r. destruct verdict; cbn; by rewrite ?app_nil_r.
  - rewrite stamps_in_app, Hs, fmap_app. f_equal. unfold stamps_in.
    cbn [mbind list_bind app fmap list_fmap]. unfold stamp_in. by case_decide.
  - intros w' Hne. rewrite stamps_in_app, Hw by done. unfold stamps_in. cbn [mbind list_bind app].
    unfold stamp_in. case_decide; [congruence|done].
  - apply Forall_app. split; [done|]. by constructor.
  - intros kv [->|Hin]%dict_set_elem; [done|by apply Hkeys].
Qed.

Lemma sweep_window_spec w issues acc s s' r read :
  g_for (judge port w) acc issues s = (s', r) →
  held_memory s' = held_memory s ∧ trace s' = trace s
  ∧ (swept_so_far w (held_memory s) read acc →
     ∀ acc', r = Ok acc' → swept_so_far w (held_memory s) (read ++ issues) acc').
Proof.
  revert acc s read. induction issues as [|issue issues IH]; intros acc s read; cbn [g_for].
  { intros [= <- <-]. split; [done|]. split; [done|]. intros Hs acc' [= <-]. by rewrite app_nil_r. }
  intros [(e & Hj & ->)|(s1 & acc1 & Hj & Hrest)]%gbind_inv.
  { by apply judge_keeps in Hj as [-> ->]. }
  apply judge_keeps in Hj as Hkeep. destruct Hkeep as [Hm Ht].
  destruct (IH _ _ (read ++ [issue]) Hrest) as (-> & -> & Hgo). split; [done|]. split; [done|].
  intros Hs acc' ->. rewrite Hm in Hgo. replace (read ++ issue :: issues) with ((read ++ [issue]) ++ issues) by by rewrite <-app_assoc.
  apply Hgo; [|done]. by eapply judge_spec.
Qed.

(** *** One question *)

(** What an answered question of a window leaves: the memory as it was and nothing read in
    it that carries a stamp, or the window committed over the rows just read. *)
Definition answered (w : window) (m m' : GateMemory) (es : list gate_event) : Prop :=
  m' = m ∧ stamps_in w es = []
  ∨ ∃ t ts observed, stamps_in w es = t :: ts ∧ (∀ kv, kv ∈ observed → kv.1.1 = w)
      ∧ m' = advance w (newest t ts) (commit_observations observed m).

Lemma stamps_in_fmap {A} w (f : A → gate_event) (g : A → list Z) l :
  (∀ x, stamp_in w (f x) = g x) → stamps_in w (f <$> l) = l ≫= g.
Proof. intros Hf. unfold stamps_in. induction l as [|x l IH]; [done|]. cbn. by rewrite Hf, IH. Qed.

Lemma bind_empty {A B} (l : list A) : l ≫= (λ _, @nil B) = [].
Proof. by induction l. Qed.
Lemma bind_single {A B} (f : A → B) (l : list A) : l ≫= (λ x, [f x]) = f <$> l.
Proof. induction l as [|x l IH]; [done|]. cbn. by rewrite IH. Qed.

Lemma told_fmap {A} (f : A → gate_event) (g : A → string) l :
  (∀ x, tells (f x) = [g x]) → told (f <$> l) = g <$> l.
Proof. intros Hf. unfold told. induction l as [|x l IH]; [done|]. cbn. by rewrite Hf, IH. Qed.

Definition asked (w : window) (m : GateMemory) (s s' : gate_state) (r : result exn (list string)) : Prop :=
  match r with
  | Err _ => held_memory s' = m ∧ trace s' = trace s
  | Ok more => ∃ es, trace s' = trace s ++ es ∧ more = told es ∧ Forall (justified (J := J) m) es
      ∧ (∀ w', w' ≠ w → stamps_in w' es = []) ∧ answered w m (held_memory s') es
  end.

Lemma issue_delta_spec signal team queue s s' r :
  _issue_delta port self signal team queue s = (s', r) → asked (signal, team) (held_memory s) s s' r.
Proof.
  unfold _issue_delta. unfold mbind at 1 2, gco_mbind at 1 2, g_recalls, g_awaits.
  destruct (gate_issues port _ _) as [w1 [issues|e]]; [|by intros [= <- <-]].
  destruct issues as [|first rest].
  { intros [= <- <-]. exists []. rewrite app_nil_r. repeat split; [constructor|by left]. }
  cbn [outside held_memory trace].
  set (s1 := {| held_memory := held_memory s; outside := w1; trace := trace s |}).
  intros [(e & Hs & ->)|(s2 & all & Hs & Hrest)]%gbind_inv.
  { apply (sweep_window_spec _ _ _ _ _ _ []) in Hs as (Hm & Ht & _). by split. }
  apply (sweep_window_spec _ _ _ _ _ _ []) in Hs as (Hm & Ht & Hgo).
  assert (swept_so_far (signal, team) (held_memory s1) ([] ++ first :: rest) all) as [Hmv Hst Hw Hj Hk].
  { apply Hgo; [|done]. by constructor; [..|constructor|intros kv ?%elem_of_nil]. }
  unfold mbind, gco_mbind, g_updates, g_notes, mret, gco_mret in Hrest.
  injection Hrest as <- <-. exists (sightings all). cbn [trace held_memory]. rewrite Ht, Hm.
  split; [done|]. split; [done|]. split; [done|]. split; [done|]. right.
  exists (updated_at first), (updated_at <$> rest), (swept all). done.
Qed.

Lemma review_delta_spec signal url s s' r :
  _review_delta port self signal url s = (s', r) → asked (signal, url) (held_memory s) s s' r.
Proof.
  unfold _review_delta, mbind, gco_mbind, g_recalls, g_awaits.
  destruct (gate_reviews port _ _) as [w1 [reviews|e]]; [|by intros [= <- <-]].
  destruct reviews as [|first rest].
  { intros [= <- <-]. exists []. rewrite app_nil_r. repeat split; [constructor|by left]. }
  intros [= <- <-]. cbn [trace held_memory]. set (reviews := first :: rest).
  exists (ReviewRead (signal, url) <$> reviews). split; [done|]. split; [by rewrite (told_fmap _ review_key)|].
  split; [by apply Forall_fmap, Forall_true|]. split.
  - intros w' Hne. rewrite (stamps_in_fmap _ _ (λ _, [])); [by apply bind_empty|].
    intros x. unfold stamp_in. case_decide; congruence.
  - right. exists (review_updated_at first), (review_updated_at <$> rest), []. split.
    + rewrite (stamps_in_fmap _ _ (λ x, [review_updated_at x])); [by rewrite bind_single|].
      intros x. unfold stamp_in. by case_decide.
    + split; [by intros kv ?%elem_of_nil|]. done.
Qed.

Lemma observe_spec signal c s s' r :
  _observe port self signal c s = (s', r) → asked (signal, c) (held_memory s) s s' r.
Proof.
  destruct signal; cbn [_observe]; [apply issue_delta_spec|apply issue_delta_spec| |apply review_delta_spec].
  unfold _backlog, mbind, gco_mbind, g_awaits. destruct (gate_issues port _ _) as [w1 [issues|e]];
    [|by intros [= <- <-]].
  intros [= <- <-]. exists (Standing (triage_backlog, c) <$> issues). cbn [trace held_memory].
  split; [done|]. split; [by rewrite (told_fmap _ issue_key)|]. split; [by apply Forall_fmap, Forall_true|].
  assert (∀ w, stamps_in w (Standing (triage_backlog, c) <$> issues) = []) as Hnone.
  { intros w. rewrite (stamps_in_fmap _ _ (λ _, [])); [by apply bind_empty|done]. }
  split; [done|by left].
Qed.
End reading.

(** ** What a delta keeps for a rearm *)

Record tracking (m0 m : GateMemory) (done : list window) : Prop := {
  t_prev : _previous_observations m = _observations m0;
  t_none : _advanced m = [] → _observations m = _observations m0;
  t_nodup : NoDup (dict_keys (_advanced m));
  t_adv : ∀ w old, dict_get (_advanced m) w = Some old → w ∈ done ∧ old = mark_of m0 w;
  t_kept : ∀ w, dict_get (_advanced m) w = None → mark_of m w = mark_of m0 w;
  t_obs : ∀ w k, w ∉ done → dict_get (_observations m) (w, k) = dict_get (_observations m0) (w, k);
}.

Lemma open_tracking m : tracking m (open_delta m) [].
Proof. constructor; try done. constructor. Qed.

Lemma mark_of_set m w v w' :
  mark_of {| _marks := dict_set (_marks m) w v; _advanced := _advanced m; _observations := _observations m;
             _previous_observations := _previous_observations m |} w'
  = if decide (w = w') then v else mark_of m w'.
Proof. unfold mark_of. cbn. rewrite dict_get_set. by case_decide. Qed.

Lemma update_elsewhere {K V} `{EqDecision K} (d l : pydict K V) k :
  k ∉ l.*1 → dict_get (foldl (λ d kv, dict_set d kv.1 kv.2) d l) k = dict_get d k.
Proof.
  revert d. induction l as [|kv l IH]; intros d Hk; [done|]. rewrite fmap_cons, not_elem_of_cons in Hk.
  cbn. rewrite IH by tauto. apply dict_get_set_ne. naive_solver.
Qed.

Lemma update_get {K V} `{EqDecision K} (d l : pydict K V) k :
  NoDup (dict_keys l) →
  dict_get (foldl (λ d kv, dict_set d kv.1 kv.2) d l) k
  = match dict_get l k with Some v => Some v | None => dict_get d k end.
Proof.
  unfold dict_keys. revert d. induction l as [|[k' v] l IH]; intros d Hnd; [done|].
  rewrite fmap_cons, NoDup_cons in Hnd. destruct Hnd as [Hk Hnd]. cbn [foldl fst snd dict_get].
  case_decide as E.
  - subst k'. rewrite update_elsewhere by done. apply dict_get_set_eq.
  - rewrite IH by done. destruct (dict_get l k); [done|]. by apply dict_get_set_ne.
Qed.

Lemma commit_elsewhere observed m w k :
  (∀ kv, kv ∈ observed → kv.1.1 ≠ w) →
  dict_get (_observations (commit_observations observed m)) (w, k) = dict_get (_observations m) (w, k).
Proof.
  intros Hk. cbn. apply update_elsewhere. intros (kv & E & Hin)%list_elem_of_fmap.
  apply (Hk kv Hin). by rewrite <-E.
Qed.

Lemma tracking_step m0 m m' done w es :
  tracking m0 m done → w ∉ done → answered w m m' es → tracking m0 m' (done ++ [w]).
Proof.
  intros [Hp Hn Hnd Ha Hk Ho] Hw [[-> _]|(t & ts & observed & _ & Hobs & ->)].
  { constructor; try done.
    - intros w' old E. destruct (Ha w' old E). set_solver.
    - intros w' k Hw'. apply Ho. set_solver. }
  assert (mark_of m w = mark_of m0 w) as Hmark.
  { apply Hk. destruct (dict_get (_advanced m) w) eqn:E; [|done]. by destruct (Ha w _ E). }
  constructor.
  - exact Hp.
  - intros E.
    assert (dict_get (_advanced (advance w (newest t ts) (commit_observations observed m))) w ≠ None) as Hin
      by (cbn; by rewrite dict_get_set_eq).
    by rewrite E in Hin.
  - cbn. by apply dict_set_NoDup.
  - intros w' old. cbn. rewrite dict_get_set. case_decide as E.
    + intros [= <-]. subst w'. split; [set_solver|exact Hmark].
    + intros E'. destruct (Ha w' old E'). split; [set_solver|done].
  - intros w'. cbn. rewrite dict_get_set. case_decide as E; [done|]. intros E'.
    rewrite <-(Hk w' E'). unfold mark_of. cbn. by rewrite dict_get_set_ne.
  - intros w' k Hw'. rewrite <-(Ho w' k) by set_solver. apply commit_elsewhere.
    intros kv Hin E. apply Hw'. rewrite <-E, (Hobs kv Hin). set_solver.
Qed.

(** A rearm puts every mark and every snapshot back. *)
Lemma rearm_restores m0 m done :
  tracking m0 m done →
  (∀ w, mark_of (rearm m) w = mark_of m0 w) ∧ _observations (rearm m) = _observations m0.
Proof.
  intros [Hp Hn Hnd Ha Hk _]. split.
  - intros w. unfold mark_of, rearm. cbn [_marks]. rewrite update_get by done.
    destruct (dict_get (_advanced m) w) as [old|] eqn:E; [by destruct (Ha w old E) as [_ ->]|].
    exact (Hk w E).
  - unfold rearm. cbn. destruct (_advanced m) eqn:E; [by apply Hn|done].
Qed.

Lemma justified_in {J} `{JsonValues J} m m0 w e :
  justified (J := J) m e → (∀ w', w' ≠ w → stamp_in w' e = []) →
  (∀ k, dict_get (_observations m) (w, k) = dict_get (_observations m0) (w, k)) → justified (J := J) m0 e.
Proof.
  destruct e as [w' issue j| | | |]; try done. destruct j; try done. cbn [justified].
  intros (Hb & Hrest) Hw Ho. split; [|done]. destruct (decide (w' = w)) as [->|Hne]; [by rewrite <-Ho|].
  specialize (Hw w' Hne). unfold stamp_in in Hw. by rewrite decide_True in Hw.
Qed.

Lemma mark_answered w m m' es w' :
  answered w m m' es → (∀ w', w' ≠ w → stamps_in w' es = []) →
  mark_of m' w' = mark_after (mark_of m w') (stamps_in w' es).
Proof.
  intros [[-> Hs]|(t & ts & observed & Hs & _ & ->)] Hw.
  - destruct (decide (w' = w)) as [->|Hne]; [by rewrite Hs|by rewrite Hw].
  - unfold mark_of. cbn. rewrite dict_get_set. case_decide as E; [subst w'; by rewrite Hs|].
    rewrite Hw by congruence. done.
Qed.

(** *** The loops of a delta *)

Section deltas.
Context {W J : Type} `{JsonValues J} (port : GatePorts W) (self : PassGate).
Notation gate_state := (gate_state (W := W)).

Definition containers_of (signal : PassSignal) : list string :=
  match _containers self signal with Ok cs => cs | Err _ => [] end.
(** Every question a delta asks, in order. *)
Definition windows : list window := _signals self ≫= λ s, pair s <$> containers_of s.

Definition progress (m0 : GateMemory) (t0 : list gate_event) (done : list window) (changed : list string)
    (s : gate_state) : Prop :=
  tracking m0 (held_memory s) done
  ∧ ∃ reads, trace s = t0 ++ reads ∧ changed = told reads ∧ Forall (justified (J := J) m0) reads
    ∧ (∀ w, w ∉ done → stamps_in w reads = [])
    ∧ ∀ w, mark_of (held_memory s) w = mark_after (mark_of m0 w) (stamps_in w reads).

Definition stopped (m0 : GateMemory) (s : gate_state) : Prop := ∃ done, tracking m0 (held_memory s) done.

Lemma progress_step m0 t0 done changed s s' w more :
  progress m0 t0 done changed s → w ∉ done → asked w (held_memory s) s s' (Ok more) →
  progress m0 t0 (done ++ [w]) (changed ++ more) s'.
Proof.
  intros (Ht & reads & Htr & -> & Hj & Hout & Hmark) Hw (es & Htr' & -> & Hjes & Hes & Hans).
  split; [by eapply tracking_step|]. exists (reads ++ es).
  rewrite Htr', Htr, <-app_assoc, told_app. split; [done|]. split; [done|]. split; [|split].
  - apply Forall_app. split; [done|]. apply Forall_forall. intros e He.
    rewrite Forall_forall in Hjes. eapply justified_in; [by apply Hjes| |].
    + intros w' Hne. specialize (Hes w' Hne). apply list_elem_of_split in He as (l1 & l2 & ->).
      rewrite stamps_in_app in Hes. apply app_nil in Hes as [_ Hes]. by apply app_nil in Hes as [Hes _].
    + intros k. by apply (t_obs _ _ _ Ht).
  - intros w' Hw'. rewrite stamps_in_app, Hout, Hes by set_solver. done.
  - intros w'. rewrite (mark_answered _ _ _ _ w' Hans Hes), Hmark, stamps_in_app.
    destruct (decide (w' = w)) as [->|Hne]; [by rewrite Hout|]. rewrite Hes by done. by rewrite app_nil_r.
Qed.

Lemma progress_silent m0 t0 done changed s s' w :
  progress m0 t0 done changed s → held_memory s' = held_memory s → trace s' = trace s →
  progress m0 t0 (done ++ [w]) changed s'.
Proof.
  intros (Ht & reads & Htr & -> & Hj & Hout & Hmark) Em Et. unfold progress. rewrite Em, Et.
  split.
  - destruct Ht as [Hp Hn Hnd Ha Hk Ho]. constructor; try done.
    + intros w' old E. destruct (Ha w' old E). set_solver.
    + intros w' k Hw'. apply Ho. set_solver.
  - exists reads. repeat split; try done. intros w' Hw'. apply Hout. set_solver.
Qed.

Lemma ask_all_spec m0 t0 signal cs done changed s s' r :
  NoDup (done ++ (pair signal <$> cs)) → progress m0 t0 done changed s →
  g_for (ask port self signal) changed cs s = (s', r) →
  match r with
  | Ok changed' => progress m0 t0 (done ++ (pair signal <$> cs)) changed' s'
  | Err _ => stopped m0 s'
  end.
Proof.
  revert done changed s. induction cs as [|c cs IH]; intros done changed s Hnd Hp; cbn [g_for].
  { intros [= <- <-]. by rewrite app_nil_r. }
  assert ((signal, c) ∉ done) as Hw.
  { apply NoDup_app in Hnd as (_ & Hnd & _). intros Hin. by apply (Hnd _ Hin); left. }
  rewrite fmap_cons, cons_middle, app_assoc in Hnd |- *.
  intros [(e & Ha & ->)|(s1 & more & Ha & Hrest)]%gbind_inv.
  - unfold ask in Ha. destruct (_observe port self signal c s) as [s1 [more|e']] eqn:Eo; [done|].
    apply observe_spec in Eo as [Em Et]. destruct (unanswerable e'); [done|]. injection Ha as <- _.
    destruct Hp as [Ht _]. exists done. by rewrite Em.
  - apply (IH (done ++ [(signal, c)]) more s1 Hnd); [|exact Hrest].
    unfold ask in Ha. destruct (_observe port self signal c s) as [s2 [es|e']] eqn:Eo.
    + injection Ha as <- <-. apply observe_spec in Eo. by eapply progress_step.
    + apply observe_spec in Eo as [Em Et]. destruct (unanswerable e'); [|done]. injection Ha as <- <-.
      by eapply progress_silent.
Qed.

Lemma ask_signals_spec m0 t0 signals done changed s s' r :
  NoDup (done ++ (signals ≫= λ s, pair s <$> containers_of s)) → progress m0 t0 done changed s →
  g_for (ask_signal port self) changed signals s = (s', r) →
  match r with
  | Ok changed' => progress m0 t0 (done ++ (signals ≫= λ s, pair s <$> containers_of s)) changed' s'
  | Err _ => stopped m0 s'
  end.
Proof.
  revert done changed s. induction signals as [|signal signals IH]; intros done changed s Hnd Hp; cbn [g_for].
  { intros [= <- <-]. by rewrite app_nil_r. }
  cbn [mbind list_bind] in *. rewrite app_assoc in Hnd |- *.
  intros [(e & Ha & ->)|(s1 & more & Ha & Hrest)]%gbind_inv.
  - apply gbind_inv in Ha as [(e' & Ha & _)|(s1 & cs & Hcs & Ha)].
    + injection Ha as <- _. destruct Hp as [Ht _]. by exists done.
    + unfold g_raises in Hcs. injection Hcs as <- Hcs.
      apply NoDup_app in Hnd as (Hnd & _). unfold containers_of in Hnd. rewrite Hcs in Hnd.
      by apply (ask_all_spec _ _ _ _ _ _ _ _ _ Hnd Hp Ha).
  - apply (IH _ more s1 Hnd); [|exact Hrest].
    apply gbind_inv in Ha as [(e' & _ & ?)|(s2 & cs & Hcs & Ha)]; [done|].
    unfold g_raises in Hcs. injection Hcs as <- Hcs.
    apply NoDup_app in Hnd as (Hnd & _). unfold containers_of in *. rewrite Hcs in *.
    by apply (ask_all_spec _ _ _ _ _ _ _ _ _ Hnd Hp Ha).
Qed.

Lemma delta_spec s s' r :
  NoDup windows → delta port self s = (s', r) →
  match r with
  | Ok d => progress (held_memory s) (trace s) windows (changed d) s'
  | Err _ => stopped (held_memory s) s'
  end.
Proof.
  intros Hnd. unfold delta. unfold mbind at 1, gco_mbind at 1, g_updates at 1.
  set (s0 := {| held_memory := open_delta (held_memory s); outside := outside s; trace := trace s |}).
  assert (progress (held_memory s) (trace s) [] [] s0) as Hp.
  { split; [apply open_tracking|]. exists []. by rewrite app_nil_r. }
  intros [(e & Ha & ->)|(s1 & more & Ha & Hrest)]%gbind_inv.
  - by apply (ask_signals_spec _ _ _ [] _ _ _ _ Hnd Hp Ha).
  - injection Hrest as <- <-. by apply (ask_signals_spec _ _ _ [] _ _ _ _ Hnd Hp Ha).
Qed.
End deltas.

(** ** A tick *)

Section ticks.
Context {W J : Type} `{JsonValues J} (port : GatePorts W).
Notation gate_state := (gate_state (W := W)).

Lemma containers_NoDup self signal :
  NoDup (_team_keys self) → NoDup (_repo_urls self) → NoDup (containers_of self signal).
Proof.
  intros Ht Hr. unfold containers_of, _containers, raise_if. destruct signal; cbn.
  1-3: by destruct (bool_decide _); [constructor|].
  destruct (first_such _ _); [constructor|]. by destruct (bool_decide _); [constructor|].
Qed.

Lemma windows_NoDup self :
  NoDup (_signals self) → NoDup (_team_keys self) → NoDup (_repo_urls self) → NoDup (windows self).
Proof.
  intros Hs Ht Hr. unfold windows. induction (_signals self) as [|signal signals IH]; [constructor|].
  apply NoDup_cons in Hs as [Hin Hs]. cbn [mbind list_bind]. apply NoDup_app. split; [|split; [|by apply IH]].
  - apply NoDup_fmap_2; [|by apply containers_NoDup]. by intros ? ? [= ->].
  - intros w (c & -> & _)%list_elem_of_fmap (signal' & Hw & Hin')%list_elem_of_bind.
    apply list_elem_of_fmap in Hw as (c' & [= <- <-] & _). done.
Qed.

Lemma dispatch_spec reported s s' r :
  _dispatch port reported s = (s', r) →
  held_memory s' = held_memory s
  ∧ (r = Ok tt → trace s' = trace s ++ [Dispatches reported]
     ∨ ∃ issue job state, trace s' = trace s ++ [Dispatches reported; Follows issue job state]).
Proof.
  unfold _dispatch, mbind, gco_mbind, g_notes, g_awaits, g_changes, g_raises.
  destruct (run_dispatch port _) as [w1 [report|e]]; cbn; [|by intros [= <- <-]].
  case_bool_decide; [intros [= <- <-]; split; [done|by left]|].
  destruct (claimed_issue_key report), (enqueued_job report), (claimed_state_name report);
    intros [= <- <-]; try done.
  split; [done|]. intros _. right. cbn. do 3 eexists. by rewrite <-app_assoc.
Qed.

End ticks.

(** ** Concrete ticks *)

Definition moved_issue (stamp : Z) : TrackerIssue := {|
  issue_key := "K-1"; title := ""; body := ""; priority := NONE; state_name := "";
  state_kind := UNSTARTED; Tracker.queue_states := {[ Q_APPROVED ]}; Tracker.issue_labels := ∅;
  team_key := Some "T"; project := None; project_id := None; milestone_key := None; relations := [];
  parent_key := None; assignee_key := None; created_at := 0; updated_at := stamp; url := "" |}.

(** A board whose one issue moves between any two scans, and a dispatcher that answers [r]. *)
Definition moving_ports (r : result exn DispatchReport) : GatePorts Z := {|
  gate_issues q t := ((t + 1)%Z, Ok [moved_issue (t + 1)]);
  gate_reviews q t := (t, Ok []);
  read_issue_movement key t := (t, Ok (sample_snapshot t []));
  gate_ledger t := new_ledger;
  run_dispatch t := (t, r);
  follow_fire issue job state v t := t |}.

Definition gate_over (signals : list PassSignal) : PassGate := {|
  _signals := signals; _team_keys := ["T"]; _repo_urls := ["https://r"]; _page_size := 50 |}.

Definition unmarked : GateMemory := {|
  _marks := []; _advanced := []; _observations := []; _previous_observations := [] |}.
Definition first_tick : gate_state (W := Z) := {| held_memory := unmarked; outside := 4%Z; trace := [] |}.

Definition failing_tick (signals : list PassSignal) : gate_state * result exn PassRun :=
  run (moving_ports (Err TrackerUnavailableError)) (Some (gate_over signals)) first_tick.

Lemma failing_tick_raises : (failing_tick [approved_changed]).2 = Err TrackerUnavailableError.
Proof. vm_compute. reflexivity. Qed.


(** A signal configured twice is asked twice in a tick, and the second answer replaces what
    a rearm would restore: the failed tick leaves the mark past what the first read. *)
Example repeated_signal_rearm :
  (failing_tick [approved_changed; approved_changed]).2 = Err TrackerUnavailableError
  ∧ mark_of (held_memory (failing_tick [approved_changed; approved_changed]).1) (approved_changed, "T") = Some 5%Z.
Proof. vm_compute. done. Qed.
