(* ===== verification/PassScheduler.v ===== *)
(** * Scheduled passes and the recorder (services/pass_scheduler.py,
    services/run_recorder.py).

    A driver ticks its pass on its cadence under a budget, names what each tick did and
    reports the ones that ran; the recorder sees that the destination of the pass's kind
    holds one row for each run. The pass, the clocks, the sleep and the destination answer
    from a world; a tick that is cancelled keeps what it did. *)

From S2P Require Import BaseResolution Topology IssueTree ScopeWalker.
From S2P Require Import Prelude PyStr PyLines Tracker Errors Dispatch Outcome JobQueue Operation RunRecords FireContext.
From S2P Require Import FireDispatcher SelfWrites PassGate.

Local Open Scope nat_scope.

(** ** The recorder (services/run_recorder.py) *)

(** The sink of one system: whether a destination holds this run's row, and the write. *)
Record RunRecordSink (W : Type) := {
  holds_record : RecordDestination → RunRecord → W → W * result exn bool;
  write_record : RecordDestination → RunRecord → W → W * result exn unit;
}.
Arguments holds_record {W}. Arguments write_record {W}.

Record RunRecorder (W : Type) := {
  recorder_records : pydict string RecordDestination;
  recorder_sinks : pydict DocumentSystem (RunRecordSink W);
}.
Arguments recorder_records {W}. Arguments recorder_sinks {W}.

Section recorder.
Context {W : Type} (self : RunRecorder W).

Definition record (r : RunRecord) (w : W) : W * result exn RunRecordResult :=
  match dict_get (recorder_records self) (run_kind_value (record_kind r)) with
  | None => (w, Ok UNDECLARED)
  | Some destination =>
      match dict_get (recorder_sinks self) (destination_system destination) with
      | None => (w, Err (RunRecordWriteError (run_kind_value (record_kind r)) "sink_unwired"))
      | Some sink =>
          match holds_record sink destination r w with
          | (w, Err e) => (w, Err e)
          | (w, Ok true) => (w, Ok VERIFIED)
          | (w, Ok false) =>
              match write_record sink destination r w with
              | (w, Err e) => (w, Err e)
              | (w, Ok _) => (w, Ok WRITTEN)
              end
          end
      end
  end.

(** composition/records.py: [run_report], the report a pass of a kind is wired with. *)
Definition run_report (kind : RunKind) (name : string) (clock : W → Z) (o : RunOutcome)
    (duration started : Z) (w : W) : W * result exn unit :=
  match record {| record_kind := kind; record_name := name; record_outcome := o; record_duration := duration;
                  record_started_at := started; recorded_at := clock w |} w with
  | (w, Ok _) => (w, Ok tt)
  | (w, Err e) => (w, Err e)
  end.
End recorder.

(** ** The scheduler (services/pass_scheduler.py) *)

Definition RunReport (W : Type) : Type := RunOutcome → Z → Z → W → W * result exn unit.

(** [run_within budget started]: [async with asyncio.timeout(budget): await run(started)],
    with whether the budget was what expired. *)
Record ScheduledPass (W : Type) := {
  pass_name : string;
  interval_seconds : Z;
  timeout_seconds : Z;
  run_within : Z → Z → W → W * (result exn PassRun * bool);
  report : option (RunReport W);
  tick_at_boot : bool;
}.
Arguments pass_name {W}. Arguments interval_seconds {W}. Arguments timeout_seconds {W}.
Arguments run_within {W}. Arguments report {W}. Arguments tick_at_boot {W}.

Record Clocks (W : Type) := {
  loop_time : W → Z;
  utc_now : W → Z;
  sleep : Z → W → W * result exn unit;
}.
Arguments loop_time {W}. Arguments utc_now {W}. Arguments sleep {W}.

(** The events of the log, with the report and the sleep between them. *)
Inductive tick_event :=
| PassTimedOut (duration : Z)
| PassFailed (e : exn) (duration : Z)
| PassSkipped (duration : Z)
| PassCompleted (duration : Z)
| Reports (o : RunOutcome) (duration started : Z)
| RecordWriteFailed (o : RunOutcome) (e : exn)
| RecordReporterFailed (o : RunOutcome) (e : exn)
| Sleeps (seconds : Z).

Section driver.
Context {W : Type} (clocks : Clocks W) (entry : ScheduledPass W).

Record drive_state := { around : W; said : list tick_event }.
Definition say (e : tick_event) (s : drive_state) : drive_state :=
  {| around := around s; said := said s ++ [e] |}.

(** [isinstance(exc, RunRecordWriteError)] *)
Definition record_failure_event (o : RunOutcome) (e : exn) : tick_event :=
  match e with RunRecordWriteError _ _ => RecordWriteFailed o e | _ => RecordReporterFailed o e end.

(** [except Exception] contains every failure but a cancellation. *)
Definition _report (o : RunOutcome) (duration started : Z) (s : drive_state) :
    drive_state * result exn unit :=
  match report entry with
  | None => (s, Ok tt)
  | Some f =>
      let s := say (Reports o duration started) s in
      match f o duration started (around s) with
      | (w, Ok _) => ({| around := w; said := said s |}, Ok tt)
      | (w, Err CancelledError) => ({| around := w; said := said s |}, Err CancelledError)
      | (w, Err e) => (say (record_failure_event o e) {| around := w; said := said s |}, Ok tt)
      end
  end.

Definition is_TimeoutError (e : exn) : bool := match e with TimeoutError _ => true | _ => false end.

Definition _tick (s : drive_state) : drive_state * result exn unit :=
  let started := loop_time clocks (around s) in
  let started_at := utc_now clocks (around s) in
  let '(w, (r, expired)) := run_within entry (timeout_seconds entry) started_at (around s) in
  let s := {| around := w; said := said s |} in
  let duration := (loop_time clocks w - started)%Z in
  match r with
  | Err CancelledError => (s, Err CancelledError)
  | Err e =>
      if is_TimeoutError e && expired then
        _report TIMED_OUT duration started_at (say (PassTimedOut duration) s)
      else _report FAILED duration started_at (say (PassFailed e duration) s)
  | Ok SKIPPED => (say (PassSkipped duration) s, Ok tt)
  | Ok RAN => _report COMPLETED_RUN duration started_at (say (PassCompleted duration) s)
  end.

(** One turn of [while True]. *)
Definition turn (s : drive_state) : drive_state * result exn unit :=
  match sleep clocks (interval_seconds entry) (around s) with
  | (w, Ok _) => _tick (say (Sleeps (interval_seconds entry)) {| around := w; said := said s |})
  | (w, Err e) => ({| around := w; said := said s |}, Err e)
  end.

Fixpoint turns (n : nat) (s : drive_state) : drive_state * result exn unit :=
  match n with
  | 0 => (s, Ok tt)
  | S n => match turn s with (s, Ok _) => turns n s | (s, Err e) => (s, Err e) end
  end.

(** [_drive] through its first [n] turns; the loop itself has no end. *)
Definition _drive (n : nat) (s : drive_state) : drive_state * result exn unit :=
  match (if tick_at_boot entry then _tick s else (s, Ok tt)) with
  | (s, Ok _) => turns n s
  | (s, Err e) => (s, Err e)
  end.
End driver.

(** *** The scheduler's tasks *)

(** A driver task: live, or how it unwound. *)
Notation driver_task := (option (result exn unit)).

Record PassScheduler := { scheduled : list string; _tasks : list (string * driver_task) }.

Definition task_live (task : string * driver_task) : bool :=
  match task.2 with None => true | Some _ => false end.

Definition running (self : PassScheduler) : bool := existsb task_live (_tasks self).

Definition start (self : PassScheduler) : PassScheduler * result exn unit :=
  match _tasks self with
  | [] => ({| scheduled := scheduled self; _tasks := (λ name, (name, None)) <$> scheduled self |}, Ok tt)
  | _ => (self, Err (RuntimeError "the pass scheduler is already running"))
  end.

(** [await task] of a cancelled task; one that was done keeps how it had unwound, a live
    one unwinds as [unwinds] says. A cancellation is swallowed and anything else raised. *)
Fixpoint await_tasks (unwinds : string → result exn unit) (tasks : list (string * driver_task)) :
    result exn unit :=
  match tasks with
  | [] => Ok tt
  | (name, task) :: tasks =>
      match default (unwinds name) task with
      | Ok _ | Err CancelledError => await_tasks unwinds tasks
      | Err e => Err e
      end
  end.

Definition stop (unwinds : string → result exn unit) (self : PassScheduler) :
    PassScheduler * result exn unit :=
  ({| scheduled := scheduled self; _tasks := [] |}, await_tasks unwinds (_tasks self)).

(** A scheduler that stopped can start again, and drivers that only a cancellation ends
    leave nothing for [stop] to raise. *)
Lemma stop_start unwinds self :
  (start (stop unwinds self).1).2 = Ok tt
  ∧ ((∀ name, unwinds name = Ok tt ∨ unwinds name = Err CancelledError) →
     (∀ task r, task ∈ _tasks self → task.2 = Some r → r = Err CancelledError) →
     (stop unwinds self).2 = Ok tt).
Proof.
  split; [done|]. cbn. intros Hu. induction (_tasks self) as [|[name task] tasks IH]; [done|]. intros Ht.
  assert (default (unwinds name) task = Ok tt ∨ default (unwinds name) task = Err CancelledError) as Hd.
  { destruct task as [r|]; [right|apply Hu]. apply (Ht (name, Some r)); [by left|done]. }
  cbn [await_tasks]. assert (await_tasks unwinds tasks = Ok tt) as Hrest.
  { apply IH. intros task' r Hin. apply Ht. by right. }
  by destruct Hd as [-> | ->].
Qed.

(** ** What a driven pass says and leaves *)

Section driven.
Context {W : Type} `{StampsLaws} (clocks : Clocks W) (recorder : RunRecorder W) (kind : RunKind).
Context (destination : RecordDestination) (sink : RunRecordSink W) (entry : ScheduledPass W).

(** The titles of the rows the destination holds. *)
Context (rows : W → list string).

(** The pass is wired to a declared destination, and its log holds no fires. *)
Record wired : Prop := {
  wired_report : report entry = Some (run_report recorder kind (pass_name entry) (utc_now clocks));
  wired_kind : kind ≠ RUN_FIRE;
  wired_destination : dict_get (recorder_records recorder) (run_kind_value kind) = Some destination;
  wired_sink : dict_get (recorder_sinks recorder) (destination_system destination) = Some sink;
}.

(** What the services promise. The sink answers from the destination's own rows and adds
    the one it writes, also when the answer is lost; a run's session writes its own row at
    most, under the title its start prescribes, and a skipped tick opened none; nobody else
    writes to the log of the kind; time passes between two ticks; a sleep ends early only
    by cancellation. *)
Record served : Prop := {
  served_holds r w : let '(w', answer) := holds_record sink destination r w in
    rows w' = rows w ∧ (utc_now clocks w ≤ utc_now clocks w')%Z
    ∧ ∀ b, answer = Ok b → b = bool_decide (record_title r ∈ rows w);
  served_write r w : let '(w', answer) := write_record sink destination r w in
    (rows w' = rows w ++ [record_title r] ∨ rows w' = rows w ∧ answer ≠ Ok tt)
    ∧ (utc_now clocks w ≤ utc_now clocks w')%Z;
  served_run w : let '(w', (answer, _)) := run_within entry (timeout_seconds entry) (utc_now clocks w) w in
    (rows w' = rows w ∨ rows w' = rows w ++ [stamp (utc_now clocks w)] ∧ answer ≠ Ok SKIPPED)
    ∧ (utc_now clocks w ≤ utc_now clocks w')%Z;
  served_sleep w : let '(w', answer) := sleep clocks (interval_seconds entry) w in
    rows w' = rows w ∧ (utc_now clocks w < utc_now clocks w')%Z
    ∧ ∀ e, answer = Err e → e = CancelledError;
}.

(** What [run_within] answered to the tick begun in [w], and the seconds it took. *)
Definition ran (w : W) (answer : result exn PassRun * bool) (w' : W) : Prop :=
  run_within entry (timeout_seconds entry) (utc_now clocks w) w = (w', answer).
Definition elapsed (w w' : W) : Z := (loop_time clocks w' - loop_time clocks w)%Z.
(** What the recorder answered to a report. *)
Definition reported (o : RunOutcome) (duration started : Z) (w : W) (answer : result exn unit) (w' : W) : Prop :=
  run_report recorder kind (pass_name entry) (utc_now clocks) o duration started w = (w', answer).

(** The outcome and the event of a tick, by what its run answered: the budget's own timeout
    is told apart from one the pass raised, and neither a skipped tick nor a cancelled one
    has an outcome. *)
Inductive ended : result exn PassRun * bool → RunOutcome → Z → tick_event → Prop :=
| ended_completed expired d : ended (Ok RAN, expired) COMPLETED_RUN d (PassCompleted d)
| ended_failed e expired d : e ≠ CancelledError → is_TimeoutError e && expired = false →
    ended (Err e, expired) FAILED d (PassFailed e d)
| ended_timed_out e d : is_TimeoutError e = true → ended (Err e, true) TIMED_OUT d (PassTimedOut d).

(** What one tick begun in [w] says, the rows it adds, whether the driver goes on, and
    where it leaves the world. *)
Inductive ticked (w : W) : list tick_event → list string → bool → W → Prop :=
| ticked_skipped expired w1 : ran w (Ok SKIPPED, expired) w1 →
    ticked w [PassSkipped (elapsed w w1)] [] true w1
| ticked_recorded answer o ev w1 w2 : ran w answer w1 → ended answer o (elapsed w w1) ev →
    reported o (elapsed w w1) (utc_now clocks w) w1 (Ok tt) w2 →
    ticked w [ev; Reports o (elapsed w w1) (utc_now clocks w)] [stamp (utc_now clocks w)] true w2
| ticked_unrecorded answer o ev e added w1 w2 : ran w answer w1 → ended answer o (elapsed w w1) ev →
    reported o (elapsed w w1) (utc_now clocks w) w1 (Err e) w2 → e ≠ CancelledError →
    added = [] ∨ added = [stamp (utc_now clocks w)] →
    ticked w [ev; Reports o (elapsed w w1) (utc_now clocks w); record_failure_event o e] added true w2
| ticked_cancelled expired added w1 : ran w (Err CancelledError, expired) w1 →
    added = [] ∨ added = [stamp (utc_now clocks w)] → ticked w [] added false w1
| ticked_cancelled_reporting answer o ev added w1 w2 : ran w answer w1 → ended answer o (elapsed w w1) ev →
    reported o (elapsed w w1) (utc_now clocks w) w1 (Err CancelledError) w2 →
    added = [] ∨ added = [stamp (utc_now clocks w)] →
    ticked w [ev; Reports o (elapsed w w1) (utc_now clocks w)] added false w2.

(** Before a tick the driver slept its interval, the first at boot aside. *)
Definition woken (boot : bool) (w w' : W) : Prop :=
  if boot then w' = w else sleep clocks (interval_seconds entry) w = (w', Ok tt).

(** A run of ticks from one world to another: each follows a sleep, the first at boot
    aside, adds its rows to those there were, and the driver goes on after every one that
    was not cancelled. *)
Inductive drives : bool → W → list tick_event → list string → nat → bool → W → Prop :=
| drives_none w : drives false w [] [] 0 true w
| drives_woken w w1 : sleep clocks (interval_seconds entry) w = (w1, Err CancelledError) →
    drives false w [] [] 0 false w1
| drives_tick (boot : bool) w0 w w1 w2 says added says' added' n goes :
    woken boot w0 w → ticked w says added true w1 → rows w1 = rows w0 ++ added →
    drives false w1 says' added' n goes w2 →
    drives boot w0 ((if boot then [] else [Sleeps (interval_seconds entry)]) ++ says ++ says')
      (added ++ added') (S n) goes w2
| drives_last (boot : bool) w0 w w1 says added :
    woken boot w0 w → ticked w says added false w1 → rows w1 = rows w0 ++ added →
    drives boot w0 ((if boot then [] else [Sleeps (interval_seconds entry)]) ++ says) added 1 false w1.

Notation drive_state := (drive_state (W := W)).

Section with_services.
Context (Hwired : wired) (Hserved : served).

Definition may_run (s : drive_state) : Prop := ∀ t, (utc_now clocks (around s) ≤ t)%Z → stamp t ∉ rows (around s).

Lemma title_of r : record_kind r = kind → record_title r = stamp (record_started_at r).
Proof. intros Hk. unfold record_title, identity_title. cbn. rewrite Hk, decide_False; [done|apply wired_kind, Hwired]. Qed.

(** One report: at most the run's row is added, and it is there once the report succeeds. *)
Lemma run_report_spec o d t w w' answer :
  run_report recorder kind (pass_name entry) (utc_now clocks) o d t w = (w', answer) →
  ((stamp t ∈ rows w ∧ rows w' = rows w)
   ∨ stamp t ∉ rows w ∧ (rows w' = rows w ++ [stamp t] ∨ rows w' = rows w ∧ answer ≠ Ok tt)
   ∨ rows w' = rows w ∧ answer ≠ Ok tt)
  ∧ (utc_now clocks w ≤ utc_now clocks w')%Z.
Proof.
  unfold run_report, record. set (r := {| record_kind := kind; record_name := _; record_outcome := _;
    record_duration := _; record_started_at := t; recorded_at := _ |}).
  change (record_kind r) with kind. rewrite (wired_destination Hwired), (wired_sink Hwired).
  pose proof (served_holds Hserved r w) as Hh. pose proof (title_of r eq_refl) as Ht. cbn in Ht.
  destruct (holds_record sink destination r w) as [w1 [present|e]]; destruct Hh as (Hr & Hclk & Hb).
  2: { intros [= <- <-]. split; [|done]. do 2 right. done. }
  specialize (Hb _ eq_refl). subst present. rewrite Ht. case_bool_decide as Hin.
  { intros [= <- <-]. split; [|done]. by left. }
  pose proof (served_write Hserved r w1) as Hw. rewrite Ht, Hr in Hw.
  destruct (write_record sink destination r w1) as [w2 [[]|e]]; destruct Hw as [Hw Hclk'];
    intros [= <- <-]; (split; [|lia]); right; left; (split; [done|]).
  - destruct Hw as [Hw|[_ Hw]]; [by left|done].
  - destruct Hw as [Hw|[Hw _]]; [by left|by right].
Qed.

Lemma cancelled_or_not (e : exn) : e = CancelledError ∨ e ≠ CancelledError.
Proof. destruct e; (by left) || (by right). Qed.

Notation at_ s := (utc_now clocks (around s)).

Lemma report_spec o d ev answer s0 s s' r :
  stamp (at_ s0) ∉ rows (around s0) →
  rows (around s) = rows (around s0) ∨ rows (around s) = rows (around s0) ++ [stamp (at_ s0)] →
  ran (around s0) answer (around s) → d = elapsed (around s0) (around s) → ended answer o d ev →
  _report entry o d (at_ s0) s = (s', r) →
  ∃ says added, said s' = said s ++ says ∧ rows (around s') = rows (around s0) ++ added
    ∧ ticked (around s0) (ev :: says) added (is_ok r) (around s') ∧ (r = Ok tt ∨ r = Err CancelledError).
Proof.
  set (t := at_ s0). set (R := rows (around s0)). intros Hfresh HR Hran -> Hev.
  unfold _report. rewrite (wired_report Hwired). cbv zeta. cbn [around say said].
  set (d := elapsed (around s0) (around s)) in *.
  destruct (run_report _ _ _ _ _ _ _ _) as [w answer'] eqn:E. pose proof E as (Hrows & _)%run_report_spec.
  assert (∃ added, rows w = R ++ added ∧ (added = [] ∨ added = [stamp t])
    ∧ (answer' = Ok tt → added = [stamp t])) as (added & Hw & Hadded & Hok).
  { destruct Hrows as [[Hin Hw]|[[Hnin Hw]|[Hw Hne]]].
    - destruct HR as [HR|HR]; [by rewrite HR in Hin|]. exists [stamp t]. rewrite Hw. auto.
    - destruct HR as [HR|HR]; [|rewrite HR in Hnin; set_solver]. rewrite HR in Hw.
      destruct Hw as [Hw|[Hw Hne]]; [by exists [stamp t]; auto|exists []; rewrite app_nil_r; naive_solver].
    - destruct HR as [HR|HR]; rewrite HR in Hw; [exists []; rewrite app_nil_r|exists [stamp t]]; naive_solver. }
  destruct answer' as [[]|e]; [|destruct (cancelled_or_not e) as [->|Hne]].
  - intros [= <- <-]. exists [Reports o d t], added. cbn [around said is_ok]. rewrite (Hok eq_refl) in *.
    split_and!; auto. by eapply ticked_recorded.
  - intros [= <- <-]. exists [Reports o d t], added. cbn [around said is_ok]. split_and!; auto.
    by eapply ticked_cancelled_reporting.
  - intros Heq. assert ((s', r) = (say (record_failure_event o e) {| around := w; said := said s ++ [Reports o d t] |}, Ok tt))
      as [= -> ->] by (rewrite <-Heq; by destruct e).
    exists [Reports o d t; record_failure_event o e], added.
    cbn [around said is_ok say]. rewrite <-app_assoc. split_and!; auto. by eapply ticked_unrecorded.
Qed.

Lemma tick_spec s s' r :
  may_run s → _tick clocks entry s = (s', r) →
  ∃ says added, said s' = said s ++ says ∧ rows (around s') = rows (around s) ++ added
    ∧ ticked (around s) says added (is_ok r) (around s') ∧ (r = Ok tt ∨ r = Err CancelledError).
Proof.
  intros Hfresh. unfold _tick. cbv zeta. pose proof (served_run Hserved (around s)) as Hrun.
  specialize (Hfresh _ (Z.le_refl _)).
  destruct (run_within entry _ (at_ s) (around s)) as [w [answer expired]] eqn:Er. destruct Hrun as [HR Hclk].
  assert (ran (around s) (answer, expired) w) as Hran by done.
  assert (rows w = rows (around s) ∨ rows w = rows (around s) ++ [stamp (at_ s)]) as HR' by naive_solver.
  change (loop_time clocks w - loop_time clocks (around s))%Z with (elapsed (around s) w).
  assert (∀ o ev, ended (answer, expired) o (elapsed (around s) w) ev →
    _report entry o (elapsed (around s) w) (at_ s) (say ev {| around := w; said := said s |}) = (s', r) →
    ∃ says added, said s' = said s ++ says ∧ rows (around s') = rows (around s) ++ added
      ∧ ticked (around s) says added (is_ok r) (around s') ∧ (r = Ok tt ∨ r = Err CancelledError)) as Hreport.
  { intros o ev Hev E. eapply report_spec in E as (says & added & Hsaid & Hrows & Ht & Hr); [|done..].
    cbn [around said say] in *. exists (ev :: says), added. by rewrite Hsaid, <-app_assoc. }
  destruct answer as [[]|e].
  - apply Hreport. constructor.
  - intros [= <- <-]. exists [PassSkipped (elapsed (around s) w)], []. cbn [around said is_ok say]. rewrite app_nil_r.
    split_and!; [done|by destruct HR as [HR|[_ HR]]|by eapply ticked_skipped|by left].
  - destruct (cancelled_or_not e) as [->|Hne].
    + intros [= <- <-]. cbn [around said is_ok].
      destruct HR' as [HR'|HR']; [exists [], []|exists [], [stamp (at_ s)]]; rewrite ?app_nil_r;
        split_and!; auto; eapply ticked_cancelled; eauto.
    + intros E. assert ((if is_TimeoutError e && expired
        then _report entry TIMED_OUT (elapsed (around s) w) (at_ s)
               (say (PassTimedOut (elapsed (around s) w)) {| around := w; said := said s |})
        else _report entry FAILED (elapsed (around s) w) (at_ s)
               (say (PassFailed e (elapsed (around s) w)) {| around := w; said := said s |})) = (s', r)) as E'
        by (rewrite <-E; by destruct e).
      clear E. destruct (is_TimeoutError e && expired) eqn:Hto.
      * apply andb_true_iff in Hto as [Hto ->]. by apply (Hreport _ _ (ended_timed_out _ _ Hto)).
      * by apply (Hreport _ _ (ended_failed _ _ _ Hne Hto)).
Qed.

(** After a tick, a later one may run. *)
Definition ready (s : drive_state) : Prop := ∀ t, (utc_now clocks (around s) < t)%Z → stamp t ∉ rows (around s).

Lemma ticked_rows w says added goes w' x : ticked w says added goes w' → x ∈ added → x = stamp (utc_now clocks w).
Proof.
  intros Ht Hx. inversion Ht; subst; try (by apply elem_of_nil in Hx);
    try (by apply list_elem_of_singleton in Hx);
    repeat match goal with H : _ = [] ∨ _ |- _ => destruct H as [->| ->] end;
    try (by apply elem_of_nil in Hx); by apply list_elem_of_singleton in Hx.
Qed.
Lemma ticked_once w says added goes w' : ticked w says added goes w' → NoDup added.
Proof.
  intros Ht. inversion Ht; subst; repeat match goal with H : _ = [] ∨ _ |- _ => destruct H as [->| ->] end;
    first [apply NoDup_nil_2|apply NoDup_singleton].
Qed.

Lemma ran_clock w answer w' : ran w answer w' → (utc_now clocks w ≤ utc_now clocks w')%Z.
Proof. unfold ran. intros E. pose proof (served_run Hserved w) as Hr. rewrite E in Hr. by destruct answer, Hr. Qed.
Lemma reported_clock o d t w answer w' : reported o d t w answer w' → (utc_now clocks w ≤ utc_now clocks w')%Z.
Proof. by intros [_ ?]%run_report_spec. Qed.
Lemma woken_clock boot w w' : woken boot w w' →
  rows w' = rows w ∧ (if boot then utc_now clocks w ≤ utc_now clocks w' else utc_now clocks w < utc_now clocks w')%Z.
Proof.
  destruct boot; cbn [woken]; [intros ->; split; [done|lia]|]. intros E.
  pose proof (served_sleep Hserved w) as Hs. rewrite E in Hs. by destruct Hs as (? & ? & _).
Qed.
Lemma ticked_clock w says added goes w' : ticked w says added goes w' → (utc_now clocks w ≤ utc_now clocks w')%Z.
Proof.
  intros Ht. inversion Ht; subst;
    repeat match goal with
    | H : ran _ _ _ |- _ => apply ran_clock in H
    | H : reported _ _ _ _ _ _ |- _ => apply reported_clock in H
    end; lia.
Qed.

Lemma ticked_ready s s' says added goes :
  may_run s → ticked (around s) says added goes (around s') →
  rows (around s') = rows (around s) ++ added → ready s'.
Proof.
  intros Hm Ht HR t Hlt. pose proof (ticked_clock _ _ _ _ _ Ht). rewrite HR, elem_of_app. intros [Hin|Hin].
  - by apply (Hm t); [lia|].
  - apply (ticked_rows _ _ _ _ _ _ Ht) in Hin. apply stamp_inj in Hin. lia.
Qed.

(** A tick and what follows it. *)
Lemma tick_then boot w0 s1 s2 r2 s' r count rest :
  woken boot w0 (around s1) → may_run s1 → _tick clocks entry s1 = (s2, r2) →
  (r2 = Ok tt → ready s2 → ∃ says added n, said s' = said s2 ++ says ∧ rows (around s') = rows (around s2) ++ added
     ∧ drives false (around s2) says added n (is_ok r) (around s')
     ∧ (r = Ok tt ∧ n = rest ∨ r = Err CancelledError)) →
  (r2 = Err CancelledError → (s', r) = (s2, r2)) → count = S rest →
  ∃ says added n, said s' = said s1 ++ says ∧ rows (around s') = rows w0 ++ added
    ∧ drives boot w0 ((if boot then [] else [Sleeps (interval_seconds entry)]) ++ says) added n (is_ok r) (around s')
    ∧ (r = Ok tt ∧ n = count ∨ r = Err CancelledError).
Proof.
  intros Hwake Hm Et Hgo Hstop ->. destruct (woken_clock _ _ _ Hwake) as [HR _].
  destruct (tick_spec _ _ _ Hm Et) as (says & added & Hs & Hrows & Htick & Hr).
  assert (rows (around s2) = rows w0 ++ added) as Hrows0 by by rewrite Hrows, HR.
  destruct Hr as [-> | ->].
  - destruct (Hgo eq_refl (ticked_ready _ _ _ _ _ Hm Htick Hrows)) as (says' & added' & n & Hs' & Hrows' & Hdr & Hend).
    exists (says ++ says'), (added ++ added'), (S n). rewrite Hs', Hs, Hrows', Hrows0, <-!app_assoc.
    split_and!; [done|done|by eapply drives_tick|]. by destruct Hend as [[-> ->]|?]; auto.
  - specialize (Hstop eq_refl) as [= -> ->]. exists says, added, 1.
    split_and!; [done|done|by eapply drives_last|by right].
Qed.

Lemma turns_spec n s s' r :
  ready s → turns clocks entry n s = (s', r) →
  ∃ says added count, said s' = said s ++ says ∧ rows (around s') = rows (around s) ++ added
    ∧ drives false (around s) says added count (is_ok r) (around s')
    ∧ (r = Ok tt ∧ count = n ∨ r = Err CancelledError).
Proof.
  revert s. induction n as [|n IH]; intros s Hready; cbn [turns].
  { intros [= <- <-]. exists [], [], 0. rewrite !app_nil_r. split_and!; [done|done|constructor|by left]. }
  unfold turn. pose proof (served_sleep Hserved (around s)) as Hsleep.
  destruct (sleep clocks (interval_seconds entry) (around s)) as [w [[]|e]] eqn:Esl;
    destruct Hsleep as (HR & Hc & He).
  2: { specialize (He _ eq_refl) as ->. intros [= <- <-]. exists [], [], 0. cbn [around said is_ok]. rewrite !app_nil_r.
       split_and!; [done|done|by constructor|by right]. }
  set (s1 := say (Sleeps (interval_seconds entry)) {| around := w; said := said s |}).
  assert (may_run s1) as Hm.
  { intros t Ht. cbn in *. rewrite HR. apply Hready. lia. }
  destruct (_tick clocks entry s1) as [s2 r2] eqn:Et. intros Hrest.
  destruct (tick_then false (around s) s1 s2 r2 s' r (S n) n) as (says & added & count & Hs & Hrows & Hd & Hend);
    [done|done|done| | |done|].
  - intros -> Hready2. by apply IH.
  - intros ->. by rewrite Hrest.
  - exists ([Sleeps (interval_seconds entry)] ++ says), added, count. rewrite Hs. cbn [say said s1].
    rewrite <-app_assoc. by split_and!.
Qed.

Lemma drives_rows b w0 says added n goes w1 :
  drives b w0 says added n goes w1 →
  NoDup added ∧ ∀ x, x ∈ added → ∃ t, x = stamp t
    ∧ (if b then utc_now clocks w0 ≤ t else utc_now clocks w0 < t)%Z.
Proof.
  induction 1 as [w|w w1 _|boot w0 w w1 w2 says added says' added' n goes Hw Ht _ _ [Hnd Hx]|boot w0 w w1 says added Hw Ht _].
  - split; [constructor|by intros x ?%elem_of_nil].
  - split; [constructor|by intros x ?%elem_of_nil].
  - pose proof (ticked_clock _ _ _ _ _ Ht). apply woken_clock in Hw as [_ Hlt]. split.
    + apply NoDup_app. split; [by eapply ticked_once|]. split; [|done].
      intros x Hin (t' & -> & Ht')%Hx. apply (ticked_rows _ _ _ _ _ _ Ht), stamp_inj in Hin. lia.
    + intros x [Hin|Hin]%elem_of_app; [exists (utc_now clocks w); split; [by eapply ticked_rows|done]|].
      destruct (Hx x Hin) as (t' & -> & Ht'). exists t'. split; [done|]. destruct boot; lia.
  - apply woken_clock in Hw as [_ Hlt]. split; [by eapply ticked_once|].
    intros x Hin. exists (utc_now clocks w). split; [by eapply ticked_rows|done].
Qed.

Lemma drive_spec n s s' r :
  may_run s → _drive clocks entry n s = (s', r) →
  ∃ says added count, said s' = said s ++ says ∧ rows (around s') = rows (around s) ++ added
    ∧ drives (tick_at_boot entry) (around s) says added count (is_ok r) (around s')
    ∧ (r = Ok tt ∧ count = (if tick_at_boot entry then S n else n) ∨ r = Err CancelledError).
Proof.
  intros Hm. unfold _drive. destruct (tick_at_boot entry).
  - destruct (_tick clocks entry s) as [s1 r1] eqn:Et. intros Hrest.
    eapply (tick_then true (around s) s s1 r1 s' r (S n) n); [done|done|done| | |done].
    + intros -> Hready. by apply turns_spec.
    + intros ->. by rewrite Hrest.
  - apply turns_spec. intros t Ht. apply Hm. lia.
Qed.
End with_services.

(** C17. A driver keeps its cadence through every end of its pass, and each run leaves at
    most one record. Only a cancellation stops it; between two ticks it sleeps the
    configured interval; a tick says once how its run ended, by what the run itself
    answered ([ended]: ran, raised, or cut by its own budget), and reports that outcome
    under the instant it began; a run that answered [SKIPPED] says so, reports nowhere and
    adds no row. A failure to record is said and contained. The rows of the destination are
    what they were and those each tick added: exactly one where the report succeeded,
    whether the session or the recorder wrote it, none or one where recording failed or the
    tick was cancelled; and no run has two. *)
Theorem one_row_per_run n s :
  wired → served → may_run s →
  let '(s', r) := _drive clocks entry n s in
  (r = Ok tt ∨ r = Err CancelledError)
  ∧ ∃ says added count, said s' = said s ++ says ∧ rows (around s') = rows (around s) ++ added
    ∧ NoDup added ∧ (∀ x, x ∈ added → x ∉ rows (around s))
    ∧ drives (tick_at_boot entry) (around s) says added count (is_ok r) (around s')
    ∧ (r = Ok tt → count = if tick_at_boot entry then S n else n).
Proof.
  intros Hwired Hserved Hm. destruct (_drive clocks entry n s) as [s' r] eqn:E.
  destruct (drive_spec Hwired Hserved _ _ _ _ Hm E) as (says & added & count & Hs & Hr & Hd & Hend).
  split; [destruct Hend as [[? _]|?]; auto|]. destruct (drives_rows Hwired Hserved _ _ _ _ _ _ _ Hd) as [Hnd Hx].
  exists says, added, count. repeat split; try done.
  - intros x (t & -> & Ht)%Hx. apply Hm. destruct (tick_at_boot entry); lia.
  - intros ->. by destruct Hend as [[_ ?]|?].
Qed.
End driven.

(** ** A concrete pass *)

#[local] Instance plain_stamps : Stamps := λ t, pretty t.
#[local] Instance plain_stamps_laws : StampsLaws.
Proof. intros t t'. apply (inj pretty). Qed.

Record desk := { clock_at : Z; log_rows : list string }.
Definition later (seconds : Z) (w : desk) : desk := {| clock_at := clock_at w + seconds; log_rows := log_rows w |}.

Definition desk_clocks : Clocks desk := {|
  loop_time := clock_at; utc_now := clock_at; sleep seconds w := (later seconds w, Ok tt) |}.

Definition desk_sink : RunRecordSink desk := {|
  holds_record _ r w := (w, Ok (bool_decide (record_title r ∈ log_rows w)));
  write_record _ r w := ({| clock_at := clock_at w; log_rows := log_rows w ++ [record_title r] |}, Ok tt) |}.

Definition desk_destination : RecordDestination := {|
  destination_system := SYSTEM_TRACKER; destination_name := "log"; destination_id := "d";
  append_only := true; outcome_mapping := None; record_columns := None |}.

Definition desk_recorder : RunRecorder desk := {|
  recorder_records := [("grooming", desk_destination)]; recorder_sinks := [(SYSTEM_TRACKER, desk_sink)] |}.

(** It runs for five seconds, and its session fails until a minute has passed. *)
Definition desk_pass : ScheduledPass desk := {|
  pass_name := "grooming_pass"; interval_seconds := 60; timeout_seconds := 30;
  run_within _ started w :=
    (later 5 w, (if decide (clock_at w < 60)%Z then Err (RuntimeError "no session") else Ok RAN, false));
  report := Some (run_report desk_recorder RUN_GROOMING "grooming_pass" clock_at);
  tick_at_boot := true |}.

Definition desk_start : drive_state (W := desk) := {| around := {| clock_at := 1; log_rows := [] |}; said := [] |}.

Lemma desk_drive_rows : log_rows (around (_drive desk_clocks desk_pass 1 desk_start).1) = ["1"; "66"].
Proof. vm_compute. reflexivity. Qed.

Lemma desk_served : served desk_clocks desk_destination desk_sink desk_pass log_rows.
Proof.
  constructor.
  - intros r w. cbn. repeat split; [lia|]. by intros b [= <-].
  - intros r w. cbn. split; [by left|lia].
  - intros w. cbn. split; [by left|lia].
  - intros w. cbn. repeat split; [lia|done].
Qed.

Example one_row_per_run_witness :
  log_rows (around (_drive desk_clocks desk_pass 1 desk_start).1) = ["1"; "66"]
  ∧ NoDup (log_rows (around (_drive desk_clocks desk_pass 1 desk_start).1)).
Proof.
  split; [exact desk_drive_rows|].
  pose proof (one_row_per_run desk_clocks desk_recorder RUN_GROOMING desk_destination desk_sink desk_pass log_rows
    1 desk_start) as Hone.
  destruct (_drive desk_clocks desk_pass 1 desk_start) as [s' r].
  destruct Hone as [_ (says & added & count & _ & Hrows & Hnd & _)].
  - constructor; [reflexivity|discriminate|reflexivity|reflexivity].
  - exact desk_served.
  - intros t _. apply not_elem_of_nil.
  - cbn [fst]. rewrite Hrows. exact Hnd.
Defined.
