(* ===== verification/RunAlarm.v ===== *)
(** * Alarms over a run's recorded shape (types/domain/run_alarm.py, mandate_graph.py,
    escalation.py, node_session.py, domain/run_alarm_record.py).

    An alarm is a signal over a subject with the typed readings it was raised from, kept
    as one comment whose marker is its whole subject and its signal. The transitions of a
    record are announced on its lane's stream. *)

From Stdlib Require Import Ascii.
From S2P Require Import Prelude PyStr PyLines Tracker Errors BaseResolution LaneRecord Surface.
From S2P Require Import CommentMarkers RunEvents Operation RunRecords.

Local Open Scope nat_scope.

(** ** Signals and subjects (types/domain/run_alarm.py) *)

Inductive AlarmSignal :=
| TALLY_UNMOVED | TALLY_REGRESSED | LAPSE_UNDISCHARGED | ESCALATION_AGEING
| WRITE_BACK_MISSING | SURFACE_CONTENDED | RECORD_SUPERSEDED | COMPOSITION_SUBSTITUTED
| BARREN_TICK_WITH_DIFF_GROWTH | COMMITS_AHEAD_OF_RECORD | RULINGS_OUTPACE_CLOSURES
| STRUCTURAL_WRITE_UNCROSSES_MILESTONE.
#[export] Instance AlarmSignal_eq_dec : EqDecision AlarmSignal.
Proof. solve_decision. Defined.
Definition alarm_signal_value (s : AlarmSignal) : string :=
  match s with
  | TALLY_UNMOVED => "tally_unmoved" | TALLY_REGRESSED => "tally_regressed"
  | LAPSE_UNDISCHARGED => "lapse_undischarged" | ESCALATION_AGEING => "escalation_ageing"
  | WRITE_BACK_MISSING => "write_back_missing" | SURFACE_CONTENDED => "surface_contended"
  | RECORD_SUPERSEDED => "record_superseded" | COMPOSITION_SUBSTITUTED => "composition_substituted"
  | BARREN_TICK_WITH_DIFF_GROWTH => "barren_tick_with_diff_growth"
  | COMMITS_AHEAD_OF_RECORD => "commits_ahead_of_record"
  | RULINGS_OUTPACE_CLOSURES => "rulings_outpace_closures"
  | STRUCTURAL_WRITE_UNCROSSES_MILESTONE => "structural_write_uncrosses_milestone"
  end.

Inductive AlarmSubject :=
| ScopeSubject (scope : string)
| LaneSubject (scope lane : string)
| IssueSubject (scope issue : string) (lane : option string)
| CriterionSubject (scope issue member : string) (lane : option string)
| SurfaceSubject (scope : string) (surface : WritableSurface) (lane issue : option string)
| EscalationSubject (scope member : string) (lane issue : option string).
#[export] Instance AlarmSubject_eq_dec : EqDecision AlarmSubject.
Proof. solve_decision. Defined.
Definition subject_scope (s : AlarmSubject) : string :=
  match s with
  | ScopeSubject k | LaneSubject k _ | IssueSubject k _ _ | CriterionSubject k _ _ _
  | SurfaceSubject k _ _ _ | EscalationSubject k _ _ _ => k
  end.

(** ** Evidence *)

Record LaneFieldValue := { field_lane : string; field_key : string; field_value : string }.
#[export] Instance LaneFieldValue_eq_dec : EqDecision LaneFieldValue.
Proof. solve_decision. Defined.

Record LaneTally := { tally_open : list string; tally_commits : list string }.
#[export] Instance LaneTally_eq_dec : EqDecision LaneTally.
Proof. solve_decision. Defined.

(** types/domain/run_state.py *)
Record LaneEscalation := {
  escalation_issue : string;
  escalation_key : string;
  escalation_raised_by : string;
  question_text : string;
  interim_text : string;
  interim_basis : string;
  escalation_sha : string;
}.
#[export] Instance LaneEscalation_eq_dec : EqDecision LaneEscalation.
Proof. solve_decision. Defined.

(** types/domain/escalation.py *)
Inductive EscalationResolutionState := UNRESOLVED | RESOLVED.
#[export] Instance EscalationResolutionState_eq_dec : EqDecision EscalationResolutionState.
Proof. solve_decision. Defined.
Record EscalationResolution := {
  resolution_state : EscalationResolutionState;
  resolution_decision : option string;
}.
#[export] Instance EscalationResolution_eq_dec : EqDecision EscalationResolution.
Proof. solve_decision. Defined.
Definition resolution_valid (r : EscalationResolution) : bool :=
  bool_decide (resolution_decision r ≠ Some "")
  && bool_decide (resolution_state r = RESOLVED ↔ resolution_decision r ≠ None).

(** types/domain/agent.py, types/domain/mandate_graph.py *)
Inductive RulingAuthor := MACHINE | PRINCIPAL_AUTHOR.
#[export] Instance RulingAuthor_eq_dec : EqDecision RulingAuthor.
Proof. solve_decision. Defined.
Record RulingAuthorship := { ruling_id : string; ruling_issue : string; authored_by : RulingAuthor }.
#[export] Instance RulingAuthorship_eq_dec : EqDecision RulingAuthorship.
Proof. solve_decision. Defined.
Record LaneRulingSnapshot := {
  rulings_lane : string;
  rulings_issues : list string;
  rulings : list RulingAuthorship;
}.
#[export] Instance LaneRulingSnapshot_eq_dec : EqDecision LaneRulingSnapshot.
Proof. solve_decision. Defined.
Record IssueSupersession := { superseded_issue : string; supersession_ref : string }.
#[export] Instance IssueSupersession_eq_dec : EqDecision IssueSupersession.
Proof. solve_decision. Defined.
Record LaneGraphSnapshot := {
  graph_lane : string;
  fire_key : string;
  milestone : ScopeRef;
  subtree : list TrackerIssue;
  milestone_members : list TrackerIssue;
  supersessions : list IssueSupersession;
}.
#[export] Instance LaneGraphSnapshot_eq_dec : EqDecision LaneGraphSnapshot.
Proof. solve_decision. Defined.

Record RunEventProjection := { projected_kind : RunEventKind; projected_subject : option string }.
#[export] Instance RunEventProjection_eq_dec : EqDecision RunEventProjection.
Proof. solve_decision. Defined.

Inductive AlarmEvidence :=
| TextEvidence (text : string)
| CountEvidence (count : nat)
| PresenceEvidence (present : bool)
| ReferencesEvidence (refs : list string)
| LabelsEvidence (labels : option (list string))
| SurfaceEvidence (surface : WritableSurface)
| EscalationEvidence (escalation : LaneEscalation)
| ResolutionEvidence (resolution : EscalationResolution)
| CommitsEvidence (commits : list LaneCommit)
| LaneFieldEvidence (field : LaneFieldValue)
| TallyEvidence (tally : LaneTally)
| ScopeEvidence (scope : ScopeRef)
| StateEvidence (kind : WorkflowStateKind)
| RunEventsEvidence (events : list RunEventProjection)
| RulingsEvidence (snapshot : LaneRulingSnapshot)
| GraphEvidence (snapshot : LaneGraphSnapshot).
#[export] Instance AlarmEvidence_eq_dec : EqDecision AlarmEvidence.
Proof. solve_decision. Defined.

Record AlarmReading := { source_ref : string; evidence : AlarmEvidence; at_sha : option string }.
#[export] Instance AlarmReading_eq_dec : EqDecision AlarmReading.
Proof. solve_decision. Defined.
Record AlarmBound := { config_field : string; configured_value : nat; observed_value : nat }.
#[export] Instance AlarmBound_eq_dec : EqDecision AlarmBound.
Proof. solve_decision. Defined.
Record RunAlarm := {
  subject : AlarmSubject;
  signal : AlarmSignal;
  readings : list AlarmReading;
  bound : option AlarmBound;
  raised_at_sha : string;
  raised_by : string;
}.
#[export] Instance RunAlarm_eq_dec : EqDecision RunAlarm.
Proof. solve_decision. Defined.

(** *** The constraints pydantic checks *)

Definition identity (s : string) : bool := negb (str_blank s).
Definition identities (l : list string) : bool := forallb identity l.
Definition subject_valid (s : AlarmSubject) : bool :=
  identities (match s with
    | ScopeSubject k => [k]
    | LaneSubject k l => [k; l]
    | IssueSubject k i l => k :: i :: option_list l
    | CriterionSubject k i m l => k :: i :: m :: option_list l
    | SurfaceSubject k _ l i => k :: option_list l ++ option_list i
    | EscalationSubject k m l i => k :: m :: option_list l ++ option_list i
    end).
Definition evidence_valid (e : AlarmEvidence) : bool :=
  match e with
  | ReferencesEvidence l => identities l
  | LabelsEvidence l => identities (default [] l)
  | LaneFieldEvidence f => identities [field_lane f; field_key f]
  | TallyEvidence t => identities (tally_open t ++ tally_commits t)
  | RunEventsEvidence es => identities (es ≫= λ e, option_list (projected_subject e))
  | ResolutionEvidence r => resolution_valid r
  | EscalationEvidence q =>
      forallb (λ s, negb (bool_decide (s = "")))
        [escalation_issue q; escalation_key q; escalation_raised_by q; question_text q;
         interim_basis q; escalation_sha q] && identity (interim_text q)
  | RulingsEvidence s =>
      identities (rulings_lane s :: rulings_issues s
        ++ (rulings s ≫= λ r, [ruling_id r; ruling_issue r]))
  | GraphEvidence s =>
      identities (graph_lane s :: fire_key s
        :: (supersessions s ≫= λ x, [superseded_issue x; supersession_ref x]))
  | TextEvidence _ | CountEvidence _ | PresenceEvidence _ | SurfaceEvidence _ | CommitsEvidence _
  | ScopeEvidence _ | StateEvidence _ => true
  end.
Definition reading_valid (r : AlarmReading) : bool :=
  identities (source_ref r :: option_list (at_sha r)) && evidence_valid (evidence r).
Definition alarm_valid (a : RunAlarm) : bool :=
  subject_valid (subject a) && negb (bool_decide (readings a = [])) && forallb reading_valid (readings a)
  && match bound a with Some b => identity (config_field b) | None => true end
  && identities [raised_at_sha a; raised_by a].

Definition make_reading (r : AlarmReading) : result exn AlarmReading :=
  raise_if (negb (reading_valid r)) (ValidationError "AlarmReading") (Ok r).
Definition make_alarm (a : RunAlarm) : result exn RunAlarm :=
  raise_if (negb (alarm_valid a)) (ValidationError "RunAlarm") (Ok a).

(** ** The record (domain/run_alarm_record.py) *)

(** pydantic: the canonical JSON of a subject, of a surface and of an alarm. *)
Class AlarmJson := {
  dump_subject : AlarmSubject → string;
  dump_surface : WritableSurface → string;
  dump_alarm : RunAlarm → string;
  validate_alarm : string → option RunAlarm;
}.

Definition alarm_subject_key `{AlarmJson} (s : AlarmSubject) : string := dump_subject s.
Definition surface_alarm_member_id `{AlarmJson} (s : WritableSurface) : string := dump_surface s.

Definition MARKER_PURPOSE : string := "run_alarm".
Definition _FENCE_OPEN : string := "```json" +:+ nl.
Definition _FENCE_CLOSE : string := nl +:+ "```".

Section record.
Context `{AlarmJson} (prefixes : pydict string string).

Definition run_alarm_marker (s : AlarmSubject) (g : AlarmSignal) : result exn string :=
  compose_comment_marker prefixes MARKER_PURPOSE (alarm_subject_key s) (Some (alarm_signal_value g)).

Definition run_alarm_surface (issue marker : string) : WritableSurface := marker_surface issue marker.

Definition require_alarm_holder (issue marker : string) (holder : option string) : result exn unit :=
  raise_if (match holder with Some h => str_blank h | None => true end)
    (SurfaceLeaseError "a leased record write names no holder" (run_alarm_surface issue marker) None)
    (Ok tt).

Definition render_run_alarm (a : RunAlarm) : string := _FENCE_OPEN +:+ dump_alarm a +:+ _FENCE_CLOSE.

(** [body[len(fence) : -len(_FENCE_CLOSE)]]; a body too short for both reads "". *)
Definition _record_under (body marker : string) : result exn RunAlarm :=
  let fence := marker +:+ nl +:+ _FENCE_OPEN in
  raise_if (negb (startswith body fence && endswith body _FENCE_CLOSE))
    (ValueError "the alarm record framing is invalid")
    (let payload := str_drop (String.length fence)
                      (str_take (String.length body - String.length _FENCE_CLOSE) body) in
     match validate_alarm payload with
     | None => Err (ValidationError "RunAlarm")
     | Some alarm =>
         raise_if (negb (bool_decide (dump_alarm alarm = payload)))
           (ValueError "the alarm record is not in its canonical form")
           (at_marker ← run_alarm_marker (subject alarm) (signal alarm);
            raise_if (negb (bool_decide (at_marker = marker)))
              (ValueError "the alarm record does not carry the address it is under") (Ok alarm))
     end).

Definition parse_run_alarm (body : string) (s : AlarmSubject) (g : AlarmSignal) : result exn RunAlarm :=
  marker ← run_alarm_marker s g;
  _record_under body marker.

(** [found] and [keys] as one dict: the comment's key and its record, by marker. *)
Definition collect_alarm (issue purpose_prefix : string)
    (found : pydict string (string * RunAlarm)) (c : TrackerComment) :
    result exn (pydict string (string * RunAlarm)) :=
  let marker := first_line (comment_body c) in
  if startswith marker purpose_prefix then
    match dict_get found marker with
    | Some (key, _) => Err (DuplicateCommentMarkerError issue marker [key; comment_key c])
    | None => alarm ← _record_under (comment_body c) marker;
              Ok (dict_set found marker (comment_key c, alarm))
    end
  else Ok found.

Definition run_alarm_records (issue : string) (comments : list TrackerComment) :
    result exn (list RunAlarm) :=
  prefix ← configured_marker_prefix prefixes MARKER_PURPOSE;
  found ← foldM (collect_alarm issue ("[" +:+ prefix +:+ ":")) [] comments;
  Ok (snd <$> dict_values found).
End record.

(** *** Transitions *)

Definition _TRANSITION_KINDS : list RunEventKind := [RUN_ALARM_RAISED; RUN_ALARM_CLEARED].

Definition alarm_event_key (a : RunAlarm) : result exn string :=
  match subject a with
  | LaneSubject _ _ => Ok (alarm_signal_value (signal a))
  | EscalationSubject _ member (Some _) _ => Ok (alarm_signal_value (signal a) +:+ ":" +:+ member)
  | _ => Err (ValueError "an alarm event is keyed to a lane or to a lane's question")
  end.

Definition alarm_event_lane (a : RunAlarm) : result exn string :=
  let refused := Err (ValueError "an alarm event is keyed to a lane") in
  match subject a with
  | LaneSubject _ lane | EscalationSubject _ _ (Some lane) _ => if decide (lane = "") then refused else Ok lane
  | _ => refused
  end.

(** What the stream has said for a key. *)
Definition spoken (key : string) (events : list LaneRunEvent) : list LaneRunEvent :=
  filter (λ e, event_kind e ∈ _TRANSITION_KINDS ∧ subject_key e = Some key) events.

Definition alarm_event_due (a : RunAlarm) (raised : bool) (events : list LaneRunEvent) :
    result exn (option LaneRunEvent) :=
  key ← alarm_event_key a;
  lane ← alarm_event_lane a;
  let agreed := match last (spoken key events) with
                | None => negb raised
                | Some e => Bool.eqb (bool_decide (event_kind e = RUN_ALARM_RAISED)) raised
                end in
  Ok (if agreed then None
      else Some {| event_kind := if raised then RUN_ALARM_RAISED else RUN_ALARM_CLEARED;
                   event_lane := lane; subject_key := Some key; event_sha := None |}).

