(* ===== verification/AlarmRecords.v ===== *)
(** * The alarm records of an issue are read back (domain/run_alarm_record.py).

    Records are written beneath markers composed from their whole address; one listing of an
    issue's comments gives them all, in the order the comments were first made. *)

From stdpp Require Import countable.
From S2P Require Import Prelude PyStr PyLines Tracker Errors BaseResolution LaneRecord Surface.
From S2P Require Import CommentMarkers RunEvents Operation RunRecords RunAlarm.

Local Open Scope nat_scope.

(** ** Lines *)

Lemma unbroken_no_newline m : unbroken m = true → str_all (λ a, negb (bool_decide (a = newline))) m = true.
Proof.
  induction m as [|a m IH]; [done|]. intros Hu. pose proof (unbroken_head _ Hu) as Hh.
  cbn [unbroken str_all] in *. apply andb_true_iff in Hu as [_ Hu]. rewrite IH, andb_true_r by done.
  rewrite negb_true_iff, bool_decide_eq_false. intros ->. by apply Hh.
Qed.

Lemma first_line_app m b :
  str_all (λ a, negb (bool_decide (a = newline))) m = true → first_line (m +:+ nl +:+ b) = m.
Proof.
  unfold first_line. induction m as [|a m IH]; [done|]. cbn [str_all]. intros [Ha Hm]%andb_true_iff.
  apply negb_true_iff, bool_decide_eq_false in Ha.
  change (String a m +:+ nl +:+ b) with (String a (m +:+ nl +:+ b)). cbn [before_char].
  destruct (Ascii.ascii_dec a newline); [done|]. by rewrite IH.
Qed.

Lemma marked_body m text body :
  marked_comment_body m text = Ok body → unbroken m = true → m ≠ "" →
  body = m +:+ nl +:+ text ∧ first_line body = m.
Proof.
  intros Hb Hu Hne. rewrite marked_ok in Hb by done. injection Hb as <-.
  split; [done|]. by apply first_line_app, unbroken_no_newline.
Qed.

Section readback.
Context `{AlarmJson} (prefixes : pydict string string).
Context (Hvalid : marker_prefixes_valid prefixes = true).
Context (Hsubject : ∀ s s', dump_subject s = dump_subject s' → s = s').

(** A comment as the program writes a record. *)
Definition recorded (a : RunAlarm) (c : TrackerComment) : Prop := ∃ marker,
  run_alarm_marker prefixes (subject a) (signal a) = Ok marker
  ∧ marked_comment_body marker (render_run_alarm a) = Ok (comment_body c).

(** What a comment carries: a record, what the program wrote for another purpose, or a text
    whose first line does not begin as a record's marker does. *)
Inductive holds : TrackerComment → option RunAlarm → Prop :=
| holds_record a c :
    recorded a c → validate_alarm (dump_alarm a) = Some a → holds c (Some a)
| holds_other purpose lane occurrence c :
    purpose ≠ MARKER_PURPOSE → written_as prefixes (purpose, lane, occurrence) c → holds c None
| holds_text c :
    (∀ prefix, configured_marker_prefix prefixes MARKER_PURPOSE = Ok prefix →
       startswith (first_line (comment_body c)) ("[" +:+ prefix +:+ ":") = false) →
    holds c None.

Lemma alarm_marker_ok s g marker :
  run_alarm_marker prefixes s g = Ok marker →
  ∃ prefix r, configured_marker_prefix prefixes MARKER_PURPOSE = Ok prefix
    ∧ marker = ("[" +:+ prefix +:+ ":") +:+ r.
Proof.
  unfold run_alarm_marker, compose_comment_marker. intros (p & -> & H')%bind_ok.
  apply raise_if_ok in H' as [_ [= <-]]. exists p.
  exists (quote (alarm_subject_key s) +:+ ":" +:+ quote (alarm_signal_value g) +:+ "]").
  split; [done|]. cbn [option_list fmap list_fmap join]. rewrite <-!str_app_assoc. cbn.
  by rewrite <-!str_app_assoc.
Qed.

Lemma alarm_marker_inj s g s' g' marker :
  run_alarm_marker prefixes s g = Ok marker → run_alarm_marker prefixes s' g' = Ok marker →
  s = s' ∧ alarm_signal_value g = alarm_signal_value g'.
Proof.
  intros H1 H2. destruct (marker_inj prefixes Hvalid _ _ _ _ _ _ _ H1 H2) as (_ & Hs & [= Hg]).
  split; [by apply Hsubject|done].
Qed.

(** The marker of another purpose does not begin as a record's. *)
Lemma other_purpose purpose lane occ marker prefix :
  purpose ≠ MARKER_PURPOSE → compose_comment_marker prefixes purpose lane occ = Ok marker →
  configured_marker_prefix prefixes MARKER_PURPOSE = Ok prefix →
  startswith marker ("[" +:+ prefix +:+ ":") = false.
Proof.
  intros Hne Hm Hp. apply not_true_iff_false. intros (r & Hr)%startswith_spec.
  apply (compose_ok _ Hvalid) in Hm as (p & Hin & Ht & _ & _ & Hm).
  apply (configured_prefix_ok _ Hvalid) in Hp as [Hin' Ht']. apply Hne.
  eapply (prefix_purpose _ Hvalid); [exact Hin|]. rewrite Hm in Hr.
  cbn in Hr. injection Hr as Hr. rewrite <-!str_app_assoc in Hr. cbn in Hr.
  apply (str_split_unique colon) in Hr as [-> _]; [done|by apply prefix_no_colon..].
Qed.

Lemma record_under_written a marker :
  run_alarm_marker prefixes (subject a) (signal a) = Ok marker →
  validate_alarm (dump_alarm a) = Some a →
  _record_under prefixes (marker +:+ nl +:+ render_run_alarm a) marker = Ok a.
Proof.
  intros Hm Hv. unfold _record_under, render_run_alarm. cbv zeta.
  set (fence := marker +:+ nl +:+ _FENCE_OPEN).
  assert (marker +:+ nl +:+ _FENCE_OPEN +:+ dump_alarm a +:+ _FENCE_CLOSE
    = fence +:+ dump_alarm a +:+ _FENCE_CLOSE) as ->.
  { unfold fence. by rewrite !str_app_assoc. }
  assert (String.length (fence +:+ dump_alarm a +:+ _FENCE_CLOSE) - String.length _FENCE_CLOSE
    = String.length (fence +:+ dump_alarm a)) as ->.
  { rewrite !str_length_app. lia. }
  rewrite startswith_app. rewrite str_app_assoc.
  assert (endswith ((fence +:+ dump_alarm a) +:+ _FENCE_CLOSE) _FENCE_CLOSE = true) as ->.
  { apply endswith_spec. by eexists. }
  rewrite str_take_app, str_drop_app, Hv. cbn [negb andb raise_if].
  rewrite bool_decide_true by done. cbn [negb raise_if]. rewrite Hm. cbn [mbind result_bind].
  by rewrite bool_decide_true.
Qed.

Lemma recorded_body a c :
  recorded a c → ∃ marker, run_alarm_marker prefixes (subject a) (signal a) = Ok marker
    ∧ comment_body c = marker +:+ nl +:+ render_run_alarm a ∧ first_line (comment_body c) = marker.
Proof.
  intros (marker & Hm & Hb). exists marker. split; [done|].
  destruct (marker_unbroken prefixes Hvalid _ _ _ _ Hm) as [Hu Hne]. by apply marked_body.
Qed.

(** Reading on from what was found so far. *)
Lemma collect_records issue prefix comments os found :
  configured_marker_prefix prefixes MARKER_PURPOSE = Ok prefix →
  Forall2 holds comments os → NoDup ((λ a, (subject a, signal a)) <$> omap id os) →
  (∀ a marker, a ∈ omap id os → run_alarm_marker prefixes (subject a) (signal a) = Ok marker →
     marker ∉ dict_keys found) →
  ∃ found', foldM (collect_alarm prefixes issue ("[" +:+ prefix +:+ ":")) found comments = Ok found'
    ∧ snd <$> dict_values found' = (snd <$> dict_values found) ++ omap id os.
Proof.
  intros Hp Hos. revert found. induction Hos as [|c o comments os Hc _ IH]; intros found Hnd Hfresh.
  { exists found. by rewrite app_nil_r. }
  cbn [foldM]. unfold collect_alarm at 1. cbv zeta. destruct Hc as [a c Ha Hv|purpose lane occ c Hne Hw|c Ht].
  - cbn in Hnd, Hfresh. apply NoDup_cons in Hnd as [Hn Hnd].
    apply recorded_body in Ha as (marker & Hm & Hb & Hf). rewrite Hf.
    pose proof Hm as (prefix' & r & Hp' & Hr)%alarm_marker_ok. assert (prefix' = prefix) as -> by congruence.
    assert (startswith marker ("[" +:+ prefix +:+ ":") = true) as -> by (rewrite Hr; apply startswith_app).
    rewrite (proj2 (dict_get_None _ _)) by (eapply Hfresh; [by left|done]).
    rewrite Hb, record_under_written by done. cbn [mbind result_bind].
    destruct (IH (dict_set found marker (comment_key c, a)) Hnd) as (found' & -> & Hall).
    { intros b m Hb' Hmb [->|Hin]%elem_of_dict_set_keys; [|by eapply Hfresh; [right|..]].
      apply Hn. destruct (alarm_marker_inj _ _ _ _ _ Hm Hmb) as [Hs Hg].
      apply list_elem_of_fmap. exists b. split; [|done]. f_equal; [done|].
      revert Hg. by destruct (signal a), (signal b). }
    exists found'. split; [done|]. rewrite Hall, dict_set_fresh by (eapply Hfresh; [by left|done]).
    unfold dict_values. rewrite !fmap_app. by rewrite <-app_assoc.
  - destruct Hw as (marker & text & Hm & Hb).
    destruct (marker_unbroken prefixes Hvalid _ _ _ _ Hm) as [Hu Hne'].
    apply marked_body in Hb as [_ Hf]; [|done..]. rewrite Hf, (other_purpose _ _ _ _ _ Hne Hm Hp).
    cbn [mbind result_bind]. by apply IH.
  - rewrite (Ht _ Hp). cbn [mbind result_bind]. by apply IH.
Qed.
(** C22. One listing of an issue's comments gives back every alarm record written there, once
    each and in the comments' order, and nothing else: whatever the program wrote for other
    purposes, and any text whose first line does not begin as a record's marker does, is
    passed over. Each record read alone, at its own subject and signal, is the same alarm. *)
Theorem alarm_records_read_back issue prefix comments os :
  configured_marker_prefix prefixes MARKER_PURPOSE = Ok prefix →
  Forall2 holds comments os → NoDup ((λ a, (subject a, signal a)) <$> omap id os) →
  run_alarm_records prefixes issue comments = Ok (omap id os)
  ∧ ∀ i c a, comments !! i = Some c → os !! i = Some (Some a) →
      parse_run_alarm prefixes (comment_body c) (subject a) (signal a) = Ok a.
Proof.
  intros Hp Hos Hnd. split.
  - unfold run_alarm_records. rewrite Hp. cbn [mbind result_bind].
    destruct (collect_records issue prefix comments os [] Hp Hos Hnd) as (found & -> & Hf); [set_solver|].
    cbn [mbind result_bind]. by rewrite Hf.
  - intros i c a Hc Ha. rewrite Forall2_lookup in Hos. specialize (Hos i). rewrite Hc, Ha in Hos.
    inversion Hos as [? ? Hh|]; subst. inversion Hh as [? ? Hr Hv| |]; subst.
    apply recorded_body in Hr as (marker & Hm & Hb & _). unfold parse_run_alarm. rewrite Hm, Hb.
    cbn [mbind result_bind]. by apply record_under_written.
Qed.
End readback.

(** ** A sample *)

#[export] Instance AlarmSubject_countable : Countable AlarmSubject.
Proof.
  apply (inj_countable'
    (λ s, match s with
          | ScopeSubject k => inl (inl (inl k))
          | LaneSubject k l => inl (inl (inr (k, l)))
          | IssueSubject k i l => inl (inr (inl (k, i, l)))
          | CriterionSubject k i m l => inl (inr (inr (k, i, m, l)))
          | SurfaceSubject k f l i => inr (inl (k, f, l, i))
          | EscalationSubject k m l i => inr (inr (k, m, l, i))
          end)
    (λ x, match x with
          | inl (inl (inl k)) => ScopeSubject k
          | inl (inl (inr (k, l))) => LaneSubject k l
          | inl (inr (inl (k, i, l))) => IssueSubject k i l
          | inl (inr (inr (k, i, m, l))) => CriterionSubject k i m l
          | inr (inl (k, f, l, i)) => SurfaceSubject k f l i
          | inr (inr (k, m, l, i)) => EscalationSubject k m l i
          end)).
  by intros [].
Defined.

Definition sample_alarm (g : AlarmSignal) : RunAlarm := {|
  subject := LaneSubject "S-1" "K-1"; signal := g;
  readings := [{| source_ref := "K-1"; evidence := RunEventsEvidence []; at_sha := Some "c1" |}];
  bound := None; raised_at_sha := "c1"; raised_by := "bot" |}.

Fixpoint pos_text (p : positive) : string :=
  match p with
  | xH => "1"
  | xO p => "0" +:+ pos_text p
  | xI p => "1" +:+ pos_text p
  end.
Lemma pos_text_inj p q : pos_text p = pos_text q → p = q.
Proof.
  assert (∀ r, pos_text r ≠ "") as Hne by (intros []; done).
  revert q. induction p as [p IH|p IH|]; intros [q|q|] E; cbn in E;
    try done; try (injection E as E; f_equal; by apply IH).
  - injection E as E. by destruct (Hne p).
  - injection E as E. by destruct (Hne q).
Qed.

(** A canonical form of subjects, and of the sample alarms. *)
Definition sample_json : AlarmJson := {|
  dump_subject s := pos_text (encode s);
  dump_surface s := pos_text (encode s);
  dump_alarm a := alarm_signal_value (signal a);
  validate_alarm s := first_such (λ a, bool_decide (alarm_signal_value (signal a) = s))
                        [sample_alarm TALLY_REGRESSED; sample_alarm COMPOSITION_SUBSTITUTED] |}.
Definition alarm_prefixes : pydict string string := [("run_alarm", "kz-alarm"); ("run_state", "kz-state")].

Definition sample_marker (g : AlarmSignal) : string :=
  match @run_alarm_marker sample_json alarm_prefixes (subject (sample_alarm g)) g with
  | Ok marker => marker
  | Err _ => ""
  end.
Definition sample_record (g : AlarmSignal) : string :=
  sample_marker g +:+ nl +:+ @render_run_alarm sample_json (sample_alarm g).
Definition sample_text (body : string) : TrackerComment := {|
  comment_key := body; comment_issue_key := "K-1"; author_key := Some "bot";
  comment_body := body; comment_created_at := 0; reply_to := None |}.

Lemma sample_recorded g : @recorded sample_json alarm_prefixes (sample_alarm g) (sample_text (sample_record g)).
Proof. exists (sample_marker g). destruct g; split; vm_compute; reflexivity. Qed.

Example alarm_records_read_back_witness :
  @run_alarm_records sample_json alarm_prefixes "K-1"
    [sample_text "a note"; sample_text (sample_record COMPOSITION_SUBSTITUTED);
     sample_text ("[kz-state:K-1]" +:+ nl +:+ "x"); sample_text (sample_record TALLY_REGRESSED)]
  = Ok [sample_alarm COMPOSITION_SUBSTITUTED; sample_alarm TALLY_REGRESSED].
Proof.
  refine (proj1 (@alarm_records_read_back sample_json alarm_prefixes _ _ "K-1" "kz-alarm" _
    [None; Some (sample_alarm COMPOSITION_SUBSTITUTED); None; Some (sample_alarm TALLY_REGRESSED)] _ _ _)).
  - by vm_compute.
  - intros s s' E. apply (inj encode). by apply pos_text_inj.
  - by vm_compute.
  - apply Forall2_cons; split; [|apply Forall2_cons; split; [|apply Forall2_cons; split;
      [|apply Forall2_cons; split; [|constructor]]]].
    + apply holds_text. intros p [= <-]. by vm_compute.
    + by apply holds_record; [apply sample_recorded|].
    + apply (holds_other _ "run_state" "K-1" None); [done|]. exists "[kz-state:K-1]", "x". by vm_compute.
    + by apply holds_record; [apply sample_recorded|].
  - apply (bool_decide_unpack _). by vm_compute.
Defined.
