(* ===== verification/RunShape.v ===== *)
(** * The signals read off a run's shape (domain/run_shape.py, mandate_graph.py,
    stream_signals.py).

    One function per signal: it takes typed readings in a fixed order, refuses those that
    do not identify what it measures, and answers an alarm over exactly those readings or
    nothing. None of them reads the world. *)

From S2P Require Import Prelude PyStr PyLines Tracker Errors Gap IssueTree BaseResolution LaneRecord Surface.
From S2P Require Import CommentMarkers RunEvents Organize Operation RunRecords RunAlarm.

Local Open Scope nat_scope.

Definition ESCALATION_COMMITS_BOUND : string := "run_alarm_escalation_age_max_commits".
Definition ESCALATION_TICKS_BOUND : string := "run_alarm_escalation_age_max_ticks".
Definition BARREN_FILES_BOUND : string := "run_alarm_barren_tick_max_files_changed".
Definition BARREN_COMMITS_BOUND : string := "run_alarm_barren_tick_max_commits_ahead".
Definition SURFACE_HOLDERS_BOUND : string := "run_alarm_max_surface_holders".
Definition COMMITS_WITHOUT_CLOSURE_BOUND : string := "run_alarm_max_commits_without_closure".
Definition RULINGS_BOUND : string := "run_alarm_max_rulings_without_closure".
Definition TICKET_MARKER_SOURCE : string := phase_marker_source "ticket".
Definition CRITERIA_MARKER_SOURCE : string := phase_marker_source "criteria".

(** The one shape of every signal. *)
Definition SignalFunction : Type :=
  AlarmSubject → list AlarmReading → string → string → result exn (option RunAlarm).

Definition unreadable_reading (g : AlarmSignal) (ref reason : string) : exn :=
  RunShapeReadError (alarm_signal_value g) ref reason.

Definition refuse_if (b : bool) (e : exn) : result exn unit := raise_if b e (Ok tt).

(** *** [read_alarm_value]: the projection of one kind of evidence *)

Definition as_text (e : AlarmEvidence) : option string :=
  match e with TextEvidence v => Some v | _ => None end.
Definition as_count (e : AlarmEvidence) : option nat :=
  match e with CountEvidence v => Some v | _ => None end.
Definition as_presence (e : AlarmEvidence) : option bool :=
  match e with PresenceEvidence v => Some v | _ => None end.
Definition as_references (e : AlarmEvidence) : option (list string) :=
  match e with ReferencesEvidence v => Some v | _ => None end.
Definition as_labels (e : AlarmEvidence) : option (option (list string)) :=
  match e with LabelsEvidence v => Some v | _ => None end.
Definition as_surface (e : AlarmEvidence) : option WritableSurface :=
  match e with SurfaceEvidence v => Some v | _ => None end.
Definition as_escalation (e : AlarmEvidence) : option LaneEscalation :=
  match e with EscalationEvidence v => Some v | _ => None end.
Definition as_resolution (e : AlarmEvidence) : option EscalationResolution :=
  match e with ResolutionEvidence v => Some v | _ => None end.
Definition as_commits (e : AlarmEvidence) : option (list LaneCommit) :=
  match e with CommitsEvidence v => Some v | _ => None end.
Definition as_lane_field (e : AlarmEvidence) : option LaneFieldValue :=
  match e with LaneFieldEvidence v => Some v | _ => None end.
Definition as_tally (e : AlarmEvidence) : option LaneTally :=
  match e with TallyEvidence v => Some v | _ => None end.
Definition as_scope (e : AlarmEvidence) : option ScopeRef :=
  match e with ScopeEvidence v => Some v | _ => None end.
Definition as_state (e : AlarmEvidence) : option WorkflowStateKind :=
  match e with StateEvidence v => Some v | _ => None end.
Definition as_run_events (e : AlarmEvidence) : option (list RunEventProjection) :=
  match e with RunEventsEvidence v => Some v | _ => None end.
Definition as_rulings (e : AlarmEvidence) : option LaneRulingSnapshot :=
  match e with RulingsEvidence v => Some v | _ => None end.
Definition as_graph (e : AlarmEvidence) : option LaneGraphSnapshot :=
  match e with GraphEvidence v => Some v | _ => None end.

Definition read_alarm_value {T} (r : AlarmReading) (expected : AlarmEvidence → option T)
    (g : AlarmSignal) : result exn T :=
  match expected (evidence r) with
  | Some v => Ok v
  | None => Err (unreadable_reading g (source_ref r) "another evidence kind was recorded")
  end.

Definition _identity (r : AlarmReading) (g : AlarmSignal) : result exn string :=
  value ← read_alarm_value r as_text g;
  raise_if (str_blank value) (unreadable_reading g (source_ref r) "recorded identity is empty") (Ok value).

(** An alarm over the readings it was raised from, and what there is instead of one. *)
Definition raises_alarm (s : AlarmSubject) (g : AlarmSignal) (rs : list AlarmReading)
    (b : option AlarmBound) (sha by_ : string) : result exn (option RunAlarm) :=
  alarm ← make_alarm {| subject := s; signal := g; readings := rs; bound := b;
                        raised_at_sha := sha; raised_by := by_ |};
  Ok (Some alarm).
Definition quiet_unless (fires : bool) (raise_it : result exn (option RunAlarm)) :
    result exn (option RunAlarm) := if fires then raise_it else Ok None.

(** [for reading, configured, observed in ...: if observed > configured: ...] *)
Definition exceeded (l : list (AlarmReading * nat * nat)) : option AlarmBound :=
  match first_such (λ x, let '(_, configured, observed) := x in configured <? observed) l with
  | Some (r, configured, observed) =>
      Some {| config_field := source_ref r; configured_value := configured; observed_value := observed |}
  | None => None
  end.

Definition repeats (l : list string) : bool := negb (bool_decide (NoDup l)).
(** [order.index(sha)]; the sha is in the order. *)
Fixpoint index_of (sha : string) (order : list string) : nat :=
  match order with
  | [] => 0
  | s :: order => if decide (s = sha) then 0 else S (index_of sha order)
  end.

Definition subject_lane (s : AlarmSubject) : option string :=
  match s with LaneSubject _ lane => Some lane | _ => None end.
Definition subject_surface (s : AlarmSubject) : option WritableSurface :=
  match s with SurfaceSubject _ surface _ _ => Some surface | _ => None end.

(** ** Records against their history (domain/run_shape.py) *)

Section shape.
Context `{AlarmJson}.

Definition record_superseded : SignalFunction := λ s rs sha by_,
  let g := RECORD_SUPERSEDED in
  match rs with
  | [record; event; commits] =>
      recorded ← read_alarm_value record as_lane_field g;
      asserted ← read_alarm_value event as_lane_field g;
      order ← read_alarm_value commits as_references g;
      _ ← refuse_if (negb (bool_decide (subject_lane s = Some (field_lane recorded)
                                        ∧ field_lane asserted = field_lane recorded)))
            (unreadable_reading g (source_ref event) "readings identify different lanes");
      _ ← refuse_if (negb (bool_decide (field_key asserted = field_key recorded)))
            (unreadable_reading g (source_ref event) "assertions identify different fields");
      _ ← refuse_if (negb (bool_decide (source_ref commits = source_ref record)))
            (unreadable_reading g (source_ref commits) "history identifies another record");
      _ ← refuse_if (repeats order)
            (unreadable_reading g (source_ref commits) "recorded commit order repeats a SHA");
      let known r := match at_sha r with
                     | Some x => if decide (x ∈ order) then Ok x
                                 else Err (unreadable_reading g (source_ref r)
                                   "assertion SHA is absent from recorded history")
                     | None => Err (unreadable_reading g (source_ref r)
                                   "assertion SHA is absent from recorded history")
                     end in
      record_sha ← known record;
      event_sha ← known event;
      quiet_unless (negb (bool_decide (field_value recorded = field_value asserted))
                    && (index_of record_sha order <? index_of event_sha order))
        (raises_alarm s g rs None sha by_)
  | _ => Err (unreadable_reading g (subject_scope s) "incomplete readings")
  end.

Definition write_back_missing : SignalFunction := λ s rs sha by_,
  let g := WRITE_BACK_MISSING in
  match rs with
  | [event_target; record_presence] =>
      owed ← read_alarm_value event_target as_surface g;
      _ ← refuse_if (negb (bool_decide (subject_surface s = Some owed)))
            (unreadable_reading g (source_ref event_target) "subject identifies another surface");
      _ ← refuse_if (negb (bool_decide (source_ref record_presence = surface_alarm_member_id owed)))
            (unreadable_reading g (source_ref record_presence) "record lookup identifies another surface");
      present ← read_alarm_value record_presence as_presence g;
      quiet_unless (negb present) (raises_alarm s g rs None sha by_)
  | _ => Err (unreadable_reading g (subject_scope s) "incomplete readings")
  end.

Definition commits_ahead_of_record : SignalFunction := λ s rs sha by_,
  let g := COMMITS_AHEAD_OF_RECORD in
  match rs with
  | [lane; head; count; rows] =>
      lane_key ← _identity lane g;
      declared_head ← _identity head g;
      declared_count ← read_alarm_value count as_count g;
      commits ← read_alarm_value rows as_commits g;
      _ ← refuse_if (negb (bool_decide (subject_lane s = Some lane_key)))
            (unreadable_reading g (source_ref lane) "subject identifies another lane");
      _ ← mapM (λ r,
             _ ← refuse_if (negb (bool_decide (source_ref r = source_ref lane)))
                   (unreadable_reading g (source_ref r) "readings identify different lane records");
             refuse_if (match at_sha r with
                        | Some x => negb (bool_decide (x = declared_head))
                        | None => false
                        end)
               (unreadable_reading g (source_ref r) "reading SHA differs from the declared head")) rs;
      let shas := commit_sha <$> commits in
      _ ← refuse_if (negb (identities shas) || repeats shas)
            (unreadable_reading g (source_ref rows) "ambiguous recorded commit identities");
      quiet_unless (negb (bool_decide (declared_count = length commits)))
        (raises_alarm s g rs None sha by_)
  | _ => Err (unreadable_reading g (subject_scope s) "incomplete readings")
  end.

(** ** Counts against their bounds *)

Definition escalation_ageing : SignalFunction := λ s rs sha by_,
  let g := ESCALATION_AGEING in
  match rs with
  | [escalation; resolution; commits; ticks; max_commits; max_ticks] =>
      record ← read_alarm_value escalation as_escalation g;
      answer ← read_alarm_value resolution as_resolution g;
      _ ← refuse_if (match s with
                     | EscalationSubject _ member (Some _) issue =>
                         negb (bool_decide (member = escalation_key record
                                            ∧ issue = Some (escalation_issue record)))
                     | _ => true
                     end)
            (unreadable_reading g (source_ref escalation) "subject does not identify this escalation");
      _ ← refuse_if (negb (bool_decide (source_ref resolution = source_ref escalation)))
            (unreadable_reading g (source_ref resolution) "resolution identifies another escalation");
      _ ← refuse_if (negb (bool_decide (source_ref max_commits = ESCALATION_COMMITS_BOUND
                                        ∧ source_ref max_ticks = ESCALATION_TICKS_BOUND)))
            (unreadable_reading g (match s with EscalationSubject _ member _ _ => member | _ => "" end)
              "age bounds do not name their AppConfig fields");
      commit_order ← read_alarm_value commits as_references g;
      tick_age ← read_alarm_value ticks as_count g;
      commit_limit ← read_alarm_value max_commits as_count g;
      tick_limit ← read_alarm_value max_ticks as_count g;
      _ ← refuse_if (repeats commit_order)
            (unreadable_reading g (source_ref commits) "recorded commit order repeats a SHA");
      _ ← refuse_if (negb (bool_decide (escalation_sha record ∈ commit_order)))
            (unreadable_reading g (source_ref commits) "recorded commit order omits the raise SHA");
      let commit_age := length commit_order - index_of (escalation_sha record) commit_order - 1 in
      if decide (resolution_state answer = RESOLVED) then Ok None
      else match exceeded [(max_commits, commit_limit, commit_age); (max_ticks, tick_limit, tick_age)] with
           | Some b => raises_alarm s g rs (Some b) sha by_
           | None => Ok None
           end
  | _ => Err (unreadable_reading g (subject_scope s) "incomplete readings")
  end.

Definition surface_contended : SignalFunction := λ s rs sha by_,
  let g := SURFACE_CONTENDED in
  match rs with
  | [surface; history; max_holders] =>
      address ← read_alarm_value surface as_surface g;
      _ ← refuse_if (negb (bool_decide (subject_surface s = Some address)))
            (unreadable_reading g (source_ref surface) "subject identifies another surface");
      _ ← refuse_if (negb (bool_decide (source_ref surface = source_ref history)))
            (unreadable_reading g (source_ref history) "holder history identifies another source");
      _ ← refuse_if (negb (bool_decide (source_ref max_holders = SURFACE_HOLDERS_BOUND)))
            (unreadable_reading g (source_ref max_holders) "holder bound does not name its AppConfig field");
      holders ← read_alarm_value history as_references g;
      configured ← read_alarm_value max_holders as_count g;
      match exceeded [(max_holders, configured, size (list_to_set holders : gset string))] with
      | Some b => raises_alarm s g rs (Some b) sha by_
      | None => Ok None
      end
  | _ => Err (unreadable_reading g (subject_scope s) "incomplete readings")
  end.

Definition barren_tick_with_diff_growth : SignalFunction := λ s rs sha by_,
  let g := BARREN_TICK_WITH_DIFF_GROWTH in
  match rs with
  | [previous; current; files; commits; max_files; max_commits] =>
      _ ← refuse_if (bool_decide (subject_lane s = None))
            (unreadable_reading g (subject_scope s) "a barren tick requires a lane subject");
      _ ← refuse_if (negb (bool_decide (source_ref max_files = BARREN_FILES_BOUND
                                        ∧ source_ref max_commits = BARREN_COMMITS_BOUND)))
            (unreadable_reading g (subject_scope s) "growth bounds do not name their AppConfig fields");
      previous_open ← read_alarm_value previous as_references g;
      current_closed ← read_alarm_value current as_references g;
      _ ← mapM (λ rl : AlarmReading * list string, refuse_if (repeats rl.2)
             (unreadable_reading g (source_ref rl.1) "a reference identity appears more than once"))
             [(previous, previous_open); (current, current_closed)];
      files_changed ← read_alarm_value files as_count g;
      commits_ahead ← read_alarm_value commits as_count g;
      file_limit ← read_alarm_value max_files as_count g;
      commit_limit ← read_alarm_value max_commits as_count g;
      if existsb (λ k, bool_decide (k ∈ current_closed)) previous_open then Ok None
      else match exceeded [(max_files, file_limit, files_changed);
                           (max_commits, commit_limit, commits_ahead)] with
           | Some b => raises_alarm s g rs (Some b) sha by_
           | None => Ok None
           end
  | _ => Err (unreadable_reading g (subject_scope s) "incomplete readings")
  end.

(** ** The tally of a lane and the barrier of a scope *)

Definition _lane_tally_unmoved (s : AlarmSubject) (lane : string) (rs : list AlarmReading)
    (sha by_ : string) : result exn (option RunAlarm) :=
  let g := TALLY_UNMOVED in
  match rs with
  | [anchor_reading; latest_reading; closed_reading; bound_reading] =>
      _ ← mapM (λ r, refuse_if (negb (bool_decide (source_ref r = lane)))
             (unreadable_reading g (source_ref r) "a tally reading names another lane"))
             [anchor_reading; latest_reading; closed_reading];
      _ ← refuse_if (negb (bool_decide (source_ref bound_reading = COMMITS_WITHOUT_CLOSURE_BOUND)))
            (unreadable_reading g (source_ref bound_reading) "the bound names another configured field");
      anchor ← read_alarm_value anchor_reading as_tally g;
      latest ← read_alarm_value latest_reading as_tally g;
      closed ← read_alarm_value closed_reading as_references g;
      configured ← read_alarm_value bound_reading as_count g;
      _ ← mapM (λ rl : AlarmReading * list string, refuse_if (repeats rl.2)
             (unreadable_reading g (source_ref rl.1) "an identity appears more than once"))
             [(anchor_reading, tally_open anchor); (latest_reading, tally_open latest);
              (closed_reading, closed)];
      _ ← refuse_if (existsb (λ k, negb (bool_decide (k ∈ tally_open anchor))) closed)
            (unreadable_reading g (source_ref closed_reading) "a closed identity was never owed");
      _ ← refuse_if (existsb (λ k, bool_decide (k ∈ tally_open latest)) closed)
            (unreadable_reading g (source_ref closed_reading) "a closed identity is still owed");
      if bool_decide (tally_open latest = []) || negb (bool_decide (closed = [])) then Ok None
      else
        let observed := size ((list_to_set (tally_commits latest) : gset string)
                              ∖ list_to_set (tally_commits anchor)) in
        quiet_unless (configured <? observed)
          (raises_alarm s g rs
             (Some {| config_field := COMMITS_WITHOUT_CLOSURE_BOUND; configured_value := configured;
                      observed_value := observed |}) sha by_)
  | _ => Err (unreadable_reading g lane "incomplete lane tally readings")
  end.

(** [labels[member.source_ref] = ...] over the member readings. *)
Definition member_labels (roster : list string) (labels : pydict string (option (list string)))
    (member : AlarmReading) : result exn (pydict string (option (list string))) :=
  _ ← refuse_if (negb (bool_decide (source_ref member ∈ roster)) || dict_mem labels (source_ref member))
        (unreadable_reading TALLY_UNMOVED (source_ref member) "foreign or repeated member reading");
  value ← read_alarm_value member as_labels TALLY_UNMOVED;
  Ok (dict_set labels (source_ref member) value).
Definition carries_label (labels : pydict string (option (list string))) (label key : string) : bool :=
  bool_decide (label ∈ default [] (default None (dict_get labels key))).

Definition marker_key (r current : AlarmReading) :
    result exn (OrganizeLabelNamespace * string) :=
  value ← _identity r TALLY_UNMOVED;
  match split_label_key value with
  | Ok nk => Ok nk
  | Err _ => Err (unreadable_reading TALLY_UNMOVED (source_ref current) "invalid phase marker key")
  end.

Definition _scope_tally_unmoved (s : AlarmSubject) (scope_name : string) (rs : list AlarmReading)
    (sha by_ : string) : result exn (option RunAlarm) :=
  let g := TALLY_UNMOVED in
  match rs with
  | current :: following :: scope_reading :: roster_reading :: members =>
      _ ← refuse_if (negb (bool_decide (source_ref current = TICKET_MARKER_SOURCE
                                        ∧ source_ref following = CRITERIA_MARKER_SOURCE)))
            (unreadable_reading g scope_name "wrong phase marker sources");
      now ← marker_key current current;
      next ← marker_key following current;
      _ ← refuse_if (negb (bool_decide (now.1 = NS_ISSUE ∧ next.1 = NS_ISSUE ∧ now.2 ≠ next.2)))
            (unreadable_reading g (source_ref current) "distinct issue phase markers required");
      scope ← read_alarm_value scope_reading as_scope g;
      roster ← read_alarm_value roster_reading as_references g;
      _ ← refuse_if (negb (bool_decide (scope_key scope = scope_name
                            ∧ source_ref scope_reading = scope_key scope
                            ∧ source_ref roster_reading = scope_key scope)))
            (unreadable_reading g (source_ref scope_reading) "scope identity disagrees");
      _ ← refuse_if (repeats roster)
            (unreadable_reading g (source_ref roster_reading) "roster repeats a member");
      labels ← foldM (member_labels roster) [] members;
      quiet_unless (negb (forallb (carries_label labels now.2) roster)
                    && existsb (carries_label labels next.2) roster)
        (raises_alarm s g rs None sha by_)
  | _ => Err (unreadable_reading g scope_name "incomplete scope tally readings")
  end.

Definition tally_unmoved : SignalFunction := λ s rs sha by_,
  match s with
  | LaneSubject _ lane => _lane_tally_unmoved s lane rs sha by_
  | ScopeSubject scope => _scope_tally_unmoved s scope rs sha by_
  | _ => Err (unreadable_reading TALLY_UNMOVED (subject_scope s) "no tally arm for this subject")
  end.

(** ** Rulings and membership (domain/mandate_graph.py) *)

(** [authors] and [issues] of [_ruling_authors] as one dict. *)
Definition add_ruling (known : list string) (ref : string)
    (found : pydict string (RulingAuthor * string)) (r : RulingAuthorship) :
    result exn (pydict string (RulingAuthor * string)) :=
  let g := RULINGS_OUTPACE_CLOSURES in
  _ ← refuse_if (negb (bool_decide (ruling_issue r ∈ known)))
        (unreadable_reading g ref "ruling belongs to another lane's issue");
  _ ← refuse_if (match dict_get found (ruling_id r) with
                 | Some (author, issue) => negb (bool_decide (author = authored_by r ∧ issue = ruling_issue r))
                 | None => false
                 end)
        (unreadable_reading g ref "one ruling identity has conflicting authorship");
  Ok (dict_set found (ruling_id r) (authored_by r, ruling_issue r)).
Definition _ruling_authors (snapshot : LaneRulingSnapshot) (ref : string) :
    result exn (pydict string (RulingAuthor * string)) :=
  _ ← refuse_if (repeats (rulings_issues snapshot))
        (unreadable_reading RULINGS_OUTPACE_CLOSURES ref "lane issue identities repeat");
  foldM (add_ruling (rulings_issues snapshot) ref) [] (rulings snapshot).

Definition owners (snapshot : LaneRulingSnapshot) : pydict string string :=
  dict_of ((λ r, (ruling_id r, ruling_issue r)) <$> rulings snapshot).

Definition rulings_outpace_closures : SignalFunction := λ s rs sha by_,
  let g := RULINGS_OUTPACE_CLOSURES in
  match rs with
  | [baseline; current; previous_open; current_closed; max_rulings] =>
      before ← read_alarm_value baseline as_rulings g;
      after ← read_alarm_value current as_rulings g;
      open_refs ← read_alarm_value previous_open as_references g;
      closed_refs ← read_alarm_value current_closed as_references g;
      limit ← read_alarm_value max_rulings as_count g;
      _ ← refuse_if (negb (bool_decide (subject_lane s = Some (rulings_lane before)
                                        ∧ rulings_lane before = rulings_lane after)))
            (unreadable_reading g (source_ref current) "readings identify other lanes");
      _ ← refuse_if (existsb (λ r, negb (bool_decide (source_ref r = source_ref baseline)))
                       [baseline; current; previous_open; current_closed])
            (unreadable_reading g (source_ref current) "window sources differ");
      _ ← refuse_if (negb (bool_decide (source_ref max_rulings = RULINGS_BOUND)))
            (unreadable_reading g (source_ref max_rulings) "incorrect configuration field");
      old_authors ← _ruling_authors before (source_ref baseline);
      authors ← _ruling_authors after (source_ref current);
      _ ← refuse_if (existsb (λ r, match dict_get (owners before) (ruling_id r) with
                                   | Some issue => negb (bool_decide (issue = ruling_issue r))
                                   | None => false
                                   end) (rulings after))
            (unreadable_reading g (source_ref current) "a ruling changed owning issue");
      let count := length (filter (λ ia : string * (RulingAuthor * string),
                     ia.2.1 = MACHINE ∧ dict_mem old_authors ia.1 = false) authors) in
      if existsb (λ k, bool_decide (k ∈ closed_refs)) open_refs then Ok None
      else quiet_unless (limit <? count)
        (raises_alarm s g rs
           (Some {| config_field := RULINGS_BOUND; configured_value := limit; observed_value := count |})
           sha by_)
  | _ => Err (unreadable_reading g (subject_scope s) "incomplete readings")
  end.

Definition structural (ref reason : string) : exn :=
  unreadable_reading STRUCTURAL_WRITE_UNCROSSES_MILESTONE ref reason.

Definition _index (issues : list TrackerIssue) (ref : string) : result exn (pydict string TrackerIssue) :=
  foldM (λ found i, raise_if (dict_mem found (issue_key i))
           (structural ref "membership read repeats an issue identity")
           (Ok (dict_set found (issue_key i) i))) [] issues.

(** [while cursor != fire_key]: each turn visits a new row, so that a row's fuel each and
    one more turn are enough ([GraphMembers.rooted_ends]); a walk that runs out of it has
    no answer at all, refusals included. *)
Fixpoint rooted (fuel : nat) (rows : pydict string TrackerIssue) (fire ref : string)
    (visited : list string) (cursor : string) : looping unit :=
  if decide (cursor = fire) then mret tt
  else match fuel with
       | 0 => None
       | S fuel =>
           match dict_get rows cursor with
           | Some row =>
               if decide (cursor ∈ visited)
               then straight (Err (structural ref "unrooted or cyclic subtree"))
               else match parent_key row with
                    | None => straight (Err (structural ref "unrooted subtree"))
                    | Some parent => rooted fuel rows fire ref (cursor :: visited) parent
                    end
           | None => straight (Err (structural ref "unrooted or cyclic subtree"))
           end
       end.
Definition walk_rooted (rows : pydict string TrackerIssue) (fire ref key : string) : looping unit :=
  rooted (S (length rows)) rows fire ref [] key.

Definition join_row (rows : pydict string TrackerIssue) (fire ref : string)
    (members : pydict string TrackerIssue) (row : string * TrackerIssue) :
    looping (pydict string TrackerIssue) :=
  _ ← straight (refuse_if (match dict_get members row.1 with
                           | Some old => negb (bool_decide (old = row.2))
                           | None => false
                           end) (structural ref "membership reads disagree"));
  _ ← walk_rooted rows fire ref row.1;
  mret (dict_set members row.1 row.2).
(** [for key, issue in subtree.items()] *)
Fixpoint join_rows (rows : pydict string TrackerIssue) (fire ref : string)
    (members l : pydict string TrackerIssue) : looping (pydict string TrackerIssue) :=
  match l with
  | [] => mret members
  | row :: l => members ← join_row rows fire ref members row; join_rows rows fire ref members l
  end.

(** What is settled before the walks, and the refusal after them. *)
Definition graph_reads (snapshot : LaneGraphSnapshot) (ref : string) :
    result exn (pydict string TrackerIssue * pydict string TrackerIssue) :=
  rows ← _index (subtree snapshot) ref;
  members ← _index (milestone_members snapshot) ref;
  let held_by := scope_key (milestone snapshot) in
  _ ← refuse_if (negb (bool_decide (scope_kind (milestone snapshot) = MILESTONE)))
        (structural ref "container is not a milestone");
  _ ← refuse_if (match dict_get rows (fire_key snapshot) with
                 | Some fire => negb (bool_decide (milestone_key fire = Some held_by))
                 | None => true
                 end) (structural ref "fire is absent or belongs elsewhere");
  _ ← refuse_if (negb (dict_mem members (fire_key snapshot)))
        (structural ref "milestone membership omits its fire");
  _ ← refuse_if (existsb (λ i, negb (bool_decide (milestone_key i = Some held_by))) (dict_values members))
        (structural ref "foreign milestone member");
  Ok (rows, members).

Definition lane_graph_members (snapshot : LaneGraphSnapshot) (ref : string) :
    looping (pydict string TrackerIssue) :=
  reads ← straight (graph_reads snapshot ref);
  members ← join_rows reads.1 (fire_key snapshot) ref reads.2 reads.1;
  let refs := superseded_issue <$> supersessions snapshot in
  _ ← straight (refuse_if (repeats refs || existsb (λ k, negb (dict_mem members k)) refs)
                  (structural ref "ambiguous supersession references"));
  mret members.

(** The loop's answer; there always is one ([GraphMembers.lane_graph_members_spec]), so that
    the error given for a loop without one is never seen. *)
Definition ended {A} (e : exn) (m : looping A) : result exn A := default (Err e) m.

(** A member that a crossing leaves open: neither completed nor canceled and superseded. *)
Definition unresolved (superseded : list string) (key : string) (i : TrackerIssue) : bool :=
  negb (bool_decide (state_kind i = COMPLETED))
  && negb (bool_decide (state_kind i = CANCELED) && bool_decide (key ∈ superseded)).

Definition structural_write_uncrosses_milestone : SignalFunction := λ s rs sha by_,
  let g := STRUCTURAL_WRITE_UNCROSSES_MILESTONE in
  match rs with
  | [previous; current] =>
      before ← read_alarm_value previous as_graph g;
      after ← read_alarm_value current as_graph g;
      _ ← refuse_if (negb (bool_decide (subject_lane s = Some (graph_lane before)
                            ∧ graph_lane before = graph_lane after ∧ fire_key before = fire_key after
                            ∧ milestone before = milestone after ∧ source_ref previous = source_ref current)))
            (unreadable_reading g (source_ref current) "graph identities differ");
      old ← ended (structural (source_ref previous) "endless") (lane_graph_members before (source_ref previous));
      new ← ended (structural (source_ref current) "endless") (lane_graph_members after (source_ref current));
      let finished (rows : pydict string TrackerIssue) :=
        bool_decide (state_kind <$> dict_get rows (fire_key before) = Some COMPLETED) in
      let superseded := superseded_issue <$> supersessions before in
      let now_superseded := superseded_issue <$> supersessions after in
      quiet_unless (finished old && finished new
          && negb (existsb (λ ki : string * TrackerIssue, unresolved superseded (issue_key ki.2) ki.2) old)
          && existsb (λ ki : string * TrackerIssue,
               negb (dict_mem old ki.1) && unresolved now_superseded ki.1 ki.2) new)
        (raises_alarm s g rs None sha by_)
  | _ => Err (unreadable_reading g (subject_scope s) "incomplete readings")
  end.
End shape.

(** ** Signals of a lane's stream (domain/stream_signals.py) *)

Definition ACCOUNT_KINDS : list RunEventKind := [ISSUE_CROSSED_OFF; CRITERION_REFUTED; CRITERION_LAPSED].

Definition _account (projections : list RunEventProjection) : option RunEventKind :=
  last (filter (.∈ ACCOUNT_KINDS) (projected_kind <$> projections)).

(** The member and the account of a criterion observed on a lane. *)
Definition _criterion_readings (s : AlarmSubject) (state_reading events_reading : AlarmReading)
    (g : AlarmSignal) : result exn (string * WorkflowStateKind * list RunEventProjection) :=
  match s with
  | CriterionSubject _ _ member (Some lane) =>
      _ ← refuse_if (negb (bool_decide (source_ref state_reading = member)))
            (unreadable_reading g (source_ref state_reading) "the state reading names another record");
      _ ← refuse_if (negb (bool_decide (source_ref events_reading = lane)))
            (unreadable_reading g (source_ref events_reading) "the account reading names another lane");
      state ← read_alarm_value state_reading as_state g;
      projections ← read_alarm_value events_reading as_run_events g;
      _ ← refuse_if (existsb (λ p, negb (bool_decide (projected_kind p ∈ ACCOUNT_KINDS
                                         ∧ projected_subject p = Some member))) projections)
            (unreadable_reading g (source_ref events_reading)
              "an account reading carries another subject's event");
      Ok (lane, state, projections)
  | _ => Err (unreadable_reading g (subject_scope s) "a criterion signal names no observing lane")
  end.

Definition tally_regressed : SignalFunction := λ s rs sha by_,
  let g := TALLY_REGRESSED in
  match rs with
  | [state_reading; events_reading] =>
      read ← _criterion_readings s state_reading events_reading g;
      let '(_, state, projections) := read in
      quiet_unless (bool_decide (_account projections = Some ISSUE_CROSSED_OFF ∧ state = UNSTARTED))
        (raises_alarm s g rs None sha by_)
  | _ => Err (unreadable_reading g (subject_scope s) "incomplete criterion readings")
  end.

Definition lapse_undischarged : SignalFunction := λ s rs sha by_,
  let g := LAPSE_UNDISCHARGED in
  match rs with
  | [state_reading; events_reading; presence_reading] =>
      read ← _criterion_readings s state_reading events_reading g;
      let '(lane, state, projections) := read in
      _ ← refuse_if (negb (bool_decide (source_ref presence_reading = lane)))
            (unreadable_reading g (source_ref presence_reading) "the re-derivation reading names another lane");
      rederived ← read_alarm_value presence_reading as_presence g;
      quiet_unless (bool_decide (_account projections = Some CRITERION_LAPSED)
                    && open_state_kind state && negb rederived)
        (raises_alarm s g rs None sha by_)
  | _ => Err (unreadable_reading g (subject_scope s) "incomplete criterion readings")
  end.

(** types/domain/node_session.py *)
Record NodeInvocation := {
  invocation_run : RunIdentity;
  node_key : string;
  invocation_key : string;
  declared_sessions : nat;
}.
#[export] Instance RunIdentity_eq_dec : EqDecision RunIdentity.
Proof. solve_decision. Defined.
#[export] Instance NodeInvocation_eq_dec : EqDecision NodeInvocation.
Proof. solve_decision. Defined.
Record NodeSessionKey := { session_invocation : NodeInvocation; session_id : string }.

Definition session_key_valid (k : NodeSessionKey) : bool :=
  let i := session_invocation k in
  identities [node_key i; invocation_key i; session_id k] && (1 <=? declared_sessions i)
  && bool_decide (identity_kind (invocation_run i) = RUN_FIRE) && identity (identity_name (invocation_run i)).

(** pydantic: [NodeSessionKey.model_validate_json], which answers valid keys. *)
Class SessionJson := validate_session : string → option NodeSessionKey.

Section sessions.
Context `{SessionJson}.

Definition opened_session (g : AlarmSignal) (ref : string)
    (opened : pydict NodeInvocation (gset string)) (p : RunEventProjection) :
    result exn (pydict NodeInvocation (gset string)) :=
  match projected_kind p, projected_subject p with
  | NODE_SESSION_STARTED, Some text =>
      match validate_session text with
      | Some k =>
          if session_key_valid k then
            let held := default ∅ (dict_get opened (session_invocation k)) in
            Ok (dict_set opened (session_invocation k) ({[session_id k]} ∪ held))
          else Err (unreadable_reading g ref "a session opening names no invocation")
      | None => Err (unreadable_reading g ref "a session opening names no invocation")
      end
  | _, _ => Err (unreadable_reading g ref "a session reading carries another event")
  end.

Definition composition_substituted : SignalFunction := λ s rs sha by_,
  let g := COMPOSITION_SUBSTITUTED in
  match rs with
  | [stream] =>
      match subject_lane s with
      | Some lane =>
          _ ← refuse_if (negb (bool_decide (source_ref stream = lane)))
                (unreadable_reading g (source_ref stream) "the session reading names another lane");
          events ← read_alarm_value stream as_run_events g;
          opened ← foldM (opened_session g (source_ref stream)) [] events;
          quiet_unless (existsb (λ ic : NodeInvocation * gset string,
                          declared_sessions ic.1 <? size ic.2) opened)
            (raises_alarm s g rs None sha by_)
      | None => Err (unreadable_reading g (subject_scope s) "a substitution is observed on a lane")
      end
  | _ => Err (unreadable_reading g (subject_scope s) "incomplete session readings")
  end.
End sessions.
