(* ===== verification/GraphMembers.v ===== *)
(** * The members of a lane's graph (domain/mandate_graph.py).

    The two membership reads of a charter are combined exactly when they are whole: each
    names its issues once, they agree, and every row of the subtree hangs from the fire. *)

From S2P Require Import Prelude PyStr PyLines Tracker Errors Gap IssueTree BaseResolution LaneRecord Surface.
From S2P Require Import CommentMarkers RunEvents Organize Operation RunRecords RunAlarm RunShape.

Local Open Scope nat_scope.

(** ** The walk to the fire *)

Section walk.
Context (rows : pydict string TrackerIssue) (fire : string).

(** A row hangs from its parent. *)
Definition hangs (key parent : string) : Prop :=
  ∃ row, dict_get rows key = Some row ∧ parent_key row = Some parent.

(** The fire is first met after [n] steps. *)
Inductive meets : nat → string → Prop :=
| meets_here : meets 0 fire
| meets_up n key parent : key ≠ fire → hangs key parent → meets n parent → meets (S n) key.

Lemma meets_unique n m key : meets n key → meets m key → n = m.
Proof.
  intros Hn. revert m. induction Hn as [|n' k p Hk (row & Hr & Hp) _ IH]; intros m Hm; inversion Hm; subst; try done.
  match goal with Hh : hangs _ _ |- _ => destruct Hh as (row' & Hr' & Hp') end. f_equal. apply IH. by simplify_eq.
Qed.
Lemma rtc_meets key : rtc hangs key fire → ∃ n, meets n key.
Proof.
  intros H. remember fire as f eqn:Ef. induction H as [|key p f Hk _ IH]; subst; [exists 0; constructor|].
  destruct (decide (key = fire)) as [->|]; [exists 0; constructor|].
  destruct (IH eq_refl) as [m Hm]. exists (S m). by econstructor.
Qed.

Lemma rooted_sound fuel ref visited key :
  rooted fuel rows fire ref visited key = Some (Ok tt) → rtc hangs key fire.
Proof.
  revert visited key. induction fuel as [|fuel IH]; intros visited key; cbn [rooted];
    (case_decide; [by subst|]); [done|].
  destruct (dict_get rows key) as [row|] eqn:Er; [|done]. case_decide; [done|].
  destruct (parent_key row) as [p|] eqn:Ep; [|done]. intros Hw%IH.
  eapply rtc_l; [|done]. by exists row.
Qed.

(** The visited rows and the fuel left make up one more than the rows there are. *)
Definition walked_so_far (fuel : nat) (visited : list string) : Prop :=
  NoDup visited ∧ visited ⊆ dict_keys rows ∧ length visited + fuel = S (length rows).
Lemma walked_cons fuel visited key : walked_so_far (S fuel) visited → key ∉ visited →
  is_Some (dict_get rows key) → walked_so_far fuel (key :: visited).
Proof.
  intros (Hnd & Hin & Hf) Hk Hr%dict_get_is_Some. split_and!; [by constructor|set_solver|cbn; lia].
Qed.
Lemma walked_fuel visited : ¬ walked_so_far 0 visited.
Proof.
  intros (Hnd & Hin & Hf). assert (length visited ≤ length rows); [|lia].
  rewrite <-(length_fmap fst rows). apply NoDup_incl_length; [by apply NoDup_ListNoDup|].
  intros v Hv%list_elem_of_In. apply list_elem_of_In. by apply Hin.
Qed.

(** The walk ends: it never visits a row again. *)
Lemma rooted_ends fuel ref visited key :
  walked_so_far fuel visited → is_Some (rooted fuel rows fire ref visited key).
Proof.
  revert visited key. induction fuel as [|fuel IH]; intros visited key Hw; cbn [rooted]; case_decide; try by eexists.
  { by apply walked_fuel in Hw. }
  destruct (dict_get rows key) as [row|] eqn:Er; [|by eexists]. case_decide; [by eexists|].
  destruct (parent_key row) as [p|]; [|by eexists]. apply IH. apply walked_cons; [done..|by eexists].
Qed.

Lemma rooted_meets n fuel ref visited key :
  meets n key → walked_so_far fuel visited → (∀ v, v ∈ visited → ∃ m, meets m v ∧ n < m) →
  rooted fuel rows fire ref visited key = Some (Ok tt).
Proof.
  intros Hn. revert fuel visited. induction Hn as [|n' k p Hk (row & Hr & Hp) Hm IH]; intros fuel visited Hw Hv.
  { destruct fuel; cbn [rooted]; by rewrite decide_True. }
  assert (meets (S n') k) as Hkey by (eapply meets_up; [done|by exists row|done]).
  assert (k ∉ visited) as Hnew.
  { intros (m & Hm' & Hlt)%Hv. pose proof (meets_unique _ _ _ Hkey Hm'). lia. }
  destruct fuel as [|fuel]; [by apply walked_fuel in Hw|]. cbn [rooted]. rewrite decide_False, Hr, decide_False, Hp by done.
  apply IH; [apply walked_cons; [done..|by eexists]|].
  intros v [->|Hv']%elem_of_cons; [exists (S n'); split; [done|lia]|].
  destruct (Hv v Hv') as (m & ? & ?). exists m. split; [done|lia].
Qed.

(** The walk always ends, and answers exactly whether the fire is reached. *)
Lemma rooted_walk ref key :
  ∃ r, walk_rooted rows fire ref key = Some r ∧ (r = Ok tt ↔ rtc hangs key fire).
Proof.
  assert (walked_so_far (S (length rows)) []) as Hw by (split_and!; [constructor|set_solver|done]).
  destruct (rooted_ends _ ref [] key Hw) as [r Er]. exists r. split; [done|]. split.
  - intros ->. by eapply rooted_sound.
  - intros [n Hn]%rtc_meets. assert (Some r = Some (Ok tt)) as [= ->]; [|done].
    rewrite <-Er. eapply rooted_meets; [done|done|set_solver].
Qed.
End walk.

(** ** The reads *)

Lemma index_ok l ref d :
  _index l ref = Ok d ↔ NoDup (issue_key <$> l) ∧ d = (λ i, (issue_key i, i)) <$> l.
Proof.
  unfold _index.
  assert (∀ l (d0 d : pydict string TrackerIssue),
    foldM (λ found i, raise_if (dict_mem found (issue_key i))
             (structural ref "membership read repeats an issue identity")
             (Ok (dict_set found (issue_key i) i))) d0 l = Ok d
    ↔ (NoDup (issue_key <$> l) ∧ ∀ k, k ∈ issue_key <$> l → k ∉ dict_keys d0)
      ∧ d = d0 ++ ((λ i, (issue_key i, i)) <$> l)) as Hg.
  { clear. induction l as [|i l IH]; intros d0 d.
    { cbn. rewrite app_nil_r. split; [intros [= <-]; repeat split; [constructor|set_solver]|by intros [_ ->]]. }
    csimpl. rewrite NoDup_cons. unfold raise_if, dict_mem. case_bool_decide as Hm.
    { split; [done|]. intros ((_ & Hk) & _). exfalso. eapply Hk; [by left|done]. }
    rewrite IH, (dict_set_fresh d0) by done. unfold dict_keys. rewrite fmap_app. cbn [fmap list_fmap fst].
    rewrite <-app_assoc. split.
    - intros ((Hnd & Hk) & ->). repeat split; [|done|].
      + intros Hin. eapply Hk; [done|]. apply elem_of_app. right. by left.
      + intros k [->|Hin]%elem_of_cons; [done|]. intros Hd. eapply Hk; [done|]. apply elem_of_app. by left.
    - intros (((Hi & Hnd) & Hk) & ->). split; [|done]. split; [done|].
      intros k Hin [Hd|Hd%list_elem_of_singleton]%elem_of_app; [|by subst]. eapply Hk; [by right|done]. }
  rewrite Hg. cbn. split; [tauto|]. intros [? ->]. repeat split; [done|]. set_solver.
Qed.

Lemma loop_ok {A B} (m : looping A) (f : A → looping B) b :
  (m ≫= f) = Some (Ok b) ↔ ∃ a, m = Some (Ok a) ∧ f a = Some (Ok b).
Proof.
  destruct m as [[a|e]|]; cbn; split; try done; try by intros (? & ? & ?).
  - by eauto.
  - by intros (a' & [= <-] & ?).
Qed.
Lemma loop_ends {A B} (m : looping A) (f : A → looping B) :
  is_Some m → (∀ a, m = Some (Ok a) → is_Some (f a)) → is_Some (m ≫= f).
Proof. intros [[a|e] ->] Hf; cbn; [by apply Hf|by eexists]. Qed.

Lemma join_rows_ends rows fire ref l m0 : is_Some (join_rows rows fire ref m0 l).
Proof.
  revert m0. induction l as [|row l IH]; intros m0; cbn [join_rows]; [by eexists|].
  apply loop_ends; [|by auto]. unfold join_row. apply loop_ends; [by eexists|]. intros _ _.
  apply loop_ends; [|by eexists]. destruct (rooted_walk rows fire ref row.1) as (r & -> & _). by eexists.
Qed.

Lemma join_row_ok rows fire ref m0 k i d :
  join_row rows fire ref m0 (k, i) = Some (Ok d) ↔
  ((∀ j, dict_get m0 k = Some j → j = i) ∧ rtc (hangs rows) k fire) ∧ d = dict_set m0 k i.
Proof.
  unfold join_row. rewrite loop_ok. setoid_rewrite loop_ok. cbn [fst snd].
  destruct (rooted_walk rows fire ref k) as (r & -> & Hr). unfold refuse_if, raise_if. split.
  - intros ([] & [= E] & [] & [= ->] & [= <-]). split_and!; [|by apply Hr|done].
    intros j Ej. rewrite Ej in E. case_bool_decide; [done|discriminate].
  - intros [[Hj ->%Hr] ->]. exists tt. split; [|by exists tt]. destruct (dict_get m0 k) as [j|]; [|done].
    by rewrite (Hj j eq_refl), bool_decide_true.
Qed.

Lemma join_rows_ok rows fire ref l : NoDup l.*1 → ∀ (m0 d : pydict string TrackerIssue),
  join_rows rows fire ref m0 l = Some (Ok d) ↔
  (∀ k i, (k, i) ∈ l → (∀ j, dict_get m0 k = Some j → j = i) ∧ rtc (hangs rows) k fire)
  ∧ d = foldl (λ d kv, dict_set d kv.1 kv.2) m0 l.
Proof.
  induction l as [|[k i] l IH]; intros Hnd m0 d.
  { cbn. split; [intros [= <-]; split; [set_solver|done]|by intros [_ ->]]. }
  csimpl in Hnd. apply NoDup_cons in Hnd as [Hk Hnd]. cbn [join_rows foldl fst snd].
  assert (∀ k' i', (k', i') ∈ l → k ≠ k') as Hne.
  { intros k' i' Hin ->. apply Hk. by apply (list_elem_of_fmap_2 fst) in Hin. }
  rewrite loop_ok. setoid_rewrite join_row_ok. setoid_rewrite (IH Hnd). split.
  - intros (m1 & [Hi ->] & Hl & ->). split; [|done].
    intros k' i' [[= -> ->]|Hin]%elem_of_cons; [done|]. destruct (Hl k' i' Hin) as [Hj ?]. split; [|done].
    intros j E. apply Hj. by rewrite dict_get_set_ne by eauto.
  - intros [Hl ->]. eexists. split; [split; [apply Hl; by left|done]|]. split; [|done].
    intros k' i' Hin. destruct (Hl k' i') as [Hj ?]; [by right|]. split; [|done].
    intros j. rewrite dict_get_set_ne by eauto. apply Hj.
Qed.

Lemma joined_get l : NoDup l.*1 → ∀ (m0 : pydict string TrackerIssue) k,
  dict_get (foldl (λ d kv, dict_set d kv.1 kv.2) m0 l) k
  = match dict_get l k with Some i => Some i | None => dict_get m0 k end.
Proof.
  induction l as [|[k' i'] l IH]; [done|]. csimpl. intros [Hk Hnd]%NoDup_cons m0 k. rewrite (IH Hnd).
  destruct (decide (k' = k)) as [->|Hne].
  - rewrite (proj2 (dict_get_None l k)) by done. apply dict_get_set_eq.
  - by rewrite dict_get_set_ne.
Qed.

(** ** The combined members *)

Definition keyed (l : list TrackerIssue) : pydict string TrackerIssue := (λ i, (issue_key i, i)) <$> l.

Lemma members_keys l : (keyed l).*1 = issue_key <$> l.
Proof. unfold keyed. by rewrite <-list_fmap_compose. Qed.
Lemma members_get l k i : NoDup (issue_key <$> l) → dict_get (keyed l) k = Some i ↔ i ∈ l ∧ issue_key i = k.
Proof.
  intros Hnd. split.
  - intros (j & [= -> ->] & Hin)%dict_get_elem%list_elem_of_fmap. done.
  - intros [Hin <-]. apply dict_get_NoDup; [by unfold dict_keys; rewrite members_keys|].
    apply list_elem_of_fmap. by exists i.
Qed.

Section members.
Context (s : LaneGraphSnapshot).
Notation holder := (scope_key (milestone s)).

(** The two reads are whole. *)
Definition graph_whole : Prop :=
  NoDup (issue_key <$> subtree s) ∧ NoDup (issue_key <$> milestone_members s)
  ∧ scope_kind (milestone s) = MILESTONE
  ∧ (∃ i, i ∈ subtree s ∧ issue_key i = fire_key s ∧ milestone_key i = Some holder)
  ∧ fire_key s ∈ issue_key <$> milestone_members s
  ∧ (∀ i, i ∈ milestone_members s → milestone_key i = Some holder)
  ∧ (∀ i j, i ∈ subtree s → j ∈ milestone_members s → issue_key i = issue_key j → i = j)
  ∧ (∀ i, i ∈ subtree s → rtc (hangs (keyed (subtree s))) (issue_key i) (fire_key s))
  ∧ NoDup (superseded_issue <$> supersessions s)
  ∧ (∀ x, x ∈ supersessions s →
       ∃ i, (i ∈ subtree s ∨ i ∈ milestone_members s) ∧ issue_key i = superseded_issue x).

Definition joined : pydict string TrackerIssue :=
  foldl (λ d kv, dict_set d kv.1 kv.2) (keyed (milestone_members s)) (keyed (subtree s)).

Lemma joined_spec k i :
  NoDup (issue_key <$> subtree s) → NoDup (issue_key <$> milestone_members s) →
  (∀ i j, i ∈ subtree s → j ∈ milestone_members s → issue_key i = issue_key j → i = j) →
  dict_get joined k = Some i ↔ issue_key i = k ∧ (i ∈ subtree s ∨ i ∈ milestone_members s).
Proof.
  intros Hs Hm Hag. unfold joined. rewrite joined_get by by rewrite members_keys.
  pose proof (λ j, members_get (subtree s) k j Hs) as Hsub. pose proof (λ j, members_get (milestone_members s) k j Hm) as Hmem.
  destruct (dict_get (keyed (subtree s)) k) as [j|].
  - destruct (proj1 (Hsub j) eq_refl) as [Hj Hk]. split; [intros [= ->]; tauto|].
    intros [Hi [Hin|Hin]]; [by apply Hsub|]. f_equal. apply Hag; [done..|congruence].
  - rewrite Hmem. split; [tauto|]. intros [Hi [Hin|Hin]]; [|done].
    by pose proof (proj2 (Hsub i) (conj Hin Hi)).
Qed.

Lemma existsb_false {A} (f : A → bool) l : existsb f l = false ↔ ∀ x, x ∈ l → f x = false.
Proof.
  induction l as [|y l IH]; [set_solver|]. cbn. rewrite orb_false_iff, IH. split.
  - intros [Hy Hl] x [->|Hx]%elem_of_cons; auto.
  - intros Hx. split; [apply Hx; by left|]. intros x Hin. apply Hx. by right.
Qed.
Lemma refuse_ok {A} b e (k : result exn A) x : (_ ← refuse_if b e; k) = Ok x ↔ b = false ∧ k = Ok x.
Proof. unfold refuse_if. destruct b; cbn; [split; [done|by intros []]|tauto]. Qed.

Lemma fire_held :
  NoDup (issue_key <$> subtree s) →
  match dict_get (keyed (subtree s)) (fire_key s) with
  | Some fire => negb (bool_decide (milestone_key fire = Some holder))
  | None => true
  end = false
  ↔ ∃ i, i ∈ subtree s ∧ issue_key i = fire_key s ∧ milestone_key i = Some holder.
Proof.
  intros Hnd. pose proof (λ j, members_get (subtree s) (fire_key s) j Hnd) as Hg.
  destruct (dict_get _ _) as [f|].
  - destruct (proj1 (Hg f) eq_refl). rewrite negb_false_iff, bool_decide_eq_true. split; [by exists f|].
    intros (i & Hin & Hk & Hm). assert (Some f = Some i) as [= ->] by by apply Hg. done.
  - split; [done|]. intros (i & Hin & Hk & _). by pose proof (proj2 (Hg i) (conj Hin Hk)).
Qed.

Lemma rows_join :
  NoDup (issue_key <$> milestone_members s) →
  (∀ k i, (k, i) ∈ keyed (subtree s) →
     (∀ j, dict_get (keyed (milestone_members s)) k = Some j → j = i)
     ∧ rtc (hangs (keyed (subtree s))) k (fire_key s))
  ↔ (∀ i j, i ∈ subtree s → j ∈ milestone_members s → issue_key i = issue_key j → i = j)
    ∧ (∀ i, i ∈ subtree s → rtc (hangs (keyed (subtree s))) (issue_key i) (fire_key s)).
Proof.
  intros Hnd. split.
  - intros Hl. split.
    + intros i j Hi Hj Hk. destruct (Hl (issue_key i) i) as [Hg _]; [apply list_elem_of_fmap; by exists i|].
      symmetry. apply Hg. by apply members_get.
    + intros i Hi. apply (Hl (issue_key i) i). apply list_elem_of_fmap. by exists i.
  - intros [Hag Hr] k i (x & [= -> ->] & Hin)%list_elem_of_fmap. split; [|by apply Hr].
    intros j [Hj Hk]%members_get; [|done]. symmetry. by apply Hag.
Qed.

Lemma supersessions_named (d : pydict string TrackerIssue) :
  (∀ k i, dict_get d k = Some i ↔ issue_key i = k ∧ (i ∈ subtree s ∨ i ∈ milestone_members s)) →
  repeats (superseded_issue <$> supersessions s)
  || existsb (λ k, negb (dict_mem d k)) (superseded_issue <$> supersessions s) = false
  ↔ NoDup (superseded_issue <$> supersessions s)
    ∧ (∀ x, x ∈ supersessions s →
         ∃ i, (i ∈ subtree s ∨ i ∈ milestone_members s) ∧ issue_key i = superseded_issue x).
Proof.
  intros Hd. unfold repeats. rewrite orb_false_iff, negb_false_iff, bool_decide_eq_true, existsb_false.
  apply and_iff_compat_l. unfold dict_mem. setoid_rewrite negb_false_iff. setoid_rewrite bool_decide_eq_true.
  setoid_rewrite <-dict_get_is_Some. split.
  - intros Hall x Hx. destruct (Hall (superseded_issue x)) as [i [Hk Hin]%Hd]; [by apply list_elem_of_fmap_2|].
    by exists i.
  - intros Hall k (x & -> & Hx)%list_elem_of_fmap. destruct (Hall x Hx) as (i & Hin & Hk). exists i. by apply Hd.
Qed.

(** The two reads as they are when nothing refuses them. *)
Lemma graph_reads_ok ref rows members :
  graph_reads s ref = Ok (rows, members) ↔
  (rows, members) = (keyed (subtree s), keyed (milestone_members s))
  ∧ NoDup (issue_key <$> subtree s) ∧ NoDup (issue_key <$> milestone_members s)
  ∧ scope_kind (milestone s) = MILESTONE
  ∧ (∃ i, i ∈ subtree s ∧ issue_key i = fire_key s ∧ milestone_key i = Some holder)
  ∧ fire_key s ∈ issue_key <$> milestone_members s
  ∧ (∀ i, i ∈ milestone_members s → milestone_key i = Some holder).
Proof.
  assert (∀ P : TrackerIssue → Prop, (∀ i, i ∈ dict_values (keyed (milestone_members s)) → P i)
          ↔ ∀ i, i ∈ milestone_members s → P i) as Hvals.
  { intros P. unfold dict_values, keyed. by rewrite <-list_fmap_compose, list_fmap_id. }
  unfold graph_reads. rewrite bind_ok. setoid_rewrite bind_ok. setoid_rewrite index_ok. cbv zeta.
  repeat setoid_rewrite refuse_ok. setoid_rewrite existsb_false. setoid_rewrite negb_false_iff.
  setoid_rewrite bool_decide_eq_true.
  split.
  - intros (? & [Hs ->] & ? & [Hm ->] & Hk & Hf & Hfm & Hall & [= <- <-]).
    apply fire_held in Hf; [|done]. rewrite Hvals in Hall.
    change (fire_key s ∈ (keyed (milestone_members s)).*1) in Hfm. rewrite members_keys in Hfm.
    by split_and!.
  - intros ([= -> ->] & Hs & Hm & Hk & Hf & Hfm & Hall). exists (keyed (subtree s)). split; [done|].
    exists (keyed (milestone_members s)). split_and!; [done|done|done|by apply fire_held| |by apply Hvals|done].
    change (fire_key s ∈ (keyed (milestone_members s)).*1). by rewrite members_keys.
Qed.

Lemma graph_ends ref : is_Some (lane_graph_members s ref).
Proof.
  unfold lane_graph_members. apply loop_ends; [by eexists|]. intros reads _.
  apply loop_ends; [apply join_rows_ends|]. intros m _. apply loop_ends; [by eexists|by eexists].
Qed.

Lemma graph_ok ref members : lane_graph_members s ref = Some (Ok members) ↔ graph_whole ∧ members = joined.
Proof.
  unfold lane_graph_members. rewrite loop_ok. setoid_rewrite loop_ok. setoid_rewrite loop_ok.
  setoid_rewrite straight_ok. split.
  - intros ([rows ms] & (Hd & Hs & Hm & Hk & Hf & Hfm & Hall)%graph_reads_ok & d & Hj & [] & Hsup & [= ->]).
    injection Hd as -> ->. cbn [fst snd] in Hj. apply join_rows_ok in Hj as [Hrows ->]; [|by rewrite members_keys].
    apply rows_join in Hrows as [Hag Hr]; [|done].
    unfold refuse_if, raise_if in Hsup. destruct (_ || _) eqn:Hb in Hsup; [done|].
    apply supersessions_named in Hb; [|intros; by apply joined_spec].
    split; [|done]. unfold graph_whole. tauto.
  - intros [(Hs & Hm & Hk & Hf & Hfm & Hall & Hag & Hr & Hsup) ->].
    exists (keyed (subtree s), keyed (milestone_members s)). split; [by apply graph_reads_ok|].
    cbn [fst snd]. exists joined. split; [apply join_rows_ok; [by rewrite members_keys|]; split; [by apply rows_join|done]|].
    exists tt. split; [|done]. unfold refuse_if, raise_if.
    replace (_ || _) with false; [done|]. symmetry.
    apply supersessions_named; [intros; by apply joined_spec|done].
Qed.

(** C23. Two membership reads of a lane's graph are combined exactly when they are whole: each
    names an issue once, the container is the milestone that holds the fire and every member,
    no issue differs between the two, every row of the subtree hangs from the fire through
    the subtree's own rows, and each supersession names one member. What is answered is then
    the union of the two, by key; anything else is refused, cycles included. There is always
    an answer: the walk from a row to the fire never runs out of its turns, of which it has
    one more than there are rows, and running out of them would be no answer, not a refusal. *)
Theorem lane_graph_members_spec ref :
  ∃ answer, lane_graph_members s ref = Some answer
  ∧ match answer with
    | Ok members => graph_whole
        ∧ ∀ k i, dict_get members k = Some i ↔ issue_key i = k ∧ (i ∈ subtree s ∨ i ∈ milestone_members s)
    | Err _ => ¬ graph_whole
    end.
Proof.
  destruct (graph_ends ref) as [answer Ea]. exists answer. split; [done|].
  destruct answer as [members|e].
  - destruct (proj1 (graph_ok ref members) Ea) as [Hw ->]. split; [done|]. intros k i.
    apply joined_spec; unfold graph_whole in Hw; tauto.
  - intros Hw. pose proof (proj2 (graph_ok ref joined) (conj Hw eq_refl)). congruence.
Qed.
End members.
