(* ===== verification/AlarmTable.v ===== *)
(** * The table of signals and the records kept by replay (domain/run_alarm_table.py,
    tally_record.py, escalation_age_record.py).

    Whether a record is an alarm is what its own readings replay to; the two records that
    remember an earlier reading, a lane's tally and a question's age, are kept by
    comparing what the address says with what was observed now. *)

From S2P Require Import BaseResolution Topology IssueTree ScopeWalker.
From S2P Require Import Prelude PyStr PyLines Tracker Errors Dispatch Outcome JobQueue Operation RunRecords.
From S2P Require Import FireContext FireDispatcher SelfWrites PassGate.
From S2P Require Import Criteria Trajectory Gap Surface LaneRecord CommentMarkers RunEvents Organize RunAlarm RunShape.

Local Open Scope nat_scope.

(** ** The table (domain/run_alarm_table.py) *)

Record AlarmFold := { fold : SignalFunction; scans : list PassSignal }.

Definition _ISSUE_LISTING : list PassSignal := [issues_changed].
Definition _RECORD_READS : list PassSignal := [].

Definition ALARM_SIGNALS : list AlarmSignal :=
  [TALLY_UNMOVED; TALLY_REGRESSED; LAPSE_UNDISCHARGED; ESCALATION_AGEING; WRITE_BACK_MISSING;
   SURFACE_CONTENDED; RECORD_SUPERSEDED; COMPOSITION_SUBSTITUTED; BARREN_TICK_WITH_DIFF_GROWTH;
   COMMITS_AHEAD_OF_RECORD; RULINGS_OUTPACE_CLOSURES; STRUCTURAL_WRITE_UNCROSSES_MILESTONE].

Section table.
Context `{AlarmJson} `{SessionJson}.

Definition ALARM_TABLE : pydict AlarmSignal AlarmFold :=
  [(TALLY_UNMOVED, {| fold := tally_unmoved; scans := _ISSUE_LISTING |});
   (TALLY_REGRESSED, {| fold := tally_regressed; scans := _ISSUE_LISTING |});
   (LAPSE_UNDISCHARGED, {| fold := lapse_undischarged; scans := _ISSUE_LISTING |});
   (ESCALATION_AGEING, {| fold := escalation_ageing; scans := _RECORD_READS |});
   (WRITE_BACK_MISSING, {| fold := write_back_missing; scans := _RECORD_READS |});
   (SURFACE_CONTENDED, {| fold := surface_contended; scans := _RECORD_READS |});
   (RECORD_SUPERSEDED, {| fold := record_superseded; scans := _RECORD_READS |});
   (COMPOSITION_SUBSTITUTED, {| fold := composition_substituted; scans := _RECORD_READS |});
   (BARREN_TICK_WITH_DIFF_GROWTH, {| fold := barren_tick_with_diff_growth; scans := _RECORD_READS |});
   (COMMITS_AHEAD_OF_RECORD, {| fold := commits_ahead_of_record; scans := _RECORD_READS |});
   (RULINGS_OUTPACE_CLOSURES, {| fold := rulings_outpace_closures; scans := _ISSUE_LISTING |});
   (STRUCTURAL_WRITE_UNCROSSES_MILESTONE,
    {| fold := structural_write_uncrosses_milestone; scans := _ISSUE_LISTING |})].

Definition require_alarm_table : result (list AlarmSignal) unit :=
  match filter (λ g, dict_mem ALARM_TABLE g = false) ALARM_SIGNALS with
  | [] => Ok tt
  | missing => Err missing
  end.

(** [ALARM_TABLE[signal].fold] *)
Definition fold_of (g : AlarmSignal) : result exn SignalFunction :=
  match dict_get ALARM_TABLE g with
  | Some row => Ok (fold row)
  | None => Err (KeyError (alarm_signal_value g))
  end.

Definition replays (replayed : option RunAlarm) (a : RunAlarm) (g : string) : result exn bool :=
  raise_if (negb (bool_decide (bound a = replayed ≫= bound)))
    (RunShapeReadError g (raised_at_sha a) "the stored record replays to a bound it does not carry")
    (Ok (bool_decide (is_Some replayed))).

Definition alarm_raised (record : option RunAlarm) : result exn bool :=
  match record with
  | None => Ok false
  | Some a =>
      f ← fold_of (signal a);
      replayed ← f (subject a) (readings a) (raised_at_sha a) (raised_by a);
      replays replayed a (alarm_signal_value (signal a))
  end.

(** ** The tally's record (domain/tally_record.py) *)

Definition make_tally (t : LaneTally) : result exn LaneTally :=
  raise_if (negb (identities (tally_open t ++ tally_commits t))) (ValidationError "LaneTally") (Ok t).

Definition anchor_of (a : RunAlarm) : result exn LaneTally :=
  _ ← alarm_raised (Some a);
  match readings a with
  | [anchor_reading; latest_reading; closed_reading; _] =>
      closed ← read_alarm_value closed_reading as_references (signal a);
      read_alarm_value (if decide (closed = []) then anchor_reading else latest_reading) as_tally (signal a)
  | _ => Err (ValueError "not four readings")
  end.

Definition lane_start (roster : list TrackerIssue) : result exn LaneTally :=
  make_tally {| tally_open := sort_by id (issue_key <$> roster); tally_commits := [] |}.

(** [_reading] of the tally and of the lane's alarms: at the lane's own head. *)
Definition reading_at (head ref : string) (e : AlarmEvidence) : result exn AlarmReading :=
  make_reading {| source_ref := ref; evidence := e; at_sha := Some head |}.

Definition quiet_alarm (s : AlarmSubject) (g : AlarmSignal) (rs : list AlarmReading)
    (sha by_ : string) : RunAlarm := {|
  subject := s; signal := g; readings := rs; bound := None; raised_at_sha := sha; raised_by := by_ |}.

(** [raised or RunAlarm(...)] *)
Definition or_quiet (raised : option RunAlarm) (s : AlarmSubject) (g : AlarmSignal)
    (rs : list AlarmReading) (sha by_ : string) : result exn RunAlarm :=
  match raised with Some a => Ok a | None => make_alarm (quiet_alarm s g rs sha by_) end.

Definition next_tally_record (scope lane : string) (stored : option RunAlarm)
    (roster gap criteria : list TrackerIssue) (record : LaneRunState) (max_commits : nat)
    (by_ : string) : result exn (option RunAlarm) :=
  let s := LaneSubject scope lane in
  stored_raised ← alarm_raised stored;
  anchor ← match stored with Some a => anchor_of a | None => lane_start roster end;
  tick ← observe_tick (tally_open anchor) criteria gap;
  let closed := sort_by id (elements (closed_previous_work tick)) in
  latest ← make_tally {| tally_open := sort_by id (issue_key <$> gap);
                         tally_commits := commit_sha <$> commits record |};
  first ← reading_at (head_sha record) lane (TallyEvidence anchor);
  second ← reading_at (head_sha record) lane (TallyEvidence latest);
  third ← reading_at (head_sha record) lane (ReferencesEvidence closed);
  fourth ← reading_at (head_sha record) COMMITS_WITHOUT_CLOSURE_BOUND (CountEvidence max_commits);
  let rs := [first; second; third; fourth] in
  raise_now ← tally_unmoved s rs (head_sha record) by_;
  desired ← or_quiet raise_now s TALLY_UNMOVED rs (head_sha record) by_;
  Ok (if negb (Bool.eqb (bool_decide (is_Some raise_now)) stored_raised)
         || (negb (bool_decide (closed = [])) && negb (bool_decide (tally_open latest = [])))
      then Some desired else None).
End table.

(** ** The age of an open question (domain/escalation_age_record.py) *)

Section ageing.
Context `{AlarmJson}.

Definition _OBSERVED_READINGS : nat := 6.

(** [ScopePosition]: the recorded commits of each lane of a scope. *)
Notation ScopePosition := (pydict string (list string)).

Definition heads (p : ScopePosition) : list string := sort_by id (omap last (dict_values p)).
Definition head_of (p : ScopePosition) (lane : string) : option string :=
  last (default [] (dict_get p lane)).

Definition anchor_reading (scope : string) (p : ScopePosition) : result exn AlarmReading :=
  make_reading {| source_ref := scope; evidence := ReferencesEvidence (heads p); at_sha := None |}.

Definition ageing_anchor (a : RunAlarm) : result exn AlarmReading :=
  match readings a with
  | anchor :: _ =>
      match as_references (evidence anchor) with
      | Some _ => Ok anchor
      | None => Err (RunShapeReadError (alarm_signal_value ESCALATION_AGEING) (source_ref anchor)
                  "the stored record carries no anchor of lane heads")
      end
  | [] => Err (ValueError "list index out of range")
  end.

(** What follows the last anchored head of one lane's order; the whole order without one. *)
Fixpoint after_last (anchored : list string) (order : list string) : option nat :=
  match order with
  | [] => None
  | sha :: order =>
      match after_last anchored order with
      | Some n => Some n
      | None => if decide (sha ∈ anchored) then Some (length order) else None
      end
  end.
Definition lane_commits_since (anchored : list string) (order : list string) : nat :=
  default (length order) (after_last anchored order).
Definition commits_since (anchor : AlarmReading) (p : ScopePosition) : result exn nat :=
  anchored ← read_alarm_value anchor as_references ESCALATION_AGEING;
  Ok (sum_list_with (lane_commits_since anchored) (dict_values p)).
Definition tick_reading (anchor : AlarmReading) (p : ScopePosition) : result exn AlarmReading :=
  age ← commits_since anchor p;
  make_reading {| source_ref := source_ref anchor; evidence := CountEvidence age; at_sha := None |}.

Definition is_ageing_raised (record : option RunAlarm) : result exn bool :=
  let g := alarm_signal_value ESCALATION_AGEING in
  match record with
  | None => Ok false
  | Some a =>
      let observed := tail (readings a) in
      _ ← refuse_if (negb (bool_decide (observed = [])) && negb (length observed =? _OBSERVED_READINGS))
            (RunShapeReadError g (raised_at_sha a)
              "the stored record carries neither an anchor nor an observation");
      replayed ← (if decide (observed = []) then Ok None
                  else escalation_ageing (subject a) observed (raised_at_sha a) (raised_by a));
      replays replayed a g
  end.

Definition next_ageing_record (s : AlarmSubject) (member : string) (stored : option RunAlarm)
    (anchor : AlarmReading) (observed : option RunAlarm) (resolution : EscalationResolution)
    (sha by_ : string) : result exn (option RunAlarm) :=
  let write :=
    a ← match observed with
        | None => make_alarm (quiet_alarm s ESCALATION_AGEING [anchor] sha by_)
        | Some o => make_alarm {| subject := s; signal := ESCALATION_AGEING;
                                  readings := anchor :: readings o; bound := bound o;
                                  raised_at_sha := sha; raised_by := by_ |}
        end;
    Ok (Some a) in
  _ ← refuse_if (match observed with Some o => negb (bool_decide (subject o = s)) | None => false end)
        (RunShapeReadError (alarm_signal_value ESCALATION_AGEING) member
          "the observation is about another question");
  match stored with
  | None => if decide (resolution_state resolution = RESOLVED) then Ok None else write
  | Some _ =>
      was ← is_ageing_raised stored;
      if Bool.eqb was (bool_decide (is_Some observed)) then Ok None else write
  end.
End ageing.
