(* ===== verification/LaneAlarms.v ===== *)
(** * One lane's observation (domain/lane_alarms.py, services/alarm_supervisor.py).

    A tick reads a lane's records, its run state and its stream, composes what each of its
    addresses should hold, and writes what differs, records before the events that announce
    them. The writes are a function of what was read, so a tick is a list of them, and one
    that was killed performed a prefix. *)

From S2P Require Import BaseResolution Topology IssueTree ScopeWalker.
From S2P Require Import Prelude PyStr PyLines Tracker Errors Dispatch Outcome JobQueue Operation RunRecords.
From S2P Require Import FireContext FireDispatcher SelfWrites PassGate.
From S2P Require Import Criteria Trajectory Gap Surface LaneRecord CommentMarkers RunEvents Organize RunAlarm RunShape.
From S2P Require Import AlarmTable.

Local Open Scope nat_scope.

(** ** What each address should hold (domain/lane_alarms.py) *)

Definition OBSERVED_ALARMS : list AlarmSignal :=
  [TALLY_UNMOVED; TALLY_REGRESSED; LAPSE_UNDISCHARGED; COMPOSITION_SUBSTITUTED].

Inductive LaneStanding :=
| Ready (roster gap : list TrackerIssue)
| Waiting
| Finished.

Definition at_address (s : AlarmSubject) (g : AlarmSignal) (a : RunAlarm) : bool :=
  bool_decide (subject a = s ∧ signal a = g).
Definition stored_alarm (records : list RunAlarm) (s : AlarmSubject) (g : AlarmSignal) : option RunAlarm :=
  first_such (at_address s g) records.

Section lane.
Context `{AlarmJson} `{SessionJson}.

Definition next_alarm_record (stored : option RunAlarm) (observed : RunAlarm) :
    result exn (option RunAlarm) :=
  was ← alarm_raised stored;
  now ← alarm_raised (Some observed);
  Ok (if Bool.eqb was now then None else Some observed).

Definition _composed (g : AlarmSignal) (s : AlarmSubject) (rs : list AlarmReading) (sha by_ : string) :
    result exn RunAlarm :=
  f ← fold_of g;
  raised ← f s rs sha by_;
  or_quiet raised s g rs sha by_.

(** One address: what was composed from its readings, against what it holds. *)
Definition address_record (stored : list RunAlarm) (s : AlarmSubject) (rs : list AlarmReading)
    (sha by_ : string) (g : AlarmSignal) : result exn (option RunAlarm) :=
  observed ← _composed g s rs sha by_;
  next_alarm_record (stored_alarm stored s g) observed.

Definition _lane_tally (scope lane : string) (standing : LaneStanding) (criteria : list TrackerIssue)
    (record : LaneRunState) (stored : list RunAlarm) (max_commits : nat) (by_ : string) :
    result exn (option RunAlarm) :=
  let at_tally roster gap :=
    next_tally_record scope lane (stored_alarm stored (LaneSubject scope lane) TALLY_UNMOVED)
      roster gap criteria record max_commits by_ in
  match standing with
  | Ready roster gap => at_tally roster gap
  | Finished => at_tally [] []
  | Waiting => Ok None
  end.

Definition projection (e : LaneRunEvent) : RunEventProjection :=
  {| projected_kind := event_kind e; projected_subject := subject_key e |}.
Definition account_projections (events : list LaneRunEvent) : list RunEventProjection :=
  projection <$> filter (λ e, event_kind e ∈ ACCOUNT_KINDS ∧ subject_key e ≠ None) events.
Definition session_projections (events : list LaneRunEvent) : list RunEventProjection :=
  projection <$> filter (λ e, event_kind e = NODE_SESSION_STARTED) events.

(** [sorted({...})] *)
Definition accounted (projections : list RunEventProjection) : list string :=
  sort_by id (remove_dups (filter (λ k, k ≠ "") (omap projected_subject projections))).

Definition is_ready (standing : LaneStanding) : bool :=
  match standing with Ready _ _ => true | _ => false end.

(** Both addresses of one criterion. *)
Definition _criterion_alarm (scope lane : string) (standing : LaneStanding)
    (known : pydict string TrackerIssue) (projections : list RunEventProjection)
    (record : LaneRunState) (stored : list RunAlarm) (by_ : string) (member : string) :
    result exn (list RunAlarm) :=
  match dict_get known member with
  | Some criterion =>
      match parent_key criterion with
      | Some parent =>
          let s := CriterionSubject scope parent member (Some lane) in
          _ ← refuse_if (negb (subject_valid s)) (ValidationError "CriterionSubject");
          let account := filter (λ p, projected_subject p = Some member) projections in
          let head := head_sha record in
          state ← reading_at head member (StateEvidence (state_kind criterion));
          stream ← reading_at head lane (RunEventsEvidence account);
          presence ← reading_at head lane (PresenceEvidence (is_ready standing));
          regressed ← address_record stored s [state; stream] head by_ TALLY_REGRESSED;
          lapsed ← address_record stored s [state; stream; presence] head by_ LAPSE_UNDISCHARGED;
          Ok (option_list regressed ++ option_list lapsed)
      | None => Ok []
      end
  | None => Ok []
  end.

Definition _criterion_alarms (scope lane : string) (standing : LaneStanding)
    (criteria : list TrackerIssue) (record : LaneRunState) (stored : list RunAlarm)
    (events : list LaneRunEvent) (by_ : string) : result exn (list RunAlarm) :=
  let known := dict_of ((λ i, (issue_key i, i)) <$> criteria) in
  let projections := account_projections events in
  written ← mapM (_criterion_alarm scope lane standing known projections record stored by_)
              (accounted projections);
  Ok (mjoin written).

Definition lane_alarm_records (scope lane : string) (standing : LaneStanding)
    (criteria : list TrackerIssue) (record : LaneRunState) (stored : list RunAlarm)
    (events : list LaneRunEvent) (max_commits : nat) (by_ : string) : result exn (list RunAlarm) :=
  let s := LaneSubject scope lane in
  _ ← refuse_if (negb (subject_valid s)) (ValidationError "LaneSubject");
  tally ← _lane_tally scope lane standing criteria record stored max_commits by_;
  stream ← reading_at (head_sha record) lane (RunEventsEvidence (session_projections events));
  substituted ← address_record stored s [stream] (head_sha record) by_ COMPOSITION_SUBSTITUTED;
  of_criteria ← _criterion_alarms scope lane standing criteria record stored events by_;
  Ok (option_list tally ++ option_list substituted ++ of_criteria).

(** [alarm_event_due] of lane_alarms.py. *)
Definition lane_event_due (a : RunAlarm) (events : list LaneRunEvent) :
    result exn (option LaneRunEvent) :=
  _ ← refuse_if (bool_decide (subject_lane (subject a) = None))
        (ValueError "an alarm transition event is keyed to a lane");
  raised ← alarm_raised (Some a);
  alarm_event_due a raised events.

(** ** The tick (services/alarm_supervisor.py) *)

(** What a tick does to a carrier. *)
Inductive alarm_write :=
| Leases (surfaces : gset WritableSurface)
| Rewrites (a : RunAlarm)
| Posts (e : LaneRunEvent).

(** [current[record.signal] = record] over the stored records and this tick's. *)
Definition _announceable (scope lane : string) (stored desired : list RunAlarm) : list RunAlarm :=
  dict_values (dict_of ((λ a, (signal a, a)) <$>
    filter (λ a, subject a = LaneSubject scope lane ∧ signal a ∈ OBSERVED_ALARMS) (stored ++ desired))).

(** The announcements in order, up to the first that raises. *)
Fixpoint announce (events : list LaneRunEvent) (l : list RunAlarm) : list alarm_write * result exn unit :=
  match l with
  | [] => ([], Ok tt)
  | a :: l =>
      match lane_event_due a events with
      | Err e => ([], Err e)
      | Ok due =>
          let '(ws, r) := announce events l in
          (match due with Some e => Posts e :: ws | None => ws end, r)
      end
  end.

Context (prefixes : pydict string string).

Definition _surface (lane : string) (a : RunAlarm) : result exn WritableSurface :=
  marker ← run_alarm_marker prefixes (subject a) (signal a);
  Ok (run_alarm_surface lane marker).

Definition _write_records (lane : string) (desired : list RunAlarm) : result exn (list alarm_write) :=
  match desired with
  | [] => Ok []
  | _ => surfaces ← mapM (_surface lane) desired;
         Ok (Leases (list_to_set surfaces) :: (Rewrites <$> desired))
  end.

(** [observe_lane] once its three reads answered. *)
Definition observe_lane (scope lane : string) (standing : LaneStanding) (criteria : list TrackerIssue)
    (max_commits : nat) (holder : string) (located : option LaneRunState) (stored : list RunAlarm)
    (events : list LaneRunEvent) : list alarm_write * result exn unit :=
  match configured_marker_prefix prefixes MARKER_PURPOSE with
  | Err e => ([], Err e)
  | Ok _ =>
      match located with
      | None => ([], Ok tt)
      | Some state =>
          match lane_alarm_records scope lane standing criteria state stored events max_commits holder with
          | Err e => ([], Err e)
          | Ok desired =>
              match _write_records lane desired with
              | Err e => ([], Err e)
              | Ok written =>
                  let '(ws, r) := announce events (_announceable scope lane stored desired) in
                  (written ++ ws, r)
              end
          end
      end
  end.
End lane.

(** ** The carrier *)

(** The records on a lane's issue, in the order they were first written, and its stream. *)
Record carrier := { held : list RunAlarm; stream : list LaneRunEvent }.

(** The leased upsert at an address. *)
Fixpoint upsert_alarm (a : RunAlarm) (records : list RunAlarm) : list RunAlarm :=
  match records with
  | [] => [a]
  | b :: records => if at_address (subject a) (signal a) b then a :: records
                    else b :: upsert_alarm a records
  end.
Definition perform (c : carrier) (w : alarm_write) : carrier :=
  match w with
  | Leases _ => c
  | Rewrites a => {| held := upsert_alarm a (held c); stream := stream c |}
  | Posts e => {| held := held c; stream := stream c ++ [e] |}
  end.
Definition performs (c : carrier) (ws : list alarm_write) : carrier := foldl perform c ws.
