(* ===== verification/AlarmTicks.v ===== *)
(** * What ticks leave on a lane (domain/lane_alarms.py, services/alarm_supervisor.py).

    A record replays to what was observed; a tick that was killed is resumed by the next
    one from the tracker alone; the transitions a stream carries for one record alternate;
    a question's age is the commits recorded since it was first seen. *)

From S2P Require Import BaseResolution Topology IssueTree ScopeWalker.
From S2P Require Import Prelude PyStr PyLines Tracker Errors Dispatch Outcome JobQueue Operation RunRecords.
From S2P Require Import FireContext FireDispatcher SelfWrites PassGate.
From S2P Require Import Criteria Trajectory Gap Surface LaneRecord CommentMarkers RunEvents Organize RunAlarm.
From S2P Require Import RunShape AlarmTable LaneAlarms.

Local Open Scope nat_scope.

(** ** Every alarm replays *)

(** An alarm a signal answers is one over what the signal was asked. *)
Definition over (s : AlarmSubject) (g : AlarmSignal) (rs : list AlarmReading) (sha by_ : string)
    (r : result exn (option RunAlarm)) : Prop :=
  ∀ a, r = Ok (Some a) →
    subject a = s ∧ signal a = g ∧ readings a = rs ∧ raised_at_sha a = sha ∧ raised_by a = by_.

Section over.
Context (s : AlarmSubject) (g : AlarmSignal) (rs : list AlarmReading) (sha by_ : string).
Notation over := (over s g rs sha by_).

Lemma over_err e : over (Err e).
Proof. by intros a. Qed.
Lemma over_none : over (Ok None).
Proof. by intros a. Qed.
Lemma over_bind {A} (m : result exn A) f : (∀ x, over (f x)) → over (m ≫= f).
Proof. intros Hf a. destruct m as [x|e]; [apply Hf|done]. Qed.
Lemma over_raises b : over (raises_alarm s g rs b sha by_).
Proof.
  intros a. unfold raises_alarm, make_alarm, raise_if. by destruct (negb _); [|intros [= <-]].
Qed.
Lemma over_quiet b r : over r → over (quiet_unless b r).
Proof. destruct b; [done|]. intros _. apply over_none. Qed.
End over.
Ltac over :=
  lazymatch goal with
  | |- over _ _ _ _ _ (Err _) => apply over_err
  | |- over _ _ _ _ _ (Ok None) => apply over_none
  | |- over _ _ _ _ _ (raises_alarm _ _ _ _ _ _) => apply over_raises
  | |- over _ _ _ _ _ (quiet_unless _ _) => apply over_quiet; over
  | |- over _ _ _ _ _ (mbind _ _) => apply over_bind; intros ?; over
  | |- over _ _ _ _ _ (let _ := _ in _) => cbv zeta; over
  | |- over _ _ _ _ _ (match ?x with _ => _ end) => destruct x; over
  end.

#[local] Arguments alarm_raised : simpl never.

Section replay.
Context `{AlarmJson} `{SessionJson}.

Lemma fold_over g f s rs sha by_ : fold_of g = Ok f → over s g rs sha by_ (f s rs sha by_).
Proof.
  destruct g; intros [= <-];
    unfold record_superseded, write_back_missing, commits_ahead_of_record, escalation_ageing,
      surface_contended, barren_tick_with_diff_growth, tally_unmoved, _lane_tally_unmoved,
      _scope_tally_unmoved, rulings_outpace_closures, structural_write_uncrosses_milestone,
      tally_regressed, lapse_undischarged, composition_substituted; cbv beta zeta; over.
Qed.

Lemma make_alarm_ok a b : make_alarm a = Ok b → b = a.
Proof. unfold make_alarm, raise_if. by destruct (negb _); [|intros [= <-]]. Qed.

Lemma or_quiet_replays f g s rs sha by_ raised a :
  fold_of g = Ok f → f s rs sha by_ = Ok raised → or_quiet raised s g rs sha by_ = Ok a →
  subject a = s ∧ signal a = g ∧ readings a = rs ∧ raised_at_sha a = sha
  ∧ alarm_raised (Some a) = Ok (bool_decide (is_Some raised)).
Proof.
  intros Hf Hr Ho. assert (subject a = s ∧ signal a = g ∧ readings a = rs ∧ raised_at_sha a = sha
    ∧ raised_by a = by_ ∧ bound a = raised ≫= bound) as (Es & Eg & Er & Eh & Eb & Ebd).
  { destruct raised as [b|]; cbn in Ho.
    - injection Ho as ->. pose proof (fold_over _ _ s rs sha by_ Hf a Hr). naive_solver.
    - by apply make_alarm_ok in Ho as ->. }
  split_and!; try done. unfold alarm_raised. rewrite Eg, Hf. cbn. rewrite Es, Er, Eh, Eb, Hr. cbn.
  unfold replays. by rewrite bool_decide_true.
Qed.

Lemma composed_replays g s rs sha by_ a :
  _composed g s rs sha by_ = Ok a →
  ∃ f raised, fold_of g = Ok f ∧ f s rs sha by_ = Ok raised ∧ subject a = s ∧ signal a = g
    ∧ alarm_raised (Some a) = Ok (bool_decide (is_Some raised)).
Proof.
  unfold _composed. intros (f & Hf & (raised & Hr & Ho)%bind_ok)%bind_ok.
  exists f, raised. destruct (or_quiet_replays _ _ _ _ _ _ _ _ Hf Hr Ho). naive_solver.
Qed.

(** ** Addresses that settle *)

(** One address of an observation: what it should hold next, given what it holds. *)
Record slot := {
  slot_subject : AlarmSubject;
  slot_signal : AlarmSignal;
  slot_next : option RunAlarm → result exn (option RunAlarm);
}.
Definition slot_address (x : slot) : AlarmSubject * AlarmSignal := (slot_subject x, slot_signal x).
Definition address (a : RunAlarm) : AlarmSubject * AlarmSignal := (subject a, signal a).

(** What it writes is written at its address, and then it has nothing to say. *)
Definition settles (x : slot) : Prop := ∀ st a,
  slot_next x st = Ok (Some a) → address a = slot_address x ∧ slot_next x (Some a) = Ok None.

Definition observe_slots (slots : list slot) (held : list RunAlarm) : result exn (list RunAlarm) :=
  rs ← mapM (λ x, slot_next x (stored_alarm held (slot_subject x) (slot_signal x))) slots;
  Ok (rs ≫= option_list).

Lemma at_address_true s g a : at_address s g a = true ↔ address a = (s, g).
Proof. unfold at_address, address. rewrite bool_decide_eq_true. naive_solver. Qed.

Lemma stored_upsert a records s g :
  stored_alarm (upsert_alarm a records) s g
  = if at_address s g a then Some a else stored_alarm records s g.
Proof.
  unfold stored_alarm. induction records as [|b records IH]; cbn [upsert_alarm].
  { cbn [first_such]. by destruct (at_address s g a). }
  destruct (at_address (subject a) (signal a) b) eqn:Eb; cbn [first_such].
  - destruct (at_address s g a) eqn:Ea; [done|].
    destruct (at_address s g b) eqn:E; [|done].
    apply at_address_true in Eb, E. unfold address in *. exfalso.
    assert (at_address s g a = true); [|congruence]. apply at_address_true. unfold address. congruence.
  - destruct (at_address s g b) eqn:E; [|by rewrite IH].
    destruct (at_address s g a) eqn:Ea; [|done].
    apply at_address_true in Ea, E. exfalso.
    assert (at_address (subject a) (signal a) b = true); [|congruence].
    apply at_address_true. unfold address in *. congruence.
Qed.

(** Writing the first record an observation asks for leaves the others to be asked for. *)
Lemma observe_slots_step slots held a D :
  NoDup (slot_address <$> slots) → Forall settles slots →
  observe_slots slots held = Ok (a :: D) → observe_slots slots (upsert_alarm a held) = Ok D.
Proof.
  unfold observe_slots. revert D. induction slots as [|x slots IH]; [done|]. intros D.
  cbn [fmap list_fmap]. rewrite NoDup_cons, Forall_cons. intros [Hx Hnd] [Hs Hss].
  cbn [mapM mbind result_bind].
  destruct (slot_next x (stored_alarm held _ _)) as [o|e] eqn:Eo; [|done]. cbn.
  destruct (mapM _ slots) as [rs|e] eqn:Er; [|done]. cbn.
  destruct o as [b|].
  - cbn. intros [= -> <-]. apply Hs in Eo as [Ha Hn].
    rewrite stored_upsert, (proj2 (at_address_true _ _ _)) by done.
    rewrite Hn. cbn. assert (mapM (λ x0, slot_next x0
      (stored_alarm (upsert_alarm a held) (slot_subject x0) (slot_signal x0))) slots = Ok rs) as ->; [|done].
    rewrite <-Er. clear -Hx Ha. induction slots as [|y slots IH]; [done|]. cbn.
    assert (at_address (slot_subject y) (slot_signal y) a = false) as Hy.
    { apply not_true_iff_false. rewrite at_address_true. intros E. apply Hx. cbn [fmap list_fmap].
      apply elem_of_cons. left. unfold slot_address in *. congruence. }
    rewrite stored_upsert, Hy, IH; [done|]. intros Hin. apply Hx. by right.
  - cbn. intros E. specialize (IH D Hnd Hss).
    assert (∃ y, y ∈ slots ∧ address a = slot_address y) as (y & Hin & Ha).
    { clear -Er E Hss. revert rs Er E. induction slots as [|y slots IH]; intros rs; cbn.
      - by intros [= <-].
      - apply Forall_cons in Hss as [Hy Hss].
        destruct (slot_next y _) as [o|] eqn:Eo; [|done]. cbn.
        destruct (mapM _ slots) as [rs'|] eqn:Er; [|done]. cbn. intros [= <-]. cbn.
        destruct o as [b|]; cbn.
        + intros [= -> _]. exists y. split; [by left|]. by apply Hy in Eo as [-> _].
        + intros E. destruct (IH Hss rs' eq_refl E) as (z & ? & ?). exists z. split; [by right|done]. }
    assert (at_address (slot_subject x) (slot_signal x) a = false) as Hy.
    { apply not_true_iff_false. rewrite at_address_true. intros E'. apply Hx.
      apply list_elem_of_fmap. exists y. split; [|done]. unfold slot_address in *. congruence. }
    rewrite stored_upsert, Hy, Eo. cbn. specialize (IH E).
    revert IH. match goal with |- mbind _ ?m = _ → _ => by destruct m end.
Qed.

Lemma observe_slots_prefix slots held D j :
  NoDup (slot_address <$> slots) → Forall settles slots → observe_slots slots held = Ok D →
  observe_slots slots (foldl (λ h a, upsert_alarm a h) held (take j D)) = Ok (drop j D).
Proof.
  intros Hnd Hs. revert held D. induction j as [|j IH]; intros held D; [done|].
  destruct D as [|a D]; [done|]. intros E. cbn [take drop foldl]. apply IH.
  by apply observe_slots_step.
Qed.

(** *** An address composed from this tick's readings *)

Definition address_slot (s : AlarmSubject) (rs : list AlarmReading) (sha by_ : string)
    (g : AlarmSignal) : slot := {|
  slot_subject := s; slot_signal := g;
  slot_next st := observed ← _composed g s rs sha by_; next_alarm_record st observed |}.

Lemma address_slot_settles s rs sha by_ g : settles (address_slot s rs sha by_ g).
Proof.
  intros st a. cbn. intros (o & Ho & Hn)%bind_ok. unfold next_alarm_record in Hn.
  apply bind_ok in Hn as (was & _ & Hn). apply bind_ok in Hn as (now & Hnow & [= Hn]).
  destruct (Bool.eqb was now); [done|]. injection Hn as ->.
  apply composed_replays in Ho as Hc. destruct Hc as (f & raised & _ & _ & Hs & Hg & Hr).
  split; [unfold address, slot_address; cbn; congruence|]. rewrite Ho. cbn [mbind result_bind].
  unfold next_alarm_record. rewrite Hnow. cbn. by destruct now.
Qed.

(** *** The lane's tally *)

Definition tally_readings (head lane : string) (anchor latest : LaneTally) (closed : list string)
    (n : nat) : list AlarmReading :=
  [{| source_ref := lane; evidence := TallyEvidence anchor; at_sha := Some head |};
   {| source_ref := lane; evidence := TallyEvidence latest; at_sha := Some head |};
   {| source_ref := lane; evidence := ReferencesEvidence closed; at_sha := Some head |};
   {| source_ref := COMMITS_WITHOUT_CLOSURE_BOUND; evidence := CountEvidence n; at_sha := Some head |}].

Lemma tally_unmoved_ok scope lane head anchor latest closed n sha by_ r :
  tally_unmoved (LaneSubject scope lane) (tally_readings head lane anchor latest closed n) sha by_ = Ok r →
  NoDup (tally_open latest) ∧ (closed ≠ [] → r = None).
Proof.
  unfold tally_unmoved, _lane_tally_unmoved, tally_readings, refuse_if, raise_if. cbn.
  rewrite (bool_decide_true (lane = lane)), (bool_decide_true (_ = COMMITS_WITHOUT_CLOSURE_BOUND)) by done. cbn.
  destruct (repeats (tally_open anchor)); cbn; [done|].
  destruct (repeats (tally_open latest)) eqn:Hnd; cbn; [done|].
  destruct (repeats closed); cbn; [done|].
  repeat match goal with |- context [existsb ?f closed] => destruct (existsb f closed); cbn; try done end.
  intros Hr.
  split; [by apply negb_false_iff, bool_decide_eq_true in Hnd|].
  intros Hc. rewrite (bool_decide_false (closed = [])) in Hr by done. rewrite orb_true_r in Hr. congruence.
Qed.

(** Right after a lane moved, its tally stands at the reading it moved to. *)
Lemma tally_unmoved_still scope lane head latest n sha by_ :
  NoDup (tally_open latest) →
  tally_unmoved (LaneSubject scope lane) (tally_readings head lane latest latest [] n) sha by_ = Ok None.
Proof.
  intros Hnd. unfold tally_unmoved, _lane_tally_unmoved, tally_readings, repeats, refuse_if, raise_if. cbn.
  rewrite (bool_decide_true (lane = lane)), (bool_decide_true (_ = COMMITS_WITHOUT_CLOSURE_BOUND)) by done. cbn.
  rewrite (bool_decide_true (NoDup (tally_open latest))) by done.
  cbn. rewrite difference_diag_L, size_empty.
  by destruct (bool_decide _).
Qed.

Lemma make_reading_ok r r' : make_reading r = Ok r' ↔ reading_valid r = true ∧ r' = r.
Proof.
  unfold make_reading, raise_if. destruct (reading_valid r); cbn; [naive_solver|].
  split; [done|]. by intros [? _].
Qed.
Lemma reading_at_ok head ref e r :
  reading_at head ref e = Ok r ↔
  identities [ref; head] = true ∧ evidence_valid e = true
  ∧ r = {| source_ref := ref; evidence := e; at_sha := Some head |}.
Proof.
  unfold reading_at. rewrite make_reading_ok. unfold reading_valid. cbn. rewrite !andb_true_iff. tauto.
Qed.
Lemma make_tally_ok t t' :
  make_tally t = Ok t' ↔ identities (tally_open t ++ tally_commits t) = true ∧ t' = t.
Proof.
  unfold make_tally, raise_if. destruct (identities _); cbn; [naive_solver|].
  split; [done|]. by intros [? _].
Qed.

Definition tally_slot (scope lane : string) (roster gap criteria : list TrackerIssue)
    (record : LaneRunState) (max_commits : nat) (by_ : string) : slot := {|
  slot_subject := LaneSubject scope lane; slot_signal := TALLY_UNMOVED;
  slot_next st := next_tally_record scope lane st roster gap criteria record max_commits by_ |}.

(** What a tally is composed from: the earlier reading, and what closed since. *)
Definition tally_anchor (st : option RunAlarm) (roster : list TrackerIssue) : result exn LaneTally :=
  match st with Some a => anchor_of a | None => lane_start roster end.
Definition tally_latest (gap : list TrackerIssue) (record : LaneRunState) : LaneTally :=
  {| tally_open := sort_by id (issue_key <$> gap); tally_commits := commit_sha <$> commits record |}.
Definition closed_since (anchor : LaneTally) (criteria gap : list TrackerIssue) : result exn (list string) :=
  tick ← observe_tick (tally_open anchor) criteria gap;
  Ok (sort_by id (elements (closed_previous_work tick))).

Section tally.
Context (scope lane : string) (roster gap criteria : list TrackerIssue) (record : LaneRunState).
Context (max_commits : nat) (by_ : string).
Notation s := (LaneSubject scope lane).
Notation head := (head_sha record).
Notation latest := (tally_latest gap record).
Notation rs anchor closed := (tally_readings head lane anchor latest closed max_commits).

(** The readings of a tick are whole when its record was composed. *)
Definition readable (anchor : LaneTally) (closed : list string) : Prop :=
  identities [lane; head] = true ∧ identities (tally_open latest ++ tally_commits latest) = true
  ∧ identities (tally_open anchor ++ tally_commits anchor) = true ∧ identities closed = true.

Lemma identities_Forall l : identities l = true ↔ Forall (λ k, str_blank k = false) l.
Proof.
  induction l as [|k l IH]; [done|]. cbn. rewrite andb_true_iff, Forall_cons, IH.
  unfold identity. by rewrite negb_true_iff.
Qed.
Lemma identities_app l k : identities (l ++ k) = identities l && identities k.
Proof. apply forallb_app. Qed.

Lemma next_tally_eval st was anchor closed :
  alarm_raised st = Ok was → tally_anchor st roster = Ok anchor →
  closed_since anchor criteria gap = Ok closed → readable anchor closed →
  next_tally_record scope lane st roster gap criteria record max_commits by_
  = raise_now ← tally_unmoved s (rs anchor closed) head by_;
    desired ← or_quiet raise_now s TALLY_UNMOVED (rs anchor closed) head by_;
    Ok (if negb (Bool.eqb (bool_decide (is_Some raise_now)) was)
           || (negb (bool_decide (closed = [])) && negb (bool_decide (tally_open latest = [])))
        then Some desired else None).
Proof.
  intros Hw Ha Hc (Hlh & Hl & Han & Hcl). unfold next_tally_record. rewrite Hw. cbn [mbind result_bind].
  unfold tally_anchor in Ha. rewrite Ha. cbn [mbind result_bind].
  unfold closed_since in Hc. destruct (observe_tick _ _ _) as [tick|]; [|done].
  cbn [mbind result_bind] in *. injection Hc as <-.
  change {| tally_open := sort_by id (issue_key <$> gap); tally_commits := _ |} with latest.
  rewrite (proj2 (make_tally_ok latest latest)) by done. cbn [mbind result_bind].
  assert (∀ ref e, identity ref = true → evidence_valid e = true → reading_at head ref e
    = Ok {| source_ref := ref; evidence := e; at_sha := Some head |}) as Hr.
  { intros ref e Hid He. apply reading_at_ok. split; [|done].
    cbn in *. rewrite Hid. by apply andb_true_iff in Hlh as [_ ->]. }
  assert (identity lane = true) as Hlane by (cbn in Hlh; by apply andb_true_iff in Hlh as [-> _]).
  by rewrite !Hr.
Qed.

Lemma next_tally_inv st o :
  next_tally_record scope lane st roster gap criteria record max_commits by_ = Ok o →
  ∃ was anchor closed raised a, alarm_raised st = Ok was ∧ tally_anchor st roster = Ok anchor
    ∧ closed_since anchor criteria gap = Ok closed ∧ readable anchor closed
    ∧ tally_unmoved s (rs anchor closed) head by_ = Ok raised
    ∧ or_quiet raised s TALLY_UNMOVED (rs anchor closed) head by_ = Ok a
    ∧ o = (if negb (Bool.eqb (bool_decide (is_Some raised)) was)
              || (negb (bool_decide (closed = [])) && negb (bool_decide (tally_open latest = [])))
           then Some a else None).
Proof.
  intros E. unfold next_tally_record in E.
  apply bind_ok in E as (was & Hw & E). apply bind_ok in E as (anchor & Ha & E).
  apply bind_ok in E as (tick & Ht & E). cbv zeta in E.
  apply bind_ok in E as (lt & Hl & E). apply make_tally_ok in Hl as [Hl ->].
  repeat (apply bind_ok in E as (? & [? [? ->]]%reading_at_ok & E)).
  apply bind_ok in E as (raised & Hr & E). apply bind_ok in E as (a & Hd & [= <-]).
  exists was, anchor, (sort_by id (elements (closed_previous_work tick))), raised, a.
  unfold closed_since. rewrite Ht. by split_and!.
Qed.

Lemma closed_since_readable anchor closed :
  closed_since anchor criteria gap = Ok closed → tick_readable (tally_open anchor) criteria gap.
Proof.
  unfold closed_since. pose proof (observe_tick_spec (tally_open anchor) criteria gap) as Hs.
  destruct (observe_tick _ _ _); [by destruct Hs|done].
Qed.

Lemma closed_since_settled anchor :
  tick_readable (tally_open anchor) criteria gap → identities (tally_open latest) = true →
  closed_since latest criteria gap = Ok [].
Proof.
  intros (H1 & H2 & H3 & H4 & H5 & _ & _) Hid. unfold closed_since.
  pose proof (observe_tick_spec (tally_open latest) criteria gap) as Hs.
  assert (∀ k, k ∈ tally_open latest ↔ k ∈ issue_key <$> gap) as Hk by (intros k; apply elem_of_sort_by).
  destruct (observe_tick _ _ _) as [tick|e].
  - destruct Hs as [_ Hs]. cbn. assert (closed_previous_work tick = ∅) as ->; [|by rewrite elements_empty].
    apply set_eq. intros k. rewrite Hs, Hk. set_solver.
  - exfalso. destruct Hs as [Hs _]. apply Hs. unfold tick_readable. split_and!; try done.
    + cbn. by rewrite sort_by_perm.
    + by apply identities_Forall.
Qed.

Lemma make_quiet_ok s0 g rs0 sha by0 a :
  make_alarm (quiet_alarm s0 g rs0 sha by0) = Ok a ↔
  a = quiet_alarm s0 g rs0 sha by0 ∧ subject_valid s0 = true ∧ rs0 ≠ [] ∧ forallb reading_valid rs0 = true
  ∧ identities [sha; by0] = true.
Proof.
  unfold make_alarm, raise_if. destruct (alarm_valid _) eqn:E; unfold alarm_valid, quiet_alarm in E; cbn [subject signal readings bound raised_at_sha raised_by] in E; cbn [negb].
  - rewrite !andb_true_iff, negb_true_iff, bool_decide_eq_false in E. naive_solver.
  - split; [done|]. intros (_ & H1 & H2 & H3 & H4). rewrite H1, H3, H4 in E.
    by rewrite bool_decide_false in E.
Qed.

Lemma tally_settles : settles (tally_slot scope lane roster gap criteria record max_commits by_).
Proof.
  intros st a E. cbn in E.
  apply next_tally_inv in E as (was & anchor & closed & raised & b & Hw & Ha & Hc & Hrd & Hr & Hd & Ho).
  assert (b = a) as -> by (destruct (_ || _) in Ho; by simplify_eq).
  assert (fold_of TALLY_UNMOVED = Ok tally_unmoved) as Hf by done.
  destruct (or_quiet_replays _ _ _ _ _ _ _ a Hf Hr Hd) as (Es & Eg & Er & _ & Hraised).
  split; [unfold address, slot_address; cbn; congruence|].
  assert (anchor_of a = Ok (if decide (closed = []) then anchor else latest)) as Hanchor.
  { unfold anchor_of. rewrite Hraised. cbn [mbind result_bind]. rewrite Er. unfold tally_readings.
    cbn. by destruct (decide _). }
  cbn [slot_next tally_slot]. destruct (decide (closed = [])) as [->|Hne].
  - erewrite next_tally_eval by done. rewrite Hr. cbn [mbind result_bind]. rewrite Hd. cbn.
    by rewrite Bool.eqb_reflx.
  - destruct Hrd as (Hlh & Hl & Han & Hcl).
    pose proof Hl as Hlo. rewrite identities_app in Hlo. apply andb_true_iff in Hlo as [Hlo _].
    apply tally_unmoved_ok in Hr as [Hnd Hq]. rewrite (Hq Hne) in *.
    erewrite (next_tally_eval (Some a)); [|done|done| |].
    + rewrite tally_unmoved_still by done. cbn [mbind result_bind].
      cbn [or_quiet] in *. apply make_quiet_ok in Hd as (_ & Hsv & _ & _ & Hid).
      assert (forallb reading_valid (rs latest []) = true) as Hrv.
      { cbn in Hlh. rewrite andb_true_r in Hlh. apply andb_true_iff in Hlh as [H1 H2].
        unfold tally_readings, reading_valid. cbn [forallb source_ref evidence at_sha option_list evidence_valid].
        rewrite Hl. cbn. by rewrite H1, H2. }
      rewrite (proj2 (make_quiet_ok s TALLY_UNMOVED (rs latest []) head by_ _)) by by split_and!.
      done.
    + eapply closed_since_settled; [by eapply closed_since_readable|done].
    + unfold readable. split_and!; try done.
Qed.
End tally.

(** *** The slots of a lane's observation *)

Lemma observe_slots_app l k held :
  observe_slots (l ++ k) held
  = x ← observe_slots l held; y ← observe_slots k held; Ok (x ++ y).
Proof.
  unfold observe_slots. induction l as [|a l IH]; cbn [app mapM].
  { match goal with |- mbind _ ?m = _ => by destruct m end. }
  destruct (slot_next a _) as [o|e]; [|done]. cbn [mbind result_bind] in *.
  revert IH. generalize (mapM (λ x, slot_next x (stored_alarm held (slot_subject x) (slot_signal x)))).
  intros obs. destruct (obs (l ++ k)), (obs l), (obs k); cbn; intros; simplify_eq/=; try done.
  by rewrite <-app_assoc, IH.
Qed.

Lemma fmap_of_bind {A B C} (f : B → C) (g : A → list B) (l : list A) :
  f <$> (l ≫= g) = l ≫= (λ x, f <$> g x).
Proof. induction l as [|x l IH]; [done|]. csimpl. by rewrite fmap_app, IH. Qed.

Lemma observe_one x held :
  observe_slots [x] held
  = o ← slot_next x (stored_alarm held (slot_subject x) (slot_signal x)); Ok (option_list o).
Proof.
  unfold observe_slots. cbn [mapM]. destruct (slot_next x _); [|done]. cbn. by rewrite app_nil_r.
Qed.
Lemma observe_two x y held :
  observe_slots [x; y] held
  = o ← slot_next x (stored_alarm held (slot_subject x) (slot_signal x));
    o' ← slot_next y (stored_alarm held (slot_subject y) (slot_signal y));
    Ok (option_list o ++ option_list o').
Proof.
  change [x; y] with ([x] ++ [y]). rewrite observe_slots_app, !observe_one.
  destruct (slot_next x _); [|done]. cbn. by destruct (slot_next y _).
Qed.

Section slots.
Context (scope lane : string) (standing : LaneStanding) (criteria : list TrackerIssue).
Context (record : LaneRunState) (events : list LaneRunEvent) (max_commits : nat) (by_ : string).
Notation head := (head_sha record).
Notation at_head ref e := {| source_ref := ref; evidence := e; at_sha := Some head |}.
Notation known := (dict_of ((λ i, (issue_key i, i)) <$> criteria)).

Definition criterion_slots (projections : list RunEventProjection) (member : string) : list slot :=
  match dict_get known member with
  | Some criterion =>
      match parent_key criterion with
      | Some parent =>
          let s := CriterionSubject scope parent member (Some lane) in
          let state := at_head member (StateEvidence (state_kind criterion)) in
          let stream := at_head lane (RunEventsEvidence
                          (filter (λ p, projected_subject p = Some member) projections)) in
          let presence := at_head lane (PresenceEvidence (is_ready standing)) in
          [address_slot s [state; stream] head by_ TALLY_REGRESSED;
           address_slot s [state; stream; presence] head by_ LAPSE_UNDISCHARGED]
      | None => []
      end
  | None => []
  end.

Definition tally_slots : list slot :=
  match standing with
  | Ready roster gap => [tally_slot scope lane roster gap criteria record max_commits by_]
  | Finished => [tally_slot scope lane [] [] criteria record max_commits by_]
  | Waiting => []
  end.

Definition lane_slots : list slot :=
  tally_slots
  ++ [address_slot (LaneSubject scope lane)
        [at_head lane (RunEventsEvidence (session_projections events))] head by_ COMPOSITION_SUBSTITUTED]
  ++ (accounted (account_projections events) ≫= criterion_slots (account_projections events)).

Lemma criterion_alarm_slots projections stored member D :
  _criterion_alarm scope lane standing known projections record stored by_ member = Ok D →
  ∀ held, _criterion_alarm scope lane standing known projections record held by_ member
          = observe_slots (criterion_slots projections member) held.
Proof.
  unfold _criterion_alarm, criterion_slots. destruct (dict_get known member) as [c|]; [|done].
  destruct (parent_key c) as [parent|]; [|done]. intros E held.
  apply bind_ok in E as ([] & Hs & E). cbv zeta in E.
  apply bind_ok in E as (state & Hst & E). apply bind_ok in E as (stream & Hsm & E).
  apply bind_ok in E as (presence & Hp & _).
  rewrite Hs, Hst, Hsm, Hp. apply reading_at_ok in Hst as (_ & _ & ->), Hsm as (_ & _ & ->), Hp as (_ & _ & ->).
  by rewrite observe_two.
Qed.

Lemma criteria_slots projections stored ms written :
  mapM (_criterion_alarm scope lane standing known projections record stored by_) ms = Ok written →
  ∀ held, (written ← mapM (_criterion_alarm scope lane standing known projections record held by_) ms;
           Ok (mjoin written))
          = observe_slots (ms ≫= criterion_slots projections) held.
Proof.
  revert written. induction ms as [|m ms IH]; intros written; [done|]. cbn [mapM].
  intros (D & Hm & (ws & Hms & _)%bind_ok)%bind_ok held.
  change ((m :: ms) ≫= criterion_slots projections)
    with (criterion_slots projections m ++ (ms ≫= criterion_slots projections)).
  rewrite observe_slots_app, <-(IH _ Hms held), (criterion_alarm_slots _ _ _ _ Hm held).
  destruct (observe_slots _ _); [|done]. cbn [mbind result_bind].
  match goal with |- mbind _ (mbind _ ?x) = _ => by destruct x end.
Qed.

(** A lane's records are those of its slots, whatever its addresses hold. *)
Lemma lane_alarm_slots stored D :
  lane_alarm_records scope lane standing criteria record stored events max_commits by_ = Ok D →
  ∀ held, lane_alarm_records scope lane standing criteria record held events max_commits by_
          = observe_slots lane_slots held.
Proof.
  unfold lane_alarm_records. intros E held.
  apply bind_ok in E as ([] & Hs & E). rewrite Hs. cbv zeta in *. cbn [mbind result_bind] in *.
  apply bind_ok in E as (tally & _ & E). apply bind_ok in E as (stream & Hst & E). rewrite Hst.
  apply reading_at_ok in Hst as (_ & _ & ->). apply bind_ok in E as (sub & _ & E).
  apply bind_ok in E as (crit & Hc & _). unfold _criterion_alarms in *. cbv zeta in *.
  apply bind_ok in Hc as (ws & Hc & _). rewrite (criteria_slots _ _ _ _ Hc held).
  unfold lane_slots. rewrite !observe_slots_app, observe_one.
  change (slot_next (address_slot ?s ?rs ?sha ?b ?g) _) with (address_record held s rs sha b g).
  assert (_lane_tally scope lane standing criteria record held max_commits by_ ≫= (λ o, Ok (option_list o))
    = observe_slots tally_slots held) as <-.
  { unfold _lane_tally, tally_slots. destruct standing; [by rewrite observe_one|done|by rewrite observe_one]. }
  destruct (_lane_tally _ _ _ _ _ _ _ _); [|done]. cbn [mbind result_bind].
  destruct (address_record _ _ _ _ _ _); [|done]. cbn [mbind result_bind].
  by destruct (observe_slots _ _).
Qed.

Lemma lane_slots_settle : Forall settles lane_slots.
Proof.
  unfold lane_slots. rewrite !Forall_app. split_and!.
  - unfold tally_slots. destruct standing; [|constructor|]; apply Forall_singleton, tally_settles.
  - apply Forall_singleton, address_slot_settles.
  - apply Forall_forall. intros x (m & Hx & _)%list_elem_of_bind. unfold criterion_slots in Hx.
    destruct (dict_get known m) as [c|]; [|by apply elem_of_nil in Hx].
    destruct (parent_key c); [|by apply elem_of_nil in Hx]. cbv zeta in Hx.
    rewrite !elem_of_cons, elem_of_nil in Hx. destruct Hx as [->|[->|[]]]; apply address_slot_settles.
Qed.

Lemma lane_slots_NoDup : NoDup (slot_address <$> lane_slots).
Proof.
  assert (∀ m x, x ∈ criterion_slots (account_projections events) m →
    ∃ parent g, slot_address x = (CriterionSubject scope parent m (Some lane), g)) as Hc.
  { intros m x Hx. unfold criterion_slots in Hx. destruct (dict_get known m) as [c|]; [|by apply elem_of_nil in Hx].
    destruct (parent_key c); [|by apply elem_of_nil in Hx]. cbv zeta in Hx.
    rewrite !elem_of_cons, elem_of_nil in Hx. destruct Hx as [->|[->|[]]]; by do 2 eexists. }
  unfold lane_slots. rewrite !fmap_app. apply NoDup_app. split; [|split].
  - unfold tally_slots. destruct standing; repeat constructor; set_solver.
  - intros a Ha. rewrite not_elem_of_app. split.
    + unfold tally_slots in Ha. destruct standing; set_solver.
    + intros (x & -> & (m & Hx & _)%list_elem_of_bind)%list_elem_of_fmap.
      apply Hc in Hx as (p & g & Hx). rewrite Hx in Ha. unfold tally_slots in Ha. destruct standing; set_solver.
  - apply NoDup_app. split; [repeat constructor; set_solver|]. split.
    + intros a Ha (x & -> & (m & Hx & _)%list_elem_of_bind)%list_elem_of_fmap.
      apply Hc in Hx as (p & g & Hx). rewrite Hx in Ha. set_solver.
    + rewrite fmap_of_bind. apply NoDup_bind.
      * intros m m' a _ _ (x & -> & Hx)%list_elem_of_fmap (y & Hxy & Hy)%list_elem_of_fmap.
        apply Hc in Hx as (p & g & Hx), Hy as (p' & g' & Hy). congruence.
      * intros m _. unfold criterion_slots. destruct (dict_get known m) as [c|]; [|constructor].
        destruct (parent_key c); [|constructor]. cbn. repeat constructor; set_solver.
      * unfold accounted. rewrite sort_by_perm. apply NoDup_remove_dups.
Qed.
End slots.

(** ** Announcements *)

Lemma signal_value_inj g g' : alarm_signal_value g = alarm_signal_value g' → g = g'.
Proof. by destruct g, g'. Qed.

(** The key of a record of the lane. *)
Definition lane_key_of (a : RunAlarm) : option string := Some (alarm_signal_value (signal a)).

Lemma lane_due_ok a events o :
  lane_event_due a events = Ok o →
  ∃ raised, alarm_raised (Some a) = Ok raised ∧ alarm_event_key a = Ok (alarm_signal_value (signal a))
    ∧ alarm_event_due a raised events = Ok o.
Proof.
  unfold lane_event_due, refuse_if, raise_if. destruct (subject a) eqn:Es; cbn; try done.
  intros (raised & Hr & Hd)%bind_ok. exists raised. split; [done|]. split; [|done].
  unfold alarm_event_key. by rewrite Es.
Qed.

Lemma due_ok a raised events o :
  alarm_event_due a raised events = Ok o →
  ∃ key lane, alarm_event_key a = Ok key ∧ alarm_event_lane a = Ok lane
    ∧ o = (if match last (spoken key events) with
              | None => negb raised
              | Some e => Bool.eqb (bool_decide (event_kind e = RUN_ALARM_RAISED)) raised
              end then None
           else Some {| event_kind := if raised then RUN_ALARM_RAISED else RUN_ALARM_CLEARED;
                        event_lane := lane; subject_key := Some key; event_sha := None |}).
Proof.
  unfold alarm_event_due. intros (key & Hk & (lane & Hl & [= <-])%bind_ok)%bind_ok. by exists key, lane.
Qed.

Lemma due_same a raised events events' key :
  alarm_event_key a = Ok key → spoken key events' = spoken key events →
  alarm_event_due a raised events' = alarm_event_due a raised events.
Proof. intros Hk Hs. unfold alarm_event_due. rewrite Hk. cbn. by rewrite Hs. Qed.

Lemma spoken_app key es es' : spoken key (es ++ es') = spoken key es ++ spoken key es'.
Proof. apply filter_app. Qed.
Lemma spoken_other key es : (∀ e, e ∈ es → subject_key e ≠ Some key) → spoken key es = [].
Proof. intros He. apply filter_none. intros e Hin [_ ?]. by apply (He e). Qed.

(** A transition that was due is posted, and then nothing is due. *)
Lemma due_posted a raised events e :
  alarm_event_due a raised events = Ok (Some e) → alarm_event_due a raised (events ++ [e]) = Ok None.
Proof.
  intros E. pose proof E as (key & lane & Hk & Hl & He)%due_ok.
  unfold alarm_event_due. rewrite Hk, Hl. cbn. rewrite spoken_app.
  match type of He with _ = (if ?b then _ else _) => destruct b end; [done|]. injection He as ->. unfold spoken at 2. rewrite filter_cons_True; cbn.
  - rewrite last_snoc. cbn. by destruct raised.
  - split; [|done]. destruct raised; set_solver.
Qed.

Lemma due_transition a events e :
  lane_event_due a events = Ok (Some e) →
  event_kind e ∈ _TRANSITION_KINDS ∧ subject_key e = lane_key_of a.
Proof.
  intros (raised & _ & Hk & (key & lane & Hk' & _ & He)%due_ok)%lane_due_ok.
  match type of He with _ = (if ?b then _ else _) => destruct b end; [done|].
  injection He as ->. cbn. split.
  - destruct raised; set_solver.
  - unfold lane_key_of. congruence.
Qed.

Lemma lane_due_ext a events events' :
  spoken (alarm_signal_value (signal a)) events' = spoken (alarm_signal_value (signal a)) events →
  lane_event_due a events' = lane_event_due a events.
Proof.
  intros Hs. unfold lane_event_due. destruct (refuse_if _ _) eqn:Er; [|done]. cbn.
  destruct (alarm_raised _); [|done]. cbn. unfold alarm_event_due, alarm_event_key.
  destruct (subject a); try done; cbn in *; by rewrite Hs.
Qed.

Lemma lane_due_posted a events e :
  lane_event_due a events = Ok (Some e) → lane_event_due a (events ++ [e]) = Ok None.
Proof.
  intros E. pose proof E as (raised & Hr & Hk & Hd)%lane_due_ok. apply due_posted in Hd.
  revert E. unfold lane_event_due. destruct (refuse_if _ _); [|done]. cbn. rewrite Hr. done.
Qed.

Definition posted (w : alarm_write) : option LaneRunEvent := match w with Posts e => Some e | _ => None end.

Lemma announce_posts events A : announce events A = (Posts <$> omap posted (announce events A).1, (announce events A).2).
Proof.
  induction A as [|a A IH]; [done|]. cbn [announce].
  destruct (lane_event_due a events) as [o|e]; [|done]. destruct (announce events A) as [ws r]. cbn in *.
  injection IH as IH. destruct o; cbn; [|by rewrite <-IH]. by rewrite <-IH.
Qed.

(** Posting the first announcement leaves the others to be made. *)
Lemma announce_step events A e es :
  NoDup (signal <$> A) → announce events A = (Posts <$> (e :: es), Ok tt) →
  announce (events ++ [e]) A = (Posts <$> es, Ok tt).
Proof.
  revert es. induction A as [|a A IH]; intros es; [done|]. cbn [announce fmap list_fmap].
  intros [Ha Hnd]%NoDup_cons.
  destruct (lane_event_due a events) as [o|] eqn:Eo; [|done]. destruct (announce events A) as [ws r] eqn:EA.
  destruct o as [e'|].
  - intros [= -> -> ->]. rewrite (lane_due_posted _ _ _ Eo).
    apply due_transition in Eo as [_ Hk].
    assert (announce (events ++ [e]) A = announce events A) as ->; [|by rewrite EA].
    clear -Ha Hk. induction A as [|b A IH]; [done|]. cbn.
    rewrite fmap_cons, not_elem_of_cons in Ha. destruct Ha as [Hne Ha]. rewrite (IH Ha).
    rewrite (lane_due_ext b events); [done|]. rewrite spoken_app, (spoken_other _ [e]); [apply app_nil_r|].
    intros x ->%list_elem_of_singleton. rewrite Hk. unfold lane_key_of. intros [= Hg%signal_value_inj]. done.
  - intros [= -> ->]. rewrite (IH es Hnd eq_refl).
    assert (∃ b, b ∈ A ∧ subject_key e = lane_key_of b) as (b & Hb & Hk).
    { clear -EA. revert EA. cbn. revert es. induction A as [|b A IH]; [done|]. intros es. cbn.
      destruct (lane_event_due b events) as [o|] eqn:Eo; [|done].
      destruct (announce events A) as [ws r] eqn:EA. destruct o as [e'|].
      + intros [= -> _ _]. apply due_transition in Eo as [_ ?]. exists b. by split; [left|].
      + intros [= -> ->]. destruct (IH es eq_refl) as (b' & ? & ?). exists b'. by split; [right|]. }
    rewrite (lane_due_ext a events), Eo; [done|].
    rewrite spoken_app, (spoken_other _ [e]); [apply app_nil_r|].
    intros x ->%list_elem_of_singleton. rewrite Hk. unfold lane_key_of. intros [= Hg%signal_value_inj].
    apply Ha. rewrite <-Hg. by apply list_elem_of_fmap_2.
Qed.

Lemma announce_prefix events A es j :
  NoDup (signal <$> A) → announce events A = (Posts <$> es, Ok tt) →
  announce (events ++ take j es) A = (Posts <$> drop j es, Ok tt).
Proof.
  intros Hnd. revert events es. induction j as [|j IH]; intros events es E.
  { by rewrite take_0, app_nil_r. }
  destruct es as [|e es]; [by rewrite app_nil_r|]. cbn [take drop].
  change (e :: take j es) with ([e] ++ take j es). rewrite app_assoc. by apply IH, announce_step.
Qed.

Lemma announce_done events A :
  announce events A = ([], Ok tt) → Forall (λ a, lane_event_due a events = Ok None) A.
Proof.
  induction A as [|a A IH]; [constructor|]. cbn [announce].
  destruct (lane_event_due a events) as [o|] eqn:Eo; [|done]. destruct (announce events A) as [ws r].
  destruct o; [done|]. intros [= -> ->]. constructor; [done|by apply IH].
Qed.

(** ** The carrier between ticks *)

Lemma upsert_address a h x : x ∈ address <$> upsert_alarm a h ↔ x = address a ∨ x ∈ address <$> h.
Proof.
  induction h as [|b h IH]; cbn [upsert_alarm]; [set_solver|].
  destruct (at_address _ _ b) eqn:Eb; csimpl; rewrite !elem_of_cons; [|rewrite IH; tauto].
  apply at_address_true in Eb. change (subject a, signal a) with (address a) in Eb. rewrite Eb. tauto.
Qed.
Lemma upsert_NoDup a h : NoDup (address <$> h) → NoDup (address <$> upsert_alarm a h).
Proof.
  induction h as [|b h IH]; cbn [upsert_alarm]; [intros; apply NoDup_singleton|]. csimpl.
  intros [Hb Hnd]%NoDup_cons. destruct (at_address _ _ b) eqn:Eb; csimpl; apply NoDup_cons.
  - apply at_address_true in Eb. change (subject a, signal a) with (address a) in Eb. by rewrite <-Eb.
  - rewrite upsert_address. split; [|by apply IH]. intros [E|]; [|done].
    assert (at_address (subject a) (signal a) b = true); [|congruence]. by apply at_address_true.
Qed.

Lemma dict_of_nodup_keys {K} `{EqDecision K} {V} (l : list (K * V)) : NoDup (dict_keys (dict_of l)).
Proof.
  unfold dict_of. assert (NoDup (dict_keys ([] : pydict K V))) as Hnil by constructor. revert Hnil.
  generalize ([] : pydict K V). induction l as [|[k v] l IH]; intros d Hd; [done|].
  cbn. by apply IH, dict_set_NoDup.
Qed.

Section announceable.
Context (scope lane : string).
Notation announced := (λ a, subject a = LaneSubject scope lane ∧ signal a ∈ OBSERVED_ALARMS).
Definition announced_pairs (h : list RunAlarm) : pydict AlarmSignal RunAlarm :=
  (λ a, (signal a, a)) <$> filter announced h.

Lemma pairs_upsert a h :
  announced_pairs (upsert_alarm a h)
  = if decide (announced a) then dict_set (announced_pairs h) (signal a) a else announced_pairs h.
Proof.
  unfold announced_pairs. induction h as [|b h IH]; cbn [upsert_alarm].
  { rewrite filter_cons, filter_nil. by case_decide. }
  destruct (at_address _ _ b) eqn:Eb.
  - apply at_address_true in Eb. injection Eb as Es Eg. rewrite !filter_cons.
    repeat case_decide; try (exfalso; rewrite Es, Eg in *; tauto); csimpl; [|done].
    by rewrite decide_True, Eg by done.
  - rewrite !filter_cons. repeat case_decide; csimpl; rewrite ?IH; try done.
    cbn [dict_set]. rewrite decide_False; [done|]. intros Eg.
    assert (at_address (subject a) (signal a) b = true); [|congruence].
    apply at_address_true. unfold address. destruct_and!. congruence.
Qed.

Lemma pairs_NoDup h : NoDup (address <$> h) → NoDup (announced_pairs h).*1.
Proof.
  unfold announced_pairs. induction h as [|b h IH]; [constructor|]. csimpl. intros [Hb Hnd]%NoDup_cons.
  rewrite filter_cons. case_decide as Pb; [|by apply IH]. csimpl.
  apply NoDup_cons. split; [|by apply IH]. rewrite <-list_fmap_compose.
  intros (a & Eg & [[Ha _] Hin]%list_elem_of_filter)%list_elem_of_fmap. apply Hb.
  apply list_elem_of_fmap. exists a. split; [|done]. unfold address. destruct Pb as [-> _]. cbn in Eg.
  by rewrite Ha, Eg.
Qed.

Lemma announceable_upsert h a D :
  NoDup (address <$> h) → _announceable scope lane (upsert_alarm a h) D = _announceable scope lane h (a :: D).
Proof.
  intros Hnd. unfold _announceable. f_equal.
  change (a :: D) with ([a] ++ D). rewrite !filter_app, !fmap_app. unfold dict_of. rewrite !foldl_app.
  f_equal. change (dict_of (announced_pairs (upsert_alarm a h))
    = foldl (λ d kv, dict_set d kv.1 kv.2) (dict_of (announced_pairs h)) (announced_pairs [a])).
  rewrite !dict_of_NoDup by (apply pairs_NoDup; first [done|by apply upsert_NoDup]).
  rewrite pairs_upsert. unfold announced_pairs at 4. rewrite filter_cons, filter_nil. by case_decide.
Qed.

Lemma announceable_prefix h D j :
  NoDup (address <$> h) →
  NoDup (address <$> foldl (λ h a, upsert_alarm a h) h (take j D))
  ∧ _announceable scope lane (foldl (λ h a, upsert_alarm a h) h (take j D)) (drop j D)
    = _announceable scope lane h D.
Proof.
  revert h D. induction j as [|j IH]; intros h D Hnd; [done|]. destruct D as [|a D]; [done|].
  cbn [take drop foldl]. destruct (IH (upsert_alarm a h) D) as [? ->]; [by apply upsert_NoDup|].
  split; [done|]. by apply announceable_upsert.
Qed.

Lemma announceable_signals h D : NoDup (signal <$> _announceable scope lane h D).
Proof.
  unfold _announceable. set (l := _ <$> filter _ _).
  assert (∀ kv, kv ∈ dict_of l → kv.1 = signal kv.2) as Hk.
  { intros kv Hin%dict_of_elem. subst l. apply list_elem_of_fmap in Hin as (a & -> & _). done. }
  assert (signal <$> dict_values (dict_of l) = dict_keys (dict_of l)) as ->.
  { unfold dict_values, dict_keys. rewrite <-list_fmap_compose. apply list_fmap_ext.
    intros i kv Hin%list_elem_of_lookup_2. symmetry. by apply Hk. }
  apply dict_of_nodup_keys.
Qed.
End announceable.

(** ** A tick that was killed *)

Definition is_lease (w : alarm_write) : bool := match w with Leases _ => true | _ => false end.
(** What a tick leaves on the tracker. *)
Definition effects (ws : list alarm_write) : list alarm_write := filter (λ w, is_lease w = false) ws.

Lemma effects_app ws ws' : effects (ws ++ ws') = effects ws ++ effects ws'.
Proof. apply filter_app. Qed.
Lemma effects_rewrites D : effects (Rewrites <$> D) = Rewrites <$> D.
Proof. induction D as [|a D IH]; [done|]. csimpl. unfold effects in *. by rewrite filter_cons_True, IH. Qed.
Lemma effects_posts es : effects (Posts <$> es) = Posts <$> es.
Proof. induction es as [|e es IH]; [done|]. csimpl. unfold effects in *. by rewrite filter_cons_True, IH. Qed.

Lemma performs_app c ws ws' : performs c (ws ++ ws') = performs (performs c ws) ws'.
Proof. apply foldl_app. Qed.
Lemma performs_effects c ws : performs c (effects ws) = performs c ws.
Proof.
  revert c. induction ws as [|w ws IH]; intros c; [done|]. unfold effects. rewrite filter_cons.
  destruct w; cbn; apply IH.
Qed.
Lemma performs_rewrites c D :
  performs c (Rewrites <$> D) = {| held := foldl (λ h a, upsert_alarm a h) (held c) D; stream := stream c |}.
Proof. revert c. induction D as [|a D IH]; intros c; [by destruct c|]. csimpl. by rewrite IH. Qed.
Lemma performs_posts c es : performs c (Posts <$> es) = {| held := held c; stream := stream c ++ es |}.
Proof.
  revert c. induction es as [|e es IH]; intros c; csimpl; [by rewrite app_nil_r; destruct c|].
  rewrite IH. cbn. by rewrite <-app_assoc.
Qed.

(** A prefix of what a tick does is a prefix of what it leaves. *)
Lemma effects_take ws k : ∃ n, effects (take k ws) = take n (effects ws).
Proof.
  exists (length (effects (take k ws))). rewrite <-(take_drop k ws) at 3. rewrite effects_app.
  by rewrite take_app_length.
Qed.

Lemma write_records_ok prefixes lane D w :
  _write_records prefixes lane D = Ok w →
  effects w = Rewrites <$> D ∧ (D = [] → w = []) ∧ Forall (λ a, ∃ s, _surface prefixes lane a = Ok s) D.
Proof.
  destruct D as [|a D]; [by intros [= <-]|]. cbn [_write_records].
  intros (ss & Hss & [= <-])%bind_ok. split; [|split; [done|]].
  - unfold effects. rewrite filter_cons_False by done. apply (effects_rewrites (a :: D)).
  - apply mapM_ok in Hss. clear -Hss. induction Hss; constructor; eauto.
Qed.
Lemma write_records_suffix prefixes lane D w j :
  _write_records prefixes lane D = Ok w →
  ∃ w', _write_records prefixes lane (drop j D) = Ok w' ∧ effects w' = Rewrites <$> drop j D
    ∧ (drop j D = [] → w' = []).
Proof.
  intros (_ & _ & Hf)%write_records_ok. apply (Forall_drop _ j) in Hf.
  destruct (drop j D) as [|a D']; [by exists []|]. clear D. set (D := a :: D') in *.
  assert (∃ ss, mapM (_surface prefixes lane) D = Ok ss) as [ss Hss].
  { clear -Hf. induction Hf as [|b D [s Hs] _ [ss Hss]]; [by exists []|]. exists (s :: ss). cbn.
    by rewrite Hs; cbn; rewrite Hss. }
  assert (_write_records prefixes lane D = Ok (Leases (list_to_set ss) :: (Rewrites <$> D))) as E.
  { unfold _write_records, D. fold D. by rewrite Hss. }
  exists (Leases (list_to_set ss) :: (Rewrites <$> D)). split; [done|]. split; [|done].
  by apply write_records_ok in E as [? _].
Qed.

Section tick.
Context (prefixes : pydict string string) (scope lane : string) (standing : LaneStanding).
Context (criteria : list TrackerIssue) (max_commits : nat) (holder : string).

(** One tick of the lane over a carrier. *)
Definition tick (located : option LaneRunState) (c : carrier) : list alarm_write * result exn unit :=
  observe_lane prefixes scope lane standing criteria max_commits holder located (held c) (stream c).

Notation records state h es := (lane_alarm_records scope lane standing criteria state h es max_commits holder).

Lemma tick_inv state c ws :
  tick (Some state) c = (ws, Ok tt) →
  ∃ D written es, is_Some (dict_get prefixes MARKER_PURPOSE)
    ∧ records state (held c) (stream c) = Ok D ∧ _write_records prefixes lane D = Ok written
    ∧ announce (stream c) (_announceable scope lane (held c) D) = (Posts <$> es, Ok tt)
    ∧ ws = written ++ (Posts <$> es).
Proof.
  unfold tick, observe_lane, configured_marker_prefix. destruct (dict_get _ _); [|done].
  destruct (records state _ _) as [D|] eqn:ED; [|done].
  destruct (_write_records _ _ _) as [written|] eqn:Ew; [|done].
  rewrite announce_posts. destruct (announce _ _) as [ps r] eqn:Ea. intros [= <- ->].
  exists D, written, (omap posted ps). split_and!; try done.
  by rewrite announce_posts, Ea.
Qed.

(** What a tick reads of a stream is not what it posts. *)
Lemma announced_kinds events A es r :
  announce events A = (Posts <$> es, r) → Forall (λ e, event_kind e ∈ _TRANSITION_KINDS) es.
Proof.
  revert es. induction A as [|a A IH]; intros es; cbn [announce].
  { by destruct es. }
  destruct (lane_event_due a events) as [o|] eqn:Eo; [|by destruct es].
  destruct (announce events A) as [ws r'] eqn:EA. destruct o as [e|].
  - destruct es as [|e' es]; [done|]. intros [= -> Hes ->]. constructor; [by apply due_transition in Eo as []|].
    apply IH. by rewrite Hes.
  - intros [= -> ->]. by apply IH.
Qed.

Lemma transition_kinds k : k ∈ _TRANSITION_KINDS → k ∉ ACCOUNT_KINDS ∧ k ≠ NODE_SESSION_STARTED.
Proof.
  intros [->|[->|[]%elem_of_nil]%elem_of_cons]%elem_of_cons; split; try done;
    by apply (bool_decide_unpack _).
Qed.

Lemma transitions_unread events es :
  Forall (λ e, event_kind e ∈ _TRANSITION_KINDS) es →
  account_projections (events ++ es) = account_projections events
  ∧ session_projections (events ++ es) = session_projections events.
Proof.
  intros Hes. unfold account_projections, session_projections. rewrite !filter_app, !fmap_app.
  rewrite (filter_none _ es), (filter_none _ es), !app_nil_r; [done|..];
    intros e He; rewrite Forall_forall in Hes; apply Hes, transition_kinds in He; naive_solver.
Qed.

Lemma records_unread state h events es :
  Forall (λ e, event_kind e ∈ _TRANSITION_KINDS) es → records state h (events ++ es) = records state h events.
Proof.
  intros [Ha Hs]%(transitions_unread events). unfold lane_alarm_records, _criterion_alarms.
  by rewrite Ha, Hs.
Qed.

(** The next tick after [j] of the records and [i] of the events. *)
Lemma tick_after state c D written es j i :
  is_Some (dict_get prefixes MARKER_PURPOSE) → NoDup (address <$> held c) →
  records state (held c) (stream c) = Ok D → _write_records prefixes lane D = Ok written →
  announce (stream c) (_announceable scope lane (held c) D) = (Posts <$> es, Ok tt) →
  ∃ w', tick (Some state) {| held := foldl (λ h a, upsert_alarm a h) (held c) (take j D);
                             stream := stream c ++ take i es |} = (w' ++ (Posts <$> drop i es), Ok tt)
    ∧ effects w' = Rewrites <$> drop j D ∧ (drop j D = [] → w' = []).
Proof.
  intros [p Hp] Hnd HD Hw Ha.
  destruct (write_records_suffix _ _ _ _ j Hw) as (w' & Hw' & Heff & Hnil). exists w'. split; [|done].
  unfold tick, observe_lane, configured_marker_prefix. cbn [held stream]. rewrite Hp.
  rewrite records_unread by by eapply Forall_take, announced_kinds.
  pose proof (lane_alarm_slots _ _ _ _ _ _ _ _ _ _ HD) as Hslots. rewrite Hslots in HD |- *.
  rewrite (observe_slots_prefix _ _ _ j (lane_slots_NoDup _ _ _ _ _ _ _ _) (lane_slots_settle _ _ _ _ _ _ _ _) HD).
  rewrite Hw'. destruct (announceable_prefix scope lane (held c) D j Hnd) as [_ ->].
  rewrite (announce_prefix _ _ _ i (announceable_signals _ _ _ _) Ha). done.
Qed.

(** A cut of a tick is a cut of its records and of its events. *)
Lemma tick_cut D es n :
  take n ((Rewrites <$> D) ++ (Posts <$> es))
  = (Rewrites <$> take n D) ++ (Posts <$> take (n - length D) es).
Proof. by rewrite take_app, !fmap_take, length_fmap. Qed.

(** The agreement of the stream with a record. *)
Definition announced_rightly (c : carrier) (a : RunAlarm) : Prop :=
  alarm_raised (Some a) = Ok (bool_decide (event_kind <$>
    last (spoken (alarm_signal_value (signal a)) (stream c)) = Some RUN_ALARM_RAISED)).

Lemma due_none_agrees c a : lane_event_due a (stream c) = Ok None → announced_rightly c a.
Proof.
  intros (raised & Hr & Hk & (key & l & Hk' & _ & Ho)%due_ok)%lane_due_ok. unfold announced_rightly.
  rewrite Hr. f_equal. assert (key = alarm_signal_value (signal a)) as <- by congruence.
  destruct (last (spoken key (stream c))) as [e|]; cbn.
  - destruct (Bool.eqb _ raised) eqn:Eq; [|done]. apply Bool.eqb_prop in Eq as <-.
    apply bool_decide_ext. split; [by intros ->|by intros [= ->]].
  - by destruct raised.
Qed.

Lemma announceable_held h a :
  NoDup (address <$> h) → a ∈ h → subject a = LaneSubject scope lane → signal a ∈ OBSERVED_ALARMS →
  a ∈ _announceable scope lane h [].
Proof.
  intros Hnd Hin Hs Hg. unfold _announceable. rewrite app_nil_r.
  change (a ∈ dict_values (dict_of (announced_pairs scope lane h))).
  rewrite dict_of_NoDup by by apply pairs_NoDup. unfold announced_pairs, dict_values.
  rewrite <-list_fmap_compose. apply list_elem_of_fmap. exists a. split; [done|].
  by apply list_elem_of_filter.
Qed.

(** C18. A supervisor tick that was killed after any number of its writes is finished by the
    next one from the tracker alone: over the same facts the next tick writes exactly what
    the first had left to write, no record and no event twice, and ends in the state an
    uninterrupted tick ends in; a tick over what a whole tick left writes nothing at all.
    A tick writes every record before it posts the first event, and what it leaves agrees:
    each record of the lane replays, and the last transition the stream carries for its
    signal says what the record replays to. *)
Theorem tick_resumes state c ws :
  NoDup (address <$> held c) → tick (Some state) c = (ws, Ok tt) →
  (∀ k, ∃ ws', tick (Some state) (performs c (take k ws)) = (ws', Ok tt)
     ∧ effects (take k ws) ++ effects ws' = effects ws
     ∧ performs (performs c (take k ws)) ws' = performs c ws
     ∧ (length ws ≤ k → ws' = []))
  ∧ (∃ D es, effects ws = (Rewrites <$> D) ++ (Posts <$> es))
  ∧ NoDup (address <$> held (performs c ws))
  ∧ ∀ a, a ∈ held (performs c ws) → subject a = LaneSubject scope lane →
      signal a ∈ OBSERVED_ALARMS → announced_rightly (performs c ws) a.
Proof.
  intros Hnd (D & written & es & Hp & HD & Hw & Ha & ->)%tick_inv.
  pose proof (write_records_ok _ _ _ _ Hw) as (Hweff & _ & _).
  assert (effects (written ++ (Posts <$> es)) = (Rewrites <$> D) ++ (Posts <$> es)) as Heff.
  { by rewrite effects_app, effects_posts, Hweff. }
  assert (∀ j i, performs c ((Rewrites <$> take j D) ++ (Posts <$> take i es))
    = {| held := foldl (λ h a, upsert_alarm a h) (held c) (take j D); stream := stream c ++ take i es |}) as Hat.
  { intros j i. by rewrite performs_app, performs_rewrites, performs_posts. }
  split; [|split; [by exists D, es|]].
  - intros k. destruct (effects_take (written ++ (Posts <$> es)) k) as [n Hn].
    rewrite Heff, tick_cut in Hn. set (j := n) in Hn at 1. set (i := n - length D) in Hn.
    assert (∃ w', tick (Some state) (performs c (take k (written ++ (Posts <$> es))))
      = (w' ++ (Posts <$> drop i es), Ok tt) ∧ effects w' = Rewrites <$> drop j D ∧ (drop j D = [] → w' = []))
      as (w' & Ht & Hw' & Hnil).
    { rewrite <-performs_effects, Hn, Hat. by eapply tick_after. }
    assert (effects (w' ++ (Posts <$> drop i es)) = (Rewrites <$> drop j D) ++ (Posts <$> drop i es)) as Heff'.
    { by rewrite effects_app, effects_posts, Hw'. }
    assert (effects (take k (written ++ (Posts <$> es))) ++ effects (w' ++ (Posts <$> drop i es))
      = effects (written ++ (Posts <$> es))) as Hall.
    { rewrite Hn, Heff', Heff. unfold j, i. destruct (decide (length D ≤ n)).
      - rewrite (take_ge D), (drop_ge D) by done. csimpl. by rewrite <-app_assoc, <-fmap_app, take_drop.
      - replace (n - length D) with 0 by lia. rewrite take_0, drop_0. csimpl.
        by rewrite app_nil_r, app_assoc, <-fmap_app, take_drop. }
    exists (w' ++ (Posts <$> drop i es)). split_and!; [done|done| |].
    + rewrite <-(performs_effects (performs c _)), <-(performs_effects c (take _ _)), <-performs_app, Hall.
      apply performs_effects.
    + intros Hk. rewrite take_ge in Hall by done.
      assert (effects (w' ++ (Posts <$> drop i es)) = []) as Hz.
      { apply (app_inv_head (effects (written ++ (Posts <$> es)))). by rewrite app_nil_r. }
      rewrite Heff' in Hz. apply app_eq_nil in Hz as [H1%fmap_nil_inv H2%fmap_nil_inv].
      by rewrite (Hnil H1), H2.
  - pose proof (announceable_prefix scope lane (held c) D (length D) Hnd) as [Hnd' Hann].
    pose proof (announce_prefix _ _ _ (length es) (announceable_signals _ _ _ _) Ha) as Hend.
    rewrite <-performs_effects, Heff. specialize (Hat (length D) (length es)).
    rewrite !firstn_all in *. rewrite !drop_all in *. rewrite Hat in *. cbn [held] in *. split; [done|].
    intros a Hin Hs Hg. apply due_none_agrees. rewrite <-Hann in Hend. apply announce_done in Hend.
    rewrite Forall_forall in Hend. apply Hend. by apply announceable_held.
Qed.
End tick.

(** ** The transitions of a key *)

(** A raise first, then a clear, and so on. *)
Fixpoint alternates (up : bool) (ks : list RunEventKind) : Prop :=
  match ks with
  | [] => True
  | k :: ks => k = (if up then RUN_ALARM_RAISED else RUN_ALARM_CLEARED) ∧ alternates (negb up) ks
  end.
Definition alternating (key : string) (events : list LaneRunEvent) : Prop :=
  alternates true (event_kind <$> spoken key events).

Lemma alternates_snoc up ks k :
  alternates up ks →
  k = (if match last ks with
          | None => up
          | Some l => negb (bool_decide (l = RUN_ALARM_RAISED))
          end then RUN_ALARM_RAISED else RUN_ALARM_CLEARED) →
  alternates up (ks ++ [k]).
Proof.
  revert up. induction ks as [|k0 ks IH]; intros up; [by intros _ ->|]. cbn [alternates app].
  intros [-> Hks] ->. split; [done|]. apply IH; [done|]. rewrite last_cons.
  destruct (last ks); [done|]. by destruct up.
Qed.

Lemma due_alternates a raised events e key :
  alarm_event_due a raised events = Ok (Some e) → alternating key events → alternating key (events ++ [e]).
Proof.
  intros (key' & lane & _ & _ & He)%due_ok Halt. unfold alternating in *. rewrite spoken_app, fmap_app.
  match type of He with _ = (if ?b then _ else _) => destruct b eqn:Eb end; [done|]. injection He as ->.
  unfold spoken at 2. rewrite filter_cons, filter_nil. case_decide as Hk; [|by rewrite app_nil_r].
  destruct Hk as [_ [= ->]]. cbn. apply alternates_snoc; [done|]. rewrite fmap_last.
  destruct (last (spoken key events)) as [l|]; cbn in *.
  - destruct raised, (bool_decide _); done.
  - by destruct raised.
Qed.

(** A tick's announcements are each due, and speak at most once for a key. *)
Lemma announce_speaks_once events A es r key :
  announce events A = (Posts <$> es, r) → NoDup (signal <$> A) →
  (∀ e, e ∈ es → ∃ a, a ∈ A ∧ lane_event_due a events = Ok (Some e))
  ∧ (spoken key es = [] ∨ ∃ e, spoken key es = [e] ∧ e ∈ es).
Proof.
  revert es r. induction A as [|a A IH]; intros es r; cbn [announce].
  { destruct es; [|done]. intros _ _. split; [set_solver|by left]. }
  destruct (lane_event_due a events) as [o|] eqn:Eo.
  2:{ destruct es; [|done]. intros _ _. split; [set_solver|by left]. }
  destruct (announce events A) as [ws r'] eqn:EA. destruct o as [e|].
  - destruct es as [|e' es]; [done|]. intros [= -> Hes ->]. csimpl. intros [Hn Hnd]%NoDup_cons.
    destruct (IH es r) as [Hdue Hone]; [by rewrite Hes|done|]. split.
    { intros x [->|Hx]%elem_of_cons; [exists a; split; [by left|done]|].
      destruct (Hdue x Hx) as (b & ? & ?). exists b. by split; [right|]. }
    unfold spoken in *. rewrite filter_cons. case_decide as Hk.
    + right. exists e'. split; [|by left]. f_equal. apply filter_none. intros x Hx [_ Hkx].
      destruct (Hdue x Hx) as (b & Hb & Hbx). apply due_transition in Hbx as [_ Hbk], Eo as [_ Hak].
      destruct Hk as [_ Hk]. apply Hn. unfold lane_key_of in *.
      assert (signal a = signal b) as -> by (apply signal_value_inj; congruence).
      by apply list_elem_of_fmap_2.
    + destruct Hone as [->|(x & -> & ?)]; [by left|]. right. exists x. by split; [|right].
  - intros [= -> ->]. csimpl. intros [Hn Hnd]%NoDup_cons. destruct (IH es r eq_refl Hnd) as [Hdue Hone].
    split; [|done]. intros x Hx. destruct (Hdue x Hx) as (b & ? & ?). exists b. by split; [right|].
Qed.

Lemma announce_alternates events A es r key i :
  NoDup (signal <$> A) → announce events A = (Posts <$> es, r) →
  alternating key events → alternating key (events ++ take i es).
Proof.
  intros Hnd Ha Halt. destruct (announce_speaks_once _ _ _ _ key Ha Hnd) as [Hdue Hone].
  unfold alternating. rewrite spoken_app.
  assert (spoken key (take i es) = [] ∨ ∃ e, spoken key (take i es) = [e] ∧ e ∈ es) as Hone'.
  { assert (spoken key es = spoken key (take i es) ++ spoken key (drop i es)) as Hes.
    { by rewrite <-spoken_app, take_drop. }
    rewrite Hes in Hone. destruct Hone as [[-> _]%app_eq_nil|(e & He & Hin)]; [by left|].
    destruct (spoken key (take i es)) as [|x l]; [by left|].
    injection He as -> [-> _]%app_eq_nil. right. by exists e. }
  destruct Hone' as [->|(e & He & Hin)]; [by rewrite app_nil_r|].
  destruct (Hdue e Hin) as (a & _ & (raised & _ & _ & Hd)%lane_due_ok).
  pose proof (due_alternates _ _ _ _ key Hd Halt) as H'. unfold alternating in H'. rewrite spoken_app in H'.
  rewrite He. assert (spoken key [e] = [e]) as E; [|by rewrite E in H'].
  assert (e ∈ spoken key (take i es)) as He' by (rewrite He; by left).
  apply list_elem_of_filter in He' as [? _]. unfold spoken. by rewrite filter_cons_True.
Qed.

(** What any tick leaves: records, then what its announcements were. *)
Lemma tick_shape prefixes scope lane standing criteria max_commits holder located c ws r :
  tick prefixes scope lane standing criteria max_commits holder located c = (ws, r) →
  ∃ D es, effects ws = (Rewrites <$> D) ++ (Posts <$> es)
    ∧ (es = [] ∨ ∃ A, NoDup (signal <$> A) ∧ announce (stream c) A = (Posts <$> es, r)).
Proof.
  assert (∀ e, ([], e) = (ws, r) → ∃ D es, effects ws = (Rewrites <$> D) ++ (Posts <$> es)
    ∧ (es = [] ∨ ∃ A, NoDup (signal <$> A) ∧ announce (stream c) A = (Posts <$> es, r))) as Hnil.
  { intros e [= <- _]. exists [], []. by split; [|left]. }
  unfold tick, observe_lane. destruct (configured_marker_prefix _ _); [|apply Hnil].
  destruct located as [state|]; [|apply Hnil].
  destruct (lane_alarm_records _ _ _ _ _ _ _ _ _) as [D|]; [|apply Hnil].
  destruct (_write_records _ _ _) as [written|] eqn:Ew; [|apply Hnil].
  apply write_records_ok in Ew as (Hw & _ & _). rewrite announce_posts.
  destruct (announce _ _) as [ps r'] eqn:Ea. intros [= <- ->]. exists D, (omap posted ps).
  split; [by rewrite effects_app, Hw, effects_posts|]. right. eexists. split; [|by rewrite announce_posts, Ea].
  apply announceable_signals.
Qed.

(** What may happen to a lane's carrier. *)
Inductive lane_step (prefixes : pydict string string) : carrier → carrier → Prop :=
| tick_killed scope lane standing criteria max_commits holder located c ws r k :
    tick prefixes scope lane standing criteria max_commits holder located c = (ws, r) →
    lane_step prefixes c (performs c (take k ws))
| question_posts a raised c e :
    alarm_event_due a raised (stream c) = Ok (Some e) →
    lane_step prefixes c {| held := held c; stream := stream c ++ [e] |}
| others_post es c :
    Forall (λ e, event_kind e ∉ _TRANSITION_KINDS) es →
    lane_step prefixes c {| held := held c; stream := stream c ++ es |}
| others_write h c :
    lane_step prefixes c {| held := h; stream := stream c |}.

(** C19. Whatever is done to a lane, the transitions its stream carries for one key alternate,
    a raise first: ticks of any scopes over any facts, each killed after any number of its
    writes, the announcements of open questions, and anything else written to its records
    or posted to its stream. So a condition firing across many ticks is one event, and so
    is its end. *)
Theorem transitions_alternate prefixes c c' key :
  alternating key (stream c) → rtc (lane_step prefixes) c c' → alternating key (stream c').
Proof.
  intros Halt Hc. induction Hc as [|c1 c2 c3 Hs _ IH]; [done|]. apply IH. clear IH.
  destruct Hs as [scope lane standing criteria max_commits holder located c ws r k Ht|a raised c e Hd|es c He|h c].
  - apply tick_shape in Ht as (D & es & Heff & Hes). rewrite <-performs_effects.
    destruct (effects_take ws k) as [n ->]. rewrite Heff, tick_cut, performs_app, performs_rewrites, performs_posts.
    cbn [stream]. destruct Hes as [->|(A & Hnd & Ha)]; [by rewrite take_nil, app_nil_r|].
    by eapply announce_alternates.
  - by eapply due_alternates.
  - unfold alternating in *. cbn [stream]. rewrite spoken_app.
    assert (spoken key es = []) as ->; [|by rewrite app_nil_r].
    apply filter_none. intros e Hin [Hk _]. rewrite Forall_forall in He. by apply (He e).
  - done.
Qed.
End replay.

(** ** A sample lane *)

#[local] Instance brief_json : AlarmJson := {|
  dump_subject := subject_scope; dump_surface := λ s, scope_key (surface_ref s); dump_alarm a := raised_at_sha a;
  validate_alarm _ := None |}.
#[local] Instance sample_sessions : SessionJson := λ _, None.

Definition sample_commit (sha : string) : LaneCommit :=
  {| commit_sha := sha; commit_subject := "work"; commit_issue_id := "K-1" |}.
Definition moved_record (shas : list string) : LaneRunState := {|
  lane_key := "K-1"; record_branch := "kodezart/K-1"; branch_url := "https://git.example/K-1";
  head_sha := default "c0" (last shas); record_pushed_sha := None; commits_ahead := length shas;
  files_changed := 1; commits := sample_commit <$> shas; pr := None; record_digest := None;
  dispatch_base := None; associations := [] |}.
Definition sample_gap : list TrackerIssue := [
  {| issue_key := "A-1"; title := "A-1"; body := ""; priority := NONE; state_name := "";
     state_kind := UNSTARTED; queue_states := ∅; issue_labels := {["criterion"]}; team_key := None;
     project := None; project_id := None; milestone_key := None; relations := [];
     parent_key := Some "K-1"; assignee_key := None; created_at := 0; updated_at := 0; url := "" |}].
Definition sample_tick (c : carrier) : list alarm_write * result exn unit :=
  tick [("run_alarm", "kz-alarm")] "S-1" "K-1" (Ready sample_gap sample_gap) sample_gap 1 "bot"
    (Some (moved_record ["c1"; "c2"])) c.
Definition quiet_lane : carrier := {| held := []; stream := [] |}.

(** A lane that has gained two commits without closing anything: its record, then the raise. *)
Definition sample_writes : list alarm_write := (sample_tick quiet_lane).1.

Example tick_resumes_witness :
  length (effects sample_writes) = 2 ∧ length (effects (take 2 sample_writes)) = 1
  ∧ ∃ ws', sample_tick (performs quiet_lane (take 2 sample_writes)) = (ws', Ok tt)
      ∧ effects (take 2 sample_writes) ++ effects ws' = effects sample_writes
      ∧ performs (performs quiet_lane (take 2 sample_writes)) ws' = performs quiet_lane sample_writes
      ∧ (length sample_writes ≤ 2 → ws' = []).
Proof.
  split; [by vm_compute|]. split; [by vm_compute|].
  refine (proj1 (tick_resumes _ "S-1" "K-1" (Ready sample_gap sample_gap) sample_gap 1 "bot"
    (moved_record ["c1"; "c2"]) quiet_lane sample_writes _ _) 2).
  - constructor.
  - apply injective_projections; [done|]. by vm_compute.
Defined.

Example transitions_alternate_witness :
  alternating "tally_unmoved" (stream (performs quiet_lane (take 3 sample_writes)))
  ∧ event_kind <$> stream (performs quiet_lane (take 3 sample_writes)) = [RUN_ALARM_RAISED].
Proof.
  split; [|by vm_compute].
  refine (transitions_alternate [("run_alarm", "kz-alarm")] quiet_lane _ "tally_unmoved" _ _).
  - by vm_compute.
  - apply rtc_once. eapply (tick_killed _ "S-1" "K-1" (Ready sample_gap sample_gap) sample_gap 1 "bot"
      (Some (moved_record ["c1"; "c2"])) quiet_lane sample_writes (sample_tick quiet_lane).2 3).
    by apply injective_projections.
Defined.

(** *** One lane in two scopes

    The records of a lane are a scope's own, and the key its transitions are announced under
    names the signal alone. *)

(** The second scope saw the lane close a criterion at its head; the first never did. *)
Definition closed_at_head : RunAlarm :=
  quiet_alarm (LaneSubject "S-2" "K-1") TALLY_UNMOVED
    (tally_readings "c2" "K-1" {| tally_open := ["A-1"; "A-2"]; tally_commits := [] |}
       {| tally_open := ["A-1"]; tally_commits := ["c1"; "c2"] |} ["A-2"] 1) "c2" "bot".
Definition shared_lane : carrier :=
  {| held := held (performs quiet_lane sample_writes) ++ [closed_at_head]; stream := [] |}.
Definition scope_tick (scope : string) (c : carrier) : carrier :=
  performs c (tick [("run_alarm", "kz-alarm")] scope "K-1" Waiting [] 1 "bot"
                (Some (moved_record ["c1"; "c2"])) c).1.
Definition both_tick (c : carrier) : carrier := scope_tick "S-2" (scope_tick "S-1" c).

Example shared_lane_flaps :
  held (both_tick (both_tick shared_lane)) = held shared_lane
  ∧ event_kind <$> stream (both_tick (both_tick shared_lane))
    = [RUN_ALARM_RAISED; RUN_ALARM_CLEARED; RUN_ALARM_RAISED; RUN_ALARM_CLEARED].
Proof. by vm_compute. Qed.
