(* ===== verification/QuestionAlarms.v ===== *)
(** * The age of an open question (services/escalation_records.py, escalation_signals.py,
    run_shape.py, run_alarm_recorder.py, escalation_ageing_supervisor.py).

    A lapsed observation asks a question on its lane's issue; each supervisor tick measures
    how long it has waited, in commits of its lane and in commits of the whole scope since
    the question was first seen, and keeps one record at the question's address. *)

From S2P Require Import BaseResolution Topology IssueTree ScopeWalker.
From S2P Require Import Prelude PyStr PyLines Tracker Errors Json Lapse Dispatch Outcome JobQueue Operation RunRecords.
From S2P Require Import FireContext FireDispatcher SelfWrites PassGate.
From S2P Require Import Criteria Trajectory Gap Surface LaneRecord CommentMarkers RunEvents Organize RunAlarm RunShape.
From S2P Require Import AlarmTable LaneAlarms LaneRecords.

Local Open Scope nat_scope.

(** pydantic: [LaneEscalation.model_validate_json(..., strict=True)]. *)
Class EscalationJson := validate_escalation : string → option LaneEscalation.

Notation ScopePosition := (pydict string (list string)).

(** ** The recorded question (services/escalation_records.py) *)

Section reader.
Context `{EscalationJson} (prefixes : pydict string string).

(** [body.partition] on the line feed. *)
Definition after_line (body : string) : string :=
  match cut nl body with Some (_, after) => after | None => "" end.

Definition parse_escalation (c : TrackerComment) (on_issue key : string) : option LaneEscalation :=
  let payload := after_line (comment_body c) in
  if json_loads_unique payload then
    match validate_escalation payload with
    | Some record => if decide (escalation_issue record = on_issue ∧ escalation_key record = key)
                     then Some record else None
    | None => None
    end
  else None.

Definition find_escalation (listing : result exn (list TrackerComment)) (on_issue lane key : string)
    (record_ref : option string) : result exn (option (TrackerComment * LaneEscalation)) :=
  let refusal reason := EscalationReadError on_issue lane key reason in
  _ ← refuse_if (bool_decide (on_issue = "" ∨ lane = "" ∨ key = "" ∨ record_ref = Some ""))
        (refusal "issue, lane and supplied record identities must be nonempty");
  marker ← compose_comment_marker prefixes "escalation" lane (Some key);
  comments ← match listing with
             | Err e => if unreadable_listing e
                        then Err (refusal "the tracker comment read failed or was incomplete") else Err e
             | r => r
             end;
  _ ← refuse_if (existsb (λ c, negb (bool_decide (comment_issue_key c = on_issue))) comments)
        (refusal "the listing contains a comment from another issue");
  found ← match comment_under_marker on_issue marker comments false with
          | Err (DuplicateCommentMarkerError _ _ _) =>
              Err (refusal "several comments carry the escalation marker")
          | r => r
          end;
  match found with
  | None => Ok None
  | Some c =>
      _ ← refuse_if (match record_ref with
                     | Some ref => negb (bool_decide (comment_key c = ref))
                     | None => false
                     end) (refusal "the escalation is not the supplied native record reference");
      _ ← refuse_if (negb (bool_decide (reply_to c = None)))
            (refusal "the escalation marker belongs to a reply");
      match parse_escalation c on_issue key with
      | Some record => Ok (Some (c, record))
      | None => Err (refusal "the recorded escalation is invalid")
      end
  end.

Definition read_escalation (listing : result exn (list TrackerComment)) (on_issue lane key : string)
    (record_ref : option string) : result exn (TrackerComment * LaneEscalation) :=
  found ← find_escalation listing on_issue lane key record_ref;
  match found with
  | Some found => Ok found
  | None => Err (EscalationReadError on_issue lane key
                   "no comment carries the configured escalation marker")
  end.
End reader.

(** ** One observation (services/run_shape.py, escalation_signals.py) *)

Record AgeingConfig := { max_age_commits : nat; max_age_ticks : nat }.

Section observation.
Context `{AlarmJson} `{EscalationJson} `{RecordJson}.
Context (prefixes : pydict string string) (config : AgeingConfig).

(** What is asked and what was answered, then the six readings. *)
Definition read_escalation_ageing (scope lane : string) (escalation commits : AlarmReading)
    (ticks : AlarmReading) (answer : result exn EscalationResolution) (sha by_ : string) :
    result exn (option RunAlarm * EscalationResolution) :=
  record ← read_alarm_value escalation as_escalation ESCALATION_AGEING;
  let s := EscalationSubject scope (escalation_key record) (Some lane) (Some (escalation_issue record)) in
  _ ← refuse_if (negb (subject_valid s)) (ValidationError "EscalationSubject");
  resolution ← answer;
  answered ← make_reading {| source_ref := source_ref escalation;
                             evidence := ResolutionEvidence resolution; at_sha := None |};
  observed ← escalation_ageing s
    [escalation; answered; commits; ticks;
     {| source_ref := ESCALATION_COMMITS_BOUND; evidence := CountEvidence (max_age_commits config); at_sha := None |};
     {| source_ref := ESCALATION_TICKS_BOUND; evidence := CountEvidence (max_age_ticks config); at_sha := None |}]
    sha by_;
  Ok (observed, resolution).

(** What the tracker answers one observation of a question, in the order it asks. *)
Record question_reads := {
  found_listing : result exn (list TrackerComment);
  question_listing : result exn (list TrackerComment);
  record_listing : result exn (list TrackerComment);
  answer : result exn EscalationResolution;
  question_again : result exn (list TrackerComment);
  record_again : result exn (list TrackerComment);
  answer_again : result exn EscalationResolution;
  alarms_unread : option exn;
  stream_unread : option exn;
}.
(** A read that answers what the carrier holds, unless it raises. *)
Definition answers {A} (unread : option exn) (a : A) : result exn A :=
  match unread with Some e => Err e | None => Ok a end.

Definition observe_recorded_escalation_ageing (scope lane on_issue key : string) (ref : option string)
    (reads : question_reads) (ticks : AlarmReading) (sha by_ : string) :
    result exn (option RunAlarm * EscalationResolution) :=
  let unreadable ref reason := RunShapeReadError (alarm_signal_value ESCALATION_AGEING) ref reason in
  asked ← read_escalation prefixes (question_listing reads) on_issue lane key ref;
  let '(question, escalation) := asked in
  recorded ← read prefixes (record_listing reads) on_issue lane None;
  let '(comment, record) := recorded in
  let order := commit_sha <$> commits record in
  _ ← refuse_if (negb (bool_decide (length order = commits_ahead record ∧ last order = Some (head_sha record))))
        (unreadable (comment_key comment) "the recorded commit series does not reach its declared head");
  escalation_reading ← make_reading {| source_ref := comment_key question;
                          evidence := EscalationEvidence escalation; at_sha := Some (escalation_sha escalation) |};
  commits_reading ← make_reading {| source_ref := comment_key comment;
                       evidence := ReferencesEvidence order; at_sha := Some (head_sha record) |};
  observed ← read_escalation_ageing scope lane escalation_reading commits_reading ticks (answer reads) sha by_;
  now_asked ← read_escalation prefixes (question_again reads) on_issue lane key (Some (comment_key question));
  now_recorded ← read prefixes (record_again reads) on_issue lane (Some (comment_key comment));
  now_answer ← answer_again reads;
  _ ← refuse_if (negb (bool_decide (now_answer = observed.2
                        ∧ comment_body now_asked.1 = comment_body question
                        ∧ comment_body now_recorded.1 = comment_body comment)))
        (unreadable (comment_key question)
          "the escalation, lane history or resolution changed during observation");
  Ok (observed.1, now_answer).

(** ** The supervisor's arm (services/escalation_ageing_supervisor.py, run_alarm_recorder.py) *)

(** Every member the ready read names. *)
Definition position_keys (r : ScopeReadySet) : list string :=
  sort_by id (dict_fromkeys (
    (issue_key ∘ ScopeWalker.lane_issue <$> ready_lanes_of r) ++ (blocked_issue_key <$> blocked_of_scope r)
    ++ unapproved r ++ (issue_key <$> closed_members r)
    ++ (issue_key ∘ held_issue <$> held_members r))).

Definition position_row (record_of : string → result exn (option LaneRunState)) (key : string) :
    result exn (list (string * list string)) :=
  located ← record_of key;
  Ok (match located with
      | Some record => [(key, commit_sha <$> commits record)]
      | None => []
      end).
Definition position (record_of : string → result exn (option LaneRunState)) (r : ScopeReadySet) :
    result exn ScopePosition :=
  rows ← mapM (position_row record_of) (position_keys r);
  Ok (mjoin rows).

(** The record a question's address should hold next, with the one it is left holding. *)
Definition next_question_record (scope lane head key : string) (p : ScopePosition)
    (reads : question_reads) (records : list RunAlarm) (holder : string) :
    result exn (option (option RunAlarm * option RunAlarm)) :=
  found ← find_escalation prefixes (found_listing reads) lane lane key None;
  match found with
  | None => Ok None
  | Some (c, _) =>
      let s := EscalationSubject scope key (Some lane) (Some lane) in
      _ ← refuse_if (negb (subject_valid s)) (ValidationError "EscalationSubject");
      records ← answers (alarms_unread reads) records;
      let stored := stored_alarm records s ESCALATION_AGEING in
      anchor ← match stored with Some a => ageing_anchor a | None => anchor_reading scope p end;
      ticks ← tick_reading anchor p;
      observed ← observe_recorded_escalation_ageing scope lane lane key (Some (comment_key c)) reads
                   ticks head holder;
      desired ← next_ageing_record s key stored anchor observed.1 observed.2 head holder;
      Ok (Some (desired, match desired with Some a => Some a | None => stored end))
  end.

(** [alarms.write] and [alarms.announce] of one question. *)
Definition question_writes (scope lane head key : string) (p : ScopePosition) (reads : question_reads)
    (holder : string) (c : carrier) : list alarm_write * result exn unit :=
  match next_question_record scope lane head key p reads (held c) holder with
  | Err e => ([], Err e)
  | Ok None => ([], Ok tt)
  | Ok (Some (desired, current)) =>
      match (match desired with
             | Some a => surface ← _surface prefixes lane a; Ok [Leases {[surface]}; Rewrites a]
             | None => Ok []
             end) with
      | Err e => ([], Err e)
      | Ok written =>
          match current with
          | None => (written, Ok tt)
          | Some a =>
              match (raised ← is_ageing_raised (Some a); events ← answers (stream_unread reads) (stream c);
                     alarm_event_due a raised events) with
              | Err e => (written, Err e)
              | Ok None => (written, Ok tt)
              | Ok (Some e) => (written ++ [Posts e], Ok tt)
              end
          end
      end
  end.

(** [observe]: each question in turn, over what the last one left. *)
Fixpoint observe_questions (scope lane head : string) (p : ScopePosition)
    (reads_of : string → question_reads) (holder : string) (criteria : list TrackerIssue)
    (c : carrier) : list alarm_write * result exn unit :=
  match criteria with
  | [] => ([], Ok tt)
  | criterion :: criteria =>
      let key := lapse_escalation_key (issue_key criterion) in
      let '(ws, r) := question_writes scope lane head key p (reads_of key) holder c in
      match r with
      | Err e => (ws, Err e)
      | Ok _ => let '(ws', r') := observe_questions scope lane head p reads_of holder criteria (performs c ws) in
                (ws ++ ws', r')
      end
  end.
Definition observe (scope lane : string) (p : ScopePosition) (reads_of : string → question_reads)
    (holder : string) (criteria : list TrackerIssue) (c : carrier) : list alarm_write * result exn unit :=
  match head_of p lane with
  | None => ([], Ok tt)
  | Some head => observe_questions scope lane head p reads_of holder criteria c
  end.
End observation.

(** ** The tick over every scope (services/supervisor_pass.py) *)

(** How the tracker answers one lane's visit. The visit's [n]th write, leases counted, may
    raise before it is performed, or after it: its answer is lost, or the lease around it
    fails to release. *)
Record lane_port := {
  record_read : result exn (option LaneRunState);
  lane_alarms_unread : option exn;
  lane_stream_unread : option exn;
  question_reads_of : string → question_reads;
  write_fault : nat → option (exn * bool);
}.

(** What one pass reads of the tracker: what answers, or what it raises. *)
Record supervisor_facts := {
  scopes : list ScopeRef;
  ready_of : ScopeRef → result exn ScopeReadySet;
  barrier_of : ScopeRef → result exn (list RunAlarm);
  record_of : string → result exn (option LaneRunState);
  port_of : string → string → lane_port;
  max_commits_without_closure : nat;
  ageing_config : AgeingConfig;
}.
(** The lanes' carriers; a lane without one holds nothing. *)
Notation carriers := (gmap string carrier).
Definition carrier_of (cs : carriers) (lane : string) : carrier :=
  default {| held := []; stream := [] |} (cs !! lane).

(** The order the members of a scope are observed in, with the standing of each and the
    criteria whose questions are aged. *)
Definition visits (r : ScopeReadySet) : list (string * LaneStanding * list TrackerIssue) :=
  ((λ l, (issue_key (ScopeWalker.lane_issue l), Ready (lane_criteria l) (lane_gap l), lane_criteria l))
     <$> ready_lanes_of r)
  ++ ((λ i, (issue_key i, Finished, [])) <$> closed_members r)
  ++ ((λ b, (blocked_issue_key b, Waiting, [])) <$> blocked_of_scope r)
  ++ ((λ k, (k, Waiting, [])) <$> unapproved r)
  ++ ((λ m, (issue_key (held_issue m), Waiting, held_criteria m)) <$> held_members r).

Section supervisor.
Context `{AlarmJson} `{SessionJson} `{EscalationJson} `{RecordJson}.
Context (prefixes : pydict string string) (facts : supervisor_facts) (holder : string).

(** The writes in order, up to the first that raises. *)
Fixpoint carry_out (fault : nat → option (exn * bool)) (c : carrier) (ws : list alarm_write) :
    carrier * result exn unit :=
  match ws with
  | [] => (c, Ok tt)
  | w :: ws =>
      match fault 0 with
      | None => carry_out (λ n, fault (S n)) (perform c w) ws
      | Some (e, took) => ((if took : bool then perform c w else c), Err e)
      end
  end.
(** A computation that has written [ws] by the time it ends as [r]. *)
Definition run_writes (fault : nat → option (exn * bool)) (c : carrier) (answer : list alarm_write * result exn unit) :
    carrier * result exn unit :=
  let '(c', written) := carry_out fault c answer.1 in
  (c', match written with Ok _ => answer.2 | Err e => Err e end).

(** The reads of [observe_lane]. *)
Definition lane_reads (port : lane_port) (c : carrier) :
    result exn (option LaneRunState * list RunAlarm * list LaneRunEvent) :=
  _ ← configured_marker_prefix prefixes MARKER_PURPOSE;
  located ← record_read port;
  match located with
  | None => Ok (None, [], [])
  | Some _ =>
      stored ← answers (lane_alarms_unread port) (held c);
      events ← answers (lane_stream_unread port) (stream c);
      Ok (located, stored, events)
  end.

(** [_observe] inside its [try]: what one member's observation leaves, and how it ended. *)
Definition _observe (scope lane : string) (standing : LaneStanding) (questions criteria : list TrackerIssue)
    (p : option ScopePosition) (c : carrier) : carrier * result exn unit :=
  let port := port_of facts scope lane in
  match lane_reads port c with
  | Err e => (c, Err e)
  | Ok (located, stored, events) =>
      let alarms := observe_lane prefixes scope lane standing criteria
                      (max_commits_without_closure facts) holder located stored events in
      match run_writes (write_fault port) c alarms, p with
      | (c, Ok _), Some p =>
          run_writes (λ n, write_fault port (length alarms.1 + n)) c
            (observe prefixes (ageing_config facts) scope lane p (question_reads_of port) holder questions c)
      | (c, r), _ => (c, r)
      end
  end.

(** [for x in l], stopped by a cancellation. *)
Fixpoint each {S A} (body : S → A → S * bool) (s : S) (l : list A) : S * bool :=
  match l with
  | [] => (s, false)
  | a :: l => let '(s, cancelled) := body s a in if cancelled then (s, true) else each body s l
  end.

(** [except Exception]: the failure is noted and the loop goes on; a cancellation is no
    [Exception] and passes through. *)
Definition contained (e : exn) (name : string) (missed : list string) : list string * bool :=
  match e with CancelledError => (missed, true) | _ => (missed ++ [name], false) end.

(** The carriers and the failures so far, and whether a cancellation passed through. *)
Definition visit (scope : string) (criteria : list TrackerIssue) (p : option ScopePosition)
    (s : carriers * list string) (v : string * LaneStanding * list TrackerIssue) :
    (carriers * list string) * bool :=
  let '(lane, standing, questions) := v in
  let '(c, r) := _observe scope lane standing questions criteria p (carrier_of s.1 lane) in
  let '(missed, cancelled) := match r with Ok _ => (s.2, false) | Err e => contained e lane s.2 end in
  ((<[lane := c]> s.1, missed), cancelled).

Definition visit_scope (s : carriers * list string) (ref : ScopeRef) : (carriers * list string) * bool :=
  let '(missed, cancelled) :=
    match barrier_of facts ref with Ok _ => (s.2, false) | Err e => contained e (scope_key ref) s.2 end in
  if cancelled then ((s.1, missed), true)
  else
    match ready_of facts ref with
    | Err e => let '(missed, cancelled) := contained e (scope_key ref) missed in ((s.1, missed), cancelled)
    | Ok r =>
        let '(p, (missed, cancelled)) :=
          match position (record_of facts) r with
          | Ok p => (Some p, (missed, false))
          | Err e => (None, contained e (scope_key ref) missed)
          end in
        if cancelled then ((s.1, missed), true)
        else each (visit (scope_key (resolved_ref (scope_of r))) (scope_criteria r) p) (s.1, missed) (visits r)
    end.

(** How [run] ends but by returning: [SupervisorIncompleteError] with its [failed], or a
    cancellation. *)
Inductive supervisor_end := SupervisorIncompleteError (missed : list string) | SupervisorCancelled.

(** [run]: what the lanes hold afterwards, and how it ended. *)
Definition supervise (cs : carriers) : carriers * result supervisor_end PassRun :=
  let '((cs', missed), cancelled) := each visit_scope (cs, []) (scopes facts) in
  (cs', if cancelled then Err SupervisorCancelled
        else match missed with [] => Ok RAN | _ => Err (SupervisorIncompleteError missed) end).
End supervisor.
