(* ===== verification/QuestionAges.v ===== *)
(** * An open question ages from its first sight (domain/escalation_age_record.py,
    services/escalation_ageing_supervisor.py, supervisor_pass.py).

    The anchor a question's record carries is never moved, so that what it counts is what the
    scope recorded since; a killed observation is finished by the next one; and one lane's
    failure is that lane's alone. *)

From S2P Require Import BaseResolution Topology IssueTree ScopeWalker.
From S2P Require Import Prelude PyStr PyLines Tracker Errors Json Lapse Dispatch Outcome JobQueue Operation RunRecords.
From S2P Require Import FireContext FireDispatcher SelfWrites PassGate.
From S2P Require Import Criteria Trajectory Gap Surface LaneRecord CommentMarkers RunEvents Organize RunAlarm RunShape.
From S2P Require Import AlarmTable LaneAlarms LaneRecords AlarmTicks QuestionAlarms.

Local Open Scope nat_scope.

#[local] Arguments is_ageing_raised : simpl never.

(** ** What was recorded since *)

Lemma after_last_app anchored old added :
  (∀ sha, sha ∈ added → sha ∉ anchored) →
  after_last anchored (old ++ added)
  = match after_last anchored old with Some n => Some (n + length added) | None => None end.
Proof.
  intros Hadd. induction old as [|sha old IH].
  - cbn. induction added as [|sha added IH]; [done|]. cbn. rewrite IH by (intros x Hx; apply Hadd; by right).
    rewrite decide_False; [done|]. apply Hadd. by left.
  - cbn. rewrite IH. destruct (after_last anchored old); [done|]. case_decide; [|done].
    by rewrite length_app.
Qed.
Lemma after_last_snoc anchored old sha : sha ∈ anchored → after_last anchored (old ++ [sha]) = Some 0.
Proof.
  intros Hs. induction old as [|x old IH]; cbn; [by rewrite decide_True|]. by rewrite IH.
Qed.

(** One lane of a scope: its commits then, and those recorded since. *)
Record grown := { grown_lane : string; then_recorded : list string; since : list string }.
Definition position_then (rows : list grown) : ScopePosition :=
  (λ r, (grown_lane r, then_recorded r)) <$> rows.
Definition position_now (rows : list grown) : ScopePosition :=
  (λ r, (grown_lane r, then_recorded r ++ since r)) <$> rows.

Lemma heads_elem p sha : sha ∈ heads p ↔ ∃ l order, (l, order) ∈ p ∧ last order = Some sha.
Proof.
  unfold heads. rewrite elem_of_sort_by, list_elem_of_omap. unfold dict_values. split.
  - intros (order & ((l & o) & -> & Hin)%list_elem_of_fmap & Hl). by exists l, o.
  - intros (l & o & Hin & Hl). exists o. split; [|done]. by apply (list_elem_of_fmap_2 snd) in Hin.
Qed.

Lemma commits_since_grown scope rows anchor :
  anchor_reading scope (position_then rows) = Ok anchor →
  (∀ r sha, r ∈ rows → sha ∈ since r → sha ∉ heads (position_then rows)) →
  commits_since anchor (position_now rows) = Ok (sum_list_with (λ r, length (since r)) rows).
Proof.
  intros [_ ->]%make_reading_ok Hfresh. unfold commits_since, read_alarm_value. cbn. f_equal.
  set (hs := heads (position_then rows)) in *.
  assert (∀ r, r ∈ rows → lane_commits_since hs (then_recorded r ++ since r) = length (since r)) as Hr.
  { intros r Hin. unfold lane_commits_since. rewrite after_last_app by (intros x Hx; by eapply Hfresh).
    destruct (then_recorded r) as [|sha old] eqn:Et using rev_ind; [done|].
    rewrite after_last_snoc; [done|]. apply heads_elem. exists (grown_lane r), (then_recorded r).
    split; [|by rewrite Et, last_snoc]. apply list_elem_of_fmap. by exists r. }
  clear Hfresh. clearbody hs. induction rows as [|r rows IH]; [done|].
  unfold position_now, dict_values in *. cbn [sum_list_with fmap list_fmap snd].
  rewrite (Hr r) by by left. f_equal. apply IH. intros r' Hin. apply Hr. by right.
Qed.

(** ** The record of a question *)

Section question.
Context `{AlarmJson} `{SessionJson} `{EscalationJson} `{RecordJson}.
Context (prefixes : pydict string string) (config : AgeingConfig).
Context (scope lane head key holder : string).
Notation s := (EscalationSubject scope key (Some lane) (Some lane)).
Notation next := (next_question_record prefixes config scope lane head key).

(** The anchor a question is measured from. *)
Definition anchor_for (p : ScopePosition) (stored : option RunAlarm) : result exn AlarmReading :=
  match stored with Some a => ageing_anchor a | None => anchor_reading scope p end.

Lemma anchor_for_references p stored anchor :
  anchor_for p stored = Ok anchor → is_Some (as_references (evidence anchor)).
Proof.
  destruct stored as [a|]; cbn; [|by intros [_ ->]%make_reading_ok].
  unfold ageing_anchor. destruct (readings a) as [|r rs]; [done|].
  destruct (as_references (evidence r)) eqn:E; [|done]. intros [= <-]. by rewrite E.
Qed.

(** What an observation over six readings replays to. *)
Lemma observed_replays reads ticks on_issue ref o answered :
  observe_recorded_escalation_ageing prefixes config scope lane on_issue key ref reads ticks head holder = Ok (Some o, answered) →
  signal o = ESCALATION_AGEING ∧ length (readings o) = _OBSERVED_READINGS ∧ readings o !! 3 = Some ticks
  ∧ escalation_ageing (subject o) (readings o) head holder = Ok (Some o).
Proof.
  unfold observe_recorded_escalation_ageing. intros E.
  apply bind_ok in E as ([q esc] & _ & E). apply bind_ok in E as ([c rec] & _ & E). cbv zeta in E.
  apply bind_ok in E as ([] & _ & E). apply bind_ok in E as (er & _ & E). apply bind_ok in E as (cr & _ & E).
  apply bind_ok in E as (obs & Hobs & E). apply bind_ok in E as (? & _ & E). apply bind_ok in E as (? & _ & E).
  apply bind_ok in E as (? & _ & E). apply bind_ok in E as ([] & _ & [= Ho _]).
  unfold read_escalation_ageing in Hobs. apply bind_ok in Hobs as (r & _ & Hobs). cbv zeta in Hobs.
  apply bind_ok in Hobs as ([] & _ & Hobs). apply bind_ok in Hobs as (res & _ & Hobs).
  apply bind_ok in Hobs as (ar & _ & Hobs). apply bind_ok in Hobs as (o' & Hesc & [= <-]). cbn in Ho. subst o'.
  match type of Hesc with escalation_ageing ?s' ?rs _ _ = _ =>
    pose proof (fold_over ESCALATION_AGEING escalation_ageing s' rs head holder eq_refl o Hesc) as (Hs & Hg & Hrs & _)
  end.
  rewrite Hs, Hrs, Hg. done.
Qed.

Lemma next_question_inv p reads held o :
  next p reads held holder = Ok (Some o) →
  ∃ anchor ticks observed answered, anchor_for p (stored_alarm held s ESCALATION_AGEING) = Ok anchor
    ∧ tick_reading anchor p = Ok ticks
    ∧ (∀ a, observed = Some a → signal a = ESCALATION_AGEING ∧ length (readings a) = _OBSERVED_READINGS
        ∧ readings a !! 3 = Some ticks ∧ escalation_ageing (subject a) (readings a) head holder = Ok (Some a))
    ∧ next_ageing_record s key (stored_alarm held s ESCALATION_AGEING) anchor observed answered head holder = Ok o.1
    ∧ o.2 = match o.1 with Some a => Some a | None => stored_alarm held s ESCALATION_AGEING end
    ∧ alarms_unread reads = None
    ∧ ∀ held', anchor_for p (stored_alarm held' s ESCALATION_AGEING) = Ok anchor →
        next p reads held' holder
        = desired ← next_ageing_record s key (stored_alarm held' s ESCALATION_AGEING) anchor observed answered head holder;
          Ok (Some (desired, match desired with Some a => Some a | None => stored_alarm held' s ESCALATION_AGEING end)).
Proof.
  unfold next_question_record. intros E. apply bind_ok in E as (found & Hf & E). rewrite Hf.
  destruct found as [[c q]|]; [|done]. cbv zeta in E. apply bind_ok in E as ([] & Hs & E).
  unfold answers in *. destruct (alarms_unread reads) eqn:Eu; [done|]. cbn [mbind result_bind] in E.
  apply bind_ok in E as (anchor & Ha & E). apply bind_ok in E as (ticks & Ht & E).
  apply bind_ok in E as ([observed answered] & Ho & E). apply bind_ok in E as (desired & Hd & [= <-]).
  exists anchor, ticks, observed, answered. split_and!; try done.
  - intros a ->. by eapply observed_replays.
  - intros held' Ha'. cbn [mbind result_bind]. rewrite Hs. cbn [mbind result_bind]. unfold anchor_for in Ha'. rewrite Ha'.
    cbn [mbind result_bind]. rewrite Ht. cbn [mbind result_bind]. rewrite Ho. done.
Qed.

(** What a written record says of its question. *)
Lemma next_ageing_written stored anchor observed answered a :
  next_ageing_record s key stored anchor observed answered head holder = Ok (Some a) →
  is_Some (as_references (evidence anchor)) →
  (∀ o, observed = Some o → length (readings o) = _OBSERVED_READINGS
      ∧ escalation_ageing (subject o) (readings o) head holder = Ok (Some o)) →
  address a = (s, ESCALATION_AGEING) ∧ ageing_anchor a = Ok anchor
  ∧ tail (readings a) = match observed with Some o => readings o | None => [] end
  ∧ is_ageing_raised (Some a) = Ok (bool_decide (is_Some observed)).
Proof.
  unfold next_ageing_record. intros E Hanchor Hobs. apply bind_ok in E as ([] & Hs & E).
  assert (a = {| subject := s; signal := ESCALATION_AGEING;
                 readings := anchor :: match observed with Some o => readings o | None => [] end;
                 bound := observed ≫= bound; raised_at_sha := head; raised_by := holder |}) as ->.
  { assert (∀ r : result exn RunAlarm, (a0 ← r; Ok (Some a0)) = Ok (Some a) → r = Ok a) as Hb.
    { intros [r|] Hr; [by injection Hr as ->|done]. }
    destruct stored as [b|].
    - apply bind_ok in E as (was & _ & E). destruct (Bool.eqb _ _); [done|].
      apply Hb in E. destruct observed as [o|]; by apply make_alarm_ok in E.
    - case_decide; [done|]. apply Hb in E. destruct observed as [o|]; by apply make_alarm_ok in E. }
  split; [done|]. split; [unfold ageing_anchor; cbn; by destruct Hanchor as [? ->]|]. split; [done|].
  unfold is_ageing_raised. cbn. destruct observed as [o|]; cbn.
  - destruct (Hobs o eq_refl) as [Hl Hr]. unfold refuse_if, raise_if, replays in *.
    destruct (negb (bool_decide (subject o = s))) eqn:Es; [done|].
    apply negb_false_iff, bool_decide_eq_true in Es. rewrite Es in Hr.
    destruct (readings o) as [|r rs]; [done|]. rewrite Hl, Nat.eqb_refl, andb_false_r.
    cbn [mbind result_bind]. rewrite decide_False by done. rewrite Hr. cbn. by rewrite bool_decide_true.
  - done.
Qed.

Definition ages_from (p : ScopePosition) (a : RunAlarm) : Prop :=
  ∃ anchor, anchor_reading scope p = Ok anchor ∧ ageing_anchor a = Ok anchor.

(** A record that was written is what the next observation of the same facts finds. *)
Lemma question_settles p reads held a current :
  next p reads held holder = Ok (Some (Some a, current)) →
  current = Some a ∧ next p reads (upsert_alarm a held) holder = Ok (Some (None, Some a)).
Proof.
  intros (anchor & ticks & obs & ans & Ha & _ & Hobs & Hn & Hc & _ & Hagain)%next_question_inv. cbn in Hn, Hc.
  pose proof (next_ageing_written _ _ _ _ _ Hn (anchor_for_references _ _ _ Ha)) as (Had & Hanc & _ & Hr).
  { intros o Ho. destruct (Hobs o Ho) as (_ & ? & _ & ?). done. }
  split; [done|].
  assert (stored_alarm (upsert_alarm a held) s ESCALATION_AGEING = Some a) as Hst.
  { rewrite stored_upsert. by rewrite (proj2 (at_address_true _ _ _) Had). }
  rewrite Hagain, Hst by (by rewrite Hst). unfold next_ageing_record in Hn |- *.
  apply bind_ok in Hn as ([] & Hs & _). rewrite Hs. cbn [mbind result_bind]. rewrite Hr. cbn [mbind result_bind].
  by rewrite Bool.eqb_reflx.
Qed.

(** C20. A question is measured from where its scope stood when it was first seen, forever:
    the first record at its address carries the scope's lane heads of that tick, every
    record written over it carries the same, and the count an alarm on it was read with is
    the number of commits all lanes of the scope recorded since, provided that no row
    recorded since names one of those heads again: a landing that records an anchored head
    anew sets the count back ([landed_head_resets_age]). What was written is what the next observation of
    the same facts wants, so that it writes nothing more. *)
Theorem question_aged p reads held a current :
  next p reads held holder = Ok (Some (Some a, current)) →
  address a = (s, ESCALATION_AGEING)
  ∧ (stored_alarm held s ESCALATION_AGEING = None → ages_from p a)
  ∧ (∀ stored p0, stored_alarm held s ESCALATION_AGEING = Some stored → ages_from p0 stored → ages_from p0 a)
  ∧ (∀ rows r, p = position_now rows → ages_from (position_then rows) a →
       (∀ row sha, row ∈ rows → sha ∈ since row → sha ∉ heads (position_then rows)) →
       readings a !! 4 = Some r →
       evidence r = CountEvidence (sum_list_with (λ row, length (since row)) rows))
  ∧ next p reads (upsert_alarm a held) holder = Ok (Some (None, Some a)).
Proof.
  intros E. pose proof (question_settles _ _ _ _ _ E) as [_ Hagain].
  apply next_question_inv in E as (anchor & ticks & obs & ans & Ha & Ht & Hobs & Hn & _ & _ & _). cbn in Hn.
  pose proof (next_ageing_written _ _ _ _ _ Hn (anchor_for_references _ _ _ Ha)) as (Had & Hanc & Htl & _).
  { intros o Ho. destruct (Hobs o Ho) as (_ & ? & _ & ?). done. }
  split; [done|]. split; [|split; [|split; [|done]]].
  - intros Hst. rewrite Hst in Ha. by exists anchor.
  - intros stored p0 Hst (anchor0 & Hp0 & Ha0). rewrite Hst in Ha. cbn in Ha. exists anchor0. split; [done|congruence].
  - intros rows r -> (anchor0 & Hp0 & Ha0) Hfresh Hr. assert (anchor0 = anchor) as -> by congruence.
    assert (tail (readings a) !! 3 = Some r) as Hr' by by destruct (readings a). rewrite Htl in Hr'.
    destruct obs as [o|]; [|done]. destruct (Hobs o eq_refl) as (_ & _ & Ho & _). assert (r = ticks) as -> by congruence.
    unfold tick_reading in Ht. rewrite (commits_since_grown scope rows) in Ht by done. cbn in Ht.
    by apply make_reading_ok in Ht as [_ ->].
Qed.

(** An observation of a question that was killed after any number of its writes is
    finished by the next one over the same facts: it writes what was left, nothing twice,
    and after a whole observation nothing at all. *)
Theorem question_resumes p reads c ws k :
  question_writes prefixes config scope lane head key p reads holder c = (ws, Ok tt) →
  ∃ ws', question_writes prefixes config scope lane head key p reads holder (performs c (take k ws)) = (ws', Ok tt)
    ∧ effects (take k ws) ++ effects ws' = effects ws
    ∧ (length ws ≤ k → ws' = []).
Proof.
  intros E. pose proof E as E0. unfold question_writes in E.
  destruct (next p reads (held c) holder) as [[[desired current]|]|] eqn:En; try done.
  2:{ injection E as <-. rewrite take_nil. by exists []. }
  assert (∀ a o, (raised ← is_ageing_raised (Some a); events ← answers (stream_unread reads) (stream c);
      alarm_event_due a raised events) = Ok (Some o) →
    (raised ← is_ageing_raised (Some a); events ← answers (stream_unread reads) (stream c ++ [o]);
      alarm_event_due a raised events) = Ok None) as Hdue.
  { intros a o. destruct (is_ageing_raised (Some a)) as [raised|]; [|done].
    unfold answers. destruct (stream_unread reads); [done|]. apply due_posted. }
  destruct desired as [a|].
  - apply question_settles in En as [-> En]. destruct (_surface prefixes lane a) as [sf|] eqn:Es; cbn [mbind result_bind] in E; [|done].
    match type of E with (match ?d with _ => _ end = _) => destruct d as [[e|]|] eqn:Ed end; try done; injection E as <-;
      (destruct k as [|[|k]];
        [eexists; split; [exact E0|split; [done|cbn; lia]]..|cbn [take app]]).
    + destruct k as [|k]; cbn [take]; rewrite ?take_nil; unfold performs; cbn [foldl perform];
        unfold question_writes; cbn [held stream]; rewrite En.
      * rewrite Ed. exists [Posts e]. split; [done|]. split; [done|]. cbn. lia.
      * apply Hdue in Ed. rewrite Ed. by exists [].
    + rewrite take_nil. unfold performs. cbn [foldl perform]. unfold question_writes. cbn [held stream].
      rewrite En, Ed. by exists [].
  - cbn in E. destruct current as [a|]; [|injection E as <-; rewrite take_nil; by exists []].
    match type of E with (match ?d with _ => _ end = _) => destruct d as [[e|]|] eqn:Ed end; try done; injection E as <-.
    + destruct k as [|k]; [eexists; split; [exact E0|split; [done|cbn; lia]]|].
      cbn [take]. rewrite take_nil. unfold performs. cbn [foldl perform].
      unfold question_writes. cbn [held stream]. apply Hdue in Ed. rewrite En, Ed. by exists [].
    + rewrite take_nil. by exists [].
Qed.
End question.

(** ** A failure is its lane's alone *)

Section pass.
Context `{AlarmJson} `{SessionJson} `{EscalationJson} `{RecordJson}.
Context (prefixes : pydict string string) (facts : supervisor_facts) (holder : string).

(** One member's observation in one scope. *)
Record duty := {
  duty_scope : string;
  duty_criteria : list TrackerIssue;
  duty_position : option ScopePosition;
  duty_lane : string;
  duty_standing : LaneStanding;
  duty_questions : list TrackerIssue;
}.
Definition duty_done (d : duty) (c : carrier) : carrier * result exn unit :=
  _observe prefixes facts holder (duty_scope d) (duty_lane d) (duty_standing d) (duty_questions d)
    (duty_criteria d) (duty_position d) c.

Definition scope_duties (ref : ScopeRef) : list duty :=
  match ready_of facts ref with
  | Err _ => []
  | Ok r => (λ v, {| duty_scope := scope_key (resolved_ref (scope_of r)); duty_criteria := scope_criteria r;
                     duty_position := match position (record_of facts) r with Ok p => Some p | Err _ => None end;
                     duty_lane := v.1.1; duty_standing := v.1.2; duty_questions := v.2 |}) <$> visits r
  end.
Definition duties : list duty := scopes facts ≫= scope_duties.

(** What one lane's own duties make of its carrier, and how each of them ended. *)
Definition attend (lane : string) (s : carrier * list (result exn unit)) (d : duty) :
    carrier * list (result exn unit) :=
  if decide (duty_lane d = lane) then ((duty_done d s.1).1, s.2 ++ [(duty_done d s.1).2]) else s.
Definition attended (ds : list duty) (lane : string) (c : carrier) : carrier * list (result exn unit) :=
  foldl (attend lane) (c, []) ds.

(** Every reading of the pass that is no lane's own. *)
Definition scope_read (ref : ScopeRef) : Prop :=
  is_ok (barrier_of facts ref) = true
  ∧ ∃ r, ready_of facts ref = Ok r ∧ is_ok (position (record_of facts) r) = true.
(** One of them was cancelled. *)
Definition scope_cancelled (ref : ScopeRef) : Prop :=
  barrier_of facts ref = Err CancelledError ∨ ready_of facts ref = Err CancelledError
  ∨ ∃ r, ready_of facts ref = Ok r ∧ position (record_of facts) r = Err CancelledError.

Lemma attend_app lane ds s :
  foldl (attend lane) s ds = ((attended ds lane s.1).1, s.2 ++ (attended ds lane s.1).2).
Proof.
  unfold attended. revert s. induction ds as [|d ds IH]; intros [c rs]; [cbn; by rewrite app_nil_r|]. cbn [foldl fst snd].
  unfold attend at 2 4 6. cbn [fst snd]. destruct (decide _); [|apply IH].
  rewrite IH, (IH (_, [] ++ _)). cbn [fst snd]. by rewrite <-app_assoc.
Qed.
Lemma attended_app ds ds' lane c :
  attended (ds ++ ds') lane c
  = ((attended ds' lane (attended ds lane c).1).1, (attended ds lane c).2 ++ (attended ds' lane (attended ds lane c).1).2).
Proof. unfold attended at 1. rewrite foldl_app, attend_app. by destruct (foldl _ _ ds) eqn:E; unfold attended; rewrite E. Qed.
Lemma attended_one d lane c :
  attended [d] lane c
  = if decide (duty_lane d = lane) then ((duty_done d c).1, [(duty_done d c).2]) else (c, []).
Proof. done. Qed.

(** Whether every duty that was attended succeeded, and whether none was cancelled. *)
Definition succeeded (ds : list duty) (cs : carriers) : Prop :=
  ∀ lane, Forall (λ r, r = Ok tt) (attended ds lane (carrier_of cs lane)).2.
Definition uncancelled (ds : list duty) (cs : carriers) : Prop :=
  ∀ lane, Err CancelledError ∉ (attended ds lane (carrier_of cs lane)).2.

(** [ds] were attended, each over what its lane's earlier ones left. *)
Definition left_by (ds : list duty) (cs cs' : carriers) : Prop :=
  ∀ lane, carrier_of cs' lane = (attended ds lane (carrier_of cs lane)).1.

Lemma left_by_nil cs : left_by [] cs cs ∧ succeeded [] cs ∧ uncancelled [] cs.
Proof. split; [by intros lane|]. split; intros lane; [constructor|by apply not_elem_of_nil]. Qed.
Lemma visit_left_by_app ds1 ds2 cs cs1 cs2 :
  left_by ds1 cs cs1 → left_by ds2 cs1 cs2 →
  left_by (ds1 ++ ds2) cs cs2
  ∧ (succeeded (ds1 ++ ds2) cs ↔ succeeded ds1 cs ∧ succeeded ds2 cs1)
  ∧ (uncancelled (ds1 ++ ds2) cs ↔ uncancelled ds1 cs ∧ uncancelled ds2 cs1).
Proof.
  intros Hl1 Hl2. unfold left_by, succeeded, uncancelled in *. split; [|split].
  - intros lane. by rewrite Hl2, Hl1, attended_app.
  - setoid_rewrite Hl1. setoid_rewrite attended_app. setoid_rewrite Forall_app.
    split; [intros Hb; split; intros lane; apply Hb|intros [] lane; split; auto].
  - setoid_rewrite Hl1. setoid_rewrite attended_app. setoid_rewrite not_elem_of_app.
    split; [intros Hb; split; intros lane; apply Hb|intros [] lane; split; auto].
Qed.

(** The visit of a duty. *)
Definition discharge (s : carriers * list string) (d : duty) : (carriers * list string) * bool :=
  visit prefixes facts holder (duty_scope d) (duty_criteria d) (duty_position d) s
    (duty_lane d, duty_standing d, duty_questions d).

Lemma contained_spec e name missed missed' cancelled :
  contained e name missed = (missed', cancelled) →
  (cancelled = true ↔ e = CancelledError) ∧ (cancelled = false → missed' ≠ []).
Proof.
  destruct e; cbn; intros [= <- <-]; (split; [done|]); try done; intros _ []%app_eq_nil; done.
Qed.

Lemma discharge_spec d cs missed cs' missed' cancelled :
  discharge (cs, missed) d = ((cs', missed'), cancelled) →
  left_by [d] cs cs'
  ∧ (uncancelled [d] cs ↔ cancelled = false)
  ∧ (cancelled = false → (missed' = [] ↔ missed = [] ∧ succeeded [d] cs)).
Proof.
  unfold discharge, visit. cbn [fst snd]. destruct (_observe _ _ _ _ _ _ _ _ _ _) as [c r] eqn:Eo.
  assert (duty_done d (carrier_of cs (duty_lane d)) = (c, r)) as Ed by done.
  destruct (match r with Ok _ => _ | Err _ => _ end) as [m b] eqn:Er. intros [= <- <- <-].
  assert (∀ P : result exn unit → Prop, (∀ lane, Forall P (attended [d] lane (carrier_of cs lane)).2) ↔ P r) as Hall.
  { intros P. setoid_rewrite attended_one. split.
    - intros H'. specialize (H' (duty_lane d)). rewrite decide_True, Ed in H' by done. cbn [snd] in H'. by rewrite Forall_singleton in H'.
    - intros HP lane. case_decide as Hl; [|constructor]. subst lane. rewrite Ed. cbn [snd]. by rewrite Forall_singleton. }
  split; [|split].
  - intros lane. rewrite attended_one. unfold carrier_of at 1. destruct (decide (duty_lane d = lane)) as [<-|Hne].
    + by rewrite lookup_insert_eq, Ed.
    + by rewrite lookup_insert_ne.
  - unfold uncancelled. transitivity (r ≠ Err CancelledError).
    + rewrite <-(Hall (λ r, r ≠ Err CancelledError)). split.
      * intros Hu lane. apply Forall_forall. intros x Hx ->. by apply (Hu lane).
      * intros Hu lane Hx. specialize (Hu lane). rewrite Forall_forall in Hu. by apply (Hu _ Hx).
    + destruct r as [|e]; [by injection Er as <- <-|]. apply contained_spec in Er as [Hb _].
      destruct b; split; try done; [intros Hn; by destruct Hn; rewrite (proj1 Hb eq_refl)|].
      intros _ [= ->]. by pose proof (proj2 Hb eq_refl).
  - intros ->. unfold succeeded. rewrite (Hall (λ r, r = Ok tt)).
    destruct r as [[]|e]; [injection Er as <-; tauto|]. apply contained_spec in Er as [_ Hm]. specialize (Hm eq_refl).
    split; [done|]. by intros [_ ?].
Qed.

Lemma discharge_all ds cs missed cs' missed' cancelled :
  each discharge (cs, missed) ds = ((cs', missed'), cancelled) →
  ∃ ad rest, ds = ad ++ rest ∧ left_by ad cs cs'
  ∧ (uncancelled ad cs ↔ cancelled = false)
  ∧ (cancelled = false → rest = [] ∧ (missed' = [] ↔ missed = [] ∧ succeeded ad cs)).
Proof.
  revert cs missed. induction ds as [|d ds IH]; intros cs missed; cbn [each].
  { intros [= <- <- <-]. destruct (left_by_nil cs) as (? & ? & ?). exists [], []. naive_solver. }
  destruct (discharge (cs, missed) d) as [[cs1 m1] b] eqn:E1. pose proof E1 as (Hl & Hu & Hm)%discharge_spec.
  destruct b.
  - intros [= <- <- <-]. exists [d], ds. split_and!; [done|done|done|done].
  - intros (ad & rest & -> & Hl2 & Hu2 & Hm2)%IH. specialize (Hm eq_refl).
    destruct (visit_left_by_app [d] ad cs cs1 cs') as (Hla & Hsa & Hua); [done..|].
    exists (d :: ad), rest. change (d :: ad) with ([d] ++ ad). split_and!; [done|done|rewrite Hua; tauto|].
    intros Hc. destruct (Hm2 Hc) as [-> Hm3]. split; [done|]. rewrite Hsa. tauto.
Qed.

Lemma visit_scope_spec ref cs missed cs' missed' cancelled :
  visit_scope prefixes facts holder (cs, missed) ref = ((cs', missed'), cancelled) →
  ∃ ad rest, scope_duties ref = ad ++ rest ∧ left_by ad cs cs'
  ∧ (cancelled = true → scope_cancelled ref ∨ ¬ uncancelled ad cs)
  ∧ (cancelled = false → rest = [] ∧ ¬ scope_cancelled ref ∧ uncancelled ad cs
       ∧ (missed' = [] ↔ missed = [] ∧ scope_read ref ∧ succeeded ad cs)).
Proof.
  destruct (left_by_nil cs) as (Hl0 & Hs0 & Hu0).
  unfold visit_scope, scope_duties, scope_read, scope_cancelled. cbn [fst snd].
  destruct (match barrier_of facts ref with Ok _ => _ | Err _ => _ end) as [m1 b1] eqn:E1.
  assert ((b1 = true ↔ barrier_of facts ref = Err CancelledError)
    ∧ (b1 = false → (m1 = [] ↔ missed = [] ∧ is_ok (barrier_of facts ref) = true))) as [Hb1 Hm1].
  { destruct (barrier_of facts ref) as [?|e]; [injection E1 as <- <-; naive_solver|].
    apply contained_spec in E1 as [Hb Hm]. split; [naive_solver|]. intros Hf. specialize (Hm Hf). naive_solver. }
  destruct b1.
  { intros [= <- <- <-]. eexists [], _. split_and!; [done|done| |done]. left. left. by apply Hb1. }
  assert (barrier_of facts ref ≠ Err CancelledError) as Hb by (intros Hb%Hb1; done). specialize (Hm1 eq_refl).
  destruct (ready_of facts ref) as [r|e].
  2:{ destruct (contained e (scope_key ref) m1) as [m2 b2] eqn:E2. apply contained_spec in E2 as [Hb2 Hm2].
      intros [= <- <- <-]. exists [], []. split_and!; [done|done|intros ->; left; right; left; by rewrite (proj1 Hb2 eq_refl)|].
      intros ->. specialize (Hm2 eq_refl). split_and!; [done| |done|naive_solver].
      intros [?|[[= ->]|(? & ? & _)]]; [done| |done]. by pose proof (proj2 Hb2 eq_refl). }
  destruct (match position (record_of facts) r with Ok _ => _ | Err _ => _ end) as [p [m2 b2]] eqn:E2.
  assert (p = match position (record_of facts) r with Ok p => Some p | Err _ => None end
    ∧ (b2 = true ↔ position (record_of facts) r = Err CancelledError)
    ∧ (b2 = false → (m2 = [] ↔ m1 = [] ∧ is_ok (position (record_of facts) r) = true))) as (-> & Hb2 & Hm2).
  { destruct (position _ r) as [?|e]; [injection E2 as <- <- <-; naive_solver|]. injection E2 as <- E2.
    apply contained_spec in E2 as [Hb' Hm]. split; [done|]. split; [naive_solver|].
    intros Hf. specialize (Hm Hf). naive_solver. }
  destruct b2.
  { intros [= <- <- <-]. eexists [], _. split_and!; [done|done| |done]. left. right. right. exists r.
    split; [done|by apply Hb2]. }
  assert (position (record_of facts) r ≠ Err CancelledError) as Hp by (intros ?%Hb2; done). specialize (Hm2 eq_refl).
  assert (∀ p s, each (visit prefixes facts holder (scope_key (resolved_ref (scope_of r))) (scope_criteria r) p) s (visits r)
    = each discharge s ((λ v, {| duty_scope := scope_key (resolved_ref (scope_of r)); duty_criteria := scope_criteria r;
        duty_position := p; duty_lane := v.1.1; duty_standing := v.1.2; duty_questions := v.2 |}) <$> visits r)) as Hv.
  { clear. intros p s. revert s. induction (visits r) as [|[[l st] q] vs IH]; [done|]. intros s. cbn [each fmap list_fmap].
    change (discharge s _) with (visit prefixes facts holder (scope_key (resolved_ref (scope_of r))) (scope_criteria r) p s (l, st, q)).
    destruct (visit _ _ _ _ _ _ _ _) as [s' []]; [done|apply IH]. }
  rewrite Hv. intros (ad & rest & -> & Hl & Hu & Hm)%discharge_all. exists ad, rest. split_and!; [done|done| |].
  - intros ->. right. rewrite Hu. done.
  - intros ->. destruct (Hm eq_refl) as [-> Hm3]. split_and!; [done| |by apply Hu|].
    + intros [?|[?|(r' & [= <-] & ?)]]; done.
    + rewrite Hm3, Hm2, Hm1. split.
      * intros [[[-> ?] ?] ?]. split_and!; try done. by exists r.
      * intros (-> & (? & r' & [= <-] & ?) & ?). done.
Qed.

(** C21. The supervisor's pass contains every failure of one lane where it happens. Any
    read may raise (the record, the alarms held, the stream, a question's listings, the
    resolver), and any write, leases counted, before it is performed or after; the
    observation that it interrupts ends there and every other goes on. So each lane holds
    afterwards what its own observations made of what it held, in the order of the scopes
    and of each scope's members, whatever failed before, between or after them on other
    lanes, on a scope's barrier or in a scope's position. The pass reports that it ran
    exactly when every scope was read and no observation failed, and otherwise which did
    not. A cancellation is no failure: it ends the pass, with the observations up to it
    made, and only a cancellation does. *)
Theorem supervise_contains cs :
  let '(cs', r) := supervise prefixes facts holder cs in
  ∃ ad rest, duties = ad ++ rest
  ∧ (∀ lane, carrier_of cs' lane = (attended ad lane (carrier_of cs lane)).1)
  ∧ match r with
    | Err SupervisorCancelled => Exists scope_cancelled (scopes facts) ∨ ¬ uncancelled ad cs
    | _ => rest = [] ∧ ¬ Exists scope_cancelled (scopes facts) ∧ uncancelled ad cs
           ∧ (r = Ok RAN ↔ Forall scope_read (scopes facts) ∧ succeeded ad cs)
           ∧ (r ≠ Ok RAN → ∃ missed, r = Err (SupervisorIncompleteError missed))
    end.
Proof.
  assert (∀ refs cs missed cs' missed' cancelled,
    each (visit_scope prefixes facts holder) (cs, missed) refs = ((cs', missed'), cancelled) →
    ∃ ad rest, refs ≫= scope_duties = ad ++ rest ∧ left_by ad cs cs'
    ∧ (cancelled = true → Exists scope_cancelled refs ∨ ¬ uncancelled ad cs)
    ∧ (cancelled = false → rest = [] ∧ ¬ Exists scope_cancelled refs ∧ uncancelled ad cs
         ∧ (missed' = [] ↔ missed = [] ∧ Forall scope_read refs ∧ succeeded ad cs))) as Hall.
  { clear cs. induction refs as [|ref refs IH]; intros cs missed cs' missed' cancelled; cbn [each].
    { intros [= <- <- <-]. destruct (left_by_nil cs) as (? & ? & ?). exists [], []. split_and!; [done|done|done|].
      intros _. rewrite Exists_nil, Forall_nil. tauto. }
    destruct (visit_scope _ _ _ _ _) as [[cs1 m1] b] eqn:E1.
    apply visit_scope_spec in E1 as (ad1 & rest1 & Hd1 & Hl1 & Ht1 & Hf1). rewrite bind_cons, Hd1. destruct b.
    { intros [= <- <- <-]. exists ad1, (rest1 ++ (refs ≫= scope_duties)). rewrite <-app_assoc.
      split_and!; [done|done| |done]. intros _. rewrite Exists_cons. specialize (Ht1 eq_refl). tauto. }
    destruct (Hf1 eq_refl) as (-> & Hn1 & Hu1 & Hm1). intros (ad & rest & -> & Hl & Ht & Hf)%IH.
    destruct (visit_left_by_app ad1 ad cs cs1 cs') as (Hla & Hsa & Hua); [done..|].
    exists (ad1 ++ ad), rest. rewrite app_nil_r, <-app_assoc, Exists_cons, Forall_cons, Hua, Hsa.
    split_and!; [done|done|intros Hc; specialize (Ht Hc); tauto|].
    intros Hc. destruct (Hf Hc) as (-> & Hn & Hu & Hm). split_and!; try done; tauto. }
  unfold supervise. destruct (each _ _ _) as [[cs' missed] b] eqn:E. apply Hall in E as (ad & rest & Hd & Hl & Ht & Hf).
  exists ad, rest. split_and!; [done|done|]. destruct b; [by apply Ht|]. destruct (Hf eq_refl) as (? & ? & ? & Hm).
  destruct missed as [|m ms]; split_and!; try done; [tauto|split; [done|]|by eauto].
  intros Hr. assert (m :: ms = []) by tauto. done.
Qed.
End pass.

(** ** A sample question *)

#[local] Instance brief_alarms : AlarmJson := {|
  dump_subject := subject_scope; dump_surface := λ s, scope_key (surface_ref s);
  dump_alarm a := raised_at_sha a; validate_alarm _ := None |}.
#[local] Instance no_sessions : SessionJson := λ _, None.
Definition sample_question : LaneEscalation := {|
  escalation_issue := "K-1"; escalation_key := "A-1:lapse"; escalation_raised_by := "bot";
  question_text := "Does it hold?"; interim_text := "It does not."; interim_basis := "the check";
  escalation_sha := "c1" |}.
#[local] Instance sample_questions : EscalationJson :=
  λ s, if decide (s = "{}") then Some sample_question else None.
Definition age_record (shas : list string) : LaneRunState := moved_record shas.
Definition age_dump (r : LaneRunState) : string := "[" +:+ String dq "" +:+ join "," (commit_sha <$> commits r) +:+ String dq "" +:+ "]".
#[local] Instance age_json : RecordJson := {|
  dump_record := age_dump;
  validate_record_json s :=
    first_such (λ r, bool_decide (age_dump r = s)) [moved_record ["c1"; "c2"]; moved_record ["c1"; "c2"; "c1"]] |}.

Definition age_prefixes : pydict string string :=
  [("run_alarm", "kz-alarm"); ("run_state", "kz-state"); ("escalation", "kz-question")].
Definition lane_comment (key body : string) : TrackerComment := {|
  comment_key := key; comment_issue_key := "K-1"; author_key := Some "bot"; comment_body := body;
  comment_created_at := 0; reply_to := None |}.
Definition lane_comments (shas : list string) : list TrackerComment :=
  [lane_comment "q" ("[kz-question:K-1:A-1%3Alapse]" +:+ nl +:+ "{}");
   lane_comment "r" ("[kz-state:K-1]" +:+ nl +:+ lane_record_body (moved_record shas))].
Definition steady_reads (shas : list string) : question_reads :=
  let open := Ok {| resolution_state := UNRESOLVED; resolution_decision := None |} in
  let listing := Ok (lane_comments shas) in {|
  found_listing := listing; question_listing := listing; record_listing := listing; answer := open;
  question_again := listing; record_again := listing; answer_again := open;
  alarms_unread := None; stream_unread := None |}.

Definition sample_next (shas : list string) (held : list RunAlarm) :=
  next_question_record age_prefixes {| max_age_commits := 0; max_age_ticks := 5 |} "S-1" "K-1"
    (default "" (last shas)) "A-1:lapse" [("K-1", shas)] (steady_reads shas) held "bot".
Definition sample_aged : RunAlarm :=
  match sample_next ["c1"; "c2"] [] with
  | Ok (Some (Some a, _)) => a
  | _ => quiet_alarm (ScopeSubject "S-1") ESCALATION_AGEING [] "" ""
  end.
Lemma sample_next_ok : sample_next ["c1"; "c2"] [] = Ok (Some (Some sample_aged, Some sample_aged)).
Proof. by vm_compute. Qed.

Example question_aged_witness :
  address sample_aged = (EscalationSubject "S-1" "A-1:lapse" (Some "K-1") (Some "K-1"), ESCALATION_AGEING)
  ∧ ages_from "S-1" [("K-1", ["c1"; "c2"])] sample_aged
  ∧ sample_next ["c1"; "c2"] (upsert_alarm sample_aged []) = Ok (Some (None, Some sample_aged)).
Proof.
  destruct (question_aged age_prefixes {| max_age_commits := 0; max_age_ticks := 5 |} "S-1" "K-1" "c2"
    "A-1:lapse" "bot" [("K-1", ["c1"; "c2"])] (steady_reads ["c1"; "c2"]) [] sample_aged
    (Some sample_aged) sample_next_ok) as (Had & Hfrom & _ & _ & Hagain).
  split; [exact Had|]. split; [by apply Hfrom|exact Hagain].
Defined.

Definition question_tick (c : carrier) : list alarm_write * result exn unit :=
  question_writes age_prefixes {| max_age_commits := 0; max_age_ticks := 5 |} "S-1" "K-1" "c2" "A-1:lapse"
    [("K-1", ["c1"; "c2"])] (steady_reads ["c1"; "c2"]) "bot" c.

Example question_resumes_witness :
  length (effects (question_tick quiet_lane).1) = 2
  ∧ ∃ ws', question_tick (performs quiet_lane (take 2 (question_tick quiet_lane).1)) = (ws', Ok tt)
      ∧ effects (take 2 (question_tick quiet_lane).1) ++ effects ws' = effects (question_tick quiet_lane).1
      ∧ (length (question_tick quiet_lane).1 ≤ 2 → ws' = []).
Proof.
  split; [by vm_compute|].
  refine (question_resumes age_prefixes _ "S-1" "K-1" "c2" "A-1:lapse" "bot" [("K-1", ["c1"; "c2"])]
    (steady_reads ["c1"; "c2"]) quiet_lane (question_tick quiet_lane).1 2 _).
  apply injective_projections; [done|]. by vm_compute.
Defined.

(** A landing records the best commit again as a row of its own; the open question of a lane
    that landed can then no longer be aged, however the lane stands. *)
Example landed_lane_unaged :
  sample_next ["c1"; "c2"; "c1"] []
  = Err (RunShapeReadError "escalation_ageing" "r" "recorded commit order repeats a SHA").
Proof. by vm_compute. Qed.

(** The same row sets an age back: a lane that stood at its anchored head [c1], recorded two
    commits and landed [c1] again counts none of the three, because only what follows the
    last anchored head in its order is counted; before the landing it counted two. *)
Example landed_head_resets_age :
  (anchor ← anchor_reading "S-1" [("K-1", ["c1"])]; commits_since anchor [("K-1", ["c1"; "c2"; "c3"])]) = Ok 2
  ∧ (anchor ← anchor_reading "S-1" [("K-1", ["c1"])]; commits_since anchor [("K-1", ["c1"; "c2"; "c3"; "c1"])]) = Ok 0.
Proof. by vm_compute. Qed.
