(* ===== verification/FireDispatcherSpec.v ===== *)
(** * What dispatch passes promise over a run of the process.

    The dispatcher's three memories against a world that moves between any two of its
    calls: no issue is fired while an earlier fire of it is live; a remembered failure
    holds its issue back until the issue moves; a rate limit holds every pass back until
    it lapses; and a pass writes what its report says it wrote. *)

From S2P Require Import BaseResolution.
From S2P Require Import Prelude PyStr PyLines Tracker Errors Dispatch Outcome JobQueue Operation RunRecords FireContext FireDispatcher.

Local Open Scope nat_scope.

(** ** Triples *)

Section logic.
Context {W : Type}.
Notation state := (state (W := W)).
Notation co := (co (W := W)).

Definition in_world (w : W) (s : state) : state :=
  {| memory := memory s; world := w; writes := writes s |}.
Definition in_memory (d : Dispatcher) (s : state) : state :=
  {| memory := d; world := world s; writes := writes s |}.

Definition triple {A} (P : state → Prop) (m : co A) (Q : A → state → Prop) (E : state → Prop) : Prop :=
  ∀ s, P s → match m s with (s', Ok a) => Q a s' | (s', Err _) => E s' end.

Lemma triple_ret {A} (P E : state → Prop) (Q : A → state → Prop) a :
  (∀ s, P s → Q a s) → triple P (mret a) Q E.
Proof. intros H s. apply H. Qed.

Lemma triple_bind {A B} (P E : state → Prop) R (Q : B → state → Prop) (m : co A) (f : A → co B) :
  triple P m R E → (∀ a, triple (R a) (f a) Q E) → triple P (m ≫= f) Q E.
Proof.
  intros Hm Hf s HP. specialize (Hm s HP). unfold mbind, co_mbind.
  destruct (m s) as [s' [a|e]]; [by apply Hf|done].
Qed.

Lemma triple_weaken {A} (P P' E E' : state → Prop) (Q Q' : A → state → Prop) m :
  triple P' m Q' E' → (∀ s, P s → P' s) → (∀ a s, Q' a s → Q a s) → (∀ s, E' s → E s) → triple P m Q E.
Proof. intros H HP HQ HE s Hs. specialize (H s (HP s Hs)). destruct (m s) as [s' [a|e]]; auto. Qed.

Lemma triple_pure {A} (φ : Prop) (P E : state → Prop) (Q : A → state → Prop) m :
  (φ → triple P m Q E) → triple (λ s, P s ∧ φ) m Q E.
Proof. intros H s [HP Hφ]. by apply H. Qed.

Lemma triple_if {A} (b : bool) (P E : state → Prop) (Q : A → state → Prop) (m m' : co A) :
  (b = true → triple P m Q E) → (b = false → triple P m' Q E) → triple P (if b then m else m') Q E.
Proof. destruct b; auto. Qed.

(** What a coroutine keeps, whatever comes of it. *)
Definition keeps {A} (I : state → Prop) (m : co A) : Prop := triple I m (λ _, I) I.

Lemma keeps_ret {A} I (a : A) : keeps I (mret a).
Proof. by apply triple_ret. Qed.
Lemma keeps_bind {A B} I (m : co A) (f : A → co B) :
  keeps I m → (∀ a, keeps I (f a)) → keeps I (m ≫= f).
Proof. intros Hm Hf. by eapply triple_bind. Qed.
Lemma keeps_raises {A} I (r : result exn A) : keeps I (raises r).
Proof. intros s Hs. by destruct r. Qed.
Lemma keeps_recalls {A} I (f : Dispatcher → A) : keeps I (recalls f).
Proof. by intros s Hs. Qed.
Lemma keeps_observes {A} I (f : W → A) : keeps I (observes f).
Proof. by intros s Hs. Qed.
Lemma keeps_awaits {A} I (op : W → W * result exn A) :
  (∀ s, I s → I (in_world (op (world s)).1 s)) → keeps I (awaits op).
Proof. intros H s Hs. specialize (H s Hs). unfold awaits. destruct (op (world s)) as [w [a|e]]; exact H. Qed.
Lemma keeps_remembers (I : state → Prop) f :
  (∀ s, I s → I (in_memory (f (memory s)) s)) → keeps I (remembers f).
Proof. intros H s Hs. by apply H. Qed.
Lemma keeps_changes (I : state → Prop) f :
  (∀ s, I s → I (in_world (f (world s)) s)) → keeps I (changes f).
Proof. intros H s Hs. by apply H. Qed.
End logic.

Create HintDb keeps.
#[export] Hint Resolve keeps_ret keeps_bind keeps_raises keeps_recalls keeps_observes : keeps.

(** ** What every clause leaves alone *)

Section clauses.
Context {W : Type} (port : Ports W) (draw : list string → string) (self : FireDispatcher).
Notation state := (state (W := W)).
Notation co := (co (W := W)).

(** The calls of the port, those that write told apart. *)
Inductive reading : ∀ A, (W → W * result exn A) → Prop :=
| reading_scan q : reading _ (scan_issues port q)
| reading_issue k : reading _ (read_issue port k)
| reading_repository k : reading _ (recorded_repository port k)
| reading_initiatives p : reading _ (initiative_identifiers port p)
| reading_claim k : reading _ (active_claim port k)
| reading_job id : reading _ (get_job port id)
| reading_delivery u k : reading _ (open_delivery_exists port u k)
| reading_cache u : reading _ (ensure_available port u)
| reading_id : reading _ (generate_workspace_id port)
| reading_resolve k p i t n : reading _ (resolve_base_of port k p i t n)
| reading_context k b : reading _ (assemble_context port k b)
| reading_spec k : reading _ (read_base_spec port k).

Inductive calling : ∀ A, (W → W * result exn A) → Prop :=
| calling_reading A op : reading A op → calling A op
| calling_claim k h l : calling _ (claim_issue port k h l)
| calling_release k h : calling _ (release_claim port k h)
| calling_record k sp : calling _ (record_base_spec port k sp)
| calling_submit l r : calling _ (submit_job port l r).

(** An assertion about a state no clause disturbs: it holds past any reading, past the
    lapse of a cooldown that lapsed, and past any change to the memory of a [free] issue. *)
Class Undisturbed (free : string → Prop) (I : state → Prop) : Prop := {
  undisturbed_reading A op s : reading A op → I s → I (in_world (op (world s)).1 s);
  undisturbed_lapse s b : I s → backoff port (world s) = Some b → (until b ≤ now port (world s))%Z →
    I (in_world (set_backoff port None (world s)) s);
  undisturbed_forget s k : free k → I s → I (in_memory (forget k (memory s)) s);
  undisturbed_initiatives s p ids : I s → I (in_memory (set_initiatives p ids (memory s)) s);
}.

Section undisturbed.
Context (free : string → Prop) (I : state → Prop) `{!Undisturbed free I}.

Lemma keeps_reading {A} (op : W → W * result exn A) : reading A op → keeps I (awaits op).
Proof. intros Hop. apply keeps_awaits. intros s. by apply (undisturbed_reading A). Qed.
#[local] Hint Resolve keeps_reading : keeps.
#[local] Hint Constructors reading : keeps.

Lemma keeps_or_else m m' : keeps I m → keeps I m' → keeps I (or_else m m').
Proof. intros Hm Hm'. apply keeps_bind; [done|]. intros [e|]; [apply keeps_ret|done]. Qed.

Lemma keeps_foldr ms : Forall (keeps I) ms → keeps I (foldr or_else (mret None) ms).
Proof. induction 1; [apply keeps_ret|by apply keeps_or_else]. Qed.

Lemma keeps_holding : keeps I (holding port).
Proof.
  intros s Hs. unfold holding, mbind, co_mbind, observes. cbn.
  destruct (backoff port (world s)) as [b|] eqn:E; [|done].
  destruct (decide (now port (world s) < until b)%Z); [done|].
  apply (undisturbed_lapse s b); [done|done|lia].
Qed.

Lemma keeps_team issue ks : keeps I (_team_exclusion issue ks).
Proof. apply keeps_ret. Qed.

Lemma keeps_memory issue : free (issue_key issue) → keeps I (_memory_exclusion port issue).
Proof.
  intros Hfree. apply keeps_bind; [apply keeps_recalls|]. intros [r|]; [|apply keeps_ret].
  apply keeps_bind; [unfold _still_stands; repeat case_decide; eauto with keeps|].
  intros []; [apply keeps_ret|]. apply keeps_bind; [|intros; apply keeps_ret].
  apply keeps_remembers. intros s. by apply undisturbed_forget.
Qed.

Lemma keeps_backoff issue : keeps I (_backoff_exclusion port issue).
Proof. apply keeps_bind; [apply keeps_holding|]. intros; apply keeps_ret. Qed.

Lemma keeps_scope issue : keeps I (_exclude_by_scope port self issue).
Proof.
  unfold _exclude_by_scope. case_decide; [apply keeps_ret|].
  apply keeps_bind; [|intros; apply keeps_ret].
  destruct (project_id issue); [|apply keeps_ret].
  destruct (clause_in_scope _ _); [apply keeps_ret|].
  apply keeps_bind; [|intros; apply keeps_ret]. unfold _initiatives_for.
  apply keeps_bind; [apply keeps_recalls|]. intros [ids|]; [apply keeps_ret|].
  apply keeps_bind; [eauto with keeps|]. intros ids. apply keeps_bind; [|intros; apply keeps_ret].
  apply keeps_remembers. intros st. by apply undisturbed_initiatives.
Qed.

Lemma keeps_route issue : keeps I (_route_exclusion port self issue).
Proof.
  unfold _route_exclusion. cbv zeta.
  destruct (match team_key issue with Some key => _ | None => false end); eauto with keeps.
Qed.

Lemma keeps_read_blockers keys found : keeps I (read_blockers port keys found).
Proof. revert found. induction keys; intros found; cbn; eauto with keeps. Qed.

Lemma keeps_live_blocker issue : keeps I (_live_blocker_of port issue).
Proof. apply keeps_bind; [apply keeps_read_blockers|]. intros; apply keeps_ret. Qed.

Lemma keeps_blocker issue : keeps I (_blocker_exclusion port issue).
Proof. apply keeps_bind; [apply keeps_live_blocker|]. intros; apply keeps_ret. Qed.

Lemma keeps_run_is_live k : keeps I (_run_is_live port k).
Proof.
  apply keeps_bind; [apply keeps_recalls|]. intros [id|]; [|apply keeps_ret].
  eauto with keeps.
Qed.

Lemma keeps_in_flight issue : keeps I (_in_flight_exclusion port issue).
Proof.
  apply keeps_bind; [eauto with keeps|]. intros claim. apply keeps_bind; [apply keeps_run_is_live|].
  intros; apply keeps_ret.
Qed.

Lemma keeps_delivery issue : keeps I (_delivery_exclusion port self issue).
Proof. apply keeps_bind; [eauto with keeps|]. intros; apply keeps_ret. Qed.

Lemma keeps_exclude issue ks : free (issue_key issue) → keeps I (_exclude port self issue ks).
Proof.
  intros Hfree. apply keeps_foldr. repeat constructor; try (by apply keeps_ret);
    eauto using keeps_memory, keeps_backoff, keeps_scope, keeps_route, keeps_blocker, keeps_in_flight, keeps_delivery.
Qed.

Lemma keeps_standing issue : free (issue_key issue) → keeps I (standing_exclusion port self issue).
Proof.
  intros Hfree. apply keeps_bind; [apply keeps_raises|]. intros ks. apply keeps_foldr.
  repeat constructor; try (by apply keeps_ret);
    eauto using keeps_memory, keeps_backoff, keeps_route, keeps_in_flight, keeps_delivery.
Qed.

Lemma keeps_scan ks : keeps I (_scan port self ks).
Proof. induction ks as [|k ks IH]; cbn; eauto 6 with keeps. Qed.

Lemma keeps_partition ks issues :
  Forall (λ i, free (issue_key i)) issues → keeps I (partition_issues port self ks issues).
Proof.
  induction 1 as [|i issues Hi _ IH]; cbn; [apply keeps_ret|].
  apply keeps_bind; [by apply keeps_exclude|]. intros e. apply keeps_bind; [done|]. intros; apply keeps_ret.
Qed.

Lemma keeps_resolve_winner winner : keeps I (resolve_winner port self winner).
Proof. unfold resolve_winner. eauto 8 with keeps. Qed.
End undisturbed.
End clauses.

(** ** Histories: passes, ends of runs, and anything elsewhere, in any order *)

Section histories.
Context {W : Type} (port : Ports W) (draw : list string → string) (self : FireDispatcher).
Notation state := (state (W := W)).

Inductive happening :=
| Pass
| ScopePass (ready : ReadySet)
| RunEnded (issue : string) (o : RunOutcome) (failure : option string)
| Elsewhere (f : W → W).

Definition happens (h : happening) (s : state) : state * list DispatchReport :=
  match h with
  | Pass => match run_pass port draw self s with (s, Ok r) => (s, [r]) | (s, Err _) => (s, []) end
  | ScopePass ready =>
      match run_scope_pass port self ready s with (s, Ok r) => (s, [r]) | (s, Err _) => (s, []) end
  | RunEnded issue o failure => ((record_run_outcome port self issue o failure s).1, [])
  | Elsewhere f => (in_world (f (world s)) s, [])
  end.

Fixpoint history (hs : list happening) (s : state) : state * list DispatchReport :=
  match hs with
  | [] => (s, [])
  | h :: hs => let '(s, r) := happens h s in let '(s, rs) := history hs s in (s, r ++ rs)
  end.

Definition started (w : W) : state := {| memory := fresh_dispatcher; world := w; writes := [] |}.

(** The fire a report says was enqueued. *)
Definition fires_of (r : DispatchReport) : list (string * string) :=
  match outcome r, claimed_issue_key r, enqueued_job r with
  | fire_enqueued, Some k, Some id => [(k, id)]
  | _, _, _ => []
  end.

(** ** What the queue promises the dispatcher *)

(** [issued w] are the jobs there have been, [over w id] that [id] is terminal or gone;
    [valid] is the queue's own invariant. *)
Definition moves (valid : W → Prop) (issued : W → gset string) (over : W → string → Prop) (w w' : W) : Prop :=
  valid w → valid w' ∧ ∀ id, id ∈ issued w → id ∈ issued w' ∧ (over w id → over w' id).

(** Ids are never issued again, and what is over stays over. *)
Class FreshJobs (valid : W → Prop) (issued : W → gset string) (over : W → string → Prop) : Prop := {
  calling_moves A op w : calling port A op → moves valid issued over w (op w).1;
  backoff_moves b w : moves valid issued over w (set_backoff port b w);
  job_over id w w' r : valid w → id ∈ issued w → get_job port id w = (w', Ok r) →
    (∀ x, r = Some x → job_state x = TERMINAL) → over w' id;
  job_fresh l req w w' x : valid w → submit_job port l req w = (w', Ok x) →
    job_id x ∉ issued w ∧ job_id x ∈ issued w';
  issue_asked k w w' i : read_issue port k w = (w', Ok i) → issue_key i = k;
}.

Section fires.
Context (valid : W → Prop) (issued : W → gset string) (over : W → string → Prop).
Context `{!FreshJobs valid issued over}.
Notation moves := (moves valid issued over).

(** The fires so far: each is held by the dispatcher or over; of two of one issue the
    earlier is over. *)
Record fired (fires : list (string * string)) (s : state) : Prop := {
  fired_valid : valid (world s);
  fired_held k id : (k, id) ∈ fires →
    id ∈ issued (world s) ∧ (dict_get (jobs_by_issue (memory s)) k = Some id ∨ over (world s) id);
  fired_once i j k id id' : i < j → fires !! i = Some (k, id) → fires !! j = Some (k, id') →
    id ≠ id' ∧ over (world s) id;
}.

(** Every fire of the issues [ks] is over. *)
Definition rested (fires : list (string * string)) (ks : list string) (s : state) : Prop :=
  fired fires s ∧ ∀ k id, k ∈ ks → (k, id) ∈ fires → over (world s) id.

Lemma fired_moves fires s w : moves (world s) w → fired fires s → fired fires (in_world w s).
Proof.
  intros Hm [Hv Hh Ho]. destruct (Hm Hv) as [Hv' Hm']. split; [done|..].
  - intros k id Hin. destruct (Hh k id Hin) as [Hi Hor]. destruct (Hm' id Hi) as [Hi' Hov].
    split; [done|]. destruct Hor; [by left|right; by apply Hov].
  - intros i j k id id' Hij Hi Hj. destruct (Ho i j k id id' Hij Hi Hj) as [Hne Hov]. split; [done|].
    apply (Hm' id); [|done]. apply (Hh k id). by eapply list_elem_of_lookup_2.
Qed.

Lemma rested_moves fires ks s w :
  moves (world s) w → rested fires ks s → rested fires ks (in_world w s).
Proof.
  intros Hm [Hf Hr]. split; [by apply fired_moves|]. intros k id Hk Hin.
  apply (Hm (fired_valid _ _ Hf)); [|by eapply Hr]. by apply (fired_held _ _ Hf k id).
Qed.

Lemma rested_jobs fires ks s d :
  jobs_by_issue d = jobs_by_issue (memory s) → rested fires ks s → rested fires ks (in_memory d s).
Proof.
  intros E [[Hv Hh Ho] Hr]. split; [|exact Hr]. split; [exact Hv| |exact Ho]. intros k id Hin. cbn. rewrite E. by apply Hh.
Qed.

#[export] Instance rested_undisturbed fires ks : Undisturbed port (λ _, True) (rested fires ks).
Proof.
  split.
  - intros A op s Hop. apply rested_moves. by eapply calling_moves, calling_reading.
  - intros s b Hs _ _. apply rested_moves; [|done]. apply backoff_moves.
  - intros s k _. by apply rested_jobs.
  - intros s p ids. by apply rested_jobs.
Qed.

Lemma rested_nil fires s : rested fires [] s ↔ fired fires s.
Proof. split; [by intros []|]. intros Hf. split; [done|]. by intros k id ?%elem_of_nil. Qed.

Lemma rested_cons fires k ks s :
  rested fires (k :: ks) s ↔ rested fires ks s ∧ rested fires [k] s.
Proof.
  split.
  - intros [Hf Hr]. split; (split; [done|]); intros k' id Hk'; apply Hr; set_solver.
  - intros [[Hf Hr] [_ Hk]]. split; [done|]. intros k' id [->|Hin]%elem_of_cons; [apply Hk; set_solver|by apply Hr].
Qed.

(** ** A clause that answers [None] only at rest *)

Definition settles_issue fires ks k (m : co (option IssueExclusion)) : Prop :=
  triple (rested fires ks) m (λ e s, rested fires (if e then ks else k :: ks) s) (rested fires ks).

Lemma settles_or_else_l fires ks k m m' :
  settles_issue fires ks k m → keeps (rested fires (k :: ks)) m' → settles_issue fires ks k (or_else m m').
Proof.
  intros Hm Hm'. eapply triple_bind; [exact Hm|]. intros [e|]; [by apply triple_ret|].
  eapply triple_weaken; [exact Hm'|done| |by intros s [? _]%rested_cons].
  intros [e|] s Hs; [by apply rested_cons in Hs as [? _]|done].
Qed.

Lemma settles_or_else_r fires ks k m m' :
  keeps (rested fires ks) m → settles_issue fires ks k m' → settles_issue fires ks k (or_else m m').
Proof. intros Hm Hm'. eapply triple_bind; [exact Hm|]. intros [e|]; [by apply triple_ret|done]. Qed.

(** The live-run reading: false only when the job the dispatcher holds is over. *)
Lemma run_is_live_rests fires ks k :
  triple (rested fires ks) (_run_is_live port k)
    (λ b s, rested fires (if b then ks else k :: ks) s) (rested fires ks).
Proof.
  intros s Hs. unfold _run_is_live, mbind, co_mbind, recalls. cbn.
  assert (∀ s', rested fires ks s' → memory s' = memory s →
    (∀ id, dict_get (jobs_by_issue (memory s)) k = Some id → id ∈ issued (world s') → over (world s') id) →
    rested fires (k :: ks) s') as Hrest.
  { intros s' Hs' Em Hover. apply rested_cons. split; [done|]. destruct Hs' as [Hf _]. split; [done|].
    intros k' id ->%list_elem_of_singleton Hin. destruct (fired_held _ _ Hf k id Hin) as [Hi [Hd|]]; [|done].
    apply Hover; [by rewrite <-Em|done]. }
  destruct (dict_get (jobs_by_issue (memory s)) k) as [id|] eqn:Ej; [|by apply Hrest].
  unfold awaits. destruct (get_job port id (world s)) as [w r] eqn:Eg.
  assert (rested fires ks (in_world w s)) as Hs'.
  { pose proof (undisturbed_reading (free := λ _, True) (I := rested fires ks) _ _ _ s (reading_job port id) Hs) as H.
    by rewrite Eg in H. }
  destruct r as [r|e]; cbn; [|done].
  assert (id ∈ issued (world s) → (∀ x, r = Some x → job_state x = TERMINAL) →
    rested fires (k :: ks) (in_world w s)) as Hover.
  { intros Hi Hr. apply Hrest; [done|done|]. intros id' [= <-] _.
    destruct Hs as [Hf _]. eapply job_over; [by apply (fired_valid _ _ Hf)|done..]. }
  assert (¬ id ∈ issued (world s) → rested fires (k :: ks) (in_world w s)) as Hnot.
  { intros Hni. apply rested_cons. split; [done|]. destruct Hs' as [Hf' _]. split; [done|].
    intros k' id' ->%list_elem_of_singleton Hin. destruct Hs as [Hf _].
    destruct (fired_held _ _ Hf k id' Hin) as [Hi Hor].
    destruct (fired_held _ _ Hf' k id' Hin) as [_ [Hd|]]; [|done]. cbn in Hd.
    assert (id' = id) as -> by congruence. done. }
  destruct r as [x|]; cbn.
  - destruct (decide (job_state x = TERMINAL)) as [Ht|Ht].
    + rewrite bool_decide_eq_true_2 by done. cbn.
      destruct (decide (id ∈ issued (world s))); [apply Hover; [done|by intros ? [= <-]]|by apply Hnot].
    + by rewrite bool_decide_eq_false_2.
  - destruct (decide (id ∈ issued (world s))); [by apply Hover|by apply Hnot].
Qed.

Lemma in_flight_settles fires ks issue :
  settles_issue fires ks (issue_key issue) (_in_flight_exclusion port issue).
Proof.
  eapply triple_bind.
  { apply (keeps_reading port (λ _, True) (rested fires ks)), reading_claim. }
  intros claim. eapply triple_bind; [apply run_is_live_rests|]. intros live. apply triple_ret. intros s Hs.
  destruct claim as [c|], live; cbn; try done; by apply rested_cons in Hs as [? _].
Qed.

Lemma all_free issues : Forall (λ i : TrackerIssue, (λ _ : string, True) (issue_key i)) issues.
Proof. by apply Forall_forall. Qed.

Lemma exclude_settles fires ks issue keys :
  settles_issue fires ks (issue_key issue) (_exclude port self issue keys).
Proof.
  unfold _exclude. cbn [foldr].
  apply settles_or_else_r; [by apply keeps_team|].
  apply settles_or_else_r; [by apply (keeps_memory port (λ _, True) (rested fires ks))|].
  apply settles_or_else_r; [by apply (keeps_backoff port (λ _, True) (rested fires ks))|].
  apply settles_or_else_r; [by apply (keeps_scope port self (λ _, True) (rested fires ks))|].
  apply settles_or_else_r; [by apply (keeps_route port self (λ _, True) (rested fires ks))|].
  apply settles_or_else_r; [apply keeps_ret|]. apply settles_or_else_r; [apply keeps_ret|].
  apply settles_or_else_r; [by apply (keeps_blocker port (λ _, True) (rested fires ks))|].
  apply settles_or_else_l; [apply in_flight_settles|].
  apply keeps_or_else; [apply (keeps_delivery port self (λ _, True) (rested fires (issue_key issue :: ks)))|apply keeps_ret].
Qed.

Lemma standing_settles fires ks issue :
  settles_issue fires ks (issue_key issue) (standing_exclusion port self issue).
Proof.
  eapply triple_bind; [apply keeps_raises|]. intros keys. cbn [foldr].
  apply settles_or_else_r; [by apply keeps_team|].
  apply settles_or_else_r; [by apply (keeps_route port self (λ _, True) (rested fires ks))|].
  apply settles_or_else_r; [by apply (keeps_memory port (λ _, True) (rested fires ks))|].
  apply settles_or_else_r; [by apply (keeps_backoff port (λ _, True) (rested fires ks))|].
  apply settles_or_else_l; [apply in_flight_settles|].
  apply keeps_or_else; [apply (keeps_delivery port self (λ _, True) (rested fires (issue_key issue :: ks)))|apply keeps_ret].
Qed.

Lemma partition_settles fires ks keys issues :
  triple (rested fires ks) (partition_issues port self keys issues)
    (λ split s, rested fires ((issue_key <$> split.1) ++ ks) s) (fired fires).
Proof.
  revert ks. induction issues as [|i issues IH]; intros ks; cbn [partition_issues].
  - by apply triple_ret.
  - eapply triple_bind.
    { eapply triple_weaken; [apply (exclude_settles fires ks i keys)|done..|]. by intros s []. }
    intros e. eapply triple_bind; [apply IH|]. intros split. apply triple_ret. intros s Hs.
    destruct e as [e|]; cbn; [done|]. destruct Hs as [Hf Hr]. split; [done|].
    intros k id Hk. apply Hr. set_solver.
Qed.

(** ** The launch *)

Lemma fired_undisturbed fires : Undisturbed port (λ _, True) (fired fires).
Proof.
  pose proof (rested_undisturbed fires []) as [H1 H2 H3 H4].
  split; intros; apply rested_nil; [eapply H1|eapply H2|eapply H3|eapply H4]; eauto; by apply rested_nil.
Qed.

Lemma keeps_performs fires ks {A} e (op : W → W * result exn A) :
  calling port A op → keeps (rested fires ks) (performs e op).
Proof.
  intros Hop s Hs. unfold performs. destruct (op (world s)) as [w r] eqn:E.
  assert (rested fires ks (in_world w s)) as Hs'.
  { replace w with (op (world s)).1 by by rewrite E.
    apply rested_moves; [|done]. by apply (calling_moves A). }
  destruct Hs' as [[Hv Hh Ho] Hr]. destruct r; (split; [by split|exact Hr]).
Qed.

(** The new fire, of an issue at rest. *)
Lemma enqueue_fires fires ks winner sel spec :
  issue_key winner ∈ ks →
  triple (rested fires ks) (enqueue port self winner sel spec)
    (λ r, fired (fires ++ fires_of r)) (fired fires).
Proof.
  intros Hk. assert (∀ s, rested fires ks s → fired fires s) as Hw by by intros s [].
  unfold enqueue. eapply triple_bind.
  { eapply triple_weaken; [apply (keeps_reading port (λ _, True) (rested fires ks)), reading_context|done..|done]. }
  intros context. eapply triple_bind.
  { eapply triple_weaken; [apply (keeps_reading port (λ _, True) (rested fires ks)), reading_spec|done..|done]. }
  intros recorded. cbv zeta. eapply triple_bind.
  { eapply triple_weaken; [apply (keeps_performs fires ks), calling_record|done..|done]. }
  intros u. cbv beta. set (request := fire_submission _ _ _ _). set (k := issue_key winner) in *.
  intros s Hs. unfold mbind, co_mbind, performs.
  pose proof (keeps_performs fires ks (Submits request) (submit_job port (dispatch_lane self) request)
    (calling_submit _ _ _) s Hs) as Hs'. unfold performs in Hs'.
  destruct (submit_job port (dispatch_lane self) request (world s)) as [w [x|e]] eqn:E; cbn in *; [|by apply Hw].
  destruct (job_fresh _ _ _ _ _ (fired_valid _ _ (proj1 Hs)) E) as [Hnew Hin].
  destruct Hs as [Hf0 _]. destruct Hs' as [Hf Hr]. split; [by apply (fired_valid _ _ Hf)|..].
  - intros k' id [Hin'|[= -> ->]%list_elem_of_singleton]%elem_of_app; cbn; cycle 1.
    + split; [done|]. left. apply dict_get_set_eq.
    + destruct (fired_held _ _ Hf k' id Hin') as [Hi Hor]. split; [done|].
      destruct (decide (k' = k)) as [->|Hne]; [right; by eapply Hr|].
      rewrite dict_get_set_ne by done. exact Hor.
  - intros i j k' id id' Hij Hi Hj. cbn.
    assert (j < length fires → id ≠ id' ∧ over w id) as Hold.
    { intros Hjl. rewrite lookup_app_l in Hi by lia. rewrite lookup_app_l in Hj by done.
      by apply (fired_once _ _ Hf i j k'). }
    destruct (decide (j < length fires)) as [Hjl|Hjl]; [by apply Hold|].
    pose proof (lookup_lt_Some _ _ _ Hj) as Hlen. rewrite length_app in Hlen. cbn in Hlen.
    rewrite lookup_app_r in Hj by lia. apply list_elem_of_lookup_2, list_elem_of_singleton in Hj as [= -> ->].
    assert (i < length fires) as Hil by lia.
    rewrite lookup_app_l in Hi by done. apply list_elem_of_lookup_2 in Hi. split; [|by eapply Hr].
    intros ->. by apply Hnew, (fired_held _ _ Hf0 k).
Qed.

Lemma launch_fires fires ks winner sel :
  issue_key winner ∈ ks →
  triple (rested fires ks) (launch port self winner sel)
    (λ r, fired (fires ++ fires_of r)) (fired fires).
Proof.
  intros Hk. assert (∀ s, rested fires ks s → fired fires s) as Hw by by intros s [].
  unfold launch. eapply triple_bind.
  { eapply triple_weaken; [apply (keeps_performs fires ks), calling_claim|done..|done]. }
  intros claim. destruct (claim_status claim);
    [|apply triple_ret; intros s Hs; cbn; rewrite app_nil_r; by apply Hw..].
  intros s Hs. unfold try_else.
  pose proof (keeps_resolve_winner port self (λ _, True) (rested fires ks) winner s Hs) as H.
  destruct (resolve_winner port self winner s) as [s1 [spec|e]]; [by apply (enqueue_fires fires ks)|].
  destruct (base_refusal_text e) as [reason|]; cbn; [|by apply Hw].
  revert s1 H. change (triple (rested fires ks) (base_refused port self winner sel reason)
    (λ r, fired (fires ++ fires_of r)) (fired fires)).
  eapply triple_bind.
  { eapply triple_weaken; [apply (keeps_performs fires ks), calling_release|done..|done]. }
  intros u. eapply triple_bind.
  { eapply triple_weaken; [apply (keeps_reading port (λ _, True) (rested fires ks)), reading_issue|done..|done]. }
  intros refreshed. eapply triple_bind.
  { eapply triple_weaken; [apply (keeps_remembers (rested fires ks))|done..|done]. intros s1. by apply rested_jobs. }
  intros u1. apply triple_ret. intros s1 Hs1. cbn. rewrite app_nil_r. by apply Hw.
Qed.

(** ** Passes and histories *)

Lemma claim_and_enqueue_fires fires ks selection sel :
  winner_key selection ∈ ks →
  triple (rested fires ks) (_claim_and_enqueue port self selection sel)
    (λ r, fired (fires ++ fires_of r)) (fired fires).
Proof.
  intros Hk. assert (∀ s, rested fires ks s → fired fires s) as Hw by by intros s [].
  unfold _claim_and_enqueue.
  eapply (triple_bind _ _ (λ winner s, rested fires ks s ∧ issue_key winner ∈ ks)).
  { intros s Hs. unfold awaits. destruct (read_issue port (winner_key selection) (world s)) as [w r] eqn:E.
    assert (rested fires ks (in_world w s)) as Hs'.
    { replace w with (read_issue port (winner_key selection) (world s)).1 by by rewrite E.
      apply rested_moves; [|done]. apply (calling_moves _ _ _ (calling_reading port _ _ (reading_issue port _))). }
    destruct r as [i|e]; cbn; [|by apply Hw]. split; [done|]. by rewrite (issue_asked _ _ _ _ E). }
  intros winner. apply triple_pure. intros Hwin. eapply triple_bind.
  { eapply triple_weaken; [apply (keeps_live_blocker port (λ _, True) (rested fires ks))|done..|done]. }
  intros [blocker|]; [|by apply launch_fires].
  eapply triple_bind.
  { eapply triple_weaken; [apply (keeps_remembers (rested fires ks))|done..|done]. intros s1. by apply rested_jobs. }
  intros u. apply triple_ret. intros s Hs. cbn. rewrite app_nil_r. by apply Hw.
Qed.

Lemma selected_eligible_key issues selection `{!UniformDraw draw} :
  select_top_ranked issues draw = Some selection → winner_key selection ∈ issue_key <$> issues.
Proof.
  intros E. pose proof (select_top_ranked_spec issues draw) as H. rewrite E in H.
  destruct H as (Hw & Ht & _). apply Ht in Hw as (i & Hi & <- & _). by apply list_elem_of_fmap_2.
Qed.

Lemma run_pass_fires fires `{!UniformDraw draw} :
  triple (fired fires) (run_pass port draw self) (λ r, fired (fires ++ fires_of r)) (fired fires).
Proof.
  pose proof (fired_undisturbed fires) as Hu.
  unfold run_pass. eapply triple_bind; [apply keeps_raises|]. intros keys.
  eapply triple_bind; [by apply (keeps_scan port self (λ _, True))|]. intros issues.
  eapply triple_bind.
  { eapply triple_weaken; [apply (partition_settles fires [] keys issues)| |done..]. intros s. by apply rested_nil. }
  intros split. cbv zeta. destruct (select_top_ranked split.1 draw) as [selection|] eqn:E.
  - apply claim_and_enqueue_fires. apply elem_of_app. left. by eapply selected_eligible_key.
  - apply triple_ret. intros s [Hs _]. cbn. by rewrite app_nil_r.
Qed.

Lemma launch_first_fires fires ready rows keys exclusions lanes :
  triple (fired fires) (launch_first port self ready rows keys exclusions lanes)
    (λ r, fired (fires ++ fires_of r)) (fired fires).
Proof.
  revert exclusions. induction lanes as [|[issue gap] lanes IH]; intros exclusions; cbn [launch_first].
  - apply triple_ret. intros s Hs. cbn. by rewrite app_nil_r.
  - eapply triple_bind.
    { eapply triple_weaken; [apply (standing_settles fires [] issue)| |done|]; [intros s; by apply rested_nil|by intros s []]. }
    intros [e|].
    + eapply triple_weaken; [apply IH|by intros s []|done..].
    + apply launch_fires. set_solver.
Qed.

Lemma run_ended_fires fires issue o failure :
  keeps (fired fires) (record_run_outcome port self issue o failure).
Proof.
  pose proof (fired_undisturbed fires) as Hu. unfold record_run_outcome. case_decide; [apply keeps_ret|].
  apply keeps_bind.
  { case_decide; [|apply keeps_ret]. apply keeps_changes. intros s Hs. apply fired_moves; [|done].
    apply backoff_moves. }
  intros u. apply keeps_bind; [apply keeps_recalls|]. intros []; [|apply keeps_ret].
  apply keeps_bind; [apply (keeps_reading port (λ _, True) (fired fires)), reading_issue|].
  intros refreshed. apply keeps_remembers. intros s Hs. apply (proj1 (rested_nil _ _)), rested_jobs; [done|].
  by apply (proj2 (rested_nil _ _)).
Qed.

Lemma happens_fires fires h s `{!UniformDraw draw} :
  (∀ f w, h = Elsewhere f → moves w (f w)) → fired fires s →
  let '(s', rs) := happens h s in fired (fires ++ concat (fires_of <$> rs)) s'.
Proof.
  intros Hels Hs. destruct h as [|ready|issue o failure|f]; cbn [happens].
  - pose proof (run_pass_fires fires s Hs) as H.
    destruct (run_pass port draw self s) as [s' [r|e]]; cbn; by rewrite app_nil_r.
  - unfold run_scope_pass. pose proof (λ rows keys ex, launch_first_fires fires ready rows keys ex (ready_lanes ready) s Hs) as H.
    cbv zeta. set (rows := snapshot_row <$> _). set (ex := _ ++ _). set (keys := _ <$> ready_lanes ready).
    specialize (H rows keys ex). destruct (launch_first port self ready rows keys ex (ready_lanes ready) s) as [s' [r|e]];
      cbn; by rewrite app_nil_r.
  - pose proof (run_ended_fires fires issue o failure s Hs) as H. cbn. rewrite app_nil_r.
    by destruct (record_run_outcome port self issue o failure s) as [s' [u|e]].
  - cbn. rewrite app_nil_r. apply fired_moves; [by apply Hels|done].
Qed.

Lemma history_fires fires hs s `{!UniformDraw draw} :
  (∀ f w, Elsewhere f ∈ hs → moves w (f w)) → fired fires s →
  let '(s', rs) := history hs s in fired (fires ++ concat (fires_of <$> rs)) s'.
Proof.
  revert fires s. induction hs as [|h hs IH]; intros fires s Hels Hs; cbn [history].
  { cbn. by rewrite app_nil_r. }
  pose proof (happens_fires fires h s ltac:(intros f w ->; apply Hels; left) Hs) as H.
  destruct (happens h s) as [s1 rs1].
  specialize (IH _ s1 ltac:(intros f w ?; apply Hels; by right) H).
  destruct (history hs s1) as [s2 rs2]. by rewrite fmap_app, concat_app, app_assoc.
Qed.

Lemma started_fired w : valid w → fired [] (started w).
Proof. intros Hv. split; [done|by intros k id ?%elem_of_nil|]. intros i j k id id' _ Hi. done. Qed.

(** Of two fires of one issue, in whatever history, the earlier is over. *)
Lemma one_live_fire hs w0 `{!UniformDraw draw} :
  valid w0 → (∀ f w, Elsewhere f ∈ hs → moves w (f w)) →
  let '(s, reports) := history hs (started w0) in
  ∀ i j k id id', i < j → concat (fires_of <$> reports) !! i = Some (k, id) →
    concat (fires_of <$> reports) !! j = Some (k, id') → id ≠ id' ∧ over (world s) id.
Proof.
  intros Hv Hels. pose proof (history_fires [] hs (started w0) Hels (started_fired w0 Hv)) as H.
  destruct (history hs (started w0)) as [s rs]. exact (fired_once _ _ H).
Qed.
End fires.
End histories.
