(* ===== verification/FireQueue.v ===== *)
(** * Passes over the process's own queue.

    [FireDispatcherSpec] proves the dispatcher against what a queue promises; here the
    queue of [JobQueue] keeps that promise, and the two are run together: before every
    call the queue may have made any of its transitions, other producers' submissions
    included, and everything outside the process answers whatever it answers. *)

From S2P Require Import BaseResolution.
From S2P Require Import Prelude PyStr PyLines Tracker Errors Dispatch Outcome JobQueue Operation RunRecords FireContext FireDispatcher.
From S2P Require Import FireDispatcherSpec.

Local Open Scope nat_scope.

(** ** The desk: the queue and what answers at the nth call *)

Record Answers := {
  activity_at : nat → list label;
  now_at : nat → Z;
  backoff_at : nat → option (option _LaneBackoff);
  scan_at : nat → IssueQuery → result exn (list TrackerIssue);
  issue_at : nat → string → result exn TrackerIssue;
  repository_at : nat → string → result exn (option string);
  initiatives_at : nat → string → result exn (gset string);
  claimed_at : nat → string → result exn (option ClaimResult);
  claim_at : nat → string → result exn ClaimResult;
  release_at : nat → string → result exn unit;
  spec_at : nat → string → result exn (option BaseSpec);
  record_at : nat → string → result exn unit;
  delivery_at : nat → string → result exn bool;
  cache_at : nat → result exn string;
  resolve_at : nat → string → result exn BaseSpec;
  context_at : nat → string → result exn FireContext;
}.

Record desk := {
  queue : JobQueue;
  issued_ids : gset string;
  calls : nat;
  cooldown : option _LaneBackoff;
}.

Section desk.
Context (cfg : JobQueueSettings) (answers : Answers).

(** One transition of the queue; a submission's id is one never issued. *)
Definition act (d : desk) (lb : label) : desk :=
  let taken := match lb with Submit _ _ id _ => bool_decide (id ∈ issued_ids d) | _ => false end in
  if (taken : bool) then d
  else match handle cfg (queue d) lb with
       | Some (Ok q) =>
           {| queue := q; calls := calls d; cooldown := cooldown d;
              issued_ids := match lb with Submit _ _ id _ => {[ id ]} ∪ issued_ids d | _ => issued_ids d end |}
       | _ => d
       end.

Definition acts (ls : list label) (d : desk) : desk := foldl act d ls.

(** What happened before the next call. *)
Definition meanwhile (d : desk) : desk :=
  let d' := acts (activity_at answers (calls d)) d in
  {| queue := queue d'; issued_ids := issued_ids d'; calls := S (calls d);
     cooldown := default (cooldown d) (backoff_at answers (calls d)) |}.

Definition told {A} (answer : nat → result exn A) (d : desk) : desk * result exn A :=
  (meanwhile d, answer (calls d)).

(** [read_issue] answers the issue asked for, which is what an address is. *)
Definition addressed (k : string) (r : result exn TrackerIssue) : result exn TrackerIssue :=
  match r with
  | Ok i => if decide (issue_key i = k) then Ok i else Err (TrackerProtocolError "another issue")
  | Err e => Err e
  end.

Definition submit_desk (lane : string) (request : WorkflowSubmission) (d0 : desk) :
    desk * result exn JobRecord :=
  let d := meanwhile d0 in
  let id := fresh (issued_ids d) in
  if occurs (queue d) id then (d, Err (KeyError id))
  else
    let '(q, r) := submit cfg (queue d) lane request id (now_at answers (calls d0)) in
    ({| queue := q; issued_ids := {[ id ]} ∪ issued_ids d; calls := calls d; cooldown := cooldown d |}, r).

Definition desk_ports : Ports desk := {|
  now d := now_at answers (calls d);
  backoff := cooldown;
  set_backoff b d := {| queue := queue d; issued_ids := issued_ids d; calls := calls d; cooldown := b |};
  scan_issues q := told (λ n, scan_at answers n q);
  read_issue k := told (λ n, addressed k (issue_at answers n k));
  recorded_repository k := told (λ n, repository_at answers n k);
  initiative_identifiers p := told (λ n, initiatives_at answers n p);
  active_claim k := told (λ n, claimed_at answers n k);
  claim_issue k _ _ := told (λ n, claim_at answers n k);
  release_claim k _ := told (λ n, release_at answers n k);
  read_base_spec k := told (λ n, spec_at answers n k);
  record_base_spec k _ := told (λ n, record_at answers n k);
  get_job id d := let d := meanwhile d in (d, Ok (registry_get (records (queue d)) id));
  submit_job := submit_desk;
  open_delivery_exists _ k := told (λ n, delivery_at answers n k);
  ensure_available _ := told (cache_at answers);
  generate_workspace_id := told (λ _, Ok "workspace");
  resolve_base_of k _ _ _ _ := told (λ n, resolve_at answers n k);
  assemble_context k _ := told (λ n, context_at answers n k);
|}.

(** ** The queue's side of the promise *)

Definition over (d : desk) (id : string) : Prop :=
  ∀ r, dict_get (records (queue d)) id = Some r → job_state r = TERMINAL.

Definition valid (d : desk) : Prop :=
  (∃ name, reachable cfg name (queue d))
  ∧ ∀ id, is_Some (dict_get (records (queue d)) id) → id ∈ issued_ids d.

Notation keys q := (dict_keys (records q)).

Lemma amend_keys rs id f rs' : amend rs id f = Ok rs' → dict_keys rs' = dict_keys rs.
Proof.
  unfold amend. destruct (dict_get rs id) as [r|] eqn:E; [|done]. intros [= <-].
  apply dict_set_keys_present. by rewrite E.
Qed.

Lemma start_job_keys q name l i id rest q' : start_job q name l i id rest = Ok q' → keys q' = keys q.
Proof.
  unfold start_job. intros (rs & Ers & E)%bind_ok. destruct (requests q !! id); [|done].
  injection E as <-. etransitivity; [apply (amend_keys _ _ _ _ Ers)|apply reindex_keys].
Qed.

Lemma publish_keys q id event q' : _publish q id event = Ok q' → keys q' = keys q.
Proof.
  unfold _publish. destruct (streams q !! id) as [s|]; [|done].
  destruct (stream_publish s event) as [s' dropped]. destruct (negb dropped); [by intros [= <-]|].
  cbn [records set_stream]. destruct (dict_get (records q) id) as [r|]; [|done].
  destruct (truncated r); [by intros [= <-]|]. intros (rs & Ers & [= <-])%bind_ok.
  by apply (amend_keys _ _ _ _ Ers).
Qed.

Lemma finish_keys q id o q' : _finish q id o = Ok q' → keys q' = keys q.
Proof.
  unfold _finish. intros (rs & Ers & E)%bind_ok. destruct (streams q !! id); [|done].
  injection E as <-. by apply (amend_keys _ _ _ _ Ers).
Qed.

Lemma drop_buffer_keys q id q' : _drop_buffer_later q id = Ok q' → keys q' = keys q.
Proof.
  unfold _drop_buffer_later. destruct (streams q !! id) as [s|]; [|by intros [= <-]].
  destruct (discard_buffer s) as [s' dropped]. case_decide; [by intros [= <-]|].
  cbn [records set_stream]. destruct (dict_get (records q) id) as [r|]; [|by intros [= <-]].
  destruct (truncated r); [by intros [= <-]|]. intros (rs & Ers & [= <-])%bind_ok.
  by apply (amend_keys _ _ _ _ Ers).
Qed.

Lemma stop_finish_keys q q' : stop_finish q = Ok q' → keys q' = keys q.
Proof.
  intros E. refine (foldM_invariant (λ q', keys q' = keys q) _ _ _ _ _ _ E); [|done].
  intros q1 r q2 _ H1. unfold abandon. intros (rs & Ers & [= <-])%bind_ok.
  rewrite <-H1, <-(amend_keys _ _ _ _ Ers). by destruct (streams q1 !! job_id r).
Qed.

Lemma advance_keys r name i w q q' :
  (∀ q1, r = Ok q1 → keys q1 = keys q) → advance r name i w = Some (Ok q') → keys q' = keys q.
Proof.
  intros Hr. unfold advance. intros [= E]. apply bind_ok in E as (q1 & E1 & [= <-]).
  rewrite <-(Hr q1 E1). by destruct (lanes q1 !! name).
Qed.

(** Only a submission adds a record. *)
Lemma handle_keys q lb q' id :
  handle cfg q lb = Some (Ok q') → id ∈ keys q' →
  id ∈ keys q ∨ ∃ name request t, lb = Submit name request id t.
Proof.
  assert (∀ q1, keys q1 = keys q → id ∈ keys q1 → id ∈ keys q ∨ ∃ name request t, lb = Submit name request id t)
    as Hsame by (intros q1 ->; by left).
  destruct lb as [name request id' t|name i|name i ev|name i|name i k|name i|name i|name i|name i|name i|e|e|e sub| |];
    cbn [handle].
  - destruct (occurs q id'); [done|]. intros H Hin.
    assert (q' = (submit cfg q name request id' t).1) as ->
      by (destruct (submit cfg q name request id' t) as [q1 [x|e]]; by injection H as <-).
    revert Hin. unfold submit. destruct (accepting q); cbn [negb]; [|by left].
    unfold _ensure_lane. destruct (lanes q !! name) as [l|]; destruct (queue_full _ _); cbn;
      try (by left); (intros [->|]%elem_of_dict_set_keys; [right; eauto|by left]).
  - destruct (worker_at q name i) as [[l []]|]; try done. destruct (lane_queue l) as [|j rest]; [done|].
    intros [= E]. by eapply Hsame, start_job_keys.
  - destruct (worker_at q name i) as [[l []]|]; try done. intros E.
    eapply Hsame, advance_keys; [|exact E]. intros q1. apply publish_keys.
  - destruct (worker_at q name i) as [[l []]|]; try done. intros E.
    eapply Hsame, advance_keys; [|exact E]. by intros q1 [= <-].
  - destruct (worker_at q name i) as [[l []]|]; try done. intros E.
    eapply Hsame, advance_keys; [|exact E]. by intros q1 [= <-].
  - destruct (worker_at q name i) as [[l []]|]; try done. intros E.
    eapply Hsame, advance_keys; [|exact E]. by intros q1 [= <-].
  - destruct (worker_at q name i) as [[l []]|]; try done. intros E.
    eapply Hsame, advance_keys; [|exact E]. by intros q1 [= <-].
  - destruct (worker_at q name i) as [[l []]|]; try done. intros E.
    eapply Hsame, advance_keys; [|exact E]. intros q1. apply publish_keys.
  - destruct (worker_at q name i) as [[l []]|]; try done. intros E.
    eapply Hsame, advance_keys; [|exact E]. intros q1. apply finish_keys.
  - destruct (worker_at q name i) as [[l []]|]; try done. intros E.
    eapply Hsame, advance_keys; [|exact E]. by intros q1 [= <-].
  - case_decide; [|done]. intros [= E]. eapply Hsame. by rewrite (drop_buffer_keys _ _ _ E).
  - case_decide; [|done]. intros [= <-]. intros Hin%dict_pop_keys. left. apply Hin.
  - destruct (streams q !! e) as [st|]; [|done]. case_decide; [done|]. intros [= <-]. by apply Hsame.
  - destruct (accepting q); [|done]. intros [= <-]. by apply Hsame.
  - destruct (accepting q); [done|]. intros [= E]. eapply Hsame. by apply stop_finish_keys.
Qed.

(** What is over stays over through a transition. *)
Lemma handle_over q lb q' name id :
  reachable cfg name q → handle cfg q lb = Some (Ok q') → id ∈ keys q ∨ id ∉ keys q' →
  (∀ r, dict_get (records q) id = Some r → job_state r = TERMINAL) →
  ∀ r, dict_get (records q') id = Some r → job_state r = TERMINAL.
Proof.
  intros Hq Hh Hin Ht r Hr. destruct Hin as [Hin|Hin].
  2:{ destruct Hin. apply dict_get_is_Some. by rewrite Hr. }
  apply dict_get_is_Some in Hin as [r0 Hr0].
  destruct (handle_step cfg q lb (Ok q') (reachable_good _ _ _ Hq) Hh) as [_ Hstep].
  destruct (Hstep id r0 Hr0) as [[Hnone _]|(r' & Hr' & Hadv)]; [congruence|].
  assert (r' = r) as -> by congruence. pose proof (adv_state _ _ Hadv) as Hle.
  rewrite (Ht r0 Hr0) in Hle. cbn in Hle. by destruct (job_state r); cbn in Hle; try lia.
Qed.

Notation moves := (moves valid issued_ids over).

Lemma moves_refl d : moves d d.
Proof. intros Hv. split; [done|]. auto. Qed.

Lemma moves_trans d1 d2 d3 : moves d1 d2 → moves d2 d3 → moves d1 d3.
Proof.
  intros H1 H2 Hv1. destruct (H1 Hv1) as [Hv2 M1]. destruct (H2 Hv2) as [Hv3 M2]. split; [done|].
  intros id Hin. destruct (M1 id Hin) as [Hin2 O1]. destruct (M2 id Hin2) as [Hin3 O2]. auto.
Qed.

(** A desk over the same queue. *)
Lemma moves_same d d' : queue d' = queue d → issued_ids d' = issued_ids d → moves d d'.
Proof. intros Eq Ei Hv. unfold valid, over. rewrite Eq, Ei. split; [done|]. auto. Qed.

Lemma handle_moves d lb q added :
  handle cfg (queue d) lb = Some (Ok q) →
  (∀ name request id t, lb = Submit name request id t → id ∉ issued_ids d ∧ id ∈ added) →
  moves d {| queue := q; issued_ids := added ∪ issued_ids d; calls := calls d; cooldown := cooldown d |}.
Proof.
  intros Hh Hsub [[name Hq] Hk]. split; [split|].
  - exists name. by eapply reach_step.
  - intros id Hin. cbn in *. apply dict_get_is_Some in Hin.
    destruct (handle_keys _ _ _ _ Hh Hin) as [Hold|(n & r & t & ->)].
    + apply elem_of_union. right. by apply Hk, dict_get_is_Some.
    + apply elem_of_union. left. by apply (Hsub n r id t).
  - intros id Hin. split; [set_solver|]. unfold over. cbn. intros Ht.
    apply (handle_over _ _ _ _ _ Hq Hh); [|done].
    destruct (decide (id ∈ keys q)) as [Hin'|]; [|by right]. left.
    destruct (handle_keys _ _ _ _ Hh Hin') as [|(n & r & t & ->)]; [done|].
    by destruct (Hsub n r id t).
Qed.

Lemma act_moves d lb : moves d (act d lb).
Proof.
  unfold act. destruct (match lb with Submit _ _ id _ => _ | _ => false end) eqn:Etaken; [apply moves_refl|].
  destruct (handle cfg (queue d) lb) as [[q|e]|] eqn:Hh; [|apply moves_refl..].
  destruct lb as [name request id t| | | | | | | | | | | | | |].
  { apply (handle_moves d _ q {[id]} Hh). intros n r i u [= <- <- <- <-].
    apply bool_decide_eq_false in Etaken. set_solver. }
  all: eapply moves_trans; [by apply (handle_moves d _ q ∅ Hh)|apply moves_same; [done|cbn; by rewrite (left_id_L ∅ (∪))]].
Qed.

Lemma acts_moves ls d : moves d (acts ls d).
Proof.
  revert d. induction ls as [|lb ls IH]; intros d; [apply moves_refl|].
  eapply moves_trans; [apply act_moves|apply IH].
Qed.

Lemma meanwhile_moves d : moves d (meanwhile d).
Proof. eapply moves_trans; [apply acts_moves|]. by apply moves_same. Qed.

Lemma submit_desk_moves lane request d0 :
  moves d0 (submit_desk lane request d0).1
  ∧ ∀ x, (submit_desk lane request d0).2 = Ok x → valid d0 →
      job_id x ∉ issued_ids d0 ∧ job_id x ∈ issued_ids (submit_desk lane request d0).1.
Proof.
  unfold submit_desk. set (d := meanwhile d0). set (id := fresh (issued_ids d)).
  assert (id ∉ issued_ids d) as Hid by apply is_fresh.
  destruct (occurs (queue d) id) eqn:Eocc; [split; [apply meanwhile_moves|done]|].
  destruct (submit cfg (queue d) lane request id (now_at answers (calls d0))) as [q r] eqn:Es.
  assert (handle cfg (queue d) (Submit lane request id (now_at answers (calls d0))) = Some (Ok q)) as Hh
    by (cbn [handle]; rewrite Eocc, Es; by destruct r).
  split.
  - eapply moves_trans; [apply meanwhile_moves|]. apply (handle_moves d _ q {[id]} Hh).
    intros n rq i t [= <- <- <- <-]. set_solver.
  - intros x Hx Hv. cbn [fst snd issued_ids] in Hx |- *. assert (job_id x = id) as ->.
    { subst r. unfold submit in Es. destruct (negb (accepting (queue d))); [congruence|].
      destruct (_ensure_lane cfg (queue d) lane) as [q1 l]. destruct (queue_full cfg l); [congruence|].
      by injection Es as _ <-. }
    split; [|set_solver]. intros Hin. destruct (meanwhile_moves d0 Hv) as [_ Hm].
    by apply Hid, Hm.
Qed.

#[export] Instance desk_keeps_promise : FreshJobs desk_ports valid issued_ids over.
Proof.
  split.
  - intros A op d Hop. destruct Hop as [A op Hop| | | |]; [destruct Hop|..];
      try apply meanwhile_moves. apply submit_desk_moves.
  - intros b d. by apply moves_same.
  - intros id d d' r Hv Hin [= <- <-] Ht x Hx. by apply Ht.
  - intros l req d d' x Hv E. destruct (submit_desk_moves l req d) as [_ H].
    change (submit_job desk_ports l req d) with (submit_desk l req d) in E. rewrite E in H. by apply H.
  - intros k d d' i. unfold desk_ports, told. cbn. intros [= <- E]. unfold addressed in E.
    destruct (issue_at answers (calls d) k) as [j|e]; [|done]. case_decide; [|done]. by injection E as <-.
Qed.
End desk.

Definition opened (cfg : JobQueueSettings) (default_lane : string) : desk := {|
  queue := initial cfg default_lane; issued_ids := ∅; calls := 0; cooldown := None |}.

Lemma opened_valid cfg name : valid cfg (opened cfg name).
Proof. split; [exists name; apply reach_init|]. by intros id [r Hr]. Qed.

(** C5. No issue is worked twice at once. Over any history of one dispatcher, its own and
    its scope's passes, the ends of runs it hears of, and whatever the queue and its other
    producers do before, between and during them, with any answers from the tracker, git
    and the forge, passes that raise included: of two fires of one issue the passes
    reported, the jobs differ and the earlier is terminal, or evicted, when the later is
    reported. So at most one job fired for an issue is ever queued or running. *)
Theorem dispatched_once (cfg : JobQueueSettings) (answers : Answers) (default_lane : string)
    (draw : list string → string) (Hdraw : UniformDraw draw) (self : FireDispatcher)
    (hs : list happening) (Helsewhere : ∀ f, Elsewhere f ∈ hs → ∃ ls, f = acts cfg ls) :
  let '(s, reports) := history (desk_ports cfg answers) draw self hs (started (opened cfg default_lane)) in
  let fires := concat (fires_of <$> reports) in
  ∀ i j k id id', i < j → fires !! i = Some (k, id) → fires !! j = Some (k, id') →
    id ≠ id' ∧ ∀ r, dict_get (records (queue (world s))) id = Some r → job_state r = TERMINAL.
Proof.
  apply (one_live_fire (desk_ports cfg answers) draw self (valid cfg) issued_ids over hs (opened cfg default_lane)).
  - apply opened_valid.
  - intros f w Hf. destruct (Helsewhere f Hf) as [ls ->]. apply acts_moves.
Qed.

(** ** An issue fired, held in flight, and fired again once its job ended *)

Definition board_issue (key : string) : TrackerIssue := {|
  issue_key := key; title := "t"; body := "b"; priority := NONE; state_name := "Todo";
  state_kind := UNSTARTED; queue_states := {[ Q_APPROVED ]}; issue_labels := ∅;
  team_key := Some "T"; Tracker.project := None; project_id := None; milestone_key := None;
  relations := []; parent_key := None; assignee_key := None; created_at := 0; updated_at := 0; url := "" |}.

Definition granted (key : string) : ClaimResult := {|
  claim_issue_key := key; claim_status := GRANTED; claim_holder := "h"; claim_expires_at := 100;
  current_holder := None |}.

Definition board_spec : BaseSpec := {| inputs := []; base_branch := "main"; base_role := None |}.

Definition board_answers : Answers := {|
  activity_at n := []; now_at n := 0%Z; backoff_at n := None;
  scan_at n q := Ok [board_issue "K-1"]; issue_at n k := Ok (board_issue k);
  repository_at n k := Ok None; initiatives_at n p := Ok ∅; claimed_at n k := Ok None;
  claim_at n k := Ok (granted k); release_at n k := Ok tt; spec_at n k := Ok None;
  record_at n k := Ok tt; delivery_at n k := Ok false; cache_at n := Ok "/repo";
  resolve_at n k := Ok board_spec;
  context_at n k := Ok {| context_issue_key := k; context_body := "b"; assets := [] |} |}.

Definition board_dispatcher : FireDispatcher := {|
  operation := boards_operation [("T", plain_team "Team" None)] [plain_repo "u"];
  repo_url := "u"; dispatch_lane := "fire"; holder := "h"; claim_lease_seconds := 60; page_size := 50;
  cooldown_seconds := 60; dispatch_trunk := "main"; integration_workspace_dir := "/w" |}.

Definition queue_settings : JobQueueSettings := {|
  max_concurrent_runs_per_lane := 1; max_depth_per_lane := 4; event_buffer_capacity := 8 |}.

Definition board_history : list (happening (W := desk)) :=
  [Pass; Pass; Elsewhere (acts queue_settings [Start "fire" 0; EngineEnds "fire" 0; JobQueue.Finish "fire" 0]); Pass].

Definition first_of (keys : list string) : string := default "" (head keys).

Lemma elsewhere_once (f g : desk → desk) : Elsewhere f ∈ [Pass; Pass; Elsewhere g; Pass] → f = g.
Proof. rewrite !elem_of_cons, elem_of_nil. intros [|[|[[= ->]|[|[]]]]]; done. Qed.

Example dispatched_once_witness :
  let '(s, reports) := history (desk_ports queue_settings board_answers) first_of board_dispatcher
                         board_history (started (opened queue_settings "fire")) in
  outcome <$> reports = [fire_enqueued; empty_eligible_set; fire_enqueued]
  ∧ ∀ r, dict_get (records (queue (world s))) "0" = Some r → job_state r = TERMINAL.
Proof.
  assert (UniformDraw first_of) as Hd.
  { intros [|k ks] Hk; [done|]. left. }
  pose proof (dispatched_once queue_settings board_answers "fire" first_of Hd board_dispatcher board_history) as H.
  assert (∀ f, Elsewhere f ∈ board_history → ∃ ls, f = acts queue_settings ls) as He.
  { intros f Hf. unfold board_history in Hf. apply elsewhere_once in Hf. eexists. exact Hf. }
  specialize (H He).
  assert (concat (fires_of <$> (history (desk_ports queue_settings board_answers) first_of board_dispatcher
    board_history (started (opened queue_settings "fire"))).2) = [("K-1", "0"); ("K-1", "1")]) as E by by vm_compute.
  assert (outcome <$> (history (desk_ports queue_settings board_answers) first_of board_dispatcher
    board_history (started (opened queue_settings "fire"))).2
    = [fire_enqueued; empty_eligible_set; fire_enqueued]) as Eo by by vm_compute.
  destruct (history _ _ _ _ _) as [s reports]. cbn [snd] in *. split; [done|].
  apply (H 0 1 "K-1" "0" "1"); [lia|by rewrite E..].
Defined.
