(* ===== verification/DispatchPasses.v ===== *)
(** * What one dispatch pass does to the world, and what holds an issue back.

    The writes of a pass are told by its report; a failed fire holds its issue back until
    the issue moves; a rate limit holds every pass of the operation back until it lapses.
    Each is proved for any world behind the port and evaluated on the desk of [FireQueue]. *)

From S2P Require Import BaseResolution.
From S2P Require Import Prelude PyStr PyLines Tracker Errors Dispatch Outcome JobQueue Operation RunRecords FireContext FireDispatcher.
From S2P Require Import FireDispatcherSpec FireQueue.

Local Open Scope nat_scope.

Section passes.
Context {W : Type} (port : Ports W) (draw : list string → string) (self : FireDispatcher).
Notation state := (state (W := W)).
Notation co := (co (W := W)).

(** [read_issue] answers the issue addressed. *)
Definition Addressed : Prop := ∀ k w w' i, read_issue port k w = (w', Ok i) → issue_key i = k.

(** ** The writes a report tells of *)

(** The submission of a fire of [k] on [spec]. *)
Definition fires_for (k : string) (spec : BaseSpec) (request : WorkflowSubmission) : Prop :=
  submission_issue_key request = Some k ∧ submission_repo_url request = Some (repo_url self)
  ∧ base_spec request = spec ∧ implied_base request = Some spec
  ∧ submission_scope request = None ∧ permission_mode request = UNATTENDED.

Definition fire_writes (k : string) (spec : BaseSpec) (request : WorkflowSubmission) : list write :=
  [Claims k; RecordsBase k spec; Submits request].

Inductive told_by : DispatchReport → list write → Prop :=
| told_nothing r : (outcome r = empty_eligible_set ∨ outcome r = winner_blocked) →
    claimed_issue_key r = None → enqueued_job r = None → told_by r []
| told_lost r k : outcome r = claim_lost → claimed_issue_key r = None → enqueued_job r = None →
    k ∈ eligible r → told_by r [Claims k]
| told_unresolved r k : outcome r = base_unresolved → claimed_issue_key r = Some k →
    enqueued_job r = None → k ∈ eligible r → told_by r [Claims k; Releases k]
| told_fired r k spec request id : outcome r = fire_enqueued → claimed_issue_key r = Some k →
    enqueued_job r = Some id → report_base r = Some spec → fires_for k spec request → k ∈ eligible r →
    told_by r (fire_writes k spec request).

(** What may have been written when a pass raised: a part of one of the two sequences. *)
Definition cut_short (ws : list write) : Prop :=
  ∃ k spec request, fires_for k spec request
    ∧ (ws `prefix_of` [Claims k; Releases k] ∨ ws `prefix_of` fire_writes k spec request).

(** Every row listed is eligible or excluded, once. *)
Definition accounts (r : DispatchReport) : Prop :=
  ∃ excluded, (row_key <$> snapshot r) ≡ₚ eligible r ++ (excluded_key <$> excluded)
    ∧ (exclusions r = excluded
       ∨ outcome r = winner_blocked ∧ ∃ k d, k ∈ eligible r
           ∧ exclusions r = excluded ++ [{| excluded_key := k; clause := LIVE_BLOCKER; detail := d |}]).

Definition wrote (ws : list write) (s : state) : Prop := writes s = ws.

#[export] Instance wrote_undisturbed ws : Undisturbed port (λ _, True) (wrote ws).
Proof. by split; intros; cbn. Qed.

Lemma triple_performs {A} e (op : W → W * result exn A) ws :
  triple (wrote ws) (performs e op) (λ _, wrote (ws ++ [e])) (wrote (ws ++ [e])).
Proof. intros s Hs. unfold performs. unfold wrote in *.
  destruct (op (world s)) as [w [a|x]]; cbn; by rewrite Hs. Qed.

Lemma triple_reading {A} (op : W → W * result exn A) (I : state → Prop) `{!Undisturbed port (λ _, True) I} :
  reading port A op → triple I (awaits op) (λ _, I) I.
Proof. by apply (keeps_reading port (λ _, True)). Qed.

Definition ran (ws0 : list write) (P : DispatchReport → Prop) (r : DispatchReport) (s : state) : Prop :=
  P r ∧ ∃ ws, writes s = ws0 ++ ws ∧ told_by r ws.
Definition fell (ws0 : list write) (s : state) : Prop := ∃ ws, writes s = ws0 ++ ws ∧ cut_short ws.

Lemma fires_for_winner winner context spec :
  fires_for (issue_key winner) spec (fire_submission self winner context spec).
Proof. done. Qed.

Lemma fell_released ws0 k s ws :
  writes s = ws0 ++ ws → ws `prefix_of` [Claims k; Releases k] → fell ws0 s.
Proof.
  intros E Hp. exists ws. split; [done|].
  set (spec := {| inputs := []; base_branch := ""; base_role := None |}).
  exists k, spec, {| prompt := ""; submission_issue_key := Some k; submission_repo_path := None;
    submission_repo_url := Some (repo_url self); base_spec := spec; implied_base := Some spec;
    submission_scope := None; permission_mode := UNATTENDED; allowed_tools := inl IMPLEMENTATION |}.
  by split; [|left].
Qed.

Lemma fell_nothing ws0 s : writes s = ws0 → fell ws0 s.
Proof. intros E. apply (fell_released ws0 "" s []); [by rewrite app_nil_r|apply prefix_nil]. Qed.

Lemma fell_claimed ws0 k s : writes s = ws0 ++ [Claims k] → fell ws0 s.
Proof. intros E. apply (fell_released ws0 k s [Claims k]); [done|by apply (prefix_cons _ []), prefix_nil]. Qed.

(** A call before any write, and one after the claim alone. *)
Lemma bind_before {A B} ws0 (m : co A) (f : A → co B) Q :
  keeps (wrote ws0) m → (∀ a, triple (wrote ws0) (f a) Q (fell ws0)) →
  triple (wrote ws0) (m ≫= f) Q (fell ws0).
Proof.
  intros Hm Hf. eapply triple_bind; [|exact Hf].
  eapply triple_weaken; [exact Hm|done..|]. intros s. apply fell_nothing.
Qed.

Lemma bind_claimed {A B} ws0 k (m : co A) (f : A → co B) Q :
  keeps (wrote (ws0 ++ [Claims k])) m → (∀ a, triple (wrote (ws0 ++ [Claims k])) (f a) Q (fell ws0)) →
  triple (wrote (ws0 ++ [Claims k])) (m ≫= f) Q (fell ws0).
Proof.
  intros Hm Hf. eapply triple_bind; [|exact Hf].
  eapply triple_weaken; [exact Hm|done..|]. intros s. apply fell_claimed.
Qed.

Lemma enqueue_writes ws0 winner sel spec :
  issue_key winner ∈ selected_eligible sel →
  triple (wrote (ws0 ++ [Claims (issue_key winner)])) (enqueue port self winner sel spec)
    (ran ws0 (λ r, snapshot r = selected_rows sel ∧ exclusions r = selected_exclusions sel
                  ∧ eligible r = selected_eligible sel)) (fell ws0).
Proof.
  intros Hin. unfold enqueue. set (k := issue_key winner).
  apply bind_claimed; [apply triple_reading; [apply _|constructor]|]. intros context.
  apply bind_claimed; [apply triple_reading; [apply _|constructor]|]. intros recorded. cbv zeta.
  set (request := fire_submission self winner context spec).
  assert (∀ s ws, writes s = ws0 ++ ws → ws `prefix_of` fire_writes k spec request → fell ws0 s) as Hcut.
  { intros s ws E Hp. exists ws. split; [done|]. exists k, spec, request. split; [done|by right]. }
  eapply triple_bind.
  { eapply triple_weaken; [apply triple_performs|done..|]. intros s Hs. unfold wrote in Hs.
    rewrite <-app_assoc in Hs. eapply Hcut; [exact Hs|]. by exists [Submits request]. }
  intros u. eapply triple_bind.
  { eapply triple_weaken; [apply triple_performs|done..|]. intros s Hs. unfold wrote in Hs.
    rewrite <-!app_assoc in Hs. eapply Hcut; [exact Hs|]. done. }
  intros record. eapply (triple_bind _ _ (λ _, wrote (ws0 ++ fire_writes k spec request))).
  { intros s Hs. cbn. unfold wrote in *. cbn. by rewrite <-!app_assoc in Hs. }
  intros u'. apply triple_ret. intros s Hs. split; [done|].
  exists (fire_writes k spec request). split; [exact Hs|].
  by apply (told_fired _ k spec request (job_id record)).
Qed.

Lemma base_refused_writes ws0 winner sel reason :
  issue_key winner ∈ selected_eligible sel →
  triple (wrote (ws0 ++ [Claims (issue_key winner)])) (base_refused port self winner sel reason)
    (ran ws0 (λ r, snapshot r = selected_rows sel ∧ exclusions r = selected_exclusions sel
                  ∧ eligible r = selected_eligible sel)) (fell ws0).
Proof.
  intros Hin. unfold base_refused. cbv zeta. set (k := issue_key winner) in *.
  assert (∀ s, wrote ((ws0 ++ [Claims k]) ++ [Releases k]) s → writes s = ws0 ++ [Claims k; Releases k]) as Hw.
  { intros s Hs. unfold wrote in Hs. by rewrite <-app_assoc in Hs. }
  assert (∀ s, wrote ((ws0 ++ [Claims k]) ++ [Releases k]) s → fell ws0 s) as Hcut.
  { intros s Hs. by apply (fell_released ws0 k s [Claims k; Releases k]), reflexivity; apply Hw. }
  eapply triple_bind; [eapply triple_weaken; [apply triple_performs|done..|done]|]. intros u.
  eapply triple_bind.
  { eapply triple_weaken;
      [apply (triple_reading _ (wrote ((ws0 ++ [Claims k]) ++ [Releases k]))), (reading_issue port k)|done..|exact Hcut]. }
  intros refreshed. eapply (triple_bind _ _ (λ _, wrote ((ws0 ++ [Claims k]) ++ [Releases k]))).
  { by intros s Hs. }
  intros u'. apply triple_ret. intros s Hs. split; [done|]. eexists. split; [by apply Hw|].
  by apply told_unresolved.
Qed.

Lemma launch_writes ws0 winner sel :
  issue_key winner ∈ selected_eligible sel →
  triple (wrote ws0) (launch port self winner sel)
    (ran ws0 (λ r, snapshot r = selected_rows sel ∧ exclusions r = selected_exclusions sel
                  ∧ eligible r = selected_eligible sel)) (fell ws0).
Proof.
  intros Hin. unfold launch. eapply triple_bind.
  { eapply triple_weaken; [apply triple_performs|done..|]. intros s. apply fell_claimed. }
  intros claim. destruct (claim_status claim);
    [|apply triple_ret; intros s Hs; split; [done|]; eexists; split; [exact Hs|];
      by apply (told_lost _ (issue_key winner))..].
  intros s Hs. unfold try_else.
  pose proof (keeps_resolve_winner port self (λ _, True) (wrote (ws0 ++ [Claims (issue_key winner)])) winner s Hs) as H.
  destruct (resolve_winner port self winner s) as [s1 [spec|e]]; [by apply (enqueue_writes ws0)|].
  destruct (base_refusal_text e) as [reason|]; cbn; [|by eapply fell_claimed].
  by apply (base_refused_writes ws0).
Qed.

(** ** Whom an exclusion names *)

Definition names (k : string) (m : co (option IssueExclusion)) : Prop :=
  ∀ s, match m s with (_, Ok (Some e)) => excluded_key e = k | _ => True end.

Lemma names_bind {A} k (m : co A) (f : A → co (option IssueExclusion)) :
  (∀ a, names k (f a)) → names k (m ≫= f).
Proof. intros H s. unfold mbind, co_mbind. destruct (m s) as [s' [a|e]]; [apply H|done]. Qed.

Lemma names_ret k e : (∀ x, e = Some x → excluded_key x = k) → names k (mret e).
Proof. intros H s. cbn. destruct e; [by apply H|done]. Qed.

Lemma names_foldr k ms : Forall (names k) ms → names k (foldr or_else (mret None) ms).
Proof.
  induction 1 as [|m ms Hm _ IH]; [by apply names_ret|]. intros s. cbn. unfold or_else, mbind, co_mbind.
  specialize (Hm s). destruct (m s) as [s' [[e|]|x]]; [done|apply IH|done].
Qed.

Ltac names_clause :=
  repeat (first [ apply names_bind; intros | apply names_ret | case_match | case_decide ]); naive_solver.

Lemma exclude_names_key issue keys : names (issue_key issue) (_exclude port self issue keys).
Proof.
  apply names_foldr. repeat constructor; unfold _team_exclusion, _memory_exclusion, _backoff_exclusion, _exclude_by_scope,
    _route_exclusion, _approval_exclusion, _open_exclusion, _blocker_exclusion, _in_flight_exclusion,
    _delivery_exclusion, exclude_as; cbv zeta; names_clause.
Qed.

Lemma exclude_names ws0 issue keys :
  triple (wrote ws0) (_exclude port self issue keys)
    (λ e s, wrote ws0 s ∧ ∀ x, e = Some x → excluded_key x = issue_key issue) (wrote ws0).
Proof.
  intros s Hs. pose proof (keeps_exclude port self (λ _, True) (wrote ws0) issue keys I s Hs) as Hk.
  pose proof (exclude_names_key issue keys s) as Hn.
  destruct (_exclude port self issue keys s) as [s' [[e|]|x]]; [|done..]. split; [done|]. by intros ? [= <-].
Qed.

(** ** The pass *)

Lemma partition_accounts ws0 keys issues :
  triple (wrote ws0) (partition_issues port self keys issues)
    (λ split s, wrote ws0 s ∧ (issue_key <$> issues) ≡ₚ (issue_key <$> split.1) ++ (excluded_key <$> split.2))
    (wrote ws0).
Proof.
  induction issues as [|i issues IH]; cbn [partition_issues].
  - by apply triple_ret.
  - eapply triple_bind; [apply (exclude_names ws0 i keys)|]. intros e.
    apply triple_pure. intros He. eapply triple_bind; [exact IH|]. intros split.
    apply triple_pure. intros Hsplit. apply triple_ret. intros s Hs. split; [done|].
    destruct e as [e|]; cbn; [|by f_equiv]. rewrite (He e) by done. rewrite <-Permutation_middle. by f_equiv.
Qed.

Lemma ran_weaken ws0 (P P' : DispatchReport → Prop) r s : (P r → P' r) → ran ws0 P r s → ran ws0 P' r s.
Proof. intros H [HP Hw]. split; auto. Qed.

Lemma claim_and_enqueue_writes ws0 selection sel :
  Addressed → winner_key selection ∈ selected_eligible sel →
  triple (wrote ws0) (_claim_and_enqueue port self selection sel)
    (ran ws0 (λ r, snapshot r = selected_rows sel ∧ eligible r = selected_eligible sel
       ∧ (exclusions r = selected_exclusions sel
          ∨ outcome r = winner_blocked ∧ ∃ d, exclusions r = selected_exclusions sel
              ++ [{| excluded_key := winner_key selection; clause := LIVE_BLOCKER; detail := d |}])))
    (fell ws0).
Proof.
  intros Haddr Hin. unfold _claim_and_enqueue.
  eapply (triple_bind _ _ (λ winner s, wrote ws0 s ∧ issue_key winner = winner_key selection)).
  { intros s Hs. unfold awaits. destruct (read_issue port (winner_key selection) (world s)) as [w [i|e]] eqn:E;
      cbn; [|by apply fell_nothing]. split; [done|]. by eapply Haddr. }
  intros winner. apply triple_pure. intros Hk.
  apply bind_before; [by apply (keeps_live_blocker port (λ _, True))|]. intros [blocker|].
  - apply bind_before; [by apply keeps_remembers|]. intros u. apply triple_ret. intros s Hs. split.
    + cbn. rewrite Hk. split; [done|]. split; [done|]. right. eauto.
    + exists []. rewrite app_nil_r. split; [done|]. apply told_nothing; [by right|done..].
  - eapply triple_weaken; [apply launch_writes; by rewrite Hk|done| |done].
    intros r s. apply ran_weaken. naive_solver.
Qed.

Lemma run_pass_writes ws0 `{!UniformDraw draw} :
  Addressed → triple (wrote ws0) (run_pass port draw self) (ran ws0 accounts) (fell ws0).
Proof.
  intros Haddr. unfold run_pass. apply bind_before; [apply keeps_raises|]. intros keys.
  apply bind_before; [by apply (keeps_scan port self (λ _, True))|]. intros issues.
  eapply triple_bind.
  { eapply triple_weaken; [apply (partition_accounts ws0 keys issues)|done..|]. intros s. apply fell_nothing. }
  intros split. apply triple_pure. intros Hsplit. cbv zeta.
  assert (row_key <$> (snapshot_row <$> issues) = issue_key <$> issues) as Hrows.
  { by rewrite <-list_fmap_compose. }
  destruct (select_top_ranked split.1 draw) as [selection|] eqn:E.
  - assert (winner_key selection ∈ issue_key <$> split.1) as Hwin by by eapply (selected_eligible_key draw).
    eapply triple_weaken; [by apply claim_and_enqueue_writes|done| |done].
    intros r s. apply ran_weaken. intros (Hs & He & Hx). exists split.2. cbn in *. rewrite Hs, He, Hrows.
    split; [done|]. destruct Hx as [|[? [d ?]]]; [by left|right]. naive_solver.
  - apply triple_ret. intros s Hs. pose proof (select_top_ranked_spec split.1 draw) as Hnone.
    rewrite E in Hnone. rewrite Hnone in Hsplit. cbn in Hsplit. split.
    + exists split.2. cbn. rewrite Hrows. split; [done|by left].
    + exists []. rewrite app_nil_r. split; [done|]. apply told_nothing; [by left|done..].
Qed.

Lemma launch_first_writes ws0 ready rows keys exclusions lanes :
  Forall (λ l : TrackerIssue * list string, issue_key l.1 ∈ keys) lanes →
  triple (wrote ws0) (launch_first port self ready rows keys exclusions lanes)
    (ran ws0 (λ r, snapshot r = rows ∧ eligible r = keys)) (fell ws0).
Proof.
  intros Hl. revert exclusions. induction Hl as [|[issue gap] lanes Hi _ IH]; intros exclusions; cbn [launch_first].
  - apply triple_ret. intros s Hs. split; [done|]. exists []. rewrite app_nil_r. split; [done|].
    apply told_nothing; [by left|done..].
  - apply bind_before; [by apply (keeps_standing port self (λ _, True))|]. intros [e|]; [apply IH|].
    eapply triple_weaken; [by apply launch_writes|done| |done]. intros r s. apply ran_weaken. naive_solver.
Qed.

(** C6. What a pass did is what its report says: nothing for an empty board or a blocked
    winner, one claim when the claim is lost, a claim and its release when no base
    resolves, and for a fire the claim, the base recorded and one unattended submission of
    that issue on that base, in this order. A pass that raises leaves a beginning of one of
    these. Over its scan every listed issue is eligible or excluded by one clause, once,
    and only an eligible issue is claimed; a scope's pass claims a ready lane. *)
Theorem pass_told (s : state) (ready : ReadySet) (Hdraw : UniformDraw draw) (Haddr : Addressed) :
  (let '(s', r) := run_pass port draw self s in
   ∃ ws, writes s' = writes s ++ ws
     ∧ match r with Ok report => told_by report ws ∧ accounts report | Err _ => cut_short ws end)
  ∧ (let '(s', r) := run_scope_pass port self ready s in
     ∃ ws, writes s' = writes s ++ ws
       ∧ match r with
         | Ok report => told_by report ws ∧ eligible report = issue_key ∘ fst <$> ready_lanes ready
         | Err _ => cut_short ws
         end).
Proof.
  split.
  - pose proof (run_pass_writes (writes s) Haddr s eq_refl) as H.
    destruct (run_pass port draw self s) as [s' [r|e]]; [destruct H as [? (ws & ? & ?)]|destruct H as (ws & ? & ?)];
      eauto.
  - unfold run_scope_pass. cbv zeta. set (rows := snapshot_row <$> _). set (held := _ ++ _).
    set (keys := _ <$> ready_lanes ready).
    assert (Forall (λ l : TrackerIssue * list string, issue_key l.1 ∈ keys) (ready_lanes ready)) as Hl.
    { apply Forall_forall. intros l Hl. by apply (list_elem_of_fmap_2 (issue_key ∘ fst)). }
    pose proof (launch_first_writes (writes s) ready rows keys held _ Hl s eq_refl) as H.
    destruct (launch_first port self ready rows keys held (ready_lanes ready) s) as [s' [r|e]];
      [destruct H as [[? ?] (ws & ? & ?)]|destruct H as (ws & ? & ?)]; eauto.
Qed.
End passes.

Lemma desk_addressed cfg answers : Addressed (desk_ports cfg answers).
Proof. intros k w w' i E. exact (issue_asked _ (FreshJobs := desk_keeps_promise cfg answers) k w w' i E). Qed.

Lemma first_of_draws : UniformDraw first_of.
Proof. intros [|k ks] Hk; [done|]. left. Qed.

Definition board_port := desk_ports queue_settings board_answers.
Definition board_start : state (W := desk) := started (opened queue_settings "fire").

Example pass_told_witness :
  let '(s, r) := run_pass board_port first_of board_dispatcher board_start in
  ∃ ws, writes s = ws ∧ length ws = 3
    ∧ match r with Ok report => told_by board_dispatcher report ws ∧ accounts report | Err _ => False end.
Proof.
  pose proof (pass_told board_port first_of board_dispatcher board_start
    {| ready_lanes := []; blocked_lanes := []; unreachable := [] |} first_of_draws
    (desk_addressed queue_settings board_answers)) as [H _].
  assert ((length (writes (run_pass board_port first_of board_dispatcher board_start).1),
           is_ok (run_pass board_port first_of board_dispatcher board_start).2) = (3, true)) as E by by vm_compute.
  destruct (run_pass _ _ _ _) as [s r]. destruct H as (ws & Hw & H). cbn in E. injection E as El Ei.
  rewrite Hw in El |- *. exists ws. split; [done|]. split; [exact El|]. by destruct r.
Defined.
