(* ===== verification/DispatchHolds.v ===== *)
(** * What holds an issue back from dispatch.

    A failed fire bars its issue from every pass until the issue moves; a rate limit bars
    every issue from every pass of the operation until it lapses. Both are one argument
    over histories, [Holds]: a bar that the exclusions see and that no act of a pass on an
    issue not barred undoes. *)

From S2P Require Import BaseResolution.
From S2P Require Import Prelude PyStr PyLines Tracker Errors Dispatch Outcome JobQueue Operation RunRecords FireContext FireDispatcher.
From S2P Require Import FireDispatcherSpec FireQueue DispatchPasses.

Local Open Scope nat_scope.

Section holds.
Context {W : Type} (port : Ports W) (draw : list string → string) (self : FireDispatcher).
Notation state := (state (W := W)).
Notation co := (co (W := W)).

(** ** A bar *)

Definition excludes (I : state → Prop) (m : co (option IssueExclusion)) : Prop :=
  triple I m (λ e s, I s ∧ is_Some e) I.

Definition after (e : write) (w : W) (s : state) : state :=
  {| memory := memory s; world := w; writes := writes s ++ [e] |}.

Class Holds (barred : string → Prop) (bites : TrackerIssue → Prop) (I : state → Prop) : Prop := {
  holds_undisturbed :: Undisturbed port (λ j, ¬ barred j) I;
  holds_performs A (op : W → W * result exn A) j e s : calling port A op → ¬ barred j →
    (∀ j', e = Claims j' → j' = j) → I s → I (after e (op (world s)).1 s);
  holds_remembered j r s : ¬ barred j → I s → I (in_memory (set_remembered j r (memory s)) s);
  holds_job j id s : ¬ barred j → I s → I (in_memory (set_job j id (memory s)) s);
  holds_exclude issue keys : barred (issue_key issue) → bites issue →
    excludes I (_exclude port self issue keys);
  holds_standing issue : barred (issue_key issue) → bites issue →
    excludes I (standing_exclusion port self issue);
  holds_scan q s w l : I s → scan_issues port q (world s) = (w, Ok l) → Forall bites l;
}.

Lemma excludes_left I m m' : excludes I m → excludes I (or_else m m').
Proof.
  intros Hm. eapply triple_bind; [exact Hm|]. intros [e|]; [by apply triple_ret|].
  by intros s [_ [? ?]].
Qed.

Lemma excludes_right I m m' : keeps I m → excludes I m' → excludes I (or_else m m').
Proof.
  intros Hm Hm'. eapply triple_bind; [exact Hm|]. intros [e|]; [|exact Hm']. apply triple_ret. by eauto.
Qed.

Section bar.
Context (barred : string → Prop) (bites : TrackerIssue → Prop) (I : state → Prop).
Context `{!Holds barred bites I} `{Hdec : !∀ j, Decision (barred j)}.
Notation free := (λ j, ¬ barred j).

Lemma keeps_performing {A} (op : W → W * result exn A) j e :
  calling port A op → ¬ barred j → (∀ j', e = Claims j' → j' = j) → keeps I (performs e op).
Proof.
  intros Hop Hj He s Hs. pose proof (holds_performs A op j e s Hop Hj He Hs) as Ha.
  unfold performs, after in *. destruct (op (world s)) as [w [a|x]]; exact Ha.
Qed.

Lemma enqueue_holds winner sel spec :
  ¬ barred (issue_key winner) → keeps I (enqueue port self winner sel spec).
Proof.
  intros Hf. unfold enqueue. apply keeps_bind; [apply (keeps_reading port free I), reading_context|]. intros context.
  apply keeps_bind; [apply (keeps_reading port free I), reading_spec|]. intros recorded. cbv zeta.
  apply keeps_bind; [by eapply keeps_performing; [apply calling_record|..]|]. intros u.
  apply keeps_bind; [by eapply keeps_performing; [apply calling_submit|..]|]. intros record.
  apply keeps_bind; [|intros; apply keeps_ret]. apply keeps_remembers. intros s. by apply holds_job.
Qed.

Lemma launch_holds winner sel : ¬ barred (issue_key winner) → keeps I (launch port self winner sel).
Proof.
  intros Hf. unfold launch.
  apply keeps_bind; [by eapply keeps_performing; [apply calling_claim|exact Hf|intros ? [= ->]]|]. intros claim.
  destruct (claim_status claim); [|apply keeps_ret..]. intros s Hs. unfold try_else.
  pose proof (keeps_resolve_winner port self free I winner s Hs) as H.
  destruct (resolve_winner port self winner s) as [s1 [spec|e]]; [by apply enqueue_holds|].
  destruct (base_refusal_text e) as [reason|]; cbn; [|done]. revert s1 H.
  change (keeps I (base_refused port self winner sel reason)). unfold base_refused. cbv zeta.
  apply keeps_bind; [by eapply keeps_performing; [apply calling_release|..]|]. intros u.
  apply keeps_bind; [apply (keeps_reading port free I), reading_issue|]. intros refreshed.
  apply keeps_bind; [|intros; apply keeps_ret]. apply keeps_remembers. intros s1. by apply holds_remembered.
Qed.

Lemma exclude_holds issue keys :
  bites issue → triple I (_exclude port self issue keys)
    (λ e s, I s ∧ (e = None → ¬ barred (issue_key issue))) I.
Proof.
  intros Hb. destruct (decide (barred (issue_key issue))) as [Hj|Hj].
  - eapply triple_weaken; [by apply holds_exclude|done| |done]. intros e s [? [x ->]]. by split.
  - eapply triple_weaken; [by apply (keeps_exclude port self free I)|done| |done]. by intros e s ?.
Qed.

Lemma partition_holds keys issues :
  Forall bites issues → triple I (partition_issues port self keys issues)
    (λ split s, I s ∧ Forall (λ i, ¬ barred (issue_key i)) split.1) I.
Proof.
  induction 1 as [|i issues Hi _ IH]; cbn [partition_issues]; [by apply triple_ret; intros; repeat constructor|].
  eapply triple_bind; [by apply exclude_holds|]. intros e. apply triple_pure. intros He.
  eapply triple_bind; [exact IH|]. intros split. apply triple_pure. intros Hs. apply triple_ret.
  intros s HI. split; [done|]. destruct e; [done|]. constructor; auto.
Qed.

Lemma scan_holds keys : triple I (_scan port self keys) (λ l s, I s ∧ Forall bites l) I.
Proof.
  induction keys as [|key keys IH]; cbn [_scan]; [by apply triple_ret; intros; repeat constructor|].
  eapply (triple_bind _ _ (λ l s, I s ∧ Forall bites l)).
  { set (q := {| query_queue_state := _ |}). intros s Hs.
    pose proof (keeps_reading port free I _ (reading_scan port q) s Hs) as Hk. unfold awaits in *.
    destruct (scan_issues port q (world s)) as [w [l|x]] eqn:E; [|exact Hk].
    split; [exact Hk|]. exact (holds_scan q s w l Hs E). }
  intros l. apply triple_pure. intros Hl. eapply triple_bind; [exact IH|]. intros rest. apply triple_pure.
  intros Hr. apply triple_ret. intros s Hs. split; [done|]. by apply Forall_app.
Qed.

(** ** Passes under the bar *)

Definition stays (r : DispatchReport) (s : state) : Prop :=
  I s ∧ ((∀ j, barred j) → outcome r = empty_eligible_set).

Lemma claim_and_enqueue_holds selection sel :
  Addressed port → ¬ barred (winner_key selection) →
  keeps I (_claim_and_enqueue port self selection sel).
Proof.
  intros Haddr Hf. unfold _claim_and_enqueue.
  eapply (triple_bind _ _ (λ winner s, I s ∧ issue_key winner = winner_key selection)).
  { intros s Hs. pose proof (keeps_reading port free I _ (reading_issue port (winner_key selection)) s Hs) as Hk.
    unfold awaits in *. destruct (read_issue port (winner_key selection) (world s)) as [w [i|e]] eqn:E; [|done].
    split; [done|]. by eapply Haddr. }
  intros winner. apply triple_pure. intros Hk.
  apply keeps_bind; [by apply (keeps_live_blocker port free I)|]. intros [blocker|].
  - apply keeps_bind; [|intros; apply keeps_ret]. apply keeps_remembers. intros s.
    apply holds_remembered. by rewrite Hk.
  - apply launch_holds. by rewrite Hk.
Qed.

Lemma run_pass_holds `{!UniformDraw draw} : Addressed port → triple I (run_pass port draw self) stays I.
Proof.
  intros Haddr. unfold run_pass. eapply triple_bind; [apply keeps_raises|]. intros keys.
  eapply triple_bind; [apply scan_holds|]. intros issues. apply triple_pure. intros Hb.
  eapply triple_bind; [by apply partition_holds|]. intros split. apply triple_pure. intros Hfree. cbv zeta.
  destruct (select_top_ranked split.1 draw) as [selection|] eqn:E; [|by apply triple_ret].
  assert (¬ barred (winner_key selection)) as Hw.
  { pose proof (selected_eligible_key draw _ _ E) as [i [-> Hi]]%list_elem_of_fmap.
    by apply (proj1 (Forall_forall _ _) Hfree). }
  eapply triple_weaken; [by apply claim_and_enqueue_holds|done| |done]. intros r s Hs. split; [done|].
  intros Hall. by destruct (Hw (Hall _)).
Qed.

Lemma launch_first_holds ready rows keys exclusions lanes :
  Forall (λ l : TrackerIssue * list string, bites l.1) lanes →
  triple I (launch_first port self ready rows keys exclusions lanes) stays I.
Proof.
  intros Hl. revert exclusions. induction Hl as [|[issue gap] lanes Hi _ IH]; intros exclusions; cbn [launch_first].
  { by apply triple_ret. }
  eapply (triple_bind _ _ (λ e s, I s ∧ (e = None → ¬ barred (issue_key issue)))).
  { destruct (decide (barred (issue_key issue))) as [Hj|Hj].
    - eapply triple_weaken; [by apply holds_standing|done| |done]. intros e s [? [x ->]]. by split.
    - eapply triple_weaken; [by apply (keeps_standing port self free I)|done| |done]. by intros e s ?. }
  intros [e|]; apply triple_pure; intros He; [apply IH|].
  eapply triple_weaken; [by apply launch_holds, He|done| |done]. intros r s Hs. split; [done|].
  intros Hall. by destruct (He eq_refl (Hall _)).
Qed.

(** What else a history may hold. *)
Definition allows (h : happening) : Prop :=
  match h with
  | Pass => True
  | ScopePass ready => Forall (λ l : TrackerIssue * list string, bites l.1) (ready_lanes ready)
  | RunEnded issue o failure => keeps I (record_run_outcome port self issue o failure)
  | Elsewhere f => ∀ s, I s → I (in_world (f (world s)) s)
  end.

Lemma history_holds hs s `{!UniformDraw draw} :
  Addressed port → Forall allows hs → I s →
  let '(s', rs) := history port draw self hs s in
  I s' ∧ ((∀ j, barred j) → Forall (λ r, outcome r = empty_eligible_set) rs).
Proof.
  intros Haddr Hhs. revert s. induction Hhs as [|h hs Hh _ IH]; intros s Hs; cbn [history]; [by split|].
  assert (let '(s1, rs) := happens port draw self h s in
    I s1 ∧ ((∀ j, barred j) → Forall (λ r, outcome r = empty_eligible_set) rs)) as H1.
  { destruct h as [|ready|issue o failure|f]; cbn [happens] in *.
    - pose proof (run_pass_holds Haddr s Hs) as H.
      destruct (run_pass port draw self s) as [s1 [r|e]]; [|by split]. destruct H. split; [done|auto].
    - pose proof (λ rows keys ex, launch_first_holds ready rows keys ex _ Hh s Hs) as H.
      unfold run_scope_pass. cbv zeta. set (rows := snapshot_row <$> _). set (ex := _ ++ _).
      set (keys := _ <$> ready_lanes ready). specialize (H rows keys ex).
      destruct (launch_first port self ready rows keys ex (ready_lanes ready) s) as [s1 [r|e]]; [|by split].
      destruct H. split; [done|auto].
    - specialize (Hh s Hs). destruct (record_run_outcome port self issue o failure s) as [s1 [u|e]]; by split.
    - split; [by apply Hh|done]. }
  destruct (happens port draw self h s) as [s1 rs1]. destruct H1 as [H1 Hr1]. specialize (IH s1 H1).
  destruct (history port draw self hs s1) as [s2 rs2]. destruct IH as [H2 Hr2]. split; [done|].
  intros Hall. apply Forall_app. auto.
Qed.
End bar.
End holds.

(** ** A failed fire *)

Section failed.
Context {W : Type} (port : Ports W) (draw : list string → string) (self : FireDispatcher).
Notation state := (state (W := W)).

(** While [unmoved], the issue [k] was last updated at [t]. *)
Class Unmoved (k : string) (t : Z) (unmoved : W → Prop) : Prop := {
  unmoved_calling A op w : calling port A op → unmoved w → unmoved (op w).1;
  unmoved_backoff b w : unmoved w → unmoved (set_backoff port b w);
  unmoved_scan q w w' l : unmoved w → scan_issues port q w = (w', Ok l) →
    Forall (λ i, issue_key i = k → updated_at i = t) l;
  unmoved_read w w' i : unmoved w → read_issue port k w = (w', Ok i) → updated_at i = t;
}.

Context (k : string) (t : Z) (unmoved : W → Prop) `{Hun : !Unmoved k t unmoved}.

Definition failed_at (d : Dispatcher) : Prop :=
  ∃ r, dict_get (remembered d) k = Some r ∧ remembered_clause r ≠ LIVE_BLOCKER ∧ (t ≤ remembered_at r)%Z.

Definition kept_out (ws0 : list write) (s : state) : Prop :=
  unmoved (world s) ∧ failed_at (memory s) ∧ ∃ ws, writes s = ws0 ++ ws ∧ Claims k ∉ ws.

Lemma kept_out_world ws0 s w : unmoved w → kept_out ws0 s → kept_out ws0 (in_world w s).
Proof. by intros Hw (_ & Hf & Hws). Qed.

Lemma kept_out_memory ws0 s d : failed_at d → kept_out ws0 s → kept_out ws0 (in_memory d s).
Proof. by intros Hd (Hw & _ & Hws). Qed.

Lemma memory_excludes ws0 issue :
  issue_key issue = k → updated_at issue = t → excludes (kept_out ws0) (_memory_exclusion port issue).
Proof.
  intros Hk Ht s Hs. pose proof Hs as (_ & (r & Hr & Hc & Hle) & _).
  unfold _memory_exclusion, mbind, co_mbind, recalls. cbn. rewrite Hk, Hr, Ht, decide_True by lia.
  unfold _still_stands. rewrite decide_False by done. cbn. split; [done|]. by eexists.
Qed.

Lemma kept_out_undisturbed ws0 : Undisturbed port (λ j, j ≠ k) (kept_out ws0).
Proof.
  split.
  - intros A op s Hop Hs. apply kept_out_world; [|done]. destruct Hs as [Hw _].
    by eapply unmoved_calling, Hw; constructor.
  - intros s b Hs _ _. apply kept_out_world; [|done]. by apply unmoved_backoff, Hs.
  - intros s j Hj Hs. apply kept_out_memory; [|done]. destruct Hs as (_ & (r & Hr & Hc & Hle) & _).
    exists r. split; [|done]. cbn. by rewrite dict_get_pop_ne.
  - intros s p ids Hs. by apply kept_out_memory; [apply Hs|].
Qed.

#[local] Instance kept_out_holds ws0 :
  Holds port self (λ j, j = k) (λ i, issue_key i = k → updated_at i = t) (kept_out ws0).
Proof.
  pose proof (kept_out_undisturbed ws0) as Hu. split.
  - exact Hu.
  - intros A op j e s Hop Hj He (Hw & Hf & ws & Hws & Hn). split; [by eapply unmoved_calling|]. split; [done|].
    exists (ws ++ [e]). cbn. rewrite Hws, app_assoc. split; [done|].
    intros [Hin|Hin%list_elem_of_singleton]%elem_of_app; [done|]. symmetry in Hin. by apply He in Hin.
  - intros j r s Hj Hs. apply kept_out_memory; [|done]. destruct Hs as (_ & (r' & Hr & Hc & Hle) & _).
    exists r'. split; [|done]. cbn. by rewrite dict_get_set_ne.
  - intros j id s Hj Hs. by apply kept_out_memory; [apply Hs|].
  - intros issue keys Hk Hb. unfold _exclude. cbn [foldr]. apply excludes_right; [apply keeps_team|].
    apply excludes_left, memory_excludes; auto.
  - intros issue Hk Hb. unfold standing_exclusion. eapply triple_bind; [apply keeps_raises|]. intros keys.
    cbn [foldr]. apply excludes_right; [apply keeps_team|].
    apply excludes_right; [by apply (keeps_route port self (λ j, j ≠ k) (kept_out ws0))|].
    apply excludes_left, memory_excludes; auto.
  - intros q s w l (Hw & _) E. by eapply unmoved_scan.
Qed.

Lemma kept_out_end ws0 issue o failure :
  keeps (kept_out ws0) (record_run_outcome port self issue o failure).
Proof.
  unfold record_run_outcome. case_decide; [apply keeps_ret|]. apply keeps_bind.
  { case_decide; [|apply keeps_ret]. apply keeps_changes. intros s Hs.
    apply kept_out_world; [by apply unmoved_backoff, Hs|done]. }
  intros u. apply keeps_bind; [apply keeps_recalls|]. intros []; [|apply keeps_ret].
  intros s Hs. unfold mbind, co_mbind, awaits, remembers.
  assert (unmoved (read_issue port issue (world s)).1) as Hw.
  { by eapply (unmoved_calling _ (read_issue port issue)), Hs; repeat constructor. }
  destruct (read_issue port issue (world s)) as [w [i|e]] eqn:E; cbn in Hw |- *; rewrite E;
    [|exact (kept_out_world ws0 s w Hw Hs)].
  refine (kept_out_memory ws0 (in_world w s) _ _ (kept_out_world ws0 s w Hw Hs)).
  destruct (decide (issue = k)) as [->|Hne].
  - eexists. cbn. rewrite dict_get_set_eq. split; [done|]. split; [done|]. cbn.
    by rewrite (unmoved_read _ _ _ (proj1 Hs) E).
  - destruct Hs as (_ & (r & Hr & ?) & _). exists r. cbn. by rewrite dict_get_set_ne.
Qed.

(** C7. A failed fire bars its issue from every pass until the issue moves. After the end
    of a run of an issue this dispatcher fired, and as long as the tracker answers that
    the issue was last updated when it then was, no history of passes, scope passes, ends
    of runs and anything else claims it again; and once an update later than that is
    listed, what was remembered excludes it no more. *)
Theorem failed_fire_held (s s1 : state) (o : RunOutcome) (failure : option string)
    (hs : list (happening (W := W)))
    (Hdraw : UniformDraw draw) (Haddr : Addressed port) (Hfired : dict_mem (jobs_by_issue (memory s)) k = true)
    (Ho : o ≠ COMPLETED_RUN) (Hs : unmoved (world s))
    (Hend : record_run_outcome port self k o failure s = (s1, Ok tt))
    (Hhs : Forall (λ h, match h with
                        | ScopePass ready =>
                            Forall (λ l : TrackerIssue * list string, issue_key l.1 = k → updated_at l.1 = t)
                              (ready_lanes ready)
                        | Elsewhere f => ∀ w, unmoved w → unmoved (f w)
                        | _ => True
                        end) hs) :
  (∃ ws, writes (history port draw self hs s1).1 = writes s1 ++ ws ∧ Claims k ∉ ws)
  ∧ ∀ issue, issue_key issue = k → (t < updated_at issue)%Z → (_memory_exclusion port issue s1).2 = Ok None.
Proof.
  assert (kept_out (writes s1) s1 ∧ ∃ r, dict_get (remembered (memory s1)) k = Some r ∧ remembered_at r = t)
    as [Hk (r & Hr & Ht)].
  { revert Hend. unfold record_run_outcome. rewrite decide_False by done. unfold mbind, co_mbind.
    set (m := if decide (failure = _) then _ else _).
    assert (memory (m s).1 = memory s ∧ unmoved (world (m s).1) ∧ (m s).2 = Ok tt) as (Hm & Hw & Hr).
    { subst m. case_decide; [|done]. cbn. split; [done|]. split; [by apply unmoved_backoff|done]. }
    destruct (m s) as [s0 r0]. cbn in *. subst r0. unfold recalls. cbn. rewrite Hm, Hfired. cbn.
    unfold awaits, remembers. destruct (read_issue port k (world s0)) as [w [i|e]] eqn:E; [|done].
    intros [= <-]. pose proof (unmoved_read _ _ _ Hw E) as Hi. cbn. rewrite dict_get_set_eq.
    assert (unmoved w) as Hw'.
    { replace w with (read_issue port k (world s0)).1 by by rewrite E.
      by eapply (unmoved_calling _ (read_issue port k)), Hw; repeat constructor. }
    split; [|by eexists]. split; [done|]. split.
    - eexists. cbn. rewrite dict_get_set_eq. split; [done|]. cbn. split; [done|lia].
    - exists []. rewrite app_nil_r. split; [done|]. apply not_elem_of_nil. }
  split.
  - pose proof (history_holds port draw self _ _ (kept_out (writes s1)) hs s1 Haddr) as H.
    destruct (history port draw self hs s1) as [s2 rs]. apply H; [|done].
    eapply Forall_impl; [exact Hhs|]. intros [|ready|issue o' f'|f] Hh; cbn; [done|exact Hh|apply kept_out_end|].
    intros s' Hs'. apply kept_out_world; [by apply Hh, Hs'|done].
  - intros issue Hi Hlt. unfold _memory_exclusion, mbind, co_mbind, recalls. cbn.
    rewrite Hi, Hr, Ht, decide_False by lia. done.
Qed.
End failed.

(** ** A rate limit *)

Section limited.
Context {W : Type} (port : Ports W) (draw : list string → string) (self : FireDispatcher).
Notation state := (state (W := W)).

(** While [steady], the clock reads within one cooldown of [t0], and the operation's
    cooldown is set by nobody else. *)
Class Steady (t0 : Z) (steady : W → Prop) : Prop := {
  steady_calling A op w : calling port A op → steady w → steady (op w).1 ∧ backoff port (op w).1 = backoff port w;
  steady_clock w : steady w → (t0 ≤ now port w < t0 + cooldown_seconds self)%Z;
  steady_set b w : steady w → steady (set_backoff port b w) ∧ backoff port (set_backoff port b w) = b;
}.

Context (t0 : Z) (steady : W → Prop) `{Hst : !Steady t0 steady}.

Definition cooling (w : W) : Prop :=
  steady w ∧ ∃ b, backoff port w = Some b ∧ (t0 + cooldown_seconds self ≤ until b)%Z.
Definition cooled (ws0 : list write) (s : state) : Prop := cooling (world s) ∧ writes s = ws0.

Lemma cooling_calling A op w : calling port A op → cooling w → cooling (op w).1.
Proof. intros Hop [Hs (b & Hb & Hu)]. destruct (steady_calling A op w Hop Hs) as [? E]. split; [done|]. exists b. by rewrite E. Qed.

Lemma backoff_excludes ws0 issue : excludes (cooled ws0) (_backoff_exclusion port issue).
Proof.
  intros s Hs. pose proof Hs as [[Hw (b & Hb & Hu)] _]. pose proof (steady_clock _ Hw).
  unfold _backoff_exclusion, holding, mbind, co_mbind, observes. cbn. rewrite Hb. cbn.
  rewrite decide_True by lia. cbn. split; [done|]. by eexists.
Qed.

#[local] Instance cooled_holds ws0 : Holds port self (λ _, True) (λ _, True) (cooled ws0).
Proof.
  assert (∀ A op s, reading port A op → cooled ws0 s → cooled ws0 (in_world (op (world s)).1 s)) as Hread.
  { intros A op s Hop [Hc Hw]. split; [|done]. by apply (cooling_calling A); [constructor|]. }
  assert (Undisturbed port (λ j : string, ¬ True) (cooled ws0)) as Hu.
  { split; [done| |by intros s j []|by intros s p ids [? ?]].
    intros s b [[Hw (b' & Hb & Hu)] _] E Hle. pose proof (steady_clock _ Hw). simplify_eq. lia. }
  assert (Undisturbed port (λ j : string, True) (cooled ws0)) as Hu'.
  { split; [done| |done|by intros s p ids [? ?]].
    intros s b [[Hw (b' & Hb & ?)] _] E Hle. pose proof (steady_clock _ Hw). simplify_eq. lia. }
  split; [done|by intros ????? ? []|by intros ??? []|by intros ??? []|..].
  - intros issue keys _ _. unfold _exclude. cbn [foldr]. apply excludes_right; [apply keeps_team|].
    apply excludes_right; [by apply (keeps_memory port (λ _, True) (cooled ws0))|].
    apply excludes_left, backoff_excludes.
  - intros issue _ _. unfold standing_exclusion. eapply triple_bind; [apply keeps_raises|]. intros keys.
    cbn [foldr]. apply excludes_right; [apply keeps_team|].
    apply excludes_right; [by apply (keeps_route port self (λ _, True) (cooled ws0))|].
    apply excludes_right; [by apply (keeps_memory port (λ _, True) (cooled ws0))|].
    apply excludes_left, backoff_excludes.
  - intros. by apply Forall_forall.
Qed.

(** The end of a rate-limited run begins the cooldown anew, that of another leaves it. *)
Lemma end_cools ws0 issue o failure s :
  steady (world s) → writes s = ws0 → o ≠ COMPLETED_RUN →
  failure = Some "RateLimitedSoftFailureError" ∨ cooling (world s) →
  cooled ws0 (record_run_outcome port self issue o failure s).1.
Proof.
  intros Hs Hws Ho Hor. unfold record_run_outcome. rewrite decide_False by done. unfold mbind at 1, co_mbind.
  set (m := if decide (failure = _) then _ else _).
  assert (cooled ws0 (m s).1 ∧ (m s).2 = Ok tt) as [Hm Hr].
  { subst m. case_decide as Hf; [|by destruct Hor]. cbn. split; [|done]. split; [|done]. cbn.
    pose proof (steady_clock _ Hs). pose proof (steady_set (Some {| until := (now port (world s) + cooldown_seconds self)%Z;
      failure_class := "RateLimitedSoftFailureError" |}) _ Hs) as [? E]. split; [done|].
    eexists. split; [exact E|]. cbn. lia. }
  destruct (m s) as [s0 r0]. cbn in Hm, Hr. subst r0.
  assert (∀ m' : co unit, keeps (cooled ws0) m' → cooled ws0 (m' s0).1) as Hkeep.
  { intros m' Hk. specialize (Hk s0 Hm). by destruct (m' s0) as [? []]. }
  apply (Hkeep (fired ← recalls _; _)). apply keeps_bind; [apply keeps_recalls|]. intros []; [|apply keeps_ret].
  apply keeps_bind.
  - apply keeps_awaits. intros s' [Hc Hw']. split; [|done].
    apply (cooling_calling _ (read_issue port issue)); [repeat constructor|done].
  - intros i. apply keeps_remembers. by intros s' [].
Qed.

(** C8. A rate limit rests the whole operation. After the end of a run that was rate
    limited, for as long as the clock reads within one cooldown of [t0], a time not after
    that end, and nobody else clears the cooldown, no history of passes, scope passes, ends
    of runs and anything else writes: every pass reports an empty eligible set. *)
Theorem rate_limit_held (s : state) (issue : string) (o : RunOutcome) (hs : list (happening (W := W)))
    (Hdraw : UniformDraw draw) (Haddr : Addressed port) (Ho : o ≠ COMPLETED_RUN) (Hs : steady (world s))
    (Hhs : Forall (λ h, match h with
                        | Elsewhere f => ∀ w, steady w → steady (f w) ∧ backoff port (f w) = backoff port w
                        | _ => True
                        end) hs) :
  let s1 := (record_run_outcome port self issue o (Some "RateLimitedSoftFailureError") s).1 in
  let '(s2, reports) := history port draw self hs s1 in
  writes s2 = writes s ∧ Forall (λ r, outcome r = empty_eligible_set) reports.
Proof.
  intros s1. assert (cooled (writes s) s1) as Hc by by apply end_cools; auto.
  pose proof (history_holds port draw self (λ _, True) (λ _, True) (cooled (writes s)) hs s1 Haddr) as H.
  destruct (history port draw self hs s1) as [s2 rs].
  assert (Forall (allows port self (λ _, True) (cooled (writes s))) hs) as Hall.
  { eapply Forall_impl; [exact Hhs|]. intros [|ready|j o' f'|f] Hh; cbn; [done|by apply Forall_forall|..].
    - intros s' [Hcool Hw]. destruct (decide (o' = COMPLETED_RUN)) as [->|Ho'].
      + unfold record_run_outcome. by rewrite decide_True.
      + pose proof (end_cools (writes s) j o' f' s' (proj1 Hcool) Hw Ho' (or_intror Hcool)) as Hend.
        destruct (record_run_outcome port self j o' f' s') as [s'' []]; exact Hend.
    - intros s' [[Hw (b & Hb & ?)] Hws]. destruct (Hh _ Hw) as [? E]. split; [|done]. split; [done|].
      exists b. cbn. by rewrite E. }
  destruct (H Hall Hc) as [[_ Hw] Hr]. auto.
Qed.
End limited.

(** ** On the board of one issue *)

Lemma board_unmoved : Unmoved board_port "K-1" 0 (λ _, True).
Proof.
  split; [done|done|..].
  - intros q w w' l _ [= _ <-]. by repeat constructor.
  - intros w w' i _. cbn. unfold told, addressed. cbn. by intros [= _ <-].
Qed.

Definition board_fired : state (W := desk) := (run_pass board_port first_of board_dispatcher board_start).1.
Definition board_failed : state (W := desk) :=
  (record_run_outcome board_port board_dispatcher "K-1" FAILED (Some "ValueError") board_fired).1.

Example failed_fire_held_witness :
  Claims "K-1" ∈ writes board_failed
  ∧ ∃ ws, writes (history board_port first_of board_dispatcher [Pass; Pass] board_failed).1
      = writes board_failed ++ ws ∧ Claims "K-1" ∉ ws.
Proof.
  split; [vm_compute; left|].
  assert (record_run_outcome board_port board_dispatcher "K-1" FAILED (Some "ValueError") board_fired
    = (board_failed, Ok tt)) as Hend.
  { unfold board_failed. rewrite (surjective_pairing (record_run_outcome _ _ _ _ _ _)) at 1. f_equal; vm_compute; reflexivity. }
  apply (failed_fire_held board_port first_of board_dispatcher "K-1" 0 (λ _, True) (Hun := board_unmoved)
    board_fired board_failed FAILED (Some "ValueError") [Pass; Pass] first_of_draws
    (desk_addressed queue_settings board_answers)); [by vm_compute|done|done|exact Hend|by repeat constructor].
Defined.

Lemma board_steady : Steady board_port board_dispatcher 0 (λ _, True).
Proof.
  split; [|done|done]. intros A op d Hop. split; [done|].
  destruct Hop as [A op Hop| | | |l rq]; [by destruct Hop|done..|].
  cbn. unfold submit_desk. case_match; [done|]. by case_match.
Qed.

Example rate_limit_held_witness :
  let s1 := (record_run_outcome board_port board_dispatcher "K-2" FAILED
               (Some "RateLimitedSoftFailureError") board_start).1 in
  let '(s2, reports) := history board_port first_of board_dispatcher [Pass; Pass] s1 in
  writes s2 = [] ∧ Forall (λ r, outcome r = empty_eligible_set) reports ∧ length reports = 2.
Proof.
  pose proof (rate_limit_held board_port first_of board_dispatcher 0 (λ _, True) (Hst := board_steady)
    board_start "K-2" FAILED [Pass; Pass] first_of_draws (desk_addressed queue_settings board_answers)
    ltac:(done) Logic.I ltac:(by repeat constructor)) as H.
  cbv zeta in H |- *.
  assert (length (history board_port first_of board_dispatcher [Pass; Pass]
    (record_run_outcome board_port board_dispatcher "K-2" FAILED
      (Some "RateLimitedSoftFailureError") board_start).1).2 = 2) as El by by vm_compute.
  destruct (history _ _ _ _ _) as [s2 rs]. destruct H as [Hw Hr]. cbn in El. auto.
Defined.
