(* ===== verification/ScopePasses.v ===== *)
(** * What a scope's pass fires.

    The ready set of [ScopeReady] behind the pass of [FireDispatcher]: what a scope's pass
    claims is a lane that was ready, for exactly the criteria it still owes. *)

From S2P Require Import BaseResolution LaneRecord LaneEntry FireSpec Gap Topology IssueTree FireCriteria.
From S2P Require Import ScopeWalker ScopeReady ScopeEnds.
From S2P Require Import Prelude PyStr PyLines Tracker Errors Dispatch Outcome JobQueue Operation RunRecords FireContext FireDispatcher.
From S2P Require Import FireDispatcherSpec FireQueue DispatchPasses.

Local Open Scope nat_scope.

Section passes.
Context {W : Type} (port : Ports W) (self : FireDispatcher).
Notation state := (state (W := W)).

(** A report that claims something claims the winner, for the selection's criteria. *)
Definition claims_for (winner : TrackerIssue) (sel : Selected) (r : DispatchReport) : Prop :=
  ∀ k, claimed_issue_key r = Some k → k = issue_key winner ∧ criterion_keys r = selected_criteria sel.

Definition always {A} (m : co (W := W) A) (P : A → Prop) : Prop := ∀ s, match m s with (_, Ok a) => P a | (_, Err _) => True end.

Lemma always_ret {A} (a : A) (P : A → Prop) : P a → always (mret a) P.
Proof. by intros H s. Qed.

Lemma always_bind {A B} (m : co A) (f : A → co B) P : (∀ a, always (f a) P) → always (m ≫= f) P.
Proof. intros H s. unfold mbind, co_mbind. destruct (m s) as [s' [a|e]]; [apply H|done]. Qed.

Lemma launch_claims winner sel : always (launch port self winner sel) (claims_for winner sel).
Proof.
  apply always_bind. intros claim. destruct (claim_status claim); [|by apply always_ret..].
  intros s. unfold try_else. destruct (resolve_winner port self winner s) as [s1 [spec|e]].
  - revert s1. change (always (enqueue port self winner sel spec) (claims_for winner sel)). unfold enqueue.
    apply always_bind. intros context. apply always_bind. intros recorded. cbv zeta.
    apply always_bind. intros u. apply always_bind. intros record. apply always_bind. intros u'.
    apply always_ret. by intros k [= <-].
  - destruct (base_refusal_text e) as [reason|]; cbn; [|done]. revert s1.
    change (always (base_refused port self winner sel reason) (claims_for winner sel)). unfold base_refused.
    apply always_bind. intros u. apply always_bind. intros i. apply always_bind. intros u'.
    apply always_ret. by intros k [= <-].
Qed.

Lemma launch_first_claims ready rows keys exclusions lanes :
  always (launch_first port self ready rows keys exclusions lanes)
    (λ r, ∀ k, claimed_issue_key r = Some k → ∃ l, l ∈ lanes ∧ issue_key l.1 = k ∧ criterion_keys r = l.2).
Proof.
  revert exclusions. induction lanes as [|[issue gap] lanes IH]; intros exclusions; cbn [launch_first].
  - by apply always_ret.
  - apply always_bind. intros [e|].
    + intros s. specialize (IH (exclusions ++ [e]) s). destruct (launch_first _ _ _ _ _ _ lanes s) as [s' [r|x]]; [|done].
      intros k Hk. destruct (IH k Hk) as (l & ? & ?). exists l. split; [by right|done].
    + intros s. pose proof (launch_claims issue {| selected_rows := rows; selected_exclusions := exclusions;
        selected_eligible := keys; selected_tied := []; selected_criteria := gap |} s) as H.
      destruct (launch port self issue _ s) as [s' [r|x]]; [|done]. intros k Hk. destruct (H k Hk) as [-> Hc].
      exists (issue, gap). split; [left|by split].
Qed.

Lemma offered_lanes set ready : offered set = Ok ready →
  ready_lanes ready = (λ lane, (ScopeWalker.lane_issue lane, issue_key <$> ScopeWalker.lane_gap lane)) <$> ready_lanes_of set.
Proof. unfold offered. cbv zeta. intros (b & _ & [= <-])%bind_ok. done. Qed.

(** C11. A scope's pass fires what is ready, for what it owes. Whatever the tracker, the
    queue, git and the forge answered, if a pass over a ready set that was read claims an
    issue, then that issue is a lane of the scope as its plan was read, approved, with an
    open criterion beneath it and no member that owes in front of it, in the facts of the
    trees that were read, each twice the same; and the report names exactly the open
    criteria beneath it, in the subtree's order. *)
Theorem scope_fire_ready (board_size : nat) (stage : bool) (ref : ScopeRef) (reads : Readings)
    (set : ScopeReadySet) (ready : ReadySet) (s s' : state) (report : DispatchReport) (k : string)
    (Hread : read_scope_ready board_size stage ref reads = Some (Ok set))
    (Hoffered : offered set = Ok ready)
    (Hpass : run_scope_pass port self ready s = (s', Ok report))
    (Hclaim : claimed_issue_key report = Some k) :
  ∃ plan facts lane,
    (_read_plan board_size stage ref (plan_read reads) = Some (Ok plan) ∧ scope_of set = plan_scope plan)
    ∧ facts_read board_size stage ref reads set facts
    ∧ lane ∈ ready_lanes_of set ∧ issue_key (ScopeWalker.lane_issue lane) = k
    ∧ ready_for reads facts (held_read stage set facts) set lane
    ∧ criterion_keys report = issue_key <$> open_of (lane_criteria lane) ∧ criterion_keys report ≠ [].
Proof.
  unfold run_scope_pass in Hpass. cbv zeta in Hpass.
  pose proof (λ rows keys ex, launch_first_claims ready rows keys ex (ready_lanes ready) s) as H.
  match type of Hpass with launch_first _ _ _ ?rows ?keys ?ex _ _ = _ => specialize (H rows keys ex) end.
  rewrite Hpass in H. destruct (H k Hclaim) as (l & Hl & <- & ->). rewrite (offered_lanes _ _ Hoffered) in Hl.
  apply list_elem_of_fmap in Hl as (lane & -> & Hlane). cbn [fst snd].
  apply read_scope_ready_answered in Hread as (plan & ms & facts & held & s0 & b & topology & HA).
  pose proof (says_ready _ _ _ _ _ _ _ _ _ _ _ _ HA lane Hlane) as Hready.
  destruct (answered_reads _ _ _ _ _ _ _ _ _ _ _ _ HA) as [Hfacts Hheld]. rewrite Hheld in Hready. exists plan, facts, lane.
  pose proof Hready as (_ & _ & _ & _ & _ & Hgap & Hne & _). split_and!; try done.
  - apply (answered_plan _ _ _ _ _ _ _ _ _ _ _ _ HA).
  - apply (answered_scope _ _ _ _ _ _ _ _ _ _ _ _ HA).
  - by rewrite Hgap.
  - by intros Hnil%fmap_nil_inv.
Qed.
End passes.

Definition fired_for (r : looping ScopeReadySet) : option (result exn DispatchReport) :=
  match r with
  | Some (Ok set) =>
      match offered set with
      | Ok ready => Some (run_scope_pass board_port board_dispatcher ready board_start).2
      | Err _ => None
      end
  | _ => None
  end.

Lemma fired_for_inv r report : fired_for r = Some (Ok report) → ∃ set ready s', r = Some (Ok set)
  ∧ offered set = Ok ready ∧ run_scope_pass board_port board_dispatcher ready board_start = (s', Ok report).
Proof.
  unfold fired_for. destruct r as [[set|e]|]; [|done..]. destruct (offered set) as [ready|e] eqn:Eo; [|done].
  intros [= Er]. exists set, ready. eexists. split_and!; [done..|]. rewrite <-Er. apply surjective_pairing.
Qed.

Definition told_of (o : option (result exn DispatchReport)) : DispatchOutcome * option string * list string :=
  match o with
  | Some (Ok r) => (outcome r, claimed_issue_key r, criterion_keys r)
  | _ => (empty_eligible_set, None, [])
  end.

Lemma sample_fired : told_of (fired_for (read_scope_ready 8 true sample_ref sample_reads))
  = (fire_enqueued, Some "L", ["c2"; "c3"; "c1"]).
Proof. vm_compute. reflexivity. Qed.

Example scope_fire_ready_witness :
  ∃ set ready report s', read_scope_ready 8 true sample_ref sample_reads = Some (Ok set)
    ∧ offered set = Ok ready
    ∧ run_scope_pass board_port board_dispatcher ready board_start = (s', Ok report)
    ∧ outcome report = fire_enqueued ∧ criterion_keys report = ["c2"; "c3"; "c1"]
    ∧ ∃ facts lane, facts_read 8 true sample_ref sample_reads set facts ∧ lane ∈ ready_lanes_of set
        ∧ ready_for sample_reads facts (held_read true set facts) set lane.
Proof.
  pose proof sample_fired as H. revert H.
  destruct (fired_for (read_scope_ready 8 true sample_ref sample_reads)) as [[report|e]|] eqn:Ef; intros H; [|done..].
  injection H as Ho Hc Hk. apply fired_for_inv in Ef as (set & ready & s' & E & Eo & Er).
  exists set, ready, report, s'. split; [exact E|]. split; [exact Eo|]. split; [exact Er|]. split; [exact Ho|]. split; [exact Hk|].
  destruct (scope_fire_ready board_port board_dispatcher 8 true sample_ref sample_reads set ready board_start s' report
    "L" E Eo Er Hc) as (plan & facts & lane & _ & Hfacts & Hin & _ & Hready & _).
  exists facts, lane. split; [exact Hfacts|]. split; [exact Hin|exact Hready].
Defined.
